(* ===== verification/_CoqProject ===== *)
-Q . S2P
Prelude.v
Text.v
Float.v
Hlc.v
OrSet.v
Lww.v
ContextState.v
ContextCompact.v
ContextCrdt.v
CircuitBreaker.v
TtlCache.v
Net.v
RateWindow.v
Limiter.v
TokenRate.v
Admission.v
SizeLimit.v
L1Cache.v
Classify.v
Tokenize.v
EventWal.v
EventWalDisk.v
EventWalQueue.v
EventWalSystem.v
EventWalCrash.v
EventDelivery.v
GatewayAuth.v
CrdtSync.v
CrdtSyncProofs.v
CrdtSyncModel.v
Policy.v
ToolAccess.v
Rbac.v
ToolCalls.v
Firewall.v
PolicyChain.v
DistributedState.v
DistributedLimit.v
DistributedLimiter.v
Detection.v
Redaction.v
Sse.v
Streaming.v
HealthMonitor.v
FormatTranslation.v
StreamTranslation.v
StreamProtocol.v
RequestText.v
OutboundFetch.v
UsageAuthorization.v
UsageLifecycle.v
FloatInt.v
ProviderSelection.v
ProviderRouting.v
ToolGuard.v
McpBridge.v
AuditText.v
SealedOutbox.v
SealedCalls.v
