(* ===== verification/Prelude.v ===== *)
(** * Verdictan gateway: verification library (root file)

    ** The program

    Verdictan is a gateway in front of language-model providers.  A request
    passes admission (size limits, rate windows, admission counters, the
    adaptive limiter of its provider, a circuit breaker), is judged by a chain
    of policies on the verified identity of its caller, is classified and
    tokenized when the workload is regulated, is answered from caches where
    possible, is authorised and paid for, is routed to the providers that may
    serve it and translated to their wire format; the answer is governed while it
    streams back and translated again.  Requests feed a context pool that the
    gateways of a team replicate between them; what happened is written to an event
    log and delivered to the control plane, and published tools run only under a
    durable record.  This library models the components of src/src/gateway,
    src/src/policy and src/src/mcp that carry that logic and proves what they promise.

    ** Files

    - [Prelude]: machine-width integers ([wrap32], [wrap64], [sat_*]), results,
      the interfaces [JoinSemilattice] of the replicated data types and
      [BTreeKey] of ordered map keys, instants ([instant_add]), list and map
      lemmas, the tactics [width_lia] and [bool_to_prop], and the hint database
      [verdictan].
    - [Text], [Float]: what the gateway uses of Rust's [str] and [f64]: strings
      as UTF-8 bytes, binary64 as the Standard Library's [spec_float].
    - [Hlc], [OrSet], [Lww], [ContextState], [ContextCompact], [ContextCrdt]
      (crdt.rs): hybrid logical clocks, the observed-remove set, last-writer-wins
      registers over JSON values, the context state with its merge and reads,
      its garbage collection, and the replica that owns a clock and a state.
    - [CircuitBreaker] (circuit_breaker.rs): the three-state breaker of every
      provider, snapshots and reloads, and the configuration parser.
    - [TtlCache] (bounded_ttl_cache.rs): the map with two lazily cleaned heaps.
    - [Net] (network.rs and [extract_client_ip] of rate_limit.rs): addresses,
      allow-lists, and the client address behind trusted proxies.
    - [RateWindow] and [Limiter] (rate_limit.rs): the fixed-window limiters and
      the adaptive concurrency limiter with the provider's quota headers.
    - [TokenRate] (token_rate_limit.rs): sliding token windows and budgets.
    - [Admission] (admission_control.rs): the lock-free counters per region and
      per model family, every atomic operation a step of its own.
    - [SizeLimit] (size_limit.rs, bounded_chunk_reader.rs): declared sizes and
      the bounded reader of upstream bodies.
    - [L1Cache] (cache/l1.rs): the partitioned context plan cache with its LRU
      order, byte accounting and invalidation; it takes its plan size limit
      from [SizeLimit].
    - [Classify] and [Tokenize] (data_classification.rs, token_vault.rs,
      tokenization.rs): the detectors, and the replacement of what they find by
      tokens of a vault.
    - [EventWal], [EventWalDisk], [EventWalQueue], [EventWalSystem],
      [EventWalCrash] (event_wal.rs): the write-ahead log on a directory of
      byte files with its operations; the layout invariant of the directory;
      the records and the checkpoint as a queue; runs of the whole log; crashes
      inside a write.
    - [EventDelivery] (event_delivery.rs): envelopes, their persistence in the
      log, and the worker that delivers them to the control plane.
    - [GatewayAuth] (jwt_auth.rs): keys, revocations, tokens of the gateway and
      of its peers, and the verification of incoming tokens, in a small monad of
      state, errors and outgoing requests.
    - [CrdtSync], [CrdtSyncProofs], [CrdtSyncModel] (crdt_sync.rs): the exchange
      of context states between gateways, every suspension point of a request
      and of the retry worker a step; its theorems; and a concrete instance of
      its parameters with the witnesses.
    - [Policy] (identity.rs, the types of enforcement.rs): verdicts, policy
      results and authenticated identities.
    - [ToolAccess] and [Rbac] (policy/evaluator.rs): glob patterns and tool
      access; role-based access control.
    - [ToolCalls] (structured_tool_calls.rs): the tool calls of documents and of
      streams in canonical form.
    - [Firewall] and [PolicyChain] (enforcement.rs, and the chain of a request in
      server_sections/runtime_pipeline/part2.rs): the agent firewall, and the
      policies that judge a request, their evaluation and their decision.  The
      chain takes [Rbac] and [Firewall] as policies, the firewall takes the
      patterns of [ToolAccess] and the calls of [ToolCalls].
    - [DistributedState], [DistributedLimit], [DistributedLimiter]
      (distributed_state.rs, distributed_rate_limit.rs): the state of the shared
      backend, the atomic script on its sorted sets, and the limiter that falls
      back to local windows.
    - [Detection] and [Redaction] (detection/*.rs, redaction.rs): the validators and
      detectors of personal, payment and health data, and the masking of what they
      find.
    - [Sse] and [Streaming] (sse.rs, request_pipeline/streaming.rs): event streams
      in chunks, and the governor that holds, checks, redacts or blocks them.
    - [HealthMonitor] (health_monitor.rs, health_probe.rs): the health of providers
      and credentials.
    - [FormatTranslation], [StreamTranslation], [StreamProtocol]
      (format_translation.rs): documents and streams between wire formats; the
      protocol the translated streams obey, and the witnesses.
    - [RequestText] (content_extraction.rs, token_estimation.rs): the texts of a
      request, which policies read, redaction rewrites and estimates count.
    - [OutboundFetch] (content_extraction.rs): the pages that a request links to,
      fetched from checked addresses within a shared byte budget.
    - [UsageAuthorization], [UsageLifecycle] (usage_authorization.rs, its pipeline,
      retry.rs): the gate in front of a request with its policy cache, and the
      authorisation, dispatch and settlement of a paid one.
    - [FloatInt], [ProviderSelection] (provider_metrics.rs): integers inside
      binary64, and the order of providers under every strategy.
    - [ProviderRouting] (auto_provider.rs, the filters of providers.rs and of the
      request pipeline): which of the selected providers may serve a request.  It
      takes the order of [ProviderSelection] and the estimates of [RequestText].
    - [ToolGuard] (tool_budget.rs, tool_validation.rs, tool_security.rs,
      tool_risk_policy.rs, detection/entities.rs): what is checked of declared tools
      and of one tool action, and the digest and evidence it leaves.
    - [McpBridge] (runtimes/network/mcp.rs): tool calls to other servers: governed by
      [ToolGuard], annotated, limited per endpoint, and their answers.
    - [AuditText], [SealedOutbox], [SealedCalls] (src/src/mcp/audit.rs): the record of a
      published tool call: the text that is sealed, the log and checkpoint that hold
      the records, and the worker, the phases of a call and the recovery of records.

    Definitions keep the names of the source; where a name clashes with
    another one of the file it carries the type as a prefix ([vault_new],
    [state_merge_in]).  A [HashMap] or [BTreeMap] is a [gmap], an ordered map
    whose order matters a list; a body under a mutex is one function on the
    state, and an operation on atomics a step.  Instants are nanoseconds of
    the monotonic clock and wall times milliseconds, passed as arguments.
    Integers are [Z] with their width written out: the release profile wraps
    on [+], and the theorems state the bounds under which it does not.

    ** What the theorems show

    - Replication ([Hlc], [OrSet], [Lww], [ContextState], [ContextCompact],
      [ContextCrdt]): timestamps strictly increase and dominate what was
      observed; the merge loops compute the pointwise join, a semilattice, so
      replicas that merged the same states in any order agree; removal hides
      exactly the observed adds; a replica's clock dominates its state, hence
      writes read back; compaction changes no read and drops what it should.
    - Traffic control ([CircuitBreaker], [RateWindow], [Limiter], [TokenRate],
      [Admission], [SizeLimit]): invariants over every sequence or interleaving
      of operations: no over-admission, no leaked capacity, exact answers per
      window, the limits of the sliding window, the behaviour of a breaker
      through its states, additive increase and multiplicative decrease, and
      bodies read within a bounded buffer.
    - Caches ([TtlCache], [L1Cache]): the heap-based cache refines an
      insertion-ordered list; byte accounting is exact in every interleaving that
      does not insert inside a clear, a lookup answers only for the authorization
      asked, and invalidation is complete and precise.
    - Privacy ([Net], [Classify], [Tokenize]): the client address is the
      rightmost untrusted hop; reported spans are right and nothing a detector
      finds is lost; tokenization replaces exactly the kept spans, invertibly.
    - Events ([EventWal*], [EventDelivery]): while payloads read back as they were
      written and failed writes are rolled back, the log is a first-in first-out
      queue within its byte limit through appends, reservations, deliveries and
      restarts; events are settled in order, each by the answer to its own request,
      and all of them against a control plane that acknowledges in short bodies.
    - Authentication and synchronisation ([GatewayAuth], [CrdtSync*]): a token is
      accepted only when it is valid for this gateway and never once revoked; a
      replica changes only by local mutations and authorized envelopes; an
      envelope delivers its state; replays are recognised.
    - Policies ([Policy], [ToolAccess], [Rbac], [ToolCalls], [Firewall],
      [PolicyChain]): exact characterisations of what identities, patterns, roles
      and the firewall accept; streams are reassembled; parallel batches do not
      change a decision, unknown policies block, the strictest stage wins, and a
      request that passes calls permitted tools only.
    - Shared limits ([Distributed*]): a fleet whose clocks agree with the shared
      backend's admits no more than its limit in any window, whatever the
      interleaving; a clock that runs ahead exceeds it.
    - Content ([Detection], [Redaction], [RequestText], [OutboundFetch]): redaction
      replaces exactly the chosen spans and reaches every text segment of a
      request; policies read what it rewrites; fetched addresses are public, pages
      come back in order and within the byte budget.
    - Streams ([Sse], [Streaming], [StreamTranslation], [StreamProtocol]): the
      chunking of a stream does not matter; nothing leaves the governor before it
      is checked; translated streams of the providers' own formats keep text and
      calls, and those of one answer are well formed.
    - Documents ([FormatTranslation]): conversations round-trip between formats and
      tool calls survive.
    - Providers ([HealthMonitor], [UsageAuthorization], [UsageLifecycle],
      [ProviderSelection], [ProviderRouting]): the gate fails closed; the
      authorisation of a delivered response is settled once, that of an undelivered
      one not at all, and attempts are bounded; smooth weighted round robin is exactly
      fair over a cycle; routing ends and gives only targets that every constraint
      admits; the scoring of the provider pool and the automatic scoring, written
      twice in the code and here, agree.
    - Tools ([ToolGuard], [McpBridge]): exactly which actions are allowed, and which
      arguments a digest tells apart; bridged calls stay within their limits and are
      sent only as their own configuration allows; the two evaluations of a call agree.
    - Tool records ([AuditText], [SealedOutbox], [SealedCalls]): no crash and no failed
      I/O in an append or a compaction loses a record or makes one up; an effect runs only after its
      record is durable; records are forgotten only when they are acknowledged, and an
      effect of unknown outcome stops every other call; a sealed text does not depend
      on the bearer tokens of the original.
    - Failures: a slice off a character boundary and an instant out of range
      panic in the code; here they are values, and theorems of [Classify],
      [Tokenize], [Limiter] and [CircuitBreaker] describe the inputs on which
      the code panics, keeps part of a secret in clear or truncates its
      configuration.  [EventWalCrash], [EventDelivery], [CrdtSyncProofs],
      [GatewayAuth], [Rbac], [ToolCalls] and [Firewall] do the same for events
      lost after a torn write, queues blocked by a long answer, states that
      never synchronise and patterns that never match; [Redaction],
      [StreamProtocol], [FormatTranslation], [RequestText], [OutboundFetch],
      [UsageAuthorization], [UsageLifecycle], [ProviderSelection],
      [ProviderRouting], [ToolGuard] and [McpBridge] for texts that are not read or
      not masked, decisions cached across contexts, authorisations that leak, price
      ceilings that never exclude, and budgets of calls that are never spent;
      [AuditText], [SealedOutbox] and [SealedCalls] for keys behind a bare prefix,
      tokens behind two spaces, a panic, records hidden by a second owner of the files,
      and calls whose settlement loses against a recovery; [L1Cache] and
      [DistributedLimiter] for a clear that races an insertion and for skewed clocks.

    ** Bounds and fuel

    Loops over collections recurse on the collection.  The clean-up loops of
    [TtlCache] have the length of the heap they pop as fuel, the eviction loop
    of [L1Cache] the number of cached plans, one of which each round removes,
    and [Classify.dedup] the length of its list; the invariants proved of the
    results would fail if a loop stopped short.  [PolicyChain.evaluate_loop] has
    one unit of fuel per entry of the chain, and is proved to end within it.
    Draining and searching strings has their length as fuel, a retried call the
    number of its attempts, and a chain of model groups the number of groups, none
    of which is visited twice; each is proved to be enough.  So are the passes of
    [AuditText] over tokens, keys and key values, whose fuel is the length of the text;
    its scans for fixed patterns move by a byte at least.  A request body has
    fewer than 2^64 nodes, as memory does.  Theorems about counters assume
    at most [u64_max] operations, the only bound under which a 64-bit counter
    is exact.

    ** Parameters

    Code outside the repository is a parameter with its documented behaviour as
    the hypothesis: [serde_json]'s printer ([Lww.SerdeJson], with the instance
    [Lww.JsonModel]), the binary codec of states, the [ipnet] networks, the
    date formats of [chrono], SHA-256, the iteration order of a [HashMap]
    where it decides (a permutation of its entries), HTTP header lookup, and
    [char::is_alphanumeric] outside ASCII; the texts and checksums of log
    records ([EventWal.WalCodec], instance [EventWalSystem.WalModel]) and of envelopes
    ([EventDelivery.EnvelopeCodec], instance [EventDelivery.SinkModel]); the token
    library ([GatewayAuth.JwtLib], instance [GatewayAuth.AuthModel]) with the
    HTTP answers and clock readings of a call as its environment; the codec of
    synchronisation ([CrdtSync.SyncCodec], instance in [CrdtSyncModel]); the JSON
    parser, the regular-expression library and the derived deserialisers of
    [ToolCalls], [Firewall] and [PolicyChain].  The detectors of personal and of
    health information, and the policies of other kinds, are arguments too:
    [Rbac], [Firewall] and [PolicyChain] hold whatever they find.  So are the
    compiled patterns of the detectors ([Detection.Regexes], instance
    [DemoRegex]), the sorted sets of the shared store ([DistributedLimit]), the
    readings of JSON numbers ([as_u64], [as_f64]), the client of usage
    authorisations ([UsageAuthorization.UaLib], instance [UaModel.lib]), the URL
    parser, resolver and HTTP client of [OutboundFetch], the iteration order of the
    metrics ([hash_iter]), the embeddings that semantic routing asks a provider
    for ([embed]), the compiler of JSON schemas ([compile]), the environment ([env])
    and the answers of the services that judge tools ([send]).  The serialisers and
    hashes of the outbox are [SealedOutbox.OutboxCodec] (instance [DemoOutbox]), the
    cipher, UUIDs, encodings and configured key of a sealed call
    [SealedCalls.SealLib] (instance [DemoCalls]), and the answers of the control plane
    arguments.

    ** Not modelled

    HTTP servers, the clients of providers and the dispatch to them, external
    stores, the detectors that call remote services or score quality, policy
    linting, the declarative configuration, the command line and the managed
    control plane: input and output around the modelled parts, or documents that
    are only deserialised.  Within the modelled files: logging, telemetry,
    serialization attributes and the readings of the system clock; of
    event_delivery.rs the clients of the control plane for budgets and routing and
    the encryption of quarantined documents; of the request pipeline the bodies of
    error answers, and of its routes only what they settle of a buffered chat request;
    of mcp/audit.rs what a worker does after a failed write that was not a crash, other
    writers of the outbox's files beyond one append, and the resolution of regions. *)

From Stdlib Require Import ZArith Ascii String.
From stdpp Require Import base gmap sets list strings sorting.

Declare Scope verdictan_scope.
Delimit Scope verdictan_scope with verdictan.

Create HintDb verdictan.

(** ** Machine-width integers

    Integers are kept in [Z] with their width written out.  The shipped
    profile (release, [overflow-checks] off) wraps on [+], which [wrap32] and
    [wrap64] spell out; [saturating_*] operations are the [sat_*] functions. *)

Definition u32_max : Z := 2 ^ 32 - 1.
Definition u64_max : Z := 2 ^ 64 - 1.
Definition i64_min : Z := - 2 ^ 63.
Definition i64_max : Z := 2 ^ 63 - 1.

Definition wrap32 (z : Z) : Z := z mod 2 ^ 32.
Definition wrap64 (z : Z) : Z := z mod 2 ^ 64.

(** [u32::saturating_add], [u64::saturating_add] on non-negative operands. *)
Definition sat_add32 (a b : Z) : Z := Z.min u32_max (a + b).
Definition sat_add64 (a b : Z) : Z := Z.min u64_max (a + b).
Definition sat_mul64 (a b : Z) : Z := Z.min u64_max (a * b).
(** [u64::saturating_sub] and [Instant::duration_since], which clamp at 0. *)
Definition sat_sub (a b : Z) : Z := Z.max 0 (a - b).
(** [i64::saturating_sub]. *)
Definition sat_sub_i64 (a b : Z) : Z := Z.max i64_min (Z.min i64_max (a - b)).

(** [Duration::from_secs] and [Instant + Duration], in nanoseconds.  On Unix an
    instant has 64-bit signed seconds; a sum past its range panics ([None]). *)
Definition from_secs (s : Z) : Z := s * 1000000000.
Definition instant_max : Z := i64_max * 1000000000 + 999999999.
Definition instant_add (now delay : Z) : option Z :=
  if (now + delay <=? instant_max)%Z then Some (now + delay)%Z else None.

Definition u32_ok (z : Z) : Prop := (0 ≤ z ≤ u32_max)%Z.
Definition u64_ok (z : Z) : Prop := (0 ≤ z ≤ u64_max)%Z.

(** Unfold every width definition and call [lia]. *)
Ltac width_lia :=
  unfold u32_ok, u64_ok, sat_add32, sat_add64, sat_mul64, sat_sub, sat_sub_i64,
    u32_max, u64_max, i64_min, i64_max in *;
  change (2 ^ 32)%Z with 4294967296%Z in *;
  change (2 ^ 63)%Z with 9223372036854775808%Z in *;
  change (2 ^ 64)%Z with 18446744073709551616%Z in *;
  lia.

Lemma wrap32_small z : u32_ok z → wrap32 z = z.
Proof. intros H. unfold wrap32. apply Z.mod_small. width_lia. Qed.

Lemma wrap64_small z : u64_ok z → wrap64 z = z.
Proof. intros H. unfold wrap64. apply Z.mod_small. width_lia. Qed.

Lemma wrap32_range z : u32_ok (wrap32 z).
Proof.
  unfold wrap32. pose proof (Z.mod_pos_bound z (2 ^ 32) ltac:(lia)).
  width_lia.
Qed.

Lemma wrap64_range z : u64_ok (wrap64 z).
Proof.
  unfold wrap64. pose proof (Z.mod_pos_bound z (2 ^ 64) ltac:(lia)).
  width_lia.
Qed.

#[export] Hint Resolve wrap32_range wrap64_range : verdictan.

(** Turn the boolean tests of the code into the propositions they decide. *)
Ltac bool_to_prop :=
  repeat match goal with
  | H : (_ && _)%bool = true |- _ => apply andb_true_iff in H as [? ?]
  | H : (_ || _)%bool = false |- _ => apply orb_false_iff in H as [? ?]
  | H : negb _ = true |- _ => apply negb_true_iff in H
  | H : negb _ = false |- _ => apply negb_false_iff in H
  | H : bool_decide _ = true |- _ => apply bool_decide_eq_true in H
  | H : bool_decide _ = false |- _ => apply bool_decide_eq_false in H
  | H : (_ <? _)%Z = true |- _ => apply Z.ltb_lt in H
  | H : (_ <? _)%Z = false |- _ => apply Z.ltb_ge in H
  | H : (_ <=? _)%Z = true |- _ => apply Z.leb_le in H
  | H : (_ <=? _)%Z = false |- _ => apply Z.leb_gt in H
  | H : (_ =? _)%Z = true |- _ => apply Z.eqb_eq in H
  | H : (_ =? _)%Z = false |- _ => apply Z.eqb_neq in H
  end.

(** ** Results

    [Result<T, E>] as an inductive type with the source's constructors. *)
Inductive Result (T E : Type) : Type :=
| Ok (value : T)
| Err (error : E).
Arguments Ok {T E} value.
Arguments Err {T E} error.

Definition is_ok {T E} (r : Result T E) : bool :=
  match r with Ok _ => true | Err _ => false end.

(** ** Ordered keys and BTree iteration

    [BTreeMap<K, V>] and [BTreeSet<K>] are [gmap K V] and [gset K]; what the
    source observes of the tree is that iteration follows the key order, which
    [btree_iter] and [btree_set_iter] add. *)

Class BTreeKey (K : Type) `{Countable K} := {
  key_le : relation K;
  key_le_dec :: RelDecision key_le;
  key_le_po :: PartialOrder key_le;
  key_le_total :: Total key_le;
}.

#[export] Instance string_key : BTreeKey string := {| key_le := String.le |}.

Section btree.
Context {K} `{BTreeKey K}.

Definition entry_le {A} (p q : K * A) : Prop := key_le p.1 q.1.
#[export] Instance entry_le_dec {A} : RelDecision (@entry_le A).
Proof. intros p q. unfold entry_le. apply _. Defined.

Definition btree_iter {A} (m : gmap K A) : list (K * A) :=
  merge_sort entry_le (map_to_list m).
Definition btree_set_iter (s : gset K) : list K :=
  merge_sort key_le (elements s).

Lemma btree_iter_perm {A} (m : gmap K A) : btree_iter m ≡ₚ map_to_list m.
Proof. apply merge_sort_Permutation. Qed.

Lemma btree_set_iter_perm (s : gset K) : btree_set_iter s ≡ₚ elements s.
Proof. apply merge_sort_Permutation. Qed.

Lemma btree_iter_NoDup {A} (m : gmap K A) : NoDup (btree_iter m).*1.
Proof. rewrite btree_iter_perm. apply NoDup_fst_map_to_list. Qed.

Lemma elem_of_btree_iter {A} (m : gmap K A) k a :
  (k, a) ∈ btree_iter m ↔ m !! k = Some a.
Proof. rewrite btree_iter_perm. apply elem_of_map_to_list. Qed.

Lemma elem_of_btree_set_iter (s : gset K) k :
  k ∈ btree_set_iter s ↔ k ∈ s.
Proof. rewrite btree_set_iter_perm. apply elem_of_elements. Qed.

Lemma btree_set_iter_NoDup (s : gset K) : NoDup (btree_set_iter s).
Proof. rewrite btree_set_iter_perm. apply NoDup_elements. Qed.

#[local] Instance entry_le_trans {A} : Transitive (@entry_le A).
Proof. intros p q r. unfold entry_le. apply transitivity. Qed.
#[local] Instance entry_le_total {A} : Total (@entry_le A).
Proof. intros p q. unfold entry_le. apply (total key_le). Qed.

Lemma btree_iter_sorted {A} (m : gmap K A) : StronglySorted key_le (btree_iter m).*1.
Proof.
  apply (StronglySorted_fmap fst entry_le); [done|].
  apply (StronglySorted_merge_sort entry_le).
Qed.

Lemma filter_sorted (P : K → Prop) `{!∀ k, Decision (P k)} (l : list K) :
  StronglySorted key_le l → StronglySorted key_le (filter P l).
Proof.
  induction 1 as [|k l Hl IH Hk]; [constructor|].
  rewrite filter_cons. case_decide; [|done].
  constructor; [done|]. rewrite Forall_forall in Hk |- *.
  intros k' Hk'. apply Hk. by apply list_elem_of_filter in Hk' as [_ ?].
Qed.

Lemma sorted_unique (l1 l2 : list K) :
  NoDup l1 → NoDup l2 → StronglySorted key_le l1 → StronglySorted key_le l2 →
  (∀ k, k ∈ l1 ↔ k ∈ l2) → l1 = l2.
Proof.
  intros Hn1 Hn2 Hs1 Hs2 Heq. apply (StronglySorted_unique key_le); [done..|].
  by apply NoDup_Permutation.
Qed.

Lemma btree_set_iter_sorted (s : gset K) : StronglySorted key_le (btree_set_iter s).
Proof. apply (StronglySorted_merge_sort key_le). Qed.
End btree.

(** ** Keyed update loops

    [for (k, b) in list { ... map.get(k) ... map.insert(k, a) ... }]: the loop
    visits the list in order, looks at the entry of each key, writes it or
    leaves it alone ([None]) and threads a second accumulator [S] (the counters
    of a merge summary).  Every merge and restore loop of the code has this
    shape; [or_default] is the variant that always writes, starting from a
    default value. *)

Section for_upserts.
Context {K} `{Countable K} {A B S : Type}.
Implicit Types (m : gmap K A) (l : list (K * B)) (ms : gmap K A * S).

Definition upsert_step (f : B → option A → S → option A * S)
    (ms : gmap K A * S) (kb : K * B) : gmap K A * S :=
  let '(o, s') := f kb.2 (ms.1 !! kb.1) ms.2 in
  (match o with Some a => <[kb.1 := a]> ms.1 | None => ms.1 end, s').

Definition for_upserts (f : B → option A → S → option A * S)
    (l : list (K * B)) (ms : gmap K A * S) : gmap K A * S :=
  fold_left (upsert_step f) l ms.

Definition or_default (d : A) (f : B → A → S → A * S) :
    B → option A → S → option A * S :=
  λ b oa s, let '(a', s') := f b (default d oa) s in (Some a', s').

(** The reference result: one pointwise combination of the two maps. *)
Definition join_map (g : B → option A → option A)
    (m : gmap K A) (r : gmap K B) : gmap K A :=
  merge (λ oa ob, match ob with Some b => g b oa | None => oa end) m r.

Lemma lookup_join_map g m (r : gmap K B) k :
  join_map g m r !! k = match r !! k with Some b => g b (m !! k) | None => m !! k end.
Proof.
  unfold join_map. rewrite lookup_merge. by destruct (m !! k), (r !! k).
Qed.

Variables (f : B → option A → S → option A * S) (g : B → option A → option A).
Hypothesis f_value : ∀ b oa s,
  match (f b oa s).1 with Some a => Some a | None => oa end = g b oa.

Lemma upsert_step_lookup ms kb k :
  (upsert_step f ms kb).1 !! k =
    if decide (kb.1 = k) then g kb.2 (ms.1 !! k) else ms.1 !! k.
Proof.
  unfold upsert_step. pose proof (f_value kb.2 (ms.1 !! kb.1) ms.2) as Hf.
  destruct (f _ _ _) as [[a|] s']; simpl in *.
  - rewrite lookup_insert. case_decide; [by subst|done].
  - case_decide; [by subst|done].
Qed.

Lemma for_upserts_lookup l ms k :
  NoDup l.*1 →
  (for_upserts f l ms).1 !! k =
    match (list_to_map l : gmap K B) !! k with
    | Some b => g b (ms.1 !! k)
    | None => ms.1 !! k
    end.
Proof.
  unfold for_upserts. revert ms.
  induction l as [|[k' b] l IH]; intros ms Hnd; [done|].
  apply NoDup_cons in Hnd as [Hnin Hnd]. simpl.
  rewrite IH, upsert_step_lookup, lookup_insert by done. simpl.
  case_decide; subst; [|done].
  by rewrite (not_elem_of_list_to_map_1 l k).
Qed.

(** Any visiting order gives the same map: the loop computes the join. *)
Lemma for_upserts_map l (r : gmap K B) ms :
  l ≡ₚ map_to_list r → (for_upserts f l ms).1 = join_map g ms.1 r.
Proof.
  intros Hl.
  assert (NoDup l.*1) as Hnd by (rewrite Hl; apply NoDup_fst_map_to_list).
  apply map_eq. intros k. rewrite for_upserts_lookup, lookup_join_map by done.
  by rewrite (list_to_map_proper l (map_to_list r) Hnd Hl), list_to_map_to_list.
Qed.
End for_upserts.

(** The accumulator of the loop when each body run adds to a counter: the
    final count is the initial one exactly when every visited entry was left
    as it was. *)
Section for_upserts_count.
Context {K} `{Countable K} {A B S : Type}.
Variables (f : B → option A → S → option A * S) (g : B → option A → option A).
Variables (count : S → nat) (same : B → option A → Prop).
Hypothesis f_value : ∀ b oa s,
  match (f b oa s).1 with Some a => Some a | None => oa end = g b oa.
Hypothesis f_mono : ∀ b oa s, count s ≤ count (f b oa s).2.
Hypothesis f_same : ∀ b oa s, count (f b oa s).2 = count s ↔ same b oa.

Lemma upsert_step_snd (ms : gmap K A * S) (kb : K * B) :
  (upsert_step f ms kb).2 = (f kb.2 (ms.1 !! kb.1) ms.2).2.
Proof. unfold upsert_step. by destruct (f _ _ _). Qed.

Lemma for_upserts_count_mono l (ms : gmap K A * S) :
  count ms.2 ≤ count (for_upserts f l ms).2.
Proof.
  unfold for_upserts. revert ms. induction l as [|kb l IH]; intros ms; [done|].
  simpl. etrans; [|apply IH]. rewrite upsert_step_snd. apply f_mono.
Qed.

Lemma for_upserts_count_same l (ms : gmap K A * S) :
  NoDup l.*1 →
  count (for_upserts f l ms).2 = count ms.2 ↔
  (∀ k b, (k, b) ∈ l → same b (ms.1 !! k)).
Proof.
  revert ms. induction l as [|[k b] l IH]; intros ms Hnd.
  { split; [intros _ k b Hin; by apply elem_of_nil in Hin | done]. }
  apply NoDup_cons in Hnd as [Hnin Hnd].
  pose proof (for_upserts_count_mono l (upsert_step f ms (k, b))) as Hm1.
  pose proof (f_mono b (ms.1 !! k) ms.2) as Hm2.
  pose proof (f_same b (ms.1 !! k) ms.2) as Hs.
  pose proof (IH (upsert_step f ms (k, b)) Hnd) as IH'. clear IH.
  rewrite upsert_step_snd in Hm1, IH'. simpl in Hm1, IH'.
  assert (Hframe : ∀ k' b', (k', b') ∈ l →
    (upsert_step f ms (k, b)).1 !! k' = ms.1 !! k').
  { intros k' b' Hin. rewrite (upsert_step_lookup f g f_value). simpl.
    case_decide; [|done]. subst. destruct Hnin.
    by apply (list_elem_of_fmap_2 fst) in Hin. }
  unfold for_upserts in *. simpl. split.
  - intros Heq k' b' [[= -> ->]|Hin]%elem_of_cons; [apply Hs; lia|].
    rewrite <- (Hframe k' b' Hin). apply IH'; [lia|done].
  - intros Hall.
    assert (count (f b (ms.1 !! k) ms.2).2 = count ms.2) as Hk
      by (apply Hs, Hall, elem_of_cons; by left).
    rewrite <- Hk. apply IH'. intros k' b' Hin. rewrite (Hframe k' b' Hin).
    apply Hall, elem_of_cons. by right.
Qed.
End for_upserts_count.

Lemma or_default_value {A B S} (d : A) (f : B → A → S → A * S) (g : B → A → A) :
  (∀ b a s, (f b a s).1 = g b a) →
  ∀ b oa s,
    match (or_default d f b oa s).1 with Some a => Some a | None => oa end
    = Some (g b (default d oa)).
Proof.
  intros Hf b oa s. unfold or_default. rewrite <- (Hf b _ s). by destruct (f _ _ _).
Qed.

Lemma or_default_snd {A B S} (d : A) (f : B → A → S → A * S) b oa s :
  (or_default d f b oa s).2 = (f b (default d oa) s).2.
Proof. unfold or_default. by destruct (f _ _ _). Qed.

(** ** Join semilattices

    What a state-based CRDT promises of its merge: the order, grouping and
    repetition of merges do not matter. *)

Class JoinSemilattice {A : Type} (join : A → A → A) : Prop := {
  join_comm :: Comm (=) join;
  join_assoc :: Assoc (=) join;
  join_idemp :: IdemP (=) join;
}.

#[export] Instance gset_union_semilattice {K} `{Countable K} :
  JoinSemilattice (union : gset K → gset K → gset K).
Proof. split; [intros ??|intros ???|intros ?]; set_solver. Qed.

(** Maps joined key by key. *)
Definition map_join {K} `{Countable K} {A} (join : A → A → A) :
    gmap K A → gmap K A → gmap K A :=
  union_with (λ a b, Some (join a b)).

Lemma lookup_map_join {K} `{Countable K} {A} (join : A → A → A) (m1 m2 : gmap K A) k :
  map_join join m1 m2 !! k =
    match m1 !! k, m2 !! k with
    | Some a, Some b => Some (join a b)
    | Some a, None => Some a
    | None, ob => ob
    end.
Proof.
  unfold map_join. rewrite lookup_union_with. by destruct (m1 !! k), (m2 !! k).
Qed.

#[export] Instance map_join_semilattice {K} `{Countable K} {A} (join : A → A → A) :
  JoinSemilattice join → JoinSemilattice (map_join (K:=K) join).
Proof.
  intros HJ. split.
  - intros m1 m2. apply map_eq. intros k. rewrite !lookup_map_join.
    destruct (m1 !! k), (m2 !! k); try done. f_equal. apply comm, _.
  - intros m1 m2 m3. apply map_eq. intros k. rewrite !lookup_map_join.
    destruct (m1 !! k), (m2 !! k), (m3 !! k); try done. f_equal. apply assoc, _.
  - intros m. apply map_eq. intros k. rewrite lookup_map_join.
    destruct (m !! k); [|done]. f_equal. apply idemp, _.
Qed.

(** A join loop over a map is the key-by-key join. *)
Lemma join_map_is_map_join {K} `{Countable K} {A} (g : A → option A → option A)
    (join : A → A → A) (m r : gmap K A) :
  (∀ b, g b None = Some b) → (∀ b a, g b (Some a) = Some (join a b)) →
  join_map g m r = map_join join m r.
Proof.
  intros H0 H1. apply map_eq. intros k. rewrite lookup_join_map, lookup_map_join.
  destruct (m !! k), (r !! k); auto.
Qed.

(** Merging a list of states into a state: only the set of merged states
    matters, not their order or repetition. *)
Section join_fold.
Context {A : Type} (join : A → A → A) `{!JoinSemilattice join}.

Definition join_le (a b : A) : Prop := join a b = b.

Lemma join_le_antisym a b : join_le a b → join_le b a → a = b.
Proof. unfold join_le. intros H1 H2. by rewrite <- H1, (comm join), H2. Qed.

Lemma join_le_trans a b c : join_le a b → join_le b c → join_le a c.
Proof. unfold join_le. intros H1 H2. by rewrite <- H2, (assoc join), H1. Qed.

Lemma join_lub a b c : join_le a c → join_le b c → join_le (join a b) c.
Proof. unfold join_le. intros H1 H2. by rewrite <- (assoc join), H2. Qed.

Lemma join_ub_l a b : join_le a (join a b).
Proof. unfold join_le. by rewrite (assoc join), (idemp join). Qed.

Lemma join_ub_r a b : join_le b (join a b).
Proof. rewrite (comm join). apply join_ub_l. Qed.

Lemma join_fold_ub l a : join_le a (fold_left join l a)
  ∧ ∀ x, x ∈ l → join_le x (fold_left join l a).
Proof.
  revert a. induction l as [|y l IH]; intros a; simpl.
  { split; [apply (idemp join)|]. intros x Hx. by apply elem_of_nil in Hx. }
  destruct (IH (join a y)) as [H1 H2]. split.
  - eauto using join_le_trans, join_ub_l.
  - intros x [->|Hx]%elem_of_cons; eauto using join_le_trans, join_ub_r.
Qed.

Lemma join_fold_lub l a u :
  join_le a u → (∀ x, x ∈ l → join_le x u) → join_le (fold_left join l a) u.
Proof.
  revert a. induction l as [|y l IH]; intros a Ha Hl; simpl; [done|].
  apply IH.
  - apply join_lub; [done|]. apply Hl, elem_of_cons. by left.
  - intros x Hx. apply Hl, elem_of_cons. by right.
Qed.

Lemma join_fold_set (l1 l2 : list A) a :
  (∀ x, x ∈ l1 ↔ x ∈ l2) → fold_left join l1 a = fold_left join l2 a.
Proof.
  intros Heq. destruct (join_fold_ub l1 a) as [? ?], (join_fold_ub l2 a) as [? ?].
  apply join_le_antisym; apply join_fold_lub; naive_solver.
Qed.
End join_fold.

(** Keeping the larger of two values is a join when the strict order is
    total. *)
Section max_by.
Context {A : Type} (ltb : A → A → bool).
Hypothesis ltb_irrefl : ∀ a, ltb a a = false.
Hypothesis ltb_trans : ∀ a b c, ltb a b = true → ltb b c = true → ltb a c = true.
Hypothesis ltb_total : ∀ a b, ltb a b = false → ltb b a = false → a = b.

Definition max_by (a b : A) : A := if ltb a b then b else a.

Lemma ltb_asym a b : ltb a b = true → ltb b a = false.
Proof.
  intros H1. destruct (ltb b a) eqn:H2; [|done].
  by rewrite <- (ltb_trans a b a H1 H2), ltb_irrefl.
Qed.

Lemma max_by_semilattice : JoinSemilattice max_by.
Proof.
  unfold max_by. split.
  - intros a b. destruct (ltb a b) eqn:H1, (ltb b a) eqn:H2; try done.
    + by rewrite (ltb_asym a b H1) in H2.
    + by apply ltb_total.
  - intros a b c.
    destruct (ltb a b) eqn:Hab, (ltb b c) eqn:Hbc;
      rewrite ?Hab, ?Hbc; try done.
    + by rewrite (ltb_trans a b c).
    + destruct (ltb a c) eqn:Hac; [|done].
      destruct (ltb c b) eqn:Hcb.
      * by rewrite (ltb_trans a c b) in Hab.
      * by rewrite (ltb_total b c Hbc Hcb), Hac in Hab.
  - intros a. by rewrite ltb_irrefl.
Qed.
End max_by.
