(* ===== verification/Text.v ===== *)
(** * Text: the parts of Rust's [str] the gateway uses

    A [String] is its UTF-8 byte sequence ([string]), so the byte-wise [Ord]
    of Rust strings is [String.le].  This file has the Unicode-aware
    [trim]/[split_whitespace], ASCII lower-casing and substring search. *)

From Stdlib Require Import Ascii String NArith.
From stdpp Require Import base list strings.
From S2P Require Import Prelude.

Local Open Scope N_scope.

(** The White_Space characters by the length of their UTF-8 encoding:
    U+0009-U+000D and U+0020; U+0085 and U+00A0; U+1680, U+2000-U+200A,
    U+2028, U+2029, U+202F, U+205F and U+3000. *)
Definition ws1 (a : ascii) : bool :=
  let a := N_of_ascii a in ((9 <=? a) && (a <=? 13)) || (a =? 32).
Definition ws2 (a b : ascii) : bool :=
  let a := N_of_ascii a in let b := N_of_ascii b in
  (a =? 194) && ((b =? 133) || (b =? 160)).
Definition ws3 (a b c : ascii) : bool :=
  let a := N_of_ascii a in let b := N_of_ascii b in let c := N_of_ascii c in
  ((a =? 225) && (b =? 154) && (c =? 128))
  || ((a =? 226) && (b =? 128) &&
      (((128 <=? c) && (c <=? 138)) || (c =? 168) || (c =? 169) || (c =? 175)))
  || ((a =? 226) && (b =? 129) && (c =? 159))
  || ((a =? 227) && (b =? 128) && (c =? 128)).

(** [str::trim_start]. *)
Fixpoint trim_start (s : string) : string :=
  match s with
  | EmptyString => EmptyString
  | String a s1 =>
      if ws1 a then trim_start s1 else
      match s1 with
      | EmptyString => s
      | String b s2 =>
          if ws2 a b then trim_start s2 else
          match s2 with
          | EmptyString => s
          | String c s3 => if ws3 a b c then trim_start s3 else s
          end
      end
  end.

Definition is_empty (s : string) : bool :=
  match s with EmptyString => true | String _ _ => false end.

(** Only White_Space characters: [s.trim().is_empty()]. *)
Definition all_whitespace (s : string) : bool := is_empty (trim_start s).

(** [str::trim_end]: cut at the first position after which only whitespace is
    left.  No suffix of a valid UTF-8 text that starts inside a character is
    all whitespace, since no continuation byte starts a White_Space encoding. *)
Fixpoint trim_end (s : string) : string :=
  if all_whitespace s then EmptyString else
  match s with
  | EmptyString => EmptyString
  | String a s1 => String a (trim_end s1)
  end.

Definition trim (s : string) : string := trim_end (trim_start s).

(** [str::to_ascii_lowercase]. *)
Definition lower_byte (a : ascii) : ascii :=
  let n := N_of_ascii a in
  if (65 <=? n) && (n <=? 90) then ascii_of_N (n + 32) else a.
Fixpoint to_ascii_lowercase (s : string) : string :=
  match s with
  | EmptyString => EmptyString
  | String a s1 => String (lower_byte a) (to_ascii_lowercase s1)
  end.

(** [str::split_whitespace]: maximal runs of non-whitespace; [acc] is the
    reversed token being read. *)
Definition flush (acc : list ascii) : list string :=
  match acc with [] => [] | _ => [string_of_list_ascii (rev acc)] end.
Fixpoint split_ws_from (acc : list ascii) (s : string) : list string :=
  match s with
  | EmptyString => flush acc
  | String a s1 =>
      if ws1 a then flush acc ++ split_ws_from [] s1 else
      match s1 with
      | EmptyString => split_ws_from (a :: acc) s1
      | String b s2 =>
          if ws2 a b then flush acc ++ split_ws_from [] s2 else
          match s2 with
          | EmptyString => split_ws_from (a :: acc) s1
          | String c s3 =>
              if ws3 a b c then flush acc ++ split_ws_from [] s3
              else split_ws_from (a :: acc) s1
          end
      end
  end.
Definition split_whitespace (s : string) : list string := split_ws_from [] s.

(** [haystack.contains(needle)]. *)
Fixpoint str_contains (needle hay : string) : bool :=
  String.prefix needle hay ||
  match hay with EmptyString => false | String _ h => str_contains needle h end.

Lemma trim_all_whitespace s : all_whitespace s = true → trim s = EmptyString.
Proof.
  unfold all_whitespace, trim, is_empty. by destruct (trim_start s).
Qed.

Lemma trim_end_empty s : trim_end s = EmptyString → all_whitespace s = true.
Proof.
  destruct s as [|a s]; [done|]. cbn [trim_end].
  by destruct (all_whitespace (String a s)).
Qed.

(** Trimming twice is trimming once. *)
Lemma trim_start_eq a s1 :
  trim_start (String a s1) =
    if ws1 a then trim_start s1 else
    match s1 with
    | EmptyString => String a s1
    | String b s2 =>
        if ws2 a b then trim_start s2 else
        match s2 with
        | EmptyString => String a s1
        | String c s3 => if ws3 a b c then trim_start s3 else String a s1
        end
    end.
Proof. reflexivity. Qed.

(** Induction along the characters that [trim_start] drops. *)
Lemma trim_start_rec (P : string → string → Prop) :
  (∀ s, trim_start s = s → P s s) → (∀ a s r, P s r → P (String a s) r) →
  ∀ s, P s (trim_start s).
Proof.
  intros H0 H1 s.
  induction s as [s IH] using (well_founded_ind (well_founded_ltof _ String.length)).
  unfold ltof in IH. destruct s as [|a s1]; [by apply H0|].
  pose proof (trim_start_eq a s1) as E. rewrite E. destruct (ws1 a).
  { apply H1, IH. cbn. lia. }
  destruct s1 as [|b s2]; [by apply H0|]. destruct (ws2 a b).
  { apply H1, H1, IH. cbn. lia. }
  destruct s2 as [|c s3]; [by apply H0|]. destruct (ws3 a b c); [|by apply H0].
  apply H1, H1, H1, IH. cbn. lia.
Qed.

Lemma trim_start_length s : (String.length (trim_start s) ≤ String.length s)%nat.
Proof.
  apply (trim_start_rec (λ s r, String.length r ≤ String.length s)%nat); [done|].
  intros a s' r Hr. cbn. lia.
Qed.

Lemma trim_start_idemp s : trim_start (trim_start s) = trim_start s.
Proof. by apply (trim_start_rec (λ _ r, trim_start r = r)). Qed.

Lemma trim_end_nonempty a s :
  trim_end (String a s) = EmptyString ∨ trim_end (String a s) = String a (trim_end s).
Proof. cbn [trim_end]. destruct (all_whitespace _); auto. Qed.

Lemma all_whitespace_trim_end s : all_whitespace (trim_end s) = true → all_whitespace s = true.
Proof.
  induction s as [s IH] using (well_founded_ind (well_founded_ltof _ String.length)).
  unfold ltof in IH. destruct s as [|a s1]; [done|]. cbn [trim_end].
  destruct (all_whitespace (String a s1)) eqn:E; [done|]. intros H. rewrite <- E. clear E.
  revert H. unfold all_whitespace in *. rewrite !trim_start_eq. destruct (ws1 a).
  { apply IH. cbn. lia. }
  destruct s1 as [|b s2]; [done|].
  destruct (trim_end_nonempty b s2) as [->| ->]; [done|]. destruct (ws2 a b).
  { apply IH. cbn. lia. }
  destruct s2 as [|c s3]; [done|].
  destruct (trim_end_nonempty c s3) as [->| ->]; [done|]. destruct (ws3 a b c); [|done].
  apply IH. cbn. lia.
Qed.

Lemma trim_end_idemp s : trim_end (trim_end s) = trim_end s.
Proof.
  induction s as [|a s IH]; [done|]. cbn [trim_end].
  destruct (all_whitespace (String a s)) eqn:E; [done|]. cbn [trim_end]. rewrite IH.
  destruct (all_whitespace (String a (trim_end s))) eqn:E'; [|done].
  rewrite (all_whitespace_trim_end (String a s)) in E; [done|].
  cbn [trim_end]. by destruct (all_whitespace (String a s)).
Qed.

Lemma trim_start_trim_end t : trim_start t = t → trim_start (trim_end t) = trim_end t.
Proof.
  destruct t as [|a s1]; [done|]. intros Ht.
  destruct (trim_end_nonempty a s1) as [->| ->]; [done|].
  cbn [trim_start] in Ht |- *. destruct (ws1 a).
  { pose proof (trim_start_length s1) as Hl. rewrite Ht in Hl. cbn in Hl. lia. }
  destruct s1 as [|b s2]; [done|].
  destruct (trim_end_nonempty b s2) as [->| ->]; [done|]. destruct (ws2 a b).
  { pose proof (trim_start_length s2) as Hl. rewrite Ht in Hl. cbn in Hl. lia. }
  destruct s2 as [|c s3]; [done|].
  destruct (trim_end_nonempty c s3) as [->| ->]; [done|]. destruct (ws3 a b c); [|done].
  pose proof (trim_start_length s3) as Hl. rewrite Ht in Hl. cbn in Hl. lia.
Qed.

Lemma trim_idemp s : trim (trim s) = trim s.
Proof.
  unfold trim. rewrite trim_start_trim_end by apply trim_start_idemp. apply trim_end_idemp.
Qed.

(** [str::parse::<u64>]: an optional [+], then decimal digits, in range. *)
Definition digit_value (a : ascii) : option Z :=
  let n := N_of_ascii a in
  if (48 <=? n) && (n <=? 57) then Some (Z.of_N (n - 48)) else None.
Fixpoint parse_digits (acc : Z) (s : string) : option Z :=
  match s with
  | EmptyString => Some acc
  | String a s1 =>
      match digit_value a with
      | None => None
      | Some d =>
          let acc := (acc * 10 + d)%Z in
          if (acc <=? u64_max)%Z then parse_digits acc s1 else None
      end
  end.
Definition parse_u64 (s : string) : option Z :=
  match s with
  | EmptyString => None
  | String a s1 =>
      if Ascii.eqb a "+"%char then (if is_empty s1 then None else parse_digits 0 s1)
      else parse_digits 0 s
  end.

Lemma parse_digits_range acc s z :
  u64_ok acc → parse_digits acc s = Some z → u64_ok z.
Proof.
  revert acc. induction s as [|a s IH]; intros acc Hacc; simpl; [by intros [= <-]|].
  unfold digit_value. destruct (_ && _); [|done].
  case_match eqn:E; [|done]. apply IH. bool_to_prop. width_lia.
Qed.

Lemma parse_u64_range s z : parse_u64 s = Some z → u64_ok z.
Proof.
  assert (H0 : u64_ok 0) by width_lia.
  destruct s as [|a s]; [done|]. unfold parse_u64. repeat case_match; try done;
    by apply parse_digits_range.
Qed.
