(* ===== verification/Float.v ===== *)
(** * Float: IEEE 754 binary64, as the gateway uses [f64]

    [f64] values are the Standard Library's [spec_float] at precision 53 and
    exponent bound 1024; the operations round to nearest, ties to even. *)

From Stdlib Require Import ZArith SpecFloat.
From stdpp Require Import base numbers.
From S2P Require Import Prelude.

Local Open Scope Z_scope.

Definition f64 : Type := spec_float.
(** [u as f64] of an unsigned integer. *)
Definition f64_of_u64 (z : Z) : f64 := binary_normalize 53 1024 z 0 false.
Definition f64_add : f64 → f64 → f64 := SFadd 53 1024.
Definition f64_sub : f64 → f64 → f64 := SFsub 53 1024.
Definition f64_mul : f64 → f64 → f64 := SFmul 53 1024.
Definition f64_div : f64 → f64 → f64 := SFdiv 53 1024.
(** [<], [>] and [>=] are false on NaN. *)
Definition f64_lt (a b : f64) : bool := SFltb a b.
Definition f64_gt (a b : f64) : bool := SFltb b a.
Definition f64_ge (a b : f64) : bool := SFleb b a.
Definition f64_zero : f64 := S754_zero false.
(** The literal [0.10]: 7205759403792794 * 2^-56. *)
Definition f64_tenth : f64 := S754_finite false 7205759403792794 (-56).
Definition f64_is_finite (a : f64) : bool :=
  match a with S754_zero _ | S754_finite _ _ _ => true | _ => false end.
(** [f64::max]: a NaN operand is ignored. *)
Definition f64_max (a b : f64) : f64 :=
  match a with
  | S754_nan => b
  | _ => match b with S754_nan => a | _ => if SFltb a b then b else a end
  end.
(** [f as u64]: truncates towards zero, saturates, and sends NaN to zero. *)
Definition f64_as_u64 (a : f64) : Z :=
  match a with
  | S754_finite false m e =>
      Z.min u64_max (if 0 <=? e then Z.pos m * 2 ^ e else Z.pos m / 2 ^ (- e))
  | S754_infinity false => u64_max
  | _ => 0
  end.
Lemma f64_as_u64_range a : u64_ok (f64_as_u64 a).
Proof.
  unfold f64_as_u64. destruct a as [[]|[]| |[] m e]; try (split; width_lia).
  assert (0 ≤ (if 0 <=? e then Z.pos m * 2 ^ e else Z.pos m / 2 ^ (- e))).
  { destruct (Z.leb_spec 0 e); [pose proof (Z.pow_nonneg 2 e); nia|].
    apply Z.div_pos; [lia|]. apply Z.pow_pos_nonneg; lia. }
  split; width_lia.
Qed.
