(* ===== verification/Hlc.v ===== *)
(** * Hlc: hybrid logical timestamps and clocks (src/src/gateway/crdt.rs)

    [HlcTimestamp] with its derived lexicographic order, and [HlcClock], whose
    [tick] and [observe] keep a replica's clock ahead of every timestamp it has
    produced or received. *)

From Stdlib Require Import ZArith String.
From stdpp Require Import base gmap strings sorting.
From S2P Require Import Prelude Text.

Local Open Scope Z_scope.

Inductive CrdtError :=
| EmptyReplicaId
| Serialize (message : string).

Record HlcTimestamp := mkHlc {
  wall_time_ms : Z;
  logical : Z;
  node_id : string;
}.

#[export] Instance HlcTimestamp_eq_dec : EqDecision HlcTimestamp.
Proof. solve_decision. Defined.

#[export] Instance HlcTimestamp_countable : Countable HlcTimestamp.
Proof.
  refine (inj_countable' (λ t, (wall_time_ms t, logical t, node_id t))
    (λ '(w, l, n), mkHlc w l n) _).
  by intros [].
Defined.

(** [#[derive(PartialOrd, Ord)]]: compare the fields in declaration order. *)
Definition hlc_compare (a b : HlcTimestamp) : comparison :=
  match Z.compare (wall_time_ms a) (wall_time_ms b) with
  | Eq => match Z.compare (logical a) (logical b) with
          | Eq => String.compare (node_id a) (node_id b)
          | c => c
          end
  | c => c
  end.

Definition hlc_ltb (a b : HlcTimestamp) : bool :=
  match hlc_compare a b with Lt => true | _ => false end.

Definition hlc_lt (a b : HlcTimestamp) : Prop := hlc_ltb a b = true.
Definition hlc_le (a b : HlcTimestamp) : Prop := hlc_ltb b a = false.

(** [HlcTimestamp::zero]. *)
Definition zero (node : string) : HlcTimestamp := mkHlc 0 0 node.

Record HlcClock := mkClock {
  clock_node_id : string;
  last : HlcTimestamp;
}.

(** [HlcClock::new]. *)
Definition HlcClock_new (node : string) : Result HlcClock CrdtError :=
  if is_empty (trim node) then Err EmptyReplicaId
  else Ok {| clock_node_id := node; last := zero node |}.

(** [HlcClock::tick]. *)
Definition tick (c : HlcClock) (now_ms : Z) : HlcClock * HlcTimestamp :=
  let t :=
    if wall_time_ms (last c) <? now_ms then
      {| wall_time_ms := now_ms; logical := 0; node_id := clock_node_id c |}
    else
      {| wall_time_ms := wall_time_ms (last c);
         logical := sat_add32 (logical (last c)) 1;
         node_id := clock_node_id c |} in
  ({| clock_node_id := clock_node_id c; last := t |}, t).

(** [HlcClock::observe]. *)
Definition observe (c : HlcClock) (remote : HlcTimestamp) (now_ms : Z) :
    HlcClock * HlcTimestamp :=
  let l := last c in
  let max_wall_time := Z.max (Z.max now_ms (wall_time_ms l)) (wall_time_ms remote) in
  let lg :=
    if (max_wall_time =? wall_time_ms l) && (max_wall_time =? wall_time_ms remote) then
      sat_add32 (Z.max (logical l) (logical remote)) 1
    else if max_wall_time =? wall_time_ms l then sat_add32 (logical l) 1
    else if max_wall_time =? wall_time_ms remote then sat_add32 (logical remote) 1
    else 0 in
  let t := {| wall_time_ms := max_wall_time; logical := lg;
              node_id := clock_node_id c |} in
  ({| clock_node_id := clock_node_id c; last := t |}, t).

(** ** The order *)

Lemma hlc_compare_eq a b : hlc_compare a b = Eq → a = b.
Proof.
  destruct a as [w1 l1 n1], b as [w2 l2 n2]. unfold hlc_compare; simpl.
  destruct (Z.compare_spec w1 w2); [|done..].
  destruct (Z.compare_spec l1 l2); [|done..].
  intros ->%String.compare_eq_iff. by subst.
Qed.

Lemma string_compare_refl s : String.compare s s = Eq.
Proof.
  pose proof (String.compare_antisym s s) as H. by destruct (String.compare s s).
Qed.

Lemma hlc_compare_refl a : hlc_compare a a = Eq.
Proof.
  unfold hlc_compare. by rewrite !Z.compare_refl, string_compare_refl.
Qed.

Lemma hlc_compare_antisym a b : hlc_compare a b = CompOpp (hlc_compare b a).
Proof.
  unfold hlc_compare. rewrite (Z.compare_antisym (wall_time_ms b)).
  destruct (wall_time_ms b ?= wall_time_ms a); [|done..]. simpl.
  rewrite (Z.compare_antisym (logical b)).
  destruct (logical b ?= logical a); [|done..]. simpl.
  apply String.compare_antisym.
Qed.

Lemma hlc_lt_irrefl a : ¬ hlc_lt a a.
Proof. unfold hlc_lt, hlc_ltb. by rewrite hlc_compare_refl. Qed.

Lemma string_lt_trans s1 s2 s3 :
  String.compare s1 s2 = Lt → String.compare s2 s3 = Lt → String.compare s1 s3 = Lt.
Proof.
  intros H1 H2.
  assert (String.le s1 s3) as Hle.
  { trans s2; unfold String.le, String.leb; by rewrite ?H1, ?H2. }
  unfold String.le, String.leb in Hle.
  destruct (String.compare s1 s3) eqn:H13; [|done..].
  apply String.compare_eq_iff in H13 as ->.
  rewrite String.compare_antisym, H2 in H1. done.
Qed.

(** Strict order spelled out on the fields. *)
Lemma hlc_lt_spec a b :
  hlc_lt a b ↔
  wall_time_ms a < wall_time_ms b
  ∨ (wall_time_ms a = wall_time_ms b ∧
     (logical a < logical b
      ∨ (logical a = logical b ∧ String.compare (node_id a) (node_id b) = Lt))).
Proof.
  unfold hlc_lt, hlc_ltb, hlc_compare.
  destruct (Z.compare_spec (wall_time_ms a) (wall_time_ms b)); [|split; intros; (done || lia)..].
  destruct (Z.compare_spec (logical a) (logical b)); [|split; intros; (done || lia)..].
  destruct (String.compare (node_id a) (node_id b)); naive_solver lia.
Qed.

Lemma hlc_lt_trans a b c : hlc_lt a b → hlc_lt b c → hlc_lt a c.
Proof.
  rewrite !hlc_lt_spec. intros H1 H2.
  assert (Hs : String.compare (node_id a) (node_id b) = Lt →
    String.compare (node_id b) (node_id c) = Lt →
    String.compare (node_id a) (node_id c) = Lt) by apply string_lt_trans.
  destruct H1 as [?|[? [?|[? ?]]]], H2 as [?|[? [?|[? ?]]]];
    first [left; lia | right; split; [lia|]; left; lia
          | right; split; [lia|]; right; split; [lia|auto]].
Qed.

Lemma hlc_total a b : hlc_lt a b ∨ a = b ∨ hlc_lt b a.
Proof.
  unfold hlc_lt, hlc_ltb. rewrite (hlc_compare_antisym b a).
  destruct (hlc_compare a b) eqn:E; simpl; auto.
  right; left. by apply hlc_compare_eq.
Qed.

Lemma hlc_le_lteq a b : hlc_le a b ↔ hlc_lt a b ∨ a = b.
Proof.
  unfold hlc_le, hlc_lt, hlc_ltb. rewrite (hlc_compare_antisym b a).
  destruct (hlc_compare a b) eqn:E; simpl; split; intros H; try naive_solver.
  - right. by apply hlc_compare_eq.
  - destruct H as [H| ->]; [done|]. by rewrite hlc_compare_refl in E.
Qed.

#[export] Instance hlc_le_dec : RelDecision hlc_le.
Proof. intros a b. unfold hlc_le. apply _. Defined.

#[export] Instance hlc_le_po : PartialOrder hlc_le.
Proof.
  split; [split|].
  - intros a. apply hlc_le_lteq. by right.
  - intros a b c. rewrite !hlc_le_lteq.
    intros [H1| ->] [H2| ->]; eauto using hlc_lt_trans.
  - intros a b. rewrite !hlc_le_lteq. intros [H1|H1] [H2|H2]; auto.
    destruct (hlc_lt_irrefl a). by apply hlc_lt_trans with b.
Qed.

#[export] Instance hlc_le_total : Total hlc_le.
Proof.
  intros a b. rewrite !hlc_le_lteq. destruct (hlc_total a b) as [|[|]]; auto.
Qed.

#[export] Instance hlc_key : BTreeKey HlcTimestamp := {| key_le := hlc_le |}.

Lemma hlc_ltb_false a b : hlc_ltb a b = false ↔ hlc_le b a.
Proof. done. Qed.

Lemma hlc_lt_le_trans a b c : hlc_lt a b → hlc_le b c → hlc_lt a c.
Proof. rewrite hlc_le_lteq. intros H1 [H2| ->]; eauto using hlc_lt_trans. Qed.

Lemma hlc_le_lt_trans a b c : hlc_le a b → hlc_lt b c → hlc_lt a c.
Proof. rewrite hlc_le_lteq. intros [H1| ->] H2; eauto using hlc_lt_trans. Qed.

Lemma hlc_lt_le a b : hlc_lt a b → hlc_le a b.
Proof. rewrite hlc_le_lteq. auto. Qed.

Lemma hlc_not_le_lt a b : ¬ hlc_le a b → hlc_lt b a.
Proof. unfold hlc_le, hlc_lt. by destruct (hlc_ltb b a). Qed.

Lemma hlc_le_refl a : hlc_le a a.
Proof. reflexivity. Qed.

Lemma hlc_le_trans a b c : hlc_le a b → hlc_le b c → hlc_le a c.
Proof. apply transitivity. Qed.

#[export] Hint Resolve hlc_le_refl hlc_lt_le hlc_lt_trans hlc_lt_le_trans hlc_le_lt_trans : verdictan.

(** The larger of two timestamps, the join of the order. *)
Definition hlc_max (a b : HlcTimestamp) : HlcTimestamp := if hlc_ltb a b then b else a.

Lemma hlc_max_cases a b :
  (hlc_lt a b ∧ hlc_max a b = b) ∨ (hlc_le b a ∧ hlc_max a b = a).
Proof. unfold hlc_max, hlc_lt, hlc_le. destruct (hlc_ltb a b); auto. Qed.

#[export] Instance hlc_max_comm : Comm (=) hlc_max.
Proof.
  intros a b. destruct (hlc_max_cases a b) as [[H ->]|[H ->]],
    (hlc_max_cases b a) as [[H' ->]|[H' ->]]; try done.
  - destruct (hlc_lt_irrefl a); eauto with verdictan.
  - by apply (anti_symm hlc_le).
Qed.

Lemma hlc_max_r a b : hlc_le a b → hlc_max a b = b.
Proof.
  intros H. destruct (hlc_max_cases a b) as [[? ->]|[? ->]]; [done|].
  by apply (anti_symm hlc_le).
Qed.

Lemma hlc_max_l a b : hlc_le b a → hlc_max a b = a.
Proof. intros H. rewrite (comm hlc_max). by apply hlc_max_r. Qed.

Lemma hlc_max_ub_l a b : hlc_le a (hlc_max a b).
Proof. destruct (hlc_max_cases a b) as [[? ->]|[? ->]]; auto with verdictan. Qed.

Lemma hlc_max_ub_r a b : hlc_le b (hlc_max a b).
Proof. rewrite (comm hlc_max). apply hlc_max_ub_l. Qed.

Lemma hlc_max_lub a b c : hlc_le a c → hlc_le b c → hlc_le (hlc_max a b) c.
Proof. by destruct (hlc_max_cases a b) as [[? ->]|[? ->]]. Qed.

#[export] Instance hlc_max_assoc : Assoc (=) hlc_max.
Proof.
  intros a b c. apply (anti_symm hlc_le);
    repeat apply hlc_max_lub; eauto using hlc_max_ub_l, hlc_max_ub_r, hlc_le_trans.
Qed.

#[export] Instance hlc_max_idemp : IdemP (=) hlc_max.
Proof. intros a. by apply hlc_max_r. Qed.

(** ** Clocks *)

(** Room left in the 32-bit logical counter before it saturates. *)
Definition unsaturated (t : HlcTimestamp) : Prop := logical t < u32_max.

(** Type invariant of a clock: it stamps with its own id, in 32 bits. *)
Definition clock_ok (c : HlcClock) : Prop :=
  node_id (last c) = clock_node_id c ∧ u32_ok (logical (last c)).

Lemma tick_last c now : last (tick c now).1 = (tick c now).2.
Proof. done. Qed.

Lemma observe_last c r now : last (observe c r now).1 = (observe c r now).2.
Proof. done. Qed.

Lemma tick_advances c now :
  wall_time_ms (last c) < now ∨ unsaturated (last c) →
  hlc_lt (last c) (tick c now).2.
Proof.
  unfold unsaturated. intros H. apply hlc_lt_spec. unfold tick; simpl.
  destruct (Z.ltb_spec (wall_time_ms (last c)) now); simpl; [lia|].
  right. split; [done|]. left. width_lia.
Qed.

Lemma tick_ok c now : clock_ok c → clock_ok (tick c now).1.
Proof.
  intros [Hn Hl]. unfold clock_ok, tick; simpl.
  destruct (_ <? now); simpl; split; try done; width_lia.
Qed.

Lemma observe_advances c r now :
  unsaturated (last c) → unsaturated r →
  hlc_lt (last c) (observe c r now).2 ∧ hlc_lt r (observe c r now).2.
Proof.
  unfold unsaturated. intros Hc Hr. rewrite !hlc_lt_spec. unfold observe; simpl.
  repeat match goal with
  | |- context [?a =? ?b] => destruct (Z.eqb_spec a b); simpl
  end; width_lia.
Qed.

Lemma observe_ok c r now :
  clock_ok c → u32_ok (logical r) → clock_ok (observe c r now).1.
Proof.
  intros [Hn Hl] Hr. unfold clock_ok, observe; simpl.
  split; [done|].
  repeat match goal with
  | |- context [if ?b then _ else _] => destruct b
  end; width_lia.
Qed.

(** The timestamps of a run of local events at the given wall times. *)
Fixpoint ticks (c : HlcClock) (nows : list Z) : list HlcTimestamp :=
  match nows with
  | [] => []
  | now :: nows => let '(c', t) := tick c now in t :: ticks c' nows
  end.

Lemma ticks_cons c now nows :
  ticks c (now :: nows) = (tick c now).2 :: ticks (tick c now).1 nows.
Proof. done. Qed.

Lemma tick_logical c now :
  u32_ok (logical (last c)) → logical (tick c now).2 ≤ logical (last c) + 1.
Proof.
  intros H. unfold tick; simpl. destruct (_ <? now); simpl; width_lia.
Qed.

Lemma ticks_above c nows :
  clock_ok c → logical (last c) + Z.of_nat (length nows) ≤ u32_max →
  Forall (hlc_lt (last c)) (ticks c nows).
Proof.
  revert c. induction nows as [|now nows IH]; intros c Hok Hroom; [constructor|].
  rewrite ticks_cons. assert (hlc_lt (last c) (tick c now).2) as Hlt.
  { apply tick_advances. right. unfold unsaturated. simpl in Hroom. lia. }
  pose proof (tick_logical c now (proj2 Hok)). simpl in Hroom.
  constructor; [done|].
  eapply Forall_impl; [apply (IH (tick c now).1)|].
  - by apply tick_ok.
  - rewrite tick_last. lia.
  - rewrite tick_last. intros t Ht. by eapply hlc_lt_trans.
Qed.

(** Local events of a replica are stamped with strictly increasing
    timestamps, whatever the wall clock does (it may stall or step back), as
    long as the run does not exhaust the 32-bit logical counter. *)
Theorem ticks_strictly_increasing c nows :
  clock_ok c → logical (last c) + Z.of_nat (length nows) ≤ u32_max →
  StronglySorted hlc_lt (ticks c nows).
Proof.
  revert c. induction nows as [|now nows IH]; intros c Hok Hroom; [constructor|].
  pose proof (tick_logical c now (proj2 Hok)). simpl in Hroom.
  rewrite ticks_cons. constructor.
  - apply (IH (tick c now).1); [by apply tick_ok|]. rewrite tick_last. lia.
  - apply (ticks_above (tick c now).1); [by apply tick_ok|].
    rewrite tick_last. lia.
Qed.

Definition clock_a : HlcClock := {| clock_node_id := "a"; last := mkHlc 100 3 "a" |}.

Lemma ticks_strictly_increasing_witness :
  ticks clock_a [90; 100; 101; 50] =
    [mkHlc 100 4 "a"; mkHlc 100 5 "a"; mkHlc 101 0 "a"; mkHlc 101 1 "a"]
  ∧ StronglySorted hlc_lt (ticks clock_a [90; 100; 101; 50]).
Proof.
  split; [reflexivity|].
  apply (ticks_strictly_increasing clock_a [90; 100; 101; 50]).
  - split; [reflexivity|]. split; vm_compute; discriminate.
  - vm_compute. discriminate.
Defined.

(** Observing a remote timestamp moves the clock strictly past both its
    previous value and the remote timestamp and not behind the wall clock, so
    that whatever the replica stamps next is ordered after what it has seen. *)
Theorem observe_dominates c r now :
  unsaturated (last c) → unsaturated r →
  let t := (observe c r now).2 in
  last (observe c r now).1 = t ∧ hlc_lt (last c) t ∧ hlc_lt r t ∧ now ≤ wall_time_ms t.
Proof.
  intros Hc Hr. destruct (observe_advances c r now Hc Hr) as [H1 H2].
  repeat split; try done. simpl. lia.
Qed.

Lemma observe_dominates_witness :
  (observe clock_a (mkHlc 100 9 "b") 70).2 = mkHlc 100 10 "a"
  ∧ hlc_lt (mkHlc 100 9 "b") (observe clock_a (mkHlc 100 9 "b") 70).2.
Proof.
  split; [reflexivity|].
  apply (observe_dominates clock_a (mkHlc 100 9 "b") 70); reflexivity.
Defined.

(** Boundary of the 32-bit counter: once [logical] is [u32::MAX] and the
    wall clock has not moved past the last stamp, [tick] saturates and hands
    out the very timestamp it handed out before, so strict monotonicity does
    need the bound of the two theorems above. *)
Theorem tick_saturates c now :
  clock_ok c → logical (last c) = u32_max → now ≤ wall_time_ms (last c) →
  tick c now = (c, last c).
Proof.
  destruct c as [n [w l n']]. unfold clock_ok, tick; simpl. intros [<- _] -> Hnow.
  destruct (Z.ltb_spec w now); [lia|]. reflexivity.
Qed.

Lemma tick_saturates_witness :
  let c := {| clock_node_id := "a"; last := mkHlc 7 u32_max "a" |} in
  tick c 7 = (c, mkHlc 7 u32_max "a").
Proof.
  apply (tick_saturates {| clock_node_id := "a"; last := mkHlc 7 u32_max "a" |} 7).
  - split; [reflexivity|]. split; vm_compute; discriminate.
  - reflexivity.
  - simpl. lia.
Defined.
