(* ===== verification/OrSet.v ===== *)
(** * OrSet: the observed-remove set of the context CRDT (src/src/gateway/crdt.rs)

    [OrSet] with its operations, the tag-level meaning of visibility, and the
    proof that the merge loops compute a join. *)

From Stdlib Require Import ZArith String.
From stdpp Require Import base gmap sets list strings sorting.
From S2P Require Import Prelude Text Hlc.

Record OrSet := mkOrSet {
  adds : gmap string (gset HlcTimestamp);
  tombstones : gmap string (gmap HlcTimestamp HlcTimestamp);
}.

#[export] Instance OrSet_eq_dec : EqDecision OrSet.
Proof. solve_decision. Defined.

(** [OrSet::default]. *)
Definition OrSet_default : OrSet := {| adds := ∅; tombstones := ∅ |}.

Record OrSetMergeSummary := mkOrSetSummary {
  added_tags : nat;
  added_tombstones : nat;
  updated_tombstones : nat;
}.

(** [OrSet::add]: the result is whether the tag is new ([BTreeSet::insert]). *)
Definition add (s : OrSet) (element : string) (tag : HlcTimestamp) : OrSet * bool :=
  let tags := default ∅ (adds s !! element) in
  ({| adds := <[element := {[tag]} ∪ tags]> (adds s); tombstones := tombstones s |},
   bool_decide (tag ∉ tags)).

(** The filter closure of [OrSet::visible_tags]. *)
Definition tag_kept (removed : option (gmap HlcTimestamp HlcTimestamp))
    (tag : HlcTimestamp) : bool :=
  match removed with
  | Some removed => bool_decide (removed !! tag = None)
  | None => true
  end.

(** [OrSet::visible_tags]. *)
Definition visible_tags (s : OrSet) (element : string) : list HlcTimestamp :=
  match adds s !! element with
  | None => []
  | Some tags =>
      filter (λ tag, tag_kept (tombstones s !! element) tag = true) (btree_set_iter tags)
  end.

(** [OrSet::is_visible]. *)
Definition is_visible (s : OrSet) (element : string) : bool :=
  match visible_tags s element with [] => false | _ :: _ => true end.

(** [OrSet::remove]: tombstone every visible tag; the result counts the new
    tombstones. *)
Definition tombstone_tag (removed_at : HlcTimestamp)
    (acc : gmap HlcTimestamp HlcTimestamp * nat) (tag : HlcTimestamp) :
    gmap HlcTimestamp HlcTimestamp * nat :=
  let '(tb, inserted) := acc in
  (<[tag := removed_at]> tb,
   match tb !! tag with None => S inserted | Some _ => inserted end).

Definition remove (s : OrSet) (element : string) (removed_at : HlcTimestamp) : OrSet * nat :=
  match visible_tags s element with
  | [] => (s, 0)
  | tags =>
      let '(tb, inserted) :=
        fold_left (tombstone_tag removed_at) tags
          (default ∅ (tombstones s !! element), 0) in
      ({| adds := adds s; tombstones := <[element := tb]> (tombstones s) |}, inserted)
  end.

(** [OrSet::visible_elements]. *)
Definition visible_elements (s : OrSet) : list string :=
  filter (λ element, is_visible s element = true) (btree_iter (adds s)).*1.

(** [OrSet::merge_in], first loop: [local_tags.insert(tag)] for each remote
    tag, counting the new ones. *)
Definition insert_tag (acc : gset HlcTimestamp * nat) (tag : HlcTimestamp) :
    gset HlcTimestamp * nat :=
  let '(local, n) := acc in
  if decide (tag ∈ local) then (local, n) else ({[tag]} ∪ local, S n).
Definition merge_tags (remote local : gset HlcTimestamp) (n : nat) : gset HlcTimestamp * nat :=
  fold_left insert_tag (btree_set_iter remote) (local, n).

(** [OrSet::merge_in], second loop: keep the later removal of each tag. *)
Definition merge_tombstone (removed_at : HlcTimestamp) (existing : option HlcTimestamp)
    (n : nat * nat) : option HlcTimestamp * (nat * nat) :=
  let '(added, updated) := n in
  let replace := match existing with
                 | Some existing => hlc_ltb existing removed_at
                 | None => true
                 end in
  if replace then
    (Some removed_at,
     match existing with
     | None => (S added, updated)
     | Some _ => (added, S updated)
     end)
  else (None, (added, updated)).
Definition merge_tombstones (remote local : gmap HlcTimestamp HlcTimestamp)
    (n : nat * nat) : gmap HlcTimestamp HlcTimestamp * (nat * nat) :=
  for_upserts merge_tombstone (btree_iter remote) (local, n).

(** [OrSet::merge_in]. *)
Definition merge_in (s other : OrSet) : OrSet * OrSetMergeSummary :=
  let '(adds', n) :=
    for_upserts (or_default ∅ merge_tags) (btree_iter (adds other)) (adds s, 0) in
  let '(tombs', (added, updated)) :=
    for_upserts (or_default ∅ merge_tombstones) (btree_iter (tombstones other))
      (tombstones s, (0, 0)) in
  ({| adds := adds'; tombstones := tombs' |},
   {| added_tags := n; added_tombstones := added; updated_tombstones := updated |}).

(** ** Visibility *)

Lemma elem_of_visible_tags s e t :
  t ∈ visible_tags s e ↔
  t ∈ default ∅ (adds s !! e) ∧ default ∅ (tombstones s !! e) !! t = None.
Proof.
  unfold visible_tags, tag_kept.
  destruct (adds s !! e) as [tags|]; simpl; [|set_solver].
  rewrite list_elem_of_filter, elem_of_btree_set_iter.
  destruct (tombstones s !! e); simpl; [rewrite bool_decide_eq_true; tauto|].
  rewrite lookup_empty. tauto.
Qed.

(** The visible tags depend only on the tags and tombstones of the element. *)
Lemma visible_tags_default s e :
  visible_tags s e =
  filter (λ t, default ∅ (tombstones s !! e) !! t = None)
    (btree_set_iter (default ∅ (adds s !! e))).
Proof.
  unfold visible_tags. destruct (adds s !! e) as [tags|]; simpl; [|done].
  apply list_filter_iff. intros t. unfold tag_kept.
  destruct (tombstones s !! e); simpl; [apply bool_decide_eq_true|].
  by rewrite lookup_empty.
Qed.

(** Visibility in set terms: some add tag is not tombstoned. *)
Lemma is_visible_spec s e :
  is_visible s e = true ↔
  ∃ t, t ∈ default ∅ (adds s !! e) ∧ default ∅ (tombstones s !! e) !! t = None.
Proof.
  unfold is_visible. setoid_rewrite <- elem_of_visible_tags.
  destruct (visible_tags s e) as [|t l].
  - split; [done|]. intros [t Ht]. by apply elem_of_nil in Ht.
  - split; [|done]. intros _. exists t. by left.
Qed.

Lemma is_visible_false s e :
  is_visible s e = false ↔ visible_tags s e = [].
Proof. unfold is_visible. by destruct (visible_tags s e). Qed.

Lemma elem_of_visible_elements s e :
  e ∈ visible_elements s ↔ is_visible s e = true.
Proof.
  unfold visible_elements. rewrite list_elem_of_filter, list_elem_of_fmap.
  split; [by intros [? _]|]. intros Hv. split; [done|].
  apply is_visible_spec in Hv as (t & Ht & _).
  destruct (adds s !! e) as [tags|] eqn:E; [|set_solver].
  exists (e, tags). by rewrite elem_of_btree_iter.
Qed.

(** Ids come out in order and once, so the list is determined by visibility. *)
Lemma visible_elements_ext s o :
  (∀ e, is_visible s e = is_visible o e) → visible_elements s = visible_elements o.
Proof.
  intros Heq. apply sorted_unique;
    try (apply NoDup_filter, btree_iter_NoDup);
    try (apply filter_sorted, btree_iter_sorted).
  intros e. by rewrite !elem_of_visible_elements, Heq.
Qed.

(** ** Removal *)

Lemma tombstone_tags_lookup r tags tb n t :
  (fold_left (tombstone_tag r) tags (tb, n)).1 !! t =
    if decide (t ∈ tags) then Some r else tb !! t.
Proof.
  revert tb n. induction tags as [|t' tags IH]; intros tb n; cbn [fold_left tombstone_tag].
  { by rewrite decide_False by apply not_elem_of_nil. }
  rewrite IH. destruct (decide (t ∈ tags)).
  { by rewrite decide_True by (apply elem_of_cons; by right). }
  destruct (decide (t = t')) as [->|Hne].
  - rewrite lookup_insert_eq. rewrite decide_True; [done|]. apply elem_of_cons. by left.
  - rewrite lookup_insert_ne by done. rewrite decide_False; [done|].
    by rewrite elem_of_cons; intros [|].
Qed.

Lemma remove_adds s e r : adds (remove s e r).1 = adds s.
Proof.
  unfold remove. destruct (visible_tags s e); [done|].
  by destruct (fold_left _ _ _).
Qed.

Lemma remove_tombstones s e r e' t :
  default ∅ (tombstones (remove s e r).1 !! e') !! t =
    if decide (e' = e ∧ t ∈ visible_tags s e) then Some r
    else default ∅ (tombstones s !! e') !! t.
Proof.
  unfold remove. destruct (visible_tags s e) as [|t0 tags] eqn:Hv.
  { rewrite decide_False; [done|]. intros [_ H]. by apply elem_of_nil in H. }
  pose proof (tombstone_tags_lookup r (t0 :: tags) (default ∅ (tombstones s !! e)) 0 t) as Hl.
  destruct (fold_left _ _ _) as [tb n]. simpl in *.
  rewrite lookup_insert. destruct (decide (e = e')) as [<-|Hne]; simpl.
  - rewrite Hl. repeat case_decide; naive_solver.
  - rewrite decide_False; [done|]. naive_solver.
Qed.

(** ** Merge as a join *)

(** The reference merge: union of add tags, latest removal of each tag. *)
Definition tomb_join : gmap HlcTimestamp HlcTimestamp → gmap HlcTimestamp HlcTimestamp →
    gmap HlcTimestamp HlcTimestamp := map_join hlc_max.
Definition orset_join (s o : OrSet) : OrSet :=
  {| adds := map_join union (adds s) (adds o);
     tombstones := map_join tomb_join (tombstones s) (tombstones o) |}.

#[export] Instance hlc_max_semilattice : JoinSemilattice hlc_max.
Proof. split; apply _. Qed.

#[export] Instance orset_join_semilattice : JoinSemilattice orset_join.
Proof.
  assert (JoinSemilattice tomb_join) by (unfold tomb_join; apply _).
  split; [intros s o|intros s o u|intros [a t]]; unfold orset_join; simpl; f_equal;
    first [apply (join_comm (JoinSemilattice:=_)) | apply (join_assoc (JoinSemilattice:=_))
          | apply (join_idemp (JoinSemilattice:=_))].
Qed.

Lemma insert_tags_value l local n :
  (fold_left insert_tag l (local, n)).1 = local ∪ list_to_set l.
Proof.
  revert local n. induction l as [|t l IH]; intros local n; simpl; [set_solver|].
  case_decide; rewrite IH; set_solver.
Qed.

Lemma insert_tags_count l local n :
  n ≤ (fold_left insert_tag l (local, n)).2 ∧
  ((fold_left insert_tag l (local, n)).2 = n ↔ list_to_set l ⊆ local).
Proof.
  revert local n. induction l as [|t l IH]; intros local n; simpl; [set_solver by lia|].
  case_decide as Ht.
  - destruct (IH local n) as [H1 H2]. split; [done|]. rewrite H2. set_solver.
  - destruct (IH ({[t]} ∪ local) (S n)) as [H1 _]. split; [lia|].
    split; [lia|]. set_solver.
Qed.

Lemma list_to_set_btree (s : gset HlcTimestamp) : list_to_set (btree_set_iter s) = s.
Proof.
  apply set_eq. intros t. by rewrite elem_of_list_to_set, elem_of_btree_set_iter.
Qed.

Lemma merge_tags_value remote local n : (merge_tags remote local n).1 = local ∪ remote.
Proof. unfold merge_tags. by rewrite insert_tags_value, list_to_set_btree. Qed.

Lemma merge_tags_mono remote local n : n ≤ (merge_tags remote local n).2.
Proof. apply insert_tags_count. Qed.

Lemma merge_tags_same remote local n :
  (merge_tags remote local n).2 = n ↔ remote ⊆ local.
Proof.
  unfold merge_tags. rewrite (proj2 (insert_tags_count _ _ _)).
  by rewrite list_to_set_btree.
Qed.

(** What one step of the tombstone loop leaves for the tag. *)
Definition later (removed_at : HlcTimestamp) (existing : option HlcTimestamp) :
    option HlcTimestamp :=
  Some (match existing with Some e => hlc_max e removed_at | None => removed_at end).

Lemma merge_tombstone_value r oe n :
  match (merge_tombstone r oe n).1 with Some a => Some a | None => oe end = later r oe.
Proof.
  unfold merge_tombstone, later, hlc_max. destruct n as [a u].
  destruct oe as [e|]; [|done]. by destruct (hlc_ltb e r).
Qed.

Definition tomb_count (n : nat * nat) : nat := n.1 + n.2.

Lemma merge_tombstone_mono r oe n : tomb_count n ≤ tomb_count (merge_tombstone r oe n).2.
Proof.
  unfold merge_tombstone, tomb_count. destruct n as [a u].
  destruct oe as [e|]; simpl; [destruct (hlc_ltb e r)|]; simpl; lia.
Qed.

Lemma merge_tombstone_same r oe n :
  tomb_count (merge_tombstone r oe n).2 = tomb_count n ↔ later r oe = oe.
Proof.
  unfold merge_tombstone, tomb_count, later, hlc_max. destruct n as [a u].
  destruct oe as [e|]; simpl; [|split; [lia|done]].
  destruct (hlc_ltb e r) eqn:E; simpl; [|done]. split; [lia|].
  intros [= ->]. by destruct (hlc_lt_irrefl e).
Qed.

Lemma merge_tombstones_value remote local n :
  (merge_tombstones remote local n).1 = tomb_join local remote.
Proof.
  unfold merge_tombstones.
  rewrite (for_upserts_map _ later merge_tombstone_value _ remote) by apply btree_iter_perm.
  by apply join_map_is_map_join.
Qed.

Lemma merge_tombstones_mono remote local n :
  tomb_count n ≤ tomb_count (merge_tombstones remote local n).2.
Proof.
  apply (for_upserts_count_mono _ tomb_count merge_tombstone_mono _ (local, n)).
Qed.

Lemma tomb_join_absorb (local remote : gmap HlcTimestamp HlcTimestamp) :
  tomb_join local remote = local ↔
  ∀ t r, remote !! t = Some r → later r (local !! t) = local !! t.
Proof.
  unfold tomb_join, later. split.
  - intros Heq t r Hr. rewrite <- Heq at 2. rewrite lookup_map_join, Hr.
    by destruct (local !! t).
  - intros Hall. apply map_eq. intros t. rewrite lookup_map_join.
    destruct (remote !! t) as [r|] eqn:Hr; [|by destruct (local !! t)].
    specialize (Hall t r Hr). by destruct (local !! t).
Qed.

Lemma merge_tombstones_same remote local n :
  tomb_count (merge_tombstones remote local n).2 = tomb_count n ↔
  tomb_join local remote = local.
Proof.
  unfold merge_tombstones.
  rewrite (for_upserts_count_same _ later tomb_count (λ r oe, later r oe = oe)
    merge_tombstone_value merge_tombstone_mono merge_tombstone_same _ (local, n)
    (btree_iter_NoDup remote)).
  rewrite tomb_join_absorb. by setoid_rewrite elem_of_btree_iter.
Qed.

Lemma merge_adds_map (m r : gmap string (gset HlcTimestamp)) n :
  (for_upserts (or_default ∅ merge_tags) (btree_iter r) (m, n)).1 = map_join union m r.
Proof.
  rewrite (for_upserts_map _ _ (or_default_value ∅ merge_tags (λ b a, a ∪ b) merge_tags_value)
    _ r) by apply btree_iter_perm.
  apply join_map_is_map_join; [|done]. intros b. simpl. f_equal. set_solver.
Qed.

Lemma merge_tombs_map (m r : gmap string (gmap HlcTimestamp HlcTimestamp)) n :
  (for_upserts (or_default ∅ merge_tombstones) (btree_iter r) (m, n)).1
  = map_join tomb_join m r.
Proof.
  rewrite (for_upserts_map _ _ (or_default_value ∅ merge_tombstones (λ b a, tomb_join a b)
    merge_tombstones_value) _ r) by apply btree_iter_perm.
  apply join_map_is_map_join; [|done]. intros b. simpl. f_equal.
  unfold tomb_join, map_join. apply (left_id ∅ _).
Qed.

Lemma merge_in_join s o : (merge_in s o).1 = orset_join s o.
Proof.
  unfold merge_in, orset_join.
  rewrite <- (merge_adds_map (adds s) (adds o) 0).
  rewrite <- (merge_tombs_map (tombstones s) (tombstones o) (0, 0)).
  destruct (for_upserts _ (btree_iter (adds o)) _), (for_upserts _ _ _) as [? [? ?]]. done.
Qed.

(** ** What a merge summary reports *)

(** Two sets with the same tags and tombstones for every element; an element
    with an empty entry is the same as one with no entry. *)
#[export] Instance OrSet_equiv : Equiv OrSet := λ s o, ∀ e,
  default ∅ (adds s !! e) = default ∅ (adds o !! e)
  ∧ default ∅ (tombstones s !! e) = default ∅ (tombstones o !! e).

#[export] Instance OrSet_equivalence : Equivalence (≡@{OrSet}).
Proof.
  split.
  - intros s e. done.
  - intros s o H e. destruct (H e). split; by symmetry.
  - intros s o u H1 H2 e. destruct (H1 e), (H2 e). split; by etrans.
Qed.

#[export] Instance is_visible_proper : Proper ((≡) ==> (=) ==> (=)) is_visible.
Proof.
  intros s o H e _ <-. destruct (H e) as [Ha Ht].
  apply Bool.eq_iff_eq_true. by rewrite !is_visible_spec, Ha, Ht.
Qed.

#[export] Instance visible_tags_proper : Proper ((≡) ==> (=) ==> (=)) visible_tags.
Proof.
  intros s o H e _ <-. destruct (H e) as [Ha Ht].
  by rewrite !visible_tags_default, Ha, Ht.
Qed.

Definition orset_changed (m : OrSetMergeSummary) : bool :=
  (0 <? added_tags m) || (0 <? added_tombstones m) || (0 <? updated_tombstones m).

Lemma default_map_join {K} `{Countable K} {A} (join : A → A → A) (d : A)
    (m r : gmap K A) k :
  (∀ a, join a d = a) → (∀ a, join d a = a) →
  default d (map_join join m r !! k) = join (default d (m !! k)) (default d (r !! k)).
Proof.
  intros Hr Hl. rewrite lookup_map_join.
  destruct (m !! k), (r !! k); simpl; by rewrite ?Hr, ?Hl.
Qed.

Lemma tomb_join_empty_r a : tomb_join a ∅ = a.
Proof. unfold tomb_join, map_join. apply (right_id ∅ _). Qed.

Lemma tomb_join_empty_l a : tomb_join ∅ a = a.
Proof. unfold tomb_join, map_join. apply (left_id ∅ _). Qed.

Lemma join_adds_default s o e :
  default ∅ (adds (orset_join s o) !! e) =
  default ∅ (adds s !! e) ∪ default ∅ (adds o !! e).
Proof. simpl. apply default_map_join; set_solver. Qed.

Lemma join_tombs_default s o e :
  default ∅ (tombstones (orset_join s o) !! e) =
  tomb_join (default ∅ (tombstones s !! e)) (default ∅ (tombstones o !! e)).
Proof. apply default_map_join; [apply tomb_join_empty_r|apply tomb_join_empty_l]. Qed.

#[export] Instance orset_join_proper : Proper ((≡) ==> (≡) ==> (≡)) orset_join.
Proof.
  intros s s' Hs o o' Ho e. destruct (Hs e) as [H1 H2], (Ho e) as [H3 H4].
  by rewrite !join_adds_default, !join_tombs_default, H1, H2, H3, H4.
Qed.

Lemma merge_adds_count (m r : gmap string (gset HlcTimestamp)) :
  (for_upserts (or_default ∅ merge_tags) (btree_iter r) (m, 0)).2 = 0 ↔
  ∀ e tags, r !! e = Some tags → tags ⊆ default ∅ (m !! e).
Proof.
  pose proof (for_upserts_count_same (K:=string) _ _ id
    (λ tags oa, tags ⊆ default ∅ oa)
    (or_default_value ∅ merge_tags (λ b a, a ∪ b) merge_tags_value)
    ltac:(intros; rewrite or_default_snd; apply merge_tags_mono)
    ltac:(intros; rewrite or_default_snd; apply merge_tags_same)
    (btree_iter r) (m, 0) (btree_iter_NoDup r)) as H.
  unfold id in H. simpl in H. rewrite H. by setoid_rewrite elem_of_btree_iter.
Qed.

Lemma merge_tombs_count (m r : gmap string (gmap HlcTimestamp HlcTimestamp)) :
  tomb_count (for_upserts (or_default ∅ merge_tombstones) (btree_iter r) (m, (0, 0))).2 = 0 ↔
  ∀ e tb, r !! e = Some tb → tomb_join (default ∅ (m !! e)) tb = default ∅ (m !! e).
Proof.
  pose proof (for_upserts_count_same (K:=string) _ _ tomb_count
    (λ tb oa, tomb_join (default ∅ oa) tb = default ∅ oa)
    (or_default_value ∅ merge_tombstones (λ b a, tomb_join a b) merge_tombstones_value)
    ltac:(intros; rewrite or_default_snd; apply merge_tombstones_mono)
    ltac:(intros; rewrite or_default_snd; apply merge_tombstones_same)
    (btree_iter r) (m, (0, 0)) (btree_iter_NoDup r)) as H.
  simpl in H. rewrite H. by setoid_rewrite elem_of_btree_iter.
Qed.

Lemma merge_in_summary s o :
  orset_changed (merge_in s o).2 = false ↔
  (for_upserts (or_default ∅ merge_tags) (btree_iter (adds o)) (adds s, 0)).2 = 0 ∧
  tomb_count (for_upserts (or_default ∅ merge_tombstones) (btree_iter (tombstones o))
    (tombstones s, (0, 0))).2 = 0.
Proof.
  unfold merge_in, orset_changed, tomb_count.
  destruct (for_upserts _ (btree_iter (adds o)) _) as [m n].
  destruct (for_upserts _ _ _) as [m' [a u]]. simpl.
  rewrite !orb_false_iff, !Nat.ltb_ge. lia.
Qed.

Lemma merge_in_unchanged s o :
  orset_changed (merge_in s o).2 = false ↔ (merge_in s o).1 ≡ s.
Proof.
  rewrite merge_in_summary, merge_adds_count, merge_tombs_count, merge_in_join.
  split.
  - intros [Ha Ht] e. rewrite join_adds_default, join_tombs_default. split.
    + destruct (adds o !! e) as [tags|] eqn:E; simpl; [|set_solver].
      specialize (Ha e tags E). set_solver.
    + destruct (tombstones o !! e) as [tb|] eqn:E; simpl; [by apply Ht|].
      apply tomb_join_empty_r.
  - intros H. split; intros e x Hx; destruct (H e) as [H1 H2].
    + rewrite join_adds_default, Hx in H1. simpl in H1. set_solver.
    + by rewrite join_tombs_default, Hx in H2.
Qed.

(** ** Theorems *)

(** The nested insertion loops of [OrSet::merge_in] compute the pointwise
    join of the two sets: the union of the add tags of every element and, for
    every tombstoned tag, the later of the two removal timestamps. *)
Theorem merge_in_refines_join s o : (merge_in s o).1 = orset_join s o.
Proof. apply merge_in_join. Qed.

(** [OrSet::merge_in] is a join-semilattice operation on whole set states:
    commutative, associative and idempotent up to equality. *)
Theorem merge_in_semilattice : JoinSemilattice (λ s o, (merge_in s o).1).
Proof.
  split.
  - intros s o. rewrite !merge_in_join. apply (comm orset_join).
  - intros s o u. rewrite !merge_in_join. apply (assoc orset_join).
  - intros s. rewrite merge_in_join. apply (idemp orset_join).
Qed.

(** Visible after a merge: added on either side and removed on neither. *)
Lemma is_visible_join s o e :
  is_visible (orset_join s o) e = true ↔
  ∃ t, (t ∈ default ∅ (adds s !! e) ∨ t ∈ default ∅ (adds o !! e))
    ∧ default ∅ (tombstones s !! e) !! t = None
    ∧ default ∅ (tombstones o !! e) !! t = None.
Proof.
  rewrite is_visible_spec, join_adds_default, join_tombs_default.
  unfold tomb_join. setoid_rewrite elem_of_union. setoid_rewrite lookup_map_join.
  split; intros (t & Ht & Hn); exists t; (split; [done|]);
    destruct (default ∅ (tombstones s !! e) !! t),
      (default ∅ (tombstones o !! e) !! t); naive_solver.
Qed.

Lemma remove_hides s e r : is_visible (remove s e r).1 e = false.
Proof.
  destruct (is_visible (remove s e r).1 e) eqn:Hv; [|done].
  apply is_visible_spec in Hv as (t & Ht & Hn).
  rewrite remove_adds in Ht. rewrite remove_tombstones in Hn.
  case_decide as Hd; [done|]. destruct Hd. split; [done|].
  by apply elem_of_visible_tags.
Qed.

(** Removal of an element leaves the tags of the others alone. *)
Lemma remove_frame s e r e' :
  e' ≠ e → visible_tags (remove s e r).1 e' = visible_tags s e'.
Proof.
  intros Hne. unfold remove. destruct (visible_tags s e) as [|t l]; [done|].
  destruct (fold_left _ _ _) as [tb n]. unfold visible_tags. simpl.
  by rewrite lookup_insert_ne by done.
Qed.

Lemma tombstone_tags_count r tags tb n :
  n ≤ (fold_left (tombstone_tag r) tags (tb, n)).2.
Proof.
  revert tb n. induction tags as [|t tags IH]; intros tb n; cbn [fold_left tombstone_tag];
    [done|]. etrans; [|apply IH]. destruct (tb !! t); lia.
Qed.

Lemma remove_count s e r : is_visible s e = true → 0 < (remove s e r).2.
Proof.
  unfold is_visible, remove.
  destruct (visible_tags s e) as [|t l] eqn:Hv; [done|]. intros _.
  assert (default ∅ (tombstones s !! e) !! t = None) as Ht.
  { assert (t ∈ visible_tags s e) as Hin by (rewrite Hv; by left).
    by apply elem_of_visible_tags in Hin as [_ ?]. }
  cbn [fold_left tombstone_tag]. rewrite Ht.
  pose proof (tombstone_tags_count r l
    (<[t:=r]> (default ∅ (tombstones s !! e))) 1) as Hc.
  destruct (fold_left _ _ _) as [tb n]. simpl in *. lia.
Qed.

(** Observed-remove: once a replica [o] that has seen every add tag of the
    element removes it, merging [o] into any such replica [s] hides the
    element there too, and removal touches no other element. *)
Theorem remove_wins_over_observed_adds s o e r :
  default ∅ (adds s !! e) ⊆ default ∅ (adds o !! e) →
  is_visible (merge_in s (remove o e r).1).1 e = false
  ∧ ∀ e', e' ≠ e → is_visible (remove o e r).1 e' = is_visible o e'.
Proof.
  intros Hsub. split.
  - rewrite merge_in_join. destruct (is_visible _ e) eqn:Hv; [|done].
    apply is_visible_join in Hv as (t & Ht & _ & Hn).
    rewrite <- (remove_hides o e r). symmetry. apply is_visible_spec.
    exists t. split; [|done]. rewrite remove_adds in *. set_solver.
  - intros e' Hne. unfold is_visible. by rewrite remove_frame.
Qed.

Definition ts (w : Z) (n : string) : HlcTimestamp := mkHlc w 0 n.

Lemma remove_wins_over_observed_adds_witness :
  let s := (add OrSet_default "x" (ts 1 "a")).1 in
  is_visible s "x" = true
  ∧ is_visible (merge_in s (remove s "x" (ts 2 "b")).1).1 "x" = false.
Proof.
  split; [vm_compute; reflexivity|].
  apply (remove_wins_over_observed_adds (add OrSet_default "x" (ts 1 "a")).1
    (add OrSet_default "x" (ts 1 "a")).1 "x" (ts 2 "b")).
  set_solver.
Defined.

(** Add wins: an add tag the removing replica has not seen, and that no
    replica has tombstoned, survives the merge with the removal. *)
Theorem concurrent_add_wins s o e t r :
  t ∉ default ∅ (adds o !! e) →
  default ∅ (tombstones s !! e) !! t = None →
  default ∅ (tombstones o !! e) !! t = None →
  is_visible (merge_in (add s e t).1 (remove o e r).1).1 e = true.
Proof.
  intros Hnin Hs Ho. rewrite merge_in_join, is_visible_join. exists t.
  split_and!.
  - left. simpl. rewrite lookup_insert_eq. set_solver.
  - done.
  - rewrite remove_tombstones, decide_False; [done|].
    rewrite elem_of_visible_tags. naive_solver.
Qed.

Lemma concurrent_add_wins_witness :
  let o := (add OrSet_default "x" (ts 1 "a")).1 in
  is_visible (remove o "x" (ts 2 "b")).1 "x" = false
  ∧ is_visible (merge_in (add o "x" (ts 3 "a")).1 (remove o "x" (ts 2 "b")).1).1 "x" = true.
Proof.
  split; [vm_compute; reflexivity|].
  apply (concurrent_add_wins (add OrSet_default "x" (ts 1 "a")).1
    (add OrSet_default "x" (ts 1 "a")).1 "x" (ts 3 "a") (ts 2 "b")).
  - apply (bool_decide_unpack _). vm_compute. exact I.
  - vm_compute. reflexivity.
  - vm_compute. reflexivity.
Defined.
