(* ===== verification/Lww.v ===== *)
(** * Lww: JSON values and last-writer-wins registers (src/src/gateway/crdt.rs)

    [serde_json] is not part of the repository: its [Value] tree is a type
    here, and its printer is the interface [SerdeJson], of which the code
    needs that printing a [Value] succeeds and that two values with the same
    text are the same value. *)

From Stdlib Require Import ZArith Ascii String.
From stdpp Require Import base gmap list strings.
From S2P Require Import Prelude Text Hlc.

Set Warnings "-register-all".

(** [serde_json::Value], over the type of JSON numbers. *)
Inductive Value (Number : Type) :=
| Null
| Bool (b : bool)
| Num (n : Number)
| Str (text : string)
| Arr (values : list (Value Number))
| Obj (values : list (string * Value Number)).
Arguments Null {Number}.
Arguments Bool {Number} b.
Arguments Num {Number} n.
Arguments Str {Number} text.
Arguments Arr {Number} values.
Arguments Obj {Number} values.

(** [Value::get], [as_bool] and [as_u64]; the last needs the number type's own
    [as_u64]. *)
Definition json_get {Number} (v : Value Number) (key : string) : option (Value Number) :=
  match v with
  | Obj kvs => snd <$> List.find (λ kv, bool_decide (kv.1 = key)) kvs
  | _ => None
  end.
Definition json_as_bool {Number} (v : Value Number) : option bool :=
  match v with Bool b => Some b | _ => None end.
Definition json_as_u64 {Number} (as_u64 : Number → option Z) (v : Value Number) : option Z :=
  match v with Num n => as_u64 n | _ => None end.

Class SerdeJson := {
  Number : Type;
  number_to_string : Number → string;
  json_to_string : Value Number → option string;
  json_to_string_total : ∀ v, is_Some (json_to_string v);
  json_to_string_inj : ∀ v w, json_to_string v = json_to_string w → v = w;
}.

Section lww.
Context `{SerdeJson}.
Abbreviation value := (Value Number).

(** [canonical_json_string]: [serde_json::to_string(v).unwrap_or_default()]. *)
Definition canonical_json_string (v : value) : string := default "" (json_to_string v).

Lemma canonical_inj v w : canonical_json_string v = canonical_json_string w → v = w.
Proof.
  unfold canonical_json_string. intros Heq. apply json_to_string_inj.
  destruct (json_to_string_total v) as [s Hs], (json_to_string_total w) as [t Ht].
  rewrite Hs, Ht in *. simpl in Heq. by subst.
Qed.

Record LwwRegister := mkReg {
  reg_value : value;
  timestamp : HlcTimestamp;
}.

(** [LwwRegister::merge]. *)
Definition lww_merge (local remote : LwwRegister) : LwwRegister :=
  if hlc_ltb (timestamp local) (timestamp remote) then remote
  else if hlc_ltb (timestamp remote) (timestamp local) then local
  else if String.ltb (canonical_json_string (reg_value local))
            (canonical_json_string (reg_value remote)) then remote
  else local.

(** The order [lww_merge] takes the maximum of: timestamp, then the text of
    the value. *)
Definition lww_ltb (a b : LwwRegister) : bool :=
  hlc_ltb (timestamp a) (timestamp b)
  || (negb (hlc_ltb (timestamp b) (timestamp a))
      && String.ltb (canonical_json_string (reg_value a))
           (canonical_json_string (reg_value b))).

Lemma lww_merge_max a b : lww_merge a b = max_by lww_ltb a b.
Proof.
  unfold lww_merge, max_by, lww_ltb.
  by destruct (hlc_ltb (timestamp a) _), (hlc_ltb (timestamp b) _),
    (String.ltb _ _).
Qed.

Lemma lww_ltb_spec a b :
  lww_ltb a b = true ↔
  hlc_lt (timestamp a) (timestamp b)
  ∨ (timestamp a = timestamp b ∧
     String.compare (canonical_json_string (reg_value a))
       (canonical_json_string (reg_value b)) = Lt).
Proof.
  unfold lww_ltb, String.ltb. rewrite orb_true_iff, andb_true_iff, negb_true_iff.
  fold (hlc_lt (timestamp a) (timestamp b)).
  destruct (hlc_total (timestamp a) (timestamp b)) as [Hlt|[Heq|Hgt]].
  - naive_solver.
  - rewrite Heq. unfold hlc_ltb. rewrite hlc_compare_refl.
    destruct (String.compare _ _); naive_solver.
  - pose proof (hlc_lt_irrefl (timestamp a)) as Hi.
    assert (¬ hlc_lt (timestamp a) (timestamp b)) by eauto with verdictan.
    assert (timestamp a ≠ timestamp b) by (intros E; rewrite E in *; done).
    unfold hlc_lt in Hgt. rewrite Hgt. naive_solver.
Qed.

Lemma lww_ltb_irrefl a : lww_ltb a a = false.
Proof.
  destruct (lww_ltb a a) eqn:E; [|done].
  apply lww_ltb_spec in E as [E|[_ E]]; [by apply hlc_lt_irrefl in E|].
  by rewrite string_compare_refl in E.
Qed.

Lemma lww_ltb_trans a b c :
  lww_ltb a b = true → lww_ltb b c = true → lww_ltb a c = true.
Proof.
  rewrite !lww_ltb_spec. intros [H1|[H1 H1']] [H2|[H2 H2']].
  - eauto with verdictan.
  - rewrite <- H2. auto.
  - rewrite H1. auto.
  - rewrite H1. eauto using string_lt_trans.
Qed.

Lemma lww_ltb_total a b : lww_ltb a b = false → lww_ltb b a = false → a = b.
Proof.
  intros H1 H2.
  assert (H1' : ¬ lww_ltb a b = true) by (by rewrite H1).
  assert (H2' : ¬ lww_ltb b a = true) by (by rewrite H2).
  rewrite lww_ltb_spec in H1', H2'.
  destruct (hlc_total (timestamp a) (timestamp b)) as [|[Ht|]]; [tauto| |tauto].
  assert (Hv : canonical_json_string (reg_value a) = canonical_json_string (reg_value b)).
  { apply String.compare_eq_iff.
    rewrite (String.compare_antisym (canonical_json_string (reg_value b))) in H2'.
    destruct (String.compare (canonical_json_string (reg_value a)) _) eqn:E;
      [done| |]; naive_solver. }
  destruct a, b; simpl in *. apply canonical_inj in Hv. by subst.
Qed.

#[export] Instance lww_merge_semilattice : JoinSemilattice lww_merge.
Proof.
  destruct (max_by_semilattice lww_ltb lww_ltb_irrefl lww_ltb_trans lww_ltb_total)
    as [Hc Ha Hi].
  split; [intros a b|intros a b c|intros a]; rewrite !lww_merge_max; auto.
Qed.

Lemma lww_merge_newer local remote :
  hlc_lt (timestamp local) (timestamp remote) → lww_merge local remote = remote.
Proof. unfold lww_merge. by intros ->. Qed.

Lemma lww_merge_cases local remote :
  lww_merge local remote = local ∨ lww_merge local remote = remote.
Proof.
  unfold lww_merge. repeat case_match; auto.
Qed.
End lww.

(** ** An instance of the printer interface

    Integers for numbers and an injective text for every value: the laws the
    code relies on can hold. *)
Module JsonModel.
Fixpoint enc (v : Value Z) : gen_tree (bool + Z + string) :=
  match v with
  | Null => GenNode 0 []
  | Bool b => GenLeaf (inl (inl b))
  | Num n => GenLeaf (inl (inr n))
  | Str t => GenLeaf (inr t)
  | Arr vs => GenNode 1 (map enc vs)
  | Obj kvs => GenNode 2 (map (λ kv, GenNode 3 [GenLeaf (inr kv.1); enc kv.2]) kvs)
  end.

Fixpoint dec (t : gen_tree (bool + Z + string)) : Value Z :=
  match t with
  | GenLeaf (inl (inl b)) => Bool b
  | GenLeaf (inl (inr n)) => Num n
  | GenLeaf (inr s) => Str s
  | GenNode 1 l => Arr (map dec l)
  | GenNode 2 l =>
      Obj (map (λ t, match t with
                     | GenNode _ [GenLeaf (inr k); t'] => (k, dec t')
                     | _ => (EmptyString, Null)
                     end) l)
  | GenNode _ _ => Null
  end.

Lemma dec_enc : ∀ v, dec (enc v) = v.
Proof.
  fix IH 1. intros [| | | |vs|kvs]; simpl; try done; f_equal.
  - induction vs as [|v vs IHvs]; simpl; [done|]. by rewrite IH, IHvs.
  - induction kvs as [|[k v] kvs IHk]; simpl; [done|]. by rewrite IH, IHk.
Qed.

Fixpoint pos_text (p : positive) : string :=
  match p with
  | xH => EmptyString
  | xO p => String "0"%char (pos_text p)
  | xI p => String "1"%char (pos_text p)
  end.

Fixpoint text_pos (s : string) : positive :=
  match s with
  | EmptyString => xH
  | String a s => if Ascii.eqb a "0" then xO (text_pos s) else xI (text_pos s)
  end.
Lemma text_pos_text p : text_pos (pos_text p) = p.
Proof. induction p as [p IH|p IH|]; simpl; by rewrite ?IH. Qed.

Lemma pos_text_inj p q : pos_text p = pos_text q → p = q.
Proof. intros Heq. by rewrite <- (text_pos_text p), Heq, text_pos_text. Qed.

Definition text (v : Value Z) : string := pos_text (encode (enc v)).

Lemma text_inj v w : text v = text w → v = w.
Proof.
  intros Heq%pos_text_inj%(inj encode). by rewrite <- (dec_enc v), Heq, dec_enc.
Qed.

#[export] Instance json : SerdeJson.
Proof.
  refine {| Number := Z; number_to_string := λ z, text (Num z);
            json_to_string := λ v, Some (text v) |}.
  - intros v. by exists (text v).
  - intros v w [= Heq]. by apply text_inj.
Defined.
End JsonModel.
