(* ===== verification/ContextState.v ===== *)
(** * ContextState: the replicated state of the context pool (src/src/gateway/crdt.rs)

    [ContextCrdtState]: an observed-remove set of entry ids and, per entry, a
    map of last-writer-wins registers.  This file has the state, its merge, its
    reads ([entry_view], [local_search], [local_recent],
    [local_schema_lookup]) and the lemmas that relate them. *)

From Stdlib Require Import ZArith String.
From stdpp Require Import base gmap sets list strings sorting.
From S2P Require Import Prelude Text Hlc OrSet Lww.

Section state.
Context `{SerdeJson}.
Abbreviation value := (Value Number).

Record ContextCrdtState := mkState {
  membership : OrSet;
  fields : gmap string (gmap string LwwRegister);
}.

(** [ContextCrdtState::default]. *)
Definition ContextCrdtState_default : ContextCrdtState :=
  {| membership := OrSet_default; fields := ∅ |}.

Record MergeSummary := mkMergeSummary {
  summary_membership : OrSetMergeSummary;
  changed_fields : nat;
  inserted_fields : nat;
}.

(** [MergeSummary::state_changed]. *)
Definition state_changed (m : MergeSummary) : bool :=
  (0 <? added_tags (summary_membership m))
  || (0 <? added_tombstones (summary_membership m))
  || (0 <? updated_tombstones (summary_membership m))
  || (0 <? changed_fields m)
  || (0 <? inserted_fields m).

(** The inner loop body of [ContextCrdtState::merge_in]. *)
Definition merge_field (remote : LwwRegister) (local : option LwwRegister)
    (n : nat * nat) : option LwwRegister * (nat * nat) :=
  let '(changed, inserted) := n in
  match local with
  | Some local =>
      let merged := lww_merge local remote in
      if negb (bool_decide (timestamp merged = timestamp local))
         || negb (bool_decide (canonical_json_string (reg_value merged)
                               = canonical_json_string (reg_value local)))
      then (Some merged, (S changed, inserted))
      else (None, (changed, inserted))
  | None => (Some remote, (changed, S inserted))
  end.
Definition merge_fields (remote local : gmap string LwwRegister)
    (n : nat * nat) : gmap string LwwRegister * (nat * nat) :=
  for_upserts merge_field (btree_iter remote) (local, n).

(** [ContextCrdtState::merge_in]. *)
Definition state_merge_in (s other : ContextCrdtState) : ContextCrdtState * MergeSummary :=
  let '(m, msum) := merge_in (membership s) (membership other) in
  let '(fs, (changed, inserted)) :=
    for_upserts (or_default ∅ merge_fields) (btree_iter (fields other))
      (fields s, (0, 0)) in
  ({| membership := m; fields := fs |},
   {| summary_membership := msum; changed_fields := changed;
      inserted_fields := inserted |}).

(** [ContextCrdtState::merged]. *)
Definition merged (s other : ContextCrdtState) : ContextCrdtState :=
  (state_merge_in s other).1.

(** [ContextCrdtState::visible_entry_ids] and [visible_len]. *)
Definition visible_entry_ids (s : ContextCrdtState) : list string :=
  visible_elements (membership s).
Definition visible_len (s : ContextCrdtState) : nat := length (visible_entry_ids s).

(** [update_max_timestamp]. *)
Definition update_max_timestamp (slot : option HlcTimestamp) (candidate : HlcTimestamp) :
    option HlcTimestamp :=
  let should_replace := match slot with
                        | Some current => hlc_ltb current candidate
                        | None => true
                        end in
  if should_replace then Some candidate else slot.

(** The timestamps the loops of [max_timestamp], [latest_any_timestamp] and
    [latest_visible_timestamp] feed to [update_max_timestamp], in order. *)
Definition removal_timestamps (removed : gmap HlcTimestamp HlcTimestamp) : list HlcTimestamp :=
  flat_map (λ p, [p.1; p.2]) (btree_iter removed).
Definition register_timestamps (fs : gmap string LwwRegister) : list HlcTimestamp :=
  map (λ p, timestamp p.2) (btree_iter fs).

(** [ContextCrdtState::max_timestamp]. *)
Definition max_timestamp (s : ContextCrdtState) : option HlcTimestamp :=
  fold_left update_max_timestamp
    (flat_map (λ p, btree_set_iter p.2) (btree_iter (adds (membership s)))
     ++ flat_map (λ p, removal_timestamps p.2) (btree_iter (tombstones (membership s)))
     ++ flat_map (λ p, register_timestamps p.2) (btree_iter (fields s)))
    None.

(** [ContextCrdtState::latest_visible_timestamp]. *)
Definition latest_visible_timestamp (s : ContextCrdtState) (entry_id : string) :
    option HlcTimestamp :=
  fold_left update_max_timestamp
    (visible_tags (membership s) entry_id
     ++ match fields s !! entry_id with
        | Some fs => register_timestamps fs
        | None => []
        end) None.

(** [ContextCrdtState::latest_any_timestamp]. *)
Definition latest_any_timestamp (s : ContextCrdtState) (entry_id : string) :
    option HlcTimestamp :=
  fold_left update_max_timestamp
    (match adds (membership s) !! entry_id with
     | Some tags => btree_set_iter tags
     | None => []
     end
     ++ match tombstones (membership s) !! entry_id with
        | Some removed => removal_timestamps removed
        | None => []
        end
     ++ match fields s !! entry_id with
        | Some fs => register_timestamps fs
        | None => []
        end) None.

Record ContextEntryView := mkView {
  entry_id : string;
  view_fields : gmap string value;
  last_updated : HlcTimestamp;
}.

(** [ContextEntryView::field_str]: the field if it is a JSON string. *)
Definition field_str (v : ContextEntryView) (key : string) : option string :=
  match view_fields v !! key with
  | Some (Str text) => Some text
  | _ => None
  end.

(** [ContextCrdtState::entry_view]. *)
Definition entry_view (s : ContextCrdtState) (id : string) : option ContextEntryView :=
  if negb (is_visible (membership s) id) then None else
  let fs := match fields s !! id with
            | Some regs => reg_value <$> regs
            | None => ∅
            end in
  match latest_visible_timestamp s id with
  | None => None
  | Some t => Some {| entry_id := id; view_fields := fs; last_updated := t |}
  end.

Record LocalReadScope := mkScope {
  repo : option string;
  branch : option string;
}.

(** [LocalReadScope::any] and [scoped]. *)
Definition any_scope : LocalReadScope := {| repo := None; branch := None |}.
Definition scoped (r b : option string) : LocalReadScope := {| repo := r; branch := b |}.

(** [LocalReadScope::matches]. *)
Definition scope_field_matches (expected : option string) (actual : option string) : bool :=
  match expected with
  | None => true
  | Some expected =>
      match actual with Some actual => bool_decide (actual = expected) | None => false end
  end.
Definition scope_matches (sc : LocalReadScope) (v : ContextEntryView) : bool :=
  scope_field_matches (repo sc) (field_str v "repo")
  && scope_field_matches (branch sc) (field_str v "branch").

(** [normalize_ascii], [normalized_terms]. *)
Definition normalize_ascii (s : string) : string := to_ascii_lowercase (trim s).
Definition normalized_terms (query : string) : list string :=
  filter (λ term, is_empty term = false) (split_whitespace (normalize_ascii query)).

(** [flatten_value], [searchable_blob], [matches_schema_key]. *)
Fixpoint flatten_value (v : value) : list string :=
  match v with
  | Null => []
  | Bool b => [if b then "true" else "false"]%string
  | Num n => [number_to_string n]
  | Str text => [normalize_ascii text]
  | Arr values => flat_map flatten_value values
  | Obj values => flat_map (λ kv, flatten_value kv.2) values
  end.
Definition searchable_blob (fs : gmap string value) : string :=
  String.concat " " (flat_map (λ p, flatten_value p.2) (btree_iter fs)).
Definition matches_schema_key (v : option value) (normalized_key : string) : bool :=
  match v with
  | Some (Str text) => bool_decide (normalize_ascii text = normalized_key)
  | Some (Arr values) =>
      existsb (λ v, match v with
                    | Str text => bool_decide (normalize_ascii text = normalized_key)
                    | _ => false
                    end) values
  | _ => false
  end.

(** The visible entries of a read scope, in entry-id order. *)
Definition scoped_views (s : ContextCrdtState) (sc : LocalReadScope) : list ContextEntryView :=
  filter (λ v, scope_matches sc v = true) (omap (entry_view s) (visible_entry_ids s)).

(** The comparators handed to [sort_by]: [a] may stay before [b]. *)
Definition recent_le (a b : ContextEntryView) : Prop :=
  hlc_lt (last_updated b) (last_updated a)
  ∨ (last_updated a = last_updated b ∧ String.le (entry_id a) (entry_id b)).
#[export] Instance recent_le_dec : RelDecision recent_le.
Proof. intros a b. unfold recent_le, hlc_lt. apply _. Defined.

Definition search_le (a b : nat * ContextEntryView) : Prop :=
  b.1 < a.1 ∨ (a.1 = b.1 ∧ recent_le a.2 b.2).
#[export] Instance search_le_dec : RelDecision search_le.
Proof. intros a b. unfold search_le. apply _. Defined.

(** [ContextCrdtState::local_recent]. *)
Definition local_recent (s : ContextCrdtState) (sc : LocalReadScope) (limit : nat) :
    list ContextEntryView :=
  if decide (limit = 0) then [] else
  take limit (merge_sort recent_le (scoped_views s sc)).

(** The score closure of [local_search]. *)
Definition search_score (terms : list string) (v : ContextEntryView) : nat :=
  match terms with
  | [] => 1
  | _ => length (filter (λ term, str_contains term (searchable_blob (view_fields v)) = true)
                   terms)
  end.

(** [ContextCrdtState::local_search]. *)
Definition local_search (s : ContextCrdtState) (query : string) (sc : LocalReadScope)
    (limit : nat) : list ContextEntryView :=
  if decide (limit = 0) then [] else
  let terms := normalized_terms query in
  let matches :=
    omap (λ v, let score := search_score terms v in
               if decide (score = 0) then None else Some (score, v))
      (scoped_views s sc) in
  (take limit (merge_sort search_le matches)).*2.

(** [ContextCrdtState::local_schema_lookup]. *)
Definition local_schema_lookup (s : ContextCrdtState) (schema_key : string)
    (sc : LocalReadScope) : list ContextEntryView :=
  let normalized_key := normalize_ascii schema_key in
  filter (λ v, matches_schema_key (view_fields v !! "schema_key") normalized_key
               || matches_schema_key (view_fields v !! "schema_keys") normalized_key = true)
    (scoped_views s sc).

(** ** Merge as a join *)

Definition fields_join : gmap string LwwRegister → gmap string LwwRegister →
    gmap string LwwRegister := map_join lww_merge.
Definition state_join (s o : ContextCrdtState) : ContextCrdtState :=
  {| membership := orset_join (membership s) (membership o);
     fields := map_join fields_join (fields s) (fields o) |}.

#[export] Instance fields_join_semilattice : JoinSemilattice fields_join.
Proof. unfold fields_join. apply _. Qed.

#[export] Instance state_join_semilattice : JoinSemilattice state_join.
Proof.
  split; [intros s o|intros s o u|intros [m f]]; unfold state_join; simpl; f_equal;
    first [apply (join_comm (JoinSemilattice:=_)) | apply (join_assoc (JoinSemilattice:=_))
          | apply (join_idemp (JoinSemilattice:=_))].
Qed.

(** What one step of the field loop leaves in the register. *)
Definition latest_write (remote : LwwRegister) (local : option LwwRegister) :
    option LwwRegister :=
  Some (match local with Some l => lww_merge l remote | None => remote end).

(** A write is skipped only when it would change neither the timestamp nor
    the value. *)
Lemma skipped_write_same (a b : LwwRegister) :
  negb (bool_decide (timestamp a = timestamp b))
  || negb (bool_decide (canonical_json_string (reg_value a)
                        = canonical_json_string (reg_value b))) = false ↔ a = b.
Proof.
  rewrite orb_false_iff, !negb_false_iff, !bool_decide_eq_true. split; [|by intros ->].
  destruct a, b; simpl. intros [-> Hv]. by apply canonical_inj in Hv as ->.
Qed.

Lemma merge_field_value r ol n :
  match (merge_field r ol n).1 with Some a => Some a | None => ol end = latest_write r ol.
Proof.
  unfold merge_field, latest_write. destruct n as [c i], ol as [l|]; [|done].
  destruct (_ || _) eqn:E; [done|]. apply skipped_write_same in E. by rewrite E.
Qed.

Lemma merge_field_mono r ol n : tomb_count n ≤ tomb_count (merge_field r ol n).2.
Proof.
  unfold merge_field, tomb_count. destruct n as [c i], ol as [l|]; simpl; [|lia].
  destruct (_ || _); simpl; lia.
Qed.

Lemma merge_field_same r ol n :
  tomb_count (merge_field r ol n).2 = tomb_count n ↔ latest_write r ol = ol.
Proof.
  unfold merge_field, tomb_count, latest_write.
  destruct n as [c i], ol as [l|]; simpl; [|split; [lia|done]].
  destruct (_ || _) eqn:E; simpl.
  - split; [lia|]. intros [= Heq]. apply skipped_write_same in Heq. congruence.
  - apply skipped_write_same in E. split; [by rewrite E|done].
Qed.

Lemma merge_fields_value remote local n :
  (merge_fields remote local n).1 = fields_join local remote.
Proof.
  unfold merge_fields.
  rewrite (for_upserts_map _ latest_write merge_field_value _ remote)
    by apply btree_iter_perm.
  by apply join_map_is_map_join.
Qed.

Lemma merge_fields_mono remote local n :
  tomb_count n ≤ tomb_count (merge_fields remote local n).2.
Proof. apply (for_upserts_count_mono _ tomb_count merge_field_mono _ (local, n)). Qed.

Lemma fields_join_absorb (local remote : gmap string LwwRegister) :
  fields_join local remote = local ↔
  ∀ f r, remote !! f = Some r → latest_write r (local !! f) = local !! f.
Proof.
  unfold fields_join, latest_write. split.
  - intros Heq t r Hr. rewrite <- Heq at 2. rewrite lookup_map_join, Hr.
    by destruct (local !! t).
  - intros Hall. apply map_eq. intros t. rewrite lookup_map_join.
    destruct (remote !! t) as [r|] eqn:Hr; [|by destruct (local !! t)].
    specialize (Hall t r Hr). by destruct (local !! t).
Qed.

Lemma merge_fields_same remote local n :
  tomb_count (merge_fields remote local n).2 = tomb_count n ↔
  fields_join local remote = local.
Proof.
  unfold merge_fields.
  rewrite (for_upserts_count_same _ latest_write tomb_count
    (λ r ol, latest_write r ol = ol)
    merge_field_value merge_field_mono merge_field_same _ (local, n)
    (btree_iter_NoDup remote)).
  rewrite fields_join_absorb. by setoid_rewrite elem_of_btree_iter.
Qed.

Lemma fields_join_empty_r a : fields_join a ∅ = a.
Proof. unfold fields_join, map_join. apply (right_id ∅ _). Qed.
Lemma fields_join_empty_l a : fields_join ∅ a = a.
Proof. unfold fields_join, map_join. apply (left_id ∅ _). Qed.

Lemma merge_field_maps (m r : gmap string (gmap string LwwRegister)) n :
  (for_upserts (or_default ∅ merge_fields) (btree_iter r) (m, n)).1
  = map_join fields_join m r.
Proof.
  rewrite (for_upserts_map _ _ (or_default_value ∅ merge_fields (λ b a, fields_join a b)
    merge_fields_value) _ r) by apply btree_iter_perm.
  apply join_map_is_map_join; [|done]. intros b. simpl.
  by rewrite fields_join_empty_l.
Qed.

Lemma merged_join s o : merged s o = state_join s o.
Proof.
  unfold merged, state_merge_in, state_join.
  rewrite <- (merge_field_maps (fields s) (fields o) (0, 0)), <- merge_in_join.
  by destruct (merge_in _ _), (for_upserts _ _ _) as [? [? ?]].
Qed.

(** ** What a merge summary reports *)

#[export] Instance State_equiv : Equiv ContextCrdtState := λ s o,
  membership s ≡ membership o
  ∧ ∀ e, default ∅ (fields s !! e) = default ∅ (fields o !! e).

#[export] Instance State_equivalence : Equivalence (≡@{ContextCrdtState}).
Proof.
  split.
  - intros s. by split.
  - intros s o [H1 H2]. split; [by symmetry|]. intros e. by rewrite H2.
  - intros s o u [H1 H2] [H3 H4]. split; [by etrans|]. intros e. by rewrite H2.
Qed.

Lemma join_fields_default s o e :
  default ∅ (fields (state_join s o) !! e) =
  fields_join (default ∅ (fields s !! e)) (default ∅ (fields o !! e)).
Proof.
  apply default_map_join; [apply fields_join_empty_r|apply fields_join_empty_l].
Qed.

Lemma merge_field_maps_count (m r : gmap string (gmap string LwwRegister)) :
  tomb_count (for_upserts (or_default ∅ merge_fields) (btree_iter r) (m, (0, 0))).2 = 0 ↔
  ∀ e fs, r !! e = Some fs → fields_join (default ∅ (m !! e)) fs = default ∅ (m !! e).
Proof.
  pose proof (for_upserts_count_same (K:=string) _ _ tomb_count
    (λ fs oa, fields_join (default ∅ oa) fs = default ∅ oa)
    (or_default_value ∅ merge_fields (λ b a, fields_join a b) merge_fields_value)
    ltac:(intros; rewrite or_default_snd; apply merge_fields_mono)
    ltac:(intros; rewrite or_default_snd; apply merge_fields_same)
    (btree_iter r) (m, (0, 0)) (btree_iter_NoDup r)) as Hc.
  simpl in Hc. rewrite Hc. by setoid_rewrite elem_of_btree_iter.
Qed.

Lemma state_changed_split s o :
  state_changed (state_merge_in s o).2 = false ↔
  orset_changed (merge_in (membership s) (membership o)).2 = false ∧
  tomb_count (for_upserts (or_default ∅ merge_fields) (btree_iter (fields o))
    (fields s, (0, 0))).2 = 0.
Proof.
  unfold state_merge_in, state_changed, orset_changed, tomb_count.
  destruct (merge_in _ _) as [m ms], (for_upserts _ _ _) as [f [c i]]. simpl.
  rewrite !orb_false_iff, !Nat.ltb_ge. split; intros; destruct_and?; split_and?; lia.
Qed.

Lemma state_unchanged s o :
  state_changed (state_merge_in s o).2 = false ↔ merged s o ≡ s.
Proof.
  rewrite state_changed_split, merge_in_unchanged, merge_in_join, merge_field_maps_count,
    merged_join.
  split; intros [Hm Hf]; (split; [done|]).
  - intros e. rewrite join_fields_default.
    destruct (fields o !! e) as [fs|] eqn:E; simpl; [by apply Hf|].
    apply fields_join_empty_r.
  - intros e fs Hfs. specialize (Hf e). by rewrite join_fields_default, Hfs in Hf.
Qed.

(** ** Maxima of timestamps *)

Lemma update_max_some t y : update_max_timestamp (Some t) y = Some (hlc_max t y).
Proof. unfold update_max_timestamp, hlc_max. by destruct (hlc_ltb t y). Qed.

Lemma fold_max_some l t :
  ∃ u, fold_left update_max_timestamp l (Some t) = Some u
    ∧ (u = t ∨ u ∈ l) ∧ hlc_le t u ∧ ∀ x, x ∈ l → hlc_le x u.
Proof.
  revert t. induction l as [|y l IH]; intros t; cbn [fold_left].
  { exists t. split_and!; auto with verdictan. intros x Hx. by apply elem_of_nil in Hx. }
  rewrite update_max_some. destruct (IH (hlc_max t y)) as (u & -> & Hin & Hle & Hall).
  exists u. split_and!; [done| | |].
  - destruct (hlc_max_cases t y) as [[_ E]|[_ E]]; rewrite E in *; set_solver.
  - eauto using hlc_max_ub_l, hlc_le_trans.
  - intros x [->|Hx]%elem_of_cons; eauto using hlc_max_ub_r, hlc_le_trans.
Qed.

Lemma fold_max_none l :
  fold_left update_max_timestamp l None = None ↔ l = [].
Proof.
  destruct l as [|t l]; [done|]. cbn [fold_left]. unfold update_max_timestamp at 2.
  destruct (fold_max_some l t) as (u & -> & _). done.
Qed.

Lemma fold_max_spec l u :
  fold_left update_max_timestamp l None = Some u ↔
  u ∈ l ∧ ∀ x, x ∈ l → hlc_le x u.
Proof.
  destruct l as [|t l].
  { split; [done|]. intros [Hu _]. by apply elem_of_nil in Hu. }
  cbn [fold_left]. unfold update_max_timestamp at 2.
  destruct (fold_max_some l t) as (u' & -> & Hin & Hle & Hall).
  split.
  - intros [= ->]. split; [set_solver|]. intros x [->|Hx]%elem_of_cons; auto.
  - intros [Hu Hub]. f_equal. apply (anti_symm hlc_le).
    + destruct Hin as [->|Hin]; apply Hub; set_solver.
    + apply elem_of_cons in Hu as [->|Hu]; auto.
Qed.

(** Every timestamp of a state: add tags, tombstones (the removed tag and the
    removal) and register timestamps. *)
Definition state_has (s : ContextCrdtState) (t : HlcTimestamp) : Prop :=
  (∃ e, t ∈ default ∅ (adds (membership s) !! e))
  ∨ (∃ e g r, default ∅ (tombstones (membership s) !! e) !! g = Some r ∧ (t = g ∨ t = r))
  ∨ (∃ e f r, default ∅ (fields s !! e) !! f = Some r ∧ t = timestamp r).

Lemma elem_of_removal_timestamps tb t :
  t ∈ removal_timestamps tb ↔ ∃ g r, tb !! g = Some r ∧ (t = g ∨ t = r).
Proof.
  unfold removal_timestamps. rewrite list_elem_of_In, in_flat_map.
  setoid_rewrite <- list_elem_of_In. split.
  - intros ([g r] & Hin & Ht). apply elem_of_btree_iter in Hin. simpl in Ht. set_solver.
  - intros (g & r & Hgr & Ht). exists (g, r). rewrite elem_of_btree_iter. set_solver.
Qed.

Lemma elem_of_register_timestamps fs t :
  t ∈ register_timestamps fs ↔ ∃ f r, fs !! f = Some r ∧ t = timestamp r.
Proof.
  unfold register_timestamps. rewrite list_elem_of_In, in_map_iff.
  setoid_rewrite <- list_elem_of_In. split.
  - intros ([f r] & <- & Hin). apply elem_of_btree_iter in Hin. eauto.
  - intros (f & r & Hfr & ->). exists (f, r). by rewrite elem_of_btree_iter.
Qed.

Lemma elem_of_flat_iter {A} (m : gmap string A) (g : A → list HlcTimestamp) t :
  t ∈ flat_map (λ p, g p.2) (btree_iter m) ↔ ∃ k a, m !! k = Some a ∧ t ∈ g a.
Proof.
  rewrite list_elem_of_In, in_flat_map. setoid_rewrite <- list_elem_of_In. split.
  - intros ([k a] & Hin & Ht). apply elem_of_btree_iter in Hin. eauto.
  - intros (k & a & Hk & Ht). exists (k, a). by rewrite elem_of_btree_iter.
Qed.

Lemma max_timestamp_bound s t u :
  max_timestamp s = Some u → state_has s t → hlc_le t u.
Proof.
  unfold max_timestamp. rewrite fold_max_spec. intros [_ Hub] Hhas. apply Hub.
  rewrite !elem_of_app, !elem_of_flat_iter.
  destruct Hhas as [(e & He)|[(e & g & r & Hgr & Ht)|(e & f & r & Hfr & Ht)]].
  - left. destruct (adds _ !! e) as [tags|] eqn:E; [|set_solver].
    exists e, tags. by rewrite elem_of_btree_set_iter.
  - right; left. destruct (tombstones _ !! e) as [tb|] eqn:E; [|done].
    exists e, tb. rewrite elem_of_removal_timestamps. eauto.
  - right; right. destruct (fields s !! e) as [fs|] eqn:E; [|done].
    exists e, fs. rewrite elem_of_register_timestamps. eauto.
Qed.

Lemma max_timestamp_none s t : max_timestamp s = None → ¬ state_has s t.
Proof.
  intros Hn Hhas. unfold max_timestamp in Hn. apply fold_max_none in Hn.
  apply app_eq_nil in Hn as [H1 [H2 H3]%app_eq_nil].
  destruct Hhas as [(e & He)|[(e & g & r & Hgr & Ht)|(e & f & r & Hfr & Ht)]].
  - destruct (adds _ !! e) as [tags|] eqn:E; [|set_solver].
    apply (not_elem_of_nil t). rewrite <- H1, elem_of_flat_iter.
    exists e, tags. by rewrite elem_of_btree_set_iter.
  - destruct (tombstones _ !! e) as [tb|] eqn:E; [|done].
    apply (not_elem_of_nil t). rewrite <- H2, elem_of_flat_iter.
    exists e, tb. rewrite elem_of_removal_timestamps. eauto.
  - destruct (fields s !! e) as [fs|] eqn:E; [|done].
    apply (not_elem_of_nil t). rewrite <- H3, elem_of_flat_iter.
    exists e, fs. rewrite elem_of_register_timestamps. eauto.
Qed.

(** ** Reads depend only on the observable state *)

Lemma latest_visible_default s id :
  latest_visible_timestamp s id =
  fold_left update_max_timestamp
    (visible_tags (membership s) id ++ register_timestamps (default ∅ (fields s !! id))) None.
Proof. unfold latest_visible_timestamp. by destruct (fields s !! id). Qed.

Lemma entry_view_default s id :
  entry_view s id =
  if is_visible (membership s) id then
    mkView id (reg_value <$> default ∅ (fields s !! id)) <$> latest_visible_timestamp s id
  else None.
Proof.
  unfold entry_view. destruct (is_visible _ _); simpl; [|done].
  destruct (fields s !! id); simpl; rewrite ?fmap_empty;
    by destruct (latest_visible_timestamp s id).
Qed.

Lemma latest_visible_some s id :
  is_visible (membership s) id = true → is_Some (latest_visible_timestamp s id).
Proof.
  rewrite latest_visible_default. unfold is_visible.
  destruct (visible_tags _ _) as [|t l]; [done|]. intros _.
  destruct (fold_left _ _ _) eqn:E; [done|]. by apply fold_max_none in E.
Qed.

Lemma entry_view_visible s id :
  is_Some (entry_view s id) ↔ is_visible (membership s) id = true.
Proof.
  rewrite entry_view_default. pose proof (latest_visible_some s id) as Hl.
  destruct (is_visible _ _); [|split; [by intros [? ?]|done]].
  split; [done|]. intros _. rewrite fmap_is_Some. auto.
Qed.

#[export] Instance entry_view_proper : Proper ((≡) ==> (=) ==> (=)) entry_view.
Proof.
  intros s o [Hm Hf] id _ <-.
  rewrite !entry_view_default, !latest_visible_default, Hf.
  by rewrite (is_visible_proper _ _ Hm id id eq_refl),
    (visible_tags_proper _ _ Hm id id eq_refl).
Qed.
End state.

(** ** Theorems *)

(** [ContextCrdtState::merged] is a join-semilattice operation on the whole
    replicated state (membership, tombstones and registers): commutative,
    associative and idempotent.  In particular skipping the write of a register
    whose timestamp and printed value do not change loses nothing. *)
Theorem merged_semilattice `{SerdeJson} : JoinSemilattice merged.
Proof.
  split.
  - intros s o. rewrite !merged_join. apply (comm state_join).
  - intros s o u. rewrite !merged_join. apply (assoc state_join).
  - intros s. rewrite merged_join. apply (idemp state_join).
Qed.

(** C1. Strong eventual convergence: two replicas that start from the same
    state and have merged the same set of remote states, in any order and with
    any repetition, are in the same state. *)
Theorem replicas_converge `{SerdeJson} (s : ContextCrdtState) l1 l2 :
  (∀ x, x ∈ l1 ↔ x ∈ l2) → fold_left merged l1 s = fold_left merged l2 s.
Proof.
  intros Heq.
  assert (Hj : ∀ l a, fold_left merged l a = fold_left state_join l a).
  { induction l as [|y l IH]; intros a; simpl; [done|]. by rewrite merged_join, IH. }
  rewrite !Hj. by apply join_fold_set; [apply _|].
Qed.

Section witnesses.
Import JsonModel.

Definition reg_state (e f : string) (z : Z) (t : HlcTimestamp) : ContextCrdtState :=
  {| membership := (add OrSet_default e t).1;
     fields := {[e := {[f := mkReg (Num z : Value Number) t]}]} |}.

Definition sa : ContextCrdtState := reg_state "e" "f" 1 (ts 1 "a").
Definition sb : ContextCrdtState := reg_state "e" "f" 2 (ts 1 "b").

(** Two writes with the same wall time and counter; the larger node id wins
    on both sides. *)
Lemma replicas_converge_witness :
  view_fields <$> entry_view (fold_left merged [sa; sb; sa] ContextCrdtState_default) "e"
    = Some {["f" := (Num 2%Z : Value Number)]}
  ∧ fold_left merged [sa; sb; sa] ContextCrdtState_default
    = fold_left merged [sb; sa] ContextCrdtState_default.
Proof.
  split; [vm_compute; reflexivity|].
  apply (replicas_converge ContextCrdtState_default [sa; sb; sa] [sb; sa]).
  intros x. set_solver.
Defined.
End witnesses.

(** The merge summary tells the truth: [state_changed] is false exactly when
    the merge left every tag, tombstone and register of every entry as it was. *)
Theorem state_changed_exact `{SerdeJson} (s o : ContextCrdtState) :
  state_changed (state_merge_in s o).2 = false ↔ merged s o ≡ s.
Proof. apply state_unchanged. Qed.

#[export] Instance recent_le_total `{SerdeJson} : Total recent_le.
Proof.
  intros a b. unfold recent_le.
  destruct (hlc_total (last_updated a) (last_updated b)) as [|[E|]]; [by auto| |by auto].
  rewrite E. destruct (total String.le (entry_id a) (entry_id b)); auto.
Qed.

#[export] Instance recent_le_trans `{SerdeJson} : Transitive recent_le.
Proof.
  intros a b c. unfold recent_le. intros [H1|[H1 H1']] [H2|[H2 H2']].
  - eauto with verdictan.
  - rewrite <- H2. auto.
  - rewrite H1. auto.
  - right. split; [congruence|]. by etrans.
Qed.

(** [local_recent] returns at most [limit] views, exactly the visible
    entries that match the scope when there are no more than that, newest
    first (ties by entry id), and never omits an entry that precedes a returned
    one. *)
Theorem local_recent_newest `{SerdeJson} (s : ContextCrdtState) sc limit :
  let out := local_recent s sc limit in
  length out = limit `min` length (scoped_views s sc)
  ∧ StronglySorted recent_le out
  ∧ ∃ omitted, out ++ omitted ≡ₚ scoped_views s sc
      ∧ ∀ v w, v ∈ out → w ∈ omitted → recent_le v w.
Proof.
  unfold local_recent.
  set (l := merge_sort recent_le (scoped_views s sc)).
  assert (Hp : l ≡ₚ scoped_views s sc) by apply merge_sort_Permutation.
  assert (Hs : StronglySorted recent_le (take limit l ++ drop limit l)).
  { rewrite take_drop. apply (StronglySorted_merge_sort recent_le). }
  assert (Ho : (if decide (limit = 0) then [] else take limit l) = take limit l)
    by (case_decide; [by subst|done]).
  rewrite Ho. apply StronglySorted_app in Hs as (Hcross & Hs1 & _). simpl. split_and!.
  - by rewrite length_take, (Permutation_length Hp).
  - done.
  - exists (drop limit l). by rewrite take_drop.
Qed.
