(* ===== verification/ContextCompact.v ===== *)
(** * ContextCompact: garbage collection of the context state (src/src/gateway/crdt.rs)

    [ContextCrdtState::compact] drops tombstones and add tags older than a
    cutoff and forgets entries that have been hidden for as long.  The file
    proves that no read can tell: every entry view is the same afterwards. *)

From Stdlib Require Import ZArith String.
From stdpp Require Import base gmap sets list strings sorting.
From S2P Require Import Prelude Text Hlc OrSet Lww ContextState.

Section compact.
Context `{SerdeJson}.

Record CompactionSummary := mkCompaction {
  removed_tombstones : nat;
  pruned_add_tags : nat;
  removed_hidden_entries : nat;
  removed_field_registers : nat;
}.

(** [cutoff_timestamp_ms]: [i64::try_from(max_age.as_millis())] saturates. *)
Definition cutoff_timestamp_ms (now_ms max_age_ms : Z) : Z :=
  sat_sub_i64 now_ms (if (max_age_ms <=? i64_max)%Z then max_age_ms else i64_max).

(** [all_entry_ids]. *)
Definition all_entry_ids (s : ContextCrdtState) : gset string :=
  dom (adds (membership s)) ∪ dom (tombstones (membership s)) ∪ dom (fields s).

(** [if adds.remove(&tag) { pruned += 1 }]. *)
Definition remove_tag (acc : gset HlcTimestamp * nat) (tag : HlcTimestamp) :
    gset HlcTimestamp * nat :=
  let '(a, n) := acc in
  if decide (tag ∈ a) then (a ∖ {[tag]}, S n) else (a, n).

(** Body of [for tag in stale_tags]: drop the tombstone and its add tag. *)
Definition drop_stale
    (acc : (gmap HlcTimestamp HlcTimestamp * nat) * (option (gset HlcTimestamp) * nat))
    (tag : HlcTimestamp) :
    (gmap HlcTimestamp HlcTimestamp * nat) * (option (gset HlcTimestamp) * nat) :=
  let '((tb, dropped), (oa, pruned)) := acc in
  ((delete tag tb, match tb !! tag with Some _ => S dropped | None => dropped end),
   match oa with
   | Some a => let '(a', pruned') := remove_tag (a, pruned) tag in (Some a', pruned')
   | None => (None, pruned)
   end).

Definition stale_tags (cutoff : Z) (tb : gmap HlcTimestamp HlcTimestamp) :
    list HlcTimestamp :=
  (filter (λ p, (wall_time_ms p.2 < cutoff)%Z) (btree_iter tb)).*1.

(** [visible_tags.iter().max().cloned()]. *)
Definition newest (tags : list HlcTimestamp) : option HlcTimestamp :=
  fold_left (λ o t, Some (match o with Some u => if hlc_ltb t u then u else t | None => t end))
    tags None.

Definition removable_tags (cutoff : Z) (keep : HlcTimestamp) (a : gset HlcTimestamp) :
    list HlcTimestamp :=
  filter (λ t, t ≠ keep ∧ (wall_time_ms t < cutoff)%Z) (btree_set_iter a).

(** Write back an entry that was reached through [get_mut]. *)
Definition set_entry {A} (m : gmap string A) (id : string) (o : option A) : gmap string A :=
  partial_alter (λ _, o) id m.

(** First step of the loop body: stale tombstones, then empty tombstone maps. *)
Definition compact_tombstones (cutoff : Z) (id : string) (m : OrSet) (sm : CompactionSummary) :
    OrSet * CompactionSummary :=
  match tombstones m !! id with
  | None => (m, sm)
  | Some tb =>
      let '((tb', dropped), (oa', pruned)) :=
        fold_left drop_stale (stale_tags cutoff tb)
          ((tb, removed_tombstones sm), (adds m !! id, pruned_add_tags sm)) in
      ({| adds := set_entry (adds m) id oa';
          tombstones := set_entry (tombstones m) id
            (if decide (tb' = ∅) then None else Some tb') |},
       {| removed_tombstones := dropped; pruned_add_tags := pruned;
          removed_hidden_entries := removed_hidden_entries sm;
          removed_field_registers := removed_field_registers sm |})
  end.

(** Second step: of an entry with a visible tag, prune old add tags except
    the newest visible one. *)
Definition compact_adds (cutoff : Z) (id : string) (m : OrSet) (sm : CompactionSummary) :
    OrSet * CompactionSummary :=
  match newest (visible_tags m id), adds m !! id with
  | Some keep, Some a =>
      let '(a', pruned) :=
        fold_left remove_tag (removable_tags cutoff keep a) (a, pruned_add_tags sm) in
      ({| adds := <[id := a']> (adds m); tombstones := tombstones m |},
       {| removed_tombstones := removed_tombstones sm; pruned_add_tags := pruned;
          removed_hidden_entries := removed_hidden_entries sm;
          removed_field_registers := removed_field_registers sm |})
  | _, _ => (m, sm)
  end.

(** Third step: forget an entry that is hidden and whose last activity is
    older than the cutoff. *)
Definition compact_hidden (cutoff : Z) (id : string) (s : ContextCrdtState)
    (sm : CompactionSummary) : ContextCrdtState * CompactionSummary :=
  let old := match latest_any_timestamp s id with
             | Some t => (wall_time_ms t <? cutoff)%Z
             | None => false
             end in
  match visible_tags (membership s) id with
  | [] =>
      if old then
        ({| membership :=
              {| adds := delete id (adds (membership s));
                 tombstones := delete id (tombstones (membership s)) |};
            fields := delete id (fields s) |},
         {| removed_tombstones := removed_tombstones sm
              + match tombstones (membership s) !! id with Some tb => size tb | None => 0 end;
            pruned_add_tags := pruned_add_tags sm
              + match adds (membership s) !! id with Some a => size a | None => 0 end;
            removed_hidden_entries := S (removed_hidden_entries sm);
            removed_field_registers := removed_field_registers sm
              + match fields s !! id with Some fs => size fs | None => 0 end |})
      else (s, sm)
  | _ :: _ => (s, sm)
  end.

(** The body of the loop over entry ids. *)
Definition compact_entry (cutoff : Z) (acc : ContextCrdtState * CompactionSummary)
    (id : string) : ContextCrdtState * CompactionSummary :=
  let '(s, sm) := acc in
  let '(m1, sm1) := compact_tombstones cutoff id (membership s) sm in
  let '(m2, sm2) := compact_adds cutoff id m1 sm1 in
  compact_hidden cutoff id {| membership := m2; fields := fields s |} sm2.

(** [ContextCrdtState::compact]. *)
Definition compact (s : ContextCrdtState) (now_ms max_age_ms : Z) :
    ContextCrdtState * CompactionSummary :=
  fold_left (compact_entry (cutoff_timestamp_ms now_ms max_age_ms))
    (btree_set_iter (all_entry_ids s))
    (s, {| removed_tombstones := 0; pruned_add_tags := 0;
           removed_hidden_entries := 0; removed_field_registers := 0 |}).

(** ** The loops in set terms *)

Lemma remove_tags_value l a n :
  (fold_left remove_tag l (a, n)).1 = a ∖ list_to_set l.
Proof.
  revert a n. induction l as [|t l IH]; intros a n; simpl; [set_solver|].
  case_decide; rewrite IH; set_solver.
Qed.

Lemma drop_stale_value l tb n oa p :
  let r := fold_left drop_stale l ((tb, n), (oa, p)) in
  (∀ t, r.1.1 !! t = if decide (t ∈ l) then None else tb !! t)
  ∧ r.2.1 = (λ a, a ∖ list_to_set l) <$> oa.
Proof.
  revert tb n oa p. induction l as [|t l IH]; intros tb n oa p; cbn [fold_left].
  { simpl. split; [done|]. destruct oa; simpl; [f_equal; set_solver|done]. }
  unfold drop_stale at 2 4. destruct oa as [a|].
  - pose proof (remove_tags_value [t] a p) as Hr. cbn [fold_left] in Hr.
    destruct (remove_tag (a, p) t) as [a' p'].
    destruct (IH (delete t tb) (match tb !! t with Some _ => S n | None => n end)
      (Some a') p') as [H1 H2].
    split.
    + intros t'. rewrite H1. simpl in Hr.
      destruct (decide (t' ∈ l)).
      * by rewrite decide_True by set_solver.
      * rewrite lookup_delete. repeat case_decide; set_solver.
    + rewrite H2. simpl in Hr |- *. f_equal. set_solver.
  - destruct (IH (delete t tb) (match tb !! t with Some _ => S n | None => n end)
      None p) as [H1 H2].
    split; [|by rewrite H2].
    intros t'. rewrite H1. destruct (decide (t' ∈ l)).
    * by rewrite decide_True by set_solver.
    * rewrite lookup_delete. repeat case_decide; set_solver.
Qed.

Lemma elem_of_stale_tags cutoff tb t :
  t ∈ stale_tags cutoff tb ↔ ∃ r, tb !! t = Some r ∧ (wall_time_ms r < cutoff)%Z.
Proof.
  unfold stale_tags. rewrite list_elem_of_fmap.
  setoid_rewrite list_elem_of_filter. split.
  - intros ([t' r] & -> & Hw & Hin%elem_of_btree_iter). eauto.
  - intros (r & Hr & Hw). exists (t, r). by rewrite elem_of_btree_iter.
Qed.

Lemma newest_some l t :
  ∃ u, fold_left (λ o t, Some (match o with
         | Some u => if hlc_ltb t u then u else t | None => t end)) l (Some t) = Some u
    ∧ (u = t ∨ u ∈ l) ∧ hlc_le t u ∧ ∀ x, x ∈ l → hlc_le x u.
Proof.
  revert t. induction l as [|y l IH]; intros t; cbn [fold_left].
  { exists t. split_and!; auto with verdictan. intros x Hx. by apply elem_of_nil in Hx. }
  assert (E : (if hlc_ltb y t then t else y) = hlc_max y t) by done. rewrite E.
  destruct (IH (hlc_max y t)) as (u & -> & Hin & Hle & Hall).
  exists u. split_and!; [done| | |].
  - destruct (hlc_max_cases y t) as [[_ E']|[_ E']]; rewrite E' in *; set_solver.
  - eauto using hlc_max_ub_r, hlc_le_trans.
  - intros x [->|Hx]%elem_of_cons; eauto using hlc_max_ub_l, hlc_le_trans.
Qed.

Lemma newest_spec l u :
  newest l = Some u → u ∈ l ∧ ∀ x, x ∈ l → hlc_le x u.
Proof.
  unfold newest. destruct l as [|t l]; [done|]. cbn [fold_left].
  destruct (newest_some l t) as (u' & -> & Hin & Hle & Hall). intros [= ->].
  split; [set_solver|]. intros x [->|Hx]%elem_of_cons; auto.
Qed.

(** ** Reads are preserved *)

(** A step keeps the views when the visible tags of each entry shrink to a
    subset that still contains their maximum, and the registers of visible
    entries stay. *)
Definition keeps_views (s s' : ContextCrdtState) : Prop := ∀ id,
  (∀ t, t ∈ visible_tags (membership s') id → t ∈ visible_tags (membership s) id)
  ∧ (∀ t, t ∈ visible_tags (membership s) id →
       ∃ u, u ∈ visible_tags (membership s') id ∧ hlc_le t u)
  ∧ (is_visible (membership s) id = true →
       default ∅ (fields s' !! id) = default ∅ (fields s !! id)).

Lemma keeps_views_refl s : keeps_views s s.
Proof. intros id. split_and!; eauto with verdictan. Qed.

Lemma keeps_views_visible s s' id :
  keeps_views s s' → is_visible (membership s') id = is_visible (membership s) id.
Proof.
  intros Hk. destruct (Hk id) as (Hsub & Hcof & _). unfold is_visible.
  destruct (visible_tags (membership s) id) as [|t l],
    (visible_tags (membership s') id) as [|t' l']; try done.
  - specialize (Hsub t' ltac:(by left)). by apply elem_of_nil in Hsub.
  - destruct (Hcof t ltac:(by left)) as (u & Hu & _). by apply elem_of_nil in Hu.
Qed.

Lemma keeps_views_trans s1 s2 s3 :
  keeps_views s1 s2 → keeps_views s2 s3 → keeps_views s1 s3.
Proof.
  intros H12 H23 id. pose proof (keeps_views_visible s1 s2 id H12) as Hvis.
  destruct (H12 id) as (A1 & A2 & A3), (H23 id) as (B1 & B2 & B3).
  split_and!; [by auto| |].
  - intros t Ht. destruct (A2 t Ht) as (u & Hu & Htu), (B2 u Hu) as (v & Hv & Huv).
    exists v. split; [done|]. by etrans.
  - intros Hv. rewrite B3 by congruence. auto.
Qed.

Lemma keeps_views_entry_view s s' id :
  keeps_views s s' → entry_view s' id = entry_view s id.
Proof.
  intros Hk. rewrite !entry_view_default, (keeps_views_visible s s' id Hk).
  destruct (is_visible (membership s) id) eqn:Hv; [|done].
  destruct (latest_visible_some s id Hv) as [u Hu].
  destruct (Hk id) as (Hsub & Hcof & Hf). rewrite (Hf Hv), Hu.
  f_equal. revert Hu. rewrite !latest_visible_default, (Hf Hv).
  rewrite !fold_max_spec. setoid_rewrite elem_of_app. intros [Hin Hub].
  assert (Hup : ∀ t, t ∈ visible_tags (membership s') id → hlc_le t u) by auto.
  split; [|intros x [Hx|Hx]; auto].
  destruct Hin as [Hin|Hin]; [|by right]. left.
  destruct (Hcof u Hin) as (v & Hvv & Huv).
  by rewrite (anti_symm hlc_le u v Huv (Hup v Hvv)).
Qed.

(** Updating one entry's tags only. *)
Lemma keeps_views_membership s m' id :
  (∀ id', id' ≠ id → visible_tags m' id' = visible_tags (membership s) id') →
  (∀ t, t ∈ visible_tags m' id → t ∈ visible_tags (membership s) id) →
  (∀ t, t ∈ visible_tags (membership s) id → ∃ u, u ∈ visible_tags m' id ∧ hlc_le t u) →
  keeps_views s {| membership := m'; fields := fields s |}.
Proof.
  intros Hne H1 H2 id'. destruct (decide (id' = id)) as [->|Hid]; simpl.
  - by split_and!.
  - rewrite (Hne id' Hid). split_and!; eauto with verdictan.
Qed.

Lemma visible_tags_ext (m m' : OrSet) id :
  adds m !! id = adds m' !! id → tombstones m !! id = tombstones m' !! id →
  visible_tags m id = visible_tags m' id.
Proof. unfold visible_tags. by intros -> ->. Qed.

Lemma compact_tombstones_views cutoff id s sm :
  keeps_views s {| membership := (compact_tombstones cutoff id (membership s) sm).1;
                   fields := fields s |}.
Proof.
  unfold compact_tombstones. destruct (tombstones (membership s) !! id) as [tb|] eqn:Htb.
  2: { destruct s. apply keeps_views_refl. }
  pose proof (drop_stale_value (stale_tags cutoff tb) tb (removed_tombstones sm)
    (adds (membership s) !! id) (pruned_add_tags sm)) as Hd.
  destruct (fold_left drop_stale _ _) as [[tb' d] [oa' p]]. simpl in Hd |- *.
  destruct Hd as [Htb' Hoa'].
  assert (Hvis : ∀ t, t ∈ visible_tags {| adds := set_entry (adds (membership s)) id oa';
      tombstones := set_entry (tombstones (membership s)) id
        (if decide (tb' = ∅) then None else Some tb') |} id
      ↔ t ∈ visible_tags (membership s) id).
  { intros t. rewrite !elem_of_visible_tags. unfold set_entry. simpl.
    rewrite !lookup_partial_alter_eq, Htb. simpl.
    replace (default ∅ (if decide (tb' = ∅) then None else Some tb')) with tb'
      by (by case_decide).
    rewrite Htb', Hoa'. pose proof (elem_of_stale_tags cutoff tb t) as Hst.
    destruct (adds (membership s) !! id) as [a|]; simpl; [|set_solver].
    rewrite elem_of_difference, elem_of_list_to_set.
    destruct (decide (t ∈ stale_tags cutoff tb)) as [Hs|Hs]; [|tauto].
    pose proof Hs as (r & Hr & _)%Hst. rewrite Hr.
    split; [by intros [[_ Hn] _]|by intros [_ Hn]]. }
  apply (keeps_views_membership _ _ id).
  - intros id' Hne. apply visible_tags_ext; simpl; unfold set_entry;
      by rewrite lookup_partial_alter_ne by done.
  - intros t. apply Hvis.
  - intros t Ht. exists t. rewrite Hvis. auto with verdictan.
Qed.

Lemma compact_adds_views cutoff id s sm :
  keeps_views s {| membership := (compact_adds cutoff id (membership s) sm).1;
                   fields := fields s |}.
Proof.
  unfold compact_adds.
  destruct (newest _) as [keep|] eqn:Hn; [|destruct s; apply keeps_views_refl].
  destruct (adds _ !! id) as [a|] eqn:Ha; [|destruct s; apply keeps_views_refl].
  apply newest_spec in Hn as [Hkeep Hmax].
  pose proof (remove_tags_value (removable_tags cutoff keep a) a (pruned_add_tags sm)) as Hr.
  destruct (fold_left remove_tag _ _) as [a' p]. simpl in Hr |- *.
  assert (Hvis : ∀ t, t ∈ visible_tags {| adds := <[id:=a']> (adds (membership s));
      tombstones := tombstones (membership s) |} id
      ↔ t ∈ visible_tags (membership s) id ∧ t ∉ removable_tags cutoff keep a).
  { intros t. rewrite !elem_of_visible_tags. simpl. rewrite lookup_insert_eq, Ha. simpl.
    rewrite Hr, elem_of_difference, elem_of_list_to_set. tauto. }
  assert (Hk : keep ∉ removable_tags cutoff keep a).
  { unfold removable_tags. rewrite list_elem_of_filter. naive_solver. }
  apply (keeps_views_membership _ _ id).
  - intros id' Hne. apply visible_tags_ext; simpl; [|done].
    by rewrite lookup_insert_ne by done.
  - intros t Ht. by apply Hvis in Ht as [? _].
  - intros t Ht. exists keep. rewrite Hvis. auto.
Qed.

Lemma compact_hidden_views cutoff id s sm :
  keeps_views s (compact_hidden cutoff id s sm).1.
Proof.
  unfold compact_hidden.
  destruct (visible_tags (membership s) id) as [|t l] eqn:Hv; [|apply keeps_views_refl].
  destruct (match latest_any_timestamp s id with Some t => _ | None => _ end);
    [|apply keeps_views_refl].
  intros id'. destruct (decide (id' = id)) as [->|Hne]; simpl.
  - replace (visible_tags (mkOrSet (delete id (adds (membership s))) _) id)
      with (@nil HlcTimestamp)
      by (unfold visible_tags; simpl; by rewrite lookup_delete_eq).
    rewrite Hv. split_and!; [intros t Ht; by apply elem_of_nil in Ht..|].
    unfold is_visible. by rewrite Hv.
  - rewrite (visible_tags_ext _ (membership s) id')
      by (simpl; by rewrite lookup_delete_ne by done).
    rewrite lookup_delete_ne by done. split_and!; eauto with verdictan.
Qed.

Lemma compact_entry_views cutoff s sm id :
  keeps_views s (compact_entry cutoff (s, sm) id).1.
Proof.
  unfold compact_entry.
  pose proof (compact_tombstones_views cutoff id s sm) as H1.
  destruct (compact_tombstones _ _ _ _) as [m1 sm1]. simpl in H1.
  pose proof (compact_adds_views cutoff id {| membership := m1; fields := fields s |} sm1) as H2.
  simpl in H2. destruct (compact_adds _ _ _ _) as [m2 sm2]. simpl in H2.
  eapply keeps_views_trans; [exact H1|].
  eapply keeps_views_trans; [exact H2|]. apply compact_hidden_views.
Qed.

Lemma compact_loop_views cutoff l s sm :
  keeps_views s (fold_left (compact_entry cutoff) l (s, sm)).1.
Proof.
  revert s sm. induction l as [|id l IH]; intros s sm; cbn [fold_left].
  { apply keeps_views_refl. }
  pose proof (compact_entry_views cutoff s sm id) as H1.
  destruct (compact_entry cutoff (s, sm) id) as [s' sm'].
  eapply keeps_views_trans; [exact H1|apply IH].
Qed.

Lemma compact_keeps_views s now age : keeps_views s (compact s now age).1.
Proof. apply compact_loop_views. Qed.

(** ** Old tombstones are gone *)

Definition tomb_of (s : ContextCrdtState) (id : string) : gmap HlcTimestamp HlcTimestamp :=
  default ∅ (tombstones (membership s) !! id).

Definition fresh_at (cutoff : Z) (s : ContextCrdtState) (id : string) : Prop :=
  ∀ t r, tomb_of s id !! t = Some r → (cutoff ≤ wall_time_ms r)%Z.

Lemma compact_tombstones_shrinks cutoff id s sm id' t r :
  default ∅ (tombstones (compact_tombstones cutoff id (membership s) sm).1 !! id') !! t
    = Some r →
  tomb_of s id' !! t = Some r ∧ (id' = id → (cutoff ≤ wall_time_ms r)%Z).
Proof.
  unfold compact_tombstones, tomb_of.
  destruct (tombstones (membership s) !! id) as [tb|] eqn:Htb.
  2: { simpl. intros Hr. split; [done|]. intros ->. by rewrite Htb in Hr. }
  destruct (drop_stale_value (stale_tags cutoff tb) tb (removed_tombstones sm)
    (adds (membership s) !! id) (pruned_add_tags sm)) as [Htb' _].
  destruct (fold_left drop_stale _ _) as [[tb' d] [oa' p]]. simpl in Htb' |- *.
  unfold set_entry. destruct (decide (id' = id)) as [->|Hne].
  - rewrite lookup_partial_alter_eq, Htb.
    replace (default ∅ (if decide (tb' = ∅) then None else Some tb')) with tb'
      by (by case_decide).
    rewrite Htb'. case_decide as Hst; [done|]. intros Hr. split; [done|]. intros _.
    apply Z.nlt_ge. intros Hlt. apply Hst, elem_of_stale_tags. eauto.
  - rewrite lookup_partial_alter_ne by done. naive_solver.
Qed.

Lemma compact_adds_tombstones cutoff id m sm :
  tombstones (compact_adds cutoff id m sm).1 = tombstones m.
Proof.
  unfold compact_adds. destruct (newest _), (adds m !! id); try done.
  by destruct (fold_left _ _ _).
Qed.

Lemma compact_hidden_shrinks cutoff id s sm id' t r :
  tomb_of (compact_hidden cutoff id s sm).1 id' !! t = Some r → tomb_of s id' !! t = Some r.
Proof.
  unfold compact_hidden, tomb_of.
  destruct (visible_tags (membership s) id); [|done].
  destruct (match latest_any_timestamp s id with Some t => _ | None => _ end); [|done].
  simpl. rewrite lookup_delete. by case_decide.
Qed.

Lemma compact_entry_shrinks cutoff s sm id id' t r :
  tomb_of (compact_entry cutoff (s, sm) id).1 id' !! t = Some r →
  tomb_of s id' !! t = Some r ∧ (id' = id → (cutoff ≤ wall_time_ms r)%Z).
Proof.
  unfold compact_entry. intros Hr. apply (compact_tombstones_shrinks cutoff id s sm id' t r).
  destruct (compact_tombstones _ _ _ _) as [m1 sm1].
  pose proof (compact_adds_tombstones cutoff id m1 sm1) as Ha.
  destruct (compact_adds _ _ _ _) as [m2 sm2]. simpl in Ha |- *.
  apply compact_hidden_shrinks in Hr. unfold tomb_of in Hr. simpl in Hr. congruence.
Qed.

Lemma compact_loop_fresh cutoff l s sm :
  let s' := (fold_left (compact_entry cutoff) l (s, sm)).1 in
  (∀ id t r, tomb_of s' id !! t = Some r → tomb_of s id !! t = Some r)
  ∧ ∀ id, id ∈ l → fresh_at cutoff s' id.
Proof.
  revert s sm. induction l as [|id l IH]; intros s sm; cbn [fold_left].
  { split; [done|]. intros id Hid. by apply elem_of_nil in Hid. }
  pose proof (λ id' t r, compact_entry_shrinks cutoff s sm id id' t r) as H1.
  destruct (compact_entry cutoff (s, sm) id) as [s' sm']. simpl in H1.
  destruct (IH s' sm') as [IH1 IH2]. split.
  - intros id' t r Hr. by apply IH1, H1 in Hr as [? _].
  - intros id' [->|Hin]%elem_of_cons; [|by apply IH2].
    intros t r Hr. by apply IH1, H1 in Hr as [_ ?]; auto.
Qed.

Lemma compact_fresh s now age id :
  fresh_at (cutoff_timestamp_ms now age) (compact s now age).1 id.
Proof.
  unfold compact. destruct (compact_loop_fresh (cutoff_timestamp_ms now age)
    (btree_set_iter (all_entry_ids s)) s (mkCompaction 0 0 0 0)) as [H1 H2].
  destruct (decide (id ∈ all_entry_ids s)) as [Hin|Hin].
  { apply H2. by apply elem_of_btree_set_iter. }
  intros t r Hr%H1. unfold tomb_of in Hr. exfalso. apply Hin. unfold all_entry_ids.
  destruct (tombstones (membership s) !! id) eqn:E; [|done].
  rewrite !elem_of_union, !elem_of_dom. left; right. eauto.
Qed.
End compact.

(** ** Theorems *)

(** Compaction is invisible to readers: after [compact] every entry view
    (visibility, field values and last-updated timestamp) is the same, and so
    are the results of [local_recent], [local_search] and
    [local_schema_lookup], for every cutoff. *)
Theorem compact_preserves_reads `{SerdeJson} (s : ContextCrdtState) now_ms max_age_ms :
  let s' := (compact s now_ms max_age_ms).1 in
  (∀ id, entry_view s' id = entry_view s id)
  ∧ visible_entry_ids s' = visible_entry_ids s
  ∧ (∀ sc limit, local_recent s' sc limit = local_recent s sc limit)
  ∧ (∀ q sc limit, local_search s' q sc limit = local_search s q sc limit)
  ∧ (∀ k sc, local_schema_lookup s' k sc = local_schema_lookup s k sc).
Proof.
  intros s'. pose proof (compact_keeps_views s now_ms max_age_ms) as Hk. fold s' in Hk.
  assert (Hview : ∀ id, entry_view s' id = entry_view s id)
    by (intros id; by apply keeps_views_entry_view).
  assert (Hids : visible_entry_ids s' = visible_entry_ids s).
  { apply visible_elements_ext. intros id. by apply keeps_views_visible. }
  assert (Hsv : ∀ sc, scoped_views s' sc = scoped_views s sc).
  { intros sc. unfold scoped_views. rewrite Hids. f_equal.
    apply list_omap_ext, Forall_Forall2_diag, Forall_true. done. }
  split_and!; [done|done|..]; intros; unfold local_recent, local_search, local_schema_lookup;
    by rewrite !Hsv.
Qed.

(** Compaction does collect: afterwards no tombstone older than the cutoff
    [now - max_age] (saturating in [i64]) is left, in any entry. *)
Theorem compact_drops_old_tombstones `{SerdeJson} (s : ContextCrdtState) now_ms max_age_ms
    id tag removed_at :
  default ∅ (tombstones (membership (compact s now_ms max_age_ms).1) !! id) !! tag
    = Some removed_at →
  (cutoff_timestamp_ms now_ms max_age_ms ≤ wall_time_ms removed_at)%Z.
Proof. apply compact_fresh. Qed.

Section compact_witness.
Import JsonModel.

(** A removal at time 5, compacted with cutoff 4: the tombstone is kept. *)
Definition removed_state : ContextCrdtState :=
  {| membership := (remove (membership sa) "e" (ts 5 "a")).1; fields := fields sa |}.

Lemma compact_drops_old_tombstones_witness :
  tombstones (membership (compact removed_state 10 6).1) !! "e"
    = Some {[ts 1 "a" := ts 5 "a"]}
  ∧ (cutoff_timestamp_ms 10 6 ≤ wall_time_ms (ts 5 "a"))%Z.
Proof.
  split; [vm_compute; reflexivity|].
  apply (compact_drops_old_tombstones removed_state 10 6 "e" (ts 1 "a") (ts 5 "a")).
  vm_compute. reflexivity.
Defined.
End compact_witness.
