(* ===== verification/ContextCrdt.v ===== *)
(** * ContextCrdt: a replica of the context pool (src/src/gateway/crdt.rs)

    A replica is a clock and a state.  Local mutations stamp the state with the
    clock; merging a remote state first moves the clock past everything in it.
    The invariant is that the clock is never behind a timestamp of the state;
    from it follow read-your-writes and visible upserts. *)

From Stdlib Require Import ZArith String.
From stdpp Require Import base gmap sets list strings sorting relations.
From S2P Require Import Prelude Text Hlc OrSet Lww ContextState ContextCompact.

Section replica.
Context `{SerdeJson}.
Abbreviation value := (Value Number).

Record ContextCrdt := mkReplica {
  replica_id : string;
  clock : HlcClock;
  state : ContextCrdtState;
}.

(** [ContextCrdt::new]. *)
Definition ContextCrdt_new (id : string) : Result ContextCrdt CrdtError :=
  match HlcClock_new id with
  | Ok c => Ok {| replica_id := id; clock := c; state := ContextCrdtState_default |}
  | Err e => Err e
  end.

Inductive CrdtMutation :=
| UpsertEntry (id : string) (fs : gmap string value) (now_ms : option Z)
| SetField (id field : string) (v : value) (now_ms : option Z)
| RemoveEntry (id : string) (now_ms : option Z).

Record MutationResult := mkResult {
  changed : bool;
  result_timestamp : option HlcTimestamp;
}.

(** [ContextCrdt::tick]; [sys_ms] is what [unix_timestamp_millis] reads when
    the caller passes no time. *)
Definition replica_tick (c : HlcClock) (now_ms : option Z) (sys_ms : Z) :
    HlcClock * HlcTimestamp :=
  match now_ms with
  | Some now => tick c now
  | None => tick c sys_ms
  end.

(** [if !is_visible { changed |= add(entry_id, timestamp) }]. *)
Definition ensure_member (m : OrSet) (id : string) (t : HlcTimestamp) : OrSet * bool :=
  if negb (is_visible m id) then add m id t else (m, false).

(** The [match registers.get(&field)] of [upsert_entry] and [set_field]. *)
Definition write_register (incoming : LwwRegister) (existing : option LwwRegister)
    (ch : bool) : option LwwRegister * bool :=
  match existing with
  | Some existing =>
      let merged := lww_merge existing incoming in
      if negb (bool_decide (timestamp merged = timestamp existing))
         || negb (bool_decide (canonical_json_string (reg_value merged)
                               = canonical_json_string (reg_value existing)))
      then (Some merged, true)
      else (None, ch)
  | None => (Some incoming, true)
  end.

(** [ContextCrdt::upsert_entry]. *)
Definition upsert_entry (r : ContextCrdt) (id : string) (fs : gmap string value)
    (now_ms : option Z) (sys_ms : Z) : ContextCrdt * MutationResult :=
  let '(c, t) := replica_tick (clock r) now_ms sys_ms in
  let '(m, ch) := ensure_member (membership (state r)) id t in
  let '(regs, ch') :=
    for_upserts (λ v, write_register (mkReg v t)) (btree_iter fs)
      (default ∅ (fields (state r) !! id), ch) in
  ({| replica_id := replica_id r; clock := c;
      state := {| membership := m; fields := <[id := regs]> (fields (state r)) |} |},
   {| changed := ch'; result_timestamp := Some t |}).

(** [ContextCrdt::set_field]. *)
Definition set_field (r : ContextCrdt) (id field : string) (v : value)
    (now_ms : option Z) (sys_ms : Z) : ContextCrdt * MutationResult :=
  let '(c, t) := replica_tick (clock r) now_ms sys_ms in
  let '(m, ch) := ensure_member (membership (state r)) id t in
  let regs := default ∅ (fields (state r) !! id) in
  let '(o, ch') := write_register (mkReg v t) (regs !! field) ch in
  let regs' := match o with Some reg => <[field := reg]> regs | None => regs end in
  ({| replica_id := replica_id r; clock := c;
      state := {| membership := m; fields := <[id := regs']> (fields (state r)) |} |},
   {| changed := ch'; result_timestamp := Some t |}).

(** [ContextCrdt::remove_entry]. *)
Definition remove_entry (r : ContextCrdt) (id : string) (now_ms : option Z) (sys_ms : Z) :
    ContextCrdt * MutationResult :=
  if negb (is_visible (membership (state r)) id) then
    (r, {| changed := false; result_timestamp := None |})
  else
    let '(c, t) := replica_tick (clock r) now_ms sys_ms in
    let '(m, n) := remove (membership (state r)) id t in
    ({| replica_id := replica_id r; clock := c;
        state := {| membership := m; fields := fields (state r) |} |},
     {| changed := 0 <? n; result_timestamp := Some t |}).

(** [ContextCrdt::apply_mutation]. *)
Definition apply_mutation (r : ContextCrdt) (mu : CrdtMutation) (sys_ms : Z) :
    ContextCrdt * MutationResult :=
  match mu with
  | UpsertEntry id fs now => upsert_entry r id fs now sys_ms
  | SetField id f v now => set_field r id f v now sys_ms
  | RemoveEntry id now => remove_entry r id now sys_ms
  end.

(** [ContextCrdt::merge_state_at]. *)
Definition merge_state_at (r : ContextCrdt) (remote : ContextCrdtState) (now_ms : Z) :
    ContextCrdt * MergeSummary :=
  let c := match max_timestamp remote with
           | Some remote_max => (observe (clock r) remote_max now_ms).1
           | None => clock r
           end in
  let '(s, sm) := state_merge_in (state r) remote in
  ({| replica_id := replica_id r; clock := c; state := s |}, sm).

(** [ContextCrdt::compact_at]. *)
Definition compact_at (r : ContextCrdt) (now_ms max_age_ms : Z) :
    ContextCrdt * CompactionSummary :=
  let '(s, sm) := compact (state r) now_ms max_age_ms in
  ({| replica_id := replica_id r; clock := clock r; state := s |}, sm).

(** [ContextCrdt::get_local_entry]. *)
Definition get_local_entry (r : ContextCrdt) (id : string) : option ContextEntryView :=
  entry_view (state r) id.

(** [export_binary_state] and [merge_binary_state_at]: [bincode] is not part
    of the repository, so its encoder and decoder are arguments. *)
Definition export_binary_state {Bytes}
    (serialize : ContextCrdtState → Result Bytes string) (r : ContextCrdt) :
    Result Bytes CrdtError :=
  match serialize (state r) with Ok b => Ok b | Err e => Err (Serialize e) end.
Definition merge_binary_state_at {Bytes}
    (deserialize : Bytes → Result ContextCrdtState string)
    (r : ContextCrdt) (binary_state : Bytes) (now_ms : Z) :
    ContextCrdt * Result MergeSummary CrdtError :=
  match deserialize binary_state with
  | Ok remote => let '(r', sm) := merge_state_at r remote now_ms in (r', Ok sm)
  | Err e => (r, Err (Serialize e))
  end.

(** ** Timestamps a step can introduce *)

Lemma state_has_join s o t : state_has (state_join s o) t → state_has s t ∨ state_has o t.
Proof.
  unfold state_has.
  intros [(e & He)|[(e & g & x & Hg & Ht)|(e & f & x & Hf & ->)]].
  - change (membership (state_join s o)) with
      (orset_join (membership s) (membership o)) in He.
    rewrite join_adds_default, elem_of_union in He. naive_solver.
  - change (membership (state_join s o)) with
      (orset_join (membership s) (membership o)) in Hg.
    rewrite join_tombs_default in Hg. unfold tomb_join in Hg. rewrite lookup_map_join in Hg.
    destruct (default ∅ (tombstones (membership s) !! e) !! g) as [a|] eqn:Ea,
      (default ∅ (tombstones (membership o) !! e) !! g) as [b|] eqn:Eb; simplify_eq.
    + destruct (hlc_max_cases a b) as [[_ E]|[_ E]]; rewrite E in Ht;
        [right|left]; right; left; eauto.
    + left. right; left. eauto.
    + right. right; left. eauto.
  - rewrite join_fields_default in Hf. unfold fields_join in Hf. rewrite lookup_map_join in Hf.
    destruct (default ∅ (fields s !! e) !! f) as [a|] eqn:Ea,
      (default ∅ (fields o !! e) !! f) as [b|] eqn:Eb; simplify_eq.
    + destruct (lww_merge_cases a b) as [E|E]; rewrite E; [left|right]; right; right; eauto 10.
    + left. right; right. eauto.
    + right. right; right. eauto.
Qed.

(** What a write leaves in a register. *)
Lemma write_register_value inc ex ch :
  match (write_register inc ex ch).1 with Some a => Some a | None => ex end
  = latest_write inc ex.
Proof.
  unfold write_register, latest_write. destruct ex as [l|]; [|done].
  destruct (_ || _) eqn:E; [done|]. apply skipped_write_same in E. by rewrite E.
Qed.

(** The registers of the entry after a batch of writes stamped [t]. *)
Definition written (t : HlcTimestamp) (fs : gmap string value)
    (regs : gmap string LwwRegister) : gmap string LwwRegister :=
  join_map (λ v, latest_write (mkReg v t)) regs fs.

Lemma upsert_registers t fs regs ch :
  (for_upserts (λ v, write_register (mkReg v t)) (btree_iter fs) (regs, ch)).1
  = written t fs regs.
Proof.
  unfold written.
  by rewrite (for_upserts_map _ _ (λ v, write_register_value (mkReg v t)) _ fs)
    by apply btree_iter_perm.
Qed.

Lemma written_singleton t f v regs ch :
  match (write_register (mkReg v t) (regs !! f) ch).1 with
  | Some reg => <[f := reg]> regs
  | None => regs
  end = written t {[f := v]} regs.
Proof.
  pose proof (write_register_value (mkReg v t) (regs !! f) ch) as Hw.
  apply map_eq. intros k. unfold written. rewrite lookup_join_map.
  destruct (decide (k = f)) as [->|Hne].
  - rewrite lookup_singleton_eq, <- Hw.
    destruct (write_register _ _ _) as [[reg|] ?]; simpl; [by rewrite lookup_insert_eq|done].
  - rewrite lookup_singleton_ne by done.
    destruct (write_register _ _ _) as [[reg|] ?]; simpl; [by rewrite lookup_insert_ne|done].
Qed.

(** Both write operations in one form. *)
Definition write_state (s : ContextCrdtState) (id : string) (fs : gmap string value)
    (t : HlcTimestamp) : ContextCrdtState :=
  {| membership := (ensure_member (membership s) id t).1;
     fields := <[id := written t fs (default ∅ (fields s !! id))]> (fields s) |}.

Lemma upsert_entry_state r id fs now sys :
  let '(c, t) := replica_tick (clock r) now sys in
  (upsert_entry r id fs now sys).1 = mkReplica (replica_id r) c (write_state (state r) id fs t).
Proof.
  unfold upsert_entry, write_state. destruct (replica_tick _ _ _) as [c t].
  destruct (ensure_member _ _ _) as [m ch].
  rewrite <- (upsert_registers t fs _ ch).
  by destruct (for_upserts _ _ _).
Qed.

Lemma set_field_state r id f v now sys :
  let '(c, t) := replica_tick (clock r) now sys in
  (set_field r id f v now sys).1
  = mkReplica (replica_id r) c (write_state (state r) id {[f := v]} t).
Proof.
  unfold set_field, write_state. destruct (replica_tick _ _ _) as [c t].
  destruct (ensure_member _ _ _) as [m ch].
  rewrite <- (written_singleton t f v _ ch).
  by destruct (write_register _ _ _).
Qed.

Lemma state_has_write s id fs t u :
  state_has (write_state s id fs t) u → state_has s u ∨ u = t.
Proof.
  unfold state_has, write_state, ensure_member; simpl.
  intros [(e & He)|[(e & g & x & Hg & Hu)|(e & f & x & Hf & ->)]].
  - destruct (is_visible _ _); simpl in He; [by eauto|].
    rewrite lookup_insert in He. case_decide; [|by eauto]. subst. simpl in He.
    apply elem_of_union in He as [->%elem_of_singleton|He]; eauto.
  - left. right; left. exists e, g, x. split; [|done].
    by destruct (is_visible _ _).
  - rewrite lookup_insert in Hf. case_decide; [subst|left; right; right; by eauto].
    simpl in Hf. unfold written in Hf. rewrite lookup_join_map in Hf.
    destruct (fs !! f) as [v|]; [|left; right; right; by eauto].
    unfold latest_write in Hf. destruct (default ∅ _ !! f) as [l|] eqn:El; simplify_eq;
      [|by right].
    destruct (lww_merge_cases l (mkReg v t)) as [E|E]; rewrite E; [left|by right].
    right; right. eauto.
Qed.

Lemma state_has_remove s id t u :
  state_has {| membership := (remove (membership s) id t).1; fields := fields s |} u →
  state_has s u ∨ u = t.
Proof.
  unfold state_has; simpl. rewrite remove_adds.
  intros [(e & He)|[(e & g & x & Hg & Hu)|Hf]]; [by eauto| |by eauto].
  rewrite remove_tombstones in Hg. case_decide as Hd; [|left; right; left; by eauto].
  destruct Hd as [-> Hg']. simplify_eq. destruct Hu as [->|Hu]; [|by right].
  left. left. exists id. by apply elem_of_visible_tags in Hg' as [? _].
Qed.

(** ** The replica invariant *)

(** The clock is at or past every timestamp of the state. *)
Definition replica_ok (r : ContextCrdt) : Prop :=
  ∀ t, state_has (state r) t → hlc_le t (last (clock r)).

Lemma replica_tick_advances c now sys :
  unsaturated (last c) →
  hlc_lt (last c) (replica_tick c now sys).2
  ∧ last (replica_tick c now sys).1 = (replica_tick c now sys).2.
Proof.
  intros Hu. destruct now; simpl; split; try done; apply tick_advances; auto.
Qed.

(** A step that stamps only with the ticked clock keeps the invariant. *)
Lemma replica_ok_stamp r rid c t s :
  replica_ok r → hlc_lt (last (clock r)) t → last c = t →
  (∀ u, state_has s u → state_has (state r) u ∨ u = t) →
  replica_ok (mkReplica rid c s).
Proof.
  intros Hok Hlt Hlast Hs u Hu. simpl in *. rewrite Hlast.
  destruct (Hs u Hu) as [Ho| ->]; eauto using hlc_le_trans, hlc_lt_le with verdictan.
Qed.

Lemma apply_mutation_ok r mu sys :
  replica_ok r → unsaturated (last (clock r)) → replica_ok (apply_mutation r mu sys).1.
Proof.
  intros Hok Hu. destruct mu as [id fs now|id f v now|id now]; simpl;
    destruct (replica_tick_advances (clock r) now sys Hu) as [Hlt Hlast].
  - pose proof (upsert_entry_state r id fs now sys) as E.
    destruct (replica_tick _ _ _) as [c t]. rewrite E.
    eapply replica_ok_stamp; eauto using state_has_write.
  - pose proof (set_field_state r id f v now sys) as E.
    destruct (replica_tick _ _ _) as [c t]. rewrite E.
    eapply replica_ok_stamp; eauto using state_has_write.
  - unfold remove_entry. destruct (is_visible _ _); simpl; [|done].
    destruct (replica_tick _ _ _) as [c t].
    pose proof (state_has_remove (state r) id t) as Hr.
    destruct (remove _ _ _) as [m n]. simpl in *.
    eapply replica_ok_stamp; eauto.
Qed.

Lemma merge_state_at_state r remote now :
  (merge_state_at r remote now).1 =
  mkReplica (replica_id r)
    (match max_timestamp remote with
     | Some remote_max => (observe (clock r) remote_max now).1
     | None => clock r
     end) (merged (state r) remote).
Proof. unfold merge_state_at, merged. by destruct (state_merge_in _ _). Qed.

Lemma merge_state_at_ok r remote now :
  replica_ok r → unsaturated (last (clock r)) →
  (∀ t, max_timestamp remote = Some t → unsaturated t) →
  replica_ok (merge_state_at r remote now).1.
Proof.
  intros Hok Hu Hr t. rewrite merge_state_at_state, merged_join. cbn [state clock].
  intros Ht%state_has_join.
  destruct (max_timestamp remote) as [m|] eqn:Em.
  - destruct (observe_advances (clock r) m now Hu (Hr m eq_refl)) as [H1 H2].
    rewrite observe_last. destruct Ht as [Ht|Ht].
    + eauto using hlc_le_trans, hlc_lt_le.
    + eauto using hlc_le_trans, hlc_lt_le, max_timestamp_bound.
  - destruct Ht as [Ht|Ht]; [auto|]. by apply max_timestamp_none in Ht.
Qed.

(** Runs of a replica: local mutations and merges, while neither its counter
    nor that of a merged state is exhausted. *)
Inductive replica_step : ContextCrdt → ContextCrdt → Prop :=
| step_mutation r mu sys :
    unsaturated (last (clock r)) →
    replica_step r (apply_mutation r mu sys).1
| step_merge r remote now :
    unsaturated (last (clock r)) →
    (∀ t, max_timestamp remote = Some t → unsaturated t) →
    replica_step r (merge_state_at r remote now).1.

Lemma replica_step_ok r r' : replica_step r r' → replica_ok r → replica_ok r'.
Proof. destruct 1; eauto using apply_mutation_ok, merge_state_at_ok. Qed.

Lemma replica_run_ok r r' : rtc replica_step r r' → replica_ok r → replica_ok r'.
Proof. induction 1; eauto using replica_step_ok. Qed.

(** ** What a write is read back as *)

Lemma write_state_visible s id fs t :
  (∀ u, state_has s u → hlc_lt u t) →
  is_visible (membership (write_state s id fs t)) id = true.
Proof.
  intros Hlt. simpl. unfold ensure_member.
  destruct (is_visible (membership s) id) eqn:Hv; simpl; [done|].
  apply is_visible_spec. exists t. simpl. rewrite lookup_insert_eq. simpl.
  split; [set_solver|].
  destruct (default ∅ (tombstones (membership s) !! id) !! t) as [x|] eqn:E; [|done].
  destruct (hlc_lt_irrefl t). apply Hlt. right; left. eauto 10.
Qed.

Lemma written_newer s id fs t f v :
  (∀ u, state_has s u → hlc_lt u t) → fs !! f = Some v →
  written t fs (default ∅ (fields s !! id)) !! f = Some (mkReg v t).
Proof.
  intros Hlt Hf. unfold written, latest_write. rewrite lookup_join_map, Hf.
  destruct (default ∅ (fields s !! id) !! f) as [l|] eqn:E; [|done].
  f_equal. apply lww_merge_newer. simpl. apply Hlt. right; right. eauto.
Qed.

Lemma write_state_view s id fs t :
  (∀ u, state_has s u → hlc_lt u t) →
  ∃ v, entry_view (write_state s id fs t) id = Some v
    ∧ ∀ f x, fs !! f = Some x → view_fields v !! f = Some x.
Proof.
  intros Hlt. pose proof (write_state_visible s id fs t Hlt) as Hv.
  destruct (proj2 (entry_view_visible (write_state s id fs t) id) Hv) as [v Hview].
  exists v. split; [done|]. intros f x Hf.
  rewrite entry_view_default, Hv in Hview.
  destruct (latest_visible_timestamp _ _); simplify_eq/=.
  rewrite lookup_insert_eq. simpl. rewrite lookup_fmap.
  by rewrite (written_newer s id fs t f x Hlt Hf).
Qed.

Lemma stamp_fresh r now sys :
  replica_ok r → unsaturated (last (clock r)) →
  ∀ u, state_has (state r) u → hlc_lt u (replica_tick (clock r) now sys).2.
Proof.
  intros Hok Hu u Hs. destruct (replica_tick_advances (clock r) now sys Hu) as [Hlt _].
  eapply hlc_le_lt_trans; eauto.
Qed.
End replica.

(** ** Theorems *)

(** Along every run of a replica from its creation (any interleaving of
    local mutations and merges of remote states, with any wall-clock readings)
    the clock is at or past every timestamp of the state. *)
Theorem replica_clock_dominates `{SerdeJson} id r0 r :
  ContextCrdt_new id = Ok r0 → rtc replica_step r0 r →
  ∀ t, state_has (state r) t → hlc_le t (last (clock r)).
Proof.
  intros Hnew Hrun. apply (replica_run_ok r0 r Hrun). unfold ContextCrdt_new in Hnew.
  destruct (HlcClock_new id); simplify_eq.
  intros t [(e & He)|[(e & g & x & Hg & _)|(e & f & x & Hf & _)]]; simpl in *;
    rewrite lookup_empty in *; simpl in *; set_solver.
Qed.

(** Read your writes: after [upsert_entry] on a replica whose clock
    dominates its state, the entry is visible (even if it was removed before)
    and reads back every field value just written. *)
Theorem upsert_reads_back `{SerdeJson} r id fs now_ms sys_ms :
  replica_ok r → unsaturated (last (clock r)) →
  ∃ v, get_local_entry (upsert_entry r id fs now_ms sys_ms).1 id = Some v
    ∧ ∀ f x, fs !! f = Some x → view_fields v !! f = Some x.
Proof.
  intros Hok Hu. pose proof (stamp_fresh r now_ms sys_ms Hok Hu) as Hlt.
  pose proof (upsert_entry_state r id fs now_ms sys_ms) as E.
  destruct (replica_tick _ _ _) as [c t]. unfold get_local_entry. rewrite E. simpl.
  by apply write_state_view.
Qed.

(** [remove_entry] hides the entry at once, reports a change exactly when
    the entry was visible, and leaves the view of every other entry alone. *)
Theorem remove_entry_hides `{SerdeJson} r id now_ms sys_ms :
  get_local_entry (remove_entry r id now_ms sys_ms).1 id = None
  ∧ changed (remove_entry r id now_ms sys_ms).2 = is_visible (membership (state r)) id
  ∧ ∀ id', id' ≠ id →
      get_local_entry (remove_entry r id now_ms sys_ms).1 id' = get_local_entry r id'.
Proof.
  unfold remove_entry, get_local_entry.
  destruct (is_visible (membership (state r)) id) eqn:Hv; simpl.
  2: { rewrite entry_view_default, Hv. done. }
  destruct (replica_tick _ _ _) as [c t].
  pose proof (remove_hides (membership (state r)) id t) as Hh.
  pose proof (remove_frame (membership (state r)) id t) as Hf.
  pose proof (remove_count (membership (state r)) id t Hv) as Hn.
  destruct (remove _ _ _) as [m n]. simpl in *. split_and!.
  - by rewrite entry_view_default; simpl; rewrite Hh.
  - by apply Nat.ltb_lt.
  - intros id' Hne. rewrite !entry_view_default, !latest_visible_default. simpl.
    unfold is_visible. by rewrite (Hf id' Hne).
Qed.

(** A binary state that does not decode leaves the replica untouched and
    reports the codec's error; one that decodes is merged as that state. *)
Theorem merge_binary_state_exact `{SerdeJson} {Bytes}
    (deserialize : Bytes → Result ContextCrdtState string) r b now_ms :
  match deserialize b with
  | Err e => merge_binary_state_at deserialize r b now_ms = (r, Err (Serialize e))
  | Ok remote =>
      let '(r', res) := merge_binary_state_at deserialize r b now_ms in
      state r' = state_join (state r) remote
      ∧ res = Ok (state_merge_in (state r) remote).2
  end.
Proof.
  unfold merge_binary_state_at. destruct (deserialize b) as [remote|e]; [|done].
  rewrite <- merged_join. unfold merged, merge_state_at.
  by destruct (state_merge_in _ _).
Qed.

Section replica_witness.
Import JsonModel.

Definition replica_a : ContextCrdt :=
  {| replica_id := "a"; clock := {| clock_node_id := "a"; last := zero "a" |};
     state := ContextCrdtState_default |}.
Definition note : gmap string (Value Number) := {["text" := Str "hello"]}.
Definition replica_b : ContextCrdt := (upsert_entry replica_a "e" note (Some 5%Z) 0).1.
Definition replica_c : ContextCrdt := (remove_entry replica_b "e" (Some 5%Z) 0).1.

Lemma replica_a_ok : replica_ok replica_a.
Proof.
  intros t [(e & He)|[(e & g & x & Hg & _)|(e & f & x & Hf & _)]]; simpl in *;
    rewrite lookup_empty in *; simpl in *; set_solver.
Qed.

Lemma replica_c_run : rtc replica_step replica_a replica_c.
Proof.
  apply (rtc_l _ _ replica_b).
  { apply (step_mutation replica_a (UpsertEntry "e" note (Some 5%Z)) 0). done. }
  apply rtc_once.
  apply (step_mutation replica_b (RemoveEntry "e" (Some 5%Z)) 0). vm_compute. done.
Qed.

Lemma replica_clock_dominates_witness :
  last (clock replica_c) = mkHlc 5 1 "a"
  ∧ hlc_le (mkHlc 5 0 "a") (last (clock replica_c)).
Proof.
  split; [vm_compute; reflexivity|].
  apply (replica_clock_dominates "a" replica_a replica_c).
  - vm_compute. reflexivity.
  - exact replica_c_run.
  - left. exists "e". apply (bool_decide_unpack _). vm_compute. exact I.
Defined.

Lemma upsert_reads_back_witness :
  get_local_entry replica_c "e" = None
  ∧ ∃ v, get_local_entry (upsert_entry replica_c "e" note (Some 1%Z) 0).1 "e" = Some v
      ∧ ∀ f x, note !! f = Some x → view_fields v !! f = Some x.
Proof.
  split; [vm_compute; reflexivity|].
  apply (upsert_reads_back replica_c "e" note (Some 1%Z) 0).
  - apply (replica_run_ok replica_a replica_c replica_c_run replica_a_ok).
  - vm_compute. reflexivity.
Defined.
End replica_witness.
