(* ===== verification/CircuitBreaker.v ===== *)
(** * CircuitBreaker: per-provider circuit breakers (src/src/gateway/circuit_breaker.rs)

    [CircuitBreakerManager] keeps one three-state breaker per provider behind a
    mutex, so every operation is one atomic step on the map of breakers.
    Instants are nanoseconds of the monotonic clock and are passed in. *)

From Stdlib Require Import ZArith String.
From stdpp Require Import base gmap list strings relations sorting.
From S2P Require Import Prelude Lww.

Local Open Scope Z_scope.

Inductive CircuitState := Closed | Open | HalfOpen.

#[export] Instance CircuitState_eq_dec : EqDecision CircuitState.
Proof. solve_decision. Defined.

Record CircuitBreakerConfig := mkConfig {
  enabled : bool;
  consecutive_failure_threshold : Z;
  cooldown : Z;
  required_successes : Z;
}.

(** [CircuitBreakerConfig::default]. *)
Definition default_config : CircuitBreakerConfig :=
  {| enabled := true; consecutive_failure_threshold := 5; cooldown := from_secs 30;
     required_successes := 1 |}.

Record ProviderCircuitState := mkPcs {
  circuit : CircuitState;
  consecutive_failures : Z;
  last_failure_at : option Z;
  half_open_successes : Z;
}.

(** [ProviderCircuitState::default]. *)
Definition pcs_default : ProviderCircuitState :=
  {| circuit := Closed; consecutive_failures := 0; last_failure_at := None;
     half_open_successes := 0 |}.

Abbreviation breakers := (gmap string ProviderCircuitState).

(** [parse_circuit_breaker_config] on the [providers] section.  [as u32]
    keeps the low 32 bits. *)
Section parse.
Context {Number : Type} (as_u64 : Number → option Z).

Definition parse_circuit_breaker_config (section : Value Number) : CircuitBreakerConfig :=
  match json_get section "circuit_breaker" with
  | None => default_config
  | Some cb =>
      {| enabled := default true (json_get cb "enabled" ≫= json_as_bool);
         consecutive_failure_threshold :=
           wrap32 (default 5 (json_get cb "consecutive_failure_threshold"
                                ≫= json_as_u64 as_u64));
         cooldown := from_secs (default 30 (json_get cb "cooldown_seconds"
                                         ≫= json_as_u64 as_u64));
         required_successes :=
           wrap32 (default 1 (json_get cb "half_open_successes"
                                ≫= json_as_u64 as_u64)) |}
  end.
End parse.

Section manager.
Variable cfg : CircuitBreakerConfig.

(** The [match entry.state] of [is_allowed]; [last.elapsed()] is
    [now.duration_since(last)], which clamps at zero. *)
Definition entry_allowed (now : Z) (e : ProviderCircuitState) :
    ProviderCircuitState * bool :=
  match circuit e with
  | Closed => (e, true)
  | Open =>
      match last_failure_at e with
      | Some last =>
          if cooldown cfg <=? sat_sub now last then
            ({| circuit := HalfOpen; consecutive_failures := consecutive_failures e;
                last_failure_at := last_failure_at e; half_open_successes := 0 |}, true)
          else (e, false)
      | None => (e, true)
      end
  | HalfOpen => (e, true)
  end.

(** [CircuitBreakerManager::is_allowed]. *)
Definition is_allowed (now : Z) (m : breakers) (id : string) : breakers * bool :=
  if negb (enabled cfg) then (m, true) else
  let '(e, b) := entry_allowed now (default pcs_default (m !! id)) in
  (<[id := e]> m, b).

(** The [match entry.state] of [record_success]. *)
Definition entry_success (e : ProviderCircuitState) : ProviderCircuitState :=
  match circuit e with
  | Closed =>
      {| circuit := Closed; consecutive_failures := 0;
         last_failure_at := last_failure_at e;
         half_open_successes := half_open_successes e |}
  | HalfOpen =>
      let n := wrap32 (half_open_successes e + 1) in
      if required_successes cfg <=? n then
        {| circuit := Closed; consecutive_failures := 0;
           last_failure_at := last_failure_at e; half_open_successes := 0 |}
      else
        {| circuit := HalfOpen; consecutive_failures := consecutive_failures e;
           last_failure_at := last_failure_at e; half_open_successes := n |}
  | Open => e
  end.

(** [CircuitBreakerManager::record_success]. *)
Definition record_success (m : breakers) (id : string) : breakers :=
  if negb (enabled cfg) then m else
  <[id := entry_success (default pcs_default (m !! id))]> m.

(** The updates of [record_failure]. *)
Definition entry_failure (now : Z) (e : ProviderCircuitState) : ProviderCircuitState :=
  let n := wrap32 (consecutive_failures e + 1) in
  match circuit e with
  | Closed =>
      {| circuit := if consecutive_failure_threshold cfg <=? n then Open else Closed;
         consecutive_failures := n; last_failure_at := Some now;
         half_open_successes := half_open_successes e |}
  | HalfOpen =>
      {| circuit := Open; consecutive_failures := n; last_failure_at := Some now;
         half_open_successes := 0 |}
  | Open =>
      {| circuit := Open; consecutive_failures := n; last_failure_at := Some now;
         half_open_successes := half_open_successes e |}
  end.

(** [CircuitBreakerManager::record_failure]. *)
Definition record_failure (now : Z) (m : breakers) (id : string) : breakers :=
  if negb (enabled cfg) then m else
  <[id := entry_failure now (default pcs_default (m !! id))]> m.

(** [CircuitBreakerManager::get_state]. *)
Definition get_state (m : breakers) (id : string) : CircuitState :=
  match m !! id with Some s => circuit s | None => Closed end.

Record CircuitStateSnapshot := mkSnap {
  snap_state : CircuitState;
  snap_failures : Z;
  snap_successes : Z;
}.

(** [CircuitBreakerManager::snapshot]. *)
Definition snapshot (m : breakers) : gmap string CircuitStateSnapshot :=
  (λ s, mkSnap (circuit s) (consecutive_failures s) (half_open_successes s)) <$> m.

(** [CircuitBreakerManager::restore]: the loop body; [restore] visits the
    snapshot in the (unspecified) order [l] of the hash map. *)
Definition restore_entry (now : Z) (snap : CircuitStateSnapshot)
    (e : ProviderCircuitState) (u : unit) : ProviderCircuitState * unit :=
  ({| circuit := snap_state snap; consecutive_failures := snap_failures snap;
      last_failure_at := if decide (snap_state snap = Open) then Some now
                         else last_failure_at e;
      half_open_successes := snap_successes snap |}, u).
Definition restore (now : Z) (l : list (string * CircuitStateSnapshot)) (m : breakers) :
    breakers :=
  (for_upserts (or_default pcs_default (restore_entry now)) l (m, tt)).1.

(** ** Operations as steps *)

Inductive op := IsAllowed | RecordSuccess | RecordFailure.

(** One call at one instant; [is_allowed] is the only one with an answer. *)
Definition exec (m : breakers) (c : Z * string * op) : breakers * option bool :=
  let '(now, id, o) := c in
  match o with
  | IsAllowed => let '(m', b) := is_allowed now m id in (m', Some b)
  | RecordSuccess => (record_success m id, None)
  | RecordFailure => (record_failure now m id, None)
  end.
Fixpoint run (m : breakers) (calls : list (Z * string * op)) : breakers * list (option bool) :=
  match calls with
  | [] => (m, [])
  | c :: calls =>
      let '(m1, a) := exec m c in
      let '(m2, l) := run m1 calls in
      (m2, a :: l)
  end.

(** The same step on the one breaker it touches. *)
Definition entry_exec (e : ProviderCircuitState) (now : Z) (o : op) :
    ProviderCircuitState * option bool :=
  match o with
  | IsAllowed => let '(e', b) := entry_allowed now e in (e', Some b)
  | RecordSuccess => (entry_success e, None)
  | RecordFailure => (entry_failure now e, None)
  end.

Lemma exec_entry m now id o :
  enabled cfg = true →
  exec m (now, id, o) =
    let '(e, a) := entry_exec (default pcs_default (m !! id)) now o in (<[id := e]> m, a).
Proof.
  intros He. destruct o; simpl; unfold is_allowed, record_success, record_failure;
    rewrite He; simpl; try done. by destruct (entry_allowed _ _).
Qed.

Lemma exec_frame m c id' : id' ≠ c.1.2 → (exec m c).1 !! id' = m !! id'.
Proof.
  destruct c as [[now id] o]. intros Hne. simpl in Hne.
  destruct (enabled cfg) eqn:He.
  - rewrite exec_entry by done. destruct (entry_exec _ _ _) as [e a]. simpl.
    by rewrite lookup_insert_ne.
  - destruct o; simpl; unfold is_allowed, record_success, record_failure; by rewrite He.
Qed.

Lemma exec_disabled m c :
  enabled cfg = false → (exec m c).1 = m ∧ ((exec m c).2 = None ∨ (exec m c).2 = Some true).
Proof.
  intros He. destruct c as [[now id] []]; simpl;
    unfold is_allowed, record_success, record_failure; rewrite He; simpl; auto.
Qed.

(** ** A breaker over time *)

(** Calls on an open breaker before its cooldown has elapsed. *)
Lemma open_step e now o t :
  circuit e = Open → last_failure_at e = Some t → t ≤ now < t + cooldown cfg →
  let '(e', a) := entry_exec e now o in
  circuit e' = Open ∧ a ≠ Some true
  ∧ ∃ t', last_failure_at e' = Some t' ∧ t ≤ t' ≤ now.
Proof.
  intros Hc Hl Hnow. destruct e as [c f l h]. simpl in *. subst.
  destruct o; simpl; unfold entry_allowed, entry_success, entry_failure; simpl.
  - destruct (Z.leb_spec (cooldown cfg) (sat_sub now t)); [width_lia|].
    split_and!; [done|done|]. exists t. split; [done|lia].
  - split_and!; [done|done|]. exists t. split; [done|lia].
  - split_and!; [done|done|]. exists now. split; [done|lia].
Qed.

Lemma run_cons m c calls :
  run m (c :: calls) =
    ((run (exec m c).1 calls).1, (exec m c).2 :: (run (exec m c).1 calls).2).
Proof. simpl. destruct (exec m c) as [m1 a]. simpl. by destruct (run m1 calls). Qed.

(** The breaker of a provider, as [entry().or_default()] sees it. *)
Definition breaker (m : breakers) (id : string) : ProviderCircuitState :=
  default pcs_default (m !! id).

Lemma exec_breaker m now id o :
  enabled cfg = true →
  breaker (exec m (now, id, o)).1 id = (entry_exec (breaker m id) now o).1
  ∧ (exec m (now, id, o)).2 = (entry_exec (breaker m id) now o).2.
Proof.
  intros He. unfold breaker. rewrite exec_entry by done.
  destruct (entry_exec _ _ _) as [e a]. simpl. by rewrite lookup_insert_eq.
Qed.

Lemma exec_breaker_ne m now id o id' :
  id' ≠ id → breaker (exec m (now, id, o)).1 id' = breaker m id'.
Proof. intros Hne. unfold breaker. by rewrite exec_frame. Qed.

(** Calls in the order of the clock. *)
Definition in_time_order (calls : list (Z * string * op)) : Prop :=
  StronglySorted (λ c d : Z * string * op, c.1.1 ≤ d.1.1) calls.

Lemma open_run m id t0 t calls :
  enabled cfg = true →
  circuit (breaker m id) = Open →
  last_failure_at (breaker m id) = Some t → t0 ≤ t →
  in_time_order calls →
  Forall (λ c, t ≤ c.1.1 < t0 + cooldown cfg) calls →
  circuit (breaker (run m calls).1 id) = Open
  ∧ ∀ i now a, calls !! i = Some (now, id, IsAllowed) →
      (run m calls).2 !! i = Some (Some a) → a = false.
Proof.
  intros He. revert m t. induction calls as [|[[now id'] o] calls IH];
    intros m t Hc Hl Ht Hord Hall.
  { split; [done|]. intros i now a Hi. by rewrite lookup_nil in Hi. }
  apply StronglySorted_cons in Hord as [Hle Hord].
  apply Forall_cons in Hall as [Hnow Hall]. simpl in Hnow.
  rewrite run_cons. cbn [fst snd].
  assert (Hstep : ∃ t', circuit (breaker (exec m (now, id', o)).1 id) = Open
    ∧ last_failure_at (breaker (exec m (now, id', o)).1 id) = Some t' ∧ t ≤ t' ≤ now
    ∧ (id' = id → (exec m (now, id', o)).2 ≠ Some true)).
  { destruct (decide (id' = id)) as [->|Hne].
    - destruct (exec_breaker m now id o He) as [-> ->].
      pose proof (open_step (breaker m id) now o t Hc Hl ltac:(lia)) as Hs.
      destruct (entry_exec _ _ _) as [e a]. simpl. naive_solver.
    - exists t. rewrite exec_breaker_ne by done. naive_solver lia. }
  destruct Hstep as (t' & Hc' & Hl' & Ht' & Ha).
  destruct (IH (exec m (now, id', o)).1 t' Hc' Hl' ltac:(lia) Hord) as [IH1 IH2].
  { rewrite Forall_forall in Hall, Hle |- *. intros c Hin.
    specialize (Hall c Hin). specialize (Hle c Hin). simpl in Hle. lia. }
  split; [done|]. intros [|i] now' a Hi Hr; simpl in Hi, Hr.
  - simplify_eq. destruct a; [|done]. by destruct Ha.
  - eauto.
Qed.

(** ** The breaker invariant *)

(** An open breaker has a failure time; a closed one has fewer failures in a
    row than the threshold; a half-open one fewer probes than required. *)
Definition entry_ok (e : ProviderCircuitState) : Prop :=
  u32_ok (consecutive_failures e) ∧ u32_ok (half_open_successes e)
  ∧ match circuit e with
    | Closed => consecutive_failures e < consecutive_failure_threshold cfg
    | Open => is_Some (last_failure_at e)
    | HalfOpen => half_open_successes e < required_successes cfg
    end.

Hypothesis threshold_range : 1 ≤ consecutive_failure_threshold cfg ≤ u32_max.
Hypothesis required_range : 1 ≤ required_successes cfg ≤ u32_max.

Lemma pcs_default_ok : entry_ok pcs_default.
Proof. unfold entry_ok, pcs_default; simpl. split_and!; width_lia. Qed.

Lemma entry_exec_ok e now o : entry_ok e → entry_ok (entry_exec e now o).1.
Proof.
  unfold entry_ok. destruct e as [c f l h]. intros (Hf & Hh & Hc). simpl in *.
  destruct o, c; simpl; unfold entry_allowed, entry_success, entry_failure; simpl;
    repeat case_match; bool_to_prop; simplify_eq/=;
    split_and?; eauto with verdictan; try width_lia.
Qed.

Lemma exec_ok m c : map_Forall (λ _, entry_ok) m → map_Forall (λ _, entry_ok) (exec m c).1.
Proof.
  intros Hm. destruct (enabled cfg) eqn:He.
  2: { by rewrite (proj1 (exec_disabled m c He)). }
  destruct c as [[now id] o]. rewrite exec_entry by done.
  pose proof (entry_exec_ok (default pcs_default (m !! id)) now o) as Ho.
  destruct (entry_exec _ _ _) as [e a]. simpl in *.
  apply map_Forall_insert_2; [|done]. apply Ho.
  destruct (m !! id) eqn:E; [by apply (Hm id)|apply pcs_default_ok].
Qed.

Lemma run_ok m calls :
  map_Forall (λ _, entry_ok) m → map_Forall (λ _, entry_ok) (run m calls).1.
Proof.
  revert m. induction calls as [|c calls IH]; intros m Hm; simpl; [done|].
  pose proof (exec_ok m c Hm) as H1. destruct (exec m c) as [m1 a].
  specialize (IH m1 H1). by destruct (run m1 calls).
Qed.

(** Failures in a row on a closed breaker. *)
Lemma failures_step (e : ProviderCircuitState) (now : Z) :
  circuit e = Closed → 0 ≤ consecutive_failures e →
  consecutive_failures e + 1 ≤ consecutive_failure_threshold cfg →
  let e' := entry_failure now e in
  consecutive_failures e' = consecutive_failures e + 1
  ∧ last_failure_at e' = Some now
  ∧ circuit e' = if consecutive_failures e + 1 <? consecutive_failure_threshold cfg
                 then Closed else Open.
Proof.
  intros Hc Hf Hn. unfold entry_failure. rewrite Hc. simpl.
  rewrite wrap32_small by width_lia. split_and!; [done|done|].
  destruct (Z.ltb_spec (consecutive_failures e + 1) (consecutive_failure_threshold cfg)),
    (Z.leb_spec (consecutive_failure_threshold cfg) (consecutive_failures e + 1)); (done || lia).
Qed.

Definition failures (id : string) (nows : list Z) : list (Z * string * op) :=
  map (λ now, (now, id, RecordFailure)) nows.

Lemma failures_run m id nows :
  enabled cfg = true →
  circuit (breaker m id) = Closed → 0 ≤ consecutive_failures (breaker m id) →
  consecutive_failures (breaker m id) < consecutive_failure_threshold cfg →
  consecutive_failures (breaker m id) + Z.of_nat (length nows)
    ≤ consecutive_failure_threshold cfg →
  let e' := breaker (run m (failures id nows)).1 id in
  consecutive_failures e' = consecutive_failures (breaker m id) + Z.of_nat (length nows)
  ∧ circuit e' = if consecutive_failures (breaker m id) + Z.of_nat (length nows)
                      <? consecutive_failure_threshold cfg then Closed else Open.
Proof.
  intros He. revert m. induction nows as [|now nows IH]; intros m Hc Hf Hlt Hn.
  { simpl. rewrite Hc, Z.add_0_r. split; [done|].
    destruct (Z.ltb_spec (consecutive_failures (breaker m id))
      (consecutive_failure_threshold cfg)); [done|lia]. }
  change (failures id (now :: nows)) with ((now, id, RecordFailure) :: failures id nows).
  rewrite run_cons. cbn [fst]. simpl length in Hn |- *.
  destruct (exec_breaker m now id RecordFailure He) as [Hb _].
  cbn [entry_exec fst] in Hb.
  destruct (failures_step (breaker m id) now Hc Hf ltac:(lia)) as (H1 & _ & H3).
  destruct nows as [|now' nows].
  { cbn [failures map run fst length]. rewrite Hb, H1, H3. split; done. }
  specialize (IH (exec m (now, id, RecordFailure)).1).
  rewrite Hb in IH. rewrite H1, H3 in IH. simpl length in IH, Hn.
  destruct (Z.ltb_spec (consecutive_failures (breaker m id) + 1)
    (consecutive_failure_threshold cfg)); [|lia].
  destruct (IH eq_refl) as [I1 I2]; [lia..|].
  cbv zeta. rewrite I1, I2. simpl length.
  replace (consecutive_failures (breaker m id) + Z.of_nat (S (S (length nows))))
    with (consecutive_failures (breaker m id) + 1 + Z.of_nat (S (length nows))) by lia.
  done.
Qed.
End manager.

(** ** Theorems *)

(** Reachable breakers are well formed: after any sequence of calls on any
    providers, an open breaker has a recorded failure time (so the arm the
    source marks "shouldn't happen" is dead), a closed breaker has fewer
    consecutive failures than the threshold, and a half-open breaker fewer
    probe successes than required. *)
Theorem breaker_invariant cfg calls :
  1 ≤ consecutive_failure_threshold cfg ≤ u32_max →
  1 ≤ required_successes cfg ≤ u32_max →
  map_Forall (λ _, entry_ok cfg) (run cfg ∅ calls).1.
Proof. intros Ht Hr. apply run_ok; [done..|]. apply map_Forall_empty. Qed.

Definition cfg2 : CircuitBreakerConfig :=
  {| enabled := true; consecutive_failure_threshold := 2; cooldown := 100;
     required_successes := 1 |}.

Definition opened : breakers := (run cfg2 ∅ (failures "p" [10; 20])).1.

Lemma breaker_invariant_witness :
  opened !! "p" = Some (mkPcs Open 2 (Some 20) 0) ∧ map_Forall (λ _, entry_ok cfg2) opened.
Proof.
  split; [vm_compute; reflexivity|].
  apply (breaker_invariant cfg2 (failures "p" [10; 20])); vm_compute; split; discriminate.
Defined.

(** Exactly [consecutive_failure_threshold] failures in a row open a fresh
    breaker: after fewer it is still closed and counts them. *)
Theorem opens_at_threshold cfg id nows :
  enabled cfg = true →
  1 ≤ consecutive_failure_threshold cfg ≤ u32_max →
  Z.of_nat (length nows) ≤ consecutive_failure_threshold cfg →
  let e := breaker (run cfg ∅ (failures id nows)).1 id in
  consecutive_failures e = Z.of_nat (length nows)
  ∧ circuit e = if Z.of_nat (length nows) <? consecutive_failure_threshold cfg
                then Closed else Open.
Proof.
  intros He Ht Hn. pose proof (failures_run cfg Ht ∅ id nows He) as Hf.
  replace (breaker ∅ id) with pcs_default in Hf
    by (unfold breaker; by rewrite lookup_empty).
  simpl in Hf. rewrite Z.add_0_l in Hf. apply Hf; (done || lia).
Qed.

Lemma opens_at_threshold_witness :
  circuit (breaker (run cfg2 ∅ (failures "p" [10])).1 "p") = Closed
  ∧ circuit (breaker opened "p") = Open.
Proof.
  split.
  - apply (opens_at_threshold cfg2 "p" [10]); [reflexivity|split; vm_compute; discriminate|vm_compute; discriminate].
  - apply (opens_at_threshold cfg2 "p" [10; 20]);
      [reflexivity|split; vm_compute; discriminate|vm_compute; discriminate].
Defined.

(** An open breaker stays open and refuses traffic for the whole cooldown,
    whatever successes, failures and admission checks on it or on other
    providers are interleaved in that time. *)
Theorem open_refuses_during_cooldown cfg m id t calls :
  enabled cfg = true →
  circuit (breaker m id) = Open → last_failure_at (breaker m id) = Some t →
  in_time_order calls →
  Forall (λ c, t ≤ c.1.1 < t + cooldown cfg) calls →
  circuit (breaker (run cfg m calls).1 id) = Open
  ∧ ∀ i now a, calls !! i = Some (now, id, IsAllowed) →
      (run cfg m calls).2 !! i = Some (Some a) → a = false.
Proof. intros He Hc Hl Ho Ht. by apply (open_run cfg m id t t). Qed.

Definition busy : list (Z * string * op) :=
  [(30, "p", RecordSuccess); (40, "q", RecordFailure); (119, "p", IsAllowed)]%string.

Lemma open_refuses_during_cooldown_witness :
  (run cfg2 opened busy).2 = [None; None; Some false]
  ∧ circuit (breaker (run cfg2 opened busy).1 "p") = Open.
Proof.
  split; [vm_compute; reflexivity|].
  apply (open_refuses_during_cooldown cfg2 opened "p" 20 busy).
  - reflexivity.
  - vm_compute. reflexivity.
  - vm_compute. reflexivity.
  - repeat constructor; simpl; lia.
  - repeat constructor; simpl; lia.
Defined.

(** Recovery: the first check after the cooldown lets a probe through and
    half-opens the breaker; from there a failure reopens it with a fresh
    cooldown, and the [required_successes]-th success closes it with all
    counters cleared. *)
Theorem half_open_recovery cfg e now t :
  circuit e = Open → last_failure_at e = Some t → t + cooldown cfg ≤ now → t ≤ now →
  1 ≤ required_successes cfg ≤ u32_max →
  let probed := (entry_allowed cfg now e).1 in
  (entry_allowed cfg now e).2 = true
  ∧ circuit probed = HalfOpen ∧ half_open_successes probed = 0
  ∧ (∀ now', circuit (entry_failure cfg now' probed) = Open
      ∧ last_failure_at (entry_failure cfg now' probed) = Some now'
      ∧ half_open_successes (entry_failure cfg now' probed) = 0)
  ∧ (∀ n : nat, Z.of_nat n < required_successes cfg →
      let p := Nat.iter n (entry_success cfg) probed in
      circuit p = HalfOpen ∧ half_open_successes p = Z.of_nat n)
  ∧ Nat.iter (Z.to_nat (required_successes cfg)) (entry_success cfg) probed
    = mkPcs Closed 0 (Some t) 0.
Proof.
  intros Hc Hl Hnow Hle Hreq.
  assert (Hp : entry_allowed cfg now e
    = (mkPcs HalfOpen (consecutive_failures e) (Some t) 0, true)).
  { unfold entry_allowed. rewrite Hc, Hl.
    destruct (Z.leb_spec (cooldown cfg) (sat_sub now t)); [done|width_lia]. }
  rewrite Hp. cbn [fst snd].
  assert (Hit : ∀ n : nat, Z.of_nat n < required_successes cfg →
    Nat.iter n (entry_success cfg) (mkPcs HalfOpen (consecutive_failures e) (Some t) 0)
    = mkPcs HalfOpen (consecutive_failures e) (Some t) (Z.of_nat n)).
  { induction n as [|n IH]; intros Hn; [done|]. simpl. rewrite IH by lia.
    unfold entry_success. simpl. rewrite wrap32_small by width_lia.
    destruct (Z.leb_spec (required_successes cfg) (Z.of_nat n + 1)); [lia|].
    by rewrite Nat2Z.inj_succ. }
  split_and!; try done.
  - intros n Hn. by rewrite Hit.
  - destruct (Z.to_nat (required_successes cfg)) as [|n] eqn:En; [lia|]. simpl.
    rewrite Hit by lia. unfold entry_success. simpl. rewrite wrap32_small by width_lia.
    destruct (Z.leb_spec (required_successes cfg) (Z.of_nat n + 1)); [done|lia].
Qed.

Lemma half_open_recovery_witness :
  (entry_allowed cfg2 120 (breaker opened "p")).2 = true
  ∧ entry_success cfg2 (entry_allowed cfg2 120 (breaker opened "p")).1
    = mkPcs Closed 0 (Some 20) 0.
Proof.
  pose proof (half_open_recovery cfg2 (breaker opened "p") 120 20) as Hr.
  destruct Hr as (H1 & _ & _ & _ & _ & H2); [reflexivity..| | | |].
  - vm_compute. discriminate.
  - vm_compute. discriminate.
  - vm_compute. split; discriminate.
  - split; [exact H1|exact H2].
Defined.

(** Reload: restoring a snapshot of the breakers into a new manager brings
    back every provider's state and counters, in whatever order the hash map
    is visited, and restarts the cooldown of the open ones at the reload. *)
Theorem snapshot_restore_roundtrip (m : breakers) now l :
  l ≡ₚ map_to_list (snapshot m) →
  snapshot (restore now l ∅) = snapshot m
  ∧ ∀ id e, m !! id = Some e →
      restore now l ∅ !! id =
        Some (mkPcs (circuit e) (consecutive_failures e)
                (if decide (circuit e = Open) then Some now else None)
                (half_open_successes e)).
Proof.
  intros Hl. unfold restore.
  rewrite (for_upserts_map (or_default pcs_default (restore_entry now))
    (λ b oa, Some (restore_entry now b (default pcs_default oa) tt).1)
    (or_default_value pcs_default (restore_entry now)
      (λ snap e, (restore_entry now snap e tt).1) ltac:(by intros ?? [])) l (snapshot m))
    by done.
  assert (Hlook : ∀ id, join_map (λ b oa, Some (restore_entry now b (default pcs_default oa) tt).1)
      (∅ : breakers) (snapshot m) !! id =
    (λ e, mkPcs (circuit e) (consecutive_failures e)
            (if decide (circuit e = Open) then Some now else None)
            (half_open_successes e)) <$> m !! id).
  { intros id. rewrite lookup_join_map, lookup_empty. unfold snapshot. rewrite lookup_fmap.
    by destruct (m !! id). }
  split.
  - apply map_eq. intros id. unfold snapshot at 1. rewrite lookup_fmap. simpl. rewrite Hlook.
    unfold snapshot. rewrite lookup_fmap. by destruct (m !! id).
  - intros id e He. simpl. by rewrite Hlook, He.
Qed.

Lemma snapshot_restore_roundtrip_witness :
  restore 500 (map_to_list (snapshot opened)) ∅ !! "p" = Some (mkPcs Open 2 (Some 500) 0).
Proof.
  destruct (snapshot_restore_roundtrip opened 500 (map_to_list (snapshot opened))) as [_ Hr].
  { reflexivity. }
  apply (Hr "p" (mkPcs Open 2 (Some 20) 0)). vm_compute. reflexivity.
Defined.

(** The configured failure threshold is truncated to 32 bits: a section
    that asks for [2^32] failures yields a threshold of zero, with which the
    very first failure opens the circuit. *)
Theorem threshold_truncated {Number} (as_u64 : Number → option Z) section cb n now :
  json_get section "circuit_breaker" = Some cb →
  json_get cb "consecutive_failure_threshold" = Some (Num n) →
  as_u64 n = Some (2 ^ 32) →
  let cfg := parse_circuit_breaker_config as_u64 section in
  consecutive_failure_threshold cfg = 0
  ∧ circuit (entry_failure cfg now pcs_default) = Open.
Proof.
  intros H1 H2 H3. unfold parse_circuit_breaker_config. rewrite H1. simpl. rewrite H2.
  simpl. rewrite H3. split; [done|]. unfold entry_failure. simpl. done.
Qed.

Lemma threshold_truncated_witness :
  let section := Obj [("circuit_breaker"%string,
    Obj [("consecutive_failure_threshold"%string, Num (2 ^ 32))])] in
  circuit (entry_failure (parse_circuit_breaker_config Some section) 7 pcs_default) = Open.
Proof.
  apply (threshold_truncated Some (Obj [("circuit_breaker"%string,
    Obj [("consecutive_failure_threshold"%string, Num (2 ^ 32))])])
    (Obj [("consecutive_failure_threshold"%string, Num (2 ^ 32))]) (2 ^ 32) 7); reflexivity.
Defined.
