(* ===== verification/TtlCache.v ===== *)
(** * TtlCache: the bounded TTL cache (src/src/gateway/bounded_ttl_cache.rs)

    Entries live in a map; two binary heaps hold one record per insertion,
    ordered by expiry and by generation, and are cleaned lazily: a record whose
    generation no longer matches the entry is stale.  Every operation that
    changes the cache holds the maintenance mutex and is one atomic step here. *)

From Stdlib Require Import ZArith.
From stdpp Require Import base gmap sets list sorting.
From S2P Require Import Prelude.

Local Open Scope Z_scope.

(** ** Binary heaps

    A [BinaryHeap<Reverse<T>>] is its multiset of elements, kept as a list
    whose order means nothing; [pop] takes a least element. *)
Section heap.
Context {A : Type} (leb : A → A → bool).
Hypothesis leb_refl : ∀ a, leb a a = true.
Hypothesis leb_trans : ∀ a b c, leb a b = true → leb b c = true → leb a c = true.
Hypothesis leb_total : ∀ a b, leb a b = false → leb b a = true.

Fixpoint heap_pop (h : list A) : option (A * list A) :=
  match h with
  | [] => None
  | x :: h =>
      match heap_pop h with
      | None => Some (x, [])
      | Some (y, r) => if leb x y then Some (x, y :: r) else Some (y, x :: r)
      end
  end.

Lemma heap_pop_none h : heap_pop h = None ↔ h = [].
Proof.
  destruct h as [|x h]; simpl; [done|].
  destruct (heap_pop h) as [[y r]|]; [|done]. by destruct (leb x y).
Qed.

Lemma heap_pop_perm h x r : heap_pop h = Some (x, r) → h ≡ₚ x :: r.
Proof.
  revert x r. induction h as [|y h IH]; intros x r; simpl; [done|].
  destruct (heap_pop h) as [[z r']|] eqn:E.
  - rewrite (IH z r' eq_refl). destruct (leb y z); intros [= <- <-]; [done|].
    apply Permutation_swap.
  - apply heap_pop_none in E as ->. by intros [= <- <-].
Qed.

Lemma heap_pop_min h x r :
  heap_pop h = Some (x, r) → ∀ y, y ∈ h → leb x y = true.
Proof.
  revert x r. induction h as [|z h IH]; intros x r; simpl; [done|].
  destruct (heap_pop h) as [[w r']|] eqn:E.
  - pose proof (IH w r' eq_refl) as Hw.
    destruct (leb z w) eqn:Ez; intros [= <- <-] y [->|Hy]%elem_of_cons; eauto.
  - apply heap_pop_none in E as ->. intros [= <- <-] y Hy.
    apply list_elem_of_singleton in Hy as ->. done.
Qed.

Lemma heap_pop_length h x r : heap_pop h = Some (x, r) → length h = S (length r).
Proof. intros Hp%heap_pop_perm. by rewrite Hp. Qed.
End heap.

Section cache.
Context {K} `{Countable K} {V : Type}.

Record CacheEntry := mkEntry {
  value : V;
  expires_at : Z;
  generation : Z;
}.
Record ExpirationRecord := mkExp {
  exp_key : K;
  exp_at : Z;
  exp_generation : Z;
}.
Record InsertionRecord := mkIns {
  ins_key : K;
  ins_generation : Z;
}.

(** [Ord for ExpirationRecord] and [Ord for InsertionRecord]. *)
Definition exp_leb (a b : ExpirationRecord) : bool :=
  (exp_at a <? exp_at b)
  || ((exp_at a =? exp_at b) && (exp_generation a <=? exp_generation b)).
Definition ins_leb (a b : InsertionRecord) : bool := ins_generation a <=? ins_generation b.

Record BoundedTtlCache := mkCache {
  max_entries : Z;
  ttl : Z;
  entries : gmap K CacheEntry;
  expirations : list ExpirationRecord;
  insertions : list InsertionRecord;
  next_generation : Z;
}.

(** [BoundedTtlCache::new]. *)
Definition cache_new (max_entries ttl : Z) : BoundedTtlCache :=
  {| max_entries := max_entries; ttl := ttl; entries := ∅; expirations := [];
     insertions := []; next_generation := 0 |}.

Definition entry_count (m : gmap K CacheEntry) : Z := Z.of_nat (size m).

(** The loop body of [prune_expired_locked] for a popped record: drop the
    entry if it still is the insertion the record was made for. *)
Definition expire_record (now : Z) (m : gmap K CacheEntry) (record : ExpirationRecord) :
    gmap K CacheEntry :=
  let should_remove :=
    match m !! exp_key record with
    | Some entry => (generation entry =? exp_generation record)
                    && (expires_at entry <=? now)
    | None => false
    end in
  if should_remove then delete (exp_key record) m else m.

(** The loop of [prune_expired_locked]; [fuel] bounds the pops. *)
Fixpoint prune_loop (fuel : nat) (now : Z) (m : gmap K CacheEntry)
    (h : list ExpirationRecord) : gmap K CacheEntry * list ExpirationRecord :=
  match fuel with
  | O => (m, h)
  | S fuel =>
      match heap_pop exp_leb h with
      | None => (m, h)
      | Some (record, h') =>
          if now <? exp_at record then (m, h) else
          prune_loop fuel now (expire_record now m record) h'
      end
  end.
Definition prune_expired_locked (c : BoundedTtlCache) (now : Z) : BoundedTtlCache :=
  let '(m, h) := prune_loop (length (expirations c)) now (entries c) (expirations c) in
  {| max_entries := max_entries c; ttl := ttl c; entries := m; expirations := h;
     insertions := insertions c; next_generation := next_generation c |}.

(** The loop body of [evict_excess_locked] for a popped record. *)
Definition evict_record (m : gmap K CacheEntry) (record : InsertionRecord) :
    gmap K CacheEntry :=
  let should_remove :=
    match m !! ins_key record with
    | Some entry => generation entry =? ins_generation record
    | None => false
    end in
  if should_remove then delete (ins_key record) m else m.

(** The loop of [evict_excess_locked]. *)
Fixpoint evict_loop (fuel : nat) (max : Z) (m : gmap K CacheEntry)
    (h : list InsertionRecord) : gmap K CacheEntry * list InsertionRecord :=
  match fuel with
  | O => (m, h)
  | S fuel =>
      if entry_count m <? max then (m, h) else
      match heap_pop ins_leb h with
      | None => (m, h)
      | Some (record, h') => evict_loop fuel max (evict_record m record) h'
      end
  end.
Definition evict_excess_locked (c : BoundedTtlCache) : BoundedTtlCache :=
  let '(m, h) := evict_loop (length (insertions c)) (max_entries c) (entries c)
                   (insertions c) in
  {| max_entries := max_entries c; ttl := ttl c; entries := m;
     expirations := expirations c; insertions := h;
     next_generation := next_generation c |}.

(** [maybe_compact_metadata_locked]. *)
Definition METADATA_REBUILD_FACTOR : Z := 4.
Definition MIN_METADATA_REBUILD_RECORDS : Z := 16.
Definition rebuild_threshold (c : BoundedTtlCache) : Z :=
  Z.max (Z.max (sat_mul64 (entry_count (entries c)) METADATA_REBUILD_FACTOR)
               (sat_mul64 (max_entries c) 2))
        MIN_METADATA_REBUILD_RECORDS.
Definition with_heaps (c : BoundedTtlCache) (xs : list ExpirationRecord)
    (ins : list InsertionRecord) : BoundedTtlCache :=
  {| max_entries := max_entries c; ttl := ttl c; entries := entries c;
     expirations := xs; insertions := ins; next_generation := next_generation c |}.
Definition maybe_compact_metadata_locked (c : BoundedTtlCache) : BoundedTtlCache :=
  if entry_count (entries c) =? 0 then with_heaps c [] [] else
  if (Z.of_nat (length (expirations c)) <=? rebuild_threshold c)
     && (Z.of_nat (length (insertions c)) <=? rebuild_threshold c) then c
  else
    with_heaps c
      (map (λ p, mkExp p.1 (expires_at p.2) (generation p.2)) (map_to_list (entries c)))
      (map (λ p, mkIns p.1 (generation p.2)) (map_to_list (entries c))).

(** [get_at]: a read of a live entry takes no lock; otherwise expired entries
    are pruned and the entry is looked up again. *)
Definition live_value (c : BoundedTtlCache) (key : K) (now : Z) : option V :=
  match entries c !! key with
  | Some entry => if now <? expires_at entry then Some (value entry) else None
  | None => None
  end.
Definition get_at (c : BoundedTtlCache) (key : K) (now : Z) : BoundedTtlCache * option V :=
  match entries c !! key with
  | None => (c, None)
  | Some entry =>
      if now <? expires_at entry then (c, Some (value entry)) else
      let c' := prune_expired_locked c now in (c', live_value c' key now)
  end.

(** The body of [insert_inner_at], with the expiry [now + ttl] taken as it is;
    [fetch_add] wraps and the result is then incremented with saturation. *)
Definition insert_entry_at (c : BoundedTtlCache) (key : K) (v : V)
    (custom_ttl : option Z) (now : Z) : BoundedTtlCache :=
  if max_entries c =? 0 then c else
  let c1 := prune_expired_locked c now in
  let c2 := match entries c1 !! key with
            | None => evict_excess_locked c1
            | Some _ => c1
            end in
  let gen := sat_add64 (next_generation c2) 1 in
  let exp := now + default (ttl c2) custom_ttl in
  maybe_compact_metadata_locked
    {| max_entries := max_entries c2; ttl := ttl c2;
       entries := <[key := mkEntry v exp gen]> (entries c2);
       expirations := mkExp key exp gen :: expirations c2;
       insertions := mkIns key gen :: insertions c2;
       next_generation := wrap64 (next_generation c2 + 1) |}.

(** [insert_inner_at]; [None] when [now + ttl] is not an [Instant], which
    panics. *)
Definition insert_inner_at (c : BoundedTtlCache) (key : K) (v : V)
    (custom_ttl : option Z) (now : Z) : option BoundedTtlCache :=
  if max_entries c =? 0 then Some c else
  match instant_add now (default (ttl c) custom_ttl) with
  | Some _ => Some (insert_entry_at c key v custom_ttl now)
  | None => None
  end.

Definition with_entries (c : BoundedTtlCache) (m : gmap K CacheEntry) : BoundedTtlCache :=
  {| max_entries := max_entries c; ttl := ttl c; entries := m;
     expirations := expirations c; insertions := insertions c;
     next_generation := next_generation c |}.

(** [remove], [remove_where_kv], [clear], [reap_expired]. *)
Definition remove (c : BoundedTtlCache) (key : K) : BoundedTtlCache :=
  maybe_compact_metadata_locked (with_entries c (delete key (entries c))).
Definition remove_where_kv (c : BoundedTtlCache) (predicate : K → V → bool) :
    BoundedTtlCache :=
  let keys := (filter (λ p, predicate p.1 (value p.2) = true)
                 (map_to_list (entries c))).*1 in
  maybe_compact_metadata_locked
    (with_entries c (fold_left (λ m k, delete k m) keys (entries c))).
Definition remove_where (c : BoundedTtlCache) (predicate : K → bool) : BoundedTtlCache :=
  let keys := (filter (λ p, predicate p.1 = true) (map_to_list (entries c))).*1 in
  maybe_compact_metadata_locked
    (with_entries c (fold_left (λ m k, delete k m) keys (entries c))).
Definition clear (c : BoundedTtlCache) : BoundedTtlCache :=
  {| max_entries := max_entries c; ttl := ttl c; entries := ∅; expirations := [];
     insertions := []; next_generation := next_generation c |}.
Definition reap_expired (c : BoundedTtlCache) (now : Z) : BoundedTtlCache :=
  maybe_compact_metadata_locked (prune_expired_locked c now).

(** ** The cache invariant *)

(** Every entry is backed by its own record in both heaps, and records that
    carry an entry's generation agree with it.  [ginv] is the part that does
    not mention the capacity. *)
Record heaps_ok (m : gmap K CacheEntry) (xs : list ExpirationRecord)
    (ins : list InsertionRecord) (next : Z) : Prop := {
  entry_has_exp : ∀ k e, m !! k = Some e → mkExp k (expires_at e) (generation e) ∈ xs;
  entry_has_ins : ∀ k e, m !! k = Some e → mkIns k (generation e) ∈ ins;
  exp_agrees : ∀ k e x, m !! k = Some e → mkExp k x (generation e) ∈ xs → x = expires_at e;
  gen_unique : ∀ k1 e1 k2 e2, m !! k1 = Some e1 → m !! k2 = Some e2 →
    generation e1 = generation e2 → k1 = k2;
  gen_bound : ∀ k e, m !! k = Some e → generation e ≤ next;
  exp_bound : ∀ r, r ∈ xs → exp_generation r ≤ next;
}.

Definition cache_ok (c : BoundedTtlCache) : Prop :=
  heaps_ok (entries c) (expirations c) (insertions c) (next_generation c)
  ∧ entry_count (entries c) ≤ max_entries c
  ∧ 0 ≤ next_generation c.

Lemma exp_leb_refl a : exp_leb a a = true.
Proof. unfold exp_leb. rewrite Z.eqb_refl, Z.leb_refl. by rewrite orb_true_r. Qed.
Lemma exp_leb_spec a b :
  exp_leb a b = true ↔
  exp_at a < exp_at b ∨ (exp_at a = exp_at b ∧ exp_generation a ≤ exp_generation b).
Proof.
  unfold exp_leb. rewrite orb_true_iff, andb_true_iff, Z.ltb_lt, Z.eqb_eq, Z.leb_le. done.
Qed.
Lemma exp_leb_trans a b c : exp_leb a b = true → exp_leb b c = true → exp_leb a c = true.
Proof. rewrite !exp_leb_spec. lia. Qed.
Lemma exp_leb_total a b : exp_leb a b = false → exp_leb b a = true.
Proof.
  intros Hf. apply exp_leb_spec. assert (Hn : ¬ exp_leb a b = true) by (by rewrite Hf).
  rewrite exp_leb_spec in Hn. lia.
Qed.
Lemma ins_leb_refl a : ins_leb a a = true.
Proof. apply Z.leb_refl. Qed.
Lemma ins_leb_trans a b c : ins_leb a b = true → ins_leb b c = true → ins_leb a c = true.
Proof. unfold ins_leb. rewrite !Z.leb_le. lia. Qed.
Lemma ins_leb_total a b : ins_leb a b = false → ins_leb b a = true.
Proof. unfold ins_leb. rewrite Z.leb_gt, Z.leb_le. lia. Qed.

(** Shrinking the entries keeps the invariant. *)
Lemma heaps_ok_subset m m' xs ins next :
  m' ⊆ m → heaps_ok m xs ins next → heaps_ok m' xs ins next.
Proof.
  intros Hsub [H1 H2 H3 H4 H5 H6].
  assert (Hl : ∀ k e, m' !! k = Some e → m !! k = Some e)
    by (intros k e He; by eapply lookup_weaken).
  split; eauto.
Qed.

(** Popping a record whose entry, if it is still the same insertion, is
    removed. *)
Lemma heaps_ok_pop_exp m xs ins next record xs' m' :
  heaps_ok m xs ins next → xs ≡ₚ record :: xs' → m' ⊆ m →
  (∀ e, m' !! exp_key record = Some e → generation e ≠ exp_generation record) →
  heaps_ok m' xs' ins next.
Proof.
  intros Hok Hp Hsub Hne. pose proof (heaps_ok_subset m m' xs ins next Hsub Hok) as
    [H1 H2 H3 H4 H5 H6].
  assert (Hin : ∀ r, r ∈ xs ↔ r = record ∨ r ∈ xs')
    by (intros r; by rewrite Hp, elem_of_cons).
  split; [|done| |done|done|].
  - intros k e He. destruct (proj1 (Hin _) (H1 k e He)) as [<-|]; [|done].
    by destruct (Hne e He).
  - intros k e x He Hx. apply (H3 k e x He). apply Hin. by right.
  - intros r Hr. apply H6, Hin. by right.
Qed.

Lemma heaps_ok_pop_ins m xs ins next record ins' m' :
  heaps_ok m xs ins next → ins ≡ₚ record :: ins' → m' ⊆ m →
  (∀ e, m' !! ins_key record = Some e → generation e ≠ ins_generation record) →
  heaps_ok m' xs ins' next.
Proof.
  intros Hok Hp Hsub Hne. pose proof (heaps_ok_subset m m' xs ins next Hsub Hok) as
    [H1 H2 H3 H4 H5 H6].
  split; [done| |done..].
  intros k e He. specialize (H2 k e He). rewrite Hp, elem_of_cons in H2.
  destruct H2 as [<-|]; [|done]. by destruct (Hne e He).
Qed.

(** ** Pruning *)

Lemma expire_record_spec now m xs ins next record xs' :
  heaps_ok m xs ins next → xs ≡ₚ record :: xs' → exp_at record ≤ now →
  heaps_ok (expire_record now m record) xs' ins next
  ∧ ∀ k, expire_record now m record !! k = m !! k
      ∨ (expire_record now m record !! k = None
         ∧ ∃ e, m !! k = Some e ∧ expires_at e ≤ now).
Proof.
  intros Hok Hp Hnow. unfold expire_record.
  destruct (m !! exp_key record) as [e|] eqn:E.
  2: { split; [|by left]. eapply heaps_ok_pop_exp; eauto. by rewrite E. }
  assert (Hex : generation e = exp_generation record → expires_at e = exp_at record).
  { intros Hg. symmetry. apply (exp_agrees _ _ _ _ Hok (exp_key record) e); [done|].
    rewrite Hg, Hp. apply elem_of_cons. left. by destruct record. }
  destruct (Z.eqb_spec (generation e) (exp_generation record)) as [Hg|Hg]; simpl.
  - destruct (Z.leb_spec (expires_at e) now); [|specialize (Hex Hg); lia]. split.
    + apply (heaps_ok_pop_exp m xs ins next record xs'); [done|done|apply delete_subseteq|].
      intros e'. by rewrite lookup_delete_eq.
    + intros k. rewrite lookup_delete. case_decide; [subst|by left]. right. eauto.
  - split; [|by left]. eapply heaps_ok_pop_exp; eauto. rewrite E. naive_solver.
Qed.

(** Every entry of a well-formed cache with no expiration record left, or
    whose earliest one is in the future, is live. *)
Lemma all_live_none m ins next k e :
  heaps_ok m [] ins next → m !! k = Some e → False.
Proof. intros Hok Hk. by apply (entry_has_exp _ _ _ _ Hok), elem_of_nil in Hk. Qed.

Definition live_entry (now : Z) (oe : option CacheEntry) : option CacheEntry :=
  match oe with
  | Some e => if now <? expires_at e then Some e else None
  | None => None
  end.

Lemma prune_loop_spec fuel now m xs ins next :
  (length xs ≤ fuel)%nat → heaps_ok m xs ins next →
  let '(m', xs') := prune_loop fuel now m xs in
  heaps_ok m' xs' ins next
  ∧ (length xs' ≤ length xs)%nat
  ∧ ∀ k, m' !! k = live_entry now (m !! k).
Proof.
  revert m xs. induction fuel as [|fuel IH]; intros m xs Hlen Hok; simpl.
  { destruct xs; [|simpl in Hlen; lia]. split_and!; [done|done|]. intros k.
    destruct (m !! k) eqn:E; [|done]. by destruct (all_live_none _ _ _ _ _ Hok E). }
  destruct (heap_pop exp_leb xs) as [[record xs']|] eqn:Hpop.
  2: { apply heap_pop_none in Hpop as ->. split_and!; [done|done|]. intros k.
    destruct (m !! k) eqn:E; [|done]. by destruct (all_live_none _ _ _ _ _ Hok E). }
  pose proof (heap_pop_perm _ _ _ _ Hpop) as Hp.
  pose proof (heap_pop_length _ _ _ _ Hpop) as Hl.
  destruct (Z.ltb_spec now (exp_at record)) as [Hnow|Hnow].
  - split_and!; [done|done|]. intros k. destruct (m !! k) as [e|] eqn:E; [|done].
    pose proof (entry_has_exp _ _ _ _ Hok k e E) as Hin.
    pose proof (heap_pop_min _ exp_leb_refl exp_leb_trans exp_leb_total _ _ _ Hpop _ Hin) as Hle.
    apply exp_leb_spec in Hle. simpl in *.
    destruct (Z.ltb_spec now (expires_at e)); [done|lia].
  - destruct (expire_record_spec now m xs ins next record xs' Hok Hp Hnow) as [Hok' Hlook].
    specialize (IH (expire_record now m record) xs' ltac:(lia) Hok').
    destruct (prune_loop fuel now _ xs') as [m' xs'']. destruct IH as (IH1 & IH2 & IH3).
    split_and!; [done|lia|]. intros k. rewrite IH3.
    destruct (Hlook k) as [->|[-> (e & -> & He)]]; [done|]. simpl.
    destruct (Z.ltb_spec now (expires_at e)); [lia|done].
Qed.

(** ** Eviction *)

(** The oldest insertion among the entries. *)
Definition oldest (m : gmap K CacheEntry) (k : K) : Prop :=
  ∃ e, m !! k = Some e ∧ ∀ k' e', m !! k' = Some e' → generation e ≤ generation e'.

Lemma evict_record_spec m xs ins next record ins' :
  heaps_ok m xs ins next → ins ≡ₚ record :: ins' →
  (∀ r, r ∈ ins → ins_generation record ≤ ins_generation r) →
  heaps_ok (evict_record m record) xs ins' next
  ∧ (evict_record m record = m
     ∨ (oldest m (ins_key record) ∧ evict_record m record = delete (ins_key record) m)).
Proof.
  intros Hok Hp Hmin. unfold evict_record.
  destruct (m !! ins_key record) as [e|] eqn:E.
  2: { split; [|by left]. eapply heaps_ok_pop_ins; eauto. by rewrite E. }
  destruct (Z.eqb_spec (generation e) (ins_generation record)) as [Hg|Hg].
  - split.
    + apply (heaps_ok_pop_ins m xs ins next record ins'); [done|done|apply delete_subseteq|].
      intros e'. by rewrite lookup_delete_eq.
    + right. split; [|done]. exists e. split; [done|]. intros k' e' Hk'.
      rewrite Hg. by apply (entry_has_ins _ _ _ _ Hok), Hmin in Hk'.
  - split; [|by left]. eapply heaps_ok_pop_ins; eauto. rewrite E. naive_solver.
Qed.

Lemma entry_count_delete (m : gmap K CacheEntry) k :
  is_Some (m !! k) → entry_count (delete k m) = entry_count m - 1.
Proof.
  intros Hk. unfold entry_count. rewrite map_size_delete_Some by done.
  assert (size m ≠ 0%nat); [|lia].
  intros Hz. apply map_size_empty_inv in Hz as ->. destruct Hk as [? Hk].
  by rewrite lookup_empty in Hk.
Qed.

Lemma evict_loop_spec fuel max m xs ins next :
  (length ins ≤ fuel)%nat → 1 ≤ max → entry_count m ≤ max → heaps_ok m xs ins next →
  let '(m', ins') := evict_loop fuel max m ins in
  heaps_ok m' xs ins' next
  ∧ (length ins' ≤ length ins)%nat
  ∧ (if entry_count m <? max then m' = m
     else ∃ k, oldest m k ∧ m' = delete k m).
Proof.
  revert m ins. induction fuel as [|fuel IH]; intros m ins Hlen Hmax Hsize Hok; simpl.
  - destruct ins; [|simpl in Hlen; lia]. split_and!; [done|done|].
    destruct (Z.ltb_spec (entry_count m) max); [done|].
    destruct (decide (m = ∅)) as [->|Hne].
    { unfold entry_count in *. rewrite map_size_empty in *. lia. }
    apply map_choose in Hne as (k & e & Hk).
    apply (entry_has_ins _ _ _ _ Hok), elem_of_nil in Hk. done.
  - destruct (Z.ltb_spec (entry_count m) max) as [Hlt|Hge].
    { split_and!; [done|done|]. done. }
    destruct (heap_pop ins_leb ins) as [[record ins']|] eqn:Hpop.
    2: { apply heap_pop_none in Hpop as ->. split_and!; [done|done|].
      destruct (decide (m = ∅)) as [->|Hne].
      { unfold entry_count in *. rewrite map_size_empty in *. lia. }
      apply map_choose in Hne as (k & e & Hk).
      apply (entry_has_ins _ _ _ _ Hok), elem_of_nil in Hk. done. }
    pose proof (heap_pop_perm _ _ _ _ Hpop) as Hp.
    pose proof (heap_pop_length _ _ _ _ Hpop) as Hl.
    assert (Hmin : ∀ r, r ∈ ins → ins_generation record ≤ ins_generation r).
    { intros r Hr. apply Z.leb_le.
      apply (heap_pop_min _ ins_leb_refl ins_leb_trans ins_leb_total _ _ _ Hpop r Hr). }
    destruct (evict_record_spec m xs ins next record ins' Hok Hp Hmin) as [Hok' Hcase].
    destruct Hcase as [Heq|[Hold Heq]].
    + rewrite Heq in *. specialize (IH m ins' ltac:(lia) Hmax Hsize Hok').
      destruct (evict_loop fuel max m ins') as [m' ins'']. destruct IH as (I1 & I2 & I3).
      split_and!; [done|lia|]. destruct (Z.ltb_spec (entry_count m) max); [lia|done].
    + rewrite Heq in *. pose proof Hold as (e & He & _).
      pose proof (entry_count_delete m (ins_key record) ltac:(eauto)) as Hc.
      specialize (IH (delete (ins_key record) m) ins' ltac:(lia) Hmax ltac:(lia) Hok').
      destruct (evict_loop fuel max _ ins') as [m' ins'']. destruct IH as (I1 & I2 & I3).
      split_and!; [done|lia|].
      destruct (Z.ltb_spec (entry_count (delete (ins_key record) m)) max); [|lia].
      eauto.
Qed.

(** ** Operations keep the invariant *)

Definition live_map (now : Z) (m : gmap K CacheEntry) : gmap K CacheEntry :=
  omap (λ e, live_entry now (Some e)) m.

Lemma lookup_live_map now m k : live_map now m !! k = live_entry now (m !! k).
Proof. unfold live_map. rewrite lookup_omap. by destruct (m !! k). Qed.

Lemma live_map_subseteq now m : live_map now m ⊆ m.
Proof.
  apply map_subseteq_spec. intros k e. rewrite lookup_live_map. unfold live_entry.
  destruct (m !! k); [|done]. by destruct (_ <? _).
Qed.

Lemma entry_count_subseteq (m m' : gmap K CacheEntry) :
  m' ⊆ m → entry_count m' ≤ entry_count m.
Proof.
  intros Hs. unfold entry_count. apply inj_le.
  rewrite <- !size_dom. by apply subseteq_size, subseteq_dom.
Qed.

Lemma prune_spec c now :
  heaps_ok (entries c) (expirations c) (insertions c) (next_generation c) →
  let c' := prune_expired_locked c now in
  heaps_ok (entries c') (expirations c') (insertions c') (next_generation c')
  ∧ entries c' = live_map now (entries c)
  ∧ (length (expirations c') ≤ length (expirations c))%nat
  ∧ insertions c' = insertions c ∧ max_entries c' = max_entries c
  ∧ next_generation c' = next_generation c ∧ ttl c' = ttl c.
Proof.
  intros Hok. unfold prune_expired_locked.
  pose proof (prune_loop_spec (length (expirations c)) now (entries c) (expirations c)
    (insertions c) (next_generation c) ltac:(lia) Hok) as Hs.
  destruct (prune_loop _ _ _ _) as [m xs]. simpl. destruct Hs as (H1 & H2 & H3).
  split_and!; try done. apply map_eq. intros k. by rewrite H3, lookup_live_map.
Qed.

Lemma evict_spec c :
  heaps_ok (entries c) (expirations c) (insertions c) (next_generation c) →
  1 ≤ max_entries c → entry_count (entries c) ≤ max_entries c →
  let c' := evict_excess_locked c in
  heaps_ok (entries c') (expirations c') (insertions c') (next_generation c')
  ∧ (if entry_count (entries c) <? max_entries c then entries c' = entries c
     else ∃ k, oldest (entries c) k ∧ entries c' = delete k (entries c))
  ∧ (length (insertions c') ≤ length (insertions c))%nat
  ∧ expirations c' = expirations c ∧ max_entries c' = max_entries c
  ∧ next_generation c' = next_generation c ∧ ttl c' = ttl c.
Proof.
  intros Hok Hmax Hsize. unfold evict_excess_locked.
  pose proof (evict_loop_spec (length (insertions c)) (max_entries c) (entries c)
    (expirations c) (insertions c) (next_generation c) ltac:(lia) Hmax Hsize Hok) as Hs.
  destruct (evict_loop _ _ _ _) as [m ins]. simpl. destruct Hs as (H1 & H2 & H3).
  by split_and!.
Qed.

Lemma compact_heaps c :
  heaps_ok (entries c) (expirations c) (insertions c) (next_generation c) →
  let c' := maybe_compact_metadata_locked c in
  heaps_ok (entries c') (expirations c') (insertions c') (next_generation c')
  ∧ entries c' = entries c ∧ max_entries c' = max_entries c ∧ ttl c' = ttl c
  ∧ next_generation c' = next_generation c.
Proof.
  intros [H1 H2 H3 H4 H5 H6]. unfold maybe_compact_metadata_locked.
  destruct (Z.eqb_spec (entry_count (entries c)) 0) as [Hz|_].
  - assert (He : entries c = ∅) by (apply map_size_empty_inv; unfold entry_count in Hz; lia).
    simpl. rewrite He in *. split_and!; try done.
    split; intros *; rewrite ?lookup_empty; try done. intros Hr. by apply elem_of_nil in Hr.
  - destruct (_ && _); [by split_and!|]. simpl. split_and!; try done.
    assert (Hx : ∀ k x g, mkExp k x g ∈ map (λ p, mkExp p.1 (expires_at p.2) (generation p.2))
        (map_to_list (entries c)) ↔
      ∃ e, entries c !! k = Some e ∧ expires_at e = x ∧ generation e = g).
    { intros k x g. rewrite list_elem_of_In, in_map_iff. setoid_rewrite <- list_elem_of_In.
      split.
      - intros ([k' e] & [= <- <- <-] & Hin%elem_of_map_to_list). eauto.
      - intros (e & Hk & <- & <-). exists (k, e). by rewrite elem_of_map_to_list. }
    split; [| | |done|done|].
    + intros k e He. apply Hx. eauto.
    + intros k e He. rewrite list_elem_of_In, in_map_iff. exists (k, e).
      by rewrite <- list_elem_of_In, elem_of_map_to_list.
    + intros k e x He (e' & He' & <- & _)%Hx. by simplify_eq.
    + intros [k x g] (e & He & _ & <-)%Hx. simpl. eauto.
Qed.

(** The new insertion of a cache whose heaps are in order. *)
Lemma insert_heaps m xs ins next k v x :
  heaps_ok m xs ins next →
  heaps_ok (<[k := mkEntry v x (next + 1)]> m) (mkExp k x (next + 1) :: xs)
    (mkIns k (next + 1) :: ins) (next + 1).
Proof.
  intros [H1 H2 H3 H4 H5 H6]. split.
  - intros k' e. rewrite lookup_insert. rewrite elem_of_cons. case_decide; [|by eauto].
    intros [= <-]. subst. by left.
  - intros k' e. rewrite lookup_insert. rewrite elem_of_cons. case_decide; [|by eauto].
    intros [= <-]. subst. by left.
  - intros k' e x'. rewrite lookup_insert, elem_of_cons. case_decide.
    + intros [= <-] [[= -> ->]|Hin]; [done|]. apply H6 in Hin. simpl in Hin. lia.
    + intros He [[= -> -> Hg]|Hin]; [done|]. eauto.
  - intros k1 e1 k2 e2. rewrite !lookup_insert. repeat case_decide; subst; try done.
    + intros [= <-] He2%H5. simpl. lia.
    + intros He1%H5 [= <-]. simpl. lia.
    + by eauto.
  - intros k' e. rewrite lookup_insert. case_decide; [by intros [= <-]|].
    intros He%H5. lia.
  - intros r [->|Hr]%elem_of_cons; simpl; [done|]. apply H6 in Hr. lia.
Qed.

(** ** What an insertion does to the live entries *)

(** The reference behaviour: keep the live entries; if the key is new and the
    cache is full, drop the oldest insertion; then store the value. *)
Definition insert_result (max : Z) (live m' : gmap K CacheEntry) (k : K) (e : CacheEntry) :
    Prop :=
  match live !! k with
  | Some _ => m' = <[k := e]> live
  | None =>
      if entry_count live <? max then m' = <[k := e]> live
      else ∃ old, oldest live old ∧ m' = <[k := e]> (delete old live)
  end.

Lemma insert_spec c k v custom now :
  cache_ok c → 1 ≤ max_entries c → next_generation c < u64_max →
  let c' := insert_entry_at c k v custom now in
  let e := mkEntry v (now + default (ttl c) custom) (next_generation c + 1) in
  heaps_ok (entries c') (expirations c') (insertions c') (next_generation c')
  ∧ insert_result (max_entries c) (live_map now (entries c)) (entries c') k e
  ∧ next_generation c' = next_generation c + 1
  ∧ max_entries c' = max_entries c ∧ ttl c' = ttl c.
Proof.
  intros (Hok & Hsize & Hgen) Hmax Hlt. unfold insert_entry_at.
  destruct (Z.eqb_spec (max_entries c) 0); [lia|].
  destruct (prune_spec c now Hok) as (P1 & P2 & _ & P4 & P5 & P6 & P7).
  set (c1 := prune_expired_locked c now) in *.
  assert (Hs1 : entry_count (entries c1) ≤ max_entries c1).
  { rewrite P2, P5. etrans; [|exact Hsize].
    apply entry_count_subseteq, live_map_subseteq. }
  set (c2 := match entries c1 !! k with None => _ | Some _ => c1 end).
  assert (Hc2 : heaps_ok (entries c2) (expirations c2) (insertions c2) (next_generation c2)
    ∧ next_generation c2 = next_generation c ∧ max_entries c2 = max_entries c
    ∧ ttl c2 = ttl c
    ∧ ∀ e, insert_result (max_entries c) (live_map now (entries c))
             (<[k := e]> (entries c2)) k e).
  { unfold c2, insert_result. rewrite <- P2.
    destruct (entries c1 !! k) eqn:Ek; [by split_and!|].
    destruct (evict_spec c1 P1 ltac:(lia) Hs1) as (E1 & E2 & _ & _ & E5 & E6 & E7).
    split_and!; [done|congruence|congruence|congruence|]. intros e. rewrite P5 in E2.
    destruct (_ <? _); [by rewrite E2|]. destruct E2 as (old & Ho & ->). eauto. }
  destruct Hc2 as (Hok2 & G2 & M2 & T2 & Hres). clearbody c2. clear c1 P1 P2 P4 P5 P6 P7 Hs1.
  assert (Hg : sat_add64 (next_generation c2) 1 = next_generation c + 1) by width_lia.
  assert (Hw : wrap64 (next_generation c2 + 1) = next_generation c + 1)
    by (rewrite wrap64_small; width_lia).
  rewrite Hg, Hw, T2.
  match goal with |- context [maybe_compact_metadata_locked ?x] => set (c3 := x) end.
  destruct (compact_heaps c3) as (C1 & C2 & C3 & C4 & C5).
  { subst c3; simpl. rewrite <- G2. by apply insert_heaps. }
  rewrite C2, C3, C4, C5. split_and!; [by rewrite C2, C5 in C1|apply Hres|done|done|done].
Qed.

(** ** Every operation keeps the invariant *)

Definition metadata_bound (c : BoundedTtlCache) : Z := Z.max (4 * max_entries c) 16.
Definition metadata_ok (c : BoundedTtlCache) : Prop :=
  Z.of_nat (length (expirations c)) ≤ metadata_bound c
  ∧ Z.of_nat (length (insertions c)) ≤ metadata_bound c.

Lemma compact_metadata c :
  entry_count (entries c) ≤ max_entries c → metadata_ok (maybe_compact_metadata_locked c).
Proof.
  intros Hsize. unfold maybe_compact_metadata_locked, metadata_ok, metadata_bound.
  assert (0 ≤ entry_count (entries c)) by (unfold entry_count; lia).
  destruct (_ =? 0); [simpl; lia|].
  destruct ((_ <=? _) && _) eqn:E.
  - bool_to_prop. unfold rebuild_threshold, METADATA_REBUILD_FACTOR,
      MIN_METADATA_REBUILD_RECORDS in *. width_lia.
  - simpl. rewrite !length_map, length_map_to_list. unfold entry_count in *. lia.
Qed.

Lemma delete_keys_subseteq (keys : list K) (m : gmap K CacheEntry) :
  fold_left (λ m k, delete k m) keys m ⊆ m.
Proof.
  revert m. induction keys as [|k keys IH]; intros m; [done|]. simpl.
  etrans; [apply IH|apply delete_subseteq].
Qed.

(** Dropping entries and compacting: what [remove], [remove_where],
    [remove_where_kv] and [reap_expired] have in common. *)
Lemma shrink_ok c m :
  cache_ok c → m ⊆ entries c →
  let c' := maybe_compact_metadata_locked (with_entries c m) in
  cache_ok c' ∧ metadata_ok c' ∧ max_entries c' = max_entries c
  ∧ next_generation c' = next_generation c ∧ entries c' = m ∧ ttl c' = ttl c.
Proof.
  intros (Hok & Hsize & Hgen) Hs.
  pose proof (entry_count_subseteq _ _ Hs) as Hle.
  destruct (compact_heaps (with_entries c m)) as (C1 & C2 & C3 & C4 & C5).
  { simpl. by eapply heaps_ok_subset. }
  pose proof (compact_metadata (with_entries c m) ltac:(simpl; lia)).
  unfold cache_ok. rewrite C2, C3, C5 in *. simpl in *. by split_and!; try lia.
Qed.

Lemma prune_ok c now :
  cache_ok c → metadata_ok c →
  let c' := prune_expired_locked c now in
  cache_ok c' ∧ metadata_ok c' ∧ max_entries c' = max_entries c
  ∧ next_generation c' = next_generation c.
Proof.
  intros (Hok & Hsize & Hgen) [M1 M2].
  destruct (prune_spec c now Hok) as (P1 & P2 & P3 & P4 & P5 & P6 & P7).
  pose proof (entry_count_subseteq _ _ (live_map_subseteq now (entries c))).
  unfold cache_ok, metadata_ok, metadata_bound in *.
  rewrite P4, P5, P6 in *. rewrite P2 in *. split_and!; (done || lia).
Qed.

Lemma entry_count_insert (m : gmap K CacheEntry) k e :
  entry_count (<[k := e]> m) = entry_count m + (if decide (is_Some (m !! k)) then 0 else 1).
Proof.
  unfold entry_count. case_decide as Hd.
  - rewrite map_size_insert_Some by done. lia.
  - rewrite map_size_insert_None by (by apply eq_None_not_Some). lia.
Qed.

Lemma insert_result_count max live m' k e :
  1 ≤ max → entry_count live ≤ max → insert_result max live m' k e →
  entry_count m' ≤ max.
Proof.
  intros Hmax Hsize. unfold insert_result. destruct (live !! k) eqn:E.
  - intros ->. rewrite entry_count_insert, decide_True by eauto. lia.
  - destruct (Z.ltb_spec (entry_count live) max).
    + intros ->. rewrite entry_count_insert, decide_False by (by rewrite E; intros []).
      lia.
    + intros (old & (e' & He' & _) & ->). rewrite entry_count_insert.
      rewrite entry_count_delete by eauto. case_decide; lia.
Qed.

Lemma insert_ok c k v custom now :
  cache_ok c → metadata_ok c → 0 ≤ max_entries c → next_generation c < u64_max →
  let c' := insert_entry_at c k v custom now in
  cache_ok c' ∧ metadata_ok c' ∧ max_entries c' = max_entries c
  ∧ next_generation c' ≤ next_generation c + 1.
Proof.
  intros Hc Hm H0 Hlt. destruct (Z.eqb_spec (max_entries c) 0) as [Hz|Hz].
  { unfold insert_entry_at. rewrite Hz. simpl. split_and!; (done || lia). }
  destruct (insert_spec c k v custom now Hc ltac:(lia) Hlt) as (I1 & I2 & I3 & I4 & _).
  pose proof Hc as (Hok & Hsize & Hgen).
  pose proof (entry_count_subseteq _ _ (live_map_subseteq now (entries c))) as Hl.
  assert (Hcnt : entry_count (entries (insert_entry_at c k v custom now)) ≤ max_entries c)
    by (eapply insert_result_count; [| |exact I2]; lia).
  assert (Hmeta : metadata_ok (insert_entry_at c k v custom now)).
  { unfold insert_entry_at in *. destruct (Z.eqb_spec (max_entries c) 0); [done|].
    match goal with |- context [maybe_compact_metadata_locked ?x] => set (c3 := x) in * end.
    apply compact_metadata.
    assert (entries (maybe_compact_metadata_locked c3) = entries c3
      ∧ max_entries (maybe_compact_metadata_locked c3) = max_entries c3) as [He1 He2].
    { unfold maybe_compact_metadata_locked. by repeat case_match. }
    rewrite He1 in Hcnt. rewrite He2 in I4. lia. }
  unfold cache_ok. rewrite I3, I4 in *. split_and!; (done || lia).
Qed.

(** The operations as values, in the order in which they take the lock. *)
Inductive CacheOp :=
| OpGet (k : K) (now : Z)
| OpInsert (k : K) (v : V) (custom_ttl : option Z) (now : Z)
| OpRemove (k : K)
| OpRemoveWhere (predicate : K → bool)
| OpRemoveWhereKv (predicate : K → V → bool)
| OpClear
| OpReap (now : Z).

(** [None] is a panic, after which nothing runs. *)
Definition cache_step (c : BoundedTtlCache) (op : CacheOp) : option BoundedTtlCache :=
  match op with
  | OpGet k now => Some (get_at c k now).1
  | OpInsert k v custom now => insert_inner_at c k v custom now
  | OpRemove k => Some (remove c k)
  | OpRemoveWhere p => Some (remove_where c p)
  | OpRemoveWhereKv p => Some (remove_where_kv c p)
  | OpClear => Some (clear c)
  | OpReap now => Some (reap_expired c now)
  end.
Fixpoint cache_run (c : BoundedTtlCache) (ops : list CacheOp) : option BoundedTtlCache :=
  match ops with
  | [] => Some c
  | op :: ops => cache_step c op ≫= λ c, cache_run c ops
  end.

(** An insertion whose expiry is an instant. *)
Definition op_in_range (ttl : Z) (op : CacheOp) : Prop :=
  match op with
  | OpInsert _ _ custom now => now + default ttl custom ≤ instant_max
  | _ => True
  end.
(** The step without the panic. *)
Definition step_body (c : BoundedTtlCache) (op : CacheOp) : BoundedTtlCache :=
  match op with
  | OpGet k now => (get_at c k now).1
  | OpInsert k v custom now => insert_entry_at c k v custom now
  | OpRemove k => remove c k
  | OpRemoveWhere p => remove_where c p
  | OpRemoveWhereKv p => remove_where_kv c p
  | OpClear => clear c
  | OpReap now => reap_expired c now
  end.
Lemma cache_step_body c op :
  op_in_range (ttl c) op → cache_step c op = Some (step_body c op).
Proof.
  destruct op as [| k v custom now| | | | |]; simpl; try done. intros Hr.
  unfold insert_inner_at, instant_add.
  destruct (Z.eqb_spec (max_entries c) 0) as [Hz|_].
  - unfold insert_entry_at. by rewrite Hz.
  - by destruct (Z.leb_spec (now + default (ttl c) custom) instant_max); [|lia].
Qed.

Definition cache_inv (c : BoundedTtlCache) : Prop :=
  cache_ok c ∧ metadata_ok c ∧ 0 ≤ max_entries c.

Lemma cache_new_inv max ttl : 0 ≤ max → cache_inv (cache_new max ttl).
Proof.
  intros Hmax. unfold cache_inv, cache_ok, metadata_ok, metadata_bound, entry_count. simpl.
  rewrite map_size_empty. split_and!; try lia.
  split; intros *; rewrite ?lookup_empty; try done. intros Hr. by apply elem_of_nil in Hr.
Qed.

Lemma reap_with_entries c now :
  cache_ok c → reap_expired c now =
    maybe_compact_metadata_locked
      (with_entries (prune_expired_locked c now) (entries (prune_expired_locked c now))).
Proof. intros _. unfold reap_expired. f_equal. by destruct (prune_expired_locked c now). Qed.

Lemma cache_step_inv c op :
  cache_inv c → next_generation c < u64_max →
  cache_inv (step_body c op)
  ∧ max_entries (step_body c op) = max_entries c
  ∧ next_generation (step_body c op) ≤ next_generation c + 1.
Proof.
  intros (Hok & Hm & H0) Hlt. unfold cache_inv.
  destruct op as [k now|k v custom now|k|p|p| |now]; simpl.
  - unfold get_at. destruct (entries c !! k) as [e|]; [|simpl; split_and!; (done||lia)].
    destruct (_ <? _); simpl; [split_and!; (done||lia)|].
    destruct (prune_ok c now Hok Hm) as (? & ? & ? & ?). split_and!; (done||lia).
  - destruct (insert_ok c k v custom now Hok Hm H0 Hlt) as (? & ? & ? & ?).
    split_and!; (done||lia).
  - destruct (shrink_ok c (delete k (entries c)) Hok (delete_subseteq _ _))
      as (? & ? & ? & ? & _). unfold remove. split_and!; (done||lia).
  - edestruct (shrink_ok c) as (? & ? & ? & ? & _); [done|apply delete_keys_subseteq|].
    unfold remove_where. split_and!; (done||lia).
  - edestruct (shrink_ok c) as (? & ? & ? & ? & _); [done|apply delete_keys_subseteq|].
    unfold remove_where_kv. split_and!; (done||lia).
  - destruct Hok as (Hh & Hs & Hg). unfold cache_ok, metadata_ok, metadata_bound, entry_count.
    simpl. rewrite map_size_empty. split_and!; try lia.
    split; intros *; rewrite ?lookup_empty; try done. intros Hr. by apply elem_of_nil in Hr.
  - rewrite reap_with_entries by done.
    destruct (prune_ok c now Hok Hm) as (Hok' & ? & ? & ?).
    destruct (shrink_ok _ _ Hok' (reflexivity (entries (prune_expired_locked c now))))
      as (? & ? & ? & ? & _). split_and!; (done||lia).
Qed.

(** ** The reference cache

    An ordered list of [(key, (value, expiry))], oldest insertion first. *)
Definition Fifo : Type := list (K * (V * Z)).
Definition fifo_live (now : Z) (l : Fifo) : Fifo := filter (λ p, now < p.2.2) l.
Definition fifo_find (l : Fifo) (k : K) : option (V * Z) :=
  (list_to_map l : gmap K (V * Z)) !! k.
Definition fifo_get (l : Fifo) (k : K) (now : Z) : Fifo * option V :=
  match fifo_find l k with
  | None => (l, None)
  | Some (v, x) => if now <? x then (l, Some v) else (fifo_live now l, None)
  end.
Definition fifo_insert (max ttl : Z) (l : Fifo) (k : K) (v : V) (custom : option Z)
    (now : Z) : Fifo :=
  if max =? 0 then l else
  let l1 := fifo_live now l in
  let l2 := if decide (k ∈ l1.*1) then filter (λ p, p.1 ≠ k) l1
            else if Z.of_nat (length l1) <? max then l1 else tail l1 in
  l2 ++ [(k, (v, now + default ttl custom))].
Definition fifo_step (max ttl : Z) (l : Fifo) (op : CacheOp) : Fifo :=
  match op with
  | OpGet k now => (fifo_get l k now).1
  | OpInsert k v custom now => fifo_insert max ttl l k v custom now
  | OpRemove k => filter (λ p, p.1 ≠ k) l
  | OpRemoveWhere f => filter (λ p, f p.1 = false) l
  | OpRemoveWhereKv f => filter (λ p, f p.1 p.2.1 = false) l
  | OpClear => []
  | OpReap now => fifo_live now l
  end.
Definition fifo_run (max ttl : Z) (ops : list CacheOp) : Fifo :=
  fold_left (fifo_step max ttl) ops [].

(** A generation-ordered listing of the entries. *)
Definition gen_lt (p q : K * CacheEntry) : Prop := generation p.2 < generation q.2.
Definition listing (m : gmap K CacheEntry) (g : list (K * CacheEntry)) : Prop :=
  NoDup g.*1 ∧ StronglySorted gen_lt g ∧ ∀ k e, (k, e) ∈ g ↔ m !! k = Some e.
Definition erase (p : K * CacheEntry) : K * (V * Z) := (p.1, (value p.2, expires_at p.2)).
Definition represents (m : gmap K CacheEntry) (l : Fifo) : Prop :=
  ∃ g, listing m g ∧ l = map erase g.

Lemma sorted_filter (P : K * CacheEntry → Prop) `{!∀ p, Decision (P p)} g :
  StronglySorted gen_lt g → StronglySorted gen_lt (filter P g).
Proof.
  induction 1 as [|p g Hg IH Hp]; [constructor|].
  rewrite filter_cons. case_decide; [|done]. constructor; [done|].
  rewrite Forall_forall in Hp |- *. intros q [_ Hq]%list_elem_of_filter. auto.
Qed.

Lemma NoDup_keys_filter {A} (P : K * A → Prop) `{!∀ p, Decision (P p)} g :
  NoDup g.*1 → NoDup (filter P g).*1.
Proof.
  induction g as [|p g IH]; [done|]. rewrite fmap_cons.
  intros [Hn Hg]%NoDup_cons. rewrite filter_cons. case_decide; [|auto].
  rewrite fmap_cons. apply NoDup_cons. split; [|auto]. intros Hin. apply Hn.
  apply list_elem_of_fmap in Hin as (q & -> & [_ Hq]%list_elem_of_filter).
  by apply list_elem_of_fmap_2.
Qed.

Lemma filter_erase (P : K * (V * Z) → Prop) (Q : K * CacheEntry → Prop)
    `{!∀ p, Decision (P p)} `{!∀ p, Decision (Q p)} g :
  (∀ p, P (erase p) ↔ Q p) → filter P (map erase g) = map erase (filter Q g).
Proof.
  intros HPQ. induction g as [|p g IH]; [done|]. simpl.
  rewrite !filter_cons. specialize (HPQ p). rewrite IH. repeat case_decide; (done || tauto).
Qed.

(** Keeping the entries that satisfy a predicate filters the list. *)
Lemma represents_filter m m' l (P : K * (V * Z) → Prop) `{!∀ p, Decision (P p)} :
  represents m l →
  (∀ k e, m' !! k = Some e ↔ m !! k = Some e ∧ P (erase (k, e))) →
  represents m' (filter P l).
Proof.
  intros (g & (H1 & H2 & H3) & ->) Hm. exists (filter (λ p, P (erase p)) g). split.
  - split_and!; [by apply NoDup_keys_filter|by apply sorted_filter|].
    intros k e. rewrite list_elem_of_filter, H3, Hm. tauto.
  - by apply filter_erase.
Qed.

Lemma represents_live m l now :
  represents m l → represents (live_map now m) (fifo_live now l).
Proof.
  intros Hr. apply (represents_filter m); [done|]. intros k e.
  rewrite lookup_live_map. unfold live_entry. simpl.
  destruct (m !! k) as [e'|]; [|naive_solver].
  destruct (Z.ltb_spec now (expires_at e')); split.
  - by intros [= <-].
  - by intros [? _].
  - done.
  - intros [[= <-] ?]. lia.
Qed.

Lemma represents_find m l k :
  represents m l → fifo_find l k = (λ e, (value e, expires_at e)) <$> m !! k.
Proof.
  intros (g & (H1 & H2 & H3) & ->). unfold fifo_find.
  assert (Hnd : NoDup (map erase g).*1).
  { replace ((map erase g).*1) with (g.*1); [done|].
    clear. induction g; simpl; by f_equal. }
  destruct (m !! k) as [e|] eqn:E; simpl.
  - apply elem_of_list_to_map; [done|]. apply H3 in E.
    change (k, (value e, expires_at e)) with (erase (k, e)). by apply list_elem_of_fmap_2.
  - apply not_elem_of_list_to_map. intros Hin.
    apply list_elem_of_fmap in Hin as (q & -> & Hin).
    apply list_elem_of_fmap in Hin as ([k' e'] & -> & Hin). apply H3 in Hin.
    simpl in *. congruence.
Qed.

Lemma represents_keys m l k : represents m l → k ∈ l.*1 ↔ is_Some (m !! k).
Proof.
  intros (g & (H1 & H2 & H3) & ->). rewrite list_elem_of_fmap. split.
  - intros (q & -> & ([k' e] & -> & Hin)%list_elem_of_fmap). apply H3 in Hin. eauto.
  - intros [e He]. apply H3 in He. exists (erase (k, e)). split; [done|].
    by apply list_elem_of_fmap_2.
Qed.

Lemma represents_length m l : represents m l → Z.of_nat (length l) = entry_count m.
Proof.
  intros (g & (H1 & H2 & H3) & ->). rewrite length_map. unfold entry_count.
  rewrite <- (length_map_to_list m). f_equal. apply Permutation_length, NoDup_Permutation.
  - by apply NoDup_fmap_1 in H1.
  - apply NoDup_map_to_list.
  - intros [k e]. by rewrite H3, elem_of_map_to_list.
Qed.

(** The oldest insertion is the head of the list. *)
Lemma represents_tail m l k :
  represents m l → oldest m k → represents (delete k m) (tail l).
Proof.
  intros (g & (H1 & H2 & H3) & ->) (e & He & Hold).
  destruct g as [|[k' e'] g]. { apply H3, elem_of_nil in He. done. }
  simpl in H1. apply NoDup_cons in H1 as [Hn H1].
  apply StronglySorted_inv in H2 as [H2 Hall]. rewrite Forall_forall in Hall.
  assert (k' = k) as ->.
  { apply H3, elem_of_cons in He as [[= -> ->]|Hin]; [done|].
    apply Hall in Hin. unfold gen_lt in Hin. simpl in Hin.
    specialize (Hold k' e' ltac:(apply H3, elem_of_cons; by left)). lia. }
  exists g. split; [|done]. split_and!; [done|done|]. intros k'' e''.
  rewrite lookup_delete_Some, <- H3, elem_of_cons. split; [|naive_solver].
  intros Hin. split; [|by right]. intros <-. apply Hn.
  by apply (list_elem_of_fmap_2 fst) in Hin.
Qed.

Lemma sorted_snoc g p :
  StronglySorted gen_lt g → (∀ q, q ∈ g → gen_lt q p) → StronglySorted gen_lt (g ++ [p]).
Proof.
  induction 1 as [|q g Hg IH Hq]; intros Hlast; simpl; [repeat constructor|].
  constructor.
  - apply IH. intros q' Hq'. apply Hlast, elem_of_cons. by right.
  - apply Forall_app. split; [done|]. constructor; [|done]. apply Hlast, elem_of_cons. by left.
Qed.

Lemma represents_snoc m l k e :
  represents m l → m !! k = None → (∀ k' e', m !! k' = Some e' → generation e' < generation e) →
  represents (<[k := e]> m) (l ++ [(k, (value e, expires_at e))]).
Proof.
  intros (g & (H1 & H2 & H3) & ->) Hk Hg. exists (g ++ [(k, e)]). split.
  - split_and!.
    + rewrite fmap_app. apply NoDup_app. split_and!; [done| |apply NoDup_singleton].
      intros k' Hin Hs%list_elem_of_singleton. simpl in Hs. subst k'.
      apply list_elem_of_fmap in Hin as ([k' e'] & -> & Hin). apply H3 in Hin.
      simpl in *. congruence.
    + apply sorted_snoc; [done|]. intros [k' e'] Hin. apply H3, Hg in Hin. done.
    + intros k' e'. rewrite elem_of_app, list_elem_of_singleton, H3, lookup_insert.
      case_decide; subst; naive_solver.
  - by rewrite map_app.
Qed.

(** ** Each operation refines its reference *)

Lemma lookup_delete_keys (keys : list K) (m : gmap K CacheEntry) k e :
  fold_left (λ m k, delete k m) keys m !! k = Some e ↔ m !! k = Some e ∧ k ∉ keys.
Proof.
  revert m. induction keys as [|k' keys IH]; intros m; simpl.
  { split; [|by intros []]. intros Hm. split; [done|]. apply not_elem_of_nil. }
  rewrite IH, lookup_delete_Some, not_elem_of_cons. naive_solver.
Qed.

Lemma represents_delete m l k :
  represents m l → represents (delete k m) (filter (λ p, p.1 ≠ k) l).
Proof.
  intros Hr. apply (represents_filter m); [done|]. intros k' e'. simpl.
  rewrite lookup_delete_Some. naive_solver.
Qed.

Lemma represents_remove_where m l (f : K → V → bool) :
  represents m l →
  represents
    (fold_left (λ m k, delete k m)
       (filter (λ p, f p.1 (value p.2) = true) (map_to_list m)).*1 m)
    (filter (λ p, f p.1 p.2.1 = false) l).
Proof.
  intros Hr. apply (represents_filter m); [done|]. intros k e. simpl.
  rewrite lookup_delete_keys, list_elem_of_fmap. split; intros [Hk Hf]; split; try done.
  - destruct (f k (value e)) eqn:E; [|done]. destruct Hf. exists (k, e).
    by rewrite list_elem_of_filter, elem_of_map_to_list.
  - intros ([k' e'] & -> & [Ht Hm%elem_of_map_to_list]%list_elem_of_filter).
    simpl in *. simplify_eq. congruence.
Qed.

Lemma live_count_le now c :
  cache_ok c → entry_count (live_map now (entries c)) ≤ max_entries c.
Proof.
  intros (_ & Hs & _).
  pose proof (entry_count_subseteq _ _ (live_map_subseteq now (entries c))). lia.
Qed.

Lemma insert_refines c l k v custom now :
  cache_inv c → next_generation c < u64_max → represents (entries c) l →
  represents (entries (insert_entry_at c k v custom now))
    (fifo_insert (max_entries c) (ttl c) l k v custom now)
  ∧ ttl (insert_entry_at c k v custom now) = ttl c.
Proof.
  intros (Hok & Hm & H0) Hlt Hr. unfold fifo_insert.
  destruct (Z.eqb_spec (max_entries c) 0) as [Hz|Hz].
  { unfold insert_entry_at. by rewrite Hz. }
  destruct (insert_spec c k v custom now Hok ltac:(lia) Hlt) as (_ & I2 & _ & _ & I5).
  split; [|done]. apply (represents_live _ _ now) in Hr.
  set (e := mkEntry v _ _) in I2. set (live := live_map now (entries c)) in *.
  assert (Hg : ∀ k' e', live !! k' = Some e' → generation e' < generation e).
  { intros k' e' He'. apply (map_subseteq_spec live (entries c)) in He';
      [|apply live_map_subseteq].
    destruct Hok as (Hok & _ & _). apply (gen_bound _ _ _ _ Hok) in He'. simpl. lia. }
  change (k, (v, now + default (ttl c) custom)) with (k, (value e, expires_at e)).
  assert (Hdel : ∀ d m, m = delete d live → ∀ k' e', m !! k' = Some e' →
      generation e' < generation e).
  { intros d m -> k' e' [_ He']%lookup_delete_Some. eauto. }
  unfold insert_result in I2. pose proof (represents_keys _ _ k Hr) as Hkeys.
  rewrite (represents_length _ _ Hr). destruct (live !! k) as [e0|] eqn:Ek.
  - rewrite decide_True by (apply Hkeys; eauto). rewrite I2.
    rewrite <- (insert_delete_eq live k e).
    apply represents_snoc; [by apply represents_delete|apply lookup_delete_eq|eauto].
  - rewrite decide_False by (rewrite Hkeys; by intros []).
    destruct (entry_count live <? max_entries c).
    + rewrite I2. by apply represents_snoc.
    + destruct I2 as (old & Hold & ->). apply represents_snoc; [|by rewrite lookup_delete_None; right|eauto].
      by apply represents_tail.
Qed.

Lemma get_refines c l k now :
  cache_inv c → represents (entries c) l →
  represents (entries (get_at c k now).1) (fifo_get l k now).1
  ∧ (get_at c k now).2 = (fifo_get l k now).2
  ∧ ttl (get_at c k now).1 = ttl c.
Proof.
  intros ((Hok & _) & _) Hr. unfold get_at, fifo_get. rewrite (represents_find _ _ k Hr).
  destruct (entries c !! k) as [e|] eqn:E; simpl; [|done].
  destruct (now <? expires_at e) eqn:En; simpl; [done|].
  destruct (prune_spec c now Hok) as (_ & P2 & _ & _ & _ & _ & P7).
  unfold live_value. rewrite P2, lookup_live_map, E. simpl. rewrite En.
  split_and!; [by apply represents_live|done|done].
Qed.

Lemma cache_step_refines c l op :
  cache_inv c → next_generation c < u64_max → represents (entries c) l →
  represents (entries (step_body c op)) (fifo_step (max_entries c) (ttl c) l op)
  ∧ ttl (step_body c op) = ttl c.
Proof.
  intros Hinv Hlt Hr. pose proof Hinv as (Hok & Hm & H0).
  destruct op as [k now|k v custom now|k|f|f| |now]; simpl.
  - destruct (get_refines c l k now Hinv Hr) as (? & _ & ?). done.
  - by apply insert_refines.
  - destruct (shrink_ok c (delete k (entries c)) Hok (delete_subseteq _ _))
      as (_ & _ & _ & _ & He & Ht). unfold remove. rewrite He.
    split; [by apply represents_delete|done].
  - edestruct (shrink_ok c) as (_ & _ & _ & _ & He & Ht);
      [done|apply delete_keys_subseteq|].
    unfold remove_where. rewrite He. split; [|done].
    by apply (represents_remove_where _ _ (λ k _, f k)).
  - edestruct (shrink_ok c) as (_ & _ & _ & _ & He & Ht);
      [done|apply delete_keys_subseteq|].
    unfold remove_where_kv. rewrite He. split; [|done]. by apply represents_remove_where.
  - split; [|done]. exists []. split; [|done]. split_and!; [constructor|constructor|].
    intros k e. rewrite lookup_empty. split; [intros ?%elem_of_nil|]; done.
  - rewrite reap_with_entries by done.
    destruct (prune_ok c now Hok Hm) as (Hok' & _).
    destruct (shrink_ok _ _ Hok' (reflexivity (entries (prune_expired_locked c now))))
      as (_ & _ & _ & _ & He & Ht). rewrite He, Ht.
    destruct Hok as (Hh & _). destruct (prune_spec c now Hh) as (_ & P2 & _ & _ & _ & _ & P7).
    rewrite P2. split; [by apply represents_live|done].
Qed.

Lemma cache_run_refines ops : ∀ c l,
  cache_inv c → next_generation c + Z.of_nat (length ops) ≤ u64_max →
  represents (entries c) l → Forall (op_in_range (ttl c)) ops →
  ∃ c', cache_run c ops = Some c' ∧ cache_inv c' ∧ max_entries c' = max_entries c
    ∧ represents (entries c') (fold_left (fifo_step (max_entries c) (ttl c)) ops l).
Proof.
  induction ops as [|op ops IH]; intros c l Hc Hlen Hr Hall; simpl in *; [by exists c|].
  apply Forall_cons in Hall as [Hop Hall].
  destruct (cache_step_inv c op Hc ltac:(lia)) as (H1 & H2 & H3).
  destruct (cache_step_refines c l op Hc ltac:(lia) Hr) as [R1 R2].
  rewrite (cache_step_body c op Hop). cbn [mbind option_bind].
  rewrite <- R2 in Hall.
  destruct (IH (step_body c op) _ H1 ltac:(lia) R1 Hall) as (c' & E & I & M & R).
  exists c'. rewrite H2, R2 in *. done.
Qed.

Lemma represents_new : represents ∅ [].
Proof.
  exists []. split; [|done]. split_and!; [constructor|constructor|].
  intros k e. rewrite lookup_empty. split; [intros ?%elem_of_nil|]; done.
Qed.

(** After any sequence of gets, inserts, removals, clears and reaps, the
    cache holds at most [max_entries] entries, and the two metadata heaps
    hold at most [max (4 * max_entries) 16] records each, however many
    insertions were superseded; every entry is still backed by its own
    expiration and insertion record.  The run returns as long as every expiry
    fits an instant. *)
Theorem ttl_cache_bounded (max ttl : Z) (ops : list CacheOp) :
  0 ≤ max → Z.of_nat (length ops) ≤ u64_max → Forall (op_in_range ttl) ops →
  ∃ c, cache_run (cache_new max ttl) ops = Some c
  ∧ entry_count (entries c) ≤ max
  ∧ Z.of_nat (length (expirations c)) ≤ Z.max (4 * max) 16
  ∧ Z.of_nat (length (insertions c)) ≤ Z.max (4 * max) 16
  ∧ heaps_ok (entries c) (expirations c) (insertions c) (next_generation c).
Proof.
  intros Hmax Hlen Hall.
  destruct (cache_run_refines ops (cache_new max ttl) [] (cache_new_inv max ttl Hmax)
    ltac:(done) represents_new Hall) as (c & Hc & ((Hh & Hs & _) & (M1 & M2) & _) & Hm & _).
  exists c. split; [done|]. unfold metadata_bound in *. simpl in Hm. rewrite Hm in *. done.
Qed.

(** C3. The cache with its generation counter and lazily cleaned heaps
    implements an insertion-ordered list: after any sequence of operations
    a lookup returns exactly what the list cache returns, so an unexpired
    value is found unless it was removed, replaced, or evicted as the oldest
    insertion of a full cache, and an expired one never is.  The run returns
    as long as every expiry fits an instant; a later one panics. *)
Theorem ttl_cache_refines_fifo (max ttl : Z) (ops : list CacheOp) (k : K) (now : Z) :
  0 ≤ max → Z.of_nat (length ops) ≤ u64_max → Forall (op_in_range ttl) ops →
  ∃ c, cache_run (cache_new max ttl) ops = Some c
  ∧ represents (entries c) (fifo_run max ttl ops)
  ∧ (get_at c k now).2 = (fifo_get (fifo_run max ttl ops) k now).2.
Proof.
  intros Hmax Hlen Hall.
  destruct (cache_run_refines ops (cache_new max ttl) [] (cache_new_inv max ttl Hmax)
    ltac:(done) represents_new Hall) as (c & Hc & Hi & _ & Hr).
  exists c. split_and!; [done|done|]. by apply get_refines.
Qed.
End cache.

Definition demo_ops : list (CacheOp (K:=nat) (V:=nat)) :=
  [OpInsert 1%nat 10%nat None 0; OpInsert 2%nat 20%nat (Some 3) 0; OpGet 2%nat 1;
   OpInsert 1%nat 11%nat None 1; OpInsert 3%nat 30%nat None 2].

Lemma demo_ops_in_range : Forall (op_in_range 5) demo_ops.
Proof. repeat constructor; vm_compute; discriminate. Qed.

(** Insertions 1, 2, 1 again, 3 into a cache of two: key 2 is the oldest and is
    evicted, the rewritten key 1 stays. *)
Lemma ttl_cache_bounded_witness :
  ∃ c, cache_run (cache_new 2 5) demo_ops = Some c ∧ entry_count (entries c) ≤ 2.
Proof.
  assert (Hl : Z.of_nat (length demo_ops) ≤ u64_max) by (vm_compute; discriminate).
  destruct (ttl_cache_bounded 2 5 demo_ops ltac:(lia) Hl demo_ops_in_range) as (c & Hc & Hn & _).
  exists c. split; [exact Hc|exact Hn].
Defined.

Lemma ttl_cache_refines_fifo_witness :
  ∃ c, cache_run (cache_new 2 5) demo_ops = Some c
  ∧ (get_at c 1%nat 3).2 = Some 11%nat ∧ (get_at c 2%nat 3).2 = None.
Proof.
  assert (Hl : Z.of_nat (length demo_ops) ≤ u64_max) by (vm_compute; discriminate).
  destruct (ttl_cache_refines_fifo 2 5 demo_ops 1%nat 3 ltac:(lia) Hl demo_ops_in_range)
    as (c & Hc & _ & H1).
  destruct (ttl_cache_refines_fifo 2 5 demo_ops 2%nat 3 ltac:(lia) Hl demo_ops_in_range)
    as (c' & Hc' & _ & H2).
  assert (c' = c) as -> by congruence.
  exists c. split; [exact Hc|]. split; [rewrite H1|rewrite H2]; vm_compute; reflexivity.
Defined.
