(* ===== verification/Net.v ===== *)
(** * Net: addresses, allow-lists and the client address of a request
      (src/src/gateway/network.rs, src/src/gateway/rate_limit.rs)

    [std::net::IpAddr] with its parser and printer, the CIDR allow-list over
    the [ipnet] crate's networks (a parameter), [extract_user_id], and
    [extract_client_ip], which walks the [X-Forwarded-For] chain. *)

From Stdlib Require Import ZArith Ascii String.
From stdpp Require Import base gmap sets list strings countable.
From S2P Require Import Prelude Text.

Local Open Scope Z_scope.

(** ** IpAddr

    An IPv4 address is its four octets, an IPv6 address its eight segments. *)
Inductive IpAddr := V4 (octets : list Z) | V6 (segments : list Z).

#[export] Instance IpAddr_eq_dec : EqDecision IpAddr.
Proof. solve_decision. Defined.
#[export] Instance IpAddr_countable : Countable IpAddr.
Proof.
  refine (inj_countable'
    (λ a, match a with V4 l => inl l | V6 l => inr l end)
    (λ s, match s with inl l => V4 l | inr l => V6 l end) _).
  by intros [].
Defined.

(** ** The address parser of the standard library *)

Definition parser (A : Type) : Type := list ascii → option (A * list ascii).

(** [char::to_digit]. *)
Definition to_digit (radix : Z) (a : ascii) : option Z :=
  let n := Z.of_N (N_of_ascii a) in
  let d := if (48 <=? n) && (n <=? 57) then Some (n - 48)
           else if (97 <=? n) && (n <=? 122) then Some (n - 87)
           else if (65 <=? n) && (n <=? 90) then Some (n - 55)
           else None in
  match d with Some d => if d <? radix then Some d else None | None => None end.

(** The longest run of digits and what follows it. *)
Fixpoint read_digits (radix : Z) (s : list ascii) : list Z * list ascii :=
  match s with
  | [] => ([], [])
  | a :: s1 =>
      match to_digit radix a with
      | Some d => let '(ds, rest) := read_digits radix s1 in (d :: ds, rest)
      | None => ([], s)
      end
  end.
Definition digits_value (radix : Z) (ds : list Z) : Z :=
  fold_left (λ acc d, acc * radix + d) ds 0.

(** [read_number]: at most [max_digits] digits, a leading zero only where it is
    allowed, and a value below [bound]. *)
Definition read_number (radix : Z) (max_digits : nat) (allow_zero_prefix : bool)
    (bound : Z) : parser Z := λ s,
  let '(ds, rest) := read_digits radix s in
  if (max_digits <? length ds)%nat then None else
  match ds with
  | [] => None
  | d :: _ =>
      if negb allow_zero_prefix && (d =? 0) && (1 <? length ds)%nat then None else
      let v := digits_value radix ds in
      if v <? bound then Some (v, rest) else None
  end.

Definition read_given_char (c : ascii) (s : list ascii) : option (list ascii) :=
  match s with a :: s1 => if Ascii.eqb a c then Some s1 else None | [] => None end.

(** [read_separator]: the separator is read before every item but the first. *)
Definition read_separator {A} (sep : ascii) (index : nat) (p : parser A) : parser A := λ s,
  match index with
  | O => p s
  | S _ => match read_given_char sep s with Some s1 => p s1 | None => None end
  end.

Fixpoint read_octets (n i : nat) : parser (list Z) := λ s,
  match n with
  | O => Some ([], s)
  | S n =>
      match read_separator "."%char i (read_number 10 3 false 256) s with
      | None => None
      | Some (o, s1) =>
          match read_octets n (S i) s1 with
          | None => None
          | Some (os, s2) => Some (o :: os, s2)
          end
      end
  end.
Definition read_ipv4_addr : parser (list Z) := read_octets 4 0.

(** [read_groups]: up to [n] more groups, the next being group [i] of [limit];
    the flag says whether the last two came from an embedded IPv4 address. *)
Fixpoint read_groups (n i limit : nat) (s : list ascii) : list Z * bool * list ascii :=
  match n with
  | O => ([], false, s)
  | S n =>
      let group := λ _ : unit,
        match read_separator ":"%char i (read_number 16 4 true 65536) s with
        | None => ([], false, s)
        | Some (g, s1) =>
            let '(gs, v4, s2) := read_groups n (S i) limit s1 in (g :: gs, v4, s2)
        end in
      if (i <? limit - 1)%nat then
        match read_separator ":"%char i read_ipv4_addr s with
        | Some ([a; b; c; d], s1) => ([a * 256 + b; c * 256 + d], true, s1)
        | _ => group ()
        end
      else group ()
  end.
Definition read_ipv6_addr : parser (list Z) := λ s,
  let '(head, head_v4, s1) := read_groups 8 0 8 s in
  if (length head =? 8)%nat then Some (head, s1) else
  if head_v4 then None else
  match read_given_char ":"%char s1 with
  | None => None
  | Some s2 =>
      match read_given_char ":"%char s2 with
      | None => None
      | Some s3 =>
          let limit := (8 - (length head + 1))%nat in
          let '(tail, _, s4) := read_groups limit 0 limit s3 in
          Some (head ++ replicate (8 - length head - length tail) 0 ++ tail, s4)
      end
  end.

(** [str::parse::<IpAddr>]. *)
Definition parse_ip (text : string) : option IpAddr :=
  let s := list_ascii_of_string text in
  match read_ipv4_addr s with
  | Some (o, rest) => match rest with [] => Some (V4 o) | _ => None end
  | None =>
      match read_ipv6_addr s with
      | Some (g, rest) => match rest with [] => Some (V6 g) | _ => None end
      | None => None
      end
  end.

(** ** Printing *)

Definition digit_char (d : Z) : ascii :=
  ascii_of_N (Z.to_N (if d <? 10 then 48 + d else 87 + d)).
(** At most 3 decimal digits, at most 4 hexadecimal ones, no leading zero. *)
Fixpoint print_radix (fuel : nat) (radix z : Z) : list ascii :=
  match fuel with
  | O => []
  | S fuel =>
      if z <? radix then [digit_char z]
      else print_radix fuel radix (z / radix) ++ [digit_char (z mod radix)]
  end.
Fixpoint join_with (sep : ascii) (parts : list (list ascii)) : list ascii :=
  match parts with
  | [] => []
  | [p] => p
  | p :: ps => p ++ sep :: join_with sep ps
  end.
Definition print_v4 (o : list Z) : list ascii :=
  join_with "."%char (map (print_radix 3 10) o).

(** The first longest run of zero segments, as (start, length). *)
Fixpoint zero_span (i : nat) (segs : list Z) (current longest : nat * nat) : nat * nat :=
  match segs with
  | [] => longest
  | g :: segs =>
      if g =? 0 then
        let current := if (current.2 =? 0)%nat then (i, 1%nat) else (current.1, S current.2) in
        zero_span (S i) segs current
          (if (longest.2 <? current.2)%nat then current else longest)
      else zero_span (S i) segs (0%nat, 0%nat) longest
  end.
Definition print_segments (segs : list Z) : list ascii :=
  join_with ":"%char (map (print_radix 4 16) segs).
Definition print_v6 (segs : list Z) : list ascii :=
  match segs with
  | [0; 0; 0; 0; 0; 65535; ab; cd] =>
      list_ascii_of_string "::ffff:"
        ++ print_v4 [ab / 256; ab mod 256; cd / 256; cd mod 256]
  | _ =>
      let '(start, len) := zero_span 0 segs (0%nat, 0%nat) (0%nat, 0%nat) in
      if (1 <? len)%nat
      then print_segments (take start segs) ++ [":"; ":"]%char
             ++ print_segments (drop (start + len) segs)
      else print_segments segs
  end.
(** [ip.to_string()]. *)
Definition ip_to_string (ip : IpAddr) : string :=
  string_of_list_ascii (match ip with V4 o => print_v4 o | V6 g => print_v6 g end).

Example print_ip_ex1 :
  ip_to_string (V6 [8193; 3512; 0; 0; 0; 65280; 66; 33577]) = "2001:db8::ff00:42:8329"%string.
Proof. reflexivity. Qed.
Example print_ip_ex2 : ip_to_string (V6 [0; 0; 0; 0; 0; 65535; 49152; 513])
  = "::ffff:192.0.2.1"%string.
Proof. reflexivity. Qed.
Example print_ip_ex3 : ip_to_string (V6 [1; 0; 0; 2; 0; 0; 0; 3]) = "1:0:0:2::3"%string.
Proof. reflexivity. Qed.

Example parse_ip_ex1 : parse_ip "10.0.0.1" = Some (V4 [10; 0; 0; 1]).
Proof. reflexivity. Qed.
Example parse_ip_ex2 : parse_ip "2001:db8::ff00:42:8329"
  = Some (V6 [8193; 3512; 0; 0; 0; 65280; 66; 33577]).
Proof. reflexivity. Qed.
Example parse_ip_ex3 : parse_ip "::ffff:192.0.2.1" = Some (V6 [0; 0; 0; 0; 0; 65535; 49152; 513]).
Proof. reflexivity. Qed.
Example parse_ip_ex4 : parse_ip "10.0.0.01" = None.
Proof. reflexivity. Qed.
Example parse_ip_ex5 : parse_ip "::1" = Some (V6 [0; 0; 0; 0; 0; 0; 0; 1]).
Proof. reflexivity. Qed.
Example parse_ip_ex6 : parse_ip "10.0.0.256" = None.
Proof. reflexivity. Qed.

(** ** Printing and parsing an IPv4 address *)

Definition octet_ok (o : Z) : Prop := 0 ≤ o < 256.

Lemma read_digits_app radix l ds rest :
  map (to_digit radix) l = map Some ds →
  match rest with [] => True | a :: _ => to_digit radix a = None end →
  read_digits radix (l ++ rest) = (ds, rest).
Proof.
  intros Hl Hrest. revert ds Hl. induction l as [|a l IH]; intros [|d ds]; try done; simpl.
  - intros _. destruct rest as [|a rest]; [done|]. simpl. by rewrite Hrest.
  - intros [= Ha Hl]. by rewrite Ha, (IH ds Hl).
Qed.

(** Checked on all 256 octets: the printed digits are digits, at most three,
    without a leading zero, and denote the octet. *)
Definition octet_prints (o : Z) : bool :=
  let l := print_radix 3 10 o in
  let ds := omap (to_digit 10) l in
  bool_decide (map (to_digit 10) l = map Some ds) && (length ds <=? 3)%nat &&
  match ds with
  | [] => false
  | d :: _ => negb ((d =? 0) && (1 <? length ds)%nat)
  end && (digits_value 10 ds =? o).

Lemma octet_prints_all o : octet_ok o → octet_prints o = true.
Proof.
  intros Ho.
  assert (Hall : forallb (λ n, octet_prints (Z.of_nat n)) (seq 0 256) = true)
    by (vm_compute; reflexivity).
  rewrite forallb_forall in Hall. unfold octet_ok in Ho.
  specialize (Hall (Z.to_nat o)). rewrite Z2Nat.id in Hall by lia.
  apply Hall, in_seq. lia.
Qed.

Lemma read_printed_octet o rest :
  octet_ok o → match rest with [] => True | a :: _ => to_digit 10 a = None end →
  read_number 10 3 false 256 (print_radix 3 10 o ++ rest) = Some (o, rest).
Proof.
  intros Ho Hrest. pose proof (octet_prints_all o Ho) as Hp. unfold octet_prints in Hp.
  set (l := print_radix 3 10 o) in *. set (ds := omap (to_digit 10) l) in *.
  clearbody ds l. apply andb_true_iff in Hp as [Hp Hv].
  apply andb_true_iff in Hp as [Hp Hz]. apply andb_true_iff in Hp as [Hm Hl].
  apply bool_decide_eq_true in Hm. apply Nat.leb_le in Hl. apply Z.eqb_eq in Hv.
  unfold read_number. rewrite (read_digits_app 10 l ds rest Hm Hrest).
  destruct (Nat.ltb_spec 3 (length ds)); [lia|].
  destruct ds as [|d ds]; [done|]. simpl negb at 1. rewrite andb_true_l.
  apply negb_true_iff in Hz. rewrite Hz, Hv.
  destruct (Z.ltb_spec o 256); [done|]. unfold octet_ok in Ho. lia.
Qed.

(** [IpAddr]'s parser reads back every printed IPv4 address. *)
Lemma ipv4_roundtrip (a b c d : Z) :
  octet_ok a → octet_ok b → octet_ok c → octet_ok d →
  parse_ip (string_of_list_ascii (print_v4 [a; b; c; d])) = Some (V4 [a; b; c; d]).
Proof.
  intros Ha Hb Hc Hd. unfold parse_ip. rewrite list_ascii_of_string_of_list_ascii.
  unfold print_v4. cbn [map join_with].
  rewrite <- (app_nil_r (print_radix 3 10 d)).
  unfold read_ipv4_addr. cbn [read_octets read_separator].
  do 3 (rewrite read_printed_octet by done;
        cbn [read_given_char]; rewrite Ascii.eqb_refl).
  by rewrite read_printed_octet.
Qed.

(** ** Networks *)

Section networks.
(** The [ipnet] crate: its networks, their parser and membership test. *)
Context {IpNet : Type}.
Variable parse_net : string → option IpNet.
Variable net_of_ip : IpAddr → IpNet.
Variable contains : IpNet → IpAddr → bool.

Definition parse_ip_network (kind entry : string) : Result IpNet string :=
  match parse_net entry with
  | Some n => Ok n
  | None =>
      match parse_ip entry with
      | Some ip => Ok (net_of_ip ip)
      | None => Err ("invalid " +:+ kind +:+ " CIDR or IP '" +:+ entry +:+ "': "
                     +:+ "invalid IP address syntax")%string
      end
  end.
(** [collect] into a [Result]: the first error wins. *)
Fixpoint parse_ip_networks (entries : list string) (kind : string) :
    Result (list IpNet) string :=
  match entries with
  | [] => Ok []
  | e :: es =>
      match parse_ip_network kind e with
      | Err m => Err m
      | Ok n => match parse_ip_networks es kind with
                | Err m => Err m
                | Ok ns => Ok (n :: ns)
                end
      end
  end.
Definition parse_ip_allowlist (cidrs : list string) : Result (list IpNet) string :=
  parse_ip_networks cidrs "allowlist".
Definition parse_trusted_proxy_cidrs (cidrs : list string) : Result (list IpNet) string :=
  parse_ip_networks cidrs "trusted proxy".

Definition ip_is_allowlisted (ip : IpAddr) (allowlist : list IpNet) : bool :=
  existsb (λ network, contains network ip) allowlist.
Definition peer_is_trusted_proxy (peer : IpAddr) (trusted : list IpNet) : bool :=
  negb (match trusted with [] => true | _ => false end) && ip_is_allowlisted peer trusted.

(** [extract_user_id]; [header_get] is [headers.get] with [to_str]. *)
Fixpoint extract_user_id (header_get : string → option (option string))
    (header_names : list string) : option string :=
  match header_names with
  | [] => None
  | n :: ns =>
      match header_get n with
      | Some (Some parsed) =>
          let trimmed := trim parsed in
          if is_empty trimmed then extract_user_id header_get ns else Some trimmed
      | _ => extract_user_id header_get ns
      end
  end.

(** ** The client address *)

(** [value.split(',')]. *)
Fixpoint split_comma (acc : list ascii) (s : string) : list string :=
  match s with
  | EmptyString => [string_of_list_ascii (rev acc)]
  | String a s1 =>
      if Ascii.eqb a ","%char
      then string_of_list_ascii (rev acc) :: split_comma [] s1
      else split_comma (a :: acc) s1
  end.

(** The addresses of one header value; [None] when one does not parse. *)
Fixpoint parse_candidates (cs : list string) : option (list IpAddr) :=
  match cs with
  | [] => Some []
  | c :: cs =>
      match parse_ip (trim c) with
      | None => None
      | Some ip => (λ l, ip :: l) <$> parse_candidates cs
      end
  end.
(** The addresses of all [X-Forwarded-For] values, in order; a value that is
    not text is [None]. *)
Fixpoint parse_forwarded (values : list (option string)) : option (list IpAddr) :=
  match values with
  | [] => Some []
  | None :: _ => None
  | Some v :: vs =>
      match parse_candidates (split_comma [] v) with
      | None => None
      | Some l => (λ l', l ++ l') <$> parse_forwarded vs
      end
  end.

(** The final loop: move left while the current hop is trusted. *)
Fixpoint walk_left (trusted : list IpNet) (current : IpAddr) (hops : list IpAddr) : IpAddr :=
  match hops with
  | [] => current
  | candidate :: hops =>
      if negb (ip_is_allowlisted current trusted) then current
      else walk_left trusted candidate hops
  end.

Definition extract_client_ip (forwarded_values : list (option string))
    (trusted_proxies : list IpNet) (peer_ip : IpAddr) : IpAddr :=
  if negb (ip_is_allowlisted peer_ip trusted_proxies) then peer_ip else
  match forwarded_values with
  | [] => peer_ip
  | _ =>
      match parse_forwarded forwarded_values with
      | None => peer_ip
      | Some forwarded => walk_left trusted_proxies peer_ip (rev forwarded)
      end
  end.

(** The chain of hops read from the right: the result is the first untrusted
    one, or the leftmost if all are trusted. *)
Lemma walk_left_spec trusted peer hops :
  let chain := peer :: hops in
  ∃ pre post,
    chain = pre ++ walk_left trusted peer hops :: post
    ∧ Forall (λ ip, ip_is_allowlisted ip trusted = true) pre
    ∧ (ip_is_allowlisted (walk_left trusted peer hops) trusted = false ∨ post = []).
Proof.
  simpl. revert peer. induction hops as [|h hops IH]; intros peer; simpl.
  - exists [], []. split_and!; [done|constructor|by right].
  - destruct (ip_is_allowlisted peer trusted) eqn:E; simpl.
    + destruct (IH h) as (pre & post & Heq & Hpre & Hpost). exists (peer :: pre), post.
      split_and!; [by rewrite Heq|by constructor|done].
    + exists [], (h :: hops). split_and!; [done|constructor|by left].
Qed.

Lemma walk_left_stops trusted peer trusted_hops h left_hops :
  ip_is_allowlisted peer trusted = true →
  Forall (λ ip, ip_is_allowlisted ip trusted = true) trusted_hops →
  ip_is_allowlisted h trusted = false →
  walk_left trusted peer (trusted_hops ++ h :: left_hops) = h.
Proof.
  intros Hp Hall Hh. revert peer Hp. induction Hall as [|t ts Ht _ IH]; intros peer Hp; simpl.
  - rewrite Hp. simpl. destruct left_hops; simpl; [done|]. by rewrite Hh.
  - rewrite Hp. simpl. by apply IH.
Qed.

(** The client address is the rightmost untrusted hop: when the direct
    peer is a trusted proxy and the header parses, the result is a hop of
    [X-Forwarded-For] followed by the peer, everything to its right is
    trusted, and it is untrusted itself unless the whole chain is trusted.
    In every other case (untrusted peer, no header, a value that does not
    parse) it is the peer. *)
Theorem client_ip_rightmost_untrusted (values : list (option string))
    (trusted : list IpNet) (peer : IpAddr) :
  let ip := extract_client_ip values trusted peer in
  match parse_forwarded values with
  | Some forwarded =>
      if ip_is_allowlisted peer trusted && negb (bool_decide (values = [])) then
        ∃ left right,
          forwarded ++ [peer] = left ++ ip :: right
          ∧ Forall (λ h, ip_is_allowlisted h trusted = true) right
          ∧ (ip_is_allowlisted ip trusted = false ∨ left = [])
      else ip = peer
  | None => ip = peer
  end.
Proof.
  cbv zeta. unfold extract_client_ip.
  destruct (ip_is_allowlisted peer trusted) eqn:Ep; simpl.
  - destruct values as [|v vs]; [done|].
    destruct (parse_forwarded (v :: vs)) as [forwarded|]; [|done]. simpl.
    destruct (walk_left_spec trusted peer (rev forwarded)) as (pre & post & Heq & Hpre & Hpost).
    exists (rev post), (rev pre). split_and!.
    + apply (f_equal (@rev _)) in Heq. simpl in Heq.
      rewrite rev_involutive, rev_app_distr in Heq. rewrite Heq. simpl.
      by rewrite <- app_assoc.
    + apply Forall_rev. exact Hpre.
    + destruct Hpost as [?| ->]; [by left|by right].
  - by destruct (parse_forwarded values).
Qed.

(** A client cannot choose its address: the hops a client puts into
    [X-Forwarded-For] end up to the left of its own address, and whatever
    they are, once a trusted proxy has appended the untrusted address [h]
    and only trusted proxies have appended after that, the result is [h]. *)
Theorem client_ip_unspoofable (values : list (option string)) (trusted : list IpNet)
    (peer h : IpAddr) (spoofed proxies : list IpAddr) :
  ip_is_allowlisted peer trusted = true →
  parse_forwarded values = Some (spoofed ++ h :: proxies) →
  ip_is_allowlisted h trusted = false →
  Forall (λ ip, ip_is_allowlisted ip trusted = true) proxies →
  extract_client_ip values trusted peer = h.
Proof.
  intros Hp Hv Hh Hall. unfold extract_client_ip. rewrite Hp. simpl.
  destruct values as [|v vs]; [by destruct spoofed|]. rewrite Hv.
  rewrite rev_app_distr. simpl. rewrite <- app_assoc. simpl.
  apply walk_left_stops; [done|by apply Forall_rev|done].
Qed.
End networks.

(** A concrete network type for the examples: a set of addresses. *)
Definition host_contains (n : list IpAddr) (ip : IpAddr) : bool :=
  existsb (λ x, bool_decide (x = ip)) n.

Lemma client_ip_unspoofable_witness :
  extract_client_ip host_contains [Some "1.2.3.4, 203.0.113.9 , 10.0.0.2"%string]
    [[V4 [10; 0; 0; 1]; V4 [10; 0; 0; 2]]] (V4 [10; 0; 0; 1]) = V4 [203; 0; 113; 9].
Proof.
  apply (client_ip_unspoofable host_contains _ _ _ _ [V4 [1; 2; 3; 4]] [V4 [10; 0; 0; 2]]).
  - reflexivity.
  - reflexivity.
  - reflexivity.
  - repeat constructor.
Defined.
