(* ===== verification/RateWindow.v ===== *)
(** * RateWindow: fixed-window request counters (src/src/gateway/rate_limit.rs)

    [GlobalRateLimiter] (an atomic counter and a window start behind a mutex),
    and the keyed limiters [IpRateLimiter], [UserRateLimiter] and the per-token
    [TokenRateLimiter], whose buckets live in one locked map.  Instants are
    nanoseconds; [Instant::duration_since] clamps at zero. *)

From Stdlib Require Import ZArith.
From stdpp Require Import base gmap sets list strings sorting.
From S2P Require Import Prelude Net.

Local Open Scope Z_scope.

Record RequestRateLimitExceeded := mkExceeded {
  retry_after_seconds : Z;
  limit : Z;
  remaining : Z;
}.

(** ** The global limiter *)

Record GlobalRateLimitConfig := mkGlobalConfig {
  g_max_requests : Z;
  g_window_seconds : Z;
}.
Record GlobalRateLimiter := mkGlobal {
  g_config : GlobalRateLimitConfig;
  counter : Z;
  window_start : Z;
}.

Definition GlobalRateLimiter_new (config : GlobalRateLimitConfig) (now : Z) : GlobalRateLimiter :=
  {| g_config := config; counter := 0; window_start := now |}.

(** The critical section of [check_and_increment]: roll the window over.  No
    other caller reads [window_start] without the lock, so the section takes
    effect at its store to the counter. *)
Definition global_expired (g : GlobalRateLimiter) (now : Z) : bool :=
  from_secs (g_window_seconds (g_config g)) <=? sat_sub now (window_start g).
Definition global_roll (g : GlobalRateLimiter) (now : Z) : GlobalRateLimiter :=
  if global_expired g now
  then {| g_config := g_config g; counter := 0; window_start := now |}
  else g.
(** The atomic [fetch_add] that follows it, outside the lock. *)
Definition global_count (g : GlobalRateLimiter) :
    GlobalRateLimiter * Result Z RequestRateLimitExceeded :=
  let count := wrap64 (counter g + 1) in
  let max := g_max_requests (g_config g) in
  ({| g_config := g_config g; counter := count; window_start := window_start g |},
   if max <? count
   then Err {| retry_after_seconds := g_window_seconds (g_config g);
               limit := max; remaining := 0 |}
   else Ok (sat_sub max count)).
(** A call that no other thread interrupts. *)
Definition global_check_and_increment (g : GlobalRateLimiter) (now : Z) :
    GlobalRateLimiter * Result Z RequestRateLimitExceeded :=
  global_count (global_roll g now).

(** Concurrent callers: each contributes one [Roll] and later one [Count];
    between the two, steps of other callers may run. *)
Inductive GlobalEvent := Roll (now : Z) | Count.

(** The limiter together with the number of requests admitted since the window
    was last rolled over. *)
Definition global_step (s : GlobalRateLimiter * Z) (ev : GlobalEvent) :
    GlobalRateLimiter * Z :=
  match ev with
  | Roll now => (global_roll s.1 now, if global_expired s.1 now then 0 else s.2)
  | Count => let '(g, r) := global_count s.1 in (g, if is_ok r then s.2 + 1 else s.2)
  end.
Definition global_run (s : GlobalRateLimiter * Z) (evs : list GlobalEvent) :
    GlobalRateLimiter * Z :=
  fold_left global_step evs s.

Lemma global_run_inv evs g a n :
  0 ≤ g_max_requests (g_config g) → 0 ≤ counter g ≤ n →
  a = Z.min (counter g) (g_max_requests (g_config g)) →
  n + Z.of_nat (length evs) ≤ u64_max →
  let '(g', a') := global_run (g, a) evs in
  g_config g' = g_config g
  ∧ a' = Z.min (counter g') (g_max_requests (g_config g)).
Proof.
  revert g a n. induction evs as [|ev evs IH]; intros g a n Hmax Hc Ha Hn; simpl in *; [done|].
  destruct ev as [now|]; simpl.
  - assert (Hcfg : g_config (global_roll g now) = g_config g)
      by (unfold global_roll; by destruct (global_expired g now)).
    specialize (IH (global_roll g now) (if global_expired g now then 0 else a) n).
    rewrite Hcfg in IH. apply IH; [done| | |lia].
    + unfold global_roll. destruct (global_expired g now); simpl; lia.
    + unfold global_roll. destruct (global_expired g now); simpl; lia.
  - assert (Hw : wrap64 (counter g + 1) = counter g + 1) by (apply wrap64_small; width_lia).
    unfold global_step, global_count. rewrite Hw. simpl.
    destruct (Z.ltb_spec (g_max_requests (g_config g)) (counter g + 1)); simpl;
      apply (IH (mkGlobal _ _ _) _ (n + 1)); simpl; lia.
Qed.

(** However the callers of the global limiter interleave, and whatever the
    instants they read, at most [max_requests] requests are admitted between
    two roll-overs of the window, and no admissible request is refused: the
    number admitted is the smaller of the number counted and the ceiling. *)
Theorem global_window_cap (config : GlobalRateLimitConfig) (start : Z)
    (evs : list GlobalEvent) :
  0 ≤ g_max_requests config → Z.of_nat (length evs) ≤ u64_max →
  let '(g, admitted) := global_run (GlobalRateLimiter_new config start, 0) evs in
  admitted = Z.min (counter g) (g_max_requests config) ∧ admitted ≤ g_max_requests config.
Proof.
  intros Hmax Hlen.
  pose proof (global_run_inv evs (GlobalRateLimiter_new config start) 0 0) as H. simpl in H.
  destruct (global_run _ evs) as [g a]. destruct H as [_ ->]; lia.
Qed.

Definition demo_global : GlobalRateLimitConfig := mkGlobalConfig 2 10.

(** Two callers race across a roll-over, a third is refused. *)
Lemma global_window_cap_witness :
  global_run (GlobalRateLimiter_new demo_global 0, 0)
    [Roll 5; Roll (from_secs 10); Count; Count; Roll (from_secs 11); Count]
  = (mkGlobal demo_global 3 (from_secs 10), 2)
  ∧ (global_run (GlobalRateLimiter_new demo_global 0, 0)
      [Roll 5; Roll (from_secs 10); Count; Count; Roll (from_secs 11); Count]).2 ≤ 2.
Proof.
  split; [reflexivity|].
  pose proof (global_window_cap demo_global 0
    [Roll 5; Roll (from_secs 10); Count; Count; Roll (from_secs 11); Count]) as H.
  destruct (global_run _ _) as [g a]. apply H; [vm_compute; discriminate..].
Defined.

(** ** Keyed limiters *)

(** The bucket update shared by the three keyed [check_and_increment]. *)
Definition bucket_hit (max window_seconds : Z) (entry : Z * Z) (now : Z) :
    (Z * Z) * Result Z RequestRateLimitExceeded :=
  let entry := if from_secs window_seconds <=? sat_sub now entry.2 then (0, now) else entry in
  let count := wrap64 (entry.1 + 1) in
  ((count, entry.2),
   if max <? count
   then Err {| retry_after_seconds := window_seconds; limit := max; remaining := 0 |}
   else Ok (sat_sub max count)).

Section keyed.
Context {K} `{Countable K}.
Implicit Types (buckets : gmap K (Z * Z)) (k : K).

(** [buckets.entry(key).or_insert((0, now))] and the update. *)
Definition keyed_hit (max window_seconds : Z) buckets k (now : Z) :
    gmap K (Z * Z) * Result Z RequestRateLimitExceeded :=
  let '(entry, r) := bucket_hit max window_seconds (default (0, now) (buckets !! k)) now in
  (<[k := entry]> buckets, r).

(** A sequence of requests [(key, now)] and its answers. *)
Fixpoint keyed_run (max window_seconds : Z) buckets (reqs : list (K * Z)) :
    list (K * Result Z RequestRateLimitExceeded) :=
  match reqs with
  | [] => []
  | (k, now) :: reqs =>
      let '(buckets', r) := keyed_hit max window_seconds buckets k now in
      (k, r) :: keyed_run max window_seconds buckets' reqs
  end.

(** The answers to one key's requests. *)
Definition answers_for k (rs : list (K * Result Z RequestRateLimitExceeded)) :
    list (Result Z RequestRateLimitExceeded) := (filter (λ p, p.1 = k) rs).*2.
Definition times_for k (reqs : list (K * Z)) : list Z := (filter (λ p, p.1 = k) reqs).*2.

(** One key on its own. *)
Fixpoint bucket_run (max window_seconds : Z) (entry : option (Z * Z)) (ts : list Z) :
    list (Result Z RequestRateLimitExceeded) :=
  match ts with
  | [] => []
  | now :: ts =>
      let '(entry', r) := bucket_hit max window_seconds (default (0, now) entry) now in
      r :: bucket_run max window_seconds (Some entry') ts
  end.

(** Keys are isolated: the answers to a key are those of its own bucket. *)
Lemma keyed_run_isolated max w buckets reqs k :
  answers_for k (keyed_run max w buckets reqs)
  = bucket_run max w (buckets !! k) (times_for k reqs).
Proof.
  unfold answers_for, times_for. revert buckets.
  induction reqs as [|[k' now] reqs IH]; intros buckets; [done|]. cbn [keyed_run].
  unfold keyed_hit.
  destruct (bucket_hit max w (default (0, now) (buckets !! k')) now) as [entry r] eqn:E.
  rewrite !filter_cons. simpl. destruct (decide (k' = k)) as [->|Hne].
  - cbn [fmap list_fmap bucket_run snd]. rewrite E. f_equal. rewrite IH.
    by rewrite lookup_insert_eq.
  - by rewrite IH, lookup_insert_ne.
Qed.
End keyed.

(** What the [i]-th request of a window is answered. *)
Definition window_answer (max window_seconds i : Z) : Result Z RequestRateLimitExceeded :=
  if i <=? max then Ok (max - i)
  else Err {| retry_after_seconds := window_seconds; limit := max; remaining := 0 |}.

Lemma bucket_hit_same_window max w n s now :
  0 ≤ n → n + 1 ≤ u64_max → sat_sub now s < from_secs w →
  bucket_hit max w (n, s) now = ((n + 1, s), window_answer max w (n + 1)).
Proof.
  intros Hn Hmax Hlt. unfold bucket_hit, window_answer. simpl.
  destruct (Z.leb_spec (from_secs w) (sat_sub now s)); [lia|]. simpl.
  rewrite wrap64_small by width_lia.
  destruct (Z.ltb_spec max (n + 1)), (Z.leb_spec (n + 1) max); try lia; [done|].
  do 2 f_equal. width_lia.
Qed.

Lemma bucket_hit_new_window max w n s now :
  from_secs w ≤ sat_sub now s →
  bucket_hit max w (n, s) now = ((1, now), window_answer max w 1).
Proof.
  intros Hle. unfold bucket_hit, window_answer. simpl.
  destruct (Z.leb_spec (from_secs w) (sat_sub now s)); [|lia]. simpl.
  rewrite wrap64_small by width_lia. change (0 + 1) with 1.
  destruct (Z.ltb_spec max 1), (Z.leb_spec 1 max); try lia; [done|].
  do 2 f_equal. width_lia.
Qed.

Lemma bucket_run_same_window max w n s ts :
  0 ≤ n → n + Z.of_nat (length ts) ≤ u64_max →
  Forall (λ t, sat_sub t s < from_secs w) ts →
  bucket_run max w (Some (n, s)) ts
  = map (λ i, window_answer max w (n + Z.of_nat i)) (seq 1 (length ts)).
Proof.
  revert n. induction ts as [|t ts IH]; intros n Hn Hmax Hall; [done|].
  apply Forall_cons in Hall as [Ht Hall]. cbn [bucket_run length seq map from_option id] in *.
  rewrite bucket_hit_same_window by lia. f_equal. rewrite IH by (done || lia).
  rewrite <- (seq_shift (length ts) 1), map_map. apply map_ext. intros i. f_equal. lia.
Qed.

(** The number of requests a run admits in the interval [[a, a + window)]. *)
Fixpoint admitted_in (max w : Z) (a : Z) (entry : option (Z * Z)) (ts : list Z) : Z :=
  match ts with
  | [] => 0
  | now :: ts =>
      let '(entry', r) := bucket_hit max w (default (0, now) entry) now in
      (if is_ok r && (a <=? now) && (now <? a + from_secs w) then 1 else 0)
      + admitted_in max w a (Some entry') ts
  end.

(** The same count, read off a list of instants and their answers. *)
Definition count_admitted (w a : Z) (tr : list (Z * Result Z RequestRateLimitExceeded)) : Z :=
  Z.of_nat (length (filter
    (λ p, is_ok p.2 && (a <=? p.1) && (p.1 <? a + from_secs w) = true) tr)).

Lemma admitted_in_answers max w a entry ts :
  count_admitted w a (zip ts (bucket_run max w entry ts)) = admitted_in max w a entry ts.
Proof.
  unfold count_admitted. revert entry. induction ts as [|t ts IH]; intros entry; [done|].
  cbn [bucket_run admitted_in]. destruct (bucket_hit _ _ _ _) as [e r].
  cbn [zip zip_with]. rewrite filter_cons. cbn [fst snd]. rewrite <- IH.
  destruct (is_ok r && _ && _); simpl; lia.
Qed.

Lemma admitted_in_after max w a entry ts :
  Forall (λ t, a + from_secs w ≤ t) ts → admitted_in max w a entry ts = 0.
Proof.
  intros Hall. revert entry. induction Hall as [|t ts Ht _ IH]; intros entry; [done|].
  cbn [admitted_in]. destruct (bucket_hit _ _ _ _) as [e r]. rewrite IH.
  destruct (Z.ltb_spec t (a + from_secs w)); [lia|]. by rewrite andb_false_r.
Qed.

Section interval.
Context (max w a : Z).
Hypothesis Hmax : 0 ≤ max.
Hypothesis Hw : 0 < w.

Lemma answer_cost i t :
  (if is_ok (window_answer max w i) && (a <=? t) && (t <? a + from_secs w) then 1 else 0)
  ≤ (if i <=? max then 1 else 0).
Proof. unfold window_answer. destruct (i <=? max); simpl; [|done]. by destruct (_ && _). Qed.

(** The window in force began inside the interval: it outlasts it. *)
Lemma admitted_current n s ts :
  a ≤ s → 0 ≤ n → n + Z.of_nat (length ts) ≤ u64_max → StronglySorted Z.le (s :: ts) →
  admitted_in max w a (Some (n, s)) ts ≤ Z.max 0 (max - n).
Proof.
  intros Hs. revert n. induction ts as [|t ts IH]; intros n Hn Hlen Hsort.
  { simpl. lia. }
  apply StronglySorted_inv in Hsort as [Hsort [Hst Hall]%Forall_cons].
  cbn [length] in Hlen. destruct (Z.leb_spec (a + from_secs w) t) as [Hout|Hin].
  { rewrite admitted_in_after; [lia|]. apply StronglySorted_inv in Hsort as [_ Hall'].
    constructor; [done|]. eapply Forall_impl; [exact Hall'|]. simpl. intros; lia. }
  cbn [admitted_in from_option id]. rewrite bucket_hit_same_window by width_lia.
  apply StronglySorted_inv in Hsort as [Hsort Ht].
  specialize (IH (n + 1) ltac:(lia) ltac:(lia) (SSorted_cons s Hsort Hall)).
  pose proof (answer_cost (n + 1) t) as Hcost.
  destruct (Z.leb_spec (n + 1) max); lia.
Qed.

(** A later window is still to come: it can admit [max] more. *)
Lemma admitted_next n s ts :
  0 ≤ n → n + Z.of_nat (length ts) ≤ u64_max → StronglySorted Z.le ts →
  Forall (λ t, a ≤ t) ts →
  admitted_in max w a (Some (n, s)) ts ≤ Z.max 0 (max - n) + max.
Proof.
  revert n. induction ts as [|t ts IH]; intros n Hn Hlen Hsort Ha; [simpl; lia|].
  apply Forall_cons in Ha as [Hat Ha]. pose proof Hsort as Hsort'.
  apply StronglySorted_inv in Hsort as [Hsort Ht]. cbn [length] in Hlen.
  cbn [admitted_in from_option id].
  destruct (Z.leb_spec (from_secs w) (sat_sub t s)) as [Hnew|Hsame].
  - rewrite bucket_hit_new_window by done.
    pose proof (admitted_current 1 t ts Hat ltac:(lia) ltac:(lia) Hsort').
    pose proof (answer_cost 1 t) as Hcost. destruct (Z.leb_spec 1 max); lia.
  - rewrite bucket_hit_same_window by width_lia.
    specialize (IH (n + 1) ltac:(lia) ltac:(lia) Hsort Ha).
    pose proof (answer_cost (n + 1) t) as Hcost.
    destruct (Z.leb_spec (n + 1) max); lia.
Qed.

Lemma admitted_any entry ts :
  match entry with Some (n, _) => 0 ≤ n | None => True end →
  default 0 (fst <$> entry) + Z.of_nat (length ts) ≤ u64_max → StronglySorted Z.le ts →
  admitted_in max w a entry ts ≤ 2 * max.
Proof.
  revert entry. induction ts as [|t ts IH]; intros entry Hn Hlen Hsort; [simpl; lia|].
  destruct (Z.leb_spec a t) as [Ha|Hb].
  - assert (Hall : Forall (λ t, a ≤ t) (t :: ts)).
    { apply StronglySorted_inv in Hsort as [_ Ht]. constructor; [done|].
      eapply Forall_impl; [exact Ht|]. simpl. intros; lia. }
    destruct entry as [[n s]|].
    + simpl in Hlen. pose proof (admitted_next n s (t :: ts) Hn Hlen Hsort Hall). lia.
    + pose proof (admitted_next 0 t (t :: ts) ltac:(lia) Hlen Hsort Hall). simpl in *. lia.
  - apply StronglySorted_inv in Hsort as [Hsort _]. cbn [admitted_in].
    set (e := default (0, t) entry).
    assert (He : 0 ≤ e.1 ∧ e.1 + Z.of_nat (length (t :: ts)) ≤ u64_max)
      by (unfold e; destruct entry as [[n s]|]; simpl in *; lia).
    destruct e as [n s]. cbn [fst length] in He.
    assert (Hf : (a <=? t) = false) by (by apply Z.leb_gt).
    destruct (Z.leb_spec (from_secs w) (sat_sub t s)) as [Hnew|Hsame].
    + rewrite bucket_hit_new_window by done. rewrite Hf, andb_false_r.
      apply IH; simpl; (done || lia).
    + rewrite bucket_hit_same_window by width_lia. rewrite Hf, andb_false_r.
      apply IH; simpl; (done || lia).
Qed.
End interval.

(** ** The keyed limiters of the gateway *)

Record IpRateLimitConfig := mkIpConfig {
  ip_max_requests : Z;
  ip_window_seconds : Z;
  ip_trusted_proxy_cidrs : list string;
}.
Record UserRateLimiterConfig := mkUserConfig {
  u_max_requests : Z;
  u_window_seconds : Z;
  u_header_names : list string;
}.
Definition default_user_header_names : list string := ["x-user-id"%string].

Section ip_limiter.
(** The [ipnet] crate. *)
Context {IpNet : Type}.
Variable parse_net : string → option IpNet.
Variable net_of_ip : IpAddr → IpNet.

Record IpRateLimiter := mkIpLimiter {
  ip_config : IpRateLimitConfig;
  trusted_proxies : list IpNet;
  ip_buckets : gmap IpAddr (Z * Z);
}.
Definition IpRateLimiter_new (config : IpRateLimitConfig) : Result IpRateLimiter string :=
  match parse_trusted_proxy_cidrs parse_net net_of_ip (ip_trusted_proxy_cidrs config) with
  | Err m => Err m
  | Ok proxies =>
      Ok {| ip_config := config; trusted_proxies := proxies; ip_buckets := ∅ |}
  end.

(** [IpRateLimiter::check_and_increment]. *)
Definition ip_check_and_increment (l : IpRateLimiter) (ip : IpAddr) (now : Z) :
    IpRateLimiter * Result Z RequestRateLimitExceeded :=
  let '(buckets, r) := keyed_hit (ip_max_requests (ip_config l))
                         (ip_window_seconds (ip_config l)) (ip_buckets l) ip now in
  ({| ip_config := ip_config l; trusted_proxies := trusted_proxies l;
      ip_buckets := buckets |}, r).
End ip_limiter.

(** [UserRateLimiter::check_and_increment]. *)
Definition user_check_and_increment (config : UserRateLimiterConfig)
    (buckets : gmap string (Z * Z)) (user_id : string) (now : Z) :
    gmap string (Z * Z) * Result Z RequestRateLimitExceeded :=
  keyed_hit (u_max_requests config) (u_window_seconds config) buckets user_id now.

(** [TokenRateLimiter::check_and_increment]: no ceiling at [limit_rpm = 0]. *)
Definition token_check_and_increment (buckets : gmap string (Z * Z)) (key_id : string)
    (limit_rpm : Z) (now : Z) : gmap string (Z * Z) * Result Z RequestRateLimitExceeded :=
  if limit_rpm =? 0 then (buckets, Ok u64_max) else
  keyed_hit limit_rpm 60 buckets key_id now.

(** The per-user limiter as a sequence of calls. *)
Fixpoint user_run (config : UserRateLimiterConfig) (buckets : gmap string (Z * Z))
    (reqs : list (string * Z)) : list (string * Result Z RequestRateLimitExceeded) :=
  match reqs with
  | [] => []
  | (u, now) :: reqs =>
      let '(buckets', r) := user_check_and_increment config buckets u now in
      (u, r) :: user_run config buckets' reqs
  end.

Lemma user_run_keyed config buckets reqs :
  user_run config buckets reqs
  = keyed_run (u_max_requests config) (u_window_seconds config) buckets reqs.
Proof.
  revert buckets. induction reqs as [|[u now] reqs IH]; intros buckets; [done|].
  cbn [user_run keyed_run]. unfold user_check_and_increment.
  destruct (keyed_hit (u_max_requests config) (u_window_seconds config) buckets u now).
  by rewrite IH.
Qed.

(** A user's requests in one window are answered [Ok(max-1)], [Ok(max-2)],
    ..., [Ok(0)] and then refused, whatever other users send in between: a
    fresh user sends requests at [t] and at later instants less than a window
    after [t]; the [i]-th is admitted exactly when [i <= max_requests]. *)
Theorem user_window_exact (config : UserRateLimiterConfig) (reqs : list (string * Z))
    (user : string) (t : Z) (ts : list Z) :
  0 < u_window_seconds config → times_for user reqs = t :: ts →
  Forall (λ t', t' - t < from_secs (u_window_seconds config)) ts →
  Z.of_nat (length reqs) ≤ u64_max →
  answers_for user (user_run config ∅ reqs)
  = map (λ i, window_answer (u_max_requests config) (u_window_seconds config) (Z.of_nat i))
        (seq 1 (length (t :: ts))).
Proof.
  intros Hw Hts Hall Hlen. rewrite user_run_keyed, keyed_run_isolated, Hts, lookup_empty.
  assert (Hle : (length (t :: ts) ≤ length reqs)%nat).
  { rewrite <- Hts. unfold times_for. rewrite length_fmap. apply length_filter. }
  change (bucket_run ?m ?w None (t :: ts)) with (bucket_run m w (Some (0, t)) (t :: ts)).
  apply (bucket_run_same_window _ _ 0); [lia|lia|].
  constructor; [unfold from_secs; width_lia|].
  eapply Forall_impl; [exact Hall|]. simpl. intros t'. unfold from_secs. width_lia.
Qed.

(** The well-known slack of fixed windows is bounded: when the clock does
    not run backwards, a user is admitted at most [2 * max_requests] times in
    any interval as long as one window, wherever it starts and whatever other
    users send. *)
Theorem user_interval_cap (config : UserRateLimiterConfig) (reqs : list (string * Z))
    (user : string) (a : Z) :
  0 ≤ u_max_requests config → 0 < u_window_seconds config →
  StronglySorted Z.le (times_for user reqs) → Z.of_nat (length reqs) ≤ u64_max →
  count_admitted (u_window_seconds config) a
    (zip (times_for user reqs) (answers_for user (user_run config ∅ reqs)))
  ≤ 2 * u_max_requests config.
Proof.
  intros Hm Hw Hs Hlen.
  rewrite user_run_keyed, keyed_run_isolated, lookup_empty, admitted_in_answers.
  assert (Hle : (length (times_for user reqs) ≤ length reqs)%nat).
  { unfold times_for. rewrite length_fmap. apply length_filter. }
  apply admitted_any; simpl; (done || lia).
Qed.

Definition demo_user : UserRateLimiterConfig := mkUserConfig 2 1 default_user_header_names.

Lemma user_window_exact_witness :
  answers_for "a"%string
    (user_run demo_user ∅
       [("a", 5); ("b", 6); ("a", 7); ("b", 2000000007); ("a", 8)]%string)
  = [Ok 1; Ok 0; Err (mkExceeded 1 2 0)].
Proof.
  etrans; [apply (user_window_exact demo_user _ "a" 5 [7; 8])|reflexivity].
  - reflexivity.
  - reflexivity.
  - repeat constructor.
  - vm_compute. discriminate.
Defined.

(** More than [max_requests] around a window boundary. *)
Definition boundary_reqs : list (string * Z) :=
  [("a", 0); ("a", 900000000); ("b", 950000000); ("a", 1000000000); ("a", 1100000000)]%string.
Lemma user_interval_cap_witness :
  count_admitted 1 900000000
    (zip (times_for "a" boundary_reqs) (answers_for "a" (user_run demo_user ∅ boundary_reqs)))%string
  = 3
  ∧ count_admitted 1 900000000
    (zip (times_for "a" boundary_reqs) (answers_for "a" (user_run demo_user ∅ boundary_reqs)))%string
  ≤ 2 * 2.
Proof.
  split; [vm_compute; reflexivity|].
  apply (user_interval_cap demo_user boundary_reqs "a"%string 900000000).
  - vm_compute. discriminate.
  - reflexivity.
  - vm_compute. repeat constructor; discriminate.
  - vm_compute. discriminate.
Defined.
