(* ===== verification/Limiter.v ===== *)
(** * Limiter: adaptive concurrency towards a provider
      (src/src/gateway/rate_limit.rs, [AdaptiveConcurrencyLimiter])

    The state behind the mutex, the body of every critical section, the
    reading of the provider's quota headers, and the permits in flight as a
    transition system.  Instants are nanoseconds. *)

From Stdlib Require Import ZArith Ascii String.
From stdpp Require Import base gmap sets list strings.
From S2P Require Import Prelude Text Float.

Local Open Scope Z_scope.

(** ** The limiter state *)

Record LimiterState := mkLimiter {
  max_concurrency : Z;
  current_concurrency : Z;
  in_flight : Z;
  consecutive_successes : Z;
  cooldown_until : option Z;
}.

Record AdaptiveConcurrencySnapshot := mkSnapshot {
  s_provider : string;
  s_scope_key : string;
  s_max_concurrency : Z;
  s_current_concurrency : Z;
  s_in_flight : Z;
  s_cooldown_ms : Z;
}.

Inductive AcquireDecision := Granted | Busy | Cooldown (delay : Z).
#[export] Instance AcquireDecision_eq_dec : EqDecision AcquireDecision.
Proof. solve_decision. Defined.

Definition Limiter_new (max_concurrency : Z) : LimiterState :=
  let m := Z.max max_concurrency 1 in
  {| max_concurrency := m; current_concurrency := m; in_flight := 0;
     consecutive_successes := 0; cooldown_until := None |}.

(** One turn of the loop of [acquire]: the locked block. *)
Definition take_slot (s : LimiterState) (cooldown : option Z) : LimiterState * AcquireDecision :=
  if in_flight s <? current_concurrency s
  then ({| max_concurrency := max_concurrency s;
           current_concurrency := current_concurrency s;
           in_flight := wrap64 (in_flight s + 1);
           consecutive_successes := consecutive_successes s;
           cooldown_until := cooldown |}, Granted)
  else ({| max_concurrency := max_concurrency s;
           current_concurrency := current_concurrency s;
           in_flight := in_flight s;
           consecutive_successes := consecutive_successes s;
           cooldown_until := cooldown |}, Busy).
Definition acquire_decision (s : LimiterState) (now : Z) : LimiterState * AcquireDecision :=
  match cooldown_until s with
  | Some until =>
      if now <? until then (s, Cooldown (sat_sub until now)) else take_slot s None
  | None => take_slot s None
  end.

Definition halve_concurrency (value : Z) : Z := Z.max ((value + 1) / 2) 1.

(** [on_success] with the quota ratio of the response. *)
Definition on_success (s : LimiterState) (remaining_quota_ratio : option f64) : LimiterState :=
  let low := match remaining_quota_ratio with
             | Some ratio => f64_lt ratio f64_tenth
             | None => false
             end in
  if low then
    {| max_concurrency := max_concurrency s;
       current_concurrency := halve_concurrency (current_concurrency s);
       in_flight := in_flight s; consecutive_successes := 0;
       cooldown_until := cooldown_until s |}
  else
    let successes := wrap64 (consecutive_successes s + 1) in
    let threshold := Z.max (current_concurrency s) 1 in
    if (threshold <=? successes) && (current_concurrency s <? max_concurrency s) then
      {| max_concurrency := max_concurrency s;
         current_concurrency := wrap64 (current_concurrency s + 1);
         in_flight := in_flight s; consecutive_successes := 0;
         cooldown_until := cooldown_until s |}
    else
      {| max_concurrency := max_concurrency s;
         current_concurrency := current_concurrency s;
         in_flight := in_flight s; consecutive_successes := successes;
         cooldown_until := cooldown_until s |}.

(** The update of [on_rate_limited] once the new cooldown is known. *)
Definition back_off (s : LimiterState) (cooldown : option Z) : LimiterState :=
  {| max_concurrency := max_concurrency s;
     current_concurrency := halve_concurrency (current_concurrency s);
     in_flight := in_flight s; consecutive_successes := 0;
     cooldown_until := cooldown |}.
(** [None] when [Instant::now() + delay] panics, which aborts the process. *)
Definition on_rate_limited (s : LimiterState) (retry_after : option Z) (now : Z) :
    option LimiterState :=
  match retry_after with
  | Some delay =>
      match instant_add now delay with
      | Some until => Some (back_off s (Some until))
      | None => None
      end
  | None => Some (back_off s (cooldown_until s))
  end.

Definition on_transient_failure (s : LimiterState) : LimiterState :=
  {| max_concurrency := max_concurrency s; current_concurrency := current_concurrency s;
     in_flight := in_flight s; consecutive_successes := 0;
     cooldown_until := cooldown_until s |}.

(** [Drop for AdaptivePermit]. *)
Definition permit_drop (s : LimiterState) : LimiterState :=
  if 0 <? in_flight s
  then {| max_concurrency := max_concurrency s;
          current_concurrency := current_concurrency s;
          in_flight := in_flight s - 1;
          consecutive_successes := consecutive_successes s;
          cooldown_until := cooldown_until s |}
  else s.

(** [snapshot_from_state]: [checked_duration_since] is [None] for a past
    cooldown. *)
Definition snapshot_from_state (provider scope_key : string) (s : LimiterState) (now : Z) :
    AdaptiveConcurrencySnapshot :=
  {| s_provider := provider; s_scope_key := scope_key;
     s_max_concurrency := max_concurrency s;
     s_current_concurrency := current_concurrency s;
     s_in_flight := in_flight s;
     s_cooldown_ms := match cooldown_until s with
                      | Some until =>
                          if now <=? until then Z.min ((until - now) / 1000000) u64_max else 0
                      | None => 0
                      end |}.

(** ** Reading the provider's headers *)

Section headers.
(** [headers.get(name)] followed by [to_str]: absent, not text, or text. *)
Variable header_get : string → option (option string).
(** [chrono] on the two date formats: seconds from now, when it parses. *)
Variables rfc2822_seconds http_date_seconds : string → option Z.

Fixpoint parse_header_u64 (names : list string) : option Z :=
  match names with
  | [] => None
  | name :: names =>
      match header_get name with
      | None => parse_header_u64 names
      | Some None => parse_header_u64 names
      | Some (Some value) =>
          match parse_u64 (trim value) with
          | Some parsed => Some parsed
          | None => parse_header_u64 names
          end
      end
  end.

Definition parse_remaining_quota_ratio : option f64 :=
  match parse_header_u64
          ["x-ratelimit-remaining-requests"; "x-ratelimit-remaining";
           "ratelimit-remaining"]%string with
  | None => None
  | Some remaining =>
      match parse_header_u64
              ["x-ratelimit-limit-requests"; "x-ratelimit-limit";
               "ratelimit-limit"]%string with
      | None => None
      | Some limit =>
          if limit =? 0 then None
          else Some (f64_div (f64_of_u64 remaining) (f64_of_u64 limit))
      end
  end.

(** In seconds. *)
Definition parse_retry_after : option Z :=
  match header_get "retry-after"%string with
  | Some (Some raw) =>
      let value := trim raw in
      if is_empty value then None else
      match parse_u64 value with
      | Some seconds => Some seconds
      | None =>
          match rfc2822_seconds value with
          | Some seconds =>
              if 0 <? seconds then Some seconds else
              match http_date_seconds value with
              | Some s2 => if 0 <? s2 then Some s2 else None
              | None => None
              end
          | None =>
              match http_date_seconds value with
              | Some s2 => if 0 <? s2 then Some s2 else None
              | None => None
              end
          end
      end
  | _ => None
  end.

Record UpstreamResponseMeta := mkMeta {
  status_code : option Z;
  retry_after : option Z;
  remaining_quota_ratio : option f64;
}.
Definition meta_from_response (status : Z) : UpstreamResponseMeta :=
  {| status_code := Some status; retry_after := parse_retry_after;
     remaining_quota_ratio := parse_remaining_quota_ratio |}.
Definition is_rate_limited (m : UpstreamResponseMeta) : bool :=
  match status_code m with Some c => c =? 429 | None => false end.
Definition is_transient_failure (m : UpstreamResponseMeta) : bool :=
  match status_code m with
  | Some c => (c =? 408) || (c =? 500) || (c =? 502) || (c =? 503) || (c =? 504)
  | None => false
  end.

Lemma parse_header_u64_range names z : parse_header_u64 names = Some z → u64_ok z.
Proof.
  induction names as [|n names IH]; simpl; [done|].
  destruct (header_get n) as [[v|]|]; [|done|done].
  destruct (parse_u64 (trim v)) as [p|] eqn:E; [|done].
  intros [= <-]. by apply parse_u64_range in E.
Qed.

Lemma parse_retry_after_pos z : parse_retry_after = Some z → 0 ≤ z.
Proof.
  unfold parse_retry_after. repeat case_match; try done; intros [= <-]; bool_to_prop; try lia.
  apply parse_u64_range in H2. width_lia.
Qed.
End headers.

(** ** Permits as a transition system

    The limiter with the number of live [AdaptivePermit]s.  A permit is dropped
    only while it is live; the other steps are the critical sections above, in
    whatever order the tasks take the lock. *)
Inductive LimiterEvent :=
| EvAcquire (now : Z)
| EvDrop
| EvSuccess (ratio : option f64)
| EvRateLimited (retry_after : option Z) (now : Z)
| EvTransient.

Inductive limiter_step : LimiterEvent → LimiterState * Z → LimiterState * Z → Prop :=
| StepGranted s s' p now :
    acquire_decision s now = (s', Granted) →
    limiter_step (EvAcquire now) (s, p) (s', p + 1)
| StepWait s s' p now d :
    acquire_decision s now = (s', d) → d ≠ Granted →
    limiter_step (EvAcquire now) (s, p) (s', p)
| StepDrop s p : 0 < p → limiter_step EvDrop (s, p) (permit_drop s, p - 1)
| StepSuccess s p ratio : limiter_step (EvSuccess ratio) (s, p) (on_success s ratio, p)
| StepRateLimited s s' p ra now :
    on_rate_limited s ra now = Some s' →
    limiter_step (EvRateLimited ra now) (s, p) (s', p)
| StepTransient s p : limiter_step EvTransient (s, p) (on_transient_failure s, p).

Inductive limiter_run : list LimiterEvent → LimiterState * Z → LimiterState * Z → Prop :=
| RunNil c : limiter_run [] c c
| RunCons ev evs c1 c2 c3 :
    limiter_step ev c1 c2 → limiter_run evs c2 c3 → limiter_run (ev :: evs) c1 c3.

Definition limiter_inv (m : Z) (c : LimiterState * Z) : Prop :=
  max_concurrency c.1 = m ∧ 1 ≤ current_concurrency c.1 ≤ m
  ∧ in_flight c.1 = c.2 ∧ 0 ≤ c.2 ≤ m.

Lemma halve_bounds c m : 1 ≤ c ≤ m → 1 ≤ halve_concurrency c ≤ m.
Proof.
  intros Hc. unfold halve_concurrency.
  pose proof (Z.div_le_upper_bound (c + 1) 2 c ltac:(lia) ltac:(lia)). lia.
Qed.

Lemma take_slot_inv m s p cd s' d :
  m ≤ u64_max → limiter_inv m (s, p) → take_slot s cd = (s', d) →
  limiter_inv m (s', if decide (d = Granted) then p + 1 else p)
  ∧ (d = Granted → p < current_concurrency s).
Proof.
  unfold limiter_inv, take_slot. simpl. intros Hm (H1 & H2 & H3 & H4).
  destruct (Z.ltb_spec (in_flight s) (current_concurrency s)); intros [= <- <-]; simpl.
  - rewrite wrap64_small by width_lia. lia.
  - split; [lia|done].
Qed.

Lemma acquire_inv m s p now s' d :
  m ≤ u64_max → limiter_inv m (s, p) → acquire_decision s now = (s', d) →
  limiter_inv m (s', if decide (d = Granted) then p + 1 else p)
  ∧ (d = Granted → p < current_concurrency s).
Proof.
  intros Hm Hinv. unfold acquire_decision. destruct (cooldown_until s) as [until|].
  - destruct (now <? until); [|by apply take_slot_inv]. by intros [= <- <-].
  - by apply take_slot_inv.
Qed.

Lemma on_success_inv m s p ratio :
  m ≤ u64_max → limiter_inv m (s, p) → limiter_inv m (on_success s ratio, p).
Proof.
  unfold limiter_inv, on_success. simpl. intros Hm (H1 & H2 & H3 & H4).
  destruct (match ratio with Some _ => _ | None => _ end); simpl.
  - pose proof (halve_bounds (current_concurrency s) m). lia.
  - destruct ((_ <=? _) && _) eqn:E; simpl; [|lia]. bool_to_prop.
    rewrite wrap64_small by width_lia. lia.
Qed.

Lemma on_rate_limited_back_off s ra now s' :
  on_rate_limited s ra now = Some s' → ∃ cd, s' = back_off s cd.
Proof.
  unfold on_rate_limited. destruct ra as [d|]; [destruct (instant_add now d)|];
    intros [= <-]; by eexists.
Qed.

Lemma limiter_step_inv m ev c c' :
  m ≤ u64_max → limiter_inv m c → limiter_step ev c c' → limiter_inv m c'.
Proof.
  intros Hm Hinv Hs. destruct Hs as [s s' p now Ha|s s' p now d Ha Hd|s p Hp|s p r|s s' p ra now Hrl|s p].
  - by apply (acquire_inv m s p now s' Granted Hm Hinv) in Ha as [? _].
  - apply (acquire_inv m s p now s' d Hm Hinv) in Ha as [? _]. by rewrite decide_False in H.
  - unfold limiter_inv, permit_drop in *. simpl in *.
    destruct (Z.ltb_spec 0 (in_flight s)); simpl; lia.
  - by apply on_success_inv.
  - apply on_rate_limited_back_off in Hrl as [cd ->]. unfold limiter_inv in *. simpl in *.
    pose proof (halve_bounds (current_concurrency s) m). lia.
  - done.
Qed.

Lemma limiter_run_inv m evs c c' :
  m ≤ u64_max → limiter_inv m c → limiter_run evs c c' → limiter_inv m c'.
Proof.
  intros Hm Hinv Hr. induction Hr as [|ev evs c1 c2 c3 Hs Hr IH]; [done|].
  apply IH. by eapply limiter_step_inv.
Qed.

Lemma Limiter_new_inv m : limiter_inv (Z.max m 1) (Limiter_new m, 0).
Proof. unfold limiter_inv. simpl. lia. Qed.

(** In every interleaving of acquires, permit drops and provider feedback,
    [in_flight] is exactly the number of live permits and never exceeds
    [max_concurrency]; the adaptive limit stays between 1 and the maximum; and
    a further permit is granted only below the adaptive limit in force. *)
Theorem limiter_safe (m : Z) (evs : list LimiterEvent) (s : LimiterState) (permits : Z) :
  m ≤ u64_max →
  limiter_run evs (Limiter_new m, 0) (s, permits) →
  in_flight s = permits ∧ 0 ≤ permits ≤ Z.max m 1
  ∧ 1 ≤ current_concurrency s ≤ Z.max m 1
  ∧ ∀ now s', acquire_decision s now = (s', Granted) →
      permits < current_concurrency s ∧ in_flight s' = permits + 1.
Proof.
  intros Hm Hr.
  assert (Hm' : Z.max m 1 ≤ u64_max) by width_lia.
  pose proof (limiter_run_inv _ _ _ _ Hm' (Limiter_new_inv m) Hr) as Hinv.
  pose proof Hinv as (H1 & H2 & H3 & H4). simpl in *. split_and!; try lia.
  intros now s' Ha. destruct (acquire_inv _ _ _ _ _ _ Hm' Hinv Ha) as [(_ & _ & Hf & _) Hlt].
  split; [by apply Hlt|done].
Qed.

Lemma limiter_safe_witness :
  limiter_run [EvAcquire 0; EvAcquire 1; EvRateLimited (Some 10) 2; EvDrop; EvAcquire 5]
    (Limiter_new 2, 0) (mkLimiter 2 1 1 0 (Some 12), 1)
  ∧ in_flight (mkLimiter 2 1 1 0 (Some 12)) = 1.
Proof.
  assert (Hr : limiter_run [EvAcquire 0; EvAcquire 1; EvRateLimited (Some 10) 2; EvDrop; EvAcquire 5]
    (Limiter_new 2, 0) (mkLimiter 2 1 1 0 (Some 12), 1)).
  { eapply RunCons; [apply StepGranted; reflexivity|].
    eapply RunCons; [apply StepGranted; reflexivity|].
    eapply RunCons; [apply StepRateLimited; reflexivity|].
    eapply RunCons; [apply StepDrop; lia|].
    eapply RunCons; [apply (StepWait _ (mkLimiter 2 1 1 0 (Some 12)) _ _ (Cooldown 7));
                     [reflexivity|discriminate]|].
    apply RunNil. }
  split; [exact Hr|].
  destruct (limiter_safe 2 _ _ _ ltac:(vm_compute; discriminate) Hr) as [H _]. exact H.
Defined.

(** ** Cooldown *)

(** An event that neither sets a new cooldown nor looks at the clock after
    [until]. *)
Definition before (until : Z) (ev : LimiterEvent) : Prop :=
  match ev with
  | EvAcquire now => now < until
  | EvRateLimited (Some _) _ => False
  | _ => True
  end.

Lemma before_step until ev s p s' p' :
  before until ev → cooldown_until s = Some until → limiter_step ev (s, p) (s', p') →
  cooldown_until s' = Some until ∧ p' ≤ p.
Proof.
  intros Hb Hc Hs. inversion Hs as [? ? ? ? Ha|? ? ? ? ? Ha|? ? Hp|? ? r|? ? ? ra ? Hrl|]; subst; simpl in *.
  - unfold acquire_decision in Ha. rewrite Hc in Ha.
    destruct (Z.ltb_spec now until); [by simplify_eq|lia].
  - unfold acquire_decision in Ha. rewrite Hc in Ha.
    destruct (Z.ltb_spec now until); [by simplify_eq|lia].
  - unfold permit_drop. destruct (_ <? _); simpl; split; (done || lia).
  - unfold on_success. split; [|done]. by repeat case_match.
  - destruct ra; [done|]. unfold on_rate_limited in Hrl. simplify_eq. by split.
  - by split.
Qed.

(** A 429 with [Retry-After] stops new permits: until the cooldown ends, no
    sequence of acquires, drops and successes grants one, unless the provider
    sends another [Retry-After]. *)
Theorem cooldown_blocks (s s0 s' : LimiterState) (delay now p p' : Z) (evs : list LimiterEvent) :
  on_rate_limited s (Some delay) now = Some s0 →
  Forall (before (now + delay)) evs → limiter_run evs (s0, p) (s', p') →
  p' ≤ p ∧ cooldown_until s' = Some (now + delay)
  ∧ ∀ t, t < now + delay →
      acquire_decision s' t = (s', Cooldown (now + delay - t)).
Proof.
  intros H0 Hall Hr.
  assert (Hc0 : cooldown_until s0 = Some (now + delay)).
  { unfold on_rate_limited, instant_add in H0. destruct (_ <=? _); by simplify_eq. }
  assert (Hrun : ∀ c c', limiter_run evs c c' → cooldown_until c.1 = Some (now + delay) →
      cooldown_until c'.1 = Some (now + delay) ∧ c'.2 ≤ c.2).
  { clear Hr. induction Hall as [|ev evs Hev Hall IH]; intros c c' Hr Hc.
    - inversion Hr; subst. by split.
    - inversion Hr as [|? ? ? [s2 p2] ? Hs Hr']; subst. destruct c as [s1 p1].
      destruct (before_step _ _ _ _ _ _ Hev Hc Hs) as [Hc2 Hp].
      destruct (IH _ _ Hr' Hc2) as [? ?]. simpl in *. split; (done || lia). }
  destruct (Hrun _ _ Hr Hc0) as [Hc Hp]. simpl in *. split_and!; [done..|].
  intros t Ht. unfold acquire_decision. rewrite Hc.
  destruct (Z.ltb_spec t (now + delay)); [|lia]. do 2 f_equal. width_lia.
Qed.

Lemma cooldown_blocks_witness :
  acquire_decision (mkLimiter 4 2 0 0 (Some 12)) 11 = (mkLimiter 4 2 0 0 (Some 12), Cooldown 1).
Proof.
  destruct (cooldown_blocks (Limiter_new 4) (mkLimiter 4 2 0 0 (Some 12))
    (mkLimiter 4 2 0 0 (Some 12)) 10 2 3 3 [] eq_refl ltac:(constructor) ltac:(apply RunNil))
    as (_ & _ & H).
  apply (H 11). lia.
Defined.

(** A provider can stop the gateway: a 429 whose [Retry-After] is a number of
    seconds that does not fit an instant makes [on_rate_limited] panic, in
    every state and at every time. *)
Theorem huge_retry_after_panics (header_get : string → option (option string))
    (rfc2822 http_date : string → option Z) (s : LimiterState) (now seconds : Z) (raw : string) :
  header_get "retry-after"%string = Some (Some raw) → parse_u64 (trim raw) = Some seconds →
  0 ≤ now → i64_max < seconds →
  let meta := meta_from_response header_get rfc2822 http_date 429 in
  is_rate_limited meta = true ∧ retry_after meta = Some seconds
  ∧ on_rate_limited s (from_secs <$> retry_after meta) now = None.
Proof.
  intros Hh Hp Hnow Hsec.
  assert (Hra : parse_retry_after header_get rfc2822 http_date = Some seconds).
  { unfold parse_retry_after. rewrite Hh. cbn zeta. rewrite Hp.
    destruct (trim raw); [done|]. done. }
  cbn zeta. unfold meta_from_response. cbn [retry_after]. rewrite Hra.
  split; [done|]. split; [done|]. cbn. unfold instant_add, from_secs.
  destruct (Z.leb_spec (now + seconds * 1000000000) instant_max) as [Hle|]; [|done].
  unfold instant_max in Hle. width_lia.
Qed.

Lemma huge_retry_after_panics_witness :
  on_rate_limited (Limiter_new 4) (Some (from_secs 9223372036854775808)) 0 = None.
Proof.
  set (h := λ n : string, if String.eqb n "retry-after"
                          then Some (Some " 9223372036854775808"%string) else None).
  assert (Hp : parse_u64 (trim " 9223372036854775808"%string) = Some 9223372036854775808)
    by (vm_compute; reflexivity).
  assert (Hlt : i64_max < 9223372036854775808) by (vm_compute; reflexivity).
  destruct (huge_retry_after_panics h (λ _, None) (λ _, None) (Limiter_new 4) 0
    9223372036854775808 " 9223372036854775808"%string eq_refl Hp (Z.le_refl 0) Hlt)
    as (_ & H1 & H2).
  cbv zeta in H1, H2. rewrite H1 in H2. exact H2.
Defined.

(** ** Multiplicative decrease, additive increase *)

Lemma halve_ceil c a : 1 ≤ c → 1 ≤ a →
  halve_concurrency ((c + a - 1) / a) = (c + 2 * a - 1) / (2 * a).
Proof.
  intros Hc Ha. unfold halve_concurrency.
  replace ((c + a - 1) / a + 1) with ((c + 2 * a - 1) / a)
    by (rewrite <- Z.div_add by lia; f_equal; lia).
  rewrite Z.div_div by lia. replace (a * 2) with (2 * a) by lia.
  pose proof (Z.div_le_lower_bound (c + 2 * a - 1) (2 * a) 1 ltac:(lia) ltac:(lia)). lia.
Qed.

(** Answers 429 without [Retry-After], and successes. *)
Definition rate_limited_times (k : nat) (s : LimiterState) : option LimiterState :=
  Nat.iter k (λ o, o ≫= λ s, on_rate_limited s None 0) (Some s).
Definition success_times (k : nat) (s : LimiterState) : LimiterState :=
  Nat.iter k (λ s, on_success s None) s.

Lemma rate_limited_current k s :
  1 ≤ current_concurrency s →
  ∃ s1, rate_limited_times k s = Some s1 ∧ max_concurrency s1 = max_concurrency s
    ∧ current_concurrency s1 = (current_concurrency s + 2 ^ Z.of_nat k - 1) / 2 ^ Z.of_nat k
    ∧ ((1 ≤ k)%nat → consecutive_successes s1 = 0).
Proof.
  intros Hc. induction k as [|k (s1 & Hs & Hm & Hcur & _)].
  - exists s. change (Z.of_nat 0) with 0. rewrite Z.pow_0_r, Z.div_1_r.
    split_and!; [done|done|lia|lia].
  - change (rate_limited_times (S k) s)
      with (rate_limited_times k s ≫= λ s, on_rate_limited s None 0). rewrite Hs.
    eexists. split; [reflexivity|]. cbn [back_off max_concurrency current_concurrency].
    split_and!; [done| |done]. rewrite Hcur, halve_ceil by lia.
    by rewrite Nat2Z.inj_succ, Z.pow_succ_r by lia.
Qed.

(** Within one level: [n] successes below the threshold only count up. *)
Lemma success_count n s :
  1 ≤ current_concurrency s → current_concurrency s < max_concurrency s →
  consecutive_successes s = 0 → current_concurrency s ≤ u64_max →
  Z.of_nat n < current_concurrency s →
  success_times n s =
    {| max_concurrency := max_concurrency s; current_concurrency := current_concurrency s;
       in_flight := in_flight s; consecutive_successes := Z.of_nat n;
       cooldown_until := cooldown_until s |}.
Proof.
  intros Hc Hm H0 Hu. induction n as [|n IH]; intros Hn.
  { destruct s; simpl in *. by subst. }
  change (success_times (S n) s) with (on_success (success_times n s) None). rewrite IH by lia. unfold on_success. simpl.
  rewrite wrap64_small by width_lia.
  destruct (Z.leb_spec (Z.max (current_concurrency s) 1) (Z.of_nat n + 1)); [lia|]. simpl.
  f_equal. lia.
Qed.

(** A full level: [current] successes raise the limit by one. *)
Lemma success_level s :
  1 ≤ current_concurrency s → current_concurrency s < max_concurrency s →
  consecutive_successes s = 0 → max_concurrency s ≤ u64_max →
  success_times (Z.to_nat (current_concurrency s)) s =
    {| max_concurrency := max_concurrency s; current_concurrency := current_concurrency s + 1;
       in_flight := in_flight s; consecutive_successes := 0;
       cooldown_until := cooldown_until s |}.
Proof.
  intros Hc Hm H0 Hu. destruct (Z.to_nat (current_concurrency s)) as [|n] eqn:En; [lia|].
  change (success_times (S n) s) with (on_success (success_times n s) None).
  rewrite success_count by lia.
  unfold on_success. simpl. rewrite !wrap64_small by width_lia.
  destruct (Z.leb_spec (Z.max (current_concurrency s) 1) (Z.of_nat n + 1)); [|lia].
  destruct (Z.ltb_spec (current_concurrency s) (max_concurrency s)); [|lia]. simpl.
  done.
Qed.

Lemma success_times_add j k s : success_times (j + k) s = success_times j (success_times k s).
Proof. unfold success_times. by rewrite Nat.iter_add. Qed.

(** Successes needed to climb from [c] through [d] levels. *)
Fixpoint climb (c : Z) (d : nat) : nat :=
  match d with O => O | S d => (climb (c + 1) d + Z.to_nat c)%nat end.

Lemma climb_closed c d :
  1 ≤ c → 2 * Z.of_nat (climb c d) = Z.of_nat d * (2 * c + Z.of_nat d - 1).
Proof.
  revert c. induction d as [|d IH]; intros c Hc; [done|]. cbn [climb].
  rewrite Nat2Z.inj_add, Z.mul_add_distr_l, IH by lia. rewrite Z2Nat.id by lia. lia.
Qed.

Lemma success_climb d s :
  1 ≤ current_concurrency s → current_concurrency s + Z.of_nat d = max_concurrency s →
  consecutive_successes s = 0 → max_concurrency s ≤ u64_max →
  current_concurrency (success_times (climb (current_concurrency s) d) s) = max_concurrency s.
Proof.
  revert s. induction d as [|d IH]; intros s Hc Hd H0 Hu; [simpl in *; lia|].
  cbn [climb]. rewrite success_times_add, success_level by lia.
  match goal with |- context [success_times _ ?x] => set (s' := x) end.
  apply (IH s'); simpl; lia.
Qed.

(** Backoff and recovery (AIMD): [k] consecutive 429s divide the adaptive
    limit by [2^k], rounding up, so it reaches 1 but never 0; after that, with
    [c] the reduced limit and [max - c = d], [d * (2c + d - 1) / 2] successes
    without a quota warning bring it back to the maximum. *)
Theorem limiter_aimd (m : Z) (k d : nat) (s : LimiterState) :
  1 ≤ current_concurrency s ≤ m → max_concurrency s = m → m ≤ u64_max →
  let c := (current_concurrency s + 2 ^ Z.of_nat k - 1) / 2 ^ Z.of_nat k in
  ∃ s1, rate_limited_times k s = Some s1 ∧ current_concurrency s1 = c ∧ 1 ≤ c
  ∧ (c + Z.of_nat d = m → (1 ≤ k)%nat →
     ∃ n, 2 * Z.of_nat n = Z.of_nat d * (2 * c + Z.of_nat d - 1)
          ∧ current_concurrency (success_times n s1) = m).
Proof.
  intros Hc Hm Hu. cbv zeta.
  destruct (rate_limited_current k s ltac:(lia)) as (s1 & Hs & Hmax & Hcur & H0).
  set (c := (_ + _ - _) / _) in *.
  assert (Hc1 : 1 ≤ c).
  { apply Z.div_le_lower_bound; [apply Z.pow_pos_nonneg; lia|lia]. }
  exists s1. split_and!; [done|done|done|]. intros Hd Hk. specialize (H0 Hk).
  exists (climb c d). split; [by apply climb_closed|].
  rewrite <- Hcur, <- Hm, <- Hmax. apply success_climb; lia.
Qed.

Lemma limiter_aimd_witness :
  ∃ s1, rate_limited_times 2 (Limiter_new 10) = Some s1 ∧ current_concurrency s1 = 3
  ∧ ∃ n, 2 * Z.of_nat n = 84 ∧ current_concurrency (success_times n s1) = 10.
Proof.
  destruct (limiter_aimd 10 2 7 (Limiter_new 10) ltac:(simpl; lia) eq_refl
    ltac:(vm_compute; discriminate)) as (s1 & Hs & H1 & _ & H2).
  exists s1. split; [exact Hs|]. split; [exact H1|]. apply H2; [reflexivity|lia].
Defined.
