(* ===== verification/TokenRate.v ===== *)
(** * TokenRate: token-consumption limits (src/src/gateway/token_rate_limit.rs)

    The sliding-window token counter of [TokenRateLimiter] (a list of
    sub-windows per scope key), the request budget of [TokenRequestTracker]
    and the spend tracker [TokenBudgetTracker].  Instants are nanoseconds. *)

From Stdlib Require Import ZArith SpecFloat.
From stdpp Require Import base gmap sets list strings sorting.
From S2P Require Import Prelude Float Net RateWindow.

Local Open Scope Z_scope.

Definition SUB_WINDOWS : Z := 6.

Inductive TokenScope := Global | PerKey | PerIp.
Record TokenRateLimitConfig := mkTokenConfig {
  max_tokens : Z;
  window_seconds : Z;
  scope : TokenScope;
}.

Record SubWindow := mkSub { tokens : Z; started_at : Z }.
Abbreviation TokenBucket := (list SubWindow).

Record RateLimitExceeded := mkTokenExceeded {
  x_window_seconds : Z;
  x_max_tokens : Z;
  x_current_tokens : Z;
}.

(** [TokenBucket::prune], [sum] and [record] of a bucket with this window. *)
Definition in_window (window now : Z) (sw : SubWindow) : bool :=
  sat_sub now (started_at sw) <? from_secs window.
Definition prune (window : Z) (b : TokenBucket) (now : Z) : TokenBucket :=
  filter (λ sw, in_window window now sw = true) b.
Definition bucket_sum (b : TokenBucket) : Z :=
  fold_left (λ acc sw, wrap64 (acc + tokens sw)) b 0.
Definition sub_duration (window : Z) : Z := from_secs (Z.max (window / SUB_WINDOWS) 1).
Definition bucket_record (window : Z) (b : TokenBucket) (n now : Z) : TokenBucket :=
  let push := b ++ [mkSub n now] in
  match last b with
  | Some lst =>
      if sat_sub now (started_at lst) <? sub_duration window
      then <[Nat.pred (length b) := mkSub (wrap64 (tokens lst + n)) (started_at lst)]> b
      else push
  | None => push
  end.

(** [TokenRateLimiter]. *)
Definition scope_key (config : TokenRateLimitConfig) (api_key : option string)
    (client_ip : option IpAddr) : string :=
  match scope config with
  | Global => "__global__"
  | PerKey => default "__no_key__"%string api_key
  | PerIp => match client_ip with Some ip => ip_to_string ip | None => "__no_ip__" end
  end.
Definition token_check (config : TokenRateLimitConfig) (buckets : gmap string TokenBucket)
    (key : string) (now : Z) : gmap string TokenBucket * Result Z RateLimitExceeded :=
  let bucket := prune (window_seconds config) (default [] (buckets !! key)) now in
  let current := bucket_sum bucket in
  (<[key := bucket]> buckets,
   if max_tokens config <=? current
   then Err {| x_window_seconds := window_seconds config;
               x_max_tokens := max_tokens config; x_current_tokens := current |}
   else Ok (sat_sub (max_tokens config) current)).
Definition token_record (config : TokenRateLimitConfig) (buckets : gmap string TokenBucket)
    (key : string) (n now : Z) : gmap string TokenBucket :=
  let bucket := prune (window_seconds config) (default [] (buckets !! key)) now in
  <[key := bucket_record (window_seconds config) bucket n now]> buckets.

(** Calls on the limiter, each with the instant it reads. *)
Inductive TokenCall :=
| CallCheck (key : string) (now : Z)
| CallRecord (key : string) (n now : Z).
Definition call_time (c : TokenCall) : Z :=
  match c with CallCheck _ now => now | CallRecord _ _ now => now end.
Definition token_call (config : TokenRateLimitConfig) (buckets : gmap string TokenBucket)
    (c : TokenCall) : gmap string TokenBucket :=
  match c with
  | CallCheck key now => (token_check config buckets key now).1
  | CallRecord key n now => token_record config buckets key n now
  end.
Definition token_run (config : TokenRateLimitConfig) (cs : list TokenCall) :
    gmap string TokenBucket := fold_left (token_call config) cs ∅.

(** The tokens a key has recorded, with their instants. *)
Definition recorded (key : string) (cs : list TokenCall) : list (Z * Z) :=
  omap (λ c, match c with
             | CallRecord k n now => if decide (k = key) then Some (now, n) else None
             | CallCheck _ _ => None
             end) cs.
Definition tokens_where (P : Z → bool) (h : list (Z * Z)) : Z :=
  foldr (λ p acc, (if P p.1 then p.2 else 0) + acc) 0 h.

(** ** Requests and spend per token *)

Record TokenRequestLimitExceeded := mkReqExceeded {
  r_max_requests : Z;
  r_current_requests : Z;
}.
Definition tracker_sync (counts : gmap string Z) (key_id : string) (observed : Z) :
    gmap string Z * Z :=
  let entry := default observed (counts !! key_id) in
  let entry := if entry <? observed then observed else entry in
  (<[key_id := entry]> counts, entry).
Definition tracker_check_and_increment (counts : gmap string Z) (key_id : string)
    (observed max_requests : Z) : gmap string Z * Result Z TokenRequestLimitExceeded :=
  let entry := default observed (counts !! key_id) in
  let entry := if entry <? observed then observed else entry in
  if max_requests <=? entry then
    (<[key_id := entry]> counts,
     Err {| r_max_requests := max_requests; r_current_requests := entry |})
  else
    let entry := sat_add64 entry 1 in
    (<[key_id := entry]> counts, Ok (sat_sub max_requests entry)).

Record TokenBudgetExceeded := mkBudgetExceeded {
  max_budget : f64;
  current_spend : f64;
}.
Definition budget_sync (spends : gmap string f64) (key_id : string) (observed : f64) :
    gmap string f64 * f64 :=
  let entry := default observed (spends !! key_id) in
  let entry := if f64_lt entry observed then observed else entry in
  (<[key_id := entry]> spends, entry).
Definition add_spend (spends : gmap string f64) (key_id : string) (observed spend_delta : f64) :
    gmap string f64 * f64 :=
  let entry := default observed (spends !! key_id) in
  let entry := if f64_lt entry observed then observed else entry in
  let entry := if f64_is_finite spend_delta && f64_gt spend_delta f64_zero
               then f64_add entry spend_delta else entry in
  (<[key_id := entry]> spends, entry).
Definition ensure_within_budget (spends : gmap string f64) (key_id : string)
    (observed budget : f64) : gmap string f64 * Result f64 TokenBudgetExceeded :=
  let '(spends, current) := budget_sync spends key_id observed in
  (spends,
   if f64_ge current budget
   then Err {| max_budget := budget; current_spend := current |}
   else Ok (f64_max (f64_sub budget current) f64_zero)).

(** ** The window a bucket holds *)

(** Sums without wrap-around. *)
Definition raw_sum (b : TokenBucket) : Z := foldr (λ sw acc, tokens sw + acc) 0 b.
Definition window_sum (window now : Z) (b : TokenBucket) : Z :=
  foldr (λ sw acc, (if in_window window now sw then tokens sw else 0) + acc) 0 b.
(** A recorded amount tagged with the start of the sub-window it went to. *)
Definition tagged_sum (window now : Z) (tags : list (Z * (Z * Z))) : Z :=
  foldr (λ p acc, (if sat_sub now p.1 <? from_secs window then p.2.2 else 0) + acc) 0 tags.

Lemma raw_sum_app b b' : raw_sum (b ++ b') = raw_sum b + raw_sum b'.
Proof. induction b; simpl; lia. Qed.
Lemma window_sum_app w now b b' :
  window_sum w now (b ++ b') = window_sum w now b + window_sum w now b'.
Proof. induction b; simpl; lia. Qed.
Lemma tagged_sum_app w now t t' :
  tagged_sum w now (t ++ t') = tagged_sum w now t + tagged_sum w now t'.
Proof. induction t; simpl; lia. Qed.
Lemma tokens_where_app P h h' : tokens_where P (h ++ h') = tokens_where P h + tokens_where P h'.
Proof. induction h; simpl; lia. Qed.

Definition nonneg (b : TokenBucket) : Prop := Forall (λ sw, 0 ≤ tokens sw) b.

Lemma raw_sum_nonneg b : nonneg b → 0 ≤ raw_sum b.
Proof. induction 1; simpl; lia. Qed.

Lemma bucket_sum_raw b : nonneg b → raw_sum b ≤ u64_max → bucket_sum b = raw_sum b.
Proof.
  intros Hn Hb. unfold bucket_sum.
  assert (Hacc : ∀ acc, 0 ≤ acc → acc + raw_sum b ≤ u64_max →
    fold_left (λ acc sw, wrap64 (acc + tokens sw)) b acc = acc + raw_sum b).
  { clear Hb. induction Hn as [|sw b Hsw Hn IH]; intros acc Ha Hb; simpl in *; [lia|].
    pose proof (raw_sum_nonneg b Hn). rewrite wrap64_small by width_lia.
    rewrite IH by lia. lia. }
  rewrite Hacc; lia.
Qed.

Lemma prune_raw_sum w b now : raw_sum (prune w b now) = window_sum w now b.
Proof.
  unfold prune. induction b as [|sw b IH]; [done|]. rewrite filter_cons. simpl.
  destruct (in_window w now sw); simpl; rewrite IH; lia.
Qed.

Lemma in_window_later w now now' sw :
  now ≤ now' → in_window w now' sw = true → in_window w now sw = true.
Proof. unfold in_window. rewrite !Z.ltb_lt. width_lia. Qed.

Lemma prune_window_sum w b now now' :
  now ≤ now' → window_sum w now' (prune w b now) = window_sum w now' b.
Proof.
  intros Hle. unfold prune. induction b as [|sw b IH]; [done|]. rewrite filter_cons. simpl.
  destruct (in_window w now sw) eqn:E; simpl; rewrite IH; [done|].
  destruct (in_window w now' sw) eqn:E'; [|done].
  by rewrite (in_window_later w now now') in E.
Qed.

Lemma window_sum_le w now b : nonneg b → 0 ≤ window_sum w now b ≤ raw_sum b.
Proof. induction 1; simpl; [lia|]. destruct (in_window _ _ _); lia. Qed.

Lemma prune_Forall (P : SubWindow → Prop) w b now : Forall P b → Forall P (prune w b now).
Proof.
  rewrite !Forall_forall. intros HP sw [_ Hsw]%list_elem_of_filter. auto.
Qed.

Lemma prune_nonneg w b now : nonneg b → nonneg (prune w b now).
Proof. apply prune_Forall. Qed.

Lemma last_insert {A} (l : list A) (x y : A) :
  <[Nat.pred (length (l ++ [x])) := y]> (l ++ [x]) = l ++ [y].
Proof.
  rewrite length_app. replace (Nat.pred _) with (length l + 0)%nat by (simpl; lia).
  by rewrite insert_app_r.
Qed.

(** The bucket of a key against the amounts recorded for it up to [lst]. *)
Definition bucket_inv (w lst : Z) (b : TokenBucket) (h : list (Z * Z)) : Prop :=
  ∃ tags : list (Z * (Z * Z)),
    h = tags.*2
    ∧ Forall (λ p, p.1 ≤ p.2.1 ∧ p.2.1 ≤ lst ∧ p.2.1 - p.1 < sub_duration w) tags
    ∧ (∀ now, lst ≤ now → window_sum w now b = tagged_sum w now tags)
    ∧ nonneg b
    ∧ Forall (λ sw, started_at sw ≤ lst) b
    ∧ raw_sum b ≤ tokens_where (λ _, true) h.

Lemma bucket_inv_nil w lst : bucket_inv w lst [] [].
Proof. exists []. split_and!; try done; constructor. Qed.

Lemma bucket_inv_prune w lst now b h :
  lst ≤ now → bucket_inv w lst b h → bucket_inv w now (prune w b now) h.
Proof.
  intros Hle (tags & Hh & Htags & Hwin & Hnn & Hst & Htot). exists tags. split_and!.
  - done.
  - eapply Forall_impl; [exact Htags|]. simpl. intros; lia.
  - intros now' Hn'. rewrite prune_window_sum by done. apply Hwin. lia.
  - by apply prune_nonneg.
  - apply prune_Forall. eapply Forall_impl; [exact Hst|]. simpl. intros; lia.
  - rewrite prune_raw_sum. pose proof (window_sum_le w now b Hnn). lia.
Qed.

Lemma sub_duration_pos w : 0 < sub_duration w.
Proof. unfold sub_duration, from_secs. lia. Qed.

Lemma bucket_inv_record w now b h n :
  0 ≤ n → tokens_where (λ _, true) h + n ≤ u64_max → bucket_inv w now b h →
  bucket_inv w now (bucket_record w b n now) (h ++ [(now, n)]).
Proof.
  intros Hn Hmax (tags & -> & Htags & Hwin & Hnn & Hst & Htot). unfold bucket_record.
  pose proof (sub_duration_pos w) as Hsub.
  assert (Hpush : bucket_inv w now (b ++ [mkSub n now]) (tags.*2 ++ [(now, n)])).
  { exists (tags ++ [(now, (now, n))]). split_and!.
    - by rewrite fmap_app.
    - apply Forall_app. split; [done|]. repeat constructor; simpl; lia.
    - intros now' Hn'. rewrite window_sum_app, tagged_sum_app, (Hwin now' Hn'). done.
    - apply Forall_app. split; [done|]. by repeat constructor.
    - apply Forall_app. split; [done|]. by repeat constructor.
    - rewrite raw_sum_app, tokens_where_app. simpl. lia. }
  destruct (last b) as [lst|] eqn:El; [|done].
  destruct (Z.ltb_spec (sat_sub now (started_at lst)) (sub_duration w)); [|done].
  apply last_Some in El as [b0 ->].
  apply Forall_app in Hnn as [Hnn0 Hnn1]. apply Forall_app in Hst as [Hst0 Hst1].
  apply Forall_cons in Hnn1 as [Hl _]. apply Forall_cons in Hst1 as [Hs _].
  rewrite last_insert. rewrite raw_sum_app in Htot. simpl in Htot.
  pose proof (raw_sum_nonneg b0 Hnn0). rewrite wrap64_small by width_lia.
  exists (tags ++ [(started_at lst, (now, n))]). split_and!.
  - by rewrite fmap_app.
  - apply Forall_app. split; [done|]. repeat constructor; simpl; width_lia.
  - intros now' Hn'. specialize (Hwin now' Hn').
    rewrite window_sum_app in Hwin. rewrite window_sum_app, tagged_sum_app.
    simpl in *. unfold in_window in *. simpl in *. destruct (sat_sub now' (started_at lst) <? from_secs w); lia.
  - apply Forall_app. split; [done|]. repeat constructor. simpl. lia.
  - apply Forall_app. split; [done|]. by repeat constructor.
  - rewrite raw_sum_app, tokens_where_app. simpl. lia.
Qed.

(** What a bucket counts at [now]: everything recorded within the window less
    one sub-window, nothing older than the window. *)
Lemma bucket_inv_bounds w lst b h now :
  lst ≤ now → Forall (λ p, 0 ≤ p.2) h → bucket_inv w lst b h →
  tokens_where (λ t, now - t <=? from_secs w - sub_duration w) h
  ≤ window_sum w now b
  ≤ tokens_where (λ t, now - t <? from_secs w) h.
Proof.
  pose proof (sub_duration_pos w) as Hsub.
  intros Hle Hh (tags & -> & Htags & Hwin & _). rewrite (Hwin now Hle). clear Hwin.
  induction Htags as [|[s [t n]] tags (H1 & H2 & H3) Htags IH]; simpl in *; [lia|].
  change (list_fmap _ _ snd tags) with (tags.*2) in *.
  apply Forall_cons in Hh as [Hn Hh]. specialize (IH Hh). simpl in Hn.
  destruct (Z.leb_spec (now - t) (from_secs w - sub_duration w));
    destruct (Z.ltb_spec (sat_sub now s) (from_secs w));
    destruct (Z.ltb_spec (now - t) (from_secs w)); width_lia.
Qed.

(** ** Runs *)

Section run.
Context (config : TokenRateLimitConfig) (key : string).
Let w := window_seconds config.

Definition bucket_of (buckets : gmap string TokenBucket) : TokenBucket :=
  default [] (buckets !! key).

Lemma token_call_inv buckets c lst h :
  lst ≤ call_time c →
  (∀ n, recorded key [c] = [(call_time c, n)] →
     0 ≤ n ∧ tokens_where (λ _, true) h + n ≤ u64_max) →
  bucket_inv w lst (bucket_of buckets) h →
  bucket_inv w (call_time c) (bucket_of (token_call config buckets c)) (h ++ recorded key [c]).
Proof.
  intros Hle Hn Hinv. pose proof (bucket_inv_prune w lst (call_time c) _ _ Hle Hinv) as Hp.
  assert (Hsame : bucket_inv w (call_time c) (bucket_of buckets) h).
  { destruct Hinv as (tags & ? & Htags & Hwin & ? & Hst & ?). exists tags.
    split_and!; try done.
    - eapply Forall_impl; [exact Htags|]. simpl. intros; lia.
    - intros now Hnow. apply Hwin. lia.
    - eapply Forall_impl; [exact Hst|]. simpl. intros; lia. }
  destruct c as [k now|k n now]; simpl in *.
  - rewrite app_nil_r. unfold bucket_of, token_check in *. simpl.
    rewrite lookup_insert. by case_decide; subst.
  - unfold token_record, bucket_of in *. rewrite lookup_insert. case_decide as Hk.
    + subst k. destruct (Hn n eq_refl). simpl. by apply bucket_inv_record.
    + by rewrite app_nil_r.
Qed.

Lemma recorded_app cs cs' : recorded key (cs ++ cs') = recorded key cs ++ recorded key cs'.
Proof. apply omap_app. Qed.

Lemma token_run_inv cs lst buckets h :
  StronglySorted Z.le (lst :: map call_time cs) →
  Forall (λ p, 0 ≤ p.2) (recorded key cs) → 
  tokens_where (λ _, true) (h ++ recorded key cs) ≤ u64_max →
  bucket_inv w lst (bucket_of buckets) h →
  ∃ lst', bucket_inv w lst' (bucket_of (fold_left (token_call config) cs buckets))
            (h ++ recorded key cs)
          ∧ (∀ now, lst ≤ now → Forall (λ t, t ≤ now) (map call_time cs) → lst' ≤ now).
Proof.
  revert lst buckets h. induction cs as [|c cs IH]; intros lst buckets h Hs Hnn Hmax Hinv.
  { exists lst. change (recorded key []) with (@nil (Z * Z)). rewrite app_nil_r. by split. }
  apply StronglySorted_inv in Hs as [Hs Hall]. simpl in Hall.
  apply Forall_cons in Hall as [Hle _].
  change (c :: cs) with ([c] ++ cs) in Hnn, Hmax |- *. rewrite recorded_app in *.
  apply Forall_app in Hnn as [Hn1 Hn2].
  rewrite !tokens_where_app in Hmax.
  assert (Hpos : 0 ≤ tokens_where (λ _, true) (recorded key cs)).
  { clear -Hn2. induction Hn2; simpl; lia. }
  assert (Hinv' := token_call_inv buckets c lst h Hle).
  destruct (IH (call_time c) (token_call config buckets c) (h ++ recorded key [c]))
    as (lst' & Hi & Hl).
  - done.
  - done.
  - rewrite !tokens_where_app. lia.
  - apply Hinv'; [|done]. intros n Hrec. rewrite Hrec in *. simpl in *.
    apply Forall_cons in Hn1 as [Hn _]. simpl in Hn. lia.
  - exists lst'. rewrite app_assoc. split; [exact Hi|]. intros now _ Hnow.
    apply Forall_cons in Hnow as [? ?]. by apply Hl.
Qed.
End run.

(** The sliding window counts what it should: for calls on any keys at
    non-decreasing instants, a check of [key] at [now] compares the ceiling
    with a token count that includes everything the key recorded at most
    [window - window/6] ago and nothing it recorded a window ago or earlier;
    other keys do not matter. *)
Theorem token_window_bounds (config : TokenRateLimitConfig) (cs : list TokenCall)
    (key : string) (now : Z) :
  StronglySorted Z.le (0 :: map call_time cs) →
  Forall (λ t, t ≤ now) (0 :: map call_time cs) →
  Forall (λ p, 0 ≤ p.2) (recorded key cs) →
  tokens_where (λ _, true) (recorded key cs) ≤ u64_max →
  let w := window_seconds config in
  ∃ current,
    tokens_where (λ t, now - t <=? from_secs w - sub_duration w) (recorded key cs)
    ≤ current
    ≤ tokens_where (λ t, now - t <? from_secs w) (recorded key cs)
    ∧ (token_check config (token_run config cs) key now).2
      = if max_tokens config <=? current
        then Err {| x_window_seconds := w; x_max_tokens := max_tokens config;
                    x_current_tokens := current |}
        else Ok (max_tokens config - current).
Proof.
  intros Hs [H0 Hnow]%Forall_cons Hnn Hmax. cbv zeta.
  destruct (token_run_inv config key cs 0 ∅ [] Hs Hnn Hmax) as (lst & Hinv & Hlst).
  { unfold bucket_of. rewrite lookup_empty. apply bucket_inv_nil. }
  fold (token_run config cs) in Hinv. specialize (Hlst now H0 Hnow).
  exists (window_sum (window_seconds config) now (bucket_of key (token_run config cs))).
  split; [by apply (bucket_inv_bounds _ lst)|].
  destruct Hinv as (tags & Hh & _ & _ & Hnonneg & _ & Htot). simpl in Hh, Htot.
  unfold token_check. fold (bucket_of key (token_run config cs)). cbn [snd].
  pose proof (window_sum_le (window_seconds config) now _ Hnonneg).
  rewrite bucket_sum_raw; [|by apply prune_nonneg|rewrite prune_raw_sum; lia].
  rewrite prune_raw_sum.
  destruct (Z.leb_spec (max_tokens config)
    (window_sum (window_seconds config) now (bucket_of key (token_run config cs)))); [done|].
  f_equal. width_lia.
Qed.

Definition demo_tokens : TokenRateLimitConfig := mkTokenConfig 100 60 PerKey.
Definition demo_calls : list TokenCall :=
  [CallRecord "k" 70 (from_secs 1); CallRecord "other" 500 (from_secs 2);
   CallCheck "k" (from_secs 3); CallRecord "k" 20 (from_secs 30)]%string.

(** At 65 s the first amount is over 60 s old, the second is inside. *)
Lemma token_window_bounds_witness :
  ∃ current, 20 ≤ current ≤ 20
    ∧ (token_check demo_tokens (token_run demo_tokens demo_calls) "k" (from_secs 65)).2
      = if 100 <=? current
        then Err {| x_window_seconds := 60; x_max_tokens := 100; x_current_tokens := current |}
        else Ok (100 - current).
Proof.
  apply (token_window_bounds demo_tokens demo_calls "k" (from_secs 65)).
  - repeat constructor; vm_compute; discriminate.
  - repeat constructor; vm_compute; discriminate.
  - repeat constructor; vm_compute; discriminate.
  - vm_compute. discriminate.
Defined.

(** ** The request budget *)

(** Calls [(key, observed)] with one ceiling; how many were admitted for a
    key. *)
Fixpoint tracker_admitted (key : string) (max_requests : Z) (counts : gmap string Z)
    (calls : list (string * Z)) : Z :=
  match calls with
  | [] => 0
  | (k, observed) :: calls =>
      let '(counts', r) := tracker_check_and_increment counts k observed max_requests in
      (if decide (k = key) then if is_ok r then 1 else 0 else 0)
      + tracker_admitted key max_requests counts' calls
  end.
Definition tracker_state (max_requests : Z) (counts : gmap string Z)
    (calls : list (string * Z)) : gmap string Z :=
  fold_left (λ m c, (tracker_check_and_increment m c.1 c.2 max_requests).1) calls counts.

Lemma tracker_step counts k observed max :
  max ≤ u64_max →
  let entry := Z.max observed (default observed (counts !! k)) in
  tracker_check_and_increment counts k observed max
  = if max <=? entry
    then (<[k := entry]> counts, Err (mkReqExceeded max entry))
    else (<[k := entry + 1]> counts, Ok (max - entry - 1)).
Proof.
  intros Hmax. simpl. unfold tracker_check_and_increment.
  set (d := default observed (counts !! k)).
  assert (He : (if d <? observed then observed else d) = Z.max observed d)
    by (destruct (Z.ltb_spec d observed); lia).
  rewrite He. destruct (Z.leb_spec max (Z.max observed d)); [done|].
  assert (Hs : sat_add64 (Z.max observed d) 1 = Z.max observed d + 1) by width_lia.
  rewrite Hs. repeat f_equal. width_lia.
Qed.

Lemma tracker_admitted_bound key max counts calls :
  max ≤ u64_max →
  0 ≤ default 0 (counts !! key) →
  Forall (λ c, 0 ≤ c.2) calls →
  tracker_admitted key max counts calls
  ≤ Z.max 0 (max - default 0 (counts !! key)).
Proof.
  intros Hmax. revert counts. induction calls as [|[k o] calls IH]; intros counts He Hall.
  { simpl. lia. }
  apply Forall_cons in Hall as [Ho Hall]. cbn [tracker_admitted]. rewrite tracker_step by done.
  cbv zeta. simpl in Ho. set (entry := Z.max o _).
  destruct (Z.leb_spec max entry).
  - specialize (IH (<[k := entry]> counts)). rewrite lookup_insert in IH.
    case_decide as Hk; subst; simpl in *; [|by apply IH].
    specialize (IH ltac:(lia) Hall). subst entry.
    destruct (counts !! key); simpl in *; lia.
  - specialize (IH (<[k := entry + 1]> counts)). rewrite lookup_insert in IH.
    case_decide as Hk; subst; simpl in *; [|by apply IH].
    specialize (IH ltac:(lia) Hall). subst entry.
    destruct (counts !! key); simpl in *; lia.
Qed.

(** A token's lifetime request budget is not overrun: over any sequence of
    calls by any tokens, whatever counts the store reports, a token starting
    with [observed] requests is admitted at most [max_requests - observed]
    times. *)
Theorem request_budget_cap (key : string) (max_requests observed : Z)
    (calls : list (string * Z)) :
  0 ≤ observed → max_requests ≤ u64_max → Forall (λ c, 0 ≤ c.2) calls →
  tracker_admitted key max_requests (tracker_sync ∅ key observed).1 calls
  ≤ Z.max 0 (max_requests - observed).
Proof.
  intros Ho Hmax Hall. unfold tracker_sync. rewrite lookup_empty. simpl.
  destruct (Z.ltb_spec observed observed); [lia|].
  pose proof (tracker_admitted_bound key max_requests {[key := observed]} calls Hmax) as Hb.
  rewrite lookup_singleton_eq in Hb. simpl in Hb. apply Hb; [lia|done].
Qed.

Lemma request_budget_cap_witness :
  tracker_admitted "k" 3 (tracker_sync ∅ "k" 1).1 [("k", 0); ("j", 9); ("k", 2); ("k", 0)]%string
  ≤ Z.max 0 (3 - 1).
Proof.
  apply (request_budget_cap "k" 3 1); [lia|vm_compute; discriminate|].
  repeat constructor; simpl; lia.
Defined.
