(* ===== verification/Admission.v ===== *)
(** * Admission: per-region and per-family admission control
      (src/src/gateway/admission_control.rs)

    [try_admit] is lock-free after it has obtained its two counters: it adds to
    a counter, looks at the previous value and takes the addition back when the
    limit was reached.  The model gives every atomic operation of [try_admit]
    and of [Drop for AdmissionPermit] its own step, so that any number of
    requests may be interleaved at every point. *)

From Stdlib Require Import ZArith.
From stdpp Require Import base gmap sets list strings.
From S2P Require Import Prelude.

Local Open Scope Z_scope.

Definition DEFAULT_MAX_CONCURRENT_PER_REGION : Z := 1000.
Definition DEFAULT_MAX_CONCURRENT_PER_FAMILY : Z := 5000.
Definition DEFAULT_MAX_QUEUE_WAIT_MS : Z := 30000.

Inductive AdmissionDenied :=
| RegionAtCapacity (region_key : string) (limit : Z)
| FamilyAtCapacity (family_key : string) (limit : Z)
| QueueTimeout (waited_ms : Z).

(** The controller: its two limits and its two counter maps. *)
Record AdmissionController := mkController {
  max_concurrent_per_region : Z;
  max_concurrent_per_family : Z;
  max_queue_wait_ms : Z;
  region_counters : gmap string Z;
  family_counters : gmap string Z;
}.

Definition AdmissionController_new (per_region per_family queue_wait_ms : option Z) :
    AdmissionController :=
  {| max_concurrent_per_region := default DEFAULT_MAX_CONCURRENT_PER_REGION per_region;
     max_concurrent_per_family := default DEFAULT_MAX_CONCURRENT_PER_FAMILY per_family;
     max_queue_wait_ms := default DEFAULT_MAX_QUEUE_WAIT_MS queue_wait_ms;
     region_counters := ∅; family_counters := ∅ |}.

Definition with_regions (c : AdmissionController) (m : gmap string Z) : AdmissionController :=
  {| max_concurrent_per_region := max_concurrent_per_region c;
     max_concurrent_per_family := max_concurrent_per_family c;
     max_queue_wait_ms := max_queue_wait_ms c;
     region_counters := m; family_counters := family_counters c |}.
Definition with_families (c : AdmissionController) (m : gmap string Z) : AdmissionController :=
  {| max_concurrent_per_region := max_concurrent_per_region c;
     max_concurrent_per_family := max_concurrent_per_family c;
     max_queue_wait_ms := max_queue_wait_ms c;
     region_counters := region_counters c; family_counters := m |}.

(** [counter_for]: the counter of a key, created at zero. *)
Definition counter_for (m : gmap string Z) (key : string) : gmap string Z :=
  match m !! key with Some _ => m | None => <[key := 0]> m end.
Definition load (m : gmap string Z) (key : string) : Z := default 0 (m !! key).
(** [fetch_add(1)] and [fetch_sub(1)] wrap. *)
Definition fetch_add (m : gmap string Z) (key : string) : gmap string Z :=
  <[key := wrap64 (load m key + 1)]> m.
Definition fetch_sub (m : gmap string Z) (key : string) : gmap string Z :=
  <[key := wrap64 (load m key - 1)]> m.

(** Where a request is between two atomic operations. *)
Inductive Request :=
| GetRegion (r f : string)       (** about to call [counter_for] for the region *)
| GetFamily (r f : string)
| AddRegion (r f : string)       (** about to add to the region counter *)
| UndoRegion (r f : string)      (** region was full: about to take it back *)
| AddFamily (r f : string)
| UndoFamily (r f : string)      (** family was full: about to take it back *)
| UndoRegion2 (r f : string)     (** ... and then the region *)
| Permit (r f : string)          (** a live [AdmissionPermit] *)
| DropFamily (r f : string)      (** the permit's [drop] between its two steps *)
| Denied (e : AdmissionDenied)
| Released.

(** The next atomic operation of a request; [None] when it has finished. *)
Definition request_step (c : AdmissionController) (t : Request) :
    option (AdmissionController * Request) :=
  match t with
  | GetRegion r f =>
      Some (with_regions c (counter_for (region_counters c) r), GetFamily r f)
  | GetFamily r f =>
      Some (with_families c (counter_for (family_counters c) f), AddRegion r f)
  | AddRegion r f =>
      let prev_region := load (region_counters c) r in
      Some (with_regions c (fetch_add (region_counters c) r),
            if max_concurrent_per_region c <=? prev_region
            then UndoRegion r f else AddFamily r f)
  | UndoRegion r f =>
      Some (with_regions c (fetch_sub (region_counters c) r),
            Denied (RegionAtCapacity r (max_concurrent_per_region c)))
  | AddFamily r f =>
      let prev_family := load (family_counters c) f in
      Some (with_families c (fetch_add (family_counters c) f),
            if max_concurrent_per_family c <=? prev_family
            then UndoFamily r f else Permit r f)
  | UndoFamily r f =>
      Some (with_families c (fetch_sub (family_counters c) f), UndoRegion2 r f)
  | UndoRegion2 r f =>
      Some (with_regions c (fetch_sub (region_counters c) r),
            Denied (FamilyAtCapacity f (max_concurrent_per_family c)))
  | Permit r f =>
      Some (with_regions c (fetch_sub (region_counters c) r), DropFamily r f)
  | DropFamily r f =>
      Some (with_families c (fetch_sub (family_counters c) f), Released)
  | Denied _ | Released => None
  end.

(** The pool of requests: a new one arrives, or one of them takes its next
    atomic step. *)
Inductive pool_step : AdmissionController * list Request →
    AdmissionController * list Request → Prop :=
| PoolArrive c ts r f : pool_step (c, ts) (c, ts ++ [GetRegion r f])
| PoolStep c ts i t c' t' :
    ts !! i = Some t → request_step c t = Some (c', t') →
    pool_step (c, ts) (c', <[i := t']> ts).

(** [try_admit] with no other request running. *)
Definition run_request (fuel : nat) (c : AdmissionController) (t : Request) :
    AdmissionController * Request :=
  Nat.iter fuel (λ ct, match ct.2 with
                       | Permit _ _ => ct
                       | _ => default ct (request_step ct.1 ct.2)
                       end) (c, t).
Definition try_admit (c : AdmissionController) (region_key family_key : string) :
    AdmissionController * Result (string * string) AdmissionDenied :=
  let '(c', t) := run_request 6 c (GetRegion region_key family_key) in
  (c', match t with
       | Permit r f => Ok (r, f)
       | Denied e => Err e
       | _ => Err (QueueTimeout 0)
       end).

(** ** Counting *)

(** Units a request has added to a counter and not yet taken back. *)
Definition region_units (k : string) (t : Request) : Z :=
  match t with
  | UndoRegion r _ | AddFamily r _ | UndoFamily r _ | UndoRegion2 r _ | Permit r _ =>
      if decide (r = k) then 1 else 0
  | _ => 0
  end.
Definition family_units (k : string) (t : Request) : Z :=
  match t with
  | UndoFamily _ f | Permit _ f | DropFamily _ f => if decide (f = k) then 1 else 0
  | _ => 0
  end.
(** Requests that have passed the region (family) check. *)
Definition region_passed (k : string) (t : Request) : Z :=
  match t with
  | AddFamily r _ | UndoFamily r _ | UndoRegion2 r _ | Permit r _ =>
      if decide (r = k) then 1 else 0
  | _ => 0
  end.
Definition family_passed (k : string) (t : Request) : Z :=
  match t with
  | Permit _ f | DropFamily _ f => if decide (f = k) then 1 else 0
  | _ => 0
  end.
Definition live_in_region (k : string) (t : Request) : Z :=
  match t with Permit r _ => if decide (r = k) then 1 else 0 | _ => 0 end.
Definition live_in_family (k : string) (t : Request) : Z :=
  match t with Permit _ f => if decide (f = k) then 1 else 0 | _ => 0 end.

Fixpoint total (w : Request → Z) (ts : list Request) : Z :=
  match ts with [] => 0 | t :: ts => w t + total w ts end.

Lemma total_app w ts ts' : total w (ts ++ ts') = total w ts + total w ts'.
Proof. induction ts as [|t ts IH]; simpl; lia. Qed.

Lemma total_insert w ts i t t' :
  ts !! i = Some t → total w (<[i := t']> ts) = total w ts - w t + w t'.
Proof.
  revert i. induction ts as [|u ts IH]; intros [|i]; simpl; try done.
  - intros [= ->]. lia.
  - intros Hi. rewrite (IH i Hi). lia.
Qed.

Lemma total_le w w' ts : (∀ t, w t ≤ w' t) → total w ts ≤ total w' ts.
Proof. intros Hw. induction ts as [|t ts IH]; simpl; [lia|]. specialize (Hw t). lia. Qed.

Lemma total_nonneg w ts : (∀ t, 0 ≤ w t) → 0 ≤ total w ts.
Proof. intros Hw. induction ts as [|t ts IH]; simpl; [lia|]. specialize (Hw t). lia. Qed.

Lemma total_length w ts : (∀ t, w t ≤ 1) → total w ts ≤ Z.of_nat (length ts).
Proof. intros Hw. induction ts as [|t ts IH]; simpl; [lia|]. specialize (Hw t). lia. Qed.

Ltac units :=
  intros; repeat match goal with t : Request |- _ => destruct t end; simpl;
  repeat case_decide; lia.

Lemma region_units_bounds k t : 0 ≤ region_units k t ≤ 1.
Proof. units. Qed.
Lemma family_units_bounds k t : 0 ≤ family_units k t ≤ 1.
Proof. units. Qed.
Lemma region_passed_le k t : region_passed k t ≤ region_units k t.
Proof. units. Qed.
Lemma family_passed_le k t : family_passed k t ≤ family_units k t.
Proof. units. Qed.
Lemma live_in_region_le k t : live_in_region k t ≤ region_passed k t.
Proof. units. Qed.
Lemma live_in_family_le k t : live_in_family k t ≤ family_passed k t.
Proof. units. Qed.
#[export] Hint Resolve region_passed_le family_passed_le live_in_region_le
  live_in_family_le : verdictan.

Lemma load_fetch_add m k k' :
  load (fetch_add m k) k' = if decide (k = k') then wrap64 (load m k + 1) else load m k'.
Proof.
  unfold fetch_add, load at 1. rewrite lookup_insert. by case_decide.
Qed.
Lemma load_fetch_sub m k k' :
  load (fetch_sub m k) k' = if decide (k = k') then wrap64 (load m k - 1) else load m k'.
Proof.
  unfold fetch_sub, load at 1. rewrite lookup_insert. by case_decide.
Qed.
Lemma load_counter_for m k k' : load (counter_for m k) k' = load m k'.
Proof.
  unfold counter_for, load. destruct (m !! k) eqn:E; [done|].
  rewrite lookup_insert. case_decide; [subst; by rewrite E|done].
Qed.

(** ** The invariant *)

Record pool_inv (lr lf : Z) (p : AdmissionController * list Request) : Prop := {
  inv_lr : max_concurrent_per_region p.1 = lr;
  inv_lf : max_concurrent_per_family p.1 = lf;
  inv_region : ∀ k, load (region_counters p.1) k = total (region_units k) p.2;
  inv_family : ∀ k, load (family_counters p.1) k = total (family_units k) p.2;
  inv_region_cap : ∀ k, total (region_passed k) p.2 ≤ lr;
  inv_family_cap : ∀ k, total (family_passed k) p.2 ≤ lf;
}.

(** How a step changes the counters: each counter moves by the units its
    request gains or gives back (before wrapping). *)
Lemma request_step_units c t c' t' :
  request_step c t = Some (c', t') →
  max_concurrent_per_region c' = max_concurrent_per_region c
  ∧ max_concurrent_per_family c' = max_concurrent_per_family c
  ∧ (∀ k, u64_ok (load (region_counters c) k - region_units k t + region_units k t') →
       load (region_counters c') k
       = load (region_counters c) k - region_units k t + region_units k t')
  ∧ (∀ k, u64_ok (load (family_counters c) k - family_units k t + family_units k t') →
       load (family_counters c') k
       = load (family_counters c) k - family_units k t + family_units k t').
Proof.
  destruct t as [r f|r f|r f|r f|r f|r f|r f|r f|r f|e|]; simpl; intros [= <- <-]; simpl.
  all: split_and!; [done|done|intros k Hk|intros k Hk].
  all: try destruct (_ <=? _); simpl in *.
  all: rewrite ?load_counter_for, ?load_fetch_add, ?load_fetch_sub.
  all: repeat case_decide; subst; try (rewrite wrap64_small; [lia|]; try done); try lia.
  all: try (rewrite <- Hk; f_equal; lia).
  all: match goal with H : u64_ok ?x |- u64_ok ?y => replace y with x by lia; exact H end.
Qed.

(** A request passes a check only when the counter it read was below the
    limit. *)
Lemma request_step_passed c t c' t' k :
  request_step c t = Some (c', t') →
  (region_passed k t' ≤ region_passed k t
   ∨ (region_passed k t' = 1 ∧ region_passed k t = 0
      ∧ load (region_counters c) k < max_concurrent_per_region c))
  ∧ (family_passed k t' ≤ family_passed k t
   ∨ (family_passed k t' = 1 ∧ family_passed k t = 0
      ∧ load (family_counters c) k < max_concurrent_per_family c)).
Proof.
  destruct t as [r f|r f|r f|r f|r f|r f|r f|r f|r f|e|]; simpl; intros [= <- <-]; simpl.
  all: try (destruct (Z.leb_spec (max_concurrent_per_region c) (load (region_counters c) r)));
       try (destruct (Z.leb_spec (max_concurrent_per_family c) (load (family_counters c) f)));
       simpl; repeat case_decide; subst; split; lia.
Qed.

Lemma pool_step_inv lr lf p p' :
  0 ≤ lr → 0 ≤ lf → Z.of_nat (length p'.2) ≤ u64_max →
  pool_inv lr lf p → pool_step p p' → pool_inv lr lf p'.
Proof.
  intros Hlr Hlf Hlen [I1 I2 I3 I4 I5 I6] Hs.
  destruct Hs as [c ts r f|c ts i t c' t' Hi Ht]; simpl in *.
  { split; simpl; try done; intros k; rewrite total_app; simpl; rewrite ?I3, ?I4; 
      specialize (I5 k); specialize (I6 k); lia. }
  rewrite length_insert in Hlen.
  destruct (request_step_units c t c' t' Ht) as (E1 & E2 & E3 & E4).
  assert (Htot : ∀ w, (∀ u, 0 ≤ w u ≤ 1) → u64_ok (total w ts - w t + w t')).
  { intros w Hw. rewrite <- (total_insert w ts i t t' Hi).
    pose proof (total_nonneg w (<[i:=t']> ts) (λ u, proj1 (Hw u))).
    pose proof (total_length w (<[i:=t']> ts) (λ u, proj2 (Hw u))) as Hl.
    rewrite length_insert in Hl. width_lia. }
  split; simpl; [congruence|congruence| | | |]; intros k; rewrite (total_insert _ _ _ _ _ Hi).
  - rewrite E3; rewrite I3; [done|]. apply Htot, region_units_bounds.
  - rewrite E4; rewrite I4; [done|]. apply Htot, family_units_bounds.
  - destruct (request_step_passed c t c' t' k Ht) as [[Hle|(H1 & H2 & H3)] _];
      specialize (I5 k); [lia|].
    rewrite I3 in H3. pose proof (total_le _ _ ts (region_passed_le k)). lia.
  - destruct (request_step_passed c t c' t' k Ht) as [_ [Hle|(H1 & H2 & H3)]];
      specialize (I6 k); [lia|].
    rewrite I4 in H3. pose proof (total_le _ _ ts (family_passed_le k)). lia.
Qed.

Lemma pool_step_length p p' : pool_step p p' → (length p.2 ≤ length p'.2)%nat.
Proof.
  destruct 1; simpl; [rewrite length_app; lia|by rewrite length_insert].
Qed.

Lemma AdmissionController_new_inv lr lf qw :
  0 ≤ lr → 0 ≤ lf → pool_inv lr lf (AdmissionController_new (Some lr) (Some lf) qw, []).
Proof. intros. by split. Qed.

Lemma pool_reachable_inv lr lf qw p :
  0 ≤ lr → 0 ≤ lf → Z.of_nat (length p.2) ≤ u64_max →
  rtc pool_step (AdmissionController_new (Some lr) (Some lf) qw, []) p → pool_inv lr lf p.
Proof.
  intros Hlr Hlf Hlen Hr. revert p Hr Hlen.
  apply (rtc_ind_r (λ p, Z.of_nat (length p.2) ≤ u64_max → pool_inv lr lf p)).
  - intros _. by apply AdmissionController_new_inv.
  - intros p p' Hr Hs IH Hlen. pose proof (pool_step_length _ _ Hs). eapply pool_step_inv; [done|done|done| |done].
    apply IH. lia.
Qed.

(** C4. No interleaving over-admits: whatever the order in which the atomic
    operations of any number of [try_admit] calls and permit drops run, every
    region has at most [max_concurrent_per_region] live permits and every
    family at most [max_concurrent_per_family]. *)
Theorem admission_never_over_admits (lr lf : Z) (qw : option Z) (c : AdmissionController)
    (ts : list Request) (k : string) :
  0 ≤ lr → 0 ≤ lf → Z.of_nat (length ts) ≤ u64_max →
  rtc pool_step (AdmissionController_new (Some lr) (Some lf) qw, []) (c, ts) →
  total (live_in_region k) ts ≤ lr ∧ total (live_in_family k) ts ≤ lf.
Proof.
  intros Hlr Hlf Hlen Hr.
  destruct (pool_reachable_inv lr lf qw (c, ts) Hlr Hlf Hlen Hr) as [_ _ _ _ H5 H6].
  pose proof (total_le _ _ ts (live_in_region_le k)).
  pose proof (total_le _ _ ts (live_in_family_le k)).
  specialize (H5 k). specialize (H6 k). simpl in *. lia.
Qed.

(** A request that is not between two atomic operations. *)
Definition settled (t : Request) : bool :=
  match t with Permit _ _ | Denied _ | Released => true | _ => false end.

Lemma settled_total k ts :
  Forall (λ t, settled t = true) ts →
  total (region_units k) ts = total (live_in_region k) ts
  ∧ total (family_units k) ts = total (live_in_family k) ts.
Proof.
  induction 1 as [|t ts Ht _ [IH1 IH2]]; [done|]. simpl. rewrite IH1, IH2.
  by destruct t.
Qed.

(** No capacity leaks: whenever no request is between two atomic
    operations, each counter is exactly the number of live permits of its
    region or family, however the requests before were interleaved, denied or
    dropped. *)
Theorem admission_no_leak (lr lf : Z) (qw : option Z) (c : AdmissionController) (ts : list Request)
    (k : string) :
  0 ≤ lr → 0 ≤ lf → Z.of_nat (length ts) ≤ u64_max →
  rtc pool_step (AdmissionController_new (Some lr) (Some lf) qw, []) (c, ts) →
  Forall (λ t, settled t = true) ts →
  load (region_counters c) k = total (live_in_region k) ts
  ∧ load (family_counters c) k = total (live_in_family k) ts.
Proof.
  intros Hlr Hlf Hlen Hr Hall.
  destruct (pool_reachable_inv lr lf qw (c, ts) Hlr Hlf Hlen Hr) as [_ _ H3 H4 _ _].
  destruct (settled_total k ts Hall) as [<- <-]. by split; [apply H3|apply H4].
Qed.

Lemma fetch_add_sub m k k' :
  0 ≤ load m k < u64_max → load (fetch_sub (fetch_add m k) k) k' = load m k'.
Proof.
  intros Hk. rewrite load_fetch_sub, !load_fetch_add.
  repeat case_decide; try done. subst. rewrite (wrap64_small (load m k' + 1)) by width_lia.
  rewrite wrap64_small by width_lia. lia.
Qed.

(** What one uninterrupted [try_admit] answers and does, on every branch:
    with room in both, it returns a permit and adds one to both counters; with
    the region full it is denied for the region, with only the family full for
    the family, and no counter has moved. *)
Theorem try_admit_exact (c : AdmissionController) (r f : string) :
  0 ≤ load (region_counters c) r < u64_max →
  0 ≤ load (family_counters c) f < u64_max →
  let '(c', res) := try_admit c r f in
  let lr := max_concurrent_per_region c in
  let lf := max_concurrent_per_family c in
  if lr <=? load (region_counters c) r then
    res = Err (RegionAtCapacity r lr)
    ∧ (∀ k, load (region_counters c') k = load (region_counters c) k)
    ∧ (∀ k, load (family_counters c') k = load (family_counters c) k)
  else if lf <=? load (family_counters c) f then
    res = Err (FamilyAtCapacity f lf)
    ∧ (∀ k, load (region_counters c') k = load (region_counters c) k)
    ∧ (∀ k, load (family_counters c') k = load (family_counters c) k)
  else
    res = Ok (r, f)
    ∧ load (region_counters c') r = load (region_counters c) r + 1
    ∧ load (family_counters c') f = load (family_counters c) f + 1
    ∧ (∀ k, k ≠ r → load (region_counters c') k = load (region_counters c) k)
    ∧ (∀ k, k ≠ f → load (family_counters c') k = load (family_counters c) k).
Proof.
  intros Hr Hf. unfold try_admit, run_request. cbn -[wrap64 load counter_for fetch_add fetch_sub].
  rewrite !load_counter_for.
  destruct (_ <=? load (region_counters c) r) eqn:Er;
    cbn -[wrap64 load counter_for fetch_add fetch_sub].
  { split_and!; [done|intros k|intros k; apply load_counter_for].
    rewrite fetch_add_sub by (by rewrite load_counter_for). apply load_counter_for. }
  rewrite !load_counter_for.
  destruct (_ <=? load (family_counters c) f) eqn:Ef;
    cbn -[wrap64 load counter_for fetch_add fetch_sub].
  { split_and!; [done|intros k|intros k];
      (rewrite fetch_add_sub by (by rewrite load_counter_for)); apply load_counter_for. }
  split_and!; [done|..].
  - rewrite load_fetch_add, load_counter_for, decide_True by done.
    apply wrap64_small. width_lia.
  - rewrite load_fetch_add, load_counter_for, decide_True by done.
    apply wrap64_small. width_lia.
  - intros k Hk. by rewrite load_fetch_add, decide_False, load_counter_for.
  - intros k Hk. by rewrite load_fetch_add, decide_False, load_counter_for.
Qed.

(** ** Schedules

    A schedule is a list of arrivals and of turns given to requests. *)
Inductive PoolEvent := Arrive (r f : string) | Turn (i : nat).
Definition pool_exec (p : AdmissionController * list Request) (ev : PoolEvent) :
    AdmissionController * list Request :=
  match ev with
  | Arrive r f => (p.1, p.2 ++ [GetRegion r f])
  | Turn i =>
      match p.2 !! i with
      | Some t => match request_step p.1 t with
                  | Some (c', t') => (c', <[i := t']> p.2)
                  | None => p
                  end
      | None => p
      end
  end.

Lemma schedule_reachable p evs : rtc pool_step p (fold_left pool_exec evs p).
Proof.
  revert p. induction evs as [|ev evs IH]; intros p; [done|]. simpl.
  etrans; [|apply IH]. destruct p as [c ts]. destruct ev as [r f|i]; simpl.
  - apply rtc_once, PoolArrive.
  - destruct (ts !! i) as [t|] eqn:Ei; [|done].
    destruct (request_step c t) as [[c' t']|] eqn:Et; [|done].
    apply rtc_once. by eapply PoolStep.
Qed.

(** Two requests race for the only slot of a region; both have obtained their
    counters before either adds. *)
Definition race_schedule : list PoolEvent :=
  [Arrive "eu" "gpt"; Arrive "eu" "gpt"; Turn 0; Turn 1; Turn 1; Turn 0; Turn 1; Turn 0;
   Turn 1]%string.
Definition race : AdmissionController * list Request :=
  fold_left pool_exec race_schedule (AdmissionController_new (Some 1) (Some 5) None, []).

Lemma admission_never_over_admits_witness :
  load (region_counters race.1) "eu" = 2 ∧ total (live_in_region "eu") race.2 ≤ 1.
Proof.
  split; [vm_compute; reflexivity|].
  apply (admission_never_over_admits 1 5 None race.1 race.2 "eu"); [lia|lia|vm_compute; discriminate|].
  rewrite <- surjective_pairing. apply schedule_reachable.
Defined.

Definition settled_race : AdmissionController * list Request :=
  pool_exec race (Turn 0).

Lemma admission_no_leak_witness :
  load (region_counters settled_race.1) "eu" = total (live_in_region "eu") settled_race.2
  ∧ settled_race.2 = [Denied (RegionAtCapacity "eu" 1); Permit "eu" "gpt"]%string.
Proof.
  split; [|vm_compute; reflexivity].
  apply (admission_no_leak 1 5 None settled_race.1 settled_race.2 "eu");
    [lia|lia|vm_compute; discriminate| |vm_compute; repeat constructor].
  rewrite <- surjective_pairing. apply (schedule_reachable _ (race_schedule ++ [Turn 0])).
Defined.

Definition full_region : AdmissionController := mkController 1 5 30000 {["eu"%string := 1]} ∅.

Lemma try_admit_exact_witness :
  (try_admit full_region "eu" "gpt").2 = Err (RegionAtCapacity "eu" 1).
Proof.
  assert (H1 : 0 ≤ load (region_counters full_region) "eu" < u64_max)
    by (vm_compute; split; [discriminate|reflexivity]).
  assert (H2 : 0 ≤ load (family_counters full_region) "gpt" < u64_max)
    by (vm_compute; split; [discriminate|reflexivity]).
  pose proof (try_admit_exact full_region "eu" "gpt" H1 H2) as H.
  destruct (try_admit full_region "eu" "gpt") as [c' res].
  destruct H as [H _]. exact H.
Defined.
