(* ===== verification/SizeLimit.v ===== *)
(** * SizeLimit: request and response size limits
      (src/src/gateway/size_limit.rs, src/src/gateway/bounded_chunk_reader.rs)

    The checks on declared sizes and the loop that buffers an upstream body:
    the buffer is the loop's state and an upstream stream is the list of the
    items it yields before it ends. *)

From Stdlib Require Import ZArith String.
From stdpp Require Import base strings list.
From S2P Require Import Prelude Text Float.

Local Open Scope Z_scope.

(** ** Limits *)

Definition DEFAULT_MAX_RESPONSE_BYTES : Z := 16 * 1024 * 1024.
Definition MAX_IN_FLIGHT_RESPONSE_BUFFER_BYTES : Z := 20 * 1024 * 1024.
Definition overflow_stop_bytes (limit : Z) : Z := sat_add64 limit 1.
Definition effective_response_limit (configured : option Z) : Z :=
  match configured with
  | Some value => Z.min value DEFAULT_MAX_RESPONSE_BYTES
  | None => DEFAULT_MAX_RESPONSE_BYTES
  end.

Record SizeLimitConfig := mkSizeLimit {
  max_body_bytes : option Z;
  max_header_bytes : option Z;
  max_url_bytes : option Z;
  max_response_bytes : option Z;
}.
Record SizeLimitOverride := mkSizeOverride {
  max_request_size_mb : option f64;
  max_response_size_mb : option f64;
}.
Definition mb_to_bytes (mb : f64) : Z := f64_as_u64 (f64_mul mb (f64_of_u64 1048576)).
Definition tighten (base : option Z) (ov_mb : option f64) : option Z :=
  match base, mb_to_bytes <$> ov_mb with
  | Some b, Some o => Some (Z.min b o)
  | Some b, None => Some b
  | None, Some o => Some o
  | None, None => None
  end.
Definition with_override (c : SizeLimitConfig) (ov : SizeLimitOverride) : SizeLimitConfig :=
  {| max_body_bytes := tighten (max_body_bytes c) (max_request_size_mb ov);
     max_header_bytes := max_header_bytes c;
     max_url_bytes := max_url_bytes c;
     max_response_bytes := tighten (max_response_bytes c) (max_response_size_mb ov) |}.

Inductive SizeLimitKind := Body | Headers | Url | Response.
Record SizeLimitExceeded := mkSizeExceeded {
  kind : SizeLimitKind; actual : Z; limit_of : Z }.
Definition effective_max_response_bytes (c : SizeLimitConfig) : Z :=
  effective_response_limit (max_response_bytes c).
Definition check_response (c : SizeLimitConfig) (body_len : Z) : Result unit SizeLimitExceeded :=
  let max := effective_max_response_bytes c in
  if max <? body_len then Err (mkSizeExceeded Response body_len max) else Ok tt.
(** One [if let Some(max) = … { if len > max { return Err(…) } }]. *)
Definition check_one (k : SizeLimitKind) (max : option Z) (len : Z)
    (continue : Result unit SizeLimitExceeded) : Result unit SizeLimitExceeded :=
  match max with
  | Some max => if max <? len then Err (mkSizeExceeded k len max) else continue
  | None => continue
  end.
Definition check (c : SizeLimitConfig) (body_len headers_len url_len : Z) :
    Result unit SizeLimitExceeded :=
  check_one Body (max_body_bytes c) body_len
    (check_one Headers (max_header_bytes c) headers_len
      (check_one Url (max_url_bytes c) url_len (Ok tt))).
(** The names and values of a header block. *)
Definition headers_byte_len (headers : list (string * list Z)) : Z :=
  foldr (λ nv acc, Z.of_nat (String.length nv.1 + length nv.2) + acc) 0 headers.

(** ** The bounded reader *)

Inductive BoundedChunkReadError :=
| ContentLengthExceeded (content_length limit : Z)
| BodyExceeded (read limit : Z)
| BodyRead (message : string).
Definition err_actual (e : BoundedChunkReadError) : Z :=
  match e with
  | ContentLengthExceeded n _ => n
  | BodyExceeded n _ => n
  | BodyRead _ => 0
  end.
Definition err_limit (e : BoundedChunkReadError) : Z :=
  match e with
  | ContentLengthExceeded _ l => l
  | BodyExceeded _ l => l
  | BodyRead _ => DEFAULT_MAX_RESPONSE_BYTES
  end.
Definition is_size_exceeded (e : BoundedChunkReadError) : bool :=
  match e with BodyRead _ => false | _ => true end.

Definition len (buf : list Z) : Z := Z.of_nat (length buf).

(** The [while] loop and the test after it; the first component is the buffer
    at the return. *)
Fixpoint read_loop (limit stop_at : Z) (buf : list Z) (stream : list (Result (list Z) string)) :
    list Z * Result (list Z) BoundedChunkReadError :=
  match stream with
  | [] => (buf, if limit <? len buf then Err (BodyExceeded (len buf) limit) else Ok buf)
  | Err e :: _ => (buf, Err (BodyRead e))
  | Ok chunk :: stream =>
      if len chunk =? 0 then read_loop limit stop_at buf stream else
      let remaining := sat_sub stop_at (len buf) in
      if remaining =? 0 then (buf, Err (BodyExceeded (len buf) limit)) else
      if remaining <? len chunk then
        let buf := buf ++ take (Z.to_nat remaining) chunk in
        (buf, Err (BodyExceeded (len buf) limit))
      else read_loop limit stop_at (buf ++ chunk) stream
  end.
Definition read_bounded_chunks (stream : list (Result (list Z) string)) (limit : Z) :
    list Z * Result (list Z) BoundedChunkReadError :=
  read_loop limit (overflow_stop_bytes limit) [] stream.

Section response.
Context {Headers : Type}.
(** [headers.get(CONTENT_LENGTH)] followed by [to_str]. *)
Variable content_length : Headers → option (option string).

Definition content_length_from_headers (headers : Headers) : option Z :=
  match content_length headers with
  | Some (Some text) => parse_u64 text
  | _ => None
  end.
Definition reject_oversized_content_length (headers : Headers) (limit : Z) :
    Result unit BoundedChunkReadError :=
  match content_length_from_headers headers with
  | Some n => if limit <? n then Err (ContentLengthExceeded n limit) else Ok tt
  | None => Ok tt
  end.
Definition read_reqwest_response_bounded (status : Z) (headers : Headers)
    (stream : list (Result (list Z) string)) (limit : Z) :
    Result (Z * Headers * list Z) BoundedChunkReadError :=
  match reject_oversized_content_length headers limit with
  | Err e => Err e
  | Ok _ =>
      match (read_bounded_chunks stream limit).2 with
      | Err e => Err e
      | Ok body => Ok (status, headers, body)
      end
  end.
End response.

(** ** What the reader returns *)

Definition total (cs : list (list Z)) : Z := len (concat cs).
Lemma len_app a b : len (a ++ b) = len a + len b.
Proof. unfold len. rewrite length_app. lia. Qed.
Lemma total_cons c cs : total (c :: cs) = len c + total cs.
Proof. unfold total. simpl. apply len_app. Qed.
Lemma len_nonneg l : 0 ≤ len l.
Proof. unfold len. lia. Qed.

(** How a stream ends: at its end, or with an error that hides the rest. *)
Inductive Ending := Finished | Failed (e : string) (rest : list (Result (list Z) string)).
Definition items (cs : list (list Z)) (t : Ending) : list (Result (list Z) string) :=
  map Ok cs ++ match t with Finished => [] | Failed e rest => Err e :: rest end.

Lemma read_loop_spec limit cs t : ∀ buf, 0 ≤ limit < u64_max → len buf ≤ limit + 1 →
  let n := len buf + total cs in
  let '(buf', r) := read_loop limit (limit + 1) buf (items cs t) in
  len buf' = Z.min n (limit + 1)
  ∧ r = match t with
        | Finished => if n <=? limit then Ok (buf ++ concat cs) else Err (BodyExceeded (limit + 1) limit)
        | Failed e _ => if n <=? limit + 1 then Err (BodyRead e) else Err (BodyExceeded (limit + 1) limit)
        end.
Proof.
  induction cs as [|c cs IH]; intros buf Hlim Hbuf; cbn zeta.
  { unfold total. simpl. change (len []) with 0. rewrite Z.add_0_r, app_nil_r.
    destruct t as [|e rest]; simpl.
    - split; [lia|]. destruct (Z.ltb_spec limit (len buf)), (Z.leb_spec (len buf) limit); try lia.
      + do 2 f_equal. lia.
      + done.
    - split; [lia|]. by destruct (Z.leb_spec (len buf) (limit + 1)); [|lia]. }
  rewrite total_cons. cbn [items map app read_loop]. fold (items cs t). cbn [concat].
  pose proof (len_nonneg (concat cs)) as Ht. fold (total cs) in Ht.
  destruct (Z.eqb_spec (len c) 0) as [H0|H0].
  { destruct c; [|unfold len in H0; simpl in H0; lia]. change (len []) with 0. apply (IH buf); lia. }
  pose proof (len_nonneg c).
  assert (Hrem : sat_sub (limit + 1) (len buf) = limit + 1 - len buf) by (unfold sat_sub; lia).
  rewrite Hrem. cbn zeta.
  assert (Hover : ∀ b : list Z, limit + 1 < len buf + (len c + total cs) → len b = limit + 1 →
    len b = Z.min (len buf + (len c + total cs)) (limit + 1)
    ∧ Err (BodyExceeded (len b) limit) = match t with
        | Finished => if len buf + (len c + total cs) <=? limit
            then Ok (buf ++ c ++ concat cs) else Err (BodyExceeded (limit + 1) limit)
        | Failed e _ => if len buf + (len c + total cs) <=? limit + 1
            then Err (BodyRead e) else Err (BodyExceeded (limit + 1) limit)
        end).
  { intros b Hgt ->. split; [lia|].
    by destruct t; repeat match goal with |- context [?x <=? ?y] => destruct (Z.leb_spec x y); [lia|] end. }
  destruct (Z.eqb_spec (limit + 1 - len buf) 0); [apply Hover; lia|].
  destruct (Z.ltb_spec (limit + 1 - len buf) (len c)).
  { apply Hover; [lia|]. rewrite len_app. unfold len in *. rewrite length_take. lia. }
  specialize (IH (buf ++ c) Hlim). rewrite len_app, <- app_assoc, <- Z.add_assoc in IH.
  apply IH. lia.
Qed.

(** Every stream is its leading chunks and an ending. *)
Lemma items_split stream : ∃ cs t, stream = items cs t.
Proof.
  induction stream as [|[c|e] stream (cs & t & ->)].
  - by exists [], Finished.
  - by exists (c :: cs), t.
  - by exists [], (Failed e (items cs t)).
Qed.

Lemma read_bounded_spec limit cs t : 0 ≤ limit < u64_max →
  let '(buf, r) := read_bounded_chunks (items cs t) limit in
  len buf = Z.min (total cs) (limit + 1)
  ∧ r = match t with
        | Finished =>
            if total cs <=? limit then Ok (concat cs) else Err (BodyExceeded (limit + 1) limit)
        | Failed e _ =>
            if total cs <=? limit + 1 then Err (BodyRead e) else Err (BodyExceeded (limit + 1) limit)
        end.
Proof.
  intros Hlim. unfold read_bounded_chunks, overflow_stop_bytes.
  replace (sat_add64 limit 1) with (limit + 1) by width_lia.
  apply (read_loop_spec limit cs t [] Hlim). change (len []) with 0. lia.
Qed.

Lemma items_map_Ok cs t cs' : items cs t = map Ok cs' ↔ t = Finished ∧ cs = cs'.
Proof.
  split; [|intros [-> ->]; unfold items; by rewrite app_nil_r].
  revert cs'. induction cs as [|c cs IH]; intros [|c' cs'] H.
  - by destruct t.
  - by destruct t.
  - done.
  - cbn [items map app] in H. injection H as -> H. apply IH in H as [-> ->]. done.
Qed.

Lemma read_bounded_Ok stream limit body : 0 ≤ limit < u64_max →
  (read_bounded_chunks stream limit).2 = Ok body
  ↔ ∃ cs, stream = map Ok cs ∧ body = concat cs ∧ len body ≤ limit.
Proof.
  intros Hlim. destruct (items_split stream) as (cs & t & ->).
  pose proof (read_bounded_spec limit cs t Hlim) as Hspec.
  destruct (read_bounded_chunks (items cs t) limit) as [buf r]. destruct Hspec as [_ ->].
  simpl. split.
  - destruct t as [|e rest]; [|by destruct (total cs <=? limit + 1)].
    destruct (Z.leb_spec (total cs) limit); [|done]. intros [= <-].
    exists cs. split; [by apply items_map_Ok|done].
  - intros (cs' & [-> ->]%items_map_Ok & -> & Hle). fold (total cs') in Hle.
    by destruct (Z.leb_spec (total cs') limit); [|lia].
Qed.

Lemma read_bounded_exceeded stream limit e : 0 ≤ limit < u64_max →
  (read_bounded_chunks stream limit).2 = Err e → is_size_exceeded e = true →
  e = BodyExceeded (limit + 1) limit ∧ ∃ cs t, stream = items cs t ∧ limit < total cs.
Proof.
  intros Hlim. destruct (items_split stream) as (cs & t & ->).
  pose proof (read_bounded_spec limit cs t Hlim) as Hspec.
  destruct (read_bounded_chunks (items cs t) limit) as [buf r]. destruct Hspec as [_ ->].
  simpl. destruct t as [|e' rest].
  - destruct (Z.leb_spec (total cs) limit); [done|]. intros [= <-] _. split; [done|].
    by exists cs, Finished.
  - destruct (Z.leb_spec (total cs) (limit + 1)); intros [= <-]; [done|]. intros _.
    split; [done|]. exists cs, (Failed e' rest). split; [done|lia].
Qed.

Lemma read_bounded_retains stream limit : 0 ≤ limit < u64_max →
  len (read_bounded_chunks stream limit).1 ≤ overflow_stop_bytes limit.
Proof.
  intros Hlim. destruct (items_split stream) as (cs & t & ->).
  pose proof (read_bounded_spec limit cs t Hlim) as Hspec.
  destruct (read_bounded_chunks (items cs t) limit) as [buf r]. destruct Hspec as [Hbuf _].
  simpl. rewrite Hbuf. unfold overflow_stop_bytes. width_lia.
Qed.

(** Reading a response within a limit is exact, whatever the stream: the
    buffer never holds more than one byte past the limit; the result is [Ok]
    exactly when the declared length, if well-formed, is within the limit, no
    item is an error and all the chunks together fit, and then the body is
    their concatenation; when it is a [BodyExceeded] error, the chunks before
    any failure do not fit and the size reported is the limit plus one. *)
Theorem bounded_read_exact {Headers} (content_length : Headers → option (option string))
    (status : Z) (headers : Headers) (stream : list (Result (list Z) string)) (limit : Z) :
  0 ≤ limit < u64_max →
  len (read_bounded_chunks stream limit).1 ≤ overflow_stop_bytes limit
  ∧ (∀ st h body,
       read_reqwest_response_bounded content_length status headers stream limit = Ok (st, h, body)
       ↔ st = status ∧ h = headers
         ∧ (∀ n, content_length_from_headers content_length headers = Some n → n ≤ limit)
         ∧ ∃ cs, stream = map Ok cs ∧ body = concat cs ∧ len body ≤ limit)
  ∧ (∀ read l,
       read_reqwest_response_bounded content_length status headers stream limit
         = Err (BodyExceeded read l) →
       read = limit + 1 ∧ l = limit ∧ ∃ cs t, stream = items cs t ∧ limit < total cs).
Proof.
  intros Hlim. split; [by apply read_bounded_retains|].
  unfold read_reqwest_response_bounded, reject_oversized_content_length.
  pose proof (read_bounded_Ok stream limit) as Hok.
  pose proof (read_bounded_exceeded stream limit) as Hex.
  split.
  - intros st h body. specialize (Hok body Hlim).
    destruct (content_length_from_headers content_length headers) as [n|];
      [destruct (Z.ltb_spec limit n)|].
    { split; [done|]. intros (_ & _ & Hn & _). specialize (Hn n eq_refl). lia. }
    all: destruct (read_bounded_chunks stream limit).2 as [b|e]; split; [|naive_solver..].
    all: intros [= <- <- <-]; split_and!; [done|done|naive_solver|by apply Hok].
  - intros read l.
    destruct (content_length_from_headers content_length headers) as [n|];
      [destruct (Z.ltb_spec limit n); [done|]|].
    all: destruct (read_bounded_chunks stream limit).2 as [b|e]; [done|]; intros [= ->].
    all: destruct (Hex _ Hlim eq_refl eq_refl) as [[= -> ->] H']; split_and!; done.
Qed.

Definition demo_stream : list (Result (list Z) string) := [Ok [1; 2]; Ok []; Ok [3]].
Lemma bounded_read_exact_witness :
  len (read_bounded_chunks demo_stream 2).1 ≤ overflow_stop_bytes 2
  ∧ (read_bounded_chunks demo_stream 2).2 = Err (BodyExceeded 3 2)
  ∧ (read_bounded_chunks demo_stream 3).2 = Ok [1; 2; 3].
Proof.
  assert (Hlim : 0 ≤ 2 < u64_max) by (vm_compute; split; congruence).
  destruct (bounded_read_exact (λ _ : unit, None) 200 tt demo_stream 2 Hlim) as [H _].
  split; [exact H|]. split; vm_compute; reflexivity.
Defined.

(** ** The configured limits *)

Definition within (max : option Z) (n : Z) : Prop := ∀ m, max = Some m → n ≤ m.

Lemma tighten_within base ov n :
  within (tighten base ov) n ↔ within base n ∧ within (mb_to_bytes <$> ov) n.
Proof.
  unfold tighten, within. destruct base as [b|], (mb_to_bytes <$> ov) as [o|]; split.
  all: try (intros H; split; intros m [= <-]; specialize (H _ eq_refl); lia).
  all: try (intros [H1 H2] m [= <-]; try specialize (H1 _ eq_refl);
            try specialize (H2 _ eq_refl); lia).
  all: naive_solver.
Qed.

Lemma check_one_cases k max n rest :
  (within max n ∧ check_one k max n rest = rest)
  ∨ ∃ m, max = Some m ∧ m < n ∧ check_one k max n rest = Err (mkSizeExceeded k n m).
Proof.
  unfold check_one, within. destruct max as [m|]; [|left; split; [naive_solver|done]].
  destruct (Z.ltb_spec m n); [right; by exists m|]. left. split; [naive_solver|done].
Qed.
Lemma not_within max m n : max = Some m → m < n → ¬ within max n.
Proof. intros -> Hlt H. specialize (H m eq_refl). lia. Qed.

Lemma check_response_Ok c b :
  check_response c b = Ok tt ↔ within (max_response_bytes c) b ∧ b ≤ DEFAULT_MAX_RESPONSE_BYTES.
Proof.
  unfold check_response, effective_max_response_bytes, effective_response_limit, within.
  destruct (max_response_bytes c) as [m|].
  - destruct (Z.ltb_spec (Z.min m DEFAULT_MAX_RESPONSE_BYTES) b); split; try done.
    + intros [Hm ?]. specialize (Hm m eq_refl). lia.
    + intros _. split; [intros m' [= <-]|]; lia.
  - destruct (Z.ltb_spec DEFAULT_MAX_RESPONSE_BYTES b); split; try done.
    intros [_ ?]. lia.
Qed.

Lemma effective_limit_capped c : effective_max_response_bytes c ≤ DEFAULT_MAX_RESPONSE_BYTES.
Proof.
  unfold effective_max_response_bytes, effective_response_limit.
  destruct (max_response_bytes c); lia.
Qed.

(** The size checks enforce exactly the configured limits with their
    overrides: a request passes when its body fits the configured limit and
    the override, its headers and its URL fit; a refusal names the first limit
    exceeded in the order body, headers, URL.  A response passes when it fits
    the configured limit, the override and the hard cap, and the buffer needed
    to detect an overflow never reaches the in-flight ceiling. *)
Theorem size_checks_exact (c : SizeLimitConfig) (ov : SizeLimitOverride) (b h u : Z) :
  let c' := with_override c ov in
  (check c' b h u = Ok tt ↔
     within (max_body_bytes c) b ∧ within (mb_to_bytes <$> max_request_size_mb ov) b
     ∧ within (max_header_bytes c) h ∧ within (max_url_bytes c) u)
  ∧ (∀ e, check c' b h u = Err e →
       limit_of e < actual e ∧
       match kind e with
       | Body => actual e = b ∧ max_body_bytes c' = Some (limit_of e)
       | Headers => actual e = h ∧ max_header_bytes c = Some (limit_of e)
                    ∧ within (max_body_bytes c') b
       | Url => actual e = u ∧ max_url_bytes c = Some (limit_of e)
                ∧ within (max_body_bytes c') b ∧ within (max_header_bytes c) h
       | Response => False
       end)
  ∧ (check_response c' b = Ok tt ↔
       within (max_response_bytes c) b ∧ within (mb_to_bytes <$> max_response_size_mb ov) b
       ∧ b ≤ DEFAULT_MAX_RESPONSE_BYTES)
  ∧ overflow_stop_bytes (effective_max_response_bytes c') ≤ MAX_IN_FLIGHT_RESPONSE_BUFFER_BYTES.
Proof.
  cbn zeta. set (c' := with_override c ov).
  assert (Hb : within (max_body_bytes c') b ↔ within (max_body_bytes c) b
    ∧ within (mb_to_bytes <$> max_request_size_mb ov) b) by apply tighten_within.
  assert (Hr : within (max_response_bytes c') b ↔ within (max_response_bytes c) b
    ∧ within (mb_to_bytes <$> max_response_size_mb ov) b) by apply tighten_within.
  change (max_header_bytes c) with (max_header_bytes c').
  change (max_url_bytes c) with (max_url_bytes c').
  split; [|split; [|split]].
  - unfold check.
    destruct (check_one_cases Body (max_body_bytes c') b
      (check_one Headers (max_header_bytes c') h (check_one Url (max_url_bytes c') u (Ok tt))))
      as [[H1 ->]|(m & E & Hlt & ->)]; [|pose proof (not_within _ _ _ E Hlt); naive_solver].
    destruct (check_one_cases Headers (max_header_bytes c') h
      (check_one Url (max_url_bytes c') u (Ok tt)))
      as [[H2 ->]|(m & E & Hlt & ->)]; [|pose proof (not_within _ _ _ E Hlt); naive_solver].
    destruct (check_one_cases Url (max_url_bytes c') u (Ok tt))
      as [[H3 ->]|(m & E & Hlt & ->)]; [|pose proof (not_within _ _ _ E Hlt)]; naive_solver.
  - intros e. unfold check.
    destruct (check_one_cases Body (max_body_bytes c') b
      (check_one Headers (max_header_bytes c') h (check_one Url (max_url_bytes c') u (Ok tt))))
      as [[H1 ->]|(m & E & Hlt & ->)]; [|by intros [= <-]].
    destruct (check_one_cases Headers (max_header_bytes c') h
      (check_one Url (max_url_bytes c') u (Ok tt)))
      as [[H2 ->]|(m & E & Hlt & ->)]; [|by intros [= <-]].
    destruct (check_one_cases Url (max_url_bytes c') u (Ok tt))
      as [[H3 ->]|(m & E & Hlt & ->)]; [done|by intros [= <-]].
  - rewrite check_response_Ok, Hr. tauto.
  - pose proof (effective_limit_capped c'). unfold overflow_stop_bytes, sat_add64.
    unfold DEFAULT_MAX_RESPONSE_BYTES, MAX_IN_FLIGHT_RESPONSE_BUFFER_BYTES in *. lia.
Qed.

Example with_override_half_mb :
  with_override (mkSizeLimit (Some 1048576) None None None)
    (mkSizeOverride (Some (SpecFloat.S754_finite false 4503599627370496 (-53))) None)
  = mkSizeLimit (Some 524288) None None None.
Proof. vm_compute. reflexivity. Qed.
