(* ===== verification/L1Cache.v ===== *)
(** * L1Cache: the in-process context plan cache (src/src/gateway/cache/l1.rs)

    Plans are kept per partition (authorization, repository, branch) in an
    insertion-ordered map whose first entry is the least recently used one.
    Sizes are accounted per partition and globally.  An operation under one write
    lock is one step; [clear], which resets the counters after it gave up the lock, and
    [replace_partition_plans], which locks once per plan, are several ([L1Step]).  The
    broadcast of invalidations is the log of the mutations sent. *)

From Stdlib Require Import ZArith.
From stdpp Require Import base gmap sets strings countable list.
From S2P Require Import SizeLimit Prelude Text.

Local Open Scope Z_scope.

(** ** Data *)

Record ContextCacheAuthorization := mkAuth {
  organization_id : string;
  team_id : option string;
  authorization_version : string;
}.
#[export] Instance Auth_eq_dec : EqDecision ContextCacheAuthorization.
Proof. solve_decision. Defined.
#[export] Instance Auth_countable : Countable ContextCacheAuthorization.
Proof.
  refine (inj_countable' (λ a, (organization_id a, team_id a, authorization_version a))
    (λ p, mkAuth p.1.1 p.1.2 p.2) _). by intros [].
Defined.

Definition auth_new (organization_id : string) (team_id : option string)
    (authorization_version : string) : ContextCacheAuthorization :=
  {| organization_id := trim organization_id;
     team_id := match trim <$> team_id with
                | Some t => if is_empty t then None else Some t
                | None => None
                end;
     authorization_version := trim authorization_version |}.
Definition is_complete (a : ContextCacheAuthorization) : bool :=
  negb (is_empty (organization_id a)) && negb (is_empty (authorization_version a)).

Record ContextPlanItem := mkItem {
  i_organization_id : string;
  i_team_id : option string;
  i_authorization_version : string;
  item_id : string;
  content : string;
  token_estimate : Z;
  citation_required : bool;
  source_kind : option string;
}.
#[export] Instance Item_eq_dec : EqDecision ContextPlanItem.
Proof. solve_decision. Defined.

Record ContextPlan := mkPlan {
  p_organization_id : string;
  p_team_id : option string;
  p_authorization_version : string;
  repo : string;
  branch : string;
  query_text : string;
  query_hash : Z;
  recall_count : Z;
  generated_at_unix_secs : Z;
  plan_hash : option string;
  topic_cluster : option string;
  items : list ContextPlanItem;
}.
#[export] Instance Plan_eq_dec : EqDecision ContextPlan.
Proof. solve_decision. Defined.

Abbreviation PartitionKey := (ContextCacheAuthorization * string * string)%type.

Definition authorization (p : ContextPlan) : ContextCacheAuthorization :=
  mkAuth (p_organization_id p) (p_team_id p) (p_authorization_version p).
Definition partition_key (p : ContextPlan) : PartitionKey :=
  (authorization p, repo p, branch p).

Definition cache_key (p : ContextPlan) : PartitionKey * Z := (partition_key p, query_hash p).

Definition set_query_hash (p : ContextPlan) (h : Z) : ContextPlan :=
  mkPlan (p_organization_id p) (p_team_id p) (p_authorization_version p) (repo p) (branch p)
    (query_text p) h (recall_count p) (generated_at_unix_secs p) (plan_hash p)
    (topic_cluster p) (items p).
Definition set_location (p : ContextPlan) (r b : string) : ContextPlan :=
  mkPlan (p_organization_id p) (p_team_id p) (p_authorization_version p) r b
    (query_text p) (query_hash p) (recall_count p) (generated_at_unix_secs p) (plan_hash p)
    (topic_cluster p) (items p).

Inductive ContextPoolMutationKind := Share | Capture | Flag | Eviction | Other.
Record ContextPoolMutation := mkMutation {
  m_authorization : ContextCacheAuthorization;
  m_repo : string;
  m_branch : string;
  m_query_hash : option Z;
  m_topic : option string;
  m_kind : ContextPoolMutationKind;
}.
Definition mutation_partition_key (m : ContextPoolMutation) : PartitionKey :=
  (m_authorization m, m_repo m, m_branch m).

Record ContextPlanEntry := mkPlanEntry {
  plan : ContextPlan;
  size_bytes : Z;
  last_accessed : Z;
}.

(** An [IndexMap] is its entries in order. *)
Record PartitionCache := mkPartition {
  p_entries : list (Z * ContextPlanEntry);
  p_total : Z;
}.
Definition partition_default : PartitionCache := mkPartition [] 0.

Record ContextPlanL1Cache := mkL1 {
  capacity_per_partition : Z;
  max_bytes : Z;
  partitions : gmap PartitionKey PartitionCache;
  total_size_bytes : Z;
  hit_count : Z;
  miss_count : Z;
  eviction_count : Z;
  invalidation_count : Z;
  sent : list ContextPoolMutation;
}.
Definition L1_new (capacity max_bytes : Z) : ContextPlanL1Cache :=
  mkL1 capacity max_bytes ∅ 0 0 0 0 0 [].

(** ** IndexMap operations *)

Fixpoint index_get (l : list (Z * ContextPlanEntry)) (k : Z) : option ContextPlanEntry :=
  match l with
  | [] => None
  | (k', e) :: l => if k' =? k then Some e else index_get l k
  end.
(** [shift_remove]. *)
Fixpoint shift_remove (l : list (Z * ContextPlanEntry)) (k : Z) :
    list (Z * ContextPlanEntry) :=
  match l with
  | [] => []
  | (k', e) :: l => if k' =? k then l else (k', e) :: shift_remove l k
  end.

Section l1.
(** The bytes of SHA-256. *)
Variable sha256 : string → list Z.
(** The length of [serde_json::to_vec], [None] if it fails. *)
Variable json_len : ContextPlan → option Z.
(** The iteration order of the [HashMap] of partitions. *)
Variable hash_order : gmap PartitionKey PartitionCache → list (PartitionKey * PartitionCache).

(** The first eight bytes of the digest, little-endian. *)
Definition hash_context_query (query : string) : Z :=
  foldr (λ b acc, b + 256 * acc) 0 (take 8 (sha256 (trim query))).

(** [ContextPlan::new] stamps the authorization on every item. *)
Definition stamp_item (a : ContextCacheAuthorization) (i : ContextPlanItem) : ContextPlanItem :=
  mkItem (organization_id a) (team_id a) (authorization_version a) (item_id i) (content i)
    (token_estimate i) (citation_required i) (source_kind i).
Definition plan_new (a : ContextCacheAuthorization) (r b text : string)
    (its : list ContextPlanItem) (now_secs : Z) : ContextPlan :=
  mkPlan (organization_id a) (team_id a) (authorization_version a) r b text
    (hash_context_query text) 0 now_secs None None (map (stamp_item a) its).

Definition str_len (s : string) : Z := Z.of_nat (String.length s).
Definition approx_size_bytes (p : ContextPlan) : Z :=
  match json_len p with
  | Some n => n
  | None =>
      let items_len := foldr (λ i acc, str_len (item_id i) + str_len (content i) + acc) 0
                         (items p) in
      str_len (p_organization_id p) + default 0 (str_len <$> p_team_id p)
      + str_len (p_authorization_version p) + str_len (repo p) + str_len (branch p)
      + str_len (query_text p) + items_len + default 0 (str_len <$> plan_hash p)
      + default 0 (str_len <$> topic_cluster p) + 64
  end.

(** ** Lookup *)

Definition count_miss (c : ContextPlanL1Cache) : ContextPlanL1Cache :=
  mkL1 (capacity_per_partition c) (max_bytes c) (partitions c) (total_size_bytes c)
    (hit_count c) (wrap64 (miss_count c + 1)) (eviction_count c) (invalidation_count c)
    (sent c).

Definition get (c : ContextPlanL1Cache) (a : ContextCacheAuthorization) (r b : string)
    (q : Z) (now : Z) : ContextPlanL1Cache * option ContextPlan :=
  if negb (is_complete a) then (count_miss c, None) else
  match partitions c !! (a, r, b) with
  | None => (count_miss c, None)
  | Some partition =>
      match index_get (p_entries partition) q with
      | None => (count_miss c, None)
      | Some e =>
          let e' := mkPlanEntry (plan e) (size_bytes e) now in
          (* move_index to the last position *)
          let entries := shift_remove (p_entries partition) q ++ [(q, e')] in
          (mkL1 (capacity_per_partition c) (max_bytes c)
             (<[(a, r, b) := mkPartition entries (p_total partition)]> (partitions c))
             (total_size_bytes c) (wrap64 (hit_count c + 1)) (miss_count c)
             (eviction_count c) (invalidation_count c) (sent c), Some (plan e))
      end
  end.

(** ** Eviction *)

(** [evict_partition_entries_locked]: the loop threads the partition, the
    global byte total and the eviction counter. *)
Fixpoint evict_partition (capacity : Z) (entries : list (Z * ContextPlanEntry))
    (ptotal total evictions : Z) : list (Z * ContextPlanEntry) * Z * Z * Z :=
  if Z.of_nat (length entries) <=? capacity then (entries, ptotal, total, evictions) else
  match entries with
  | [] => (entries, ptotal, total, evictions)
  | (_, e) :: rest =>
      evict_partition capacity rest (sat_sub ptotal (size_bytes e))
        (wrap64 (total - size_bytes e)) (wrap64 (evictions + 1))
  end.

(** The victim of [evict_global_entries_locked]: the first partition, in
    iteration order, whose first entry has the least [last_accessed]. *)
Fixpoint find_victim (ps : list (PartitionKey * PartitionCache))
    (victim : option (PartitionKey * Z)) : option (PartitionKey * Z) :=
  match ps with
  | [] => victim
  | (k, p) :: ps =>
      match p_entries p with
      | [] => find_victim ps victim
      | (_, e) :: _ =>
          let should_replace :=
            match victim with
            | Some (_, current) => last_accessed e <? current
            | None => true
            end in
          find_victim ps (if should_replace then Some (k, last_accessed e) else victim)
      end
  end.

(** The loop of [evict_global_entries_locked]. *)
Fixpoint evict_global (fuel : nat) (max : Z) (ps : gmap PartitionKey PartitionCache)
    (total evictions : Z) : gmap PartitionKey PartitionCache * Z * Z :=
  match fuel with
  | O => (ps, total, evictions)
  | S fuel =>
      if total <=? max then (ps, total, evictions) else
      match find_victim (hash_order ps) None with
      | None => (ps, total, evictions)
      | Some (k, _) =>
          match ps !! k with
          | None => evict_global fuel max ps total evictions
          | Some p =>
              match p_entries p with
              | [] => evict_global fuel max (delete k ps) total evictions
              | (_, e) :: rest =>
                  let p' := mkPartition rest (sat_sub (p_total p) (size_bytes e)) in
                  let ps' := match rest with [] => delete k ps | _ => <[k := p']> ps end in
                  evict_global fuel max ps' (wrap64 (total - size_bytes e))
                    (wrap64 (evictions + 1))
              end
          end
      end
  end.
(** A sum over the partitions. *)
Definition msum (f : PartitionCache → Z) (ps : gmap PartitionKey PartitionCache) : Z :=
  map_fold (λ _ p acc, f p + acc) 0 ps.
Definition entry_total (ps : gmap PartitionKey PartitionCache) : Z :=
  msum (λ p, Z.of_nat (length (p_entries p))) ps.

(** ** Insertion *)

(** An item that does not carry the plan's authorization. *)
Definition foreign_item (a : ContextCacheAuthorization) (i : ContextPlanItem) : bool :=
  negb (bool_decide (i_organization_id i = organization_id a))
  || negb (bool_decide (i_team_id i = team_id a))
  || negb (bool_decide (i_authorization_version i = authorization_version a)).

(** The guards of [insert], and the plan with its hash filled in. *)
Definition insert_guard (c : ContextPlanL1Cache) (p : ContextPlan) : option ContextPlan :=
  if (capacity_per_partition c =? 0) || (max_bytes c =? 0) then None else
  if negb (is_complete (authorization p)) then None else
  if existsb (foreign_item (authorization p)) (items p) then None else
  let p := if query_hash p =? 0
           then set_query_hash p (hash_context_query (query_text p)) else p in
  if DEFAULT_MAX_RESPONSE_BYTES <? approx_size_bytes p then None else Some p.

(** The update of the plan's own partition. *)
Definition insert_entry (capacity : Z) (partition : PartitionCache) (p : ContextPlan)
    (total evictions now : Z) : PartitionCache * Z * Z :=
  let size := approx_size_bytes p in
  let '(ptotal, total) :=
    match index_get (p_entries partition) (query_hash p) with
    | Some existing => (sat_sub (p_total partition) (size_bytes existing),
                        wrap64 (total - size_bytes existing))
    | None => (p_total partition, total)
    end in
  let entries := shift_remove (p_entries partition) (query_hash p)
                   ++ [(query_hash p, mkPlanEntry p size now)] in
  let '(entries, ptotal, total, evictions) :=
    evict_partition capacity entries (sat_add64 ptotal size) (wrap64 (total + size))
      evictions in
  (mkPartition entries ptotal, total, evictions).

Definition insert (c : ContextPlanL1Cache) (p : ContextPlan) (now : Z) :
    ContextPlanL1Cache * bool :=
  match insert_guard c p with
  | None => (c, false)
  | Some p =>
      let key := partition_key p in
      let '(partition, total, evictions) :=
        insert_entry (capacity_per_partition c)
          (default partition_default (partitions c !! key)) p
          (total_size_bytes c) (eviction_count c) now in
      let ps := match p_entries partition with
                | [] => delete key (partitions c)
                | _ => <[key := partition]> (partitions c)
                end in
      let '(ps, total, evictions) :=
        evict_global (Z.to_nat (entry_total ps)) (max_bytes c) ps total evictions in
      (mkL1 (capacity_per_partition c) (max_bytes c) ps total (hit_count c)
         (miss_count c) evictions (invalidation_count c) (sent c), true)
  end.

(** ** Removal and invalidation *)

Definition with_partitions (c : ContextPlanL1Cache) (ps : gmap PartitionKey PartitionCache)
    (total : Z) : ContextPlanL1Cache :=
  mkL1 (capacity_per_partition c) (max_bytes c) ps total (hit_count c) (miss_count c)
    (eviction_count c) (invalidation_count c) (sent c).

Definition remove_partition (c : ContextPlanL1Cache) (a : ContextCacheAuthorization)
    (r b : string) : ContextPlanL1Cache * bool :=
  if negb (is_complete a) then (c, false) else
  match partitions c !! (a, r, b) with
  | None => (c, false)
  | Some p =>
      (with_partitions c (delete (a, r, b) (partitions c))
         (wrap64 (total_size_bytes c - p_total p)), true)
  end.

(** [clear] empties the map under its lock and resets the counters after the lock is
    released: two steps, between which other operations can run. *)
Definition clear_partitions (c : ContextPlanL1Cache) : ContextPlanL1Cache :=
  with_partitions c ∅ (total_size_bytes c).
Definition reset_counters (c : ContextPlanL1Cache) : ContextPlanL1Cache :=
  mkL1 (capacity_per_partition c) (max_bytes c) (partitions c) 0 0 0 0 0 (sent c).
Definition clear (c : ContextPlanL1Cache) : ContextPlanL1Cache := reset_counters (clear_partitions c).

(** The removals of [apply_invalidation], before the counter. *)
Definition invalidate_partition (c : ContextPlanL1Cache) (m : ContextPoolMutation) :
    ContextPlanL1Cache * bool :=
  let key := mutation_partition_key m in
  match m_query_hash m with
  | Some q =>
      match partitions c !! key with
      | None => (c, false)
      | Some p =>
          match index_get (p_entries p) q with
          | Some e =>
              let rest := shift_remove (p_entries p) q in
              let p' := mkPartition rest (sat_sub (p_total p) (size_bytes e)) in
              (with_partitions c
                 (match rest with [] => delete key (partitions c)
                             | _ => <[key := p']> (partitions c) end)
                 (wrap64 (total_size_bytes c - size_bytes e)), true)
          | None =>
              (with_partitions c
                 (match p_entries p with [] => delete key (partitions c)
                                    | _ => partitions c end)
                 (total_size_bytes c), false)
          end
      end
  | None =>
      match partitions c !! key with
      | Some p => (with_partitions c (delete key (partitions c))
                     (wrap64 (total_size_bytes c - p_total p)), true)
      | None => (c, false)
      end
  end.
Definition apply_invalidation (c : ContextPlanL1Cache) (m : ContextPoolMutation) :
    ContextPlanL1Cache * bool :=
  if negb (is_complete (m_authorization m)) then (c, false) else
  let '(c, removed) := invalidate_partition c m in
  (mkL1 (capacity_per_partition c) (max_bytes c) (partitions c) (total_size_bytes c)
     (hit_count c) (miss_count c) (eviction_count c) (wrap64 (invalidation_count c + 1))
     (sent c), removed).
Definition publish_invalidation (c : ContextPlanL1Cache) (m : ContextPoolMutation) :
    ContextPlanL1Cache * bool :=
  if negb (is_complete (m_authorization m)) then (c, false) else
  let '(c, removed) := apply_invalidation c m in
  (mkL1 (capacity_per_partition c) (max_bytes c) (partitions c) (total_size_bytes c)
     (hit_count c) (miss_count c) (eviction_count c) (invalidation_count c)
     (sent c ++ [m]), removed).

(** ** Bulk replacement *)

(** The comparator of [replace_partition_plans]: higher recall first, then
    the query text; [sort_by] is stable. *)
Definition recall_le (x y : ContextPlan) : bool :=
  if recall_count y <? recall_count x then true
  else if recall_count x <? recall_count y then false
  else String.leb (query_text x) (query_text y).
Fixpoint insert_before (x : ContextPlan) (l : list ContextPlan) : list ContextPlan :=
  match l with
  | [] => [x]
  | y :: l => if recall_le x y then x :: y :: l else y :: insert_before x l
  end.
Definition sort_plans (l : list ContextPlan) : list ContextPlan := foldr insert_before [] l.

(** The loop: [clock n] is the instant the [n]-th insertion reads. *)
Fixpoint insert_all (c : ContextPlanL1Cache) (a : ContextCacheAuthorization)
    (r b : string) (plans : list ContextPlan) (clock : nat → Z) (n : nat) :
    ContextPlanL1Cache :=
  match plans with
  | [] => c
  | p :: plans =>
      if negb (bool_decide (authorization p = a)) then insert_all c a r b plans clock n else
      let p := set_location p r b in
      let p := if query_hash p =? 0
               then set_query_hash p (hash_context_query (query_text p)) else p in
      insert_all (insert c p (clock n)).1 a r b plans clock (S n)
  end.
Definition replace_partition_plans (c : ContextPlanL1Cache) (a : ContextCacheAuthorization)
    (r b : string) (plans : list ContextPlan) (clock : nat → Z) : ContextPlanL1Cache :=
  let c := (remove_partition c a r b).1 in
  if (capacity_per_partition c =? 0) || (max_bytes c =? 0) then c else
  let plans := take (Z.to_nat (capacity_per_partition c)) (sort_plans plans) in
  insert_all c a r b (rev plans) clock 0.

(** ** Statistics *)

Record ContextPlanL1Stats := mkStats {
  st_partition_count : Z;
  st_entry_count : Z;
  st_total_size_bytes : Z;
  st_max_bytes : Z;
  st_capacity_per_partition : Z;
  st_hit_count : Z;
  st_miss_count : Z;
  st_eviction_count : Z;
  st_invalidation_count : Z;
}.
Definition stats (c : ContextPlanL1Cache) : ContextPlanL1Stats :=
  {| st_partition_count := Z.of_nat (size (partitions c));
     st_entry_count := entry_total (partitions c);
     st_total_size_bytes := total_size_bytes c;
     st_max_bytes := max_bytes c;
     st_capacity_per_partition := capacity_per_partition c;
     st_hit_count := hit_count c; st_miss_count := miss_count c;
     st_eviction_count := eviction_count c;
     st_invalidation_count := invalidation_count c |}.

(** ** The invariant *)

Definition sizes (l : list (Z * ContextPlanEntry)) : Z :=
  foldr (λ p acc, size_bytes p.2 + acc) 0 l.

(** An entry is filed under its own hash, in the partition of its own
    authorization, and all its items belong to that authorization. *)
Definition entry_ok (key : PartitionKey) (p : Z * ContextPlanEntry) : Prop :=
  query_hash (plan p.2) = p.1 ∧ partition_key (plan p.2) = key
  ∧ is_complete (authorization (plan p.2)) = true
  ∧ existsb (foreign_item (authorization (plan p.2))) (items (plan p.2)) = false
  ∧ 0 ≤ size_bytes p.2.
Definition partition_ok (capacity : Z) (key : PartitionKey) (p : PartitionCache) : Prop :=
  p_entries p ≠ [] ∧ Z.of_nat (length (p_entries p)) ≤ capacity
  ∧ NoDup (p_entries p).*1 ∧ p_total p = sizes (p_entries p)
  ∧ Forall (entry_ok key) (p_entries p).

Definition bytes_of (ps : gmap PartitionKey PartitionCache) : Z := msum p_total ps.

Definition l1_ok (c : ContextPlanL1Cache) : Prop :=
  map_Forall (partition_ok (capacity_per_partition c)) (partitions c)
  ∧ total_size_bytes c = bytes_of (partitions c)
  ∧ total_size_bytes c ≤ max_bytes c.

Lemma msum_empty f : msum f ∅ = 0.
Proof. apply map_fold_empty. Qed.
Lemma msum_insert f ps k p :
  ps !! k = None → msum f (<[k := p]> ps) = f p + msum f ps.
Proof. intros Hk. unfold msum. rewrite map_fold_insert_L; [done|intros; lia|done]. Qed.
Lemma msum_delete f ps k p :
  ps !! k = Some p → msum f (delete k ps) = msum f ps - f p.
Proof.
  intros Hk. rewrite <- (insert_delete_id ps k p Hk) at 2.
  rewrite msum_insert by apply lookup_delete_eq. lia.
Qed.
Lemma msum_replace f ps k p p' :
  ps !! k = Some p → msum f (<[k := p']> ps) = msum f ps - f p + f p'.
Proof.
  intros Hk. rewrite <- insert_delete_eq.
  rewrite msum_insert by apply lookup_delete_eq. rewrite (msum_delete _ _ _ _ Hk). lia.
Qed.
Lemma msum_nonneg f ps : map_Forall (λ _ p, 0 ≤ f p) ps → 0 ≤ msum f ps.
Proof.
  induction ps as [|k p ps Hk IH] using map_ind; [by rewrite msum_empty|].
  rewrite map_Forall_insert by done. intros [Hp Hps]. rewrite msum_insert by done.
  specialize (IH Hps). lia.
Qed.

Lemma msum_ext f g ps : map_Forall (λ _ p, f p = g p) ps → msum f ps = msum g ps.
Proof.
  induction ps as [|k p ps Hk IH] using map_ind; [by rewrite !msum_empty|].
  rewrite map_Forall_insert by done. intros [Hp Hps]. rewrite !msum_insert by done.
  by rewrite Hp, IH.
Qed.

Lemma sizes_app l l' : sizes (l ++ l') = sizes l + sizes l'.
Proof. unfold sizes. induction l as [|x l IH]; simpl; lia. Qed.
Lemma sizes_nonneg key l : Forall (entry_ok key) l → 0 ≤ sizes l.
Proof. induction 1 as [|x l (_ & _ & _ & _ & Hx) _ IH]; simpl; lia. Qed.

Lemma index_get_Some l k e : index_get l k = Some e → (k, e) ∈ l.
Proof.
  induction l as [|[k' e'] l IH]; simpl; [done|]. rewrite elem_of_cons.
  destruct (Z.eqb_spec k' k) as [->|]; [intros [= ->]; by left|]. auto.
Qed.
Lemma index_get_None l k : index_get l k = None ↔ k ∉ l.*1.
Proof.
  induction l as [|[k' e'] l IH]; cbn [index_get];
    [split; [intros _; apply not_elem_of_nil|done]|].
  rewrite fmap_cons, not_elem_of_cons. simpl.
  destruct (Z.eqb_spec k' k) as [->|Hne]; [split; [done|by intros []]|].
  rewrite IH. split; [intros; split; [congruence|done]|by intros []].
Qed.
Lemma shift_remove_sizes l k :
  sizes (shift_remove l k)
  = sizes l - match index_get l k with Some e => size_bytes e | None => 0 end.
Proof.
  induction l as [|[k' e'] l IH]; simpl; [done|].
  destruct (k' =? k); simpl; [lia|]. rewrite IH. lia.
Qed.
Lemma shift_remove_sublist l k : shift_remove l k `sublist_of` l.
Proof.
  induction l as [|[k' e'] l IH]; simpl; [done|].
  destruct (k' =? k); [by constructor|by constructor].
Qed.
Lemma shift_remove_length l k :
  index_get l k ≠ None → length l = S (length (shift_remove l k)).
Proof.
  induction l as [|[k' e'] l IH]; simpl; [done|].
  destruct (k' =? k); [done|]. intros Hn. simpl. by rewrite IH.
Qed.
Lemma sublist_Forall {A} (P : A → Prop) l l' : l `sublist_of` l' → Forall P l' → Forall P l.
Proof. intros Hs. rewrite !Forall_forall. intros H x Hx. by apply H, (elem_of_sublist l l'). Qed.
Lemma shift_remove_NoDup l k : NoDup l.*1 → NoDup (shift_remove l k).*1.
Proof. intros Hn. eapply sublist_NoDup; [exact Hn|].
  apply (fmap_sublist fst), shift_remove_sublist. Qed.
Lemma shift_remove_fresh l k : NoDup l.*1 → k ∉ (shift_remove l k).*1.
Proof.
  induction l as [|[k' e'] l IH]; cbn [shift_remove]; [intros; apply not_elem_of_nil|].
  rewrite fmap_cons. intros [Hn Hl]%NoDup_cons.
  destruct (Z.eqb_spec k' k) as [->|Hne]; [done|].
  rewrite fmap_cons, not_elem_of_cons. simpl. auto.
Qed.

(** ** Eviction keeps the accounts *)

Section spec.
Hypothesis hash_order_perm : ∀ ps, hash_order ps ≡ₚ map_to_list ps.
Hypothesis json_len_nonneg : ∀ p n, json_len p = Some n → 0 ≤ n.

Lemma partition_ok_total cap key p : partition_ok cap key p → 0 ≤ p_total p.
Proof. intros (_ & _ & _ & -> & Hall). by eapply sizes_nonneg. Qed.

Lemma bytes_of_nonneg cap ps : map_Forall (partition_ok cap) ps → 0 ≤ bytes_of ps.
Proof.
  intros Hok. apply msum_nonneg. intros k p Hk. by eapply partition_ok_total, Hok.
Qed.

(** The chosen victim: a partition whose first entry is no younger than the
    first entry of any partition. *)
Lemma find_victim_spec ps acc :
  (∀ k p, (k, p) ∈ ps → p_entries p ≠ []) →
  match find_victim ps acc with
  | None => ps = [] ∧ acc = None
  | Some (k, t) =>
      (acc = Some (k, t) ∨ ∃ p q e rest,
         (k, p) ∈ ps ∧ p_entries p = (q, e) :: rest ∧ last_accessed e = t)
      ∧ (∀ k' t', acc = Some (k', t') → t ≤ t')
      ∧ ∀ k' p' q' e' rest', (k', p') ∈ ps → p_entries p' = (q', e') :: rest' →
          t ≤ last_accessed e'
  end.
Proof.
  revert acc. induction ps as [|[k p] ps IH]; intros acc Hne; cbn [find_victim].
  { destruct acc as [[k t]|]; [|done]. split_and!; [by left|intros; by simplify_eq|].
    intros k' p' q' e' rest' Hin. by apply elem_of_nil in Hin. }
  destruct (p_entries p) as [|[q e] rest] eqn:Ep.
  { destruct (Hne k p); [apply elem_of_cons; by left|done]. }
  match goal with |- context [find_victim ps ?a] => set (acc' := a) end.
  specialize (IH acc' ltac:(intros k' p' Hin; apply (Hne k' p'), elem_of_cons; by right)).
  assert (Hacc : ∃ k0 t0, acc' = Some (k0, t0) ∧ t0 ≤ last_accessed e
    ∧ (∀ k' t', acc = Some (k', t') → t0 ≤ t')
    ∧ (acc = Some (k0, t0) ∨ (k0 = k ∧ t0 = last_accessed e))).
  { unfold acc'. destruct acc as [[k0 t0]|].
    - destruct (Z.ltb_spec (last_accessed e) t0).
      + exists k, (last_accessed e). split_and!; [done|lia|intros ?? [= <- <-]; lia|by right].
      + exists k0, t0. split_and!; [done|lia|intros ?? [= <- <-]; lia|by left].
    - exists k, (last_accessed e). split_and!; [done|lia|done|by right]. }
  destruct Hacc as (k0 & t0 & Hacc' & Hle & Hmin & Hor). rewrite Hacc' in IH |- *.
  destruct (find_victim ps (Some (k0, t0))) as [[k1 t1]|]; [|by destruct IH as [_ [=]]].
  destruct IH as (I1 & I2 & I3). specialize (I2 k0 t0 eq_refl). split; [|split].
  - destruct I1 as [[= <- <-]|(p' & q' & e' & rest' & Hin & He & Ht)].
    + destruct Hor as [?|[-> ->]]; [by left|]. right. exists p, q, e, rest.
      split_and!; [apply elem_of_cons; by left|done|done].
    + right. exists p', q', e', rest'. split_and!; [apply elem_of_cons; by right|done|done].
  - intros k' t' Ha. specialize (Hmin k' t' Ha). lia.
  - intros k' p' q' e' rest' [[= -> ->]|Hin]%elem_of_cons He; [|by eapply I3].
    rewrite Ep in He. simplify_eq. lia.
Qed.

Lemma victim_partition cap ps :
  map_Forall (partition_ok cap) ps →
  match find_victim (hash_order ps) None with
  | None => ps = ∅
  | Some (k, t) =>
      ∃ p q e rest, ps !! k = Some p ∧ p_entries p = (q, e) :: rest ∧ last_accessed e = t
      ∧ ∀ k' p' q' e' rest', ps !! k' = Some p' → p_entries p' = (q', e') :: rest' →
          t ≤ last_accessed e'
  end.
Proof.
  intros Hok. pose proof (find_victim_spec (hash_order ps) None) as Hv.
  assert (Hin : ∀ k p, (k, p) ∈ hash_order ps ↔ ps !! k = Some p).
  { intros k p. by rewrite hash_order_perm, elem_of_map_to_list. }
  specialize (Hv ltac:(intros k p Hk%Hin; by apply (Hok k p) in Hk as [? _])).
  destruct (find_victim (hash_order ps) None) as [[k t]|].
  - destruct Hv as ([[=]|(p & q & e & rest & Hp & He & Ht)] & _ & Hmin).
    apply Hin in Hp. exists p, q, e, rest. split_and!; try done.
    intros k' p' q' e' rest' Hk'%Hin He'. by apply (Hmin k' p' q' e' rest').
  - destruct Hv as [Hnil _]. apply map_to_list_empty_iff.
    apply Permutation_nil_r. by rewrite <- hash_order_perm, Hnil.
Qed.

(** Removing the first entry of a partition. *)
Definition drop_first (ps : gmap PartitionKey PartitionCache) (k : PartitionKey)
    (p : PartitionCache) (e : ContextPlanEntry) (rest : list (Z * ContextPlanEntry)) :
    gmap PartitionKey PartitionCache :=
  match rest with
  | [] => delete k ps
  | _ => <[k := mkPartition rest (sat_sub (p_total p) (size_bytes e))]> ps
  end.

Lemma partition_ok_tail cap k p q e rest :
  partition_ok cap k p → p_entries p = (q, e) :: rest →
  sat_sub (p_total p) (size_bytes e) = sizes rest ∧ 0 ≤ size_bytes e
  ∧ p_total p = size_bytes e + sizes rest
  ∧ (rest ≠ [] → partition_ok cap k (mkPartition rest (sizes rest))).
Proof.
  intros (Hne & Hlen & Hnd & Htot & Hall) He. rewrite He in *. simpl in *.
  apply Forall_cons in Hall as [(_ & _ & _ & _ & Hs) Hall].
  pose proof (sizes_nonneg k rest Hall). simpl in *. apply NoDup_cons in Hnd as [_ Hnd].
  split_and!; [width_lia|done|done|]. intros Hr. split_and!; simpl; (done || lia).
Qed.

Lemma drop_first_ok cap ps k p q e rest :
  map_Forall (partition_ok cap) ps → ps !! k = Some p → p_entries p = (q, e) :: rest →
  map_Forall (partition_ok cap) (drop_first ps k p e rest)
  ∧ bytes_of (drop_first ps k p e rest) = bytes_of ps - size_bytes e
  ∧ entry_total (drop_first ps k p e rest) = entry_total ps - 1.
Proof.
  intros Hok Hk He. destruct (partition_ok_tail cap k p q e rest (Hok k p Hk) He)
    as (Hsub & Hs & Htot & Hrest). unfold drop_first, bytes_of, entry_total.
  destruct rest as [|x rest].
  - rewrite !(msum_delete _ _ _ _ Hk), He. simpl in *. split_and!; [|lia|lia].
    by apply map_Forall_delete.
  - rewrite !(msum_replace _ _ _ _ _ Hk), He. cbn [p_entries p_total length].
    rewrite Hsub, Htot. split_and!; [|lia|lia].
    apply map_Forall_insert_2; [by apply Hrest|done].
Qed.

Lemma drop_first_lookup ps k p e rest k' p' :
  drop_first ps k p e rest !! k' = Some p' →
  (k' = k ∧ p_entries p' = rest ∧ rest ≠ []) ∨ (k' ≠ k ∧ ps !! k' = Some p').
Proof.
  unfold drop_first. destruct rest as [|x rest].
  - intros [? ?]%lookup_delete_Some. right. split; [congruence|done].
  - rewrite lookup_insert. case_decide; [|right; split; [congruence|done]].
    intros [= <-]. by left.
Qed.

Lemma evict_global_spec cap fuel max ps total ev :
  0 ≤ max → entry_total ps ≤ Z.of_nat fuel →
  map_Forall (partition_ok cap) ps → total = bytes_of ps → total ≤ u64_max →
  let '(ps', total', _) := evict_global fuel max ps total ev in
  map_Forall (partition_ok cap) ps' ∧ total' = bytes_of ps' ∧ total' ≤ max.
Proof.
  intros Hmax. revert ps total ev. induction fuel as [|fuel IH];
    intros ps total ev Hfuel Hok Htot Hu; cbn [evict_global].
  { split_and!; [done|done|].
    destruct (decide (ps = ∅)) as [->|Hne].
    { unfold bytes_of in Htot. rewrite msum_empty in Htot. lia. }
    apply map_choose in Hne as (k & p & Hk).
    assert (Hd : 0 ≤ entry_total (delete k ps)).
    { apply msum_nonneg. intros ???. lia. }
    unfold entry_total in *. rewrite (msum_delete _ _ _ _ Hk) in Hd.
    destruct (Hok k p Hk) as (Hne & _). destruct (p_entries p); [done|]. simpl in *. lia. }
  destruct (Z.leb_spec total max); [by split_and!|].
  pose proof (victim_partition cap ps Hok) as Hv.
  destruct (find_victim (hash_order ps) None) as [[k t]|].
  - destruct Hv as (p & q & e & rest & Hk & He & _). rewrite Hk, He.
    destruct (drop_first_ok cap ps k p q e rest Hok Hk He) as (D1 & D2 & D3).
    destruct (partition_ok_tail cap k p q e rest (Hok k p Hk) He) as (_ & Hs & _).
    pose proof (bytes_of_nonneg cap _ D1).
    apply IH; [fold (drop_first ps k p e rest); lia|done| |].
    + fold (drop_first ps k p e rest). rewrite wrap64_small; width_lia.
    + rewrite wrap64_small; width_lia.
  - subst ps. unfold bytes_of in Htot. rewrite msum_empty in Htot. split_and!; (done || lia).
Qed.

(** ** Insertion keeps the accounts *)

Lemma evict_partition_spec cap key entries ptotal total ev :
  0 ≤ cap → Forall (entry_ok key) entries → ptotal = sizes entries →
  sizes entries ≤ total → total ≤ u64_max →
  let '(es, pt, t, _) := evict_partition cap entries ptotal total ev in
  es = drop (length entries - Z.to_nat cap) entries ∧ pt = sizes es
  ∧ t = total - sizes entries + sizes es.
Proof.
  intros Hcap Hall. revert ptotal total ev.
  induction Hall as [|[q e] entries (_ & _ & _ & _ & Hs) Hall IH];
    intros ptotal total ev Hp Hle Hu; cbn [evict_partition].
  { destruct (_ <=? _); split_and!; (done || lia). }
  pose proof (sizes_nonneg key entries Hall). simpl in Hp, Hle, Hs.
  destruct (Z.leb_spec (Z.of_nat (length ((q, e) :: entries))) cap) as [Hc|Hc].
  - replace (length _ - _)%nat with O by lia. split_and!; (done || lia).
  - replace (length ((q, e) :: entries) - Z.to_nat cap)%nat
      with (S (length entries - Z.to_nat cap)) by (simpl in *; lia).
    rewrite skipn_cons.
    rewrite (wrap64_small (total - _)) by width_lia.
    specialize (IH (sat_sub ptotal (size_bytes e)) (total - size_bytes e) (wrap64 (ev + 1))
      ltac:(width_lia) ltac:(lia) ltac:(lia)).
    destruct (evict_partition _ _ _ _ _) as [[[es pt] t] ev'].
    destruct IH as (-> & -> & ->). simpl. split_and!; (done || lia).
Qed.

(** A partition before insertion: a stored one, or the empty default. *)
Definition partition_pre (cap : Z) (key : PartitionKey) (p : PartitionCache) : Prop :=
  Z.of_nat (length (p_entries p)) ≤ cap ∧ NoDup (p_entries p).*1
  ∧ p_total p = sizes (p_entries p) ∧ Forall (entry_ok key) (p_entries p).

Lemma partition_pre_default (cap : Z) (key : PartitionKey) (ps : gmap PartitionKey PartitionCache) :
  0 ≤ cap → map_Forall (partition_ok cap) ps →
  partition_pre cap key (default partition_default (ps !! key)).
Proof.
  intros Hcap Hok. destruct (ps !! key) as [p|] eqn:E; simpl.
  - by destruct (Hok key p E) as (_ & ?).
  - split_and!; simpl; try done; constructor.
Qed.

Definition plan_ok (p : ContextPlan) : Prop :=
  is_complete (authorization p) = true
  ∧ existsb (foreign_item (authorization p)) (items p) = false
  ∧ 0 ≤ approx_size_bytes p ≤ DEFAULT_MAX_RESPONSE_BYTES.

Lemma str_len_nonneg s : 0 ≤ str_len s.
Proof. unfold str_len. lia. Qed.

Lemma approx_size_nonneg p : 0 ≤ approx_size_bytes p.
Proof.
  unfold approx_size_bytes. destruct (json_len p) eqn:E; [by eapply json_len_nonneg|].
  assert (Hi : 0 ≤ foldr (λ i acc, str_len (item_id i) + str_len (content i) + acc) 0 (items p)).
  { induction (items p) as [|x l IH]; simpl; [done|].
    pose proof (str_len_nonneg (item_id x)). pose proof (str_len_nonneg (content x)). lia. }
  assert (Ho : ∀ o, 0 ≤ default 0 (str_len <$> o)).
  { intros [s|]; simpl; [apply str_len_nonneg|done]. }
  pose proof (str_len_nonneg (p_organization_id p)).
  pose proof (str_len_nonneg (p_authorization_version p)).
  pose proof (str_len_nonneg (repo p)). pose proof (str_len_nonneg (branch p)).
  pose proof (str_len_nonneg (query_text p)). pose proof (Ho (p_team_id p)).
  pose proof (Ho (plan_hash p)). pose proof (Ho (topic_cluster p)). lia.
Qed.

Lemma insert_guard_Some c p p' :
  insert_guard c p = Some p' →
  plan_ok p' ∧ partition_key p' = partition_key p ∧ query_text p' = query_text p
  ∧ capacity_per_partition c ≠ 0.
Proof.
  unfold insert_guard. destruct (Z.eqb_spec (capacity_per_partition c) 0); [done|].
  destruct (_ || _); [done|]. destruct (is_complete (authorization p)) eqn:Ec; [|done].
  destruct (existsb _ _) eqn:Ef; [done|]. simpl.
  set (p1 := if query_hash p =? 0 then _ else p).
  assert (Hp1 : authorization p1 = authorization p ∧ items p1 = items p
    ∧ partition_key p1 = partition_key p ∧ query_text p1 = query_text p)
    by (unfold p1; by destruct (query_hash p =? 0)).
  destruct Hp1 as (E1 & E2 & E3 & E4).
  destruct (Z.ltb_spec DEFAULT_MAX_RESPONSE_BYTES (approx_size_bytes p1)); [done|].
  intros [= <-]. unfold plan_ok. rewrite E1, E2. split_and!; try done.
  apply approx_size_nonneg.
Qed.

Lemma sizes_drop key n l : Forall (entry_ok key) l → sizes (drop n l) ≤ sizes l.
Proof.
  intros Hall. rewrite <- (take_drop n l) at 2. rewrite sizes_app.
  pose proof (sizes_nonneg key (take n l) (Forall_take _ n _ Hall)). lia.
Qed.

(** Taking the old entry of the hash off both totals. *)
Lemma replace_totals cap key part q total :
  partition_pre cap key part → p_total part ≤ total → total ≤ u64_max →
  ∃ pt, (match index_get (p_entries part) q with
         | Some existing => (sat_sub (p_total part) (size_bytes existing),
                             wrap64 (total - size_bytes existing))
         | None => (p_total part, total)
         end) = (pt, total - p_total part + pt)
    ∧ pt = sizes (shift_remove (p_entries part) q) ∧ 0 ≤ pt ≤ p_total part.
Proof.
  intros (_ & _ & Htot & Hall) Hle Hu.
  pose proof (shift_remove_sizes (p_entries part) q) as Hrem.
  pose proof (sizes_nonneg key _ (sublist_Forall _ _ _
    (shift_remove_sublist (p_entries part) q) Hall)) as Hrn.
  exists (sizes (shift_remove (p_entries part) q)). revert Hrem.
  destruct (index_get (p_entries part) q) as [e|] eqn:Eg; intros Hrem.
  - apply index_get_Some in Eg. rewrite Forall_forall in Hall.
    destruct (Hall _ Eg) as (_ & _ & _ & _ & He). simpl in He.
    split_and!; [|done|lia|lia]. rewrite wrap64_small by width_lia. f_equal; width_lia.
  - split_and!; [f_equal; lia|done|lia|lia].
Qed.

Lemma insert_entry_spec cap key part p total ev now :
  1 ≤ cap → partition_pre cap key part → plan_ok p → partition_key p = key →
  p_total part ≤ total → total + DEFAULT_MAX_RESPONSE_BYTES ≤ u64_max →
  let '(part', total', _) := insert_entry cap part p total ev now in
  partition_ok cap key part' ∧ total' = total - p_total part + p_total part'
  ∧ p_total part' ≤ p_total part + DEFAULT_MAX_RESPONSE_BYTES
  ∧ ∃ l, p_entries part' = l ++ [(query_hash p, mkPlanEntry p (approx_size_bytes p) now)]
         ∧ l `sublist_of` p_entries part.
Proof.
  intros Hcap (Hlen & Hnd & Htot & Hall) (Hc & Hf & Hsz) Hkey Hle Hu. unfold insert_entry.
  set (q := query_hash p). set (size := approx_size_bytes p) in *.
  set (es0 := shift_remove (p_entries part) q ++ [(q, mkPlanEntry p size now)]).
  destruct (replace_totals cap key part q total) as (pt & -> & Hpt & Hptle);
    [by split_and!|done|width_lia|].
  assert (Hsz0 : sizes es0 = pt + size) by (unfold es0; rewrite sizes_app; simpl; lia).
  assert (Hall0 : Forall (entry_ok key) es0).
  { apply Forall_app. split; [by eapply sublist_Forall, Hall; apply shift_remove_sublist|].
    repeat constructor; simpl; (done || lia). }
  assert (Hsat : sat_add64 pt size = sizes es0) by (rewrite Hsz0; width_lia).
  rewrite Hsat. rewrite wrap64_small by width_lia.
  pose proof (evict_partition_spec cap key es0 (sizes es0)
    (total - p_total part + pt + size) ev ltac:(lia) Hall0 eq_refl ltac:(lia) ltac:(lia)) as Hev.
  destruct (evict_partition cap es0 _ _ _) as [[[es pt'] t'] ev'].
  destruct Hev as (Hes & -> & ->). simpl.
  set (n := (length es0 - Z.to_nat cap)%nat) in *.
  assert (Hl0 : length es0 = S (length (shift_remove (p_entries part) q)))
    by (unfold es0; rewrite length_app; simpl; lia).
  assert (Hes' : es = drop n (shift_remove (p_entries part) q)
                       ++ [(q, mkPlanEntry p size now)]).
  { rewrite Hes. unfold es0. rewrite drop_app_le; [done|]. unfold n. lia. }
  split_and!.
  - split_and!; simpl.
    + rewrite Hes'. intros Hnil. by apply app_nil in Hnil as [_ [=]].
    + rewrite Hes, length_drop. unfold n. lia.
    + rewrite Hes, fmap_drop.
      eapply sublist_NoDup; [|apply sublist_drop]. unfold es0. rewrite fmap_app.
      apply NoDup_app. split_and!; [by apply shift_remove_NoDup| |apply NoDup_singleton].
      intros x Hx Hq%list_elem_of_singleton. simpl in Hq. subst x.
      by apply shift_remove_fresh in Hx.
    + done.
    + rewrite Hes. by apply Forall_drop.
  - lia.
  - pose proof (sizes_drop key n es0 Hall0). rewrite Hes. lia.
  - eexists. split; [exact Hes'|].
    etrans; [apply sublist_drop|apply shift_remove_sublist].
Qed.

(** ** Every operation keeps the invariant *)

Definition config_ok (c : ContextPlanL1Cache) : Prop :=
  0 ≤ capacity_per_partition c ∧ 0 ≤ max_bytes c
  ∧ max_bytes c + DEFAULT_MAX_RESPONSE_BYTES ≤ u64_max.
Definition same_config (c c' : ContextPlanL1Cache) : Prop :=
  capacity_per_partition c' = capacity_per_partition c ∧ max_bytes c' = max_bytes c.

Lemma partition_total_le cap ps k :
  map_Forall (partition_ok cap) ps →
  0 ≤ p_total (default partition_default (ps !! k : option PartitionCache)) ≤ bytes_of ps.
Proof.
  intros Hok. destruct (ps !! k) as [p|] eqn:E; simpl.
  - pose proof (partition_ok_total cap k p (Hok k p E)).
    pose proof (bytes_of_nonneg cap (delete k ps) (map_Forall_delete _ _ _ Hok)) as Hd.
    unfold bytes_of in *. rewrite (msum_delete _ _ _ _ E) in Hd. lia.
  - split; [done|]. by eapply bytes_of_nonneg.
Qed.

Lemma bytes_of_upsert ps k p' :
  bytes_of (<[k := p']> ps)
  = bytes_of ps - p_total (default partition_default (ps !! k : option PartitionCache))
    + p_total p'.
Proof.
  unfold bytes_of. destruct (ps !! k) as [p|] eqn:E; simpl.
  - by apply msum_replace.
  - rewrite msum_insert by done. lia.
Qed.

(** The state between the update of the partition and the global eviction. *)
Lemma insert_partition_ok c p p' now :
  config_ok c → l1_ok c → insert_guard c p = Some p' →
  let key := partition_key p' in
  let '(part, total, ev) := insert_entry (capacity_per_partition c)
     (default partition_default (partitions c !! key)) p'
     (total_size_bytes c) (eviction_count c) now in
  p_entries part ≠ []
  ∧ map_Forall (partition_ok (capacity_per_partition c)) (<[key := part]> (partitions c))
  ∧ total = bytes_of (<[key := part]> (partitions c)) ∧ total ≤ u64_max
  ∧ ∃ l, p_entries part
         = l ++ [(query_hash p', mkPlanEntry p' (approx_size_bytes p') now)]
       ∧ l `sublist_of` p_entries (default partition_default (partitions c !! key)).
Proof.
  intros (Hcap & Hmax & Hu) (Hok & Htot & Hle) Hg. cbv zeta.
  destruct (insert_guard_Some c p p' Hg) as (Hp & _ & _ & Hne).
  pose proof (partition_total_le _ _ (partition_key p') Hok) as Hpt.
  pose proof (insert_entry_spec (capacity_per_partition c) (partition_key p')
    (default partition_default (partitions c !! partition_key p')) p'
    (total_size_bytes c) (eviction_count c) now ltac:(lia)
    (partition_pre_default _ _ _ Hcap Hok) Hp eq_refl ltac:(lia) ltac:(lia)) as Hins.
  destruct (insert_entry _ _ _ _ _ _) as [[part total] ev].
  destruct Hins as (Hpart & -> & Hb & Hl). split_and!.
  - by destruct Hpart.
  - by apply map_Forall_insert_2.
  - rewrite bytes_of_upsert. lia.
  - lia.
  - done.
Qed.

Lemma l1_insert_ok c p now :
  config_ok c → l1_ok c →
  l1_ok (insert c p now).1 ∧ same_config c (insert c p now).1.
Proof.
  intros Hcfg Hok. unfold insert. destruct (insert_guard c p) as [p'|] eqn:Hg; [|done].
  pose proof (insert_partition_ok c p p' now Hcfg Hok Hg) as Hins. cbv zeta in Hins.
  destruct (insert_entry _ _ _ _ _ _) as [[part total] ev].
  destruct Hins as (Hne & Hps & Ht & Hu & _).
  destruct (p_entries part) as [|x l] eqn:E; [done|].
  destruct Hcfg as (Hcap & Hmax & _).
  pose proof (evict_global_spec (capacity_per_partition c)
    (Z.to_nat (entry_total (<[partition_key p' := part]> (partitions c)))) (max_bytes c)
    (<[partition_key p' := part]> (partitions c)) total ev Hmax ltac:(lia) Hps Ht Hu) as Hev.
  destruct (evict_global _ _ _ _ _) as [[ps t] ev']. simpl.
  destruct Hev as (H1 & H2 & H3). by split_and!.
Qed.

Lemma partition_ok_move cap key p q e now :
  partition_ok cap key p → index_get (p_entries p) q = Some e →
  partition_ok cap key
    (mkPartition (shift_remove (p_entries p) q
                    ++ [(q, mkPlanEntry (plan e) (size_bytes e) now)]) (p_total p)).
Proof.
  intros (Hne & Hlen & Hnd & Htot & Hall) Hg.
  pose proof (shift_remove_sizes (p_entries p) q) as Hs. rewrite Hg in Hs.
  pose proof (shift_remove_length (p_entries p) q ltac:(by rewrite Hg)) as Hl.
  split_and!; simpl.
  - intros Hnil. by apply app_nil in Hnil as [_ [=]].
  - rewrite length_app. simpl. lia.
  - rewrite fmap_app. apply NoDup_app.
    split_and!; [by apply shift_remove_NoDup| |apply NoDup_singleton].
    intros x Hx Hq%list_elem_of_singleton. simpl in Hq. subst x.
    by apply shift_remove_fresh in Hx.
  - rewrite sizes_app. simpl. lia.
  - apply Forall_app. split; [by eapply sublist_Forall, Hall; apply shift_remove_sublist|].
    apply index_get_Some in Hg. rewrite Forall_forall in Hall.
    constructor; [|done]. exact (Hall _ Hg).
Qed.

Lemma get_ok c a r b q now :
  l1_ok c → l1_ok (get c a r b q now).1 ∧ same_config c (get c a r b q now).1.
Proof.
  intros (Hok & Htot & Hle). unfold get, l1_ok, same_config.
  destruct (negb (is_complete a)); [done|].
  destruct (partitions c !! (a, r, b)) as [p|] eqn:Ep; [|done].
  destruct (index_get (p_entries p) q) as [e|] eqn:Eg; [|done]. simpl. split_and!; try done.
  - apply map_Forall_insert_2; [|done]. apply partition_ok_move; [|done].
    exact (Hok _ _ Ep).
  - rewrite Htot. unfold bytes_of. rewrite (msum_replace _ _ _ _ _ Ep). simpl. lia.
Qed.

Lemma wrap_total c t :
  config_ok c → l1_ok c → 0 ≤ t ≤ total_size_bytes c →
  wrap64 (total_size_bytes c - t) = total_size_bytes c - t.
Proof.
  intros (_ & _ & Hu) (_ & _ & Hle) Ht. apply wrap64_small.
  unfold DEFAULT_MAX_RESPONSE_BYTES in Hu. width_lia.
Qed.

(** Dropping a whole partition. *)
Lemma drop_partition_ok c k p :
  config_ok c → l1_ok c → partitions c !! k = Some p →
  l1_ok (with_partitions c (delete k (partitions c))
           (wrap64 (total_size_bytes c - p_total p))).
Proof.
  intros Hcfg Hl Hk. pose proof Hl as (Hok & Htot & Hle).
  pose proof (partition_total_le _ _ k Hok) as Hpt. rewrite Hk in Hpt. simpl in Hpt.
  unfold l1_ok. simpl. rewrite wrap_total by (done || lia).
  split_and!; [by apply map_Forall_delete| |lia].
  unfold bytes_of in *. rewrite (msum_delete _ _ _ _ Hk). lia.
Qed.

Lemma remove_partition_ok c a r b :
  config_ok c → l1_ok c →
  l1_ok (remove_partition c a r b).1 ∧ same_config c (remove_partition c a r b).1.
Proof.
  intros Hcfg Hok. unfold remove_partition. destruct (negb (is_complete a)); [done|].
  destruct (partitions c !! (a, r, b)) as [p|] eqn:E; [|done].
  split; [|done]. by apply drop_partition_ok.
Qed.

Lemma partition_ok_shift cap key p q e :
  partition_ok cap key p → index_get (p_entries p) q = Some e →
  shift_remove (p_entries p) q ≠ [] →
  partition_ok cap key
    (mkPartition (shift_remove (p_entries p) q) (sat_sub (p_total p) (size_bytes e))).
Proof.
  intros (Hne & Hlen & Hnd & Htot & Hall) Hg Hr.
  pose proof (shift_remove_sizes (p_entries p) q) as Hs. rewrite Hg in Hs.
  pose proof (shift_remove_length (p_entries p) q ltac:(by rewrite Hg)) as Hl.
  assert (Hall' : Forall (entry_ok key) (shift_remove (p_entries p) q))
    by (by eapply sublist_Forall, Hall; apply shift_remove_sublist).
  pose proof (sizes_nonneg _ _ Hall').
  split_and!; simpl; [done|lia|by apply shift_remove_NoDup|width_lia|done].
Qed.

Lemma invalidate_partition_ok c m :
  config_ok c → l1_ok c →
  l1_ok (invalidate_partition c m).1 ∧ same_config c (invalidate_partition c m).1.
Proof.
  intros Hcfg Hl. pose proof Hl as (Hok & Htot & Hle). unfold invalidate_partition.
  set (k := mutation_partition_key m). destruct (m_query_hash m) as [q|].
  2: { destruct (partitions c !! k) as [p|] eqn:E; [|done].
       split; [|done]. by apply drop_partition_ok. }
  destruct (partitions c !! k) as [p|] eqn:Ek; [|done].
  pose proof (Hok k p Ek) as Hp. pose proof Hp as (Hne & _ & _ & Hpt & Hall).
  destruct (index_get (p_entries p) q) as [e|] eqn:Eg.
  - pose proof (shift_remove_sizes (p_entries p) q) as Hs. rewrite Eg in Hs.
    assert (Hall' : Forall (entry_ok k) (shift_remove (p_entries p) q))
      by (by eapply sublist_Forall, Hall; apply shift_remove_sublist).
    pose proof (sizes_nonneg _ _ Hall') as Hn.
    pose proof (partition_total_le _ _ k Hok) as Hb. rewrite Ek in Hb. simpl in Hb.
    pose proof (index_get_Some _ _ _ Eg) as Hin. rewrite Forall_forall in Hall.
    destruct (Hall _ Hin) as (_ & _ & _ & _ & He). simpl in He.
    split; [|by destruct (shift_remove _ _)]. unfold l1_ok. simpl.
    rewrite wrap_total by (done || lia).
    destruct (shift_remove (p_entries p) q) as [|x l] eqn:Er.
    + split_and!; [by apply map_Forall_delete| |lia].
      unfold bytes_of in *. rewrite (msum_delete _ _ _ _ Ek). simpl in Hs. lia.
    + split_and!; [|rewrite bytes_of_upsert, Ek; simpl|lia].
      * apply map_Forall_insert_2; [|done]. rewrite <- Er.
        apply partition_ok_shift; [done|done|by rewrite Er].
      * simpl in *. width_lia.
  - destruct (p_entries p); [done|]. by destruct c.
Qed.

Lemma apply_invalidation_ok c m :
  config_ok c → l1_ok c →
  l1_ok (apply_invalidation c m).1 ∧ same_config c (apply_invalidation c m).1.
Proof.
  intros Hcfg Hok. unfold apply_invalidation. destruct (negb _); [done|].
  pose proof (invalidate_partition_ok c m Hcfg Hok) as [H1 H2].
  by destruct (invalidate_partition c m).
Qed.

Lemma publish_invalidation_ok c m :
  config_ok c → l1_ok c →
  l1_ok (publish_invalidation c m).1 ∧ same_config c (publish_invalidation c m).1.
Proof.
  intros Hcfg Hok. unfold publish_invalidation. destruct (negb _); [done|].
  pose proof (apply_invalidation_ok c m Hcfg Hok) as [H1 H2].
  by destruct (apply_invalidation c m).
Qed.

Lemma config_ok_same c c' : config_ok c → same_config c c' → config_ok c'.
Proof. unfold config_ok. intros ? [-> ->]. done. Qed.
Lemma same_config_trans c1 c2 c3 : same_config c1 c2 → same_config c2 c3 → same_config c1 c3.
Proof. unfold same_config. intros [-> ->] [-> ->]. done. Qed.

Lemma insert_all_ok c a r b plans clock n :
  config_ok c → l1_ok c →
  l1_ok (insert_all c a r b plans clock n)
  ∧ same_config c (insert_all c a r b plans clock n).
Proof.
  revert c n. induction plans as [|p plans IH]; intros c n Hcfg Hok; [done|].
  cbn [insert_all]. destruct (negb _); [by apply IH|]. cbv zeta.
  match goal with |- context [insert c ?x ?t] =>
    destruct (l1_insert_ok c x t Hcfg Hok) as [H1 H2] end.
  edestruct IH as [H3 H4]; [|exact H1|split; [exact H3|by eapply same_config_trans]].
  by eapply config_ok_same.
Qed.

Lemma replace_partition_plans_ok c a r b plans clock :
  config_ok c → l1_ok c →
  l1_ok (replace_partition_plans c a r b plans clock)
  ∧ same_config c (replace_partition_plans c a r b plans clock).
Proof.
  intros Hcfg Hok. unfold replace_partition_plans.
  destruct (remove_partition_ok c a r b Hcfg Hok) as [H1 H2].
  destruct (_ || _); [done|].
  edestruct insert_all_ok as [H3 H4]; [|exact H1|split; [exact H3|by eapply same_config_trans]].
  by eapply config_ok_same.
Qed.

(** The operations as values, each with the instants it reads. *)
Inductive L1Op :=
  | L1Get (a : ContextCacheAuthorization) (r b : string) (q now : Z)
  | L1Insert (p : ContextPlan) (now : Z)
  | L1Replace (a : ContextCacheAuthorization) (r b : string) (plans : list ContextPlan)
    (clock : nat → Z)
  | L1Remove (a : ContextCacheAuthorization) (r b : string)
  | L1Clear
  | L1Publish (m : ContextPoolMutation).
Definition l1_step (c : ContextPlanL1Cache) (op : L1Op) : ContextPlanL1Cache :=
  match op with
  | L1Get a r b q now => (get c a r b q now).1
  | L1Insert p now => (insert c p now).1
  | L1Replace a r b plans clock => replace_partition_plans c a r b plans clock
  | L1Remove a r b => (remove_partition c a r b).1
  | L1Clear => clear c
  | L1Publish m => (publish_invalidation c m).1
  end.
Definition l1_run (c : ContextPlanL1Cache) (ops : list L1Op) : ContextPlanL1Cache :=
  fold_left l1_step ops c.

Lemma l1_step_ok c op :
  config_ok c → l1_ok c → l1_ok (l1_step c op) ∧ same_config c (l1_step c op).
Proof.
  intros Hcfg Hok. destruct op; simpl.
  - by apply get_ok.
  - by apply l1_insert_ok.
  - by apply replace_partition_plans_ok.
  - by apply remove_partition_ok.
  - split; [|done]. unfold l1_ok. simpl. destruct Hcfg as (_ & ? & _).
    split_and!; [apply map_Forall_empty| |done]. symmetry. apply msum_empty.
  - by apply publish_invalidation_ok.
Qed.

Lemma l1_run_ok c ops :
  config_ok c → l1_ok c → l1_ok (l1_run c ops) ∧ same_config c (l1_run c ops).
Proof.
  revert c. induction ops as [|op ops IH]; intros c Hcfg Hok; [done|]. simpl.
  destruct (l1_step_ok c op Hcfg Hok) as [H1 H2].
  destruct (IH _ (config_ok_same _ _ Hcfg H2) H1) as [H3 H4].
  split; [done|by eapply same_config_trans].
Qed.

Lemma L1_new_ok cap max : 0 ≤ max → l1_ok (L1_new cap max).
Proof.
  intros Hmax. unfold l1_ok. simpl. split_and!; [apply map_Forall_empty| |done].
  symmetry. apply msum_empty.
Qed.

(** ** The newest entry survives its own insertion *)

Definition newest_in (ps : gmap PartitionKey PartitionCache) (key : PartitionKey)
    (x : Z * ContextPlanEntry) : Prop :=
  ∀ k p y, ps !! k = Some p → y ∈ p_entries p →
    (k = key ∧ y = x) ∨ last_accessed y.2 < last_accessed x.2.
Definition filed_last (ps : gmap PartitionKey PartitionCache) (key : PartitionKey)
    (x : Z * ContextPlanEntry) : Prop :=
  ∃ p l, ps !! key = Some p ∧ p_entries p = l ++ [x].

(** When the newest entry is itself the victim, it is alone in the cache. *)
Lemma newest_victim_alone cap ps key x p t :
  map_Forall (partition_ok cap) ps → newest_in ps key x →
  ps !! key = Some p → p_entries p = [x] → t = last_accessed x.2 →
  (∀ k' p' q' e' rest', ps !! k' = Some p' → p_entries p' = (q', e') :: rest' →
     t ≤ last_accessed e') →
  bytes_of ps = size_bytes x.2.
Proof.
  intros Hok Hnew Hp Hx -> Hmin.
  assert (Hps : ps = {[key := p]}).
  { apply map_eq. intros k. destruct (decide (k = key)) as [->|Hne].
    { by rewrite lookup_singleton_eq. }
    rewrite lookup_singleton_ne by done. destruct (ps !! k) as [p'|] eqn:Ek; [|done].
    destruct (Hok k p' Ek) as (Hnil & _). destruct (p_entries p') as [|[q' e'] l'] eqn:El; [done|].
    destruct (Hnew k p' (q', e') Ek) as [[? _]|Hlt]; [rewrite El; apply elem_of_cons; by left|done|].
    specialize (Hmin k p' q' e' l' Ek El). simpl in Hlt. lia. }
  destruct (Hok key p Hp) as (_ & _ & _ & Ht & _).
  rewrite Hps. unfold bytes_of. rewrite <- insert_empty, msum_insert by apply lookup_empty.
  rewrite msum_empty, Ht, Hx. simpl. lia.
Qed.

Lemma drop_first_newest cap ps key x k p q e rest :
  map_Forall (partition_ok cap) ps → newest_in ps key x → filed_last ps key x →
  ps !! k = Some p → p_entries p = (q, e) :: rest → (k = key → rest ≠ []) →
  newest_in (drop_first ps k p e rest) key x ∧ filed_last (drop_first ps k p e rest) key x.
Proof.
  intros Hok Hnew (p0 & l & Hp0 & Hl) Hk He Hrest. split.
  - intros k' p' y [(-> & Hpe & _)|[_ Hk']]%drop_first_lookup Hy; [|by eapply Hnew].
    apply (Hnew k p y Hk). rewrite He. apply elem_of_cons. right. by rewrite <- Hpe.
  - destruct (decide (k = key)) as [->|Hne].
    + rewrite Hp0 in Hk. simplify_eq. specialize (Hrest eq_refl). rewrite Hl in He.
      destruct l as [|y l]; simpl in He; simplify_eq.
      unfold drop_first. destruct (l ++ [x]) as [|z l0] eqn:E; [done|].
      eexists _, l. rewrite lookup_insert_eq. split; [done|]. by simpl.
    + exists p0, l. split; [|done]. unfold drop_first.
      destruct rest; [by rewrite lookup_delete_ne|by rewrite lookup_insert_ne].
Qed.

Lemma evict_global_keeps cap fuel max ps total ev key x :
  map_Forall (partition_ok cap) ps → total = bytes_of ps → total ≤ u64_max →
  newest_in ps key x → filed_last ps key x → size_bytes x.2 ≤ max →
  let '(ps', _, _) := evict_global fuel max ps total ev in filed_last ps' key x.
Proof.
  intros Hok Htot Hu Hnew Hlast Hsz. revert ps total ev Hok Htot Hu Hnew Hlast.
  induction fuel as [|fuel IH]; intros ps total ev Hok Htot Hu Hnew Hlast;
    cbn [evict_global]; [done|].
  destruct (Z.leb_spec total max); [done|].
  pose proof (victim_partition cap ps Hok) as Hv.
  destruct (find_victim (hash_order ps) None) as [[k t]|]; [|done].
  destruct Hv as (p & q & e & rest & Hk & He & Ht & Hmin). rewrite Hk, He.
  destruct (drop_first_ok cap ps k p q e rest Hok Hk He) as (D1 & D2 & _).
  destruct (partition_ok_tail cap k p q e rest (Hok k p Hk) He) as (_ & Hs & _).
  pose proof (bytes_of_nonneg cap _ D1).
  assert (Hrest : k = key → rest ≠ []).
  { intros -> ->. destruct Hlast as (p0 & l & Hp0 & Hl). rewrite Hk in Hp0. simplify_eq.
    rewrite He in Hl. destruct l as [|y l]; simpl in Hl; simplify_eq; [|by destruct l].
    pose proof (newest_victim_alone cap ps key (q, e) p0 _ Hok Hnew Hk He eq_refl Hmin).
    simpl in *. lia. }
  destruct (drop_first_newest cap ps key x k p q e rest Hok Hnew Hlast Hk He Hrest) as [N1 N2].
  apply IH; fold (drop_first ps k p e rest); try done; rewrite wrap64_small; width_lia.
Qed.

Lemma index_get_last l q e : NoDup (l ++ [(q, e)]).*1 → index_get (l ++ [(q, e)]) q = Some e.
Proof.
  induction l as [|[q' e'] l IH]; cbn [app index_get]; [by rewrite Z.eqb_refl|].
  rewrite fmap_cons. intros [Hn Hnd]%NoDup_cons.
  destruct (Z.eqb_spec q' q) as [->|]; [|by apply IH].
  destruct Hn. rewrite fmap_app. apply elem_of_app. right. by apply elem_of_cons; left.
Qed.

Lemma insert_filed c p p' now :
  config_ok c → l1_ok c → insert_guard c p = Some p' →
  approx_size_bytes p' ≤ max_bytes c →
  map_Forall (λ _ part, Forall (λ y, last_accessed y.2 < now) (p_entries part))
    (partitions c) →
  filed_last (partitions (insert c p now).1) (partition_key p')
    (query_hash p', mkPlanEntry p' (approx_size_bytes p') now).
Proof.
  intros Hcfg Hok Hg Hsz Hold. unfold insert. rewrite Hg.
  pose proof (insert_partition_ok c p p' now Hcfg Hok Hg) as Hins. cbv zeta in Hins.
  destruct (insert_entry _ _ _ _ _ _) as [[part total] ev].
  destruct Hins as (Hne & Hps & Ht & Hu & l & Hl & Hsub).
  set (x := (query_hash p', _)) in *.
  pose proof (evict_global_keeps (capacity_per_partition c)
    (Z.to_nat (entry_total (<[partition_key p' := part]> (partitions c)))) (max_bytes c)
    (<[partition_key p' := part]> (partitions c)) total ev (partition_key p') x Hps Ht Hu)
    as Hev.
  destruct (p_entries part) as [|y l0] eqn:E; [done|].
  destruct (evict_global _ _ _ _ _) as [[ps t] ev']. simpl. apply Hev; [| |done].
  - intros k p0 z. rewrite lookup_insert. case_decide as Hd.
    + intros [= <-] Hz. rewrite E, Hl, elem_of_app, list_elem_of_singleton in Hz.
      destruct Hz as [Hz| ->]; [right|by left]. simpl.
      apply (elem_of_sublist _ _ _ Hz) in Hsub.
      destruct (partitions c !! partition_key p') as [p1|] eqn:E1; simpl in Hsub.
      * specialize (Hold _ _ E1). rewrite Forall_forall in Hold. by apply Hold.
      * by apply elem_of_nil in Hsub.
    + intros Hk Hz. right. specialize (Hold _ _ Hk). rewrite Forall_forall in Hold.
      by apply Hold.
  - exists part, l. rewrite lookup_insert_eq. split; [done|]. by rewrite E.
Qed.

(** ** What the cache promises *)

Lemma l1_reach_ok cap max ops :
  0 ≤ cap → 0 ≤ max → max + DEFAULT_MAX_RESPONSE_BYTES ≤ u64_max →
  let c := l1_run (L1_new cap max) ops in
  l1_ok c ∧ config_ok c ∧ capacity_per_partition c = cap ∧ max_bytes c = max.
Proof.
  intros Hcap Hmax Hu. assert (Hcfg : config_ok (L1_new cap max)) by (by split_and!).
  destruct (l1_run_ok (L1_new cap max) ops Hcfg (L1_new_ok cap max Hmax)) as [H1 [H2 H3]].
  split_and!; [done|by apply (config_ok_same (L1_new cap max))|done|done].
Qed.

(** ** Concurrent operations

    Every operation but two holds the lock of the map throughout.  A bulk replacement
    is a removal and insertions of their own, and a clear has two steps. *)
Inductive L1Step :=
  | StepGet (a : ContextCacheAuthorization) (r b : string) (q now : Z)
  | StepInsert (p : ContextPlan) (now : Z)
  | StepRemove (a : ContextCacheAuthorization) (r b : string)
  | StepPublish (m : ContextPoolMutation)
  | StepClearPartitions
  | StepResetCounters.
Definition l1_atomic (c : ContextPlanL1Cache) (s : L1Step) : ContextPlanL1Cache :=
  match s with
  | StepGet a r b q now => (get c a r b q now).1
  | StepInsert p now => (insert c p now).1
  | StepRemove a r b => (remove_partition c a r b).1
  | StepPublish m => (publish_invalidation c m).1
  | StepClearPartitions => clear_partitions c
  | StepResetCounters => reset_counters c
  end.
Definition l1_interleaved (c : ContextPlanL1Cache) (steps : list L1Step) : ContextPlanL1Cache :=
  fold_left l1_atomic steps c.

(** The steps of an operation that runs alone. *)
Fixpoint insert_steps (a : ContextCacheAuthorization) (r b : string) (plans : list ContextPlan)
    (clock : nat → Z) (n : nat) : list L1Step :=
  match plans with
  | [] => []
  | p :: plans =>
      if negb (bool_decide (authorization p = a)) then insert_steps a r b plans clock n else
      let p := set_location p r b in
      let p := if query_hash p =? 0
               then set_query_hash p (hash_context_query (query_text p)) else p in
      StepInsert p (clock n) :: insert_steps a r b plans clock (S n)
  end.
Definition steps_of (c : ContextPlanL1Cache) (op : L1Op) : list L1Step :=
  match op with
  | L1Get a r b q now => [StepGet a r b q now]
  | L1Insert p now => [StepInsert p now]
  | L1Replace a r b plans clock =>
      StepRemove a r b ::
      (if (capacity_per_partition c =? 0) || (max_bytes c =? 0) then [] else
       insert_steps a r b (rev (take (Z.to_nat (capacity_per_partition c)) (sort_plans plans))) clock 0)
  | L1Remove a r b => [StepRemove a r b]
  | L1Clear => [StepClearPartitions; StepResetCounters]
  | L1Publish m => [StepPublish m]
  end.
Lemma insert_all_steps c a r b plans clock n :
  l1_interleaved c (insert_steps a r b plans clock n) = insert_all c a r b plans clock n.
Proof.
  revert c n. induction plans as [|p plans IH]; intros c n; [done|]. cbn [insert_all insert_steps].
  destruct (negb _); [apply IH|]. cbv zeta. cbn [l1_interleaved fold_left l1_atomic]. apply IH.
Qed.
Lemma remove_partition_config c a r b : same_config c (remove_partition c a r b).1.
Proof. unfold remove_partition. destruct (negb _); [done|]. by destruct (partitions c !! _). Qed.
Lemma steps_of_step c op : l1_interleaved c (steps_of c op) = l1_step c op.
Proof.
  destruct op as [| |a r b plans clock| | |]; try done. cbn [steps_of l1_step l1_interleaved fold_left l1_atomic].
  unfold replace_partition_plans. destruct (remove_partition_config c a r b) as [-> ->].
  destruct (_ || _); [done|]. apply insert_all_steps.
Qed.

(** No insertion falls between the two steps of a clear: [clearing] clears are between
    them now. *)
Fixpoint quiet_clears (clearing : nat) (steps : list L1Step) : bool :=
  match steps with
  | [] => (clearing =? 0)%nat
  | StepInsert _ _ :: steps => (clearing =? 0)%nat && quiet_clears clearing steps
  | StepClearPartitions :: steps => quiet_clears (S clearing) steps
  | StepResetCounters :: steps =>
      match clearing with O => false | S n => quiet_clears n steps end
  | _ :: steps => quiet_clears clearing steps
  end.
Definition between_ok (clearing : nat) (c : ContextPlanL1Cache) : Prop :=
  match clearing with O => l1_ok c | S _ => partitions c = ∅ end.
Lemma empty_stays c s :
  partitions c = ∅ → (∀ p now, s ≠ StepInsert p now) →
  partitions (l1_atomic c s) = ∅ ∧ same_config c (l1_atomic c s).
Proof.
  intros He Hi. destruct s as [a r b q now|p now|a r b|m| |]; cbn [l1_atomic]; try done.
  - unfold get. rewrite He, lookup_empty. by destruct (negb _).
  - by destruct (Hi p now).
  - unfold remove_partition. rewrite He, lookup_empty. by destruct (negb _).
  - unfold publish_invalidation, apply_invalidation, invalidate_partition. rewrite He, !lookup_empty.
    destruct (negb _); [done|]. by destruct (m_query_hash m).
Qed.
Lemma quiet_clears_ok steps clearing c :
  config_ok c → between_ok clearing c → quiet_clears clearing steps = true →
  l1_ok (l1_interleaved c steps) ∧ same_config c (l1_interleaved c steps).
Proof.
  revert clearing c. induction steps as [|s steps IH]; intros clearing c Hcfg Hb Hq.
  { cbn in *. apply Nat.eqb_eq in Hq as ->. done. }
  assert (Hnext : ∀ n, between_ok n (l1_atomic c s) → same_config c (l1_atomic c s) →
    quiet_clears n steps = true →
    l1_ok (l1_interleaved (l1_atomic c s) steps) ∧ same_config c (l1_interleaved (l1_atomic c s) steps)).
  { intros n Hn Hs Hq'. destruct (IH n _ (config_ok_same _ _ Hcfg Hs) Hn Hq') as [H1 H2].
    split; [done|by eapply same_config_trans]. }
  cbn [l1_interleaved fold_left]. destruct clearing as [|n].
  - destruct s as [a r b q now|p now|a r b|m| |]; cbn [quiet_clears] in Hq; try done; cbn [l1_atomic] in Hnext.
    + destruct (get_ok c a r b q now Hb). by apply (Hnext 0%nat).
    + destruct (l1_insert_ok c p now Hcfg Hb). by apply (Hnext 0%nat).
    + destruct (remove_partition_ok c a r b Hcfg Hb). by apply (Hnext 0%nat).
    + destruct (publish_invalidation_ok c m Hcfg Hb). by apply (Hnext 0%nat).
    + by apply (Hnext 1%nat).
  - assert (Hes := empty_stays c s Hb).
    destruct s as [a r b q now|p now|a r b|m| |]; cbn [quiet_clears] in Hq; try done.
    1-3: destruct Hes as [He Hs]; [by intros|]; by apply (Hnext (S n)).
    + by apply (Hnext (S (S n))).
    + cbn [l1_atomic] in *. apply (Hnext n); [|done|done]. destruct n; [|done]. cbn in Hb |- *.
      unfold l1_ok. cbn. rewrite Hb. destruct Hcfg as (_ & ? & _). split_and!; [apply map_Forall_empty| |done].
      symmetry. apply msum_empty.
Qed.

(** C6. However lookups, insertions, removals, invalidations, bulk replacements and
    clears interleave, for any iteration order of the partition map, as long as no
    insertion falls between the emptying of the map and the reset of the counters of a
    clear: the byte total is exactly the sum of the sizes of the entries held and at
    most [max_bytes]; no partition is empty or holds more than
    [capacity_per_partition] entries. *)
Theorem l1_accounts_exact (cap max : Z) (steps : list L1Step) :
  0 ≤ cap → 0 ≤ max → max + DEFAULT_MAX_RESPONSE_BYTES ≤ u64_max → quiet_clears 0 steps = true →
  let c := l1_interleaved (L1_new cap max) steps in
  total_size_bytes c = msum (λ p, sizes (p_entries p)) (partitions c)
  ∧ total_size_bytes c ≤ max
  ∧ ∀ k p, partitions c !! k = Some p →
      p_entries p ≠ [] ∧ Z.of_nat (length (p_entries p)) ≤ cap.
Proof.
  intros Hcap Hmax Hu Hq c.
  destruct (quiet_clears_ok steps 0 (L1_new cap max)) as [(Hok & Ht & Hle) [Hc Hm]]; [by split_and!|by apply L1_new_ok|done|].
  fold c in Hok, Ht, Hle, Hc, Hm. cbn in Hc, Hm. rewrite Hc in Hok. split_and!.
  - rewrite Ht. apply msum_ext. intros k p Hk. by destruct (Hok k p Hk) as (_ & _ & _ & -> & _).
  - lia.
  - intros k p Hk. by destruct (Hok k p Hk) as (? & ? & _).
Qed.

Lemma foreign_item_false a i :
  foreign_item a i = false →
  i_organization_id i = organization_id a ∧ i_team_id i = team_id a
  ∧ i_authorization_version i = authorization_version a.
Proof. unfold foreign_item. intros Hf. by bool_to_prop. Qed.

(** C5. Tenant isolation: whatever was inserted before, a lookup answers only
    with a plan of the very authorization, repository, branch and query hash
    asked for, every item of which carries that authorization; an incomplete
    authorization is never answered. *)
Theorem l1_tenant_isolation (cap max : Z) (ops : list L1Op)
    (a : ContextCacheAuthorization) (r b : string) (q now : Z) (p : ContextPlan) :
  0 ≤ cap → 0 ≤ max → max + DEFAULT_MAX_RESPONSE_BYTES ≤ u64_max →
  (get (l1_run (L1_new cap max) ops) a r b q now).2 = Some p →
  is_complete a = true ∧ authorization p = a ∧ repo p = r ∧ branch p = b
  ∧ query_hash p = q
  ∧ Forall (λ i, i_organization_id i = organization_id a ∧ i_team_id i = team_id a
                 ∧ i_authorization_version i = authorization_version a) (items p).
Proof.
  intros Hcap Hmax Hu. destruct (l1_reach_ok cap max ops Hcap Hmax Hu) as ((Hok & _) & _).
  unfold get. destruct (is_complete a) eqn:Ea; simpl; [|done].
  destruct (partitions _ !! (a, r, b)) as [part|] eqn:Ep; [|done].
  destruct (index_get (p_entries part) q) as [e|] eqn:Eg; [|done]. intros [= <-].
  destruct (Hok _ _ Ep) as (_ & _ & _ & _ & Hall). rewrite Forall_forall in Hall.
  destruct (Hall _ (index_get_Some _ _ _ Eg)) as (Hq & Hk & _ & Hf & _). simpl in *.
  unfold partition_key in Hk. simplify_eq. split_and!; try done.
  rewrite Forall_forall. intros i Hi. apply foreign_item_false.
  destruct (foreign_item _ i) eqn:E; [|done].
  assert (existsb (foreign_item (authorization (plan e))) (items (plan e)) = true) as Ht
    by (apply existsb_exists; exists i; split; [by apply list_elem_of_In|done]).
  congruence.
Qed.

(** A plan that was just inserted is found: if the guards accept it, it
    fits the byte budget, and the clock is past every stored access, then a
    lookup under its own key returns it, whichever entries the insertion had
    to evict. *)
Theorem l1_insert_then_get (cap max : Z) (ops : list L1Op) (p p' : ContextPlan)
    (now now' : Z) :
  0 ≤ cap → 0 ≤ max → max + DEFAULT_MAX_RESPONSE_BYTES ≤ u64_max →
  let c := l1_run (L1_new cap max) ops in
  insert_guard c p = Some p' → approx_size_bytes p' ≤ max →
  map_Forall (λ _ part, Forall (λ y, last_accessed y.2 < now) (p_entries part))
    (partitions c) →
  (get (insert c p now).1 (authorization p) (repo p) (branch p) (query_hash p') now').2
  = Some p'.
Proof.
  intros Hcap Hmax Hu c Hg Hsz Hold.
  destruct (l1_reach_ok cap max ops Hcap Hmax Hu) as (Hok & Hcfg & _ & Hm). fold c in Hok, Hcfg, Hm.
  rewrite <- Hm in Hsz.
  destruct (insert_filed c p p' now Hcfg Hok Hg Hsz Hold) as (part & l & Hp & Hl).
  destruct (l1_insert_ok c p now Hcfg Hok) as [(Hok' & _) _].
  destruct (insert_guard_Some c p p' Hg) as ((Hc & _) & Hk & _).
  assert (Ha : authorization p = authorization p') by (by apply (f_equal (λ k, k.1.1)) in Hk).
  assert (Hr : repo p = repo p') by (by apply (f_equal (λ k, k.1.2)) in Hk).
  assert (Hb : branch p = branch p') by (by apply (f_equal snd) in Hk).
  unfold get. rewrite Ha, Hr, Hb, Hc. cbn [negb]. unfold partition_key in Hp. rewrite Hp, Hl.
  destruct (Hok' _ _ Hp) as (_ & _ & Hnd & _). rewrite Hl in Hnd.
  by rewrite index_get_last.
Qed.

Lemma index_get_shift_same l q : NoDup l.*1 → index_get (shift_remove l q) q = None.
Proof. intros Hn. by apply index_get_None, shift_remove_fresh. Qed.
Lemma index_get_shift_other l q q' :
  q ≠ q' → index_get (shift_remove l q) q' = index_get l q'.
Proof.
  intros Hne. induction l as [|[k e] l IH]; simpl; [done|].
  destruct (Z.eqb_spec k q) as [->|]; simpl.
  - by destruct (Z.eqb_spec q q').
  - by rewrite IH.
Qed.

(** What a lookup answers, as a function of the partitions alone. *)
Definition answer (ps : gmap PartitionKey PartitionCache) (k : PartitionKey) (q : Z) :
    option ContextPlan :=
  match ps !! k with
  | Some p => plan <$> index_get (p_entries p) q
  | None => None
  end.

Lemma get_answer c a r b q now :
  (get c a r b q now).2 = if is_complete a then answer (partitions c) (a, r, b) q else None.
Proof.
  unfold get, answer. destruct (is_complete a); simpl; [|done].
  destruct (partitions c !! (a, r, b)) as [p|]; [|done].
  by destruct (index_get (p_entries p) q).
Qed.

(** The lookups a mutation is meant to invalidate. *)
Definition targets (m : ContextPoolMutation) (k : PartitionKey) (q : Z) : bool :=
  bool_decide (k = mutation_partition_key m)
  && match m_query_hash m with Some q' => q' =? q | None => true end.

Lemma invalidate_other c m k :
  k ≠ mutation_partition_key m →
  partitions (invalidate_partition c m).1 !! k = partitions c !! k.
Proof.
  intros Hne. unfold invalidate_partition.
  destruct (m_query_hash m) as [q'|], (partitions c !! mutation_partition_key m) as [p|];
    simpl; try done; [|by rewrite lookup_delete_ne].
  destruct (index_get (p_entries p) q'); simpl.
  - destruct (shift_remove (p_entries p) q');
      [by rewrite lookup_delete_ne|by rewrite lookup_insert_ne].
  - destruct (p_entries p); [by rewrite lookup_delete_ne|done].
Qed.

Lemma invalidate_answer c m k q :
  l1_ok c →
  answer (partitions (invalidate_partition c m).1) k q
  = if targets m k q then None else answer (partitions c) k q.
Proof.
  intros (Hok & _). unfold targets, answer. set (km := mutation_partition_key m).
  destruct (decide (k = km)) as [->|Hne].
  2: { rewrite bool_decide_eq_false_2 by done. simpl. by rewrite invalidate_other. }
  unfold invalidate_partition. fold km.
  rewrite bool_decide_eq_true_2 by done. simpl.
  destruct (m_query_hash m) as [q'|].
  - destruct (partitions c !! km) as [p|] eqn:Ep.
    2: { simpl. rewrite Ep. by destruct (q' =? q). }
    destruct (Hok _ _ Ep) as (Hnil & _ & Hnd & _).
    destruct (index_get (p_entries p) q') as [e|] eqn:Eg.
    + assert (Hans : index_get (shift_remove (p_entries p) q') q
        = if q' =? q then None else index_get (p_entries p) q).
      { destruct (Z.eqb_spec q' q) as [->|]; [by apply index_get_shift_same|].
        by apply index_get_shift_other. }
      simpl. destruct (shift_remove (p_entries p) q') as [|x l] eqn:Er.
      * rewrite lookup_delete_eq. simpl in Hans. by destruct (q' =? q); [|rewrite <- Hans].
      * rewrite lookup_insert_eq. cbn [p_entries]. rewrite Hans. by destruct (q' =? q).
    + simpl. destruct (p_entries p) as [|x l] eqn:El; [done|]. rewrite Ep, El.
      destruct (Z.eqb_spec q' q) as [->|]; [by rewrite Eg|done].
  - destruct (partitions c !! km) as [p|] eqn:Ep; simpl.
    + by rewrite lookup_delete_eq.
    + by rewrite Ep.
Qed.

(** Invalidation is complete and precise: after a published mutation every
    lookup it targets (the one query, or the whole partition when it names no
    query) misses, and every other lookup answers what it did before. *)
Theorem l1_invalidation_exact (cap max : Z) (ops : list L1Op) (m : ContextPoolMutation)
    (a : ContextCacheAuthorization) (r b : string) (q now : Z) :
  0 ≤ cap → 0 ≤ max → max + DEFAULT_MAX_RESPONSE_BYTES ≤ u64_max →
  is_complete (m_authorization m) = true →
  let c := l1_run (L1_new cap max) ops in
  (get (publish_invalidation c m).1 a r b q now).2
  = if targets m (a, r, b) q then None else (get c a r b q now).2.
Proof.
  intros Hcap Hmax Hu Hm c. destruct (l1_reach_ok cap max ops Hcap Hmax Hu) as (Hok & _).
  fold c in Hok. rewrite !get_answer. unfold publish_invalidation, apply_invalidation.
  rewrite Hm. simpl. pose proof (invalidate_answer c m (a, r, b) q Hok) as Hi.
  destruct (invalidate_partition c m) as [c' removed]. simpl in *. rewrite Hi.
  by destruct (is_complete a), (targets m (a, r, b) q).
Qed.
End spec.
End l1.

(** ** A concrete instance *)

Definition demo_hash (s : string) : list Z := (Z.of_nat (String.length s) + 1) :: replicate 31 0.
Definition demo_len0 (p : ContextPlan) : option Z := Some 100.
Lemma demo_len0_nonneg p n : demo_len0 p = Some n → 0 ≤ n.
Proof. intros [= <-]. lia. Qed.

Definition acme : ContextCacheAuthorization := mkAuth "acme" None "v1".
Definition globex : ContextCacheAuthorization := mkAuth "globex" None "v1".
Definition demo_plan (a : ContextCacheAuthorization) (text : string) : ContextPlan :=
  plan_new demo_hash a "repo" "main" text [] 0.
(** Two tenants, room for two plans of 100 bytes: the third evicts the oldest. *)
Definition demo_l1 : list L1Op :=
  [L1Insert (demo_plan acme "q1") 1; L1Insert (demo_plan globex "q1") 2;
   L1Insert (demo_plan acme "long query") 3].
Definition demo_run : ContextPlanL1Cache :=
  l1_run demo_hash demo_len0 map_to_list (L1_new 10 250) demo_l1.

(** A clear around which other clients insert and look up. *)
Definition demo_steps : list L1Step :=
  [StepInsert (demo_plan acme "q1") 1; StepClearPartitions; StepGet acme "repo" "main" 3 2; StepResetCounters;
   StepInsert (demo_plan globex "q1") 3; StepInsert (demo_plan acme "long query") 4].
Definition demo_interleaved : ContextPlanL1Cache :=
  l1_interleaved demo_hash demo_len0 map_to_list (L1_new 10 250) demo_steps.
Lemma l1_accounts_exact_witness :
  total_size_bytes demo_interleaved = 200 ∧ total_size_bytes demo_interleaved ≤ 250.
Proof.
  split; [vm_compute; reflexivity|].
  pose proof (l1_accounts_exact demo_hash demo_len0 map_to_list (λ ps, reflexivity _)
    demo_len0_nonneg 10 250 demo_steps ltac:(lia) ltac:(lia) ltac:(vm_compute; discriminate) ltac:(reflexivity))
    as (_ & H & _). exact H.
Defined.

(** An insertion between the two steps of a clear: its bytes are not counted, and when
    the plan is removed the total wraps, so that the next insertion evicts all plans,
    its own included. *)
Theorem clear_race_breaks_accounts :
  let run := l1_interleaved demo_hash (λ p, Some (str_len (query_text p))) map_to_list (L1_new 10 250) in
  let race := [StepClearPartitions; StepInsert (demo_plan acme "long query") 1; StepResetCounters] in
  let removed := race ++ [StepRemove acme "repo" "main"] in
  let next := removed ++ [StepInsert (demo_plan globex "q1") 2] in
  total_size_bytes (run race) = 0 ∧ msum (λ p, sizes (p_entries p)) (partitions (run race)) = 10
  ∧ total_size_bytes (run removed) = u64_max - 9
  ∧ partitions (run next) = ∅.
Proof. vm_compute. done. Qed.

Lemma l1_tenant_isolation_witness :
  authorization (demo_plan globex "q1") = globex
  ∧ repo (demo_plan globex "q1") = "repo"%string.
Proof.
  destruct (l1_tenant_isolation demo_hash demo_len0 map_to_list (λ ps, reflexivity _)
    demo_len0_nonneg 10 250 demo_l1 globex "repo" "main" 3 9 (demo_plan globex "q1")
    ltac:(lia) ltac:(lia) ltac:(vm_compute; discriminate) ltac:(vm_compute; reflexivity))
    as (_ & H1 & H2 & _).
  split; [exact H1|exact H2].
Defined.

Lemma l1_insert_then_get_witness :
  (get (insert demo_hash demo_len0 map_to_list demo_run (demo_plan globex "fresh query") 5).1
     globex "repo" "main" 12 9).2 = Some (demo_plan globex "fresh query").
Proof.
  apply (l1_insert_then_get demo_hash demo_len0 map_to_list (λ ps, reflexivity _)
    demo_len0_nonneg 10 250 demo_l1 (demo_plan globex "fresh query")
    (demo_plan globex "fresh query") 5 9).
  - lia.
  - lia.
  - vm_compute. discriminate.
  - vm_compute. reflexivity.
  - vm_compute. discriminate.
  - apply map_Forall_to_list. vm_compute. repeat constructor.
Defined.

Lemma l1_invalidation_exact_witness :
  (get (publish_invalidation demo_run (mkMutation acme "repo" "main" None None Flag)).1
     acme "repo" "main" 11 9).2 = None
  ∧ (get demo_run acme "repo" "main" 11 9).2 = Some (demo_plan acme "long query").
Proof.
  split; [|vm_compute; reflexivity].
  etrans; [apply (l1_invalidation_exact demo_hash demo_len0 map_to_list (λ ps, reflexivity _)
    demo_len0_nonneg 10 250 demo_l1)|reflexivity].
  - lia.
  - lia.
  - vm_compute. discriminate.
  - reflexivity.
Defined.
