(* ===== verification/Classify.v ===== *)
(** * Classify: detection of sensitive spans (src/src/gateway/data_classification.rs)

    A text is its UTF-8 byte sequence.  Slicing a [str] panics when an index is
    not on a character boundary or when the range is decreasing; those panics
    are values of [Panic], so that the functions are total and a theorem can
    say when the code returns. *)

From Stdlib Require Import ZArith Ascii String.
From stdpp Require Import base gmap sets strings list.
From S2P Require Import Prelude.

Local Open Scope Z_scope.

Abbreviation bytes := (list Z).
(** The bytes of an ASCII literal. *)
Definition lit (s : string) : bytes := map (λ a, Z.of_N (N_of_ascii a)) (list_ascii_of_string s).

(** ** Panics *)

Inductive Panic :=
| NotCharBoundary (index : nat)
| SliceOrder (first last : nat).
Definition Checked (A : Type) : Type := Result A Panic.
Definition bind {A B} (r : Checked A) (f : A → Checked B) : Checked B :=
  match r with Ok a => f a | Err e => Err e end.
Notation "'let!' x := r 'in' b" := (bind r (λ x, b))
  (at level 10, x name, r at level 100, b at level 200) : verdictan_scope.
Local Open Scope verdictan_scope.

(** [str::is_char_boundary]: not a continuation byte. *)
Definition is_continuation (b : Z) : bool := (128 <=? b) && (b <? 192).
Definition is_char_boundary (text : bytes) (i : nat) : bool :=
  (i =? 0)%nat || (i =? length text)%nat
  || match text !! i with Some b => negb (is_continuation b) | None => false end.

(** [&text[i..]] and [&text[a..b]]. *)
Definition slice_from (text : bytes) (i : nat) : Checked bytes :=
  if is_char_boundary text i then Ok (drop i text) else Err (NotCharBoundary i).
Definition slice (text : bytes) (a b : nat) : Checked bytes :=
  if (b <? a)%nat then Err (SliceOrder a b) else
  if negb (is_char_boundary text a) then Err (NotCharBoundary a) else
  if negb (is_char_boundary text b) then Err (NotCharBoundary b) else
  Ok (take (b - a) (drop a text)).

(** ** Data classes *)

Inductive DataClass :=
| SensitivePhi | SensitivePii | FinancialData | IntellectualProperty | Unclassified.
#[export] Instance DataClass_eq_dec : EqDecision DataClass.
Proof. solve_decision. Defined.

Definition is_sensitive (c : DataClass) : bool :=
  match c with Unclassified => false | _ => true end.
Definition label (c : DataClass) : string :=
  match c with
  | SensitivePhi => "PHI"
  | SensitivePii => "PII"
  | FinancialData => "FINANCIAL"
  | IntellectualProperty => "IP"
  | Unclassified => "UNCLASSIFIED"
  end.

Record ClassificationMatch := mkMatch {
  data_class : DataClass;
  m_start : nat;
  m_end : nat;
  matched_text : bytes;
  pattern_label : string;
}.
Record ClassificationResult := mkClassification {
  matches : list ClassificationMatch;
  dominant_class : DataClass;
}.
Definition has_sensitive_content (r : ClassificationResult) : bool :=
  is_sensitive (dominant_class r).
Definition matches_for (r : ClassificationResult) (c : DataClass) : list ClassificationMatch :=
  filter (λ m, data_class m = c) (matches r).

Record DataClassificationConfig := mkClassConfig {
  enabled : bool;
  phi_detection : bool;
  pii_detection : bool;
  financial_detection : bool;
  ip_detection : bool;
  priority_order : list DataClass;
}.
Definition default_class_config : DataClassificationConfig :=
  {| enabled := true; phi_detection := true; pii_detection := true;
     financial_detection := true; ip_detection := true;
     priority_order := [SensitivePhi; FinancialData; SensitivePii; IntellectualProperty] |}.

(** ** Bytes and characters *)

Definition is_ascii_digit (b : Z) : bool := (48 <=? b) && (b <=? 57).
Definition is_ascii_alphabetic (b : Z) : bool :=
  ((65 <=? b) && (b <=? 90)) || ((97 <=? b) && (b <=? 122)).
Definition all_digits (l : bytes) : bool := forallb is_ascii_digit l.
(** [b[a..b]] on a byte slice whose length has been tested. *)
Definition sub (l : bytes) (a b : nat) : bytes := take (b - a) (drop a l).
Definition byte_at (l : bytes) (i : nat) : Z := default 0 (l !! i).
Definition bytes_eqb (a b : bytes) : bool := bool_decide (a = b).

(** The characters of a text: a byte and the continuation bytes after it. *)
Fixpoint chars_from (cur : bytes) (l : bytes) : list bytes :=
  match l with
  | [] => match cur with [] => [] | _ => [cur] end
  | b :: l =>
      if is_continuation b then chars_from (cur ++ [b]) l
      else match cur with
           | [] => chars_from [b] l
           | _ => cur :: chars_from [b] l
           end
  end.
Definition chars (l : bytes) : list bytes := chars_from [] l.

(** [char::is_whitespace] on an encoded character. *)
Definition is_whitespace (c : bytes) : bool :=
  match c with
  | [a] => ((9 <=? a) && (a <=? 13)) || (a =? 32)
  | [194; b] => (b =? 133) || (b =? 160)
  | [225; 154; 128] => true
  | [226; 128; x] => ((128 <=? x) && (x <=? 138)) || (x =? 168) || (x =? 169) || (x =? 175)
  | [226; 129; 159] => true
  | [227; 128; 128] => true
  | _ => false
  end.

(** [str::find] with a predicate on characters: the byte offset of the first. *)
Fixpoint find_char (P : bytes → bool) (cs : list bytes) (at_ : nat) : option nat :=
  match cs with
  | [] => None
  | c :: cs => if P c then Some at_ else find_char P cs (at_ + length c)
  end.
Definition find (P : bytes → bool) (l : bytes) : option nat := find_char P (chars l) 0.
Definition is_char (s : string) (c : bytes) : bool := bytes_eqb c (lit s).
Definition one_of (ss : list string) (c : bytes) : bool := existsb (λ s, is_char s c) ss.

Section matchers.
(** [char::is_alphanumeric] on characters outside ASCII. *)
Variable wide_alphanumeric : bytes → bool.

Definition is_alphanumeric (c : bytes) : bool :=
  match c with
  | [a] => is_ascii_digit a || is_ascii_alphabetic a
  | _ => wide_alphanumeric c
  end.

(** ** Matchers: the length of a match at [offset] *)

(** Neither the byte before [offset] nor the byte at [offset + len] is a
    digit. *)
Definition before_ok (text : bytes) (offset : nat) : bool :=
  (offset =? 0)%nat || negb (is_ascii_digit (byte_at text (offset - 1))).
Definition after_ok (text : bytes) (stop : nat) : bool :=
  (length text <=? stop)%nat || negb (is_ascii_digit (byte_at text stop)).

Definition ssn_shape (b : bytes) : bool :=
  all_digits (sub b 0 3) && (byte_at b 3 =? 45) && all_digits (sub b 4 6)
  && (byte_at b 6 =? 45) && all_digits (sub b 7 11)
  && negb (bytes_eqb (sub b 0 3) (lit "000")) && negb (bytes_eqb (sub b 4 6) (lit "00"))
  && negb (bytes_eqb (sub b 7 11) (lit "0000")).
Definition match_ssn (text : bytes) (offset : nat) : Checked (option nat) :=
  let! s := slice_from text offset in
  Ok (if (11 <=? length s)%nat && ssn_shape s
         && (before_ok text offset && after_ok text (offset + 11))
      then Some 11%nat else None).

(** [luhn_check]: from the right, every second digit is doubled. *)
Definition luhn_digit (i : nat) (d : Z) : Z :=
  if Nat.odd i then (let v := d * 2 in if 9 <? v then v - 9 else v) else d.
Fixpoint luhn_sum (i : nat) (ds : list Z) : Z :=
  match ds with [] => 0 | d :: ds => luhn_digit i d + luhn_sum (S i) ds end.
Definition luhn_check (s : bytes) : bool :=
  let digits := omap (λ b, if is_ascii_digit b then Some (b - 48) else None) s in
  if (length digits <? 13)%nat then false
  else luhn_sum 0 (rev digits) mod 10 =? 0.

Definition grouped_card (b : bytes) : bool :=
  let sep := byte_at b 4 in
  ((sep =? 32) || (sep =? 45)) && (byte_at b 9 =? sep) && (byte_at b 14 =? sep)
  && all_digits (sub b 0 4) && all_digits (sub b 5 9)
  && all_digits (sub b 10 14) && all_digits (sub b 15 19).
Definition match_credit_card (text : bytes) (offset : nat) : Checked (option nat) :=
  let! s := slice_from text offset in
  Ok (if (length s <? 16)%nat then None else
      if all_digits (sub s 0 16) && (before_ok text offset && after_ok text (offset + 16)
           && luhn_check (sub s 0 16))
      then Some 16%nat
      else if (19 <=? length s)%nat && grouped_card s
              && luhn_check (sub s 0 4 ++ sub s 5 9 ++ sub s 10 14 ++ sub s 15 19)
      then Some 19%nat else None).

Definition local_char (c : bytes) : bool :=
  is_alphanumeric c || one_of ["."; "-"; "_"; "+"]%string c.
Definition domain_stop (c : bytes) : bool :=
  is_whitespace c || one_of [","; ";"; "'"; ")"; "]"; ">"]%string c || bytes_eqb c [34].
Definition match_email (text : bytes) (offset : nat) : Checked (option nat) :=
  let! s := slice_from text offset in
  match find (is_char "@") s with
  | None => Ok None
  | Some at_ =>
      if (at_ =? 0)%nat then Ok None else
      if negb (forallb local_char (chars (take at_ s))) then Ok None else
      let domain := drop (at_ + 1) s in
      match find (is_char ".") domain with
      | None => Ok None
      | Some dot_pos =>
          if (dot_pos =? 0)%nat || (length domain <=? dot_pos + 1)%nat then Ok None else
          let end_domain := default (length domain) (find domain_stop domain) in
          let! tld := slice domain (dot_pos + 1) end_domain in
          Ok (if (length tld =? 0)%nat || (10 <? length tld)%nat
                 || negb (forallb (λ c, match c with [a] => is_ascii_alphabetic a | _ => false end)
                            (chars tld))
              then None else Some (at_ + 1 + end_domain)%nat)
      end
  end.

Definition token_stop (c : bytes) : bool :=
  is_whitespace c || one_of ["'"; ","; ";"]%string c || bytes_eqb c [34].
Definition api_prefixes : list bytes :=
  [lit "sk-"; lit "pk-"; lit "ghp_"; lit "ghs_"; lit "Bearer "].
(** The loop over the prefixes. *)
Fixpoint match_prefixes (s : bytes) (ps : list bytes) : option nat :=
  match ps with
  | [] => None
  | p :: ps =>
      if bytes_eqb (take (length p) s) p then
        let rest := drop (length p) s in
        let token_end := default (length rest) (find token_stop rest) in
        if (20 <=? token_end)%nat then Some (length p + token_end)%nat
        else match_prefixes s ps
      else match_prefixes s ps
  end.
Definition match_api_key (text : bytes) (offset : nat) : Checked (option nat) :=
  let! s := slice_from text offset in Ok (match_prefixes s api_prefixes).

(** ** Scanning *)

Record Pattern := mkPattern {
  pat_label : string;
  pat_class : DataClass;
  min_len : nat;
  matcher : bytes → nat → Checked (option nat);
}.

(** The loop [for i in first..first + n] of [scan_pattern]. *)
Fixpoint scan_from (text : bytes) (p : Pattern) (i n : nat) (out : list ClassificationMatch) :
    Checked (list ClassificationMatch) :=
  match n with
  | O => Ok out
  | S n =>
      let! hit := matcher p text i in
      match hit with
      | Some len =>
          if (min_len p <=? len)%nat then
            let! t := slice text i (i + len) in
            scan_from text p (S i) n (out ++ [mkMatch (pat_class p) i (i + len) t (pat_label p)])
          else scan_from text p (S i) n out
      | None => scan_from text p (S i) n out
      end
  end.

(** [dedup_overlapping]: each match of the class removes the later matches of
    the class that start before its end; [fuel] bounds the outer loop. *)
Definition overlaps (class : DataClass) (stop : nat) (m : ClassificationMatch) : bool :=
  bool_decide (data_class m = class) && (m_start m <? stop)%nat.
Fixpoint dedup (fuel : nat) (class : DataClass) (l : list ClassificationMatch) :
    list ClassificationMatch :=
  match fuel with
  | O => l
  | S fuel =>
      match l with
      | [] => []
      | m :: l =>
          if bool_decide (data_class m = class)
          then m :: dedup fuel class (filter (λ x, overlaps class (m_end m) x = false) l)
          else m :: dedup fuel class l
      end
  end.
Definition dedup_overlapping (l : list ClassificationMatch) (class : DataClass) :
    list ClassificationMatch := dedup (length l) class l.

Definition scan_pattern (text : bytes) (p : Pattern) (out : list ClassificationMatch) :
    Checked (list ClassificationMatch) :=
  if (length text <? min_len p)%nat then Ok out else
  let! out := scan_from text p 0 (length text) out in
  Ok (dedup_overlapping out (pat_class p)).

Definition ssn_pattern : Pattern := mkPattern "ssn" SensitivePhi 9 match_ssn.
Definition card_pattern : Pattern := mkPattern "credit_card" FinancialData 16 match_credit_card.
Definition email_pattern : Pattern := mkPattern "email" SensitivePii 5 match_email.
(** [scan_api_key_pattern] has the same loop, without the length test in
    front of it. *)
Definition api_key_pattern : Pattern := mkPattern "api_key" IntellectualProperty 20 match_api_key.
Definition scan_api_key_pattern (text : bytes) (out : list ClassificationMatch) :
    Checked (list ClassificationMatch) :=
  let! out := scan_from text api_key_pattern 0 (length text) out in
  Ok (dedup_overlapping out IntellectualProperty).

Fixpoint compute_dominant (ms : list ClassificationMatch) (order : list DataClass)
    (fallback : DataClass) : DataClass :=
  match order with
  | [] => fallback
  | c :: order =>
      if existsb (λ m, bool_decide (data_class m = c)) ms then c
      else compute_dominant ms order fallback
  end.
Definition compute_dominant_class (ms : list ClassificationMatch) (order : list DataClass) :
    DataClass :=
  match ms with
  | [] => Unclassified
  | m :: _ => compute_dominant ms order (data_class m)
  end.

(** [sort_by_key(|m| m.start)], which is stable. *)
Fixpoint insert_by_start (m : ClassificationMatch) (l : list ClassificationMatch) :
    list ClassificationMatch :=
  match l with
  | [] => [m]
  | x :: l => if (m_start m <=? m_start x)%nat then m :: x :: l else x :: insert_by_start m l
  end.
Definition sort_by_start (l : list ClassificationMatch) : list ClassificationMatch :=
  foldr insert_by_start [] l.

Definition run_if (b : bool) (f : list ClassificationMatch → Checked (list ClassificationMatch))
    (out : list ClassificationMatch) : Checked (list ClassificationMatch) :=
  if b then f out else Ok out.
Definition classify_text (text : bytes) (config : DataClassificationConfig) :
    Checked ClassificationResult :=
  if negb (enabled config) || (length text =? 0)%nat
  then Ok {| matches := []; dominant_class := Unclassified |} else
  let! out := run_if (phi_detection config) (scan_pattern text ssn_pattern) [] in
  let! out := run_if (financial_detection config) (scan_pattern text card_pattern) out in
  let! out := run_if (pii_detection config) (scan_pattern text email_pattern) out in
  let! out := run_if (ip_detection config) (scan_api_key_pattern text) out in
  let ms := sort_by_start out in
  Ok {| matches := ms; dominant_class := compute_dominant_class ms (priority_order config) |}.
End matchers.

Definition no_wide (c : bytes) : bool := false.
Example classify_ex1 :
  match classify_text no_wide (lit "ssn 123-45-6789, card 4111 1111 1111 1111") default_class_config with
  | Ok r => map (λ m, (data_class m, m_start m, m_end m)) (matches r)
            = [(SensitivePhi, 4, 15); (FinancialData, 22, 41)]%nat
            ∧ dominant_class r = SensitivePhi
  | Err _ => False
  end.
Proof. vm_compute. done. Qed.
Example classify_ex2 :
  classify_text no_wide (lit "me@home ok. bye") default_class_config = Err (SliceOrder 8 4).
Proof. vm_compute. reflexivity. Qed.
Example classify_ex3 :
  match classify_text no_wide (lit "mail bob@example.com now") default_class_config with
  | Ok r => map (λ m, (data_class m, m_start m, m_end m)) (matches r) = [(SensitivePii, 5, 20)]%nat
  | Err _ => False
  end.
Proof. vm_compute. done. Qed.
Example classify_ex4 :
  match classify_text no_wide (lit "bob@mail.example.com") default_class_config with
  | Ok r => matches r = [] | Err _ => False end.
Proof. vm_compute. done. Qed.

(** ** Characters *)

Lemma chars_from_concat cur l : concat (chars_from cur l) = cur ++ l.
Proof.
  revert cur. induction l as [|b l IH]; intros cur; simpl.
  - destruct cur; simpl; by rewrite ?app_nil_r.
  - destruct (is_continuation b); [by rewrite IH, <- app_assoc|].
    destruct cur as [|c cur]; simpl; by rewrite IH.
Qed.
Lemma chars_concat l : concat (chars l) = l.
Proof. apply chars_from_concat. Qed.

Lemma find_char_le P cs n i :
  find_char P cs n = Some i → (i ≤ n + length (concat cs))%nat.
Proof.
  revert n. induction cs as [|c cs IH]; intros n; simpl; [done|].
  destruct (P c); [intros [= <-]; lia|]. intros Hi%IH. rewrite length_app. lia.
Qed.
Lemma find_le P l i : find P l = Some i → (i ≤ length l)%nat.
Proof. intros Hi%find_char_le. by rewrite chars_concat in Hi. Qed.
Lemma find_default_le P l : (default (length l) (find P l) ≤ length l)%nat.
Proof. destruct (find P l) eqn:E; simpl; [by eapply find_le|done]. Qed.

(** ASCII texts have a boundary everywhere. *)
Definition ascii_text (text : bytes) : Prop := Forall (λ b, 0 ≤ b < 128) text.

Lemma ascii_boundary text i : ascii_text text → (i ≤ length text)%nat → is_char_boundary text i = true.
Proof.
  intros Ha Hi. unfold is_char_boundary. destruct (decide (i = length text)) as [->|Hne].
  { rewrite Nat.eqb_refl. by rewrite orb_true_r. }
  destruct (lookup_lt_is_Some_2 text i) as [b Hb]; [lia|]. rewrite Hb.
  unfold ascii_text in Ha. rewrite Forall_lookup in Ha. specialize (Ha i b Hb).
  unfold is_continuation. destruct (Z.leb_spec 128 b); [lia|]. by rewrite orb_true_r.
Qed.

Lemma boundary_le text i : is_char_boundary text i = true → (i ≤ length text)%nat.
Proof.
  unfold is_char_boundary. rewrite !orb_true_iff, !Nat.eqb_eq.
  intros [[->| ->]|Hb]; [lia|lia|]. destruct (text !! i) eqn:E; [|done].
  apply lookup_lt_Some in E. lia.
Qed.

Lemma slice_from_Ok text i s :
  slice_from text i = Ok s → is_char_boundary text i = true ∧ s = drop i text.
Proof. unfold slice_from. destruct (is_char_boundary text i); [|done]. by intros [= <-]. Qed.

Lemma slice_Ok text a b s :
  slice text a b = Ok s → (a ≤ b ≤ length text)%nat ∧ s = sub text a b.
Proof.
  unfold slice. destruct (Nat.ltb_spec b a); [done|].
  destruct (is_char_boundary text a) eqn:Ea; [|done].
  destruct (is_char_boundary text b) eqn:Eb; [|done]. simpl. intros [= <-].
  apply boundary_le in Eb. split; [lia|done].
Qed.

Lemma slice_ascii text a b :
  ascii_text text → (a ≤ b ≤ length text)%nat → slice text a b = Ok (sub text a b).
Proof.
  intros Ha Hab. unfold slice. destruct (Nat.ltb_spec b a); [lia|].
  rewrite !ascii_boundary by (done || lia). done.
Qed.

Lemma bind_Ok {A B} (r : Checked A) (f : A → Checked B) b :
  bind r f = Ok b → ∃ a, r = Ok a ∧ f a = Ok b.
Proof. destruct r; simpl; [eauto|done]. Qed.

(** ** Pairwise relations on lists *)

Fixpoint pairwise {A} (R : A → A → Prop) (l : list A) : Prop :=
  match l with [] => True | x :: l => Forall (R x) l ∧ pairwise R l end.

Lemma pairwise_app {A} (R : A → A → Prop) l x :
  pairwise R l → Forall (λ y, R y x) l → pairwise R (l ++ [x]).
Proof.
  induction l as [|y l IH]; simpl; [by repeat constructor|].
  intros [Hy Hl] [Hyx Hlx]%Forall_cons. split; [|by apply IH].
  apply Forall_app. split; [done|by repeat constructor].
Qed.

Lemma pairwise_filter {A} (R : A → A → Prop) (P : A → Prop) `{!∀ x, Decision (P x)} l :
  pairwise R l → pairwise R (filter P l).
Proof.
  induction l as [|x l IH]; [done|]. intros [Hx Hl]. rewrite filter_cons.
  case_decide; [|by apply IH]. split; [|by apply IH].
  rewrite Forall_forall in Hx |- *. intros y [_ Hy]%list_elem_of_filter. auto.
Qed.

Lemma pairwise_impl {A} (R R' : A → A → Prop) l :
  (∀ x y, R x y → R' x y) → pairwise R l → pairwise R' l.
Proof.
  intros HR. induction l as [|x l IH]; simpl; [done|]. intros [Hx Hl]. split; [|auto].
  eapply Forall_impl; [exact Hx|]. auto.
Qed.

Lemma pairwise_all {A} (R : A → A → Prop) l :
  (∀ x y, x ∈ l → y ∈ l → R x y) → pairwise R l.
Proof.
  induction l as [|x l IH]; [done|]. intros HR. split.
  - rewrite Forall_forall. intros y Hy. apply HR; apply elem_of_cons; [by left|by right].
  - apply IH. intros y z Hy Hz. apply HR; apply elem_of_cons; by right.
Qed.

(** ** Deduplication *)

Section dedup.
Context (c : DataClass).

Lemma dedup_subset fuel l x : x ∈ dedup fuel c l → x ∈ l.
Proof.
  revert l. induction fuel as [|fuel IH]; intros l; [done|].
  destruct l as [|m l]; [done|]. cbn [dedup].
  case_bool_decide; rewrite !elem_of_cons; intros [->|Hx%IH]; auto.
  apply list_elem_of_filter in Hx as [_ ?]. auto.
Qed.

Lemma dedup_other fuel l x : (length l ≤ fuel)%nat → x ∈ l → data_class x ≠ c → x ∈ dedup fuel c l.
Proof.
  revert l. induction fuel as [|fuel IH]; intros l Hlen Hx Hc; [done|].
  destruct l as [|m l]; [done|]. cbn [dedup]. simpl in Hlen.
  apply elem_of_cons in Hx as [->|Hx].
  { case_bool_decide; [done|]. apply elem_of_cons. by left. }
  case_bool_decide; apply elem_of_cons; right; apply IH; try done; [| |lia].
  - pose proof (length_filter (λ x, overlaps c (m_end m) x = false) l). lia.
  - apply list_elem_of_filter. split; [|done]. unfold overlaps.
    by rewrite bool_decide_eq_false_2.
Qed.

Lemma dedup_pairwise_keep (R : ClassificationMatch → ClassificationMatch → Prop) fuel l :
  pairwise R l → pairwise R (dedup fuel c l).
Proof.
  revert l. induction fuel as [|fuel IH]; intros l; [done|].
  destruct l as [|m l]; [done|]. intros [Hm Hl]. cbn [dedup].
  case_bool_decide; (split; [|apply IH; try done; by apply pairwise_filter]).
  - rewrite Forall_forall in Hm |- *. intros x Hx%dedup_subset.
    apply list_elem_of_filter in Hx as [_ ?]. auto.
  - rewrite Forall_forall in Hm |- *. intros x Hx%dedup_subset. auto.
Qed.

(** Matches of the class no longer overlap. *)
Definition after_in (a b : ClassificationMatch) : Prop :=
  data_class a = c → data_class b = c → (m_end a ≤ m_start b)%nat.
Lemma dedup_disjoint fuel l : (length l ≤ fuel)%nat → pairwise after_in (dedup fuel c l).
Proof.
  revert l. induction fuel as [|fuel IH]; intros l Hlen.
  { destruct l; [done|simpl in Hlen; lia]. }
  destruct l as [|m l]; [done|]. cbn [dedup]. simpl in Hlen. case_bool_decide.
  - pose proof (length_filter (λ x, overlaps c (m_end m) x = false) l).
    split; [|apply IH; lia].
    rewrite Forall_forall. intros x Hx%dedup_subset _ Hc.
    apply list_elem_of_filter in Hx as [Ho _]. unfold overlaps in Ho.
    rewrite bool_decide_eq_true_2 in Ho by done. simpl in Ho. apply Nat.ltb_ge in Ho. lia.
  - split; [|apply IH; lia]. rewrite Forall_forall. by intros x _ Hm.
Qed.

(** A removed match starts inside a kept one. *)
Definition covered (i : nat) (l : list ClassificationMatch) : Prop :=
  ∃ m, m ∈ l ∧ data_class m = c ∧ (m_start m ≤ i < m_end m)%nat.
Definition start_order (a b : ClassificationMatch) : Prop :=
  data_class a = c → data_class b = c → (m_start a ≤ m_start b)%nat.
Lemma dedup_covers fuel l x :
  (length l ≤ fuel)%nat → pairwise start_order l →
  Forall (λ m, (m_start m < m_end m)%nat) l →
  x ∈ l → data_class x = c → covered (m_start x) (dedup fuel c l).
Proof.
  revert l. induction fuel as [|fuel IH]; intros l Hlen Hs Hlt Hx Hc.
  { destruct l; [by apply elem_of_nil in Hx|simpl in Hlen; lia]. }
  destruct l as [|m l]; [by apply elem_of_nil in Hx|]. destruct Hs as [Hm Hs].
  apply Forall_cons in Hlt as [Hltm Hlt]. cbn [dedup]. simpl in Hlen.
  assert (Hcons : ∀ l', covered (m_start x) l' → covered (m_start x) (m :: l')).
  { intros l' (y & Hy & ?). exists y. split; [apply elem_of_cons; by right|done]. }
  apply elem_of_cons in Hx as [->|Hx].
  { rewrite bool_decide_eq_true_2 by done. exists m.
    split_and!; [apply elem_of_cons; by left|done|lia|lia]. }
  case_bool_decide as Hcm; [|apply Hcons, IH; (done || lia)].
  destruct (overlaps c (m_end m) x) eqn:Eo.
  - exists m. split; [apply elem_of_cons; by left|]. split; [done|].
    rewrite Forall_forall in Hm. specialize (Hm x Hx Hcm Hc).
    unfold overlaps in Eo. apply andb_true_iff in Eo as [_ Eo]. apply Nat.ltb_lt in Eo. lia.
  - apply Hcons, IH; [|by apply pairwise_filter| |by apply list_elem_of_filter|done].
    + pose proof (length_filter (λ x, overlaps c (m_end m) x = false) l). lia.
    + rewrite Forall_forall in Hlt |- *. intros y [_ Hy]%list_elem_of_filter. auto.
Qed.
End dedup.

(** ** Scanning *)

Section scanning.
Context (text : bytes).

Definition match_ok (m : ClassificationMatch) : Prop :=
  slice text (m_start m) (m_end m) = Ok (matched_text m) ∧ (m_start m < m_end m)%nat
  ∧ is_sensitive (data_class m) = true.

(** What the loop appends: one match per hit, in increasing order. *)
Lemma scan_from_spec p i n out out' :
  (1 ≤ min_len p)%nat → is_sensitive (pat_class p) = true →
  scan_from text p i n out = Ok out' →
  ∃ new, out' = out ++ new
    ∧ Forall (λ m, match_ok m ∧ data_class m = pat_class p ∧ (i ≤ m_start m)%nat) new
    ∧ pairwise (λ a b, (m_start a ≤ m_start b)%nat) new
    ∧ (∀ j, (i ≤ j < i + n)%nat → ∃ h, matcher p text j = Ok h)
    ∧ (∀ j len, (i ≤ j < i + n)%nat → matcher p text j = Ok (Some len) →
         (min_len p ≤ len)%nat → ∃ m, m ∈ new ∧ m_start m = j).
Proof.
  intros Hmin Hsens. revert i out. induction n as [|n IH]; intros i out; cbn [scan_from].
  { intros [= <-]. exists []. rewrite app_nil_r. split_and!; [done|constructor|done|intros j Hj; lia|].
    intros j len Hj. lia. }
  intros (hit & Hhit & Hrest)%bind_Ok.
  assert (Hskip : scan_from text p (S i) n out = Ok out' →
    (∀ len, hit = Some len → (len < min_len p)%nat) → ∃ new, out' = out ++ new
    ∧ Forall (λ m, match_ok m ∧ data_class m = pat_class p ∧ (i ≤ m_start m)%nat) new
    ∧ pairwise (λ a b, (m_start a ≤ m_start b)%nat) new
    ∧ (∀ j, (i ≤ j < i + S n)%nat → ∃ h, matcher p text j = Ok h)
    ∧ (∀ j len, (i ≤ j < i + S n)%nat → matcher p text j = Ok (Some len) →
         (min_len p ≤ len)%nat → ∃ m, m ∈ new ∧ m_start m = j)).
  { intros Hs Hno. destruct (IH (S i) out Hs) as (new & -> & H1 & H2 & H3 & H4).
    exists new. split_and!; [done| |done| |].
    - eapply Forall_impl; [exact H1|]. simpl. intros m (? & ? & ?). split_and!; (done || lia).
    - intros j Hj. destruct (decide (j = i)) as [->|]; [by eexists|]. apply H3. lia.
    - intros j len Hj Hm Hl. destruct (decide (j = i)) as [->|]; [|apply (H4 j len); (done || lia)].
      rewrite Hm in Hhit. simplify_eq. specialize (Hno len eq_refl). lia. }
  destruct hit as [len|]; [|by apply Hskip].
  destruct (Nat.leb_spec (min_len p) len) as [Hle|Hgt].
  2: { apply Hskip; [done|]. intros ? [= <-]. done. }
  clear Hskip. apply bind_Ok in Hrest as (t & Ht & Hs).
  destruct (IH (S i) _ Hs) as (new & -> & H1 & H2 & H3 & H4).
  eexists (_ :: new). rewrite <- app_assoc. split_and!; [done| | | |].
  - constructor; [|eapply Forall_impl; [exact H1|]; simpl; intros m (? & ? & ?);
      split_and!; (done || lia)].
    split_and!; simpl; [|done|done]. split_and!; simpl; [done|lia|done].
  - split; [|done]. eapply Forall_impl; [exact H1|]. simpl. intros m (_ & _ & ?). lia.
  - intros j Hj. destruct (decide (j = i)) as [->|]; [by eexists|]. apply H3. lia.
  - intros j len' Hj Hm Hl. destruct (decide (j = i)) as [->|].
    + eexists. split; [apply elem_of_cons; by left|done].
    + destruct (H4 j len') as (m & Hin & ?); [lia|done|done|].
      exists m. split; [apply elem_of_cons; by right|done].
Qed.

Definition out_ok (out : list ClassificationMatch) : Prop :=
  Forall match_ok out ∧ ∀ c, pairwise (after_in c) out.

Definition scan_dedup (p : Pattern) (out : list ClassificationMatch) :
    Checked (list ClassificationMatch) :=
  let! out := scan_from text p 0 (length text) out in
  Ok (dedup_overlapping out (pat_class p)).

Lemma pairwise_fresh_app (R : ClassificationMatch → ClassificationMatch → Prop) out new :
  pairwise R out → pairwise R new → Forall (λ a, Forall (R a) new) out →
  pairwise R (out ++ new).
Proof.
  induction out as [|a out IH]; simpl; [done|]. intros [Ha Ho] Hn [Han Hall]%Forall_cons.
  split; [by apply Forall_app|by apply IH].
Qed.

(** One detector: its class is new to the list. *)
Lemma scan_dedup_spec p out out' :
  (1 ≤ min_len p)%nat → is_sensitive (pat_class p) = true →
  Forall (λ m, data_class m ≠ pat_class p) out → out_ok out →
  scan_dedup p out = Ok out' →
  out_ok out'
  ∧ (∀ x, x ∈ out → x ∈ out')
  ∧ Forall (λ x, x ∈ out ∨ data_class x = pat_class p) out'
  ∧ (∀ j, (j < length text)%nat → ∃ h, matcher p text j = Ok h)
  ∧ (∀ j len, (j < length text)%nat → matcher p text j = Ok (Some len) →
       (min_len p ≤ len)%nat → covered (pat_class p) j out').
Proof.
  intros Hmin Hsens Hfresh [Hok Hpw] (o & Ho & [= <-])%bind_Ok.
  destruct (scan_from_spec p 0 _ _ _ Hmin Hsens Ho) as (new & -> & H1 & H2 & H3 & H4).
  rewrite Forall_forall in Hfresh, H1.
  assert (Hall : Forall match_ok (out ++ new)).
  { apply Forall_app. split; [done|]. rewrite Forall_forall. intros m Hm. by apply H1. }
  assert (Hsub : ∀ x, x ∈ dedup_overlapping (out ++ new) (pat_class p) → x ∈ out ++ new)
    by (intros x; apply dedup_subset).
  split_and!.
  - split.
    + rewrite Forall_forall in Hall |- *. auto.
    + intros c. destruct (decide (c = pat_class p)) as [->|Hc]; [by apply dedup_disjoint|].
      apply dedup_pairwise_keep, pairwise_fresh_app; [apply Hpw| |].
      * apply pairwise_all. intros x y Hx _ Hcx. apply H1 in Hx as (_ & Hx & _). congruence.
      * rewrite Forall_forall. intros x Hx. rewrite Forall_forall. intros y Hy _ Hcy.
        apply H1 in Hy as (_ & Hy & _). congruence.
  - intros x Hx. apply dedup_other; [done|apply elem_of_app; by left|auto].
  - rewrite Forall_forall. intros x [Hx|Hx]%Hsub%elem_of_app; [by left|].
    right. by apply H1.
  - intros j Hj. apply H3. lia.
  - intros j len Hj Hm Hl. destruct (H4 j len) as (m & Hin & <-); [lia|done|done|].
    apply dedup_covers; [done| | |apply elem_of_app; by right|by apply H1].
    + apply pairwise_fresh_app.
      * apply pairwise_all. intros x y Hx _ Hcx. by apply Hfresh in Hx.
      * eapply pairwise_impl; [|exact H2]. simpl. intros x y Hxy _ _. exact Hxy.
      * rewrite Forall_forall. intros x Hx. rewrite Forall_forall. intros y _ Hcx.
        by apply Hfresh in Hx.
    + rewrite Forall_forall in Hall |- *. intros x Hx. by apply Hall.
Qed.
End scanning.

(** ** Sorting *)

Lemma elem_of_insert_by_start m l x : x ∈ insert_by_start m l ↔ x = m ∨ x ∈ l.
Proof.
  induction l as [|y l IH]; cbn [insert_by_start].
  - rewrite list_elem_of_singleton, elem_of_nil. tauto.
  - destruct (_ <=? _)%nat; rewrite !elem_of_cons; [tauto|]. rewrite IH. tauto.
Qed.
Lemma elem_of_sort l x : x ∈ sort_by_start l ↔ x ∈ l.
Proof.
  induction l as [|y l IH]; [done|]. cbn [sort_by_start foldr].
  rewrite elem_of_insert_by_start, elem_of_cons. by rewrite <- IH.
Qed.
Definition starts_le (a b : ClassificationMatch) : Prop := (m_start a ≤ m_start b)%nat.
Lemma insert_by_start_sorted m l :
  pairwise starts_le l → pairwise starts_le (insert_by_start m l).
Proof.
  induction l as [|y l IH]; cbn [insert_by_start]; [by repeat constructor|].
  intros [Hy Hl]. destruct (Nat.leb_spec (m_start m) (m_start y)) as [Hle|Hgt].
  - split; [|by split]. constructor; [done|]. eapply Forall_impl; [exact Hy|].
    unfold starts_le. intros; lia.
  - split; [|by apply IH]. rewrite Forall_forall in Hy |- *. intros x [->|Hx]%elem_of_insert_by_start;
      [unfold starts_le; lia|auto].
Qed.
Lemma sort_sorted l : pairwise starts_le (sort_by_start l).
Proof. induction l as [|m l IH]; [done|]. by apply insert_by_start_sorted. Qed.

(** Disjoint spans of one class, in either order. *)
Definition disjoint (a b : ClassificationMatch) : Prop :=
  data_class a = data_class b → (m_end a ≤ m_start b)%nat ∨ (m_end b ≤ m_start a)%nat.
Lemma insert_by_start_disjoint m l :
  Forall (disjoint m) l → pairwise disjoint l → pairwise disjoint (insert_by_start m l).
Proof.
  induction l as [|y l IH]; cbn [insert_by_start]; [by repeat constructor|].
  intros [Hm Hml]%Forall_cons [Hy Hl]. destruct (_ <=? _)%nat.
  - split; [by constructor|by split].
  - split; [|by apply IH]. rewrite Forall_forall in Hy |- *.
    intros x [->|Hx]%elem_of_insert_by_start; [|auto].
    intros Hc. destruct (Hm (eq_sym Hc)); [by right|by left].
Qed.
Lemma sort_disjoint l : pairwise disjoint l → pairwise disjoint (sort_by_start l).
Proof.
  induction l as [|m l IH]; [done|]. intros [Hm Hl]. cbn [sort_by_start foldr].
  apply insert_by_start_disjoint; [|by apply IH].
  rewrite Forall_forall in Hm |- *. intros x Hx. apply Hm, elem_of_sort, Hx.
Qed.
(** ... hence in the sorted list each ends before the next one starts. *)
Lemma sorted_disjoint l :
  Forall (λ m, (m_start m < m_end m)%nat) l → pairwise starts_le l → pairwise disjoint l →
  pairwise (λ a b, data_class a = data_class b → (m_end a ≤ m_start b)%nat) l.
Proof.
  induction l as [|m l IH]; [done|]. intros [Hm Hlt]%Forall_cons [S1 S2] [D1 D2].
  split; [|by apply IH]. rewrite Forall_forall in *. intros x Hx Hc.
  specialize (S1 x Hx). unfold starts_le in S1. specialize (Hlt x Hx). simpl in Hlt.
  destruct (D1 x Hx Hc); lia.
Qed.

Lemma covered_mono c j out out' : (∀ x, x ∈ out → x ∈ out') → covered c j out → covered c j out'.
Proof. intros Hs (m & Hm & ?). exists m. auto. Qed.

Lemma existsb_false_of (ms : list ClassificationMatch) c :
  existsb (λ m, bool_decide (data_class m = c)) ms = false → ∀ m, m ∈ ms → data_class m ≠ c.
Proof.
  induction ms as [|x ms IH]; simpl; [intros _ m Hm; by apply elem_of_nil in Hm|].
  intros [Hx Hms]%orb_false_iff m [->|Hm]%elem_of_cons; [by apply bool_decide_eq_false in Hx|auto].
Qed.

(** The first class of the priority order that occurs. *)
Lemma compute_dominant_spec ms order fb :
  (∃ pre c post, order = pre ++ c :: post ∧ compute_dominant ms order fb = c
     ∧ (∃ m, m ∈ ms ∧ data_class m = c)
     ∧ ∀ m, m ∈ ms → data_class m ∉ pre)
  ∨ (compute_dominant ms order fb = fb ∧ ∀ m, m ∈ ms → data_class m ∉ order).
Proof.
  induction order as [|c order IH]; cbn [compute_dominant].
  { right. split; [done|]. intros m _. apply not_elem_of_nil. }
  destruct (existsb _ ms) eqn:E.
  - left. exists [], c, order. split_and!; [done|done| |intros; apply not_elem_of_nil].
    apply existsb_exists in E as (m & Hm & Hc%bool_decide_eq_true).
    exists m. by rewrite list_elem_of_In.
  - pose proof (existsb_false_of ms c E) as Hno.
    destruct IH as [(pre & c' & post & -> & H1 & H2 & H3)|[H1 H2]].
    + left. exists (c :: pre), c', post. split_and!; [done|done|done|].
      intros m Hm. apply not_elem_of_cons. auto.
    + right. split; [done|]. intros m Hm. apply not_elem_of_cons. auto.
Qed.

Lemma compute_dominant_first ms pre c post fb :
  (∃ m, m ∈ ms ∧ data_class m = c) → (∀ m, m ∈ ms → data_class m ∉ pre) →
  compute_dominant ms (pre ++ c :: post) fb = c.
Proof.
  intros (m & Hm & Hc) Hpre. induction pre as [|x pre IH]; cbn [app compute_dominant].
  - destruct (existsb _ ms) eqn:E; [done|]. by destruct (existsb_false_of ms c E m Hm).
  - destruct (existsb _ ms) eqn:E.
    + apply existsb_exists in E as (m' & Hm' & Hx%bool_decide_eq_true).
      apply list_elem_of_In in Hm'. destruct (Hpre m' Hm'). apply elem_of_cons. by left.
    + apply IH. intros m' Hm' Hin. destruct (Hpre m' Hm'). apply elem_of_cons. by right.
Qed.

(** ** Hits stay inside the text *)

Section classify.
Context (wide : bytes → bool) (text : bytes).

Definition bounded (p : Pattern) : Prop :=
  ∀ j len, matcher p text j = Ok (Some len) → (j + len ≤ length text)%nat.

Lemma ssn_bounded : bounded ssn_pattern.
Proof.
  intros j len (s & [Hb ->]%slice_from_Ok & Hm)%bind_Ok. apply boundary_le in Hb.
  rewrite length_drop in Hm. destruct (Nat.leb_spec 11 (length text - j)); simpl in Hm; [|done].
  destruct (ssn_shape _); simpl in Hm; [|done]. destruct (before_ok _ _ && _); simplify_eq. lia.
Qed.
Lemma card_bounded : bounded card_pattern.
Proof.
  intros j len (s & [Hb ->]%slice_from_Ok & Hm)%bind_Ok. apply boundary_le in Hb.
  rewrite length_drop in Hm. destruct (Nat.ltb_spec (length text - j) 16); [done|].
  destruct (all_digits _ && _); [simplify_eq; lia|].
  destruct (Nat.leb_spec 19 (length text - j)); simpl in Hm; [|done].
  destruct (grouped_card _ && _); simplify_eq. lia.
Qed.
Lemma email_bounded : bounded (email_pattern wide).
Proof.
  intros j len (s & [Hb ->]%slice_from_Ok & Hm)%bind_Ok. apply boundary_le in Hb.
  destruct (find (is_char "@") (drop j text)) as [at_|] eqn:Eat; [|done].
  destruct (at_ =? 0)%nat; [done|]. destruct (negb _); [done|].
  cbv zeta in Hm.    set (domain := drop (at_ + 1) (drop j text)) in *.
  destruct (find (is_char ".") domain) as [dot|]; [|done].
  destruct (Nat.eqb_spec dot 0); [done|].
  destruct (Nat.leb_spec (length domain) (dot + 1)); [done|].
  apply bind_Ok in Hm as (tld & _ & Hm). destruct (_ || _); simplify_eq.
  pose proof (find_default_le domain_stop domain).
  assert (length domain = (length text - j - (at_ + 1))%nat)
    by (unfold domain; rewrite !length_drop; lia). lia.
Qed.
Lemma match_prefixes_bounded s ps len : match_prefixes s ps = Some len → (len ≤ length s)%nat.
Proof.
  induction ps as [|p ps IH]; cbn [match_prefixes]; [done|].
  unfold bytes_eqb. case_bool_decide as Hp; [|done]. destruct (20 <=? _)%nat; [|done].
  intros [= <-]. pose proof (find_default_le token_stop (drop (length p) s)) as Hd.
  rewrite length_drop in Hd. apply (f_equal length) in Hp. rewrite length_take in Hp.
  rewrite length_drop. lia.
Qed.
Lemma api_key_bounded : bounded api_key_pattern.
Proof.
  intros j len (s & [Hb ->]%slice_from_Ok & Hm)%bind_Ok. apply boundary_le in Hb.
  assert (Hp : match_prefixes (drop j text) api_prefixes = Some len) by congruence.
  clear Hm. rename Hp into Hm. apply match_prefixes_bounded in Hm. rewrite length_drop in Hm. lia.
Qed.

(** ** The stages of [classify_text] *)

Definition hits_covered (p : Pattern) (out : list ClassificationMatch) : Prop :=
  ∀ j len, (j < length text)%nat → matcher p text j = Ok (Some len) →
    (min_len p ≤ len)%nat → covered (pat_class p) j out.

Record stage (p : Pattern) (on : bool) (out out' : list ClassificationMatch) : Prop := {
  stage_ok : out_ok text out';
  stage_keep : ∀ x, x ∈ out → x ∈ out';
  stage_new : ∀ x, x ∈ out' → x ∈ out ∨ data_class x = pat_class p;
  stage_cover : on = true → hits_covered p out';
}.

Lemma stage_off p out : out_ok text out → stage p false out out.
Proof. intros Hok. by split; auto. Qed.

Lemma stage_scan_dedup p out out' :
  (1 ≤ min_len p)%nat → is_sensitive (pat_class p) = true →
  (∀ m, m ∈ out → data_class m ≠ pat_class p) → out_ok text out →
  scan_dedup text p out = Ok out' → stage p true out out'.
Proof.
  intros H1 H2 Hf Hok Hs.
  destruct (scan_dedup_spec text p out out' H1 H2 ltac:(by rewrite Forall_forall) Hok Hs)
    as (S1 & S2 & S3 & _ & S5).
  split; [done|done|by rewrite Forall_forall in S3|]. intros _ j len. apply S5.
Qed.

Lemma stage_scan p on out out' :
  (1 ≤ min_len p)%nat → is_sensitive (pat_class p) = true → bounded p →
  (∀ m, m ∈ out → data_class m ≠ pat_class p) → out_ok text out →
  run_if on (scan_pattern text p) out = Ok out' → stage p on out out'.
Proof.
  intros H1 H2 Hb Hf Hok. unfold run_if. destruct on; [|intros [= <-]; by apply stage_off].
  unfold scan_pattern. destruct (Nat.ltb_spec (length text) (min_len p)).
  - intros [= <-]. split; [done|by auto|by auto|].
    intros _ j len Hj Hm%Hb Hl. lia.
  - fold (scan_dedup text p out). by apply stage_scan_dedup.
Qed.


(** ** The whole classification *)

Lemma classify_stages config r :
  enabled config = true → text ≠ [] → classify_text wide text config = Ok r →
  ∃ o1 o2 o3 o4,
    stage ssn_pattern (phi_detection config) [] o1
    ∧ stage card_pattern (financial_detection config) o1 o2
    ∧ stage (email_pattern wide) (pii_detection config) o2 o3
    ∧ stage api_key_pattern (ip_detection config) o3 o4
    ∧ r = mkClassification (sort_by_start o4)
            (compute_dominant_class (sort_by_start o4) (priority_order config)).
Proof.
  intros Hen Hne. unfold classify_text. rewrite Hen. simpl.
  destruct (Nat.eqb_spec (length text) 0) as [Hl|_]; [by destruct text|].
  intros (o1 & E1 & (o2 & E2 & (o3 & E3 & (o4 & E4 & [= <-])%bind_Ok)%bind_Ok)%bind_Ok)%bind_Ok.
  assert (S1 : stage ssn_pattern (phi_detection config) [] o1).
  { apply stage_scan; [simpl; lia|done|apply ssn_bounded| | |done].
    - intros m Hm. by apply elem_of_nil in Hm.
    - split; [constructor|]. by intros c. }
  assert (C1 : ∀ m, m ∈ o1 → data_class m = SensitivePhi).
  { intros m [Hm|Hm]%(stage_new _ _ _ _ S1); [by apply elem_of_nil in Hm|done]. }
  assert (S2 : stage card_pattern (financial_detection config) o1 o2).
  { apply stage_scan; try done; [simpl; lia|apply card_bounded| |apply S1].
    intros m Hm%C1. by rewrite Hm. }
  assert (C2 : ∀ m, m ∈ o2 → data_class m = SensitivePhi ∨ data_class m = FinancialData).
  { intros m [Hm|Hm]%(stage_new _ _ _ _ S2); [left; by apply C1|by right]. }
  assert (S3 : stage (email_pattern wide) (pii_detection config) o2 o3).
  { apply stage_scan; try done; [simpl; lia|apply email_bounded| |apply S2].
    intros m [Hm|Hm]%C2; by rewrite Hm. }
  assert (C3 : ∀ m, m ∈ o3 → data_class m ≠ IntellectualProperty).
  { intros m [Hm|Hm]%(stage_new _ _ _ _ S3); [|by rewrite Hm].
    apply C2 in Hm as [Hm|Hm]; by rewrite Hm. }
  exists o1, o2, o3, o4. split_and!; [done|done|done| |done].
  unfold run_if in E4. destruct (ip_detection config).
  - fold (scan_dedup text api_key_pattern o3) in E4.
    apply stage_scan_dedup; try done; [simpl; lia|apply S3].
  - simplify_eq. by apply stage_off, S3.
Qed.

End classify.

Lemma classify_off (wide : bytes → bool) text config r :
  ¬ (enabled config = true ∧ text ≠ []) → classify_text wide text config = Ok r →
  r = mkClassification [] Unclassified.
Proof.
  intros Hoff Hr. unfold classify_text in Hr.
  assert (negb (enabled config) || (length text =? 0)%nat = true) as Hg.
  { destruct (enabled config); [|done]. destruct text; [done|]. by destruct Hoff. }
  rewrite Hg in Hr. by simplify_eq.
Qed.

Lemma classify_matches_ok (wide : bytes → bool) text config r :
  classify_text wide text config = Ok r → Forall (match_ok text) (matches r).
Proof.
  intros Hr. destruct (decide (enabled config = true ∧ text ≠ [])) as [[Hen Hne]|Hoff].
  2: { rewrite (classify_off _ _ _ _ Hoff Hr). constructor. }
  destruct (classify_stages wide text config r Hen Hne Hr)
    as (o1 & o2 & o3 & o4 & _ & _ & _ & S4 & ->).
  destruct (stage_ok _ _ _ _ _ S4) as [Hall _]. simpl.
  rewrite Forall_forall in Hall |- *. intros m Hm. by apply Hall, (elem_of_sort o4).
Qed.

Lemma classify_sensitive_iff (wide : bytes → bool) text config r :
  classify_text wide text config = Ok r → has_sensitive_content r = true ↔ matches r ≠ [].
Proof.
  intros Hr. pose proof (classify_matches_ok _ _ _ _ Hr) as Hms.
  destruct (decide (enabled config = true ∧ text ≠ [])) as [[Hen Hne]|Hoff].
  2: { by rewrite (classify_off _ _ _ _ Hoff Hr). }
  destruct (classify_stages wide text config r Hen Hne Hr)
    as (o1 & o2 & o3 & o4 & _ & _ & _ & _ & ->). simpl in *.
  set (ms := sort_by_start o4) in *.
  assert (Hdom := compute_dominant_spec ms (priority_order config)).
  unfold has_sensitive_content, compute_dominant_class. simpl.
  rewrite Forall_forall in Hms. destruct ms as [|m ms'] eqn:Em; [done|]. split; [done|]. intros _.
  destruct (Hdom (data_class m)) as [(pre & c & post & _ & -> & (m' & Hm' & <-) & _)|[-> _]].
  - by destruct (Hms m' Hm') as (_ & _ & ?).
  - by destruct (Hms m ltac:(apply elem_of_cons; by left)) as (_ & _ & ?).
Qed.

(** What classification returns is right: every match is a non-empty
    in-range span whose text is the one reported, of a sensitive class; the
    matches are ordered by start and those of one class never overlap; the
    result is flagged sensitive exactly when there is a match, and then the
    dominant class is the first of the priority order that occurs. *)
Theorem classify_sound (wide : bytes → bool) (text : bytes)
    (config : DataClassificationConfig) (r : ClassificationResult) :
  classify_text wide text config = Ok r →
  Forall (λ m, slice text (m_start m) (m_end m) = Ok (matched_text m)
               ∧ (m_start m < m_end m ≤ length text)%nat
               ∧ is_sensitive (data_class m) = true) (matches r)
  ∧ pairwise starts_le (matches r)
  ∧ pairwise (λ a b, data_class a = data_class b → (m_end a ≤ m_start b)%nat) (matches r)
  ∧ (has_sensitive_content r = true ↔ matches r ≠ [])
  ∧ ∀ pre c post, priority_order config = pre ++ c :: post →
      (∃ m, m ∈ matches r ∧ data_class m = c) →
      (∀ m, m ∈ matches r → data_class m ∉ pre) → dominant_class r = c.
Proof.
  intros Hr. pose proof (classify_matches_ok _ _ _ _ Hr) as Hms.
  pose proof (classify_sensitive_iff _ _ _ _ Hr) as Hsens.
  destruct (decide (enabled config = true ∧ text ≠ [])) as [[Hen Hne]|Hoff].
  2: { rewrite (classify_off _ _ _ _ Hoff Hr) in *. split_and!; [constructor|done|done|done|].
    intros pre c post _ (m & Hm & _). by apply elem_of_nil in Hm. }
  destruct (classify_stages wide text config r Hen Hne Hr)
    as (o1 & o2 & o3 & o4 & _ & _ & _ & S4 & ->).
  destruct (stage_ok _ _ _ _ _ S4) as [_ Hpw]. simpl in *.
  set (ms := sort_by_start o4) in *.
  assert (Hlt : Forall (λ m, (m_start m < m_end m)%nat) ms).
  { eapply Forall_impl; [exact Hms|]. by intros m (_ & ? & _). }
  split_and!.
  - eapply Forall_impl; [exact Hms|]. intros m (Hs & Hlt' & Hse). split_and!; [done|done| |done].
    apply slice_Ok in Hs. lia.
  - apply sort_sorted.
  - apply sorted_disjoint; [done|apply sort_sorted|]. apply sort_disjoint.
    clear -Hpw. induction o4 as [|m o4 IH]; [done|]. split.
    + rewrite Forall_forall. intros x Hx Hc. left. destruct (Hpw (data_class m)) as [Hm _].
      rewrite Forall_forall in Hm. by apply Hm.
    + apply IH. intros c. by destruct (Hpw c).
  - apply Hsens.
  - intros pre c post Hord Hc Hpre. unfold compute_dominant_class.
    destruct ms as [|m0 ms'] eqn:Em.
    { destruct Hc as (m & Hm & _). by apply elem_of_nil in Hm. }
    rewrite <- Em in *. rewrite Hord. by apply compute_dominant_first.
Qed.

(** Nothing a detector finds is lost: wherever an enabled detector matches
    with its minimum length, some reported match of its class covers that
    position; overlapping hits are merged into the earlier one, never dropped. *)
Theorem classify_complete (wide : bytes → bool) (text : bytes)
    (config : DataClassificationConfig) (r : ClassificationResult) (p : Pattern)
    (j len : nat) :
  enabled config = true → classify_text wide text config = Ok r →
  (p = ssn_pattern ∧ phi_detection config = true)
  ∨ (p = card_pattern ∧ financial_detection config = true)
  ∨ (p = email_pattern wide ∧ pii_detection config = true)
  ∨ (p = api_key_pattern ∧ ip_detection config = true) →
  (j < length text)%nat → matcher p text j = Ok (Some len) → (min_len p ≤ len)%nat →
  covered (pat_class p) j (matches r).
Proof.
  intros Hen Hr Hp Hj Hm Hl.
  assert (Hne : text ≠ []) by (by intros ->; simpl in Hj; lia).
  destruct (classify_stages wide text config r Hen Hne Hr)
    as (o1 & o2 & o3 & o4 & S1 & S2 & S3 & S4 & ->). simpl.
  apply (covered_mono _ _ o4); [intros x; apply elem_of_sort|].
  destruct Hp as [[-> Hon]|[[-> Hon]|[[-> Hon]|[-> Hon]]]].
  - apply (covered_mono _ _ o1); [|by eapply stage_cover].
    intros x Hx. by apply (stage_keep _ _ _ _ _ S4), (stage_keep _ _ _ _ _ S3), (stage_keep _ _ _ _ _ S2).
  - apply (covered_mono _ _ o2); [|by eapply stage_cover].
    intros x Hx. by apply (stage_keep _ _ _ _ _ S4), (stage_keep _ _ _ _ _ S3).
  - apply (covered_mono _ _ o3); [|by eapply stage_cover].
    intros x Hx. by apply (stage_keep _ _ _ _ _ S4).
  - by eapply stage_cover.
Qed.

(** ** When classification returns, and when it panics *)

Section returns.
Context (wide : bytes → bool) (text : bytes).
Hypothesis Hascii : ascii_text text.

Lemma slice_from_ascii i : (i ≤ length text)%nat → slice_from text i = Ok (drop i text).
Proof. intros Hi. unfold slice_from. by rewrite ascii_boundary. Qed.

Definition total_on (p : Pattern) : Prop :=
  ∀ i, (i < length text)%nat → ∃ h, matcher p text i = Ok h.

Lemma scan_from_total p i n out :
  total_on p → bounded text p → (i + n ≤ length text)%nat →
  ∃ out', scan_from text p i n out = Ok out'.
Proof.
  intros Ht Hb. revert i out. induction n as [|n IH]; intros i out Hi; cbn [scan_from]; [eauto|].
  destruct (Ht i ltac:(lia)) as [h Hh]. rewrite Hh. simpl.
  destruct h as [len|]; [|apply IH; lia]. destruct (_ <=? _)%nat; [|apply IH; lia].
  rewrite slice_ascii by (done || (apply Hb in Hh; lia)). simpl. apply IH. lia.
Qed.

Lemma scan_pattern_total p out :
  total_on p → bounded text p → ∃ out', scan_pattern text p out = Ok out'.
Proof.
  intros Ht Hb. unfold scan_pattern. destruct (_ <? _)%nat; [eauto|].
  destruct (scan_from_total p 0 (length text) out Ht Hb ltac:(lia)) as [o ->]. simpl. eauto.
Qed.

Lemma ssn_total : total_on ssn_pattern.
Proof. intros i Hi. simpl. unfold match_ssn. rewrite slice_from_ascii by lia. simpl. eauto. Qed.
Lemma card_total : total_on card_pattern.
Proof.
  intros i Hi. simpl. unfold match_credit_card. rewrite slice_from_ascii by lia. simpl. eauto.
Qed.
Lemma api_key_total : total_on api_key_pattern.
Proof.
  intros i Hi. simpl. unfold match_api_key. rewrite slice_from_ascii by lia. simpl. eauto.
Qed.

Lemma find_char_None P cs n : Forall (λ c, P c = false) cs → find_char P cs n = None.
Proof.
  intros Hall. revert n. induction Hall as [|c cs Hc _ IH]; intros n; simpl; [done|].
  by rewrite Hc.
Qed.
(** A character is a sequence of bytes of the text. *)
Lemma chars_from_sub cur l c : c ∈ chars_from cur l → ∀ b, b ∈ c → b ∈ cur ∨ b ∈ l.
Proof.
  intros Hc b Hb. rewrite <- elem_of_app, <- (chars_from_concat cur l).
  apply list_elem_of_In, in_concat. exists c. by rewrite <- !list_elem_of_In.
Qed.

Lemma find_absent (s : bytes) (a : Z) sym :
  lit sym = [a] → a ∉ s → find (is_char sym) s = None.
Proof.
  intros Hsym Ha. apply find_char_None. rewrite Forall_forall. intros c Hc.
  unfold is_char, bytes_eqb. rewrite Hsym. apply bool_decide_eq_false. intros ->.
  apply Ha. destruct (chars_from_sub [] s [a] Hc a) as [H|H];
    [by apply list_elem_of_singleton|by apply elem_of_nil in H|done].
Qed.

Lemma email_total : 64 ∉ text → total_on (email_pattern wide).
Proof.
  intros Hat i Hi. simpl. unfold match_email. rewrite slice_from_ascii by lia. simpl.
  rewrite (find_absent _ 64 "@" eq_refl); [eauto|].
  intros Hin. apply Hat. rewrite <- (take_drop i text), elem_of_app. by right.
Qed.
End returns.

(** On ASCII text, classification returns (it does not panic), provided
    e-mail detection is off or the text has no [@]. *)
Theorem classify_returns_on_ascii (wide : bytes → bool) (text : bytes)
    (config : DataClassificationConfig) :
  ascii_text text → pii_detection config = false ∨ 64 ∉ text →
  ∃ r, classify_text wide text config = Ok r.
Proof.
  intros Ha Hp. unfold classify_text. destruct (negb _ || _); [eauto|]. unfold run_if.
  assert (H1 := λ o, scan_pattern_total text Ha ssn_pattern o (ssn_total text Ha) (ssn_bounded text)).
  assert (H2 := λ o, scan_pattern_total text Ha card_pattern o (card_total text Ha) (card_bounded text)).
  assert (H3 : 64 ∉ text → ∀ o, ∃ o', scan_pattern text (email_pattern wide) o = Ok o').
  { intros Hat o. apply scan_pattern_total; [done|by apply email_total|apply email_bounded]. }
  assert (H4 : ∀ o, ∃ o', scan_api_key_pattern text o = Ok o').
  { intros o. unfold scan_api_key_pattern.
    destruct (scan_from_total text Ha api_key_pattern 0 (length text) o
      (api_key_total text Ha) (api_key_bounded text) ltac:(lia)) as [o' ->]. simpl. eauto. }
  assert (E1 : ∃ o, (if phi_detection config then scan_pattern text ssn_pattern [] else Ok []) = Ok o)
    by (destruct (phi_detection config); eauto). destruct E1 as [o1 ->]. simpl.
  assert (E2 : ∃ o, (if financial_detection config then scan_pattern text card_pattern o1
                     else Ok o1) = Ok o)
    by (destruct (financial_detection config); eauto). destruct E2 as [o2 ->]. simpl.
  assert (E3 : ∃ o, (if pii_detection config then scan_pattern text (email_pattern wide) o2
                     else Ok o2) = Ok o)
    by (destruct (pii_detection config); [destruct Hp; [done|auto]|eauto]).
  destruct E3 as [o3 ->]. simpl.
  assert (E4 : ∃ o, (if ip_detection config then scan_api_key_pattern text o3 else Ok o3) = Ok o)
    by (destruct (ip_detection config); eauto). destruct E4 as [o4 ->]. simpl. eauto.
Qed.

Lemma bind_Err {A B} (r : Checked A) (f : A → Checked B) :
  (∃ e, r = Err e) → ∃ e, bind r f = Err e.
Proof. intros [e ->]. simpl. eauto. Qed.

Lemma checked_cases {A} (r : Checked A) : (∃ a, r = Ok a) ∨ ∃ e, r = Err e.
Proof. destruct r; eauto. Qed.

(** If a detector panics anywhere in the text, so does the classification. *)
Lemma scan_from_Err text p out i :
  (1 ≤ min_len p)%nat → is_sensitive (pat_class p) = true →
  (i < length text)%nat → (∃ e, matcher p text i = Err e) →
  ∃ e, scan_from text p 0 (length text) out = Err e.
Proof.
  intros H1 H2 Hi [e He]. destruct (checked_cases (scan_from text p 0 (length text) out))
    as [[o Ho]|?]; [|done].
  destruct (scan_from_spec text p 0 _ _ _ H1 H2 Ho) as (_ & _ & _ & _ & H3 & _).
  destruct (H3 i ltac:(lia)) as [h Hh]. congruence.
Qed.

(** Any text with a multi-byte character makes classification panic when
    API-key detection is on, whatever else is configured: the scan slices the
    text at every byte offset, and the first offset inside a character is not a
    boundary. *)
Theorem classify_panics_on_multibyte (wide : bytes → bool) (text : bytes)
    (config : DataClassificationConfig) (i : nat) :
  enabled config = true → ip_detection config = true →
  (i < length text)%nat → is_char_boundary text i = false →
  ∃ e, classify_text wide text config = Err e.
Proof.
  intros Hen Hip Hi Hb. unfold classify_text. rewrite Hen, Hip. simpl.
  destruct (Nat.eqb_spec (length text) 0); [lia|].
  destruct (checked_cases (run_if (phi_detection config) (scan_pattern text ssn_pattern) []))
    as [[o1 ->]|He]; [simpl|by apply bind_Err].
  destruct (checked_cases (run_if (financial_detection config) (scan_pattern text card_pattern) o1))
    as [[o2 ->]|He]; [simpl|by apply bind_Err].
  destruct (checked_cases (run_if (pii_detection config) (scan_pattern text (email_pattern wide)) o2))
    as [[o3 ->]|He]; [simpl|by apply bind_Err].
  apply bind_Err. unfold scan_api_key_pattern. apply bind_Err.
  apply (scan_from_Err text api_key_pattern o3 i); [simpl; lia|done|done|].
  simpl. unfold match_api_key, slice_from. rewrite Hb. simpl. eauto.
Qed.

(** ASCII text panics too: in "me@home ok. bye" the domain ends before the
    first dot after the [@], and the slice between them is decreasing. *)
Theorem classify_panics_on_email (wide : bytes → bool) :
  classify_text wide (lit "me@home ok. bye")
    (mkClassConfig true false true false false []) = Err (SliceOrder 8 4).
Proof. reflexivity. Qed.

Definition demo_text : bytes := lit "ssn 123-45-6789, card 4111 1111 1111 1111".
Definition demo_result : ClassificationResult :=
  match classify_text no_wide demo_text default_class_config with
  | Ok r => r
  | Err _ => mkClassification [] Unclassified
  end.

Lemma classify_sound_witness :
  pairwise starts_le (matches demo_result) ∧ length (matches demo_result) = 2%nat.
Proof.
  split; [|vm_compute; reflexivity].
  destruct (classify_sound no_wide demo_text default_class_config demo_result
    ltac:(vm_compute; reflexivity)) as (_ & H & _). exact H.
Defined.

Lemma classify_complete_witness : covered SensitivePhi 4 (matches demo_result).
Proof.
  apply (classify_complete no_wide demo_text default_class_config demo_result ssn_pattern 4 11).
  - reflexivity.
  - vm_compute. reflexivity.
  - left. split; reflexivity.
  - vm_compute. lia.
  - vm_compute. reflexivity.
  - simpl. lia.
Defined.

Lemma classify_returns_on_ascii_witness :
  ∃ r, classify_text no_wide demo_text default_class_config = Ok r.
Proof.
  apply classify_returns_on_ascii.
  - vm_compute. repeat constructor; discriminate.
  - right. apply (proj1 (bool_decide_eq_true (64 ∉ demo_text))). vm_compute. reflexivity.
Defined.

Lemma classify_panics_on_multibyte_witness :
  ∃ e, classify_text no_wide [99; 97; 102; 195; 169] default_class_config = Err e.
Proof.
  apply (classify_panics_on_multibyte no_wide _ _ 4); try reflexivity. simpl. lia.
Defined.

(** ** The Luhn check *)

Lemma luhn_sum_app i l l' : luhn_sum i (l ++ l') = luhn_sum i l + luhn_sum (i + length l) l'.
Proof.
  revert i. induction l as [|d l IH]; intros i; simpl.
  - by rewrite Nat.add_0_r.
  - rewrite IH. replace (S i + length l)%nat with (i + S (length l))%nat by lia. lia.
Qed.

(** Doubling and casting out nines permutes the ten digits. *)
Lemma luhn_digit_inj i d d' :
  0 ≤ d ≤ 9 → 0 ≤ d' ≤ 9 → (luhn_digit i d) mod 10 = (luhn_digit i d') mod 10 → d = d'.
Proof.
  unfold luhn_digit. intros Hd Hd'. destruct (Nat.odd i).
  - destruct (Z.ltb_spec 9 (d * 2)), (Z.ltb_spec 9 (d' * 2)); rewrite !Z.mod_small by lia; lia.
  - rewrite !Z.mod_small by lia. lia.
Qed.

Lemma digits_of_digits s :
  Forall (λ b, is_ascii_digit b = true) s →
  omap (λ b, if is_ascii_digit b then Some (b - 48) else None) s = map (λ b, b - 48) s.
Proof. induction 1 as [|b s Hb _ IH]; [done|]. simpl. rewrite Hb. f_equal. exact IH. Qed.

(** The card check catches every single mistyped digit: changing one digit
    of a number that passes the Luhn check makes it fail. *)
Theorem luhn_detects_one_digit (pre post : bytes) (b b' : Z) :
  Forall (λ b, is_ascii_digit b = true) (pre ++ b :: post) → is_ascii_digit b' = true →
  b ≠ b' → luhn_check (pre ++ b :: post) = true → luhn_check (pre ++ b' :: post) = false.
Proof.
  intros Hall Hb' Hne. pose proof Hall as [Hpre [Hb Hpost]%Forall_cons]%Forall_app.
  assert (Hall' : Forall (λ b, is_ascii_digit b = true) (pre ++ b' :: post))
    by (apply Forall_app; split; [done|by constructor]).
  unfold luhn_check. rewrite !digits_of_digits by done.
  rewrite !map_app, !rev_app_distr, !length_app. cbn [map rev length].
  destruct (_ <? 13)%nat; [done|]. rewrite <- !app_assoc, !luhn_sum_app. cbn [app luhn_sum].
  set (A := luhn_sum 0 _). set (i := (0 + length _)%nat). set (B := luhn_sum _ (rev (map _ pre))).
  intros H1%Z.eqb_eq. apply Z.eqb_neq. intros H2.
  unfold is_ascii_digit in *. bool_to_prop.
  assert (Hd : b - 48 = b' - 48); [|lia].
  apply (luhn_digit_inj i); [lia|lia|].
  apply Z.mod_divide in H1; [|lia]. apply Z.mod_divide in H2; [|lia].
  destruct H1 as [x Hx], H2 as [y Hy].
  replace (luhn_digit i (b - 48)) with (luhn_digit i (b' - 48) + (x - y) * 10) by lia.
  by rewrite Z.mod_add by lia.
Qed.

Lemma luhn_detects_one_digit_witness :
  luhn_check (lit "4111111111111111") = true ∧ luhn_check (lit "4111111111111112") = false.
Proof.
  split; [reflexivity|].
  apply (luhn_detects_one_digit (lit "411111111111111") [] 49 50); [|done|done|reflexivity].
  vm_compute. repeat constructor.
Defined.
