(* ===== verification/Tokenize.v ===== *)
(** * Tokenize: the token vault and span replacement
      (src/src/gateway/token_vault.rs, src/src/gateway/tokenization.rs)

    Sensitive spans are replaced, back to front and in place, by placeholders
    whose identifiers index a per-request vault.  Texts and identifiers are
    byte sequences. *)

From Stdlib Require Import ZArith Ascii String.
From stdpp Require Import base gmap sets strings list.
From S2P Require Import Prelude Classify.

Local Open Scope Z_scope.
Local Open Scope verdictan_scope.

(** ** The vault *)

Record VaultEntry := mkVaultEntry { v_value : bytes; v_class : DataClass }.
Record TokenVault := mkVault { v_entries : gmap bytes VaultEntry; v_counter : Z }.
Definition vault_new : TokenVault := mkVault ∅ 0.

(** [{:08x}] of a [u64]: sixteen digits at most, padded with zeros to eight. *)
Definition hex_digit (d : Z) : Z := if d <? 10 then 48 + d else 87 + d.
Fixpoint hex_digits (n : nat) (z : Z) : bytes :=
  match n with
  | O => []
  | S n => hex_digits n (z / 16) ++ [hex_digit (z mod 16)]
  end.
Definition hex_width (z : Z) : nat :=
  if z <? 2 ^ 32 then 8 else if z <? 2 ^ 36 then 9 else if z <? 2 ^ 40 then 10
  else if z <? 2 ^ 44 then 11 else if z <? 2 ^ 48 then 12 else if z <? 2 ^ 52 then 13
  else if z <? 2 ^ 56 then 14 else if z <? 2 ^ 60 then 15 else 16.
Definition fmt08x (z : Z) : bytes := hex_digits (hex_width z) z.

Definition token_mix (counter : Z) : Z :=
  Z.lxor (Z.lxor (wrap64 (counter * 0x517cc1b727220a95))
                 (wrap64 (Z.shiftl counter 32))) 0xf4cff3d3d1401e76.
Definition token_id (counter : Z) : bytes :=
  lit "t" ++ fmt08x counter ++ lit "r" ++ fmt08x (Z.land (token_mix counter) 0xffffffff).
Definition next_token_id (v : TokenVault) : TokenVault * bytes :=
  let counter := wrap64 (v_counter v + 1) in
  (mkVault (v_entries v) counter, token_id counter).

Definition store (v : TokenVault) (value : bytes) (class : DataClass) : TokenVault * bytes :=
  let '(v, id) := next_token_id v in
  (mkVault (<[id := mkVaultEntry value class]> (v_entries v)) (v_counter v), id).
Definition retrieve_entry (v : TokenVault) (id : bytes) : option VaultEntry := v_entries v !! id.
Definition retrieve (v : TokenVault) (id : bytes) : option bytes := v_value <$> v_entries v !! id.
Definition vault_len (v : TokenVault) : nat := size (v_entries v).
Definition vault_is_empty (v : TokenVault) : bool := bool_decide (v_entries v = ∅).
Definition vault_clear (v : TokenVault) : TokenVault := mkVault ∅ (v_counter v).

Example token_id_ex : token_id 1 = lit "t00000001rf66214e3".
Proof. vm_compute. reflexivity. Qed.

(** ** Tokenization *)

Record TokenizationConfig := mkTokConfig {
  t_enabled : bool;
  placeholder_prefix : bytes;
  preserve_approximate_length : bool;
  target_classes : list DataClass;
}.
Definition default_tok_config : TokenizationConfig :=
  mkTokConfig true (lit "TOKEN") false [].
Definition should_tokenize (config : TokenizationConfig) (c : DataClass) : bool :=
  if negb (is_sensitive c) then false else
  match target_classes config with
  | [] => true
  | cs => existsb (λ c', bool_decide (c' = c)) cs
  end.

Record TokenizedText := mkTokenized {
  t_text : bytes;
  t_tokens : list (bytes * bytes * DataClass);
  span_count : nat;
}.
Definition has_replacements (t : TokenizedText) : bool := (0 <? span_count t)%nat.
Definition untouched (text : bytes) : TokenizedText := mkTokenized text [] 0.

Definition build_placeholder (prefix id : bytes) (c : DataClass) : bytes :=
  lit "[" ++ prefix ++ lit ":" ++ id ++ lit ":" ++ lit (label c) ++ lit "]".

(** [sort_by_key(|span| Reverse(span.start))], which is stable. *)
Fixpoint insert_desc (m : ClassificationMatch) (l : list ClassificationMatch) :
    list ClassificationMatch :=
  match l with
  | [] => [m]
  | x :: l => if (m_start x <=? m_start m)%nat then m :: x :: l else x :: insert_desc m l
  end.
Definition sort_desc (l : list ClassificationMatch) : list ClassificationMatch :=
  foldr insert_desc [] l.

(** The deduplication loop; [last_start] is the start of the last kept span. *)
Fixpoint non_overlapping (last_start : option nat) (l : list ClassificationMatch) :
    list ClassificationMatch :=
  match l with
  | [] => []
  | m :: l =>
      let skip := match last_start with Some s => (s <? m_end m)%nat | None => false end in
      if skip then non_overlapping last_start l
      else m :: non_overlapping (Some (m_start m)) l
  end.

(** The replacement loop. *)
Fixpoint replace_spans (text prefix : bytes) (spans : list ClassificationMatch)
    (result : bytes) (introduced : list (bytes * bytes * DataClass)) (v : TokenVault) :
    Checked (TokenVault * (bytes * list (bytes * bytes * DataClass))) :=
  match spans with
  | [] => Ok (v, (result, introduced))
  | m :: spans =>
      let! original := slice text (m_start m) (m_end m) in
      let '(v, id) := store v original (data_class m) in
      let placeholder := build_placeholder prefix id (data_class m) in
      if is_char_boundary result (m_start m) && is_char_boundary result (m_end m) then
        replace_spans text prefix spans
          (take (m_start m) result ++ placeholder ++ drop (m_end m) result)
          (introduced ++ [(id, original, data_class m)]) v
      else replace_spans text prefix spans result introduced v
  end.

Definition target_spans (config : TokenizationConfig) (c : ClassificationResult) :
    list ClassificationMatch :=
  non_overlapping None
    (sort_desc (filter (λ m, should_tokenize config (data_class m) = true) (matches c))).

Definition tokenize_classified (text : bytes) (c : ClassificationResult)
    (config : TokenizationConfig) (v : TokenVault) : Checked (TokenVault * TokenizedText) :=
  if negb (t_enabled config) || negb (has_sensitive_content c) then Ok (v, untouched text) else
  match filter (λ m, should_tokenize config (data_class m) = true) (matches c) with
  | [] => Ok (v, untouched text)
  | _ =>
      let! r := replace_spans text (placeholder_prefix config) (target_spans config c) text [] v in
      let '(v, (result, introduced)) := r in
      Ok (v, mkTokenized result introduced (length introduced))
  end.

(** ** Identifiers are unique *)

Definition hex_value (l : bytes) : Z :=
  fold_left (λ acc b, acc * 16 + (if b <? 58 then b - 48 else b - 87)) l 0.

Lemma hex_value_snoc l b :
  hex_value (l ++ [b]) = hex_value l * 16 + (if b <? 58 then b - 48 else b - 87).
Proof. unfold hex_value. by rewrite fold_left_app. Qed.

Lemma hex_digit_value d : 0 ≤ d < 16 →
  (if hex_digit d <? 58 then hex_digit d - 48 else hex_digit d - 87) = d.
Proof.
  intros Hd. unfold hex_digit. destruct (Z.ltb_spec d 10).
  - destruct (Z.ltb_spec (48 + d) 58); lia.
  - destruct (Z.ltb_spec (87 + d) 58); lia.
Qed.

Lemma hex_digits_value n z : 0 ≤ z < 16 ^ Z.of_nat n → hex_value (hex_digits n z) = z.
Proof.
  revert z. induction n as [|n IH]; intros z Hz.
  { simpl in *. unfold hex_value. simpl. lia. }
  cbn [hex_digits]. rewrite hex_value_snoc.
  rewrite Nat2Z.inj_succ, Z.pow_succ_r in Hz by lia.
  rewrite IH by (split; [apply Z.div_pos; lia|apply Z.div_lt_upper_bound; lia]).
  rewrite hex_digit_value by (apply Z.mod_pos_bound; lia).
  pose proof (Z.div_mod z 16). lia.
Qed.

Lemma fmt08x_value z : u64_ok z → hex_value (fmt08x z) = z.
Proof.
  intros Hz. unfold fmt08x, hex_width.
  change (2 ^ 32) with 4294967296. change (2 ^ 36) with 68719476736.
  change (2 ^ 40) with 1099511627776. change (2 ^ 44) with 17592186044416.
  change (2 ^ 48) with 281474976710656. change (2 ^ 52) with 4503599627370496.
  change (2 ^ 56) with 72057594037927936. change (2 ^ 60) with 1152921504606846976.
  repeat match goal with |- context [z <? ?k] => destruct (Z.ltb_spec z k) end;
    (apply hex_digits_value; split; [width_lia|];
     match goal with |- _ < ?p => let q := eval vm_compute in p in change p with q end;
     width_lia).
Qed.

Definition not_r (b : Z) : Prop := b ≠ 114.
Lemma hex_digits_not_r n z : Forall not_r (hex_digits n z).
Proof.
  revert z. induction n as [|n IH]; intros z; [constructor|]. cbn [hex_digits].
  apply Forall_app. split; [apply IH|]. repeat constructor. unfold not_r, hex_digit.
  pose proof (Z.mod_pos_bound z 16). destruct (Z.ltb_spec (z mod 16) 10); lia.
Qed.

Lemma split_at_r l1 l2 s1 s2 :
  Forall not_r l1 → Forall not_r l2 → l1 ++ 114 :: s1 = l2 ++ 114 :: s2 → l1 = l2.
Proof.
  intros H1. revert l2. induction H1 as [|b l1 Hb _ IH]; intros l2 H2 Heq.
  - destruct l2 as [|b2 l2]; [done|]. apply Forall_cons in H2 as [Hb2 _].
    simpl in Heq. simplify_eq. done.
  - destruct l2 as [|b2 l2].
    { simpl in Heq. injection Heq as Heq _. by destruct Hb. }
    apply Forall_cons in H2 as [_ H2]. injection Heq as -> Heq. f_equal. by apply IH.
Qed.

Lemma token_id_inj c c' : u64_ok c → u64_ok c' → token_id c = token_id c' → c = c'.
Proof.
  intros Hc Hc' Heq. unfold token_id in Heq. change (lit "t") with [116] in Heq.
  change (lit "r") with [114] in Heq. simpl in Heq. injection Heq as Heq.
  apply split_at_r in Heq; [|apply hex_digits_not_r..].
  rewrite <- (fmt08x_value c Hc), <- (fmt08x_value c' Hc'). by rewrite Heq.
Qed.

(** Every stored identifier belongs to an earlier counter value. *)
Definition vault_ok (v : TokenVault) : Prop :=
  0 ≤ v_counter v ∧
  ∀ id e, v_entries v !! id = Some e → ∃ k, 0 < k ≤ v_counter v ∧ id = token_id k.

Lemma vault_new_ok : vault_ok vault_new.
Proof. split; [done|]. intros id e. simpl. by rewrite lookup_empty. Qed.

Lemma store_spec v value class :
  vault_ok v → v_counter v < u64_max →
  let '(v', id) := store v value class in
  vault_ok v' ∧ v_counter v' = v_counter v + 1 ∧ id = token_id (v_counter v + 1)
  ∧ v_entries v !! id = None
  ∧ v_entries v' = <[id := mkVaultEntry value class]> (v_entries v).
Proof.
  intros [H0 Hids] Hlt. unfold store, next_token_id.
  assert (Hw : wrap64 (v_counter v + 1) = v_counter v + 1) by (apply wrap64_small; width_lia).
  simpl. rewrite Hw.
  assert (Hfresh : v_entries v !! token_id (v_counter v + 1) = None).
  { destruct (v_entries v !! _) as [e|] eqn:E; [|done].
    apply Hids in E as (k & Hk & Heq). apply token_id_inj in Heq; width_lia. }
  split_and!; try done. split; simpl; [lia|]. intros id e. rewrite lookup_insert. case_decide.
  - intros [= <-]. subst id. exists (v_counter v + 1). split; [lia|done].
  - intros (k & Hk & ->)%Hids. exists k. split; [lia|done].
Qed.

(** ** What replacing back to front does *)

(** The text from [pos] to [stop] with the given spans (in increasing order)
    replaced. *)
Fixpoint render (text : bytes) (pos : nat) (l : list (nat * nat * bytes)) (stop : nat) : bytes :=
  match l with
  | [] => sub text pos stop
  | (st, en, by_) :: l => sub text pos st ++ by_ ++ render text en l stop
  end.

Lemma render_snoc text pos l x stop :
  render text pos (l ++ [x]) stop = render text pos l x.1.1 ++ x.2 ++ sub text x.1.2 stop.
Proof.
  destruct x as [[st en] by_]. revert pos. induction l as [|[[s e] b] l IH]; intros pos; simpl; [done|].
  by rewrite IH, <- !app_assoc.
Qed.

Lemma sub_app text a b c : (a ≤ b ≤ c)%nat → sub text a b ++ sub text b c = sub text a c.
Proof.
  intros Hab. unfold sub. replace (c - a)%nat with ((b - a) + (c - b))%nat by lia.
  rewrite <- take_take_drop, drop_drop. repeat f_equal. lia.
Qed.

(** Spans in decreasing order, each ending where the previous one starts or
    before. *)
Fixpoint descending (hi : nat) (l : list ClassificationMatch) : Prop :=
  match l with
  | [] => True
  | m :: l => (m_start m ≤ m_end m ≤ hi)%nat ∧ descending (m_start m) l
  end.

Lemma boundary_splice text rest hi i :
  (i ≤ hi ≤ length text)%nat → is_char_boundary text i = true →
  (rest = [] ∧ hi = length text) ∨ head rest = Some 91 →
  is_char_boundary (take hi text ++ rest) i = true.
Proof.
  intros Hi Hb Hrest. unfold is_char_boundary in *.
  destruct (decide (i = hi)) as [->|Hne].
  - destruct Hrest as [[-> ->]|Hh]; [by rewrite app_nil_r, take_ge by lia|].
    rewrite lookup_app_r by (rewrite length_take; lia).
    rewrite length_take, Nat.min_l, Nat.sub_diag by lia.
    destruct rest as [|b rest]; [done|]. injection Hh as ->. simpl. by rewrite orb_true_r.
  - rewrite lookup_app_l, lookup_take_lt by (rewrite ?length_take; lia).
    rewrite !orb_true_iff, !Nat.eqb_eq in *. destruct Hb as [[?|?]|?]; [auto|lia|auto].
Qed.

Lemma splice text rest hi st en ph :
  (st ≤ en ≤ hi)%nat → (hi ≤ length text)%nat →
  take st (take hi text ++ rest) ++ ph ++ drop en (take hi text ++ rest)
  = take st text ++ (ph ++ sub text en hi ++ rest).
Proof.
  intros H1 H2. rewrite take_app_le, take_take, Nat.min_l by (rewrite ?length_take; lia).
  rewrite drop_app_le by (rewrite length_take; lia).
  unfold sub. by rewrite skipn_firstn_comm.
Qed.

Lemma head_placeholder prefix id c l : head (build_placeholder prefix id c ++ l) = Some 91.
Proof. reflexivity. Qed.

(** The tokens that a vault whose counter is [k] issues for [spans]. *)
Fixpoint issued (text : bytes) (k : Z) (spans : list ClassificationMatch) :
    list (bytes * bytes * DataClass) :=
  match spans with
  | [] => []
  | m :: spans =>
      (token_id (k + 1), sub text (m_start m) (m_end m), data_class m)
      :: issued text (k + 1) spans
  end.
Definition placed (prefix : bytes) (m : ClassificationMatch) (t : bytes * bytes * DataClass) :
    nat * nat * bytes :=
  (m_start m, m_end m, build_placeholder prefix t.1.1 t.2).
Definition originals (m : ClassificationMatch) (t : bytes * bytes * DataClass) :
    nat * nat * bytes :=
  (m_start m, m_end m, t.1.2).

Definition sliceable (text : bytes) (m : ClassificationMatch) : Prop :=
  slice text (m_start m) (m_end m) = Ok (sub text (m_start m) (m_end m)).

Lemma sliceable_iff text m :
  sliceable text m ↔ (m_start m ≤ m_end m)%nat ∧ is_char_boundary text (m_start m) = true
                     ∧ is_char_boundary text (m_end m) = true.
Proof.
  unfold sliceable, slice. destruct (Nat.ltb_spec (m_end m) (m_start m)).
  { split; [done|]. intros [? _]. lia. }
  destruct (is_char_boundary text (m_start m)), (is_char_boundary text (m_end m)); simpl;
    split; naive_solver.
Qed.

Lemma replace_spans_spec text prefix spans : ∀ hi rest introduced v,
  descending hi spans → (hi ≤ length text)%nat → Forall (sliceable text) spans →
  (rest = [] ∧ hi = length text) ∨ head rest = Some 91 →
  vault_ok v → v_counter v + Z.of_nat (length spans) ≤ u64_max →
  ∃ v', replace_spans text prefix spans (take hi text ++ rest) introduced v
        = Ok (v', (render text 0 (reverse (zip_with (placed prefix) spans
                                    (issued text (v_counter v) spans))) hi ++ rest,
                   introduced ++ issued text (v_counter v) spans))
    ∧ vault_ok v' ∧ v_counter v' = v_counter v + Z.of_nat (length spans)
    ∧ v_entries v ⊆ v_entries v'
    ∧ Forall (λ t, v_entries v' !! t.1.1 = Some (mkVaultEntry t.1.2 t.2))
        (issued text (v_counter v) spans).
Proof.
  induction spans as [|m spans IH]; intros hi rest introduced v Hd Hhi Hs Hrest Hv Hc.
  { exists v. cbn -[Z.add]. rewrite app_nil_r. unfold sub.
    rewrite drop_0, Nat.sub_0_r, Z.add_0_r. split_and!; try done; apply Hv. }
  destruct Hd as [Hm Hd]. apply Forall_cons in Hs as [Hsl Hs].
  pose proof (proj1 (sliceable_iff _ _) Hsl) as (_ & Hb1 & Hb2).
  cbn [replace_spans]. unfold sliceable in Hsl. rewrite Hsl. cbn [bind].
  pose proof (store_spec v (sub text (m_start m) (m_end m)) (data_class m) Hv
    ltac:(cbn [length] in Hc; lia)) as Hst.
  destruct (store v _ _) as [v1 id]. destruct Hst as (Hv1 & Hc1 & -> & Hfresh & Hins).
  rewrite !boundary_splice by (done || lia). cbn [andb]. rewrite splice by lia.
  destruct (IH (m_start m)
    (build_placeholder prefix (token_id (v_counter v + 1)) (data_class m)
       ++ sub text (m_end m) hi ++ rest)
    (introduced ++ [(token_id (v_counter v + 1), sub text (m_start m) (m_end m), data_class m)])
    v1) as (v' & Heq & Hv' & Hc' & Hsub & Hall); try done; try lia.
  { right. apply head_placeholder. }
  { rewrite Hc1. cbn [length] in Hc. lia. }
  exists v'. rewrite Heq. cbn [issued zip_with]. rewrite Hc1 in *.
  rewrite reverse_cons, render_snoc, <- !app_assoc. cbn [placed fst snd].
  split_and!; try done.
  - cbn [length]. lia.
  - etrans; [|exact Hsub]. rewrite Hins. by apply insert_subseteq.
  - constructor; [|done]. cbn [fst snd]. eapply lookup_weaken; [|exact Hsub].
    rewrite Hins. by rewrite lookup_insert_eq.
Qed.

(** ** Which spans are kept *)

Lemma elem_of_insert_desc m l x : x ∈ insert_desc m l ↔ x = m ∨ x ∈ l.
Proof.
  induction l as [|y l IH]; cbn [insert_desc]; [by rewrite !elem_of_cons|].
  destruct (m_start y <=? m_start m)%nat; rewrite !elem_of_cons; [done|]. rewrite IH. tauto.
Qed.
Lemma elem_of_sort_desc l x : x ∈ sort_desc l ↔ x ∈ l.
Proof.
  induction l as [|y l IH]; [done|]. cbn [sort_desc foldr].
  by rewrite elem_of_insert_desc, elem_of_cons, <- IH.
Qed.

Definition starts_ge (a b : ClassificationMatch) : Prop := (m_start b ≤ m_start a)%nat.
Lemma sort_desc_sorted l : pairwise starts_ge (sort_desc l).
Proof.
  induction l as [|m l IH]; [done|]. cbn [sort_desc foldr].
  fold (sort_desc l). revert IH. generalize (sort_desc l). clear l.
  induction l as [|y l IH]; cbn [insert_desc]; [by repeat constructor|].
  intros [Hy Hl]. destruct (Nat.leb_spec (m_start y) (m_start m)) as [Hle|Hgt].
  - split; [|by split]. constructor; [done|]. eapply Forall_impl; [exact Hy|].
    unfold starts_ge. simpl. lia.
  - split; [|by apply IH]. apply Forall_forall. intros x [->|Hx]%elem_of_insert_desc.
    + unfold starts_ge. lia.
    + rewrite Forall_forall in Hy. by apply Hy.
Qed.

Lemma non_overlapping_sub last l x : x ∈ non_overlapping last l → x ∈ l.
Proof.
  revert last. induction l as [|m l IH]; intros last; [done|]. cbn [non_overlapping].
  destruct (match last with Some s => _ | None => _ end).
  - intros Hx. apply elem_of_cons. right. by eapply IH.
  - rewrite !elem_of_cons. intros [->|Hx]; [by left|]. right. by eapply IH.
Qed.

Lemma non_overlapping_descending text last l :
  Forall (sliceable text) l →
  descending (match last with Some s => s | None => length text end) (non_overlapping last l).
Proof.
  revert last. induction l as [|m l IH]; intros last; [done|].
  intros [Hm Hl]%Forall_cons. cbn [non_overlapping].
  apply sliceable_iff in Hm as (Hse & _ & He%boundary_le).
  destruct last as [s|].
  - destruct (Nat.ltb_spec s (m_end m)); [by apply (IH (Some s))|].
    split; [lia|]. by apply (IH (Some (m_start m))).
  - split; [lia|]. by apply (IH (Some (m_start m))).
Qed.

(** A skipped span has a kept span starting inside it. *)
Lemma non_overlapping_covers last l m :
  pairwise starts_ge l → (∀ s x, last = Some s → x ∈ l → (m_start x ≤ s)%nat) → m ∈ l →
  m ∈ non_overlapping last l
  ∨ (∃ s, last = Some s ∧ (m_start m ≤ s < m_end m)%nat)
  ∨ ∃ k, k ∈ non_overlapping last l ∧ (m_start m ≤ m_start k < m_end m)%nat.
Proof.
  revert last. induction l as [|y l IH]; intros last Hpw Hlast Hm; [by apply elem_of_nil in Hm|].
  destruct Hpw as [Hy Hpw]. rewrite Forall_forall in Hy. cbn [non_overlapping].
  destruct (match last with Some s => (s <? m_end y)%nat | None => false end) eqn:Eskip.
  - destruct last as [s|]; [|done]. apply Nat.ltb_lt in Eskip.
    apply elem_of_cons in Hm as [->|Hm].
    + right. left. exists s. split; [done|]. split; [|done]. apply (Hlast s y); [done|].
      apply elem_of_cons. by left.
    + apply IH; [done| |done]. intros s' x Hs' Hx. apply (Hlast s' x); [done|].
      apply elem_of_cons. by right.
  - apply elem_of_cons in Hm as [->|Hm]; [left; apply elem_of_cons; by left|].
    destruct (IH (Some (m_start y))) as [Hin|[(s & [= <-] & Hs)|(k & Hk & Hks)]]; try done.
    + intros s x [= <-] Hx. by apply Hy.
    + left. apply elem_of_cons. by right.
    + right. right. exists y. split; [apply elem_of_cons; by left|done].
    + right. right. exists k. split; [apply elem_of_cons; by right|done].
Qed.

Lemma issued_ids text k spans :
  issued text k spans =
  imap (λ i m, (token_id (k + 1 + Z.of_nat i), sub text (m_start m) (m_end m), data_class m)) spans.
Proof.
  revert k. induction spans as [|m spans IH]; intros k; [done|].
  cbn [issued imap]. rewrite Z.add_0_r, IH. f_equal. apply imap_ext. intros i x _.
  simpl. do 3 f_equal. lia.
Qed.

Lemma issued_fresh text v spans :
  vault_ok v → v_counter v + Z.of_nat (length spans) ≤ u64_max →
  NoDup (issued text (v_counter v) spans).*1.*1
  ∧ Forall (λ t, v_entries v !! t.1.1 = None) (issued text (v_counter v) spans).
Proof.
  intros [H0 Hids] Hc. rewrite issued_ids. split.
  - apply NoDup_alt. intros i j x.
    rewrite !list_lookup_fmap, !list_lookup_imap. intros Hi Hj.
    destruct (spans !! i) as [mi|] eqn:Ei; [|done]. destruct (spans !! j) as [mj|] eqn:Ej; [|done].
    simpl in Hi, Hj. apply lookup_lt_Some in Ei, Ej.
    assert (Heq : token_id (v_counter v + 1 + Z.of_nat i) = token_id (v_counter v + 1 + Z.of_nat j))
      by congruence.
    apply token_id_inj in Heq; width_lia.
  - apply Forall_lookup. intros i x. rewrite list_lookup_imap.
    destruct (spans !! i) as [mi|] eqn:Ei; [|done]. simpl. intros [= <-]. simpl.
    apply lookup_lt_Some in Ei. destruct (v_entries v !! _) as [e|] eqn:E; [|done].
    apply Hids in E as (k & Hk & Heq). apply token_id_inj in Heq; width_lia.
Qed.

Lemma render_originals text k spans hi :
  descending hi spans → (hi ≤ length text)%nat →
  render text 0 (reverse (zip_with originals spans (issued text k spans))) hi = take hi text.
Proof.
  revert k hi. induction spans as [|m spans IH]; intros k hi Hd Hhi.
  { cbn. unfold sub. by rewrite drop_0, Nat.sub_0_r. }
  destruct Hd as [Hm Hd]. cbn [issued zip_with]. rewrite reverse_cons, render_snoc.
  cbn [originals fst snd]. rewrite IH by (done || lia).
  rewrite sub_app by lia. change (take (m_start m) text) with (take (m_start m) (drop 0 text)).
  replace (m_start m) with (m_start m - 0)%nat at 1 by lia. fold (sub text 0 (m_start m)).
  rewrite sub_app by lia. unfold sub. by rewrite drop_0, Nat.sub_0_r.
Qed.

Lemma match_ok_sliceable text m : match_ok text m → sliceable text m.
Proof. intros (Hs & _). unfold sliceable. rewrite Hs. by apply slice_Ok in Hs as [_ ->]. Qed.

Lemma elem_of_target_spans config c m :
  m ∈ target_spans config c → m ∈ matches c ∧ should_tokenize config (data_class m) = true.
Proof.
  intros Hm%non_overlapping_sub. apply elem_of_sort_desc, list_elem_of_filter in Hm. tauto.
Qed.

Lemma non_overlapping_length last l : (length (non_overlapping last l) ≤ length l)%nat.
Proof.
  revert last. induction l as [|m l IH]; intros o; [done|]. cbn [non_overlapping].
  destruct (match o with Some s => _ | None => _ end); simpl.
  - specialize (IH o). lia.
  - specialize (IH (Some (m_start m))). lia.
Qed.

Lemma sort_desc_length l : length (sort_desc l) = length l.
Proof.
  induction l as [|m l IH]; [done|]. cbn [sort_desc foldr]. fold (sort_desc l). simpl.
  rewrite <- IH. generalize (sort_desc l). clear. intros l.
  induction l as [|y l IH]; simpl; [lia|]. destruct (m_start y <=? m_start m)%nat; simpl; lia.
Qed.

Lemma target_spans_length config c : (length (target_spans config c) ≤ length (matches c))%nat.
Proof.
  unfold target_spans. etrans; [apply non_overlapping_length|]. rewrite sort_desc_length.
  apply length_filter.
Qed.

(** On what the classifier returns, the two early returns change nothing. *)
Lemma tokenize_run wide text cc c config v :
  classify_text wide text cc = Ok c → t_enabled config = true →
  tokenize_classified text c config v =
  (let! r := replace_spans text (placeholder_prefix config) (target_spans config c) text [] v in
   Ok (r.1, mkTokenized r.2.1 r.2.2 (length r.2.2))).
Proof.
  intros Hc Hen. pose proof (classify_sensitive_iff _ _ _ _ Hc) as Hs.
  unfold tokenize_classified. rewrite Hen. cbn [negb orb].
  assert (Hnil : filter (λ m, should_tokenize config (data_class m) = true) (matches c) = [] →
                 target_spans config c = []) by (intros E; unfold target_spans; by rewrite E).
  destruct (has_sensitive_content c); cbn [negb].
  - destruct (filter _ _) eqn:E; [by rewrite Hnil|].
    by destruct (replace_spans _ _ _ _ _ _) as [[v' [res intro]]|].
  - destruct (matches c) as [|m l]; [|by specialize (proj2 Hs ltac:(done))].
    by rewrite Hnil.
Qed.

Lemma target_spans_sliceable text config c :
  Forall (match_ok text) (matches c) →
  Forall (sliceable text) (target_spans config c)
  ∧ descending (length text) (target_spans config c).
Proof.
  intros Hms. rewrite Forall_forall in Hms. split.
  - apply Forall_forall. intros m [Hm _]%elem_of_target_spans. by apply match_ok_sliceable, Hms.
  - apply (non_overlapping_descending text None). apply Forall_forall.
    intros m Hm. apply elem_of_sort_desc, list_elem_of_filter in Hm as [_ Hm].
    by apply match_ok_sliceable, Hms.
Qed.

Lemma target_spans_cover config c m :
  m ∈ matches c → should_tokenize config (data_class m) = true →
  ∃ k, k ∈ target_spans config c ∧ (k = m ∨ (m_start m ≤ m_start k < m_end m)%nat).
Proof.
  intros Hm Hst.
  destruct (non_overlapping_covers None
    (sort_desc (filter (λ m, should_tokenize config (data_class m) = true) (matches c))) m)
    as [Hin|[(s & ? & _)|(k & Hk & Hks)]]; try done.
  - apply sort_desc_sorted.
  - by apply elem_of_sort_desc, list_elem_of_filter.
  - exists m. split; [done|by left].
  - exists k. split; [done|by right].
Qed.

(** The tokenizer is exact on whatever the classifier returns: it never
    panics; its text is the input with each kept span replaced by the
    placeholder of a token and nothing else changed (putting the originals back
    gives the input); the tokens are pairwise distinct and new to the vault,
    each retrieves its original value and class afterwards, and what the vault
    held before is kept; the kept spans are targeted matches, and every
    targeted match is kept or has a kept span starting inside it. *)
Theorem tokenize_exact (wide : bytes → bool) (text : bytes) (cc : DataClassificationConfig)
    (c : ClassificationResult) (config : TokenizationConfig) (v : TokenVault) :
  classify_text wide text cc = Ok c → t_enabled config = true →
  vault_ok v → v_counter v + Z.of_nat (length (matches c)) ≤ u64_max →
  ∃ v' t, tokenize_classified text c config v = Ok (v', t)
    ∧ let spans := target_spans config c in
      length (t_tokens t) = length spans ∧ span_count t = length spans
      ∧ t_text t = render text 0
          (reverse (zip_with (placed (placeholder_prefix config)) spans (t_tokens t))) (length text)
      ∧ render text 0 (reverse (zip_with originals spans (t_tokens t))) (length text) = text
      ∧ NoDup (t_tokens t).*1.*1
      ∧ Forall (λ tok, retrieve_entry v tok.1.1 = None
                       ∧ retrieve_entry v' tok.1.1 = Some (mkVaultEntry tok.1.2 tok.2)) (t_tokens t)
      ∧ v_entries v ⊆ v_entries v' ∧ vault_ok v'
      ∧ (∀ m, m ∈ spans → m ∈ matches c ∧ should_tokenize config (data_class m) = true)
      ∧ (∀ m, m ∈ matches c → should_tokenize config (data_class m) = true →
           ∃ k, k ∈ spans ∧ (k = m ∨ (m_start m ≤ m_start k < m_end m)%nat)).
Proof.
  intros Hc Hen Hv Hlen. pose proof (target_spans_length config c) as Hle.
  destruct (target_spans_sliceable text config c (classify_matches_ok _ _ _ _ Hc)) as [Hsp Hd].
  destruct (replace_spans_spec text (placeholder_prefix config) _ (length text) [] [] v
    Hd (Nat.le_refl _) Hsp ltac:(by left) Hv ltac:(lia)) as (v' & Heq & Hv' & _ & Hsub & Hall).
  destruct (issued_fresh text v (target_spans config c) Hv ltac:(lia)) as [Hnd Hfresh].
  rewrite take_ge, !app_nil_r in Heq by done. rewrite app_nil_l in Heq.
  exists v'. eexists. rewrite (tokenize_run _ _ _ _ _ _ Hc Hen), Heq. split; [reflexivity|].
  cbn zeta. cbn [t_tokens span_count t_text fst snd].
  assert (Hil : length (issued text (v_counter v) (target_spans config c))
                = length (target_spans config c)) by (rewrite issued_ids; apply length_imap).
  split_and!; try done.
  - rewrite render_originals by done. by apply take_ge.
  - rewrite Forall_forall in Hfresh, Hall |- *. intros tok Ht. split; [by apply Hfresh|by apply Hall].
  - intros m. apply elem_of_target_spans.
  - intros m. apply target_spans_cover.
Qed.

(** The demonstration text of the classifier, tokenized from an empty vault. *)
Lemma tokenize_exact_witness :
  ∃ v' t, tokenize_classified demo_text demo_result default_tok_config vault_new = Ok (v', t)
    ∧ span_count t = 2%nat
    ∧ t_text t = lit "ssn [TOKEN:t00000002r9f040b5c:PHI], card [TOKEN:t00000001rf66214e3:FINANCIAL]".
Proof.
  destruct (tokenize_exact no_wide demo_text default_class_config demo_result default_tok_config
    vault_new) as (v' & t & Hrun & _).
  - vm_compute. reflexivity.
  - reflexivity.
  - apply vault_new_ok.
  - vm_compute. discriminate.
  - exists v', t. split; [exact Hrun|]. vm_compute in Hrun. injection Hrun as <- <-.
    split; vm_compute; reflexivity.
Defined.

(** An API key whose last part is an e-mail address. *)
Definition leak_text : bytes := lit "sk-AAAAAAAAAAAAAAAAAAAA/secret=foo@bar.com".

(** The span kept among overlapping ones is the one that starts last, not
    the one of highest priority: although the classifier reports the whole key,
    even a configuration that ranks keys first replaces the e-mail address
    inside it only, and the rest of the key stays in the text in clear. *)
Theorem tokenize_keeps_inner_span :
  ∃ c v t,
    classify_text no_wide leak_text
      {| enabled := true; phi_detection := true; pii_detection := true;
         financial_detection := true; ip_detection := true;
         priority_order := [IntellectualProperty; SensitivePii] |} = Ok c
    ∧ dominant_class c = IntellectualProperty
    ∧ (∃ key, key ∈ matches c ∧ data_class key = IntellectualProperty ∧ matched_text key = leak_text)
    ∧ tokenize_classified leak_text c default_tok_config vault_new = Ok (v, t)
    ∧ t_text t = lit "sk-AAAAAAAAAAAAAAAAAAAA/secret=[TOKEN:t00000001rf66214e3:PII]".
Proof.
  do 3 eexists. split; [vm_compute; reflexivity|]. split; [reflexivity|]. split.
  - eexists. split; [apply elem_of_cons; left; reflexivity|]. split; reflexivity.
  - split; vm_compute; reflexivity.
Qed.

(** A cleared vault forgets every value and never issues a used identifier
    again. *)
Lemma clear_store_fresh v value class :
  vault_ok v → v_counter v < u64_max →
  vault_len (vault_clear v) = 0%nat
  ∧ let '(v', id) := store (vault_clear v) value class in
    retrieve v id = None ∧ retrieve v' id = Some value ∧ vault_len v' = 1%nat.
Proof.
  intros Hv Hlt. pose proof (store_spec v value class Hv Hlt) as Hs.
  split; [apply map_size_empty|]. unfold store, next_token_id in *. simpl in *.
  destruct Hs as (_ & _ & _ & Hnone & _). unfold retrieve, vault_len. simpl.
  rewrite Hnone, lookup_insert_eq, map_size_insert_None, map_size_empty by apply lookup_empty.
  done.
Qed.
