(* ===== verification/EventWal.v ===== *)
(** * EventWal: the segmented event log on disk (src/src/gateway/event_wal.rs)

    The directory of the log is a map from file names to nodes, the quarantine
    directory a map from file names to documents.  A segment is a file of
    newline-terminated records.  [serde_json], [crc32fast] and the clock are
    outside the repository: the text of records, payloads and checkpoints is
    the interface [WalCodec], the time stamp an argument.  The model's file
    system answers every call; the write of a record may fail after any
    prefix, with or without a successful truncation ([WriteOutcome]). *)

From Stdlib Require Import ZArith Ascii String.
From stdpp Require Import base gmap strings list sorting.
From S2P Require Import Prelude Text.

Local Open Scope Z_scope.

Abbreviation bytes := (list Z).
Definition blen (b : bytes) : Z := Z.of_nat (length b).

(** ** Constants and configuration *)

Definition DEFAULT_TOTAL_BYTES : Z := 1073741824.
Definition MAX_TOTAL_BYTES : Z := 10737418240.
Definition DEFAULT_SEGMENT_BYTES : Z := 16777216.
Definition MAX_SEGMENT_BYTES : Z := 67108864.
Definition DEFAULT_DELIVERY_POOL : Z := 4.
Definition MAX_DELIVERY_POOL : Z := 32.
Definition DEFAULT_FS_POOL : Z := 2.
Definition MAX_FS_POOL : Z := 8.
Definition MAX_DURABLE_EVENT_BYTES : Z := 262144.
Definition MAX_DURABLE_EVENTS_PER_REQUEST : nat := 8.
Definition DURABLE_REQUEST_RESERVATION_BYTES : Z :=
  MAX_DURABLE_EVENT_BYTES * Z.of_nat MAX_DURABLE_EVENTS_PER_REQUEST.

Record WalConfig := mkWalConfig {
  total_bytes : Z;
  segment_bytes : Z;
  delivery_pool : Z;
  fs_pool : Z;
}.

Inductive WalConfigError :=
| NotAnInteger
| NotUnicode
| TotalBytesRange (got : Z)
| SegmentBytesRange (got : Z)
| SegmentExceedsTotal
| DeliveryPoolRange (got : Z)
| FsPoolRange (got : Z).

Definition validate (c : WalConfig) : Result unit WalConfigError :=
  if (total_bytes c =? 0) || (MAX_TOTAL_BYTES <? total_bytes c)
  then Err (TotalBytesRange (total_bytes c)) else
  if (segment_bytes c =? 0) || (MAX_SEGMENT_BYTES <? segment_bytes c)
  then Err (SegmentBytesRange (segment_bytes c)) else
  if total_bytes c <? segment_bytes c then Err SegmentExceedsTotal else
  if (delivery_pool c =? 0) || (MAX_DELIVERY_POOL <? delivery_pool c)
  then Err (DeliveryPoolRange (delivery_pool c)) else
  if (fs_pool c =? 0) || (MAX_FS_POOL <? fs_pool c)
  then Err (FsPoolRange (fs_pool c)) else
  Ok tt.

(** [std::env::var]: present, absent, or not Unicode. *)
Inductive EnvVar := EnvPresent (value : string) | EnvNotPresent | EnvNotUnicode.

(** [WalConfig::new], on the value of [VERDICTAN_EVENT_WAL_MAX_BYTES]. *)
Definition wal_config_new (var : EnvVar) : Result WalConfig WalConfigError :=
  let finish total :=
    let c := {| total_bytes := total;
                segment_bytes := Z.min DEFAULT_SEGMENT_BYTES total;
                delivery_pool := DEFAULT_DELIVERY_POOL;
                fs_pool := DEFAULT_FS_POOL |} in
    match validate c with Ok _ => Ok c | Err e => Err e end in
  match var with
  | EnvPresent value =>
      match parse_u64 value with Some n => finish n | None => Err NotAnInteger end
  | EnvNotPresent => finish DEFAULT_TOTAL_BYTES
  | EnvNotUnicode => Err NotUnicode
  end.

(** ** Records, checkpoints and their text *)

Record WalRecord (Payload : Type) := mkRecord {
  event_id : string;
  timestamp : string;
  segment : Z;
  offset : Z;
  checksum : Z;
  payload : Payload;
}.
Arguments mkRecord {Payload}.
Arguments event_id {Payload}.
Arguments timestamp {Payload}.
Arguments segment {Payload}.
Arguments offset {Payload}.
Arguments checksum {Payload}.
Arguments payload {Payload}.

Record Checkpoint := mkCheckpoint {
  cp_segment : Z;
  cp_offset : Z;
  acknowledged_count : Z;
}.
Definition default_checkpoint : Checkpoint := mkCheckpoint 0 0 0.

(** The text formats of [serde_json] and the hash of [crc32fast]. *)
Class WalCodec := {
  Payload : Type;
  payload_to_vec : Payload → option bytes;
  crc32 : bytes → Z;
  record_to_vec : WalRecord Payload → option bytes;
  record_from_slice : bytes → option (WalRecord Payload);
  checkpoint_to_string : Checkpoint → option bytes;
  checkpoint_from_str : bytes → option Checkpoint;
}.

(** Compact JSON has no raw newline (control characters are escaped), and a
    struct of three integers prints and reads back. *)
Class WalCodecLaws `{WalCodec} : Prop := {
  record_no_newline : ∀ r b, record_to_vec r = Some b → 10 ∉ b;
  checkpoint_prints : ∀ c, is_Some (checkpoint_to_string c);
  checkpoint_reads : ∀ c b,
    u64_ok (cp_segment c) → u64_ok (cp_offset c) → u64_ok (acknowledged_count c) →
    checkpoint_to_string c = Some b → checkpoint_from_str b = Some c;
}.

(** A payload the text format keeps: records that carry it read back as they
    were.  [serde_json] without [float_roundtrip] does not keep every float. *)
Definition faithful `{WalCodec} (p : Payload) : Prop :=
  ∀ r b, payload r = p → record_to_vec r = Some b → record_from_slice b = Some r.

Inductive WalError :=
| InvalidConfig (error : WalConfigError)
| ByteCountOverflow
| RecordCountOverflow
| OccupancyOverflow
| ReservationUnsatisfied
| ForeignReservation
| EventCountExceeded
| EncodeFailed
| EventTooLarge
| EventExceedsSegment
| ReservationExhausted
| WalFull
| WriteFailed
| NotRegularFile
| FileMissing
| OffsetPastEnd
| NotRecordBoundary
| MissingSegment
| CheckpointInvalid
| AckBackwards
| AckCountOverflow
| TruncatedRecord (at_segment at_offset : Z)
| InvalidRecord (at_segment at_offset : Z)
| PositionMismatch (at_segment at_offset : Z)
| ChecksumMismatch (at_segment at_offset : Z).

(** ** The directory *)

Inductive Node := Regular (content : bytes) | Directory.

Section wal.
Context `{WalCodec}.
Abbreviation Record_ := (WalRecord Payload).

Inductive QuarantineDoc :=
| Corrupt (doc_segment doc_offset : Z) (reason : string) (raw_record : bytes)
| Permanent (record : Record_) (status : Z) (response_body : string).

Record Disk := mkDisk {
  files : gmap string Node;
  quarantine : gmap string QuarantineDoc;
}.

Definition checked_add64 (a b : Z) : option Z :=
  if a + b <=? u64_max then Some (a + b) else None.

(** ** Names of segments *)

(** Decimal digits of a non-negative number, in front of [acc]; [fuel] bounds
    the number of digits. *)
Definition digit (n : Z) : ascii := ascii_of_N (Z.to_N (48 + n)).
Fixpoint digits (fuel : nat) (n : Z) (acc : string) : string :=
  match fuel with
  | O => acc
  | S fuel =>
      let acc := String (digit (n mod 10)) acc in
      if n / 10 =? 0 then acc else digits fuel (n / 10) acc
  end.
Fixpoint zeros (n : nat) (s : string) : string :=
  match n with O => s | S n => String "0" (zeros n s) end.
(** [format!("{:0width}", n)] of a [u64], which has at most 20 digits. *)
Definition pad (width : nat) (n : Z) : string :=
  let s := digits 20 n EmptyString in zeros (width - String.length s) s.

Definition segment_path (n : Z) : string :=
  ("segment-" +:+ pad 10 n +:+ ".wal")%string.

(** [str::strip_prefix] and [str::strip_suffix]. *)
Fixpoint strip_prefix (p s : string) : option string :=
  match p, s with
  | EmptyString, _ => Some s
  | String a p, String b s => if Ascii.eqb a b then strip_prefix p s else None
  | _, _ => None
  end.
Fixpoint strip_suffix (p s : string) : option string :=
  if String.eqb s p then Some EmptyString else
  match s with
  | EmptyString => None
  | String a s => String a <$> strip_suffix p s
  end.

Definition parse_segment_number (name : string) : option Z :=
  match strip_prefix "segment-" name with
  | None => None
  | Some value =>
      match strip_suffix ".wal" value with
      | None => None
      | Some value => parse_u64 value
      end
  end.

(** [segment_files]: the entries whose name is a segment's, sorted by number;
    fails when one of them is not a regular file. *)
Definition segment_entries (d : Disk) : list (Z * (string * Node)) :=
  omap (λ e, (λ s, (s, e)) <$> parse_segment_number e.1) (map_to_list (files d)).
Definition is_regular (n : Node) : bool :=
  match n with Regular _ => true | Directory => false end.
Definition by_segment : relation (Z * string) := λ a b, a.1 ≤ b.1.
#[export] Instance by_segment_dec : RelDecision by_segment.
Proof. intros a b. unfold by_segment. apply _. Defined.
Definition segment_files (d : Disk) : Result (list (Z * string)) WalError :=
  if forallb (λ e : Z * (string * Node), is_regular e.2.2) (segment_entries d)
  then Ok (merge_sort by_segment
             ((λ e : Z * (string * Node), (e.1, e.2.1)) <$> segment_entries d))
  else Err NotRegularFile.

Definition read_file (d : Disk) (name : string) : Result bytes WalError :=
  match files d !! name with
  | Some (Regular b) => Ok b
  | Some Directory => Err NotRegularFile
  | None => Err FileMissing
  end.
Definition write_file (d : Disk) (name : string) (b : bytes) : Disk :=
  {| files := <[name := Regular b]> (files d); quarantine := quarantine d |}.

(** [segment_files(dir)?.try_fold(0, |total, (_, path)| ...)]. *)
Fixpoint sum_sizes (d : Disk) (total : Z) (l : list (Z * string)) : Result Z WalError :=
  match l with
  | [] => Ok total
  | (_, path) :: l =>
      match read_file d path with
      | Err e => Err e
      | Ok b =>
          match checked_add64 total (blen b) with
          | None => Err ByteCountOverflow
          | Some total => sum_sizes d total l
          end
      end
  end.
Definition disk_bytes (d : Disk) : Result Z WalError :=
  match segment_files d with Err e => Err e | Ok l => sum_sizes d 0 l end.

(** ** Reading lines *)

(** [BufRead::read_until(b'\n', ..)]: the bytes read, and those left. *)
Fixpoint read_until (l : bytes) : bytes * bytes :=
  match l with
  | [] => ([], [])
  | b :: l =>
      if b =? 10 then ([b], l) else let '(x, y) := read_until l in (b :: x, y)
  end.

(** [count_physical_records]: the lines of a file, an unterminated one
    included; every line has a byte, so the length is enough fuel. *)
Fixpoint count_lines (fuel : nat) (l : bytes) : Z :=
  match fuel with
  | O => 0
  | S fuel =>
      match read_until l with
      | ([], _) => 0
      | (_, rest) => 1 + count_lines fuel rest
      end
  end.
Definition count_physical_records (l : bytes) : Z := count_lines (length l) l.

(** ** UTF-8, lossy *)

Definition cont (b : Z) : bool := (128 <=? b) && (b <=? 191).
(** Whether [b] may follow the lead byte [a] of a sequence of two or more. *)
Definition second_ok (a b : Z) : bool :=
  if a =? 224 then (160 <=? b) && (b <=? 191) else
  if a =? 237 then (128 <=? b) && (b <=? 159) else
  if a =? 240 then (144 <=? b) && (b <=? 191) else
  if a =? 244 then (128 <=? b) && (b <=? 143) else cont b.
Definition seq_width (a : Z) : nat :=
  if a <? 128 then 1 else if (194 <=? a) && (a <=? 223) then 2
  else if (224 <=? a) && (a <=? 239) then 3
  else if (240 <=? a) && (a <=? 244) then 4 else 0.
Definition replacement : bytes := [239; 191; 189].
(** [String::from_utf8_lossy]: every maximal prefix of a sequence that cannot be
    completed becomes U+FFFD; each round drops a byte, so the length is enough
    fuel. *)
Fixpoint lossy (fuel : nat) (l : bytes) : bytes :=
  match fuel with
  | O => []
  | S fuel =>
      match l with
      | [] => []
      | a :: l1 =>
          match seq_width a with
          | O => replacement ++ lossy fuel l1
          | 1%nat => a :: lossy fuel l1
          | w =>
              match l1 with
              | b :: l2 =>
                  if negb (second_ok a b) then replacement ++ lossy fuel l1 else
                  if (w =? 2)%nat then a :: b :: lossy fuel l2 else
                  match l2 with
                  | c :: l3 =>
                      if negb (cont c) then replacement ++ lossy fuel l2 else
                      if (w =? 3)%nat then a :: b :: c :: lossy fuel l3 else
                      match l3 with
                      | e :: l4 =>
                          if negb (cont e) then replacement ++ lossy fuel l3
                          else a :: b :: c :: e :: lossy fuel l4
                      | [] => replacement
                      end
                  | [] => replacement
                  end
              | [] => replacement
              end
          end
      end
  end.
Definition from_utf8_lossy (l : bytes) : bytes := lossy (length l) l.

(** ** Quarantine *)

Definition corrupt_path (s o : Z) : string :=
  ("corrupt-segment-" +:+ pad 10 s +:+ "-offset-" +:+ pad 20 o +:+ ".json")%string.
Definition permanent_path (s o : Z) : string :=
  ("permanent-segment-" +:+ pad 10 s +:+ "-offset-" +:+ pad 20 o +:+ ".json")%string.

(** Write the document unless a file of that name is there (the temporary file
    and its rename are one step). *)
Definition put_quarantine (d : Disk) (path : string) (doc : QuarantineDoc) : Disk :=
  match quarantine d !! path with
  | Some _ => d
  | None => {| files := files d; quarantine := <[path := doc]> (quarantine d) |}
  end.
Definition quarantine_corrupt_record (d : Disk) (s o : Z) (reason : string)
    (raw : bytes) : Disk :=
  put_quarantine d (corrupt_path s o) (Corrupt s o reason (from_utf8_lossy raw)).
Definition quarantine_permanent (d : Disk) (r : Record_) (status : Z)
    (response_body : string) : string * Disk :=
  let path := permanent_path (segment r) (offset r) in
  (path, put_quarantine d path (Permanent r status response_body)).

(** ** Checkpoints *)

Definition validate_record_boundary (file : bytes) (o file_len : Z) : Result unit WalError :=
  if file_len <? o then Err OffsetPastEnd else
  if (o =? 0) || (o =? file_len) then Ok tt else
  if bool_decide (file !! Z.to_nat (o - 1) = Some 10) then Ok tt else Err NotRecordBoundary.

Definition validate_checkpoint_position (d : Disk) (c : Checkpoint) : Result unit WalError :=
  if (cp_segment c =? 0) && (cp_offset c =? 0) && (acknowledged_count c =? 0) then Ok tt else
  match files d !! segment_path (cp_segment c) with
  | Some (Regular b) => validate_record_boundary b (cp_offset c) (blen b)
  | _ => Err MissingSegment
  end.

Definition checkpoint_path : string := "checkpoint.json".
Definition load_checkpoint (d : Disk) : Result Checkpoint WalError :=
  match files d !! checkpoint_path with
  | None => Ok default_checkpoint
  | Some Directory => Err NotRegularFile
  | Some (Regular content) =>
      match checkpoint_from_str content with
      | None => Err CheckpointInvalid
      | Some c =>
          match validate_checkpoint_position d c with Ok _ => Ok c | Err e => Err e end
      end
  end.
Definition save_checkpoint (d : Disk) (c : Checkpoint) : Result Disk WalError :=
  match validate_checkpoint_position d c with
  | Err e => Err e
  | Ok _ =>
      match checkpoint_to_string c with
      | None => Err CheckpointInvalid
      | Some content => Ok (write_file d checkpoint_path content)
      end
  end.

(** The loop of [compact_segments] and its count of removed files. *)
Fixpoint remove_before (d : Disk) (s : Z) (l : list (Z * string)) : Disk * nat :=
  match l with
  | [] => (d, 0%nat)
  | (n, path) :: l =>
      if n <? s then
        let '(d', k) :=
          remove_before {| files := delete path (files d); quarantine := quarantine d |} s l in
        (d', S k)
      else remove_before d s l
  end.
Definition compact_segments (d : Disk) (c : Checkpoint) : Result (nat * Disk) WalError :=
  match validate_checkpoint_position d c with
  | Err e => Err e
  | Ok _ =>
      match segment_files d with
      | Err e => Err e
      | Ok l => let '(d', k) := remove_before d (cp_segment c) l in Ok (k, d')
      end
  end.

(** ** Reservations *)

(** [reservation_of] names the writer whose counter the reservation shares
    ([Arc::ptr_eq]). *)
Record WalReservation := mkReservation {
  remaining_bytes : Z;
  events_written : nat;
  reservation_of : nat;
}.

(** ** The writer *)

Record WalWriter := mkWriter {
  config : WalConfig;
  current_segment : Z;
  current_offset : Z;
  current_file : option string;
  total_bytes_written : Z;
  records_written : Z;
  reserved_bytes : Z;
  writer_id : nat;
}.
Definition set_position (w : WalWriter) (s o : Z) (f : option string) : WalWriter :=
  {| config := config w; current_segment := s; current_offset := o; current_file := f;
     total_bytes_written := total_bytes_written w; records_written := records_written w;
     reserved_bytes := reserved_bytes w; writer_id := writer_id w |}.
Definition set_total (w : WalWriter) (t : Z) : WalWriter :=
  {| config := config w; current_segment := current_segment w;
     current_offset := current_offset w; current_file := current_file w;
     total_bytes_written := t; records_written := records_written w;
     reserved_bytes := reserved_bytes w; writer_id := writer_id w |}.
Definition set_reserved (w : WalWriter) (v : Z) : WalWriter :=
  {| config := config w; current_segment := current_segment w;
     current_offset := current_offset w; current_file := current_file w;
     total_bytes_written := total_bytes_written w; records_written := records_written w;
     reserved_bytes := v; writer_id := writer_id w |}.

(** The loop of [recover_position]. *)
Fixpoint recover_loop (d : Disk) (acc : Z * Z * Z * Z) (l : list (Z * string)) :
    Result (Z * Z * Z * Z) WalError :=
  match l with
  | [] => Ok acc
  | (s, path) :: l =>
      let '(max_segment, latest_size, total, count) := acc in
      match read_file d path with
      | Err e => Err e
      | Ok b =>
          match checked_add64 total (blen b) with
          | None => Err ByteCountOverflow
          | Some total =>
              match checked_add64 count (count_physical_records b) with
              | None => Err RecordCountOverflow
              | Some count =>
                  if max_segment <=? s then recover_loop d (s, blen b, total, count) l
                  else recover_loop d (max_segment, latest_size, total, count) l
              end
          end
      end
  end.
Definition recover_position (d : Disk) : Result (Z * Z * Z * Z) WalError :=
  match segment_files d with
  | Err e => Err e
  | Ok l => recover_loop d (0, 0, 0, 0) l
  end.

(** [WalWriter::open]; [id] is the identity of the new counter. *)
Definition wal_open (c : WalConfig) (id : nat) (d : Disk) : Result WalWriter WalError :=
  match validate c with
  | Err e => Err (InvalidConfig e)
  | Ok _ =>
      match load_checkpoint d with
      | Err e => Err e
      | Ok _ =>
          match recover_position d with
          | Err e => Err e
          | Ok (s, o, total, count) =>
              Ok {| config := c; current_segment := s; current_offset := o;
                    current_file := None; total_bytes_written := total;
                    records_written := count; reserved_bytes := 0; writer_id := id |}
          end
      end
  end.

(** [ensure_file]: open the current segment, creating it when it is missing. *)
Definition ensure_file (w : WalWriter) (d : Disk) : string * WalWriter * Disk :=
  match current_file w with
  | Some name => (name, w, d)
  | None =>
      let name := segment_path (current_segment w) in
      let d := match files d !! name with Some _ => d | None => write_file d name [] end in
      (name, set_position w (current_segment w) (current_offset w) (Some name), d)
  end.
Definition rotate (w : WalWriter) : WalWriter :=
  set_position w (wrap64 (current_segment w + 1)) 0 None.

(** The body of the loop of [reserve_request] up to the exchange: the new value
    of the counter, from the value [observed]. *)
Definition reserve_attempt (w : WalWriter) (observed : Z) : Result Z WalError :=
  match checked_add64 (total_bytes_written w) observed with
  | None => Err OccupancyOverflow
  | Some occupied =>
      match checked_add64 occupied DURABLE_REQUEST_RESERVATION_BYTES with
      | None => Err OccupancyOverflow
      | Some after_reservation =>
          if total_bytes (config w) <? after_reservation then Err ReservationUnsatisfied
          else Ok (wrap64 (observed + DURABLE_REQUEST_RESERVATION_BYTES))
      end
  end.
Definition new_reservation (w : WalWriter) : WalReservation :=
  {| remaining_bytes := DURABLE_REQUEST_RESERVATION_BYTES; events_written := 0;
     reservation_of := writer_id w |}.
(** [reserve_request] when no other thread moves the counter meanwhile. *)
Definition reserve_request (w : WalWriter) : Result WalReservation WalError * WalWriter :=
  match reserve_attempt w (reserved_bytes w) with
  | Err e => (Err e, w)
  | Ok v => (Ok (new_reservation w), set_reserved w v)
  end.

(** [WalReservation::consume] and [Drop]; [reserved] is the shared counter. *)
Definition consume (r : WalReservation) (reserved n : Z) : WalReservation * Z :=
  ({| remaining_bytes := wrap64 (remaining_bytes r - n);
      events_written := S (events_written r); reservation_of := reservation_of r |},
   wrap64 (reserved - n)).
Definition drop_reservation (r : WalReservation) (reserved : Z) : Z :=
  if 0 <? remaining_bytes r then wrap64 (reserved - remaining_bytes r) else reserved.

(** ** Appending *)

Definition compute_checksum (p : Payload) : Z := crc32 (default [] (payload_to_vec p)).
Definition verify_checksum (r : Record_) : bool := compute_checksum (payload r) =? checksum r.
Definition encode_record (r : Record_) : Result bytes WalError :=
  match record_to_vec r with Some b => Ok (b ++ [10]) | None => Err EncodeFailed end.

(** What the operating system does with the write of a record: all of it, or an
    error after [written] bytes, followed by a truncation that works or not. *)
Inductive WriteOutcome := WriteOk | WriteErr (written : nat) (truncated : bool).

(** The capacity test of an append without reservation: compacts before it
    gives up. *)
Definition ensure_capacity (w : WalWriter) (d : Disk) (n : Z) :
    Result unit WalError * WalWriter * Disk :=
  let occupied durable :=
    checked_add64 durable (reserved_bytes w) ≫= λ v, checked_add64 v n in
  match occupied (total_bytes_written w) with
  | None => (Err OccupancyOverflow, w, d)
  | Some o =>
      if o <=? total_bytes (config w) then (Ok tt, w, d) else
      match load_checkpoint d with
      | Err e => (Err e, w, d)
      | Ok c =>
          match compact_segments d c with
          | Err e => (Err e, w, d)
          | Ok (_, d) =>
              match disk_bytes d with
              | Err e => (Err e, w, d)
              | Ok durable =>
                  let w := set_total w durable in
                  match occupied durable with
                  | None => (Err OccupancyOverflow, w, d)
                  | Some o =>
                      if o <=? total_bytes (config w) then (Ok tt, w, d)
                      else (Err WalFull, w, d)
                  end
              end
          end
      end
  end.

(** The write at the end of the file, its rollback, and the counters. *)
Definition write_record (w : WalWriter) (d : Disk) (r : Record_) (encoded : bytes)
    (res : option WalReservation) (out : WriteOutcome) :
    Result Record_ WalError * WalWriter * Disk * option WalReservation :=
  let n := blen encoded in
  let '(name, w, d) := ensure_file w d in
  match read_file d name with
  | Err e => (Err e, w, d, res)
  | Ok old =>
      match out with
      | WriteErr written truncated =>
          (Err WriteFailed, w,
           write_file d name (if truncated then old else old ++ take written encoded), res)
      | WriteOk =>
          let '(res, reserved) :=
            match res with
            | Some r => let '(r, v) := consume r (reserved_bytes w) n in (Some r, v)
            | None => (None, reserved_bytes w)
            end in
          (Ok {| event_id := event_id r; timestamp := timestamp r;
                 segment := current_segment w; offset := current_offset w;
                 checksum := checksum r; payload := payload r |},
           {| config := config w; current_segment := current_segment w;
              current_offset := wrap64 (current_offset w + n);
              current_file := current_file w;
              total_bytes_written := wrap64 (total_bytes_written w + n);
              records_written := wrap64 (records_written w + 1);
              reserved_bytes := reserved; writer_id := writer_id w |},
           write_file d name (old ++ encoded), res)
      end
  end.

Definition record_at (w : WalWriter) (id ts : string) (p : Payload) : Record_ :=
  {| event_id := id; timestamp := ts; segment := current_segment w;
     offset := current_offset w; checksum := compute_checksum p; payload := p |}.

(** The part of [append_internal] after the record has its place. *)
Definition admit_and_write (w : WalWriter) (d : Disk) (r : Record_) (encoded : bytes)
    (res : option WalReservation) (out : WriteOutcome) :
    Result Record_ WalError * WalWriter * Disk * option WalReservation :=
  match res with
  | Some a =>
      if remaining_bytes a <? blen encoded then (Err ReservationExhausted, w, d, res)
      else write_record w d r encoded res out
  | None =>
      match ensure_capacity w d (blen encoded) with
      | (Err e, w, d) => (Err e, w, d, res)
      | (Ok _, w, d) => write_record w d r encoded res out
      end
  end.

Definition append_internal (w : WalWriter) (d : Disk) (id ts : string) (p : Payload)
    (res : option WalReservation) (out : WriteOutcome) :
    Result Record_ WalError * WalWriter * Disk * option WalReservation :=
  let r := record_at w id ts p in
  match encode_record r with
  | Err e => (Err e, w, d, res)
  | Ok encoded =>
      let n := blen encoded in
      if MAX_DURABLE_EVENT_BYTES <? n then (Err EventTooLarge, w, d, res) else
      if segment_bytes (config w) <? n then (Err EventExceedsSegment, w, d, res) else
      if (0 <? current_offset w)
         && (segment_bytes (config w) <? wrap64 (current_offset w + n))
      then
        let w := rotate w in
        let r := record_at w id ts p in
        match encode_record r with
        | Err e => (Err e, w, d, res)
        | Ok encoded => admit_and_write w d r encoded res out
        end
      else admit_and_write w d r encoded res out
  end.

Definition append (w : WalWriter) (d : Disk) (id ts : string) (p : Payload)
    (out : WriteOutcome) : Result Record_ WalError * WalWriter * Disk :=
  let '(r, w, d, _) := append_internal w d id ts p None out in (r, w, d).

Definition append_reserved (w : WalWriter) (d : Disk) (res : WalReservation)
    (id ts : string) (p : Payload) (out : WriteOutcome) :
    Result Record_ WalError * WalWriter * Disk * WalReservation :=
  if negb (reservation_of res =? writer_id w)%nat
  then (Err ForeignReservation, w, d, res) else
  if (MAX_DURABLE_EVENTS_PER_REQUEST <=? events_written res)%nat
  then (Err EventCountExceeded, w, d, res) else
  let '(r, w, d, res') := append_internal w d id ts p (Some res) out in
  (r, w, d, default res res').

(** ** Reading *)

Definition last_is_newline (l : bytes) : bool := bool_decide (last l = Some 10).
Definition without_last (l : bytes) : bytes := take (length l - 1) l.

(** The loop of [read_records_from_file]: [rest] is what the reader has left,
    [o] its offset; a line has a byte, so the length is enough fuel. *)
Fixpoint read_records (fuel : nat) (d : Disk) (s : Z) (max_records : nat) (o : Z)
    (rest : bytes) (records : list Record_) : Result (list Record_) WalError * Disk :=
  match fuel with
  | O => (Ok records, d)
  | S fuel =>
      if (max_records <=? length records)%nat then (Ok records, d) else
      let '(line, rest) := read_until rest in
      match line with
      | [] => (Ok records, d)
      | _ =>
          if negb (last_is_newline line) then
            (Err (TruncatedRecord s o),
             quarantine_corrupt_record d s o "truncated_record" line)
          else
            let text := without_last line in
            match record_from_slice text with
            | None =>
                (Err (InvalidRecord s o), quarantine_corrupt_record d s o "invalid_json" text)
            | Some r =>
                if negb (segment r =? s) || negb (offset r =? o) then
                  (Err (PositionMismatch s o),
                   quarantine_corrupt_record d s o "position_mismatch" text)
                else if negb (verify_checksum r) then
                  (Err (ChecksumMismatch s o),
                   quarantine_corrupt_record d s o "checksum_mismatch" text)
                else
                  read_records fuel d s max_records (wrap64 (o + blen line)) rest
                    (records ++ [r])
            end
      end
  end.
Definition read_records_from_file (d : Disk) (s : Z) (path : string) (start : Z)
    (max_records : nat) : Result (list Record_) WalError * Disk :=
  if (max_records =? 0)%nat then (Ok [], d) else
  match read_file d path with
  | Err e => (Err e, d)
  | Ok b =>
      match validate_record_boundary b start (blen b) with
      | Err e => (Err e, d)
      | Ok _ =>
          read_records (S (length b)) d s max_records start (drop (Z.to_nat start) b) []
      end
  end.
Definition read_segment (d : Disk) (s start : Z) (max_records : nat) :
    Result (list Record_) WalError * Disk :=
  match files d !! segment_path s with
  | None => (Ok [], d)
  | Some _ => read_records_from_file d s (segment_path s) start max_records
  end.

Definition start_offset (c : Checkpoint) (s : Z) : Z :=
  if s =? cp_segment c then cp_offset c else 0.
Definition from_checkpoint (c : Checkpoint) (l : list (Z * string)) : list (Z * string) :=
  filter (λ e, cp_segment c ≤ e.1) l.

(** The loop of [read_from]. *)
Fixpoint read_segments (d : Disk) (c : Checkpoint) (max_records : nat)
    (l : list (Z * string)) (records : list Record_) : Result (list Record_) WalError * Disk :=
  match l with
  | [] => (Ok records, d)
  | (s, path) :: l =>
      if (max_records <=? length records)%nat then (Ok records, d) else
      match read_records_from_file d s path (start_offset c s)
              (max_records - length records) with
      | (Err e, d) => (Err e, d)
      | (Ok more, d) => read_segments d c max_records l (records ++ more)
      end
  end.
Definition read_from (d : Disk) (c : Checkpoint) (max_records : nat) :
    Result (list Record_) WalError * Disk :=
  match validate_checkpoint_position d c with
  | Err e => (Err e, d)
  | Ok _ =>
      match segment_files d with
      | Err e => (Err e, d)
      | Ok l => read_segments d c max_records (from_checkpoint c l) []
      end
  end.

Record PendingRecord := mkPending {
  record : Record_;
  next_segment : Z;
  next_offset : Z;
}.
Record QuarantinedRecord := mkQuarantined {
  q_segment : Z;
  q_offset : Z;
  q_next_segment : Z;
  q_next_offset : Z;
  q_reason : string;
}.
Inductive PendingItem :=
| PRecord (item : PendingRecord)
| PQuarantined (item : QuarantinedRecord).

(** Why a complete line is not a record of its place, if it is not. *)
Definition line_record (s o : Z) (text : bytes) : Result Record_ string :=
  match record_from_slice text with
  | None => Err "invalid_json"
  | Some r =>
      if negb (segment r =? s) || negb (offset r =? o) then Err "position_mismatch"
      else if negb (verify_checksum r) then Err "checksum_mismatch"
      else Ok r
  end.

(** The loop of [next_pending]. *)
Fixpoint scan_pending (d : Disk) (c : Checkpoint) (l : list (Z * string)) :
    Result (option PendingItem) WalError * Disk :=
  match l with
  | [] => (Ok None, d)
  | (s, path) :: l =>
      let start := start_offset c s in
      match read_file d path with
      | Err e => (Err e, d)
      | Ok b =>
          match validate_record_boundary b start (blen b) with
          | Err e => (Err e, d)
          | Ok _ =>
              if start =? blen b then scan_pending d c l else
              let line := (read_until (drop (Z.to_nat start) b)).1 in
              if (length line =? 0)%nat then scan_pending d c l else
              let next := wrap64 (start + blen line) in
              let skipped reason := PQuarantined (mkQuarantined s start s next reason) in
              if negb (last_is_newline line) then
                (Ok (Some (skipped "truncated_record"%string)),
                 quarantine_corrupt_record d s start "truncated_record" line)
              else
                match line_record s start (without_last line) with
                | Ok r => (Ok (Some (PRecord (mkPending r s next))), d)
                | Err reason =>
                    (Ok (Some (skipped reason)),
                     quarantine_corrupt_record d s start reason (without_last line))
                end
          end
      end
  end.
Definition next_pending (d : Disk) (c : Checkpoint) :
    Result (option PendingItem) WalError * Disk :=
  match validate_checkpoint_position d c with
  | Err e => (Err e, d)
  | Ok _ =>
      match segment_files d with
      | Err e => (Err e, d)
      | Ok l => scan_pending d c (from_checkpoint c l)
      end
  end.

(** ** Acknowledging *)

(** [(a, b) < (c, d)] on pairs of integers. *)
Definition position_lt (a b c d : Z) : bool := (a <? c) || ((a =? c) && (b <? d)).
Definition acknowledge (w : WalWriter) (d : Disk) (s o : Z) :
    Result Checkpoint WalError * WalWriter * Disk :=
  match load_checkpoint d with
  | Err e => (Err e, w, d)
  | Ok c =>
      if position_lt s o (cp_segment c) (cp_offset c) then (Err AckBackwards, w, d) else
      match checked_add64 (acknowledged_count c) 1 with
      | None => (Err AckCountOverflow, w, d)
      | Some n =>
          let c := {| cp_segment := s; cp_offset := o; acknowledged_count := n |} in
          match save_checkpoint d c with
          | Err e => (Err e, w, d)
          | Ok d =>
              match compact_segments d c with
              | Err e => (Err e, w, d)
              | Ok (_, d) =>
                  match disk_bytes d with
                  | Err e => (Err e, w, d)
                  | Ok after =>
                      (Ok c,
                       if after <=? total_bytes_written w then set_total w after else w, d)
                  end
              end
          end
      end
  end.

Definition position (w : WalWriter) : Z * Z := (current_segment w, current_offset w).

(** ** Policy results *)

(** The batches of [coalesce_policy_results]: [k] batches are left, the next
    has index [i]. *)
Fixpoint batches {A} (k i base larger : nat) (l : list A) : list (list A) :=
  match k with
  | O => []
  | S k =>
      let size := (base + (if (i <? larger)%nat then 1 else 0))%nat in
      take size l :: batches k (S i) base larger (drop size l)
  end.
Definition coalesce_policy_results {A} (results : list A) : list (list A) :=
  match results with
  | [] => []
  | _ =>
      let batch_count := Nat.min (length results) MAX_DURABLE_EVENTS_PER_REQUEST in
      batches batch_count 0 (length results / batch_count)
        (length results mod batch_count) results
  end.
End wal.
