(* ===== verification/EventWalDisk.v ===== *)
(** * EventWalDisk: the directory of the event log as a list of segments

    Lemmas on the names of segments, on lines, and on [segment_files]: a
    directory that holds a list of numbered segments ([disk_holds]) is listed in
    their order, and writing, extending and removing segment files acts on that
    list.  [EventWalQueue] builds on them. *)

From Stdlib Require Import ZArith Ascii String.
From stdpp Require Import base gmap strings list sorting.
From S2P Require Import Prelude Text EventWal.

Local Open Scope Z_scope.

(** ** Names of segments *)

Lemma digit_value_digit n : 0 ≤ n < 10 → digit_value (digit n) = Some n.
Proof.
  intros Hn. assert (Hin : n = 0 ∨ n = 1 ∨ n = 2 ∨ n = 3 ∨ n = 4 ∨ n = 5 ∨ n = 6
    ∨ n = 7 ∨ n = 8 ∨ n = 9) by lia.
  by repeat destruct Hin as [->|Hin]; [..|subst].
Qed.

Lemma parse_digits_step a n acc :
  0 ≤ n < 10 → a * 10 + n ≤ u64_max →
  parse_digits a (String (digit n) acc) = parse_digits (a * 10 + n) acc.
Proof.
  intros Hn Ha. cbn [parse_digits]. rewrite digit_value_digit by done.
  by rewrite (proj2 (Z.leb_le _ _) Ha).
Qed.

Lemma parse_digits_digits fuel n acc :
  0 ≤ n < 10 ^ Z.of_nat fuel → n ≤ u64_max → (0 < fuel)%nat →
  parse_digits 0 (digits fuel n acc) = parse_digits n acc.
Proof.
  revert n acc. induction fuel as [|fuel IH]; intros n acc Hn Hmax Hf; [lia|].
  cbn [digits]. pose proof (Z.mod_pos_bound n 10 ltac:(lia)) as Hm.
  pose proof (Z.div_mod n 10 ltac:(lia)) as Hdm.
  destruct (Z.eqb_spec (n / 10) 0) as [E|E].
  - rewrite parse_digits_step by lia. f_equal. lia.
  - pose proof (Z.div_pos n 10 ltac:(lia) ltac:(lia)).
    assert (Hlt : n / 10 < 10 ^ Z.of_nat fuel).
    { apply Z.div_lt_upper_bound; [lia|].
      rewrite Nat2Z.inj_succ, Z.pow_succ_r in Hn by lia. lia. }
    rewrite IH; [|lia|lia|destruct fuel; [simpl in Hlt; lia|lia]].
    rewrite parse_digits_step by lia. f_equal. lia.
Qed.

Lemma parse_digits_zeros n s : parse_digits 0 (zeros n s) = parse_digits 0 s.
Proof. induction n as [|n IH]; [done|]. by rewrite <- IH. Qed.

(** [pad] never starts with a sign. *)
Definition starts_with_digit (s : string) : bool :=
  match s with String a _ => bool_decide (is_Some (digit_value a)) | EmptyString => false end.

Lemma digits_start fuel n acc :
  (0 < fuel)%nat → starts_with_digit (digits fuel n acc) = true.
Proof.
  revert n acc. induction fuel as [|fuel IH]; intros n acc Hf; [lia|]. cbn [digits].
  assert (Hd : starts_with_digit (String (digit (n mod 10)) acc) = true).
  { unfold starts_with_digit. apply bool_decide_eq_true.
    rewrite digit_value_digit; [eauto|]. apply Z.mod_pos_bound. lia. }
  destruct (_ =? 0); [done|]. destruct fuel; [done|]. apply IH. lia.
Qed.

Lemma zeros_start n s : starts_with_digit s = true → starts_with_digit (zeros n s) = true.
Proof. by destruct n. Qed.

Lemma parse_u64_digits s :
  starts_with_digit s = true → parse_u64 s = parse_digits 0 s.
Proof.
  destruct s as [|a s]; [done|]. unfold starts_with_digit, parse_u64.
  intros [z Hz]%bool_decide_eq_true. case_match eqn:E; [|done].
  apply Ascii.eqb_eq in E as ->. by compute in Hz.
Qed.

Lemma parse_u64_pad width n : u64_ok n → parse_u64 (pad width n) = Some n.
Proof.
  intros Hn. unfold pad.
  rewrite parse_u64_digits by (apply zeros_start, digits_start; lia).
  rewrite parse_digits_zeros, parse_digits_digits; [done| |width_lia|lia].
  change (10 ^ Z.of_nat 20) with 100000000000000000000. width_lia.
Qed.

Lemma strip_prefix_app p s : strip_prefix p (p +:+ s) = Some s.
Proof.
  induction p as [|a p IH]; simpl; [by destruct s|]. by rewrite Ascii.eqb_refl.
Qed.

Lemma length_append_string a b :
  String.length (a +:+ b) = (String.length a + String.length b)%nat.
Proof. induction a as [|c a IH]; simpl; [done|]. by rewrite IH. Qed.

Lemma strip_suffix_app p s : strip_suffix p (s +:+ p) = Some s.
Proof.
  induction s as [|a s IH].
  - change (EmptyString +:+ p) with p. destruct p; cbn [strip_suffix]; [done|].
    by rewrite String.eqb_refl.
  - change (String a s +:+ p) with (String a (s +:+ p)). cbn [strip_suffix].
    destruct (String.eqb_spec (String a (s +:+ p)) p) as [E|E]; [|by rewrite IH].
    apply (f_equal String.length) in E. simpl in E.
    rewrite length_append_string in E. lia.
Qed.

Lemma parse_segment_path n : u64_ok n → parse_segment_number (segment_path n) = Some n.
Proof.
  intros Hn. unfold parse_segment_number, segment_path.
  rewrite strip_prefix_app, strip_suffix_app. by apply parse_u64_pad.
Qed.

Lemma segment_path_inj m n :
  u64_ok m → u64_ok n → segment_path m = segment_path n → m = n.
Proof.
  intros Hm Hn E. apply parse_segment_path in Hm, Hn. rewrite E in Hm. congruence.
Qed.

Lemma checkpoint_path_not_segment : parse_segment_number checkpoint_path = None.
Proof. reflexivity. Qed.

(** ** Lines *)

Lemma blen_app a b : blen (a ++ b) = blen a + blen b.
Proof. unfold blen. rewrite length_app. lia. Qed.
Lemma blen_nonneg a : 0 ≤ blen a.
Proof. unfold blen. lia. Qed.
#[export] Hint Resolve blen_nonneg : verdictan.

Lemma read_until_line b rest :
  10 ∉ b → read_until (b ++ 10 :: rest) = (b ++ [10], rest).
Proof.
  induction b as [|x b IH]; intros Hb; [done|].
  apply not_elem_of_cons in Hb as [Hx Hb]. cbn [read_until app].
  rewrite (proj2 (Z.eqb_neq x 10)) by congruence. by rewrite IH.
Qed.

Lemma read_until_tail b : 10 ∉ b → read_until b = (b, []).
Proof.
  induction b as [|x b IH]; intros Hb; [done|].
  apply not_elem_of_cons in Hb as [Hx Hb]. cbn [read_until].
  rewrite (proj2 (Z.eqb_neq x 10)) by congruence. by rewrite IH.
Qed.

Lemma last_is_newline_line b : last_is_newline (b ++ [10]) = true.
Proof. unfold last_is_newline. by rewrite last_snoc. Qed.
Lemma last_is_newline_none b : 10 ∉ b → last_is_newline b = false.
Proof.
  intros Hb. apply bool_decide_eq_false. intros E. apply Hb.
  by apply last_Some_elem_of in E.
Qed.
Lemma without_last_line b : without_last (b ++ [10]) = b.
Proof.
  unfold without_last. rewrite length_app. cbn [length].
  rewrite Nat.add_sub. apply take_app_length.
Qed.

(** ** Filters *)

Section filters.
Context {A : Type} (P : A → Prop) `{!∀ x, Decision (P x)}.

Lemma filter_all l : Forall P l → filter P l = l.
Proof.
  induction 1 as [|x l Hx _ IH]; [done|]. rewrite filter_cons, IH. by case_decide.
Qed.
Lemma filter_none l : Forall (λ x, ¬ P x) l → filter P l = [].
Proof.
  induction 1 as [|x l Hx _ IH]; [done|]. rewrite filter_cons, IH. by case_decide.
Qed.
Lemma filter_fmap {B} (f : B → A) (l : list B) : filter P (f <$> l) = f <$> filter (λ b, P (f b)) l.
Proof.
  induction l as [|b l IH]; [done|]. change (f <$> b :: l) with (f b :: (f <$> l)).
  rewrite !filter_cons, IH. by case_decide.
Qed.
End filters.

(** ** Segments in a directory *)

Section disk.
Context `{WalCodec}.
Implicit Types (d : Disk) (segs : list (Z * bytes)).

Definition listing (segs : list (Z * bytes)) : list (Z * string) :=
  (λ e, (e.1, segment_path e.1)) <$> segs.

Record disk_holds (d : Disk) (segs : list (Z * bytes)) : Prop := {
  dh_sorted : StronglySorted Z.lt segs.*1;
  dh_range : Forall u64_ok segs.*1;
  dh_only : ∀ name node s,
    files d !! name = Some node → parse_segment_number name = Some s →
    ∃ b, (s, b) ∈ segs ∧ name = segment_path s ∧ node = Regular b;
  dh_all : ∀ s b, (s, b) ∈ segs → files d !! segment_path s = Some (Regular b);
}.

Lemma holds_u64 d segs s b : disk_holds d segs → (s, b) ∈ segs → u64_ok s.
Proof.
  intros Hd Hin. eapply Forall_forall; [apply (dh_range _ _ Hd)|].
  by apply (list_elem_of_fmap_2 fst) in Hin.
Qed.

Lemma segs_NoDup segs : StronglySorted Z.lt segs.*1 → NoDup segs.*1.
Proof.
  generalize segs.*1. intros l. induction 1 as [|x l Hl IH Hx]; constructor; [|done].
  intros Hin. rewrite Forall_forall in Hx. specialize (Hx x Hin). lia.
Qed.

Lemma holds_files d d' segs : files d' = files d → disk_holds d segs → disk_holds d' segs.
Proof. intros E []. split; rewrite ?E; done. Qed.

Lemma segment_entries_snd d :
  (segment_entries d).*2 =
  filter (λ e : string * Node, is_Some (parse_segment_number e.1)) (map_to_list (files d)).
Proof.
  unfold segment_entries. induction (map_to_list (files d)) as [|e l IH]; [done|].
  rewrite filter_cons. cbn [omap list_omap]. unfold list_omap in *.
  destruct (parse_segment_number e.1) as [s|] eqn:E; case_decide as D.
  - cbn. f_equal. apply IH.
  - destruct D. eauto.
  - by destruct D.
  - apply IH.
Qed.

Lemma elem_of_segment_entries d s name node :
  (s, (name, node)) ∈ segment_entries d ↔
  files d !! name = Some node ∧ parse_segment_number name = Some s.
Proof.
  unfold segment_entries. rewrite list_elem_of_omap. split.
  - intros ([n' nd] & Hin & Hs). simpl in Hs. apply elem_of_map_to_list in Hin.
    destruct (parse_segment_number n') eqn:E; simplify_eq/=. done.
  - intros [Hl Hp]. exists (name, node). rewrite elem_of_map_to_list. simpl.
    by rewrite Hp.
Qed.

#[local] Instance by_segment_trans : Transitive by_segment.
Proof. intros a b c. unfold by_segment. lia. Qed.
#[local] Instance by_segment_total : Total by_segment.
Proof. intros a b. unfold by_segment. lia. Qed.

Lemma listing_sorted segs :
  StronglySorted Z.lt segs.*1 → StronglySorted by_segment (listing segs).
Proof.
  unfold listing. induction segs as [|e segs IH]; intros Hs; [constructor|].
  apply StronglySorted_inv in Hs as [Hs Hx]. constructor; [by apply IH|].
  apply Forall_fmap, Forall_forall. intros e' He. unfold by_segment. simpl.
  rewrite Forall_forall in Hx.
  specialize (Hx e'.1 (list_elem_of_fmap_2 fst _ _ He)). lia.
Qed.

Lemma elem_of_listing segs s name :
  (s, name) ∈ listing segs ↔ name = segment_path s ∧ ∃ b, (s, b) ∈ segs.
Proof.
  unfold listing. rewrite list_elem_of_fmap. split.
  - intros ([s' b] & [= -> ->] & Hin). eauto.
  - intros [-> [b Hin]]. by exists (s, b).
Qed.

Lemma listing_NoDup segs : StronglySorted Z.lt segs.*1 → NoDup (listing segs).
Proof.
  intros Hs. apply (NoDup_fmap_1 fst). unfold listing. rewrite <- list_fmap_compose.
  by apply segs_NoDup.
Qed.

Lemma entries_perm d segs :
  disk_holds d segs →
  (λ e : Z * (string * Node), (e.1, e.2.1)) <$> segment_entries d ≡ₚ listing segs.
Proof.
  intros Hd. apply NoDup_Permutation.
  - apply (NoDup_fmap_1 snd). rewrite <- list_fmap_compose.
    assert (E : snd ∘ (λ e : Z * (string * Node), (e.1, e.2.1)) = fst ∘ snd) by done.
    rewrite E, list_fmap_compose, segment_entries_snd.
    eapply sublist_NoDup; [apply (NoDup_fst_map_to_list (files d))|].
    apply fmap_sublist, sublist_filter.
  - apply listing_NoDup, (dh_sorted _ _ Hd).
  - intros [s name]. rewrite elem_of_listing, list_elem_of_fmap. split.
    + intros ([s' [name' node]] & [= -> ->] & [Hl Hp]%elem_of_segment_entries).
      destruct (dh_only _ _ Hd _ _ _ Hl Hp) as (b & Hin & -> & ->). eauto.
    + intros (-> & b & Hin). exists (s, (segment_path s, Regular b)). split; [done|].
      apply elem_of_segment_entries. split; [by apply (dh_all _ _ Hd)|].
      eapply parse_segment_path, holds_u64; eauto.
Qed.

Lemma segment_files_holds d segs :
  disk_holds d segs → segment_files d = Ok (listing segs).
Proof.
  intros Hd. unfold segment_files.
  replace (forallb _ _) with true; [f_equal|].
  - apply (StronglySorted_unique_strong by_segment).
    + intros [s n] [s' n'] Hin Hin' H1 H2. unfold by_segment in *. simpl in *.
      rewrite merge_sort_Permutation, (entries_perm _ _ Hd) in Hin.
      apply elem_of_listing in Hin as [-> _], Hin' as [-> _].
      assert (s = s') as -> by lia. done.
    + apply (StronglySorted_merge_sort by_segment).
    + apply listing_sorted, (dh_sorted _ _ Hd).
    + rewrite merge_sort_Permutation. by apply entries_perm.
  - symmetry. apply forallb_forall. intros [s [name node]] Hin.
    apply list_elem_of_In, elem_of_segment_entries in Hin as [Hl Hp].
    destruct (dh_only _ _ Hd _ _ _ Hl Hp) as (b & _ & _ & ->). done.
Qed.

Lemma read_file_holds d segs s b :
  disk_holds d segs → (s, b) ∈ segs → read_file d (segment_path s) = Ok b.
Proof. intros Hd Hin. unfold read_file. by rewrite (dh_all _ _ Hd _ _ Hin). Qed.

(** ** Writing and removing files *)

Lemma holds_write_other d segs name b :
  parse_segment_number name = None →
  disk_holds d segs → disk_holds (write_file d name b) segs.
Proof.
  intros Hname [H1 H2 H3 H4]. split; [done|done| |]; simpl.
  - intros n node s. rewrite lookup_insert. case_decide; [|apply H3].
    subst. by rewrite Hname.
  - intros s b' Hin. rewrite lookup_insert_ne; [by apply H4|]. intros ->.
    rewrite parse_segment_path in Hname; [done|].
    rewrite Forall_forall in H2. apply H2. by apply (list_elem_of_fmap_2 fst) in Hin.
Qed.

Lemma segs_sorted_snoc segs s (b : bytes) :
  StronglySorted Z.lt (segs ++ [(s, b)]).*1 ↔
  StronglySorted Z.lt segs.*1 ∧ ∀ s' b', (s', b') ∈ segs → s' < s.
Proof.
  rewrite fmap_app, StronglySorted_app. simpl. split.
  - intros (Hlt & Hs & _). split; [done|]. intros s' b' Hin.
    apply Hlt; [by apply (list_elem_of_fmap_2 fst) in Hin|]. by apply list_elem_of_singleton.
  - intros [Hs Hlt]. split; [|split; [done|repeat constructor]].
    intros x y ([s' b'] & -> & Hin)%list_elem_of_fmap ->%list_elem_of_singleton. eauto.
Qed.

(** Every segment file but that of [s] is one of [segs]. *)
Record holds_but (d : Disk) (segs : list (Z * bytes)) (s : Z) : Prop := {
  hb_sorted : StronglySorted Z.lt segs.*1;
  hb_range : Forall u64_ok segs.*1;
  hb_u64 : u64_ok s;
  hb_last : ∀ s' b', (s', b') ∈ segs → s' < s;
  hb_only : ∀ name node s',
    files d !! name = Some node → parse_segment_number name = Some s' →
    name = segment_path s' ∧ (s' ≠ s → ∃ b', (s', b') ∈ segs ∧ node = Regular b');
  hb_all : ∀ s' b', (s', b') ∈ segs → files d !! segment_path s' = Some (Regular b');
}.

Lemma holds_but_last d segs s b0 : disk_holds d (segs ++ [(s, b0)]) → holds_but d segs s.
Proof.
  intros [[H1 Hlt]%segs_sorted_snoc H2 H3 H4]. rewrite fmap_app in H2.
  apply Forall_app in H2 as [H2 H2']. split; [done|done|by inversion H2'|done| |].
  - intros n node s' Hn Hp. destruct (H3 _ _ _ Hn Hp) as (b' & Hin & -> & ->).
    split; [done|]. intros Hne. exists b'. split; [|done].
    apply elem_of_app in Hin as [?|[= ]%list_elem_of_singleton]; done.
  - intros s' b' Hin. apply H4, elem_of_app. by left.
Qed.

Lemma holds_but_new d segs s :
  disk_holds d segs → u64_ok s → (∀ s' b', (s', b') ∈ segs → s' < s) → holds_but d segs s.
Proof.
  intros [H1 H2 H3 H4] Hu Hlt. split; [done..| |done].
  intros n node s' Hn Hp. destruct (H3 _ _ _ Hn Hp) as (b' & Hin & -> & ->). eauto.
Qed.

(** Writing segment [s], the last one or a new last one. *)
Lemma holds_write_last d segs s b :
  holds_but d segs s → disk_holds (write_file d (segment_path s) b) (segs ++ [(s, b)]).
Proof.
  intros [H1 H2 Hu Hlt H3 H4]. split; simpl.
  - by apply segs_sorted_snoc.
  - rewrite fmap_app. apply Forall_app. split; [done|]. constructor; [done|constructor].
  - intros n node s' Hn Hp. setoid_rewrite elem_of_app. setoid_rewrite list_elem_of_singleton.
    rewrite lookup_insert in Hn. case_decide; simplify_eq.
    + rewrite parse_segment_path in Hp by done. simplify_eq. eauto.
    + destruct (H3 _ _ _ Hn Hp) as [-> Hs']. destruct (decide (s' = s)) as [->|Hne]; [done|].
      destruct (Hs' Hne) as (b' & Hin & ->). eauto.
  - intros s' b' [Hin|[= -> ->]%list_elem_of_singleton]%elem_of_app; [|by rewrite lookup_insert_eq].
    rewrite lookup_insert_ne; [by apply H4|]. intros E%segment_path_inj; [|done|].
    + specialize (Hlt _ _ Hin). lia.
    + rewrite Forall_forall in H2. by apply H2, (list_elem_of_fmap_2 fst _ _ Hin).
Qed.

Lemma remove_before_spec d s l name :
  (∀ n, (n, name) ∈ l → n < s → files (remove_before d s l).1 !! name = None)
  ∧ ((∀ n, (n, name) ∈ l → s ≤ n) →
     files (remove_before d s l).1 !! name = files d !! name)
  ∧ (files d !! name = None → files (remove_before d s l).1 !! name = None).
Proof.
  revert d. induction l as [|[n path] l IH]; intros d; simpl.
  { split_and!; [|done|done]. intros n Hin. by apply elem_of_nil in Hin. }
  destruct (Z.ltb_spec n s) as [Hn|Hn].
  - destruct (remove_before _ s l) as [d' k] eqn:E.
    specialize (IH {| files := delete path (files d); quarantine := quarantine d |}).
    rewrite E in IH. simpl in *. destruct IH as (I1 & I2 & I3). split_and!.
    + intros n' [[= -> ->]|Hin]%elem_of_cons Hn'; [|by apply (I1 n')].
      apply I3. apply lookup_delete_eq.
    + intros Hall. rewrite I2; [|intros n' Hin; apply Hall, elem_of_cons; by right].
      rewrite lookup_delete_ne; [done|]. intros ->.
      specialize (Hall n ltac:(apply elem_of_cons; by left)). lia.
    + intros Hnone. apply I3. rewrite lookup_delete. by case_decide.
  - destruct (IH d) as (I1 & I2 & I3). split_and!; [|intros Hall; apply I2|done].
    + intros n' [[= -> ->]|Hin]%elem_of_cons Hn'; [lia|by apply (I1 n')].
    + intros n' Hin. apply Hall, elem_of_cons. by right.
Qed.

Definition segs_from (s : Z) (segs : list (Z * bytes)) : list (Z * bytes) :=
  filter (λ e, s ≤ e.1) segs.

Lemma segs_from_sorted s segs :
  StronglySorted Z.lt segs.*1 → StronglySorted Z.lt (segs_from s segs).*1.
Proof.
  unfold segs_from. induction segs as [|e segs IH]; [done|].
  intros [Hs Hx]%StronglySorted_inv. rewrite filter_cons.
  case_decide; [|by apply IH]. constructor; [by apply IH|].
  apply Forall_forall. intros x ([s' b'] & -> & Hin)%list_elem_of_fmap.
  apply list_elem_of_filter in Hin as [_ Hin]. rewrite Forall_forall in Hx.
  by apply Hx, (list_elem_of_fmap_2 fst _ _ Hin).
Qed.

Lemma holds_remove_before d segs s :
  disk_holds d segs → disk_holds (remove_before d s (listing segs)).1 (segs_from s segs).
Proof.
  intros Hd. pose proof Hd as [H1 H2 H3 H4]. split.
  - by apply segs_from_sorted.
  - apply Forall_forall. intros x (e & -> & Hin)%list_elem_of_fmap.
    apply list_elem_of_filter in Hin as [_ Hin]. rewrite Forall_forall in H2.
    by apply H2, (list_elem_of_fmap_2 fst _ _ Hin).
  - intros name node s' Hn Hp.
    destruct (remove_before_spec d s (listing segs) name) as (I1 & I2 & I3).
    destruct (files d !! name) as [node'|] eqn:E; [|by rewrite I3 in Hn].
    destruct (H3 _ _ _ E Hp) as (b & Hin & -> & ->). exists b.
    assert (Hl : (s', segment_path s') ∈ listing segs) by (apply elem_of_listing; eauto).
    destruct (decide (s ≤ s')) as [Hs|Hs]; [|rewrite (I1 s') in Hn by (done || lia); done].
    rewrite I2 in Hn. { simplify_eq. split_and!; [|done|done]. by apply list_elem_of_filter. }
    intros n [Ep [b' Hin']]%elem_of_listing.
    apply segment_path_inj in Ep as ->; eauto using holds_u64.
  - intros s' b [Hs Hin]%list_elem_of_filter. simpl in Hs.
    destruct (remove_before_spec d s (listing segs) (segment_path s')) as (_ & I2 & _).
    rewrite I2; [by apply H4|]. intros n [Ep [b' Hin']]%elem_of_listing.
    apply segment_path_inj in Ep as ->; eauto using holds_u64.
Qed.

Lemma remove_before_other d s segs name :
  parse_segment_number name = None → Forall u64_ok segs.*1 →
  files (remove_before d s (listing segs)).1 !! name = files d !! name.
Proof.
  intros Hp Hu. apply (proj1 (proj2 (remove_before_spec d s (listing segs) name))).
  intros n [-> [b Hin]]%elem_of_listing. rewrite parse_segment_path in Hp; [done|].
  rewrite Forall_forall in Hu. by apply Hu, (list_elem_of_fmap_2 fst _ _ Hin).
Qed.

(** ** Sizes and recovery *)

Definition segs_bytes (segs : list (Z * bytes)) : Z :=
  foldr (λ e acc, blen e.2 + acc) 0 segs.

Lemma segs_bytes_app segs segs' :
  segs_bytes (segs ++ segs') = segs_bytes segs + segs_bytes segs'.
Proof. induction segs as [|e segs IH]; simpl; [done|]. rewrite IH. lia. Qed.
Lemma segs_bytes_nonneg segs : 0 ≤ segs_bytes segs.
Proof.
  induction segs as [|e segs IH]; simpl; [done|]. pose proof (blen_nonneg e.2). lia.
Qed.
Lemma segs_bytes_from s segs : segs_bytes (segs_from s segs) ≤ segs_bytes segs.
Proof.
  unfold segs_from. induction segs as [|e segs IH]; [done|]. rewrite filter_cons.
  pose proof (blen_nonneg e.2). case_decide; simpl; lia.
Qed.

Lemma checked_add64_ok a b : a + b ≤ u64_max → checked_add64 a b = Some (a + b).
Proof. intros Hab. unfold checked_add64. by rewrite (proj2 (Z.leb_le _ _) Hab). Qed.

Lemma sum_sizes_holds d segs acc l :
  disk_holds d segs → (∀ e, e ∈ l → e ∈ segs) → acc + segs_bytes l ≤ u64_max →
  sum_sizes d acc (listing l) = Ok (acc + segs_bytes l).
Proof.
  intros Hd. revert acc. induction l as [|[s b] l IH]; intros acc Hin Hmax; simpl in *.
  { by rewrite Z.add_0_r. }
  pose proof (segs_bytes_nonneg l).
  rewrite (read_file_holds _ _ _ b Hd) by (apply Hin, elem_of_cons; by left).
  rewrite checked_add64_ok by lia.
  rewrite IH; [by rewrite Z.add_assoc|intros e He; apply Hin, elem_of_cons; by right|lia].
Qed.

Lemma disk_bytes_holds d segs :
  disk_holds d segs → segs_bytes segs ≤ u64_max → disk_bytes d = Ok (segs_bytes segs).
Proof.
  intros Hd Hmax. unfold disk_bytes. rewrite (segment_files_holds _ _ Hd).
  rewrite (sum_sizes_holds _ segs) by (done || lia). done.
Qed.

Lemma count_lines_bound fuel l : 0 ≤ count_lines fuel l ≤ Z.of_nat fuel.
Proof.
  revert l. induction fuel as [|fuel IH]; intros l; cbn [count_lines]; [lia|].
  destruct (read_until l) as [[|x line] rest]; [lia|]. specialize (IH rest). lia.
Qed.

Definition segs_lines (segs : list (Z * bytes)) : Z :=
  foldr (λ e acc, count_physical_records e.2 + acc) 0 segs.
Lemma segs_lines_bound segs : 0 ≤ segs_lines segs ≤ segs_bytes segs.
Proof.
  induction segs as [|e segs IH]; simpl; [done|].
  pose proof (count_lines_bound (length e.2) e.2). unfold count_physical_records, blen. lia.
Qed.

(** The write position [open] recovers: the end of the last segment. *)
Definition last_position (segs : list (Z * bytes)) : Z * Z :=
  match last segs with Some (s, b) => (s, blen b) | None => (0, 0) end.

Lemma recover_loop_holds d segs m o t k l :
  disk_holds d segs → (∀ e, e ∈ l → e ∈ segs) → StronglySorted Z.lt l.*1 →
  (∀ e, e ∈ l → m ≤ e.1) → t + segs_bytes l ≤ u64_max → k + segs_lines l ≤ u64_max →
  recover_loop d (m, o, t, k) (listing l) =
  Ok (match last l with Some (s, b) => (s, blen b) | None => (m, o) end,
      t + segs_bytes l, k + segs_lines l).
Proof.
  intros Hd. revert m o t k.
  induction l as [|[s b] l IH]; intros m o t k Hin Hs Hm Ht Hk; simpl in *.
  { by rewrite !Z.add_0_r. }
  apply StronglySorted_inv in Hs as [Hs Hx]. rewrite Forall_forall in Hx.
  pose proof (segs_bytes_nonneg l). pose proof (segs_lines_bound l).
  rewrite (read_file_holds _ _ _ b Hd) by (apply Hin, elem_of_cons; by left).
  rewrite !checked_add64_ok by lia.
  specialize (Hm (s, b) ltac:(apply elem_of_cons; by left)) as Hm0. simpl in Hm0.
  rewrite (proj2 (Z.leb_le _ _) Hm0).
  rewrite IH; [|intros e He; apply Hin, elem_of_cons; by right|done| |lia|lia].
  - rewrite !Z.add_assoc. rewrite last_cons. by destruct (last l) as [[]|].
  - intros e He. specialize (Hx e.1 (list_elem_of_fmap_2 fst _ _ He)). lia.
Qed.

Lemma recover_position_holds d segs :
  disk_holds d segs → segs_bytes segs ≤ u64_max →
  recover_position d = Ok (last_position segs, segs_bytes segs, segs_lines segs).
Proof.
  intros Hd Hmax. unfold recover_position. rewrite (segment_files_holds _ _ Hd).
  rewrite (recover_loop_holds _ segs); [done|done|done|apply (dh_sorted _ _ Hd)| |lia|].
  - intros [s b] Hin. apply (holds_u64 _ _ _ _ Hd) in Hin. simpl; width_lia.
  - pose proof (segs_lines_bound segs). lia.
Qed.
End disk.
