(* ===== verification/EventWalQueue.v ===== *)
(** * EventWalQueue: the event log implements a durable queue

    The abstract state is the list of records that were appended and not yet
    acknowledged.  [wal_rep] relates a writer and its directory to that list;
    appending, reading the next record, acknowledging, compacting and reopening
    preserve it. *)

From Stdlib Require Import ZArith Ascii String.
From stdpp Require Import base gmap strings list sorting.
From S2P Require Import Prelude Text EventWal EventWalDisk.

Local Open Scope Z_scope.

Section queue.
Context `{WalCodec} `{!WalCodecLaws}.
(** A bound on the bytes kept, at least the limit of the configuration. *)
Context (bound : Z) (bound_max : bound ≤ MAX_TOTAL_BYTES).
Abbreviation Record_ := (WalRecord Payload).
Implicit Types (d : Disk) (w : WalWriter) (c : Checkpoint) (r : Record_).
Abbreviation log := (list (Z * list Record_)).

(** ** Records on disk *)

Definition line (r : Record_) : bytes := default [] (record_to_vec r) ++ [10].
Definition lines (rs : list Record_) : bytes := flat_map line rs.
Definition readable (r : Record_) : Prop :=
  is_Some (record_to_vec r) ∧ faithful (payload r) ∧ verify_checksum r = true.

(** The records [rs] lie in segment [s] one after the other, from offset [o]. *)
Fixpoint placed (s o : Z) (rs : list Record_) : Prop :=
  match rs with
  | [] => True
  | r :: rs =>
      segment r = s ∧ offset r = o ∧ readable r ∧ placed s (o + blen (line r)) rs
  end.

Definition seg_files (l : log) : list (Z * bytes) := (λ e, (e.1, lines e.2)) <$> l.
Definition log_records (l : log) : list Record_ := flat_map snd l.

Lemma lines_app a b : lines (a ++ b) = lines a ++ lines b.
Proof. apply flat_map_app. Qed.
Lemma lines_snoc a r : lines (a ++ [r]) = lines a ++ line r.
Proof. rewrite lines_app. unfold lines. simpl. by rewrite app_nil_r. Qed.
Lemma log_records_app a b : log_records (a ++ b) = log_records a ++ log_records b.
Proof. apply flat_map_app. Qed.
Lemma seg_files_app a b : seg_files (a ++ b) = seg_files a ++ seg_files b.
Proof. apply fmap_app. Qed.

Lemma blen_line r : 0 < blen (line r).
Proof. unfold line. rewrite blen_app. pose proof (blen_nonneg (default [] (record_to_vec r))).
  change (blen [10]) with 1. lia. Qed.

Lemma placed_app s o a b :
  placed s o (a ++ b) ↔ placed s o a ∧ placed s (o + blen (lines a)) b.
Proof.
  revert o. induction a as [|r a IH]; intros o; simpl.
  - change (blen (lines [])) with 0. rewrite Z.add_0_r. naive_solver.
  - rewrite IH. change (lines (r :: a)) with (line r ++ lines a).
    rewrite blen_app, Z.add_assoc. naive_solver.
Qed.

(** The text of a readable record is read back from the start of its line. *)
Lemma read_line r rest :
  readable r → read_until (line r ++ rest) = (line r, rest).
Proof.
  intros [[b Hb] _]. unfold line. rewrite Hb. simpl. rewrite <- app_assoc. simpl.
  apply read_until_line. by eapply record_no_newline.
Qed.
Lemma line_newline r : last_is_newline (line r) = true.
Proof. apply last_is_newline_line. Qed.
Lemma line_record_ok r :
  readable r → line_record (segment r) (offset r) (without_last (line r)) = Ok r.
Proof.
  intros (Hs & Hf & Hv). unfold line. rewrite without_last_line. destruct Hs as [b Hb].
  rewrite Hb. simpl. unfold line_record. rewrite (Hf r b eq_refl Hb), !Z.eqb_refl, Hv. done.
Qed.

(** A prefix of whole lines ends at a record boundary. *)
Lemma boundary_lines a p :
  validate_record_boundary (lines (a ++ p)) (blen (lines a)) (blen (lines (a ++ p))) = Ok tt.
Proof.
  unfold validate_record_boundary. rewrite lines_app, blen_app.
  pose proof (blen_nonneg (lines p)).
  rewrite (proj2 (Z.ltb_ge _ _)) by lia.
  destruct (_ || _) eqn:E; [done|]. apply orb_false_iff in E as [E0 _].
  apply Z.eqb_neq in E0. destruct (bool_decide _) eqn:Eb; [done|].
  apply bool_decide_eq_false in Eb. destruct Eb.
  induction a as [|r a _] using rev_ind; [done|].
  rewrite lines_snoc. unfold line. rewrite !app_assoc, blen_app.
  change (blen [10]) with 1.
  rewrite Z.add_simpl_r. unfold blen. rewrite Nat2Z.id.
  rewrite lookup_app_l by (rewrite !length_app; simpl; lia).
  by rewrite lookup_app_r, Nat.sub_diag by lia.
Qed.

(** ** The frontier *)

Inductive frontier (c : Checkpoint) : log → list Record_ → Prop :=
| frontier_fresh l : c = default_checkpoint → frontier c l (log_records l)
| frontier_at pre a p post :
    cp_offset c = blen (lines a) →
    frontier c (pre ++ (cp_segment c, a ++ p) :: post) (p ++ log_records post).

(** The first segment with a record, in a list of segments. *)
Lemma log_records_head l r q :
  log_records l = r :: q →
  ∃ pre s p post, l = pre ++ (s, r :: p) :: post ∧ log_records pre = []
    ∧ q = p ++ log_records post.
Proof.
  induction l as [|[s [|r' p]] l IH]; simpl; [done| |].
  - intros Hq. destruct (IH Hq) as (pre & s' & p & post & -> & Hpre & ->).
    exists ((s, []) :: pre), s', p, post. done.
  - intros [= -> <-]. exists [], s, p, l. done.
Qed.

(** Where the next record lies. *)
Lemma frontier_head c l r q :
  frontier c l (r :: q) → (∀ s rs, (s, rs) ∈ l → placed s 0 rs) →
  ∃ pre a p post, l = pre ++ (segment r, a ++ r :: p) :: post
    ∧ offset r = blen (lines a) ∧ q = p ++ log_records post.
Proof.
  intros Hf Hp. remember (r :: q) as q0 eqn:E.
  assert (Hfresh : ∀ l1 l2, l = l1 ++ l2 → log_records l2 = r :: q →
    ∃ pre a p post, l = pre ++ (segment r, a ++ r :: p) :: post
      ∧ offset r = blen (lines a) ∧ q = p ++ log_records post).
  { intros l1 l2 -> Hl2. apply log_records_head in Hl2 as (pre & s & p & post & -> & _ & ->).
    destruct (Hp s (r :: p)) as (<- & Ho & _); [rewrite !elem_of_app, elem_of_cons; auto|].
    exists (l1 ++ pre), [], p, post. by rewrite <- app_assoc. }
  destruct Hf as [l Hc|pre a p post Ho]; [by apply (Hfresh [] l)|].
  destruct p as [|r' p]; simpl in E.
  { apply (Hfresh (pre ++ [(cp_segment c, a ++ [])]) post); [by rewrite <- app_assoc|done]. }
  simplify_eq. destruct (proj1 (placed_app _ _ _ _)
    (Hp (cp_segment c) (a ++ r :: p) ltac:(rewrite elem_of_app, elem_of_cons; auto)))
    as [_ (<- & Hor & _)].
  exists pre, a, p, post. rewrite Z.add_0_l in Hor. done.
Qed.

(** ** The representation *)

Definition checkpoint_stored (d : Disk) (c : Checkpoint) : Prop :=
  (files d !! checkpoint_path = None ∧ c = default_checkpoint)
  ∨ ∃ b, files d !! checkpoint_path = Some (Regular b) ∧ checkpoint_from_str b = Some c.

(** The part on disk; [n] bounds the segment numbers and the count of
    acknowledgements, whose 64-bit counters start at zero. *)
Record disk_rep (n : Z) (d : Disk) (l : log) (c : Checkpoint) (q : list Record_) : Prop := {
  dr_holds : disk_holds d (seg_files l);
  dr_placed : ∀ s rs, (s, rs) ∈ l → placed s 0 rs;
  dr_stored : checkpoint_stored d c;
  dr_front : frontier c l q;
  dr_bytes : segs_bytes (seg_files l) ≤ bound;
  dr_segments : ∀ s rs, (s, rs) ∈ l → s ≤ n;
  dr_count : 0 ≤ acknowledged_count c ≤ n;
}.

(** The write position: the end of the last segment, or the start of a segment
    that does not exist yet. *)
Definition at_position (w : WalWriter) (l : log) : Prop :=
  (∃ l' rs, l = l' ++ [(current_segment w, rs)] ∧ current_offset w = blen (lines rs))
  ∨ (current_offset w = 0 ∧ current_file w = None
     ∧ ∀ s rs, (s, rs) ∈ l → s < current_segment w).

Record wal_rep (n : Z) (w : WalWriter) (d : Disk) (l : log) (c : Checkpoint)
    (q : list Record_) : Prop := {
  wr_disk : disk_rep n d l c q;
  wr_position : at_position w l;
  wr_segment : 0 ≤ current_segment w ≤ n;
  wr_file : ∀ name, current_file w = Some name → name = segment_path (current_segment w);
  wr_total : total_bytes_written w = segs_bytes (seg_files l);
  wr_reserved : 0 ≤ reserved_bytes w;
  wr_occupancy : total_bytes_written w + reserved_bytes w ≤ bound;
  wr_config : total_bytes (config w) ≤ bound;
}.

Lemma elem_of_seg_files l s b :
  (s, b) ∈ seg_files l ↔ ∃ rs, (s, rs) ∈ l ∧ b = lines rs.
Proof.
  unfold seg_files. rewrite list_elem_of_fmap. split.
  - intros ([s' rs] & [= -> ->] & Hin). eauto.
  - intros (rs & Hin & ->). by exists (s, rs).
Qed.

Lemma seg_bytes_le l s rs :
  (s, rs) ∈ l → blen (lines rs) ≤ segs_bytes (seg_files l).
Proof.
  intros Hin. apply list_elem_of_split in Hin as (l1 & l2 & ->).
  rewrite seg_files_app, segs_bytes_app. simpl.
  pose proof (segs_bytes_nonneg (seg_files l1)).
  pose proof (segs_bytes_nonneg (seg_files l2)). lia.
Qed.

Lemma checkpoint_valid d l c q :
  disk_holds d (seg_files l) → frontier c l q → validate_checkpoint_position d c = Ok tt.
Proof.
  intros Hd Hf. unfold validate_checkpoint_position. destruct (_ && _) eqn:E; [done|].
  destruct Hf as [l Hc|pre a p post Ho]; [by rewrite Hc in E|].
  rewrite (dh_all _ _ Hd _ (lines (a ++ p))).
  - rewrite Ho. apply boundary_lines.
  - apply elem_of_seg_files. exists (a ++ p). rewrite elem_of_app, elem_of_cons. auto.
Qed.

Lemma load_checkpoint_rep n d l c q : disk_rep n d l c q → load_checkpoint d = Ok c.
Proof.
  intros Hr. unfold load_checkpoint.
  destruct (dr_stored _ _ _ _ _ Hr) as [[-> ->]|(b & -> & ->)]; [done|].
  by rewrite (checkpoint_valid d l c q (dr_holds _ _ _ _ _ Hr) (dr_front _ _ _ _ _ Hr)).
Qed.

(** ** Reading the next record *)

Definition item_of (r : Record_) : PendingItem :=
  PRecord (mkPending r (segment r) (offset r + blen (line r))).

Lemma drop_blen a b : drop (Z.to_nat (blen a)) (a ++ b) = b.
Proof. unfold blen. by rewrite Nat2Z.id, drop_app_length. Qed.

(** One segment whose start is the record boundary after [a]. *)
Lemma scan_segment d c s a p l :
  read_file d (segment_path s) = Ok (lines (a ++ p)) →
  start_offset c s = blen (lines a) → placed s 0 (a ++ p) →
  blen (lines (a ++ p)) ≤ u64_max →
  scan_pending d c ((s, segment_path s) :: l) =
  match p with
  | [] => scan_pending d c l
  | r :: _ => (Ok (Some (item_of r)), d)
  end.
Proof.
  intros Hread Hstart Hp Hmax. cbn [scan_pending].
  rewrite Hread, Hstart, boundary_lines, lines_app, blen_app.
  apply placed_app in Hp as [_ Hp]. rewrite Z.add_0_l in Hp.
  rewrite lines_app, blen_app in Hmax. pose proof (blen_nonneg (lines a)).
  destruct p as [|r p].
  { change (blen (lines [])) with 0. by rewrite Z.add_0_r, Z.eqb_refl. }
  change (lines (r :: p)) with (line r ++ lines p) in *. rewrite blen_app in *.
  pose proof (blen_line r). pose proof (blen_nonneg (lines p)).
  destruct Hp as (Hs & Ho & Hr & _).
  rewrite (proj2 (Z.eqb_neq _ _)) by lia.
  rewrite drop_blen, read_line by done. cbn [fst].
  rewrite (proj2 (Nat.eqb_neq _ _)) by (unfold blen in *; lia).
  rewrite line_newline. cbn [negb]. rewrite <- Hs, <- Ho.
  rewrite line_record_ok by done. unfold item_of. do 5 f_equal.
  rewrite wrap64_small; [done|]. width_lia.
Qed.

(** The segments after the frontier are read from their start. *)
Lemma scan_rest d c l l' :
  disk_holds d (seg_files l) → (∀ e, e ∈ l' → e ∈ l) →
  (∀ s rs, (s, rs) ∈ l → placed s 0 rs) → segs_bytes (seg_files l) ≤ u64_max →
  (∀ e, e ∈ l' → start_offset c e.1 = 0) →
  scan_pending d c (listing (seg_files l')) = (Ok (item_of <$> head (log_records l')), d).
Proof.
  intros Hd Hin Hp Hmax Hst. induction l' as [|[s rs] l' IH]; [done|].
  assert (Hs : (s, rs) ∈ l) by (apply Hin, elem_of_cons; by left).
  change (listing (seg_files ((s, rs) :: l')))
    with ((s, segment_path s) :: listing (seg_files l')).
  rewrite (scan_segment d c s [] rs).
  - destruct rs as [|r rs]; [|done]. apply IH.
    + intros e He. apply Hin, elem_of_cons. by right.
    + intros e He. apply Hst, elem_of_cons. by right.
  - eapply read_file_holds; [done|]. apply elem_of_seg_files. eauto.
  - change (blen (lines [])) with 0. apply (Hst (s, rs)), elem_of_cons. by left.
  - by apply Hp.
  - pose proof (seg_bytes_le _ _ _ Hs). simpl. lia.
Qed.

Lemma from_checkpoint_listing c l :
  from_checkpoint c (listing (seg_files l)) =
  listing (seg_files (filter (λ e : Z * list Record_, cp_segment c ≤ e.1) l)).
Proof.
  unfold from_checkpoint, listing, seg_files.
  by rewrite !filter_fmap.
Qed.

(** Compaction and the readers keep the segments from the frontier's on. *)
Lemma filter_sorted_split (l1 l2 : log) s rs :
  StronglySorted Z.lt (seg_files (l1 ++ (s, rs) :: l2)).*1 →
  filter (λ e : Z * list Record_, s ≤ e.1) (l1 ++ (s, rs) :: l2) = (s, rs) :: l2
  ∧ ∀ s' rs', (s', rs') ∈ l2 → s < s'.
Proof.
  unfold seg_files. rewrite <- list_fmap_compose, fmap_app. simpl.
  intros (Hlt & _ & [_ Hx]%StronglySorted_inv)%StronglySorted_app.
  rewrite Forall_forall in Hx.
  assert (Hgt : ∀ s' rs', (s', rs') ∈ l2 → s < s').
  { intros s' rs' Hin. apply Hx. change s' with (fst (s', rs')).
    by apply (list_elem_of_fmap_2 (λ e : Z * list Record_, e.1)) in Hin. }
  split; [|done]. rewrite filter_app, filter_cons. case_decide; simpl in *; [|lia].
  rewrite (filter_all _ l2), (filter_none _ l1); [done| |].
  - apply Forall_forall. intros [s' rs'] Hin Hle. simpl in *.
    specialize (Hlt s' s). assert (s' < s); [|lia]. apply Hlt; [|by left].
    by apply (list_elem_of_fmap_2 (λ e : Z * list Record_, e.1)) in Hin.
  - apply Forall_forall. intros [s' rs'] Hin. simpl. specialize (Hgt _ _ Hin). lia.
Qed.

(** Before the first acknowledgement every segment is pending. *)
Lemma frontier_fresh_segments d c l :
  c = default_checkpoint → disk_holds d (seg_files l) →
  Forall (λ e : Z * list Record_, cp_segment c ≤ e.1) l.
Proof.
  intros -> Hd. apply Forall_forall. intros [s rs] Hin. simpl.
  assert (u64_ok s); [|width_lia]. eapply holds_u64; [exact Hd|].
  apply elem_of_seg_files. eauto.
Qed.

(** [next_pending] answers the head of the queue and changes nothing. *)
Lemma next_pending_rep n d l c q :
  disk_rep n d l c q → next_pending d c = (Ok (item_of <$> head q), d).
Proof.
  intros [Hd Hp _ Hf Hb _ _]. unfold next_pending.
  assert (Hmax : segs_bytes (seg_files l) ≤ u64_max)
    by (unfold MAX_TOTAL_BYTES in *; width_lia).
  rewrite (checkpoint_valid d l c q Hd Hf), (segment_files_holds _ _ Hd), from_checkpoint_listing.
  destruct Hf as [l Hc|pre a p post Ho].
  - rewrite filter_all by (eapply frontier_fresh_segments; eauto).
    apply (scan_rest d c l l); auto. intros e He. unfold start_offset. rewrite Hc. simpl.
    by destruct (_ =? _).
  - destruct (filter_sorted_split _ _ _ _ (dh_sorted _ _ Hd)) as [-> Hgt].
    assert (Hin : (cp_segment c, a ++ p) ∈ pre ++ (cp_segment c, a ++ p) :: post)
      by (rewrite elem_of_app, elem_of_cons; auto).
    pose proof (seg_bytes_le _ _ _ Hin).
    change (listing (seg_files ((cp_segment c, a ++ p) :: post)))
      with ((cp_segment c, segment_path (cp_segment c)) :: listing (seg_files post)).
    rewrite (scan_segment d c (cp_segment c) a p); [| |by unfold start_offset; rewrite Z.eqb_refl|by apply Hp|lia].
    + destruct p as [|r p]; [|done]. eapply scan_rest; [exact Hd| |done|done|].
      * intros e He. rewrite elem_of_app, elem_of_cons. auto.
      * intros [s rs] He. unfold start_offset. specialize (Hgt _ _ He). simpl.
        by rewrite (proj2 (Z.eqb_neq _ _)) by lia.
    + eapply read_file_holds; [done|]. apply elem_of_seg_files. eauto.
Qed.

(** ** Reading many records *)

Lemma length_lines rs : (length rs ≤ length (lines rs))%nat.
Proof.
  induction rs as [|r rs IH]; [done|]. change (lines (r :: rs)) with (line r ++ lines rs).
  rewrite length_app. pose proof (blen_line r). unfold blen in *. simpl. lia.
Qed.

Lemma read_records_lines fuel d s m o p acc :
  placed s o p → 0 ≤ o → o + blen (lines p) ≤ u64_max → (length p < fuel)%nat →
  read_records fuel d s m o (lines p) acc = (Ok (acc ++ take (m - length acc) p), d).
Proof.
  revert o p acc. induction fuel as [|fuel IH]; intros o p acc Hp Ho Hmax Hf; [lia|].
  cbn [read_records]. destruct (Nat.leb_spec m (length acc)) as [Hm|Hm].
  { replace (m - length acc)%nat with 0%nat by lia. by rewrite take_0, app_nil_r. }
  destruct p as [|r p]; [by rewrite take_nil, app_nil_r|].
  change (lines (r :: p)) with (line r ++ lines p) in *. rewrite blen_app in Hmax.
  destruct Hp as (Hs & Hor & Hr & Hp). rewrite read_line by done.
  pose proof (blen_line r). pose proof (blen_nonneg (lines p)).
  destruct (line r) as [|x t] eqn:El; [done|]. rewrite <- El in *. clear El x t.
  rewrite line_newline. cbn [negb].
  pose proof (line_record_ok r Hr) as Hok. unfold line_record in Hok.
  destruct (record_from_slice _) as [r'|]; [|done].
  rewrite <- Hs, <- Hor. destruct (_ || _); [done|].
  destruct (negb (verify_checksum r')); [done|]. injection Hok as ->.
  rewrite wrap64_small by (split; lia). rewrite Hs, Hor.
  rewrite IH; [|done|lia|lia|simpl in Hf; lia].
  rewrite length_app, <- app_assoc. cbn [length].
  replace (m - length acc)%nat with (S (m - (length acc + 1)))%nat by lia. done.
Qed.

Lemma read_records_segment d s a p m :
  read_file d (segment_path s) = Ok (lines (a ++ p)) → placed s 0 (a ++ p) →
  blen (lines (a ++ p)) ≤ u64_max →
  read_records_from_file d s (segment_path s) (blen (lines a)) m = (Ok (take m p), d).
Proof.
  intros Hread Hp Hmax. unfold read_records_from_file.
  destruct (Nat.eqb_spec m 0) as [->|Hm]; [done|].
  rewrite Hread, boundary_lines. rewrite lines_app, drop_blen.
  apply placed_app in Hp as [_ Hp]. rewrite Z.add_0_l in Hp.
  rewrite lines_app, blen_app in Hmax.
  rewrite read_records_lines; [|done|apply blen_nonneg|done|].
  - simpl. by rewrite Nat.sub_0_r.
  - rewrite length_app. pose proof (length_lines p). lia.
Qed.

Lemma read_segments_rest d c l l' m acc :
  disk_holds d (seg_files l) → (∀ e, e ∈ l' → e ∈ l) →
  (∀ s rs, (s, rs) ∈ l → placed s 0 rs) → segs_bytes (seg_files l) ≤ u64_max →
  (∀ e, e ∈ l' → start_offset c e.1 = 0) →
  read_segments d c m (listing (seg_files l')) acc =
  (Ok (acc ++ take (m - length acc) (log_records l')), d).
Proof.
  intros Hd Hin Hp Hmax Hst. revert acc. induction l' as [|[s rs] l' IH]; intros acc.
  { simpl. by rewrite take_nil, app_nil_r. }
  assert (Hs : (s, rs) ∈ l) by (apply Hin, elem_of_cons; by left).
  change (listing (seg_files ((s, rs) :: l')))
    with ((s, segment_path s) :: listing (seg_files l')). cbn [read_segments].
  destruct (Nat.leb_spec m (length acc)) as [Hm|Hm].
  { replace (m - length acc)%nat with 0%nat by lia. by rewrite take_0, app_nil_r. }
  pose proof (Hst (s, rs) ltac:(apply elem_of_cons; by left)) as Hst0. simpl in Hst0.
  rewrite Hst0, (read_records_segment d s [] rs); simpl.
  - rewrite IH; [|intros e He; apply Hin, elem_of_cons; by right
                 |intros e He; apply Hst, elem_of_cons; by right].
    rewrite length_app, length_take, <- app_assoc, take_app.
    by replace (m - (length acc + (m - length acc) `min` length rs))%nat
      with (m - length acc - length rs)%nat by lia.
  - eapply read_file_holds; [done|]. apply elem_of_seg_files. eauto.
  - by apply Hp.
  - pose proof (seg_bytes_le _ _ _ Hs). lia.
Qed.

(** [read_from] answers the first records of the queue and changes nothing. *)
Lemma read_from_rep n d l c q m :
  disk_rep n d l c q → read_from d c m = (Ok (take m q), d).
Proof.
  intros [Hd Hp _ Hf Hb _ _]. unfold read_from.
  assert (Hmax : segs_bytes (seg_files l) ≤ u64_max)
    by (unfold MAX_TOTAL_BYTES in *; width_lia).
  rewrite (checkpoint_valid d l c q Hd Hf), (segment_files_holds _ _ Hd), from_checkpoint_listing.
  destruct Hf as [l Hc|pre a p post Ho].
  - rewrite filter_all by (eapply frontier_fresh_segments; eauto).
    rewrite (read_segments_rest d c l l); auto; [simpl; by rewrite Nat.sub_0_r|].
    intros e He. unfold start_offset. rewrite Hc. simpl. by destruct (_ =? _).
  - destruct (filter_sorted_split _ _ _ _ (dh_sorted _ _ Hd)) as [-> Hgt].
    assert (Hin : (cp_segment c, a ++ p) ∈ pre ++ (cp_segment c, a ++ p) :: post)
      by (rewrite elem_of_app, elem_of_cons; auto).
    pose proof (seg_bytes_le _ _ _ Hin).
    change (listing (seg_files ((cp_segment c, a ++ p) :: post)))
      with ((cp_segment c, segment_path (cp_segment c)) :: listing (seg_files post)).
    cbn [read_segments length]. destruct m as [|m]; [done|]. cbn [Nat.leb].
    unfold start_offset at 1. rewrite Z.eqb_refl, Ho, (read_records_segment d _ a p);
      [|by eapply read_file_holds; [done|]; apply elem_of_seg_files; eauto|by apply Hp|lia].
    cbn [app]. rewrite Nat.sub_0_r. erewrite read_segments_rest; [|exact Hd| |done|done|].
    + rewrite take_app, length_take.
      by replace (S m - S m `min` length p)%nat with (S m - length p)%nat by lia.
    + intros e He. rewrite elem_of_app, elem_of_cons. auto.
    + intros [s rs] He. unfold start_offset. specialize (Hgt _ _ He). simpl.
      by rewrite (proj2 (Z.eqb_neq _ _)) by lia.
Qed.

(** ** Acknowledging the next record *)

Lemma segs_from_seg_files s l :
  segs_from s (seg_files l) = seg_files (filter (λ e : Z * list Record_, s ≤ e.1) l).
Proof. unfold segs_from, seg_files. by rewrite filter_fmap. Qed.

Lemma compact_files d segs c :
  disk_holds d segs → validate_checkpoint_position d c = Ok tt →
  ∃ k d', compact_segments d c = Ok (k, d')
    ∧ disk_holds d' (segs_from (cp_segment c) segs)
    ∧ files d' !! checkpoint_path = files d !! checkpoint_path.
Proof.
  intros Hd Hv. unfold compact_segments. rewrite Hv, (segment_files_holds _ _ Hd).
  pose proof (holds_remove_before d segs (cp_segment c) Hd) as Hr.
  pose proof (remove_before_other d (cp_segment c) segs checkpoint_path
    checkpoint_path_not_segment (dh_range _ _ Hd)) as Ho.
  destruct (remove_before _ _ _) as [d' k]. eauto.
Qed.

Lemma at_position_suffix w pre l :
  at_position w (pre ++ l) → (l = [] → pre = []) → at_position w l.
Proof.
  intros [(l' & rs & E & Ho)|(Ho & Hf & Hlt)] Hne.
  - left. induction l as [|e l _] using rev_ind.
    + rewrite (Hne eq_refl) in E. by destruct l'.
    + rewrite app_assoc in E. apply app_inj_tail in E as [_ ->]. eauto.
  - right. split_and!; [done|done|]. intros s rs Hin. apply (Hlt s rs), elem_of_app. by right.
Qed.

(** Compaction removes acknowledged segments only. *)
Lemma compact_rep n d l c q :
  disk_rep n d l c q →
  ∃ k d' pre l', compact_segments d c = Ok (k, d') ∧ disk_rep n d' l' c q
    ∧ l = pre ++ l' ∧ (l' = [] → pre = []) ∧ disk_bytes d' = Ok (segs_bytes (seg_files l')).
Proof.
  intros [Hd Hp Hst Hf Hb Hs Hc].
  destruct (compact_files d (seg_files l) c Hd (checkpoint_valid d l c q Hd Hf))
    as (k & d' & Hk & Hd' & Hck).
  rewrite segs_from_seg_files in Hd'.
  set (l' := filter (λ e : Z * list Record_, cp_segment c ≤ e.1) l) in *.
  assert (Hsplit : ∃ pre, l = pre ++ l' ∧ (l' = [] → pre = []) ∧ frontier c l' q).
  { destruct Hf as [l Hc0|pre a p post Ho].
    - exists []. assert (l' = l) as ->; [|split_and!; [done|done|by constructor]].
      apply filter_all. by eapply frontier_fresh_segments.
    - destruct (filter_sorted_split _ _ _ _ (dh_sorted _ _ Hd)) as [E _]. fold l' in E.
      exists pre. rewrite E. split_and!; [done|done|]. by apply (frontier_at c [] a p post). }
  destruct Hsplit as (pre & E & Hne & Hf').
  assert (Hb' : segs_bytes (seg_files l') ≤ bound).
  { rewrite E, seg_files_app, segs_bytes_app in Hb.
    pose proof (segs_bytes_nonneg (seg_files pre)). lia. }
  exists k, d', pre, l'. split_and!; [done| |done|done|].
  - split; [done| | |done|done| |done].
    + intros s rs Hin. apply Hp. rewrite E, elem_of_app. by right.
    + unfold checkpoint_stored. by rewrite Hck.
    + intros s rs Hin. apply (Hs s rs). rewrite E, elem_of_app. by right.
  - apply disk_bytes_holds; [done|]. unfold MAX_TOTAL_BYTES in *. width_lia.
Qed.

(** The frontier never lies after the next record. *)
Lemma frontier_before n d l c r q k :
  disk_rep n d l c (r :: q) → 0 ≤ k →
  position_lt (segment r) (offset r + k) (cp_segment c) (cp_offset c) = false.
Proof.
  intros [Hd Hp _ Hf _ _ _] Hk.
  destruct (frontier_head c l r q Hf Hp) as (pre & a & p & post & El & Ho & Eq).
  pose proof (blen_nonneg (lines a)) as Ha.
  assert (Hu : u64_ok (segment r)).
  { eapply holds_u64; [exact Hd|]. apply elem_of_seg_files. eexists. split; [|done].
    rewrite El, elem_of_app, elem_of_cons. right. by left. }
  unfold position_lt. apply orb_false_iff. remember (r :: q) as q0 eqn:E0.
  destruct Hf as [l Hc|pre' a' p' post' Ho'].
  { rewrite Hc. simpl. split; [apply Z.ltb_ge; width_lia|].
    apply andb_false_iff. right. apply Z.ltb_ge. lia. }
  destruct (filter_sorted_split _ _ _ _ (dh_sorted _ _ Hd)) as [_ Hgt].
  destruct p' as [|r' p']; simpl in E0.
  - apply log_records_head in E0 as (pre1 & s & p1 & post1 & -> & _ & _).
    assert (Hin : (s, r :: p1) ∈ pre1 ++ (s, r :: p1) :: post1)
      by (rewrite elem_of_app, elem_of_cons; auto).
    specialize (Hgt _ _ Hin). destruct (Hp s (r :: p1)) as (-> & _).
    { rewrite elem_of_app, elem_of_cons. auto. }
    split; [apply Z.ltb_ge; lia|]. apply andb_false_iff. left. apply Z.eqb_neq. lia.
  - simplify_eq.
    assert (Hpr : placed (cp_segment c) 0 (a' ++ r :: p'))
      by (apply Hp; rewrite elem_of_app, elem_of_cons; auto).
    apply placed_app in Hpr as [_ (Hs & Hor & _)]. rewrite Z.add_0_l in Hor.
    split; [apply Z.ltb_ge; lia|]. apply andb_false_iff. right. apply Z.ltb_ge. lia.
Qed.

Lemma seg_files_entry l s rs : (s, rs) ∈ l → (s, lines rs) ∈ seg_files l.
Proof. intros Hin. apply elem_of_seg_files. eauto. Qed.

(** Storing the frontier after the next record. *)
Lemma save_head n d l c r q :
  disk_rep n d l c (r :: q) → n < u64_max →
  let c' := mkCheckpoint (segment r) (offset r + blen (line r)) (acknowledged_count c + 1) in
  ∃ d', save_checkpoint d c' = Ok d' ∧ disk_rep (n + 1) d' l c' q.
Proof.
  intros [Hd Hp Hst Hf Hb Hs Hc] Hn c'.
  destruct (frontier_head c l r q Hf Hp) as (pre & a & p & post & El & Ho & ->).
  assert (Hf' : frontier c' l (p ++ log_records post)).
  { rewrite El. replace (a ++ r :: p) with ((a ++ [r]) ++ p) by (by rewrite <- app_assoc).
    apply (frontier_at c' pre (a ++ [r]) p post). simpl.
    rewrite lines_snoc, blen_app. lia. }
  assert (Hin : (segment r, a ++ r :: p) ∈ l)
    by (rewrite El, elem_of_app, elem_of_cons; auto).
  destruct (checkpoint_prints c') as [b Hpr].
  exists (write_file d checkpoint_path b). unfold save_checkpoint.
  rewrite (checkpoint_valid d l c' _ Hd Hf'), Hpr. split; [done|].
  split; [by apply holds_write_other|done| |done|done| |simpl; lia].
  - right. exists b. split; [apply lookup_insert_eq|]. apply checkpoint_reads; simpl; [| | |done].
    + eapply holds_u64; [exact Hd|]. by apply seg_files_entry.
    + pose proof (seg_bytes_le _ _ _ Hin) as Hl. pose proof (blen_nonneg (lines a)).
      pose proof (blen_line r). pose proof (blen_nonneg (lines p)).
      rewrite lines_app, blen_app in Hl. change (lines (r :: p)) with (line r ++ lines p) in Hl.
      rewrite blen_app in Hl. unfold MAX_TOTAL_BYTES in *. width_lia.
    + width_lia.
  - intros s rs Hin'. specialize (Hs s rs Hin'). lia.
Qed.

(** Acknowledging the next record removes it from the queue. *)
Lemma acknowledge_rep n w d l c r q :
  wal_rep n w d l c (r :: q) → n < u64_max →
  ∃ c' w' d' l',
    acknowledge w d (segment r) (offset r + blen (line r)) = (Ok c', w', d')
    ∧ wal_rep (n + 1) w' d' l' c' q
    ∧ w' = set_total w (total_bytes_written w')
    ∧ acknowledged_count c' = acknowledged_count c + 1.
Proof.
  intros [Hr Hpos Hseg Hfile Htot Hres Hocc Hcfg] Hn. unfold acknowledge.
  rewrite (load_checkpoint_rep _ _ _ _ _ Hr), (frontier_before _ _ _ _ _ _ _ Hr)
    by (pose proof (blen_line r); lia).
  rewrite checked_add64_ok by (pose proof (dr_count _ _ _ _ _ Hr); lia).
  destruct (save_head _ _ _ _ _ _ Hr Hn) as (d1 & -> & Hr1).
  destruct (compact_rep _ _ _ _ _ Hr1) as (k & d2 & pre & l2 & Hk & Hr2 & El & Hne & Hby).
  rewrite Hk, Hby.
  assert (Hle : segs_bytes (seg_files l2) ≤ total_bytes_written w).
  { rewrite Htot, El, seg_files_app, segs_bytes_app.
    pose proof (segs_bytes_nonneg (seg_files pre)). lia. }
  rewrite (proj2 (Z.leb_le _ _) Hle).
  eexists _, (set_total w (segs_bytes (seg_files l2))), d2, l2.
  split; [done|]. split; [|done].
  split; simpl; [done| |lia|done|done|done|lia|done].
  rewrite El in Hpos. by apply at_position_suffix in Hpos.
Qed.

(** ** Appending *)

Lemma log_records_last l s rs : log_records (l ++ [(s, rs)]) = log_records l ++ rs.
Proof. rewrite log_records_app. unfold log_records. simpl. by rewrite app_nil_r. Qed.

Lemma frontier_new_segment c l s q : frontier c l q → frontier c (l ++ [(s, [])]) q.
Proof.
  intros [l' Hc|pre a p post Ho].
  - rewrite <- (app_nil_r (log_records l')), <- (log_records_last l' s []). by constructor.
  - rewrite <- (app_nil_r (log_records post)), <- (log_records_last post s []).
    rewrite <- app_assoc. by apply frontier_at.
Qed.

Lemma frontier_snoc c l s rs r q :
  frontier c (l ++ [(s, rs)]) q → frontier c (l ++ [(s, rs ++ [r])]) (q ++ [r]).
Proof.
  intros Hf. inversion Hf as [l' Hc E|pre a p post Ho E]; subst.
  - rewrite log_records_last, <- app_assoc, <- log_records_last with (s := s). by constructor.
  - induction post as [|e post _] using rev_ind.
    + apply app_inj_tail in E as [-> [= <- <-]].
      replace ((p ++ log_records []) ++ [r]) with ((p ++ [r]) ++ log_records [])
        by (unfold log_records; simpl; by rewrite !app_nil_r).
      rewrite <- app_assoc. by apply frontier_at.
    + rewrite app_comm_cons, app_assoc in E. apply app_inj_tail in E as [<- ->].
      rewrite log_records_last, <- !app_assoc, <- log_records_last with (s := s).
      by apply frontier_at.
Qed.

(** The directory after the file of the last segment is written. *)
Lemma disk_rep_write n d l c q s rs :
  holds_but d (seg_files l) s → placed s 0 rs → s ≤ n →
  (∀ s' rs', (s', rs') ∈ l → placed s' 0 rs' ∧ s' ≤ n) →
  checkpoint_stored d c → 0 ≤ acknowledged_count c ≤ n →
  segs_bytes (seg_files l) + blen (lines rs) ≤ bound →
  frontier c (l ++ [(s, rs)]) q →
  disk_rep n (write_file d (segment_path s) (lines rs)) (l ++ [(s, rs)]) c q.
Proof.
  intros Hb Hp Hs Hl Hst Hc Hby Hf.
  assert (Hel : ∀ s' rs', (s', rs') ∈ l ++ [(s, rs)] → placed s' 0 rs' ∧ s' ≤ n).
  { intros s' rs' [Hin|[= -> ->]%list_elem_of_singleton]%elem_of_app; auto. }
  split; [| | |done| | |done].
  - rewrite seg_files_app. by apply holds_write_last.
  - intros s' rs' Hin. by apply Hel.
  - unfold checkpoint_stored in *. simpl. rewrite lookup_insert_ne; [done|].
    intros E. pose proof checkpoint_path_not_segment as Hne. rewrite <- E in Hne.
    rewrite parse_segment_path in Hne; [done|]. apply (hb_u64 _ _ _ Hb).
  - rewrite seg_files_app, segs_bytes_app. simpl. lia.
  - intros s' rs' Hin. by apply (Hel s' rs').
Qed.

Lemma disk_rep_mono n m d l c q : disk_rep n d l c q → n ≤ m → disk_rep m d l c q.
Proof.
  intros [] Hm. split; [done..| |lia]. intros s rs Hin. specialize (dr_segments0 s rs Hin). lia.
Qed.
(** Only the files of the log matter, not the quarantine. *)
Lemma disk_rep_files n d d' l c q :
  files d' = files d → disk_rep n d l c q → disk_rep n d' l c q.
Proof.
  intros E []. split; try done; [by eapply holds_files|].
  unfold checkpoint_stored in *. by rewrite E.
Qed.
Lemma wal_rep_files n w d d' l c q :
  files d' = files d → wal_rep n w d l c q → wal_rep n w d' l c q.
Proof. intros E []. split; eauto using disk_rep_files. Qed.
Lemma wal_rep_mono n m w d l c q : wal_rep n w d l c q → n ≤ m → wal_rep m w d l c q.
Proof. intros [] Hm. split; eauto using disk_rep_mono. lia. Qed.

Lemma file_of_new_segment d l s :
  disk_holds d (seg_files l) → u64_ok s → (∀ s' rs, (s', rs) ∈ l → s' < s) →
  files d !! segment_path s = None.
Proof.
  intros Hd Hu Hlt. destruct (files d !! segment_path s) as [node|] eqn:E; [|done].
  destruct (dh_only _ _ Hd _ _ s E (parse_segment_path s Hu)) as (b & Hin & _).
  apply elem_of_seg_files in Hin as (rs & Hin & _). specialize (Hlt _ _ Hin). lia.
Qed.

Lemma ensure_file_rep n w d l c q :
  wal_rep n w d l c q → n ≤ u64_max →
  ∃ d' l' rs,
    let w' := set_position w (current_segment w) (current_offset w)
                (Some (segment_path (current_segment w))) in
    ensure_file w d = (segment_path (current_segment w), w', d')
    ∧ wal_rep n w' d' (l' ++ [(current_segment w, rs)]) c q
    ∧ current_offset w = blen (lines rs).
Proof.
  intros [Hr Hpos Hseg Hfile Htot Hres Hocc Hcfg] Hn. unfold ensure_file.
  destruct Hpos as [(l' & rs & -> & Ho)|(Ho & Hnone & Hlt)].
  - exists d, l', rs.
    assert (Hw : wal_rep n (set_position w (current_segment w) (current_offset w)
        (Some (segment_path (current_segment w)))) d (l' ++ [(current_segment w, rs)]) c q).
    { split; [done|left; eauto|done| |done..]. by intros name [= <-]. }
    destruct (current_file w) as [name|] eqn:Ef.
    + rewrite (Hfile name eq_refl) in *. split_and!; [|done|done].
      f_equal. f_equal. destruct w; simpl in *. by subst.
    + rewrite (dh_all _ _ (dr_holds _ _ _ _ _ Hr) (current_segment w) (lines rs)); [done|].
      apply seg_files_entry. rewrite elem_of_app, list_elem_of_singleton. auto.
  - rewrite Hnone. assert (Hu : u64_ok (current_segment w)) by width_lia.
    rewrite (file_of_new_segment d l _ (dr_holds _ _ _ _ _ Hr) Hu Hlt).
    exists (write_file d (segment_path (current_segment w)) []), l, [].
    split_and!; [done| |by rewrite Ho].
    assert (Hby : segs_bytes (seg_files (l ++ [(current_segment w, [])]))
      = segs_bytes (seg_files l)).
    { rewrite seg_files_app, segs_bytes_app. change (segs_bytes (seg_files [(_, [])])) with 0. lia. }
    split; simpl; [|left; exists l, []; by rewrite Ho|done|by intros ? [= <-]|lia|done|lia|done].
    destruct Hr as [Hd Hp Hst Hf Hb Hs Hc].
    apply (disk_rep_write n d l c q (current_segment w) []); try done.
    + apply holds_but_new; [done|done|]. intros s' b (rs & Hin & _)%elem_of_seg_files. eauto.
    + lia.
    + intros s' rs Hin. split; eauto.
    + change (blen (lines [])) with 0. lia.
    + by apply frontier_new_segment.
Qed.

Lemma wal_rep_total n w d l c q :
  wal_rep n w d l c q → 0 ≤ total_bytes_written w ≤ bound.
Proof.
  intros Hw. pose proof (segs_bytes_nonneg (seg_files l)).
  pose proof (wr_total _ _ _ _ _ _ Hw). pose proof (wr_reserved _ _ _ _ _ _ Hw).
  pose proof (wr_occupancy _ _ _ _ _ _ Hw). lia.
Qed.

(** The capacity test, with its compaction, keeps the queue. *)
Lemma ensure_capacity_rep n w d l c q k :
  wal_rep n w d l c q → 0 ≤ k →
  ∃ w' d' l' res, ensure_capacity w d k = (res, w', d')
    ∧ wal_rep n w' d' l' c q ∧ w' = set_total w (total_bytes_written w')
    ∧ (res = Ok tt →
       total_bytes_written w' + reserved_bytes w' + k ≤ total_bytes (config w')).
Proof.
  intros Hw Hk. unfold ensure_capacity.
  assert (Hid : w = set_total w (total_bytes_written w)) by (by destruct w).
  assert (Hocc : ∀ t o, checked_add64 t (reserved_bytes w) ≫= (λ v, checked_add64 v k) = Some o →
    o = t + reserved_bytes w + k).
  { intros t o. unfold checked_add64. destruct (_ <=? _); simpl; [|done].
    destruct (_ <=? _); [|done]. by intros [= <-]. }
  destruct (_ ≫= _) as [o|] eqn:E; [|by eexists w, d, l, _].
  apply Hocc in E as ->. destruct (Z.leb_spec (total_bytes_written w + reserved_bytes w + k)
    (total_bytes (config w))) as [Hle|Hgt].
  { by eexists w, d, l, _. }
  destruct Hw as [Hr Hpos Hseg Hfile Htot Hres Hoc Hcfg].
  rewrite (load_checkpoint_rep _ _ _ _ _ Hr).
  destruct (compact_rep _ _ _ _ _ Hr) as (m & d2 & pre & l2 & -> & Hr2 & El & Hne & ->).
  assert (Hle : segs_bytes (seg_files l2) ≤ total_bytes_written w).
  { rewrite Htot, El, seg_files_app, segs_bytes_app.
    pose proof (segs_bytes_nonneg (seg_files pre)). lia. }
  assert (Hw2 : wal_rep n (set_total w (segs_bytes (seg_files l2))) d2 l2 c q).
  { split; simpl; [done| |done|done|done|done|lia|done].
    rewrite El in Hpos. by apply at_position_suffix in Hpos. }
  exists (set_total w (segs_bytes (seg_files l2))), d2, l2. simpl.
  destruct (_ ≫= _) as [o|] eqn:E; [|by eexists]. apply Hocc in E as ->.
  by destruct (Z.leb_spec (segs_bytes (seg_files l2) + reserved_bytes w + k)
    (total_bytes (config w))); eexists.
Qed.

(** ** The write *)

Definition rolled_back (out : WriteOutcome) : Prop :=
  match out with WriteOk => True | WriteErr _ truncated => truncated = true end.

(** What an append leaves of the writer besides its position and counters. *)
Definition same_writer (w w' : WalWriter) : Prop :=
  config w' = config w ∧ writer_id w' = writer_id w.

(** The reservation after the append, and the bytes held for other ones. *)
Definition others (w : WalWriter) (res : option WalReservation) : Z :=
  reserved_bytes w - match res with Some a => remaining_bytes a | None => 0 end.

Definition res_ok (w : WalWriter) (res : option WalReservation) : Prop :=
  match res with Some a => 0 ≤ remaining_bytes a ≤ reserved_bytes w | None => True end.

Lemma file_exists_rep n w d l c q s rs :
  wal_rep n w d (l ++ [(s, rs)]) c q → read_file d (segment_path s) = Ok (lines rs).
Proof.
  intros Hw. eapply read_file_holds; [apply (dr_holds _ _ _ _ _ (wr_disk _ _ _ _ _ _ Hw))|].
  apply seg_files_entry. rewrite elem_of_app, list_elem_of_singleton. auto.
Qed.

(** The last segment is rewritten with other records. *)
Lemma disk_rep_set_last n d l c q q' s rs rs' :
  disk_rep n d (l ++ [(s, rs)]) c q → placed s 0 rs' →
  segs_bytes (seg_files l) + blen (lines rs') ≤ bound →
  frontier c (l ++ [(s, rs')]) q' →
  disk_rep n (write_file d (segment_path s) (lines rs')) (l ++ [(s, rs')]) c q'.
Proof.
  intros [Hd Hp Hst Hf Hb Hs Hc] Hp' Hby Hf'. rewrite seg_files_app in Hd.
  apply disk_rep_write; [exact (holds_but_last d (seg_files l) s (lines rs) Hd)| | | |done..].
  - done.
  - apply (Hs s rs). rewrite elem_of_app, list_elem_of_singleton. auto.
  - intros s' rs0 Hin. split; [apply Hp|apply (Hs s' rs0)]; rewrite elem_of_app; auto.
Qed.

Lemma segs_bytes_last l s rs :
  segs_bytes (seg_files (l ++ [(s, rs)])) = segs_bytes (seg_files l) + blen (lines rs).
Proof. rewrite seg_files_app, segs_bytes_app. simpl. lia. Qed.

Lemma placed_last n d l c q s rs :
  disk_rep n d (l ++ [(s, rs)]) c q → placed s 0 rs.
Proof.
  intros Hr. apply (dr_placed _ _ _ _ _ Hr). rewrite elem_of_app, list_elem_of_singleton. auto.
Qed.

Lemma disk_rep_append n d l c q s rs r :
  disk_rep n d (l ++ [(s, rs)]) c q → readable r → segment r = s → offset r = blen (lines rs) →
  segs_bytes (seg_files (l ++ [(s, rs)])) + blen (line r) ≤ bound →
  disk_rep n (write_file d (segment_path s) (lines rs ++ line r))
    (l ++ [(s, rs ++ [r])]) c (q ++ [r]).
Proof.
  intros Hd Hr Hrs Hro Hby. rewrite segs_bytes_last in Hby. rewrite <- lines_snoc.
  eapply disk_rep_set_last; [exact Hd| | |].
  - apply placed_app. split; [by eapply placed_last|]. simpl. auto.
  - rewrite lines_snoc, blen_app. lia.
  - apply frontier_snoc, (dr_front _ _ _ _ _ Hd).
Qed.

Definition queue_after (result : Result Record_ WalError) (q : list Record_) : list Record_ :=
  match result with Ok r => q ++ [r] | Err _ => q end.

(** A reservation pays for what is written under it. *)
Definition res_after (w w' : WalWriter) (res res' : option WalReservation) : Prop :=
  res_ok w' res' ∧ others w' res' = others w res
  ∧ match res, res' with
    | Some a, Some a' =>
        reservation_of a' = reservation_of a ∧ (events_written a ≤ events_written a')%nat
    | None, None => True
    | _, _ => False
    end.

Definition append_post (n : Z) (w : WalWriter) (c : Checkpoint) (q : list Record_)
    (res : option WalReservation) (id ts : string) (p : Payload)
    (x : Result Record_ WalError * WalWriter * Disk * option WalReservation) : Prop :=
  let '(result, w', d', res') := x in
  (∃ l', wal_rep n w' d' l' c (queue_after result q))
  ∧ same_writer w w' ∧ res_after w w' res res'
  ∧ ∀ r, result = Ok r → event_id r = id ∧ timestamp r = ts ∧ payload r = p.

Lemma append_post_err n w w' d' l' c q res id ts p e :
  wal_rep n w' d' l' c q → same_writer w w' → reserved_bytes w' = reserved_bytes w →
  res_ok w res → append_post n w c q res id ts p (Err e, w', d', res).
Proof.
  intros Hw Hs Hr Hres. unfold append_post, res_after, res_ok, others in *. simpl. rewrite Hr.
  split_and!; [eauto|done| |done| |done]; by destruct res.
Qed.

(** A complete write at the end of the current segment, which is [rs]. *)
Lemma write_record_ok n w w1 d1 l rs c q id ts p res :
  let r := record_at w id ts p in
  let k := blen (line r) in
  w1 = set_position w (current_segment w) (current_offset w) (current_file w1) →
  wal_rep n w1 d1 (l ++ [(current_segment w, rs)]) c q →
  current_offset w = blen (lines rs) → res_ok w res → readable r →
  match res with
  | Some a => k ≤ remaining_bytes a
  | None => total_bytes_written w + reserved_bytes w + k ≤ bound
  end →
  append_post n w c q res id ts p
    (let '(res, reserved) :=
       match res with
       | Some r => let '(r, v) := consume r (reserved_bytes w1) k in (Some r, v)
       | None => (None, reserved_bytes w1)
       end in
     (Ok {| event_id := event_id r; timestamp := timestamp r;
            segment := current_segment w1; offset := current_offset w1;
            checksum := checksum r; payload := payload r |},
      {| config := config w1; current_segment := current_segment w1;
         current_offset := wrap64 (current_offset w1 + k);
         current_file := current_file w1;
         total_bytes_written := wrap64 (total_bytes_written w1 + k);
         records_written := wrap64 (records_written w1 + 1);
         reserved_bytes := reserved; writer_id := writer_id w1 |},
      write_file d1 (segment_path (current_segment w)) (lines rs ++ line r), res)).
Proof.
  intros r k Ew Hw1 Ho Hres Hr Hcap.
  pose proof (wal_rep_total _ _ _ _ _ _ Hw1) as Ht.
  destruct Hw1 as [Hd1 Hpos Hseg Hfile Htot Hrv Hoc Hcfg].
  assert (Hfld : current_segment w1 = current_segment w ∧ current_offset w1 = current_offset w
    ∧ config w1 = config w ∧ writer_id w1 = writer_id w ∧ reserved_bytes w1 = reserved_bytes w
    ∧ total_bytes_written w1 = total_bytes_written w) by (rewrite Ew; done).
  destruct Hfld as (E1 & E2 & E3 & E4 & E5 & E6). rewrite E1, E2, E3, E4, E5, E6 in *.
  assert (Hk : 0 < k) by apply blen_line. pose proof (blen_nonneg (lines rs)).
  assert (Hbytes : total_bytes_written w + k ≤ bound)
    by (destruct res; simpl in Hres; lia).
  rewrite segs_bytes_last in Htot. pose proof (segs_bytes_nonneg (seg_files l)).
  assert (Hmax : bound ≤ u64_max) by (unfold MAX_TOTAL_BYTES in *; width_lia).
  rewrite (wrap64_small (current_offset w + k)), (wrap64_small (total_bytes_written w + k))
    by (split; lia).
  assert (Hrep : ∀ reserved, 0 ≤ reserved → total_bytes_written w + k + reserved ≤ bound →
    wal_rep n {| config := config w; current_segment := current_segment w;
       current_offset := current_offset w + k; current_file := current_file w1;
       total_bytes_written := total_bytes_written w + k;
       records_written := wrap64 (records_written w1 + 1);
       reserved_bytes := reserved; writer_id := writer_id w |}
      (write_file d1 (segment_path (current_segment w)) (lines rs ++ line r))
      (l ++ [(current_segment w, rs ++ [r])]) c (q ++ [r])).
  { intros reserved Hv Hsum. split; simpl; try done.
    - apply disk_rep_append; [done|done|done|done|]. rewrite segs_bytes_last. lia.
    - left. exists l, (rs ++ [r]). simpl. split; [done|]. rewrite lines_snoc, blen_app. lia.
    - rewrite segs_bytes_last, lines_snoc, blen_app. lia. }
  unfold append_post, res_after, res_ok, others, same_writer, consume in *.
  destruct res as [a|]; simpl in *.
  - rewrite (wrap64_small (remaining_bytes a - k)), (wrap64_small (reserved_bytes w - k))
      by (split; lia).
    split_and!; [eexists; apply Hrep; lia|done|done|lia|lia|lia|done|lia|].
    by intros r0 [= <-].
  - split_and!; [eexists; apply Hrep; lia|done|done|done|done|done|]. by intros r0 [= <-].
Qed.

Lemma write_record_rep n w d l c q id ts p res out :
  let r := record_at w id ts p in
  wal_rep n w d l c q → n ≤ u64_max → res_ok w res → rolled_back out →
  readable r →
  match res with
  | Some a => blen (line r) ≤ remaining_bytes a
  | None => total_bytes_written w + reserved_bytes w + blen (line r) ≤ bound
  end →
  append_post n w c q res id ts p (write_record w d r (line r) res out).
Proof.
  intros r Hw Hn Hres Hout Hr Hcap.
  destruct (ensure_file_rep _ _ _ _ _ _ Hw Hn) as (d1 & l1 & rs & He & Hw1 & Ho).
  unfold write_record. rewrite He. cbn beta iota.
  rewrite (file_exists_rep _ _ _ _ _ _ _ _ Hw1).
  pose proof (wr_disk _ _ _ _ _ _ Hw1) as Hd1.
  destruct out as [|k truncated]; [by apply (write_record_ok _ _ _ _ l1)|].
  simpl in Hout. subst truncated.
  apply (append_post_err _ _ _ _ (l1 ++ [(current_segment w, rs)])); [|done|done|done].
  destruct Hw1. split; try done.
  apply (disk_rep_set_last n d1 l1 c q q _ rs); [done|by eapply placed_last| |apply (dr_front _ _ _ _ _ Hd1)].
  rewrite <- (segs_bytes_last l1 (current_segment w)). apply (dr_bytes _ _ _ _ _ Hd1).
Qed.

(** ** The operations *)

Lemma encode_record_ok r b : encode_record r = Ok b → b = line r ∧ is_Some (record_to_vec r).
Proof. unfold encode_record, line. destruct (record_to_vec r); [|done]. intros [= <-]. eauto. Qed.

Lemma record_at_readable w id ts p :
  is_Some (record_to_vec (record_at w id ts p)) → faithful p → readable (record_at w id ts p).
Proof. intros Hs Hf. split_and!; [done|done|]. apply Z.eqb_refl. Qed.

Lemma append_post_same n w w1 c q res id ts p x :
  same_writer w w1 → reserved_bytes w1 = reserved_bytes w →
  append_post n w1 c q res id ts p x → append_post n w c q res id ts p x.
Proof.
  destruct x as [[[result w'] d'] res']. intros [E1 E2] Er (Hl & [E3 E4] & (H1 & H2 & H3) & Hid).
  unfold append_post, same_writer, res_after, others in *. rewrite <- Er, E3, E4.
  split_and!; auto.
Qed.

Lemma admit_and_write_rep n w d l c q id ts p res out :
  let r := record_at w id ts p in
  wal_rep n w d l c q → n ≤ u64_max → res_ok w res → rolled_back out → readable r →
  append_post n w c q res id ts p (admit_and_write w d r (line r) res out).
Proof.
  intros r Hw Hn Hres Hout Hr. unfold admit_and_write. destruct res as [a|].
  - destruct (Z.ltb_spec (remaining_bytes a) (blen (line r))) as [Hlt|Hge].
    + by eapply append_post_err.
    + by eapply write_record_rep.
  - pose proof (blen_line r). destruct (ensure_capacity_rep n w d l c q (blen (line r)) Hw
      ltac:(lia)) as (w' & d' & l' & result & -> & Hw' & Ew & Hcap).
    assert (Hsame : same_writer w w' ∧ reserved_bytes w' = reserved_bytes w)
      by (rewrite Ew; done).
    destruct Hsame as [Hsame Hrsv].
    destruct result as [[]|e]; [|by eapply append_post_err].
    assert (Er : r = record_at w' id ts p) by (rewrite Ew; done).
    eapply append_post_same; [done|done|]. rewrite Er. eapply write_record_rep; [done..| |].
    { by rewrite <- Er. }
    specialize (Hcap eq_refl). rewrite Er in *.
    pose proof (wr_config _ _ _ _ _ _ Hw'). lia.
Qed.

Lemma rotate_rep n w d l c q :
  wal_rep n w d l c q → n < u64_max →
  wal_rep (n + 1) (rotate w) d l c q ∧ same_writer w (rotate w).
Proof.
  intros [Hr Hpos Hseg Hfile Htot Hres Hoc Hcfg] Hn. unfold rotate.
  rewrite wrap64_small by (split; lia). split; [|done].
  split; cbn -[Z.add]; try done; [apply (disk_rep_mono n); [done|lia]| |lia].
  right. split_and!; [done|done|]. intros s rs Hin. cbn -[Z.add].
  destruct Hpos as [(l' & rs' & -> & _)|(_ & _ & Hlt)].
  - pose proof (dh_sorted _ _ (dr_holds _ _ _ _ _ Hr)) as Hs.
    rewrite seg_files_app in Hs. apply (segs_sorted_snoc _ _ (lines rs')) in Hs as [_ Hs].
    apply elem_of_app in Hin as [Hin|[= -> ->]%list_elem_of_singleton]; [|lia].
    specialize (Hs s (lines rs) (seg_files_entry _ _ _ Hin)). simpl in Hs. lia.
  - specialize (Hlt _ _ Hin). lia.
Qed.

Lemma append_internal_rep n w d l c q id ts p res out :
  wal_rep n w d l c q → n < u64_max → res_ok w res → rolled_back out → faithful p →
  append_post (n + 1) w c q res id ts p (append_internal w d id ts p res out).
Proof.
  intros Hw Hn Hres Hout Hp. unfold append_internal.
  assert (Hw1 : wal_rep (n + 1) w d l c q) by (eapply wal_rep_mono; [done|lia]).
  destruct (encode_record _) as [b|e] eqn:Eb; [|by eapply append_post_err].
  apply encode_record_ok in Eb as [-> Hs].
  destruct (_ <? _); [by eapply append_post_err|].
  destruct (_ <? _); [by eapply append_post_err|].
  destruct (_ && _).
  - destruct (rotate_rep _ _ _ _ _ _ Hw Hn) as [Hw2 Hsame].
    destruct (encode_record _) as [b|e] eqn:Eb; [|by eapply append_post_err].
    apply encode_record_ok in Eb as [-> Hs2].
    eapply append_post_same; [done|done|].
    eapply admit_and_write_rep; [done|lia|done|done|]. by apply record_at_readable.
  - eapply admit_and_write_rep; [done|lia|done|done|]. by apply record_at_readable.
Qed.

(** An append without reservation. *)
Lemma append_rep n w d l c q id ts p out :
  wal_rep n w d l c q → n < u64_max → rolled_back out → faithful p →
  ∃ result w' d' l', append w d id ts p out = (result, w', d')
    ∧ wal_rep (n + 1) w' d' l' c (queue_after result q)
    ∧ writer_id w' = writer_id w ∧ reserved_bytes w' = reserved_bytes w
    ∧ ∀ x, result = Ok x → payload x = p ∧ event_id x = id.
Proof.
  intros Hw Hn Hout Hp.
  pose proof (append_internal_rep n w d l c q id ts p None out Hw Hn I Hout Hp) as Hpost.
  unfold append. destruct (append_internal _ _ _ _ _ _ _) as [[[r w'] d'] res].
  destruct Hpost as ([l' Hw'] & [_ Eid] & (_ & Hoth & Hres) & Hx).
  destruct res; [done|]. unfold others in Hoth. exists r, w', d', l'.
  split_and!; [done|done|done|lia|]. intros x ->. destruct (Hx x eq_refl) as (? & _ & ?). auto.
Qed.

(** Opening the directory again finds the same queue. *)
Lemma wal_open_rep n d l c q cfg id :
  disk_rep n d l c q → 0 ≤ n → validate cfg = Ok tt → total_bytes cfg ≤ bound →
  ∃ w, wal_open cfg id d = Ok w ∧ wal_rep n w d l c q ∧ config w = cfg
    ∧ reserved_bytes w = 0 ∧ writer_id w = id.
Proof.
  intros Hr Hn Hcfg Hcb. unfold wal_open. rewrite Hcfg, (load_checkpoint_rep _ _ _ _ _ Hr).
  pose proof Hr as [Hd Hp Hst Hf Hb Hs Hc].
  pose proof (segs_bytes_nonneg (seg_files l)).
  rewrite (recover_position_holds _ _ Hd) by (unfold MAX_TOTAL_BYTES in *; width_lia).
  unfold last_position. destruct (last (seg_files l)) as [[s b]|] eqn:El.
  - apply last_Some in El as [segs El].
    assert (Hlast : ∃ l' rs, l = l' ++ [(s, rs)] ∧ b = lines rs).
    { induction l as [|[s' rs] l _] using rev_ind; [by destruct segs|].
      rewrite seg_files_app in El. apply app_inj_tail in El as [_ [= <- <-]]. eauto. }
    destruct Hlast as (l' & rs & -> & ->).
    assert (Hin : (s, rs) ∈ l' ++ [(s, rs)])
      by (rewrite elem_of_app, list_elem_of_singleton; auto).
    assert (u64_ok s) by (eapply holds_u64; [exact Hd|by apply seg_files_entry]).
    eexists. split; [done|]. split; [|done].
    split; simpl; try done; [left; eauto| |lia]. specialize (Hs s rs Hin). width_lia.
  - apply last_None in El. assert (l = []) as -> by (by destruct l).
    eexists. split; [done|]. split; [|done].
    split; simpl; try done. right. split_and!; [done|done|].
    intros s rs Hin. by apply elem_of_nil in Hin.
Qed.

(** An empty directory is an empty queue. *)
Lemma empty_disk_rep : 0 ≤ bound → disk_rep 0 (mkDisk ∅ ∅) [] default_checkpoint [].
Proof.
  intros Hb. split; simpl; try done.
  - split; simpl; [constructor|constructor| |].
    + intros name node s Hn. by rewrite lookup_empty in Hn.
    + intros s b Hin. by apply elem_of_nil in Hin.
  - intros s rs Hin. by apply elem_of_nil in Hin.
  - left. split; [apply lookup_empty|done].
  - by apply (frontier_fresh default_checkpoint []).
  - intros s rs Hin. by apply elem_of_nil in Hin.
Qed.

(** ** The quarantine is only added to *)

Lemma remove_before_quarantine d k segs : quarantine (remove_before d k segs).1 = quarantine d.
Proof.
  revert d. induction segs as [|[n path] segs IH]; intros d; simpl; [done|].
  destruct (n <? k); [|apply IH]. specialize (IH {| files := delete path (files d);
    quarantine := quarantine d |}). by destruct (remove_before _ _ _).
Qed.

Lemma acknowledge_quarantine w d s o : quarantine (acknowledge w d s o).2 = quarantine d.
Proof.
  unfold acknowledge. destruct (load_checkpoint d); [|done]. destruct (position_lt _ _ _ _); [done|].
  destruct (checked_add64 _ _); [|done]. unfold save_checkpoint.
  destruct (validate_checkpoint_position _ _); [|done].
  destruct (checkpoint_to_string _) as [b|]; [|done]. unfold compact_segments.
  destruct (validate_checkpoint_position _ _); [|done].
  destruct (segment_files _) as [segs|]; [|done].
  pose proof (remove_before_quarantine (write_file d checkpoint_path b) s segs) as Hrm.
  cbn [cp_segment]. destruct (remove_before _ _ _) as [d' k]. simpl in Hrm.
  by destruct (disk_bytes d').
Qed.

Lemma compact_quarantine d c k d' :
  compact_segments d c = Ok (k, d') → quarantine d' = quarantine d.
Proof.
  unfold compact_segments. destruct (validate_checkpoint_position _ _); [|done].
  destruct (segment_files _) as [segs|]; [|done].
  pose proof (remove_before_quarantine d (cp_segment c) segs) as Hrm.
  destruct (remove_before _ _ _). by intros [= <- <-].
Qed.

Lemma write_record_quarantine w d r b res out :
  quarantine (write_record w d r b res out).1.2 = quarantine d.
Proof.
  unfold write_record, ensure_file. destruct (current_file w).
  - destruct (read_file d s); [|done]. destruct out; [by destruct res|done].
  - set (d1 := match _ with Some _ => d | None => _ end).
    assert (E : quarantine d1 = quarantine d) by (unfold d1; by case_match).
    destruct (read_file d1 _); [|done]. destruct out; [by destruct res|done].
Qed.

Lemma admit_quarantine w d r b res out :
  quarantine (admit_and_write w d r b res out).1.2 = quarantine d.
Proof.
  unfold admit_and_write. destruct res as [a|].
  { destruct (_ <? _); [done|apply write_record_quarantine]. }
  assert (E : quarantine (ensure_capacity w d (blen b)).2 = quarantine d).
  { unfold ensure_capacity. destruct (_ ≫= _); [|done]. destruct (_ <=? _); [done|].
    destruct (load_checkpoint d); [|done]. destruct (compact_segments d _) as [[k d']|] eqn:Ec; [|done].
    apply compact_quarantine in Ec. destruct (disk_bytes d'); [|done].
    simpl. destruct (_ ≫= _); [|done]. by destruct (_ <=? _). }
  destruct (ensure_capacity _ _ _) as [[[[]|e] w'] d']; simpl in *; [|done].
  by rewrite write_record_quarantine.
Qed.

Lemma append_quarantine w d id ts p out : quarantine (append w d id ts p out).2 = quarantine d.
Proof.
  assert (E : quarantine (append_internal w d id ts p None out).1.2 = quarantine d).
  { unfold append_internal. repeat case_match; try done; apply admit_quarantine. }
  unfold append. by destruct (append_internal _ _ _ _ _ _ _) as [[[? ?] ?] ?].
Qed.
End queue.
