(* ===== verification/EventWalSystem.v ===== *)
(** * EventWalSystem: runs of the event log

    A gateway appends events, reserves capacity for requests and appends under
    the reservation, drops reservations, delivers the next record and
    acknowledges it, and is restarted.  The theorems are about every sequence of
    these operations: the log is a first-in first-out queue that loses nothing,
    and it stays within its byte limit; then what a crash inside a write does to
    it. *)

From Stdlib Require Import ZArith Ascii String.
From stdpp Require Import base countable gmap strings list sorting.
From S2P Require Import Prelude Text EventWal EventWalDisk EventWalQueue.

Local Open Scope Z_scope.

Section system.
Context `{WalCodec}.
Abbreviation Record_ := (WalRecord Payload).

Inductive WalOp :=
| OpAppend (id ts : string) (p : Payload) (out : WriteOutcome)
| OpReserve
| OpAppendReserved (i : nat) (id ts : string) (p : Payload) (out : WriteOutcome)
| OpDrop (i : nat)
| OpDeliver
| OpReopen (cfg : WalConfig).

(** The writer, the directory, the live reservations, and the history: the
    records whose append returned [Ok] and those delivered and acknowledged. *)
Record Sys := mkSys {
  sys_writer : WalWriter;
  sys_disk : Disk;
  sys_reservations : list WalReservation;
  sys_appended : list Record_;
  sys_delivered : list Record_;
}.

Definition note (r : Result Record_ WalError) (l : list Record_) : list Record_ :=
  match r with Ok r => l ++ [r] | Err _ => l end.

(** Deliver the next record and acknowledge it; a quarantined line is
    acknowledged only. *)
Definition deliver (x : Sys) : Sys :=
  let '(mkSys w d res app del) := x in
  match load_checkpoint d with
  | Err _ => x
  | Ok c =>
      match next_pending d c with
      | (Ok (Some (PRecord item)), d) =>
          match acknowledge w d (next_segment item) (next_offset item) with
          | (Ok _, w, d) => mkSys w d res app (del ++ [record item])
          | (Err _, w, d) => mkSys w d res app del
          end
      | (Ok (Some (PQuarantined item)), d) =>
          let '(_, w, d) := acknowledge w d (q_next_segment item) (q_next_offset item) in
          mkSys w d res app del
      | (Ok None, d) | (Err _, d) => mkSys w d res app del
      end
  end.

Definition sys_step (x : Sys) (op : WalOp) : Sys :=
  let '(mkSys w d res app del) := x in
  match op with
  | OpAppend id ts p out =>
      let '(r, w, d) := append w d id ts p out in mkSys w d res (note r app) del
  | OpReserve =>
      match reserve_request w with
      | (Ok a, w) => mkSys w d (res ++ [a]) app del
      | (Err _, w) => mkSys w d res app del
      end
  | OpAppendReserved i id ts p out =>
      match res !! i with
      | None => x
      | Some a =>
          let '(r, w, d, a) := append_reserved w d a id ts p out in
          mkSys w d (<[i := a]> res) (note r app) del
      end
  | OpDrop i =>
      match res !! i with
      | None => x
      | Some a =>
          mkSys (set_reserved w (drop_reservation a (reserved_bytes w))) d
            (take i res ++ drop (S i) res) app del
      end
  | OpDeliver => deliver x
  | OpReopen cfg =>
      match wal_open cfg (S (writer_id w)) d with
      | Ok w => mkSys w d [] app del
      | Err _ => x
      end
  end.
Definition sys_run (x : Sys) (ops : list WalOp) : Sys := fold_left sys_step ops x.
Definition sys_init (cfg : WalConfig) : option Sys :=
  match wal_open cfg 0 (mkDisk ∅ ∅) with
  | Ok w => Some (mkSys w (mkDisk ∅ ∅) [] [] [])
  | Err _ => None
  end.

(** Payloads keep their text, failed writes are rolled back, and the log is
    reopened with valid limits of at most [limit] bytes. *)
Definition op_ok (limit : Z) (op : WalOp) : Prop :=
  match op with
  | OpAppend _ _ p out | OpAppendReserved _ _ _ p out => faithful p ∧ rolled_back out
  | OpReopen cfg => validate cfg = Ok tt ∧ total_bytes cfg ≤ limit
  | _ => True
  end.

(** ** The invariant of runs *)

Section invariant.
Context `{!WalCodecLaws} (bound : Z) (bound_max : bound ≤ MAX_TOTAL_BYTES).

Definition held (res : list WalReservation) : Z :=
  foldr (λ a acc, remaining_bytes a + acc) 0 res.

Record sys_inv (n : Z) (x : Sys) : Prop := {
  si_queue : ∃ l c q, wal_rep bound n (sys_writer x) (sys_disk x) l c q
    ∧ sys_appended x = sys_delivered x ++ q;
  si_held : reserved_bytes (sys_writer x) = held (sys_reservations x);
  si_each : ∀ a, a ∈ sys_reservations x →
    0 ≤ remaining_bytes a ∧ reservation_of a = writer_id (sys_writer x);
}.

Lemma held_app r1 r2 : held (r1 ++ r2) = held r1 + held r2.
Proof. induction r1 as [|a r1 IH]; simpl; [done|]. rewrite IH. lia. Qed.

Lemma held_lookup res i a :
  res !! i = Some a → held res = held (take i res) + remaining_bytes a + held (drop (S i) res).
Proof.
  intros Hi. rewrite <- (take_drop_middle res i a Hi) at 1. rewrite held_app. simpl. lia.
Qed.

Lemma held_insert res i a b :
  res !! i = Some a → held (<[i := b]> res) = held res - remaining_bytes a + remaining_bytes b.
Proof.
  intros Hi. rewrite (held_lookup _ _ _ Hi), insert_take_drop by (by eapply lookup_lt_Some).
  rewrite held_app. simpl. lia.
Qed.

Lemma held_nonneg res : (∀ a, a ∈ res → 0 ≤ remaining_bytes a) → 0 ≤ held res.
Proof.
  induction res as [|a res IH]; intros Ha; simpl; [lia|].
  pose proof (Ha a ltac:(apply elem_of_cons; by left)).
  assert (0 ≤ held res) by (apply IH; intros b Hb; apply Ha, elem_of_cons; by right). lia.
Qed.

Lemma held_le res i a :
  (∀ a, a ∈ res → 0 ≤ remaining_bytes a) → res !! i = Some a → remaining_bytes a ≤ held res.
Proof.
  intros Ha Hi. rewrite (held_lookup _ _ _ Hi).
  assert (0 ≤ held (take i res) ∧ 0 ≤ held (drop (S i) res)); [|lia].
  split; apply held_nonneg; intros b Hb; apply Ha;
    rewrite <- (take_drop_middle res i a Hi), elem_of_app, elem_of_cons; auto.
Qed.

Lemma deliver_inv n x : sys_inv n x → n < u64_max → sys_inv (n + 1) (deliver x).
Proof.
  destruct x as [w d res app del]. intros [(l & c & q & Hw & Happ) Hh He] Hn. simpl in *.
  unfold deliver. rewrite (load_checkpoint_rep bound _ _ _ _ _ (wr_disk _ _ _ _ _ _ _ Hw)).
  rewrite (next_pending_rep bound bound_max _ _ _ _ _ (wr_disk _ _ _ _ _ _ _ Hw)).
  destruct q as [|r q]; simpl.
  - split; simpl; [|done|done]. exists l, c, []. split; [|done].
    eapply wal_rep_mono; [done|lia].
  - destruct (acknowledge_rep bound bound_max _ _ _ _ _ _ _ Hw Hn)
      as (c' & w' & d' & l' & -> & Hw' & Ew & _).
    split; simpl; [|by rewrite Ew|by rewrite Ew].
    exists l', c', q. split; [done|]. by rewrite <- app_assoc.
Qed.

Lemma append_inv n w d res app del r w' d' id ts p out :
  sys_inv n (mkSys w d res app del) → n < u64_max →
  faithful p → rolled_back out → append w d id ts p out = (r, w', d') →
  sys_inv (n + 1) (mkSys w' d' res (note r app) del).
Proof.
  intros [(l & c & q & Hw & Happ) Hh He] Hn Hp Hout Ha. simpl in *.
  destruct (append_rep bound bound_max n w d l c q id ts p out Hw Hn Hout Hp)
    as (r0 & w0 & d0 & l' & E & Hw' & Eid & Er & _). rewrite E in Ha. injection Ha as -> -> ->.
  split; simpl; [|by rewrite Er|by rewrite Eid].
  exists l', c, (queue_after r q). split; [done|]. unfold note, queue_after.
  destruct r; [|done]. by rewrite Happ, app_assoc.
Qed.

Lemma append_reserved_inv n w d res app del i a id ts p out r w' d' a' :
  sys_inv n (mkSys w d res app del) → n < u64_max →
  res !! i = Some a → faithful p → rolled_back out →
  append_reserved w d a id ts p out = (r, w', d', a') →
  sys_inv (n + 1) (mkSys w' d' (<[i := a']> res) (note r app) del).
Proof.
  intros [(l & c & q & Hw & Happ) Hh He] Hn Hi Hp Hout Ha. simpl in *.
  assert (Hin : a ∈ res) by (by eapply list_elem_of_lookup_2).
  assert (Hle : remaining_bytes a ≤ reserved_bytes w).
  { rewrite Hh. eapply held_le; [|done]. intros b Hb. by apply He. }
  destruct (He a Hin) as [Hnn Hof].
  pose proof (append_internal_rep bound bound_max n w d l c q id ts p (Some a) out
    Hw Hn (conj Hnn Hle) Hout Hp) as Hpost.
  assert (Hsame : ∀ e, sys_inv (n + 1) (mkSys w d (<[i := a]> res) (note (Err e) app) del)).
  { intros e. rewrite list_insert_id by done. split; simpl; [|done|done].
    exists l, c, q. split; [|done]. eapply wal_rep_mono; [done|lia]. }
  unfold append_reserved in Ha. case_match; [simplify_eq; apply Hsame|].
  case_match; [simplify_eq; apply Hsame|]. clear Hsame.
  destruct (append_internal _ _ _ _ _ _ _) as [[[r0 w0] d0] [b|]].
  2: { by destruct Hpost as (_ & _ & (_ & _ & ?) & _). }
  simpl in Ha. injection Ha as -> -> -> ->. destruct Hpost as ([l' Hw'] & [_ Eid] & ([Hb0 Hb1] & Hoth & Hof' & _) & _).
  unfold others in Hoth. split; simpl.
  - exists l', c, (queue_after r q). split; [done|]. unfold note, queue_after.
    destruct r; [|done]. by rewrite Happ, app_assoc.
  - rewrite (held_insert _ _ _ _ Hi). lia.
  - intros b Hb. rewrite Eid. apply list_elem_of_lookup_1 in Hb as [j Hj].
    apply list_lookup_insert_Some in Hj as [(-> & -> & _)|[_ Hj]]; [by rewrite Hof'|].
    apply He. by eapply list_elem_of_lookup_2.
Qed.

Lemma wal_rep_reserved n w d l c q v :
  wal_rep bound n w d l c q → 0 ≤ v → total_bytes_written w + v ≤ bound →
  wal_rep bound n (set_reserved w v) d l c q.
Proof. intros [] Hv Hb. by split. Qed.

Lemma reserve_inv n x : sys_inv n x → sys_inv n (sys_step x OpReserve).
Proof.
  destruct x as [w d res app del]. intros [(l & c & q & Hw & Happ) Hh He]. simpl in *.
  unfold reserve_request, reserve_attempt.
  destruct (checked_add64 _ _) as [o|] eqn:E1; [|by split; eauto].
  destruct (checked_add64 o _) as [o2|] eqn:E2; [|by split; eauto].
  destruct (Z.ltb_spec (total_bytes (config w)) o2); [by split; eauto|].
  unfold checked_add64 in *. repeat case_match; simplify_eq. bool_to_prop.
  pose proof (wr_config _ _ _ _ _ _ _ Hw). pose proof (wal_rep_total _ _ _ _ _ _ _ Hw).
  pose proof (wr_reserved _ _ _ _ _ _ _ Hw).
  assert (0 < DURABLE_REQUEST_RESERVATION_BYTES) by (by vm_compute).
  rewrite wrap64_small by (split; lia). split; simpl.
  - exists l, c, q. split; [|done]. apply wal_rep_reserved; [done|lia|lia].
  - rewrite held_app. simpl. lia.
  - intros a [Ha|Ha]%elem_of_app; [by apply He|]. apply list_elem_of_singleton in Ha as ->. simpl. lia.
Qed.

Lemma drop_inv n x i : sys_inv n x → sys_inv n (sys_step x (OpDrop i)).
Proof.
  destruct x as [w d res app del]. intros [(l & c & q & Hw & Happ) Hh He]. simpl in *.
  destruct (res !! i) as [a|] eqn:Hi; [|by split; eauto].
  assert (Ha : ∀ b, b ∈ take i res ++ drop (S i) res → b ∈ res).
  { intros b Hb. rewrite <- (take_drop_middle res i a Hi).
    rewrite elem_of_app in *. rewrite elem_of_cons. naive_solver. }
  destruct (He a (list_elem_of_lookup_2 _ _ _ Hi)) as [Hnn _].
  assert (Hle : remaining_bytes a ≤ held res).
  { eapply held_le; [|done]. intros b Hb. by apply He. }
  pose proof (wr_occupancy _ _ _ _ _ _ _ Hw). pose proof (wal_rep_total _ _ _ _ _ _ _ Hw).
  assert (Hd : drop_reservation a (reserved_bytes w) = held (take i res ++ drop (S i) res)).
  { rewrite held_app. unfold drop_reservation. pose proof (held_lookup _ _ _ Hi).
    destruct (Z.ltb_spec 0 (remaining_bytes a)); [|lia]. rewrite wrap64_small; [lia|].
    unfold MAX_TOTAL_BYTES in *. width_lia. }
  split; simpl; [|done|auto]. exists l, c, q. split; [|done].
  rewrite Hd. apply wal_rep_reserved; [done| |].
  - apply held_nonneg. intros b Hb. by apply He, Ha.
  - rewrite held_app. pose proof (held_lookup _ _ _ Hi). lia.
Qed.

Lemma step_inv n x op :
  sys_inv n x → 0 ≤ n < u64_max → op_ok bound op → sys_inv (n + 1) (sys_step x op).
Proof.
  intros Hx Hn Hop.
  assert (Hmono : ∀ y, sys_inv n y → sys_inv (n + 1) y).
  { intros y [(l & c & q & Hw & Hq) ? ?]. split; [|done|done]. exists l, c, q.
    split; [|done]. eapply wal_rep_mono; [done|lia]. }
  destruct op as [id ts p out| |i id ts p out|i| |cfg].
  - destruct x as [w d res app del]. simpl. destruct (append _ _ _ _ _ _) as [[r w'] d'] eqn:E.
    destruct Hop. by eapply append_inv; [|lia|..].
  - by apply Hmono, reserve_inv.
  - destruct x as [w d res app del]. simpl. destruct (res !! i) as [a|] eqn:Hi; [|by apply Hmono].
    destruct (append_reserved _ _ _ _ _ _ _) as [[[r w'] d'] a'] eqn:E.
    destruct Hop. by eapply append_reserved_inv; [|lia|..].
  - by apply Hmono, drop_inv.
  - replace (sys_step x OpDeliver) with (deliver x) by (by destruct x).
    apply deliver_inv; [done|lia].
  - apply Hmono. destruct x as [w d res app del], Hop as [Hv Hb].
    destruct Hx as [(l & c & q & Hw & Hq) Hh He]. simpl in *.
    destruct (wal_open_rep bound bound_max n d l c q cfg (S (writer_id w))
      (wr_disk _ _ _ _ _ _ _ Hw) ltac:(lia) Hv Hb) as (w' & -> & Hw' & _ & Hr & _).
    split; simpl; [by eauto|done|]. intros a Ha. by apply elem_of_nil in Ha.
Qed.

Lemma run_inv n x ops :
  sys_inv n x → 0 ≤ n → n + Z.of_nat (length ops) ≤ u64_max → Forall (op_ok bound) ops →
  sys_inv (n + Z.of_nat (length ops)) (sys_run x ops).
Proof.
  revert n x. induction ops as [|op ops IH]; intros n x Hx Hn Hlen Hops; simpl in *.
  { by rewrite Z.add_0_r. }
  apply Forall_cons in Hops as [Hop Hops].
  replace (n + Z.of_nat (S (length ops))) with (n + 1 + Z.of_nat (length ops)) by lia.
  apply IH; [|lia|lia|done]. apply step_inv; [done|lia|done].
Qed.

Lemma init_inv cfg x :
  sys_init cfg = Some x → total_bytes cfg ≤ bound → 0 ≤ bound → sys_inv 0 x.
Proof.
  unfold sys_init. intros Hx Hb Hb0.
  destruct (validate cfg) as [[]|e] eqn:Hv; [|by unfold wal_open in Hx; rewrite Hv in Hx].
  destruct (wal_open_rep bound bound_max 0 _ _ _ _ cfg 0 (empty_disk_rep bound Hb0)
    ltac:(lia) Hv Hb) as (w & Hw & Hrep & _ & Hr & _).
  rewrite Hw in Hx. simplify_eq. split; simpl; [by eauto|done|].
  intros a Ha. by apply elem_of_nil in Ha.
Qed.

Lemma deliver_queue n x :
  sys_inv n x → n < u64_max →
  sys_appended (deliver x) = sys_appended x
  ∧ ((length (sys_appended x) ≤ length (sys_delivered x))%nat → sys_delivered x = sys_appended x)
  ∧ ((length (sys_delivered x) < length (sys_appended x))%nat →
     length (sys_delivered (deliver x)) = S (length (sys_delivered x)))
  ∧ (sys_delivered x = sys_appended x → sys_delivered (deliver x) = sys_delivered x).
Proof.
  destruct x as [w d res app del]. intros [(l & c & q & Hw & Happ) Hh He] Hn. simpl in *.
  unfold deliver. rewrite (load_checkpoint_rep bound _ _ _ _ _ (wr_disk _ _ _ _ _ _ _ Hw)).
  rewrite (next_pending_rep bound bound_max _ _ _ _ _ (wr_disk _ _ _ _ _ _ _ Hw)).
  destruct q as [|r q]; simpl; subst app; rewrite length_app.
  - simpl. rewrite app_nil_r. split_and!; try done. simpl. lia.
  - destruct (acknowledge_rep bound bound_max _ _ _ _ _ _ _ Hw Hn)
      as (c' & w' & d' & l' & -> & _). simpl. rewrite length_app. simpl.
    split_and!; [done|lia|lia|]. intros E. apply (f_equal length) in E.
    rewrite !length_app in E. simpl in E. lia.
Qed.

Lemma drain_inv n x k :
  sys_inv n x → 0 ≤ n → n + Z.of_nat k < u64_max →
  (length (sys_appended x) ≤ length (sys_delivered x) + k)%nat →
  sys_delivered (sys_run x (repeat OpDeliver k)) = sys_appended x.
Proof.
  revert n x. induction k as [|k IH]; intros n x Hx Hn0 Hn Hk; simpl.
  { apply (deliver_queue n x Hx ltac:(lia)). lia. }
  replace (sys_step x OpDeliver) with (deliver x) by (by destruct x).
  destruct (deliver_queue n x Hx ltac:(lia)) as (Happ & Hall & Hnext & Hsame).
  rewrite <- Happ. apply (IH (n + 1)); [apply deliver_inv; [done|lia]|lia|lia|].
  rewrite Happ. destruct (decide (length (sys_delivered x) < length (sys_appended x))%nat) as [Hl|Hl].
  - rewrite (Hnext Hl). lia.
  - rewrite (Hsame (Hall ltac:(lia))). rewrite (Hall ltac:(lia)). lia.
Qed.
End invariant.

(** ** The log is a queue *)

(** C8. The event log is a durable first-in first-out queue, as long as payloads survive
    their text and failed writes are rolled back.  After any such sequence of appends
    (with or without reservation, successful or failed), reservations and their release,
    deliveries and restarts, the appended records are the delivered ones followed by the
    pending ones, in order; [next_pending] answers the first pending record, [read_from]
    any number of them, neither changes the disk, and the log can be opened again.  A
    float that does not survive its text and a write that is cut and not rolled back do
    lose records ([unfaithful_payload_is_lost] and [torn_write_loses_event]). *)
Theorem wal_refines_queue `{!WalCodecLaws} cfg x0 ops :
  sys_init cfg = Some x0 → Forall (op_ok MAX_TOTAL_BYTES) ops →
  total_bytes cfg ≤ MAX_TOTAL_BYTES → Z.of_nat (length ops) ≤ u64_max →
  let x := sys_run x0 ops in
  let d := sys_disk x in
  ∃ c q, sys_appended x = sys_delivered x ++ q ∧ load_checkpoint d = Ok c
    ∧ next_pending d c = (Ok (item_of <$> head q), d)
    ∧ (∀ m, read_from d c m = (Ok (take m q), d))
    ∧ ∀ cfg' id, validate cfg' = Ok tt → total_bytes cfg' ≤ MAX_TOTAL_BYTES →
        is_ok (wal_open cfg' id d) = true.
Proof.
  intros Hinit Hops Hcfg Hlen x d.
  assert (Hb : MAX_TOTAL_BYTES ≤ MAX_TOTAL_BYTES) by lia.
  pose proof (init_inv _ Hb cfg x0 Hinit Hcfg ltac:(by vm_compute)) as Hi.
  pose proof (run_inv _ Hb 0 x0 ops Hi ltac:(lia) Hlen Hops) as [(l & c & q & Hw & Hq) _ _].
  pose proof (wr_disk _ _ _ _ _ _ _ Hw) as Hd.
  exists c, q. split_and!; [done|by eapply load_checkpoint_rep|by eapply next_pending_rep| |].
  - intros m. by eapply read_from_rep.
  - intros cfg' id Hv Hc. destruct (wal_open_rep _ Hb _ _ _ _ _ cfg' id Hd ltac:(lia) Hv Hc)
      as (w' & E & _). unfold d, x. by rewrite E.
Qed.

(** C11. The byte limit holds at every moment of a run in which payloads survive their
    text and failed writes are rolled back: the bytes on disk, which the counter of the
    writer knows exactly, plus the bytes that live reservations may still write are at
    most the configured total, and the shared counter of reserved bytes is the sum over
    the live reservations, so dropping them releases all of it. *)
Theorem wal_within_limit `{!WalCodecLaws} cfg x0 ops :
  sys_init cfg = Some x0 → Forall (op_ok (total_bytes cfg)) ops →
  0 ≤ total_bytes cfg ≤ MAX_TOTAL_BYTES → Z.of_nat (length ops) ≤ u64_max →
  let x := sys_run x0 ops in
  let w := sys_writer x in
  disk_bytes (sys_disk x) = Ok (total_bytes_written w)
  ∧ reserved_bytes w = held (sys_reservations x)
  ∧ total_bytes_written w + held (sys_reservations x) ≤ total_bytes cfg.
Proof.
  intros Hinit Hops Hcfg Hlen x w.
  destruct Hcfg as [Hc0 Hb].
  pose proof (init_inv _ Hb cfg x0 Hinit ltac:(lia) Hc0) as Hi.
  pose proof (run_inv _ Hb 0 x0 ops Hi ltac:(lia) Hlen Hops) as [(l & c & q & Hw & _) Hh _].
  pose proof (wr_occupancy _ _ _ _ _ _ _ Hw). pose proof (wr_total _ _ _ _ _ _ _ Hw) as Ht.
  pose proof (wal_rep_total _ _ _ _ _ _ _ Hw) as Htb.
  fold x w in Hh, Ht, Hw, Htb. split_and!; [|done|unfold w, x in *; lia].
  rewrite Ht. apply disk_bytes_holds; [apply (dr_holds _ _ _ _ _ _ (wr_disk _ _ _ _ _ _ _ Hw))|].
  rewrite <- Ht. unfold MAX_TOTAL_BYTES in *. width_lia.
Qed.

(** Every appended record is eventually delivered: when deliveries succeed,
    as many of them as there are undelivered records deliver all of them, in the
    order of the appends. *)
Theorem wal_drains `{!WalCodecLaws} cfg x0 ops k :
  sys_init cfg = Some x0 → Forall (op_ok MAX_TOTAL_BYTES) ops →
  total_bytes cfg ≤ MAX_TOTAL_BYTES → Z.of_nat (length ops + k) < u64_max →
  let x := sys_run x0 ops in
  (length (sys_appended x) ≤ length (sys_delivered x) + k)%nat →
  sys_delivered (sys_run x (repeat OpDeliver k)) = sys_appended x.
Proof.
  intros Hinit Hops Hcfg Hlen x Hk. subst x.
  assert (Hb : MAX_TOTAL_BYTES ≤ MAX_TOTAL_BYTES) by lia.
  pose proof (init_inv _ Hb cfg x0 Hinit Hcfg ltac:(by vm_compute)) as Hi.
  pose proof (run_inv _ Hb 0 x0 ops Hi ltac:(lia) ltac:(lia) Hops) as Hx.
  apply (drain_inv _ Hb _ _ _ Hx); lia.
Qed.
End system.

(** ** Policy results *)

Section coalesce.
Context {A : Type}.

Lemma batches_spec k i base larger (l : list A) :
  length l = (k * base + Nat.min k (larger - i))%nat →
  concat (batches k i base larger l) = l ∧ length (batches k i base larger l) = k
  ∧ Forall (λ b, length b = base ∨ length b = S base) (batches k i base larger l).
Proof.
  revert i l. induction k as [|k IH]; intros i l Hl; cbn [batches].
  { destruct l; [done|simpl in Hl; lia]. }
  set (size := (base + (if (i <? larger)%nat then 1 else 0))%nat).
  assert (Hsize : (size ≤ length l)%nat ∧
    (length l - size = k * base + Nat.min k (larger - S i))%nat
    ∧ (size = base ∨ size = S base)).
  { unfold size. destruct (Nat.ltb_spec i larger); lia. }
  destruct Hsize as (Hle & Hrest & Hor).
  destruct (IH (S i) (drop size l)) as (H1 & H2 & H3); [by rewrite length_drop|].
  cbn [concat length]. rewrite H1, H2, take_drop. split_and!; [done|done|].
  constructor; [|done]. rewrite length_take. lia.
Qed.

(** Grouping policy results drops and reorders nothing: the batches put end
    to end are the input, there are as many as results but at most eight, none
    is empty, and their sizes differ by at most one. *)
Theorem coalesce_exact (results : list A) :
  concat (coalesce_policy_results results) = results
  ∧ length (coalesce_policy_results results)
    = Nat.min (length results) MAX_DURABLE_EVENTS_PER_REQUEST
  ∧ (∀ b, b ∈ coalesce_policy_results results → b ≠ [])
  ∧ ∀ b1 b2, b1 ∈ coalesce_policy_results results → b2 ∈ coalesce_policy_results results →
      (length b1 ≤ S (length b2))%nat.
Proof.
  unfold coalesce_policy_results. destruct results as [|x l] eqn:E.
  { split_and!; [done|done|intros b Hb|intros b ? Hb]; by apply elem_of_nil in Hb. }
  rewrite <- E. set (n := length results).
  set (k := Nat.min n MAX_DURABLE_EVENTS_PER_REQUEST).
  assert (Hk : (0 < k ≤ n)%nat).
  { unfold k, n, MAX_DURABLE_EVENTS_PER_REQUEST. rewrite E. simpl. lia. }
  pose proof (Nat.div_mod_eq n k) as Hdm.
  pose proof (Nat.mod_upper_bound n k ltac:(lia)) as Hmod.
  destruct (batches_spec k 0 (n / k) (n mod k) results) as (H1 & H2 & H3).
  { fold n. rewrite Nat.sub_0_r, Nat.min_r by lia. lia. }
  pose proof (Nat.div_str_pos n k ltac:(lia)) as Hbase.
  rewrite Forall_forall in H3. split_and!; [done|done| |].
  - intros b Hb ->. specialize (H3 [] Hb). simpl in H3. lia.
  - intros b1 b2 Hb1 Hb2. pose proof (H3 b1 Hb1). pose proof (H3 b2 Hb2). lia.
Qed.
End coalesce.

(** ** A concrete text format *)

Module WalModel.

(** Digits between braces: a record is the binary expansion of its code. *)
Fixpoint bits (p : positive) : bytes :=
  match p with xH => [50] | xO p => 48 :: bits p | xI p => 49 :: bits p end.
Fixpoint unbits (l : bytes) : option positive :=
  match l with
  | [50; 125] => Some xH
  | 48 :: l => xO <$> unbits l
  | 49 :: l => xI <$> unbits l
  | _ => None
  end.
Definition text (p : positive) : bytes := 123 :: bits p ++ [125].
Definition untext (l : bytes) : option positive :=
  match l with 123 :: l => unbits l | _ => None end.

Lemma untext_text p : untext (text p) = Some p.
Proof.
  unfold text, untext. induction p as [p IH|p IH|]; cbn [bits app unbits]; [| |done].
  - by rewrite IH.
  - by rewrite IH.
Qed.
Lemma text_no_newline p : 10 ∉ text p.
Proof.
  unfold text. rewrite elem_of_cons, elem_of_app, list_elem_of_singleton.
  intros [?|[Hin|?]]; [done| |done].
  induction p as [p IH|p IH|]; cbn [bits] in Hin; apply elem_of_cons in Hin as [?|Hin];
    try done; [by apply IH..|by apply elem_of_nil in Hin].
Qed.

Definition code (r : WalRecord string) : positive :=
  positives_flatten [encode (event_id r); encode (timestamp r);
    encode (segment r, offset r, checksum r); encode (payload r)].
Definition uncode (p : positive) : option (WalRecord string) :=
  match positives_unflatten p with
  | Some [i; t; n; x] =>
      match decode i, decode t, decode n, decode x with
      | Some i, Some t, Some (s, o, c), Some x => Some (mkRecord i t s o c x)
      | _, _, _, _ => None
      end
  | _ => None
  end.

#[global] Instance model : WalCodec := {|
  Payload := string;
  payload_to_vec := λ s, Some ((λ a, Z.of_N (N_of_ascii a)) <$> list_ascii_of_string s);
  crc32 := λ l, foldr Z.add 0 l mod 2 ^ 32;
  record_to_vec := λ r, Some (text (code r));
  record_from_slice := λ l, match untext l with Some p => uncode p | None => None end;
  checkpoint_to_string := λ c,
    Some (text (encode (cp_segment c, (cp_offset c, acknowledged_count c))));
  checkpoint_from_str := λ l,
    match untext l with
    | Some p =>
        match decode p with
        | Some (s, (o, n)) => Some (mkCheckpoint s o n)
        | None => None
        end
    | None => None
    end;
|}.
Lemma model_faithful (s : string) : faithful s.
Proof.
  intros r b _ [= <-]. cbn -[untext text uncode code]. rewrite untext_text. unfold uncode, code.
  rewrite positives_unflatten_flatten, !decode_encode. by destruct r.
Qed.
#[global] Instance model_laws : WalCodecLaws.
Proof.
  split.
  - intros r b [= <-]. apply text_no_newline.
  - intros c. by eexists.
  - intros c b _ _ _ [= <-]. cbn -[untext text encode decode]. rewrite untext_text, decode_encode. by destruct c.
Qed.

Definition cfg : WalConfig := mkWalConfig 8388608 4096 4 2.
Definition start : Sys :=
  mkSys (mkWriter cfg 0 0 None 0 0 0 0) (mkDisk ∅ ∅) [] [] [].

(** Two events and one under a reservation, a failed write, a delivery, a
    restart. *)
Definition ops : list WalOp :=
  [OpAppend "a" "t" ("x" : Payload) WriteOk; OpReserve;
   OpAppendReserved 0 "b" "t" ("y" : Payload) WriteOk;
   OpAppend "c" "t" ("z" : Payload) (WriteErr 7 true); OpDeliver; OpDrop 0;
   OpReopen cfg; OpAppend "d" "t" ("z" : Payload) WriteOk].
Lemma ops_ok : Forall (op_ok (total_bytes cfg)) ops.
Proof. repeat constructor; try apply model_faithful; by vm_compute. Qed.
End WalModel.

Lemma wal_refines_queue_witness :
  sys_init WalModel.cfg = Some WalModel.start
  ∧ Forall (op_ok MAX_TOTAL_BYTES) WalModel.ops
  ∧ ∃ q, sys_appended (sys_run WalModel.start WalModel.ops)
         = sys_delivered (sys_run WalModel.start WalModel.ops) ++ q
      ∧ length (sys_appended (sys_run WalModel.start WalModel.ops)) = 3%nat.
Proof.
  assert (Hi : sys_init WalModel.cfg = Some WalModel.start) by reflexivity.
  assert (Ho : Forall (op_ok MAX_TOTAL_BYTES) WalModel.ops).
  { repeat constructor; try apply WalModel.model_faithful; by vm_compute. }
  split; [exact Hi|]. split; [exact Ho|].
  destruct (wal_refines_queue WalModel.cfg WalModel.start WalModel.ops Hi Ho
    ltac:(vm_compute; discriminate) ltac:(vm_compute; discriminate)) as (c & q & Hq & _).
  exists q. split; [exact Hq|]. vm_compute. reflexivity.
Defined.

Lemma wal_within_limit_witness :
  reserved_bytes (sys_writer (sys_run WalModel.start WalModel.ops))
  = held (sys_reservations (sys_run WalModel.start WalModel.ops)).
Proof.
  assert (Hi : sys_init WalModel.cfg = Some WalModel.start) by reflexivity.
  destruct (wal_within_limit WalModel.cfg WalModel.start WalModel.ops Hi WalModel.ops_ok
    ltac:(split; vm_compute; discriminate) ltac:(vm_compute; discriminate)) as (_ & Hr & _).
  exact Hr.
Defined.

Lemma wal_drains_witness :
  length (sys_delivered (sys_run (sys_run WalModel.start WalModel.ops) (repeat OpDeliver 5)))
  = 3%nat.
Proof.
  assert (Hi : sys_init WalModel.cfg = Some WalModel.start) by reflexivity.
  assert (Ho : Forall (op_ok MAX_TOTAL_BYTES) WalModel.ops).
  { repeat constructor; try apply WalModel.model_faithful; by vm_compute. }
  rewrite (wal_drains WalModel.cfg WalModel.start WalModel.ops 5 Hi Ho
    ltac:(vm_compute; discriminate) ltac:(vm_compute; reflexivity)); [vm_compute; reflexivity|].
  apply Nat.leb_le. vm_compute. reflexivity.
Defined.
