(* ===== verification/EventWalCrash.v ===== *)
(** * EventWalCrash: what a torn write does to the event log

    A crash inside the write of a record (or a write error whose truncation
    fails) leaves a segment that ends without a newline.  [WalWriter::open]
    resumes at the end of the file.  The theorems follow the first two events of
    a log through such a crash. *)

From Stdlib Require Import ZArith Ascii String.
From stdpp Require Import base gmap strings list sorting.
From S2P Require Import Prelude Text EventWal EventWalDisk EventWalQueue EventWalSystem.

Local Open Scope Z_scope.

Section crash.
Context `{WalCodec} `{!WalCodecLaws}.
Abbreviation Record_ := (WalRecord Payload).

(** The directory has one segment, number 0, with content [t], or no file yet. *)
Definition one_segment (d : Disk) (t : bytes) : Prop :=
  disk_holds d [(0, t)] ∨ (t = [] ∧ disk_holds d []).

Lemma one_segment_files d t : one_segment d t → holds_but d [] 0.
Proof.
  intros [Hd|[_ Hd]].
  - by apply (holds_but_last d [] 0 t).
  - apply holds_but_new; [done|width_lia|]. intros s b Hin. by apply elem_of_nil in Hin.
Qed.

Lemma write_one d t b :
  one_segment d t → disk_holds (write_file d (segment_path 0) b) [(0, b)].
Proof. intros Hd. by apply (holds_write_last d [] 0), one_segment_files with t. Qed.

Lemma write_one_checkpoint d b :
  files (write_file d (segment_path 0) b) !! checkpoint_path = files d !! checkpoint_path.
Proof. simpl. by rewrite lookup_insert_ne by done. Qed.

(** A writer at the end of that segment. *)
Record at_end (cfg : WalConfig) (w : WalWriter) (t : bytes) : Prop := {
  ae_config : config w = cfg;
  ae_segment : current_segment w = 0;
  ae_offset : current_offset w = blen t;
  ae_file : current_file w = None;
  ae_total : total_bytes_written w = blen t;
  ae_reserved : reserved_bytes w = 0;
}.

Definition written (out : WriteOutcome) (b : bytes) : bytes :=
  match out with
  | WriteOk => b
  | WriteErr k truncated => if truncated then [] else take k b
  end.

(** The file that [ensure_file] opens. *)
Lemma created_one d t :
  one_segment d t →
  let d0 := match files d !! segment_path 0 with
            | Some _ => d | None => write_file d (segment_path 0) [] end in
  read_file d0 (segment_path 0) = Ok t ∧ one_segment d0 t
  ∧ files d0 !! checkpoint_path = files d !! checkpoint_path.
Proof.
  intros Hd. destruct Hd as [Hd|[-> Hd]].
  - assert (Hin : (0, t) ∈ [(0, t)]) by (by apply list_elem_of_singleton).
    rewrite (dh_all _ _ Hd 0 t Hin). split_and!; [|by left|done].
    by eapply read_file_holds.
  - rewrite (file_of_new_segment d [] 0 Hd); [|width_lia|].
    + split_and!; [|left; apply (write_one d []); by right|apply write_one_checkpoint].
      unfold read_file. simpl. by rewrite lookup_insert_eq.
    + intros s rs Hin. by apply elem_of_nil in Hin.
Qed.

(** An append that fits writes at the end of the file, whatever the file ends
    with. *)
Lemma append_one cfg w d t id ts p out b :
  one_segment d t → at_end cfg w t → validate cfg = Ok tt →
  record_to_vec (record_at w id ts p) = Some b →
  blen b + 1 ≤ MAX_DURABLE_EVENT_BYTES → blen t + blen b + 1 ≤ segment_bytes cfg →
  ∃ w' d', append w d id ts p out =
      (match out with WriteOk => Ok (record_at w id ts p) | _ => Err WriteFailed end, w', d')
    ∧ disk_holds d' [(0, t ++ written out (b ++ [10]))]
    ∧ files d' !! checkpoint_path = files d !! checkpoint_path
    ∧ writer_id w' = writer_id w.
Proof.
  intros Hd [Ec Es Eo Ef Et Er] Hv Hb Hmax Hseg. pose proof (blen_nonneg t). pose proof (blen_nonneg b).
  assert (Htot : segment_bytes cfg ≤ total_bytes cfg ∧ total_bytes cfg ≤ MAX_TOTAL_BYTES).
  { unfold validate in Hv. repeat case_match; try done. bool_to_prop. lia. }
  assert (Hmt : MAX_TOTAL_BYTES ≤ u64_max) by (by vm_compute).
  unfold append, append_internal, encode_record. rewrite Hb, Ec.
  rewrite blen_app. change (blen [10]) with 1.
  rewrite (proj2 (Z.ltb_ge _ _)), (proj2 (Z.ltb_ge (segment_bytes cfg) _)) by lia.
  rewrite Eo, wrap64_small by (split; lia).
  rewrite (proj2 (Z.ltb_ge (segment_bytes cfg) _)), andb_false_r by lia.
  unfold admit_and_write, ensure_capacity. rewrite Er, Et, Ec, blen_app.
  change (blen [10]) with 1.
  rewrite checked_add64_ok by lia. cbn [mbind option_bind].
  rewrite checked_add64_ok by lia. rewrite (proj2 (Z.leb_le _ _)) by lia.
  unfold write_record, ensure_file. rewrite Ef, Es.
  set (d0 := match files d !! segment_path 0 with
      | Some _ => d | None => write_file d (segment_path 0) [] end).
  destruct (created_one d t Hd) as (Hread & Hd0 & Hck). fold d0 in Hread, Hd0, Hck.
  cbn beta iota. rewrite Hread. cbn [set_position current_segment current_offset].
  assert (Er0 : record_at w id ts p = {| event_id := id; timestamp := ts; segment := 0;
    offset := current_offset w; checksum := compute_checksum p; payload := p |})
    by (unfold record_at; by rewrite Es).
  rewrite Er0. destruct out as [|k []]; simpl; rewrite ?app_nil_r; eexists _, _;
    (split; [reflexivity|]); (split_and!; [by eapply write_one|by rewrite write_one_checkpoint|done]).
Qed.

Lemma open_one cfg id d t :
  one_segment d t → files d !! checkpoint_path = None → validate cfg = Ok tt →
  blen t ≤ u64_max → ∃ w, wal_open cfg id d = Ok w ∧ at_end cfg w t ∧ writer_id w = id.
Proof.
  intros Hd Hck Hv Hmax. unfold wal_open. rewrite Hv. unfold load_checkpoint. rewrite Hck.
  destruct Hd as [Hd|[-> Hd]]; rewrite (recover_position_holds _ _ Hd) by (simpl; width_lia);
    simpl; (eexists; split; [done|]; split; [|done]); split; simpl; try done; lia.
Qed.

(** A checkpoint at the end of the only segment. *)
Definition checkpoint_at (d : Disk) (o n : Z) : Prop :=
  ∃ b, files d !! checkpoint_path = Some (Regular b)
    ∧ checkpoint_from_str b = Some (mkCheckpoint 0 o n).

Lemma validate_end d b o n :
  disk_holds d [(0, b)] → n ≠ 0 →
  validate_checkpoint_position d (mkCheckpoint 0 o n) = validate_record_boundary b o (blen b).
Proof.
  intros Hd Hn. unfold validate_checkpoint_position. simpl.
  rewrite (proj2 (Z.eqb_neq n 0) Hn), andb_false_r.
  by rewrite (dh_all _ _ Hd 0 b) by (by apply list_elem_of_singleton).
Qed.

Lemma boundary_end b : validate_record_boundary b (blen b) (blen b) = Ok tt.
Proof.
  unfold validate_record_boundary. by rewrite Z.ltb_irrefl, Z.eqb_refl, orb_true_r.
Qed.

Lemma load_end d b n :
  disk_holds d [(0, b)] → n ≠ 0 → checkpoint_at d (blen b) n →
  load_checkpoint d = Ok (mkCheckpoint 0 (blen b) n).
Proof.
  intros Hd Hn (cb & Hf & Hc). unfold load_checkpoint.
  by rewrite Hf, Hc, (validate_end d b) , boundary_end.
Qed.

(** Acknowledging everything that is in the segment. *)
Lemma ack_end w d b :
  disk_holds d [(0, b)] → files d !! checkpoint_path = None → blen b ≤ u64_max →
  ∃ c w' d', acknowledge w d 0 (blen b) = (Ok c, w', d')
    ∧ disk_holds d' [(0, b)] ∧ checkpoint_at d' (blen b) 1 ∧ writer_id w' = writer_id w
    ∧ total_bytes_written w' ≤ total_bytes_written w
    ∧ current_file w' = current_file w ∧ config w' = config w
    ∧ reserved_bytes w' = reserved_bytes w ∧ position w' = position w
    ∧ (total_bytes_written w = blen b → total_bytes_written w' = blen b).
Proof.
  intros Hd Hck Hmax. unfold acknowledge, load_checkpoint. rewrite Hck. simpl.
  pose proof (blen_nonneg b) as Hb.
  replace (position_lt 0 (blen b) 0 0) with false
    by (unfold position_lt; simpl; symmetry; by apply Z.ltb_ge).
  destruct (checkpoint_prints (mkCheckpoint 0 (blen b) 1)) as [cb Hcb].
  change (0 + 1) with 1. unfold save_checkpoint. rewrite (validate_end d b), boundary_end, Hcb by done.
  set (d1 := write_file d checkpoint_path cb).
  assert (Hd1 : disk_holds d1 [(0, b)]) by (by apply holds_write_other).
  destruct (compact_files d1 _ (mkCheckpoint 0 (blen b) 1) Hd1) as (k & d2 & -> & Hd2 & Hck2).
  { by rewrite (validate_end d1 b), boundary_end. }
  simpl in Hd2. change (segs_from 0 [(0, b)]) with [(0, b)] in Hd2.
  rewrite (disk_bytes_holds _ _ Hd2) by (simpl; lia). simpl. rewrite Z.add_0_r.
  eexists _, _, d2. split; [done|].
  assert (Hat : checkpoint_at d2 (blen b) 1).
  { exists cb. rewrite Hck2. split; [apply lookup_insert_eq|].
    apply checkpoint_reads; simpl; [width_lia|width_lia|width_lia|done]. }
  destruct (Z.leb_spec (blen b) (total_bytes_written w)); split_and!; try done; simpl; lia.
Qed.

Lemma files_quarantine d s o reason raw :
  files (quarantine_corrupt_record d s o reason raw) = files d.
Proof. unfold quarantine_corrupt_record, put_quarantine. by case_match. Qed.

Lemma next_one d b c :
  disk_holds d [(0, b)] → validate_checkpoint_position d c = Ok tt → cp_segment c = 0 →
  next_pending d c = scan_pending d c [(0, segment_path 0)].
Proof.
  intros Hd Hv Hc. unfold next_pending. rewrite Hv, (segment_files_holds _ _ Hd).
  unfold from_checkpoint, listing. cbn [fmap list_fmap].
  rewrite filter_cons, Hc. by case_decide.
Qed.

Lemma read_one d b : disk_holds d [(0, b)] → read_file d (segment_path 0) = Ok b.
Proof. intros Hd. eapply read_file_holds; [done|]. by apply list_elem_of_singleton. Qed.

(** The first line of the segment is read and found bad. *)
Lemma scan_bad d b line reason raw :
  disk_holds d [(0, b)] → (read_until b).1 = line → (0 < length line)%nat →
  blen b ≤ u64_max → blen line ≤ blen b →
  (last_is_newline line = false ∧ reason = "truncated_record"%string ∧ raw = line)
  ∨ (last_is_newline line = true ∧ line_record 0 0 (without_last line) = Err reason
     ∧ raw = without_last line) →
  next_pending d default_checkpoint =
  (Ok (Some (PQuarantined (mkQuarantined 0 0 0 (blen line) reason))),
   quarantine_corrupt_record d 0 0 reason raw).
Proof.
  intros Hd Hl Hpos Hmax Hle Hbad. rewrite (next_one d b) by done. cbn [scan_pending].
  rewrite (read_one d b Hd). change (start_offset default_checkpoint 0) with 0.
  change (Z.to_nat 0) with 0%nat. rewrite drop_0, Hl.
  assert (Hb : 0 < blen b) by (unfold blen in *; lia).
  unfold validate_record_boundary. rewrite (proj2 (Z.ltb_ge _ _)) by lia.
  rewrite Z.eqb_refl. cbn [orb]. rewrite (proj2 (Z.eqb_neq 0 (blen b))), (proj2 (Nat.eqb_neq (length line) 0)) by lia.
  pose proof (blen_nonneg line). rewrite Z.add_0_l, wrap64_small by (split; lia).
  destruct Hbad as [(-> & -> & ->)|(-> & -> & ->)]; done.
Qed.

Lemma deliver_bad w d res app del b line reason raw :
  disk_holds d [(0, b)] → (read_until b).1 = line → (0 < length line)%nat → b = line →
  blen b ≤ u64_max → files d !! checkpoint_path = None →
  (last_is_newline line = false ∧ reason = "truncated_record"%string ∧ raw = line)
  ∨ (last_is_newline line = true ∧ line_record 0 0 (without_last line) = Err reason
     ∧ raw = without_last line) →
  ∃ w' d', deliver (mkSys w d res app del) = mkSys w' d' res app del
    ∧ disk_holds d' [(0, b)] ∧ checkpoint_at d' (blen b) 1
    ∧ (∀ cfg t, at_end cfg w t → blen b = blen t → at_end cfg w' t).
Proof.
  intros Hd Hl Hpos Hbl Hmax Hck Hbad. unfold deliver.
  assert (Hlc : load_checkpoint d = Ok default_checkpoint)
    by (unfold load_checkpoint; by rewrite Hck).
  rewrite Hlc, (scan_bad d b line reason raw); [|done|done|done|done|by subst b|done].
  cbn [q_next_segment q_next_offset]. rewrite <- Hbl.
  set (d1 := quarantine_corrupt_record d 0 0 reason raw).
  assert (Hf : files d1 = files d) by apply files_quarantine.
  destruct (ack_end w d1 b) as (c & w' & d' & -> & Hd' & Hat & _ & _ & Ef & Ec & Er & Ep & Et);
    [by eapply holds_files|by rewrite Hf|done|].
  exists w', d'. split_and!; [done|done|done|].
  intros cfg t [A1 A2 A3 A4 A5 A6] Hlen. unfold position in Ep. injection Ep as Es Eo.
  split; [congruence|congruence|congruence|congruence|rewrite Et; congruence|congruence].
Qed.

(** With the checkpoint at the end, a delivery finds nothing. *)
Lemma deliver_end w d res app del b n :
  disk_holds d [(0, b)] → checkpoint_at d (blen b) n → n ≠ 0 →
  next_pending d (mkCheckpoint 0 (blen b) n) = (Ok None, d)
  ∧ deliver (mkSys w d res app del) = mkSys w d res app del.
Proof.
  intros Hd Hat Hn. unfold deliver. rewrite (load_end d b n) by done.
  assert (Hnone : next_pending d (mkCheckpoint 0 (blen b) n) = (Ok None, d)).
  { rewrite (next_one d b); [|done|by rewrite (validate_end d b), boundary_end|done].
    cbn [scan_pending]. rewrite (read_one d b Hd). unfold start_offset. simpl.
    by rewrite boundary_end, Z.eqb_refl. }
  by rewrite Hnone.
Qed.

(** ** Two events around a crash *)

Section torn.
Context (cfg : WalConfig) (id1 ts1 : string) (p1 : Payload) (k : nat) (id2 ts2 : string)
  (p2 : Payload) (t1 t2 : bytes).

(** The first event, of which [k] bytes reach the disk, and the second one,
    appended where [open] resumes. *)
Definition torn_event : Record_ := mkRecord id1 ts1 0 0 (compute_checksum p1) p1.
Definition second_event : Record_ := mkRecord id2 ts2 0 (Z.of_nat k) (compute_checksum p2) p2.

Record torn_case : Prop := {
  tc_config : validate cfg = Ok tt;
  tc_first : record_to_vec torn_event = Some t1;
  tc_second : record_to_vec second_event = Some t2;
  tc_torn : (0 < k ≤ length t1)%nat;
  tc_size1 : blen t1 + 1 ≤ MAX_DURABLE_EVENT_BYTES ∧ blen t1 + 1 ≤ segment_bytes cfg;
  tc_size2 : blen t2 + 1 ≤ MAX_DURABLE_EVENT_BYTES
    ∧ Z.of_nat k + blen t2 + 1 ≤ segment_bytes cfg;
}.
Context (Hcase : torn_case).

Lemma torn_blen : blen (take k t1) = Z.of_nat k.
Proof. pose proof (tc_torn Hcase). unfold blen. rewrite length_take. lia. Qed.

Lemma torn_no_newline : 10 ∉ take k t1.
Proof.
  intros Hin. apply (record_no_newline _ _ (tc_first Hcase)).
  rewrite <- (take_drop k t1). apply elem_of_app. by left.
Qed.

Lemma config_small : segment_bytes cfg ≤ MAX_SEGMENT_BYTES.
Proof.
  pose proof (tc_config Hcase) as Hv. unfold validate in Hv. repeat case_match; try done.
  bool_to_prop. lia.
Qed.

Lemma empty_one_segment : one_segment (mkDisk ∅ ∅) [].
Proof. right. split; [done|]. apply (dr_holds _ _ _ _ _ _ (empty_disk_rep 0 ltac:(lia))). Qed.

(** After the crash and the restart the writer stands behind the torn bytes. *)
Lemma torn_restart x0 :
  sys_init cfg = Some x0 →
  ∃ w d, sys_run x0 [OpAppend id1 ts1 p1 (WriteErr k false); OpReopen cfg] = mkSys w d [] [] []
    ∧ at_end cfg w (take k t1) ∧ disk_holds d [(0, take k t1)]
    ∧ files d !! checkpoint_path = None.
Proof.
  intros Hi. pose proof Hcase as [Hv H1 _ Hk [Hs1 Hs2] _].
  destruct (open_one cfg 0 _ [] empty_one_segment (lookup_empty _) Hv) as (w0 & Hw0 & He0 & _);
    [by vm_compute|].
  unfold sys_init in Hi. rewrite Hw0 in Hi. injection Hi as <-.
  assert (Hr1 : record_at w0 id1 ts1 p1 = torn_event).
  { destruct He0 as [_ Es Eo _ _ _]. unfold record_at, torn_event. by rewrite Es, Eo. }
  destruct (append_one cfg w0 (mkDisk ∅ ∅) [] id1 ts1 p1 (WriteErr k false) t1 empty_one_segment
    He0 Hv) as (w1 & d1 & E1 & Hd1 & Hck1 & _); [by rewrite Hr1|done|done|].
  assert (Et : take k (t1 ++ [10]) = take k t1) by (apply take_app_le; lia).
  cbn [written app] in Hd1. rewrite Et in Hd1.
  pose proof config_small as Hcs.
  destruct (open_one cfg (S (writer_id w1)) d1 (take k t1)) as (w2 & E2 & He2 & _);
    [by left|by rewrite Hck1|done| |].
  { rewrite torn_blen. unfold MAX_SEGMENT_BYTES, blen in *. width_lia. }
  exists w2, d1. split_and!; [|done|done|by rewrite Hck1].
  unfold sys_run. cbn [fold_left sys_step]. rewrite E1. cbn [sys_step]. by rewrite E2.
Qed.

(** Appending the second event succeeds. *)
Lemma torn_append w d :
  at_end cfg w (take k t1) → disk_holds d [(0, take k t1)] →
  ∃ w' d', append w d id2 ts2 p2 WriteOk = (Ok second_event, w', d')
    ∧ disk_holds d' [(0, (take k t1 ++ t2) ++ [10])]
    ∧ files d' !! checkpoint_path = files d !! checkpoint_path.
Proof.
  intros He Hd. pose proof Hcase as [Hv _ H2 _ _ [Hs1 Hs2]].
  assert (Hr2 : record_at w id2 ts2 p2 = second_event).
  { destruct He as [_ Es Eo _ _ _]. unfold record_at, second_event.
    by rewrite Es, Eo, torn_blen. }
  destruct (append_one cfg w d (take k t1) id2 ts2 p2 WriteOk t2) as (w' & d' & E & Hd' & Hck & _);
    [by left|done|done|by rewrite Hr2|done|rewrite torn_blen; lia|].
  exists w', d'. rewrite E, Hr2. cbn [written] in Hd'. rewrite app_assoc in Hd'. done.
Qed.

Lemma glued_size : blen ((take k t1 ++ t2) ++ [10]) ≤ u64_max.
Proof.
  pose proof Hcase as [_ _ _ _ _ [_ Hs2]]. pose proof config_small.
  rewrite !blen_app, torn_blen. change (blen [10]) with 1.
  unfold MAX_SEGMENT_BYTES in *. width_lia.
Qed.
Lemma second_no_newline : 10 ∉ t2.
Proof. apply (record_no_newline _ _ (tc_second Hcase)). Qed.
Lemma torn_pos : (0 < length (take k t1))%nat.
Proof. pose proof (tc_torn Hcase). rewrite length_take. lia. Qed.

(** The end of the torn bytes is not a record boundary of the glued line. *)
Lemma torn_inside :
  validate_record_boundary ((take k t1 ++ t2) ++ [10]) (blen (take k t1))
    (blen ((take k t1 ++ t2) ++ [10])) = Err NotRecordBoundary.
Proof.
  pose proof (tc_torn Hcase). unfold validate_record_boundary.
  rewrite <- app_assoc, (blen_app (take k t1)), torn_blen, blen_app.
  pose proof (blen_nonneg t2). change (blen [10]) with 1.
  rewrite (proj2 (Z.ltb_ge _ _)) by lia.
  rewrite (proj2 (Z.eqb_neq (Z.of_nat k) 0)), (proj2 (Z.eqb_neq (Z.of_nat k) _)) by lia.
  cbn [orb]. case_bool_decide as E; [|done]. exfalso. apply torn_no_newline.
  rewrite lookup_app_l in E by (rewrite length_take; lia). by eapply list_elem_of_lookup_2.
Qed.

Lemma deliver_fixed w d res app del m :
  deliver (mkSys w d res app del) = mkSys w d res app del →
  sys_run (mkSys w d res app del) (repeat OpDeliver m) = mkSys w d res app del.
Proof.
  intros Hfix. induction m as [|m IH]; [done|]. unfold sys_run in *. cbn [repeat fold_left].
  change (sys_step (mkSys w d res app del) OpDeliver) with (deliver (mkSys w d res app del)).
  by rewrite Hfix.
Qed.

(** C40. A crash inside a write loses a later event.  Some bytes of the first
    event reach the disk, the gateway restarts, and the append of the second
    event returns [Ok] after the [fsync]: but the two share a line, which the
    delivery quarantines as malformed and acknowledges.  However often the log
    is read afterwards, the second event is never delivered, and the log says
    that nothing is pending. *)
Theorem torn_write_loses_event x0 m :
  sys_init cfg = Some x0 → record_from_slice (take k t1 ++ t2) = None →
  let x := sys_run x0 [OpAppend id1 ts1 p1 (WriteErr k false); OpReopen cfg;
                       OpAppend id2 ts2 p2 WriteOk] in
  let y := sys_run x (repeat OpDeliver (S m)) in
  sys_appended x = [second_event] ∧ sys_delivered y = []
  ∧ ∃ c, load_checkpoint (sys_disk y) = Ok c
      ∧ next_pending (sys_disk y) c = (Ok None, sys_disk y).
Proof.
  intros Hi Hbad x y. destruct (torn_restart x0 Hi) as (w & d & Erun & He & Hd & Hck).
  destruct (torn_append w d He Hd) as (w2 & d2 & E2 & Hd2 & Hck2).
  assert (Ex : x = mkSys w2 d2 [] [second_event] []).
  { unfold x, sys_run in *. cbn [fold_left] in *. rewrite Erun. cbn [sys_step]. by rewrite E2. }
  set (u := take k t1 ++ t2) in *.
  assert (Hu : 10 ∉ u).
  { unfold u. rewrite elem_of_app. intros [Hin|Hin]; [by apply torn_no_newline|by apply second_no_newline]. }
  destruct (deliver_bad w2 d2 [] [second_event] [] (u ++ [10]) (u ++ [10]) "invalid_json" u)
    as (w3 & d3 & E3 & Hd3 & Hat & _).
  - done.
  - by rewrite read_until_line.
  - rewrite length_app. simpl. lia.
  - done.
  - apply glued_size.
  - by rewrite Hck2.
  - right. rewrite last_is_newline_line, without_last_line. unfold line_record. by rewrite Hbad.
  - destruct (deliver_end w3 d3 [] [second_event] [] (u ++ [10]) 1 Hd3 Hat) as [Hn Hfix]; [done|].
    assert (Ey : y = mkSys w3 d3 [] [second_event] []).
    { unfold y. rewrite Ex, <- (deliver_fixed w3 d3 [] [second_event] [] m Hfix), <- E3. done. }
    rewrite Ex, Ey. split_and!; [done|done|]. eexists. split; [by apply (load_end d3 (u ++ [10]) 1)|done].
Qed.

(** A crash inside a write can stop the log for good.  When the torn bytes
    are quarantined and acknowledged before the next append, the checkpoint lies
    inside the line that append continues: its event is on disk, yet loading the
    checkpoint fails from then on, deliveries do nothing and the log cannot be
    opened again. *)
Theorem torn_tail_wedges_log x0 :
  sys_init cfg = Some x0 →
  let x := sys_run x0 [OpAppend id1 ts1 p1 (WriteErr k false); OpReopen cfg; OpDeliver;
                       OpAppend id2 ts2 p2 WriteOk] in
  sys_appended x = [second_event] ∧ load_checkpoint (sys_disk x) = Err NotRecordBoundary
  ∧ (∀ m, sys_run x (repeat OpDeliver m) = x)
  ∧ ∀ cfg' id, validate cfg' = Ok tt → wal_open cfg' id (sys_disk x) = Err NotRecordBoundary.
Proof.
  intros Hi x. destruct (torn_restart x0 Hi) as (w & d & Erun & He & Hd & Hck).
  pose proof torn_no_newline as Hnn. pose proof torn_blen as Hbl.
  destruct (deliver_bad w d [] [] [] (take k t1) (take k t1) "truncated_record" (take k t1))
    as (w2 & d2 & E2 & Hd2 & Hat & He2); try done.
  - by rewrite read_until_tail.
  - apply torn_pos.
  - pose proof glued_size as Hg. rewrite <- app_assoc, blen_app in Hg.
    pose proof (blen_nonneg (t2 ++ [10])). lia.
  - left. by rewrite last_is_newline_none.
  - destruct (torn_append w2 d2 (He2 _ _ He eq_refl) Hd2) as (w3 & d3 & E3 & Hd3 & Hck3).
    assert (Ex : x = mkSys w3 d3 [] [second_event] []).
    { unfold x, sys_run in *. cbn [fold_left] in *. rewrite Erun.
      change (sys_step (mkSys w d [] [] []) OpDeliver) with (deliver (mkSys w d [] [] [])).
      rewrite E2. cbn [sys_step]. by rewrite E3. }
    assert (Hload : load_checkpoint d3 = Err NotRecordBoundary).
    { destruct Hat as (cb & Hf & Hc). unfold load_checkpoint. rewrite Hck3, Hf, Hc.
      rewrite (validate_end d3 _ _ _ Hd3) by done. by rewrite torn_inside. }
    rewrite Ex. simpl. split_and!; [done|done| |].
    + intros m. apply deliver_fixed. unfold deliver. by rewrite Hload.
    + intros cfg' id Hv. unfold wal_open. by rewrite Hv, Hload.
Qed.
End torn.

(** An event whose payload does not survive its own text is lost.  The
    checksum is taken of the text of the payload in memory and checked against
    the text of the payload read back; when the two differ (the JSON reader may
    change the last bit of a float) the append succeeds, and every delivery finds
    a checksum mismatch or nothing. *)
Theorem unfaithful_payload_is_lost cfg x0 id ts p b r' m :
  let r := mkRecord id ts 0 0 (compute_checksum p) p in
  sys_init cfg = Some x0 → validate cfg = Ok tt →
  record_to_vec r = Some b → record_from_slice b = Some r' →
  segment r' = 0 → offset r' = 0 → checksum r' = compute_checksum p →
  compute_checksum (payload r') ≠ compute_checksum p →
  blen b + 1 ≤ MAX_DURABLE_EVENT_BYTES → blen b + 1 ≤ segment_bytes cfg →
  let x := sys_run x0 [OpAppend id ts p WriteOk] in
  let y := sys_run x (repeat OpDeliver (S m)) in
  sys_appended x = [r] ∧ sys_delivered y = []
  ∧ ∃ c, load_checkpoint (sys_disk y) = Ok c
      ∧ next_pending (sys_disk y) c = (Ok None, sys_disk y).
Proof.
  intros r Hi Hv Hr Hr' Hs Ho Hc Hne Hs1 Hs2 x y.
  destruct (open_one cfg 0 _ [] empty_one_segment (lookup_empty _) Hv) as (w0 & Hw0 & He0 & _);
    [by vm_compute|].
  unfold sys_init in Hi. rewrite Hw0 in Hi. injection Hi as <-.
  assert (Er : record_at w0 id ts p = r).
  { destruct He0 as [_ Es Eo _ _ _]. unfold record_at, r. by rewrite Es, Eo. }
  destruct (append_one cfg w0 (mkDisk ∅ ∅) [] id ts p WriteOk b empty_one_segment He0 Hv)
    as (w1 & d1 & E1 & Hd1 & Hck1 & _); [by rewrite Er|done|done|]. rewrite Er in E1.
  cbn [written app] in Hd1. pose proof (record_no_newline _ _ Hr) as Hnn.
  assert (Ex : x = mkSys w1 d1 [] [r] []).
  { unfold x, sys_run. cbn [fold_left sys_step]. by rewrite E1. }
  destruct (deliver_bad w1 d1 [] [r] [] (b ++ [10]) (b ++ [10]) "checksum_mismatch" b)
    as (w2 & d2 & E2 & Hd2 & Hat & _); try done.
  - by rewrite read_until_line.
  - rewrite length_app. simpl. lia.
  - rewrite blen_app. change (blen [10]) with 1. unfold MAX_DURABLE_EVENT_BYTES in *. width_lia.
  - right. rewrite last_is_newline_line, without_last_line. unfold line_record, verify_checksum.
    by rewrite Hr', Hs, Ho, Hc, (proj2 (Z.eqb_neq _ _) Hne).
  - destruct (deliver_end w2 d2 [] [r] [] (b ++ [10]) 1 Hd2 Hat) as [Hn Hfix]; [done|].
    assert (Ey : y = mkSys w2 d2 [] [r] []).
    { unfold y. rewrite Ex, <- (deliver_fixed w2 d2 [] [r] [] m Hfix), <- E2. done. }
    rewrite Ex, Ey. split_and!; [done|done|]. eexists. split; [by apply (load_end d2 (b ++ [10]) 1)|done].
Qed.
End crash.

(** ** A concrete crash *)

Module CrashModel.
Import WalModel.
Definition x : @Payload model := "x".
Definition y : @Payload model := "y".
Definition first : WalRecord Payload := torn_event "a" "t" x.
Definition second : WalRecord Payload := second_event 20 "b" "t" y.
Definition t1 : bytes := default [] (record_to_vec first).
Definition t2 : bytes := default [] (record_to_vec second).
Lemma case : torn_case cfg "a" "t" x 20 "b" "t" y t1 t2.
Proof.
  split; [done..| | |]; repeat split; try (vm_compute; discriminate);
    apply Nat.leb_le; vm_compute; reflexivity.
Qed.
End CrashModel.

Lemma torn_write_loses_event_witness :
  record_from_slice (take 20 CrashModel.t1 ++ CrashModel.t2) = None
  ∧ sys_delivered (sys_run (sys_run WalModel.start
      [OpAppend "a" "t" CrashModel.x (WriteErr 20 false); OpReopen WalModel.cfg;
       OpAppend "b" "t" CrashModel.y WriteOk]) (repeat OpDeliver 8)) = [].
Proof.
  assert (Hi : sys_init WalModel.cfg = Some WalModel.start) by reflexivity.
  assert (Hb : record_from_slice (take 20 CrashModel.t1 ++ CrashModel.t2) = None)
    by (vm_compute; reflexivity).
  split; [exact Hb|].
  destruct (torn_write_loses_event WalModel.cfg "a" "t" CrashModel.x 20 "b" "t"
    CrashModel.y CrashModel.t1 CrashModel.t2 CrashModel.case WalModel.start 7 Hi Hb)
    as (_ & Hd & _).
  exact Hd.
Defined.

Lemma torn_tail_wedges_log_witness :
  load_checkpoint (sys_disk (sys_run WalModel.start
      [OpAppend "a" "t" CrashModel.x (WriteErr 20 false); OpReopen WalModel.cfg; OpDeliver;
       OpAppend "b" "t" CrashModel.y WriteOk])) = Err NotRecordBoundary.
Proof.
  assert (Hi : sys_init WalModel.cfg = Some WalModel.start) by reflexivity.
  destruct (torn_tail_wedges_log WalModel.cfg "a" "t" CrashModel.x 20 "b" "t"
    CrashModel.y CrashModel.t1 CrashModel.t2 CrashModel.case WalModel.start Hi)
    as (_ & Hl & _).
  exact Hl.
Defined.

(** A reader that drops what follows the first two characters of a payload, as
    a float reader may drop digits. *)
Module LossyModel.
Import WalModel.
Definition shorten (s : string) : string := String.substring 0 2 s.
#[local] Instance lossy_model : WalCodec := {|
  Payload := string;
  payload_to_vec := @payload_to_vec model;
  crc32 := @crc32 model;
  record_to_vec := @record_to_vec model;
  record_from_slice := λ l,
    match @record_from_slice model l with
    | Some r => Some (mkRecord (event_id r) (timestamp r) (segment r) (offset r) (checksum r)
                       (shorten (payload r)))
    | None => None
    end;
  checkpoint_to_string := @checkpoint_to_string model;
  checkpoint_from_str := @checkpoint_from_str model;
|}.
#[local] Instance lossy_laws : WalCodecLaws.
Proof. split; apply model_laws. Qed.
Definition start : @Sys lossy_model :=
  mkSys (mkWriter cfg 0 0 None 0 0 0 0) (mkDisk ∅ ∅) [] [] [].
Definition x : @Payload lossy_model := "0.1".
Definition r : WalRecord Payload := mkRecord "a" "t" 0 0 (compute_checksum x) x.
Definition r' : WalRecord Payload := mkRecord "a" "t" 0 0 (compute_checksum x) "0.".

Lemma unfaithful_payload_is_lost_witness :
  compute_checksum (payload r') ≠ compute_checksum x
  ∧ sys_appended (sys_run start [OpAppend "a" "t" x WriteOk]) = [r]
  ∧ sys_delivered (sys_run (sys_run start [OpAppend "a" "t" x WriteOk]) (repeat OpDeliver 4)) = [].
Proof.
  assert (Hi : sys_init cfg = Some start) by reflexivity.
  assert (Hr : record_to_vec r = Some (text (code r))) by reflexivity.
  assert (Hr' : record_from_slice (text (code r)) = Some r') by reflexivity.
  assert (Hne : compute_checksum (payload r') ≠ compute_checksum x) by (vm_compute; discriminate).
  split; [exact Hne|].
  destruct (unfaithful_payload_is_lost cfg start "a" "t" x _ r' 3 Hi eq_refl Hr Hr'
    eq_refl eq_refl eq_refl Hne ltac:(vm_compute; discriminate) ltac:(vm_compute; discriminate))
    as (Ha & Hd & _).
  split; [exact Ha|exact Hd].
Defined.
End LossyModel.
