(* ===== verification/EventDelivery.v ===== *)
(** * EventDelivery: durable events and their delivery
      (src/src/gateway/event_delivery.rs)

    An event is wrapped in an envelope, appended to the event log and delivered
    to the API by a worker that acknowledges a record only when the API answered
    with its delivery id, or after the record was put in quarantine.  Identifiers
    and times are arguments; the JSON codec, SHA-256 and the HTTP exchange are
    parameters.  [None] as the outcome of a delivery is a panic of the worker. *)

From Stdlib Require Import ZArith Ascii String.
From stdpp Require Import base countable gmap strings list sorting.
From S2P Require Import Prelude Text Hlc Lww EventWal EventWalDisk EventWalQueue EventWalSystem.

Local Open Scope Z_scope.

(** ** Envelopes *)

Inductive DurableEventKind := Decision | Spend | AiUsage | Trail | UaComplete.
#[export] Instance DurableEventKind_eq_dec : EqDecision DurableEventKind.
Proof. solve_decision. Defined.

Definition as_str (k : DurableEventKind) : string :=
  match k with
  | Decision => "decision" | Spend => "spend" | AiUsage => "ai_usage" | Trail => "trail"
  | UaComplete => "ua_complete"
  end.
Definition is_usage_authorization_completion (k : DurableEventKind) : bool :=
  bool_decide (k = UaComplete).

Inductive DurableEventError :=
| InvalidField (field : string)
| Serialization
| WalWrite (error : WalError).

Section delivery.
Context `{SerdeJson}.
Abbreviation value := (Value Number).

Record DurableEventEnvelope := mkEnvelope {
  delivery_id : string;
  env_event_id : string;
  event_kind : DurableEventKind;
  org_id : option string;
  team_id : option string;
  request_id : string;
  created_at : string;
  payload_sha256 : string;
  env_payload : value;
}.

(** [hex::encode(Sha256::digest(..))], [serde_json::to_value] and
    [from_value] of an envelope, and [serde_json::from_str]. *)
Class EnvelopeCodec `{WalCodec} := {
  sha256_hex : string → string;
  envelope_to_value : DurableEventEnvelope → option Payload;
  envelope_from_value : Payload → Result DurableEventEnvelope string;
  json_from_str : string → option value;
}.
Class EnvelopeLaws `{EnvelopeCodec} : Prop := {
  envelope_reads : ∀ e p, envelope_to_value e = Some p → envelope_from_value p = Ok e;
}.

Context `{EnvelopeCodec}.
Abbreviation Record_ := (WalRecord Payload).

Definition json_as_str (v : value) : option string :=
  match v with Str s => Some s | _ => None end.
(** [Value::pointer] for a pointer of object keys. *)
Fixpoint pointer (v : value) (keys : list string) : option value :=
  match keys with
  | [] => Some v
  | k :: keys => json_get v k ≫= λ v, pointer v keys
  end.
(** [value.trim()], when something is left. *)
Definition trimmed (s : string) : option string :=
  let s := trim s in if is_empty s then None else Some s.
(** [.and_then(Value::as_str).map(str::trim).filter(|s| !s.is_empty())]. *)
Definition json_text (v : value) : option string :=
  match json_as_str v with Some s => trimmed s | None => None end.

Definition required_text (s field : string) : Result string DurableEventError :=
  match trimmed s with Some s => Ok s | None => Err (InvalidField field) end.
Fixpoint payload_text (payload : value) (pointers : list (list string)) : option string :=
  match pointers with
  | [] => None
  | ptr :: pointers =>
      match pointer payload ptr ≫= json_text with
      | Some s => Some s
      | None => payload_text payload pointers
      end
  end.

(** [DurableEventEnvelope::new]; [uuid] and [now] are the fresh identifier and
    the time. *)
Definition envelope_new (kind : DurableEventKind) (request : string) (payload : value)
    (uuid now : string) : Result DurableEventEnvelope DurableEventError :=
  match required_text request "request_id" with
  | Err e => Err e
  | Ok request =>
      match json_to_string payload with
      | None => Err Serialization
      | Some text =>
          Ok {| delivery_id := uuid;
                env_event_id := default (as_str kind +:+ ":" +:+ request)
                  (payload_text payload
                     [["event_id"]; ["record_id"]; ["id"]; ["trail_event_id"];
                      ["metadata"; "event_id"]]);
                event_kind := kind;
                org_id := payload_text payload
                  [["org_id"]; ["identity_context"; "org_id"]; ["metadata"; "org_id"]];
                team_id := payload_text payload
                  [["team_id"]; ["identity_context"; "team_id"]; ["metadata"; "team_id"]];
                request_id := request;
                created_at := default now (payload_text payload
                  [["created_at"]; ["captured_at"]; ["timestamp"]; ["event_time"]]);
                payload_sha256 := sha256_hex text;
                env_payload := payload |}
      end
  end.

Definition ua_authorization_id_from_payload (payload : value) : option string :=
  json_get payload "gateway_usage_authorization_id" ≫= json_text.
Definition ua_complete_request_from_payload (payload : value) : option value :=
  json_get payload "complete_request".

(** [object.entry(key).or_insert(value)] on an object in key order. *)
Fixpoint entry_or_insert (key : string) (v : value) (kvs : list (string * value)) :
    list (string * value) :=
  match kvs with
  | [] => [(key, v)]
  | (k, w) :: kvs =>
      if String.eqb k key then (k, w) :: kvs
      else if String.ltb key k then (key, v) :: (k, w) :: kvs
      else (k, w) :: entry_or_insert key v kvs
  end.
Definition stamp (event now : string) (payload : value) : value :=
  match payload with
  | Obj kvs =>
      Obj (entry_or_insert "timestamp" (Str now) (entry_or_insert "event_id" (Str event) kvs))
  | _ => payload
  end.
Definition stamped (kind : DurableEventKind) (request now : string) (payload : value) : value :=
  let event := default (as_str kind +:+ ":" +:+ trim request)%string
    (payload_text payload [["event_id"]; ["trail_event_id"]; ["metadata"; "event_id"]]) in
  stamp event now payload.

(** ** The sink *)

Record Sink := mkSink {
  durable_wal_writer : WalWriter;
  wal_disk : Disk;
  persisted_event_ids : gset string;
  machine_client : bool;
  retry_attempt : Z;
  retries_total : Z;
  quarantine_total : Z;
}.
Definition set_wal (s : Sink) (w : WalWriter) (d : Disk) : Sink :=
  {| durable_wal_writer := w; wal_disk := d; persisted_event_ids := persisted_event_ids s;
     machine_client := machine_client s; retry_attempt := retry_attempt s;
     retries_total := retries_total s; quarantine_total := quarantine_total s |}.

Definition persistence_key (e : DurableEventEnvelope) : string :=
  (as_str (event_kind e) +:+ ":" +:+ env_event_id e)%string.

(** [persist_durable_event] ([now] and [ts] are the clock's readings for the
    envelope and for the log): the WAL record is returned beside the envelope
    when one was appended (an event persisted before is only forwarded). *)
Definition persist_durable_event (s : Sink) (kind : DurableEventKind) (request : string)
    (payload : value) (uuid now ts : string) (out : WriteOutcome) :
    Result (DurableEventEnvelope * option Record_) DurableEventError * Sink :=
  let payload := if bool_decide (kind = Decision) || bool_decide (kind = Trail)
                 then stamped kind request now payload else payload in
  match envelope_new kind request payload uuid now with
  | Err e => (Err e, s)
  | Ok env =>
      if bool_decide (persistence_key env ∈ persisted_event_ids s) then (Ok (env, None), s) else
      match envelope_to_value env with
      | None => (Err Serialization, s)
      | Some p =>
          let '(r, w, d) := append (durable_wal_writer s) (wal_disk s) (delivery_id env) ts p out in
          match r with
          | Err e => (Err (WalWrite e), set_wal s w d)
          | Ok r =>
              (Ok (env, Some r),
               {| durable_wal_writer := w; wal_disk := d;
                  persisted_event_ids := {[persistence_key env]} ∪ persisted_event_ids s;
                  machine_client := machine_client s; retry_attempt := retry_attempt s;
                  retries_total := retries_total s; quarantine_total := quarantine_total s |})
          end
      end
  end.

(** [persist_durable_decision_local]: the same append without a sink. *)
Definition persist_durable_decision_local (w : WalWriter) (d : Disk) (request : string)
    (payload : value) (uuid now ts : string) (out : WriteOutcome) :
    Result DurableEventEnvelope DurableEventError * WalWriter * Disk :=
  match envelope_new Decision request (stamped Decision request now payload) uuid now with
  | Err e => (Err e, w, d)
  | Ok env =>
      match envelope_to_value env with
      | None => (Err Serialization, w, d)
      | Some p =>
          let '(r, w, d) := append w d (delivery_id env) ts p out in
          match r with Err e => (Err (WalWrite e), w, d) | Ok _ => (Ok env, w, d) end
      end
  end.

(** ** One delivery attempt *)

Inductive DeliveryDisposition :=
| Accepted
| Retry (reason : string)
| PermanentRejection (status : Z) (body : string).

Definition is_success (status : Z) : bool := (200 <=? status) && (status <=? 299).
Definition is_server_error (status : Z) : bool := (500 <=? status) && (status <=? 599).
Definition classify_http_delivery_status (status : Z) : DeliveryDisposition :=
  if is_success status then Accepted else
  if (status =? 408) || (status =? 429) || (is_server_error status && negb (status =? 507))
  then Retry ("HTTP " +:+ pad 0 status) else PermanentRejection status EmptyString.

Definition extract_ack_delivery_id (body : string) : option string :=
  match json_from_str body with
  | Some v => json_get v "delivery_id" ≫= json_text
  | None => None
  end.

(** The request of a delivery: its path and body, and the envelope whose
    identifiers are its headers. *)
Inductive RequestBody := WholeEnvelope (e : DurableEventEnvelope) | CompleteRequest (v : value).
Record HttpRequest := mkRequest {
  req_path : string;
  req_body : RequestBody;
  req_envelope : DurableEventEnvelope;
}.
Definition request_body (e : DurableEventEnvelope) : RequestBody :=
  match event_kind e with
  | UaComplete =>
      CompleteRequest (default (env_payload e) (ua_complete_request_from_payload (env_payload e)))
  | _ => WholeEnvelope e
  end.

(** What the HTTP client reports: no permit, the deadline, a transport error,
    or a response and the reading of its body. *)
Inductive BodyOutcome := BodyOk (text : string) | BodyError (message : string) | BodyDeadline.
Inductive HttpOutcome :=
| NoPermit
| SendDeadline
| SendError (message : string)
| Responded (status : Z) (body : BodyOutcome).

(** [String::truncate]: panics off a character boundary. *)
Definition continuation_byte (a : ascii) : bool :=
  let n := Z.of_N (N_of_ascii a) in (128 <=? n) && (n <=? 191).
Definition truncate (n : nat) (s : string) : option string :=
  if (n <=? String.length s)%nat then
    match String.get n s with
    | Some a => if continuation_byte a then None else Some (String.substring 0 n s)
    | None => Some s
    end
  else Some s.
Definition ACK_BODY_BYTES : nat := 4096.

Definition UA_PREFIX : string := "/v1/gateway/usage-authorizations/".
(** The path of the request, or the rejection when no client may send it. *)
Definition delivery_path (machine : bool) (e : DurableEventEnvelope) :
    Result string DeliveryDisposition :=
  match event_kind e with
  | Spend => Ok (if machine then "/v1/gateway/spend/log" else "/v1/spend/log")%string
  | UaComplete =>
      let id := default EmptyString (ua_authorization_id_from_payload (env_payload e)) in
      if machine then Ok (UA_PREFIX +:+ id +:+ "/complete")%string
      else Err (PermanentRejection 503
                  "usage-authorization completion delivery requires machine client")
  | Decision | AiUsage | Trail =>
      Ok (if machine then "/v1/gateway/events" else "/v1/events")%string
  end.

Definition settle_response (e : DurableEventEnvelope) (status : Z) (body : string) :
    DeliveryDisposition :=
  if is_success status then
    match extract_ack_delivery_id body with
    | Some ack =>
        if String.eqb ack (delivery_id e) then Accepted
        else Retry ("2xx ack delivery_id mismatch: expected " +:+ delivery_id e +:+ " got " +:+ ack)
    | None => Retry "2xx ack missing matching delivery_id"
    end
  else
    match classify_http_delivery_status status with
    | Retry reason => Retry reason
    | PermanentRejection status _ => PermanentRejection status body
    | Accepted => Retry "unexpected accepted classification for non-2xx"
    end.

(** [deliver_wal_record]; [http] answers a request. *)
Definition deliver_wal_record (machine : bool) (http : HttpRequest → HttpOutcome)
    (r : Record_) : option DeliveryDisposition :=
  match envelope_from_value (payload r) with
  | Err error => Some (PermanentRejection 422 ("invalid durable envelope: " +:+ error))
  | Ok e =>
      match delivery_path machine e with
      | Err rejection => Some rejection
      | Ok path =>
          match http (mkRequest path (request_body e) e) with
          | NoPermit => Some (Retry "delivery semaphore closed")
          | SendDeadline => Some (Retry "delivery attempt deadline exceeded (15s)")
          | SendError message => Some (Retry message)
          | Responded _ (BodyError message) =>
              Some (Retry ("response body read failed: " +:+ message))
          | Responded _ BodyDeadline => Some (Retry "response body read deadline exceeded")
          | Responded status (BodyOk body) =>
              settle_response e status <$> truncate ACK_BODY_BYTES body
          end
      end
  end.

(** [deliver_envelope_inline]: the same attempt without the log. *)
Definition deliver_envelope_inline (machine : bool)
    (http : HttpRequest → HttpOutcome) (e : DurableEventEnvelope) :
    Result (option (Result unit string)) DurableEventError :=
  match envelope_to_value e with
  | None => Err Serialization
  | Some p =>
      Ok (match deliver_wal_record machine http
                  (mkRecord (env_event_id e) (created_at e) 0 0 (compute_checksum p) p) with
          | None => None
          | Some Accepted => Some (Ok tt)
          | Some (Retry reason) => Some (Err reason)
          | Some (PermanentRejection status body) =>
              Some (Err ("permanent delivery rejection: status=" +:+ pad 0 status +:+ " body=" +:+ body)%string)
          end)
  end.

(** ** The worker *)

(** How an iteration of the loop ends: an item was settled, the log is empty or
    unreadable, the attempt is to be repeated, or the worker has panicked. *)
Inductive Iteration :=
| SettledAccepted (r : Record_)
| SettledQuarantine (r : Record_)
| SettledMalformed
| QueueEmpty
| ReadFailed
| WillRetry
| WorkerPanicked.

Definition count_retry (s : Sink) : Sink :=
  {| durable_wal_writer := durable_wal_writer s; wal_disk := wal_disk s;
     persisted_event_ids := persisted_event_ids s; machine_client := machine_client s;
     retry_attempt := sat_add32 (retry_attempt s) 1;
     retries_total := wrap64 (retries_total s + 1); quarantine_total := quarantine_total s |}.
Definition reset_retry (s : Sink) (quarantined : Z) : Sink :=
  {| durable_wal_writer := durable_wal_writer s; wal_disk := wal_disk s;
     persisted_event_ids := persisted_event_ids s; machine_client := machine_client s;
     retry_attempt := 0; retries_total := retries_total s;
     quarantine_total := wrap64 (quarantine_total s + quarantined) |}.

(** [acknowledge_wal_item]. *)
Definition acknowledge_wal_item (s : Sink) (next_seg next_off : Z) : Result unit WalError * Sink :=
  let '(r, w, d) := acknowledge (durable_wal_writer s) (wal_disk s) next_seg next_off in
  (match r with Ok _ => Ok tt | Err e => Err e end, set_wal s w d).

(** One iteration of [run_wal_delivery_loop].  The encrypted document of
    [write_encrypted_permanent_quarantine] stands for what it encrypts. *)
Definition delivery_iteration (http : HttpRequest → HttpOutcome) (s : Sink) :
    Iteration * Sink :=
  match load_checkpoint (wal_disk s) with
  | Err _ => (ReadFailed, s)
  | Ok c =>
      let '(next, d) := next_pending (wal_disk s) c in
      let s := set_wal s (durable_wal_writer s) d in
      match next with
      | Err _ => (ReadFailed, s)
      | Ok None => (QueueEmpty, reset_retry s 0)
      | Ok (Some (PQuarantined item)) =>
          match acknowledge_wal_item s (q_next_segment item) (q_next_offset item) with
          | (Ok _, s) => (SettledMalformed, s)
          | (Err _, s) => (WillRetry, s)
          end
      | Ok (Some (PRecord item)) =>
          match deliver_wal_record (machine_client s) http (record item) with
          | None => (WorkerPanicked, s)
          | Some Accepted =>
              match acknowledge_wal_item s (next_segment item) (next_offset item) with
              | (Ok _, s) => (SettledAccepted (record item), reset_retry s 0)
              | (Err _, s) => (WillRetry, count_retry s)
              end
          | Some (Retry _) => (WillRetry, count_retry s)
          | Some (PermanentRejection status body) =>
              let '(_, d) := quarantine_permanent (wal_disk s) (record item) status body in
              match acknowledge_wal_item (set_wal s (durable_wal_writer s) d)
                      (next_segment item) (next_offset item) with
              | (Ok _, s) => (SettledQuarantine (record item), reset_retry s 1)
              | (Err _, s) => (WillRetry, s)
              end
          end
      end
  end.

(** ** Readiness and metrics *)

Definition is_permanent_document (name : string) : bool :=
  String.prefix "permanent-" name
  && match strip_suffix ".json" name with Some _ => true | None => false end.
Definition count_permanent_quarantine_documents (d : Disk) : Z :=
  Z.of_nat (size (filter (λ e : string * QuarantineDoc, is_permanent_document e.1) (quarantine d))).
Definition quarantine_blocks_readiness (d : Disk) : bool :=
  0 <? count_permanent_quarantine_documents d.
Definition acknowledge_corrected_quarantine (d : Disk) (s o : Z) : bool * Disk :=
  match quarantine d !! permanent_path s o with
  | None => (false, d)
  | Some _ => (true, {| files := files d; quarantine := delete (permanent_path s o) (quarantine d) |})
  end.

(** [snapshot_audit_wal_delivery]: the count of unacknowledged records. *)
Definition snapshot_wal_records (s : Sink) : Result Z WalError :=
  match load_checkpoint (wal_disk s) with
  | Err e => Err e
  | Ok c => Ok (sat_sub (records_written (durable_wal_writer s)) (acknowledged_count c))
  end.

(** ** Runs of a sink *)

Inductive DOp :=
| DPersist (kind : DurableEventKind) (request : string) (payload : value)
    (uuid now ts : string) (out : WriteOutcome)
| DIterate (http : HttpRequest → HttpOutcome)
| DRestart (cfg : WalConfig).

(** The sink and its history: the appended records, and those settled, with
    whether the API accepted them. *)
Record DSys := mkDSys {
  d_sink : Sink;
  d_appended : list Record_;
  d_settled : list (Record_ * bool);
}.
Definition settle (i : Iteration) (l : list (Record_ * bool)) : list (Record_ * bool) :=
  match i with
  | SettledAccepted r => l ++ [(r, true)]
  | SettledQuarantine r => l ++ [(r, false)]
  | _ => l
  end.
Definition d_step (x : DSys) (op : DOp) : DSys :=
  let s := d_sink x in
  match op with
  | DPersist kind request payload uuid now ts out =>
      match persist_durable_event s kind request payload uuid now ts out with
      | (Ok (_, Some r), s) => mkDSys s (d_appended x ++ [r]) (d_settled x)
      | (_, s) => mkDSys s (d_appended x) (d_settled x)
      end
  | DIterate http =>
      let '(i, s) := delivery_iteration http s in mkDSys s (d_appended x) (settle i (d_settled x))
  | DRestart cfg =>
      match wal_open cfg (S (writer_id (durable_wal_writer s))) (wal_disk s) with
      | Ok w => mkDSys (mkSink w (wal_disk s) ∅ (machine_client s) 0 0 0) (d_appended x) (d_settled x)
      | Err _ => x
      end
  end.
Definition d_run (x : DSys) (ops : list DOp) : DSys := fold_left d_step ops x.
Definition d_init (cfg : WalConfig) (machine : bool) : option DSys :=
  match wal_open cfg 0 (mkDisk ∅ ∅) with
  | Ok w => Some (mkDSys (mkSink w (mkDisk ∅ ∅) ∅ machine 0 0 0) [] [])
  | Err _ => None
  end.

(** The envelope of this event survives the text of the log: [serde_json] without
    [float_roundtrip] does not keep every float. *)
Definition event_faithful (kind : DurableEventKind) (request : string) (payload : value)
    (uuid now : string) : Prop :=
  let payload := if bool_decide (kind = Decision) || bool_decide (kind = Trail)
                 then stamped kind request now payload else payload in
  ∀ env p, envelope_new kind request payload uuid now = Ok env → envelope_to_value env = Some p →
    faithful p.
(** Events survive their text, failed writes are rolled back, and the log is reopened
    with valid limits. *)
Definition d_op_ok (op : DOp) : Prop :=
  match op with
  | DPersist kind request payload uuid now _ out =>
      event_faithful kind request payload uuid now ∧ rolled_back out
  | DIterate _ => True
  | DRestart cfg => validate cfg = Ok tt ∧ total_bytes cfg ≤ MAX_TOTAL_BYTES
  end.

Section runs.
Context `{!WalCodecLaws} `{!EnvelopeLaws}.
Abbreviation rep := (wal_rep MAX_TOTAL_BYTES).

Lemma bound_refl : MAX_TOTAL_BYTES ≤ MAX_TOTAL_BYTES.
Proof. lia. Qed.

(** The API answered the request for the record with a success that names its delivery,
    in the part of the body that is read. *)
Definition acknowledged_by (machine : bool) (http : HttpRequest → HttpOutcome) (r : Record_) : Prop :=
  ∃ e path status body body', envelope_from_value (payload r) = Ok e ∧ delivery_path machine e = Ok path
    ∧ http (mkRequest path (request_body e) e) = Responded status (BodyOk body)
    ∧ is_success status = true ∧ truncate ACK_BODY_BYTES body = Some body'
    ∧ extract_ack_delivery_id body' = Some (delivery_id e).

Definition in_quarantine (d : Disk) (r : Record_) : Prop :=
  is_Some (quarantine d !! permanent_path (segment r) (offset r)).

Record d_inv (n : Z) (x : DSys) : Prop := {
  di_queue : ∃ l c q, rep n (durable_wal_writer (d_sink x)) (wal_disk (d_sink x)) l c q
    ∧ d_appended x = (d_settled x).*1 ++ q
    ∧ Forall (λ r, ∃ e, envelope_from_value (payload r) = Ok e) q;
  di_rejected : ∀ r, (r, false) ∈ d_settled x → in_quarantine (wal_disk (d_sink x)) r;
}.

Lemma accepted_acknowledged machine http r :
  deliver_wal_record machine http r = Some Accepted → acknowledged_by machine http r.
Proof.
  unfold deliver_wal_record, acknowledged_by. destruct (envelope_from_value _) as [e|] eqn:Ee; [|done].
  destruct (delivery_path machine e) as [path|rej] eqn:Ep; [|].
  - destruct (http (mkRequest path (request_body e) e)) as [| | |status [body| |]] eqn:Eh; try done.
    destruct (truncate _ _) as [body'|] eqn:Et; [|done]. simpl. unfold settle_response.
    destruct (is_success status) eqn:Es.
    + destruct (extract_ack_delivery_id body') as [ack|] eqn:Ea; [|done].
      destruct (String.eqb_spec ack (delivery_id e)); [|done]. intros _. subst. exists e, path, status, body, body'. done.
    + unfold classify_http_delivery_status. rewrite Es. by destruct (_ || _).
  - unfold delivery_path in Ep. destruct (event_kind e), machine; simplify_eq. done.
Qed.

(** What an iteration that settles a record was answered. *)
Definition verdict (machine : bool) (http : HttpRequest → HttpOutcome) (r : Record_) (accepted : bool) : Prop :=
  if accepted then acknowledged_by machine http r
  else ∃ status body, deliver_wal_record machine http r = Some (PermanentRejection status body).
Lemma iteration_verdict http s i s' :
  delivery_iteration http s = (i, s') →
  match i with
  | SettledAccepted r => verdict (machine_client s) http r true
  | SettledQuarantine r => verdict (machine_client s) http r false
  | _ => True
  end.
Proof.
  unfold delivery_iteration. destruct (load_checkpoint _) as [c|]; [|by intros; simplify_eq].
  destruct (next_pending _ c) as [[[[item|item]|]|] d]; try (by intros; simplify_eq).
  - destruct (deliver_wal_record _ http (record item)) as [[|reason|status body]|] eqn:Ed; try (by intros; simplify_eq);
      cbn [set_wal machine_client] in Ed.
    + destruct (acknowledge_wal_item _ _ _) as [[[]|] s1]; intros; simplify_eq; [|done].
      by apply accepted_acknowledged.
    + destruct (quarantine_permanent _ _ _ _) as [n d1].
      destruct (acknowledge_wal_item _ _ _) as [[[]|] s1]; intros; simplify_eq; [|done].
      by exists status, body.
  - destruct (acknowledge_wal_item _ _ _) as [[[]|] s1]; by intros; simplify_eq.
Qed.

Lemma put_quarantine_spec (d : Disk) path doc :
  quarantine d ⊆ quarantine (put_quarantine d path doc)
  ∧ is_Some (quarantine (put_quarantine d path doc) !! path).
Proof.
  unfold put_quarantine. destruct (quarantine d !! path) eqn:E; simpl.
  - rewrite E. eauto.
  - rewrite lookup_insert_eq. split; [by apply insert_subseteq|eauto].
Qed.

Lemma files_put d path doc : files (put_quarantine d path doc) = files d.
Proof. unfold put_quarantine. by case_match. Qed.

(** ** One iteration *)

Lemma iteration_empty n s l c http :
  rep n (durable_wal_writer s) (wal_disk s) l c [] →
  delivery_iteration http s = (QueueEmpty, reset_retry s 0).
Proof.
  intros Hw. unfold delivery_iteration. pose proof (wr_disk _ _ _ _ _ _ _ Hw) as Hd.
  rewrite (load_checkpoint_rep _ _ _ _ _ _ Hd), (next_pending_rep _ bound_refl _ _ _ _ _ Hd).
  by destruct s.
Qed.

(** The next record is settled when the API accepts it or rejects it for good,
    and stays first in the queue otherwise. *)
Lemma iteration_head n s l c r q http :
  rep n (durable_wal_writer s) (wal_disk s) l c (r :: q) → n < u64_max →
  ∃ i s', delivery_iteration http s = (i, s') ∧ machine_client s' = machine_client s ∧
    match deliver_wal_record (machine_client s) http r with
    | None =>
        i = WorkerPanicked ∧ durable_wal_writer s' = durable_wal_writer s
        ∧ wal_disk s' = wal_disk s
    | Some (Retry _) =>
        i = WillRetry ∧ durable_wal_writer s' = durable_wal_writer s ∧ wal_disk s' = wal_disk s
    | Some Accepted =>
        i = SettledAccepted r ∧ quarantine (wal_disk s') = quarantine (wal_disk s)
        ∧ ∃ l' c', rep (n + 1) (durable_wal_writer s') (wal_disk s') l' c' q
    | Some (PermanentRejection _ _) =>
        i = SettledQuarantine r ∧ quarantine (wal_disk s) ⊆ quarantine (wal_disk s')
        ∧ in_quarantine (wal_disk s') r
        ∧ ∃ l' c', rep (n + 1) (durable_wal_writer s') (wal_disk s') l' c' q
    end.
Proof.
  intros Hw Hn. unfold delivery_iteration. pose proof (wr_disk _ _ _ _ _ _ _ Hw) as Hd.
  rewrite (load_checkpoint_rep _ _ _ _ _ _ Hd), (next_pending_rep _ bound_refl _ _ _ _ _ Hd).
  cbn [fmap option_fmap option_map head]. unfold item_of. cbn [record next_segment next_offset].
  replace (set_wal s (durable_wal_writer s) (wal_disk s)) with s by (by destruct s).
  destruct (deliver_wal_record (machine_client s) http r) as [[|reason|status body]|].
  - unfold acknowledge_wal_item.
    destruct (acknowledge_rep _ bound_refl _ _ _ _ _ _ _ Hw Hn) as (c' & w' & d' & l' & E & Hw' & _).
    pose proof (acknowledge_quarantine (durable_wal_writer s) (wal_disk s) (segment r)
      (offset r + blen (line r))) as Hq. rewrite E in Hq |- *.
    eexists _, _. split; [done|]. split; [done|]. simpl. eauto 10.
  - eexists _, _. split; [done|]. done.
  - unfold quarantine_permanent. set (path := permanent_path _ _).
    set (d1 := put_quarantine (wal_disk s) path _). unfold acknowledge_wal_item.
    assert (Hw1 : rep n (durable_wal_writer s) d1 l c (r :: q))
      by (eapply wal_rep_files; [apply files_put|done]).
    destruct (acknowledge_rep _ bound_refl _ _ _ _ _ _ _ Hw1 Hn) as (c' & w' & d' & l' & E & Hw' & _).
    pose proof (acknowledge_quarantine (durable_wal_writer s) d1 (segment r)
      (offset r + blen (line r))) as Hq. cbn [set_wal durable_wal_writer wal_disk].
    rewrite E in Hq |- *. eexists _, _. split; [done|]. split; [done|].
    simpl in Hq |- *. unfold in_quarantine. simpl. rewrite Hq. unfold d1.
    destruct (put_quarantine_spec (wal_disk s) path (Permanent r status body)). eauto 10.
  - eexists _, _. split; [done|]. done.
Qed.

(** ** The invariant of runs *)

Lemma d_inv_mono n x : d_inv n x → d_inv (n + 1) x.
Proof.
  intros [(l & c & q & Hw & Hq & Hf) Hr]. split; [|done]. exists l, c, q.
  split_and!; [|done|done]. eapply wal_rep_mono; [done|lia].
Qed.

Lemma persist_inv n x kind request payload uuid now ts out :
  d_inv n x → n < u64_max → event_faithful kind request payload uuid now → rolled_back out →
  d_inv (n + 1) (d_step x (DPersist kind request payload uuid now ts out)).
Proof.
  intros Hx Hn Hfaith Hout. pose proof (d_inv_mono n x Hx) as Hx1.
  destruct x as [s app sett]. simpl. unfold persist_durable_event.
  destruct (envelope_new _ _ _ _ _) as [env|e] eqn:Een; [|done].
  destruct (bool_decide (persistence_key env ∈ _)); [done|].
  destruct (envelope_to_value env) as [p|] eqn:Ep; [|done].
  destruct Hx as [(l & c & q & Hw & Hq & Hf) Hr]. simpl in *.
  destruct (append_rep _ bound_refl n _ _ l c q (delivery_id env) ts p out Hw Hn Hout
    (Hfaith env p Een Ep)) as (r & w' & d' & l' & E & Hw' & _ & _ & Hid).
  pose proof (append_quarantine (durable_wal_writer s) (wal_disk s) (delivery_id env) ts p out) as Hqd.
  rewrite E in Hqd |- *. simpl in Hqd. destruct r as [r|e]; simpl in *.
  - split; simpl; [|unfold in_quarantine; by rewrite Hqd]. exists l', c, (q ++ [r]).
    split_and!; [done|by rewrite Hq, app_assoc|]. apply Forall_app. split; [done|].
    constructor; [|constructor]. destruct (Hid r eq_refl) as [-> _]. exists env.
    by apply envelope_reads.
  - split; simpl; [by exists l', c, q|unfold in_quarantine; by rewrite Hqd].
Qed.

Lemma iterate_inv n x http :
  d_inv n x → n < u64_max → d_inv (n + 1) (d_step x (DIterate http)).
Proof.
  intros Hx Hn. pose proof (d_inv_mono n x Hx) as Hx1. destruct x as [s app sett].
  destruct Hx as [(l & c & q & Hw & Hq & Hf) Hr]. simpl in *.
  destruct q as [|r q].
  { rewrite (iteration_empty n s l c http Hw). by destruct Hx1. }
  destruct (iteration_head n s l c r q http Hw Hn) as (i & s' & -> & _ & Hcase).
  apply Forall_cons in Hf as [Hr0 Hf].
  destruct (deliver_wal_record _ _ r) as [[|reason|status body]|] eqn:Ed.
  - destruct Hcase as (-> & Equ & l' & c' & Hw'). split; simpl.
    + exists l', c', q. rewrite fmap_app, <- app_assoc. done.
    + intros r' [Hin|Hin]%elem_of_app; [|by apply list_elem_of_singleton in Hin].
      unfold in_quarantine. rewrite Equ. by apply Hr.
  - destruct Hcase as (-> & Ew & Ed'). split; simpl; rewrite ?Ew, ?Ed'; try done.
    apply Hx1.
  - destruct Hcase as (-> & Hsub & Hin0 & l' & c' & Hw'). split; simpl.
    + exists l', c', q. rewrite fmap_app, <- app_assoc. done.
    + intros r' [Hin|[= ->]%list_elem_of_singleton]%elem_of_app; [|done].
      destruct (Hr r' Hin) as [doc Hdoc]. exists doc. by eapply lookup_weaken.
  - destruct Hcase as (-> & Ew & Ed'). split; simpl; rewrite ?Ew, ?Ed'; try done.
    apply Hx1.
Qed.

Lemma d_step_inv n x op :
  d_inv n x → 0 ≤ n < u64_max → d_op_ok op → d_inv (n + 1) (d_step x op).
Proof.
  intros Hx Hn Hop. destruct op as [kind request payload uuid now ts out|http|cfg].
  - destruct Hop. apply persist_inv; [done|lia|done|done].
  - apply iterate_inv; [done|lia].
  - apply d_inv_mono. destruct x as [s app sett], Hop as [Hv Hb].
    destruct Hx as [(l & c & q & Hw & Hq & Hf) Hr]. simpl in *.
    destruct (wal_open_rep _ bound_refl n (wal_disk s) l c q cfg
      (S (writer_id (durable_wal_writer s))) (wr_disk _ _ _ _ _ _ _ Hw) ltac:(lia) Hv Hb)
      as (w' & -> & Hw' & _).
    split; simpl; [by exists l, c, q|done].
Qed.

Lemma d_run_inv n x ops :
  d_inv n x → 0 ≤ n → n + Z.of_nat (length ops) ≤ u64_max → Forall d_op_ok ops →
  d_inv (n + Z.of_nat (length ops)) (d_run x ops).
Proof.
  revert n x. induction ops as [|op ops IH]; intros n x Hx Hn Hlen Hops; simpl in *.
  { by rewrite Z.add_0_r. }
  apply Forall_cons in Hops as [Hop Hops].
  replace (n + Z.of_nat (S (length ops))) with (n + 1 + Z.of_nat (length ops)) by lia.
  apply IH; [|lia|lia|done]. apply d_step_inv; [done|lia|done].
Qed.

Lemma d_init_inv cfg machine x :
  d_init cfg machine = Some x → total_bytes cfg ≤ MAX_TOTAL_BYTES → d_inv 0 x.
Proof.
  unfold d_init. intros Hx Hb.
  destruct (validate cfg) as [[]|e] eqn:Hv; [|by unfold wal_open in Hx; rewrite Hv in Hx].
  destruct (wal_open_rep _ bound_refl 0 _ _ _ _ cfg 0 (empty_disk_rep MAX_TOTAL_BYTES ltac:(by vm_compute))
    ltac:(lia) Hv Hb) as (w & Hw & Hrep & _).
  rewrite Hw in Hx. simplify_eq. split; simpl; [by eexists _, _, []|..];
    intros r Hin; by apply elem_of_nil in Hin.
Qed.

Lemma iteration_machine http s : machine_client (delivery_iteration http s).2 = machine_client s.
Proof.
  unfold delivery_iteration, acknowledge_wal_item, quarantine_permanent.
  repeat (case_match; simplify_eq/=; try done).
Qed.

Lemma d_run_machine x ops : machine_client (d_sink (d_run x ops)) = machine_client (d_sink x).
Proof.
  unfold d_run. revert x. induction ops as [|op ops IH]; intros x; [done|]. cbn [fold_left].
  rewrite IH. destruct op as [kind request payload uuid now ts out|http|cfg]; simpl.
  - unfold persist_durable_event. repeat (case_match; simplify_eq/=; try done).
  - pose proof (iteration_machine http (d_sink x)). by destruct (delivery_iteration _ _).
  - by destruct (wal_open _ _ _).
Qed.

(** The iteration of a run that settled a record, and what it was answered. *)
Definition settled_by (x0 : DSys) (ops : list DOp) (r : Record_) (accepted : bool) : Prop :=
  ∃ before http after, ops = before ++ DIterate http :: after
    ∧ d_settled (d_run x0 (before ++ [DIterate http])) = d_settled (d_run x0 before) ++ [(r, accepted)]
    ∧ verdict (machine_client (d_sink x0)) http r accepted.
Lemma run_settled_by x0 ops r b :
  d_settled x0 = [] → (r, b) ∈ d_settled (d_run x0 ops) → settled_by x0 ops r b.
Proof.
  intros Hempty. induction ops as [|op ops IH] using rev_ind; intros Hin.
  { cbn in Hin. rewrite Hempty in Hin. by apply elem_of_nil in Hin. }
  assert (Hold : (r, b) ∈ d_settled (d_run x0 ops) → settled_by x0 (ops ++ [op]) r b).
  { intros Ho. destruct (IH Ho) as (before & http & after & -> & Hs & Hv).
    exists before, http, (after ++ [op]). by rewrite <- app_assoc. }
  unfold d_run in Hin. rewrite fold_left_app in Hin. fold (d_run x0 ops) in Hin. cbn [fold_left] in Hin.
  destruct op as [kind request payload uuid now ts out|http|cfg]; cbn [d_step] in Hin.
  - apply Hold. by repeat case_match; simplify_eq/=.
  - destruct (delivery_iteration http (d_sink (d_run x0 ops))) as [i s'] eqn:Ei. cbn [d_settled] in Hin.
    assert (Hv := iteration_verdict _ _ _ _ Ei). rewrite d_run_machine in Hv.
    assert (Hrun : d_settled (d_run x0 (ops ++ [DIterate http])) = settle i (d_settled (d_run x0 ops))).
    { unfold d_run. rewrite fold_left_app. cbn [fold_left d_step]. fold (d_run x0 ops). by rewrite Ei. }
    destruct i; cbn [settle] in Hin, Hrun; try (by apply Hold);
      apply elem_of_app in Hin as [?|[= -> ->]%list_elem_of_singleton]; try (by apply Hold);
      by exists ops, http, [].
  - apply Hold. by destruct (wal_open _ _ _).
Qed.

(** C9. Nothing is lost or reordered between an event and the API.  After any run of a
    sink (events persisted, deliveries with any answers of the API, restarts) in which
    the envelopes survive the text of the log and failed writes are rolled back, the
    appended records are the settled ones followed by the pending ones, in order; a
    record counted as accepted was settled by an iteration whose own request the API
    answered with a success naming its delivery id, and any other settled record by one
    that was rejected for good, and it is in quarantine. *)
Theorem delivery_settles_in_order cfg machine x0 ops :
  d_init cfg machine = Some x0 → total_bytes cfg ≤ MAX_TOTAL_BYTES →
  Forall d_op_ok ops → Z.of_nat (length ops) ≤ u64_max →
  let x := d_run x0 ops in
  (∃ q c, d_appended x = (d_settled x).*1 ++ q
     ∧ load_checkpoint (wal_disk (d_sink x)) = Ok c
     ∧ ∀ m, (read_from (wal_disk (d_sink x)) c m).1 = Ok (take m q))
  ∧ (∀ r b, (r, b) ∈ d_settled x → settled_by x0 ops r b)
  ∧ ∀ r, (r, false) ∈ d_settled x → in_quarantine (wal_disk (d_sink x)) r.
Proof.
  intros Hi Hb Hops Hlen x.
  destruct (d_run_inv 0 x0 ops (d_init_inv cfg machine x0 Hi Hb) ltac:(lia) Hlen Hops)
    as [(l & c & q & Hw & Hq & _) Hr].
  split_and!; [| |done].
  - exists q, c. pose proof (wr_disk _ _ _ _ _ _ _ Hw) as Hd.
    split_and!; [done|by eapply load_checkpoint_rep|]. intros m.
    unfold x. by rewrite (read_from_rep _ bound_refl _ _ _ _ _ _ Hd).
  - intros r b. apply run_settled_by. unfold d_init in Hi. destruct (wal_open _ _ _); by simplify_eq.
Qed.

(** ** Progress *)







(** ** Head-of-line blocking *)

(** An acknowledgement longer than 4096 bytes blocks the queue.  The worker
    cuts the body before it parses it: when the cut body of a success is not
    JSON, the record that the API has accepted is retried in every iteration
    and nothing behind it is delivered. *)
Theorem long_ack_blocks_queue n s l c r q e path status body body' http k :
  rep n (durable_wal_writer s) (wal_disk s) l c (r :: q) → n < u64_max →
  envelope_from_value (payload r) = Ok e → delivery_path (machine_client s) e = Ok path →
  http (mkRequest path (request_body e) e) = Responded status (BodyOk body) → is_success status = true →
  truncate ACK_BODY_BYTES body = Some body' → json_from_str body' = None →
  d_settled (d_run (mkDSys s [] []) (repeat (DIterate http) k)) = []
  ∧ wal_disk (d_sink (d_run (mkDSys s [] []) (repeat (DIterate http) k))) = wal_disk s.
Proof.
  intros Hw Hn He Hp Hh Hs Ht Hj. revert s Hw Hp. induction k as [|k IH]; intros s Hw Hp; [done|].
  cbn [repeat]. unfold d_run in *. cbn [fold_left d_step d_sink].
  destruct (iteration_head n s l c r q http Hw Hn) as (i & s' & -> & Em & Hcase).
  assert (Hd : deliver_wal_record (machine_client s) http r
    = Some (Retry "2xx ack missing matching delivery_id")).
  { unfold deliver_wal_record. rewrite He, Hp, Hh, Ht. simpl. unfold settle_response.
    unfold extract_ack_delivery_id. by rewrite Hs, Hj. }
  rewrite Hd in Hcase. destruct Hcase as (-> & Ew & Ed). simpl. rewrite <- Ed.
  apply IH; [by rewrite Ew, Ed|by rewrite Em].
Qed.

(** A character across byte 4096 of the body makes the worker panic. *)
Lemma multibyte_ack_panics n s l c r q e path status body a http :
  rep n (durable_wal_writer s) (wal_disk s) l c (r :: q) → n < u64_max →
  envelope_from_value (payload r) = Ok e → delivery_path (machine_client s) e = Ok path →
  http (mkRequest path (request_body e) e) = Responded status (BodyOk body) →
  String.get ACK_BODY_BYTES body = Some a → continuation_byte a = true →
  (ACK_BODY_BYTES ≤ String.length body)%nat →
  (delivery_iteration http s).1 = WorkerPanicked.
Proof.
  intros Hw Hn He Hp Hh Hg Ha Hl.
  destruct (iteration_head n s l c r q http Hw Hn) as (i & s' & -> & _ & Hcase).
  assert (Hd : deliver_wal_record (machine_client s) http r = None).
  { unfold deliver_wal_record. rewrite He, Hp, Hh. unfold truncate.
    by rewrite (proj2 (Nat.leb_le _ _) Hl), Hg, Ha. }
  rewrite Hd in Hcase. by destruct Hcase.
Qed.
End runs.

(** ** Events are persisted once *)

Lemma find_entry_ne key k v (kvs : list (string * value)) :
  k ≠ key → json_get (Obj (entry_or_insert key v kvs)) k = json_get (Obj kvs) k.
Proof.
  intros Hne. unfold json_get. f_equal.
  induction kvs as [|[k' w] kvs IH]; cbn [entry_or_insert List.find fst].
  { case_bool_decide; [by subst|done]. }
  destruct (String.eqb k' key); [done|]. destruct (String.ltb key k'); cbn [List.find fst].
  - case_bool_decide; [by subst|done].
  - by rewrite IH.
Qed.

(** The time stamp does not change the identity of an event. *)
Lemma payload_text_stamp event now now' payload ptrs :
  Forall (λ ptr : list string, head ptr ≠ Some "timestamp"%string ∧ ptr ≠ []) ptrs →
  payload_text (stamp event now payload) ptrs = payload_text (stamp event now' payload) ptrs.
Proof.
  induction 1 as [|ptr ptrs [Hh Hne] _ IH]; [done|]. cbn [payload_text].
  assert (E : pointer (stamp event now payload) ptr = pointer (stamp event now' payload) ptr).
  { destruct ptr as [|k ptr]; [done|]. cbn [pointer]. destruct payload; try done.
    unfold stamp. rewrite !(find_entry_ne "timestamp" k) by (intros ->; by apply Hh). done. }
  rewrite E. by rewrite IH.
Qed.

#[local] Opaque payload_text.

(** A logical event is appended once: after an event was persisted, the
    same event persisted again (with another delivery id, at another time)
    returns its envelope and leaves the sink, hence the log, as it is. *)
Theorem persist_is_idempotent s kind request payload uuid now ts out env r s' uuid' now' ts' out' :
  persist_durable_event s kind request payload uuid now ts out = (Ok (env, Some r), s') →
  ∃ env', persist_durable_event s' kind request payload uuid' now' ts' out' = (Ok (env', None), s')
    ∧ env_event_id env' = env_event_id env ∧ delivery_id env' = uuid'.
Proof.
  intros Hp. unfold persist_durable_event in *.
  set (stampb := bool_decide (kind = Decision) || bool_decide (kind = Trail)) in *.
  set (pl := if stampb then stamped kind request now payload else payload) in *.
  set (pl' := if stampb then stamped kind request now' payload else payload) in *.
  destruct (envelope_new kind request pl uuid now) as [env0|e] eqn:E; [|done].
  destruct (bool_decide (persistence_key env0 ∈ _)); [done|].
  destruct (envelope_to_value env0) as [p|]; [|done].
  destruct (append _ _ _ _ _ _) as [[[r0|e] w] d]; [|done]. injection Hp as <- <- <-.
  assert (E' : ∃ env', envelope_new kind request pl' uuid' now' = Ok env'
    ∧ env_event_id env' = env_event_id env0 ∧ event_kind env' = event_kind env0
    ∧ delivery_id env' = uuid').
  { unfold envelope_new in *. destruct (required_text _ _) as [request'|]; [|done].
    destruct (json_to_string pl); [|done]. destruct (json_to_string_total pl') as [t' ->].
    injection E as <-. eexists. split; [done|]. cbn [env_event_id event_kind delivery_id].
    split_and!; [|done|done]. f_equal.
    unfold pl, pl', stamped. destruct stampb; [|done].
    apply payload_text_stamp. repeat constructor; done. }
  destruct E' as (env' & -> & Hid & Hk & Hu). exists env'. split_and!; [|done|done].
  rewrite bool_decide_eq_true_2; [done|]. unfold persistence_key. simpl. rewrite Hk, Hid.
  apply elem_of_union_l. by apply elem_of_singleton.
Qed.
#[local] Transparent payload_text.
End delivery.

(** ** A concrete sink *)

Module SinkModel.
Import JsonModel WalModel.

Definition kind_code (k : DurableEventKind) : nat :=
  match k with Decision => 0 | Spend => 1 | AiUsage => 2 | Trail => 3 | UaComplete => 4 end.
Definition kind_of (n : nat) : DurableEventKind :=
  match n with 0 => Decision | 1 => Spend | 2 => AiUsage | 3 => Trail | _ => UaComplete end%nat.
Lemma kind_of_code k : kind_of (kind_code k) = k.
Proof. by destruct k. Qed.

Definition to_value (e : DurableEventEnvelope) : string :=
  pos_text (positives_flatten [encode (delivery_id e); encode (env_event_id e);
    encode (kind_code (event_kind e)); encode (org_id e); encode (team_id e);
    encode (request_id e); encode (created_at e); encode (payload_sha256 e);
    encode (enc (env_payload e))]).
Definition from_value (s : string) : Result DurableEventEnvelope string :=
  match positives_unflatten (text_pos s) with
  | Some [d; i; k; o; t; r; c; h; v] =>
      match decode d, decode i, decode k, decode o, decode t, decode r, decode c, decode h,
        decode v with
      | Some d, Some i, Some k, Some o, Some t, Some r, Some c, Some h, Some v =>
          Ok (mkEnvelope d i (kind_of k) o t r c h (dec v))
      | _, _, _, _, _, _, _, _, _ => Err "not an envelope"%string
      end
  | _ => Err "not an envelope"%string
  end.

(** An acknowledgement body is the delivery id it names and a closing brace. *)
#[global] Instance codec : EnvelopeCodec := {|
  sha256_hex := λ _, "h"%string;
  envelope_to_value := λ e, Some (to_value e : Payload);
  envelope_from_value := λ p, from_value p;
  json_from_str := λ s,
    match strip_suffix "}" s with
    | Some t => Some (Obj [("delivery_id"%string, Str t)])
    | None => None
    end;
|}.
#[global] Instance codec_laws : EnvelopeLaws.
Proof.
  split. intros e p [= <-]. cbn -[from_value to_value]. unfold from_value, to_value.
  rewrite text_pos_text, positives_unflatten_flatten, !decode_encode, kind_of_code, dec_enc. by destruct e.
Qed.
Lemma codec_faithful kind request payload uuid now : event_faithful kind request payload uuid now.
Proof. intros env p _ _. apply model_faithful. Qed.

(** Segments of one record. *)
Definition cfg : WalConfig := mkWalConfig 67108864 12000 4 2.
Definition start : DSys :=
  mkDSys (mkSink (mkWriter cfg 0 0 None 0 0 0 0) (mkDisk ∅ ∅) ∅ true 0 0 0) [] [].
Definition event (id : string) : Value Number := Obj [("event_id"%string, Str id)].
Definition spend (id : string) : DOp := DPersist Spend "r" (event id) ("d" +:+ id) "n" "t" WriteOk.
Definition api : HttpRequest → HttpOutcome :=
  λ q, Responded 200 (BodyOk (delivery_id (req_envelope q) +:+ "}")).
Definition down : HttpRequest → HttpOutcome := λ _, SendDeadline.
Definition refusing : HttpRequest → HttpOutcome :=
  λ _, Responded 400 (BodyOk EmptyString).
Definition ops : list DOp :=
  [spend "1"; spend "2"; DIterate down; DIterate refusing; DRestart cfg; spend "3"].

(** A success whose body is 5000 bytes long. *)
Definition verbose : HttpRequest → HttpOutcome :=
  λ _, Responded 200 (BodyOk (zeros 5000 "}")).
End SinkModel.

Lemma delivery_settles_in_order_witness :
  d_init SinkModel.cfg true = Some SinkModel.start ∧ Forall d_op_ok SinkModel.ops
  ∧ length (d_settled (d_run SinkModel.start SinkModel.ops)) = 1%nat
  ∧ ∀ r, (r, false) ∈ d_settled (d_run SinkModel.start SinkModel.ops) →
      in_quarantine (wal_disk (d_sink (d_run SinkModel.start SinkModel.ops))) r.
Proof.
  assert (Hi : d_init SinkModel.cfg true = Some SinkModel.start) by reflexivity.
  assert (Ho : Forall d_op_ok SinkModel.ops).
  { repeat constructor; try apply SinkModel.codec_faithful; vm_compute; discriminate. }
  split; [exact Hi|]. split; [exact Ho|]. split; [vm_compute; reflexivity|].
  destruct (delivery_settles_in_order SinkModel.cfg true SinkModel.start
    SinkModel.ops Hi ltac:(vm_compute; discriminate) Ho ltac:(vm_compute; discriminate))
    as (_ & _ & Hr).
  exact Hr.
Defined.


Lemma persist_is_idempotent_witness :
  ∃ env r s', persist_durable_event (d_sink SinkModel.start) Spend "r" (SinkModel.event "1")
      "d1" "n" "t" WriteOk = (Ok (env, Some r), s')
    ∧ (persist_durable_event s' Spend "r" (SinkModel.event "1") "d2" "n" "t" WriteOk).2 = s'.
Proof.
  destruct (persist_durable_event (d_sink SinkModel.start) Spend "r" (SinkModel.event "1")
      "d1" "n" "t" WriteOk) as [[[env [r|]]|e] s'] eqn:E.
  - exists env, r, s'. split; [reflexivity|].
    destruct (persist_is_idempotent _ _ _ _ _ _ _ _ _ _ _ "d2" "n" "t" WriteOk E)
      as (env' & -> & _). reflexivity.
  - apply (f_equal (λ x, match x.1 with Ok (_, Some _) => true | _ => false end)) in E.
    vm_compute in E. discriminate E.
  - apply (f_equal (λ x, match x.1 with Ok (_, Some _) => true | _ => false end)) in E.
    vm_compute in E. discriminate E.
Defined.

(** After compaction and a restart the metric of unacknowledged records
    undercounts: three events, two of them acknowledged, one pending and none
    reported, since the writer recounts the records on disk while the
    checkpoint counts all acknowledgements ever made. *)
Example snapshot_undercounts :
  let x := d_run SinkModel.start
    [SinkModel.spend "1"; SinkModel.spend "2"; SinkModel.spend "3"; DIterate SinkModel.api;
     DIterate SinkModel.api; DRestart SinkModel.cfg] in
  snapshot_wal_records (d_sink x) = Ok 0
  ∧ length (d_appended x) = 3%nat ∧ length (d_settled x) = 2%nat.
Proof. repeat split; vm_compute; reflexivity. Qed.

Lemma long_ack_blocks_queue_witness :
  d_settled (d_run (mkDSys (d_sink (d_run SinkModel.start [SinkModel.spend "1"])) [] [])
    (repeat (DIterate SinkModel.verbose) 9)) = [].
Proof.
  assert (Hi : d_init SinkModel.cfg true = Some SinkModel.start) by reflexivity.
  assert (Ho : Forall d_op_ok [SinkModel.spend "1"]) by (repeat constructor; apply SinkModel.codec_faithful).
  assert (Hb : total_bytes SinkModel.cfg ≤ MAX_TOTAL_BYTES) by (vm_compute; discriminate).
  pose proof (d_init_inv (H1 := SinkModel.codec) SinkModel.cfg true SinkModel.start Hi Hb) as H0.
  assert (Hl1 : 0 + Z.of_nat (length [SinkModel.spend "1"]) ≤ u64_max)
    by (vm_compute; discriminate).
  destruct (d_run_inv 0 SinkModel.start [SinkModel.spend "1"] H0
    ltac:(lia) Hl1 Ho) as [(l & c & q & Hw & Hq & Hf) _].
  assert (Hset : d_settled (d_run SinkModel.start [SinkModel.spend "1"]) = [])
    by (vm_compute; reflexivity).
  assert (Hlen : length (d_appended (d_run SinkModel.start [SinkModel.spend "1"])) = 1%nat)
    by (vm_compute; reflexivity).
  rewrite Hset in Hq. rewrite Hq in Hlen.
  destruct q as [|r q]; [discriminate Hlen|]. apply Forall_cons in Hf as [[e He] _].
  assert (Hp : ∃ path, delivery_path true e = Ok path)
    by (unfold delivery_path; destruct (event_kind e); eauto).
  destruct Hp as [path Hp].
  destruct (long_ack_blocks_queue 1 _ l c r q e path 200 (zeros 5000 "}") (zeros 4096 EmptyString)
    SinkModel.verbose 9 Hw ltac:(vm_compute; reflexivity) He Hp eq_refl eq_refl
    ltac:(vm_compute; reflexivity) ltac:(vm_compute; reflexivity)) as [Hs _].
  exact Hs.
Defined.
