(* ===== verification/GatewayAuth.v ===== *)
(** * GatewayAuth: machine tokens of the gateway (src/src/gateway/jwt_auth.rs)

    The authentication client holds the gateway's own token, one token per
    peer gateway, the keys that verify incoming tokens and the identifiers of
    revoked tokens; it refreshes all of them from the control plane.  Each
    operation is a function in the monad [M], which threads the client, the
    requests that were sent and the error of the operator [?].  What the
    control plane and the clocks answer during a call is the argument [Env];
    the [jsonwebtoken] library is the class [JwtLib]. *)

From Stdlib Require Import ZArith String.
From stdpp Require Import base gmap sets list strings relations.
From S2P Require Import Prelude Text.

Local Open Scope Z_scope.

(** ** Data *)

(** [OneOrMany] with [contains] and [is_exactly]. *)
Inductive OneOrMany :=
| One (s : string)
| Many (v : list string).

Definition aud_contains (a : OneOrMany) (value : string) : bool :=
  match a with
  | One s => String.eqb s value
  | Many v => existsb (λ s, String.eqb s value) v
  end.

Definition is_exactly (a : OneOrMany) (value : string) : bool :=
  match a with
  | One s => String.eqb s value
  | Many v => match v with [s] => String.eqb s value | _ => false end
  end.

Record JwkEntry := mkJwkEntry {
  kty : string; kid : string; alg : string; use_ : option string;
  jwk_n : string; jwk_e : string;
}.

Record ExchangeResponse := mkExchange {
  access_token : string;
  token_type : option string;
  expires_in : Z;
  exchange_scope : string;
}.

Record RevocationsResponse := mkRevocations {
  resp_revoked_jtis : list string;
  server_time : Z;
}.

Record MachineClaims := mkClaims {
  iss : string; sub : string; aud : OneOrMany; exp : Z; iat : Z; jti : string;
  claims_org_id : string; principal_type : string; actor_class : string;
  scope : string; claims_gateway_id : option string; azp : string;
  rev_check : option string; region : option string;
}.

Inductive AuthError :=
| Exchange (message : string)
| JwksFetch (message : string)
| RevocationsFetch (message : string)
| Verification (message : string)
| Expired
| UnknownKid (k : string)
| OrgMismatch (expected actual : string)
| AudienceMismatch
| Revoked (id : string)
| AuthHttp (message : string).

(** The messages of [thiserror]. *)
Definition auth_error_text (e : AuthError) : string :=
  match e with
  | Exchange m => "JWT exchange failed: " ++ m
  | JwksFetch m => "JWKS fetch failed: " ++ m
  | RevocationsFetch m => "Revocations fetch failed: " ++ m
  | Verification m => "JWT verification failed: " ++ m
  | Expired => "Token expired"
  | UnknownKid k => "Unknown kid: " ++ k
  | OrgMismatch expected actual => "Org mismatch: expected " ++ expected ++ ", got " ++ actual
  | AudienceMismatch => "Audience mismatch"
  | Revoked id => "Token revoked: " ++ id
  | AuthHttp m => "HTTP error: " ++ m
  end%string.

Definition gateway_audience (gateway_id : string) : string :=
  ("https://gateway-" ++ gateway_id ++ ".verdictan.io")%string.
Definition EXPECTED_ISSUER : string := "https://api.verdictan.com".
Definition CRDT_SYNC_SCOPE : string := "gateway:crdt:sync".
Definition REFRESH_BUFFER : Z := from_secs 60.
Definition PEER_REFRESH_BUFFER : Z := from_secs 150.
Definition MATERIAL_MAX_AGE : Z := from_secs 300.

(** ** The [jsonwebtoken] library

    [Validation] carries what the client sets; [decode] checks the signature
    with the key, the expiry against the wall clock (with the library's leeway
    of 60 seconds), the issuer and the audience. *)
Record Validation := mkValidation {
  val_aud : list string;
  val_iss : list string;
  validate_exp : bool;
}.

Inductive JwtErrorKind :=
| ExpiredSignature
| InvalidAudience
| OtherKind (message : string).

Class JwtLib := {
  Jwk : Type;
  DecodingKey : Type;
  jwk_from_value : JwkEntry → Result Jwk string;
  from_jwk : Jwk → Result DecodingKey string;
  decode_header : string → Result (option string) string;
  decode : string → DecodingKey → Validation → Z → Result MachineClaims JwtErrorKind;
  signed : DecodingKey → string → MachineClaims → Prop;
  decode_signed tok k v now c : decode tok k v now = Ok c → signed k tok c;
  decode_issuer tok k v now c : decode tok k v now = Ok c → iss c ∈ val_iss v;
  decode_expiry tok k v now c :
    decode tok k v now = Ok c → validate_exp v = true → now - 60 <= exp c;
}.

(** [map_verification_error]. *)
Definition map_verification_error (e : JwtErrorKind) : AuthError :=
  match e with
  | ExpiredSignature => Expired
  | InvalidAudience => AudienceMismatch
  | OtherKind message => Verification ("decode failed: " ++ message)
  end.

(** ** Requests and replies *)
Inductive Request :=
| PostExchange (url bearer audience : string) (ttl : Z)
| PostPeerToken (url bearer target_gateway_id : string)
| GetJwks (url bearer : string)
| GetRevocations (url bearer : string) (since : Z).

(** What [send], the status test and [json] make of one request. *)
Inductive HttpReply (A : Type) :=
| SendFailed (message : string)
| Refused (status text : string)
| BadBody (message : string)
| Body (a : A).
Arguments SendFailed {_} _. Arguments Refused {_} _ _.
Arguments BadBody {_} _. Arguments Body {_} _.

(** A reply with the instants read after it: by the operation itself and by
    [mark_material_refresh]. *)
Record Round (A : Type) := mkRound { reply : HttpReply A; read_at : Z; marked_at : Z }.
Arguments mkRound {_} _ _ _. Arguments reply {_} _.
Arguments read_at {_} _. Arguments marked_at {_} _.

(** What the control plane and the clocks answer during one call: [at_entry]
    is the instant of a cache test, [at_recheck] that of the second
    [should_refresh] of [resolve_decoding_key], [unix_now] the wall clock. *)
Record Env := mkEnv {
  at_entry : Z;
  at_recheck : Z;
  unix_now : Z;
  on_exchange : Round ExchangeResponse;
  on_peer_token : string → Round ExchangeResponse;
  on_jwks : Round (list JwkEntry);
  on_revocations : Round RevocationsResponse;
}.

Record CachedJwt := mkCachedJwt { token : string; expires_at : Z }.

Section auth.
Context `{JwtLib}.

Record JwksCache := mkJwks {
  keys : gmap string DecodingKey;
  last_refresh : Z;
  min_refresh_interval : Z;
  unknown_kids : gset string;
}.

(** [JwksCache::new]. *)
Definition JwksCache_new (now : Z) : JwksCache :=
  {| keys := ∅; last_refresh := now - from_secs 300;
     min_refresh_interval := from_secs 30; unknown_kids := ∅ |}.

(** [should_refresh]: [Instant::elapsed] clamps at 0. *)
Definition should_refresh (c : JwksCache) (now : Z) : bool :=
  min_refresh_interval c <=? sat_sub now (last_refresh c).

Record GatewayAuthClient := mkAuth {
  opaque_token : string;
  api_url : string;
  org_id : string;
  gateway_id : string;
  jwt : option CachedJwt;
  peer_jwts : gmap string CachedJwt;
  jwks : JwksCache;
  revoked_jtis : gset string;
  last_revocation_poll : Z;
  last_material_refresh : Z;
}.

(** [GatewayAuthClient::new]. *)
Definition GatewayAuthClient_new (opaque api org gw : string) (now : Z) : GatewayAuthClient :=
  {| opaque_token := opaque; api_url := api; org_id := org; gateway_id := gw;
     jwt := None; peer_jwts := ∅; jwks := JwksCache_new now; revoked_jtis := ∅;
     last_revocation_poll := 0; last_material_refresh := now |}.

Definition set_jwt (j : CachedJwt) (c : GatewayAuthClient) : GatewayAuthClient :=
  mkAuth (opaque_token c) (api_url c) (org_id c) (gateway_id c) (Some j) (peer_jwts c)
    (jwks c) (revoked_jtis c) (last_revocation_poll c) (last_material_refresh c).
Definition set_peer_jwt (p : string) (j : CachedJwt) (c : GatewayAuthClient) :=
  mkAuth (opaque_token c) (api_url c) (org_id c) (gateway_id c) (jwt c)
    (<[p := j]> (peer_jwts c)) (jwks c) (revoked_jtis c) (last_revocation_poll c)
    (last_material_refresh c).
Definition set_jwks (j : JwksCache) (c : GatewayAuthClient) : GatewayAuthClient :=
  mkAuth (opaque_token c) (api_url c) (org_id c) (gateway_id c) (jwt c) (peer_jwts c)
    j (revoked_jtis c) (last_revocation_poll c) (last_material_refresh c).
Definition set_revocations (r : gset string) (t : Z) (c : GatewayAuthClient) :=
  mkAuth (opaque_token c) (api_url c) (org_id c) (gateway_id c) (jwt c) (peer_jwts c)
    (jwks c) r t (last_material_refresh c).
Definition set_material (t : Z) (c : GatewayAuthClient) : GatewayAuthClient :=
  mkAuth (opaque_token c) (api_url c) (org_id c) (gateway_id c) (jwt c) (peer_jwts c)
    (jwks c) (revoked_jtis c) (last_revocation_poll c) t.

(** ** The monad of the client *)
Definition M (A : Type) : Type :=
  GatewayAuthClient → list Request * GatewayAuthClient * Result A AuthError.

#[global] Instance M_ret : MRet M := λ A a c, ([], c, Ok a).
#[global] Instance M_bind : MBind M := λ A B f m c,
  match m c with
  | (l, c', Ok a) => let '(l', c'', r) := f a c' in (l ++ l', c'', r)
  | (l, c', Err e) => (l, c', Err e)
  end.
Definition fail {A} (e : AuthError) : M A := λ c, ([], c, Err e).
Definition gets {A} (f : GatewayAuthClient → A) : M A := λ c, ([], c, Ok (f c)).
Definition modify (f : GatewayAuthClient → GatewayAuthClient) : M () := λ c, ([], f c, Ok ()).
Definition from_result {A} (r : Result A AuthError) : M A := λ c, ([], c, r).
(** The result of [m] as a value: [if let Err(e) = m]. *)
Definition catch {A} (m : M A) : M (Result A AuthError) := λ c,
  let '(l, c', r) := m c in (l, c', Ok r).
(** [map_err] on a foreign result. *)
Definition or_err {A E} (r : Result A E) (f : E → AuthError) : M A :=
  from_result (match r with Ok a => Ok a | Err e => Err (f e) end).

(** The request, the status test and the body, with the error of the caller. *)
Definition fetch {A} (req : Request) (mk : string → AuthError) (r : HttpReply A) : M A := λ c,
  ([req], c,
   match r with
   | SendFailed message => Err (mk message)
   | Refused status text => Err (mk (status ++ ": " ++ text)%string)
   | BadBody message => Err (mk message)
   | Body a => Ok a
   end).

(** ** Operations *)

(** [mark_material_refresh]. *)
Definition mark_material_refresh (now : Z) : M () := modify (set_material now).

(** [material_is_fresh]. *)
Definition material_is_fresh (c : GatewayAuthClient) (now : Z) : bool :=
  sat_sub now (last_material_refresh c) <=? MATERIAL_MAX_AGE.

(** [refresh_jwt].  [expires_in] has 32 bits: the sum of instants stays in range. *)
Definition refresh_jwt (env : Env) : M () :=
  c ← gets id;
  let rd := on_exchange env in
  x ← fetch (PostExchange (api_url c ++ "/v1/jwt/exchange") (opaque_token c)
               (gateway_audience (gateway_id c)) 300) Exchange (reply rd);
  _ ← modify (set_jwt (mkCachedJwt (access_token x) (read_at rd + from_secs (expires_in x))));
  mark_material_refresh (marked_at rd).

(** The loop of [refresh_jwks] over the entries; it stops at the first error. *)
Fixpoint build_keys (entries : list JwkEntry) (acc : gmap string DecodingKey) :
    Result (gmap string DecodingKey) AuthError :=
  match entries with
  | [] => Ok acc
  | entry :: rest =>
      match jwk_from_value entry with
      | Err e => Err (JwksFetch ("invalid JWK: " ++ e))
      | Ok jwk =>
          match from_jwk jwk with
          | Err e => Err (JwksFetch ("decoding key: " ++ e))
          | Ok dk => build_keys rest (<[kid entry := dk]> acc)
          end
      end
  end.

(** [refresh_jwks]. *)
Definition refresh_jwks (env : Env) : M () :=
  c ← gets id;
  let rd := on_jwks env in
  entries ← fetch (GetJwks (api_url c ++ "/v1/jwt/jwks") (opaque_token c)) JwksFetch (reply rd);
  ks ← from_result (build_keys entries ∅);
  _ ← modify (λ c, set_jwks {| keys := ks; last_refresh := read_at rd;
                               min_refresh_interval := min_refresh_interval (jwks c);
                               unknown_kids := ∅ |} c);
  mark_material_refresh (marked_at rd).

(** [refresh_revocations]. *)
Definition refresh_revocations (env : Env) : M () :=
  c ← gets id;
  let rd := on_revocations env in
  r ← fetch (GetRevocations (api_url c ++ "/v1/jwt/revocations") (opaque_token c)
               (last_revocation_poll c)) RevocationsFetch (reply rd);
  _ ← modify (λ c, set_revocations (revoked_jtis c ∪ list_to_set (resp_revoked_jtis r))
                                   (server_time r) c);
  mark_material_refresh (marked_at rd).

(** [resolve_decoding_key]. *)
Definition resolve_decoding_key (env : Env) (k : string) : M DecodingKey :=
  j ← gets jwks;
  match keys j !! k with
  | Some key => mret key
  | None =>
      if bool_decide (k ∈ unknown_kids j) && negb (should_refresh j (at_entry env)) then
        fail (UnknownKid k)
      else if negb (should_refresh j (at_recheck env)) then fail (UnknownKid k)
      else
        r ← catch (refresh_jwks env);
        match r with
        | Err _ => fail (UnknownKid k)
        | Ok _ =>
            j' ← gets jwks;
            match keys j' !! k with
            | Some key => mret key
            | None =>
                _ ← modify (λ c, set_jwks
                      {| keys := keys (jwks c); last_refresh := last_refresh (jwks c);
                         min_refresh_interval := min_refresh_interval (jwks c);
                         unknown_kids := {[k]} ∪ unknown_kids (jwks c) |} c);
                fail (UnknownKid k)
            end
        end
  end.

(** [verify_jwt_for_audience]. *)
Definition verify_jwt_for_audience (env : Env) (tok expected_aud : string) : M MachineClaims :=
  header ← or_err (decode_header tok) (λ e, Verification ("invalid header: " ++ e));
  k ← match header with
      | Some k => mret k
      | None => fail (Verification "missing kid in header")
      end;
  decoding_key ← resolve_decoding_key env k;
  claims ← or_err (decode tok decoding_key
                     (mkValidation [expected_aud] [EXPECTED_ISSUER] true) (unix_now env))
             map_verification_error;
  c ← gets id;
  if negb (String.eqb (claims_org_id claims) (org_id c)) then
    fail (OrgMismatch (org_id c) (claims_org_id claims))
  else if negb (is_exactly (aud claims) expected_aud) then fail AudienceMismatch
  else if bool_decide (jti claims ∈ revoked_jtis c) then fail (Revoked (jti claims))
  else mret claims.

(** [verify_incoming_jwt]. *)
Definition verify_incoming_jwt (env : Env) (tok : string) : M MachineClaims :=
  g ← gets gateway_id; verify_jwt_for_audience env tok (gateway_audience g).

(** The tail of [get_bearer_token]: refresh and read the cache again. *)
Definition refreshed_token (env : Env) : M string :=
  _ ← refresh_jwt env;
  j ← gets jwt;
  match j with
  | Some c => mret (token c)
  | None => fail (Exchange "token missing after refresh")
  end.

(** [get_bearer_token]. *)
Definition get_bearer_token (env : Env) : M string :=
  j ← gets jwt;
  match j with
  | Some cached =>
      if at_entry env + REFRESH_BUFFER <? expires_at cached then mret (token cached)
      else refreshed_token env
  | None => refreshed_token env
  end.

(** [refresh_peer_jwt]. *)
Definition refresh_peer_jwt (env : Env) (target : string) : M () :=
  c ← gets id;
  let rd := on_peer_token env target in
  x ← fetch (PostPeerToken (api_url c ++ "/v1/gateway/crdt/peer-token") (opaque_token c) target)
        Exchange (reply rd);
  if negb (bool_decide (token_type x = Some "Bearer")) then
    fail (Exchange ("unexpected CRDT peer token type: "
                    ++ default "<missing>" (token_type x))%string)
  else if negb (String.eqb (trim (exchange_scope x)) CRDT_SYNC_SCOPE) then
    fail (Exchange ("unexpected CRDT peer token scope: " ++ trim (exchange_scope x)))
  else
    claims ← verify_jwt_for_audience env (access_token x) (gateway_audience target);
    if negb (String.eqb (trim (scope claims)) CRDT_SYNC_SCOPE) then
      fail (Verification ("expected exact scope " ++ CRDT_SYNC_SCOPE))
    else if negb (bool_decide (claims_gateway_id claims = Some (gateway_id c))) then
      fail (Verification "peer token gateway_id does not match source gateway")
    else
      _ ← modify (set_peer_jwt target
            (mkCachedJwt (access_token x) (read_at rd + from_secs (expires_in x))));
      mark_material_refresh (marked_at rd).

(** The tail of [get_peer_bearer_token]: refresh and read the cache again. *)
Definition refreshed_peer_token (env : Env) (target : string) : M string :=
  _ ← refresh_peer_jwt env target;
  ps ← gets peer_jwts;
  match ps !! target with
  | Some cached => mret (token cached)
  | None => fail (Exchange "peer token missing after refresh")
  end.

(** [get_peer_bearer_token]. *)
Definition get_peer_bearer_token (env : Env) (target : string) : M string :=
  ps ← gets peer_jwts;
  match ps !! target with
  | Some cached =>
      if at_entry env + PEER_REFRESH_BUFFER <? expires_at cached then mret (token cached)
      else refreshed_peer_token env target
  | None => refreshed_peer_token env target
  end.

(** [bootstrap]. *)
Definition bootstrap (env : Env) : M () :=
  _ ← refresh_jwt env; _ ← refresh_jwks env; refresh_revocations env.

(** The timers of [spawn_refresh_loop_until]; errors are logged and dropped.
    [order] is the order in which the [HashMap] of peers is iterated, and each
    peer's refresh has clocks and replies of its own. *)
Definition ignore {A} (m : M A) : M () := _ ← catch m; mret ().
Definition revocation_tick (env : Env) : M () := ignore (refresh_revocations env).
Definition jwks_tick (env : Env) : M () := ignore (refresh_jwks env).
Fixpoint refresh_peers (order : list (string * Env)) : M () :=
  match order with
  | [] => mret ()
  | (p, env) :: rest => _ ← ignore (get_peer_bearer_token env p); refresh_peers rest
  end.
Definition jwt_tick (env : Env) (order : list (string * Env)) : M () :=
  _ ← ignore (get_bearer_token env); refresh_peers order.

(** ** Runs: what the rest of the gateway can ask of the client, in any order. *)
Inductive AuthOp :=
| OpBootstrap (env : Env)
| OpBearer (env : Env)
| OpPeerBearer (env : Env) (target : string)
| OpVerify (env : Env) (tok : string)
| OpRevocationTick (env : Env)
| OpJwksTick (env : Env)
| OpJwtTick (env : Env) (order : list (string * Env)).

Definition auth_op (o : AuthOp) : M () :=
  match o with
  | OpBootstrap env => ignore (bootstrap env)
  | OpBearer env => ignore (get_bearer_token env)
  | OpPeerBearer env target => ignore (get_peer_bearer_token env target)
  | OpVerify env tok => ignore (verify_incoming_jwt env tok)
  | OpRevocationTick env => revocation_tick env
  | OpJwksTick env => jwks_tick env
  | OpJwtTick env order => jwt_tick env order
  end.

Fixpoint auth_ops (ops : list AuthOp) : M () :=
  match ops with
  | [] => mret ()
  | o :: rest => _ ← auth_op o; auth_ops rest
  end.

(** The client after a run, and the requests it sent. *)
Definition auth_run (ops : list AuthOp) (c : GatewayAuthClient) : GatewayAuthClient :=
  (auth_ops ops c).1.2.
Definition auth_trace (ops : list AuthOp) (c : GatewayAuthClient) : list Request :=
  (auth_ops ops c).1.1.

(** ** Reasoning about the monad

    [hoare Inv m Q]: [m] keeps the invariant whether it fails or not, and a value
    it returns satisfies [Q]. *)
Definition hoare {A} (Inv : GatewayAuthClient → Prop) (m : M A) (Q : A → Prop) : Prop :=
  ∀ c, Inv c → Inv (m c).1.2 ∧ ∀ a, (m c).2 = Ok a → Q a.

Section hoare.
Context (Inv : GatewayAuthClient → Prop).

Lemma hoare_ret {A} (a : A) (Q : A → Prop) : Q a → hoare Inv (mret a) Q.
Proof. intros Ha c Hc. split; [done|]. by intros ? [= <-]. Qed.

Lemma hoare_fail {A} e (Q : A → Prop) : hoare Inv (fail e) Q.
Proof. intros c Hc. by split. Qed.

Lemma hoare_gets {A} (f : GatewayAuthClient → A) (Q : A → Prop) :
  (∀ c, Inv c → Q (f c)) → hoare Inv (gets f) Q.
Proof. intros Hf c Hc. split; [done|]. intros ? [= <-]. by apply Hf. Qed.

Lemma hoare_modify f (Q : () → Prop) :
  (∀ c, Inv c → Inv (f c)) → Q () → hoare Inv (modify f) Q.
Proof. intros Hf HQ c Hc. split; [by apply Hf|]. by intros [] _. Qed.

Lemma hoare_from_result {A} (r : Result A AuthError) (Q : A → Prop) :
  (∀ a, r = Ok a → Q a) → hoare Inv (from_result r) Q.
Proof. intros Hr c Hc. split; [done|]. apply Hr. Qed.

Lemma hoare_fetch {A} req mk (r : HttpReply A) (Q : A → Prop) :
  (∀ a, r = Body a → Q a) → hoare Inv (fetch req mk r) Q.
Proof. intros Hr c Hc. split; [done|]. intros a. destruct r; simpl; intros [= <-]. by apply Hr. Qed.

Lemma hoare_bind {A B} (m : M A) (f : A → M B) (Q : A → Prop) (Q' : B → Prop) :
  hoare Inv m Q → (∀ a, Q a → hoare Inv (f a) Q') → hoare Inv (m ≫= f) Q'.
Proof.
  intros Hm Hf c Hc. destruct (Hm c Hc) as [H1 H2]. unfold mbind, M_bind.
  destruct (m c) as [[l c'] [a|e]]; simpl in *; [|by split].
  specialize (Hf a (H2 a eq_refl) c' H1). by destruct (f a c') as [[??]?].
Qed.

Lemma hoare_catch {A} (m : M A) (Q : A → Prop) :
  hoare Inv m Q → hoare Inv (catch m) (λ r, ∀ a, r = Ok a → Q a).
Proof.
  intros Hm c Hc. destruct (Hm c Hc) as [H1 H2]. unfold catch.
  destruct (m c) as [[l c'] r]. simpl in *. split; [done|]. by intros ? [= <-].
Qed.

Lemma hoare_weaken {A} (m : M A) (Q Q' : A → Prop) :
  hoare Inv m Q → (∀ a, Q a → Q' a) → hoare Inv m Q'.
Proof. intros Hm HQ c Hc. destruct (Hm c Hc) as [H1 H2]. split; [done|]. naive_solver. Qed.

Lemma hoare_ignore {A} (m : M A) (Q : A → Prop) :
  hoare Inv m Q → hoare Inv (ignore m) (λ _, True).
Proof.
  intros Hm. eapply hoare_bind; [by apply hoare_catch|]. intros ? _. by apply hoare_ret.
Qed.

End hoare.

(** One step through a computation whose value does not matter to the invariant. *)
Ltac hstep :=
  lazymatch goal with
  | |- hoare _ (mret _) _ => by apply hoare_ret
  | |- hoare _ (fail _) _ => apply hoare_fail
  | |- hoare _ (gets _ ≫= _) _ =>
      eapply hoare_bind; [by apply (hoare_gets _ _ (λ _, True))|intros ? _]
  | |- hoare _ (fetch _ _ _ ≫= _) _ =>
      eapply hoare_bind; [by apply (hoare_fetch _ _ _ _ (λ _, True))|intros ? _]
  | |- hoare _ (from_result _ ≫= _) _ =>
      eapply hoare_bind; [by apply (hoare_from_result _ _ (λ _, True))|intros ? _]
  | |- hoare _ (modify _ ≫= _) _ =>
      eapply hoare_bind; [apply (hoare_modify _ _ (λ _, True)); [try done|done]|intros _ _]
  | |- hoare _ (if ?b then _ else _) _ => destruct b
  end.

(** ** The invariant of the client *)

(** Claims that [verify_jwt_for_audience] returned for [tok]. *)
Definition verified (org audience tok : string) (claims : MachineClaims) : Prop :=
  ∃ key now, decode tok key (mkValidation [audience] [EXPECTED_ISSUER] true) now = Ok claims
    ∧ claims_org_id claims = org ∧ is_exactly (aud claims) audience = true.

(** A token that authenticates gateway [gw] to its peer [target]. *)
Definition peer_token_ok (org gw target tok : string) : Prop :=
  ∃ claims, verified org (gateway_audience target) tok claims
    ∧ trim (scope claims) = CRDT_SYNC_SCOPE ∧ claims_gateway_id claims = Some gw.

(** The identity is fixed, the identifiers [rs] are revoked, and every cached
    peer token was verified for its peer. *)
Definition auth_ok (org gw : string) (rs : gset string) (c : GatewayAuthClient) : Prop :=
  org_id c = org ∧ gateway_id c = gw ∧ rs ⊆ revoked_jtis c
  ∧ ∀ p j, peer_jwts c !! p = Some j → peer_token_ok org gw p (token j).

Section invariant.
Context (org gw : string) (rs : gset string).
Abbreviation Inv := (auth_ok org gw rs).

Lemma auth_ok_material t c : Inv c → Inv (set_material t c).
Proof. done. Qed.
Lemma auth_ok_jwks j c : Inv c → Inv (set_jwks j c).
Proof. done. Qed.
Lemma auth_ok_jwt j c : Inv c → Inv (set_jwt j c).
Proof. done. Qed.
Lemma auth_ok_revocations r t c : Inv c → Inv (set_revocations (revoked_jtis c ∪ r) t c).
Proof. intros (?&?&?&?). repeat split; simpl; [done..|set_solver|done]. Qed.
Lemma auth_ok_peer p j c : peer_token_ok org gw p (token j) → Inv c → Inv (set_peer_jwt p j c).
Proof.
  intros Hj (?&?&?&Hp). repeat split; simpl; [done..|].
  intros q k [[<- <-]|[_ Hk]]%lookup_insert_Some; eauto.
Qed.

Lemma hoare_mark t : hoare Inv (mark_material_refresh t) (λ _, True).
Proof. by apply hoare_modify. Qed.

Lemma hoare_refresh_jwt env : hoare Inv (refresh_jwt env) (λ _, True).
Proof. unfold refresh_jwt. repeat hstep. apply hoare_mark. Qed.

Lemma hoare_refresh_jwks env : hoare Inv (refresh_jwks env) (λ _, True).
Proof. unfold refresh_jwks. repeat hstep. apply hoare_mark. Qed.

Lemma hoare_refresh_revocations env : hoare Inv (refresh_revocations env) (λ _, True).
Proof.
  unfold refresh_revocations. repeat hstep; [|apply hoare_mark].
  intros ?. apply auth_ok_revocations.
Qed.

Lemma hoare_resolve env k : hoare Inv (resolve_decoding_key env k) (λ _, True).
Proof.
  unfold resolve_decoding_key. hstep. destruct (_ !! _); [hstep|]. repeat hstep.
  eapply hoare_bind; [apply hoare_catch, hoare_refresh_jwks|]; intros [] _; [|hstep].
  hstep. destruct (_ !! _); repeat hstep.
Qed.

(** What is left after the key is known, for any key. *)
Lemma hoare_verify env tok audience :
  hoare Inv (verify_jwt_for_audience env tok audience)
    (λ claims, verified org audience tok claims ∧ jti claims ∉ rs).
Proof.
  unfold verify_jwt_for_audience, or_err. hstep.
  eapply (hoare_bind _ _ _ (λ _, True)).
  { case_match; hstep. }
  intros k _. eapply hoare_bind; [apply hoare_resolve|]; intros key _.
  eapply (hoare_bind _ _ _ (λ claims, decode tok key
     (mkValidation [audience] [EXPECTED_ISSUER] true) (unix_now env) = Ok claims)).
  { apply hoare_from_result. intros b. by destruct (decode _ _ _ _); intros [= <-]. }
  intros claims Hd. eapply hoare_bind; [by apply (hoare_gets _ _ Inv)|].
  intros c (Ho&_&Hr&_).
  destruct (String.eqb_spec (claims_org_id claims) (org_id c)) as [He|];
    [|apply hoare_fail]; simpl.
  destruct (is_exactly _ _) eqn:Ha; [|apply hoare_fail]; simpl.
  case_bool_decide as Hj; [apply hoare_fail|]. apply hoare_ret.
  split; [|set_solver]. exists key, (unix_now env). split_and!; [done|congruence|done].
Qed.

Lemma hoare_verify_incoming env tok :
  hoare Inv (verify_incoming_jwt env tok)
    (λ claims, verified org (gateway_audience gw) tok claims ∧ jti claims ∉ rs).
Proof.
  eapply (hoare_bind _ _ _ (λ g, g = gw)); [apply hoare_gets; by intros c (?&?&?)|].
  intros g ->. apply hoare_verify.
Qed.

Lemma hoare_get_bearer env : hoare Inv (get_bearer_token env) (λ _, True).
Proof.
  assert (hoare Inv (refreshed_token env) (λ _, True)).
  { eapply hoare_bind; [apply hoare_refresh_jwt|]; intros _ _.
    hstep. case_match; hstep. }
  unfold get_bearer_token. hstep. case_match; [|done]. hstep; [|done]. hstep.
Qed.

Lemma hoare_refresh_peer env target : hoare Inv (refresh_peer_jwt env target) (λ _, True).
Proof.
  eapply hoare_bind; [by apply (hoare_gets _ _ Inv)|intros c (_&Hg&_); cbv zeta].
  hstep. hstep; [hstep|]. hstep; [hstep|].
  eapply hoare_bind; [apply hoare_verify|]; intros claims [Hv _].
  destruct (String.eqb_spec (trim (scope claims)) CRDT_SYNC_SCOPE);
    [|apply hoare_fail]; simpl.
  case_bool_decide as Hc; [|apply hoare_fail]; simpl.
  hstep; [|apply hoare_mark].
  intros c' Hc'. apply auth_ok_peer; [|done]. exists claims. simpl. by rewrite <- Hg.
Qed.

Lemma hoare_get_peer env target :
  hoare Inv (get_peer_bearer_token env target) (peer_token_ok org gw target).
Proof.
  assert (hoare Inv (refreshed_peer_token env target) (peer_token_ok org gw target)).
  { eapply hoare_bind; [apply hoare_refresh_peer|]; intros _ _.
    eapply (hoare_bind _ _ _ (λ ps, ∀ p j, ps !! p = Some j → peer_token_ok org gw p (token j)));
      [apply hoare_gets; by intros c (?&?&?&?)|]; intros ps Hps.
    destruct (ps !! target) eqn:E; [apply hoare_ret; eauto|apply hoare_fail]. }
  eapply (hoare_bind _ _ _ (λ ps, ∀ p j, ps !! p = Some j → peer_token_ok org gw p (token j)));
    [apply hoare_gets; by intros c (?&?&?&?)|]; intros ps Hps.
  destruct (ps !! target) eqn:E; [|done].
  destruct (_ <? _); [apply hoare_ret; eauto|done].
Qed.

Lemma hoare_auth_op o : hoare Inv (auth_op o) (λ _, True).
Proof.
  destruct o as [env|env|env t|env tok|env|env|env order]; simpl; try (eapply hoare_ignore).
  - eapply hoare_bind; [apply hoare_refresh_jwt|]; intros _ _.
    eapply hoare_bind; [apply hoare_refresh_jwks|]; intros _ _. apply hoare_refresh_revocations.
  - apply hoare_get_bearer.
  - apply hoare_get_peer.
  - apply hoare_verify_incoming.
  - apply hoare_refresh_revocations.
  - apply hoare_refresh_jwks.
  - eapply hoare_bind; [eapply hoare_ignore, hoare_get_bearer|]; intros _ _.
    induction order as [|[p e] order IH]; simpl; [by apply hoare_ret|].
    eapply hoare_bind; [eapply hoare_ignore, hoare_get_peer|]. intros _ _. apply IH.
Qed.

Lemma auth_run_ok ops c : Inv c → Inv (auth_run ops c).
Proof.
  assert (Hr : hoare Inv (auth_ops ops) (λ _, True)).
  { induction ops as [|o ops IH]; simpl; [by apply hoare_ret|].
    eapply hoare_bind; [apply hoare_auth_op|]. intros _ _. apply IH. }
  intros Hc. by apply (Hr c Hc).
Qed.

End invariant.

Lemma auth_ok_new opaque api org gw now :
  auth_ok org gw ∅ (GatewayAuthClient_new opaque api org gw now).
Proof. repeat split; simpl; set_solver. Qed.

(** ** Inversion: what a successful call went through *)

Lemma bind_ok {A B} (m : M A) (f : A → M B) c l c' b :
  (m ≫= f) c = (l, c', Ok b) →
  ∃ l1 c1 a l2, m c = (l1, c1, Ok a) ∧ f a c1 = (l2, c', Ok b) ∧ l = l1 ++ l2.
Proof.
  unfold mbind, M_bind. destruct (m c) as [[l1 c1] [a|e]]; [|done].
  destruct (f a c1) as [[l2 c2] r] eqn:E. intros [= <- <- ->]. eauto 10.
Qed.

Lemma ret_ok {A} (a b : A) c l c' : mret (M:=M) a c = (l, c', Ok b) → l = [] ∧ c' = c ∧ b = a.
Proof. by intros [= <- <- <-]. Qed.

Lemma refresh_jwks_frame env c :
  revoked_jtis (refresh_jwks env c).1.2 = revoked_jtis c
  ∧ org_id (refresh_jwks env c).1.2 = org_id c.
Proof.
  unfold refresh_jwks, mbind, M_bind, gets, fetch, from_result, modify; simpl.
  destruct (reply _); simpl; try done. by destruct (build_keys _ _).
Qed.

Lemma resolve_ok env k c l c' key :
  resolve_decoding_key env k c = (l, c', Ok key) →
  keys (jwks c') !! k = Some key ∧ revoked_jtis c' = revoked_jtis c ∧ org_id c' = org_id c.
Proof.
  unfold resolve_decoding_key. intros (?&?&j&?&[= <- <- <-]&Hf&->)%bind_ok.
  destruct (keys (jwks c) !! k) eqn:E; [by apply ret_ok in Hf as (->&->&->)|].
  destruct (_ && _); [done|]. destruct (negb _); [done|].
  apply bind_ok in Hf as (?&c1&r&?&Hr&Hf&->). destruct r; [|done].
  apply bind_ok in Hf as (?&?&j'&?&[= <- <- <-]&Hf&->).
  destruct (keys (jwks c1) !! k) eqn:E'; [|by apply bind_ok in Hf as (?&?&?&?&_&?&_)].
  apply ret_ok in Hf as (->&->&->).
  split; [done|]. pose proof (refresh_jwks_frame env c) as Hc.
  unfold catch in Hr. destruct (refresh_jwks env c) as [[??]?]. by simplify_eq/=.
Qed.

Lemma verify_ok env tok audience c l c' claims :
  verify_jwt_for_audience env tok audience c = (l, c', Ok claims) →
  ∃ k key, decode_header tok = Ok (Some k) ∧ keys (jwks c') !! k = Some key
    ∧ decode tok key (mkValidation [audience] [EXPECTED_ISSUER] true) (unix_now env) = Ok claims
    ∧ claims_org_id claims = org_id c ∧ is_exactly (aud claims) audience = true
    ∧ jti claims ∉ revoked_jtis c.
Proof.
  unfold verify_jwt_for_audience. intros (?&?&h&?&Hh&Hf&->)%bind_ok.
  unfold or_err, from_result in Hh. injection Hh as <- <- Hh.
  apply bind_ok in Hf as (?&?&k&?&Hk&Hf&->).
  apply bind_ok in Hf as (?&c1&key&?&Hres&Hf&->).
  apply bind_ok in Hf as (?&?&cl&?&Hd&Hf&->). injection Hd as <- <- Hd.
  apply bind_ok in Hf as (?&?&cc&?&[= <- <- <-]&Hf&->).
  destruct (String.eqb_spec (claims_org_id cl) (org_id c1)); [|done]; simpl in Hf.
  destruct (is_exactly (aud cl) audience) eqn:Ha; [|done]; simpl in Hf.
  case_bool_decide; [done|]. destruct h as [h|]; [|done].
  destruct (decode_header tok); [|done]. destruct (decode _ _ _ _) eqn:E; [|done].
  apply ret_ok in Hk as (->&->&->), Hf as (->&->&->). simplify_eq/=.
  apply resolve_ok in Hres as (?&Hr&Ho). rewrite <- Hr, <- Ho. eauto 10.
Qed.

(** ** What calls send *)

Lemma bind_sends {A B} (m : M A) (f : A → M B) c l c' b req l1 :
  (m ≫= f) c = (l, c', Ok b) → (m c).1.1 = req :: l1 → l ≠ [].
Proof. intros (?&?&?&?&Hm&_&->)%bind_ok Hr. rewrite Hm in Hr. simpl in Hr. by rewrite Hr. Qed.

Lemma refresh_peer_sends env target c : ∃ req l, (refresh_peer_jwt env target c).1.1 = req :: l.
Proof.
  unfold refresh_peer_jwt. unfold mbind at 1, M_bind, gets at 1.
  unfold mbind at 1, M_bind, fetch.
  destruct (reply _); simpl; eauto. by destruct (_ c) as [[??]?]; eauto.
Qed.

Lemma refreshed_peer_sends env target c c' tok :
  refreshed_peer_token env target c = ([], c', Ok tok) → False.
Proof.
  intros Hr. destruct (refresh_peer_sends env target c) as (req&l&Hs).
  by eapply bind_sends in Hs; [|exact Hr].
Qed.

Lemma ignore_silent {A} (m : M A) c :
  (m c).1 = ([], c) → ignore m c = ([], c, Ok ()).
Proof.
  intros Hm. unfold ignore, mbind, M_bind, catch. destruct (m c) as [[??] r].
  by simplify_eq/=.
Qed.

(** A key that may not be refreshed yet is answered from the cache. *)
Lemma resolve_silent env k c :
  sat_sub (at_recheck env) (last_refresh (jwks c)) < min_refresh_interval (jwks c) →
  (resolve_decoding_key env k c).1 = ([], c).
Proof.
  intros Hlt. unfold resolve_decoding_key, mbind, M_bind, gets. cbn -[catch refresh_jwks].
  destruct (keys (jwks c) !! k); [done|]. destruct (_ && _); [done|].
  unfold should_refresh. by rewrite (proj2 (Z.leb_gt _ _)) by lia.
Qed.

Lemma bind_silent {A B} (m : M A) (f : A → M B) c :
  (m c).1 = ([], c) → (∀ a, (f a c).1 = ([], c)) → ((m ≫= f) c).1 = ([], c).
Proof.
  intros Hm Hf. unfold mbind, M_bind. destruct (m c) as [[??] [a|]]; simplify_eq/=; [|done].
  specialize (Hf a). by destruct (f a c) as [[??]?]; simplify_eq/=.
Qed.

Lemma verify_silent env tok c :
  sat_sub (at_recheck env) (last_refresh (jwks c)) < min_refresh_interval (jwks c) →
  (verify_incoming_jwt env tok c).1 = ([], c).
Proof.
  intros Hlt. apply bind_silent; [done|]; intros g.
  apply bind_silent; [done|]; intros h. apply bind_silent; [by destruct h|]; intros k.
  apply bind_silent; [by apply resolve_silent|]; intros key.
  apply bind_silent; [done|]; intros cl. apply bind_silent; [done|]; intros c'.
  by repeat case_match.
Qed.

Lemma verify_failed_refresh env tok c k status text :
  decode_header tok = Ok (Some k) → keys (jwks c) !! k = None →
  should_refresh (jwks c) (at_entry env) = true →
  should_refresh (jwks c) (at_recheck env) = true →
  reply (on_jwks env) = Refused status text →
  verify_incoming_jwt env tok c
  = ([GetJwks (api_url c ++ "/v1/jwt/jwks") (opaque_token c)], c, Err (UnknownKid k)).
Proof.
  intros Hh Hk H1 H2 Hr.
  unfold verify_incoming_jwt, verify_jwt_for_audience, resolve_decoding_key, refresh_jwks.
  unfold mbind, M_bind, mret, M_ret, gets, or_err, from_result, catch, fetch, fail; simpl.
  rewrite Hh, Hk, H1, H2, Hr. simpl. by rewrite andb_false_r.
Qed.

End auth.

(** ** Theorems *)

(** C7. [verify_incoming_jwt] accepts a token only when all of what its comment
    lists holds: the token is signed with the key that the key set of the
    control plane has for its [kid], it has not expired (up to the library's
    leeway), it was issued by the control plane, for this organisation and for
    this gateway alone, and its identifier is not revoked. *)
Theorem verify_accepts_only_valid `{JwtLib} env tok c l c' claims :
  verify_incoming_jwt env tok c = (l, c', Ok claims) →
  ∃ k key, decode_header tok = Ok (Some k) ∧ keys (jwks c') !! k = Some key
    ∧ signed key tok claims ∧ iss claims = EXPECTED_ISSUER ∧ unix_now env - 60 <= exp claims
    ∧ claims_org_id claims = org_id c
    ∧ is_exactly (aud claims) (gateway_audience (gateway_id c)) = true
    ∧ jti claims ∉ revoked_jtis c.
Proof.
  unfold verify_incoming_jwt. intros (?&?&g&?&[= <- <- <-]&Hv&->)%bind_ok.
  destruct (verify_ok _ _ _ _ _ _ _ Hv) as (k&key&?&?&Hd&?&?&?).
  exists k, key. split_and!; try done.
  - by eapply decode_signed.
  - apply decode_issuer in Hd. by apply list_elem_of_singleton in Hd.
  - by eapply decode_expiry.
Qed.

(** Revocation is permanent: once a poll has reported the identifier of a
    token, no later call of [verify_incoming_jwt] accepts a token with that
    identifier, whatever the client does in between (refreshes of keys and
    tokens, further polls, failures of the control plane). *)
Theorem revoked_token_never_accepted `{JwtLib} opaque api org gw now ops env r j ops' env' tok claims :
  let c := auth_run ops (GatewayAuthClient_new opaque api org gw now) in
  let c1 := (refresh_revocations env c).1.2 in
  reply (on_revocations env) = Body r → j ∈ resp_revoked_jtis r →
  (verify_incoming_jwt env' tok (auth_run ops' c1)).2 = Ok claims → jti claims ≠ j.
Proof.
  intros c c1 Hr Hj Hv.
  assert (Hc : auth_ok org gw ∅ c) by apply auth_run_ok, auth_ok_new.
  assert (Hc1 : auth_ok org gw {[j]} c1).
  { destruct Hc as (?&?&_&?). subst c1.
    unfold refresh_revocations, mbind, M_bind, gets, fetch, modify. simpl. rewrite Hr. simpl.
    repeat split; simpl; [done..|set_solver|done]. }
  apply (auth_run_ok _ _ _ ops') in Hc1.
  destruct (hoare_verify_incoming _ _ _ env' tok _ Hc1) as [_ Hq].
  destruct (Hq _ Hv) as [_ Hn]. set_solver.
Qed.

(** The tokens that [get_peer_bearer_token] hands out: in every run of the
    client, a token for a peer was verified for that peer's audience, carries
    exactly the synchronisation scope and names this gateway as its source; and
    one that is served without asking the control plane is the cached one, with
    more than the refresh buffer of 150 seconds to live. *)
Theorem peer_tokens_verified `{JwtLib} opaque api org gw now ops env target l c' tok :
  let c := auth_run ops (GatewayAuthClient_new opaque api org gw now) in
  get_peer_bearer_token env target c = (l, c', Ok tok) →
  (∃ key t claims,
     decode tok key (mkValidation [gateway_audience target] [EXPECTED_ISSUER] true) t = Ok claims
     ∧ claims_org_id claims = org ∧ is_exactly (aud claims) (gateway_audience target) = true
     ∧ trim (scope claims) = CRDT_SYNC_SCOPE ∧ claims_gateway_id claims = Some gw)
  ∧ (l = [] → ∃ j, peer_jwts c !! target = Some j ∧ token j = tok
                   ∧ at_entry env + PEER_REFRESH_BUFFER < expires_at j).
Proof.
  intros c Hg. assert (Hc : auth_ok org gw ∅ c) by apply auth_run_ok, auth_ok_new. split.
  - destruct (hoare_get_peer org gw ∅ env target c Hc) as [_ Hq]. rewrite Hg in Hq.
    destruct (Hq tok eq_refl) as (claims&(key&t&?&?&?)&?&?). eauto 10.
  - intros ->. unfold get_peer_bearer_token in Hg.
    apply bind_ok in Hg as (?&?&ps&l2&[= <- <- <-]&Hg&Hl). symmetry in Hl.
    apply app_eq_nil in Hl as [_ ->].
    destruct (peer_jwts c !! target) as [j|] eqn:E.
    + destruct (Z.ltb_spec (at_entry env + PEER_REFRESH_BUFFER) (expires_at j)).
      { apply ret_ok in Hg as (_&_&->). eauto. }
      by apply refreshed_peer_sends in Hg.
    + by apply refreshed_peer_sends in Hg.
Qed.

(** Unknown keys do not flood the control plane: until 30 seconds have
    passed since the last successful refresh of the key set, verifications send
    no request and leave the client as it is, whatever tokens are presented. *)
Theorem verifications_rate_limited `{JwtLib} c (calls : list (Env * string)) :
  (∀ env tok, (env, tok) ∈ calls →
     sat_sub (at_recheck env) (last_refresh (jwks c)) < min_refresh_interval (jwks c)) →
  auth_ops (map (λ x, OpVerify x.1 x.2) calls) c = ([], c, Ok ()).
Proof.
  induction calls as [|[env tok] calls IH]; intros Hc; simpl; [done|].
  assert (Hv : auth_op (OpVerify env tok) c = ([], c, Ok ())).
  { apply ignore_silent, verify_silent, (Hc env tok). by left. }
  unfold mbind, M_bind. simpl in Hv. rewrite Hv, IH; [done|].
  intros e t Ht. apply (Hc e t). by right.
Qed.

(** The limit does not cover failures: [last_refresh] moves only when a
    refresh succeeds, so while the control plane answers with errors every
    token with an unknown key costs a request, although the code calls the
    attempt rate-limited. *)
Theorem failed_refreshes_unlimited `{JwtLib} c (calls : list (Env * string)) :
  (∀ env tok, (env, tok) ∈ calls →
     should_refresh (jwks c) (at_entry env) = true
     ∧ should_refresh (jwks c) (at_recheck env) = true
     ∧ (∃ status text, reply (on_jwks env) = Refused status text)
     ∧ ∃ k, decode_header tok = Ok (Some k) ∧ keys (jwks c) !! k = None) →
  auth_ops (map (λ x, OpVerify x.1 x.2) calls) c
  = (replicate (length calls) (GetJwks (api_url c ++ "/v1/jwt/jwks") (opaque_token c)), c, Ok ()).
Proof.
  induction calls as [|[env tok] calls IH]; intros Hc; simpl; [done|].
  destruct (Hc env tok) as (H1&H2&(s&t&Hr)&k&Hh&Hk); [by left|].
  unfold mbind at 1, M_bind. unfold ignore, catch, mbind at 1, M_bind.
  rewrite (verify_failed_refresh env tok c k s t Hh Hk H1 H2 Hr). simpl.
  unfold mret, M_ret. rewrite IH; [done|]. intros e u Hu. apply (Hc e u). by right.
Qed.

(** ** A concrete library and control plane *)
Module AuthModel.

Definition gw_claims (audience source id : string) : MachineClaims :=
  {| iss := EXPECTED_ISSUER; sub := "machine"; aud := One (gateway_audience audience);
     exp := 1000; iat := 0; jti := id; claims_org_id := "org"; principal_type := "gateway";
     actor_class := "machine"; scope := CRDT_SYNC_SCOPE; claims_gateway_id := Some source;
     azp := "azp"; rev_check := None; region := None |}.

(** The tokens of the model: the one of gateway [gw] to itself, its token for
    the peer [gw2], one for [gw] that gets revoked, and that of [gw2] for [gw]. *)
Definition model_claims (tok : string) : option MachineClaims :=
  if String.eqb tok "self" then Some (gw_claims "gw" "gw" "j1")
  else if String.eqb tok "peer" then Some (gw_claims "gw2" "gw" "j2")
  else if String.eqb tok "lost" then Some (gw_claims "gw" "gw" "j3")
  else if String.eqb tok "from2" then Some (gw_claims "gw" "gw2" "j4")
  else None.

Definition model_decode (tok k : string) (v : Validation) (now : Z) :
    Result MachineClaims JwtErrorKind :=
  match model_claims tok with
  | None => Err (OtherKind "InvalidToken")
  | Some c =>
      if negb (String.eqb k "n1") then Err (OtherKind "InvalidSignature")
      else if validate_exp v && (exp c <? now - 60) then Err ExpiredSignature
      else if negb (bool_decide (iss c ∈ val_iss v)) then Err (OtherKind "InvalidIssuer")
      else if negb (existsb (aud_contains (aud c)) (val_aud v)) then Err InvalidAudience
      else Ok c
  end.

Lemma model_decode_ok tok k v now c :
  model_decode tok k v now = Ok c →
  (k = "n1" ∧ model_claims tok = Some c) ∧ iss c ∈ val_iss v
  ∧ (validate_exp v = true → now - 60 <= exp c).
Proof.
  unfold model_decode. destruct (model_claims tok) as [c'|]; [|done].
  destruct (String.eqb_spec k "n1"); [|done]. simpl.
  destruct (validate_exp v && (exp c' <? now - 60)) eqn:E; [done|].
  case_bool_decide; [|done]. simpl. destruct (existsb _ _); [|done].
  intros [= <-]. split_and!; try done. intros Hv. rewrite Hv in E. simpl in E.
  apply Z.ltb_ge in E. lia.
Qed.

#[global] Instance model_jwt : JwtLib := {|
  Jwk := string; DecodingKey := string;
  jwk_from_value e := Ok (jwk_n e); from_jwk n := Ok n;
  decode_header tok := if String.eqb tok EmptyString then Err "InvalidToken"%string
                       else Ok (Some (if String.eqb tok "junk" then "k9" else "k1"))%string;
  decode := model_decode;
  signed k tok c := k = "n1"%string ∧ model_claims tok = Some c;
  decode_signed tok k v now c Hd := proj1 (model_decode_ok tok k v now c Hd);
  decode_issuer tok k v now c Hd := proj1 (proj2 (model_decode_ok tok k v now c Hd));
  decode_expiry tok k v now c Hd := proj2 (proj2 (model_decode_ok tok k v now c Hd));
|}.

Definition at_secs (s : Z) (jwks_reply : HttpReply (list JwkEntry)) : Env :=
  {| at_entry := from_secs s; at_recheck := from_secs s; unix_now := s;
     on_exchange := mkRound (Body (mkExchange "self" (Some "Bearer") 300 "s"))%string
                      (from_secs s) (from_secs s);
     on_peer_token _ := mkRound (Body (mkExchange "peer" (Some "Bearer") 300 CRDT_SYNC_SCOPE))%string
                      (from_secs s) (from_secs s);
     on_jwks := mkRound jwks_reply (from_secs s) (from_secs s);
     on_revocations := mkRound (Body (mkRevocations ["j3"%string] s)) (from_secs s) (from_secs s) |}.

Definition key_set : HttpReply (list JwkEntry) :=
  Body [mkJwkEntry "RSA" "k1" "RS256" None "n1" "AQAB"]%string.
Definition up (s : Z) : Env := at_secs s key_set.
Definition down (s : Z) : Env := at_secs s (Refused "503 Service Unavailable" "")%string.

Definition fresh_client : GatewayAuthClient :=
  GatewayAuthClient_new "opaque" "https://api" "org" "gw" 0.
Definition booted : GatewayAuthClient := auth_run [OpBootstrap (up 10)] fresh_client.

End AuthModel.

Section auth_witnesses.
Import AuthModel.

Lemma verify_accepts_only_valid_witness :
  (verify_incoming_jwt (up 20) "self" booted).2 = Ok (gw_claims "gw" "gw" "j1")
  ∧ jti (gw_claims "gw" "gw" "j1") ∉ revoked_jtis booted.
Proof.
  assert (Hv : verify_incoming_jwt (up 20) "self" booted = ([], booted, Ok (gw_claims "gw" "gw" "j1")))
    by reflexivity.
  split; [by rewrite Hv|].
  destruct (verify_accepts_only_valid _ _ _ _ _ _ Hv) as (k&key&?&?&?&?&?&?&?&Hj). exact Hj.
Defined.

Lemma revoked_token_never_accepted_witness :
  is_ok (verify_incoming_jwt (up 20) "self"
     (auth_run [OpJwksTick (up 15)] (refresh_revocations (up 12) booted).1.2)).2 = true
  ∧ jti (gw_claims "gw" "gw" "j1") ≠ "j3"%string.
Proof.
  split; [reflexivity|].
  apply (revoked_token_never_accepted "opaque" "https://api" "org" "gw" 0 [OpBootstrap (up 10)]
           (up 12) (mkRevocations ["j3"%string] 12) "j3" [OpJwksTick (up 15)] (up 20) "self");
    [reflexivity|by left|reflexivity].
Defined.

Lemma peer_tokens_verified_witness :
  (get_peer_bearer_token (up 20) "gw2" booted).2 = Ok "peer"%string
  ∧ ∃ key t claims,
      decode "peer" key (mkValidation [gateway_audience "gw2"] [EXPECTED_ISSUER] true) t = Ok claims
      ∧ claims_gateway_id claims = Some "gw"%string.
Proof.
  destruct (get_peer_bearer_token (up 20) "gw2" booted) as [[l c'] r] eqn:E.
  assert (Hr : r = Ok "peer"%string)
    by (change (r = (get_peer_bearer_token (up 20) "gw2" booted).2); by rewrite E).
  split; [exact Hr|]. subst r.
  destruct (peer_tokens_verified "opaque" "https://api" "org" "gw" 0 [OpBootstrap (up 10)]
              (up 20) "gw2" l c' "peer" E) as [(key&t&claims&Hd&_&_&_&Hg) _].
  exists key, t, claims. split; [exact Hd|exact Hg].
Defined.

Lemma verifications_rate_limited_witness :
  auth_ops (map (λ x, OpVerify x.1 x.2) [(up 20, "junk"%string); (up 25, "self"%string)]) booted
  = ([], booted, Ok ()).
Proof.
  apply verifications_rate_limited. intros env tok Ht.
  repeat (apply elem_of_cons in Ht as [Ht|Ht]; [injection Ht as -> ->; vm_compute; done|]).
  by apply elem_of_nil in Ht.
Defined.

Lemma failed_refreshes_unlimited_witness :
  auth_ops (map (λ x, OpVerify x.1 x.2) (replicate 3 (down 60, "junk"%string))) booted
  = (replicate 3 (GetJwks "https://api/v1/jwt/jwks" "opaque"), booted, Ok ()).
Proof.
  apply (failed_refreshes_unlimited booted (replicate 3 (down 60, "junk"%string))).
  intros env tok [[= -> ->] _]%elem_of_replicate.
  split; [reflexivity|]. split; [reflexivity|].
  split; [by eexists _, _|]. exists "k9"%string. split; reflexivity.
Defined.

End auth_witnesses.
