(* ===== verification/CrdtSync.v ===== *)
(** * CrdtSync: synchronisation of context replicas (src/src/gateway/crdt_sync.rs)

    A gateway sends its whole context state to a peer in an envelope, and
    merges the envelopes it receives.  The driver owns the replica, the pending
    envelope, the cache of envelopes seen and the round-robin counter, and uses
    the authentication client of [GatewayAuth] and the peer catalog published
    by the control plane.  A received request takes the driver's locks one
    after the other; [req_step] is one such atomic part, [receive_http_request]
    their sequence.  [bincode] is the class [SyncCodec] and the digest
    function SHA-256 an argument. *)

From Stdlib Require Import ZArith String.
From stdpp Require Import base gmap sets list strings relations.
From S2P Require Import Prelude Text Hlc OrSet Lww ContextState ContextCompact ContextCrdt GatewayAuth.

Local Open Scope Z_scope.

Definition MAX_SYNC_BODY_BYTES : Z := 1048576.
Definition MAX_SYNC_STATE_BYTES : Z := 4194304.
Definition DEDUPE_WINDOW : Z := from_secs 300.
Definition MAX_DEDUPE_ENTRIES : Z := 10000.
Definition PEER_METADATA_MAX_AGE_SECS : Z := 300.

Definition byte_len (s : string) : Z := Z.of_nat (String.length s).

Record PeerSyncPeer := mkPeer { peer_gateway_id : string; endpoint : string }.

(** [max_partition_buffer_age] in milliseconds. *)
Record PeerSyncConfig := mkSyncConfig {
  enabled : bool;
  peers : list PeerSyncPeer;
  sync_interval_ms : Z;
  max_partition_buffer_age : Z;
}.
Definition PeerSyncConfig_default : PeerSyncConfig :=
  {| enabled := false; peers := []; sync_interval_ms := 100;
     max_partition_buffer_age := 24 * 60 * 60 * 1000 |}.

Record SyncEnvelope := mkEnvelope {
  sync_id : string;
  origin_replica_id : string;
  emitted_at : HlcTimestamp;
  payload_digest_sha256 : string;
  encoded_state : string;
}.
#[export] Instance SyncEnvelope_eq_dec : EqDecision SyncEnvelope.
Proof. solve_decision. Defined.

Inductive SyncError :=
| SyncCrdt (e : CrdtError)
| HttpClient (message : string)
| Http (message : string)
| PeerStatus (status : Z)
| MissingPeerAuthorization
| MissingPeerAuthenticator
| PeerAuthorization (message : string)
| PeerMaterialStale
| InactivePeer (gateway : string)
| NoActivePeer
| PayloadTooLarge (n : Z)
| PayloadDigestMismatch
| ReplayConflict
| ReplayCacheFull
| SyncSerialize (message : string).

Record BroadcastReport := mkBroadcast {
  attempted_peers : nat;
  successful_peers : nat;
  failed_peers : list string;
}.
Definition BroadcastReport_default : BroadcastReport := mkBroadcast 0 0 [].
Definition all_succeeded (r : BroadcastReport) : bool :=
  (attempted_peers r =? successful_peers r)%nat
  && match failed_peers r with [] => true | _ => false end.

Record ReceiveReport := mkReceive {
  duplicate : bool;
  ignored_self_origin : bool;
  report_merge : MergeSummary;
}.
Definition MergeSummary_default : MergeSummary :=
  mkMergeSummary (mkOrSetSummary 0 0 0) 0 0.

Record CachedSyncDigest := mkDigest { digest : string; cached_at : Z }.

(** What the driver reads of the gateway's read model: when the catalog was
    refreshed (nanoseconds of UTC) and the peers it lists. *)
Record PeerGateway := mkPeerGateway { pg_gateway_id : string; readiness : string }.
Record ReadModel := mkReadModel {
  catalog_refreshed_at : option Z;
  peer_gateways : list PeerGateway;
}.

(** [feed_age_seconds]: [num_seconds] truncates towards zero. *)
Definition feed_age_seconds (refreshed_at : option Z) (now : Z) : option Z :=
  option_map (λ v, Z.max 0 (Z.quot (now - v) 1000000000)) refreshed_at.
Definition publication_catalog_age_seconds (m : ReadModel) (now : Z) : option Z :=
  feed_age_seconds (catalog_refreshed_at m) now.

(** [bincode] with a limit: encodings are within it, do not depend on it, and
    decode to what was encoded; the encoding of an envelope contains the bytes
    of its state. *)
Class SyncCodec `{SerdeJson} := {
  state_encode : Z → ContextCrdtState → Result string string;
  state_decode : Z → string → Result ContextCrdtState string;
  envelope_encode : Z → SyncEnvelope → Result string string;
  envelope_decode : Z → string → Result SyncEnvelope string;
  state_roundtrip n s b : state_encode n s = Ok b → state_decode n b = Ok s;
  envelope_roundtrip n v b : envelope_encode n v = Ok b → envelope_decode n b = Ok v;
  state_encode_limit n s b : state_encode n s = Ok b → byte_len b <= n;
  envelope_encode_limit n v b : envelope_encode n v = Ok b → byte_len b <= n;
  envelope_contains_state n v b :
    envelope_encode n v = Ok b → byte_len (encoded_state v) <= byte_len b;
}.

Section sync.
Context `{SyncCodec} `{JwtLib}.
Variable compute_payload_digest : string → string.

(** ** Envelopes *)

(** [SyncEnvelope::from_state]; [id] is the fresh UUID. *)
Definition from_state (id origin : string) (emitted : HlcTimestamp) (s : ContextCrdtState) :
    Result SyncEnvelope SyncError :=
  match state_encode MAX_SYNC_STATE_BYTES s with
  | Err e => Err (SyncSerialize e)
  | Ok b => Ok (mkEnvelope id origin emitted (compute_payload_digest b) b)
  end.

Definition decode_state (v : SyncEnvelope) : Result ContextCrdtState SyncError :=
  if MAX_SYNC_BODY_BYTES <? byte_len (encoded_state v) then
    Err (PayloadTooLarge (byte_len (encoded_state v)))
  else if negb (String.eqb (compute_payload_digest (encoded_state v)) (payload_digest_sha256 v))
  then Err PayloadDigestMismatch
  else match state_decode MAX_SYNC_STATE_BYTES (encoded_state v) with
       | Ok s => Ok s
       | Err e => Err (SyncSerialize e)
       end.

(** [SyncEnvelope::encode] and [SyncEnvelope::decode]. *)
Definition sync_encode (v : SyncEnvelope) : Result string SyncError :=
  match envelope_encode MAX_SYNC_BODY_BYTES v with Ok b => Ok b | Err e => Err (SyncSerialize e) end.
Definition sync_decode (bytes : string) : Result SyncEnvelope SyncError :=
  if MAX_SYNC_BODY_BYTES <? byte_len bytes then Err (PayloadTooLarge (byte_len bytes))
  else match envelope_decode MAX_SYNC_BODY_BYTES bytes with
       | Ok v => Ok v
       | Err e => Err (SyncSerialize e)
       end.

(** ** The driver *)
Record CrdtSyncDriver := mkDriver {
  replica : ContextCrdt;
  config : PeerSyncConfig;
  auth_client : option GatewayAuthClient;
  read_model : option ReadModel;
  pending_envelope : option SyncEnvelope;
  seen_syncs : gmap (string * string) CachedSyncDigest;
  round_robin : Z;
}.

(** [new_authenticated]. *)
Definition new_authenticated (r : ContextCrdt) (cfg : PeerSyncConfig)
    (auth : option GatewayAuthClient) (model : option ReadModel) : CrdtSyncDriver :=
  mkDriver r cfg auth model None ∅ 0.

Definition set_replica (r : ContextCrdt) (d : CrdtSyncDriver) : CrdtSyncDriver :=
  mkDriver r (config d) (auth_client d) (read_model d) (pending_envelope d) (seen_syncs d)
    (round_robin d).
Definition set_auth (a : option GatewayAuthClient) (d : CrdtSyncDriver) : CrdtSyncDriver :=
  mkDriver (replica d) (config d) a (read_model d) (pending_envelope d) (seen_syncs d)
    (round_robin d).
Definition set_read_model (m : option ReadModel) (d : CrdtSyncDriver) : CrdtSyncDriver :=
  mkDriver (replica d) (config d) (auth_client d) m (pending_envelope d) (seen_syncs d)
    (round_robin d).
Definition set_pending (v : option SyncEnvelope) (d : CrdtSyncDriver) : CrdtSyncDriver :=
  mkDriver (replica d) (config d) (auth_client d) (read_model d) v (seen_syncs d)
    (round_robin d).
Definition set_seen (m : gmap (string * string) CachedSyncDigest) (d : CrdtSyncDriver) :=
  mkDriver (replica d) (config d) (auth_client d) (read_model d) (pending_envelope d) m
    (round_robin d).
Definition set_round_robin (n : Z) (d : CrdtSyncDriver) : CrdtSyncDriver :=
  mkDriver (replica d) (config d) (auth_client d) (read_model d) (pending_envelope d)
    (seen_syncs d) n.

(** [!self.inner.config.enabled || self.inner.config.peers.is_empty()]. *)
Definition sync_disabled (d : CrdtSyncDriver) : bool :=
  negb (enabled (config d)) || match peers (config d) with [] => true | _ => false end.

(** [apply_local_mutation]; [sys_ms] and [compact_ms] are the wall clock when
    the mutation is stamped and when the state is compacted. *)
Definition apply_local_mutation (d : CrdtSyncDriver) (mu : CrdtMutation)
    (id : string) (sys_ms compact_ms : Z) :
    CrdtSyncDriver * Result (option SyncEnvelope) SyncError :=
  let '(r, result) := apply_mutation (replica d) mu sys_ms in
  if negb (changed result) then (set_replica r d, Ok None)
  else
    let r := (compact_at r compact_ms (max_partition_buffer_age (config d))).1 in
    let d := set_replica r d in
    match result_timestamp result with
    | None => (d, Ok None)
    | Some t =>
        match from_state id (replica_id r) t (state r) with
        | Err e => (d, Err e)
        | Ok v => (if sync_disabled d then d else set_pending (Some v) d, Ok (Some v))
        end
    end.

(** [receive_envelope]: one section under the write lock of the replica. *)
Definition receive_envelope (d : CrdtSyncDriver) (v : SyncEnvelope) (merge_ms compact_ms : Z) :
    CrdtSyncDriver * Result ReceiveReport SyncError :=
  if String.eqb (origin_replica_id v) (replica_id (replica d)) then
    (d, Ok (mkReceive false true MergeSummary_default))
  else match decode_state v with
       | Err e => (d, Err e)
       | Ok remote =>
           let '(r, merge) := merge_state_at (replica d) remote merge_ms in
           let r := (compact_at r compact_ms (max_partition_buffer_age (config d))).1 in
           (set_replica r d, Ok (mkReceive false false merge))
       end.

(** [receive_http_bytes]. *)
Definition receive_http_bytes (d : CrdtSyncDriver) (bytes : string) (merge_ms compact_ms : Z) :
    CrdtSyncDriver * Result ReceiveReport SyncError :=
  match sync_decode bytes with
  | Err e => (d, Err e)
  | Ok v => receive_envelope d v merge_ms compact_ms
  end.

(** [ensure_active_configured_peer]; [now] is [Utc::now]. *)
Definition ready_in (m : ReadModel) (g : string) : bool :=
  existsb (λ p, String.eqb (pg_gateway_id p) g && String.eqb (readiness p) "ready")
    (peer_gateways m).
Definition ensure_active_configured_peer (d : CrdtSyncDriver) (g : string) (now : Z) :
    Result () SyncError :=
  match read_model d with
  | None => Err PeerMaterialStale
  | Some m =>
      if PEER_METADATA_MAX_AGE_SECS <? default i64_max (publication_catalog_age_seconds m now)
      then Err PeerMaterialStale
      else if negb (existsb (λ p, String.eqb (peer_gateway_id p) g) (peers (config d)))
      then Err (InactivePeer g)
      else if negb (ready_in m g) then Err (InactivePeer g)
      else Ok ()
  end.

(** [cache.retain] of both cache operations. *)
Definition retain_recent (now : Z) (m : gmap (string * string) CachedSyncDigest) :
    gmap (string * string) CachedSyncDigest :=
  filter (λ kv, sat_sub now (cached_at kv.2) <= DEDUPE_WINDOW) m.

(** [is_duplicate_digest]. *)
Definition is_duplicate_digest (d : CrdtSyncDriver) (src id dg : string) (now : Z) :
    CrdtSyncDriver * Result bool SyncError :=
  let cache := retain_recent now (seen_syncs d) in
  (set_seen cache d,
   match cache !! (src, id) with
   | Some entry => if String.eqb (digest entry) dg then Ok true else Err ReplayConflict
   | None => Ok false
   end).

(** [record_digest]. *)
Definition record_digest (d : CrdtSyncDriver) (src id dg : string) (now : Z) :
    CrdtSyncDriver * Result () SyncError :=
  let cache := retain_recent now (seen_syncs d) in
  match cache !! (src, id) with
  | Some entry =>
      (set_seen cache d, if String.eqb (digest entry) dg then Ok () else Err ReplayConflict)
  | None =>
      if MAX_DEDUPE_ENTRIES <=? Z.of_nat (size cache) then (set_seen cache d, Err ReplayCacheFull)
      else (set_seen (<[(src, id) := mkDigest dg now]> cache) d, Ok ())
  end.

(** What the clocks and the control plane answer during one request. *)
Record ReqEnv := mkReqEnv {
  fresh_at : Z;
  verify_env : Env;
  utc_now : Z;
  dup_at : Z;
  merge_ms : Z;
  compact_ms : Z;
  record_at : Z;
}.

(** The part of [receive_http_request] before the duplicate test. *)
Definition authorize (d : CrdtSyncDriver) (e : ReqEnv) (bearer : option string) (bytes : string) :
    CrdtSyncDriver * Result (string * SyncEnvelope) SyncError :=
  if MAX_SYNC_BODY_BYTES <? byte_len bytes then (d, Err (PayloadTooLarge (byte_len bytes)))
  else match auth_client d with
  | None => (d, Err MissingPeerAuthenticator)
  | Some ac =>
      if negb (material_is_fresh ac (fresh_at e)) then (d, Err PeerMaterialStale)
      else match (trim <$> bearer) ≫= (λ t, if is_empty t then None else Some t) with
      | None => (d, Err MissingPeerAuthorization)
      | Some raw_token =>
          let '(_, ac', outcome) := verify_incoming_jwt (verify_env e) raw_token ac in
          let d := set_auth (Some ac') d in
          match outcome with
          | Err er => (d, Err (PeerAuthorization (auth_error_text er)))
          | Ok claims =>
              if negb (String.eqb (trim (scope claims)) CRDT_SYNC_SCOPE) then
                (d, Err (PeerAuthorization ("expected exact scope " ++ CRDT_SYNC_SCOPE)))
              else match sync_decode bytes with
              | Err er => (d, Err er)
              | Ok v =>
                  if negb (bool_decide (claims_gateway_id claims = Some (origin_replica_id v)))
                  then (d, Err (PeerAuthorization
                                  "token gateway_id does not match envelope origin_replica_id"))
                  else match claims_gateway_id claims with
                  | None => (d, Err (PeerAuthorization "token gateway_id is missing"))
                  | Some src =>
                      match ensure_active_configured_peer d src (utc_now e) with
                      | Err er => (d, Err er)
                      | Ok _ => (d, Ok (src, v))
                      end
                  end
              end
          end
      end
  end.

(** [receive_http_request]. *)
Definition receive_http_request (d : CrdtSyncDriver) (e : ReqEnv) (bearer : option string)
    (bytes : string) : CrdtSyncDriver * Result ReceiveReport SyncError :=
  match authorize d e bearer bytes with
  | (d, Err er) => (d, Err er)
  | (d, Ok (src, v)) =>
      match is_duplicate_digest d src (sync_id v) (payload_digest_sha256 v) (dup_at e) with
      | (d, Err er) => (d, Err er)
      | (d, Ok true) => (d, Ok (mkReceive true false MergeSummary_default))
      | (d, Ok false) =>
          match receive_envelope d v (merge_ms e) (compact_ms e) with
          | (d, Err er) => (d, Err er)
          | (d, Ok report) =>
              match record_digest d src (sync_id v) (payload_digest_sha256 v) (record_at e) with
              | (d, Err er) => (d, Err er)
              | (d, Ok _) => (d, Ok report)
              end
          end
      end
  end.

(** ** Sending *)

(** [select_outbound_peer]; the atomic counter wraps at 64 bits. *)
Definition active_peers (d : CrdtSyncDriver) (m : ReadModel) : list PeerSyncPeer :=
  List.filter (λ p, ready_in m (peer_gateway_id p)) (peers (config d)).
Definition select_outbound_peer (d : CrdtSyncDriver) (now : Z) :
    CrdtSyncDriver * Result PeerSyncPeer SyncError :=
  match read_model d with
  | None => (d, match peers (config d) with p :: _ => Ok p | [] => Err NoActivePeer end)
  | Some m =>
      if PEER_METADATA_MAX_AGE_SECS <? default i64_max (publication_catalog_age_seconds m now)
      then (d, Err PeerMaterialStale)
      else match active_peers d m with
           | [] => (d, Err NoActivePeer)
           | p :: rest =>
               let index := round_robin d mod Z.of_nat (length (p :: rest)) in
               (set_round_robin (wrap64 (round_robin d + 1)) d,
                Ok (nth (Z.to_nat index) (p :: rest) p))
           end
  end.

(** A request to a peer, and what one broadcast meets: the clocks, the control
    plane, and the status of the response or the error of the client. *)
Record SyncPost := mkPost { post_url : string; post_bearer : option string; post_body : string }.
Record SendEnv := mkSendEnv {
  send_utc : Z;
  send_fresh_at : Z;
  send_auth : Env;
  response : Result Z string;
}.

(** The bearer token of [broadcast_with_inner]. *)
Definition peer_bearer (d : CrdtSyncDriver) (e : SendEnv) (p : PeerSyncPeer) :
    CrdtSyncDriver * Result (option string) SyncError :=
  match auth_client d with
  | None => (d, Ok None)
  | Some ac =>
      if negb (material_is_fresh ac (send_fresh_at e)) then (d, Err PeerMaterialStale)
      else
        let '(_, ac', r) := get_peer_bearer_token (send_auth e) (peer_gateway_id p) ac in
        (set_auth (Some ac') d,
         match r with
         | Ok t => Ok (Some t)
         | Err er => Err (PeerAuthorization (auth_error_text er))
         end)
  end.

(** [broadcast_with_inner], with the requests it sends. *)
Definition broadcast_with_inner (d : CrdtSyncDriver) (e : SendEnv) (v : SyncEnvelope) :
    CrdtSyncDriver * list SyncPost * Result BroadcastReport SyncError :=
  if sync_disabled d then (d, [], Ok BroadcastReport_default)
  else match sync_encode v with
  | Err er => (d, [], Err er)
  | Ok payload =>
      match select_outbound_peer d (send_utc e) with
      | (d, Err er) => (d, [], Err er)
      | (d, Ok p) =>
          match peer_bearer d e p with
          | (d, Err er) => (d, [], Err er)
          | (d, Ok bearer) =>
              (d, [mkPost (endpoint p) bearer payload],
               match response e with
               | Ok status =>
                   if (200 <=? status) && (status <? 300) then Ok (mkBroadcast 1 1 [])
                   else Err (PeerStatus status)
               | Err er => Err (Http er)
               end)
          end
      end
  end.

(** [broadcast_snapshot]. *)
Definition broadcast_snapshot (d : CrdtSyncDriver) (e : SendEnv) (id : string) :
    CrdtSyncDriver * list SyncPost * Result (option BroadcastReport) SyncError :=
  if sync_disabled d then (d, [], Ok None)
  else
    let r := replica d in
    let emitted := default (zero (replica_id r)) (max_timestamp (state r)) in
    match from_state id (replica_id r) emitted (state r) with
    | Err er => (d, [], Err er)
    | Ok v =>
        match broadcast_with_inner d e v with
        | (d, posts, Err er) => (d, posts, Err er)
        | (d, posts, Ok report) =>
            (if all_succeeded report then set_pending None d else d, posts, Ok (Some report))
        end
    end.

(** One round of the loop of [spawn_retry_worker]: the read of the pending
    envelope and the broadcast, then the section that clears it.  Between the
    two, other tasks may replace the pending envelope. *)
Definition retry_send (d : CrdtSyncDriver) (e : SendEnv) :
    CrdtSyncDriver * list SyncPost * option (SyncEnvelope * Result BroadcastReport SyncError) :=
  match pending_envelope d with
  | None => (d, [], None)
  | Some v => let '(d, posts, r) := broadcast_with_inner d e v in (d, posts, Some (v, r))
  end.
Definition retry_clear (d : CrdtSyncDriver)
    (o : option (SyncEnvelope * Result BroadcastReport SyncError)) : CrdtSyncDriver :=
  match o with
  | Some (v, Ok report) =>
      if all_succeeded report && bool_decide (pending_envelope d = Some v)
      then set_pending None d else d
  | _ => d
  end.
Definition retry_round (d : CrdtSyncDriver) (e : SendEnv) : CrdtSyncDriver * list SyncPost :=
  let '(d, posts, o) := retry_send d e in (retry_clear d o, posts).

(** ** Interleaving

    A request in progress, between two of its atomic parts. *)
Inductive ReqState :=
| Arrived (bearer : option string) (bytes : string)
| Authorized (src : string) (v : SyncEnvelope)
| Fresh (src : string) (v : SyncEnvelope)
| Merged (src : string) (v : SyncEnvelope) (report : ReceiveReport)
| Done (r : Result ReceiveReport SyncError).

Definition req_step (e : ReqEnv) (d : CrdtSyncDriver) (q : ReqState) : CrdtSyncDriver * ReqState :=
  match q with
  | Arrived bearer bytes =>
      match authorize d e bearer bytes with
      | (d, Ok (src, v)) => (d, Authorized src v)
      | (d, Err er) => (d, Done (Err er))
      end
  | Authorized src v =>
      match is_duplicate_digest d src (sync_id v) (payload_digest_sha256 v) (dup_at e) with
      | (d, Ok false) => (d, Fresh src v)
      | (d, Ok true) => (d, Done (Ok (mkReceive true false MergeSummary_default)))
      | (d, Err er) => (d, Done (Err er))
      end
  | Fresh src v =>
      match receive_envelope d v (merge_ms e) (compact_ms e) with
      | (d, Ok report) => (d, Merged src v report)
      | (d, Err er) => (d, Done (Err er))
      end
  | Merged src v report =>
      match record_digest d src (sync_id v) (payload_digest_sha256 v) (record_at e) with
      | (d, Ok _) => (d, Done (Ok report))
      | (d, Err er) => (d, Done (Err er))
      end
  | Done r => (d, Done r)
  end.

(** The tasks of a gateway: requests, local mutations, the retry worker, the
    refresh of tokens and keys, and the publication of a new read model. *)
Inductive sync_step : CrdtSyncDriver * list ReqState → CrdtSyncDriver * list ReqState → Prop :=
| step_arrive d qs bearer bytes : sync_step (d, qs) (d, qs ++ [Arrived bearer bytes])
| step_request d qs i q e d' q' :
    qs !! i = Some q → req_step e d q = (d', q') → sync_step (d, qs) (d', <[i := q']> qs)
| step_local d qs mu id sys_ms c_ms :
    sync_step (d, qs) ((apply_local_mutation d mu id sys_ms c_ms).1, qs)
| step_snapshot d qs e id : sync_step (d, qs) ((broadcast_snapshot d e id).1.1, qs)
| step_retry_send d qs e : sync_step (d, qs) ((retry_send d e).1.1, qs)
| step_retry_clear d qs o : sync_step (d, qs) (retry_clear d o, qs)
| step_auth d qs ac o :
    auth_client d = Some ac → sync_step (d, qs) (set_auth (Some (auth_op o ac).1.2) d, qs)
| step_read_model d qs m : sync_step (d, qs) (set_read_model m d, qs).

End sync.
