(* ===== verification/CrdtSyncProofs.v ===== *)
(** * CrdtSyncProofs: what synchronisation guarantees (src/src/gateway/crdt_sync.rs)

    Who can change a replica, under every interleaving of requests and of the
    gateway's own tasks; the cache of envelopes seen; what a received envelope
    does to the state; and how far the outbound side gets an envelope. *)

From Stdlib Require Import ZArith String.
From stdpp Require Import base gmap sets list strings relations.
From S2P Require Import Prelude Text Hlc OrSet Lww ContextState ContextCompact ContextCrdt GatewayAuth CrdtSync.

Local Open Scope Z_scope.

Section proofs.
Context `{SyncCodec} `{JwtLib}.
Context (hash : string → string).

(** ** Authorization *)

Lemma active_peer_ok (d : CrdtSyncDriver) g now :
  ensure_active_configured_peer d g now = Ok () ↔
  ∃ m age, read_model d = Some m ∧ publication_catalog_age_seconds m now = Some age
    ∧ age <= PEER_METADATA_MAX_AGE_SECS
    ∧ (∃ p, p ∈ peers (config d) ∧ peer_gateway_id p = g)
    ∧ ∃ p, p ∈ peer_gateways m ∧ pg_gateway_id p = g ∧ readiness p = "ready"%string.
Proof.
  unfold ensure_active_configured_peer, ready_in. split.
  - destruct (read_model d) as [m|]; [|done].
    destruct (Z.ltb_spec PEER_METADATA_MAX_AGE_SECS
                (default i64_max (publication_catalog_age_seconds m now))) as [|Hage]; [done|].
    destruct (existsb _ (peers _)) eqn:E1; [|done]. destruct (existsb _ (peer_gateways m)) eqn:E2;
      [|done]. intros _.
    destruct (publication_catalog_age_seconds m now) as [age|] eqn:Ea; [|done].
    apply existsb_exists in E1 as (p&Hp&Hg), E2 as (p'&Hp'&Hg').
    apply andb_true_iff in Hg' as [Hg1 Hg2]. apply String.eqb_eq in Hg, Hg1, Hg2.
    exists m, age. split_and!; [done..|exists p|exists p']; by rewrite list_elem_of_In.
  - intros (m&age&->&->&Hage&(p&Hp&<-)&p'&Hp'&Hg'&Hr). simpl.
    rewrite (proj2 (Z.ltb_ge _ _)) by done.
    rewrite (proj2 (existsb_exists _ _)); [|exists p; by rewrite <- list_elem_of_In, String.eqb_refl].
    rewrite (proj2 (existsb_exists _ _)); [done|].
    exists p'. by rewrite <- list_elem_of_In, Hg', Hr, !String.eqb_refl.
Qed.

(** A request is authorized exactly when every check succeeds. *)
Lemma authorize_ok d e bearer bytes src v :
  (authorize d e bearer bytes).2 = Ok (src, v) ↔
  byte_len bytes <= MAX_SYNC_BODY_BYTES
  ∧ ∃ ac b tok claims, auth_client d = Some ac ∧ material_is_fresh ac (fresh_at e) = true
    ∧ bearer = Some b ∧ tok = trim b ∧ is_empty tok = false
    ∧ (verify_incoming_jwt (verify_env e) tok ac).2 = Ok claims
    ∧ trim (scope claims) = CRDT_SYNC_SCOPE
    ∧ sync_decode bytes = Ok v
    ∧ claims_gateway_id claims = Some src ∧ origin_replica_id v = src
    ∧ ensure_active_configured_peer d src (utc_now e) = Ok ().
Proof.
  unfold authorize. split.
  - destruct (Z.ltb_spec MAX_SYNC_BODY_BYTES (byte_len bytes)); [done|].
    destruct (auth_client d) as [ac|]; [|done].
    destruct (material_is_fresh ac (fresh_at e)) eqn:Ef; [|done]; simpl.
    destruct bearer as [b|]; [|done]; simpl.
    destruct (is_empty (trim b)) eqn:Et; [done|].
    destruct (verify_incoming_jwt _ _ ac) as [[l ac'] [claims|]] eqn:Ev; [|done].
    destruct (String.eqb_spec (trim (scope claims)) CRDT_SYNC_SCOPE); [|done]; simpl.
    destruct (sync_decode bytes) as [v'|]; [|done].
    case_bool_decide as Hg; [|done]; simpl. rewrite Hg.
    destruct (ensure_active_configured_peer _ _ _) as [[]|] eqn:Ep; [|done].
    simpl. intros [= <- <-]. split; [done|]. exists ac, b, (trim b), claims.
    by rewrite Ev.
  - intros (?&ac&b&tok&claims&->&->&->&->&He&Hv&Hs&->&Hg&<-&Hp).
    rewrite (proj2 (Z.ltb_ge _ _)) by done. simpl. rewrite He.
    destruct (verify_incoming_jwt _ _ _) as [[l ac'] r]. simpl in Hv. subst r.
    rewrite Hs, String.eqb_refl. simpl. rewrite bool_decide_true by done. simpl.
    rewrite Hg. simpl.
    assert (ensure_active_configured_peer (set_auth (Some ac') d) (origin_replica_id v) (utc_now e)
            = Ok ()) as -> by exact Hp.
    done.
Qed.

(** Authorization moves nothing but the authentication client. *)
Lemma authorize_frame d e bearer bytes :
  ∃ ac, (authorize d e bearer bytes).1 = set_auth ac d
    ∧ (ac = auth_client d ∨ ∃ ac0 tok, auth_client d = Some ac0
         ∧ ac = Some (verify_incoming_jwt (verify_env e) tok ac0).1.2).
Proof.
  assert (Hd : set_auth (auth_client d) d = d) by by destruct d.
  unfold authorize. destruct (_ <? _); [exists (auth_client d); by rewrite Hd; auto|].
  destruct (auth_client d) as [ac|] eqn:Ea; [|exists None; by rewrite Hd; auto].
  destruct (negb _); [exists (Some ac); by rewrite Hd; auto|].
  destruct (_ ≫= _) as [tok|]; [|exists (Some ac); by rewrite Hd; auto].
  exists (Some (verify_incoming_jwt (verify_env e) tok ac).1.2).
  destruct (verify_incoming_jwt _ _ ac) as [[l ac'] r] eqn:Ev.
  split; [|right; exists ac, tok; by rewrite Ev]. by repeat case_match.
Qed.

(** ** The request handler is its atomic parts in sequence *)
Fixpoint req_steps (n : nat) (e : ReqEnv) (d : CrdtSyncDriver) (q : ReqState) :
    CrdtSyncDriver * ReqState :=
  match n with
  | O => (d, q)
  | S n => let '(d, q) := req_step hash e d q in req_steps n e d q
  end.

Lemma receive_is_steps d e bearer bytes :
  req_steps 4 e d (Arrived bearer bytes)
  = ((receive_http_request hash d e bearer bytes).1,
     Done (receive_http_request hash d e bearer bytes).2).
Proof.
  cbn [req_steps req_step]. unfold receive_http_request.
  destruct (authorize d e bearer bytes) as [d1 [[src v]|]]; [|done].
  destruct (is_duplicate_digest _ _ _ _ _) as [d2 [[]|]] eqn:E2; cbn [req_step];
    rewrite E2; [done| |done].
  cbn [req_step]. destruct (receive_envelope _ _ _ _ _) as [d3 [|]] eqn:E3; [|done].
  cbn [req_step]. by destruct (record_digest _ _ _ _ _) as [d4 [|]].
Qed.

(** ** Who changes the replica *)

Abbreviation step := (sync_step hash).

Definition in_progress (q : ReqState) : option (string * SyncEnvelope) :=
  match q with
  | Authorized src v | Fresh src v | Merged src v _ => Some (src, v)
  | _ => None
  end.

Lemma req_step_progress e d q d' q' sv :
  req_step hash e d q = (d', q') → in_progress q' = Some sv →
  in_progress q = Some sv
  ∨ ∃ bearer bytes, q = Arrived bearer bytes ∧ (authorize d e bearer bytes).2 = Ok sv.
Proof.
  destruct q as [b y|src v|src v|src v r|r]; cbn [req_step].
  - destruct (authorize d e b y) as [d1 [[src v]|]] eqn:E; intros [= <- <-]; simpl; [|done].
    intros [= <-]. right. exists b, y. by rewrite E.
  - destruct (is_duplicate_digest _ _ _ _ _) as [d1 [[]|]]; intros [= <- <-]; simpl; (auto || done).
  - destruct (receive_envelope _ _ _ _ _) as [d1 [|]]; intros [= <- <-]; simpl; (auto || done).
  - destruct (record_digest _ _ _ _ _) as [d1 [|]]; intros [= <- <-]; simpl; (auto || done).
  - intros [= <- <-]. auto.
Qed.

(** A request past authorization was authorized in an earlier state of the run. *)
Lemma authorized_earlier s0 s i q sv :
  rtc step s0 s → (∀ q, q ∈ s0.2 → in_progress q = None) →
  s.2 !! i = Some q → in_progress q = Some sv →
  ∃ dk qsk e bearer bytes, rtc step s0 (dk, qsk) ∧ rtc step (dk, qsk) s
    ∧ (authorize dk e bearer bytes).2 = Ok sv.
Proof.
  intros Hrun H0'. revert i q. pattern s.
  apply (rtc_ind_r (R:=step) _ s0); [|clear s Hrun; intros s s' Hr Hs IH i q Hq Hp|done].
  { intros i q Hq. apply list_elem_of_lookup_2, H0' in Hq. congruence. }
  assert (Hold : ∀ j q', s.2 !! j = Some q' → in_progress q' = Some sv →
     ∃ dk qsk e bearer bytes, rtc step s0 (dk, qsk) ∧ rtc step (dk, qsk) s'
       ∧ (authorize dk e bearer bytes).2 = Ok sv).
  { intros j q' Hj Hq'. destruct (IH j q' Hj Hq') as (dk&qsk&e&b&y&?&?&?).
    exists dk, qsk, e, b, y. split_and!; [done| |done]. by eapply rtc_r. }
  destruct Hs as [d qs b y|d qs j q0 e d' q' Hj Hst|d qs mu id t1 t2|d qs e id|d qs e|d qs o
                 |d qs ac o Ha|d qs m]; simpl in *; try by eapply Hold.
  - apply lookup_app_Some in Hq as [Hq|[_ Hq]]; [by eapply Hold|].
    apply list_lookup_singleton_Some in Hq as [_ <-]. done.
  - destruct (decide (i = j)) as [->|Hne].
    + rewrite list_lookup_insert_eq in Hq by by eapply lookup_lt_Some.
      injection Hq as <-. destruct (req_step_progress _ _ _ _ _ _ Hst Hp) as [?|(b&y&->&Ha)].
      { by eapply Hold. }
      exists d, qs, e, b, y. split_and!; [done| |done]. apply rtc_once. by eapply step_request.
    + rewrite list_lookup_insert_ne in Hq by done. by eapply Hold.
Qed.

Lemma receive_envelope_state d v t1 t2 :
  state (replica (receive_envelope hash d v t1 t2).1) ≠ state (replica d) →
  origin_replica_id v ≠ replica_id (replica d)
  ∧ ∃ remote, decode_state hash v = Ok remote
    ∧ state (replica (receive_envelope hash d v t1 t2).1)
      = (compact (merged (state (replica d)) remote) t2
           (max_partition_buffer_age (config d))).1.
Proof.
  unfold receive_envelope. destruct (String.eqb_spec (origin_replica_id v) (replica_id (replica d)));
    [done|].
  destruct (decode_state hash v) as [remote|]; [|done]. intros _. split; [done|].
  exists remote. split; [done|].
  rewrite (surjective_pairing (merge_state_at _ _ _)). simpl.
  rewrite merge_state_at_state. unfold compact_at. simpl.
  by destruct (compact _ _ _).
Qed.

Lemma broadcast_replica d e v : replica (broadcast_with_inner d e v).1.1 = replica d.
Proof.
  unfold broadcast_with_inner, select_outbound_peer, peer_bearer.
  by repeat case_match; simplify_eq/=.
Qed.

Lemma snapshot_replica d e id : replica (broadcast_snapshot hash d e id).1.1 = replica d.
Proof.
  unfold broadcast_snapshot. destruct (sync_disabled d); [done|].
  destruct (from_state _ _ _ _ _) as [v|]; [|done].
  pose proof (broadcast_replica d e v) as Hb.
  destruct (broadcast_with_inner d e v) as [[d' posts] [r|]]; simpl in *; [|done].
  by destruct (all_succeeded r).
Qed.

Lemma retry_send_replica d e : replica (retry_send d e).1.1 = replica d.
Proof.
  unfold retry_send. destruct (pending_envelope d) as [v|]; [|done].
  pose proof (broadcast_replica d e v) as Hb. by destruct (broadcast_with_inner d e v) as [[??]?].
Qed.

Lemma retry_clear_replica d o : replica (retry_clear d o) = replica d.
Proof. unfold retry_clear. by repeat case_match. Qed.

(** A request changes the state only in the part that merges. *)
Lemma req_step_state e d q d' q' :
  req_step hash e d q = (d', q') → state (replica d') ≠ state (replica d) →
  ∃ src v, q = Fresh src v ∧ d' = (receive_envelope hash d v (merge_ms e) (compact_ms e)).1.
Proof.
  destruct q as [b y|src v|src v|src v r|r]; cbn [req_step]; intros Hq Hne.
  - destruct (authorize_frame d e b y) as (ac&Hf&_).
    destruct (authorize d e b y) as [d1 [[]|]]; simpl in *; simplify_eq/=; done.
  - unfold is_duplicate_digest in Hq. by repeat case_match; simplify_eq/=.
  - exists src, v. split; [done|]. by destruct (receive_envelope _ _ _ _ _) as [? []]; simplify_eq/=.
  - unfold record_digest in Hq. by repeat case_match; simplify_eq/=.
  - by simplify_eq.
Qed.

(** ** The cache of envelopes seen *)

Lemma retain_lookup now m k c :
  retain_recent now m !! k = Some c ↔
  m !! k = Some c ∧ sat_sub now (cached_at c) <= DEDUPE_WINDOW.
Proof. unfold retain_recent. by rewrite map_lookup_filter_Some. Qed.

Lemma retain_size now m : (size (retain_recent now m) ≤ size m)%nat.
Proof. apply map_size_filter. Qed.

(** The operations on the cache, in the order in which they take its lock. *)
Inductive CacheOp :=
| CheckDup (src id dg : string) (now : Z)
| RecordSync (src id dg : string) (now : Z).
Definition cache_op (o : CacheOp) (d : CrdtSyncDriver) : CrdtSyncDriver :=
  match o with
  | CheckDup src id dg now => (is_duplicate_digest d src id dg now).1
  | RecordSync src id dg now => (record_digest d src id dg now).1
  end.
Definition op_time (o : CacheOp) : Z :=
  match o with CheckDup _ _ _ now | RecordSync _ _ _ now => now end.
Definition cache_ops (ops : list CacheOp) (d : CrdtSyncDriver) : CrdtSyncDriver :=
  foldl (λ d o, cache_op o d) d ops.

Lemma cache_op_keeps o d k c :
  seen_syncs d !! k = Some c → op_time o <= cached_at c + DEDUPE_WINDOW →
  seen_syncs (cache_op o d) !! k = Some c.
Proof.
  intros Hk Ht.
  assert (Hr : retain_recent (op_time o) (seen_syncs d) !! k = Some c).
  { apply retain_lookup. split; [done|]. unfold sat_sub, DEDUPE_WINDOW, from_secs in *. lia. }
  destruct o as [src id dg now|src id dg now]; simpl in *; [done|].
  unfold record_digest. destruct (retain_recent now _ !! (src, id)) eqn:E; [done|].
  destruct (_ <=? _); [done|]. simpl. rewrite lookup_insert_ne; [done|]. intros <-. congruence.
Qed.

Lemma cache_ops_keep ops d k c :
  seen_syncs d !! k = Some c →
  (∀ o, o ∈ ops → op_time o <= cached_at c + DEDUPE_WINDOW) →
  seen_syncs (cache_ops ops d) !! k = Some c.
Proof.
  revert d. induction ops as [|o ops IH]; intros d Hk Ht; simpl; [done|].
  apply IH; [|intros o' Ho'; apply Ht; by right]. apply cache_op_keeps; [done|]. apply Ht. by left.
Qed.

Lemma record_ok d src id dg now d' :
  record_digest d src id dg now = (d', Ok ()) →
  ∃ c, seen_syncs d' !! (src, id) = Some c ∧ digest c = dg ∧ now <= cached_at c + DEDUPE_WINDOW.
Proof.
  unfold record_digest. destruct (retain_recent now _ !! _) as [c|] eqn:E.
  - destruct (String.eqb_spec (digest c) dg); [|done]. intros [= <-]. exists c.
    split_and!; [done..|]. apply retain_lookup in E as [_ E].
    unfold sat_sub, DEDUPE_WINDOW, from_secs in *. lia.
  - destruct (_ <=? _); [done|]. intros [= <-]. exists (mkDigest dg now). simpl.
    rewrite lookup_insert_eq. split_and!; [done..|]. unfold DEDUPE_WINDOW, from_secs. lia.
Qed.

Lemma record_seen_size d src id dg now :
  Z.of_nat (size (seen_syncs d)) <= MAX_DEDUPE_ENTRIES →
  Z.of_nat (size (seen_syncs (record_digest d src id dg now).1)) <= MAX_DEDUPE_ENTRIES.
Proof.
  intros Hs. pose proof (retain_size now (seen_syncs d)). unfold record_digest.
  destruct (_ !! _) eqn:E; [simpl; lia|].
  destruct (Z.leb_spec MAX_DEDUPE_ENTRIES (Z.of_nat (size (retain_recent now (seen_syncs d)))));
    simpl; [lia|]. rewrite map_size_insert_None by done. lia.
Qed.

(** No other part of the driver touches the cache. *)
Lemma broadcast_seen d e v : seen_syncs (broadcast_with_inner d e v).1.1 = seen_syncs d.
Proof.
  unfold broadcast_with_inner, select_outbound_peer, peer_bearer.
  by repeat case_match; simplify_eq/=.
Qed.

Lemma sync_step_seen s s' :
  step s s' → Z.of_nat (size (seen_syncs s.1)) <= MAX_DEDUPE_ENTRIES →
  Z.of_nat (size (seen_syncs s'.1)) <= MAX_DEDUPE_ENTRIES.
Proof.
  destruct 1 as [d qs b y|d qs j q0 e d' q' Hj Hst|d qs mu id t1 t2|d qs e id|d qs e|d qs o
                |d qs ac o Ha|d qs m]; simpl; intros Hs; try done.
  - destruct q0 as [b y|src v|src v|src v r|r]; cbn [req_step] in Hst.
    + destruct (authorize_frame d e b y) as (ac&Hf&_).
      destruct (authorize d e b y) as [d1 [[]|]]; simpl in *; simplify_eq/=; done.
    + pose proof (retain_size (dup_at e) (seen_syncs d)).
      unfold is_duplicate_digest in Hst. repeat case_match; simplify_eq/=; lia.
    + unfold receive_envelope in Hst. by repeat case_match; simplify_eq/=.
    + pose proof (record_seen_size d src (sync_id v) (payload_digest_sha256 v) (record_at e) Hs).
      by destruct (record_digest _ _ _ _ _) as [? []]; simplify_eq/=.
    + by simplify_eq/=.
  - unfold apply_local_mutation. by repeat case_match; simplify_eq/=.
  - unfold broadcast_snapshot. destruct (sync_disabled d); [done|].
    destruct (from_state _ _ _ _ _) as [v|]; [|done].
    pose proof (broadcast_seen d e v) as Hb.
    destruct (broadcast_with_inner d e v) as [[d' posts] [r|]]; simpl in *;
      [destruct (all_succeeded r)|]; simpl; by rewrite Hb.
  - unfold retry_send. destruct (pending_envelope d) as [v|]; [|done].
    pose proof (broadcast_seen d e v) as Hb.
    destruct (broadcast_with_inner d e v) as [[??]?]. simpl in *. by rewrite Hb.
  - unfold retry_clear. by repeat case_match.
Qed.

(** ** Sending *)

Fixpoint retry_rounds (d : CrdtSyncDriver) (es : list SendEnv) : CrdtSyncDriver * list SyncPost :=
  match es with
  | [] => (d, [])
  | e :: es =>
      let '(d, posts) := retry_round d e in
      let '(d, posts') := retry_rounds d es in (d, posts ++ posts')
  end.

(** Nothing pending: the worker sends nothing and changes nothing. *)
Lemma retry_rounds_idle d es : pending_envelope d = None → retry_rounds d es = (d, []).
Proof.
  intros Hp. induction es as [|e es IH]; simpl; [done|].
  unfold retry_round, retry_send. rewrite Hp. simpl. by rewrite IH.
Qed.

Lemma broadcast_pending d e v :
  pending_envelope (broadcast_with_inner d e v).1.1 = pending_envelope d.
Proof.
  unfold broadcast_with_inner, select_outbound_peer, peer_bearer.
  by repeat case_match; simplify_eq/=.
Qed.

Lemma local_mutation_pending d0 mu id t1 t2 d v :
  apply_local_mutation hash d0 mu id t1 t2 = (d, Ok (Some v)) → sync_disabled d0 = false →
  sync_disabled d = false ∧ pending_envelope d = Some v.
Proof.
  unfold apply_local_mutation. destruct (apply_mutation _ _ _) as [r result].
  destruct (negb _); [done|]. destruct (result_timestamp result) as [t|]; [|done].
  destruct (from_state _ _ _ _ _) as [v'|]; [|done]. intros Hd Hs.
  unfold sync_disabled in *. simpl in *. rewrite Hs in Hd. by injection Hd as <- <-.
Qed.

Lemma local_mutation_ok d mu id t1 t2 t b :
  let r := (compact_at (apply_mutation (replica d) mu t1).1 t2
              (max_partition_buffer_age (config d))).1 in
  changed (apply_mutation (replica d) mu t1).2 = true →
  result_timestamp (apply_mutation (replica d) mu t1).2 = Some t →
  state_encode MAX_SYNC_STATE_BYTES (state r) = Ok b → sync_disabled d = false →
  let v := mkEnvelope id (replica_id r) t (hash b) b in
  apply_local_mutation hash d mu id t1 t2 = (set_pending (Some v) (set_replica r d), Ok (Some v)).
Proof.
  unfold apply_local_mutation, sync_disabled. destruct (apply_mutation _ _ _) as [r result].
  cbn [fst snd]. intros -> -> Hb Hd. unfold from_state. rewrite Hb.
  cbn [negb set_replica config]. by rewrite Hd.
Qed.

(** A broadcast that succeeds reached one peer, one that fails is an error. *)
Lemma broadcast_ok d e v d' posts r :
  broadcast_with_inner d e v = (d', posts, Ok r) →
  (sync_disabled d = true ∧ posts = [] ∧ r = BroadcastReport_default)
  ∨ (sync_disabled d = false ∧ length posts = 1%nat ∧ r = mkBroadcast 1 1 []).
Proof.
  unfold broadcast_with_inner. destruct (sync_disabled d); [intros [= <- <- <-]; auto|].
  destruct (sync_encode v); [|done]. destruct (select_outbound_peer d _) as [d1 [p|]]; [|done].
  destruct (peer_bearer d1 e p) as [d2 [b|]]; [|done].
  destruct (response e) as [st|]; [|done]. destruct (_ && _); [|done].
  intros [= <- <- <-]. auto.
Qed.

(** The [n]-th of a series of selections with an unchanged catalog. *)
Lemma select_step d m now age p rest :
  read_model d = Some m → publication_catalog_age_seconds m now = Some age →
  age <= PEER_METADATA_MAX_AGE_SECS → active_peers d m = p :: rest →
  select_outbound_peer d now
  = (set_round_robin (wrap64 (round_robin d + 1)) d,
     Ok (nth (Z.to_nat (round_robin d mod Z.of_nat (S (length rest)))) (p :: rest) p)).
Proof.
  intros Hm Ha Hage Hp. unfold select_outbound_peer. rewrite Hm, Ha. simpl.
  rewrite (proj2 (Z.ltb_ge _ _)) by done. by rewrite Hp.
Qed.

Fixpoint selections (d : CrdtSyncDriver) (nows : list Z) : list (Result PeerSyncPeer SyncError) :=
  match nows with
  | [] => []
  | now :: nows => let '(d, r) := select_outbound_peer d now in r :: selections d nows
  end.

Lemma selections_nth d m nows p rest :
  read_model d = Some m → active_peers d m = p :: rest →
  (∀ now, now ∈ nows → ∃ age, publication_catalog_age_seconds m now = Some age
                              ∧ age <= PEER_METADATA_MAX_AGE_SECS) →
  0 <= round_robin d → round_robin d + Z.of_nat (length nows) <= 2 ^ 64 →
  selections d nows
  = map (λ i, Ok (nth (Z.to_nat ((round_robin d + Z.of_nat i) mod Z.of_nat (S (length rest))))
                    (p :: rest) p)) (seq 0 (length nows)).
Proof.
  revert d. induction nows as [|now nows IH]; intros d Hm Hp Hf H0' Hle; [done|].
  destruct (Hf now) as (age&Ha&Hage); [by left|].
  cbn [selections length seq map]. rewrite (select_step d m now age p rest); [|done..].
  rewrite Z.add_0_r. f_equal. cbn [length] in Hle.
  destruct nows as [|now' nows']; [done|].
  assert (Hw : wrap64 (round_robin d + 1) = round_robin d + 1).
  { unfold wrap64. apply Z.mod_small. cbn [length] in Hle. lia. }
  rewrite IH; simpl round_robin; rewrite ?Hw; [|done|done| |lia|lia].
  - rewrite <- seq_shift, map_map. apply map_ext. intros i. do 4 f_equal. lia.
  - intros t Ht. apply Hf. by right.
Qed.

End proofs.

(** ** Theorems *)

Section theorems.
Context `{SyncCodec} `{JwtLib}.
Context (hash : string → string).

(** A request is authorized for source [src] and envelope [v] exactly when
    all of this holds: the body is within 1 MiB and decodes to [v]; the gateway
    has authentication material younger than 300 seconds; the bearer token is
    not blank and verifies; its scope is the synchronisation scope and nothing
    else; it names [src], and [v] claims [src] as its origin; [src] is a
    configured peer; and a peer catalog at most 300 seconds old lists it as
    ready. *)
Theorem authorize_exact d e bearer bytes src v :
  (authorize d e bearer bytes).2 = Ok (src, v) ↔
  byte_len bytes <= MAX_SYNC_BODY_BYTES ∧ sync_decode bytes = Ok v ∧ origin_replica_id v = src
  ∧ (∃ ac b claims, auth_client d = Some ac ∧ material_is_fresh ac (fresh_at e) = true
       ∧ bearer = Some b ∧ is_empty (trim b) = false
       ∧ (verify_incoming_jwt (verify_env e) (trim b) ac).2 = Ok claims
       ∧ trim (scope claims) = CRDT_SYNC_SCOPE ∧ claims_gateway_id claims = Some src)
  ∧ (∃ p, p ∈ peers (config d) ∧ peer_gateway_id p = src)
  ∧ ∃ m age p, read_model d = Some m
      ∧ publication_catalog_age_seconds m (utc_now e) = Some age
      ∧ age <= PEER_METADATA_MAX_AGE_SECS
      ∧ p ∈ peer_gateways m ∧ pg_gateway_id p = src ∧ readiness p = "ready"%string.
Proof.
  rewrite authorize_ok. setoid_rewrite active_peer_ok. naive_solver.
Qed.

(** C12. Nobody but the gateway itself and its authorized peers changes a replica:
    in every interleaving of requests and of the gateway's tasks, a step that
    changes the context state is a local mutation, or the merge of an envelope
    that an earlier step of the run authorized (see [authorize_exact]), from
    another gateway; the digest of its payload is the one it declares, and the
    new state is the compacted join with the decoded payload. *)
Theorem replica_changes_authorized d0 d qs d' qs' :
  rtc (sync_step hash) (d0, []) (d, qs) → sync_step hash (d, qs) (d', qs') →
  state (replica d') ≠ state (replica d) →
  (∃ mu id t1 t2, d' = (apply_local_mutation hash d mu id t1 t2).1)
  ∨ ∃ src v dk qsk e bearer bytes remote t,
      rtc (sync_step hash) (d0, []) (dk, qsk) ∧ rtc (sync_step hash) (dk, qsk) (d, qs)
      ∧ (authorize dk e bearer bytes).2 = Ok (src, v)
      ∧ origin_replica_id v ≠ replica_id (replica d)
      ∧ hash (encoded_state v) = payload_digest_sha256 v
      ∧ decode_state hash v = Ok remote
      ∧ state (replica d') = (compact (state_join (state (replica d)) remote) t
                                (max_partition_buffer_age (config d))).1.
Proof.
  intros Hr Hs Hne. inversion Hs; subst; try done; eauto 10.
  - right. match goal with Hq : qs !! _ = Some _, Hst : req_step _ _ _ _ = _ |- _ =>
      rename Hq into Hi; rename Hst into Hstep end.
    destruct (req_step_state _ _ _ _ _ _ Hstep Hne) as (src&v&->&->).
    destruct (receive_envelope_state _ _ _ _ _ Hne) as (Ho&remote&Hd&Hst).
    assert (H0' : ∀ q, q ∈ (d0, @nil ReqState).2 → in_progress q = None)
      by (simpl; intros q Hq; by apply elem_of_nil in Hq).
    destruct (authorized_earlier hash _ _ _ _ (src, v) Hr H0' Hi eq_refl)
      as (dk&qsk&e'&b&y&?&?&?).
    exists src, v, dk, qsk, e', b, y, remote, (compact_ms e). rewrite <- merged_join.
    split_and!; try done. unfold decode_state in Hd.
    destruct (_ <? _); [done|].
    by destruct (String.eqb_spec (hash (encoded_state v)) (payload_digest_sha256 v)).
  - by rewrite snapshot_replica in Hne.
  - by rewrite retry_send_replica in Hne.
  - by rewrite retry_clear_replica in Hne.
Qed.

(** The cache of envelopes seen never holds more than 10,000 entries, in any
    run of a driver that starts empty. *)
Theorem seen_cache_bounded r cfg auth model s :
  rtc (sync_step hash) (new_authenticated r cfg auth model, []) s →
  Z.of_nat (size (seen_syncs s.1)) <= MAX_DEDUPE_ENTRIES.
Proof.
  intros Hr. remember (new_authenticated r cfg auth model, []) as s0 eqn:E.
  assert (H0' : Z.of_nat (size (seen_syncs s0.1)) <= MAX_DEDUPE_ENTRIES) by by subst.
  clear E. induction Hr; [done|]. eauto using sync_step_seen.
Qed.

(** Replays are recognised: for 300 seconds after an envelope was recorded,
    and whatever the cache goes through meanwhile, an authorized request with
    the same source and sync id does not reach the replica; it is reported as a
    duplicate when its digest is the recorded one and refused as a conflict
    otherwise. *)
Theorem replay_recognised d id src dg now d1 ops d2 e bearer bytes v :
  record_digest d src id dg now = (d1, Ok ()) →
  (∀ c, seen_syncs d1 !! (src, id) = Some c →
     dup_at e <= cached_at c + DEDUPE_WINDOW
     ∧ ∀ o, o ∈ ops → op_time o <= cached_at c + DEDUPE_WINDOW) →
  seen_syncs d2 = seen_syncs (cache_ops ops d1) →
  (authorize d2 e bearer bytes).2 = Ok (src, v) → sync_id v = id →
  replica (receive_http_request hash d2 e bearer bytes).1 = replica d2
  ∧ (receive_http_request hash d2 e bearer bytes).2
    = (if String.eqb dg (payload_digest_sha256 v)
       then Ok (mkReceive true false MergeSummary_default) else Err ReplayConflict).
Proof.
  intros Hrec Ht Hs Ha Hid. destruct (record_ok _ _ _ _ _ _ Hrec) as (c&Hc&<-&_).
  destruct (Ht c Hc) as [Hdup Hops].
  pose proof (cache_ops_keep ops d1 _ _ Hc Hops) as Hk. rewrite <- Hs in Hk.
  unfold receive_http_request. destruct (authorize_frame d2 e bearer bytes) as (ac&Hf&_).
  destruct (authorize d2 e bearer bytes) as [d3 r]. simpl in Hf, Ha. subst d3 r.
  unfold is_duplicate_digest. rewrite Hid.
  assert (retain_recent (dup_at e) (seen_syncs (set_auth ac d2)) !! (src, id) = Some c) as ->.
  { apply retain_lookup. split; [done|]. unfold sat_sub, DEDUPE_WINDOW, from_secs in *. lia. }
  by destruct (String.eqb (digest c) (payload_digest_sha256 v)).
Qed.

(** An envelope carries its state: what a peer encodes, the receiver merges,
    and after it every entry reads as in the join of the two states, whether or
    not compaction dropped anything. *)
Theorem envelope_delivers_state d id origin emitted s v bytes t1 t2 :
  from_state hash id origin emitted s = Ok v → sync_encode v = Ok bytes →
  origin ≠ replica_id (replica d) →
  ∃ d', receive_http_bytes hash d bytes t1 t2
        = (d', Ok (mkReceive false false (state_merge_in (state (replica d)) s).2))
    ∧ ∀ entry, entry_view (state (replica d')) entry
               = entry_view (state_join (state (replica d)) s) entry.
Proof.
  unfold from_state, sync_encode. destruct (state_encode MAX_SYNC_STATE_BYTES s) as [b|] eqn:Es; [|done].
  intros [= <-]. destruct (envelope_encode _ _) as [bs|] eqn:Ee; [|done]. intros [= <-] Ho.
  pose proof (envelope_encode_limit _ _ _ Ee) as Hl.
  pose proof (envelope_contains_state _ _ _ Ee) as Hc. simpl in Hc.
  unfold receive_http_bytes, sync_decode. rewrite (proj2 (Z.ltb_ge _ _)) by done.
  rewrite (envelope_roundtrip _ _ _ Ee). unfold receive_envelope. simpl.
  destruct (String.eqb_spec origin (replica_id (replica d))); [done|].
  unfold decode_state. simpl. rewrite (proj2 (Z.ltb_ge _ _)) by lia.
  rewrite String.eqb_refl. simpl. rewrite (state_roundtrip _ _ _ Es).
  rewrite (surjective_pairing (merge_state_at _ _ _)). eexists. split.
  { do 3 f_equal. unfold merge_state_at. by destruct (state_merge_in _ _). }
  intros entry. rewrite merge_state_at_state, merged_join. simpl. unfold compact_at. simpl.
  pose proof (compact_keeps_views (state_join (state (replica d)) s) t2
                (max_partition_buffer_age (config d))) as Hk.
  destruct (compact _ _ _) as [s' sm]. simpl in *. by apply keeps_views_entry_view.
Qed.

(** The round robin is fair: with [n] active peers and an unchanged, fresh
    catalog, [n] consecutive selections are a rotation of the active peers, each
    selected once, as long as the counter does not wrap on the way. *)
Theorem round_robin_rotates d m nows :
  read_model d = Some m → active_peers d m ≠ [] → length nows = length (active_peers d m) →
  (∀ now, now ∈ nows → ∃ age, publication_catalog_age_seconds m now = Some age
                              ∧ age <= PEER_METADATA_MAX_AGE_SECS) →
  0 <= round_robin d → round_robin d + Z.of_nat (length nows) <= 2 ^ 64 →
  selections d nows = map Ok (rotate (Z.to_nat (round_robin d)) (active_peers d m)).
Proof.
  intros Hm Hne Hlen Hf H0' Hle. destruct (active_peers d m) as [|p rest] eqn:Ep; [done|].
  rewrite (selections_nth d m nows p rest) by done. rewrite <- (map_map _ Ok). f_equal.
  apply list_eq. intros i. rewrite list_lookup_fmap.
  destruct (decide (i < length nows)%nat) as [Hi|Hi].
  - rewrite lookup_seq_lt by done. rewrite lookup_rotate_r by lia.
    unfold rotate_nat_add. cbn [fmap option_fmap option_map length].
    rewrite Z2Nat.id, nth_lookup by done.
    set (k := Z.to_nat _).
    assert (Hk : (k < length (p :: rest))%nat).
    { pose proof (Z.mod_pos_bound (round_robin d + Z.of_nat i) (Z.of_nat (S (length rest)))).
      unfold k. simpl. lia. }
    by destruct (lookup_lt_is_Some_2 _ _ Hk) as [x ->].
  - rewrite lookup_seq_ge by lia. symmetry. apply lookup_ge_None_2.
    rewrite length_rotate. lia.
Qed.

(** A state between 1 MiB and 4 MiB never leaves the gateway: [from_state]
    accepts it and the mutation reports an envelope, but every round of the
    retry worker fails to encode that envelope, sends nothing and keeps it
    pending; and a receiver would refuse its payload as too large. *)
Theorem oversized_state_stuck d0 mu id t1 t2 d v es :
  apply_local_mutation hash d0 mu id t1 t2 = (d, Ok (Some v)) → sync_disabled d0 = false →
  MAX_SYNC_BODY_BYTES < byte_len (encoded_state v) →
  pending_envelope d = Some v ∧ retry_rounds d es = (d, [])
  ∧ decode_state hash v = Err (PayloadTooLarge (byte_len (encoded_state v))).
Proof.
  intros Hm Hd Hbig. destruct (local_mutation_pending _ _ _ _ _ _ _ _ Hm Hd) as [Hd' Hp].
  split_and!; [done| |unfold decode_state; by rewrite (proj2 (Z.ltb_lt _ _))].
  assert (He : ∃ er, sync_encode v = Err er).
  { unfold sync_encode. destruct (envelope_encode _ v) as [b|er] eqn:E; [|eauto].
    pose proof (envelope_encode_limit _ _ _ E). pose proof (envelope_contains_state _ _ _ E). lia. }
  destruct He as [er He]. induction es as [|e es IH]; simpl; [done|].
  unfold retry_round, retry_send, broadcast_with_inner. rewrite Hp, Hd', He. simpl. by rewrite IH.
Qed.

(** One peer per envelope: the round of the retry worker that delivers the
    pending envelope to one peer forgets it, and no later round sends anything
    until another mutation; the other peers do not get that envelope. *)
Theorem one_peer_per_envelope d e v es :
  pending_envelope d = Some v → sync_disabled d = false →
  is_ok (broadcast_with_inner d e v).2 = true →
  length (retry_rounds d (e :: es)).2 = 1%nat
  ∧ pending_envelope (retry_rounds d (e :: es)).1 = None.
Proof.
  intros Hp Hd Hok. cbn [retry_rounds]. unfold retry_round, retry_send. rewrite Hp.
  pose proof (broadcast_pending d e v) as Hb.
  destruct (broadcast_with_inner d e v) as [[d1 posts] [r|er]] eqn:E; [|done].
  destruct (broadcast_ok _ _ _ _ _ _ E) as [(?&_)|(_&Hl&->)]; [congruence|].
  simpl in *. rewrite bool_decide_true by congruence.
  rewrite retry_rounds_idle by done. simpl. by rewrite app_nil_r.
Qed.

(** A full cache fails a request after its effect: with 10,000 recent
    entries, an authorized envelope that is not among them is merged into the
    replica and then answered with [ReplayCacheFull]. *)
Theorem cache_full_after_merge d e bearer bytes src v d1 report :
  (authorize d e bearer bytes).2 = Ok (src, v) →
  (∀ now, now = dup_at e ∨ now = record_at e →
     retain_recent now (seen_syncs d) = seen_syncs d) →
  seen_syncs d !! (src, sync_id v) = None →
  MAX_DEDUPE_ENTRIES <= Z.of_nat (size (seen_syncs d)) →
  receive_envelope hash d v (merge_ms e) (compact_ms e) = (d1, Ok report) →
  (receive_http_request hash d e bearer bytes).2 = Err ReplayCacheFull
  ∧ replica (receive_http_request hash d e bearer bytes).1 = replica d1.
Proof.
  intros Ha Hret Hn Hfull Hm. unfold receive_http_request.
  destruct (authorize_frame d e bearer bytes) as (ac&Hf&_).
  destruct (authorize d e bearer bytes) as [d0 r]. simpl in Hf, Ha. subst d0 r.
  unfold is_duplicate_digest. simpl. rewrite (Hret (dup_at e)), Hn by auto.
  assert (Hm' : receive_envelope hash (set_seen (seen_syncs d) (set_auth ac d)) v
                  (merge_ms e) (compact_ms e)
                = (set_auth ac d1, Ok report) ∧ seen_syncs d1 = seen_syncs d).
  { revert Hm. unfold receive_envelope. simpl. destruct (String.eqb _ _).
    - intros [= <- <-]. by destruct d.
    - destruct (decode_state hash v); [|done]. destruct (merge_state_at _ _ _).
      by intros [= <- <-]. }
  destruct Hm' as [-> Hs]. unfold record_digest. simpl. rewrite Hs, (Hret (record_at e)), Hn by auto.
  by rewrite (proj2 (Z.leb_le _ _)).
Qed.

End theorems.
