(* ===== verification/CrdtSyncModel.v ===== *)
(** * CrdtSyncModel: a concrete codec, and synchronisation at work

    An instance of [SyncCodec] over the countable encodings of the state, and
    the theorems of [CrdtSyncProofs] applied to a gateway [gw] with the peers
    [gw2] and [gw3], with the token library of [AuthModel]. *)

From Stdlib Require Import ZArith Ascii String.
From stdpp Require Import base countable gmap sets list strings pretty relations.
From S2P Require Import Prelude Text Hlc OrSet Lww ContextState ContextCompact ContextCrdt GatewayAuth CrdtSync CrdtSyncProofs.

Local Open Scope Z_scope.

(** ** The codec *)
Module SyncModel.
Import JsonModel.

#[global] Instance value_eq_dec : EqDecision (Value Z).
Proof.
  refine (λ v w, cast_if (decide (enc v = enc w))).
  - by rewrite <- (dec_enc v), e, dec_enc.
  - by intros ->.
Defined.
#[global] Instance value_countable : Countable (Value Z) := inj_countable' enc dec dec_enc.

#[global] Instance reg_eq_dec : EqDecision LwwRegister.
Proof. intros [v t] [w u]. refine (cast_if (decide ((v : Value Z, t) = (w : Value Z, u)))); congruence. Defined.
#[global] Instance reg_countable : Countable LwwRegister.
Proof.
  refine (inj_countable' (λ r, (reg_value r : Value Z, timestamp r)) (λ p, mkReg p.1 p.2) _).
  by intros [].
Defined.
#[global] Instance orset_countable : Countable OrSet.
Proof. refine (inj_countable' (λ s, (adds s, tombstones s)) (λ p, mkOrSet p.1 p.2) _). by intros []. Defined.
#[global] Instance state_eq_dec : EqDecision ContextCrdtState.
Proof. solve_decision. Defined.
#[global] Instance state_countable : Countable ContextCrdtState.
Proof. refine (inj_countable' (λ s, (membership s, fields s)) (λ p, mkState p.1 p.2) _). by intros []. Defined.

Definition meta (v : SyncEnvelope) :=
  (sync_id v, origin_replica_id v, emitted_at v, payload_digest_sha256 v).

Fixpoint zeros (n : nat) : string :=
  match n with O => EmptyString | S n => String "0"%char (zeros n) end.
Fixpoint drop_bytes (n : nat) (s : string) : string :=
  match n, s with S n, String _ s => drop_bytes n s | _, _ => s end.
Lemma drop_zeros n s : drop_bytes n (zeros n ++ s) = s.
Proof. induction n as [|n IH]; simpl; [by destruct s|done]. Qed.
Lemma zeros_length n : String.length (zeros n) = n.
Proof. induction n as [|n IH]; simpl; by rewrite ?IH. Qed.
Lemma length_string_app a b :
  String.length (a ++ b) = (String.length a + String.length b)%nat.
Proof. induction a as [|c a IH]; simpl; by rewrite ?IH. Qed.

Fixpoint before_bar (s : string) : string :=
  match s with
  | EmptyString => EmptyString
  | String a s => if Ascii.eqb a "|" then EmptyString else String a (before_bar s)
  end.
Fixpoint after_bar (s : string) : string :=
  match s with
  | EmptyString => EmptyString
  | String a s => if Ascii.eqb a "|" then s else after_bar s
  end.
Lemma split_bar p s :
  before_bar (pos_text p ++ String "|" s) = pos_text p
  ∧ after_bar (pos_text p ++ String "|" s) = s.
Proof. induction p as [p IH|p IH|]; simpl; [..|done]; destruct IH as [-> ->]; done. Qed.

Definition limited (n : Z) (b : string) : Result string string :=
  if byte_len b <=? n then Ok b else Err "SizeLimit"%string.
Lemma limited_ok n b b' : limited n b = Ok b' → b' = b ∧ byte_len b <= n.
Proof. unfold limited. destruct (Z.leb_spec (byte_len b) n); [|done]. by intros [= <-]. Qed.

(** Every state is preceded by [pad] bytes. *)
Section codec.
Variable pad : nat.

Definition state_bytes (s : ContextCrdtState) : string := zeros pad ++ pos_text (encode s).
Definition envelope_bytes (v : SyncEnvelope) : string :=
  pos_text (encode (meta v)) ++ String "|" (encoded_state v).
Definition bytes_state (b : string) : Result ContextCrdtState string :=
  match countable.decode (text_pos (drop_bytes pad b)) with
  | Some s => Ok s
  | None => Err "InvalidEncoding"%string
  end.
Definition bytes_envelope (b : string) : Result SyncEnvelope string :=
  match countable.decode (text_pos (before_bar b)) with
  | Some (id, origin, t, dg) => Ok (mkEnvelope id origin t dg (after_bar b))
  | None => Err "InvalidEncoding"%string
  end.

Definition codec : SyncCodec.
Proof.
  refine {| state_encode n s := limited n (state_bytes s); state_decode _ := bytes_state;
            envelope_encode n v := limited n (envelope_bytes v);
            envelope_decode _ := bytes_envelope |}.
  - intros n s b [-> _]%limited_ok. unfold bytes_state, state_bytes.
    by rewrite drop_zeros, text_pos_text, decode_encode.
  - intros n v b [-> _]%limited_ok. unfold bytes_envelope, envelope_bytes.
    destruct (split_bar (encode (meta v)) (encoded_state v)) as [-> ->].
    rewrite text_pos_text, decode_encode. by destruct v.
  - by intros n s b [-> ?]%limited_ok.
  - by intros n v b [-> ?]%limited_ok.
  - intros n v b [-> _]%limited_ok. unfold byte_len, envelope_bytes.
    rewrite length_string_app. simpl. lia.
Defined.
End codec.

End SyncModel.

(** ** A gateway with two peers *)
Module SyncWorld.
Import JsonModel AuthModel.

#[export] Instance small_codec : SyncCodec := SyncModel.codec 0.
Definition hash (s : string) : string := s.

Definition empty_replica (id : string) : ContextCrdt :=
  {| replica_id := id; clock := {| clock_node_id := id; last := zero id |};
     state := ContextCrdtState_default |}.
Definition peer_replica : ContextCrdt :=
  (upsert_entry (empty_replica "gw2") "e" note (Some 5) 0).1.

Definition sync_config : PeerSyncConfig :=
  {| enabled := true; peers := [mkPeer "gw2" "https://two"; mkPeer "gw3" "https://three"];
     sync_interval_ms := 100; max_partition_buffer_age := 86400000 |}.
Definition catalog : ReadModel :=
  {| catalog_refreshed_at := Some 0;
     peer_gateways := [mkPeerGateway "gw2" "ready"; mkPeerGateway "gw3" "ready"] |}.
Definition driver0 : CrdtSyncDriver :=
  new_authenticated (empty_replica "gw") sync_config (Some booted) (Some catalog).

Definition req_env : ReqEnv := mkReqEnv (from_secs 20) (up 20) (from_secs 20) (from_secs 20) 20 20
                                 (from_secs 20).
Definition envelope (id : string) : SyncEnvelope :=
  let b := SyncModel.state_bytes 0 (state peer_replica) in mkEnvelope id "gw2" (zero "gw2") b b.
Definition body (id : string) : string := SyncModel.envelope_bytes (envelope id).

(** The request of [gw2] in its four stages. *)
Definition stage (n : nat) : CrdtSyncDriver * ReqState :=
  req_steps hash n req_env driver0 (Arrived (Some "from2"%string) (body "s1")).

(** The request of [gw2] is authorized, whatever the cache holds. *)
Lemma authorized_body m id :
  byte_len (body id) <= MAX_SYNC_BODY_BYTES →
  (authorize (set_seen m driver0) req_env (Some "from2"%string) (body id)).2
  = Ok ("gw2"%string, envelope id).
Proof.
  intros Hb. apply authorize_ok. split; [done|].
  exists booted, "from2"%string, "from2"%string, (gw_claims "gw" "gw2" "j4").
  split_and!; try reflexivity. unfold sync_decode.
  rewrite (proj2 (Z.ltb_ge _ _)) by done.
  rewrite (envelope_roundtrip MAX_SYNC_BODY_BYTES (envelope id)); [done|].
  simpl. unfold SyncModel.limited. by rewrite (proj2 (Z.leb_le _ _)).
Qed.

Lemma body_encoded : byte_len (body "s1") <= MAX_SYNC_BODY_BYTES.
Proof. apply Z.leb_le. vm_compute. reflexivity. Qed.

Lemma envelope_from_state :
  from_state hash "s1" "gw2" (zero "gw2") (state peer_replica) = Ok (envelope "s1").
Proof.
  unfold from_state. cbn [state_encode small_codec SyncModel.codec]. unfold SyncModel.limited.
  rewrite (proj2 (Z.leb_le _ _)); [reflexivity|]. apply Z.leb_le. vm_compute. reflexivity.
Qed.

Lemma envelope_encodes : sync_encode (envelope "s1") = Ok (body "s1").
Proof.
  unfold sync_encode. cbn [envelope_encode small_codec SyncModel.codec]. unfold SyncModel.limited.
  rewrite (proj2 (Z.leb_le _ _)); [done|]. exact body_encoded.
Qed.

Lemma stage_S n : req_step hash req_env (stage n).1 (stage n).2 = stage (S n).
Proof.
  unfold stage. generalize driver0 (Arrived (Some "from2"%string) (body "s1")).
  induction n as [|n IH]; intros d q.
  { cbn [req_steps fst snd]. by destruct (req_step hash req_env d q). }
  cbn [req_steps]. destruct (req_step hash req_env d q) as [d' q'] eqn:E. apply IH.
Qed.

Lemma stage_run n :
  rtc (sync_step hash) (driver0, []) ((stage n).1, [(stage n).2]).
Proof.
  apply (rtc_l _ _ (driver0, [Arrived (Some "from2"%string) (body "s1")])).
  { apply (step_arrive hash driver0 []). }
  unfold stage. generalize driver0 (Arrived (Some "from2"%string) (body "s1")).
  induction n as [|n IH]; intros d q; [done|].
  cbn [req_steps]. destruct (req_step hash req_env d q) as [d' q'] eqn:E.
  apply (rtc_l _ _ (d', [q'])); [|apply IH].
  apply (step_request hash d [q] 0 q req_env d' q'); [done|exact E].
Qed.

(** A cache of any size, with recent entries of another source. *)
Lemma filled_cache n :
  ∃ m : gmap (string * string) CachedSyncDigest, size m = n
    ∧ ∀ k c, m !! k = Some c → k.1 = "other"%string ∧ cached_at c = from_secs 20.
Proof.
  exists (list_to_map ((λ i : nat, (("other"%string, pretty i), mkDigest "d" (from_secs 20)))
                         <$> seq 0 n)). split.
  - rewrite map_size_list_to_map; [by rewrite length_fmap, length_seq|].
    rewrite <- list_fmap_compose. apply NoDup_fmap_2; [|apply NoDup_seq].
    intros i j [= Hij]. by apply (inj pretty) in Hij.
  - intros k c Hk%elem_of_list_to_map_2. by apply list_elem_of_fmap in Hk as (i&[= -> ->]&_).
Qed.

End SyncWorld.

Section sync_witnesses.
Import JsonModel AuthModel SyncWorld.

Lemma replica_changes_authorized_witness :
  visible_len (state (replica (stage 2).1)) = 0%nat
  ∧ visible_len (state (replica (stage 3).1)) = 1%nat
  ∧ ((∃ mu id t1 t2, (stage 3).1 = (apply_local_mutation hash (stage 2).1 mu id t1 t2).1)
     ∨ ∃ src v dk e bearer bytes, (authorize dk e bearer bytes).2 = Ok (src, v)
         ∧ hash (encoded_state v) = payload_digest_sha256 v).
Proof.
  assert (H2 : visible_len (state (replica (stage 2).1)) = 0%nat) by (vm_compute; reflexivity).
  assert (H3 : visible_len (state (replica (stage 3).1)) = 1%nat) by (vm_compute; reflexivity).
  split; [exact H2|]. split; [exact H3|].
  destruct (replica_changes_authorized hash driver0 (stage 2).1 [(stage 2).2]
              (stage 3).1 (<[0%nat := (stage 3).2]> [(stage 2).2]) (stage_run 2))
    as [Hl|(src&v&dk&qsk&e&b&y&remote&t&_&_&Ha&_&Hh&_)].
  - apply (step_request hash _ _ 0 (stage 2).2 req_env); [reflexivity|].
    rewrite stage_S. by destruct (stage 3).
  - intros E. rewrite E, H2 in H3. discriminate H3.
  - left. exact Hl.
  - right. exists src, v, dk, e, b, y. split; [exact Ha|exact Hh].
Defined.

Lemma seen_cache_bounded_witness :
  Z.of_nat (size (seen_syncs (stage 4).1)) = 1
  ∧ Z.of_nat (size (seen_syncs (stage 4).1)) <= MAX_DEDUPE_ENTRIES.
Proof.
  split; [vm_compute; reflexivity|].
  apply (seen_cache_bounded hash (empty_replica "gw") sync_config (Some booted) (Some catalog)
           ((stage 4).1, [(stage 4).2]) (stage_run 4)).
Defined.

Lemma replay_recognised_witness :
  let d1 := (record_digest driver0 "gw2" "s1" "other digest" (from_secs 15)).1 in
  let d2 := set_seen (seen_syncs (cache_ops [CheckDup "gw3" "s1" "x" (from_secs 17)] d1)) driver0 in
  (receive_http_request hash d2 req_env (Some "from2"%string) (body "s1")).2 = Err ReplayConflict.
Proof.
  intros d1 d2.
  assert (Hrec : record_digest driver0 "gw2" "s1" "other digest" (from_secs 15) = (d1, Ok ()))
    by reflexivity.
  pose proof (replay_recognised hash driver0 "s1" "gw2" "other digest" (from_secs 15) d1
    [CheckDup "gw3" "s1" "x" (from_secs 17)] d2 req_env (Some "from2"%string) (body "s1")
    (envelope "s1") Hrec) as Hr.
  destruct Hr as [_ Hr].
  - intros c Hc. assert (Some c = Some (mkDigest "other digest" (from_secs 15))) as [= ->]
      by (rewrite <- Hc; reflexivity).
    split; [apply Z.leb_le; reflexivity|].
    intros o [->|Ho%elem_of_nil]%elem_of_cons; [apply Z.leb_le; reflexivity|destruct Ho].
  - reflexivity.
  - exact (authorized_body _ "s1" body_encoded).
  - reflexivity.
  - exact Hr.
Defined.

Lemma envelope_delivers_state_witness :
  ∃ d', (receive_http_bytes hash driver0 (body "s1") 20 20).1 = d'
    ∧ entry_view (state (replica d')) "e"
      = entry_view (state_join (state (replica driver0)) (state peer_replica)) "e".
Proof.
  assert (Hne : "gw2"%string ≠ replica_id (replica driver0)) by discriminate.
  destruct (envelope_delivers_state hash driver0 "s1" "gw2" (zero "gw2") (state peer_replica)
              (envelope "s1") (body "s1") 20 20 envelope_from_state envelope_encodes Hne)
    as (d'&Hr&Hv).
  exists d'. split; [by rewrite Hr|exact (Hv "e"%string)].
Defined.

Lemma round_robin_rotates_witness :
  selections (set_round_robin 7 driver0) [from_secs 20; from_secs 21]
  = [Ok (mkPeer "gw3" "https://three"); Ok (mkPeer "gw2" "https://two")]
  ∧ selections (set_round_robin 7 driver0) [from_secs 20; from_secs 21]
    = map Ok (rotate 7 (peers sync_config)).
Proof.
  split; [reflexivity|].
  apply (round_robin_rotates (set_round_robin 7 driver0) catalog [from_secs 20; from_secs 21]);
    [reflexivity|discriminate|reflexivity| |apply Z.leb_le; reflexivity|apply Z.leb_le; reflexivity].
  intros now [->|[->|Hn%elem_of_nil]%elem_of_cons]%elem_of_cons;
    [eexists; split; [reflexivity|apply Z.leb_le; reflexivity]..|destruct Hn].
Defined.

Lemma one_peer_per_envelope_witness :
  let e := mkSendEnv (from_secs 20) (from_secs 20) (up 20) (Ok 200) in
  length (retry_rounds (set_pending (Some (envelope "s1")) driver0) [e; e; e]).2 = 1%nat.
Proof.
  intros e. apply (one_peer_per_envelope (set_pending (Some (envelope "s1")) driver0) e
                     (envelope "s1") [e; e]); [reflexivity|reflexivity|].
  unfold broadcast_with_inner. rewrite envelope_encodes. reflexivity.
Defined.

Lemma cache_full_after_merge_witness :
  ∃ m, (receive_http_request hash (set_seen m driver0) req_env (Some "from2"%string) (body "s1")).2
       = Err ReplayCacheFull.
Proof.
  destruct (filled_cache (Z.to_nat 10000)) as (m&Hsize&Hm). exists m.
  assert (Hrec : is_ok (receive_envelope hash (set_seen m driver0) (envelope "s1") 20 20).2
                 = true) by (vm_compute; reflexivity).
  destruct (receive_envelope hash (set_seen m driver0) (envelope "s1") 20 20)
    as [d1 [report|er]] eqn:E; [|discriminate Hrec].
  assert (Hn : m !! ("gw2"%string, "s1"%string) = None).
  { destruct (m !! ("gw2"%string, "s1"%string)) as [c|] eqn:Hk; [|done].
    destruct (Hm _ _ Hk) as [Ho _]. discriminate Ho. }
  apply (cache_full_after_merge hash (set_seen m driver0) req_env (Some "from2"%string)
           (body "s1") "gw2" (envelope "s1") d1 report).
  - exact (authorized_body _ "s1" body_encoded).
  - intros now Hnow. apply map_filter_id. intros k c Hk.
    destruct (Hm k c Hk) as [_ Hc]. cbn [snd]. rewrite Hc.
    destruct Hnow as [->| ->]; apply Z.leb_le; reflexivity.
  - exact Hn.
  - cbn [set_seen seen_syncs]. rewrite Hsize. rewrite Z2Nat.id; done.
  - exact E.
Defined.

End sync_witnesses.

(** The same gateway with a codec whose states take 2,000,000 bytes more. *)
Section oversized_witness.
Import JsonModel AuthModel.
#[local] Instance big_codec : SyncCodec := SyncModel.codec (Z.to_nat 2000000).

Lemma big_state_encodes s :
  byte_len (SyncModel.state_bytes 0 s) <= 2000000 →
  ∃ b, state_encode MAX_SYNC_STATE_BYTES s = Ok b ∧ MAX_SYNC_BODY_BYTES < byte_len b.
Proof.
  unfold byte_len. intros Hs.
  assert (Hb : Z.of_nat (String.length (SyncModel.state_bytes (Z.to_nat 2000000) s))
               = 2000000 + Z.of_nat (String.length (SyncModel.state_bytes 0 s))).
  { unfold SyncModel.state_bytes. rewrite !SyncModel.length_string_app, SyncModel.zeros_length.
    rewrite Nat2Z.inj_add, Z2Nat.id by done. done. }
  exists (SyncModel.state_bytes (Z.to_nat 2000000) s).
  cbn [state_encode big_codec SyncModel.codec]. unfold SyncModel.limited, byte_len. rewrite Hb.
  rewrite (proj2 (Z.leb_le _ _)) by (unfold MAX_SYNC_STATE_BYTES; lia).
  split; [done|]. unfold MAX_SYNC_BODY_BYTES. lia.
Qed.

Lemma oversized_state_stuck_witness :
  ∃ d v, apply_local_mutation SyncWorld.hash SyncWorld.driver0
           (UpsertEntry "e" note (Some 5)) "s1" 5 5 = (d, Ok (Some v))
    ∧ ∀ es, retry_rounds d es = (d, []).
Proof.
  set (mu := UpsertEntry "e" note (Some 5)).
  set (r := (compact_at (apply_mutation (replica SyncWorld.driver0) mu 5).1 5
               (max_partition_buffer_age (config SyncWorld.driver0))).1).
  destruct (big_state_encodes (state r)) as (b&Hb&Hbig).
  { apply Z.leb_le. vm_compute. reflexivity. }
  assert (Hc : changed (apply_mutation (replica SyncWorld.driver0) mu 5).2 = true)
    by (vm_compute; reflexivity).
  assert (Ht : result_timestamp (apply_mutation (replica SyncWorld.driver0) mu 5).2
               = Some (mkHlc 5 0 "gw")) by (vm_compute; reflexivity).
  pose proof (local_mutation_ok SyncWorld.hash SyncWorld.driver0 mu "s1" 5 5 _ b Hc Ht Hb
                eq_refl) as Hm.
  eexists _, _. split; [exact Hm|]. intros es.
  apply (oversized_state_stuck SyncWorld.hash _ _ _ _ _ _ _ es Hm); [reflexivity|exact Hbig].
Defined.

End oversized_witness.
