(* ===== verification/Policy.v ===== *)
(** * Policy: verdicts, policy results and identities

    The vocabulary that the policy evaluators share: reads of JSON values,
    verdicts and results (src/src/gateway/enforcement.rs), and the identity of
    an authenticated caller with its projection to policies
    (src/src/gateway/identity.rs). *)

From Stdlib Require Import ZArith Ascii String.
From stdpp Require Import base gmap strings list sorting.
From S2P Require Import Prelude Text Lww.

(** ** Reads of a JSON value *)
Section json.
Context {Number : Type}.

Definition json_as_str (v : Value Number) : option string :=
  match v with Str s => Some s | _ => None end.
Definition json_as_array (v : Value Number) : option (list (Value Number)) :=
  match v with Arr vs => Some vs | _ => None end.
(** [as_object]: the keys of a parsed object are distinct. *)
Definition json_as_object (v : Value Number) : option (list (string * Value Number)) :=
  match v with Obj kvs => Some kvs | _ => None end.
(** [Map::get] and [Value::get] through an option. *)
Definition map_get (kvs : list (string * Value Number)) (key : string) : option (Value Number) :=
  json_get (Obj kvs) key.
Definition get_in (o : option (Value Number)) (key : string) : option (Value Number) :=
  o ≫= λ v, json_get v key.

(** [string_array] of evaluator.rs: the strings of an array, nothing otherwise. *)
Definition string_array (v : Value Number) : list string :=
  omap json_as_str (default [] (json_as_array v)).
End json.

Inductive Verdict := Allow | Block | Escalate | Redact.
#[export] Instance Verdict_eq_dec : EqDecision Verdict.
Proof. solve_decision. Defined.

(** A redaction instruction; [start] and [stop] are byte offsets. *)
Record RedactionTarget := mkTarget {
  location : string;
  entity_type : string;
  start : Z;
  stop : Z;
}.

Record PolicyResult (Number : Type) := mkPolicyResult {
  policy_kind : string;
  phase : string;
  pr_verdict : Verdict;
  reason_code : string;
  details : option (Value Number);
  redaction_targets : option (list RedactionTarget);
}.
Arguments mkPolicyResult {_}. Arguments policy_kind {_}. Arguments phase {_}.
Arguments pr_verdict {_}. Arguments reason_code {_}. Arguments details {_}.
Arguments redaction_targets {_}.

Record DecisionEnvelope (Number : Type) := mkDecisionEnvelope {
  final_verdict : Verdict;
  decision_reason : string;
  results : list (PolicyResult Number);
}.
Arguments mkDecisionEnvelope {_}. Arguments final_verdict {_}.
Arguments decision_reason {_}. Arguments results {_}.

(** ** Identities *)

Inductive IdentityProofMethod := HeaderSoft | ApiToken | RuntimeToken | SignedAssertion.
Definition proof_method_str (m : IdentityProofMethod) : string :=
  match m with
  | HeaderSoft => "header_soft"
  | ApiToken => "api_token"
  | RuntimeToken => "runtime_token"
  | SignedAssertion => "signed_assertion"
  end.

Inductive IdentityAssuranceLevel := TokenLevel | SingleFactor | MultiFactor | PhishingResistant.

(** [AuthenticatedIdentityClaims]; instants of UTC are nanoseconds. *)
Record IdentityClaims := mkIdentityClaims {
  claim_proof_method : IdentityProofMethod;
  claim_issuer : string;
  claim_subject : string;
  claim_credential_id : string;
  claim_org_id : string;
  claim_team_ids : list string;
  claim_roles : list string;
  claim_scopes : list string;
  claim_assurance_level : IdentityAssuranceLevel;
  claim_expires_at : option Z;
}.

(** [AuthenticatedRequestIdentity]; its projection [PolicyIdentityContext] has
    the same fields. *)
Record RequestIdentity := mkIdentity {
  proof_method : IdentityProofMethod;
  issuer : string;
  subject : string;
  credential_id : string;
  identity_org_id : string;
  team_ids : list string;
  roles : list string;
  scopes : list string;
  assurance_level : IdentityAssuranceLevel;
  expires_at : option Z;
}.

Inductive IdentityError :=
| HeaderSoftClaims
| MissingClaim (name : string)
| ExpiredProof.

(** [required_claim]. *)
Definition required_claim (name value : string) : Result string IdentityError :=
  let value := trim value in
  if is_empty value then Err (MissingClaim name) else Ok value.

(** [canonical_claim_set]: through a [BTreeSet]. *)
Definition canonical_claim_set (values : list string) : list string :=
  btree_set_iter (list_to_set (filter (λ v, is_empty v = false) (trim <$> values))).

(** [AuthenticatedRequestIdentity::from_validated_claims]; [now] is [Utc::now]. *)
Definition from_validated_claims (c : IdentityClaims) (now : Z) :
    Result RequestIdentity IdentityError :=
  match claim_proof_method c with
  | HeaderSoft => Err HeaderSoftClaims
  | ApiToken | RuntimeToken | SignedAssertion =>
      match required_claim "issuer" (claim_issuer c) with
      | Err e => Err e
      | Ok iss =>
      match required_claim "subject" (claim_subject c) with
      | Err e => Err e
      | Ok sub =>
      match required_claim "credential_id" (claim_credential_id c) with
      | Err e => Err e
      | Ok cred =>
      match required_claim "org_id" (claim_org_id c) with
      | Err e => Err e
      | Ok org =>
          if match claim_expires_at c with Some t => (t <=? now)%Z | None => false end
          then Err ExpiredProof
          else Ok {| proof_method := claim_proof_method c; issuer := iss; subject := sub;
                     credential_id := cred; identity_org_id := org;
                     team_ids := canonical_claim_set (claim_team_ids c);
                     roles := canonical_claim_set (claim_roles c);
                     scopes := canonical_claim_set (claim_scopes c);
                     assurance_level := claim_assurance_level c;
                     expires_at := claim_expires_at c |}
      end end end end
  end.

(** ** What a validated identity is *)

Lemma canonical_claim_set_elem l x :
  x ∈ canonical_claim_set l ↔ is_empty x = false ∧ ∃ y, y ∈ l ∧ x = trim y.
Proof.
  unfold canonical_claim_set. rewrite elem_of_btree_set_iter, elem_of_list_to_set.
  rewrite list_elem_of_filter, list_elem_of_fmap. naive_solver.
Qed.

(** A set of claims as the gateway keeps it. *)
Definition canonical (l : list string) : Prop :=
  StronglySorted key_le l ∧ NoDup l ∧ Forall (λ x, is_empty x = false) l.

(** [kept] is what is left of the claims [l]: those that are not blank, trimmed. *)
Definition claims_kept (l kept : list string) : Prop :=
  canonical kept ∧ ∀ x, x ∈ kept ↔ is_empty x = false ∧ ∃ y, y ∈ l ∧ x = trim y.

Lemma canonical_claim_set_canonical l : canonical (canonical_claim_set l).
Proof.
  split_and!.
  - apply btree_set_iter_sorted.
  - apply btree_set_iter_NoDup.
  - apply Forall_forall. intros x Hx. by apply canonical_claim_set_elem in Hx as [? _].
Qed.

Lemma canonical_claim_set_kept l : claims_kept l (canonical_claim_set l).
Proof. split; [apply canonical_claim_set_canonical|apply canonical_claim_set_elem]. Qed.

Lemma required_claim_ok name v v' :
  required_claim name v = Ok v' → v' = trim v ∧ is_empty v' = false.
Proof. unfold required_claim. destruct (is_empty (trim v)) eqn:E; [done|]. by intros [= <-]. Qed.

(** ** Theorems *)

(** C35. What an authenticated identity is: an identity is made only of claims
    with an authoritative proof (never of headers), it names an issuer, a
    subject, a credential and an organisation, its proof has not expired, its
    assurance is the one claimed, and its teams, its roles and its scopes are each
    exactly the trimmed claims of that kind that are not blank, sorted and without
    repetition. *)
Theorem validated_identity_well_formed c now id :
  from_validated_claims c now = Ok id →
  proof_method id ≠ HeaderSoft ∧ proof_method id = claim_proof_method c
  ∧ issuer id = trim (claim_issuer c) ∧ subject id = trim (claim_subject c)
  ∧ credential_id id = trim (claim_credential_id c) ∧ identity_org_id id = trim (claim_org_id c)
  ∧ Forall (λ s, is_empty s = false) [issuer id; subject id; credential_id id; identity_org_id id]
  ∧ (∀ t, expires_at id = Some t → (now < t)%Z)
  ∧ expires_at id = claim_expires_at c ∧ assurance_level id = claim_assurance_level c
  ∧ claims_kept (claim_team_ids c) (team_ids id) ∧ claims_kept (claim_roles c) (roles id)
  ∧ claims_kept (claim_scopes c) (scopes id).
Proof.
  unfold from_validated_claims.
  destruct (required_claim "issuer" _) as [i|] eqn:Hi; [|by destruct (claim_proof_method c)].
  destruct (required_claim "subject" _) as [s|] eqn:Hs; [|by destruct (claim_proof_method c)].
  destruct (required_claim "credential_id" _) as [k|] eqn:Hk; [|by destruct (claim_proof_method c)].
  destruct (required_claim "org_id" _) as [o|] eqn:Ho; [|by destruct (claim_proof_method c)].
  apply required_claim_ok in Hi as [-> Hi], Hs as [-> Hs], Hk as [-> Hk], Ho as [-> Ho].
  set (b := match claim_expires_at c with Some t => (t <=? now)%Z | None => false end).
  intros Hid. assert (Hb : b = false) by (destruct (claim_proof_method c), b; done).
  assert (Hp : claim_proof_method c ≠ HeaderSoft) by (intros E; by rewrite E in Hid).
  rewrite Hb in Hid. destruct (claim_proof_method c) eqn:Em; [done|..]; injection Hid as <-; simpl;
    split_and!; try apply canonical_claim_set_kept; try done; try (by repeat constructor);
    intros t Ht; subst b; rewrite Ht in Hb; apply Z.leb_gt in Hb; lia.
Qed.

Definition sample_claims : IdentityClaims :=
  mkIdentityClaims ApiToken "verdictan-api" " user-1 " "token-1" "org-1"
    [" team-b "; "team-a"; "team-a"; " "]%string ["reviewer"; "operator"]%string [" chat "; "chat"]%string TokenLevel
    (Some 10%Z).

Lemma validated_identity_well_formed_witness :
  ∃ id, from_validated_claims sample_claims 5 = Ok id
    ∧ team_ids id = ["team-a"; "team-b"]%string ∧ claims_kept (claim_scopes sample_claims) (scopes id).
Proof.
  destruct (from_validated_claims sample_claims 5) as [id|e] eqn:E; [|discriminate E].
  exists id. split; [reflexivity|].
  destruct (validated_identity_well_formed sample_claims 5 id E)
    as (_&_&_&_&_&_&_&_&_&_&_&_&Hs).
  split; [|exact Hs]. injection E as <-. vm_compute. reflexivity.
Defined.
