(* ===== verification/ToolAccess.v ===== *)
(** * ToolAccess: which tools a role may use (src/src/policy/evaluator.rs)

    Patterns with [*] select tools; an evaluator holds the allowed and denied
    patterns of the whole gateway and of each role.  [glob_match] is the greedy
    matcher of the source; [globs] is what a pattern means, and the two agree.
    The evaluators are built from JSON configuration sections. *)

From Stdlib Require Import ZArith Ascii String.
From stdpp Require Import base gmap strings list.
From S2P Require Import Prelude Text Lww Policy.

#[local] Arguments String.append : simpl nomatch.

(** ** Patterns *)

Definition star : ascii := "*"%char.

(** [pattern.split('*')]. *)
Fixpoint split_star (s : string) : list string :=
  match s with
  | EmptyString => [EmptyString]
  | String c s =>
      if Ascii.eqb c star then EmptyString :: split_star s
      else match split_star s with
           | p :: ps => String c p :: ps
           | [] => [String c EmptyString]
           end
  end.

Fixpoint contains_star (s : string) : bool :=
  match s with EmptyString => false | String c s => Ascii.eqb c star || contains_star s end.
Definition starts_with_star (s : string) : bool :=
  match s with EmptyString => false | String c _ => Ascii.eqb c star end.
Fixpoint ends_with_star (s : string) : bool :=
  match s with
  | EmptyString => false
  | String c EmptyString => Ascii.eqb c star
  | String _ s => ends_with_star s
  end.

(** [starts_with] with the rest of the text: [&remainder[first.len()..]]. *)
Fixpoint strip_prefix (p s : string) : option string :=
  match p, s with
  | EmptyString, _ => Some s
  | String a p, String b s => if Ascii.eqb a b then strip_prefix p s else None
  | _, _ => None
  end.
(** [remainder.find(part)] with the text after the match. *)
Fixpoint find_after (part s : string) : option string :=
  match strip_prefix part s with
  | Some rest => Some rest
  | None => match s with EmptyString => None | String _ s => find_after part s end
  end.
(** [text.ends_with(last)]. *)
Fixpoint str_ends_with (s suffix : string) : bool :=
  String.eqb s suffix || match s with EmptyString => false | String _ s => str_ends_with s suffix end.

(** The loop over the parts; empty parts are skipped. *)
Fixpoint match_parts (parts : list string) (remainder : string) : option string :=
  match parts with
  | [] => Some remainder
  | part :: parts =>
      if is_empty part then match_parts parts remainder
      else match find_after part remainder with
           | Some remainder => match_parts parts remainder
           | None => None
           end
  end.

Definition glob_match (pattern text : string) : bool :=
  if String.eqb pattern "*" then true
  else if negb (contains_star pattern) then String.eqb pattern text
  else
    let parts := split_star pattern in
    let first := default EmptyString (head parts) in
    let start := if starts_with_star pattern then Some text else strip_prefix first text in
    match start with
    | None => false
    | Some remainder =>
        (* index 0 is skipped: it is the prefix, or empty *)
        match match_parts (tail parts) remainder with
        | None => false
        | Some _ =>
            if ends_with_star pattern then true
            else str_ends_with text (default EmptyString (last parts))
        end
    end.

Definition matches_any (patterns : list string) (tool_name : string) : bool :=
  existsb (λ pattern, glob_match pattern tool_name) patterns.

(** What a pattern means: [*] stands for any text, every other character for itself. *)
Inductive globs : string → string → Prop :=
| globs_nil : globs EmptyString EmptyString
| globs_char c p t : c ≠ star → globs p t → globs (String c p) (String c t)
| globs_star p s t : globs p t → globs (String star p) (s ++ t).

(** ** The matcher is right *)

Lemma str_app_nil_r (s : string) : (s ++ "")%string = s.
Proof. induction s as [|c s IH]; simpl; by rewrite ?IH. Qed.
Lemma str_app_assoc (a b c : string) : (a ++ (b ++ c) = (a ++ b) ++ c)%string.
Proof. induction a as [|x a IH]; simpl; by rewrite ?IH. Qed.

Lemma str_length_app (a b : string) :
  String.length (a ++ b) = (String.length a + String.length b)%nat.
Proof. induction a as [|x a IH]; simpl; by rewrite ?IH. Qed.
(** Of two splittings, the one with the shorter head has the longer tail. *)
Lemma str_app_split (a b c d : string) :
  (a ++ b = c ++ d)%string → (String.length a ≤ String.length c)%nat →
  ∃ w, b = (w ++ d)%string.
Proof.
  revert c. induction a as [|x a IH]; intros c Heq Hl.
  - simpl in Heq. by exists c.
  - destruct c as [|y c]; [simpl in Hl; lia|]. simpl in *. injection Heq as -> Heq.
    apply (IH c); [done|lia].
Qed.

Lemma strip_prefix_spec p s r : strip_prefix p s = Some r ↔ s = (p ++ r)%string.
Proof.
  revert s. induction p as [|a p IH]; intros s; simpl.
  - split; [by intros [= <-]|by intros ->].
  - destruct s as [|b s]; [done|]. destruct (Ascii.eqb_spec a b) as [->|Hne].
    + rewrite IH. split; [by intros ->|by intros [= ->]].
    + split; [done|congruence].
Qed.

(** [find_after] finds the first occurrence: every other one leaves a suffix of
    what it leaves. *)
Lemma find_after_some p s r : find_after p s = Some r → ∃ u, s = (u ++ p ++ r)%string.
Proof.
  revert r. induction s as [|c s IH]; intros r; cbn [find_after].
  - destruct (strip_prefix p "") eqn:E; [|done]. intros [= <-].
    exists ""%string. simpl. by apply strip_prefix_spec.
  - destruct (strip_prefix p (String c s)) eqn:E.
    + intros [= <-]. exists ""%string. simpl. by apply strip_prefix_spec.
    + intros [u ->]%IH. by exists (String c u).
Qed.

Lemma find_after_first p s u r :
  s = (u ++ p ++ r)%string → ∃ w, find_after p s = Some (w ++ r)%string.
Proof.
  revert u. induction s as [|c s IH]; intros u Hs; cbn [find_after].
  all: destruct (strip_prefix p _) as [r'|] eqn:E.
  1,3: apply strip_prefix_spec in E; rewrite E, str_app_assoc in Hs;
    destruct (str_app_split _ _ _ _ Hs) as [w ->]; [rewrite str_length_app; lia|by exists w].
  all: destruct u as [|c' u]; try done.
  - simpl in Hs. by rewrite (proj2 (strip_prefix_spec p "" r)) in E.
  - simpl in Hs. by rewrite (proj2 (strip_prefix_spec p (String c s) r)) in E.
  - injection Hs as -> Hs. by apply (IH u).
Qed.

Lemma ends_with_spec s x : str_ends_with s x = true ↔ ∃ u, s = (u ++ x)%string.
Proof.
  induction s as [|c s IH]; cbn [str_ends_with]; rewrite orb_true_iff, String.eqb_eq.
  - split.
    + intros [<-|?]; [by exists ""%string|done].
    + intros [[|a u] Hu]; [by left|done].
  - rewrite IH. split.
    + intros [<-|[u ->]]; [by exists ""%string|by exists (String c u)].
    + intros [[|a u] Hu]; [by left|]. injection Hu as -> ->. right. by exists u.
Qed.

(** What is left of a pattern after its first part: each part is preceded by a
    star, and the last one ends the text. *)
Fixpoint tail_matches (parts : list string) (t : string) : Prop :=
  match parts with
  | [] => False
  | [p] => ∃ u, t = (u ++ p)%string
  | p :: parts => ∃ u r, t = (u ++ p ++ r)%string ∧ tail_matches parts r
  end.

Lemma tail_matches_more parts s t : tail_matches parts t → tail_matches parts (s ++ t).
Proof.
  destruct parts as [|p [|q parts]]; [done| |].
  - intros [u ->]. exists (s ++ u)%string. by rewrite str_app_assoc.
  - intros (u&r&->&Hr). exists (s ++ u)%string, r. split; [|done]. by rewrite str_app_assoc.
Qed.

Lemma split_star_cons s : ∃ p ps, split_star s = p :: ps.
Proof.
  destruct s as [|c s]; simpl; [eauto|]. destruct (Ascii.eqb c star); [eauto|].
  destruct (split_star s); eauto.
Qed.

(** The meaning of a pattern by its parts. *)
Lemma globs_parts pat t :
  globs pat t ↔
  match split_star pat with
  | [] => False
  | [p] => t = p
  | p :: ps => ∃ r, t = (p ++ r)%string ∧ tail_matches ps r
  end.
Proof.
  revert t. induction pat as [|c pat IH]; intros t; simpl.
  { split; [by inversion 1|intros ->; constructor]. }
  destruct (split_star_cons pat) as (p&ps&Hp). rewrite Hp in *.
  destruct (Ascii.eqb_spec c star) as [->|Hc].
  - split.
    + inversion 1 as [|?????|? s t' Ht]; subst; [done|]. exists (s ++ t')%string. split; [done|].
      apply IH in Ht. destruct ps as [|q ps].
      * subst t'. by exists s.
      * destruct Ht as (r&->&Hr). by exists s, r.
    + intros (r&->&Hr). simpl. destruct ps as [|q ps].
      * destruct Hr as [u ->]. constructor. by apply IH.
      * destruct Hr as (u&r'&->&Hr). constructor. apply IH. by exists r'.
  - split.
    + inversion 1 as [|? ? t' _ Ht|? s t' Ht]; subst; [|done]. apply IH in Ht.
      destruct ps as [|q ps]; [by subst|]. destruct Ht as (r&->&Hr). by exists r.
    + destruct ps as [|q ps].
      * intros ->. constructor; [done|]. by apply IH.
      * intros (r&->&Hr). constructor; [done|]. apply IH. by exists r.
Qed.

Lemma match_parts_length ps t x q :
  match_parts ps t = Some x → q ∈ ps → (String.length q ≤ String.length t)%nat.
Proof.
  revert t. induction ps as [|p ps IH]; intros t; [by intros _ ?%elem_of_nil|].
  cbn [match_parts]. intros Hm [->|Hq]%elem_of_cons.
  - destruct p as [|a p]; [simpl; lia|]. cbn [is_empty] in Hm.
    destruct (find_after _ t) eqn:E; [|done]. apply find_after_some in E as [u ->].
    rewrite !str_length_app. lia.
  - destruct (is_empty p); [by apply IH|]. destruct (find_after p t) as [r|] eqn:E; [|done].
    apply find_after_some in E as [u ->]. specialize (IH r Hm Hq). rewrite !str_length_app. lia.
Qed.

(** The text ends with the last part: so does what the loop started from. *)
Lemma match_parts_suffix ps r x a u :
  match_parts ps r = Some x → (a ++ r = u ++ default "" (last ps))%string →
  ∃ w, r = (w ++ default "" (last ps))%string.
Proof.
  intros Hm Heq. eapply str_app_split; [exact Heq|].
  assert (String.length (default "" (last ps)) ≤ String.length r)%nat.
  { destruct (last ps) as [q|] eqn:El; [|simpl; lia].
    apply (match_parts_length ps r x); [done|]. by apply last_Some_elem_of. }
  apply (f_equal String.length) in Heq. rewrite !str_length_app in Heq. simpl in *. lia.
Qed.

(** The greedy loop finds a match of the rest exactly when there is one. *)
Lemma match_parts_spec ps t :
  ps ≠ [] →
  tail_matches ps t ↔
  is_Some (match_parts ps t) ∧ ∃ u, t = (u ++ default "" (last ps))%string.
Proof.
  revert t. induction ps as [|p ps IH]; intros t Hne; [done|]. clear Hne.
  destruct ps as [|q ps].
  - cbn. destruct (is_empty p) eqn:Ep.
    + destruct p; [|done]. split; [|by intros [_ ?]].
      intros H. by split.
    + split; [|by intros [_ ?]]. intros [u ->]. split; [|by exists u].
      destruct (find_after_first p (u ++ p) u "") as [w Hw]; [by rewrite str_app_nil_r|].
      by rewrite Hw.
  - change (last (p :: q :: ps)) with (last (q :: ps)).
    set (rest := q :: ps) in *.
    assert (Hm : tail_matches (p :: rest) t ↔ ∃ u r, t = (u ++ p ++ r)%string ∧ tail_matches rest r)
      by done.
    rewrite Hm. clear Hm. cbn [match_parts]. destruct (is_empty p) eqn:Ep.
    + destruct p; [|done]. rewrite <- IH by done. split.
      * intros (u&r&->&Hr). exact (tail_matches_more rest u r Hr).
      * intros Ht. by exists ""%string, t.
    + split.
      * intros (u&r&->&Hr). destruct (find_after_first p _ u r eq_refl) as [w Hw]. rewrite Hw.
        apply (tail_matches_more rest w) in Hr. apply IH in Hr as [Hs [u' Hu']]; [|done].
        split; [done|]. destruct (find_after_some _ _ _ Hw) as [u2 ->]. rewrite Hu'.
        exists (u2 ++ p ++ u')%string. by rewrite !str_app_assoc.
      * destruct (find_after p t) as [r|] eqn:Ef; [|by intros [[??] _]].
        destruct (find_after_some _ _ _ Ef) as [u ->]. intros [Hs Hu].
        exists u, r. split; [done|]. apply IH; [done|]. split; [done|].
        destruct Hs as [x Hx], Hu as [u' Hu']. rewrite str_app_assoc in Hu'.
        by apply (match_parts_suffix rest r x (u ++ p) u').
Qed.

Lemma match_parts_last_empty ps t :
  ps ≠ [] → last ps = Some ""%string → tail_matches ps t ↔ is_Some (match_parts ps t).
Proof.
  intros Hne Hl. rewrite match_parts_spec by done. rewrite Hl. split; [by intros [? _]|].
  intros Hs. split; [done|]. exists t. by rewrite str_app_nil_r.
Qed.

(** How the tests of [glob_match] on the pattern read its parts. *)
Lemma contains_star_parts s :
  if contains_star s then ∃ p q ps, split_star s = p :: q :: ps else split_star s = [s].
Proof.
  induction s as [|c s IH]; simpl; [done|]. destruct (Ascii.eqb_spec c star); simpl.
  - destruct (split_star_cons s) as (p&ps&->). eauto.
  - destruct (contains_star s).
    + destruct IH as (p&q&ps&->). eauto.
    + by rewrite IH.
Qed.

Lemma starts_with_star_parts s :
  starts_with_star s = true → head (split_star s) = Some ""%string.
Proof. destruct s as [|c s]; [done|]. simpl. by intros ->. Qed.

Lemma ends_with_star_parts s :
  s ≠ EmptyString → ends_with_star s = true ↔ last (split_star s) = Some ""%string.
Proof.
  induction s as [|c s IH]; [done|]. intros _. destruct s as [|d s].
  { simpl. destruct (Ascii.eqb c star); simpl; [by split|]. split; [done|]. by intros [=]. }
  change (ends_with_star (String c (String d s))) with (ends_with_star (String d s)).
  rewrite IH by done. destruct (split_star_cons (String d s)) as (p&ps&Hp).
  change (split_star (String c (String d s))) with
    (if Ascii.eqb c star then EmptyString :: split_star (String d s)
     else match split_star (String d s) with
          | p :: ps => String c p :: ps
          | [] => [String c EmptyString]
          end).
  rewrite Hp. destruct (Ascii.eqb c star); [done|].
  destruct ps as [|q ps]; [|done]. simpl. split; [|by intros [=]].
  intros [= ->]. simpl in Hp. destruct (Ascii.eqb d star); [|by destruct (split_star s)].
  by destruct (split_star_cons s) as (?&?&Hs); rewrite Hs in Hp.
Qed.

(** The greedy matcher decides the meaning of patterns. *)
Lemma glob_match_globs pattern text : glob_match pattern text = true ↔ globs pattern text.
Proof.
  unfold glob_match. destruct (String.eqb_spec pattern "*") as [->|Hs].
  { split; [intros _|done]. rewrite <- (str_app_nil_r text). constructor. constructor. }
  rewrite globs_parts. pose proof (contains_star_parts pattern) as Hc.
  destruct (contains_star pattern); simpl.
  2: { rewrite Hc, String.eqb_eq. by split. }
  destruct Hc as (p&q&ps&Hp). rewrite Hp.
  change (default EmptyString (head (p :: q :: ps))) with p. cbn [tail].
  assert (Hne : pattern ≠ ""%string) by by intros ->.
  pose proof (ends_with_star_parts pattern Hne) as He. rewrite Hp in He.
  change (last (p :: q :: ps)) with (last (q :: ps)) in He |- *.
  assert (Hstart : (if starts_with_star pattern then Some text else strip_prefix p text)
                   = strip_prefix p text).
  { destruct (starts_with_star pattern) eqn:E; [|done].
    apply starts_with_star_parts in E. rewrite Hp in E. by injection E as ->. }
  rewrite Hstart. destruct (strip_prefix p text) as [r|] eqn:Er.
  2: { split; [done|]. intros (r&->&_). by rewrite (proj2 (strip_prefix_spec p _ r)) in Er. }
  apply strip_prefix_spec in Er as ->.
  assert (Hr : (∃ r', p ++ r = p ++ r' ∧ tail_matches (q :: ps) r')%string
               ↔ tail_matches (q :: ps) r).
  { split; [|by exists r]. by intros (r'&->%(inj (String.append p))&?). }
  rewrite Hr. clear Hr. destruct (ends_with_star pattern).
  - rewrite match_parts_last_empty; [|done|by apply He].
    destruct (match_parts (q :: ps) r); [by split; [intros _; eexists|]|by split; [|intros [??]]].
  - rewrite match_parts_spec by done. destruct (match_parts (q :: ps) r) eqn:Em.
    2: { split; [done|]. by intros [[??] _]. }
    rewrite ends_with_spec. split.
    + intros [u Hu]. split; [by eexists|]. by apply (match_parts_suffix (q :: ps) r s p u).
    + intros [_ [u ->]]. exists (p ++ u)%string. by rewrite str_app_assoc.
Qed.

(** ** The evaluator *)

Record ToolPatternPolicy := mkPatterns { allowed : list string; denied : list string }.
Definition no_patterns : ToolPatternPolicy := mkPatterns [] [].

Inductive ToolAccessScope := GlobalScope | RoleScope.
Inductive ToolAccessReason :=
| Allowed (s : ToolAccessScope)
| ExplicitDeny (s : ToolAccessScope)
| NotAllowed (s : ToolAccessScope).

Record ToolAccessDecision := mkDecision { verdict : Verdict; reason : ToolAccessReason }.
Definition decision_allowed (s : ToolAccessScope) := mkDecision Allow (Allowed s).
Definition decision_explicit_deny (s : ToolAccessScope) := mkDecision Block (ExplicitDeny s).
Definition decision_not_allowed (s : ToolAccessScope) := mkDecision Block (NotAllowed s).

Inductive RoleFallbackMode := UseGlobal | DenyWhenRolePoliciesConfigured.

Record ToolAccessEvaluator := mkEvaluator {
  global : ToolPatternPolicy;
  role_policies : gmap string ToolPatternPolicy;
  role_fallback_mode : RoleFallbackMode;
}.

(** [MatchListOrWildcard] of the declarative configuration. *)
Inductive MatchListOrWildcard := Wildcard | Explicit (values : list string).

Definition from_match_list (allowed_tools : MatchListOrWildcard) : ToolAccessEvaluator :=
  {| global := mkPatterns (match allowed_tools with
                           | Wildcard => ["*"%string]
                           | Explicit values => values
                           end) [];
     role_policies := ∅; role_fallback_mode := UseGlobal |}.

Section config.
Context {Number : Type}.

(** [role_policies_from_value]: collected into a hash map, entry by entry. *)
Definition role_policy (allowed_key denied_key : string) (config : Value Number) :
    ToolPatternPolicy :=
  mkPatterns (default [] (string_array <$> json_get config allowed_key))
             (default [] (string_array <$> json_get config denied_key)).
Definition role_policies_from_value (roles_value : option (Value Number))
    (allowed_key denied_key : string) : gmap string ToolPatternPolicy :=
  match roles_value ≫= json_as_object with
  | None => ∅
  | Some roles =>
      foldl (λ m kv, <[kv.1 := role_policy allowed_key denied_key kv.2]> m) ∅ roles
  end.

Definition from_rbac_config (config : option (list (string * Value Number))) :
    ToolAccessEvaluator :=
  {| global := no_patterns;
     role_policies := role_policies_from_value (config ≫= λ t, map_get t "roles")
                        "allowed_tools" "denied_tools";
     role_fallback_mode := DenyWhenRolePoliciesConfigured |}.

Definition from_agent_firewall_config (config : option (list (string * Value Number))) :
    ToolAccessEvaluator :=
  {| global := mkPatterns
       (default ["*"%string] (string_array <$> (config ≫= λ t, map_get t "allowed_tools")))
       (default [] (string_array <$> (config ≫= λ t, map_get t "blocked_tools")));
     role_policies := role_policies_from_value
                        (get_in (config ≫= λ t, map_get t "tools") "roles") "allowed" "denied";
     role_fallback_mode := UseGlobal |}.
End config.

(** The part of [evaluate] after the role. *)
Definition evaluate_global (e : ToolAccessEvaluator) (tool_name : string) : ToolAccessDecision :=
  if matches_any (denied (global e)) tool_name then decision_explicit_deny GlobalScope
  else if matches_any (allowed (global e)) tool_name then decision_allowed GlobalScope
  else decision_not_allowed GlobalScope.

(** [ToolAccessEvaluator::evaluate]. *)
Definition evaluate (e : ToolAccessEvaluator) (tool_name : string) (role : option string) :
    ToolAccessDecision :=
  match role with
  | None => evaluate_global e tool_name
  | Some role_name =>
      match role_policies e !! role_name with
      | Some policy =>
          if matches_any (denied policy) tool_name then decision_explicit_deny RoleScope
          else match allowed policy with
               | _ :: _ =>
                   if matches_any (allowed policy) tool_name then decision_allowed RoleScope
                   else decision_not_allowed RoleScope
               | [] =>
                   match role_fallback_mode e with
                   | DenyWhenRolePoliciesConfigured => decision_not_allowed RoleScope
                   | UseGlobal => evaluate_global e tool_name
                   end
               end
      | None =>
          match role_fallback_mode e with
          | DenyWhenRolePoliciesConfigured =>
              if bool_decide (role_policies e = ∅) then evaluate_global e tool_name
              else decision_not_allowed RoleScope
          | UseGlobal => evaluate_global e tool_name
          end
      end
  end.

Definition allows (e : ToolAccessEvaluator) (tool_name : string) (role : option string) : bool :=
  bool_decide (verdict (evaluate e tool_name role) = Allow).

Definition global_allowed_patterns (e : ToolAccessEvaluator) : list string := allowed (global e).
Definition role_allowed_patterns (e : ToolAccessEvaluator) (role : string) : list string :=
  default [] (allowed <$> role_policies e !! role).

(** ** What the evaluator promises *)

(** Some pattern of the list means the tool. *)
Definition covered (patterns : list string) (tool : string) : Prop :=
  ∃ pattern, pattern ∈ patterns ∧ globs pattern tool.

Lemma matches_any_covered patterns tool : matches_any patterns tool = true ↔ covered patterns tool.
Proof.
  unfold matches_any, covered. rewrite existsb_exists.
  by setoid_rewrite glob_match_globs; setoid_rewrite list_elem_of_In.
Qed.

#[export] Instance covered_dec patterns tool : Decision (covered patterns tool).
Proof.
  destruct (matches_any patterns tool) eqn:E; [left|right].
  - by apply matches_any_covered.
  - intros Hc%matches_any_covered. congruence.
Defined.

Lemma matches_any_decide patterns tool :
  matches_any patterns tool = bool_decide (covered patterns tool).
Proof.
  apply eq_true_iff_eq. by rewrite matches_any_covered, bool_decide_eq_true.
Qed.

(** The patterns that decide for a role: those of its own policy, and none or
    the global ones where the role has no say. *)
Definition effective (e : ToolAccessEvaluator) (role : option string) : ToolPatternPolicy :=
  match role with
  | None => global e
  | Some r =>
      match role_policies e !! r, role_fallback_mode e with
      | Some (mkPatterns [] d), UseGlobal => mkPatterns (allowed (global e)) (d ++ denied (global e))
      | Some p, _ => p
      | None, UseGlobal => global e
      | None, DenyWhenRolePoliciesConfigured =>
          if bool_decide (role_policies e = ∅) then global e else no_patterns
      end
  end.

Lemma covered_app p q tool : covered (p ++ q) tool ↔ covered p tool ∨ covered q tool.
Proof. unfold covered. set_solver. Qed.
Lemma covered_nil tool : ¬ covered [] tool.
Proof. intros (?&?%elem_of_nil&_). done. Qed.

Ltac verdict_tauto := simpl; intuition (discriminate || done).

Lemma evaluate_global_allows e tool :
  verdict (evaluate_global e tool) = Allow ↔
  covered (allowed (global e)) tool ∧ ¬ covered (denied (global e)) tool.
Proof.
  unfold evaluate_global. rewrite !matches_any_decide. repeat case_bool_decide; verdict_tauto.
Qed.

(** Deny wins over allow, and what nobody allows is refused. *)
Lemma allows_effective e tool role :
  allows e tool role = true ↔
  covered (allowed (effective e role)) tool ∧ ¬ covered (denied (effective e role)) tool.
Proof.
  unfold allows. rewrite bool_decide_eq_true. unfold evaluate, effective.
  destruct role as [r|]; [|apply evaluate_global_allows].
  destruct (role_policies e !! r) as [[[|a al] d]|] eqn:Er; cbn [allowed denied].
  - rewrite matches_any_decide. destruct (role_fallback_mode e); simpl.
    + rewrite covered_app. case_bool_decide; [verdict_tauto|].
      rewrite evaluate_global_allows. verdict_tauto.
    + case_bool_decide; simpl; pose proof (covered_nil tool); verdict_tauto.
  - rewrite !matches_any_decide. repeat case_bool_decide; verdict_tauto.
  - destruct (role_fallback_mode e); [apply evaluate_global_allows|].
    case_bool_decide; [apply evaluate_global_allows|].
    pose proof (covered_nil tool). simpl. verdict_tauto.
Qed.

(** ** Theorems *)

(** The greedy matcher is correct: it accepts a text exactly when the text
    arises from the pattern by replacing every [*] with some text. *)
Theorem glob_match_exact pattern text : glob_match pattern text = true ↔ globs pattern text.
Proof. apply glob_match_globs. Qed.

(** A tool is allowed for a role exactly when some pattern that speaks for
    the role covers it and none that speaks for the role denies it: the role's
    own patterns, the global ones where a role without allow patterns falls
    back to them (its own denials still hold), and none at all for an unknown
    role of an RBAC policy with roles. *)
Theorem tool_access_exact e tool role :
  allows e tool role = true ↔
  covered (allowed (effective e role)) tool ∧ ¬ covered (denied (effective e role)) tool.
Proof. apply allows_effective. Qed.
