(* ===== verification/Rbac.v ===== *)
(** * Rbac: role-based access control (src/src/policy/evaluator.rs)

    [evaluate_rbac] decides a request from its configuration section, the
    request body, the headers and the verified identity of the caller.  Headers
    are the function [header_get] ([None] when the header is absent, [Some None]
    when its value is not visible ASCII); the detector of health information
    is the argument [detect_phi], of which the number of findings matters. *)

From Stdlib Require Import ZArith Ascii String.
From stdpp Require Import base gmap strings list sorting.
From S2P Require Import Prelude Text Lww Policy ToolAccess.

(** [s1 + "\n" + s2 ...]: [Vec<&str>::join]. *)
Fixpoint join_lines (l : list string) : string :=
  match l with
  | [] => EmptyString
  | [s] => s
  | s :: l => s ++ String (ascii_of_nat 10) (join_lines l)
  end.

(** [Vec::dedup]: equal neighbours. *)
Fixpoint dedup_neighbours (l : list string) : list string :=
  match l with
  | a :: ((b :: _) as rest) =>
      if String.eqb a b then dedup_neighbours rest else a :: dedup_neighbours rest
  | _ => l
  end.

(** ** Sensitivity of data *)
Definition normalize_sensitivity (value : string) : option string :=
  let v := to_ascii_lowercase (trim value) in
  if String.eqb v "public" then Some "public"%string
  else if String.eqb v "internal" then Some "internal"%string
  else if String.eqb v "confidential" then Some "confidential"%string
  else if String.eqb v "restricted" then Some "restricted"%string
  else None.

Definition sensitivity_rank (value : string) : Z :=
  let v := to_ascii_lowercase (trim value) in
  if String.eqb v "public" then 0
  else if String.eqb v "internal" then 1
  else if String.eqb v "confidential" then 2
  else if String.eqb v "restricted" then 3
  else 0.

(** ** Headers *)
Section headers.
Variable header_get : string → option (option string).

Definition header_missing_or_empty (name : string) : bool :=
  match header_get name with
  | Some (Some text) => is_empty (trim text)
  | _ => true
  end.

(** The characters of a valid identity header. *)
Definition identity_char (a : ascii) : bool :=
  let n := N_of_ascii a in
  ((48 <=? n) && (n <=? 57) || (65 <=? n) && (n <=? 90) || (97 <=? n) && (n <=? 122)
   || (n =? 45) || (n =? 95) || (n =? 46))%N.
Fixpoint all_chars (f : ascii → bool) (s : string) : bool :=
  match s with EmptyString => true | String a s => f a && all_chars f s end.

Definition header_present_but_invalid_identity (name : string) : bool :=
  if negb (String.eqb name "X-User-ID" || String.eqb name "X-Org-ID"
           || String.eqb name "X-User-Role") then false
  else match header_get name with
       | None => false
       | Some None => true
       | Some (Some text) =>
           let text := trim text in
           if is_empty text then false else negb (all_chars identity_char text)
       end.
End headers.

Section rbac.
Context {Number : Type} (num : Z → Number).
Context (detect_phi : string → nat).
Abbreviation value := (Value Number).
Abbreviation table := (list (string * value)).

Definition strs (l : list string) : value := Arr (map Str l).
Definition opt_str (o : option string) : value :=
  match o with Some s => Str s | None => Null end.

(** ** What a request asks for *)

(** The name of one entry of [tools]: [function.name], or [name]. *)
Definition tool_name (tool : value) : option string :=
  let name := match get_in (json_get tool "function") "name" ≫= json_as_str with
              | Some n => Some n
              | None => json_get tool "name" ≫= json_as_str
              end in
  name ≫= λ n, let n := trim n in if is_empty n then None else Some n.
Definition extract_tool_names (request : option value) : list string :=
  match get_in request "tools" ≫= json_as_array with
  | None => []
  | Some tools => omap tool_name tools
  end.

Definition extract_requested_sensitivity (request : option value) : option string :=
  (get_in (get_in request "verdictan") "data_sensitivity" ≫= json_as_str)
    ≫= normalize_sensitivity.

Definition extract_joined_message_text (request : option value) : string :=
  match get_in request "messages" ≫= json_as_array with
  | None => EmptyString
  | Some messages => join_lines (omap (λ m, json_get m "content" ≫= json_as_str) messages)
  end.

(** ** The configuration *)
Definition require_auth (cfg : table) : bool :=
  default true (map_get cfg "require_auth" ≫= json_as_bool).
Definition deny_if_missing (cfg : table) : list string :=
  default [] (string_array <$> map_get cfg "deny_if_missing").
Definition roles_table (cfg : table) : table :=
  default [] (map_get cfg "roles" ≫= json_as_object).

(** The roles of the caller, from verified claims only. *)
Definition verified_roles (identity : option RequestIdentity) : list string :=
  match identity with
  | None => []
  | Some ctx => filter (λ r, is_empty r = false) (trim <$> roles ctx)
  end.

(** ** The loops *)

(** The roles in order: the first explicit denial ends the loop. *)
Fixpoint tool_decision (e : ToolAccessEvaluator) (tool : string) (rs : list string)
    (ok : bool) : option string * bool :=
  match rs with
  | [] => (None, ok)
  | r :: rs =>
      match reason (evaluate e tool (Some r)) with
      | ExplicitDeny _ => (Some r, ok)
      | Allowed _ => tool_decision e tool rs true
      | NotAllowed _ => tool_decision e tool rs ok
      end
  end.

Definition rbac_block (code : string) (d : option value) : PolicyResult Number :=
  mkPolicyResult "rbac" "input" Block code d None.

Definition tool_refusal (rs : list string) (tool : string) (role : option string)
    (cause : string) : PolicyResult Number :=
  rbac_block "rbac.tool_not_allowed"
    (Some (Obj [("cause", Str cause); ("role", opt_str role); ("roles", strs rs);
                ("tool", Str tool)]%string)).

Fixpoint check_tools (e : ToolAccessEvaluator) (rs tools : list string) :
    option (PolicyResult Number) :=
  match tools with
  | [] => None
  | tool :: tools =>
      match tool_decision e tool rs false with
      | (Some role, _) => Some (tool_refusal rs tool (Some role) "denied")
      | (None, false) => Some (tool_refusal rs tool (head rs) "not_allowed")
      | (None, true) => check_tools e rs tools
      end
  end.

Record AccessState := mkAccess {
  saw_role_cfg : bool;
  permitted : bool;
  limiting_role : option string;
  limiting_max : option string;
}.
Fixpoint data_access_loop (tbl : table) (requested : string) (rs : list string)
    (st : AccessState) : AccessState :=
  match rs with
  | [] => st
  | r :: rs =>
      match map_get tbl r ≫= json_as_object with
      | None => data_access_loop tbl requested rs st
      | Some role_cfg =>
          let max := default "public"%string (map_get role_cfg "max_sensitivity" ≫= json_as_str) in
          if (sensitivity_rank requested <=? sensitivity_rank max)%Z
          then mkAccess true true (limiting_role st) (limiting_max st)
          else data_access_loop tbl requested rs (mkAccess true (permitted st) (Some r) (Some max))
      end
  end.

Definition check_data_access (cfg : table) (request : option value) (rs : list string) :
    option (PolicyResult Number) :=
  match map_get cfg "data_access" ≫= json_as_object with
  | None => None
  | Some tbl =>
      let requested := default "public"%string (extract_requested_sensitivity request) in
      let st := data_access_loop tbl requested rs (mkAccess false false None None) in
      if saw_role_cfg st && negb (permitted st) then
        Some (rbac_block "rbac.data_access_denied"
                (Some (Obj [("max_sensitivity", Str (default "public" (limiting_max st)));
                            ("requested_sensitivity", Str requested);
                            ("role", opt_str (limiting_role st)); ("roles", strs rs)]%string)))
      else None
  end.

Definition check_minimum_necessary (cfg : table) (request : option value) (rs : list string) :
    option (PolicyResult Number) :=
  match map_get cfg "minimum_necessary" ≫= json_as_object with
  | None => None
  | Some mn =>
      if negb (default false (map_get mn "enabled" ≫= json_as_bool)) then None else
      let allowed_roles :=
        default [] (string_array <$> map_get mn "allowed_phi_roles") in
      let role_permitted := existsb (λ r, existsb (String.eqb r) allowed_roles) rs in
      if match rs with [] => false | _ => true end
         && match allowed_roles with [] => false | _ => true end
         && negb role_permitted
      then
        let text := extract_joined_message_text request in
        if is_empty text then None
        else if (detect_phi text =? 0)%nat then None
        else Some (rbac_block "rbac.minimum_necessary"
                     (Some (Obj [("phi_detections", Num (num (Z.of_nat (detect_phi text))));
                                 ("role", opt_str (head rs)); ("roles", strs rs)]%string)))
      else None
  end.

(** ** [evaluate_rbac] *)
Definition sorted_names (l : list string) : list string :=
  dedup_neighbours (merge_sort key_le l).

Definition rbac_allowed (rs : list string) (identity : option RequestIdentity) :
    PolicyResult Number :=
  mkPolicyResult "rbac" "input" Allow "rbac.allowed"
    (match head rs with
     | None => None
     | Some role =>
         Some (Obj [("org_id", opt_str (identity_org_id <$> identity));
                    ("proof_method", opt_str (proof_method_str ∘ proof_method <$> identity));
                    ("role", Str role); ("roles", strs rs);
                    ("subject", opt_str (subject <$> identity))]%string)
     end) None.

Definition evaluate_rbac (config : option value) (request : option value)
    (header_get : string → option (option string)) (identity : option RequestIdentity) :
    PolicyResult Number :=
  match config ≫= json_as_object with
  | None => rbac_block "policy.rbac_configuration_required" None
  | Some cfg =>
      let names := deny_if_missing cfg in
      let missing := filter (λ n, header_missing_or_empty header_get n = true) names
                     ++ (if require_auth cfg && negb (bool_decide (is_Some identity))
                         then ["verified_policy_identity"%string] else []) in
      let missing := sorted_names missing in
      match missing with
      | _ :: _ => rbac_block "rbac.missing_identity" (Some (Obj [("missing_headers", strs missing)]%string))
      | [] =>
          let rs := verified_roles identity in
          match roles_table cfg, rs with
          | _ :: _, [] =>
              rbac_block "rbac.missing_role" (Some (Obj [("required", Str "verified_role_claim")]%string))
          | _, _ =>
              let invalid := sorted_names
                (filter (λ n, header_present_but_invalid_identity header_get n = true) names) in
              match invalid with
              | _ :: _ =>
                  rbac_block "rbac.invalid_identity" (Some (Obj [("invalid_headers", strs invalid)]%string))
              | [] =>
                  let tools := match rs with [] => None | _ =>
                    check_tools (from_rbac_config (Some cfg)) rs (extract_tool_names request) end in
                  match tools with
                  | Some r => r
                  | None =>
                      match check_data_access cfg request rs with
                      | Some r => r
                      | None =>
                          match check_minimum_necessary cfg request rs with
                          | Some r => r
                          | None => rbac_allowed rs identity
                          end
                      end
                  end
              end
          end
      end
  end.

(** ** What the checks mean *)

Lemma dedup_neighbours_nil l : dedup_neighbours l = [] ↔ l = [].
Proof.
  induction l as [|a [|b l] IH]; [done..|]. split; [|done].
  cbn [dedup_neighbours]. destruct (String.eqb a b); [|done]. intros E. by apply IH in E.
Qed.
Lemma sorted_names_nil l : sorted_names l = [] ↔ l = [].
Proof.
  unfold sorted_names. rewrite dedup_neighbours_nil. split; [|by intros ->].
  intros E. apply Permutation_nil. rewrite <- E. apply merge_sort_Permutation.
Qed.
Lemma filter_nil_none {A} (P : A → Prop) `{∀ x, Decision (P x)} l :
  filter P l = [] ↔ ∀ x, x ∈ l → ¬ P x.
Proof.
  rewrite <- Forall_forall. split.
  - intros E. apply Forall_forall. intros x Hx Hp.
    assert (x ∈ filter P l) as Hf by by apply list_elem_of_filter. rewrite E in Hf. by apply elem_of_nil in Hf.
  - induction 1 as [|x l Hx Hl IH]; [done|]. by rewrite filter_cons_False.
Qed.

(** A role denies a tool explicitly exactly when its patterns do. *)
Lemma explicit_deny_effective e tool role :
  (∃ sc, reason (evaluate e tool role) = ExplicitDeny sc) ↔
  covered (denied (effective e role)) tool.
Proof.
  assert (Hg : (∃ sc, reason (evaluate_global e tool) = ExplicitDeny sc)
               ↔ covered (denied (global e)) tool).
  { unfold evaluate_global. rewrite !matches_any_decide. repeat case_bool_decide; simpl; naive_solver. }
  unfold evaluate, effective. destruct role as [r|]; [|done].
  pose proof (covered_nil tool) as Hn.
  destruct (role_policies e !! r) as [[[|a al] d]|]; cbn [allowed denied].
  - rewrite matches_any_decide. destruct (role_fallback_mode e); cbn [allowed denied].
    + rewrite covered_app, <- Hg. case_bool_decide; simpl; naive_solver.
    + case_bool_decide; simpl; naive_solver.
  - rewrite !matches_any_decide. repeat case_bool_decide; simpl; naive_solver.
  - destruct (role_fallback_mode e); [done|]. case_bool_decide; [done|]. simpl. naive_solver.
Qed.

Lemma allowed_reason e tool role :
  (∃ sc, reason (evaluate e tool role) = Allowed sc) ↔ allows e tool role = true.
Proof.
  unfold allows. rewrite bool_decide_eq_true. unfold evaluate, evaluate_global.
  repeat (case_match; simpl); naive_solver.
Qed.

(** A tool is permitted to a caller with the roles [rs]: one of them allows it
    and none denies it. *)
Definition tool_permitted (e : ToolAccessEvaluator) (rs : list string) (tool : string) : Prop :=
  (∃ r, r ∈ rs ∧ covered (allowed (effective e (Some r))) tool)
  ∧ ∀ r, r ∈ rs → ¬ covered (denied (effective e (Some r))) tool.

Lemma tool_decision_spec e tool rs ok :
  tool_decision e tool rs ok = (None, true) ↔
  (ok = true ∨ ∃ r, r ∈ rs ∧ covered (allowed (effective e (Some r))) tool)
  ∧ ∀ r, r ∈ rs → ¬ covered (denied (effective e (Some r))) tool.
Proof.
  revert ok. induction rs as [|r rs IH]; intros ok; cbn [tool_decision].
  { split; [intros [= ->]; split; [by left|by intros ? ?%elem_of_nil]|].
    by intros [[->|(?&?%elem_of_nil&_)] _]. }
  pose proof (explicit_deny_effective e tool (Some r)) as Hd.
  pose proof (allowed_reason e tool (Some r)) as Ha. rewrite allows_effective in Ha.
  setoid_rewrite elem_of_cons.
  destruct (reason (evaluate e tool (Some r))) as [sc|sc|sc].
  - rewrite IH. destruct (proj1 Ha (ex_intro _ sc eq_refl)) as [Hc Hn]. split.
    + intros [_ Hall]. split; [right; exists r; auto|]. intros ? [->|?]; auto.
    + intros [_ Hall]. split; [by left|auto].
  - assert (Hok := proj1 Hd (ex_intro _ sc eq_refl)). split; [done|].
    intros [_ Hall]. by destruct (Hall r (or_introl eq_refl)).
  - rewrite IH.
    assert (Hna : ¬ covered (denied (effective e (Some r))) tool) by (intros [? [=]]%Hd).
    assert (Hnb : ¬ covered (allowed (effective e (Some r))) tool)
      by (intros Hc; by destruct (proj2 Ha (conj Hc Hna)) as [? [=]]).
    split.
    + intros [Ho Hall]. split; [destruct Ho as [?|(r'&?&?)]; [by left|right; exists r'; auto]|].
      intros ? [->|?]; auto.
    + intros [Ho Hall]. split; [|auto].
      destruct Ho as [?|(r'&[->|?]&?)]; [by left|done|right; exists r'; auto].
Qed.

Lemma check_tools_none e rs tools :
  check_tools e rs tools = None ↔ ∀ tool, tool ∈ tools → tool_permitted e rs tool.
Proof.
  induction tools as [|tool tools IH]; cbn [check_tools].
  { split; [by intros _ ? ?%elem_of_nil|done]. }
  setoid_rewrite elem_of_cons. pose proof (tool_decision_spec e tool rs false) as Hs.
  assert (Hp : tool_decision e tool rs false = (None, true) ↔ tool_permitted e rs tool).
  { rewrite Hs. unfold tool_permitted. naive_solver. }
  destruct (tool_decision e tool rs false) as [[r|] [|]]; naive_solver.
Qed.

(** The highest sensitivity a role may ask for, where it is configured. *)
Definition role_max (tbl : table) (r : string) : option string :=
  (λ c, default "public"%string (map_get c "max_sensitivity" ≫= json_as_str))
    <$> (map_get tbl r ≫= json_as_object).

Definition data_permitted (cfg : table) (request : option value) (rs : list string) : Prop :=
  ∀ tbl, map_get cfg "data_access" ≫= json_as_object = Some tbl →
  (∀ r, r ∈ rs → role_max tbl r = None)
  ∨ ∃ r m, r ∈ rs ∧ role_max tbl r = Some m
      ∧ (sensitivity_rank (default "public"%string (extract_requested_sensitivity request))
         <= sensitivity_rank m)%Z.

Lemma data_access_loop_spec tbl requested rs st :
  permitted st = false →
  saw_role_cfg (data_access_loop tbl requested rs st)
    && negb (permitted (data_access_loop tbl requested rs st)) = false ↔
  (saw_role_cfg st = false ∧ ∀ r, r ∈ rs → role_max tbl r = None)
  ∨ ∃ r m, r ∈ rs ∧ role_max tbl r = Some m
      ∧ (sensitivity_rank requested <= sensitivity_rank m)%Z.
Proof.
  revert st. induction rs as [|r rs IH]; intros st Hp; cbn [data_access_loop].
  { rewrite Hp, andb_true_r. split; [intros ->; left; split; [done|by intros ? ?%elem_of_nil]|].
    by intros [[-> _]|(?&?&?%elem_of_nil&_)]. }
  setoid_rewrite elem_of_cons. unfold role_max at 1 2.
  destruct (map_get tbl r ≫= json_as_object) as [c|] eqn:Ec; simpl.
  - set (mx := default "public"%string (map_get c "max_sensitivity" ≫= json_as_str)).
    assert (Hr : role_max tbl r = Some mx) by (unfold role_max; by rewrite Ec).
    destruct (Z.leb_spec (sensitivity_rank requested) (sensitivity_rank mx)); simpl.
    + split; [intros _; right|done]. exists r, mx. auto.
    + rewrite IH by done. simpl. split.
      * intros [[[=] _]|(r'&m&?&?&?)]. right. exists r', m. auto.
      * intros [[_ Hn]|(r'&m&[->|?]&Hm&?)].
        -- specialize (Hn r (or_introl eq_refl)). by rewrite Ec in Hn.
        -- rewrite Ec in Hm. injection Hm as <-. unfold mx in *. lia.
        -- right. exists r', m. auto.
  - rewrite IH by done. assert (Hr : role_max tbl r = None) by (unfold role_max; by rewrite Ec).
    split.
    + intros [[? Hn]|(r'&m&?&?&?)]; [left|right; exists r', m; auto].
      split; [done|]. intros r' [->|?]; [by rewrite Ec|by apply Hn].
    + intros [[? Hn]|(r'&m&[->|?]&Hm&?)]; [left|by rewrite Ec in Hm|right; exists r', m; auto].
      split; [done|]. intros r' ?. apply Hn. by right.
Qed.

Lemma check_data_access_none cfg request rs :
  check_data_access cfg request rs = None ↔ data_permitted cfg request rs.
Proof.
  unfold check_data_access, data_permitted.
  destruct (map_get cfg "data_access" ≫= json_as_object) as [tbl|]; [|naive_solver].
  pose proof (data_access_loop_spec tbl (default "public"%string (extract_requested_sensitivity request))
                rs (mkAccess false false None None) eq_refl) as Hl. simpl in Hl.
  destruct (saw_role_cfg _ && _); naive_solver.
Qed.

(** Health information in the messages is for the configured roles only. *)
Definition phi_permitted (cfg : table) (request : option value) (rs : list string) : Prop :=
  ∀ mn, map_get cfg "minimum_necessary" ≫= json_as_object = Some mn →
  map_get mn "enabled" ≫= json_as_bool = Some true →
  let allowed_roles := default [] (string_array <$> map_get mn "allowed_phi_roles") in
  let text := extract_joined_message_text request in
  rs = [] ∨ allowed_roles = [] ∨ (∃ r, r ∈ rs ∧ r ∈ allowed_roles)
  ∨ is_empty text = true ∨ detect_phi text = 0%nat.

Lemma existsb_common (l1 l2 : list string) :
  existsb (λ r, existsb (String.eqb r) l2) l1 = true ↔ ∃ r, r ∈ l1 ∧ r ∈ l2.
Proof.
  rewrite existsb_exists. setoid_rewrite existsb_exists. setoid_rewrite String.eqb_eq.
  setoid_rewrite <- list_elem_of_In. naive_solver.
Qed.

Lemma check_minimum_necessary_none cfg request rs :
  check_minimum_necessary cfg request rs = None ↔ phi_permitted cfg request rs.
Proof.
  unfold check_minimum_necessary, phi_permitted.
  destruct (map_get cfg "minimum_necessary" ≫= json_as_object) as [mn|]; [|naive_solver].
  destruct (map_get mn "enabled" ≫= json_as_bool) as [[|]|] eqn:Ee; simpl; [|naive_solver..].
  set (ar := default [] (string_array <$> map_get mn "allowed_phi_roles")).
  pose proof (existsb_common rs ar) as Hx.
  destruct rs as [|r rs']; [naive_solver|]. destruct ar as [|a ar'] eqn:Ear.
  { split; [|done]. intros _ mn' [= <-] _. fold ar. rewrite Ear. naive_solver. }
  destruct (existsb _ (r :: rs')); simpl.
  { split; [|done]. intros _ mn' [= <-] _. fold ar. rewrite Ear. right; right; left. by apply Hx. }
  destruct (is_empty (extract_joined_message_text request)) eqn:Et; [naive_solver|].
  destruct (Nat.eqb_spec (detect_phi (extract_joined_message_text request)) 0); [naive_solver|].
  split; [done|]. intros Hp. specialize (Hp mn eq_refl Ee). fold ar in Hp. rewrite Ear in Hp.
  destruct Hp as [?|[?|[Hc%Hx|[?|?]]]]; congruence.
Qed.

(** The identity checks pass: no required header is missing, and an identity is
    verified where one is required. *)
Lemma missing_nil cfg header_get (identity : option RequestIdentity) :
  sorted_names (filter (λ n, header_missing_or_empty header_get n = true) (deny_if_missing cfg)
     ++ (if require_auth cfg && negb (bool_decide (is_Some identity))
         then ["verified_policy_identity"%string] else [])) = [] ↔
  (require_auth cfg = true → is_Some identity)
  ∧ ∀ name, name ∈ deny_if_missing cfg → header_missing_or_empty header_get name = false.
Proof.
  rewrite sorted_names_nil, app_nil, filter_nil_none. setoid_rewrite not_true_iff_false.
  assert (Hi : (if require_auth cfg && negb (bool_decide (is_Some identity))
                then ["verified_policy_identity"%string] else []) = []
               ↔ (require_auth cfg = true → is_Some identity)).
  { destruct (require_auth cfg); simpl; [|naive_solver]. case_bool_decide; naive_solver. }
  rewrite Hi. naive_solver.
Qed.

Lemma invalid_nil cfg header_get :
  sorted_names (filter (λ n, header_present_but_invalid_identity header_get n = true)
                  (deny_if_missing cfg)) = [] ↔
  ∀ name, name ∈ deny_if_missing cfg → header_present_but_invalid_identity header_get name = false.
Proof.
  rewrite sorted_names_nil, filter_nil_none. by setoid_rewrite not_true_iff_false.
Qed.

(** Every check refuses with a block. *)
Lemma check_tools_blocks e rs tools r : check_tools e rs tools = Some r → pr_verdict r = Block.
Proof.
  induction tools as [|t tools IH]; cbn [check_tools]; [done|].
  destruct (tool_decision e t rs false) as [[?|] [|]]; [by intros [= <-]..|done|by intros [= <-]].
Qed.
Lemma check_data_access_blocks cfg request rs r :
  check_data_access cfg request rs = Some r → pr_verdict r = Block.
Proof. unfold check_data_access. repeat case_match; by intros [= <-]. Qed.
Lemma check_minimum_necessary_blocks cfg request rs r :
  check_minimum_necessary cfg request rs = Some r → pr_verdict r = Block.
Proof. unfold check_minimum_necessary. repeat case_match; by intros [= <-]. Qed.

(** The checks on the content of the request. *)
Lemma content_checks_allow cfg request rs identity :
  pr_verdict
    (match (match rs with [] => None | _ =>
              check_tools (from_rbac_config (Some cfg)) rs (extract_tool_names request) end) with
     | Some r => r
     | None =>
         match check_data_access cfg request rs with
         | Some r => r
         | None => match check_minimum_necessary cfg request rs with
                   | Some r => r
                   | None => rbac_allowed rs identity
                   end
         end
     end) = Allow ↔
  (rs ≠ [] → ∀ tool, tool ∈ extract_tool_names request →
     tool_permitted (from_rbac_config (Some cfg)) rs tool)
  ∧ data_permitted cfg request rs ∧ phi_permitted cfg request rs.
Proof.
  set (ct := match rs with [] => None | _ => _ end).
  assert (Hct : ct = None ↔ (rs ≠ [] → ∀ tool, tool ∈ extract_tool_names request →
                   tool_permitted (from_rbac_config (Some cfg)) rs tool)).
  { subst ct. destruct rs; [naive_solver|]. rewrite check_tools_none. naive_solver. }
  assert (Hb : ∀ r, ct = Some r → pr_verdict r = Block).
  { subst ct. intros r. destruct rs; [done|]. apply check_tools_blocks. }
  rewrite <- Hct, <- check_data_access_none, <- check_minimum_necessary_none. clearbody ct.
  destruct ct as [r|]; [rewrite (Hb r eq_refl); naive_solver|].
  destruct (check_data_access _ _ _) as [r|] eqn:Ed.
  { rewrite (check_data_access_blocks _ _ _ _ Ed). naive_solver. }
  destruct (check_minimum_necessary _ _ _) as [r|] eqn:Em.
  { rewrite (check_minimum_necessary_blocks _ _ _ _ Em). naive_solver. }
  done.
Qed.

(** The verdict of [evaluate_rbac] by its checks. *)
Lemma rbac_allow_iff config request header_get identity :
  pr_verdict (evaluate_rbac config request header_get identity) = Allow ↔
  ∃ cfg, config = Some (Obj cfg)
    ∧ (require_auth cfg = true → is_Some identity)
    ∧ (∀ name, name ∈ deny_if_missing cfg →
         header_missing_or_empty header_get name = false
         ∧ header_present_but_invalid_identity header_get name = false)
    ∧ (roles_table cfg ≠ [] → verified_roles identity ≠ [])
    ∧ (verified_roles identity ≠ [] → ∀ tool, tool ∈ extract_tool_names request →
         tool_permitted (from_rbac_config (Some cfg)) (verified_roles identity) tool)
    ∧ data_permitted cfg request (verified_roles identity)
    ∧ phi_permitted cfg request (verified_roles identity).
Proof.
  unfold evaluate_rbac. destruct config as [[| | | | |cfg]|]; simpl;
    try (split; [done|]; by intros (?&[=]&_)).
  transitivity ((require_auth cfg = true → is_Some identity)
    ∧ (∀ name, name ∈ deny_if_missing cfg →
         header_missing_or_empty header_get name = false
         ∧ header_present_but_invalid_identity header_get name = false)
    ∧ (roles_table cfg ≠ [] → verified_roles identity ≠ [])
    ∧ (verified_roles identity ≠ [] → ∀ tool, tool ∈ extract_tool_names request →
         tool_permitted (from_rbac_config (Some cfg)) (verified_roles identity) tool)
    ∧ data_permitted cfg request (verified_roles identity)
    ∧ phi_permitted cfg request (verified_roles identity)).
  2: { split; [by exists cfg|]. by intros (?&[= <-]&?). }
  rewrite <- content_checks_allow with (identity := identity).
  pose proof (missing_nil cfg header_get identity) as Hm.
  pose proof (invalid_nil cfg header_get) as Hv.
  destruct (sorted_names (_ ++ _)) as [|x l].
  2: { split; [done|]. intros (HA&HB&_). discriminate (proj2 Hm). split; [done|]. by intros ? [? _]%HB. }
  destruct (proj1 Hm eq_refl) as [HA HB]. clear Hm.
  assert (Hroles : (roles_table cfg ≠ [] → verified_roles identity ≠ []) ∨
    (roles_table cfg ≠ [] ∧ verified_roles identity = [])).
  { destruct (roles_table cfg), (verified_roles identity); auto. }
  destruct Hroles as [Hroles|[Hr Hvr]].
  2: { destruct (roles_table cfg); [done|]. rewrite Hvr. split; [done|]. by intros (_&_&[]&_). }
  assert (Hmatch : ∀ X Y : PolicyResult Number,
    match roles_table cfg, verified_roles identity with _ :: _, [] => X | _, _ => Y end = Y).
  { intros X Y. destruct (roles_table cfg), (verified_roles identity); try done. by destruct Hroles. }
  rewrite Hmatch. clear Hmatch. destruct (sorted_names (filter _ _)) as [|x l].
  - split; [|by intros (_&_&_&?)]. intros Hc. split_and!; try done.
    intros name Hn. split; [by apply HB|]. by apply Hv.
  - split; [done|]. intros (_&HB'&_). discriminate (proj2 Hv). by intros ? [_ ?]%HB'.
Qed.

(** ** Theorems *)

(** [evaluate_rbac] allows a request exactly when all of this holds: there
    is a configuration; an identity is verified unless the configuration waives
    it; every required header is present, not blank and well formed; when roles
    are configured, the caller has a verified role; each tool of the request is
    allowed by one of the caller's roles and denied by none; the requested
    sensitivity is within the limit of one of the roles that have a limit; and
    health information goes to the configured roles only. *)
Theorem rbac_allow_exact config request header_get identity :
  pr_verdict (evaluate_rbac config request header_get identity) = Allow ↔
  ∃ cfg, config = Some (Obj cfg)
    ∧ (require_auth cfg = true → is_Some identity)
    ∧ (∀ name, name ∈ deny_if_missing cfg →
         header_missing_or_empty header_get name = false
         ∧ header_present_but_invalid_identity header_get name = false)
    ∧ (roles_table cfg ≠ [] → verified_roles identity ≠ [])
    ∧ (verified_roles identity ≠ [] → ∀ tool, tool ∈ extract_tool_names request →
         tool_permitted (from_rbac_config (Some cfg)) (verified_roles identity) tool)
    ∧ data_permitted cfg request (verified_roles identity)
    ∧ phi_permitted cfg request (verified_roles identity).
Proof. apply rbac_allow_iff. Qed.

Lemma no_role_rules cfg r :
  roles_table cfg = [] → effective (from_rbac_config (Some cfg)) (Some r) = no_patterns.
Proof.
  unfold roles_table, effective, from_rbac_config, role_policies_from_value. simpl.
  destruct (map_get cfg "roles" ≫= json_as_object) as [tbl|]; simpl; [intros ->|intros _];
    by rewrite bool_decide_true.
Qed.

(** A policy without role rules treats callers with roles worse than callers
    without: with no [roles] configured, a caller with a verified role is
    refused every request that names a tool, whatever the tool; a caller with
    no role is not asked about tools at all. *)
Theorem roles_without_rules_refuse_tools cfg request header_get identity tool tools :
  roles_table cfg = [] → extract_tool_names request = tool :: tools →
  (verified_roles identity ≠ [] →
     pr_verdict (evaluate_rbac (Some (Obj cfg)) request header_get identity) ≠ Allow)
  ∧ (verified_roles identity = [] →
     pr_verdict (evaluate_rbac (Some (Obj cfg)) request header_get identity)
     = pr_verdict (evaluate_rbac (Some (Obj cfg)) None header_get identity)).
Proof.
  intros Hr Ht. split.
  - intros Hv (cfg'&[= <-]&_&_&_&Htools&_)%rbac_allow_iff.
    destruct (Htools Hv tool) as [(r&_&Hc) _]; [rewrite Ht; by left|].
    rewrite no_role_rules in Hc by done. by apply covered_nil in Hc.
  - intros Hv. unfold evaluate_rbac. simpl. rewrite Hr, Hv.
    destruct (sorted_names _); [|done]. destruct (sorted_names _); [|done].
    assert (Hd : ∀ req, check_data_access cfg req [] = None)
      by (intros req; apply check_data_access_none; intros tbl _; left; by intros ? ?%elem_of_nil).
    assert (Hp : ∀ req, check_minimum_necessary cfg req [] = None)
      by (intros req; apply check_minimum_necessary_none; intros mn _ _; by left).
    by rewrite !Hd, !Hp.
Qed.

End rbac.

Section rbac_witness.

Definition plain_identity (rs : list string) : RequestIdentity :=
  {| proof_method := ApiToken; issuer := "api"; subject := "u"; credential_id := "k";
     identity_org_id := "o"; team_ids := []; roles := rs; scopes := [];
     assurance_level := TokenLevel; expires_at := None |}.
Definition tool_request : Value Z := Obj [("tools", Arr [Obj [("name", Str "search")]])]%string.

Lemma roles_without_rules_refuse_tools_witness :
  pr_verdict (evaluate_rbac id (λ _, 0%nat) (Some (Obj [])) (Some tool_request) (λ _, None)
     (Some (plain_identity ["admin"%string]))) ≠ Allow
  ∧ pr_verdict (evaluate_rbac id (λ _, 0%nat) (Some (Obj [])) (Some tool_request) (λ _, None)
     (Some (plain_identity []))) = Allow.
Proof.
  split.
  - apply (roles_without_rules_refuse_tools id (λ _, 0%nat) [] (Some tool_request) (λ _, None)
             (Some (plain_identity ["admin"%string])) "search" []);
      [reflexivity|reflexivity|discriminate].
  - vm_compute. reflexivity.
Defined.

End rbac_witness.
