(* ===== verification/ToolCalls.v ===== *)
(** * ToolCalls: structured tool calls (src/src/gateway/structured_tool_calls.rs)

    The calls of tools in a request or response, in the three wire formats, as
    canonical calls; and the accumulator that assembles them from the events of
    a stream.  An [IndexMap] is an association list in insertion order;
    parsing JSON text and reading a JSON number are arguments. *)

From Stdlib Require Import ZArith Ascii String.
From stdpp Require Import base gmap strings pretty list.
From S2P Require Import Prelude Text Lww Policy.

#[local] Arguments String.append : simpl nomatch.

Record CanonicalToolCall := mkCall { call_name : string; call_arguments : string }.
#[export] Instance CanonicalToolCall_eq_dec : EqDecision CanonicalToolCall.
Proof. solve_decision. Defined.

Inductive ToolCallParseError :=
| MissingName
| InvalidName (name : string)
| IncompleteArguments.

Definition tool_call_error_text (e : ToolCallParseError) : string :=
  match e with
  | MissingName => "structured tool call is missing a name"
  | InvalidName name => "structured tool call has invalid name: " ++ name
  | IncompleteArguments => "structured tool call has incomplete JSON arguments"
  end.

Record PartialToolCall := mkPartial {
  partial_name : string;
  partial_arguments : string;
  requires_json_arguments : bool;
}.
Definition PartialToolCall_default : PartialToolCall := mkPartial EmptyString EmptyString false.

(** [is_ascii_alphanumeric], [_], [-] or [.]. *)
Definition tool_name_char (a : ascii) : bool :=
  let n := N_of_ascii a in
  ((48 <=? n) && (n <=? 57) || (65 <=? n) && (n <=? 90) || (97 <=? n) && (n <=? 122)
   || (n =? 95) || (n =? 45) || (n =? 46))%N.
Fixpoint string_all (f : ascii → bool) (s : string) : bool :=
  match s with EmptyString => true | String a s => f a && string_all f s end.

(** [format!("{index}")] of a [u64]. *)
Definition index_text (z : Z) : string := pretty (Z.to_N z).

Section calls.
Context `{SerdeJson}.
Abbreviation value := (Value Number).
Variable as_u64 : Number → option Z.
Variable from_str : string → option value.

Definition get_str (v : value) (key : string) : option string := json_get v key ≫= json_as_str.
Definition get_array (v : value) (key : string) : option (list value) :=
  json_get v key ≫= json_as_array.
Definition get_u64 (v : value) (key : string) : option Z := json_get v key ≫= json_as_u64 as_u64.
(** [pointer("/a/b")] with [as_str]. *)
Definition pointer_str (v : value) (a b : string) : option string :=
  get_in (json_get v a) b ≫= json_as_str.

(** [canonical_arguments]. *)
Definition canonical_arguments (v : value) : string :=
  match v with
  | Str s => s
  | v => canonical_json_string v
  end.

(** [finalize_partial_call]. *)
Definition finalize_partial_call (p : PartialToolCall) :
    Result CanonicalToolCall ToolCallParseError :=
  let name := to_ascii_lowercase (trim (partial_name p)) in
  if is_empty name then Err MissingName
  else if negb (string_all tool_name_char name) then Err (InvalidName name)
  else
    let arguments := trim (partial_arguments p) in
    if requires_json_arguments p && negb (is_empty arguments)
       && negb (bool_decide (is_Some (from_str arguments)))
    then Err IncompleteArguments
    else Ok (mkCall name arguments).

(** [item.get("arguments").or_else(|| item.get("input"))]. *)
Definition arguments_or_input (item : value) : option value :=
  match json_get item "arguments" with Some v => Some v | None => json_get item "input" end.

Definition is_responses_tool_call (item : value) : bool :=
  match get_str item "type" with
  | Some t => String.eqb t "function_call" || String.eqb t "custom_tool_call"
              || String.eqb t "tool_call"
  | None => false
  end.

(** ** Whole documents

    The collectors push onto [calls] and stop at the first error. *)
Abbreviation Calls := (Result (list CanonicalToolCall) ToolCallParseError).
Definition push_call (p : PartialToolCall) (calls : list CanonicalToolCall) : Calls :=
  match finalize_partial_call p with Ok c => Ok (calls ++ [c]) | Err e => Err e end.
Fixpoint for_each (f : value → list CanonicalToolCall → Calls) (items : list value)
    (calls : list CanonicalToolCall) : Calls :=
  match items with
  | [] => Ok calls
  | item :: items =>
      match f item calls with
      | Ok calls => for_each f items calls
      | Err e => Err e
      end
  end.
Definition for_each_opt (f : value → list CanonicalToolCall → Calls) (items : option (list value))
    (calls : list CanonicalToolCall) : Calls :=
  for_each f (default [] items) calls.
Definition then_calls (r : Calls) (f : list CanonicalToolCall → Calls) : Calls :=
  match r with Ok calls => f calls | Err e => Err e end.

Definition anthropic_block (block : value) (calls : list CanonicalToolCall) : Calls :=
  if negb (bool_decide (get_str block "type" = Some "tool_use"%string)) then Ok calls
  else push_call {| partial_name := default EmptyString (get_str block "name");
                    partial_arguments :=
                      default EmptyString (canonical_arguments <$> json_get block "input");
                    requires_json_arguments := true |} calls.
Definition collect_anthropic_content (content : list value) (calls : list CanonicalToolCall) : Calls :=
  for_each anthropic_block content calls.

(** One [tool_calls] entry, or the legacy [function_call], of a chat message. *)
Definition chat_call (function : value) (calls : list CanonicalToolCall) : Calls :=
  push_call {| partial_name := default EmptyString (get_str function "name");
               partial_arguments :=
                 default EmptyString (canonical_arguments <$> json_get function "arguments");
               requires_json_arguments := true |} calls.
Definition collect_message_tool_calls (message : value) (calls : list CanonicalToolCall) : Calls :=
  then_calls
    (then_calls
       (for_each_opt (λ tool_call, chat_call (default tool_call (json_get tool_call "function")))
          (get_array message "tool_calls") calls)
       (λ calls, match json_get message "function_call" with
                 | Some function_call => chat_call function_call calls
                 | None => Ok calls
                 end))
    (λ calls, match get_array message "content" with
              | Some content => collect_anthropic_content content calls
              | None => Ok calls
              end).

Definition responses_item (item : value) (calls : list CanonicalToolCall) : Calls :=
  then_calls
    (if is_responses_tool_call item then
       push_call {| partial_name := default EmptyString (get_str item "name");
                    partial_arguments :=
                      default EmptyString (canonical_arguments <$> arguments_or_input item);
                    requires_json_arguments :=
                      negb (bool_decide (get_str item "type" = Some "custom_tool_call"%string)) |}
         calls
     else Ok calls)
    (λ calls, match get_array item "content" with
              | Some content => collect_anthropic_content content calls
              | None => Ok calls
              end).
Definition collect_responses_items (items : list value) (calls : list CanonicalToolCall) : Calls :=
  for_each responses_item items calls.

(** [canonical_tool_calls]. *)
Definition canonical_tool_calls (v : value) : Calls :=
  then_calls
    (then_calls
       (then_calls
          (then_calls
             (for_each_opt (λ choice calls, match json_get choice "message" with
                                            | Some message => collect_message_tool_calls message calls
                                            | None => Ok calls
                                            end) (get_array v "choices") [])
             (for_each_opt (λ message calls,
                if bool_decide (get_str message "role" = Some "assistant"%string)
                then collect_message_tool_calls message calls else Ok calls)
                (get_array v "messages")))
          (λ calls, collect_responses_items (default [] (get_array v "output")) calls))
       (λ calls, collect_responses_items (default [] (get_array v "input")) calls))
    (λ calls, collect_anthropic_content (default [] (get_array v "content")) calls).

(** ** Streams *)

(** [calls.entry(key).or_default()] followed by an update. *)
Fixpoint upsert (key : string) (f : PartialToolCall → PartialToolCall)
    (calls : list (string * PartialToolCall)) : list (string * PartialToolCall) :=
  match calls with
  | [] => [(key, f PartialToolCall_default)]
  | (k, p) :: calls =>
      if String.eqb k key then (k, f p) :: calls else (k, p) :: upsert key f calls
  end.

Definition append_string (target : string) (v : option string) : string :=
  match v with Some s => target ++ s | None => target end.
Definition set_string (target : string) (v : option string) : string :=
  match v with Some s => s | None => target end.

(** One fragment of a chat stream. *)
Definition chat_fragment (name arguments : option string) (p : PartialToolCall) : PartialToolCall :=
  {| partial_name := append_string (partial_name p) name;
     partial_arguments := append_string (partial_arguments p) arguments;
     requires_json_arguments := true |}.

Definition position_index (v : value) (position : nat) : string :=
  match get_u64 v "index" with
  | Some i => index_text i
  | None => index_text (Z.of_nat position)
  end.
Definition chat_key (choice tool : string) : string := ("chat:" ++ choice ++ ":" ++ tool)%string.

Definition ingest_tool_delta (choice_index : string) (position : nat) (tool_call : value)
    (calls : list (string * PartialToolCall)) : list (string * PartialToolCall) :=
  upsert (chat_key choice_index (position_index tool_call position))
    (chat_fragment (pointer_str tool_call "function" "name")
                   (pointer_str tool_call "function" "arguments")) calls.
Fixpoint enumerate_from {A B} (f : nat → A → B → B) (n : nat) (l : list A) (b : B) : B :=
  match l with [] => b | a :: l => enumerate_from f (S n) l (f n a b) end.
Definition ingest_choice (position : nat) (choice : value)
    (calls : list (string * PartialToolCall)) : list (string * PartialToolCall) :=
  let choice_index := position_index choice position in
  match json_get choice "delta" with
  | None => calls
  | Some delta =>
      let calls :=
        enumerate_from (ingest_tool_delta choice_index) 0
          (default [] (get_array delta "tool_calls")) calls in
      match json_get delta "function_call" with
      | Some fc =>
          upsert (chat_key choice_index "legacy")
            (chat_fragment (get_str fc "name") (get_str fc "arguments")) calls
      | None => calls
      end
  end.
Definition ingest_chat_delta (v : value) (calls : list (string * PartialToolCall)) :
    list (string * PartialToolCall) :=
  enumerate_from ingest_choice 0 (default [] (get_array v "choices")) calls.

Definition responses_call_key (event item : value) : string :=
  match get_u64 event "output_index" with
  | Some i => "responses:index:" ++ index_text i
  | None =>
      match (match json_get event "item_id" with
             | Some x => Some x
             | None => match json_get item "id" with
                       | Some x => Some x
                       | None => json_get item "call_id"
                       end
             end) ≫= json_as_str with
      | Some i => "responses:id:" ++ i
      | None => "responses:index:0"
      end
  end%string.

Definition item_added (done : bool) (item : value) (p : PartialToolCall) : PartialToolCall :=
  {| partial_name := set_string (partial_name p) (get_str item "name");
     partial_arguments :=
       (if done then set_string else append_string) (partial_arguments p)
         (canonical_arguments <$> arguments_or_input item);
     requires_json_arguments :=
       negb (bool_decide (get_str item "type" = Some "custom_tool_call"%string)) |}.

(** [IndexMap::insert]. *)
Definition index_insert (key : string) (p : PartialToolCall)
    (calls : list (string * PartialToolCall)) : list (string * PartialToolCall) :=
  upsert key (λ _, p) calls.
(** The calls of a completed response, under keys numbered by the map's size. *)
Definition ingest_completed (call : CanonicalToolCall) (calls : list (string * PartialToolCall)) :
    list (string * PartialToolCall) :=
  index_insert ("responses:completed:" ++ index_text (Z.of_nat (length calls)))
    (mkPartial (call_name call) (call_arguments call) true) calls.

Definition ingest_responses_event (v : value) (calls : list (string * PartialToolCall)) :
    list (string * PartialToolCall) :=
  let event_type := default EmptyString (get_str v "type") in
  if String.eqb event_type "response.output_item.added"
     || String.eqb event_type "response.output_item.done" then
    match json_get v "item" with
    | None => calls
    | Some item =>
        if is_responses_tool_call item then
          upsert (responses_call_key v item)
            (item_added (String.eqb event_type "response.output_item.done") item) calls
        else calls
    end
  else if String.eqb event_type "response.function_call_arguments.delta" then
    upsert (responses_call_key v v)
      (λ p, mkPartial (partial_name p) (append_string (partial_arguments p) (get_str v "delta")) true)
      calls
  else if String.eqb event_type "response.function_call_arguments.done" then
    upsert (responses_call_key v v)
      (λ p, mkPartial (partial_name p) (set_string (partial_arguments p) (get_str v "arguments")) true)
      calls
  else if String.eqb event_type "response.completed" then
    match json_get v "response" with
    | None => calls
    | Some response =>
        match canonical_tool_calls response with
        | Ok found => foldl (λ calls call, ingest_completed call calls) calls found
        | Err _ => calls
        end
    end
  else calls.

Definition ingest_anthropic_event (v : value) (calls : list (string * PartialToolCall)) :
    list (string * PartialToolCall) :=
  let event_type := default EmptyString (get_str v "type") in
  let index := match get_u64 v "index" with Some i => index_text i | None => "0"%string end in
  let key := ("anthropic:" ++ index)%string in
  if String.eqb event_type "content_block_start"
     && bool_decide (pointer_str v "content_block" "type" = Some "tool_use"%string) then
    upsert key (λ p,
      mkPartial (set_string (partial_name p) (pointer_str v "content_block" "name"))
        (match get_in (json_get v "content_block") "input" with
         | Some (Obj []) | None => partial_arguments p
         | Some input => canonical_arguments input
         end) true) calls
  else if String.eqb event_type "content_block_delta"
     && bool_decide (pointer_str v "delta" "type" = Some "input_json_delta"%string) then
    upsert key (λ p,
      mkPartial (partial_name p)
        (append_string (partial_arguments p) (pointer_str v "delta" "partial_json")) true) calls
  else calls.

(** [ingest_sse_payload]. *)
Definition ingest_sse_payload (calls : list (string * PartialToolCall)) (payload : string) :
    list (string * PartialToolCall) :=
  if String.eqb payload "[DONE]" then calls
  else match from_str payload with
       | None => calls
       | Some v => ingest_anthropic_event v (ingest_responses_event v (ingest_chat_delta v calls))
       end.

(** [finish]: the calls in insertion order, or the first error. *)
Fixpoint finish (calls : list (string * PartialToolCall)) : Calls :=
  match calls with
  | [] => Ok []
  | (_, p) :: calls =>
      match finalize_partial_call p with
      | Err e => Err e
      | Ok c => match finish calls with Ok cs => Ok (c :: cs) | Err e => Err e end
      end
  end.

(** ** Canonical calls *)

(** The characters of a canonical name: those of a tool name, none upper case. *)
Definition canonical_char (a : ascii) : bool :=
  tool_name_char a && negb ((65 <=? N_of_ascii a) && (N_of_ascii a <=? 90))%N.

Definition canonical_call (c : CanonicalToolCall) : Prop :=
  call_name c ≠ EmptyString ∧ string_all canonical_char (call_name c) = true
  ∧ trim (call_arguments c) = call_arguments c.

Lemma lower_byte_not_upper a :
  ((65 <=? N_of_ascii (lower_byte a)) && (N_of_ascii (lower_byte a) <=? 90))%N = false.
Proof. by destruct a as [[] [] [] [] [] [] [] []]. Qed.

Lemma lowercase_canonical s :
  string_all tool_name_char (to_ascii_lowercase s) = true →
  string_all canonical_char (to_ascii_lowercase s) = true.
Proof.
  induction s as [|a s IH]; [done|]. simpl. intros [Ha Hs]%andb_true_iff.
  unfold canonical_char at 1. by rewrite Ha, lower_byte_not_upper, IH.
Qed.

Lemma finalize_ok p c :
  finalize_partial_call p = Ok c →
  canonical_call c
  ∧ (requires_json_arguments p = true → call_arguments c = EmptyString ∨ is_Some (from_str (call_arguments c))).
Proof.
  unfold finalize_partial_call. destruct (is_empty _) eqn:Ee; [done|].
  destruct (string_all tool_name_char _) eqn:Ea; [|done]. simpl.
  destruct (requires_json_arguments p && _ && _) eqn:Ej; [done|]. intros [= <-].
  split.
  - split_and!; simpl; [by intros E; rewrite E in Ee|by apply lowercase_canonical|apply trim_idemp].
  - intros Hj. rewrite Hj in Ej. simpl in *. destruct (trim (partial_arguments p)); [by left|].
    simpl in Ej. right. by case_bool_decide.
Qed.

(** A canonical call is its own canonical form. *)
Lemma canonical_char_plain a :
  canonical_char a = true → tool_name_char a = true ∧ lower_byte a = a.
Proof. destruct a as [[] [] [] [] [] [] [] []]; vm_compute; intros [=]; done. Qed.

Lemma tool_name_char_plain a b c :
  tool_name_char a = true → ws1 a = false ∧ ws2 a b = false ∧ ws3 a b c = false.
Proof.
  intros Ha. unfold ws2, ws3.
  by destruct a as [[] [] [] [] [] [] [] []]; vm_compute in Ha; try discriminate Ha; cbn.
Qed.

Lemma trim_start_name s : string_all tool_name_char s = true → trim_start s = s.
Proof.
  destruct s as [|a s]; [done|]. intros [Ha _]%andb_true_iff. rewrite trim_start_eq.
  destruct (tool_name_char_plain a a a Ha) as [-> _].
  destruct s as [|b s]; [done|]. destruct (tool_name_char_plain a b b Ha) as (_&->&_).
  destruct s as [|c s]; [done|]. by destruct (tool_name_char_plain a b c Ha) as (_&_&->).
Qed.

Lemma trim_end_name s : string_all tool_name_char s = true → trim_end s = s.
Proof.
  induction s as [|a s IH]; [done|]. intros Hs. cbn [trim_end]. unfold all_whitespace.
  rewrite trim_start_name by done. simpl. apply andb_true_iff in Hs as [_ Hs]. by rewrite IH.
Qed.

Lemma canonical_name_plain s :
  string_all canonical_char s = true →
  string_all tool_name_char s = true ∧ to_ascii_lowercase s = s.
Proof.
  induction s as [|a s IH]; [done|]. simpl.
  intros [[Ha Hl]%canonical_char_plain [Hs Hr]%IH]%andb_true_iff. by rewrite Ha, Hs, Hl, Hr.
Qed.

Lemma trim_name s : string_all tool_name_char s = true → trim s = s.
Proof. intros Hs. unfold trim. by rewrite trim_start_name, trim_end_name. Qed.

Lemma finalize_named c :
  canonical_call c →
  finalize_partial_call (mkPartial (call_name c) (call_arguments c) true)
  = if negb (is_empty (call_arguments c)) && negb (bool_decide (is_Some (from_str (call_arguments c))))
    then Err IncompleteArguments else Ok c.
Proof.
  destruct c as [n args]. intros (Hn&Hc&Ht). simpl in *.
  apply canonical_name_plain in Hc as [Hc Hl].
  unfold finalize_partial_call. cbn [partial_name partial_arguments requires_json_arguments].
  rewrite (trim_name n), Hl, Hc, Ht by done. by destruct n as [|a n].
Qed.
Lemma finalize_canonical c :
  canonical_call c → call_arguments c = EmptyString ∨ is_Some (from_str (call_arguments c)) →
  finalize_partial_call (mkPartial (call_name c) (call_arguments c) true) = Ok c.
Proof.
  intros Hc [Ha|Ha]; rewrite finalize_named by done; [by rewrite Ha|].
  by rewrite bool_decide_true, andb_false_r by done.
Qed.
Lemma finalize_not_json c :
  canonical_call c → call_arguments c ≠ EmptyString → from_str (call_arguments c) = None →
  finalize_partial_call (mkPartial (call_name c) (call_arguments c) true) = Err IncompleteArguments.
Proof.
  intros Hc Ha Hf. rewrite finalize_named, Hf by done. by destruct (call_arguments c).
Qed.

(** ** Collecting preserves canonicity *)
Section collect.
Variable P : CanonicalToolCall → Prop.
Hypothesis finalized : ∀ p c, finalize_partial_call p = Ok c → P c.

Definition keeps (f : list CanonicalToolCall → Calls) : Prop :=
  ∀ calls calls', Forall P calls → f calls = Ok calls' → Forall P calls'.

Lemma keeps_push p : keeps (push_call p).
Proof.
  intros calls calls' Hc. unfold push_call. destruct (finalize_partial_call p) eqn:E; [|done].
  intros [= <-]. apply Forall_app. split; [done|]. by apply Forall_singleton, (finalized p).
Qed.
Lemma keeps_id : keeps Ok.
Proof. by intros calls calls' Hc [= <-]. Qed.
Lemma keeps_for_each f items : (∀ item, keeps (f item)) → keeps (for_each f items).
Proof.
  intros Hf. induction items as [|item items IH]; [apply keeps_id|].
  intros calls calls' Hc. simpl. destruct (f item calls) eqn:E; [|done].
  apply IH. by apply (Hf item calls).
Qed.
Lemma keeps_then f g : keeps f → keeps g → keeps (λ calls, then_calls (f calls) g).
Proof.
  intros Hf Hg calls calls' Hc. unfold then_calls. destruct (f calls) eqn:E; [|done].
  apply Hg. by apply (Hf calls).
Qed.

Lemma keeps_anthropic content : keeps (collect_anthropic_content content).
Proof.
  apply keeps_for_each. intros block. unfold anthropic_block.
  intros calls calls' Hc. destruct (negb _); [by apply keeps_id|by apply keeps_push].
Qed.
Lemma keeps_message message : keeps (collect_message_tool_calls message).
Proof.
  apply keeps_then; [apply keeps_then|].
  - apply keeps_for_each. intros item. apply keeps_push.
  - intros calls calls' Hc. destruct (json_get message "function_call");
      [by apply keeps_push|by apply keeps_id].
  - intros calls calls' Hc. destruct (get_array message "content");
      [by apply keeps_anthropic|by apply keeps_id].
Qed.
Lemma keeps_responses items : keeps (collect_responses_items items).
Proof.
  apply keeps_for_each. intros item. apply (keeps_then (λ calls, if is_responses_tool_call item then _ else _)).
  - intros calls calls' Hc. destruct (is_responses_tool_call item); [by apply keeps_push|by apply keeps_id].
  - intros calls calls' Hc. destruct (get_array item "content");
      [by apply keeps_anthropic|by apply keeps_id].
Qed.
Lemma canonical_tool_calls_keeps v calls : canonical_tool_calls v = Ok calls → Forall P calls.
Proof.
  apply (keeps_then (λ c, then_calls (then_calls (then_calls (for_each_opt _ _ c) _) _) _)); [|apply keeps_anthropic|by constructor].
  apply keeps_then; [|apply keeps_responses]. apply keeps_then; [|apply keeps_responses].
  apply keeps_then; apply keeps_for_each.
  - intros item c c' Hc. destruct (json_get item "message"); [by apply keeps_message|by apply keeps_id].
  - intros item c c' Hc. case_bool_decide; [by apply keeps_message|by apply keeps_id].
Qed.
End collect.

Lemma finish_all (P : CanonicalToolCall → Prop) acc calls :
  (∀ p c, finalize_partial_call p = Ok c → P c) → finish acc = Ok calls →
  Forall P calls ∧ length calls = length acc.
Proof.
  intros HP. revert calls. induction acc as [|[k p] acc IH]; intros calls; simpl.
  - by intros [= <-].
  - destruct (finalize_partial_call p) eqn:E; [|done]. destruct (finish acc); [|done].
    intros [= <-]. destruct (IH _ eq_refl) as [HF HL]. split; [|by simpl; rewrite HL].
    constructor; [by apply (HP p)|done].
Qed.

(** Every call that leaves the module is canonical, whichever way it came
    in: the calls of a whole document and the calls of a finished stream have a
    non-empty name of lower-case letters, digits, [_], [-] and [.] only, and
    trimmed arguments; and a finished stream yields one call per key. *)
Theorem tool_calls_canonical v acc calls streamed :
  canonical_tool_calls v = Ok calls → finish acc = Ok streamed →
  Forall canonical_call calls ∧ Forall canonical_call streamed
  ∧ length streamed = length acc.
Proof.
  intros Hv Hs. assert (Hf : ∀ p c, finalize_partial_call p = Ok c → canonical_call c)
    by (intros p c E; by apply finalize_ok in E as [? _]).
  split; [by apply (canonical_tool_calls_keeps _ Hf v)|by apply finish_all].
Qed.

(** ** Streams of chat fragments *)

(** The decimal text of an index has no colon, so a chat key determines its
    indices. *)
Fixpoint no_colon (s : string) : bool :=
  match s with EmptyString => true | String a s => negb (Ascii.eqb a ":") && no_colon s end.

Lemma pretty_no_colon n s : no_colon s = true → no_colon (pretty_N_go n s) = true.
Proof.
  revert s. induction (N.lt_wf_0 n) as [n _ IH]. intros s Hs.
  destruct (decide (n = 0%N)) as [->|Hn]; [by rewrite pretty_N_go_0|].
  rewrite pretty_N_go_step by lia. apply IH; [apply N.div_lt; lia|]. simpl. rewrite Hs.
  unfold pretty_N_char. by repeat case_match.
Qed.
Lemma index_text_no_colon z : no_colon (index_text z) = true.
Proof.
  unfold index_text, pretty, pretty_N. case_decide; [done|]. by apply pretty_no_colon.
Qed.
Lemma index_text_inj a b : (0 <= a)%Z → (0 <= b)%Z → index_text a = index_text b → a = b.
Proof. unfold index_text. intros ?? E%(inj (A:=N) pretty). lia. Qed.

Lemma colon_split s s' t t' :
  no_colon s = true → no_colon s' = true →
  (s ++ ":" ++ t = s' ++ ":" ++ t')%string → s = s' ∧ t = t'.
Proof.
  revert s'. induction s as [|a s IH]; intros [|b s'] Hs Hs' E; simpl in *.
  - by injection E.
  - injection E as <- _. done.
  - injection E as -> _. done.
  - injection E as -> E. apply andb_true_iff in Hs as [_ Hs], Hs' as [_ Hs'].
    by destruct (IH s' Hs Hs' E) as [-> ->].
Qed.

Definition fragment_key (ct : Z * Z) : string := chat_key (index_text ct.1) (index_text ct.2).
Lemma fragment_key_inj x y :
  (0 <= x.1)%Z ∧ (0 <= x.2)%Z → (0 <= y.1)%Z ∧ (0 <= y.2)%Z →
  fragment_key x = fragment_key y → x = y.
Proof.
  intros [] [] E. unfold fragment_key, chat_key in E. simpl in E. injection E as E.
  apply colon_split in E as [E1 E2]; [|apply index_text_no_colon..].
  apply index_text_inj in E1, E2; [|done..]. by destruct x, y; simpl in *; subst.
Qed.

(** What a provider sends: pieces of the name and arguments of a call, under the
    indices of a choice and of a tool call. *)
Record Fragment := mkFragment {
  fr_at : Z * Z;
  fr_name : option string;
  fr_arguments : option string;
}.
Definition str_field (key : string) (v : option string) : list (string * value) :=
  match v with Some s => [(key, Str s)] | None => [] end.

Section fragments.
Variable num : Z → Number.
Hypothesis num_u64 : ∀ z, u64_ok z → as_u64 (num z) = Some z.

Definition fragment_delta (f : Fragment) : value :=
  Obj [("index"%string, Num (num (fr_at f).2));
       ("function"%string, Obj (str_field "arguments" (fr_arguments f)
                                ++ str_field "name" (fr_name f)))].
Definition fragment_choice (f : Fragment) : value :=
  Obj [("index"%string, Num (num (fr_at f).1));
       ("delta"%string, Obj [("tool_calls"%string, Arr [fragment_delta f])])].
Definition chat_event (f : Fragment) : value :=
  Obj [("choices"%string, Arr [fragment_choice f])].

Lemma fragment_strings f :
  pointer_str (fragment_delta f) "function" "name" = fr_name f
  ∧ pointer_str (fragment_delta f) "function" "arguments" = fr_arguments f.
Proof. destruct f as [? [n|] [a|]]; done. Qed.

Definition fragment_ok (f : Fragment) : Prop := u64_ok (fr_at f).1 ∧ u64_ok (fr_at f).2.

Lemma ingest_event f calls :
  fragment_ok f →
  ingest_chat_delta (chat_event f) calls
  = upsert (fragment_key (fr_at f)) (chat_fragment (fr_name f) (fr_arguments f)) calls.
Proof.
  intros [H1 H2]. transitivity (ingest_tool_delta (position_index (fragment_choice f) 0) 0
    (fragment_delta f) calls); [done|]. unfold ingest_tool_delta, fragment_key.
  destruct (fragment_strings f) as [-> ->].
  assert (Hc : get_u64 (fragment_choice f) "index" = Some (fr_at f).1) by by apply num_u64.
  assert (Ht : get_u64 (fragment_delta f) "index" = Some (fr_at f).2) by by apply num_u64.
  unfold position_index. by rewrite Hc, Ht.
Qed.

Hypothesis done_not_json : from_str "[DONE]" = None.

Lemma ingest_payload f payload calls :
  fragment_ok f → from_str payload = Some (chat_event f) →
  ingest_sse_payload calls payload
  = upsert (fragment_key (fr_at f)) (chat_fragment (fr_name f) (fr_arguments f)) calls.
Proof.
  intros Hf Hp. unfold ingest_sse_payload. destruct (String.eqb_spec payload "[DONE]") as [->|_].
  - by rewrite done_not_json in Hp.
  - rewrite Hp, ingest_event by done. done.
Qed.

(** The reference: the places in order of first appearance, each with the
    concatenation of its pieces. *)
Definition first_seen (places : list (Z * Z)) : list (Z * Z) :=
  foldl (λ seen p, if bool_decide (p ∈ seen) then seen else seen ++ [p]) [] places.
Definition assembled (fs : list Fragment) (p : Z * Z) : PartialToolCall :=
  let own := filter (λ f, fr_at f = p) fs in
  {| partial_name := String.concat EmptyString (omap fr_name own);
     partial_arguments := String.concat EmptyString (omap fr_arguments own);
     requires_json_arguments := true |}.

Lemma string_append_assoc (a b c : string) : (a ++ b ++ c = (a ++ b) ++ c)%string.
Proof. induction a as [|x a IH]; [done|]. simpl. by rewrite IH. Qed.
Lemma concat_snoc l (x : string) :
  String.concat EmptyString (l ++ [x]) = (String.concat EmptyString l ++ x)%string.
Proof.
  induction l as [|y l IH]; [done|]. destruct l as [|z l]; [done|].
  change (y ++ (String.concat EmptyString ((z :: l) ++ [x]))
          = (y ++ String.concat EmptyString (z :: l)) ++ x)%string.
  rewrite IH. apply string_append_assoc.
Qed.
Lemma concat_piece {A} (get : A → option string) l x :
  String.concat EmptyString (omap get (l ++ [x]))
  = append_string (String.concat EmptyString (omap get l)) (get x).
Proof.
  rewrite omap_app. simpl. destruct (get x) as [s|]; simpl; [apply concat_snoc|].
  by rewrite app_nil_r.
Qed.

Lemma assembled_absent fs p :
  p ∉ fr_at <$> fs → assembled fs p = mkPartial EmptyString EmptyString true.
Proof.
  intros Hp. unfold assembled. replace (filter (λ f, fr_at f = p) fs) with (@nil Fragment); [done|].
  symmetry. induction fs as [|f fs IH]; [done|]. rewrite fmap_cons, not_elem_of_cons in Hp.
  destruct Hp as [Hn Hp]. rewrite filter_cons_False by done. by apply IH.
Qed.
Lemma assembled_snoc fs f p :
  assembled (fs ++ [f]) p
  = if decide (p = fr_at f) then chat_fragment (fr_name f) (fr_arguments f) (assembled fs p)
    else assembled fs p.
Proof.
  unfold assembled. rewrite filter_app, filter_cons, filter_nil.
  repeat case_decide; simplify_eq; rewrite ?app_nil_r; [|done]. by rewrite !concat_piece.
Qed.

Lemma first_seen_snoc places p :
  first_seen (places ++ [p])
  = if bool_decide (p ∈ first_seen places) then first_seen places else first_seen places ++ [p].
Proof. unfold first_seen. by rewrite foldl_app. Qed.
Lemma first_seen_spec places :
  NoDup (first_seen places) ∧ ∀ p, p ∈ first_seen places ↔ p ∈ places.
Proof.
  induction places as [|p places [IHn IHe]] using rev_ind; [split; [constructor|done]|].
  rewrite first_seen_snoc. case_bool_decide as Hp.
  - split; [done|]. intros q. rewrite IHe, elem_of_app, list_elem_of_singleton.
    apply IHe in Hp. naive_solver.
  - split; [|intros q; by rewrite !elem_of_app, IHe]. apply NoDup_app.
    split_and!; [done| |apply NoDup_singleton]. intros q Hq ->%list_elem_of_singleton. done.
Qed.

(** Updating a key of a map with distinct keys, present and absent. *)
Lemma upsert_map (g : Z * Z → PartialToolCall) f (l : list (Z * Z)) p :
  NoDup l → (∀ q, q ∈ l → fragment_key q = fragment_key p → q = p) →
  upsert (fragment_key p) f ((λ q, (fragment_key q, g q)) <$> l)
  = if bool_decide (p ∈ l)
    then (λ q, (fragment_key q, if decide (q = p) then f (g q) else g q)) <$> l
    else ((λ q, (fragment_key q, g q)) <$> l) ++ [(fragment_key p, f PartialToolCall_default)].
Proof.
  induction 1 as [|q l Hq Hn IH]; intros Hk; [done|]. cbn [fmap list_fmap upsert].
  destruct (String.eqb_spec (fragment_key q) (fragment_key p)) as [E|E].
  - apply Hk in E as ->; [|left]. rewrite bool_decide_true, decide_True by (done || left). f_equal.
    apply list_fmap_ext. intros i r Hr%list_elem_of_lookup_2. rewrite decide_False; [done|]. by intros ->.
  - assert (q ≠ p) by by intros ->. rewrite IH by (intros; apply Hk; [by right|done]).
    rewrite decide_False by done. replace (bool_decide (p ∈ q :: l)) with (bool_decide (p ∈ l));
      [by case_bool_decide|]. apply bool_decide_ext. rewrite elem_of_cons. naive_solver.
Qed.
End fragments.

(** A chat stream is reassembled: whatever the interleaving of the pieces of
    several calls of several choices, the accumulator ends with one entry per
    call, in the order in which the calls first appeared, whose name and
    arguments are the concatenations of that call's pieces in stream order. *)
Theorem chat_stream_reassembles num (payload : Fragment → string) fs :
  (∀ z, u64_ok z → as_u64 (num z) = Some z) → from_str "[DONE]" = None →
  Forall fragment_ok fs → Forall (λ f, from_str (payload f) = Some (chat_event num f)) fs →
  foldl ingest_sse_payload [] (payload <$> fs)
  = (λ p, (fragment_key p, assembled fs p)) <$> first_seen (fr_at <$> fs).
Proof.
  intros Hnum Hdone. induction fs as [|f fs IH] using rev_ind; [done|].
  intros [Hok [Hf _]%Forall_cons]%Forall_app [Hp [Hpf _]%Forall_cons]%Forall_app.
  rewrite fmap_app, foldl_app, IH by done. cbn [fmap list_fmap foldl].
  rewrite (ingest_payload num Hnum Hdone f) by done.
  destruct (first_seen_spec (fr_at <$> fs)) as [Hnd Hin].
  rewrite upsert_map; [|done|].
  - rewrite fmap_app. cbn [fmap list_fmap]. rewrite first_seen_snoc. case_bool_decide.
    + apply list_fmap_ext. intros i p _. rewrite assembled_snoc. by case_decide.
    + rewrite fmap_app. cbn [fmap list_fmap]. f_equal.
      * apply list_fmap_ext. intros i p Hi%list_elem_of_lookup_2. rewrite assembled_snoc.
        rewrite decide_False; [done|]. by intros ->.
      * rewrite assembled_snoc, decide_True by done. f_equal. f_equal.
        by rewrite assembled_absent by (by rewrite <- Hin).
  - intros q (g&->&Hg)%Hin%list_elem_of_fmap. rewrite Forall_forall in Hok.
    destruct (Hok g Hg) as [[] []], Hf as [[] []]. by apply fragment_key_inj.
Qed.

(** ** Completed responses *)
Definition completed_key (n : nat) : string :=
  ("responses:completed:" ++ index_text (Z.of_nat n))%string.
Definition json_call (c : CanonicalToolCall) : Prop :=
  canonical_call c ∧ (call_arguments c = EmptyString ∨ is_Some (from_str (call_arguments c))).

Lemma completed_key_inj n m : completed_key n = completed_key m → n = m.
Proof.
  unfold completed_key. simpl. intros E. injection E as E. apply index_text_inj in E; lia.
Qed.

Lemma upsert_absent key f acc :
  key ∉ acc.*1 → upsert key f acc = acc ++ [(key, f PartialToolCall_default)].
Proof.
  induction acc as [|[k p] acc IH]; [done|]. rewrite fmap_cons, not_elem_of_cons.
  intros [Hk Ha]. simpl in *. destruct (String.eqb_spec k key) as [->|_]; [done|]. by rewrite IH.
Qed.

Lemma finish_snoc acc cs k p c :
  finish acc = Ok cs → finalize_partial_call p = Ok c → finish (acc ++ [(k, p)]) = Ok (cs ++ [c]).
Proof.
  intros Ha Hp. revert cs Ha. induction acc as [|[k' p'] acc IH]; intros cs; simpl.
  - intros [= <-]. by rewrite Hp.
  - destruct (finalize_partial_call p'); [|done]. destruct (finish acc); [|done].
    intros [= <-]. by rewrite (IH _ eq_refl).
Qed.

Lemma finish_completed found acc cs :
  (∀ n, length acc ≤ n → completed_key n ∉ acc.*1) → Forall json_call found →
  finish acc = Ok cs →
  finish (foldl (λ calls call, ingest_completed call calls) acc found) = Ok (cs ++ found).
Proof.
  revert acc cs. induction found as [|c found IH]; intros acc cs Hk Hf Ha; simpl;
    [by rewrite app_nil_r|].
  apply Forall_cons in Hf as [[Hc Hj] Hf]. rewrite (cons_middle c), app_assoc. apply IH; [|done|].
  - intros n. unfold ingest_completed, index_insert. rewrite upsert_absent by by apply Hk.
    rewrite length_app, fmap_app, elem_of_app. simpl. intros Hn [Hin|Hin%list_elem_of_singleton].
    + by apply (Hk n); [lia|].
    + apply completed_key_inj in Hin. lia.
  - unfold ingest_completed, index_insert. rewrite upsert_absent by by apply Hk.
    by apply finish_snoc, finalize_canonical.
Qed.

(** The calls of a [response.completed] event come on top of those already
    assembled: the event that repeats the whole response at the end of a stream
    does not replace the calls streamed before it, which it keys separately, so
    that a stream whose completed response repeats the streamed calls [cs] ends
    with [cs ++ cs]. *)
Theorem completed_event_appends v response acc cs found :
  get_str v "type" = Some "response.completed"%string → json_get v "response" = Some response →
  canonical_tool_calls response = Ok found → Forall json_call found →
  (∀ n, completed_key n ∉ acc.*1) → finish acc = Ok cs →
  finish (ingest_responses_event v acc) = Ok (cs ++ found).
Proof.
  intros Ht Hr Hfound Hj Hk Ha. unfold ingest_responses_event. rewrite Ht.
  cbn [default]. simpl. rewrite Hr, Hfound. by apply finish_completed.
Qed.
End calls.

(** ** A model of the parser *)
Module ToolModel.
Import JsonModel.

Definition as_u64 (z : Z) : option Z := if bool_decide (u64_ok z) then Some z else None.
(** The inverse of the printer of [JsonModel], which prints bits only. *)
Definition from_str (s : string) : option (Value Z) :=
  if String.eqb s "[DONE]" then None else dec <$> countable.decode (text_pos s).

Lemma from_str_text v : from_str (text v) = Some v.
Proof.
  unfold from_str, text. destruct (String.eqb_spec (pos_text (encode (enc v))) "[DONE]") as [E|_].
  - destruct (encode (enc v)) as [p|p|]; simpl in E; discriminate E.
  - by rewrite text_pos_text, decode_encode; simpl; rewrite dec_enc.
Qed.
Lemma as_u64_num z : u64_ok z → as_u64 z = Some z.
Proof. intros. unfold as_u64. by rewrite bool_decide_true. Qed.

Definition pieces : list Fragment :=
  [mkFragment (0, 0)%Z (Some "delete_"%string) None;
   mkFragment (0, 1)%Z (Some "read"%string) (Some "{"%string);
   mkFragment (0, 0)%Z (Some "record"%string) (Some "{}"%string);
   mkFragment (0, 1)%Z None (Some "}"%string)].

Definition read_call : Value Z :=
  Obj [("name"%string, Str "Read"); ("type"%string, Str "function_call")].
Definition response : Value Z := Obj [("output"%string, Arr [read_call])].
Definition added : list (string * PartialToolCall) :=
  [("responses:index:0"%string, mkPartial "read" EmptyString true)].
Definition completed : Value Z :=
  Obj [("response"%string, response); ("type"%string, Str "response.completed")].
End ToolModel.

Lemma tool_calls_canonical_witness :
  let found := [mkCall "read" EmptyString] in
  Forall canonical_call found ∧ Forall canonical_call found ∧ length found = 1.
Proof.
  apply (tool_calls_canonical (H := JsonModel.json) ToolModel.from_str
           ToolModel.response ToolModel.added); vm_compute; reflexivity.
Defined.

Lemma chat_stream_reassembles_witness :
  foldl (ingest_sse_payload (H := JsonModel.json) ToolModel.as_u64 ToolModel.from_str) []
    ((λ f, JsonModel.text (chat_event (H := JsonModel.json) (λ z, z) f)) <$> ToolModel.pieces)
  = [("chat:0:0"%string, mkPartial "delete_record" "{}" true);
     ("chat:0:1"%string, mkPartial "read" "{}" true)].
Proof.
  rewrite (chat_stream_reassembles (H := JsonModel.json) ToolModel.as_u64 ToolModel.from_str
             (λ z, z) (λ f, JsonModel.text (chat_event (H := JsonModel.json) (λ z, z) f))
             ToolModel.pieces).
  - vm_compute. reflexivity.
  - apply ToolModel.as_u64_num.
  - reflexivity.
  - by repeat constructor.
  - repeat constructor; apply ToolModel.from_str_text.
Defined.

Lemma completed_event_appends_witness :
  finish (H := JsonModel.json) ToolModel.from_str
    (ingest_responses_event (H := JsonModel.json) ToolModel.as_u64 ToolModel.from_str
       ToolModel.completed ToolModel.added)
  = Ok [mkCall "read" EmptyString; mkCall "read" EmptyString].
Proof.
  apply (completed_event_appends (H := JsonModel.json) ToolModel.as_u64 ToolModel.from_str
           ToolModel.completed ToolModel.response ToolModel.added [mkCall "read" EmptyString]);
    try (vm_compute; reflexivity).
  - repeat constructor; by vm_compute.
  - intros n Hn%list_elem_of_singleton. discriminate Hn.
Defined.
