(* ===== verification/Firewall.v ===== *)
(** * Firewall: the agent firewall (src/src/gateway/enforcement.rs)

    [evaluate_agent_firewall] decides the tool calls of a request, of a
    conversation and of a stream.  Arguments stand for [regex_lite] (the first
    group of every match of a pattern), for the personal-data detector (the kinds
    it finds), for the reads and makings of JSON numbers, and for the order in
    which a hash map yields its keys. *)

From Stdlib Require Import ZArith Ascii String SpecFloat.
From stdpp Require Import base gmap strings list sorting.
From S2P Require Import Prelude Text Float Lww Policy ToolAccess Rbac ToolCalls.

#[local] Arguments String.append : simpl nomatch.

Record ChatMessage := mkMessage { role : string; content : string }.

(** [joined_messages]. *)
Definition joined_messages (messages : list ChatMessage) : string :=
  join_lines (content <$> messages).

(** ** Amounts of money in a text *)

(** [replace(',', "")]. *)
Fixpoint remove_commas (s : string) : string :=
  match s with
  | EmptyString => EmptyString
  | String a s => if Ascii.eqb a "," then remove_commas s else String a (remove_commas s)
  end.

Fixpoint split_point (s : string) : string * option string :=
  match s with
  | EmptyString => (EmptyString, None)
  | String a s =>
      if Ascii.eqb a "." then (EmptyString, Some s)
      else let '(w, f) := split_point s in (String a w, f)
  end.
Fixpoint decimal_digits (acc : Z) (s : string) : option Z :=
  match s with
  | EmptyString => Some acc
  | String a s => d ← digit_value a; decimal_digits (10 * acc + d) s
  end.
(** [str::parse::<f64>] of digits with an optional fraction, the only texts that
    the pattern of amounts captures: the nearest [f64]. *)
Definition parse_f64 (s : string) : option f64 :=
  let '(whole, fraction) := split_point s in
  let f := default EmptyString fraction in
  if is_empty (whole ++ f) then None
  else n ← decimal_digits 0 (whole ++ f);
       Some (match n with
             | Zpos p => f64_div (S754_finite false p 0)
                           (S754_finite false (Z.to_pos (10 ^ Z.of_nat (String.length f))) 0)
             | _ => f64_zero
             end).

(** The patterns of the module, in the order of the source: a quoted [name]
    field, [function_call:], [tool:] (or [tool_call:], [tool_use:]), [calling],
    and an amount after a dollar sign. *)
Inductive Pattern := ReName | ReFn | ReTool | ReCalling | ReAmount.

Section firewall.
Context `{SerdeJson}.
Abbreviation value := (Value Number).
Abbreviation table := (list (string * value)).
Variable from_str : string → option value.
Variable captures : Pattern → string → list string.
Variable detect_all : string → list string.
Variable as_i64 : Number → option Z.
Variable as_f64 : Number → option f64.
Variable num : Z → Number.
Variable fnum : f64 → value.
Variable hash_order : list string → list string.

(** [extract_transaction_stats]: the largest amount and the total. *)
Definition add_amount (stats : option f64 * f64) (capture : string) : option f64 * f64 :=
  match parse_f64 (remove_commas capture) with
  | Some v => (Some (match stats.1 with Some cur => f64_max cur v | None => v end),
               f64_add stats.2 v)
  | None => stats
  end.
Definition extract_transaction_stats (text : string) : option f64 * f64 :=
  foldl add_amount (None, f64_zero) (captures ReAmount text).

(** [extract_tool_actions]. *)
Definition message_actions (m : ChatMessage) : list string :=
  if negb (String.eqb (role m) "assistant") then []
  else to_ascii_lowercase <$>
         (captures ReName (content m) ++ captures ReFn (content m)
          ++ captures ReTool (content m) ++ captures ReCalling (content m)).
Definition extract_tool_actions (messages : list ChatMessage) : list string :=
  filter (λ a, is_empty a = false) (mjoin (message_actions <$> messages)).

Definition contains_suspicious_tool_pattern (text : string) : bool :=
  let lower := to_ascii_lowercase text in
  str_contains "rm -rf" lower || str_contains "sudo " lower || str_contains "drop table" lower
  || str_contains "exfiltrate" lower || str_contains "disable security" lower.

(** ** The configuration *)
Definition cfg_get (cfg : option table) (key : string) : option value := cfg ≫= λ t, map_get t key.
Definition cfg_get2 (cfg : option table) (key sub : string) : option value :=
  get_in (cfg_get cfg key) sub.
Definition json_as_i64 (v : value) : option Z := match v with Num n => as_i64 n | _ => None end.
Definition json_as_f64 (v : value) : option f64 := match v with Num n => as_f64 n | _ => None end.
(** [a.or_else(|| b)]. *)
Definition or_else {A} (a b : option A) : option A := match a with Some _ => a | None => b end.

Definition kill_switch (cfg : option table) (text : string) : bool :=
  default false
    (or_else (cfg_get cfg "kill_switch" ≫= json_as_bool)
       ((λ enabled, enabled && contains_suspicious_tool_pattern text) <$>
          (cfg_get2 cfg "kill_switches" "halt_on_suspicious_pattern" ≫= json_as_bool))).
(** [unwrap_or(0).max(0) as usize]. *)
Definition as_limit (o : option Z) : Z := Z.max (default 0%Z o) 0.
Definition max_actions_per_window (cfg : option table) : Z :=
  as_limit (or_else (cfg_get cfg "max_actions_per_window" ≫= json_as_i64)
                    (cfg_get2 cfg "rate_limits" "default" ≫= json_as_i64)).
Definition max_session_actions (cfg : option table) : Z :=
  as_limit (or_else (cfg_get cfg "max_session_actions" ≫= json_as_i64)
                    (cfg_get cfg "max_actions_per_session" ≫= json_as_i64)).
Definition max_transaction_value (cfg : option table) : f64 :=
  default f64_zero
    (or_else (cfg_get cfg "max_transaction_value" ≫= json_as_f64)
             (cfg_get2 cfg "transaction_limits" "max_single_transaction" ≫= json_as_f64)).
Definition max_daily_total (cfg : option table) : f64 :=
  default f64_zero (cfg_get2 cfg "transaction_limits" "max_daily_total" ≫= json_as_f64).
Definition require_approval_above (cfg : option table) : f64 :=
  default f64_zero (cfg_get2 cfg "transaction_limits" "require_approval_above" ≫= json_as_f64).
Definition detect_pii_in_args (cfg : option table) : bool :=
  default false (or_else (cfg_get cfg "detect_pii_in_args" ≫= json_as_bool)
                         (cfg_get2 cfg "kill_switches" "halt_on_pii_in_action" ≫= json_as_bool)).
Definition configured_roles (cfg : option table) : option table :=
  cfg_get2 cfg "tools" "roles" ≫= json_as_object.

Definition authoritative_roles (identity : option RequestIdentity) : list string :=
  default [] (roles <$> identity).
Definition contains_key (t : table) (key : string) : bool :=
  bool_decide (is_Some (map_get t key)).
Definition matching_roles (cfg : option table) (identity : option RequestIdentity) : list string :=
  match configured_roles cfg with
  | None => []
  | Some t => filter (λ r, contains_key t r = true)
                ((λ r, to_ascii_lowercase (trim r)) <$> authoritative_roles identity)
  end.

(** ** Results *)
Definition firewall_result (v : Verdict) (reason : string) (d : table) : PolicyResult Number :=
  mkPolicyResult "agent-firewall" "tool" v reason (Some (Obj d)) None.
Definition firewall_block (reason : string) (d : table) : PolicyResult Number :=
  firewall_result Block reason d.
Definition count_num (n : nat) : value := Num (num (Z.of_nat n)).

(** ** The checks, each with its early return *)
Abbreviation Check := (option (PolicyResult Number)).

Definition check_kill_switch (cfg : option table) (text : string) : Check :=
  if kill_switch cfg text
  then Some (firewall_block "agent_firewall.kill_switch" [("kill_switch"%string, Bool true)])
  else None.

Definition check_window (cfg : option table) (actions : list string) : Check :=
  let limit := max_actions_per_window cfg in
  if (0 <? limit)%Z && (limit <? Z.of_nat (length actions))%Z
  then Some (firewall_block "agent_firewall.rate_limit_exceeded"
               [("action_count"%string, count_num (length actions));
                ("max_actions_per_window"%string, Num (num limit))])
  else None.

(** The counts of the actions, in the order of the hash map. *)
Definition count (action : string) (actions : list string) : nat :=
  length (filter (λ a, a = action) actions).
Fixpoint check_counts (limits : table) (role_name : string) (actions order : list string) : Check :=
  match order with
  | [] => None
  | action :: order =>
      match map_get limits action ≫= json_as_i64 with
      | Some limit =>
          if (Z.max limit 0 <? Z.of_nat (count action actions))%Z
          then Some (firewall_block "agent_firewall.rate_limit_exceeded"
                       [("action"%string, Str action);
                        ("action_count"%string, count_num (count action actions));
                        ("limit"%string, Num (num limit)); ("role"%string, Str role_name)])
          else check_counts limits role_name actions order
      | None => check_counts limits role_name actions order
      end
  end.
Definition check_rates (cfg : option table) (role_name : string) (actions : list string) : Check :=
  match cfg_get cfg "rate_limits" ≫= json_as_object with
  | None => None
  | Some limits => check_counts limits role_name actions (hash_order (remove_dups actions))
  end.

Definition session_action_count (messages : list ChatMessage) : nat :=
  length (filter (λ m, role m = "assistant"%string) messages).
Definition check_session (cfg : option table) (messages : list ChatMessage) : Check :=
  let limit := max_session_actions cfg in
  if (0 <? limit)%Z && (limit <? Z.of_nat (session_action_count messages))%Z
  then Some (firewall_block "agent_firewall.session_limit_exceeded"
               [("max_session_actions"%string, Num (num limit));
                ("session_action_count"%string, count_num (session_action_count messages))])
  else None.

Definition check_transactions (cfg : option table) (text : string) : Check :=
  match extract_transaction_stats text with
  | (None, _) => None
  | (Some v, total) =>
      if f64_gt (max_transaction_value cfg) f64_zero && f64_gt v (max_transaction_value cfg)
      then Some (firewall_block "agent_firewall.transaction_value_exceeded"
                   [("detected_value"%string, fnum v);
                    ("max_transaction_value"%string, fnum (max_transaction_value cfg))])
      else if f64_gt (max_daily_total cfg) f64_zero && f64_gt total (max_daily_total cfg)
      then Some (firewall_block "agent_firewall.daily_total_exceeded"
                   [("daily_total"%string, fnum total);
                    ("max_daily_total"%string, fnum (max_daily_total cfg))])
      else if f64_gt (require_approval_above cfg) f64_zero && f64_ge v (require_approval_above cfg)
      then Some (firewall_result Escalate "agent_firewall.approval_required"
                   [("detected_value"%string, fnum v);
                    ("require_approval_above"%string, fnum (require_approval_above cfg))])
      else None
  end.

Definition pii_details (hits : list string) : table :=
  [("first_kind"%string, Str (hd EmptyString hits)); ("pii_count"%string, count_num (length hits))].
Fixpoint check_call_arguments (calls : list CanonicalToolCall) : Check :=
  match calls with
  | [] => None
  | call :: calls =>
      match detect_all (call_arguments call) with
      | [] => check_call_arguments calls
      | hits => Some (firewall_block "agent_firewall.pii_in_tool_args"
                        (pii_details hits ++ [("tool"%string, Str (call_name call))]))
      end
  end.
Definition mentions_call (m : ChatMessage) : bool :=
  String.eqb (role m) "assistant"
  && (str_contains "function_call" (content m) || str_contains "tool_calls" (content m)
      || str_contains "arguments" (content m)).
Fixpoint check_message_arguments (messages : list ChatMessage) : Check :=
  match messages with
  | [] => None
  | m :: messages =>
      if mentions_call m then
        match detect_all (content m) with
        | [] => check_message_arguments messages
        | hits => Some (firewall_block "agent_firewall.pii_in_tool_args" (pii_details hits))
        end
      else check_message_arguments messages
  end.
Definition check_pii (cfg : option table) (calls : list CanonicalToolCall)
    (messages : list ChatMessage) : Check :=
  if detect_pii_in_args cfg
  then or_else (check_call_arguments calls) (check_message_arguments messages)
  else None.

Definition check_role (cfg : option table) (identity : option RequestIdentity)
    (actions : list string) : Check :=
  if negb (bool_decide (actions = []))
     && match configured_roles cfg with Some (_ :: _) => true | _ => false end
     && (bool_decide (identity = None) || bool_decide (matching_roles cfg identity = []))
  then Some (firewall_block "agent_firewall.authoritative_role_required"
               [("authenticated"%string, Bool (bool_decide (is_Some identity)));
                ("authoritative_roles"%string, strs (authoritative_roles identity))])
  else None.

(** The first matching role that does not allow the action, with its reason. *)
Fixpoint role_reason (e : ToolAccessEvaluator) (action : string) (rs : list string) :
    option (string * ToolAccessReason) :=
  match rs with
  | [] => None
  | r :: rs =>
      match reason (evaluate e action (Some r)) with
      | Allowed _ => role_reason e action rs
      | why => Some (r, why)
      end
  end.
Definition check_action (e : ToolAccessEvaluator) (role_name : string) (rs : list string)
    (action : string) : Check :=
  let '(effective_role, why) :=
    default (role_name, reason (evaluate e action None)) (role_reason e action rs) in
  match why with
  | Allowed _ => None
  | ExplicitDeny GlobalScope =>
      Some (firewall_block ("agent_firewall.blocked_tool." ++ action) [("tool"%string, Str action)])
  | ExplicitDeny RoleScope =>
      Some (firewall_block "agent_firewall.role_denied_tool"
              [("action"%string, Str action); ("role"%string, Str effective_role)])
  | NotAllowed RoleScope =>
      Some (firewall_block "agent_firewall.role_tool_not_allowed"
              [("action"%string, Str action);
               ("allowed"%string, strs (role_allowed_patterns e effective_role));
               ("role"%string, Str effective_role)])
  | NotAllowed GlobalScope =>
      Some (firewall_block "agent_firewall.tool_not_allowed"
              [("allowed_tools"%string, strs (global_allowed_patterns e));
               ("tool"%string, Str action)])
  end.
Fixpoint check_actions (e : ToolAccessEvaluator) (role_name : string) (rs actions : list string) :
    Check :=
  match actions with
  | [] => None
  | action :: actions =>
      or_else (check_action e role_name rs action) (check_actions e role_name rs actions)
  end.

(** ** The policy *)

Definition inspection_text (messages : list ChatMessage) (calls : list CanonicalToolCall) : string :=
  let structured_arguments :=
    join_lines (filter (λ a, is_empty a = false) (call_arguments <$> calls)) in
  if is_empty structured_arguments then joined_messages messages
  else (joined_messages messages ++ String (ascii_of_nat 10) structured_arguments)%string.
(** The canonical calls of the request, none without a request. *)
Definition structured_calls (request_json : option value) :
    Result (list CanonicalToolCall) ToolCallParseError :=
  match request_json with Some v => canonical_tool_calls from_str v | None => Ok [] end.
Definition firewall_actions (calls : list CanonicalToolCall) (messages : list ChatMessage) :
    list string :=
  (call_name <$> calls) ++ extract_tool_actions messages.

Definition firewall_checks (cfg : option table) (calls : list CanonicalToolCall)
    (messages : list ChatMessage) (identity : option RequestIdentity) : Check :=
  let actions := firewall_actions calls messages in
  let text := inspection_text messages calls in
  let rs := matching_roles cfg identity in
  let role_name := default "unscoped"%string (head rs) in
  or_else (check_kill_switch cfg text)
  (or_else (check_window cfg actions)
  (or_else (check_rates cfg role_name actions)
  (or_else (check_session cfg messages)
  (or_else (check_transactions cfg text)
  (or_else (check_pii cfg calls messages)
  (or_else (check_role cfg identity actions)
           (check_actions (from_agent_firewall_config cfg) role_name rs actions))))))).

Definition evaluate_agent_firewall (config request_json : option value)
    (messages : list ChatMessage) (identity : option RequestIdentity) : PolicyResult Number :=
  let cfg := config ≫= json_as_object in
  match structured_calls request_json with
  | Err e => firewall_block "agent_firewall.malformed_tool_call"
               [("error"%string, Str (tool_call_error_text e))]
  | Ok calls =>
      match firewall_checks cfg calls messages identity with
      | Some r => r
      | None =>
          firewall_result Allow "agent_firewall.allowed"
            [("action_count"%string, count_num (length (firewall_actions calls messages)));
             ("actions"%string, strs (firewall_actions calls messages));
             ("authoritative_permissions"%string, strs (default [] (scopes <$> identity)));
             ("authoritative_roles"%string, strs (authoritative_roles identity));
             ("role"%string, Str (default "unscoped"%string (head (matching_roles cfg identity))));
             ("session_action_count"%string, count_num (session_action_count messages));
             ("structured_action_count"%string, count_num (length calls))]
      end
  end.

(** [evaluate_agent_firewall_tool_calls]: the calls of a stream, wrapped as a
    response. *)
Definition wrap_call (c : CanonicalToolCall) : value :=
  Obj [("arguments"%string, Str (call_arguments c)); ("name"%string, Str (call_name c));
       ("type"%string, Str "function_call")].
Definition wrap_calls (calls : list CanonicalToolCall) : value :=
  Obj [("output"%string, Arr (wrap_call <$> calls))].
Definition evaluate_agent_firewall_tool_calls (config : option value)
    (tool_calls : list CanonicalToolCall) (identity : option RequestIdentity) : PolicyResult Number :=
  evaluate_agent_firewall config (Some (wrap_calls tool_calls)) [] identity.

(** ** What an allowed request satisfies *)

Definition blocking (c : Check) : Prop :=
  match c with
  | Some r => match pr_verdict r with Block | Escalate => True | _ => False end
  | None => True
  end.
Lemma blocking_or_else a b : blocking a → blocking b → blocking (or_else a b).
Proof. by destruct a. Qed.

Lemma check_counts_blocking limits n actions order : blocking (check_counts limits n actions order).
Proof. induction order as [|a order IH]; [done|]. simpl. by repeat case_match. Qed.
Lemma check_call_arguments_blocking calls : blocking (check_call_arguments calls).
Proof. induction calls as [|c calls IH]; [done|]. simpl. by case_match. Qed.
Lemma check_message_arguments_blocking ms : blocking (check_message_arguments ms).
Proof. induction ms as [|m ms IH]; [done|]. simpl. by repeat case_match. Qed.
Lemma check_actions_blocking e n rs actions : blocking (check_actions e n rs actions).
Proof.
  induction actions as [|a actions IH]; [done|]. simpl. apply blocking_or_else; [|done].
  unfold check_action. by repeat case_match.
Qed.

Lemma firewall_checks_blocking cfg calls messages identity :
  blocking (firewall_checks cfg calls messages identity).
Proof.
  unfold firewall_checks. repeat apply blocking_or_else.
  - unfold check_kill_switch. by case_match.
  - unfold check_window. by case_match.
  - unfold check_rates. case_match; [apply check_counts_blocking|done].
  - unfold check_session. by case_match.
  - unfold check_transactions. by repeat case_match.
  - unfold check_pii. case_match; [|done].
    apply blocking_or_else; [apply check_call_arguments_blocking|apply check_message_arguments_blocking].
  - unfold check_role. by case_match.
  - apply check_actions_blocking.
Qed.

Lemma or_else_none {A} (a b : option A) : or_else a b = None ↔ a = None ∧ b = None.
Proof. by destruct a; naive_solver. Qed.

Lemma firewall_allow_checks config request messages identity :
  pr_verdict (evaluate_agent_firewall config request messages identity) = Allow ↔
  ∃ calls, structured_calls request = Ok calls
    ∧ firewall_checks (config ≫= json_as_object) calls messages identity = None.
Proof.
  unfold evaluate_agent_firewall. destruct (structured_calls request) as [calls|e].
  - pose proof (firewall_checks_blocking (config ≫= json_as_object) calls messages identity) as Hb.
    destruct (firewall_checks _ _ _ _) as [r|] eqn:E.
    + split; [|intros (c&[= <-]&?); congruence]. intros Ha. simpl in Hb. by rewrite Ha in Hb.
    + split; [|done]. intros _. by exists calls.
  - split; [done|]. by intros (?&?&_).
Qed.

Lemma firewall_never_redacts config request messages identity :
  pr_verdict (evaluate_agent_firewall config request messages identity) ≠ Redact.
Proof.
  unfold evaluate_agent_firewall. destruct (structured_calls request) as [calls|e]; [|done].
  pose proof (firewall_checks_blocking (config ≫= json_as_object) calls messages identity) as Hb.
  destruct (firewall_checks _ _ _ _) as [r|]; [|done]. intros E. simpl in Hb. by rewrite E in Hb.
Qed.

(** ** The checks, as conditions *)

(** No action occurs more often than the limit configured under its name. *)
Definition rates_respected (cfg : option table) (actions : list string) : Prop :=
  ∀ limits action limit,
    cfg_get cfg "rate_limits" ≫= json_as_object = Some limits → action ∈ actions →
    map_get limits action ≫= json_as_i64 = Some limit →
    (Z.of_nat (count action actions) <= Z.max limit 0)%Z.

Lemma check_counts_none limits n actions order :
  check_counts limits n actions order = None ↔
  ∀ action limit, action ∈ order → map_get limits action ≫= json_as_i64 = Some limit →
    (Z.of_nat (count action actions) <= Z.max limit 0)%Z.
Proof.
  induction order as [|a order IH]; simpl.
  { split; [|done]. by intros _ ? ? ?%elem_of_nil. }
  setoid_rewrite elem_of_cons. destruct (map_get limits a ≫= json_as_i64) as [l|] eqn:El.
  - destruct (Z.ltb_spec (Z.max l 0) (Z.of_nat (count a actions))) as [Hlt|Hge].
    + split; [done|]. intros Hall. specialize (Hall a l (or_introl eq_refl) El). lia.
    + rewrite IH. split; [|by eauto]. intros Hall b m [->|Hb] Hm; [|by eauto]. by simplify_eq.
  - rewrite IH. split; [|by eauto]. intros Hall b m [->|Hb] Hm; [|by eauto]. congruence.
Qed.

Lemma check_rates_none cfg n actions :
  hash_order (remove_dups actions) ≡ₚ remove_dups actions →
  check_rates cfg n actions = None ↔ rates_respected cfg actions.
Proof.
  intros Hp. unfold check_rates, rates_respected.
  destruct (cfg_get cfg "rate_limits" ≫= json_as_object) as [limits|]; [|naive_solver].
  rewrite check_counts_none. split.
  - intros Hall ? a l [= <-] Ha. apply Hall. rewrite Hp. by apply elem_of_remove_dups.
  - intros Hall a l Ha. apply (Hall limits a l eq_refl). rewrite Hp in Ha.
    by apply elem_of_remove_dups.
Qed.

(** What detection of personal data must not find. *)
Definition arguments_clean (cfg : option table) (calls : list CanonicalToolCall)
    (messages : list ChatMessage) : Prop :=
  detect_pii_in_args cfg = true →
  Forall (λ c, detect_all (call_arguments c) = []) calls
  ∧ Forall (λ m, mentions_call m = true → detect_all (content m) = []) messages.

Lemma check_call_arguments_none calls :
  check_call_arguments calls = None ↔ Forall (λ c, detect_all (call_arguments c) = []) calls.
Proof.
  induction calls as [|c calls IH]; [by rewrite Forall_nil|]. rewrite Forall_cons. simpl.
  destruct (detect_all (call_arguments c)); [|by split; [|intros [[=] _]]]. rewrite IH. tauto.
Qed.
Lemma check_message_arguments_none ms :
  check_message_arguments ms = None ↔
  Forall (λ m, mentions_call m = true → detect_all (content m) = []) ms.
Proof.
  induction ms as [|m ms IH]; [by rewrite Forall_nil|]. rewrite Forall_cons. simpl.
  destruct (mentions_call m), (detect_all (content m)); rewrite ?IH; try tauto.
  - split; [done|]. by intros [Hm _]; discriminate Hm.
  - split; [|tauto]. intros Hf. by split.
Qed.
Lemma check_pii_none cfg calls ms : check_pii cfg calls ms = None ↔ arguments_clean cfg calls ms.
Proof.
  unfold check_pii, arguments_clean. destruct (detect_pii_in_args cfg); [|by split; [intros _ [=]|]].
  rewrite or_else_none, check_call_arguments_none, check_message_arguments_none. tauto.
Qed.

(** A configuration with roles requires one of them of whoever acts. *)
Definition role_held (cfg : option table) (identity : option RequestIdentity)
    (actions : list string) : Prop :=
  actions = [] ∨ default [] (configured_roles cfg) = []
  ∨ identity ≠ None ∧ matching_roles cfg identity ≠ [].
Lemma check_role_none cfg identity actions :
  check_role cfg identity actions = None ↔ role_held cfg identity actions.
Proof.
  unfold check_role, role_held. destruct (configured_roles cfg) as [[|kv t]|]; simpl.
  1, 3: rewrite andb_false_r; simpl; tauto.
  rewrite andb_true_r. repeat case_bool_decide; simpl; try tauto.
  all: split; [done|]; intros [|[[=]|[]]]; tauto.
Qed.

Lemma evaluate_global_reason e action :
  verdict (evaluate_global e action) = Allow ↔ ∃ s, reason (evaluate_global e action) = Allowed s.
Proof.
  unfold evaluate_global. repeat case_match; simpl; split; try done; try (by intros [? [=]]); by eexists.
Qed.
Lemma allows_reason e action r :
  allows e action r = true ↔ ∃ s, reason (evaluate e action r) = Allowed s.
Proof.
  unfold allows. rewrite bool_decide_eq_true. unfold evaluate.
  repeat case_match; try apply evaluate_global_reason; simpl; split; try done;
    try (by intros [? [=]]); by eexists.
Qed.
Lemma role_reason_spec e action rs :
  match role_reason e action rs with
  | None => Forall (λ r, allows e action (Some r) = true) rs
  | Some (_, why) => (∀ s, why ≠ Allowed s) ∧ ¬ Forall (λ r, allows e action (Some r) = true) rs
  end.
Proof.
  induction rs as [|r rs IH]; [by constructor|]. cbn [role_reason].
  pose proof (allows_reason e action (Some r)) as Hr.
  destruct (reason (evaluate e action (Some r))) as [s|s|s].
  - assert (allows e action (Some r) = true) by (apply Hr; by eexists).
    destruct (role_reason e action rs) as [[]|]; rewrite Forall_cons; [|tauto]. destruct IH. tauto.
  - rewrite Forall_cons. split; [done|]. intros [[? [=]]%Hr _].
  - rewrite Forall_cons. split; [done|]. intros [[? [=]]%Hr _].
Qed.
Lemma check_action_none e n rs action :
  check_action e n rs action = None ↔
  allows e action None = true ∧ Forall (λ r, allows e action (Some r) = true) rs.
Proof.
  pose proof (role_reason_spec e action rs) as Hr. unfold check_action. rewrite allows_reason.
  destruct (role_reason e action rs) as [[r why]|]; cbn [default].
  - destruct Hr as [Hne Hno]. destruct why as [s|[]|[]]; [by destruct (Hne s)|..]; by split; [|intros []].
  - destruct (reason (evaluate e action None)) as [s|[]|[]];
      [split; [|done]; intros _; split; [by eexists|done]|..]; by split; [|intros [[? [=]] _]].
Qed.
Lemma check_actions_none e n rs actions :
  check_actions e n rs actions = None ↔
  Forall (λ a, allows e a None = true ∧ Forall (λ r, allows e a (Some r) = true) rs) actions.
Proof.
  induction actions as [|a actions IH]; [by rewrite Forall_nil|].
  rewrite Forall_cons. simpl. by rewrite or_else_none, check_action_none, IH.
Qed.

(** The patterns that decide for a role (or for nobody in particular) cover the
    action, and none of those that deny does. *)
Definition grants (e : ToolAccessEvaluator) (action : string) (r : option string) : Prop :=
  covered (allowed (effective e r)) action ∧ ¬ covered (denied (effective e r)) action.
(** Granted globally, and by each of the caller's configured roles. *)
Definition permitted (cfg : option table) (identity : option RequestIdentity)
    (action : string) : Prop :=
  grants (from_agent_firewall_config cfg) action None
  ∧ Forall (λ r, grants (from_agent_firewall_config cfg) action (Some r))
      (matching_roles cfg identity).
(** A limit of zero does not limit. *)
Definition within (limit : Z) (n : nat) : Prop := (0 < limit → Z.of_nat n <= limit)%Z.
(** The three transaction limits, each in force when positive. *)
Definition transactions_within (cfg : option table) (text : string) : Prop :=
  ∀ v total, extract_transaction_stats text = (Some v, total) →
    f64_gt (max_transaction_value cfg) f64_zero && f64_gt v (max_transaction_value cfg) = false
    ∧ f64_gt (max_daily_total cfg) f64_zero && f64_gt total (max_daily_total cfg) = false
    ∧ f64_gt (require_approval_above cfg) f64_zero && f64_ge v (require_approval_above cfg) = false.

Lemma check_transactions_none cfg text :
  check_transactions cfg text = None ↔ transactions_within cfg text.
Proof.
  unfold check_transactions, transactions_within.
  destruct (extract_transaction_stats text) as [[v|] total]; [|by split; [intros _ ? ? [=]|]].
  split.
  - intros Hc ? ? [= <- <-]. by repeat case_match.
  - intros Ht. by destruct (Ht v total eq_refl) as (->&->&->).
Qed.
Lemma limit_exceeded (limit : Z) (n : nat) :
  ((0 <? limit)%Z && (limit <? Z.of_nat n)%Z = false) ↔ within limit n.
Proof.
  unfold within. rewrite andb_false_iff, !Z.ltb_ge. lia.
Qed.
Lemma guard_none {A} (b : bool) (x : A) : (if b then Some x else None) = None ↔ b = false.
Proof. by destruct b. Qed.
Lemma permitted_checks cfg identity n actions :
  check_actions (from_agent_firewall_config cfg) n (matching_roles cfg identity) actions = None
  ↔ Forall (permitted cfg identity) actions.
Proof.
  rewrite check_actions_none. apply Forall_iff. intros a. unfold permitted, grants.
  rewrite allows_effective. apply and_iff_compat_l, Forall_iff. intros r. apply allows_effective.
Qed.

Lemma firewall_allow_permits config request messages identity :
  pr_verdict (evaluate_agent_firewall config request messages identity) = Allow →
  ∃ calls, structured_calls request = Ok calls
    ∧ Forall (permitted (config ≫= json_as_object) identity) (firewall_actions calls messages).
Proof.
  intros (calls&Hs&Hc)%firewall_allow_checks. exists calls. split; [done|].
  unfold firewall_checks in Hc. rewrite !or_else_none, permitted_checks in Hc.
  by destruct Hc as (_&_&_&_&_&_&_&Hc).
Qed.

(** C14. The agent firewall allows a request exactly when its structured tool calls
    parse, the kill switch is off, the window, per-action, session and
    transaction limits hold, no personal data is found where detection is asked
    for, a configured role is held if any are configured, and every action,
    structured or found in the text, is granted globally and by each configured
    role of the verified caller; the order of the hash map that counts the
    actions plays no part. *)
Theorem firewall_allow_exact config request messages identity :
  (∀ l, hash_order l ≡ₚ l) →
  pr_verdict (evaluate_agent_firewall config request messages identity) = Allow ↔
  let cfg := config ≫= json_as_object in
  ∃ calls, structured_calls request = Ok calls
    ∧ let actions := firewall_actions calls messages in
      let text := inspection_text messages calls in
      kill_switch cfg text = false
      ∧ within (max_actions_per_window cfg) (length actions)
      ∧ rates_respected cfg actions
      ∧ within (max_session_actions cfg) (session_action_count messages)
      ∧ transactions_within cfg text
      ∧ arguments_clean cfg calls messages
      ∧ role_held cfg identity actions
      ∧ Forall (permitted cfg identity) actions.
Proof.
  intros Hord. rewrite firewall_allow_checks. apply exist_proper. intros calls.
  apply and_iff_compat_l. unfold firewall_checks. rewrite !or_else_none.
  rewrite check_rates_none, check_transactions_none, check_pii_none, check_role_none,
    permitted_checks by done.
  unfold check_kill_switch, check_window, check_session. rewrite !guard_none.
  by rewrite !limit_exceeded.
Qed.

(** ** The calls of a stream *)
Lemma wrapped_item c acc :
  responses_item from_str (wrap_call c) acc
  = push_call from_str (mkPartial (call_name c) (call_arguments c) true) acc.
Proof.
  transitivity (then_calls (push_call from_str (mkPartial (call_name c) (call_arguments c) true) acc)
                  Ok); [done|]. by destruct (push_call _ _ _).
Qed.
Lemma collect_wrapped calls acc :
  Forall (json_call from_str) calls →
  collect_responses_items from_str (wrap_call <$> calls) acc = Ok (acc ++ calls).
Proof.
  revert acc. induction calls as [|c calls IH]; intros acc Hf; [by rewrite app_nil_r|].
  apply Forall_cons in Hf as [[Hc Hj] Hf].
  unfold collect_responses_items. cbn [fmap list_fmap for_each]. rewrite wrapped_item.
  unfold push_call. rewrite finalize_canonical by done.
  etransitivity; [by apply IH|]. by rewrite <- app_assoc.
Qed.
Lemma wrap_calls_parse calls :
  Forall (json_call from_str) calls →
  canonical_tool_calls from_str (wrap_calls calls) = Ok calls.
Proof.
  intros Hf. transitivity (then_calls (then_calls (collect_responses_items from_str
    (wrap_call <$> calls) []) Ok) Ok); [|by rewrite collect_wrapped].
  unfold canonical_tool_calls. simpl. by destruct (collect_responses_items _ _ _).
Qed.
Lemma finish_json acc calls :
  finish from_str acc = Ok calls →
  Forall (λ kp, requires_json_arguments kp.2 = true) acc → Forall (json_call from_str) calls.
Proof.
  revert calls. induction acc as [|[k p] acc IH]; intros calls; simpl; [by intros [= <-]|].
  destruct (finalize_partial_call from_str p) eqn:E; [|done]. destruct (finish from_str acc); [|done].
  intros [= <-] [Hp Hf]%Forall_cons. constructor; [|by apply IH].
  apply finalize_ok in E as [Hc Hj]. split; [done|by apply Hj].
Qed.

(** The calls of a finished stream are the calls that the firewall judges: when
    all of them carry JSON arguments and the firewall lets the stream through,
    the stream holds one call per key and the tool of every one of them is
    permitted. *)
Theorem streamed_calls_permitted config acc calls identity :
  finish from_str acc = Ok calls → Forall (λ kp, requires_json_arguments kp.2 = true) acc →
  pr_verdict (evaluate_agent_firewall_tool_calls config calls identity) = Allow →
  length calls = length acc
  ∧ Forall (permitted (config ≫= json_as_object) identity) (call_name <$> calls).
Proof.
  intros Hf Hj Hv. split.
  - by apply (finish_all from_str (λ _, True)) in Hf as [_ ?].
  - apply firewall_allow_permits in Hv as (found&Hs&Hc). simpl in Hs.
    rewrite wrap_calls_parse in Hs by by apply (finish_json acc). injection Hs as <-.
    unfold firewall_actions in Hc. by apply Forall_app in Hc as [? _].
Qed.

(** ** Arguments that are not JSON *)
Lemma collect_not_json calls acc c :
  Forall canonical_call calls → c ∈ calls → call_arguments c ≠ EmptyString →
  from_str (call_arguments c) = None →
  collect_responses_items from_str (wrap_call <$> calls) acc = Err IncompleteArguments.
Proof.
  unfold collect_responses_items. intros Hf Hin Ha Hn. revert acc Hf.
  induction Hin as [c calls|c d calls Hin IH]; intros acc [Hc Hf]%Forall_cons;
    cbn [fmap list_fmap for_each]; rewrite wrapped_item; unfold push_call.
  - by rewrite finalize_not_json.
  - rewrite finalize_named by done. destruct (negb _ && negb _); [done|]. by apply IH.
Qed.

(** A streamed call whose arguments are not JSON is always blocked as
    malformed, whatever the configuration: the stream's calls are wrapped as
    function calls, so that the exemption of custom tool calls from JSON
    arguments, which the parser of whole documents grants, is lost. *)
Theorem free_form_arguments_blocked config calls identity c :
  Forall canonical_call calls → c ∈ calls → call_arguments c ≠ EmptyString →
  from_str (call_arguments c) = None →
  evaluate_agent_firewall_tool_calls config calls identity
  = firewall_block "agent_firewall.malformed_tool_call"
      [("error"%string, Str "structured tool call has incomplete JSON arguments")].
Proof.
  intros Hf Hin Ha Hn.
  assert (Hp : structured_calls (Some (wrap_calls calls)) = Err IncompleteArguments).
  { transitivity (then_calls (then_calls (collect_responses_items from_str
      (wrap_call <$> calls) []) Ok) Ok); [|by rewrite (collect_not_json calls [] c)].
    simpl. unfold canonical_tool_calls. simpl. by destruct (collect_responses_items _ _ _). }
  unfold evaluate_agent_firewall_tool_calls, evaluate_agent_firewall. by rewrite Hp.
Qed.

(** ** Upper case in patterns *)
Definition upper (a : ascii) : bool := (65 <=? N_of_ascii a)%N && (N_of_ascii a <=? 90)%N.
Fixpoint has_upper (s : string) : bool :=
  match s with EmptyString => false | String a s => upper a || has_upper s end.

Lemma has_upper_app s t : has_upper (s ++ t) = has_upper s || has_upper t.
Proof. induction s as [|a s IH]; [done|]. simpl. by rewrite IH, orb_assoc. Qed.
Lemma globs_upper pattern text : globs pattern text → has_upper pattern = true → has_upper text = true.
Proof.
  induction 1 as [|c p t Hc Hg IH|p s t Hg IH]; simpl; [done| |].
  - rewrite !orb_true_iff. tauto.
  - rewrite has_upper_app, orb_true_iff. intros Hp. right. by apply IH.
Qed.
Lemma lowercase_not_upper s : has_upper (to_ascii_lowercase s) = false.
Proof.
  induction s as [|a s IH]; [done|]. simpl. rewrite IH.
  unfold upper. by rewrite lower_byte_not_upper.
Qed.
Lemma canonical_not_upper s : string_all canonical_char s = true → has_upper s = false.
Proof. intros [_ <-]%canonical_name_plain. apply lowercase_not_upper. Qed.

Lemma firewall_actions_lower request calls messages a :
  structured_calls request = Ok calls → a ∈ firewall_actions calls messages → has_upper a = false.
Proof.
  intros Hs Ha. unfold firewall_actions in Ha. apply elem_of_app in Ha as [Ha|Ha].
  - apply list_elem_of_fmap in Ha as (c&->&Hc). destruct request as [v|]; simpl in Hs.
    + assert (Hall : Forall canonical_call calls)
        by (apply (canonical_tool_calls_keeps from_str canonical_call) in Hs; [done|];
            intros p d E; by apply finalize_ok in E as [? _]).
      rewrite Forall_forall in Hall. destruct (Hall c Hc) as (_&Hn&_). by apply canonical_not_upper.
    + injection Hs as <-. by apply elem_of_nil in Hc.
  - unfold extract_tool_actions in Ha. apply list_elem_of_filter in Ha as [_ Ha].
    apply list_elem_of_join in Ha as (l&Ha&Hl). apply list_elem_of_fmap in Hl as (m&->&_).
    unfold message_actions in Ha. destruct (negb _); [by apply elem_of_nil in Ha|].
    apply list_elem_of_fmap in Ha as (s&->&_). apply lowercase_not_upper.
Qed.

Definition with_blocked (blocked : list string) (rest : table) : value :=
  Obj (("blocked_tools"%string, strs blocked) :: rest).

Lemma evaluate_inert e1 e2 p action r :
  role_policies e1 = role_policies e2 → role_fallback_mode e1 = role_fallback_mode e2 →
  allowed (global e1) = allowed (global e2) → denied (global e1) = p :: denied (global e2) →
  has_upper p = true → has_upper action = false → evaluate e1 action r = evaluate e2 action r.
Proof.
  intros Hr Hm Ha Hd Hp Hn.
  assert (Hg : evaluate_global e1 action = evaluate_global e2 action).
  { unfold evaluate_global. rewrite Ha, Hd. cbn [matches_any existsb].
    destruct (glob_match p action) eqn:E; [|done].
    apply glob_match_globs in E. apply globs_upper in E; congruence. }
  unfold evaluate. by rewrite Hr, Hm, Hg.
Qed.
Lemma check_actions_inert e1 e2 p n rs actions :
  role_policies e1 = role_policies e2 → role_fallback_mode e1 = role_fallback_mode e2 →
  allowed (global e1) = allowed (global e2) → denied (global e1) = p :: denied (global e2) →
  has_upper p = true → (∀ a, a ∈ actions → has_upper a = false) →
  check_actions e1 n rs actions = check_actions e2 n rs actions.
Proof.
  intros Hr Hm Ha Hd Hp. induction actions as [|a actions IH]; intros Hn; [done|].
  cbn [check_actions]. rewrite IH by (intros; apply Hn; by right). f_equal.
  assert (He : ∀ r, evaluate e1 a r = evaluate e2 a r)
    by (intros r; apply (evaluate_inert e1 e2 p); try done; apply Hn; by left).
  assert (Hrr : role_reason e1 a rs = role_reason e2 a rs).
  { clear IH. induction rs as [|r rs IHr]; [done|]. cbn [role_reason]. by rewrite He, IHr. }
  unfold check_action, role_allowed_patterns, global_allowed_patterns. by rewrite He, Hrr, Hr, Ha.
Qed.

(** A blocked-tool pattern with an upper-case letter blocks nothing: the names
    of actions are lower-cased before they are matched and patterns are not, so
    that adding such a pattern to any configuration changes no decision on any
    request, even one that calls the tool by exactly that name. *)
Theorem mixed_case_block_inert p blocked rest request messages identity :
  has_upper p = true →
  evaluate_agent_firewall (Some (with_blocked (p :: blocked) rest)) request messages identity
  = evaluate_agent_firewall (Some (with_blocked blocked rest)) request messages identity.
Proof.
  intros Hp. unfold evaluate_agent_firewall. destruct (structured_calls request) as [calls|e] eqn:Es;
    [|done].
  replace (firewall_checks (Some (with_blocked (p :: blocked) rest) ≫= json_as_object))
    with (firewall_checks (Some (("blocked_tools"%string, strs (p :: blocked)) :: rest))) by done.
  replace (firewall_checks (Some (with_blocked blocked rest) ≫= json_as_object))
    with (firewall_checks (Some (("blocked_tools"%string, strs blocked) :: rest))) by done.
  assert (Hc : firewall_checks (Some (("blocked_tools"%string, strs (p :: blocked)) :: rest))
                 calls messages identity
               = firewall_checks (Some (("blocked_tools"%string, strs blocked) :: rest))
                   calls messages identity).
  { unfold firewall_checks. do 7 f_equal. apply (check_actions_inert _ _ p); try done.
    intros a. by apply (firewall_actions_lower request). }
  by rewrite Hc.
Qed.
End firewall.

(** ** A model of the arguments *)
Module FirewallModel.
(** No text matches a pattern, no text holds personal data. *)
Definition captures (p : Pattern) (text : string) : list string := [].
Definition detect_all (text : string) : list string := [].
Definition as_i64 (z : Z) : option Z := Some z.
Definition as_f64 (z : Z) : option f64 := Some (f64_of_u64 z).
Definition num (z : Z) : Z := z.
Definition fnum (f : f64) : Value Z := Null.
Definition hash_order (l : list string) : list string := reverse l.
Lemma hash_order_perm l : hash_order l ≡ₚ l.
Proof. apply reverse_Permutation. Qed.

Definition admin : RequestIdentity :=
  mkIdentity ApiToken "https://issuer" "ann" "key-1" "acme" [] ["Admin"%string] [] SingleFactor None.
Definition config : Value Z :=
  Obj [("allowed_tools"%string, strs ["read_*"; "delete"]%string);
       ("blocked_tools"%string, strs ["*_secret"%string]);
       ("tools"%string, Obj [("roles"%string,
          Obj [("admin"%string, Obj [("denied"%string, strs ["delete"%string])])])])].
Definition read_call : CanonicalToolCall := mkCall "read_file" EmptyString.
Definition acc : list (string * PartialToolCall) :=
  [("chat:0:0"%string, mkPartial "Read_File" EmptyString true)].
Definition patch_call : CanonicalToolCall := mkCall "apply_patch" "[DONE]".

Abbreviation firewall :=
  (evaluate_agent_firewall (H := JsonModel.json) ToolModel.from_str captures detect_all as_i64 as_f64 num fnum hash_order).
Abbreviation stream_firewall :=
  (evaluate_agent_firewall_tool_calls (H := JsonModel.json) ToolModel.from_str captures detect_all as_i64 as_f64 num fnum
     hash_order).
End FirewallModel.
Import FirewallModel.

Lemma firewall_allow_exact_witness :
  ∃ calls, structured_calls (H := JsonModel.json) ToolModel.from_str (Some (wrap_calls [read_call])) = Ok calls
    ∧ Forall (permitted (H := JsonModel.json) (json_as_object config) (Some admin)) (firewall_actions captures calls []).
Proof.
  destruct (proj1 (firewall_allow_exact (H := JsonModel.json) ToolModel.from_str captures detect_all as_i64 as_f64 num fnum
    hash_order (Some config) (Some (wrap_calls [read_call])) [] (Some admin) hash_order_perm))
    as (calls&Hs&_&_&_&_&_&_&_&Hp); [vm_compute; reflexivity|].
  exists calls. split; [exact Hs|exact Hp].
Defined.

Lemma streamed_calls_permitted_witness :
  Forall (permitted (H := JsonModel.json) (json_as_object config) (Some admin)) ["read_file"%string].
Proof.
  apply (streamed_calls_permitted (H := JsonModel.json) ToolModel.from_str captures detect_all as_i64 as_f64 num fnum
    hash_order (Some config) acc [read_call] (Some admin)).
  - vm_compute. reflexivity.
  - by repeat constructor.
  - vm_compute. reflexivity.
Defined.

Lemma free_form_arguments_blocked_witness :
  reason_code (stream_firewall None [read_call; patch_call] (Some admin))
  = "agent_firewall.malformed_tool_call"%string.
Proof.
  rewrite (free_form_arguments_blocked (H := JsonModel.json) ToolModel.from_str captures detect_all as_i64 as_f64 num fnum
    hash_order None [read_call; patch_call] (Some admin) patch_call).
  - reflexivity.
  - repeat constructor; by vm_compute.
  - right. left.
  - done.
  - reflexivity.
Defined.

Lemma mixed_case_block_inert_witness :
  pr_verdict (firewall (Some (with_blocked ["deleteRecord"%string] []))
                (Some (wrap_calls [mkCall "deleteRecord" EmptyString])) [] None) = Allow.
Proof.
  rewrite (mixed_case_block_inert (H := JsonModel.json) ToolModel.from_str captures detect_all as_i64 as_f64 num fnum
    hash_order "deleteRecord" [] []).
  - vm_compute. reflexivity.
  - reflexivity.
Defined.
