(* ===== verification/PolicyChain.v ===== *)
(** * PolicyChain: which policies judge a request, and the decision
    (src/src/gateway/enforcement.rs, server_sections/runtime_pipeline/part2.rs)

    Targeting, predicates and chain entries; the evaluation of a chain at a
    stage, sequential entries and parallel batches alike; and the merging of the
    decisions of the stages.  Arguments stand for the regular-expression
    library (a pattern either does not compile or is a test of names), for the
    derived deserialisers of predicates and stages, for the headers, and for the
    policies of the kinds that have no model here. *)

From Stdlib Require Import ZArith Ascii String.
From stdpp Require Import base gmap strings list sorting.
From S2P Require Import Prelude Text Float Lww Policy ToolAccess Rbac ToolCalls Firewall.

Definition eq_ignore_ascii_case (a b : string) : bool :=
  String.eqb (to_ascii_lowercase a) (to_ascii_lowercase b).

Inductive GatewaySelector :=
| AllGateways
| Single (name : string)
| Names (names : list string)
| SelectorRegex (regex : string).

Inductive TargetingScope := Organization | Team.

Record PolicyTargeting := mkTargeting {
  scope : TargetingScope;
  teams : option (list string);
  gateways : option GatewaySelector;
}.
Definition PolicyTargeting_default : PolicyTargeting := mkTargeting Organization None None.

Inductive ExecutionStage := PreRequest | PostRequest | PreResponse.
#[export] Instance ExecutionStage_eq_dec : EqDecision ExecutionStage.
Proof. solve_decision. Defined.
Definition stage_str (s : ExecutionStage) : string :=
  match s with
  | PreRequest => "pre_request"
  | PostRequest => "post_request"
  | PreResponse => "pre_response"
  end.

(** [WhenPredicate]; the hash map of headers as the list of its entries. *)
Record WhenPredicate := mkWhen {
  when_path : option string;
  when_header : option (list (string * string));
  when_model : option (list string);
}.
Definition WhenPredicate_default : WhenPredicate := mkWhen None None None.

Record ChainEntry := mkEntry {
  kind : string;
  when_ : WhenPredicate;
  entry_stage : option ExecutionStage;
  parallel : bool;
  targeting : option PolicyTargeting;
  has_when_predicate : bool;
}.
Definition from_parts (k : string) (w : WhenPredicate) (s : option ExecutionStage) (p : bool)
    (t : option PolicyTargeting) : ChainEntry := mkEntry k w s p t true.
Definition when_predicate (e : ChainEntry) : option WhenPredicate :=
  if has_when_predicate e then Some (when_ e) else None.

Definition OUTPUT_PHASE_ONLY_POLICY_KINDS : list string :=
  ["flagged-review"; "quality-scorer"; "human-oversight"; "citation-verifier"; "mnpi-filter";
   "financial-compliance"; "healthcare-compliance"; "legal-privilege"; "upl-filter";
   "bias-monitor"; "response-rewriter"; "request-rewriter"]%string.
Definition is_runtime_managed_policy (k : string) : bool :=
  bool_decide (k ∈ OUTPUT_PHASE_ONLY_POLICY_KINDS).
Definition default_stage_for_kind (k : string) : ExecutionStage :=
  if bool_decide (k ∈ OUTPUT_PHASE_ONLY_POLICY_KINDS) then PreResponse else PreRequest.
Definition stage_of (e : ChainEntry) : ExecutionStage :=
  default (default_stage_for_kind (kind e)) (entry_stage e).
Definition entry_runs_at_stage (e : ChainEntry) (s : ExecutionStage) : bool :=
  bool_decide (stage_of e = s)
  || String.eqb (kind e) "agent-firewall" && bool_decide (s = PreResponse).

(** ** Targeting *)
Section targeting.
Variable regex : string → option (string → bool).

(** [GatewaySelector::matches]. *)
Definition selector_matches (s : GatewaySelector) (gateway_name : option string) : bool :=
  match s with
  | AllGateways => true
  | Single name =>
      match gateway_name with Some pn => eq_ignore_ascii_case pn name | None => false end
  | Names names =>
      match gateway_name with
      | Some pn => existsb (eq_ignore_ascii_case pn) names
      | None => false
      end
  | SelectorRegex pattern =>
      match regex pattern with
      | Some is_match => is_match (default EmptyString gateway_name)
      | None => false
      end
  end.

(** [PolicyTargeting::is_applicable]. *)
Definition is_applicable (t : PolicyTargeting) (gateway_name : option string)
    (request_team_slugs : list string) : bool :=
  if negb (match gateways t with Some s => selector_matches s gateway_name | None => true end)
  then false
  else match scope t with
       | Organization => true
       | Team =>
           match teams t with
           | Some ((_ :: _) as declared) =>
               match request_team_slugs with
               | [] => false
               | _ => existsb (λ rt, existsb (eq_ignore_ascii_case rt) declared) request_team_slugs
               end
           | _ => false
           end
       end.
Definition is_applicable_for (e : ChainEntry) (gateway_name : option string)
    (request_team_slugs : list string) : bool :=
  match targeting e with
  | None => true
  | Some t => is_applicable t gateway_name request_team_slugs
  end.

(** [effective_chain_for_request]: the chain of the consumer group, else of the
    matched route, else of the gateway, less the entries that do not apply. *)
Definition effective_chain_for_request (group_chain route_chain : option (list ChainEntry))
    (chain_entries : list ChainEntry) (gateway_id : option string)
    (request_team_slugs : list string) : list ChainEntry :=
  filter (λ e, is_applicable_for e gateway_id request_team_slugs = true)
    (match group_chain with
     | Some chain => chain
     | None => match route_chain with Some chain => chain | None => chain_entries end
     end).
End targeting.

(** ** Parsing of configuration *)
Inductive ChainError :=
| EmptySelectorArray
| BadSelectorRegex (pattern : string)
| BadSelector
| BadScope (other : string)
| LegacyProxies
| NotOneKey (n : nat)
| BadWhen (k : string)
| PostResponseStage (k : string)
| BadStage (k : string)
| BadTargeting (k : string) (e : ChainError)
| NotAnEntry.

Section parsing.
Context {Number : Type}.
Abbreviation value := (Value Number).
Variable regex : string → option (string → bool).
Variable when_from_value : value → option WhenPredicate.
Variable stage_from_value : value → option ExecutionStage.

(** [GatewaySelector::from_json]. *)
Definition selector_from_json (v : value) : Result GatewaySelector ChainError :=
  match v with
  | Null => Ok AllGateways
  | Str s => Ok (if String.eqb s "*" then AllGateways else Single s)
  | Arr _ =>
      match string_array v with
      | [] => Err EmptySelectorArray
      | names => Ok (Names names)
      end
  | Obj kvs =>
      match map_get kvs "regex" ≫= json_as_str with
      | Some re =>
          match regex re with
          | Some _ => Ok (SelectorRegex re)
          | None => Err (BadSelectorRegex re)
          end
      | None => Err BadSelector
      end
  | _ => Err BadSelector
  end.

Definition targeting_scope (v : value) : Result TargetingScope ChainError :=
  match json_get v "scope" ≫= json_as_str with
  | None => Ok Organization
  | Some s =>
      if String.eqb s "team" then Ok Team
      else if String.eqb s "organization" then Ok Organization
      else Err (BadScope s)
  end.
Definition empty_or_null (v : value) : bool :=
  match v with Null => true | Obj [] => true | _ => false end.
(** [PolicyTargeting::from_json]. *)
Definition targeting_from_json (v : value) : Result PolicyTargeting ChainError :=
  if empty_or_null v then Ok PolicyTargeting_default
  else
    match targeting_scope v with
    | Err e => Err e
    | Ok s =>
        let t := match json_get v "teams" with
                 | Some (Arr arr) => Some (omap json_as_str arr)
                 | _ => None
                 end in
        if bool_decide (is_Some (json_get v "proxies")) then Err LegacyProxies
        else match json_get v "gateways" with
             | None => Ok (mkTargeting s t None)
             | Some g =>
                 match selector_from_json g with
                 | Ok sel => Ok (mkTargeting s t (Some sel))
                 | Err e => Err e
                 end
             end
    end.

(** [ChainEntry::from_json]; [inner] is the value under the kind. *)
Definition entry_when (inner : value) : option WhenPredicate :=
  if empty_or_null inner then Some WhenPredicate_default
  else when_from_value (default (Obj []) (json_get inner "when")).
Definition entry_targeting (inner : value) : Result (option PolicyTargeting) ChainError :=
  match json_get inner "targeting" with
  | None => Ok None
  | Some t => match targeting_from_json t with Ok t => Ok (Some t) | Err e => Err e end
  end.
Definition entry_from_object (k : string) (inner : value) : Result ChainEntry ChainError :=
  match entry_when inner with
  | None => Err (BadWhen k)
  | Some w =>
      if bool_decide (json_get inner "stage" ≫= json_as_str = Some "post-response"%string)
      then Err (PostResponseStage k)
      else
        match json_get inner "stage" with
        | Some s =>
            match stage_from_value s with
            | None => Err (BadStage k)
            | Some stage =>
                match entry_targeting inner with
                | Err e => Err (BadTargeting k e)
                | Ok t => Ok (mkEntry k w (Some stage)
                                (default false (json_get inner "parallel" ≫= json_as_bool)) t true)
                end
            end
        | None =>
            match entry_targeting inner with
            | Err e => Err (BadTargeting k e)
            | Ok t => Ok (mkEntry k w None
                            (default false (json_get inner "parallel" ≫= json_as_bool)) t true)
            end
        end
  end.
Definition entry_from_json (v : value) : Result ChainEntry ChainError :=
  match v with
  | Str k => Ok (mkEntry k WhenPredicate_default None false None false)
  | Obj [(k, inner)] => entry_from_object k inner
  | Obj kvs => Err (NotOneKey (length kvs))
  | _ => Err NotAnEntry
  end.
End parsing.

(** ** Evaluation *)

(** Whether a header predicate holds: a present header of that value, compared
    without case, where an unprintable value reads as empty. *)
Definition header_holds (header_get : string → option (option string)) (kv : string * string) : bool :=
  match header_get kv.1 with
  | None => false
  | Some actual =>
      String.eqb (to_ascii_lowercase (default EmptyString actual)) (to_ascii_lowercase kv.2)
  end.

Section evaluation.
Context `{SerdeJson}.
Abbreviation value := (Value Number).
Abbreviation table := (list (string * value)).
Variable header_get : string → option (option string).

(** [WhenPredicate::matches]. *)
Definition when_matches (w : WhenPredicate) (request_path : string) (request_json : option value) :
    bool :=
  match when_path w with
  | Some prefix => bool_decide (is_Some (strip_prefix prefix request_path))
  | None => true
  end
  && match when_header w with
     | Some required => forallb (header_holds header_get) required
     | None => true
     end
  && match when_model w with
     | Some ((_ :: _) as allowed_models) =>
         let model := default EmptyString (get_in request_json "model" ≫= json_as_str) in
         existsb (λ m, String.eqb m model) allowed_models
     | _ => true
     end.
Definition predicate_holds (e : ChainEntry) (request_path : string) (request_json : option value) :
    bool :=
  match when_predicate e with
  | Some w => when_matches w request_path request_json
  | None => true
  end.

(** The policies with a model of their own, as arguments of the dispatch; [other]
    decides the remaining kinds. *)
Variable rbac : option value → option value → option RequestIdentity → PolicyResult Number.
Variable firewall : option value → option value → list ChatMessage → option RequestIdentity →
  PolicyResult Number.
Variable other : string → ExecutionStage → option value → option value → list ChatMessage →
  option RequestIdentity → PolicyResult Number.

(** The kinds of the dispatch that have no model here. *)
Definition other_kinds : list string :=
  ["prompt-injection"; "pii-detector"; "hipaa-phi-detector"; "cjis-mode"; "dlp-filter";
   "safety-filter"; "student-privacy"; "case-privacy"; "itar-ear-filter"; "entity-list-filter";
   "dual-use-filter"; "embedding-detector"; "language-validator"; "external-moderation";
   "bot-detector"; "content-extractor"; "document-analyzer"; "code-sanitizer"; "tool-validation";
   "tool-security"; "tool-budget"; "gdpr-compliance"]%string.

Definition evaluate_audit_logger : PolicyResult Number :=
  mkPolicyResult "audit-logger" "preflight" Allow "audit_logger.logged" None None.
Definition evaluate_data_routing_policy (config : option value) : PolicyResult Number :=
  mkPolicyResult "data-routing-policy" "input" Allow "data-routing-policy.pre_routing_gate"
    ((λ c, Obj [("config"%string, c);
                ("note"%string, Str "data-routing-policy is enforced at provider selection via filter_providers_by_data_policy in providers.rs, not in the policy chain")])
       <$> config) None.

(** [evaluate_policy]. *)
Definition evaluate_policy (k : string) (stage : ExecutionStage) (config request_json : option value)
    (messages : list ChatMessage) (identity : option RequestIdentity) : PolicyResult Number :=
  if String.eqb k "rbac" then rbac config request_json identity
  else if String.eqb k "agent-firewall" then firewall config request_json messages identity
  else if String.eqb k "audit-logger" then evaluate_audit_logger
  else if String.eqb k "data-routing-policy" then evaluate_data_routing_policy config
  else if bool_decide (k ∈ other_kinds) then other k stage config request_json messages identity
  else if String.eqb k "eu-ai-act" then
    mkPolicyResult "eu-ai-act" (stage_str stage) Block "policy.reporting_only"
      (Some (Obj [("note"%string, Str "eu-ai-act is reporting-only; use POST /verdictan/compliance/report")]))
      None
  else mkPolicyResult k (stage_str stage) Block "policy.unsupported_kind" None None.

(** What the evaluation of a chain is given. *)
Record ChainRequest := mkRequest {
  request_path : string;
  policy_blocks : table;
  request_json : option value;
  response_json : option value;
  request_messages : list ChatMessage;
  request_identity : option RequestIdentity;
}.

(** [evaluate_entry_for_stage]. *)
Definition evaluate_entry_for_stage (req : ChainRequest) (stage : ExecutionStage) (e : ChainEntry) :
    PolicyResult Number :=
  let active_json :=
    match stage with
    | PreRequest | PostRequest => request_json req
    | PreResponse => match response_json req with Some v => Some v | None => request_json req end
    end in
  evaluate_policy (kind e) stage (map_get (policy_blocks req) (kind e)) active_json
    (request_messages req) (request_identity req).

(** [evaluate_parallel_entries]: [join_all] keeps the order of the entries. *)
Definition evaluate_parallel_entries (req : ChainRequest) (stage : ExecutionStage)
    (entries : list ChainEntry) : list (PolicyResult Number) :=
  evaluate_entry_for_stage req stage <$>
    filter (λ e, is_runtime_managed_policy (kind e) = false) entries.

Definition holds (req : ChainRequest) (e : ChainEntry) : bool :=
  predicate_holds e (request_path req) (request_json req).

(** The rest of a parallel batch from the current index, and where it ends. *)
Fixpoint take_batch (req : ChainRequest) (stage : ExecutionStage) (chain : list ChainEntry) :
    list ChainEntry * list ChainEntry :=
  match chain with
  | e :: rest =>
      if parallel e && entry_runs_at_stage e stage then
        let '(batch, rest) := take_batch req stage rest in
        (if holds req e then e :: batch else batch, rest)
      else ([], chain)
  | [] => ([], [])
  end.

(** The loop over the results of one step: pushed one by one, until one blocks
    or escalates. *)
Fixpoint push_results (stage_results : list (PolicyResult Number))
    (results : list (PolicyResult Number)) (saw_redact : bool) :
    DecisionEnvelope Number + list (PolicyResult Number) * bool :=
  match stage_results with
  | [] => inr (results, saw_redact)
  | result :: stage_results =>
      let saw_redact := saw_redact || bool_decide (pr_verdict result = Redact) in
      let results := results ++ [result] in
      match pr_verdict result with
      | Block => inl (mkDecisionEnvelope Block (reason_code result) results)
      | Escalate => inl (mkDecisionEnvelope Escalate (reason_code result) results)
      | _ => push_results stage_results results saw_redact
      end
  end.

(** The loop over the chain, from the current index on. *)
Fixpoint evaluate_loop (fuel : nat) (req : ChainRequest) (stage : ExecutionStage)
    (chain : list ChainEntry) (results : list (PolicyResult Number)) (saw_redact : bool) :
    option (DecisionEnvelope Number) :=
  match fuel, chain with
  | _, [] =>
      Some (mkDecisionEnvelope (if saw_redact then Redact else Allow)
              (if saw_redact then "redact.applied" else "ok")%string results)
  | O, _ => None
  | S fuel, e :: rest =>
      if negb (entry_runs_at_stage e stage) || is_runtime_managed_policy (kind e)
         || negb (holds req e)
      then evaluate_loop fuel req stage rest results saw_redact
      else
        let '(stage_results, rest) :=
          if parallel e then
            let '(batch, rest) := take_batch req stage rest in
            (evaluate_parallel_entries req stage (e :: batch), rest)
          else ([evaluate_entry_for_stage req stage e], rest) in
        match push_results stage_results results saw_redact with
        | inl decision => Some decision
        | inr (results, saw_redact) => evaluate_loop fuel req stage rest results saw_redact
        end
  end.

(** [evaluate_chain_entries_for_stage_with_identity]: one turn per entry at most. *)
Definition evaluate_chain_entries_for_stage (chain : list ChainEntry) (stage : ExecutionStage)
    (req : ChainRequest) : option (DecisionEnvelope Number) :=
  evaluate_loop (length chain) req stage chain [] false.
(** [evaluate_chain_entries_with_identity]. *)
Definition evaluate_chain_entries (chain : list ChainEntry) (req : ChainRequest) :
    option (DecisionEnvelope Number) :=
  evaluate_chain_entries_for_stage chain PreRequest
    (mkRequest (request_path req) (policy_blocks req) (request_json req) None
       (request_messages req) (request_identity req)).

(** [merge_stage_decision]. *)
Definition merge_stage_decision (d s : DecisionEnvelope Number) : DecisionEnvelope Number :=
  let merged := results d ++ results s in
  match final_verdict s, final_verdict d with
  | Block, _ => mkDecisionEnvelope Block (decision_reason s) merged
  | Escalate, (Allow | Escalate | Redact) => mkDecisionEnvelope Escalate (decision_reason s) merged
  | Redact, Allow => mkDecisionEnvelope Redact (decision_reason s) merged
  | _, v => mkDecisionEnvelope v (decision_reason d) merged
  end.

(** ** The reference: the policies that run, in order, up to the first that
    stops the request *)
Definition runs (req : ChainRequest) (stage : ExecutionStage) (e : ChainEntry) : bool :=
  entry_runs_at_stage e stage && negb (is_runtime_managed_policy (kind e)) && holds req e.
Definition stops (r : PolicyResult Number) : bool :=
  match pr_verdict r with Block | Escalate => true | _ => false end.
Fixpoint up_to_stop (l : list (PolicyResult Number)) : list (PolicyResult Number) :=
  match l with
  | [] => []
  | r :: l => if stops r then [r] else r :: up_to_stop l
  end.
Definition redacts (r : PolicyResult Number) : bool := bool_decide (pr_verdict r = Redact).
Definition decision (l : list (PolicyResult Number)) : DecisionEnvelope Number :=
  match List.find stops l with
  | Some r => mkDecisionEnvelope (pr_verdict r) (reason_code r) (up_to_stop l)
  | None => if existsb redacts l then mkDecisionEnvelope Redact "redact.applied" l
            else mkDecisionEnvelope Allow "ok" l
  end.

(** The reference from an intermediate state of the loop. *)
Definition decision_from (results : list (PolicyResult Number)) (saw_redact : bool)
    (l : list (PolicyResult Number)) : DecisionEnvelope Number :=
  match List.find stops l with
  | Some r => mkDecisionEnvelope (pr_verdict r) (reason_code r) (results ++ up_to_stop l)
  | None => if saw_redact || existsb redacts l
            then mkDecisionEnvelope Redact "redact.applied" (results ++ l)
            else mkDecisionEnvelope Allow "ok" (results ++ l)
  end.

Lemma decision_from_cons results saw r l :
  decision_from results saw (r :: l)
  = if stops r then mkDecisionEnvelope (pr_verdict r) (reason_code r) (results ++ [r])
    else decision_from (results ++ [r]) (saw || redacts r) l.
Proof.
  unfold decision_from. simpl. destruct (stops r) eqn:Es; [done|].
  rewrite <- !(assoc_L app), orb_assoc. simpl. done.
Qed.

Lemma push_results_decision l l' results saw :
  decision_from results saw (l ++ l') =
  match push_results l results saw with
  | inl d => d
  | inr (results', saw') => decision_from results' saw' l'
  end.
Proof.
  revert results saw. induction l as [|r l IH]; intros results saw; [done|].
  rewrite <- app_comm_cons, decision_from_cons. unfold stops, redacts. simpl.
  destruct (pr_verdict r); [apply IH|done..|apply IH].
Qed.

Lemma take_batch_runs req stage chain batch rest :
  take_batch req stage chain = (batch, rest) →
  filter (λ e, runs req stage e = true) chain
  = filter (λ e, is_runtime_managed_policy (kind e) = false) batch
    ++ filter (λ e, runs req stage e = true) rest
  ∧ length rest ≤ length chain.
Proof.
  revert batch rest. induction chain as [|e chain IH]; intros batch rest; simpl; [by intros [= <- <-]|].
  destruct (parallel e && entry_runs_at_stage e stage) eqn:Ep; [|by intros [= <- <-]].
  apply andb_true_iff in Ep as [_ Es].
  destruct (take_batch req stage chain) as [b r]. destruct (IH b r eq_refl) as [Hf Hl].
  assert (Hr : runs req stage e = negb (is_runtime_managed_policy (kind e)) && holds req e)
    by (unfold runs; by rewrite Es).
  intros [= <- <-]. split; [|lia]. rewrite filter_cons, Hf, Hr.
  destruct (holds req e) eqn:Eh; rewrite ?andb_true_r, ?andb_false_r; [|by rewrite decide_False].
  rewrite filter_cons. by destruct (is_runtime_managed_policy (kind e)); repeat case_decide.
Qed.

Lemma evaluate_loop_decision fuel req stage chain results saw :
  length chain ≤ fuel →
  evaluate_loop fuel req stage chain results saw
  = Some (decision_from results saw
            (evaluate_entry_for_stage req stage <$> filter (λ e, runs req stage e = true) chain)).
Proof.
  revert chain results saw. induction fuel as [|fuel IH]; intros [|e chain] results saw Hl;
    simpl in Hl; try lia.
  1, 2: simpl; unfold decision_from; simpl; rewrite app_nil_r, orb_false_r; by destruct saw.
  cbn [evaluate_loop].
  destruct (negb (entry_runs_at_stage e stage) || is_runtime_managed_policy (kind e)
            || negb (holds req e)) eqn:Eskip.
  - rewrite IH by lia. rewrite filter_cons_False; [done|]. unfold runs.
    intros [[Ha Hb]%andb_true_iff Hc]%andb_true_iff. apply negb_true_iff in Hb.
    by rewrite Ha, Hb, Hc in Eskip.
  - apply orb_false_iff in Eskip as [[Ha Hb]%orb_false_iff Hc]. apply negb_false_iff in Ha, Hc.
    assert (Hr : runs req stage e = true) by (unfold runs; by rewrite Ha, Hb, Hc).
    rewrite filter_cons_True by done. destruct (parallel e).
    + destruct (take_batch req stage chain) as [batch rest] eqn:Et.
      destruct (take_batch_runs _ _ _ _ _ Et) as [-> Hlen].
      unfold evaluate_parallel_entries. rewrite (filter_cons_True _ e) by done.
      rewrite app_comm_cons, fmap_app, push_results_decision.
      destruct (push_results _ _ _) as [|[]]; [done|]. by apply IH; lia.
    + rewrite fmap_cons. change (?a :: ?l) with ([a] ++ l) at 2. rewrite push_results_decision.
      destruct (push_results _ _ _) as [|[]]; [done|]. by apply IH; lia.
Qed.

Lemma chain_decision chain stage req :
  evaluate_chain_entries_for_stage chain stage req
  = Some (decision (evaluate_entry_for_stage req stage <$>
                      filter (λ e, runs req stage e = true) chain)).
Proof. unfold evaluate_chain_entries_for_stage. by rewrite evaluate_loop_decision by done. Qed.

(** C13. Parallel batches change nothing: the index loop, with its batches of
    parallel entries evaluated ahead, always ends, and with the decision of the
    sequential reference, which evaluates the entries that run at the stage
    and whose predicate holds, in order, up to the first that blocks or
    escalates, and otherwise redacts if any of them redacts. *)
Theorem chain_evaluation_exact chain stage req :
  evaluate_chain_entries_for_stage chain stage req
  = Some (decision (evaluate_entry_for_stage req stage <$>
                      filter (λ e, runs req stage e = true) chain)).
Proof. apply chain_decision. Qed.

Lemma decision_passes l :
  final_verdict (decision l) ∉ [Block; Escalate] ↔ Forall (λ r, stops r = false) l.
Proof.
  unfold decision. destruct (List.find stops l) as [r|] eqn:Ef.
  - apply List.find_some in Ef as [Hin Hs]. split.
    + intros Hn. exfalso. unfold stops in Hs. destruct (pr_verdict r) eqn:Er; try done;
        apply Hn; simpl; set_solver.
    + rewrite Forall_forall. intros Hall. apply list_elem_of_In, Hall in Hin. congruence.
  - split; [|intros _; case_match; simpl; set_solver]. intros _. apply Forall_forall. intros r Hr.
    apply (List.find_none _ _ Ef). by apply list_elem_of_In.
Qed.

Definition known_kind (k : string) : Prop :=
  k ∈ ["rbac"; "agent-firewall"; "audit-logger"; "data-routing-policy"]%string ++ other_kinds.
Lemma unknown_kind_blocks k stage config request messages identity :
  ¬ known_kind k →
  pr_verdict (evaluate_policy k stage config request messages identity) = Block.
Proof.
  unfold known_kind, evaluate_policy. intros Hk.
  assert (∀ k', k' ∈ ["rbac"; "agent-firewall"; "audit-logger"; "data-routing-policy"]%string →
                String.eqb k k' = false) as Hne.
  { intros k' Hk'. apply String.eqb_neq. intros ->. apply Hk. apply elem_of_app. by left. }
  rewrite !Hne by (apply list_elem_of_In; simpl; auto). rewrite bool_decide_false; [by destruct (String.eqb k "eu-ai-act")|].
  intros Hin. apply Hk. apply elem_of_app. by right.
Qed.

(** The chain fails closed: when a stage neither blocks nor escalates, every
    entry of the chain that runs at the stage has been evaluated, its policy
    kind is one that the gateway implements, and its own verdict neither blocks
    nor escalates; no entry is lost to batching, to the order of the chain or
    to an unknown kind. *)
Theorem passing_chain_evaluated chain stage req d :
  evaluate_chain_entries_for_stage chain stage req = Some d →
  final_verdict d ∉ [Block; Escalate] →
  results d = evaluate_entry_for_stage req stage <$> filter (λ e, runs req stage e = true) chain
  ∧ ∀ e, e ∈ chain → runs req stage e = true →
      known_kind (kind e)
      ∧ pr_verdict (evaluate_entry_for_stage req stage e) ∈ [Allow; Redact].
Proof.
  rewrite chain_decision. intros [= <-] Hp%decision_passes. split.
  - unfold decision. destruct (List.find stops _) eqn:Ef; [|by case_match].
    apply List.find_some in Ef as [Hin%list_elem_of_In Hs].
    rewrite Forall_forall in Hp. apply Hp in Hin. congruence.
  - intros e He Hr. rewrite Forall_forall in Hp.
    assert (Hs : stops (evaluate_entry_for_stage req stage e) = false).
    { apply Hp, list_elem_of_fmap_2. by apply list_elem_of_filter. }
    unfold stops in Hs. split; [|by destruct (pr_verdict _); [left| | |right; left]].
    destruct (decide (known_kind (kind e))) as [|Hk]; [done|].
    unfold evaluate_entry_for_stage in Hs. by rewrite unknown_kind_blocks in Hs.
Qed.

(** ** Merging the stages *)
Definition severity (v : Verdict) : nat :=
  match v with Allow => 0 | Redact => 1 | Escalate => 2 | Block => 3 end.
Lemma merge_severity d s :
  severity (final_verdict (merge_stage_decision d s))
  = severity (final_verdict d) `max` severity (final_verdict s).
Proof. unfold merge_stage_decision. by destruct (final_verdict s), (final_verdict d). Qed.

(** The decisions of the stages merge to the strictest: after any number of
    stages, the verdict is as severe as the most severe of them and no more, the
    reason is that of a decision with this verdict, and the results of all
    stages are kept in order. *)
Theorem merged_decision_strictest d stages :
  let m := foldl merge_stage_decision d stages in
  severity (final_verdict m) = max_list (severity ∘ final_verdict <$> d :: stages)
  ∧ (∃ x, x ∈ d :: stages ∧ final_verdict x = final_verdict m ∧ decision_reason x = decision_reason m)
  ∧ results m = mjoin (results <$> d :: stages).
Proof.
  revert d. induction stages as [|s stages IH]; intros d; simpl.
  - rewrite app_nil_r, Nat.max_0_r. split_and!; [done| |done]. exists d. split; [left|done].
  - destruct (IH (merge_stage_decision d s)) as (Hv&(x&Hx&Hxv&Hxr)&Hr). split_and!.
    + rewrite Hv. simpl. rewrite merge_severity. by rewrite <- Nat.max_assoc.
    + apply elem_of_cons in Hx as [->|Hx].
      * assert (∃ y, y ∈ [d; s] ∧ final_verdict y = final_verdict (merge_stage_decision d s)
                     ∧ decision_reason y = decision_reason (merge_stage_decision d s))
          as (y&Hy&Hyv&Hyr).
        { unfold merge_stage_decision.
          destruct (final_verdict s) eqn:Es, (final_verdict d) eqn:Ed; simpl;
            first [exists d; split; [left|by rewrite Ed]|exists s; split; [right; left|by rewrite Es]]. }
        exists y. rewrite Hyv, Hyr. split; [|done]. set_solver.
      * exists x. split; [set_solver|done].
    + rewrite Hr. simpl. rewrite (assoc_L app). f_equal.
      unfold merge_stage_decision. by repeat case_match.
Qed.
End evaluation.

(** ** Which entries apply *)

(** An entry reaches the teams that it names, and no gateway that its selector
    leaves out. *)
Definition names_team (t : PolicyTargeting) (request_team_slugs : list string) : Prop :=
  ∃ declared dt rt, teams t = Some declared ∧ dt ∈ declared ∧ rt ∈ request_team_slugs
    ∧ to_ascii_lowercase rt = to_ascii_lowercase dt.
Definition reaches (regex : string → option (string → bool)) (t : PolicyTargeting)
    (gateway_name : option string) (request_team_slugs : list string) : Prop :=
  (∀ s, gateways t = Some s → selector_matches regex s gateway_name = true)
  ∧ (scope t = Team → names_team t request_team_slugs).

Lemma existsb_elem {A} (f : A → bool) l : existsb f l = true ↔ ∃ x, x ∈ l ∧ f x = true.
Proof. rewrite existsb_exists. by setoid_rewrite list_elem_of_In. Qed.

Lemma teams_overlap t slugs :
  (match teams t with
   | Some ((_ :: _) as declared) =>
       match slugs with
       | [] => false
       | _ => existsb (λ rt, existsb (eq_ignore_ascii_case rt) declared) slugs
       end
   | _ => false
   end) = true ↔ names_team t slugs.
Proof.
  unfold names_team. destruct (teams t) as [[|dt declared]|].
  - split; [done|]. by intros (?&?&?&[= <-]&?%elem_of_nil&_).
  - transitivity (existsb (λ rt, existsb (eq_ignore_ascii_case rt) (dt :: declared)) slugs = true);
      [by destruct slugs|].
    rewrite existsb_elem. setoid_rewrite existsb_elem. unfold eq_ignore_ascii_case.
    setoid_rewrite String.eqb_eq. split.
    + intros (rt&Hrt&d&Hd&He). by exists (dt :: declared), d, rt.
    + intros (?&d&rt&[= <-]&Hd&Hrt&He). exists rt. split; [done|]. by exists d.
  - split; [done|]. by intros (?&?&?&[=]&_).
Qed.

(** Targeting is exact and never widens: an entry applies to a request exactly
    when its gateway selector, if any, accepts the gateway, and, if it is
    scoped to teams, the request carries one of the teams it declares (compared
    without case); a team-scoped entry without declared teams applies to no
    request, and none applies to a request without team context. *)
Theorem targeting_exact regex t gateway_name slugs :
  is_applicable regex t gateway_name slugs = true ↔ reaches regex t gateway_name slugs.
Proof.
  unfold is_applicable, reaches.
  assert (Hs : (match gateways t with Some s => selector_matches regex s gateway_name | None => true end)
               = true ↔ ∀ s, gateways t = Some s → selector_matches regex s gateway_name = true).
  { destruct (gateways t) as [s|]; [|by split]. split; [by intros ? ? [= <-]|by intros Hs; apply Hs]. }
  rewrite <- Hs. destruct (match gateways t with Some _ => _ | None => _ end); simpl;
    [|by split; [|intros [? _]]].
  destruct (scope t) eqn:Es; [by split|]. rewrite teams_overlap. split; [done|]. intros [_ Hn].
  by apply Hn.
Qed.

(** ** The chain with the firewall *)
Section system.
Context `{SerdeJson}.
Variable from_str : string → option (Value Number).
Variable captures : Pattern → string → list string.
Variable detect_all : string → list string.
Variable as_i64 : Number → option Z.
Variable as_f64 : Number → option f64.
Variable num : Z → Number.
Variable fnum : f64 → Value Number.
Variable hash_order : list string → list string.
Variable detect_phi : string → nat.
Variable header_get : string → option (option string).
Variable regex : string → option (string → bool).
Variable other : string → ExecutionStage → option (Value Number) → option (Value Number) →
  list ChatMessage → option RequestIdentity → PolicyResult Number.

Definition the_rbac (config request : option (Value Number)) (identity : option RequestIdentity) :
    PolicyResult Number := evaluate_rbac num detect_phi config request header_get identity.
Definition the_firewall : option (Value Number) → option (Value Number) → list ChatMessage →
    option RequestIdentity → PolicyResult Number :=
  evaluate_agent_firewall from_str captures detect_all as_i64 as_f64 num fnum hash_order.

(** C2. From configuration to tool calls: when an agent-firewall entry of the
    configured chain targets the request and its predicate holds, and the
    gateway's evaluation of the request neither blocks nor escalates, then the
    tool calls of the request parse and every action, in the request and in
    the conversation, is granted globally and by each configured role of the
    caller. *)
Theorem passing_request_tools_permitted chain gateway_id slugs req d e :
  evaluate_chain_entries_for_stage header_get the_rbac the_firewall other
    (effective_chain_for_request regex None None chain gateway_id slugs) PreRequest req = Some d →
  final_verdict d ∉ [Block; Escalate] →
  e ∈ chain → kind e = "agent-firewall"%string → entry_stage e ∈ [None; Some PreRequest] →
  is_applicable_for regex e gateway_id slugs = true → holds header_get req e = true →
  ∃ calls, structured_calls from_str (request_json req) = Ok calls
    ∧ Forall (permitted (map_get (policy_blocks req) "agent-firewall" ≫= json_as_object)
                (request_identity req))
        (firewall_actions captures calls (request_messages req)).
Proof.
  rewrite chain_decision. intros [= <-] Hp%decision_passes Hin Hk Hstage Happ Hholds.
  rewrite Forall_forall in Hp.
  assert (Hr : runs header_get req PreRequest e = true).
  { unfold runs, entry_runs_at_stage, stage_of, is_runtime_managed_policy. rewrite Hk, Hholds.
    by repeat (apply elem_of_cons in Hstage as [-> |Hstage]; [done|]); apply elem_of_nil in Hstage. }
  set (res := the_firewall (map_get (policy_blocks req) "agent-firewall") (request_json req)
                (request_messages req) (request_identity req)).
  assert (He : evaluate_entry_for_stage the_rbac the_firewall other req PreRequest e = res)
    by (unfold evaluate_entry_for_stage; by rewrite Hk).
  assert (Hs : stops res = false).
  { apply Hp. rewrite <- He. apply list_elem_of_fmap_2, list_elem_of_filter. split; [done|].
    unfold effective_chain_for_request. by apply list_elem_of_filter. }
  apply (firewall_allow_permits from_str captures detect_all as_i64 as_f64 num fnum hash_order).
  pose proof (firewall_never_redacts from_str captures detect_all as_i64 as_f64 num fnum hash_order
    (map_get (policy_blocks req) "agent-firewall") (request_json req) (request_messages req)
    (request_identity req)) as Hn.
  unfold stops, res, the_firewall in Hs. by destruct (pr_verdict _).
Qed.
End system.

(** ** A concrete chain *)
Module ChainModel.
Import FirewallModel.
Definition header_get (name : string) : option (option string) := None.
Definition regex (pattern : string) : option (string → bool) := None.
Definition detect_phi (text : string) : nat := 0.
Definition other (k : string) (stage : ExecutionStage) (config request : option (Value Z))
    (messages : list ChatMessage) (identity : option RequestIdentity) : PolicyResult Z :=
  mkPolicyResult k "input" Redact "redacted" None None.

Definition audit : ChainEntry := mkEntry "audit-logger" WhenPredicate_default None true None false.
Definition pii : ChainEntry := mkEntry "pii-detector" WhenPredicate_default None true None false.
Definition scorer : ChainEntry := mkEntry "quality-scorer" WhenPredicate_default None true None false.
Definition firewall_entry : ChainEntry :=
  from_parts "agent-firewall" (mkWhen (Some "/v1/"%string) None None) None true
    (Some (mkTargeting Team (Some ["Ops"%string]) (Some (Single "edge")))).
Definition chain : list ChainEntry := [audit; firewall_entry; scorer; pii].
Definition request : ChainRequest (H := JsonModel.json) :=
  mkRequest (H := JsonModel.json) "/v1/chat/completions" [("agent-firewall"%string, config)]
    (Some (wrap_calls (H := JsonModel.json) [read_call])) None [] (Some admin).

Abbreviation rbac := (the_rbac (H := JsonModel.json) num detect_phi header_get).
Abbreviation firewall :=
  (the_firewall (H := JsonModel.json) ToolModel.from_str captures detect_all as_i64 as_f64 num fnum
     hash_order).
Definition outcome : DecisionEnvelope Z :=
  decision (evaluate_entry_for_stage (H := JsonModel.json) rbac firewall other request PreRequest
              <$> [audit; firewall_entry; pii]).
End ChainModel.
Import FirewallModel ChainModel.

Lemma passing_chain_evaluated_witness :
  known_kind "agent-firewall"
  ∧ pr_verdict (evaluate_entry_for_stage (H := JsonModel.json) ChainModel.rbac ChainModel.firewall
                  other request PreRequest firewall_entry) ∈ [Allow; Redact].
Proof.
  destruct (passing_chain_evaluated (H := JsonModel.json) header_get ChainModel.rbac
    ChainModel.firewall other chain PreRequest request outcome) as [_ Hall].
  - vm_compute. reflexivity.
  - by vm_compute; intros Hin%list_elem_of_In; simpl in Hin; intuition discriminate.
  - apply (Hall firewall_entry); [right; left|vm_compute; reflexivity].
Defined.

Lemma passing_request_tools_permitted_witness :
  ∃ calls, structured_calls (H := JsonModel.json) ToolModel.from_str
             (request_json (H := JsonModel.json) request) = Ok calls
    ∧ Forall (permitted (H := JsonModel.json) (json_as_object config) (Some admin))
        (firewall_actions captures calls []).
Proof.
  apply (passing_request_tools_permitted (H := JsonModel.json) ToolModel.from_str captures detect_all
    as_i64 as_f64 num fnum hash_order detect_phi header_get regex other chain
    (Some "edge"%string) ["ops"%string] request outcome firewall_entry).
  - vm_compute. reflexivity.
  - by vm_compute; intros Hin%list_elem_of_In; simpl in Hin; intuition discriminate.
  - right. left.
  - reflexivity.
  - left.
  - vm_compute. reflexivity.
  - vm_compute. reflexivity.
Defined.
