(* ===== verification/DistributedState.v ===== *)
(** * DistributedState: the shared-state contract (src/src/gateway/distributed_state.rs)

    What a deployment requires of the shared backend, the liveness observation
    with its two-success recovery, and the rejection of dependent requests.  The
    backend itself is the outcome of an attempt to reach it; the [distributed]
    feature of the build is an argument. *)

From Stdlib Require Import ZArith Ascii String.
From stdpp Require Import base gmap strings list relations.
From S2P Require Import Prelude Text.

(** ** The requirement *)
Inductive RequiredStateConsumer :=
| RateLimits | Budgets | Fingerprints | SharedCacheAdmission | ReplayProtection.
Definition consumer_str (c : RequiredStateConsumer) : string :=
  match c with
  | RateLimits => "rate_limits"
  | Budgets => "budgets"
  | Fingerprints => "fingerprints"
  | SharedCacheAdmission => "shared_cache_admission"
  | ReplayProtection => "replay_protection"
  end.
Definition REQUIRED_STATE_CONSUMERS : list RequiredStateConsumer :=
  [RateLimits; Budgets; Fingerprints; SharedCacheAdmission; ReplayProtection].

Record DistributedPolicyCapabilities := mkCapabilities {
  rate_limits : bool;
  budgets : bool;
  fingerprints : bool;
  shared_cache_admission : bool;
  replay_protection : bool;
}.
Definition requires_shared_state (c : DistributedPolicyCapabilities) : bool :=
  rate_limits c || budgets c || fingerprints c || shared_cache_admission c || replay_protection c.
Definition consumer_enabled (c : DistributedPolicyCapabilities) (x : RequiredStateConsumer) : bool :=
  match x with
  | RateLimits => rate_limits c
  | Budgets => budgets c
  | Fingerprints => fingerprints c
  | SharedCacheAdmission => shared_cache_admission c
  | ReplayProtection => replay_protection c
  end.
Definition enabled_consumers (c : DistributedPolicyCapabilities) : list RequiredStateConsumer :=
  List.filter (consumer_enabled c) REQUIRED_STATE_CONSUMERS.

Inductive DistributedDeploymentProfile := SingleNodeSelfHostedDevelopment | MultiNodeOrConnected.
(** [DistributedDeploymentProfile::resolve]. *)
Definition resolve (connected_mode : bool) (verdictan_env deployment_mode : string) :
    DistributedDeploymentProfile :=
  let env_is_development :=
    String.eqb (to_ascii_lowercase (trim verdictan_env)) "development" in
  let mode := to_ascii_lowercase (trim deployment_mode) in
  if negb connected_mode && env_is_development
     && (String.eqb mode "self-hosted" || String.eqb mode "self_hosted")
  then SingleNodeSelfHostedDevelopment else MultiNodeOrConnected.

Inductive DistributedRequirement := Disabled | LocalOnly | Required.
#[export] Instance DistributedRequirement_eq_dec : EqDecision DistributedRequirement.
Proof. solve_decision. Defined.
Definition derive (p : DistributedDeploymentProfile) (c : DistributedPolicyCapabilities) :
    DistributedRequirement :=
  if negb (requires_shared_state c) then Disabled
  else match p with
       | SingleNodeSelfHostedDevelopment => LocalOnly
       | MultiNodeOrConnected => Required
       end.
Definition derive_from_runtime (connected_mode : bool) (verdictan_env deployment_mode : string)
    (c : DistributedPolicyCapabilities) : DistributedRequirement :=
  derive (resolve connected_mode verdictan_env deployment_mode) c.
Definition after_backend_failure (r : DistributedRequirement) : DistributedRequirement := r.
Definition requirement_str (r : DistributedRequirement) : string :=
  match r with Disabled => "disabled" | LocalOnly => "local_only" | Required => "required" end.
Definition requires_live_backend (r : DistributedRequirement) : bool :=
  match r with Required => true | _ => false end.

Definition rate_limit_key (tenant_id window : string) : string :=
  ("vt:rl:" ++ tenant_id ++ ":" ++ window)%string.

(** ** The state *)
Definition RUNTIME_RECOVERY_SUCCESS_THRESHOLD : Z := 2.

Record DistributedState := mkState {
  redis : option string;
  backend_name : string;
  requirement : DistributedRequirement;
  backend_available : bool;
  consecutive_successes : Z;
}.
Definition set_health (available : bool) (n : Z) (s : DistributedState) : DistributedState :=
  mkState (redis s) (backend_name s) (requirement s) available n.

(** [is_distributed]; without the feature there is no client. *)
Definition is_distributed (s : DistributedState) : bool := bool_decide (is_Some (redis s)).

(** An attempt to reach the backend: the client opens, connects and answers a
    ping, or fails at one of them. *)
Inductive Reach := Reached | BadUrl | ConnectFailed | PingFailed.

Inductive InitError := UrlMissing | FeatureMissing | InitFailed (r : Reach).
(** [initialize_with_clock]. *)
Definition initialize (feature : bool) (redis_url : option string) (name : string)
    (r : DistributedRequirement) (reach : string → Reach) : Result DistributedState InitError :=
  let url := redis_url ≫= λ u, let t := trim u in if is_empty t then None else Some t in
  if requires_live_backend r && negb (bool_decide (is_Some url)) then Err UrlMissing
  else if feature then
    match url with
    | Some u =>
        match reach u with
        | Reached => Ok (mkState (Some u) name r true RUNTIME_RECOVERY_SUCCESS_THRESHOLD)
        | e => Err (InitFailed e)
        end
    | None => Ok (mkState None name r false 0)
    end
  else if requires_live_backend r then Err FeatureMissing
  else Ok (mkState None name r false 0).

(** [mark_backend_success] and [mark_backend_failure], uninterrupted. *)
Definition mark_backend_success (s : DistributedState) : DistributedState :=
  if backend_available s then set_health true RUNTIME_RECOVERY_SUCCESS_THRESHOLD s
  else
    let next := Z.min (sat_add32 (consecutive_successes s) 1) RUNTIME_RECOVERY_SUCCESS_THRESHOLD in
    set_health (RUNTIME_RECOVERY_SUCCESS_THRESHOLD <=? next)%Z next s.
Definition mark_backend_failure (s : DistributedState) : DistributedState := set_health false 0 s.

Inductive Unavailable := NotConfigured | ProbeFailed (r : Reach) | Recovering | Unhealthy.

(** [ping_backend]; [answer] is what reaching the client yields, where opening
    the client cannot fail any more. *)
Definition ping_backend (feature : bool) (answer : Reach) (s : DistributedState) :
    DistributedState * Result unit Unavailable :=
  if feature then
    match redis s with
    | None => (mark_backend_failure s, Err NotConfigured)
    | Some _ =>
        match answer with
        | Reached =>
            let s := mark_backend_success s in
            if requires_live_backend (requirement s) && negb (backend_available s)
            then (s, Err Recovering) else (s, Ok tt)
        | e => (mark_backend_failure s, Err (ProbeFailed e))
        end
    end
  else if requires_live_backend (requirement s) then (mark_backend_failure s, Err NotConfigured)
  else (s, Ok tt).

Definition probe_backend (feature : bool) (answer : Reach) (s : DistributedState) :
    DistributedState * Result unit Unavailable :=
  if negb (requires_live_backend (requirement s)) then
    if is_distributed s then ping_backend feature answer s else (s, Ok tt)
  else if negb (is_distributed s) then (mark_backend_failure s, Err NotConfigured)
  else ping_backend feature answer s.

(** [connection]: connecting alone counts as a success. *)
Definition connection (connects : bool) (s : DistributedState) :
    DistributedState * option bool :=
  match redis s with
  | None => (s, None)
  | Some _ => if connects then (mark_backend_success s, Some true)
              else (mark_backend_failure s, Some false)
  end.

Definition ensure_available_for_dependent_request (s : DistributedState) : Result unit Unavailable :=
  if negb (requires_live_backend (requirement s)) then Ok tt
  else if is_distributed s && backend_available s then Ok tt
  else Err (if negb (is_distributed s) then NotConfigured else Unhealthy).

(** ** The requirement is a startup contract *)

(** Process-local state is the guarantee boundary only where it was asked for:
    the requirement is [LocalOnly] exactly for an unconnected, self-hosted
    development deployment with a consumer enabled, [Required] for every other
    deployment with a consumer enabled, and a backend failure changes neither. *)
Theorem requirement_exact connected env mode c :
  let r := derive_from_runtime connected env mode c in
  (r = Disabled ↔ enabled_consumers c = [])
  ∧ (r = LocalOnly ↔ enabled_consumers c ≠ [] ∧ connected = false
       ∧ to_ascii_lowercase (trim env) = "development"%string
       ∧ to_ascii_lowercase (trim mode) ∈ ["self-hosted"; "self_hosted"]%string)
  ∧ after_backend_failure r = r.
Proof.
  assert (Hc : requires_shared_state c = false ↔ enabled_consumers c = []).
  { destruct c as [[] [] [] [] []]; by vm_compute. }
  assert (Hp : resolve connected env mode = SingleNodeSelfHostedDevelopment ↔
    connected = false ∧ to_ascii_lowercase (trim env) = "development"%string
    ∧ to_ascii_lowercase (trim mode) ∈ ["self-hosted"; "self_hosted"]%string).
  { unfold resolve. rewrite !elem_of_cons, elem_of_nil.
    destruct connected; [by split; [|intros [? _]]|]. simpl.
    destruct (String.eqb_spec (to_ascii_lowercase (trim env)) "development") as [->|Hne];
      [|by split; [|intros (_&?&_)]]. simpl.
    destruct (String.eqb_spec (to_ascii_lowercase (trim mode)) "self-hosted") as [->|H1]; simpl;
      [by split; [intros _; split_and!; auto|]|].
    destruct (String.eqb_spec (to_ascii_lowercase (trim mode)) "self_hosted") as [->|H2]; simpl;
      [by split; [intros _; split_and!; auto|]|].
    split; [done|]. intros (_&_&[?|[?|[]]]); done. }
  unfold derive_from_runtime, derive. destruct (requires_shared_state c); simpl.
  - assert (enabled_consumers c ≠ []) by (intros E%Hc; discriminate E).
    split_and!; [by destruct (resolve _ _ _)| |done]. rewrite <- Hp.
    destruct (resolve connected env mode); naive_solver.
  - assert (enabled_consumers c = []) by by apply Hc. naive_solver.
Qed.

(** ** Fail closed, recover after two *)

(** The recovery automaton: the observation of liveness and the successes counted
    towards it, and what a success or a failure does to them. *)
Definition recovery_step (h : bool * Z) (ok : bool) : bool * Z :=
  if ok then
    if h.1 then (true, RUNTIME_RECOVERY_SUCCESS_THRESHOLD)
    else let next := Z.min (sat_add32 h.2 1) RUNTIME_RECOVERY_SUCCESS_THRESHOLD in
         ((RUNTIME_RECOVERY_SUCCESS_THRESHOLD <=? next)%Z, next)
  else (false, 0%Z).

(** A history after which it is live: nothing failed yet, or the last two
    succeeded. *)
Definition recovered (oks : list bool) : bool :=
  match reverse oks with a :: b :: _ => a && b | _ => false end || forallb (λ o : bool, o) oks.

Lemma recovered_snoc oks o :
  recovered (oks ++ [o])
  = o && (recovered oks || match reverse oks with a :: _ => a | [] => true end).
Proof.
  unfold recovered. rewrite reverse_app, forallb_app. simpl.
  destruct o; [|by destruct (reverse oks); rewrite ?andb_false_r].
  rewrite !andb_true_r. destruct oks as [|a oks _] using rev_ind; [done|].
  rewrite reverse_snoc, forallb_app. simpl. rewrite andb_true_r.
  destruct a, (forallb _ oks), (reverse oks) as [|b l]; simpl;
    rewrite ?orb_true_r; done || by destruct b.
Qed.

Lemma recovery_run oks :
  foldl recovery_step (true, RUNTIME_RECOVERY_SUCCESS_THRESHOLD) oks
  = (recovered oks,
     if recovered oks then 2%Z
     else match reverse oks with a :: _ => if a then 1%Z else 0%Z | [] => 0%Z end).
Proof.
  induction oks as [|o oks IH] using rev_ind; [done|].
  rewrite foldl_app, IH, recovered_snoc, reverse_snoc. destruct o; [|done]. simpl.
  destruct (recovered oks) eqn:Er; [done|]. unfold recovery_step. simpl.
  destruct (reverse oks) as [|a l] eqn:E; [|by destruct a].
  apply (f_equal reverse) in E. rewrite reverse_involutive in E. by subst oks.
Qed.

(** What reaches the backend at runtime: probes and connections. *)
Inductive BackendOp := Probe (answer : Reach) | Connect (connects : bool).
Definition op_succeeds (o : BackendOp) : bool :=
  match o with Probe Reached => true | Probe _ => false | Connect b => b end.
Definition backend_step (s : DistributedState) (o : BackendOp) : DistributedState :=
  match o with
  | Probe answer => (probe_backend true answer s).1
  | Connect connects => (connection connects s).1
  end.
Definition backend_run (s : DistributedState) (ops : list BackendOp) : DistributedState :=
  foldl backend_step s ops.

Definition health (s : DistributedState) : bool * Z := (backend_available s, consecutive_successes s).

Lemma ping_state answer s u :
  redis s = Some u →
  (ping_backend true answer s).1
  = match answer with Reached => mark_backend_success s | _ => mark_backend_failure s end.
Proof.
  intros Hu. unfold ping_backend. rewrite Hu. destruct answer; try done. cbv zeta.
  by destruct (requires_live_backend _ && _).
Qed.
Lemma success_health s :
  redis (mark_backend_success s) = redis s
  ∧ requirement (mark_backend_success s) = requirement s
  ∧ health (mark_backend_success s) = recovery_step (health s) true.
Proof. unfold mark_backend_success, health, recovery_step. simpl. by destruct (backend_available s). Qed.

Lemma backend_step_health s o :
  is_distributed s = true →
  redis (backend_step s o) = redis s ∧ requirement (backend_step s o) = requirement s
  ∧ health (backend_step s o) = recovery_step (health s) (op_succeeds o).
Proof.
  intros Hd. assert (∃ u, redis s = Some u) as [u Hu].
  { unfold is_distributed in Hd. rewrite bool_decide_eq_true in Hd. destruct Hd as [u ?]. by exists u. }
  pose proof (success_health s) as Hs.
  destruct o as [answer|connects]; cbn [backend_step op_succeeds].
  - assert ((probe_backend true answer s).1 = (ping_backend true answer s).1) as ->.
    { unfold probe_backend. rewrite Hd. by destruct (negb _). }
    rewrite (ping_state _ _ _ Hu). destruct answer; [exact Hs|done..].
  - unfold connection. rewrite Hu in Hs |- *. destruct connects; [exact Hs|done].
Qed.

Lemma backend_run_health s ops :
  is_distributed s = true →
  redis (backend_run s ops) = redis s ∧ requirement (backend_run s ops) = requirement s
  ∧ health (backend_run s ops) = foldl recovery_step (health s) (op_succeeds <$> ops).
Proof.
  revert s. induction ops as [|o ops IH]; intros s Hd; [done|].
  destruct (backend_step_health s o Hd) as (Hr&Hq&Hh).
  destruct (IH (backend_step s o)) as (Hr'&Hq'&Hh'); [unfold is_distributed in *; by rewrite Hr|].
  simpl. by rewrite <- Hh, Hr', Hq', Hh'.
Qed.

(** A required backend fails closed and recovers after two: a gateway that
    starts under the [Required] contract has reached its backend, and after any
    history of probes and connections it admits dependent requests exactly when
    nothing has failed so far or the last two attempts succeeded; what it
    requires never changes. *)
Theorem required_fails_closed url name reach s ops :
  initialize true url name Required reach = Ok s →
  requirement (backend_run s ops) = Required
  ∧ (ensure_available_for_dependent_request (backend_run s ops) = Ok tt
     ↔ recovered (op_succeeds <$> ops) = true).
Proof.
  intros Hi. assert (Hs : ∃ u, s = mkState (Some u) name Required true 2).
  { revert Hi. unfold initialize. destruct (url ≫= _) as [u|]; [|done]. simpl.
    destruct (reach u); try done. intros [= <-]. by exists u. }
  destruct Hs as [u ->].
  destruct (backend_run_health (mkState (Some u) name Required true 2) ops) as (Hr&Hq&Hh); [done|].
  split; [done|]. unfold health in Hh. simpl in Hh. rewrite recovery_run in Hh. injection Hh as Ha _.
  unfold ensure_available_for_dependent_request, is_distributed. rewrite Hq, Hr, Ha. simpl.
  by destruct (recovered _).
Qed.

Lemma required_fails_closed_witness :
  let s := mkState (Some "redis://h"%string) "redis" Required true 2 in
  ensure_available_for_dependent_request (backend_run s [Connect false; Connect true; Probe Reached])
  = Ok tt.
Proof.
  apply (required_fails_closed (Some "redis://h"%string) "redis" (λ _, Reached)); reflexivity.
Defined.

(** ** The atomic operations

    Several requests and the readiness probe mark the backend at the same time:
    each load, store and [fetch_add] is a step of its own. *)
Inductive MarkPc :=
| SuccLoad | SuccKeep | SuccAdd | SuccStore (next : Z) | SuccAvail
| FailAvail | FailReset | MarkDone.
Definition mark_step (h : bool * Z) (pc : MarkPc) : (bool * Z) * MarkPc :=
  let '(available, n) := h in
  match pc with
  | SuccLoad => (h, if available then SuccKeep else SuccAdd)
  | SuccKeep => ((available, RUNTIME_RECOVERY_SUCCESS_THRESHOLD), MarkDone)
  | SuccAdd =>
      ((available, wrap32 (n + 1)),
       SuccStore (Z.min (sat_add32 n 1) RUNTIME_RECOVERY_SUCCESS_THRESHOLD))
  | SuccStore next =>
      ((available, next), if (RUNTIME_RECOVERY_SUCCESS_THRESHOLD <=? next)%Z then SuccAvail else MarkDone)
  | SuccAvail => ((true, n), MarkDone)
  | FailAvail => ((false, n), FailReset)
  | FailReset => ((available, 0%Z), MarkDone)
  | MarkDone => (h, MarkDone)
  end.
(** One step of thread [i]. *)
Definition thread_step (c : (bool * Z) * list MarkPc) (i : nat) : (bool * Z) * list MarkPc :=
  match c.2 !! i with
  | Some pc => let '(h, pc) := mark_step c.1 pc in (h, <[i := pc]> c.2)
  | None => c
  end.
Definition schedule (c : (bool * Z) * list MarkPc) (turns : list nat) : (bool * Z) * list MarkPc :=
  foldl thread_step c turns.

(** Uninterrupted, the steps of a thread are the operation. *)
Lemma mark_steps_sequential s :
  schedule (health s, [SuccLoad]) [0; 0; 0; 0] = (health (mark_backend_success s), [MarkDone])
  ∧ schedule (health s, [FailAvail]) [0; 0] = (health (mark_backend_failure s), [MarkDone]).
Proof.
  split; [|done]. unfold schedule, health, mark_backend_success. simpl.
  destruct (backend_available s); [done|]. unfold thread_step. simpl.
  destruct (RUNTIME_RECOVERY_SUCCESS_THRESHOLD <=? _)%Z eqn:E; simpl; rewrite ?E; done.
Qed.

(** A failure can be lost: when a request records the second success of a
    recovery while another records a failure, there is an interleaving of their
    atomic operations in which the failure is recorded from beginning to end in
    between, and the backend is nevertheless marked available, with two
    successes, when both are done; uninterrupted, either order leaves it
    unavailable or records the failure last. *)
Theorem failure_lost_in_race s :
  backend_available s = false → consecutive_successes s = 1%Z →
  (∃ turns, schedule (health s, [SuccLoad; FailAvail]) turns = ((true, 2%Z), [MarkDone; MarkDone]))
  ∧ health (mark_backend_failure (mark_backend_success s)) = (false, 0%Z)
  ∧ health (mark_backend_success (mark_backend_failure s)) = (false, 1%Z).
Proof.
  intros Ha Hn. unfold health. rewrite Ha, Hn. split_and!; [|done|done].
  exists [0; 0; 1; 1; 0; 0]. by vm_compute.
Qed.
Lemma failure_lost_in_race_witness :
  let s := mkState (Some "redis://h"%string) "redis" Required false 1 in
  health (mark_backend_success (mark_backend_failure s)) = (false, 1%Z).
Proof. apply (failure_lost_in_race (mkState (Some "redis://h"%string) "redis" Required false 1)); reflexivity. Defined.
