(* ===== verification/DistributedLimit.v ===== *)
(** * DistributedLimit: rate limits shared between gateways
    (src/src/gateway/distributed_rate_limit.rs)

    The atomic script that keeps a sliding window in a sorted set of the shared
    backend, the in-process counters used without one, the health of the backend
    and the limiter that combines them.  The backend's sorted-set commands are
    the interface [SortedSets], whose laws are their documentation; clocks, the
    outcome of a connection and the loss of an answer are arguments of a call.
    Scores are microseconds; the script reads its arguments as doubles, so they are
    rounded above 2^53. *)

From Stdlib Require Import ZArith Ascii String SpecFloat.
From stdpp Require Import base gmap strings list fin_maps sorting.
From S2P Require Import Prelude Text Float RateWindow DistributedState.

Local Open Scope Z_scope.

(** ** The backend's sorted sets

    [zview at s k] is the sorted set under [k] when the backend's clock reads
    [at], empty when the key is missing or has expired.  A command runs at an
    instant of that clock, which does not advance within a script. *)
Class SortedSets := {
  Store : Type;
  zview : Z → Store → string → gmap string Z;
  zremrangebyscore : Z → string → Z → Store → Store;
  zadd : Z → string → Z → string → Store → Store;
  zrem : Z → string → string → Store → Store;
  expire : Z → string → Z → Store → Store;
  zremrangebyscore_view : ∀ t k max s,
    zview t (zremrangebyscore t k max s) k = filter (λ p, max < p.2) (zview t s k);
  zadd_view : ∀ t k score m s, zview t (zadd t k score m s) k = <[m := score]> (zview t s k);
  zrem_view : ∀ t k m s, zview t (zrem t k m s) k = delete m (zview t s k);
  expire_view : ∀ t t' k ttl s, 0 < ttl → t ≤ t' →
    zview t' (expire t k ttl s) k = if t' <? t + ttl * 1000000 then zview t s k else ∅;
  zremrangebyscore_ne : ∀ t t' k k' max s, k ≠ k' →
    zview t' (zremrangebyscore t k max s) k' = zview t' s k';
  zadd_ne : ∀ t t' k k' score m s, k ≠ k' → zview t' (zadd t k score m s) k' = zview t' s k';
  zrem_ne : ∀ t t' k k' m s, k ≠ k' → zview t' (zrem t k m s) k' = zview t' s k';
  expire_ne : ∀ t t' k k' ttl s, k ≠ k' → zview t' (expire t k ttl s) k' = zview t' s k';
}.

(** The lowest score of a sorted set. *)
Definition oldest_score (m : gmap string Z) : option Z :=
  map_fold (λ _ score acc, Some (match acc with Some a => Z.min a score | None => score end)) None m.

(** ** The script *)
Section script.
Context `{SortedSets}.

(** [tonumber] of an integer of the command: the nearest double, ties to even, which
    for these magnitudes is an integer again. *)
Definition tonumber (z : Z) : Z :=
  let m := Z.abs z in
  if m <=? 2 ^ 53 then z
  else
    let unit := 2 ^ (Z.log2 m - 52) in
    let q := m / unit in
    let r := 2 * (m mod unit) in
    let q := if (unit <? r) || ((r =? unit) && Z.odd q) then q + 1 else q in
    Z.sgn z * (q * unit).
(** [REDIS_ATOMIC_RATE_LIMIT_SCRIPT], run at the backend's instant [t]. *)
Definition atomic_script (t : Z) (key : string) (min_score now_score limit ttl_secs : Z)
    (member : string) (s : Store) : Store * (Z * Z * Z) :=
  let min_score := tonumber min_score in
  let now_score := tonumber now_score in
  let limit := tonumber limit in
  let ttl_secs := tonumber ttl_secs in
  let s := zremrangebyscore t key min_score s in
  let s := zadd t key now_score member s in
  let count := Z.of_nat (size (zview t s key)) in
  if limit <? count then
    let s := zrem t key member s in
    let s := expire t key ttl_secs s in
    (s, (0, count - 1, default (-1) (oldest_score (zview t s key))))
  else
    let s := expire t key ttl_secs s in
    (s, (1, count, default (-1) (oldest_score (zview t s key)))).

Record AtomicRedisCheckResult := mkCheck {
  chk_allowed : bool;
  chk_count : Z;
  chk_oldest : option f64;
}.
(** [i64 as f64] of a non-negative number. *)
Definition parse_atomic_redis_check_result (raw : Z * Z * Z) :
    Result AtomicRedisCheckResult string :=
  let '(flag, count, oldest) := raw in
  if negb ((flag =? 0) || (flag =? 1)) then Err "unexpected allowed flag"%string
  else if count <? 0 then Err "negative count"%string
  else Ok (mkCheck (flag =? 1) count (if 0 <=? oldest then Some (f64_of_u64 oldest) else None)).

Definition redis_i64_from_u64 (v : Z) : Z := Z.min v i64_max.
Definition redis_i64_from_micros (v : Z) : Z := Z.min v i64_max.
(** [saturating_mul] and [saturating_sub] of [i64]. *)
Definition window_us (window_secs : Z) : Z := Z.min i64_max (redis_i64_from_u64 window_secs * 1000000).
Definition min_score (now_us window_secs : Z) : Z := sat_sub_i64 now_us (window_us window_secs).

(** [(x).ceil() as u64]. *)
Definition f64_ceil_as_u64 (a : f64) : Z :=
  match a with
  | S754_finite false m e =>
      Z.min u64_max (if 0 <=? e then Z.pos m * 2 ^ e else - ((- Z.pos m) / 2 ^ (- e)))
  | S754_infinity false => u64_max
  | _ => 0
  end.
Definition f64_million : f64 := f64_of_u64 1000000.
(** [distributed_reset_at]; the guards on the score hold of a parsed one. *)
Definition distributed_reset_at (now_secs window_secs : Z) (oldest : option f64) : Z :=
  let window_secs := Z.max window_secs 1 in
  match oldest with
  | Some score =>
      if f64_is_finite score && f64_ge score f64_zero then
        Z.max (f64_ceil_as_u64
                 (f64_div (f64_add score (f64_mul (f64_of_u64 window_secs) f64_million)) f64_million))
              now_secs
      else wrap64 (now_secs + window_secs)
  | None => wrap64 (now_secs + window_secs)
  end.

(** ** Without a backend: [local_counter] *)
Definition local_check_and_increment_at (counters : gmap string (Z * Z)) (key : string)
    (limit window_secs now : Z) : gmap string (Z * Z) * (bool * Z * Z) :=
  let window_secs := Z.max window_secs 1 in
  let window_start := now / window_secs * window_secs in
  let window_end := wrap64 (window_start + window_secs) in
  let entry := default (0, window_start) (counters !! key) in
  let entry := if negb (entry.2 =? window_start) then (0, window_start) else entry in
  if limit <=? entry.1 then (<[key := entry]> counters, (false, 0, window_end))
  else
    let count := wrap64 (entry.1 + 1) in
    (<[key := (count, entry.2)]> counters, (true, sat_sub limit count, window_end)).

Record RateLimitResult := mkRateResult { allowed : bool; rl_remaining : Z; reset_at : Z }.

(** What a call meets: its clock, whether it connects, whether the answer of the
    script arrives (it may be lost before or after the script ran), the
    backend's own clock, and a fresh member. *)
Record CheckEnv := mkEnv {
  now_secs : Z;
  now_micros : Z;
  connects : bool;
  answer_lost : option bool;
  backend_at : Z;
  uuid : string;
}.
Record Shared := mkShared { store : Store; counters : gmap string (Z * Z) }.

Inductive CheckError := NoConnection | ConnectionError | ScriptError | InvalidResult.
(** [check_rate_limit], with the state's observation of the backend. *)
Definition check_rate_limit (ds : DistributedState) (g : Shared) (tenant_id : string)
    (limit window_secs : Z) (e : CheckEnv) :
    DistributedState * Shared * Result RateLimitResult CheckError :=
  if is_distributed ds then
    let now_us := redis_i64_from_micros (now_micros e) in
    match connection (connects e) ds with
    | (ds, None) => (ds, g, Err NoConnection)
    | (ds, Some false) => (ds, g, Err ConnectionError)
    | (ds, Some true) =>
        let '(s, raw) :=
          atomic_script (backend_at e) (rate_limit_key tenant_id "sliding")
            (min_score now_us window_secs) now_us (redis_i64_from_u64 limit)
            (redis_i64_from_u64 (sat_add64 window_secs 1)) (uuid e) (store g) in
        match answer_lost e with
        | Some ran => (ds, mkShared (if ran then s else store g) (counters g), Err ScriptError)
        | None =>
            (ds, mkShared s (counters g),
             match parse_atomic_redis_check_result raw with
             | Err _ => Err InvalidResult
             | Ok o =>
                 Ok (mkRateResult (chk_allowed o)
                       (if chk_allowed o then sat_sub limit (chk_count o) else 0)
                       (distributed_reset_at (now_secs e) window_secs (chk_oldest o)))
             end)
        end
    end
  else
    let '(c, (ok, remaining, reset)) :=
      local_check_and_increment_at (counters g) tenant_id limit window_secs (now_secs e) in
    (ds, mkShared (store g) c, Ok (mkRateResult ok remaining reset)).
End script.

(** ** The sliding window *)

(** The reference: the log of the admitted instants.  A request is admitted
    exactly when fewer than [limit] admitted ones are less than a window old. *)
Definition in_window (w t x : Z) : bool := t - w <? x.
Definition admits (limit w : Z) (log : list Z) (t : Z) : bool :=
  Z.of_nat (length (filter (λ x, in_window w t x = true) log)) <? limit.
(** Whether the script runs in a call, and whether its answer arrives. *)
Definition script_runs (e : CheckEnv) : bool :=
  connects e && match answer_lost e with Some ran => ran | None => true end.
Definition log_step (limit w : Z) (log : list Z) (e : CheckEnv) : list Z * option bool :=
  if script_runs e then
    let ok := admits limit w log (now_micros e) in
    (if ok then log ++ [now_micros e] else log,
     match answer_lost e with None => Some ok | Some _ => None end)
  else (log, None).
Fixpoint log_run (limit w : Z) (log : list Z) (es : list CheckEnv) : list (option bool) :=
  match es with
  | [] => []
  | e :: es => let '(log, a) := log_step limit w log e in a :: log_run limit w log es
  end.

(** At most [limit] instants of a log in any interval of a window's length. *)
Definition count_in (w T : Z) (l : list Z) : Z :=
  Z.of_nat (length (filter (λ x, T - w < x ≤ T) l)).
Definition capped (limit w : Z) (l : list Z) : Prop := ∀ T, count_in w T l ≤ limit.

Lemma capped_admit limit w l t :
  capped limit w l → Forall (λ x, x ≤ t) l → admits limit w l t = true → capped limit w (l ++ [t]).
Proof.
  intros Hc Hl Ha T. unfold admits in Ha. apply Z.ltb_lt in Ha. specialize (Hc T).
  unfold count_in in *. rewrite filter_app, length_app, filter_cons.
  case_decide as Ht; simpl; rewrite ?filter_nil; simpl; [|lia].
  apply (Z.le_trans _ (Z.of_nat (length (filter (λ x, in_window w t x = true) l)) + 1)); [|lia].
  enough (Z.of_nat (length (filter (λ x, T - w < x ≤ T) l))
          ≤ Z.of_nat (length (filter (λ x, in_window w t x = true) l))) by lia.
  clear Hc Ha. induction Hl as [|x l Hx _ IH]; [done|]. rewrite !filter_cons. unfold in_window in *.
  repeat case_decide; rewrite ?Z.ltb_lt in *; simpl; lia.
Qed.

Lemma capped_sublist limit w l l' : l `sublist_of` l' → capped limit w l' → capped limit w l.
Proof.
  intros Hs Hc T. specialize (Hc T). unfold count_in in *.
  enough (Z.of_nat (length (filter (λ x, T - w < x ≤ T) l))
          ≤ Z.of_nat (length (filter (λ x, T - w < x ≤ T) l'))) by lia.
  clear Hc. induction Hs; [done|..]; rewrite ?filter_cons; repeat case_decide; simpl; lia.
Qed.

Section window.
Context `{SortedSets}.

(** The answers of a sequence of calls for one tenant: admitted, refused, or an
    error. *)
Definition answer (r : Result RateLimitResult CheckError) : option bool :=
  match r with Ok r => Some (allowed r) | Err _ => None end.
Fixpoint check_run (ds : DistributedState) (g : Shared) (tenant : string) (limit w : Z)
    (es : list CheckEnv) : list (option bool) :=
  match es with
  | [] => []
  | e :: es =>
      let '(ds, g, r) := check_rate_limit ds g tenant limit w e in
      answer r :: check_run ds g tenant limit w es
  end.

(** The entries of the sorted set that count at [t]. *)
Definition live (w t : Z) (m : gmap string Z) : gmap string Z :=
  filter (λ p, in_window w t p.2 = true) m.

Lemma live_live w t t' m : t ≤ t' → live w t' (live w t m) = live w t' m.
Proof.
  intros Ht. unfold live. rewrite map_filter_filter. apply map_filter_ext. intros k x _.
  unfold in_window. simpl. rewrite !Z.ltb_lt. lia.
Qed.

Lemma live_list w t (l : list (string * Z)) :
  NoDup l.*1 →
  size (live w t (list_to_map l)) = length (filter (λ x, in_window w t x = true) l.*2).
Proof.
  induction l as [|[k x] l IH]; intros Hn; [unfold live; simpl; by rewrite map_filter_empty|].
  apply NoDup_cons in Hn as [Hk Hn]. rewrite list_to_map_cons, fmap_cons. cbn [fst snd].
  apply not_elem_of_list_to_map_1 in Hk. simpl in Hk.
  rewrite filter_cons. unfold live in *. case_decide as Hx.
  - rewrite map_filter_insert_True by done. rewrite map_size_insert_None, IH by
      (done || by rewrite map_lookup_filter, Hk). done.
  - rewrite map_filter_insert_False by done. rewrite delete_id by done. by apply IH.
Qed.

Lemma live_old w t (m : gmap string Z) :
  (∀ k x, m !! k = Some x → x ≤ t - w) → live w t m = ∅.
Proof.
  intros Hall. apply map_empty. intros k. unfold live. apply map_lookup_filter_None. right.
  intros x Hx. apply Hall in Hx. simpl. unfold in_window. rewrite Z.ltb_lt. lia.
Qed.

(** The store at or after [t] holds the admitted entries [l]. *)
Definition holds_log (key : string) (w t : Z) (s : Store) (l : list (string * Z)) : Prop :=
  NoDup l.*1 ∧ Forall (λ x, x ≤ t) l.*2
  ∧ ∀ t', t ≤ t' → live w t' (zview t' s key) = live w t' (list_to_map l).

Lemma holds_expire key w ttl t s (l : list (string * Z)) :
  NoDup l.*1 → Forall (λ x, x ≤ t) l.*2 → 0 < ttl → w ≤ ttl * 1000000 →
  zview t s key = live w t (list_to_map l) → holds_log key w t (expire t key ttl s) l.
Proof.
  intros Hn Hl Httl Hw Hv. split_and!; [done..|]. intros t' Ht. rewrite expire_view by done.
  destruct (Z.ltb_spec t' (t + ttl * 1000000)).
  - rewrite Hv. by apply live_live.
  - transitivity (∅ : gmap string Z); [apply map_filter_empty|]. symmetry. apply live_old. intros k x Hx.
    apply elem_of_list_to_map_2 in Hx. rewrite Forall_fmap, Forall_forall in Hl.
    specialize (Hl _ Hx). simpl in Hl. lia.
Qed.

(** The script leaves every other key alone. *)
Lemma script_frame key key' t min now limit ttl m s w t0 l :
  key ≠ key' → t0 ≤ t → holds_log key' w t0 s l →
  holds_log key' w t (atomic_script t key min now limit ttl m s).1 l.
Proof.
  intros Hk Ht (Hn&Hf&Hv). split_and!; [done| |].
  - eapply Forall_impl; [exact Hf|]. simpl. lia.
  - intros t' Ht'. rewrite <- Hv by lia. f_equal. unfold atomic_script.
    destruct (tonumber limit <? _); simpl; by rewrite ?expire_ne, ?zrem_ne, ?zadd_ne, ?zremrangebyscore_ne.
Qed.

(** Up to 2^53 the script computes with the integers of the command. *)
Lemma tonumber_exact z : Z.abs z ≤ 2 ^ 53 → tonumber z = z.
Proof. intros Hz. unfold tonumber. by destruct (Z.leb_spec (Z.abs z) (2 ^ 53)); [|lia]. Qed.
Lemma script_log key limit ttl w t0 t m s l :
  0 ≤ t ≤ 2 ^ 53 → 0 ≤ limit ≤ 2 ^ 53 → ttl ≤ 2 ^ 53 → w ≤ 2 ^ 53 →
  holds_log key w t0 s l → t0 ≤ t → m ∉ l.*1 → 0 < w → 0 < ttl → w ≤ ttl * 1000000 →
  let '(s', raw) := atomic_script t key (t - w) t limit ttl m s in
  let ok := admits limit w l.*2 t in
  holds_log key w t s' (if ok then l ++ [(m, t)] else l)
  ∧ ∃ n oldest, raw = (if ok then 1 else 0, n, oldest) ∧ 0 ≤ n.
Proof.
  intros Htb Hlb Htlb Hwb (Hn&Hle&Hv) Ht Hm Hw Httl Hwt. unfold atomic_script. rewrite !tonumber_exact by lia.
  assert (Hfresh : (list_to_map l : gmap string Z) !! m = None) by by apply not_elem_of_list_to_map_1.
  assert (Hlive : live w t (list_to_map l) !! m = None).
  { unfold live. apply map_lookup_filter_None. by left. }
  assert (Hz : zview t (zremrangebyscore t key (t - w) s) key = live w t (list_to_map l)).
  { rewrite zremrangebyscore_view, <- (Hv t Ht). unfold live. apply map_filter_ext.
    intros k x _. unfold in_window. simpl. by rewrite Z.ltb_lt. }
  rewrite zadd_view, Hz, map_size_insert_None, live_list by done. unfold admits.
  set (n := length (filter _ l.*2)).
  assert (Hle' : Forall (λ x, x ≤ t) l.*2) by (eapply Forall_impl; [exact Hle|]; simpl; intros; lia).
  replace (limit <? Z.of_nat (S n)) with (negb (Z.of_nat n <? limit))
    by (destruct (Z.ltb_spec (Z.of_nat n) limit), (Z.ltb_spec limit (Z.of_nat (S n))); simpl; lia || done).
  destruct (Z.of_nat n <? limit) eqn:E; simpl.
  - split; [|by eexists _, _; split; [done|lia]]. apply holds_expire; try done.
    + rewrite fmap_app. apply NoDup_app. split_and!; [done| |apply NoDup_singleton].
      intros k Hk ->%list_elem_of_singleton. done.
    + rewrite fmap_app. apply Forall_app. split; [done|]. by constructor.
    + rewrite zadd_view, Hz. rewrite list_to_map_snoc by done. unfold live.
      rewrite map_filter_insert_True; [done|]. unfold in_window. simpl. apply Z.ltb_lt. lia.
  - split; [|eexists _, _; split; [done|lia]]. apply holds_expire; try done.
    rewrite zrem_view, zadd_view, Hz. by rewrite delete_insert_id.
Qed.

(** The gateways' clocks and the backend's agree when the script runs and do not run
    backwards, and members are fresh; instants are ones a double holds exactly (until
    the year 2255). *)
Definition clocks_agree (es : list CheckEnv) : Prop :=
  StronglySorted Z.le (now_micros <$> es) ∧ NoDup (uuid <$> es)
  ∧ Forall (λ e, backend_at e = now_micros e ∧ 0 ≤ now_micros e ≤ 2 ^ 53) es.
Definition window_ok (limit window_secs : Z) : Prop :=
  0 ≤ limit ≤ 2 ^ 53 ∧ 0 < window_secs ∧ window_secs * 1000000 ≤ 2 ^ 53.

Lemma connection_distributed b ds :
  is_distributed ds = true →
  is_distributed (connection b ds).1 = true ∧ (connection b ds).2 = Some b.
Proof.
  unfold is_distributed, connection. rewrite !bool_decide_eq_true. intros [u Hu]. rewrite Hu.
  destruct b; simpl; rewrite ?bool_decide_eq_true; (split; [|done]); unfold mark_backend_success,
    mark_backend_failure, set_health; [destruct (backend_available ds)|]; simpl; by eexists.
Qed.

Lemma holds_later key w t t' s l : holds_log key w t s l → t ≤ t' → holds_log key w t' s l.
Proof.
  intros (?&Hf&Hv) Ht. split_and!; [done| |].
  - eapply Forall_impl; [exact Hf|]. simpl. lia.
  - intros t'' ?. apply Hv. lia.
Qed.

(** The arguments of the script, at the widths the code clamps to. *)
Lemma script_args now_us window_secs limit :
  0 ≤ now_us ≤ 2 ^ 53 → window_ok limit window_secs →
  min_score (redis_i64_from_micros now_us) window_secs = now_us - window_secs * 1000000
  ∧ redis_i64_from_micros now_us = now_us ∧ redis_i64_from_u64 limit = limit
  ∧ 0 < redis_i64_from_u64 (sat_add64 window_secs 1) ≤ 2 ^ 53
  ∧ window_secs * 1000000 ≤ redis_i64_from_u64 (sat_add64 window_secs 1) * 1000000.
Proof.
  intros Hn (Hl&Hw&Hwu).
  unfold min_score, window_us, redis_i64_from_micros, redis_i64_from_u64, sat_sub_i64, sat_add64,
    u64_max, i64_min, i64_max in *. lia.
Qed.

Lemma check_step_log ds g tenant limit window_secs e l t0 :
  is_distributed ds = true → window_ok limit window_secs →
  holds_log (rate_limit_key tenant "sliding") (window_secs * 1000000) t0 (store g) l →
  t0 ≤ now_micros e → backend_at e = now_micros e → 0 ≤ now_micros e ≤ 2 ^ 53 →
  uuid e ∉ l.*1 →
  ∃ ds' g' r l', check_rate_limit ds g tenant limit window_secs e = (ds', g', r)
    ∧ is_distributed ds' = true
    ∧ (l'.*2, answer r) = log_step limit (window_secs * 1000000) l.*2 e
    ∧ (∀ m, m ∈ l'.*1 → m ∈ l.*1 ∨ m = uuid e)
    ∧ holds_log (rate_limit_key tenant "sliding") (window_secs * 1000000) (now_micros e) (store g') l'.
Proof.
  intros Hd Hw Hh Ht Hb Hn Hu. unfold check_rate_limit, log_step, script_runs. rewrite Hd.
  destruct (connection_distributed (connects e) ds Hd) as [Hd' Hc].
  destruct (connection (connects e) ds) as [ds' o]. simpl in Hd', Hc. subst o.
  pose proof (holds_later _ _ _ _ _ _ Hh Ht) as Hlater.
  destruct (connects e); [|by exists ds', g, (Err ConnectionError), l; split_and!; auto].
  destruct (script_args (now_micros e) window_secs limit) as (Hmin&Hnow&Hl&Httl&Hle); [done..|].
  rewrite Hmin, Hnow, Hl, Hb.
  pose proof (script_log (rate_limit_key tenant "sliding") limit
    (redis_i64_from_u64 (sat_add64 window_secs 1)) (window_secs * 1000000) t0 (now_micros e) (uuid e)
    (store g) l Hn ltac:(apply Hw) ltac:(apply Httl) ltac:(apply Hw) Hh Ht Hu) as Hs.
  destruct (atomic_script _ _ _ _ _ _ _ _) as [s raw].
  destruct Hs as [Hs (n&oldest&->&Hpos)]; [destruct Hw as (_&?&_); lia|apply Httl|done|].
  set (ok := admits limit (window_secs * 1000000) l.*2 (now_micros e)) in *.
  assert (Hfst : (if ok then l ++ [(uuid e, now_micros e)] else l).*2
                 = if ok then l.*2 ++ [now_micros e] else l.*2)
    by (destruct ok; [by rewrite fmap_app|done]).
  assert (Hmem : ∀ m, m ∈ (if ok then l ++ [(uuid e, now_micros e)] else l).*1 → m ∈ l.*1 ∨ m = uuid e).
  { intros m. destruct ok; [|by left]. rewrite fmap_app, elem_of_app. simpl.
    rewrite list_elem_of_singleton. done. }
  destruct (answer_lost e) as [[]|]; simpl.
  - by exists ds', (mkShared s (counters g)), (Err ScriptError), (if ok then l ++ [(uuid e, now_micros e)] else l);
      split_and!; [done|done|by rewrite Hfst|done|done].
  - by exists ds', (mkShared (store g) (counters g)), (Err ScriptError), l; split_and!; auto.
  - eexists ds', (mkShared s (counters g)), _, (if ok then l ++ [(uuid e, now_micros e)] else l).
    split_and!; [done|done| |done|done]. rewrite Hfst.
    destruct ok; simpl; rewrite (proj2 (Z.ltb_ge n 0)) by done; done.
Qed.

Lemma check_run_log ds g tenant limit window_secs es l t0 :
  is_distributed ds = true → window_ok limit window_secs →
  holds_log (rate_limit_key tenant "sliding") (window_secs * 1000000) t0 (store g) l →
  clocks_agree es → Forall (λ e, t0 ≤ now_micros e) es → Forall (λ e, uuid e ∉ l.*1) es →
  check_run ds g tenant limit window_secs es = log_run limit (window_secs * 1000000) l.*2 es.
Proof.
  revert ds g l t0. induction es as [|e es IH]; intros ds g l t0 Hd Hw Hh (Hs&Hn&Hc) Ht Hu; [done|].
  apply Forall_cons in Hc as [[Hb He] Hc], Ht as [Ht _], Hu as [Hue Hu].
  cbn [fmap list_fmap] in Hs, Hn. apply StronglySorted_inv in Hs as [Hs Hle].
  apply NoDup_cons in Hn as [Hne Hn].
  destruct (check_step_log ds g tenant limit window_secs e l t0) as (ds'&g'&r&l'&Heq&Hd'&Hr&Hm&Hh');
    [done..|].
  cbn [check_run log_run]. rewrite Heq, <- Hr. f_equal.
  apply (IH ds' g' l' (now_micros e)); try done.
  - by rewrite Forall_fmap in Hle.
  - apply Forall_forall. intros e' He' [Hin|Hin]%Hm.
    + rewrite Forall_forall in Hu. by apply (Hu e').
    + apply Hne. rewrite <- Hin. by apply list_elem_of_fmap_2.
Qed.

(** The script refines the log: for a fresh key, while the clocks agree,
    every call of [check_rate_limit] that is answered is admitted exactly when
    fewer than [limit] admitted calls are less than a window old, whatever
    connections and answers are lost in between (a lost answer after the script
    ran still counts). *)
Theorem sliding_window_exact ds g tenant limit window_secs es :
  is_distributed ds = true → window_ok limit window_secs → clocks_agree es →
  (∀ t, zview t (store g) (rate_limit_key tenant "sliding") = ∅) →
  check_run ds g tenant limit window_secs es = log_run limit (window_secs * 1000000) [] es.
Proof.
  intros Hd Hw Hc Hz. apply (check_run_log _ _ _ _ _ _ [] 0); try done.
  - split_and!; [apply NoDup_nil_2|constructor|]. intros t _. by rewrite Hz.
  - destruct Hc as (_&_&Hc). eapply Forall_impl; [exact Hc|]. simpl. intros e [_ ?]. lia.
  - apply Forall_forall. intros e _. apply not_elem_of_nil.
Qed.
End window.
