(* ===== verification/DistributedLimiter.v ===== *)
(** * DistributedLimiter: the limiter over the shared backend
    (src/src/gateway/distributed_rate_limit.rs)

    The pooled connection, the backend's health, the limiter that applies its
    failure policy, and a fleet of gateways that share one backend.  What a call
    meets (connections, answers, clocks, a fresh member) is its argument. *)

From Stdlib Require Import ZArith Ascii String.
From stdpp Require Import base gmap strings list fin_maps sorting.
From S2P Require Import Prelude Text Float RateWindow DistributedState DistributedLimit.

Local Open Scope Z_scope.

(** ** Failure policy and errors *)
Inductive DistributedFailurePolicy := LocalEnforcement | FailClosed.
#[export] Instance policy_eq_dec : EqDecision DistributedFailurePolicy.
Proof. solve_decision. Defined.
Definition for_requirement (r : DistributedRequirement) : DistributedFailurePolicy :=
  match r with Required => FailClosed | LocalOnly | Disabled => LocalEnforcement end.
Definition policy_str (p : DistributedFailurePolicy) : string :=
  match p with LocalEnforcement => "local_enforcement" | FailClosed => "fail_closed" end.

Inductive DistributedBackendFailureKind := KindUnavailable | KindCommand.
(** [DistributedBackendError], by the place that raises it. *)
Inductive DistributedBackendError :=
| ConnectTimedOut | ConnectionFailed | PingTimedOut | PingError
| CheckTimedOut | CheckFailed | InvalidAtomicResult.
Definition failure_kind (e : DistributedBackendError) : DistributedBackendFailureKind :=
  match e with
  | ConnectTimedOut | ConnectionFailed | PingTimedOut => KindUnavailable
  | PingError | CheckTimedOut | CheckFailed | InvalidAtomicResult => KindCommand
  end.
Inductive DistributedCheckOutcome := Allowed (remaining : Z) | Denied.

(** ** The health of the backend *)
Definition RECOVERY_SUCCESS_THRESHOLD : Z := 2.
Record BackendHealth := mkHealth {
  healthy : bool;
  bh_successes : Z;
  last_success_unix : option Z;
  last_failure_unix : option Z;
}.
Definition BackendHealthTracker_new : BackendHealth :=
  mkHealth true RECOVERY_SUCCESS_THRESHOLD None None.
Definition record_success (now : Z) (h : BackendHealth) : BackendHealth :=
  if healthy h then mkHealth true RECOVERY_SUCCESS_THRESHOLD (Some now) (last_failure_unix h)
  else
    let n := Z.min (sat_add32 (bh_successes h) 1) RECOVERY_SUCCESS_THRESHOLD in
    mkHealth (RECOVERY_SUCCESS_THRESHOLD <=? n) n (Some now) (last_failure_unix h).
Definition record_failure (now : Z) (h : BackendHealth) : BackendHealth :=
  mkHealth false 0 (last_success_unix h) (Some now).

(** ** The pooled connection *)
Inductive ConnectOutcome := Connected (handle : nat) | TimesOut | Refuses.
(** A command is answered, times out, or fails; its effect may have happened. *)
Inductive CommandOutcome := Answered | CommandTimesOut (ran : bool) | CommandFails (ran : bool).

(** [AsyncRedisPool.pooled]. *)
Definition Pool : Type := option nat.
Definition acquire (c : ConnectOutcome) (p : Pool) : Pool * Result nat DistributedBackendError :=
  match p with
  | Some h => (p, Ok h)
  | None =>
      match c with
      | Connected h => (Some h, Ok h)
      | TimesOut => (None, Err ConnectTimedOut)
      | Refuses => (None, Err ConnectionFailed)
      end
  end.
Definition invalidate (p : Pool) : Pool := None.
(** [ping]; what a command meets depends on the connection it is sent over. *)
Definition ping (c : ConnectOutcome) (command : nat → CommandOutcome) (p : Pool) :
    Pool * Result unit DistributedBackendError :=
  match acquire c p with
  | (p, Err e) => (p, Err e)
  | (p, Ok h) =>
      match command h with
      | Answered => (p, Ok tt)
      | CommandTimesOut _ => (p, Err PingTimedOut)
      | CommandFails _ => (invalidate p, Err PingError)
      end
  end.

(** ** [RedisRateLimiter] *)
Section redis.
Context `{SortedSets}.

(** What a call of the limiter meets: the recovery probe's connection and
    answer, then those of the check. *)
Record CallEnv := mkCall {
  c_instant : Z;
  c_unix : Z;
  c_micros : Z;
  c_backend_at : Z;
  c_member : string;
  c_probe_connect : ConnectOutcome;
  c_probe : nat → CommandOutcome;
  c_connect : ConnectOutcome;
  c_command : nat → CommandOutcome;
}.

(** [RedisRateLimiter::check_and_increment]. *)
Definition redis_check (cfg : GlobalRateLimitConfig) (scope_key : string) (e : CallEnv)
    (p : Pool) (s : Store) : Pool * Store * Result DistributedCheckOutcome DistributedBackendError :=
  match acquire (c_connect e) p with
  | (p, Err err) => (p, s, Err err)
  | (p, Ok h) =>
      let now_us := redis_i64_from_micros (c_micros e) in
      let '(s', raw) :=
        atomic_script (c_backend_at e) ("vt:rl:" ++ scope_key)%string
          (min_score now_us (g_window_seconds cfg)) now_us
          (redis_i64_from_u64 (g_max_requests cfg))
          (redis_i64_from_u64 (sat_add64 (g_window_seconds cfg) 1)) (c_member e) s in
      match c_command e h with
      | CommandTimesOut ran => (p, if ran then s' else s, Err CheckTimedOut)
      | CommandFails ran => (invalidate p, if ran then s' else s, Err CheckFailed)
      | Answered =>
          (p, s',
           match parse_atomic_redis_check_result raw with
           | Err _ => Err InvalidAtomicResult
           | Ok o => Ok (if chk_allowed o then Allowed (sat_sub (g_max_requests cfg) (chk_count o))
                         else Denied)
           end)
      end
  end.

(** ** [DistributedRateLimiter]

    [local] holds [ScopedLocalRateLimiter]'s windows; [backend] is the pool of
    the Redis limiter, which is also the recovery probe unless it was injected. *)
Record DistributedRateLimiter := mkLimiter {
  rl_config : GlobalRateLimitConfig;
  failure_policy : DistributedFailurePolicy;
  local : gmap string (Z * Z);
  backend : option Pool;
  rl_health : BackendHealth;
  recovery_probe : bool;
}.
Definition set_local l (m : DistributedRateLimiter) : DistributedRateLimiter :=
  mkLimiter (rl_config m) (failure_policy m) l (backend m) (rl_health m) (recovery_probe m).
Definition set_rl_health h (m : DistributedRateLimiter) : DistributedRateLimiter :=
  mkLimiter (rl_config m) (failure_policy m) (local m) (backend m) h (recovery_probe m).
Definition set_pool p (m : DistributedRateLimiter) : DistributedRateLimiter :=
  mkLimiter (rl_config m) (failure_policy m) (local m) (Some p) (rl_health m) (recovery_probe m).

Definition local_only_with_policy (cfg : GlobalRateLimitConfig) (policy : DistributedFailurePolicy) :
    DistributedRateLimiter :=
  mkLimiter cfg policy ∅ None BackendHealthTracker_new false.
(** [from_config_with_policy]; [url] is the value of the backend's environment
    variable and [opens] whether a client opens on it. *)
Definition from_config_with_policy (feature : bool) (cfg : GlobalRateLimitConfig)
    (distributed : bool) (url : option string) (opens : string → bool)
    (policy : DistributedFailurePolicy) : DistributedRateLimiter :=
  let u := default EmptyString url in
  if feature && distributed && negb (is_empty u) && opens u
  then mkLimiter cfg policy ∅ (Some None) BackendHealthTracker_new true
  else local_only_with_policy cfg policy.
Definition from_config_for_requirement (feature : bool) (cfg : GlobalRateLimitConfig)
    (distributed : bool) (url : option string) (opens : string → bool) (r : DistributedRequirement) :
    DistributedRateLimiter :=
  from_config_with_policy feature cfg distributed url opens (for_requirement r).

Definition limit_exceeded (m : DistributedRateLimiter) : RequestRateLimitExceeded :=
  mkExceeded (g_window_seconds (rl_config m)) (g_max_requests (rl_config m)) 0.

(** [ScopedLocalRateLimiter::check_and_increment] on the limiter's windows. *)
Definition local_check (m : DistributedRateLimiter) (scope_key : string) (now : Z) :
    DistributedRateLimiter * Result Z RequestRateLimitExceeded :=
  let '(l, r) := keyed_hit (g_max_requests (rl_config m)) (g_window_seconds (rl_config m))
                   (local m) scope_key now in
  (set_local l m, r).

Definition apply_backend_failure (m : DistributedRateLimiter) (scope_key : string) (e : CallEnv) :
    DistributedRateLimiter * Result Z RequestRateLimitExceeded :=
  let m := set_rl_health (record_failure (c_unix e) (rl_health m)) m in
  match failure_policy m with
  | LocalEnforcement => local_check m scope_key (c_instant e)
  | FailClosed => (m, Err (limit_exceeded m))
  end.

(** [recover_if_needed], for a limiter with the pool [p]. *)
Definition recover_if_needed (m : DistributedRateLimiter) (p : Pool) (e : CallEnv) :
    DistributedRateLimiter * Result unit RequestRateLimitExceeded :=
  if healthy (rl_health m) then (m, Ok tt)
  else match failure_policy m with
       | LocalEnforcement => (m, Ok tt)
       | FailClosed =>
           if recovery_probe m then
             match ping (c_probe_connect e) (c_probe e) p with
             | (p, Ok _) =>
                 let m := set_rl_health (record_success (c_unix e) (rl_health m)) (set_pool p m) in
                 (m, if healthy (rl_health m) then Ok tt else Err (limit_exceeded m))
             | (p, Err _) =>
                 let m := set_rl_health (record_failure (c_unix e) (rl_health m)) (set_pool p m) in
                 (m, Err (limit_exceeded m))
             end
           else (m, Ok tt)
       end.

(** The part of [check_and_increment] that asks the backend. *)
Definition backend_check (m : DistributedRateLimiter) (p : Pool) (scope_key : string) (e : CallEnv)
    (s : Store) : DistributedRateLimiter * Store * Result Z RequestRateLimitExceeded :=
  match redis_check (rl_config m) scope_key e p s with
  | (p, s, r) =>
      let m := set_pool p m in
      match r with
      | Ok (Allowed remaining) =>
          let m := set_rl_health (record_success (c_unix e) (rl_health m)) m in
          (m, s, if bool_decide (failure_policy m = FailClosed) && negb (healthy (rl_health m))
                 then Err (limit_exceeded m) else Ok remaining)
      | Ok Denied =>
          let m := set_rl_health (record_success (c_unix e) (rl_health m)) m in
          (m, s, Err (limit_exceeded m))
      | Err _ => let '(m, r) := apply_backend_failure m scope_key e in (m, s, r)
      end
  end.

(** [DistributedRateLimiter::check_and_increment]. *)
Definition check_and_increment (m : DistributedRateLimiter) (scope_key : string) (e : CallEnv)
    (s : Store) : DistributedRateLimiter * Store * Result Z RequestRateLimitExceeded :=
  match backend m with
  | None => let '(m, r) := local_check m scope_key (c_instant e) in (m, s, r)
  | Some p =>
      if healthy (rl_health m) then backend_check m p scope_key e s
      else match recover_if_needed m p e with
           | (m, Err x) => (m, s, Err x)
           | (m, Ok _) =>
               if negb (healthy (rl_health m)) && bool_decide (failure_policy m = FailClosed)
                  && recovery_probe m then (m, s, Err (limit_exceeded m))
               else if negb (healthy (rl_health m))
                       && bool_decide (failure_policy m = LocalEnforcement)
               then let '(m, r) := local_check m scope_key (c_instant e) in (m, s, r)
               else backend_check m (default None (backend m)) scope_key e s
           end
  end.
End redis.

(** ** A fleet on one backend *)
Section fleet.
Context `{SortedSets}.

(** Gateways that share the store; an event is a call on gateway [i] for a scope.
    The calls are in the order in which their scripts run. *)
Definition fleet_step (gs : list DistributedRateLimiter) (s : Store) (i : nat) (scope : string)
    (e : CallEnv) : list DistributedRateLimiter * Store * bool :=
  match gs !! i with
  | None => (gs, s, false)
  | Some m =>
      let '(m, s, r) := check_and_increment m scope e s in
      (<[i := m]> gs, s, match r with Ok _ => true | Err _ => false end)
  end.
(** The scope and the instant of every admitted call. *)
Fixpoint fleet_admitted (gs : list DistributedRateLimiter) (s : Store)
    (evs : list (nat * string * CallEnv)) : list (string * Z) :=
  match evs with
  | [] => []
  | (i, scope, e) :: evs =>
      let '(gs, s, ok) := fleet_step gs s i scope e in
      (if ok then [(scope, c_micros e)] else []) ++ fleet_admitted gs s evs
  end.
Definition admitted_for (scope : string) (l : list (string * Z)) : list Z :=
  (filter (λ p, p.1 = scope) l).*2.

Definition fail_closed_on (cfg : GlobalRateLimitConfig) (m : DistributedRateLimiter) : Prop :=
  failure_policy m = FailClosed ∧ is_Some (backend m) ∧ rl_config m = cfg.
Definition scope_key (scope : string) : string := ("vt:rl:" ++ scope)%string.
Definition in_step (e : CallEnv) : Prop :=
  c_backend_at e = c_micros e ∧ 0 ≤ c_micros e ≤ 2 ^ 53.

(** The log of [scope] after a call for [scope'] that recorded [x] or not. *)
Definition may_extend (limit w : Z) (l l' : list (string * Z)) (x : string * Z) : Prop :=
  l' = l ∨ (l' = l ++ [x] ∧ admits limit w l.*2 x.2 = true).

Lemma redis_check_log cfg scope e p s l t0 :
  window_ok (g_max_requests cfg) (g_window_seconds cfg) →
  let w := g_window_seconds cfg * 1000000 in
  holds_log (scope_key scope) w t0 s l → t0 ≤ c_micros e → in_step e → c_member e ∉ l.*1 →
  ∃ p' s' r l', redis_check cfg scope e p s = (p', s', r)
    ∧ may_extend (g_max_requests cfg) w l l' (c_member e, c_micros e)
    ∧ (∀ n, r = Ok (Allowed n) → l' = l ++ [(c_member e, c_micros e)])
    ∧ holds_log (scope_key scope) w (c_micros e) s' l'.
Proof.
  intros Hw w Hh Ht [Hb Hn] Hm. unfold redis_check.
  pose proof (holds_later _ _ _ _ _ _ Hh Ht) as Hlater.
  destruct (acquire (c_connect e) p) as [p1 [h|err]];
    [|by exists p1, s, (Err err), l; split_and!; [|left|..]].
  destruct (script_args (c_micros e) (g_window_seconds cfg) (g_max_requests cfg))
    as (Hmin&Hnow&Hl&Httl&Hle); [done..|].
  rewrite Hmin, Hnow, Hl, Hb.
  pose proof (script_log (scope_key scope) (g_max_requests cfg)
    (redis_i64_from_u64 (sat_add64 (g_window_seconds cfg) 1)) w t0 (c_micros e) (c_member e)
    s l Hn ltac:(apply Hw) ltac:(apply Httl) ltac:(apply Hw) Hh Ht Hm) as Hs. unfold w, scope_key in *.
  destruct (atomic_script _ _ _ _ _ _ _ _) as [s1 raw].
  destruct Hs as [Hs (n&oldest&->&Hpos)]; [destruct Hw as (_&?&_); lia|apply Httl|done|].
  set (ok := admits _ _ l.*2 (c_micros e)) in *.
  set (l' := if ok then l ++ [(c_member e, c_micros e)] else l) in *.
  assert (Hno : may_extend (g_max_requests cfg) (g_window_seconds cfg * 1000000) l l
    (c_member e, c_micros e)) by (left; done).
  assert (Hext : may_extend (g_max_requests cfg) (g_window_seconds cfg * 1000000) l l'
    (c_member e, c_micros e)) by (unfold l', ok; destruct (admits _ _ _ _) eqn:Ha; [right|]; done).
  destruct (c_command e h) as [|[]|[]];
    [exists p1, s1, (if ok then Ok (Allowed (sat_sub (g_max_requests cfg) n)) else Ok Denied), l'
    |eexists p1, s1, _, l'|eexists p1, s, _, l|eexists _, s1, _, l'|eexists _, s, _, l];
    (split_and!; [try reflexivity|try exact Hext; exact Hno|try done|done]).
  - destruct ok; simpl; by rewrite (proj2 (Z.ltb_ge n 0)) by done.
  - unfold l'. intros k. by destruct ok.
Qed.

Lemma redis_check_frame cfg scope scope' e p s l t0 :
  scope ≠ scope' → in_step e → t0 ≤ c_micros e →
  holds_log (scope_key scope') (g_window_seconds cfg * 1000000) t0 s l →
  holds_log (scope_key scope') (g_window_seconds cfg * 1000000) (c_micros e)
    (redis_check cfg scope e p s).1.2 l.
Proof.
  intros Hne [Hb _] Ht Hh. pose proof (holds_later _ _ _ _ _ _ Hh Ht) as Hlater. unfold redis_check.
  destruct (acquire (c_connect e) p) as [p1 [h|err]]; [|done].
  assert (Hk : scope_key scope ≠ scope_key scope') by (unfold scope_key; intros [=]; done).
  rewrite Hb.
  match goal with |- context [atomic_script ?t ?k ?mn ?nw ?lm ?tt ?mb s] =>
    pose proof (script_frame k (scope_key scope') t mn nw lm tt mb s _ t0 l Hk Ht Hh) as Hf;
    destruct (atomic_script t k mn nw lm tt mb s) as [s1 raw] end.
  destruct (c_command e h) as [|[]|[]]; done.
Qed.

(** A fail-closed limiter that asks the backend answers [Ok] only when the
    backend allowed the call. *)
Lemma backend_check_fail_closed cfg m p scope e s :
  fail_closed_on cfg m →
  ∃ m' s' r, backend_check m p scope e s = (m', s', r)
    ∧ fail_closed_on cfg m' ∧ local m' = local m ∧ s' = (redis_check cfg scope e p s).1.2
    ∧ ∀ n, r = Ok n → (redis_check cfg scope e p s).2 = Ok (Allowed n) ∧ healthy (rl_health m') = true.
Proof.
  intros (Hp&Hb&Hc). unfold backend_check. rewrite Hc.
  destruct (redis_check cfg scope e p s) as [[p' s'] r]. unfold apply_backend_failure, set_rl_health, set_pool.
  destruct r as [[n|]|err]; cbn [fst snd failure_policy rl_config local rl_health backend]; rewrite ?Hp.
  - eexists _, s', _. split_and!; [reflexivity|by split_and!|done|done|]. intros k. simpl.
    destruct (healthy (record_success _ _)); [|done]. by intros [= ->].
  - by eexists _, s', _; split_and!; [reflexivity|split_and!|..].
  - by eexists _, s', _; split_and!; [reflexivity|split_and!|..].
Qed.

Lemma recover_fail_closed cfg m p e :
  fail_closed_on cfg m →
  fail_closed_on cfg (recover_if_needed m p e).1 ∧ local (recover_if_needed m p e).1 = local m.
Proof.
  intros (Hp&Hb&Hc). unfold recover_if_needed. rewrite Hp.
  destruct (healthy _), (recovery_probe m); [by repeat split..| |by repeat split].
  destruct (ping _ _ p) as [p' []]; simpl; repeat split; try done; by eexists.
Qed.

Lemma fail_closed_step cfg m scope e s :
  fail_closed_on cfg m →
  ∃ m' s' r, check_and_increment m scope e s = (m', s', r)
    ∧ fail_closed_on cfg m' ∧ local m' = local m
    ∧ ((s' = s ∧ ∀ n, r ≠ Ok n)
       ∨ ∃ p, s' = (redis_check cfg scope e p s).1.2
           ∧ ∀ n, r = Ok n →
               (redis_check cfg scope e p s).2 = Ok (Allowed n) ∧ healthy (rl_health m') = true).
Proof.
  intros Hm. unfold check_and_increment. destruct Hm as (Hp&[p Hb]&Hc). rewrite Hb.
  assert (Hm : fail_closed_on cfg m) by (repeat split; [done| |done]; by exists p).
  destruct (healthy (rl_health m)).
  { destruct (backend_check_fail_closed cfg m p scope e s Hm) as (m'&s'&r&->&?&?&?&?).
    exists m', s', r. split_and!; [done..|]. right. by exists p. }
  destruct (recover_fail_closed cfg m p e Hm) as [Hm1 Hl1].
  destruct (recover_if_needed m p e) as [m1 [u|x]]; simpl in Hm1, Hl1.
  - destruct Hm1 as (Hp1&Hb1&Hc1). rewrite Hp1.
    assert (Hm1 : fail_closed_on cfg m1) by by repeat split.
    rewrite bool_decide_true, bool_decide_false, andb_false_r, andb_true_r by done.
    destruct (negb (healthy _) && recovery_probe m1).
    { eexists m1, s, _. split_and!; [reflexivity|done..|]. by left. }
    destruct (backend_check_fail_closed cfg m1 (default None (backend m1)) scope e s Hm1)
      as (m'&s'&r&->&?&?&?&?).
    exists m', s', r. split_and!; [done|done|congruence|]. right. by eexists.
  - eexists m1, s, _. split_and!; [reflexivity|done..|]. by left.
Qed.

Lemma fleet_step_log cfg gs s i scope scope' e l t0 :
  Forall (fail_closed_on cfg) gs → window_ok (g_max_requests cfg) (g_window_seconds cfg) →
  let w := g_window_seconds cfg * 1000000 in
  holds_log (scope_key scope) w t0 s l → t0 ≤ c_micros e → in_step e → c_member e ∉ l.*1 →
  ∃ gs' s' ok l', fleet_step gs s i scope' e = (gs', s', ok)
    ∧ Forall (fail_closed_on cfg) gs'
    ∧ may_extend (g_max_requests cfg) w l l' (c_member e, c_micros e)
    ∧ (ok = true → scope' = scope → l' = l ++ [(c_member e, c_micros e)])
    ∧ holds_log (scope_key scope) w (c_micros e) s' l'.
Proof.
  intros Hgs Hw w Hh Ht He Hm. unfold fleet_step.
  pose proof (holds_later _ _ _ _ _ _ Hh Ht) as Hlater.
  destruct (gs !! i) as [m|] eqn:Hi; [|by exists gs, s, false, l; split_and!; [| |left|..]].
  destruct (fail_closed_step cfg m scope' e s) as (m'&s'&r&->&Hm'&_&Hr);
    [by eapply (Forall_lookup_1 _ _ _ _ Hgs Hi)|].
  assert (Forall (fail_closed_on cfg) (<[i:=m']> gs)) by by apply Forall_insert.
  destruct Hr as [[-> Hr]|(p&->&Hr)].
  { eexists _, s, _, l. split_and!; [reflexivity|done|by left| |done]. by destruct r as [n|]; [destruct (Hr n)|]. }
  destruct (decide (scope' = scope)) as [->|Hne].
  - destruct (redis_check_log cfg scope e p s l t0) as (p'&s'&r'&l'&Heq&Hx&Hok&Hh'); [done..|].
    rewrite Heq in Hr |- *. eexists _, s', _, l'. split_and!; [reflexivity|done..| |done].
    destruct r as [n|]; [|done]. intros _ _. eapply Hok, Hr. done.
  - eexists _, _, _, l. split_and!; [reflexivity|done|by left|done|].
    by eapply redis_check_frame.
Qed.

(** The clocks of the gateways and of the backend agree when a script runs and do not
    run backwards, and members are fresh. *)
Definition fleet_clocks (evs : list (nat * string * CallEnv)) : Prop :=
  StronglySorted Z.le ((λ ev, c_micros ev.2) <$> evs) ∧ NoDup ((λ ev, c_member ev.2) <$> evs)
  ∧ Forall (λ ev, in_step ev.2) evs.

Lemma fleet_log cfg scope evs gs s l t0 :
  Forall (fail_closed_on cfg) gs → window_ok (g_max_requests cfg) (g_window_seconds cfg) →
  let w := g_window_seconds cfg * 1000000 in
  holds_log (scope_key scope) w t0 s l → capped (g_max_requests cfg) w l.*2 →
  fleet_clocks evs → Forall (λ ev, t0 ≤ c_micros ev.2) evs → Forall (λ ev, c_member ev.2 ∉ l.*1) evs →
  ∃ log, capped (g_max_requests cfg) w log
    ∧ l.*2 ++ admitted_for scope (fleet_admitted gs s evs) `sublist_of` log.
Proof.
  revert gs s l t0. induction evs as [|[[i scope'] e] evs IH];
    intros gs s l t0 Hgs Hw w Hh Hcap (Hs&Hn&Hc) Ht Hu.
  { exists l.*2. split; [done|]. by rewrite app_nil_r. }
  apply Forall_cons in Hc as [He Hc], Ht as [Ht _], Hu as [Hue Hu]. cbn [fmap list_fmap snd] in *.
  apply StronglySorted_inv in Hs as [Hs Hle]. apply NoDup_cons in Hn as [Hne Hn].
  destruct (fleet_step_log cfg gs s i scope scope' e l t0) as (gs'&s'&ok&l'&Heq&Hgs'&Hx&Hok&Hh'); [done..|].
  cbn [fleet_admitted]. rewrite Heq.
  destruct (IH gs' s' l' (c_micros e)) as (log&Hlog&Hsub); try done.
  - destruct Hx as [->|[-> Ha]]; [done|]. rewrite fmap_app. apply capped_admit; [done| |done].
    destruct Hh as (_&Hf&_). eapply Forall_impl; [exact Hf|]. simpl. lia.
  - by rewrite Forall_fmap in Hle.
  - apply Forall_forall. intros ev Hev. rewrite Forall_forall in Hu. specialize (Hu ev Hev).
    destruct Hx as [->|[-> _]]; [done|]. rewrite fmap_app, elem_of_app. simpl.
    rewrite list_elem_of_singleton. intros [?|Heq']; [done|]. apply Hne. rewrite <- Heq'.
    by apply (list_elem_of_fmap_2 (λ ev, c_member ev.2)).
  - exists log. split; [done|]. etransitivity; [|exact Hsub].
    unfold admitted_for. rewrite filter_app, fmap_app, app_assoc. apply sublist_app; [|done].
    destruct ok; simpl; [rewrite filter_cons; simpl; destruct (decide (scope' = scope)) as [->|Hd]|];
      simpl; rewrite ?filter_nil; simpl; rewrite ?app_nil_r.
    + rewrite Hok by done. by rewrite fmap_app.
    + destruct Hx as [->|[-> _]]; [done|]. rewrite fmap_app. by apply sublist_inserts_r.
    + destruct Hx as [->|[-> _]]; [done|]. rewrite fmap_app. by apply sublist_inserts_r.
Qed.

(** C30. A fleet whose clocks agree keeps the limit.  When the instant a gateway stamps
    a call with is the backend's when its script runs, these instants are in the order
    of the scripts and a double holds them, and the members are fresh, gateways under a
    fail-closed policy that share a backend admit, together, at most [max_requests]
    calls of a scope in any interval of the window's length, wherever it starts,
    whatever connections time out or break, answers are lost, gateways recover, and
    calls of other scopes run in between.  ([skewed_clock_exceeds_limit] is what a
    gateway whose clock runs ahead does.) *)
Theorem fleet_window_cap cfg scope gs s evs T :
  Forall (fail_closed_on cfg) gs → window_ok (g_max_requests cfg) (g_window_seconds cfg) →
  (∀ t, zview t s (scope_key scope) = ∅) → fleet_clocks evs →
  count_in (g_window_seconds cfg * 1000000) T (admitted_for scope (fleet_admitted gs s evs))
  ≤ g_max_requests cfg.
Proof.
  intros Hgs Hw Hz Hc. destruct (fleet_log cfg scope evs gs s [] 0) as (log&Hlog&Hsub); try done.
  - split_and!; [apply NoDup_nil_2|constructor|]. intros t _. by rewrite Hz.
  - intros T'. unfold count_in. simpl. destruct Hw as (?&_). lia.
  - destruct Hc as (_&_&Hc). eapply Forall_impl; [exact Hc|]. simpl. intros ev [_ ?]. lia.
  - apply Forall_forall. intros ev _. apply not_elem_of_nil.
  - by apply (capped_sublist _ _ _ log).
Qed.

(** A fail-closed limiter with a backend answers exactly for it: it never
    touches its process-local windows, and a call is admitted only when the
    backend allowed this very call and the limiter is healthy afterwards, which
    after a failure takes two successes in a row. *)
Theorem fail_closed_admits_by_backend cfg m scope e s :
  fail_closed_on cfg m →
  let '(m', s', r) := check_and_increment m scope e s in
  local m' = local m ∧ fail_closed_on cfg m'
  ∧ ∀ n, r = Ok n → healthy (rl_health m') = true
      ∧ ∃ p, (redis_check cfg scope e p s).2 = Ok (Allowed n) ∧ s' = (redis_check cfg scope e p s).1.2.
Proof.
  intros Hm. destruct (fail_closed_step cfg m scope e s Hm) as (m'&s'&r&->&Hm'&Hl&Hr).
  split_and!; [done..|]. intros n ->. destruct Hr as [[_ Hr]|(p&Hs&Hr)]; [by destruct (Hr n)|].
  destruct (Hr n) as [? ?]; [done|]. split; [done|]. by exists p.
Qed.
End fleet.

(** ** After one failure, local for ever *)
Section degraded.
Context `{SortedSets}.

Fixpoint limiter_run (m : DistributedRateLimiter) (s : Store) (calls : list (string * CallEnv)) :
    DistributedRateLimiter * Store * list (Result Z RequestRateLimitExceeded) :=
  match calls with
  | [] => (m, s, [])
  | (scope, e) :: calls =>
      let '(m, s, r) := check_and_increment m scope e s in
      let '(m, s, rs) := limiter_run m s calls in (m, s, r :: rs)
  end.

Lemma local_check_answers m scope now :
  local_check m scope now
  = (set_local (keyed_hit (g_max_requests (rl_config m)) (g_window_seconds (rl_config m))
                  (local m) scope now).1 m,
     (keyed_hit (g_max_requests (rl_config m)) (g_window_seconds (rl_config m))
        (local m) scope now).2).
Proof. unfold local_check. by destruct (keyed_hit _ _ _ _ _). Qed.

(** Whatever the calls meet, the limiter answers from its own windows. *)
Lemma local_run m s calls :
  (backend m = None ∨ failure_policy m = LocalEnforcement ∧ healthy (rl_health m) = false) →
  ∃ l, limiter_run m s calls
       = (set_local l m, s,
          (keyed_run (g_max_requests (rl_config m)) (g_window_seconds (rl_config m)) (local m)
             ((λ c, (c.1, c_instant c.2)) <$> calls)).*2).
Proof.
  revert m. induction calls as [|[scope e] calls IH]; intros m Hm; [exists (local m); by destruct m|].
  assert (Heq : check_and_increment m scope e s
                = (let '(m', r) := local_check m scope (c_instant e) in (m', s, r))).
  { unfold check_and_increment. destruct (backend m) as [p|]; [|done].
    destruct Hm as [?|[Hp Hh]]; [done|]. unfold recover_if_needed.
    rewrite Hh, Hp, Hh. simpl. rewrite Hp. done. }
  cbn [limiter_run]. rewrite Heq, local_check_answers.
  destruct (keyed_hit _ _ (local m) scope (c_instant e)) as [l r] eqn:E. cbn [fst snd].
  destruct (IH (set_local l m)) as (l'&->); [by destruct m|].
  exists l'. cbn [fmap list_fmap keyed_run fst snd]. rewrite E. by destruct m.
Qed.

(** A limiter under local enforcement does not come back: once a call of the
    backend has failed, every later call is answered by the gateway's own windows
    and the backend is neither asked nor probed, however well it would answer;
    the health stays unhealthy. *)
Theorem local_enforcement_never_recovers m s p scope e calls :
  failure_policy m = LocalEnforcement → backend m = Some p → healthy (rl_health m) = true →
  (∀ o, (redis_check (rl_config m) scope e p s).2 ≠ Ok o) →
  let '(m', s', _) := check_and_increment m scope e s in
  let '(m'', s'', rs) := limiter_run m' s' calls in
  healthy (rl_health m'') = false ∧ s'' = s'
  ∧ rs = (keyed_run (g_max_requests (rl_config m)) (g_window_seconds (rl_config m)) (local m')
            ((λ c, (c.1, c_instant c.2)) <$> calls)).*2.
Proof.
  intros Hp Hb Hh Hf. unfold check_and_increment. rewrite Hb, Hh. unfold backend_check.
  destruct (redis_check _ _ _ _ _) as [[p' s'] [o|err]]; [by destruct (Hf o)|].
  unfold apply_backend_failure, set_rl_health, set_pool. simpl. rewrite Hp, local_check_answers. simpl.
  match goal with |- context [limiter_run ?m1 s' calls] =>
    destruct (local_run m1 s' calls) as [l ->]; [by right|] end.
  done.
Qed.

(** The [Required] contract does not reach the limiter's construction: when
    the environment variable of the backend is unset or empty, or no client opens
    on it, the limiter built for [Required] counts in its own process only, with
    no call denied for it. *)
Theorem required_limiter_local feature cfg distributed url opens s calls :
  (default EmptyString url = EmptyString ∨ opens (default EmptyString url) = false) →
  let m := from_config_for_requirement feature cfg distributed url opens Required in
  (limiter_run m s calls).2
  = (keyed_run (g_max_requests cfg) (g_window_seconds cfg) ∅
       ((λ c, (c.1, c_instant c.2)) <$> calls)).*2.
Proof.
  intros Hu m. assert (Hm : m = local_only_with_policy cfg FailClosed).
  { unfold m, from_config_for_requirement, from_config_with_policy. simpl.
    destruct Hu as [-> | ->]; [by rewrite andb_false_r|by rewrite andb_false_r]. }
  rewrite Hm. by destruct (local_run (local_only_with_policy cfg FailClosed) s calls) as [l ->]; [left|].
Qed.

(** What a call meets over the connection [h] times out. *)
Definition hangs (h : nat) (e : CallEnv) : Prop :=
  (∃ ran, c_probe e h = CommandTimesOut ran) ∧ ∃ ran, c_command e h = CommandTimesOut ran.

Lemma hung_step cfg m scope e s h :
  fail_closed_on cfg m → backend m = Some (Some h) → hangs h e →
  ∃ m' s' x, check_and_increment m scope e s = (m', s', Err x)
    ∧ fail_closed_on cfg m' ∧ backend m' = Some (Some h).
Proof.
  intros (Hp&_&Hc) Hb ([ran Hpr]&[ran' Hcm]). unfold check_and_increment, recover_if_needed. rewrite Hb.
  assert (Hask : ∃ m' s' x, backend_check m (Some h) scope e s = (m', s', Err x)
    ∧ fail_closed_on cfg m' ∧ backend m' = Some (Some h)).
  { unfold backend_check, redis_check. simpl. destruct (atomic_script _ _ _ _ _ _ _ _) as [s1 raw].
    rewrite Hcm. unfold apply_backend_failure, set_rl_health, set_pool. simpl. rewrite Hp.
    eexists _, _, _. split_and!; [reflexivity| |done]. by repeat split. }
  destruct (healthy (rl_health m)) eqn:Hh; [done|]. rewrite Hp. destruct (recovery_probe m) eqn:Hr.
  - unfold ping. simpl. rewrite Hpr. eexists _, _, _. split_and!; [reflexivity| |done]. by repeat split.
  - rewrite Hh, Hr, andb_false_r, Hp, Hb. exact Hask.
Qed.

(** A connection that hangs is kept: a timeout does not drop the pooled
    handle, so while commands over it time out every call of a fail-closed limiter
    is denied and the same handle stays pooled, however long this lasts and
    although a new connection would be answered. *)
Theorem hung_connection_kept cfg m s h calls :
  fail_closed_on cfg m → backend m = Some (Some h) → Forall (λ c, hangs h c.2) calls →
  let '(m', _, rs) := limiter_run m s calls in
  backend m' = Some (Some h) ∧ Forall (λ r, ∃ x, r = Err x) rs.
Proof.
  intros Hm Hb Hc. revert m s Hm Hb. induction Hc as [|[scope e] calls He _ IH]; intros m s Hm Hb; [done|].
  cbn [limiter_run snd] in *.
  destruct (hung_step cfg m scope e s h) as (m'&s'&x&->&Hm'&Hb'); [done..|].
  specialize (IH m' s' Hm' Hb'). destruct (limiter_run m' s' calls) as [[m'' s''] rs].
  destruct IH as [? ?]. split; [done|]. constructor; [by exists x|done].
Qed.
End degraded.

(** ** An instance of the backend *)
Module ZSets.
(** Every key holds a set and, once set, the instant at which it expires. *)
Definition T : Type := gmap string (gmap string Z * option Z).
Definition alive (t : Z) (e : gmap string Z * option Z) : bool :=
  match e.2 with Some d => t <? d | None => true end.
Definition get (t : Z) (s : T) (k : string) : gmap string Z * option Z :=
  match s !! k with
  | Some e => if alive t e then e else (∅, None)
  | None => (∅, None)
  end.
Definition upd (t : Z) (k : string) (f : gmap string Z → gmap string Z) (s : T) : T :=
  let e := get t s k in <[k := (f e.1, e.2)]> s.
Definition view (t : Z) (s : T) (k : string) : gmap string Z := (get t s k).1.

Lemma get_alive t s k : alive t (get t s k) = true.
Proof. unfold get. destruct (s !! k) as [e|]; [|done]. by destruct (alive t e) eqn:E. Qed.
Lemma view_upd t k f s : view t (upd t k f s) k = f (view t s k).
Proof.
  unfold view, upd. pose proof (get_alive t s k) as Ha. destruct (get t s k) as [m d].
  unfold get, T in *. rewrite lookup_insert_eq. unfold alive in *. simpl in *. by rewrite Ha.
Qed.
Lemma view_upd_ne t t' k k' f s : k ≠ k' → view t' (upd t k f s) k' = view t' s k'.
Proof. intros. unfold view, upd. generalize (get t s k). intros x. unfold get, T in *. by rewrite lookup_insert_ne. Qed.

Definition with_ttl (t : Z) (k : string) (ttl : Z) (s : T) : T :=
  <[k := (view t s k, Some (t + ttl * 1000000))]> s.
Lemma view_ttl t t' k ttl s :
  view t' (with_ttl t k ttl s) k = if t' <? t + ttl * 1000000 then view t s k else ∅.
Proof.
  unfold with_ttl. generalize (view t s k). intros m. unfold view, get, T in *.
  rewrite lookup_insert_eq. unfold alive. simpl. by destruct (t' <? t + ttl * 1000000).
Qed.
Lemma view_ttl_ne t t' k k' ttl s : k ≠ k' → view t' (with_ttl t k ttl s) k' = view t' s k'.
Proof. intros. unfold with_ttl. generalize (view t s k). intros m. unfold view, get, T in *. by rewrite lookup_insert_ne. Qed.

#[export, refine] Instance zsets : SortedSets := {|
  Store := T;
  zview := view;
  zremrangebyscore t k max := upd t k (filter (λ p, max < p.2));
  zadd t k score m := upd t k (<[m := score]>);
  zrem t k m := upd t k (delete m);
  expire := with_ttl;
|}.
Proof.
  - intros. by rewrite view_upd.
  - intros. by rewrite view_upd.
  - intros. by rewrite view_upd.
  - intros. apply view_ttl.
  - intros. by apply view_upd_ne.
  - intros. by apply view_upd_ne.
  - intros. by apply view_upd_ne.
  - intros. by apply view_ttl_ne.
Defined.
End ZSets.

(** ** Witnesses *)
Definition demo_env (us : Z) (member : string) (connects : bool) (lost : option bool) : CheckEnv :=
  mkEnv (us / 1000000) us connects lost us member.
Definition demo_state : DistributedState := mkState (Some "redis://h"%string) "redis" Required true 2.
Definition demo_envs : list CheckEnv :=
  [demo_env 100 "a" true None; demo_env 200 "b" true (Some true); demo_env 300 "c" true None;
   demo_env 1000150 "d" true None; demo_env 1000160 "e" false None; demo_env 1000250 "f" true None].
Definition empty_shared : Shared (H := ZSets.zsets) := mkShared (H := ZSets.zsets) (∅ : ZSets.T) ∅.
Lemma sliding_window_exact_witness :
  check_run (H := ZSets.zsets) demo_state empty_shared "t" 2 1 demo_envs
  = [Some true; None; Some false; Some true; None; Some true].
Proof.
  rewrite (sliding_window_exact (H := ZSets.zsets) demo_state empty_shared "t" 2 1 demo_envs).
  - reflexivity.
  - reflexivity.
  - vm_compute. repeat split; discriminate.
  - split_and!; [|refine (bool_decide_unpack _ _); vm_compute; exact I|repeat constructor; vm_compute; discriminate].
    repeat constructor; vm_compute; discriminate.
  - reflexivity.
Defined.

Definition demo_cfg : GlobalRateLimitConfig := mkGlobalConfig 1 1.
Definition demo_call (us : Z) (member : string) (probe command : CommandOutcome) : CallEnv :=
  mkCall (us * 1000) (us / 1000000) us us member (Connected 1) (λ _, probe) (Connected 1) (λ _, command).
Definition demo_gateway (p : DistributedFailurePolicy) : DistributedRateLimiter :=
  mkLimiter demo_cfg p ∅ (Some None) BackendHealthTracker_new true.
Definition demo_events : list (nat * string * CallEnv) :=
  [(0%nat, "s", demo_call 10 "a" Answered Answered);
   (1%nat, "s", demo_call 20 "b" Answered Answered);
   (0%nat, "other", demo_call 30 "c" Answered Answered);
   (1%nat, "s", demo_call 40 "d" Answered (CommandFails true));
   (0%nat, "s", demo_call 1000010 "e" Answered Answered)]%string.
Lemma fleet_window_cap_witness :
  let adm := admitted_for "s" (fleet_admitted (H := ZSets.zsets)
               [demo_gateway FailClosed; demo_gateway FailClosed] (∅ : ZSets.T) demo_events) in
  adm = [10; 1000010] ∧ count_in 1000000 1000010 adm ≤ 1.
Proof.
  split; [reflexivity|].
  apply (fleet_window_cap (H := ZSets.zsets) demo_cfg "s" [demo_gateway FailClosed; demo_gateway FailClosed]
           (∅ : ZSets.T) demo_events 1000010).
  - repeat constructor; by eexists.
  - vm_compute. repeat split; discriminate.
  - reflexivity.
  - split_and!; [|refine (bool_decide_unpack _ _); vm_compute; exact I|repeat constructor; vm_compute; discriminate].
    repeat constructor; vm_compute; discriminate.
Defined.

(** A gateway whose clock is a window ahead of the others exceeds the limit: its stamp
    makes the script remove the entries of calls that are microseconds old, and one
    call a second becomes two in ten microseconds of the backend's clock. *)
Theorem skewed_clock_exceeds_limit :
  let ahead := mkCall (20 * 1000) 2 2000000 20 "b" (Connected 1) (λ _, Answered) (Connected 1) (λ _, Answered) in
  let evs := [(0%nat, "s", demo_call 10 "a" Answered Answered); (1%nat, "s", ahead)]%string in
  g_max_requests demo_cfg = 1 ∧ g_window_seconds demo_cfg = 1
  ∧ c_backend_at <$> evs.*2 = [10; 20]
  ∧ length (fleet_admitted (H := ZSets.zsets) [demo_gateway FailClosed; demo_gateway FailClosed] (∅ : ZSets.T) evs) = 2%nat.
Proof. vm_compute. done. Qed.

Lemma fail_closed_admits_by_backend_witness :
  let '(m', _, r) := check_and_increment (H := ZSets.zsets) (demo_gateway FailClosed) "s"
                       (demo_call 10 "a" Answered Answered) (∅ : ZSets.T) in
  r = Ok 0 ∧ healthy (rl_health m') = true.
Proof.
  pose proof (fail_closed_admits_by_backend (H := ZSets.zsets) demo_cfg (demo_gateway FailClosed) "s"
    (demo_call 10 "a" Answered Answered) (∅ : ZSets.T)) as W.
  destruct (check_and_increment _ _ _ _) as [[m' s'] r] eqn:E.
  assert (Hr : r = Ok 0) by (apply (f_equal snd) in E; vm_compute in E; congruence).
  split; [exact Hr|]. destruct W as (_&_&W); [repeat constructor; by eexists|]. by apply (W 0).
Defined.

Lemma local_enforcement_never_recovers_witness :
  let m := demo_gateway LocalEnforcement in
  let e := demo_call 10 "a" Answered (CommandFails false) in
  let '(m', s', _) := check_and_increment (H := ZSets.zsets) m "s" e (∅ : ZSets.T) in
  healthy (rl_health (limiter_run m' s' [("s"%string, demo_call 20 "b" Answered Answered)]).1.1) = false.
Proof.
  cbv zeta. pose proof (local_enforcement_never_recovers (H := ZSets.zsets) (demo_gateway LocalEnforcement) (∅ : ZSets.T)
    None "s" (demo_call 10 "a" Answered (CommandFails false)) [("s"%string, demo_call 20 "b" Answered Answered)]
    eq_refl eq_refl eq_refl) as W.
  destruct (check_and_increment _ _ _ _) as [[m' s'] r].
  destruct (limiter_run m' s' _) as [[m'' s''] rs]. apply W. intros o Ho. discriminate Ho.
Defined.

Lemma required_limiter_local_witness :
  (limiter_run (H := ZSets.zsets) (from_config_for_requirement true demo_cfg true None (λ _, true) Required)
     (∅ : ZSets.T) [("s"%string, demo_call 20 "b" Answered Answered)]).2 = [Ok 0].
Proof.
  rewrite (required_limiter_local (H := ZSets.zsets) true demo_cfg true None (λ _, true)); [reflexivity|].
  by left.
Defined.

Definition hung_gateway : DistributedRateLimiter :=
  mkLimiter demo_cfg FailClosed ∅ (Some (Some 7%nat)) BackendHealthTracker_new true.
Lemma hung_connection_kept_witness :
  let '(m', _, rs) := limiter_run (H := ZSets.zsets) hung_gateway (∅ : ZSets.T)
    [("s"%string, demo_call 20 "b" (CommandTimesOut false) (CommandTimesOut false))] in
  backend m' = Some (Some 7%nat).
Proof.
  pose proof (hung_connection_kept (H := ZSets.zsets) demo_cfg hung_gateway (∅ : ZSets.T) 7
    [("s"%string, demo_call 20 "b" (CommandTimesOut false) (CommandTimesOut false))]) as W.
  destruct (limiter_run _ _ _) as [[m' s'] rs]. apply W.
  - repeat constructor; by eexists.
  - reflexivity.
  - repeat constructor; by exists false.
Defined.
