(* ===== verification/Detection.v ===== *)
(** * Detection: deterministic detectors of personal data
    (src/src/gateway/detection/pii.rs, pci.rs and hipaa.rs)

    The kinds of personal data, the validators of candidate spans, and the three
    detectors with the resolution of overlapping spans.  Texts are UTF-8 strings
    with byte offsets.  The regular-expression engine ([regex_lite]) is the
    interface [Regexes]; the list of city names is an argument. *)

From Stdlib Require Import ZArith Ascii String.
From stdpp Require Import base strings list.
From S2P Require Import Prelude Text Net.

(** ** The regular-expression engine

    [captures_iter] of a pattern on a text: the spans of the groups of every
    match, group 0 being the match.  Spans lie within the text. *)
Class Regexes := {
  re_valid : string → bool;
  captures_iter : string → string → list (list (option (nat * nat)));
  captures_span : ∀ p t caps i s e, caps ∈ captures_iter p t → caps !! i = Some (Some (s, e)) →
    s ≤ e ∧ e ≤ String.length t;
}.

(** ** Kinds and detections *)
Inductive PiiKind :=
| Name | Address | City | Fax | Mrn | HealthPlanBeneficiary | CertificateOrLicense | DeviceId
| BiometricMention | PhotoMention
| Email | Ssn | Phone
| Pan | Cvv | ExpirationDate
| IpV4 | IpV6 | Url | Mac | Imei | Vin | Zip | Date | AccountNumber | LicensePlate | GenericId.
#[export] Instance PiiKind_eq_dec : EqDecision PiiKind.
Proof. solve_decision. Defined.

Definition marker_key (k : PiiKind) : string :=
  match k with
  | Name => "name" | Address => "address" | City => "city" | Fax => "fax" | Mrn => "mrn"
  | HealthPlanBeneficiary => "health_plan_beneficiary"
  | CertificateOrLicense => "certificate_or_license" | DeviceId => "device_id"
  | BiometricMention => "biometric" | PhotoMention => "photo" | Email => "email" | Ssn => "ssn"
  | Phone => "phone" | Pan => "pan" | Cvv => "cvv" | ExpirationDate => "expiration_date"
  | IpV4 => "ip" | IpV6 => "ip" | Url => "url" | Mac => "mac" | Imei => "imei" | Vin => "vin"
  | Zip => "zip" | Date => "date" | AccountNumber => "account_number"
  | LicensePlate => "license_plate" | GenericId => "generic_id"
  end.
Definition as_kind_str (k : PiiKind) : string :=
  match k with
  | Name | Address | City | Fax | Mrn | HealthPlanBeneficiary | CertificateOrLicense | DeviceId
  | BiometricMention | PhotoMention | Date => "phi"
  | Email | Ssn | Phone => "pii"
  | Pan | Cvv | ExpirationDate => "pan"
  | IpV4 | IpV6 | Url | Mac | Imei | Vin | Zip | AccountNumber | LicensePlate => "pii"
  | GenericId => "other"
  end.
Definition kind_replacement (k : PiiKind) : string :=
  match k with
  | Name => "[REDACTED:NAME]" | Address => "[REDACTED:ADDRESS]" | City => "[REDACTED:CITY]"
  | Fax => "[REDACTED:FAX]" | Mrn => "[REDACTED:MRN]"
  | HealthPlanBeneficiary => "[REDACTED:HEALTH_PLAN]"
  | CertificateOrLicense => "[REDACTED:LICENSE]" | DeviceId => "[REDACTED:DEVICE_ID]"
  | BiometricMention => "[REDACTED:BIOMETRIC]" | PhotoMention => "[REDACTED:PHOTO]"
  | Email => "[REDACTED:EMAIL]" | Ssn => "[REDACTED:SSN]" | Phone => "[REDACTED:PHONE]"
  | Pan => "[REDACTED:CARD]" | Cvv => "[REDACTED:CVV]" | ExpirationDate => "[REDACTED:EXPIRY]"
  | IpV4 => "[REDACTED:IP]" | IpV6 => "[REDACTED:IP]" | Url => "[REDACTED:URL]"
  | Mac => "[REDACTED:MAC]" | Imei => "[REDACTED:IMEI]" | Vin => "[REDACTED:VIN]"
  | Zip => "[REDACTED:ZIP]" | Date => "[REDACTED:DATE]" | AccountNumber => "[REDACTED:ACCOUNT]"
  | LicensePlate => "[REDACTED:LICENSE_PLATE]" | GenericId => "[REDACTED:ID]"
  end.
Definition pii_reason_code (k : PiiKind) : string :=
  match k with
  | Name => "phi.name_detected" | Address => "phi.address_detected" | City => "phi.city_detected"
  | Fax => "phi.fax_detected" | Mrn => "phi.mrn_detected"
  | HealthPlanBeneficiary => "phi.health_plan_beneficiary_detected"
  | CertificateOrLicense => "phi.license_detected" | DeviceId => "phi.device_id_detected"
  | BiometricMention => "phi.biometric_mention_detected"
  | PhotoMention => "phi.photo_mention_detected" | Email => "pii.email_detected"
  | Ssn => "pii.ssn_detected" | Phone => "pii.phone_detected" | Pan => "pii.pan_detected"
  | Cvv => "pci.cvv_detected" | ExpirationDate => "pci.expiration_date_detected"
  | IpV4 | IpV6 => "pii.ip_detected" | Url => "pii.url_detected" | Mac => "pii.mac_detected"
  | Imei => "pii.imei_detected" | Vin => "pii.vin_detected" | Zip => "pii.zip_detected"
  | Date => "pii.date_detected" | AccountNumber => "pii.account_detected"
  | LicensePlate => "pii.license_plate_detected" | GenericId => "pii.id_detected"
  end.
Definition priority (k : PiiKind) : nat :=
  match k with
  | Pan | Cvv | ExpirationDate => 0
  | Ssn => 1
  | Email => 2
  | Mrn | HealthPlanBeneficiary => 3
  | Phone | Fax => 4
  | Imei | Vin | Mac | DeviceId => 5
  | IpV4 | IpV6 | Url => 6
  | Address | City | Zip => 7
  | Date => 8
  | Name => 9
  | AccountNumber | CertificateOrLicense => 10
  | BiometricMention | PhotoMention => 11
  | LicensePlate => 12
  | GenericId => 12
  end.

Inductive Confidence := High | Medium | Low.
Record Detection := mkDetection {
  kind : PiiKind;
  d_start : nat;
  d_end : nat;
  confidence : Confidence;
}.
#[export] Instance Detection_eq_dec : EqDecision Detection.
Proof. assert (EqDecision Confidence) by solve_decision. solve_decision. Defined.

(** [&text[start..end]]. *)
Definition slice (text : string) (a b : nat) : string := String.substring a (b - a) text.

(** ** Sorting *)

(** [slice::sort_by], which is stable. *)
Section sort.
Context {A : Type} (le : A → A → bool).
Fixpoint insert_by (x : A) (l : list A) : list A :=
  match l with
  | [] => [x]
  | y :: l => if le x y then x :: y :: l else y :: insert_by x l
  end.
Definition sort_by (l : list A) : list A := foldr insert_by [] l.
End sort.

(** Lexicographic comparison of the keys [(start, priority, Reverse(len))],
    [(start, priority, end)] and [(start, end)]. *)
Fixpoint key_leb (a b : list nat) : bool :=
  match a, b with
  | x :: a, y :: b => (x <? y)%nat || ((x =? y)%nat && key_leb a b)
  | _, _ => true
  end.
Definition span_len (d : Detection) : nat := d_end d - d_start d.
Definition by_priority (a b : Detection) : bool :=
  (d_start a <? d_start b)%nat
  || ((d_start a =? d_start b)%nat
      && ((priority (kind a) <? priority (kind b))%nat
          || ((priority (kind a) =? priority (kind b))%nat && (span_len b <=? span_len a)%nat))).
Definition by_span (a b : Detection) : bool := key_leb [d_start a; d_end a] [d_start b; d_end b].
Definition by_kind_end (a b : Detection) : bool :=
  key_leb [d_start a; priority (kind a); d_end a] [d_start b; priority (kind b); d_end b].

(** ** Overlaps *)

(** [cand_key < best_key]: a better priority, or the same one and a longer span. *)
Definition better (cand best : Detection) : bool :=
  (priority (kind cand) <? priority (kind best))%nat
  || ((priority (kind cand) =? priority (kind best))%nat && (span_len best <? span_len cand)%nat).

(** The two nested loops of [dedupe_overlaps]: the best of the current cluster
    and the end of the cluster, then the rest. *)
Fixpoint clusters (best : Detection) (cluster_end : nat) (l : list Detection) : list Detection :=
  match l with
  | [] => [best]
  | d :: l =>
      if (d_start d <? cluster_end)%nat
      then clusters (if better d best then d else best) (Nat.max cluster_end (d_end d)) l
      else best :: clusters d (d_end d) l
  end.
Definition dedupe_overlaps (l : list Detection) : list Detection :=
  match l with
  | [] => []
  | d :: l => sort_by by_span (clusters d (d_end d) l)
  end.

(** ** Validators *)
Definition is_digit (a : ascii) : bool := bool_decide (48 ≤ nat_of_ascii a ≤ 57).
Definition is_alpha (a : ascii) : bool :=
  bool_decide (65 ≤ nat_of_ascii a ≤ 90 ∨ 97 ≤ nat_of_ascii a ≤ 122).
Definition is_alnum (a : ascii) : bool := is_digit a || is_alpha a.
Definition all_chars (f : ascii → bool) (s : string) : bool := forallb f (list_ascii_of_string s).
Definition any_char (f : ascii → bool) (s : string) : bool := existsb f (list_ascii_of_string s).
Definition filter_chars (f : ascii → bool) (s : string) : string :=
  string_of_list_ascii (List.filter f (list_ascii_of_string s)).
Definition digits_text (s : string) : string := filter_chars is_digit s.
(** The values of the decimal digits of a text. *)
Definition digit_values (s : string) : list Z :=
  (λ a, Z.of_nat (nat_of_ascii a) - 48)%Z <$> List.filter is_digit (list_ascii_of_string s).

(** [str::split_once] at a text. *)
Definition split_once (pat s : string) : option (string * string) :=
  match String.index 0 pat s with
  | Some i => Some (slice s 0 i, slice s (i + String.length pat) (String.length s))
  | None => None
  end.
(** [str::split] at a byte. *)
Fixpoint split_char (c : ascii) (s : string) : list string :=
  match s with
  | EmptyString => [EmptyString]
  | String a s =>
      if Ascii.eqb a c then EmptyString :: split_char c s
      else match split_char c s with
           | x :: xs => String a x :: xs
           | [] => [String a EmptyString]
           end
  end.
Definition starts_with (c : ascii) (s : string) : bool :=
  match s with String a _ => Ascii.eqb a c | EmptyString => false end.
Fixpoint ends_with (c : ascii) (s : string) : bool :=
  match s with
  | EmptyString => false
  | String a EmptyString => Ascii.eqb a c
  | String _ s => ends_with c s
  end.
(** [str::rfind] of a byte. *)
Fixpoint rfind (c : ascii) (s : string) : option nat :=
  match s with
  | EmptyString => None
  | String a s =>
      match rfind c s with
      | Some i => Some (S i)
      | None => if Ascii.eqb a c then Some 0 else None
      end
  end.
Definition parse_or_0 (s : string) : Z := default 0%Z (parse_u64 s).

Definition label_ok (label : string) : bool :=
  negb (is_empty label) && (String.length label <=? 63)%nat
  && negb (starts_with "-" label) && negb (ends_with "-" label)
  && all_chars (λ c, is_alnum c || Ascii.eqb c "-") label.
Definition validate_email (span : string) : bool :=
  match split_once "@" span with
  | None => false
  | Some (local, domain) =>
      let labels := split_char "." domain in
      let tld := default EmptyString (last labels) in
      negb (is_empty local) && negb (is_empty domain)
      && (2 <=? length labels)%nat && forallb label_ok labels
      && bool_decide (2 ≤ String.length tld ≤ 24) && all_chars is_alpha tld
  end.

Definition contains_digit (span : string) : bool := any_char is_digit span.

Definition validate_ssn (span : string) : bool :=
  let digits := digits_text span in
  if negb (String.length digits =? 9)%nat then false else
  let area := parse_or_0 (slice digits 0 3) in
  let group := parse_or_0 (slice digits 3 5) in
  let serial := parse_or_0 (slice digits 5 9) in
  negb ((area =? 0) || (group =? 0) || (serial =? 0))%Z
  && negb ((area =? 666) || (900 <=? area))%Z.

(** [Ipv4Addr::is_loopback], [is_link_local] and [is_private]. *)
Definition v4_not_public (o : list Z) : bool :=
  match o with
  | [a; b; c; d] =>
      ((a =? 127) || ((a =? 169) && (b =? 254)) || (a =? 10)
       || ((a =? 172) && (16 <=? b) && (b <=? 31)) || ((a =? 192) && (b =? 168))
       || ((a =? 0) && (b =? 0) && (c =? 0) && (d =? 0)))%Z
  | _ => false
  end.
Definition ip_public (ip : IpAddr) : bool :=
  match ip with
  | V4 o => negb (v4_not_public o)
  | V6 s =>
      let seg0 := default 0%Z (s !! 0) in
      negb (bool_decide (s = [0; 0; 0; 0; 0; 0; 0; 1]%Z) || bool_decide (s = replicate 8 0%Z))
      && negb (Z.land seg0 65024 =? 64512)%Z && negb (Z.land seg0 65472 =? 65152)%Z
  end.
Definition is_public_ip (span : string) : bool :=
  match parse_ip span with None => false | Some ip => ip_public ip end.
Definition is_public_ipv6_candidate (span : string) : bool :=
  let colons := length (List.filter (Ascii.eqb ":") (list_ascii_of_string span)) in
  if (colons <? 2)%nat then false else
  if starts_with ":" span && negb (String.prefix "::" span) then false else
  if ends_with ":" span
     && negb (String.eqb (slice span (String.length span - 2) (String.length span)) "::") then false else
  if str_contains ":::" span then false else
  match parse_ip span with
  | Some (V6 _) => is_public_ip span
  | _ => false
  end.

(** [u8::is_ascii_whitespace]. *)
Definition is_ascii_ws (a : ascii) : bool := bool_decide (nat_of_ascii a ∈ [32; 9; 10; 12; 13]).
Definition validate_e164ish_phone (span : string) : bool :=
  let lower := to_ascii_lowercase span in
  let base :=
    match String.index 0 "extension" lower with
    | Some i => slice span 0 i
    | None =>
        match String.index 0 "ext" lower with
        | Some i => slice span 0 i
        | None =>
            match rfind "x" lower with
            | Some ix =>
                if (0 <? ix)%nat
                   && match String.get (ix - 1) lower with Some a => is_ascii_ws a | None => false end
                then slice span 0 ix else span
            | None => span
            end
        end
    end in
  starts_with "+" base && bool_decide (8 ≤ String.length (digits_text base) ≤ 15).

(** A digit as Luhn counts it, at the position [i] from the right. *)
Definition luhn_digit (i : nat) (d : Z) : Z :=
  if Nat.odd i then let v := (d * 2)%Z in if (9 <? v)%Z then (v - 9)%Z else v else d.
Definition luhn_sum (digits : list Z) : Z := foldr Z.add 0%Z (imap luhn_digit (reverse digits)).
Definition validate_imei_luhn (span : string) : bool :=
  let digits := digit_values span in
  (length digits =? 15)%nat && (luhn_sum digits mod 10 =? 0)%Z.

Definition upper_byte (a : ascii) : ascii :=
  if bool_decide (97 ≤ nat_of_ascii a ≤ 122) then ascii_of_nat (nat_of_ascii a - 32) else a.
Definition to_ascii_uppercase (s : string) : string :=
  string_of_list_ascii (upper_byte <$> list_ascii_of_string s).
(** The loop of the mod-97 check; [None] where it returns early. *)
Definition iban_step (rem : Z) (c : ascii) : option Z :=
  let z := Z.of_nat (nat_of_ascii c) in
  if is_digit c then Some ((rem * 10 + (z - 48)) mod 97)%Z
  else if is_alpha c then
    let v := (z - 65 + 10)%Z in
    let rem := ((rem * 10 + v / 10) mod 97)%Z in
    Some ((rem * 10 + v mod 10) mod 97)%Z
  else None.
Fixpoint iban_loop (rem : Z) (cs : list ascii) : option Z :=
  match cs with [] => Some rem | c :: cs => iban_step rem c ≫= λ rem, iban_loop rem cs end.
Definition validate_iban (span : string) : bool :=
  let compact := to_ascii_uppercase (String.concat EmptyString (split_whitespace span)) in
  let len := String.length compact in
  bool_decide (15 ≤ len ≤ 34) && all_chars is_alnum compact
  && all_chars is_alpha (slice compact 0 2) && all_chars is_digit (slice compact 2 4)
  && bool_decide (iban_loop 0 (list_ascii_of_string (slice compact 4 len ++ slice compact 0 4)) = Some 1%Z).

Definition validate_aba_routing (span : string) : bool :=
  let digits := digit_values span in
  (length digits =? 9)%nat
  && (foldr Z.add 0 (zip_with Z.mul digits [3; 7; 1; 3; 7; 1; 3; 7; 1]) mod 10 =? 0)%Z.

Definition validate_swift_bic (span : string) : bool :=
  ((String.length span =? 8)%nat || (String.length span =? 11)%nat)
  && all_chars is_alnum span && all_chars is_alpha (slice span 0 4) && all_chars is_alpha (slice span 4 6).

Definition url_has_specific_path_or_query (url : string) : bool :=
  match split_once "://" (to_ascii_lowercase url) with
  | None => false
  | Some (_, rest) =>
      match split_once "/" rest with
      | None => false
      | Some (_, remainder) =>
          negb (is_empty remainder) && negb (String.eqb remainder "#") && negb (String.eqb remainder "?")
      end
  end.

(** ** Card data: [pci.rs] *)
Definition is_known_card_prefix_and_length (d : string) : bool :=
  let n := String.length d in
  (starts_with "4" d && bool_decide (n ∈ [13; 16; 19]))
  || ((n =? 16)%nat && bool_decide (51 ≤ parse_or_0 (slice d 0 2) ≤ 55)%Z)
  || ((n =? 15)%nat && (String.prefix "34" d || String.prefix "37" d))
  || ((n =? 16)%nat && (String.prefix "6011" d || String.prefix "65" d)).
(** The loop of [luhn_valid] from the right; [None] where it returns early. *)
Fixpoint luhn_loop (double : bool) (sum : Z) (cs : list ascii) : option Z :=
  match cs with
  | [] => Some sum
  | c :: cs =>
      if is_digit c then
        let n := (Z.of_nat (nat_of_ascii c) - 48)%Z in
        let n := if double then let v := (n * 2)%Z in if (9 <? v)%Z then (v - 9)%Z else v else n in
        luhn_loop (negb double) (sum + n) cs
      else None
  end.
Definition luhn_valid (digits : string) : bool :=
  match luhn_loop false 0 (reverse (list_ascii_of_string digits)) with
  | Some sum => (sum mod 10 =? 0)%Z
  | None => false
  end.
Definition is_plausible_mm_yy (span : string) : bool :=
  let cleaned := filter_chars (λ c, negb (Ascii.eqb c " ")) span in
  match split_once "/" cleaned with
  | None => false
  | Some (mm, yy) =>
      match parse_u64 mm with
      | Some m => bool_decide (1 ≤ m ≤ 12)%Z
                  && ((String.length yy =? 2)%nat || (String.length yy =? 4)%nat)
      | None => false
      end
  end.

(** ** The detectors *)
Section detect.
Context `{Regexes}.

Definition find_iter (re text : string) : list (nat * nat) :=
  omap (λ caps, caps !! 0 ≫= id) (captures_iter re text).
Definition group_iter (re text : string) (i : nat) : list (nat * nat) :=
  omap (λ caps, caps !! i ≫= id) (captures_iter re text).
Definition detected (k : PiiKind) (c : Confidence) (m : nat * nat) : Detection :=
  mkDetection k m.1 m.2 c.

Definition push_matches (out : list Detection) (text : string) (k : PiiKind) (re : string)
    (c : Confidence) : list Detection :=
  out ++ (detected k c <$> find_iter re text).
Definition push_matches_filtered (out : list Detection) (text : string) (k : PiiKind) (re : string)
    (keep : string → bool) (c : Confidence) : list Detection :=
  out ++ (detected k c <$> List.filter (λ m, keep (slice text m.1 m.2)) (find_iter re text)).
Definition push_contextual_matches (out : list Detection) (text : string) (k : PiiKind) (re : string)
    (group : nat) (c : Confidence) : list Detection :=
  out ++ (detected k c <$> group_iter re text group).
Definition push_contextual_matches_filtered (out : list Detection) (text : string) (k : PiiKind)
    (re : string) (group : nat) (keep : string → bool) (c : Confidence) : list Detection :=
  out ++ (detected k c <$> List.filter (λ m, keep (slice text m.1 m.2)) (group_iter re text group)).
Definition push_contextual_numeric (out : list Detection) (text : string) (k : PiiKind) (re : string)
    (c : Confidence) : list Detection :=
  push_contextual_matches out text k re 1 c.
Definition push_contextual_alnum (out : list Detection) (text : string) (k : PiiKind) (re : string)
    (c : Confidence) : list Detection :=
  push_contextual_matches out text k re 1 c.

(** [pii::detect_all], in four parts: contacts, machines and devices, postal codes
    and dates, accounts and identifiers. *)
Definition push_contacts (out : list Detection) (text : string) : list Detection :=
  let out := push_matches_filtered out text Email "(?i)\b[A-Z0-9._%+-]+@[A-Z0-9.-]+\.[A-Z]{2,}\b" validate_email High in
  let out := push_matches_filtered out text Ssn "\b\d{3}[- ]\d{2}[- ]\d{4}\b" validate_ssn High in
  let out := push_contextual_matches_filtered out text Ssn "(?i)\b(?:ssn|social\s*security)\s*(?:#|number|no\.)?\s*[:#]?\s*([0-9]{9})\b" 1 validate_ssn High in
  let out := push_matches out text Phone "\b(?:\+\d{1,3}[ -]?)?(?:\(\d{3}\)|\d{3})[ .-]?\d{3}[ .-]?\d{4}(?:\s*(?:x|ext\.?|extension)\s*\d{1,6})?\b" Medium in
  let out := push_matches out text Phone "(?:\+\d{1,3}[ -]?)?\(\d{3}\)[ .-]?\d{3}[ .-]?\d{4}(?:\s*(?:x|ext\.?|extension)\s*\d{1,6})?\b" Medium in
  let out := push_matches_filtered out text Phone "\+\d[\d\s().-]{7,}\d(?:\s*(?:x|ext\.?|extension)\s*\d{1,6})?\b" validate_e164ish_phone Medium in
  out.
Definition push_network (out : list Detection) (text : string) : list Detection :=
  let out := push_matches_filtered out text IpV4 "\b(?:(?:25[0-5]|2[0-4]\d|1?\d?\d)\.){3}(?:25[0-5]|2[0-4]\d|1?\d?\d)\b" is_public_ip High in
  let out := push_matches_filtered out text IpV6 "\b[0-9A-Fa-f:]{2,39}\b" is_public_ipv6_candidate High in
  let out := push_matches_filtered out text Url "\bhttps?://[^\s]+\b" url_has_specific_path_or_query Medium in
  let out := push_matches out text Mac "\b(?:[0-9A-Fa-f]{2}:){5}[0-9A-Fa-f]{2}\b" High in
  let out := push_matches out text Mac "\b(?:[0-9A-Fa-f]{2}-){5}[0-9A-Fa-f]{2}\b" High in
  let out := push_matches out text Mac "\b[0-9A-Fa-f]{4}\.[0-9A-Fa-f]{4}\.[0-9A-Fa-f]{4}\b" High in
  let out := push_matches_filtered out text Imei "\b\d{15}\b" validate_imei_luhn High in
  let out := push_contextual_matches out text Vin "(?i)\bvin\s*(?::)?\s*([A-HJ-NPR-Za-hj-npr-z0-9]{17})\b" 1 High in
  out.
Definition push_dates (out : list Detection) (text : string) : list Detection :=
  let out := push_matches out text Zip "\b\d{5}(?:-\d{4})?\b" High in
  let out := push_matches out text Date "\b\d{1,2}[/-]\d{1,2}[/-]\d{2,4}\b" Medium in
  let out := push_matches out text Date "\b\d{4}-\d{1,2}-\d{1,2}\b" Medium in
  let out := push_matches out text Date "(?i)\b(?:jan(?:uary)?|feb(?:ruary)?|mar(?:ch)?|apr(?:il)?|may|jun(?:e)?|jul(?:y)?|aug(?:ust)?|sep(?:t(?:ember)?)?|oct(?:ober)?|nov(?:ember)?|dec(?:ember)?)\s+\d{1,2},?\s+\d{4}\b" Medium in
  let out := push_contextual_matches out text Date "(?i)\b(?:born|dob)\s*(?:on|:)?\s*(\d{1,2}[/-]\d{1,2}[/-]\d{2,4}|\d{4}-\d{1,2}-\d{1,2})\b" 1 High in
  out.
Definition push_accounts (out : list Detection) (text : string) : list Detection :=
  let out := push_contextual_matches out text AccountNumber "(?i)\b(?:account|acct)\s*(?:#|number|no\.)?\s*[:#]?\s*([0-9]{6,17})\b" 1 High in
  let out := push_contextual_matches_filtered out text AccountNumber "(?i)\b(?:routing|aba|transit)\s*(?:#|number|no\.)?\s*[:#]?\s*([0-9]{9})\b" 1 validate_aba_routing High in
  let out := push_contextual_matches_filtered out text AccountNumber "(?i)\biban\s*(?::)?\s*([A-Za-z0-9 ]*[0-9])(?:[^A-Za-z0-9]|$)" 1 validate_iban High in
  let out := push_contextual_matches_filtered out text AccountNumber "(?i)\b(?:swift|bic)\s*(?::)?\s*([A-Za-z]{6}[A-Za-z0-9]{2}(?:[A-Za-z0-9]{3})?)\b" 1 validate_swift_bic High in
  let out := push_contextual_matches out text LicensePlate "(?i)\b(?:license\s*plate|plate)\s*(?:#|number|no\.|:)?\s*([A-Z0-9]{2,8}(?:-[A-Z0-9]{1,4})?)\b" 1 Medium in
  let out := push_contextual_matches_filtered out text GenericId "(?i)\b(?:id|mrn|member|policy|code|number)\s*(?:#|number|no\.)?\s*[:#]?\s*([A-Z0-9-]{6,})\b" 1 contains_digit Low in
  out.
Definition detect_all (text : string) : list Detection :=
  let out := push_accounts (push_dates (push_network (push_contacts [] text) text) text) text in
  dedupe_overlaps (sort_by by_priority out).

(** [pci.rs]. *)
Definition detect_card_numbers (text : string) : list Detection :=
  detected Pan High <$> List.filter (λ m,
    let digits := digits_text (slice text m.1 m.2) in
    bool_decide (13 ≤ String.length digits ≤ 19) && is_known_card_prefix_and_length digits
    && luhn_valid digits) (find_iter "\b(?:\d[ -]*?){13,19}\b" text).
Definition detect_pan (text : string) : list Detection := detect_card_numbers text.
Definition detect_cvv (text : string) : list Detection :=
  detected Cvv High <$> group_iter "(?i)\b(?:cvv|cvc|security\s*code)\s*(?::|\#)?\s*([0-9]{3,4})\b" text 1.
Definition detect_expiration_date (text : string) : list Detection :=
  detected ExpirationDate High <$> List.filter (λ m, is_plausible_mm_yy (slice text m.1 m.2))
    (group_iter "(?i)\b(?:exp|expires|expiration)\s*(?::)?\s*([01]?\d\s*/\s*(?:\d{2}|\d{4}))\b" text 1).
Definition detect_pci_dss (text : string) : list Detection :=
  sort_by by_span (detect_pan text ++ detect_cvv text ++ detect_expiration_date text).

(** [hipaa.rs].  [idx] of a search from [from]; a round moves [from] past a match,
    so the length of the text is enough rounds. *)
Fixpoint occurrences (fuel : nat) (lower needle : string) (from : nat) : list (nat * nat) :=
  match fuel with
  | O => []
  | S fuel =>
      match String.index from needle lower with
      | None => []
      | Some i =>
          let e := i + String.length needle in
          (i, e) :: (if (String.length lower <=? e)%nat then [] else occurrences fuel lower needle e)
      end
  end.
Definition alnum_at (s : string) (i : nat) : bool :=
  match String.get i s with Some a => is_alnum a | None => false end.
Definition detect_us_top_cities (cities_raw : list string) (text : string) : list Detection :=
  let lower := to_ascii_lowercase text in
  flat_map (λ city,
    detected City Low <$> List.filter (λ m : nat * nat,
        ((m.1 =? 0)%nat || negb (alnum_at lower (m.1 - 1)))
        && ((String.length lower <=? m.2)%nat || negb (alnum_at lower m.2)))
      (occurrences (String.length lower) lower (to_ascii_lowercase city) 0))
    (List.filter (λ line, negb (is_empty line) && negb (starts_with "#" line)) (trim <$> cities_raw)).
Definition detect_fax_numbers (text : string) : list Detection :=
  detected Fax High <$> group_iter "(?i)\b(?:fax|f)\s*(?::|\.)\s*((?:\+\d{1,3}[ .-]?)?(?:\(\d{3}\)|\d{3})[ .-]?\d{3}[ .-]?\d{4})\b" text 1.
Definition push_keyword_mentions (out : list Detection) (text : string) (k : PiiKind)
    (keywords : list string) : list Detection :=
  let lower := to_ascii_lowercase text in
  out ++ flat_map (λ kw, detected k Low <$>
    occurrences (String.length lower) lower (to_ascii_lowercase kw) 0) keywords.
Definition push_persons (cities_raw : list string) (out : list Detection) (text : string) : list Detection :=
  let out := push_matches out text Name "\b(?:(?i:dr\.?|mr\.?|mrs\.?|ms\.?)\s+)?(?:[A-Z][a-z]+)\s+(?:[A-Z][a-z]+)(?:\s+(?i:jr\.?|sr\.?|iii|iv|md|phd))?\b" Medium in
  let out := push_matches out text Address "(?i)\b\d{1,6}\s+[A-Z0-9][A-Z0-9\s\.\-]{2,}\s+(?:st|street|ave|avenue|rd|road|blvd|boulevard|ln|lane|dr|drive|ct|court|pl|place|way|pkwy|parkway)\b\.?(?:\s+(?:apt|unit|suite|ste)\s*#?\s*[A-Z0-9\-]{1,10})?\b" Medium in
  let out := push_matches out text Address "(?i)\b[A-Z][A-Za-z\s\.\-]{2,}\s+\d{1,4},\s*\d{4,6}\s+[A-Z][A-Za-z\s\-]{2,}\b" Low in
  let out := (out ++ detect_us_top_cities cities_raw text) in
  let out := (out ++ detect_fax_numbers text) in
  let out := push_contextual_numeric out text Mrn "(?i)\b(?:mrn|mr#)\s*(?:#|:)?\s*([0-9]{6,10})\b" High in
  let out := push_contextual_numeric out text Mrn "(?i)\b(?:medical\s*record|record)\s*(?:#|number|no\.)\s*:?\s*([0-9]{6,10})\b" Medium in
  out.
Definition push_health_ids (out : list Detection) (text : string) : list Detection :=
  let out := push_contextual_alnum out text HealthPlanBeneficiary "(?i)\b(?:member\s*id|policy\s*(?:id|number)|insurance\s*id|medicare|medicaid)\s*(?:#|number|no\.)?\s*[:#]?\s*([A-Z0-9\-]{6,20})\b" Medium in
  let out := push_contextual_alnum out text CertificateOrLicense "(?i)\b(?:driver'?s?\s*license|dl|license|lic\.)\s*(?:#|number|no\.)?\s*[:#]?\s*([A-Z0-9\-]{5,20})\b" Medium in
  let out := push_contextual_alnum out text CertificateOrLicense "(?i)\b(?:driver'?s?\s*license|dl)\s*(?:#|number|no\.)?\s*[:#]?\s*([A-Z]\d{7,8})\b" High in
  let out := push_contextual_alnum out text CertificateOrLicense "(?i)\b(?:certificate|cert\.)\s*(?:#|id|number|no\.)?\s*[:#]?\s*([A-Z0-9\-]{5,24})\b" Medium in
  let out := push_contextual_alnum out text DeviceId "(?i)\b(?:serial|sn|s\/n|device\s*id)\s*(?:#|number|no\.)?\s*[:#]?\s*([A-Z0-9\-]{6,30})\b" Medium in
  let out := push_keyword_mentions out text BiometricMention ["fingerprint"; "retina scan"; "facial recognition"; "iris scan"; "voiceprint"; "biometric id"; "biometric identifier"; "biometric data"; "biometric sample"; "biometric template"; "biometric record"; "biometric enrollment"; "palm print"; "hand geometry"; "gait analysis"] in
  let out := push_contextual_alnum out text BiometricMention "(?i)\b(?:biometric\s*(?:id|identifier|record|template))\s*(?:#|number|no\.)?\s*[:#]?\s*([A-Z0-9\-]{4,20})\b" High in
  let out := push_keyword_mentions out text PhotoMention ["photo"; "image"; "selfie"; "face photo"; "full-face"; "photograph"; "headshot"; "mugshot"; "portrait"; "profile picture"; "image attachment"; "photo id"; "photo identification"; "facial image"; "body scan"] in
  out.
Definition detect_hipaa_18_like (cities_raw : list string) (text : string) : list Detection :=
  sort_by by_kind_end (push_health_ids (push_persons cities_raw [] text) text).
End detect.

(** ** Checksums *)

(** The number a text stands for in the mod-97 check: letters count as 10 to 35. *)
Fixpoint iban_number (n : Z) (cs : list ascii) : Z :=
  match cs with
  | [] => n
  | c :: cs =>
      let z := Z.of_nat (nat_of_ascii c) in
      iban_number (if is_digit c then n * 10 + (z - 48) else n * 100 + (z - 65 + 10))%Z cs
  end.

Lemma iban_step_mod n c :
  is_digit c = true ∨ is_alpha c = true →
  iban_step (n mod 97) c
  = Some ((if is_digit c then n * 10 + (Z.of_nat (nat_of_ascii c) - 48)
           else n * 100 + (Z.of_nat (nat_of_ascii c) - 65 + 10)) mod 97)%Z.
Proof.
  intros Hc. unfold iban_step. destruct (is_digit c).
  - f_equal. by rewrite Z.add_mod, Z.mul_mod_idemp_l, <- Z.add_mod by lia.
  - destruct Hc as [?| ->]; [done|]. f_equal. set (v := (Z.of_nat (nat_of_ascii c) - 65 + 10)%Z).
    rewrite (Z.add_mod (n mod 97 * 10)), Z.mul_mod_idemp_l, <- Z.add_mod by lia.
    rewrite (Z.add_mod (((n * 10 + v / 10) mod 97) * 10)), Z.mul_mod_idemp_l, <- Z.add_mod by lia.
    f_equal. pose proof (Z.div_mod v 10). lia.
Qed.

(** The IBAN check is ISO 13616's: the loop, which reduces after every digit to
    stay within its width, computes the rearranged number modulo 97, and a span is
    accepted only when that is 1. *)
Theorem iban_loop_exact cs :
  Forall (λ c, is_digit c = true ∨ is_alpha c = true) cs →
  iban_loop 0 cs = Some (iban_number 0 cs mod 97)%Z.
Proof.
  intros Hcs. change 0%Z with (0 mod 97)%Z at 1. generalize 0%Z as n.
  induction Hcs as [|c cs Hc _ IH]; intros n; [done|]. cbn [iban_loop iban_number].
  rewrite iban_step_mod by done. simpl. apply IH.
Qed.
Lemma iban_loop_exact_witness :
  iban_loop 0 (list_ascii_of_string "0532013000DE89") = Some (iban_number 0 (list_ascii_of_string "0532013000DE89") mod 97)%Z.
Proof. apply (iban_loop_exact (list_ascii_of_string "0532013000DE89")). repeat constructor; (by left) || by right. Defined.

Lemma luhn_loop_sum cs b sum i :
  Forall (λ c, is_digit c = true) cs → b = Nat.odd i →
  luhn_loop b sum cs
  = Some (sum + foldr Z.add 0 (imap (λ j d, luhn_digit (i + j) d)
                                ((λ a, Z.of_nat (nat_of_ascii a) - 48) <$> cs)))%Z.
Proof.
  intros Hcs. revert b sum i. induction Hcs as [|c cs Hc _ IH]; intros b sum i ->; simpl; [f_equal; lia|].
  rewrite Hc, (IH _ _ (S i)) by by rewrite Nat.odd_succ, <- Nat.negb_odd. f_equal.
  rewrite Nat.add_0_r. unfold luhn_digit at 2. rewrite <- Z.add_assoc. f_equal. f_equal. f_equal.
  apply imap_ext. intros j d _. simpl. by rewrite Nat.add_succ_r.
Qed.

(** The card check and the device check agree: [luhn_valid] on a text of digits
    is the weighted sum that [validate_imei_luhn] takes. *)
Theorem luhn_checks_agree digits :
  all_chars is_digit digits = true →
  luhn_valid digits = (luhn_sum (digit_values digits) mod 10 =? 0)%Z.
Proof.
  unfold all_chars. rewrite forallb_forall. intros Hd.
  assert (Hf : List.filter is_digit (list_ascii_of_string digits) = list_ascii_of_string digits).
  { induction (list_ascii_of_string digits) as [|a l IH]; simpl; [done|].
    rewrite (Hd a) by by left. f_equal. apply IH. intros x Hx. apply Hd. by right. }
  unfold luhn_valid. rewrite (luhn_loop_sum _ _ _ 0); [|..].
  - unfold luhn_sum, digit_values. rewrite Hf, <- fmap_reverse. done.
  - rewrite Forall_reverse, Forall_forall. intros x Hx%list_elem_of_In. auto.
  - done.
Qed.
Lemma luhn_checks_agree_witness : luhn_valid "4111111111111111" = true.
Proof. rewrite (luhn_checks_agree "4111111111111111"); reflexivity. Defined.
