(* ===== verification/Redaction.v ===== *)
(** * Redaction: replacing the detected spans (src/src/gateway/redaction.rs)

    The configuration of the redaction, the replacement of a span, and the
    redaction of a text: the detections of all enabled detectors are sorted,
    clusters of overlapping ones are reduced to their best, and the kept spans
    are replaced from left to right. *)

From Stdlib Require Import ZArith Ascii String.
From stdpp Require Import base gmap strings relations list sorting.
From S2P Require Import Prelude Text Net Hlc Lww Policy Detection.

#[local] Arguments String.append : simpl nomatch.

Inductive MarkerFormat := Label | Asterisk | Partial.
Record RedactionConfig := mkRedactionConfig {
  marker_format : MarkerFormat;
  include_metadata : bool;
  preserve_length : bool;
  custom_markers : gmap string string;
  healthcare_mode : bool;
  pci_mode : bool;
  detect_patterns : list string;
}.
Definition RedactionConfig_default : RedactionConfig :=
  mkRedactionConfig Label true false ∅ false true [].

(** [RedactionConfig::from_policy_block]. *)
Section config.
Context {N : Type}.
Definition get_bool (v : Value N) (key : string) : option bool := json_get v key ≫= json_as_bool.
Definition markers_of (kvs : list (string * Value N)) : gmap string string :=
  foldl (λ m kv, match json_as_str kv.2 with Some s => <[kv.1 := s]> m | None => m end) ∅ kvs.
Definition from_policy_block (block : option (Value N)) : RedactionConfig :=
  match block ≫= json_as_object with
  | None => RedactionConfig_default
  | Some kvs =>
      let tbl := Obj kvs in
      let healthcare := default false (get_bool tbl "healthcare_mode") in
      let pci := default true (get_bool tbl "pci_mode") in
      let patterns :=
        match json_get tbl "detect_patterns" ≫= json_as_array with
        | Some vs => omap json_as_str vs
        | None => []
        end in
      match json_get tbl "redaction" ≫= json_as_object with
      | None => mkRedactionConfig Label true false ∅ healthcare pci patterns
      | Some rs =>
          let r := Obj rs in
          mkRedactionConfig
            (match json_get r "marker_format" ≫= json_as_str with
             | Some fmt => if String.eqb fmt "asterisk" then Asterisk
                           else if String.eqb fmt "partial" then Partial else Label
             | None => Label
             end)
            (default true (get_bool r "include_metadata"))
            (default false (get_bool r "preserve_length"))
            (match json_get r "custom_markers" ≫= json_as_object with Some m => markers_of m | None => ∅ end)
            healthcare pci patterns
      end
  end.
End config.

(** ** The replacement of a span *)

(** [chars().count()] of UTF-8: the bytes that do not continue a character. *)
Definition continues (a : ascii) : bool := bool_decide (128 ≤ nat_of_ascii a ≤ 191).
Definition char_count (s : string) : nat :=
  length (List.filter (λ a, negb (continues a)) (list_ascii_of_string s)).
Fixpoint stars (n : nat) : string :=
  match n with O => EmptyString | S n => String "*" (stars n) end.

(** The loop of [mask_digits_keep_last]: [keep_from] digits are still masked. *)
Fixpoint mask_loop (keep_from : nat) (s : string) : string :=
  match s with
  | EmptyString => EmptyString
  | String c s =>
      if is_digit c then
        match keep_from with
        | S n => String "*" (mask_loop n s)
        | O => String c (mask_loop O s)
        end
      else String c (mask_loop keep_from s)
  end.
Definition mask_digits_keep_last (span : string) (keep_last : nat) : string :=
  let total := String.length (digits_text span) in
  mask_loop (total - Nat.min keep_last total) span.

(** The first character: a byte and those that continue it. *)
Fixpoint take_continues (s : string) : string :=
  match s with
  | String a s => if continues a then String a (take_continues s) else EmptyString
  | EmptyString => EmptyString
  end.
Definition first_char (s : string) : string :=
  match s with String a s => String a (take_continues s) | EmptyString => EmptyString end.
Definition mask_email (span : string) : option string :=
  match split_once "@" span with
  | Some (local, domain) =>
      if is_empty local then None else Some (first_char local ++ "***@" ++ domain)%string
  | None => None
  end.
Definition partial_mask (k : PiiKind) (span : string) : option string :=
  match k with
  | Ssn | Pan => Some (mask_digits_keep_last span 4)
  | Email => mask_email span
  | _ => None
  end.
Definition replacement_for_detection (cfg : RedactionConfig) (k : PiiKind) (span : string) : string :=
  match custom_markers cfg !! marker_key k with
  | Some custom => custom
  | None =>
      match marker_format cfg with
      | Label => kind_replacement k
      | Asterisk => if preserve_length cfg then stars (Nat.max (char_count span) 1) else "***"
      | Partial => default (kind_replacement k) (partial_mask k span)
      end
  end.

(** ** The redaction of a text *)
Record VerdictanRedaction := mkRedaction {
  vr_kind : string;
  vr_replacement : string;
  vr_start : nat;
  vr_end : nat;
  vr_span_hash : string;
}.
Section redact.
Context `{Regexes}.
(** [sha256_prefixed], by the hash of [sha2]. *)
Variable sha256_hex : string → string.
Definition sha256_prefixed (span : string) : string := ("sha256:" ++ sha256_hex span)%string.

(** The loop over the kept detections. *)
Fixpoint redact_loop (cfg : RedactionConfig) (location input : string) (cursor : nat)
    (ds : list Detection) : string * list VerdictanRedaction * list RedactionTarget :=
  match ds with
  | [] => (slice input cursor (String.length input), [], [])
  | d :: ds =>
      if (d_start d <? cursor)%nat || (String.length input <? d_end d)%nat
      then redact_loop cfg location input cursor ds
      else
        let span := slice input (d_start d) (d_end d) in
        let r := replacement_for_detection cfg (kind d) span in
        let '(out, rs, ts) := redact_loop cfg location input (d_end d) ds in
        ((slice input cursor (d_start d) ++ r ++ out)%string,
         (if include_metadata cfg
          then [mkRedaction (as_kind_str (kind d)) r (d_start d) (d_end d) (sha256_prefixed span)]
          else []) ++ rs,
         mkTarget location (marker_key (kind d)) (Z.of_nat (d_start d)) (Z.of_nat (d_end d)) :: ts)
  end.

(** The detections of the enabled detectors. *)
Definition detections_of (cities_raw : list string) (cfg : RedactionConfig) (input : string) :
    list Detection :=
  detect_all input
  ++ (if healthcare_mode cfg then detect_hipaa_18_like cities_raw input else [])
  ++ (if pci_mode cfg then detect_pci_dss input else [])
  ++ flat_map (λ pat, if re_valid pat then detected GenericId Low <$> find_iter pat input else [])
       (detect_patterns cfg).
(** The part of the redaction after the detectors. *)
Definition redact_spans (cfg : RedactionConfig) (location input : string) (ds : list Detection) :
    string * list VerdictanRedaction * list RedactionTarget :=
  let ds := dedupe_overlaps (sort_by by_priority ds) in
  match ds with
  | [] => (input, [], [])
  | _ => redact_loop cfg location input 0 ds
  end.
Definition redact_with_metadata_and_targets_with_config (cities_raw : list string) (input : string)
    (cfg : RedactionConfig) (location : string) :
    string * list VerdictanRedaction * list RedactionTarget :=
  redact_spans cfg location input (detections_of cities_raw cfg input).
Definition redact_with_metadata_with_config (cities_raw : list string) (input : string)
    (cfg : RedactionConfig) : string * list VerdictanRedaction :=
  (redact_with_metadata_and_targets_with_config cities_raw input cfg EmptyString).1.
Definition redact_text_with_config (cities_raw : list string) (input : string) (cfg : RedactionConfig) :
    string := (redact_with_metadata_with_config cities_raw input cfg).1.
Definition redact_text (cities_raw : list string) (input : string) : string :=
  redact_text_with_config cities_raw input RedactionConfig_default.
End redact.

(** ** Sorting and slicing *)
Section sort_lemmas.
Context {A : Type} (le : A → A → bool).

Lemma insert_by_perm x l : insert_by le x l ≡ₚ x :: l.
Proof.
  induction l as [|y l IH]; simpl; [done|]. destruct (le x y); [done|]. rewrite IH. apply Permutation_swap.
Qed.
Lemma sort_by_perm l : sort_by le l ≡ₚ l.
Proof. induction l as [|x l IH]; simpl; [done|]. by rewrite insert_by_perm, IH. Qed.

Lemma sort_by_sorted (R : A → A → Prop) l :
  (∀ a b, le a b = true → R a b) → (∀ a b, le a b = false → R b a) → Transitive R →
  StronglySorted R (sort_by le l).
Proof.
  intros Hle Hgt Htrans. induction l as [|x l IH]; simpl; [constructor|].
  induction IH as [|y l' Hs IHs Hy]; simpl; [by repeat constructor|]. destruct (le x y) eqn:E.
  - constructor; [by constructor|]. constructor; [by apply Hle|].
    eapply Forall_impl; [exact Hy|]. intros z. apply Htrans. by apply Hle.
  - constructor; [done|]. rewrite insert_by_perm. constructor; [by apply Hgt|done].
Qed.
Lemma sort_by_id l : StronglySorted (λ a b, le a b = true) l → sort_by le l = l.
Proof.
  induction 1 as [|x l Hs IH Hx]; simpl; [done|]. rewrite IH. destruct Hx as [|y l' Hy _]; simpl; [done|].
  by rewrite Hy.
Qed.
End sort_lemmas.

Lemma substring_split s a m n :
  a + m ≤ String.length s →
  (substring a m s ++ substring (a + m) n s)%string = substring a (m + n) s.
Proof.
  revert a m. induction s as [|c s IH]; intros [|a] [|m] Hl; simpl in *; try lia; try done.
  - f_equal. apply (IH 0 m). lia.
  - rewrite Nat.add_0_r. clear. revert a. induction s as [|c' s IH]; intros a; [by destruct a|].
    destruct a; simpl; [done|]. apply IH.
  - apply (IH a (S m)). lia.
Qed.
Lemma slice_split s a b c :
  a ≤ b ≤ c → b ≤ String.length s → (slice s a b ++ slice s b c)%string = slice s a c.
Proof.
  intros [Hab Hbc] Hl. unfold slice. replace b with (a + (b - a)) at 2 by lia.
  rewrite substring_split by lia. f_equal. lia.
Qed.
Lemma slice_all s : slice s 0 (String.length s) = s.
Proof.
  unfold slice. rewrite Nat.sub_0_r. induction s as [|c s IH]; simpl; [done|]. by rewrite IH.
Qed.

(** ** Clusters *)

(** A span starts inside another; detections of a list connected by such. *)
Definition touches (a b : Detection) : Prop := d_start a ≤ d_start b < d_end a.
Definition connected (ds : list Detection) : Detection → Detection → Prop :=
  rtsc (λ a b, a ∈ ds ∧ b ∈ ds ∧ touches a b).
(** One span ends before another starts. *)
Definition before (a b : Detection) : Prop := d_end a ≤ d_start b.
Definition starts_le (a b : Detection) : Prop := d_start a ≤ d_start b.
Definition span_ok (n : nat) (d : Detection) : Prop := d_start d ≤ d_end d ∧ d_end d ≤ n.
Definition kept (ds : list Detection) : list Detection := dedupe_overlaps (sort_by by_priority ds).

Lemma clusters_elem best cend l k : k ∈ clusters best cend l → k = best ∨ k ∈ l.
Proof.
  revert best cend. induction l as [|d l IH]; intros best cend; simpl.
  - rewrite list_elem_of_singleton. by left.
  - rewrite !elem_of_cons. destruct (_ <? _)%nat.
    + intros [Hk|Hk]%IH; [|tauto]. destruct (better d best); tauto.
    + rewrite elem_of_cons. intros [?|[?|?]%IH]; tauto.
Qed.

Lemma clusters_disjoint best cend l :
  d_end best ≤ cend → StronglySorted starts_le l → StronglySorted before (clusters best cend l).
Proof.
  revert best cend. induction l as [|d l IH]; intros best cend Hb Hs; simpl; [by repeat constructor|].
  apply StronglySorted_inv in Hs as [Hs Hd]. destruct (Nat.ltb_spec (d_start d) cend).
  - apply IH; [|done]. destruct (better d best); lia.
  - constructor; [by apply IH|]. apply Forall_forall. intros k [->|Hk]%clusters_elem.
    + unfold before. lia.
    + rewrite Forall_forall in Hd. specialize (Hd k Hk). unfold before, starts_le in *. lia.
Qed.

Lemma better_priority d best : better d best = true → priority (kind d) ≤ priority (kind best).
Proof.
  unfold better. intros [?%Nat.ltb_lt|[?%Nat.eqb_eq _]%andb_true_iff]%orb_true_iff; lia.
Qed.
Lemma not_better_priority d best : better d best = false → priority (kind best) ≤ priority (kind d).
Proof. unfold better. intros Hb. apply orb_false_iff in Hb as [Hb _]. apply Nat.ltb_ge in Hb. lia. Qed.

(** [C] is the current cluster: its members are connected, its best is [best] and
    its end is reached by one of them. *)
Record cluster_of (ds C : list Detection) (best : Detection) (cend : nat) : Prop := mkCluster {
  cl_best : best ∈ C;
  cl_in : ∀ x, x ∈ C → x ∈ ds;
  cl_connected : ∀ x, x ∈ C → connected ds x best;
  cl_priority : ∀ x, x ∈ C → priority (kind best) ≤ priority (kind x);
  cl_end : ∃ m, m ∈ C ∧ d_end m = cend;
}.

Lemma cluster_extend ds C best cend d :
  cluster_of ds C best cend → d ∈ ds → (∀ x, x ∈ C → d_start x ≤ d_start d) → d_start d < cend →
  cluster_of ds (d :: C) (if better d best then d else best) (Nat.max cend (d_end d)).
Proof.
  intros [Hb Hin Hc Hp (m&Hm&He)] Hd Hs Hlt.
  assert (Hdm : connected ds d m).
  { apply rtsc_rl. split_and!; [auto..|]. split; [auto|lia]. }
  assert (Hdb : connected ds d best) by (etransitivity; [exact Hdm|auto]).
  set (b := if better d best then d else best).
  assert (Hbb : connected ds best b).
  { unfold b. destruct (better d best); [by symmetry|reflexivity]. }
  constructor.
  - unfold b. destruct (better d best); rewrite elem_of_cons; auto.
  - intros x [->|?]%elem_of_cons; auto.
  - intros x [->|Hx]%elem_of_cons; etransitivity; [|exact Hbb| |exact Hbb]; auto.
  - intros x Hx. unfold b. destruct (better d best) eqn:E.
    + apply better_priority in E. apply elem_of_cons in Hx as [->|Hx]; [done|]. specialize (Hp x Hx). lia.
    + apply not_better_priority in E. apply elem_of_cons in Hx as [->|Hx]; auto.
  - destruct (Nat.max_spec cend (d_end d)) as [[? ->]|[? ->]]; [exists d|exists m];
      rewrite elem_of_cons; auto.
Qed.

Lemma clusters_cover ds l C best cend :
  cluster_of ds C best cend → (∀ x, x ∈ l → x ∈ ds) → StronglySorted starts_le l →
  (∀ x y, x ∈ C → y ∈ l → d_start x ≤ d_start y) →
  ∀ x, x ∈ C ++ l →
  ∃ k, k ∈ clusters best cend l ∧ connected ds x k ∧ priority (kind k) ≤ priority (kind x).
Proof.
  revert C best cend. induction l as [|d l IH]; intros C best cend Hc Hl Hs Hlt x Hx.
  - rewrite app_nil_r in Hx. exists best. destruct Hc. split_and!; auto. by left.
  - apply StronglySorted_inv in Hs as [Hs Hd]. rewrite Forall_forall in Hd. simpl.
    destruct (Nat.ltb_spec (d_start d) cend) as [Hin|Hout].
    + apply (IH (d :: C)).
      * apply cluster_extend; [done|by apply Hl, elem_of_cons; left| |done].
        intros y Hy. apply Hlt; [done|]. by left.
      * intros y Hy. apply Hl. by right.
      * done.
      * intros y z [->|Hy]%elem_of_cons Hz; [by apply Hd|]. apply Hlt; [done|]. by right.
      * rewrite elem_of_app, elem_of_cons in Hx |- *. tauto.
    + apply elem_of_app in Hx as [Hx|Hx].
      * exists best. destruct Hc. split_and!; auto. by left.
      * destruct (IH [d] d (d_end d)) with (x := x) as (k&Hk&?&?).
        -- constructor; try (intros y ->%list_elem_of_singleton); try done; try by left.
           ++ apply Hl. by left.
           ++ exists d. split; [by left|done].
        -- intros y Hy. apply Hl. by right.
        -- done.
        -- intros y z ->%list_elem_of_singleton Hz. by apply Hd.
        -- done.
        -- exists k. split_and!; auto. by right.
Qed.

Lemma by_priority_sorted ds : StronglySorted starts_le (sort_by by_priority ds).
Proof.
  apply sort_by_sorted; unfold by_priority, starts_le.
  - intros a b [?%Nat.ltb_lt|[?%Nat.eqb_eq _]%andb_true_iff]%orb_true_iff; lia.
  - intros a b [?%Nat.ltb_ge _]%orb_false_iff. lia.
  - intros a b c. lia.
Qed.

Lemma before_by_span n l :
  Forall (span_ok n) l → StronglySorted before l → StronglySorted (λ a b, by_span a b = true) l.
Proof.
  intros Hok Hs. induction Hs as [|a l Hs IH Ha]; [constructor|].
  apply Forall_cons in Hok as [[Ha1 _] Hok]. constructor; [by apply IH|].
  rewrite Forall_forall in Ha, Hok |- *. intros b Hb. specialize (Ha b Hb). destruct (Hok b Hb) as [Hb1 _].
  unfold before in Ha. unfold by_span. simpl. rewrite andb_true_r.
  destruct (Nat.ltb_spec (d_start a) (d_start b)); [done|]. simpl.
  rewrite (proj2 (Nat.eqb_eq (d_start a) (d_start b))) by lia. simpl.
  destruct (Nat.ltb_spec (d_end a) (d_end b)); [done|]. simpl.
  rewrite (proj2 (Nat.eqb_eq (d_end a) (d_end b))) by lia. done.
Qed.

Lemma kept_spec n ds :
  Forall (span_ok n) ds →
  StronglySorted before (kept ds) ∧ (∀ k, k ∈ kept ds → k ∈ ds)
  ∧ ∀ d, d ∈ ds → ∃ k, k ∈ kept ds ∧ connected ds d k ∧ priority (kind k) ≤ priority (kind d).
Proof.
  intros Hok. unfold kept, dedupe_overlaps. pose proof (sort_by_perm by_priority ds) as Hperm.
  pose proof (by_priority_sorted ds) as Hs.
  destruct (sort_by by_priority ds) as [|d l].
  { apply Permutation_nil in Hperm. subst ds. split_and!; [constructor|..]; intros ? []%not_elem_of_nil. }
  assert (Hel : ∀ x, x ∈ ds ↔ x = d ∨ x ∈ l) by (intros x; by rewrite <- Hperm, elem_of_cons).
  apply StronglySorted_inv in Hs as [Hs Hd]. rewrite Forall_forall in Hd.
  pose proof (clusters_disjoint d (d_end d) l (Nat.le_refl _) Hs) as Hdis.
  assert (Hin : ∀ k, k ∈ clusters d (d_end d) l → k ∈ ds) by (intros k Hk%clusters_elem; by apply Hel).
  rewrite (sort_by_id by_span).
  2:{ apply (before_by_span n); [|done]. rewrite Forall_forall in Hok |- *. auto. }
  split_and!; [done|done|]. intros x Hx%Hel.
  apply (clusters_cover ds l [d] d (d_end d)).
  - constructor; try (intros y ->%list_elem_of_singleton); try done; try by left.
    + apply Hel. by left.
    + exists d. split; [by left|done].
  - intros y Hy. apply Hel. by right.
  - done.
  - intros y z ->%list_elem_of_singleton Hz. by apply Hd.
  - rewrite elem_of_app, list_elem_of_singleton. done.
Qed.

(** ** The output *)

(** The input with every span of [ds] replaced by [f]. *)
Fixpoint weave (f : Detection → string) (input : string) (cursor : nat) (ds : list Detection) : string :=
  match ds with
  | [] => slice input cursor (String.length input)
  | d :: ds => (slice input cursor (d_start d) ++ f d ++ weave f input (d_end d) ds)%string
  end.

Lemma string_app_assoc (a b c : string) : ((a ++ b) ++ c)%string = (a ++ (b ++ c))%string.
Proof. induction a as [|x a IH]; simpl; [done|]. by rewrite IH. Qed.

(** Putting the original spans back gives the input. *)
Lemma weave_id input cursor ds :
  StronglySorted before ds → Forall (span_ok (String.length input)) ds →
  Forall (λ d, cursor ≤ d_start d) ds → cursor ≤ String.length input →
  weave (λ d, slice input (d_start d) (d_end d)) input cursor ds
  = slice input cursor (String.length input).
Proof.
  intros Hs. revert cursor. induction Hs as [|d ds Hs IH Hd]; intros cursor Hok Hc Hn; [done|].
  apply Forall_cons in Hok as [[H1 H2] Hok], Hc as [Hc _]. simpl. rewrite (IH (d_end d)); try done.
  rewrite slice_split, slice_split by lia. done.
Qed.

Create HintDb spans.
Section output.
Context `{Regexes} (sha256_hex : string → string).

Lemma redact_loop_weave cfg location input cursor ds :
  StronglySorted before ds → Forall (span_ok (String.length input)) ds →
  Forall (λ d, cursor ≤ d_start d) ds →
  (redact_loop sha256_hex cfg location input cursor ds).1.1
  = weave (λ d, replacement_for_detection cfg (kind d) (slice input (d_start d) (d_end d))) input cursor ds
  ∧ (redact_loop sha256_hex cfg location input cursor ds).2
  = ((λ d, mkTarget location (marker_key (kind d)) (Z.of_nat (d_start d)) (Z.of_nat (d_end d))) <$> ds).
Proof.
  intros Hs. revert cursor. induction Hs as [|d ds Hs IH Hd]; intros cursor Hok Hc; [done|].
  apply Forall_cons in Hok as [[H1 H2] Hok], Hc as [Hc _]. simpl.
  rewrite (proj2 (Nat.ltb_ge (d_start d) cursor)), (proj2 (Nat.ltb_ge (String.length input) (d_end d))) by lia.
  simpl. destruct (IH (d_end d)) as [IH1 IH2]; [done..|].
  destruct (redact_loop _ _ _ _ (d_end d) ds) as [[out rs] ts]. simpl in *. by rewrite IH1, IH2.
Qed.

(** *** Every detector yields spans of the text *)
Lemma prefix_length p s : String.prefix p s = true → String.length p ≤ String.length s.
Proof.
  revert s. induction p as [|a p IH]; intros [|b s]; simpl; try done; try lia.
  destruct (ascii_dec a b); [|done]. intros ?%IH. lia.
Qed.
Lemma index_bound n p s i : String.index n p s = Some i → i + String.length p ≤ String.length s.
Proof.
  revert n i. induction s as [|c s IH]; intros n i.
  - simpl. destruct n, p; try done. intros [= <-]. simpl. lia.
  - cbn [String.index]. destruct n as [|n].
    + destruct (String.prefix p (String c s)) eqn:E; [intros [= <-]; by apply prefix_length in E|].
      destruct (String.index 0 p s) as [j|] eqn:Ej; [|done]. intros [= <-]. apply IH in Ej. simpl. lia.
    + destruct (String.index n p s) as [j|] eqn:Ej; [|done]. intros [= <-]. apply IH in Ej. simpl. lia.
Qed.
Lemma lowercase_length s : String.length (to_ascii_lowercase s) = String.length s.
Proof. induction s as [|a s IH]; simpl; by rewrite ?IH. Qed.

(** Spans within a text of [n] bytes, and those of detections. *)
Definition spans_ok (n : nat) (ms : list (nat * nat)) : Prop := Forall (λ m, m.1 ≤ m.2 ∧ m.2 ≤ n) ms.

Lemma detected_ok n k c ms : spans_ok n ms → Forall (span_ok n) (detected k c <$> ms).
Proof. intros Hm. rewrite Forall_fmap. exact Hm. Qed.
Lemma spans_filter n (f : nat * nat → bool) ms : spans_ok n ms → spans_ok n (List.filter f ms).
Proof.
  intros Hm. unfold spans_ok in *. rewrite Forall_forall in Hm |- *. intros m Hx.
  apply list_elem_of_In, filter_In in Hx as [Hx _]. apply Hm. by apply list_elem_of_In.
Qed.
Lemma group_iter_ok re text i : spans_ok (String.length text) (group_iter re text i).
Proof.
  apply Forall_forall. intros [a b] (caps&Hc&Hm)%list_elem_of_omap.
  destruct (caps !! i) as [[[a' b']|]|] eqn:E; simplify_eq/=. by eapply captures_span.
Qed.
Lemma find_iter_ok re text : spans_ok (String.length text) (find_iter re text).
Proof. apply group_iter_ok. Qed.
Lemma occurrences_ok fuel lower needle from :
  spans_ok (String.length lower) (occurrences fuel lower needle from).
Proof.
  revert from. induction fuel as [|fuel IH]; intros from; simpl; [constructor|].
  destruct (String.index from needle lower) as [i|] eqn:E; [|constructor].
  apply index_bound in E. constructor; [simpl; lia|]. destruct (_ <=? _)%nat; [constructor|apply IH].
Qed.
Lemma flat_map_ok {X} n (f : X → list Detection) l :
  (∀ x, Forall (span_ok n) (f x)) → Forall (span_ok n) (flat_map f l).
Proof. intros Hf. induction l as [|x l IH]; simpl; [constructor|]. by apply Forall_app. Qed.
Lemma sort_ok n le l : Forall (span_ok n) l → Forall (span_ok n) (sort_by le l).
Proof. by rewrite sort_by_perm. Qed.
Lemma dedupe_ok n l : Forall (span_ok n) l → Forall (span_ok n) (dedupe_overlaps l).
Proof.
  destruct l as [|d l]; [done|]. simpl. intros Hl. apply sort_ok. rewrite Forall_forall in Hl |- *.
  intros k Hk%clusters_elem. apply Hl. by rewrite elem_of_cons.
Qed.
#[local] Hint Resolve detected_ok spans_filter group_iter_ok find_iter_ok occurrences_ok sort_ok
  dedupe_ok : spans.

Lemma detections_ok cities cfg input : Forall (span_ok (String.length input)) (detections_of cities cfg input).
Proof.
  unfold detections_of. repeat (apply Forall_app; split).
  - unfold detect_all. apply dedupe_ok, sort_ok.
    unfold push_accounts, push_dates, push_network, push_contacts. unfold push_contextual_matches_filtered, push_contextual_matches, push_matches_filtered, push_matches.
    repeat (apply Forall_app; split); auto with spans.
  - destruct (healthcare_mode cfg); [|constructor]. unfold detect_hipaa_18_like. apply sort_ok.
    unfold push_health_ids, push_persons.
    unfold push_keyword_mentions, push_contextual_numeric, push_contextual_alnum, push_contextual_matches,
      push_matches, detect_us_top_cities, detect_fax_numbers.
    rewrite <- (lowercase_length input).
    repeat (apply Forall_app; split); try apply flat_map_ok; intros; auto with spans;
      rewrite (lowercase_length input); auto with spans.
  - destruct (pci_mode cfg); [|constructor]. unfold detect_pci_dss. apply sort_ok.
    unfold detect_pan, detect_card_numbers, detect_cvv, detect_expiration_date.
    repeat (apply Forall_app; split); auto with spans.
  - apply flat_map_ok. intros pat. destruct (re_valid pat); [auto with spans|constructor].
Qed.

(** What a redaction does: the output is the input with the kept spans, which
    are detected ones and do not overlap, replaced by their markers and every
    other byte copied (putting the spans back restores the input); the targets
    are the kept spans; and every detection is connected through overlapping
    detections to a kept one of the same or a better priority, so a detection
    that overlaps no other is always replaced. *)
Theorem redaction_exact cities cfg location input :
  let ds := detections_of cities cfg input in
  let '(out, _, targets) :=
    redact_with_metadata_and_targets_with_config sha256_hex cities input cfg location in
  out = weave (λ d, replacement_for_detection cfg (kind d) (slice input (d_start d) (d_end d)))
          input 0 (kept ds)
  ∧ weave (λ d, slice input (d_start d) (d_end d)) input 0 (kept ds) = input
  ∧ targets = ((λ d, mkTarget location (marker_key (kind d)) (Z.of_nat (d_start d)) (Z.of_nat (d_end d))) <$> kept ds)
  ∧ StronglySorted before (kept ds) ∧ (∀ k, k ∈ kept ds → k ∈ ds)
  ∧ ∀ d, d ∈ ds → ∃ k, k ∈ kept ds ∧ connected ds d k ∧ priority (kind k) ≤ priority (kind d).
Proof.
  cbv zeta. pose proof (detections_ok cities cfg input) as Hok.
  unfold redact_with_metadata_and_targets_with_config, redact_spans.
  set (ds := detections_of cities cfg input) in *. fold (kept ds).
  destruct (kept_spec _ ds Hok) as (Hs&Hin&Hcov).
  assert (Hok' : Forall (span_ok (String.length input)) (kept ds)).
  { rewrite Forall_forall in Hok |- *. auto. }
  assert (Hlo : Forall (λ d, 0 ≤ d_start d) (kept ds)) by (apply Forall_forall; intros; lia).
  destruct (redact_loop_weave cfg location input 0 (kept ds) Hs Hok' Hlo) as [Ho Ht].
  pose proof (weave_id input 0 (kept ds) Hs Hok' Hlo (Nat.le_0_l _)) as Hid. rewrite slice_all in Hid.
  destruct (kept ds) as [|k ks] eqn:Ek.
  - simpl. rewrite slice_all. split_and!; auto.
  - destruct (redact_loop _ _ _ _ 0 (k :: ks)) as [[out rs] ts]. simpl in Ho, Ht. subst.
    split_and!; auto.
Qed.

(** A cluster keeps one span: when a detection covers two others that do not
    overlap each other, and one of these has the best priority, only that span is
    replaced; the other one, detected and disjoint from it, stays in the output,
    as does the rest of the covering span. *)
Theorem cluster_redacts_one u a b cfg location input :
  d_start u < d_start a → d_end a ≤ d_start b → d_start a < d_end a → d_start b < d_end b →
  d_end b ≤ d_end u → d_end u ≤ String.length input →
  priority (kind b) < priority (kind a) → priority (kind b) < priority (kind u) →
  (redact_spans sha256_hex cfg location input [u; a; b]).1.1
  = (slice input 0 (d_start b)
     ++ replacement_for_detection cfg (kind b) (slice input (d_start b) (d_end b))
     ++ slice input (d_end b) (String.length input))%string.
Proof.
  intros Hua Hab Ha Hb Hbu Hu Hpa Hpu. unfold redact_spans.
  assert (Hsort : sort_by by_priority [u; a; b] = [u; a; b]).
  { apply sort_by_id. repeat constructor; unfold by_priority; apply orb_true_iff; left; apply Nat.ltb_lt; lia. }
  rewrite Hsort. unfold dedupe_overlaps. cbn [clusters].
  rewrite (proj2 (Nat.ltb_lt (d_start a) (d_end u))) by lia.
  rewrite (proj2 (Nat.ltb_lt (d_start b) (Nat.max (d_end u) (d_end a)))) by lia.
  assert (Hbest : better b (if better a u then a else u) = true).
  { unfold better at 1. apply orb_true_iff. left. apply Nat.ltb_lt. by destruct (better a u). }
  rewrite Hbest. cbn [sort_by foldr insert_by redact_loop].
  rewrite (proj2 (Nat.ltb_ge (String.length input) (d_end b))) by lia. done.
Qed.
End output.

(** ** Witnesses *)
Module DemoRegex.
(** An engine that knows one pattern on one text. *)
Definition text : string := "my 123-45-6789".
Definition caps (p t : string) : list (list (option (nat * nat))) :=
  if String.eqb p "\b\d{3}[- ]\d{2}[- ]\d{4}\b" && String.eqb t text then [[Some (3, 14)]] else [].
#[refine] Instance one : Regexes := {| re_valid := λ _, false; captures_iter := caps |}.
Proof.
  intros p t cs i s e. unfold caps. destruct (_ && _) eqn:E; [|by intros []%not_elem_of_nil].
  apply andb_true_iff in E as [_ ->%String.eqb_eq]. intros ->%list_elem_of_singleton.
  destruct i as [|i]; [|done]. intros [= <- <-]. vm_compute. lia.
Defined.
End DemoRegex.
Lemma redaction_exact_witness :
  (redact_with_metadata_and_targets_with_config (H := DemoRegex.one) (λ s, s) [] DemoRegex.text
     RedactionConfig_default EmptyString).1.1
  = weave (λ d, replacement_for_detection RedactionConfig_default (kind d)
                  (slice DemoRegex.text (d_start d) (d_end d))) DemoRegex.text 0
      (kept (detections_of (H := DemoRegex.one) [] RedactionConfig_default DemoRegex.text))
  ∧ detections_of (H := DemoRegex.one) [] RedactionConfig_default DemoRegex.text = [mkDetection Ssn 3 14 High].
Proof.
  split; [|vm_compute; reflexivity].
  pose proof (redaction_exact (H := DemoRegex.one) (λ s, s) [] RedactionConfig_default EmptyString
    DemoRegex.text) as W. cbv zeta in W.
  destruct (redact_with_metadata_and_targets_with_config _ _ _ _ _) as [[out rs] ts]. apply W.
Defined.

(** A URL with an address and a social security number in its path. *)
Definition leaky : string := "https://h.co/a@b.co/123-45-6789/x".
Lemma cluster_redacts_one_witness :
  (redact_spans (λ s, s) RedactionConfig_default EmptyString leaky
     [mkDetection Url 0 33 Medium; mkDetection Email 13 19 High; mkDetection Ssn 20 31 High]).1.1
  = "https://h.co/a@b.co/[REDACTED:SSN]/x"%string.
Proof.
  rewrite (cluster_redacts_one (λ s, s) (mkDetection Url 0 33 Medium)
             (mkDetection Email 13 19 High) (mkDetection Ssn 20 31 High)); [reflexivity|..];
    vm_compute; lia.
Defined.
