(* ===== verification/Sse.v ===== *)
(** * Sse: server-sent events (src/src/gateway/sse.rs)

    Framing of a byte stream into data payloads, the accumulation of a streamed
    answer in the three wire formats, the semantic unit of a payload, and the
    payloads the gateway writes itself.  Byte buffers are lists of bytes; JSON
    text is read by the argument [from_str] and written by [SerdeJson], whose
    objects have their keys in order. *)

From Stdlib Require Import ZArith Ascii String.
From stdpp Require Import base gmap strings list.
From S2P Require Import Prelude Text Lww EventWal Policy ToolCalls Detection Redaction.

#[local] Arguments String.append : simpl nomatch.

(** ** Bytes and text *)
Abbreviation chunk := (list ascii).
Definition LF : ascii := "010".
Definition CR : ascii := "013".
Definition code (a : ascii) : Z := Z.of_nat (nat_of_ascii a).

(** [str::from_utf8]. *)
Fixpoint utf8_ok (l : chunk) : bool :=
  match l with
  | [] => true
  | a :: l1 =>
      match seq_width (code a) with
      | 1%nat => utf8_ok l1
      | 2%nat => match l1 with b :: l2 => second_ok (code a) (code b) && utf8_ok l2 | _ => false end
      | 3%nat =>
          match l1 with
          | b :: c :: l3 => second_ok (code a) (code b) && cont (code c) && utf8_ok l3
          | _ => false
          end
      | 4%nat =>
          match l1 with
          | b :: c :: d :: l4 =>
              second_ok (code a) (code b) && cont (code c) && cont (code d) && utf8_ok l4
          | _ => false
          end
      | _ => false
      end
  end.
Definition from_utf8 (l : chunk) : option string :=
  if utf8_ok l then Some (string_of_list_ascii l) else None.
(** [String::from_utf8_lossy]. *)
Definition utf8_lossy (l : chunk) : string :=
  string_of_list_ascii ((λ z, ascii_of_nat (Z.to_nat z)) <$> from_utf8_lossy (code <$> l)).

(** [str::lines]: the parts between line feeds without a final carriage return;
    an empty last part is no line. *)
Definition strip_cr (rl : list ascii) : string :=
  string_of_list_ascii (reverse match rl with a :: r => if Ascii.eqb a CR then r else rl | [] => [] end).
(** [rl] is the current line, reversed. *)
Fixpoint lines_from (rl : list ascii) (s : string) : list string :=
  match s with
  | EmptyString => match rl with [] => [] | _ => [string_of_list_ascii (reverse rl)] end
  | String a s => if Ascii.eqb a LF then strip_cr rl :: lines_from [] s else lines_from (a :: rl) s
  end.
Definition str_lines (s : string) : list string := lines_from [] s.

(** ** Frames *)

(** [find_frame_boundary] and [buffer.drain(..index + 2)]: the bytes up to and
    with the first blank line, and the rest. *)
Fixpoint split_frame (l : chunk) : option (chunk * chunk) :=
  match l with
  | a :: (b :: l2) as l1 =>
      if Ascii.eqb a LF && Ascii.eqb b LF then Some ([a; b], l2)
      else match split_frame l1 with Some (f, r) => Some (a :: f, r) | None => None end
  | _ => None
  end.
Definition data_line (line : string) : option string :=
  match strip_prefix "data:" line with Some v => Some (trim v) | None => None end.
Definition parse_sse_data_frame (frame : chunk) : option string :=
  from_utf8 frame ≫= λ text,
  match omap data_line (str_lines text) with
  | [] => None
  | ls => Some (String.concat (String LF EmptyString) ls)
  end.
(** [drain_sse_data_frames]: the payloads and the bytes that stay; a round drops
    two bytes, so the length is enough fuel. *)
Fixpoint drain_frames (fuel : nat) (l : chunk) : list string * chunk :=
  match fuel with
  | O => ([], l)
  | S fuel =>
      match split_frame l with
      | None => ([], l)
      | Some (f, r) =>
          let '(ps, rest) := drain_frames fuel r in
          (match parse_sse_data_frame f with Some p => p :: ps | None => ps end, rest)
      end
  end.
Definition drain_sse_data_frames (l : chunk) : list string * chunk := drain_frames (length l) l.

(** [drain_json_line_frames]. *)
Fixpoint split_line (l : chunk) : option (chunk * chunk) :=
  match l with
  | [] => None
  | a :: l => if Ascii.eqb a LF then Some ([a], l)
              else match split_line l with Some (f, r) => Some (a :: f, r) | None => None end
  end.
Fixpoint drain_lines (fuel : nat) (l : chunk) : list string * chunk :=
  match fuel with
  | O => ([], l)
  | S fuel =>
      match split_line l with
      | None => ([], l)
      | Some (f, r) =>
          let '(ps, rest) := drain_lines fuel r in
          let payload := trim (utf8_lossy f) in
          (if is_empty payload then ps else payload :: ps, rest)
      end
  end.
Definition drain_json_line_frames (l : chunk) : list string * chunk := drain_lines (length l) l.

(** [encode_sse_data_frame]. *)
Definition sse_frame (payload : string) : string :=
  ("data: " ++ payload ++ String LF (String LF EmptyString))%string.
Definition encode_sse_data_frame (payload : string) : chunk := list_ascii_of_string (sse_frame payload).

(** [Map::insert] of a map with its keys in order. *)
Fixpoint map_insert {N} (k : string) (v : Value N) (kvs : list (string * Value N)) : list (string * Value N) :=
  match kvs with
  | [] => [(k, v)]
  | (k', v') :: r =>
      if String.eqb k' k then (k, v) :: r
      else if String.ltb k k' then (k, v) :: kvs else (k', v') :: map_insert k v r
  end.
Definition with_object {N} (f : list (string * Value N) → list (string * Value N)) (v : Value N) : Value N :=
  match v with Obj kvs => Obj (f kvs) | _ => v end.
(** [get_mut(key)] and an update of what it yields. *)
Definition update_key {N} (k : string) (f : Value N → Value N) (v : Value N) : Value N :=
  with_object (map (λ kv, if String.eqb kv.1 k then (kv.1, f kv.2) else kv)) v.

(** ** Payloads *)
Inductive StreamingFamily := ChatCompletions | Responses | Messages.
#[export] Instance StreamingFamily_eq_dec : EqDecision StreamingFamily.
Proof. solve_decision. Defined.
Record SseSemanticUnit := mkUnit {
  u_family : StreamingFamily;
  u_payload : string;
  text_delta : string;
  is_terminal : bool;
  u_finish_reason : option string;
}.

Section payloads.
Context `{SerdeJson}.
Abbreviation value := (Value Number).
Variable from_str : string → option value.
Variable num : Z → Number.
Variable as_i64 : Number → option Z.

Definition stream_requested (v : value) : bool := default false (json_get v "stream" ≫= json_as_bool).
Definition disable_stream_flag (v : value) : value := with_object (map_insert "stream" (Bool false)) v.

(** What an accumulator has read, the text or its length, and the finish reason.
    [push] is [content.push_str(text)] or [*output_chars += text.chars().count()]. *)
Definition Acc (T : Type) : Type := T * option string.
Definition push_str (content text : string) : string := (content ++ text)%string.
Definition push_count (n : nat) (text : string) : nat := n + char_count text.
Definition chat_choice {T} (push : T → string → T) (choice : value) (acc : Acc T) : Acc T :=
  (match get_in (json_get choice "delta") "content" ≫= json_as_str with
   | Some t => push acc.1 t | None => acc.1 end,
   match get_str choice "finish_reason" with Some r => Some r | None => acc.2 end).
Definition fold_choices {T} (push : T → string → T) (choices : list value) (acc : Acc T) : Acc T :=
  foldl (λ a c, chat_choice push c a) acc choices.
Definition chat_delta {T} (push : T → string → T) (payload : string) (acc : Acc T) : Acc T :=
  if String.eqb payload "[DONE]" then acc else
  match from_str payload with
  | None => acc
  | Some v => match get_array v "choices" with Some cs => fold_choices push cs acc | None => acc end
  end.
Definition responses_delta_acc {T} (push : T → string → T) (payload : string) (acc : Acc T) : Acc T :=
  if String.eqb payload "[DONE]" then acc else
  match from_str payload with
  | None => acc
  | Some v =>
      match get_str v "type" with
      | Some t =>
          if String.eqb t "response.output_text.delta" then
            match get_str v "delta" with Some s => (push acc.1 s, acc.2) | None => acc end
          else if String.eqb t "response.output_text.done" then
            match get_str v "text" with Some s => (push acc.1 s, acc.2) | None => acc end
          else if String.eqb t "response.completed" then (acc.1, Some "stop"%string) else acc
      | None => acc
      end
  end.
Definition accumulate_chat_completion_delta : string → Acc string → Acc string := chat_delta push_str.
Definition accumulate_chat_completion_delta_stats : string → Acc nat → Acc nat := chat_delta push_count.
Definition accumulate_responses_delta : string → Acc string → Acc string := responses_delta_acc push_str.
Definition accumulate_responses_delta_stats : string → Acc nat → Acc nat := responses_delta_acc push_count.
(** The stop reason of a message, in the vocabulary of chat completions. *)
Definition chat_reason (reason : string) : string :=
  if String.eqb reason "end_turn" || String.eqb reason "stop_sequence" then "stop"
  else if String.eqb reason "tool_use" then "tool_calls" else reason.
Definition delta_text (v : value) : option string :=
  if bool_decide (pointer_str v "delta" "type" = Some "text_delta"%string)
  then pointer_str v "delta" "text" else None.
Definition accumulate_messages_delta (payload : string) (acc : Acc string) : Acc string :=
  if String.eqb payload "[DONE]" then acc else
  match from_str payload with
  | None => acc
  | Some v =>
      match get_str v "type" with
      | Some t =>
          if String.eqb t "content_block_delta" then
            match delta_text v with Some s => (push_str acc.1 s, acc.2) | None => acc end
          else if String.eqb t "message_delta" then
            match pointer_str v "delta" "stop_reason" with
            | Some r => (acc.1, Some (chat_reason r))
            | None => acc
            end
          else if String.eqb t "message_stop" then
            match acc.2 with None => (acc.1, Some "stop"%string) | Some _ => acc end
          else acc
      | None => acc
      end
  end.

(** [extract_sse_semantic_unit]. *)
Definition unit_for (f : StreamingFamily) (payload text : string) (terminal : bool)
    (reason : option string) : SseSemanticUnit := mkUnit f payload text terminal reason.
Definition responses_unit (payload : string) (v : value) (t : string) : SseSemanticUnit :=
  if String.eqb t "response.output_text.delta" then
    unit_for Responses payload (default EmptyString (get_str v "delta")) false None
  else if String.eqb t "response.output_text.done" then
    unit_for Responses payload (default EmptyString (get_str v "text")) false None
  else if String.eqb t "response.completed" then
    unit_for Responses payload EmptyString true (Some "stop"%string)
  else unit_for Responses payload EmptyString false None.
Definition messages_unit (payload : string) (v : value) (t : string) : SseSemanticUnit :=
  if String.eqb t "content_block_delta" then
    unit_for Messages payload (default EmptyString (delta_text v)) false None
  else if String.eqb t "message_delta" then
    let reason := chat_reason <$> pointer_str v "delta" "stop_reason" in
    unit_for Messages payload EmptyString (bool_decide (is_Some reason)) reason
  else if String.eqb t "message_stop" then
    unit_for Messages payload EmptyString true (Some "stop"%string)
  else unit_for Messages payload EmptyString false None.
Definition extract_sse_semantic_unit (f : StreamingFamily) (payload : string) : option SseSemanticUnit :=
  if String.eqb payload "[DONE]" then Some (unit_for f payload EmptyString true (Some "stop"%string))
  else
    from_str payload ≫= λ v,
    match f with
    | ChatCompletions =>
        get_array v "choices" ≫= λ cs,
        let '(text, reason) := fold_choices push_str cs (EmptyString, None) in
        Some (unit_for f payload text (bool_decide (is_Some reason)) reason)
    | Responses => get_str v "type" ≫= λ t, Some (responses_unit payload v t)
    | Messages => get_str v "type" ≫= λ t, Some (messages_unit payload v t)
    end.

(** ** Payloads the gateway writes; the keys are in the order they are printed *)
Definition print (v : value) : string := canonical_json_string v.
Definition obj_messages_start : value :=
  Obj [("content_block", Obj [("text", Str EmptyString); ("type", Str "text")]);
       ("index", Num (num 0)); ("type", Str "content_block_start")]%string.
Definition obj_messages_delta (message_id content : string) : value :=
  Obj [("delta", Obj [("text", Str content); ("type", Str "text_delta")]);
       ("index", Num (num 0)); ("message_id", Str message_id); ("type", Str "content_block_delta")]%string.
Definition obj_messages_stop : value :=
  Obj [("index", Num (num 0)); ("type", Str "content_block_stop")]%string.
Definition obj_message_delta (stop_reason : string) : value :=
  Obj [("delta", Obj [("stop_reason", Str stop_reason); ("stop_sequence", Null)]);
       ("type", Str "message_delta")]%string.
(** The text in the source, with quotation marks. *)
Definition quote : string := String "034" EmptyString.
Definition message_stop_text : string :=
  ("{" ++ quote ++ "type" ++ quote ++ ":" ++ quote ++ "message_stop" ++ quote ++ "}")%string.
Definition message_payloads (message_id content stop_reason : string) : list string :=
  [print obj_messages_start]
  ++ (if is_empty content then [] else [print (obj_messages_delta message_id content)])
  ++ [print obj_messages_stop; print (obj_message_delta stop_reason); message_stop_text].
Definition messages_text_to_sse (message_id content stop_reason : string) : string :=
  String.concat EmptyString (sse_frame <$> message_payloads message_id content stop_reason).

(** A chunk of a chat completion with one choice, or with the usage. *)
Definition chat_chunk (id : string) (created : value) (model : string) (choices : list value)
    (usage : option value) : value :=
  Obj ([("choices", Arr choices); ("created", created); ("id", Str id); ("model", Str model);
        ("object", Str "chat.completion.chunk")]%string
       ++ match usage with Some u => [("usage"%string, u)] | None => [] end).
Definition chunk_choice (index : Z) (delta : value) (finish_reason : value) : value :=
  Obj [("delta", delta); ("finish_reason", finish_reason); ("index", Num (num index))]%string.
Definition content_choice (index : Z) (content : string) : value :=
  chunk_choice index (Obj [("content", Str content); ("role", Str "assistant")]%string) Null.
Definition tool_choice (index : Z) (tc_idx : nat) (tc : value) : value :=
  let fn := json_get tc "function" in
  chunk_choice index
    (Obj [("tool_calls", Arr [Obj
       [("function", Obj [("arguments", default (Str EmptyString) (get_in fn "arguments"));
                          ("name", default Null (get_in fn "name"))]);
        ("id", default Null (json_get tc "id")); ("index", Num (num (Z.of_nat tc_idx)));
        ("type", Str "function")]])]%string) Null.
Definition choice_payloads (chunk : list value → value) (choice : value) : list value :=
  let index := default 0%Z (json_get choice "index" ≫= λ v, match v with Num n => as_i64 n | _ => None end) in
  let message := json_get choice "message" in
  let content := default EmptyString (get_in message "content" ≫= json_as_str) in
  let calls := get_in message "tool_calls" ≫= json_as_array in
  (if is_empty content then [] else [chunk [content_choice index content]])
  ++ match calls with Some cs => imap (λ i tc, chunk [tool_choice index i tc]) cs | None => [] end
  ++ [chunk [chunk_choice index (Obj [])
               (if match calls with Some (_ :: _) => true | _ => false end then Str "tool_calls"
                else default (Str "stop") (json_get choice "finish_reason"))]].
Definition usage_payload (chunk : value → value) (u : value) : list value :=
  match json_get u "prompt_tokens", json_get u "completion_tokens", json_get u "total_tokens" with
  | Some p, Some c, Some t =>
      [chunk (Obj [("completion_tokens", c); ("prompt_tokens", p); ("total_tokens", t)]%string)]
  | _, _, _ => []
  end.
(** [chat_completion_json_to_sse]; [now] is the clock. *)
Definition chat_completion_payloads (now : Z) (response : value) (include_usage : bool) : option (list string) :=
  let id := default "chatcmpl-verdictan"%string (get_str response "id") in
  let created := default (Num (num now)) (json_get response "created") in
  let model := default "unknown"%string (get_str response "model") in
  get_array response "choices" ≫= λ choices,
  let chunk cs u := chat_chunk id created model cs u in
  Some ((print <$> (flat_map (choice_payloads (λ cs, chunk cs None)) choices
         ++ match include_usage, json_get response "usage" with
            | true, Some u => usage_payload (λ u, chunk [] (Some u)) u
            | _, _ => []
            end)) ++ ["[DONE]"%string]).
Definition chat_completion_json_to_sse (now : Z) (bytes : string) (include_usage : bool) : option string :=
  from_str bytes ≫= λ response,
  String.concat EmptyString <$> (fmap sse_frame <$> chat_completion_payloads now response include_usage).

(** [responses_json_to_sse]. *)
Definition responses_delta (id text : string) : value :=
  Obj [("delta", Str text); ("response_id", Str id); ("type", Str "response.output_text.delta")]%string.
Definition responses_completed (id : string) : value :=
  Obj [("response_id", Str id); ("type", Str "response.completed")]%string.
Definition is_type (v : value) (t : string) : bool := bool_decide (get_str v "type" = Some t).
Definition part_texts (item : value) : list string :=
  if is_type item "message" then
    match get_array item "content" with
    | Some parts =>
        List.filter (λ t, negb (is_empty t))
          (map (λ p, default EmptyString (get_str p "text"))
             (List.filter (λ p, is_type p "output_text") parts))
    | None => []
    end
  else [].
Definition responses_payloads (response : value) : option (list string) :=
  let id := default "resp_verdictan"%string (get_str response "id") in
  let close := [print (responses_completed id); "[DONE]"%string] in
  match get_str response "output" with
  | Some text => Some ((if is_empty text then [] else [print (responses_delta id text)]) ++ close)
  | None =>
      get_array response "output" ≫= λ items,
      Some ((print ∘ responses_delta id <$> flat_map part_texts items) ++ close)
  end.
Definition responses_json_to_sse (bytes : string) : option string :=
  from_str bytes ≫= λ response,
  String.concat EmptyString <$> (fmap sse_frame <$> responses_payloads response).

(** [ollama_chat_json_to_sse]. *)
Definition ollama_payloads (v : value) (response_id : string) (created : Z) : list string :=
  let model := default "ollama"%string (get_str v "model") in
  let chunk c := chat_chunk response_id (Num (num created)) model [c] None in
  let content := default EmptyString (get_in (json_get v "message") "content" ≫= json_as_str) in
  (if is_empty content then [] else [print (chunk (content_choice 0 content))])
  ++ (if bool_decide (json_get v "done" ≫= json_as_bool = Some true)
      then [print (chunk (chunk_choice 0 (Obj []) (default (Str "stop") (json_get v "done_reason"))));
            "[DONE]"%string]
      else []).
Definition ollama_chat_json_to_sse (payload response_id : string) (created : Z) : option string :=
  from_str payload ≫= λ v,
  match ollama_payloads v response_id created with
  | [] => None
  | ps => Some (String.concat EmptyString (sse_frame <$> ps))
  end.

(** ** Rewriting the text of a payload *)
Definition rewrite_choice (replacement : string) (choice : value) : value :=
  update_key "delta" (with_object (λ kvs,
    match map_get kvs "content" with
    | Some _ => map_insert "content" (Str replacement) kvs
    | None => kvs
    end)) choice.
Definition rewrite_chat_completion_delta_text (payload replacement : string) : option string :=
  from_str payload ≫= λ v,
  get_array v "choices" ≫= λ cs,
  Some (print (update_key "choices" (λ _, Arr (rewrite_choice replacement <$> cs)) v)).
Definition rewrite_responses_delta_text (payload replacement : string) : option string :=
  from_str payload ≫= λ v,
  get_str v "type" ≫= λ t,
  if String.eqb t "response.output_text.delta" then
    Some (print (with_object (map_insert "delta" (Str replacement)) v))
  else if String.eqb t "response.output_text.done" then
    Some (print (with_object (map_insert "text" (Str replacement)) v))
  else None.
Definition rewrite_messages_delta_text (payload replacement : string) : option string :=
  from_str payload ≫= λ v,
  if bool_decide (get_str v "type" = Some "content_block_delta"%string) then
    json_get v "delta" ≫= λ d,
    json_as_object d ≫= λ kvs,
    if bool_decide (get_str d "type" = Some "text_delta"%string)
    then Some (print (update_key "delta" (with_object (map_insert "text" (Str replacement))) v))
    else None
  else None.
End payloads.

(** ** Framing does not depend on the chunks *)

(** A consumer that appends each chunk to its buffer and drains the frames. *)
Fixpoint feed (buffer : chunk) (chunks : list chunk) : list string * chunk :=
  match chunks with
  | [] => ([], buffer)
  | c :: chunks =>
      let '(ps, rest) := drain_sse_data_frames (buffer ++ c) in
      let '(qs, last) := feed rest chunks in (ps ++ qs, last)
  end.

Lemma split_frame_cons x y l :
  split_frame (x :: y :: l)
  = if Ascii.eqb x LF && Ascii.eqb y LF then Some ([x; y], l)
    else match split_frame (y :: l) with Some (f, r) => Some (x :: f, r) | None => None end.
Proof. done. Qed.

Lemma split_frame_app a b f r : split_frame a = Some (f, r) → split_frame (a ++ b) = Some (f, r ++ b).
Proof.
  revert f r. induction a as [|x a IH]; intros f r; [done|]. destruct a as [|y a]; [done|].
  rewrite <- !app_comm_cons, !split_frame_cons. rewrite <- app_comm_cons in IH.
  destruct (_ && _); [by intros [= <- <-]|].
  destruct (split_frame (y :: a)) as [[f' r']|] eqn:E; [|done]. intros [= <- <-].
  by rewrite (IH f' r' eq_refl).
Qed.
Lemma split_frame_length l f r : split_frame l = Some (f, r) → length r < length l.
Proof.
  revert f r. induction l as [|x l IH]; intros f r; [done|]. destruct l as [|y l]; [done|].
  rewrite split_frame_cons. destruct (_ && _); [intros [= <- <-]; simpl; lia|].
  destruct (split_frame (y :: l)) as [[f' r']|] eqn:E; [|done]. intros [= <- <-].
  specialize (IH f' r' eq_refl). simpl in *. lia.
Qed.

Lemma drain_fuel fuel l : length l ≤ fuel → drain_frames fuel l = drain_sse_data_frames l.
Proof.
  unfold drain_sse_data_frames. remember (length l) as n eqn:Hn. revert l fuel Hn.
  induction (lt_wf n) as [n _ IH]. intros l fuel -> Hf.
  destruct fuel as [|fuel]; [destruct l; [done|simpl in Hf; lia]|].
  destruct l as [|x l]; [done|]. cbn [drain_frames length].
  destruct (split_frame (x :: l)) as [[f r]|] eqn:E; [|done]. apply split_frame_length in E. simpl in E, Hf.
  assert (Hlt : length r < length (x :: l)) by (simpl; lia).
  by rewrite (IH _ Hlt r fuel), (IH _ Hlt r (length l)) by (done || lia).
Qed.
Lemma drain_step l f r :
  split_frame l = Some (f, r) →
  drain_sse_data_frames l
  = let '(ps, rest) := drain_sse_data_frames r in
    (match parse_sse_data_frame f with Some p => p :: ps | None => ps end, rest).
Proof.
  intros E. pose proof (split_frame_length _ _ _ E) as Hl. unfold drain_sse_data_frames at 1.
  destruct l as [|x l]; [done|]. cbn [length drain_frames]. rewrite E, drain_fuel by (simpl in Hl; lia). done.
Qed.
Lemma drain_stuck l : split_frame l = None → drain_sse_data_frames l = ([], l).
Proof. intros E. unfold drain_sse_data_frames. destruct (length l) eqn:Hl; [done|]. simpl. by rewrite E. Qed.

Lemma drain_app a b :
  drain_sse_data_frames (a ++ b)
  = let '(ps, rest) := drain_sse_data_frames a in
    let '(qs, last) := drain_sse_data_frames (rest ++ b) in (ps ++ qs, last).
Proof.
  remember (length a) as n eqn:Hn. revert a Hn. induction (lt_wf n) as [n _ IH]. intros a ->.
  destruct (split_frame a) as [[f r]|] eqn:E.
  - rewrite (drain_step _ _ _ E), (drain_step _ _ _ (split_frame_app _ b _ _ E)).
    rewrite (IH (length r)) by (done || by eapply split_frame_length).
    destruct (drain_sse_data_frames r) as [ps rest]. destruct (drain_sse_data_frames (rest ++ b)).
    by destruct (parse_sse_data_frame f).
  - rewrite (drain_stuck _ E). by destruct (drain_sse_data_frames (a ++ b)).
Qed.
Lemma drain_rest l : split_frame (drain_sse_data_frames l).2 = None.
Proof.
  remember (length l) as n eqn:Hn. revert l Hn. induction (lt_wf n) as [n _ IH]. intros l ->.
  destruct (split_frame l) as [[f r]|] eqn:E; [|by rewrite (drain_stuck _ E)].
  rewrite (drain_step _ _ _ E). apply split_frame_length in E. specialize (IH _ E r eq_refl).
  by destruct (drain_sse_data_frames r).
Qed.

Lemma feed_drain buffer chunks :
  split_frame buffer = None → feed buffer chunks = drain_sse_data_frames (buffer ++ concat chunks).
Proof.
  revert buffer. induction chunks as [|c chunks IH]; intros buffer Hb; simpl.
  - rewrite app_nil_r. by rewrite drain_stuck.
  - rewrite (assoc_L (++)), (drain_app (buffer ++ c)).
    pose proof (drain_rest (buffer ++ c)) as Hr.
    destruct (drain_sse_data_frames (buffer ++ c)) as [ps rest]. simpl in Hr. by rewrite IH.
Qed.

(** Framing does not depend on how the stream is cut: whatever chunks the
    bytes arrive in, the consumer gets the payloads, in order, of the whole
    stream, none twice and none lost, and ends with the bytes of the unfinished
    frame. *)
Theorem sse_chunking_invariant chunks :
  feed [] chunks = drain_sse_data_frames (concat chunks)
  ∧ split_frame (feed [] chunks).2 = None.
Proof. rewrite feed_drain by done. split; [done|apply drain_rest]. Qed.

(** ** What is encoded is decoded *)
Definition no_eol (s : string) : bool :=
  forallb (λ a, negb (Ascii.eqb a LF) && negb (Ascii.eqb a CR)) (list_ascii_of_string s).
(** A payload of one line, as JSON text is. *)
Definition payload_ok (p : string) : Prop :=
  utf8_ok (list_ascii_of_string p) = true ∧ no_eol p = true ∧ trim p = p.

Lemma list_ascii_app s t :
  list_ascii_of_string (s ++ t)%string = list_ascii_of_string s ++ list_ascii_of_string t.
Proof. induction s as [|a s IH]; simpl; [done|]. by rewrite IH. Qed.

Lemma utf8_ok_app a b : utf8_ok a = true → utf8_ok (a ++ b) = utf8_ok b.
Proof.
  remember (length a) as n eqn:Hn. revert a Hn. induction (lt_wf n) as [n _ IH]. intros a ->.
  destruct a as [|x a]; [done|]. simpl in *.
  destruct (seq_width (code x)) as [|[|[|[|[|?]]]]]; try done.
  - intros Ha. apply (IH (length a)); [lia|done..].
  - destruct a as [|y a]; [done|]. simpl. rewrite andb_true_iff. intros [-> Ha].
    apply (IH (length a)); [simpl; lia|done..].
  - destruct a as [|y [|z a]]; try done. simpl. rewrite !andb_true_iff. intros [[-> ->] Ha].
    apply (IH (length a)); [simpl; lia|done..].
  - destruct a as [|y [|z [|t a]]]; try done. simpl. rewrite !andb_true_iff. intros [[[-> ->] ->] Ha].
    apply (IH (length a)); [simpl; lia|done..].
Qed.

Lemma split_frame_line l rest :
  Forall (λ a, a ≠ LF) l → split_frame (l ++ LF :: LF :: rest) = Some (l ++ [LF; LF], rest).
Proof.
  induction 1 as [|x l Hx Hl IH]; [done|]. simpl app.
  destruct (l ++ LF :: LF :: rest) as [|y l'] eqn:E; [by destruct l|].
  rewrite split_frame_cons, IH. rewrite (proj2 (Ascii.eqb_neq x LF)) by done. done.
Qed.

Lemma lines_from_app rl s t :
  Forall (λ a, a ≠ LF) (list_ascii_of_string s) →
  lines_from rl (s ++ t)%string = lines_from (reverse (list_ascii_of_string s) ++ rl) t.
Proof.
  revert rl. induction s as [|a s IH]; intros rl Hs; [done|].
  apply Forall_cons in Hs as [Ha Hs]. simpl. rewrite (proj2 (Ascii.eqb_neq a LF)) by done.
  rewrite IH by done. by rewrite reverse_cons, <- (assoc_L (++)).
Qed.
Lemma strip_cr_line s :
  Forall (λ a, a ≠ CR) (list_ascii_of_string s) → strip_cr (reverse (list_ascii_of_string s)) = s.
Proof.
  intros Hs. unfold strip_cr. rewrite <- Forall_reverse in Hs.
  destruct (reverse (list_ascii_of_string s)) as [|a r] eqn:E.
  - apply (f_equal reverse) in E. rewrite reverse_involutive in E. by destruct s.
  - apply Forall_cons in Hs as [Ha _]. rewrite (proj2 (Ascii.eqb_neq a CR)) by done.
    rewrite <- E, reverse_involutive. apply string_of_list_ascii_of_string.
Qed.
Lemma no_eol_Forall s :
  no_eol s = true → Forall (λ a, a ≠ LF) (list_ascii_of_string s)
                    ∧ Forall (λ a, a ≠ CR) (list_ascii_of_string s).
Proof.
  unfold no_eol. rewrite forallb_forall, !Forall_forall. intros Hs.
  split; intros x Hx%list_elem_of_In ->; by apply Hs in Hx.
Qed.
(** A line and what follows it. *)
Lemma lines_cons s t :
  no_eol s = true → str_lines (s ++ String LF t)%string = s :: str_lines t.
Proof.
  intros [Hl Hc]%no_eol_Forall. unfold str_lines. rewrite lines_from_app by done. rewrite app_nil_r.
  cbn [lines_from]. rewrite Ascii.eqb_refl. by rewrite strip_cr_line.
Qed.
Lemma data_line_prefix p : trim p = p → data_line ("data: " ++ p)%string = Some p.
Proof.
  intros Hp. unfold data_line. change (strip_prefix "data:" ("data: " ++ p)) with (Some (String " " p)).
  f_equal. exact Hp.
Qed.
Lemma no_eol_data p : no_eol ("data: " ++ p)%string = no_eol p.
Proof. done. Qed.

Lemma utf8_text_app s t :
  utf8_ok (list_ascii_of_string s) = true →
  utf8_ok (list_ascii_of_string (s ++ t)%string) = utf8_ok (list_ascii_of_string t).
Proof. intros Hs. by rewrite list_ascii_app, utf8_ok_app. Qed.
Lemma parse_text s :
  utf8_ok (list_ascii_of_string s) = true →
  parse_sse_data_frame (list_ascii_of_string s)
  = match omap data_line (str_lines s) with
    | [] => None
    | ls => Some (String.concat (String LF EmptyString) ls)
    end.
Proof.
  intros Hs. unfold parse_sse_data_frame, from_utf8. rewrite Hs. simpl.
  by rewrite string_of_list_ascii_of_string.
Qed.

Lemma parse_encoded p : payload_ok p → parse_sse_data_frame (encode_sse_data_frame p) = Some p.
Proof.
  intros (Hu&Hn&Ht). unfold encode_sse_data_frame, sse_frame.
  rewrite parse_text by (by rewrite !utf8_text_app).
  rewrite <- string_app_assoc, lines_cons by by rewrite no_eol_data.
  cbn [omap list_omap]. by rewrite data_line_prefix.
Qed.
Lemma drain_encoded p rest :
  payload_ok p →
  drain_sse_data_frames (encode_sse_data_frame p ++ rest)
  = (p :: (drain_sse_data_frames rest).1, (drain_sse_data_frames rest).2).
Proof.
  intros Hp. assert (Hs : split_frame (encode_sse_data_frame p ++ rest) = Some (encode_sse_data_frame p, rest)).
  { unfold encode_sse_data_frame, sse_frame. rewrite <- string_app_assoc, list_ascii_app.
    rewrite <- (assoc_L (++)). apply split_frame_line. apply no_eol_Forall. rewrite no_eol_data. apply Hp. }
  rewrite (drain_step _ _ _ Hs), parse_encoded by done. by destruct (drain_sse_data_frames rest).
Qed.

Lemma feed_encoded ps chunks :
  Forall payload_ok ps → concat chunks = concat (encode_sse_data_frame <$> ps) →
  feed [] chunks = (ps, []).
Proof.
  intros Hps Hc. rewrite feed_drain by done. rewrite app_nil_l, Hc. clear Hc.
  induction Hps as [|p ps Hp _ IH]; [done|]. cbn [fmap list_fmap concat].
  rewrite drain_encoded by done. by rewrite IH.
Qed.

(** What is encoded is decoded: frames of one-line payloads, cut into any
    chunks, come back as exactly those payloads, with no byte left. *)
Theorem sse_roundtrip ps chunks :
  Forall payload_ok ps → concat chunks = concat (encode_sse_data_frame <$> ps) →
  feed [] chunks = (ps, []).
Proof. apply feed_encoded. Qed.
Lemma sse_roundtrip_witness :
  feed [] [list_ascii_of_string "data: {}"; [LF]; [LF]] = (["{}"%string], []).
Proof.
  apply (sse_roundtrip ["{}"%string] [list_ascii_of_string "data: {}"; [LF]; [LF]]); [|reflexivity].
  repeat constructor.
Defined.

(** ** What is not framed *)

(** A payload of several lines does not survive re-encoding: a frame with two
    data lines is read as one payload, but the frame written for that payload
    carries only its first line as data, so a reader gets the first line alone. *)
Theorem multiline_reencoding_loses a b :
  payload_ok a → payload_ok b → strip_prefix "data:" b = None →
  let frame := list_ascii_of_string
    ("data: " ++ a ++ String LF ("data: " ++ b ++ String LF (String LF EmptyString)))%string in
  let payload := (a ++ String LF b)%string in
  parse_sse_data_frame frame = Some payload
  ∧ parse_sse_data_frame (encode_sse_data_frame payload) = Some a ∧ a ≠ payload.
Proof.
  intros (Hua&Hna&Hta) (Hub&Hnb&Htb) Hd. cbv zeta. unfold encode_sse_data_frame, sse_frame. split_and!.
  - rewrite parse_text.
    2:{ rewrite !utf8_text_app by done. change (String LF (?x)) with (String LF EmptyString ++ x)%string.
        by rewrite !utf8_text_app. }
    rewrite <- string_app_assoc, lines_cons by by rewrite no_eol_data.
    rewrite <- string_app_assoc, lines_cons by by rewrite no_eol_data.
    cbn [omap list_omap]. by rewrite !data_line_prefix.
  - rewrite string_app_assoc. change (String LF b ++ ?x)%string with (String LF EmptyString ++ b ++ x)%string.
    rewrite parse_text by (by rewrite !utf8_text_app).
    change (String LF EmptyString ++ ?x)%string with (String LF x).
    rewrite <- string_app_assoc, lines_cons by by rewrite no_eol_data.
    rewrite lines_cons by done. cbn [omap list_omap]. rewrite data_line_prefix by done.
    unfold data_line at 1. by rewrite Hd.
  - intros Heq. apply (f_equal String.length) in Heq. clear -Heq.
    induction a as [|x a IH]; simpl in *; [done|]. injection Heq. apply IH.
Qed.
Lemma multiline_reencoding_loses_witness :
  parse_sse_data_frame (encode_sse_data_frame ("{" ++ String LF "}")%string) = Some "{"%string.
Proof. apply (multiline_reencoding_loses "{" "}"); repeat constructor. Defined.

(** A stream of lines that end in a carriage return and a line feed. *)
Definition crlf_stream (ls : list chunk) : chunk := flat_map (λ l, l ++ [CR; LF]) ls.

Lemma split_frame_crlf l rest :
  Forall (λ a, a ≠ LF) l → split_frame rest = None → hd CR rest ≠ LF →
  split_frame (l ++ CR :: LF :: rest) = None.
Proof.
  intros Hl Hr Hh. assert (Hbase : split_frame (CR :: LF :: rest) = None).
  { rewrite split_frame_cons. simpl andb. cbv iota. destruct rest as [|x rest]; [done|].
    rewrite split_frame_cons, Hr. simpl in Hh. by rewrite (proj2 (Ascii.eqb_neq x LF)). }
  induction Hl as [|x l Hx _ IH]; [done|]. simpl app.
  destruct (l ++ CR :: LF :: rest) as [|y l'] eqn:E; [by destruct l|].
  rewrite split_frame_cons, IH. by rewrite (proj2 (Ascii.eqb_neq x LF)).
Qed.

(** Frames that end in CRLF are never found: of a stream whose lines end in a
    carriage return and a line feed, which the format allows, no payload is ever
    drained, however long it is, and every byte stays in the buffer. *)
Theorem crlf_stream_never_framed ls :
  Forall (Forall (λ a, a ≠ LF)) ls → drain_sse_data_frames (crlf_stream ls) = ([], crlf_stream ls).
Proof.
  intros Hls. apply drain_stuck.
  enough (split_frame (crlf_stream ls) = None ∧ hd CR (crlf_stream ls) ≠ LF) as [? _] by done.
  induction Hls as [|l ls Hl _ [IH Hh]]; [done|]. cbn [crlf_stream flat_map].
  rewrite <- (assoc_L (++)). split; [by apply split_frame_crlf|]. by destruct Hl.
Qed.
Lemma crlf_stream_never_framed_witness :
  drain_sse_data_frames (crlf_stream [list_ascii_of_string "data: {}"; []])
  = ([], crlf_stream [list_ascii_of_string "data: {}"; []]).
Proof. apply (crlf_stream_never_framed [list_ascii_of_string "data: {}"; []]). repeat constructor; discriminate. Defined.

(** ** The counting accumulators count what the others collect *)
Section stats.
Context `{SerdeJson} (from_str : string → option (Value Number)).

Lemma char_count_app s t : char_count (s ++ t)%string = char_count s + char_count t.
Proof.
  unfold char_count. rewrite list_ascii_app, List.filter_app, length_app. done.
Qed.
(** The length of what was collected, with the same finish reason. *)
Definition counted (a : Acc string) : Acc nat := (char_count a.1, a.2).

Lemma chat_choice_counted c a : chat_choice push_count c (counted a) = counted (chat_choice push_str c a).
Proof.
  unfold chat_choice, counted. simpl. destruct (get_in _ _ ≫= _); [|done].
  unfold push_count, push_str. by rewrite char_count_app.
Qed.
Lemma fold_choices_counted cs a : fold_choices push_count cs (counted a) = counted (fold_choices push_str cs a).
Proof.
  unfold fold_choices. revert a. induction cs as [|c cs IH]; intros a; simpl; [done|].
  by rewrite chat_choice_counted, IH.
Qed.

(** The counting accumulators agree with the collecting ones: over any payloads
    of a stream, in both formats, the characters counted are those of the text
    collected, and the finish reasons are the same. *)
Theorem stats_agree ps a :
  foldl (λ a p, accumulate_chat_completion_delta_stats from_str p a) (counted a) ps
  = counted (foldl (λ a p, accumulate_chat_completion_delta from_str p a) a ps)
  ∧ foldl (λ a p, accumulate_responses_delta_stats from_str p a) (counted a) ps
    = counted (foldl (λ a p, accumulate_responses_delta from_str p a) a ps).
Proof.
  split; revert a; induction ps as [|p ps IH]; intros a; simpl; try done; rewrite <- IH; f_equal;
    unfold accumulate_chat_completion_delta_stats, accumulate_chat_completion_delta, chat_delta,
      accumulate_responses_delta_stats, accumulate_responses_delta, responses_delta_acc.
  - destruct (String.eqb p "[DONE]"); [done|]. destruct (from_str p) as [v|]; [|done].
    destruct (get_array v "choices"); [apply fold_choices_counted|done].
  - destruct (String.eqb p "[DONE]"); [done|]. destruct (from_str p) as [v|]; [|done].
    destruct (get_str v "type"); [|done].
    repeat case_match; try done; unfold counted, push_count, push_str; simpl; by rewrite char_count_app.
Qed.
End stats.
