(* ===== verification/Streaming.v ===== *)
(** * Streaming: governance of streamed output
    (src/src/gateway/request_pipeline/streaming.rs, and
    [evaluate_streaming_blocking_policy] of responses_part1.rs)

    The plan that a chain of policies requires, the decision on one semantic
    unit, and the governor that buffers units and emits only what was decided.
    Regular expressions, JSON and the hash are arguments, as in the components
    this one calls. *)

From Stdlib Require Import ZArith Ascii String.
From stdpp Require Import base gmap strings list.
From S2P Require Import Prelude Text Lww Policy ToolCalls Detection Redaction Sse.

#[local] Arguments String.append : simpl nomatch.

Inductive StreamingOutputMode := Passthrough | BufferedPolicy | BufferedRedaction.
#[export] Instance StreamingOutputMode_eq_dec : EqDecision StreamingOutputMode.
Proof. solve_decision. Defined.
Definition mode_str (m : StreamingOutputMode) : string :=
  match m with
  | Passthrough => "passthrough"
  | BufferedPolicy => "buffered_policy"
  | BufferedRedaction => "buffered_redaction"
  end.
Definition parse_mode (s : string) : option StreamingOutputMode :=
  if String.eqb s "passthrough" then Some Passthrough
  else if String.eqb s "buffered_policy" then Some BufferedPolicy
  else if String.eqb s "buffered_redaction" then Some BufferedRedaction else None.

Inductive StreamingSemanticUnitKind := SseEvent | CompleteResponse.
#[export] Instance UnitKind_eq_dec : EqDecision StreamingSemanticUnitKind.
Proof. solve_decision. Defined.

Inductive StreamTerminationReason :=
| Completed
| PolicyBlock (reason_code : string)
| PolicyRedactApplied (reason_code : string)
| UpstreamInterrupted (reason_code : string)
| ClientDisconnected
| StartupRejected (reason_code : string).
Definition termination_str (t : StreamTerminationReason) : string :=
  match t with
  | Completed => "stream.completed"
  | PolicyBlock r | PolicyRedactApplied r | UpstreamInterrupted r | StartupRejected r => r
  | ClientDisconnected => "stream.client_disconnected"
  end.
Definition is_policy_terminal (t : StreamTerminationReason) : bool :=
  match t with PolicyBlock _ | PolicyRedactApplied _ | StartupRejected _ => true | _ => false end.

Record StreamingStartupError := mkStartupError {
  se_reason_code : string;
  se_message : string;
  se_policy_kind : option string;
}.
Record StreamingEnforcementPlan := mkPlan {
  mode : StreamingOutputMode;
  semantic_unit : StreamingSemanticUnitKind;
  requires_block_check : bool;
  requires_redaction : bool;
  driving_policies : list string;
}.
Inductive StreamingUnitDecision :=
| DAllow (emit_payload : string)
| DRedact (emit_payload reason_code : string)
| DBlock (reason_code message : string)
| DHold.
Inductive StreamingEmission :=
| Frame (bytes : string)
| TerminalError (reason_code body : string).

Definition STREAMING_UNENFORCEABLE_OUTPUT_POLICIES : list string :=
  ["language-validator"; "flagged-review"]%string.
Definition in_list (s : string) (l : list string) : bool := existsb (String.eqb s) l.
Definition BLOCK_BUFFERING : list string :=
  ["citation-verifier"; "mnpi-filter"; "financial-compliance"; "healthcare-compliance";
   "legal-privilege"; "upl-filter"; "bias-monitor"; "quality-scorer"; "human-oversight";
   "safety-filter"; "itar-ear-filter"; "entity-list-filter"; "dual-use-filter";
   "response-rewriter"; "agent-firewall"]%string.
Definition policy_requires_block_buffering (kind : string) : bool := in_list kind BLOCK_BUFFERING.

Section streaming.
Context `{SerdeJson} `{Regexes}.
Abbreviation value := (Value Number).
(** [PolicyBlocks]. *)
Abbreviation blocks := (list (string * value)).
Variable from_str : string → option value.
Variable num : Z → Number.
(** [regex_lite::Regex::new] with [is_match], and [regex_lite::escape]. *)
Variable regex : string → option (string → bool).
Variable escape : string → string.
Variable sha256_hex : string → string.
Variable cities : list string.

(** ** The plan *)
Definition action_of (b : blocks) (kind dflt : string) : string :=
  default dflt (get_in (map_get b kind) "action" ≫= json_as_str).
Definition policy_requires_redaction (kind : string) (b : blocks) : bool :=
  if in_list kind ["pii-detector"; "hipaa-phi-detector"]%string then
    negb (String.eqb (action_of b kind "redact") "off")
  else if in_list kind ["dlp-filter"; "student-privacy"]%string then
    String.eqb (action_of b kind "redact") "redact"
  else if String.eqb kind "case-privacy" then true
  else if String.eqb kind "dual-use-filter" then String.eqb (action_of b kind "block") "redact"
  else false.
Definition language_validator_requires_output (b : blocks) : bool :=
  match get_in (map_get b "language-validator") "apply_to" ≫= json_as_str with
  | Some a => String.eqb a "output" || String.eqb a "both"
  | None => false
  end.
Definition unenforceable_streaming_policy (chain : list string) (b : blocks) : option string :=
  List.find (λ kind,
    (String.eqb kind "language-validator" && language_validator_requires_output b)
    || (in_list kind STREAMING_UNENFORCEABLE_OUTPUT_POLICIES
        && negb (String.eqb kind "language-validator"))) chain.

(** The loop over the chain: redaction, block check, driving policies. *)
Fixpoint scan_chain (chain : list string) (b : blocks) (acc : bool * bool * list string) :
    bool * bool * list string :=
  match chain with
  | [] => acc
  | kind :: chain =>
      let '(redaction, block, driving) := acc in
      scan_chain chain b
        (if policy_requires_redaction kind b then (true, block, driving ++ [kind])
         else if policy_requires_block_buffering kind then (redaction, true, driving ++ [kind])
         else acc)
  end.
Definition plan_streaming_enforcement (chain : list string) (b : blocks) :
    Result StreamingEnforcementPlan StreamingStartupError :=
  match unenforceable_streaming_policy chain b with
  | Some kind =>
      Err (mkStartupError "streaming.policy_cannot_enforce"
             ("policy '" ++ kind ++ "' cannot enforce output decisions for streaming responses") (Some kind))
  | None =>
      let '(redaction, block, driving) := scan_chain chain b (false, false, []) in
      let '(m, u) := if redaction then (BufferedRedaction, CompleteResponse)
                     else if block then (BufferedPolicy, SseEvent) else (Passthrough, SseEvent) in
      Ok (mkPlan m u block redaction driving)
  end.
Definition compatible (selected required : StreamingOutputMode) : bool :=
  match selected, required with
  | Passthrough, Passthrough => true
  | BufferedPolicy, (Passthrough | BufferedPolicy) => true
  | BufferedRedaction, _ => true
  | _, _ => false
  end.
Definition validate_streaming_mode_startup (chain : list string) (b : blocks)
    (selected : StreamingOutputMode) : Result StreamingEnforcementPlan StreamingStartupError :=
  match plan_streaming_enforcement chain b with
  | Err e => Err e
  | Ok required =>
      if compatible selected (mode required) then
        Ok (mkPlan selected
              (match selected with
               | BufferedRedaction => CompleteResponse
               | _ => if bool_decide (semantic_unit required = CompleteResponse)
                      then CompleteResponse else SseEvent
               end)
              (requires_block_check required || negb (bool_decide (selected = Passthrough)))
              (requires_redaction required || bool_decide (selected = BufferedRedaction))
              (driving_policies required))
      else
        Err (mkStartupError "streaming.mode_unenforceable"
               ("selected streaming mode '" ++ mode_str selected ++ "' cannot enforce required mode '"
                ++ mode_str (mode required) ++ "' for policies ["
                ++ String.concat ", " (driving_policies required) ++ "]")
               (head (driving_policies required)))
  end.

(** ** The blocking policies of a stream *)
Definition term_matches (lower term : string) : bool :=
  let needle := to_ascii_lowercase (trim term) in
  if is_empty needle then false
  else match regex ("(?i)\b" ++ escape needle ++ "\b")%string with
       | Some is_match => is_match lower
       | None => str_contains needle lower
       end.
Definition strings_at (cfg : value) (key : string) : list string :=
  match json_get cfg key ≫= json_as_array with Some vs => omap json_as_str vs | None => [] end.
Definition safety_defaults (m : string) : list string :=
  if String.eqb m "automotive" then ["disable airbags"; "bypass brakes"; "tamper"]
  else if String.eqb m "education" then ["self-harm"; "suicide"]
  else if String.eqb m "law_enforcement" then ["doxx"; "target"]
  else ["explosive"; "weapon"; "attack"]%string.
Definition blocked (kind reason : string) (details : list (string * value)) : PolicyResult Number :=
  mkPolicyResult kind "output" Block reason (Some (Obj details)) None.
Definition evaluate_safety (b : blocks) (lower : string) : option (PolicyResult Number) :=
  map_get b "safety-filter" ≫= λ cfg,
  let m := default "critical_infrastructure"%string (json_get cfg "mode" ≫= json_as_str) in
  let action := default "block"%string (json_get cfg "action" ≫= json_as_str) in
  if String.eqb action "escalate" then None else
  let block_if := strings_at cfg "block_if" in
  let block_if := match block_if with [] => safety_defaults m | _ => block_if end in
  List.find (term_matches lower) block_if ≫= λ matched,
  Some (blocked "safety-filter" ("safety.triggered." ++ m)
          [("action", Str action); ("matched", Str matched); ("mode", Str m); ("streaming", Bool true)]%string).
Definition default_terms (kind : string) : list string :=
  if String.eqb kind "itar-ear-filter" then ["itar"; "ear"; "usml"; "eccn"]
  else if String.eqb kind "dual-use-filter" then ["weapon"; "explosive"; "bioweapon"; "nerve agent"]
  else []%string.
Definition evaluate_terms (kind : string) (b : blocks) (lower : string) : option (PolicyResult Number) :=
  map_get b kind ≫= λ cfg,
  let '(key, prefix) :=
    (if String.eqb kind "entity-list-filter" then ("blocked_entities", "entity_list")
     else if String.eqb kind "itar-ear-filter" then ("blocked_terms", "export_controls")
     else ("blocked_terms", "dual_use"))%string in
  let terms := strings_at cfg key in
  let terms := match terms with [] => default_terms kind | _ => terms end in
  let action := default "block"%string (json_get cfg "action" ≫= json_as_str) in
  if String.eqb kind "dual-use-filter" && String.eqb action "redact" then None else
  List.find (term_matches lower) terms ≫= λ matched,
  Some (blocked kind (prefix ++ ".triggered")
          [("action", Str action); ("matched", Str matched); ("streaming", Bool true)]%string).
Definition evaluate_kind (kind : string) (b : blocks) (lower : string) : option (PolicyResult Number) :=
  if String.eqb kind "safety-filter" then evaluate_safety b lower
  else if in_list kind ["itar-ear-filter"; "entity-list-filter"; "dual-use-filter"]%string
  then evaluate_terms kind b lower else None.
Fixpoint evaluate_chain (chain : list string) (b : blocks) (lower : string) : option (PolicyResult Number) :=
  match chain with
  | [] => None
  | kind :: chain =>
      match evaluate_kind kind b lower with Some r => Some r | None => evaluate_chain chain b lower end
  end.
Definition evaluate_streaming_blocking_policy (chain : list string) (b : blocks) (text : string) :
    option (PolicyResult Number) := evaluate_chain chain b (to_ascii_lowercase text).

(** ** The decision on a unit *)
Definition rewrite_unit_text (f : StreamingFamily) (payload replacement : string) : option string :=
  match f with
  | ChatCompletions => rewrite_chat_completion_delta_text from_str payload replacement
  | Responses => rewrite_responses_delta_text from_str payload replacement
  | Messages => rewrite_messages_delta_text from_str payload replacement
  end.
(** The redaction of the text of the whole stream. *)
Definition redacted_output (b : blocks) (text : string) :
    string * list VerdictanRedaction * list RedactionTarget :=
  redact_with_metadata_and_targets_with_config sha256_hex cities text
    (from_policy_block (map_get b "pii-detector")) "streaming.output".
Definition redacted_payload (f : StreamingFamily) (unit : SseSemanticUnit) (redacted : string) : string :=
  match f with
  | Messages => messages_text_to_sse num "msg_verdictan_buffered" redacted
                  (default "end_turn"%string (u_finish_reason unit))
  | ChatCompletions | Responses => default redacted (rewrite_unit_text f (u_payload unit) redacted)
  end.
Definition decide_streaming_unit (plan : StreamingEnforcementPlan) (chain : list string) (b : blocks)
    (f : StreamingFamily) (unit : SseSemanticUnit) (text : string) (finished : bool) :
    StreamingUnitDecision :=
  let verdict :=
    if requires_block_check plan || bool_decide (mode plan = BufferedPolicy)
    then evaluate_streaming_blocking_policy chain b text else None in
  match verdict with
  | Some r => DBlock (reason_code r) "Streaming response blocked by output policy"
  | None =>
      match mode plan with
      | Passthrough => DAllow (u_payload unit)
      | BufferedPolicy => if is_terminal unit && negb finished then DHold else DAllow (u_payload unit)
      | BufferedRedaction =>
          if negb finished then DHold
          else
            let '(redacted, _, targets) := redacted_output b text in
            let emit := redacted_payload f unit redacted in
            match targets with [] => DAllow emit | _ => DRedact emit "redact.applied" end
      end
  end.

Definition emission_from_payload (payload : string) : StreamingEmission :=
  if str_contains (String LF (String LF "data:")) payload || String.prefix "data:" payload
  then Frame payload else Frame (sse_frame payload).

(** ** The governor *)
Record StreamingOutputGovernor := mkGovernor {
  g_family : StreamingFamily;
  g_plan : StreamingEnforcementPlan;
  g_chain : list string;
  g_blocks : blocks;
  parser_buffer : chunk;
  accumulated_text : string;
  g_finish_reason : option string;
  held_units : list SseSemanticUnit;
  termination : option StreamTerminationReason;
  units_emitted : nat;
}.
Definition governor_new (f : StreamingFamily) (plan : StreamingEnforcementPlan) (chain : list string)
    (b : blocks) : StreamingOutputGovernor :=
  mkGovernor f plan chain b [] EmptyString None [] None 0.
Definition with_buffer buf (g : StreamingOutputGovernor) : StreamingOutputGovernor :=
  mkGovernor (g_family g) (g_plan g) (g_chain g) (g_blocks g) buf (accumulated_text g)
    (g_finish_reason g) (held_units g) (termination g) (units_emitted g).
Definition with_text text reason (g : StreamingOutputGovernor) : StreamingOutputGovernor :=
  mkGovernor (g_family g) (g_plan g) (g_chain g) (g_blocks g) (parser_buffer g) text reason
    (held_units g) (termination g) (units_emitted g).
Definition with_held held (g : StreamingOutputGovernor) : StreamingOutputGovernor :=
  mkGovernor (g_family g) (g_plan g) (g_chain g) (g_blocks g) (parser_buffer g) (accumulated_text g)
    (g_finish_reason g) held (termination g) (units_emitted g).
Definition terminate t (g : StreamingOutputGovernor) : StreamingOutputGovernor :=
  mkGovernor (g_family g) (g_plan g) (g_chain g) (g_blocks g) (parser_buffer g) (accumulated_text g)
    (g_finish_reason g) (held_units g) (Some t) (units_emitted g).
Definition emitted n (g : StreamingOutputGovernor) : StreamingOutputGovernor :=
  mkGovernor (g_family g) (g_plan g) (g_chain g) (g_blocks g) (parser_buffer g) (accumulated_text g)
    (g_finish_reason g) (held_units g) (termination g) (units_emitted g + n).

(** The body of a terminal error. *)
Definition block_body (reason message : string) : string :=
  sse_frame (print (Obj
    [("error", Obj [("code", Str "content_policy_violation"); ("message", Str message);
                    ("type", Str "invalid_request_error")]);
     ("verdictan", Obj [("reason_code", Str reason); ("streaming_termination_reason", Str reason);
                        ("verdict", Str "BLOCK")])]%string)).

(** One round of the loop of [ingest_chunk]: the governor, its emissions, and
    whether the loop returns. *)
Definition ingest_payload (g : StreamingOutputGovernor) (payload : string) :
    StreamingOutputGovernor * list StreamingEmission * bool :=
  match extract_sse_semantic_unit from_str (g_family g) payload with
  | None =>
      if bool_decide (mode (g_plan g) = Passthrough)
      then (emitted 1 g, [Frame (sse_frame payload)], false) else (g, [], false)
  | Some unit =>
      let g := with_text (accumulated_text g ++ text_delta unit)
                 (match u_finish_reason unit with Some r => Some r | None => g_finish_reason g end) g in
      match decide_streaming_unit (g_plan g) (g_chain g) (g_blocks g) (g_family g) unit
              (accumulated_text g) false with
      | DAllow p => (emitted 1 g, [emission_from_payload p], false)
      | DRedact p r => (terminate (PolicyRedactApplied r) (emitted 1 g), [emission_from_payload p], false)
      | DBlock r m => (terminate (PolicyBlock r) g, [TerminalError r (block_body r m)], true)
      | DHold => (with_held (held_units g ++ [unit]) g, [], false)
      end
  end.
Fixpoint ingest_payloads (g : StreamingOutputGovernor) (ps : list string) :
    StreamingOutputGovernor * list StreamingEmission :=
  match ps with
  | [] => (g, [])
  | p :: ps =>
      let '(g, es, stop) := ingest_payload g p in
      if stop then (g, es) else let '(g, es') := ingest_payloads g ps in (g, es ++ es')
  end.
Definition ingest_chunk (g : StreamingOutputGovernor) (c : chunk) :
    StreamingOutputGovernor * list StreamingEmission :=
  match termination g with
  | Some _ => (g, [])
  | None =>
      let '(ps, rest) := drain_sse_data_frames (parser_buffer g ++ c) in
      ingest_payloads (with_buffer rest g) ps
  end.

Definition flush_held (g : StreamingOutputGovernor) : StreamingOutputGovernor * list StreamingEmission :=
  (emitted (length (held_units g)) (with_held [] g),
   emission_from_payload ∘ u_payload <$> held_units g).
Definition finish_stream (g : StreamingOutputGovernor) : StreamingOutputGovernor * list StreamingEmission :=
  match termination g with
  | Some _ => (g, [])
  | None =>
      let unit := mkUnit (g_family g) "[DONE]" EmptyString true (g_finish_reason g) in
      match decide_streaming_unit (g_plan g) (g_chain g) (g_blocks g) (g_family g) unit
              (accumulated_text g) true with
      | DAllow p =>
          if bool_decide (mode (g_plan g) = BufferedRedaction)
          then (terminate Completed (emitted 1 g), [emission_from_payload p])
          else let '(g, es) := flush_held g in (terminate Completed g, es)
      | DRedact p r => (terminate (PolicyRedactApplied r) (emitted 1 g), [emission_from_payload p])
      | DBlock r m => (terminate (PolicyBlock r) g, [TerminalError r (block_body r m)])
      | DHold => let '(g, es) := flush_held g in (terminate Completed g, es)
      end
  end.
Definition mark_upstream_interrupted (reason : string) (g : StreamingOutputGovernor) :
    StreamingOutputGovernor :=
  match termination g with None => terminate (UpstreamInterrupted reason) g | Some _ => g end.
Definition mark_client_disconnected (g : StreamingOutputGovernor) : StreamingOutputGovernor :=
  match termination g with None => terminate ClientDisconnected g | Some _ => g end.

(** A stream that arrives in chunks and ends. *)
Fixpoint ingest_chunks (g : StreamingOutputGovernor) (cs : list chunk) :
    StreamingOutputGovernor * list StreamingEmission :=
  match cs with
  | [] => (g, [])
  | c :: cs =>
      let '(g, es) := ingest_chunk g c in
      let '(g, es') := ingest_chunks g cs in (g, es ++ es')
  end.
Definition govern (g : StreamingOutputGovernor) (cs : list chunk) :
    StreamingOutputGovernor * list StreamingEmission :=
  let '(g, es) := ingest_chunks g cs in
  let '(g, es') := finish_stream g in (g, es ++ es').

(** ** The reference

    The units of a stream, cut at the first one with which the text is blocked. *)
Definition units_of (f : StreamingFamily) (ps : list string) : list SseSemanticUnit :=
  omap (extract_sse_semantic_unit from_str f) ps.
Definition verdict_on (plan : StreamingEnforcementPlan) (chain : list string) (b : blocks) (text : string) :
    option string :=
  if requires_block_check plan || bool_decide (mode plan = BufferedPolicy)
  then reason_code <$> evaluate_streaming_blocking_policy chain b text else None.
Fixpoint pass (v : string → option string) (text : string) (us : list SseSemanticUnit) :
    list SseSemanticUnit * option string :=
  match us with
  | [] => ([], None)
  | u :: us =>
      match v (text ++ text_delta u)%string with
      | Some r => ([], Some r)
      | None => let '(pre, r) := pass v (text ++ text_delta u)%string us in (u :: pre, r)
      end
  end.
Definition text_of (us : list SseSemanticUnit) : string :=
  foldl (λ t u, t ++ text_delta u)%string EmptyString us.
Definition keep_reason (r : option string) (u : SseSemanticUnit) : option string :=
  match u_finish_reason u with Some x => Some x | None => r end.
Definition reason_of (us : list SseSemanticUnit) : option string := foldl keep_reason None us.
Definition holds_back (plan : StreamingEnforcementPlan) (u : SseSemanticUnit) : bool :=
  match mode plan with Passthrough => false | BufferedPolicy => is_terminal u | BufferedRedaction => true end.
Definition frame_of (u : SseSemanticUnit) : StreamingEmission := emission_from_payload (u_payload u).
Definition terminal_error (r : string) : StreamingEmission :=
  TerminalError r (block_body r "Streaming response blocked by output policy").

Lemma ingest_payload_buffer r g p :
  ingest_payload (with_buffer r g) p
  = let '(g', es, stop) := ingest_payload g p in (with_buffer r g', es, stop).
Proof.
  unfold ingest_payload. cbn [g_family with_buffer]. destruct (extract_sse_semantic_unit _ _ _); simpl.
  - by destruct (decide_streaming_unit _ _ _ _ _ _ _).
  - by destruct (bool_decide _).
Qed.
Lemma ingest_payloads_buffer r g ps :
  ingest_payloads (with_buffer r g) ps
  = let '(g', es) := ingest_payloads g ps in (with_buffer r g', es).
Proof.
  revert g. induction ps as [|p ps IH]; intros g; [done|]. cbn [ingest_payloads].
  rewrite ingest_payload_buffer. destruct (ingest_payload g p) as [[g' es] []]; [done|].
  rewrite IH. by destruct (ingest_payloads g' ps).
Qed.

(** The loop stops exactly when it terminates the stream. *)
Lemma ingest_payload_stop g p :
  termination g = None →
  let '(g', _, stop) := ingest_payload g p in stop = bool_decide (is_Some (termination g')).
Proof.
  intros Ht. unfold ingest_payload. destruct (extract_sse_semantic_unit _ _ _) as [u|].
  - destruct (decide_streaming_unit _ _ _ _ _ _ _) as [|p' r| |] eqn:E; simpl; rewrite ?Ht; try done.
    exfalso. unfold decide_streaming_unit in E. repeat case_match; done.
  - destruct (bool_decide _); simpl; by rewrite Ht.
Qed.
Lemma ingest_payloads_app g ps qs :
  termination g = None →
  ingest_payloads g (ps ++ qs)
  = let '(g1, es) := ingest_payloads g ps in
    if bool_decide (is_Some (termination g1)) then (g1, es)
    else let '(g2, es') := ingest_payloads g1 qs in (g2, es ++ es').
Proof.
  revert g. induction ps as [|p ps IH]; intros g Ht; simpl.
  - rewrite Ht. simpl. by destruct (ingest_payloads g qs).
  - pose proof (ingest_payload_stop g p Ht) as Hs. destruct (ingest_payload g p) as [[g' es] stop].
    subst stop. destruct (termination g') eqn:Ht'; simpl; [by rewrite Ht'|]. rewrite IH by done.
    destruct (ingest_payloads g' ps) as [g1 es1]. destruct (bool_decide _); [done|].
    destruct (ingest_payloads g1 qs) as [g2 es2]. by rewrite (assoc_L (++)).
Qed.
Lemma ingest_chunks_done g cs : is_Some (termination g) → ingest_chunks g cs = (g, []).
Proof.
  intros [t Ht]. induction cs as [|c cs IH]; [done|]. cbn [ingest_chunks]. unfold ingest_chunk.
  rewrite Ht. by rewrite IH.
Qed.

(** The governor sees the payloads of the stream, however it is cut. *)
Lemma ingest_chunks_payloads g cs :
  termination g = None → split_frame (parser_buffer g) = None →
  ∃ buf, ingest_chunks g cs
         = let '(g', es) := ingest_payloads g (feed (parser_buffer g) cs).1 in (with_buffer buf g', es).
Proof.
  revert g. induction cs as [|c cs IH]; intros g Ht Hb.
  { exists (parser_buffer g). by destruct g. }
  cbn [ingest_chunks feed]. unfold ingest_chunk. rewrite Ht.
  pose proof (drain_rest (parser_buffer g ++ c)) as Hr.
  destruct (drain_sse_data_frames (parser_buffer g ++ c)) as [ps rest]. simpl in Hr.
  destruct (feed rest cs) as [qs last] eqn:Ef. cbn [fst].
  rewrite ingest_payloads_app, ingest_payloads_buffer by done.
  destruct (ingest_payloads g ps) as [g1 es1] eqn:E1.
  destruct (termination g1) as [t|] eqn:Ht1; rewrite ?bool_decide_true, ?bool_decide_false
    by (eauto || by intros []).
  - exists rest. by rewrite ingest_chunks_done, app_nil_r by (simpl; rewrite Ht1; eauto).
  - destruct (IH (with_buffer rest g1)) as [buf Hbuf]; [done..|]. exists buf. rewrite Hbuf.
    cbn [parser_buffer with_buffer]. rewrite Ef, ingest_payloads_buffer. cbn [fst].
    by destruct (ingest_payloads g1 qs).
Qed.

Lemma decide_verdict plan chain b f u text finished :
  decide_streaming_unit plan chain b f u text finished
  = match verdict_on plan chain b text with
    | Some r => DBlock r "Streaming response blocked by output policy"
    | None =>
        match mode plan with
        | Passthrough => DAllow (u_payload u)
        | BufferedPolicy => if is_terminal u && negb finished then DHold else DAllow (u_payload u)
        | BufferedRedaction =>
            if negb finished then DHold
            else let '(redacted, _, targets) := redacted_output b text in
                 let emit := redacted_payload f u redacted in
                 match targets with [] => DAllow emit | _ => DRedact emit "redact.applied" end
        end
    end.
Proof.
  unfold decide_streaming_unit, verdict_on. destruct (requires_block_check plan || _); [|done].
  by destruct (evaluate_streaming_blocking_policy chain b text).
Qed.

(** What the loop leaves in the governor. *)
Record ran (g : StreamingOutputGovernor) (us : list SseSemanticUnit) (r : option string)
    (g' : StreamingOutputGovernor) : Prop := mkRan {
  ran_family : g_family g' = g_family g;
  ran_plan : g_plan g' = g_plan g;
  ran_chain : g_chain g' = g_chain g;
  ran_blocks : g_blocks g' = g_blocks g;
  ran_termination : termination g' = PolicyBlock <$> r;
  ran_text : r = None → accumulated_text g' = foldl (λ t u, t ++ text_delta u)%string (accumulated_text g) us;
  ran_reason : r = None → g_finish_reason g' = foldl keep_reason (g_finish_reason g) us;
  ran_held : r = None → held_units g' = held_units g ++ List.filter (holds_back (g_plan g)) us;
}.

(** One payload in a buffered mode. *)
Lemma buffered_step g p u :
  mode (g_plan g) ≠ Passthrough →
  extract_sse_semantic_unit from_str (g_family g) p = Some u →
  let text := (accumulated_text g ++ text_delta u)%string in
  let g1 := with_text text (keep_reason (g_finish_reason g) u) g in
  ingest_payload g p
  = match verdict_on (g_plan g) (g_chain g) (g_blocks g) text with
    | Some r => (terminate (PolicyBlock r) g1, [terminal_error r], true)
    | None => if holds_back (g_plan g) u then (with_held (held_units g ++ [u]) g1, [], false)
              else (emitted 1 g1, [frame_of u], false)
    end.
Proof.
  intros Hm He. cbv zeta. unfold ingest_payload. rewrite He, decide_verdict.
  cbn [with_text g_plan g_chain g_blocks g_family accumulated_text].
  destruct (verdict_on _ _ _ _); [done|]. unfold holds_back, frame_of.
  destruct (mode (g_plan g)); [done| |done]. by destruct (is_terminal u).
Qed.

Lemma buffered_run g ps :
  mode (g_plan g) ≠ Passthrough → termination g = None →
  let us := units_of (g_family g) ps in
  let '(pre, r) := pass (verdict_on (g_plan g) (g_chain g) (g_blocks g)) (accumulated_text g) us in
  ∃ g', ingest_payloads g ps
        = (g', (frame_of <$> List.filter (λ u, negb (holds_back (g_plan g) u)) pre)
               ++ match r with Some r => [terminal_error r] | None => [] end)
    ∧ ran g us r g' ∧ (r = None → pre = us).
Proof.
  cbv zeta. revert g. induction ps as [|p ps IH]; intros g Hm Ht.
  { exists g. split_and!; [done| |done]. constructor; try done. intros _. by rewrite app_nil_r. }
  cbn [ingest_payloads units_of omap list_omap].
  destruct (extract_sse_semantic_unit from_str (g_family g) p) as [u|] eqn:E.
  2:{ unfold ingest_payload. rewrite E, bool_decide_false by done.
      specialize (IH g Hm Ht). unfold units_of in IH. destruct (pass _ _ _) as [pre r].
      destruct IH as (g'&->&?&?). by exists g'. }
  cbn [pass]. rewrite (buffered_step g p u Hm E).
  destruct (verdict_on _ _ _ _) as [r|] eqn:Ev.
  { eexists. split_and!; [reflexivity| |done]. by constructor. }
  set (g1 := with_text (accumulated_text g ++ text_delta u) (keep_reason (g_finish_reason g) u) g).
  set (g2 := if holds_back (g_plan g) u then with_held (held_units g ++ [u]) g1 else emitted 1 g1).
  specialize (IH g2). unfold units_of in IH.
  assert (Hg2 : g_family g2 = g_family g ∧ g_plan g2 = g_plan g ∧ g_chain g2 = g_chain g
    ∧ g_blocks g2 = g_blocks g ∧ accumulated_text g2 = (accumulated_text g ++ text_delta u)%string
    ∧ g_finish_reason g2 = keep_reason (g_finish_reason g) u ∧ termination g2 = None
    ∧ held_units g2 = held_units g ++ if holds_back (g_plan g) u then [u] else []).
  { unfold g2. destruct (holds_back (g_plan g) u); simpl; split_and!; rewrite ?app_nil_r; done. }
  destruct Hg2 as (H1&H2&H3&H4&H5&H6&H7&H8). rewrite H1, H2, H3, H4, H5 in IH.
  destruct (pass _ _ _) as [pre r]. destruct IH as (g'&Hi&[R1 R2 R3 R4 R5 R6 R7 R8]&Hp); [done..|].
  exists g'. split_and!.
  - unfold g2 in Hi. cbn [List.filter]. destruct (holds_back (g_plan g) u); simpl; by rewrite Hi.
  - constructor; try congruence; intros Hr; rewrite ?R6, ?R7, ?R8 by done.
    + by rewrite H5.
    + by rewrite H6.
    + rewrite H8, H2. cbn [List.filter]. rewrite <- (assoc_L (++)). by destruct (holds_back (g_plan g) u).
  - intros Hr. f_equal. by apply Hp.
Qed.

(** What is emitted when the stream ends without having been blocked. *)
Definition closing (plan : StreamingEnforcementPlan) (chain : list string) (b : blocks)
    (f : StreamingFamily) (us : list SseSemanticUnit) : list StreamingEmission :=
  match verdict_on plan chain b (text_of us) with
  | Some r => [terminal_error r]
  | None =>
      if bool_decide (mode plan = BufferedRedaction)
      then [emission_from_payload (redacted_payload f (mkUnit f "[DONE]" EmptyString true (reason_of us))
                                     (redacted_output b (text_of us)).1.1)]
      else frame_of <$> List.filter (holds_back plan) us
  end.

Lemma finish_closing g :
  termination g = None → mode (g_plan g) ≠ Passthrough → ∀ us,
  accumulated_text g = text_of us → g_finish_reason g = reason_of us →
  held_units g = List.filter (holds_back (g_plan g)) us →
  (finish_stream g).2 = closing (g_plan g) (g_chain g) (g_blocks g) (g_family g) us
  ∧ is_Some (termination (finish_stream g).1).
Proof.
  intros Ht Hm us Ha Hr Hh. unfold finish_stream, closing. rewrite Ht, decide_verdict, Ha, Hr.
  destruct (verdict_on _ _ _ _); [by split; [|eexists]|].
  destruct (mode (g_plan g)) eqn:Em; [done| |].
  - rewrite andb_false_r, bool_decide_false by done. cbn [flush_held snd fst].
    split; [by rewrite Hh|by eexists].
  - simpl negb. cbv iota. destruct (redacted_output _ _) as [[red ms] ts].
    rewrite bool_decide_true by done. destruct ts; simpl; (split; [done|by eexists]).
Qed.

Lemma govern_buffered f plan chain b cs :
  mode plan ≠ Passthrough →
  let us := units_of f (drain_sse_data_frames (concat cs)).1 in
  let '(pre, r) := pass (verdict_on plan chain b) EmptyString us in
  (govern (governor_new f plan chain b) cs).2
  = (frame_of <$> List.filter (λ u, negb (holds_back plan u)) pre)
    ++ match r with Some r => [terminal_error r] | None => closing plan chain b f us end
  ∧ is_Some (termination (govern (governor_new f plan chain b) cs).1).
Proof.
  intros Hm. cbv zeta. unfold govern.
  destruct (ingest_chunks_payloads (governor_new f plan chain b) cs) as [buf Hi]; [done..|].
  rewrite Hi. cbn [parser_buffer governor_new]. rewrite feed_drain by done. rewrite app_nil_l.
  pose proof (buffered_run (governor_new f plan chain b) (drain_sse_data_frames (concat cs)).1 Hm eq_refl) as Hrun.
  cbv zeta in Hrun. cbn [g_family g_plan g_chain g_blocks accumulated_text governor_new] in Hrun.
  destruct (pass _ _ _) as [pre r]. destruct Hrun as (g'&->&[R1 R2 R3 R4 R5 R6 R7 R8]&Hp).
  cbn [g_family g_plan g_chain g_blocks accumulated_text g_finish_reason held_units governor_new] in *.
  destruct r as [r|].
  - assert (Hf : finish_stream (with_buffer buf g') = (with_buffer buf g', []))
      by (unfold finish_stream; cbn [with_buffer termination]; by rewrite R5).
    rewrite Hf, app_nil_r. cbn [fst snd with_buffer termination]. rewrite R5. split; [done|by eexists].
  - destruct (finish_closing (with_buffer buf g')) with (us := units_of f (drain_sse_data_frames (concat cs)).1)
      as [Hf Ht]; cbn [with_buffer termination g_plan accumulated_text g_finish_reason held_units];
      rewrite ?R2; auto.
    cbn [with_buffer g_plan g_chain g_blocks g_family] in Hf. rewrite R1, R2, R3, R4 in Hf.
    destruct (finish_stream (with_buffer buf g')) as [g2 es]. simpl in Hf, Ht |- *. rewrite Hf.
    by rewrite app_nil_r.
Qed.

(** C31. The governor enforces blocking policies before emission: in the buffered
    policy mode, however the stream is cut into chunks, the client gets the frames
    of the units, in order, up to the first one with which the text so far is
    blocked, then only a terminal error; terminal units are held until the end and
    come last, after the complete text has been evaluated once more. *)
Theorem governor_blocks_before_emission f plan chain b cs :
  mode plan = BufferedPolicy →
  let v := verdict_on plan chain b in
  let us := units_of f (drain_sse_data_frames (concat cs)).1 in
  let '(pre, r) := pass v EmptyString us in
  (govern (governor_new f plan chain b) cs).2
  = (frame_of <$> List.filter (λ u, negb (is_terminal u)) pre)
    ++ match r, v (text_of us) with
       | Some r, _ | None, Some r => [terminal_error r]
       | None, None => frame_of <$> List.filter is_terminal us
       end.
Proof.
  intros Hm. cbv zeta. pose proof (govern_buffered f plan chain b cs) as Hg. cbv zeta in Hg.
  destruct (pass _ _ _) as [pre r]. destruct Hg as [-> _]; [by rewrite Hm|].
  assert (Hh : ∀ u, holds_back plan u = is_terminal u) by (intros u; unfold holds_back; by rewrite Hm).
  f_equal.
  - f_equal. apply List.filter_ext. intros u. by rewrite Hh.
  - destruct r; [done|]. unfold closing. destruct (verdict_on _ _ _ _); [done|].
    rewrite bool_decide_false by (by rewrite Hm). f_equal. by apply List.filter_ext.
Qed.

(** A redacted stream is redacted whole: in the redaction mode nothing reaches
    the client before the stream has ended; then, unless the text is blocked, the
    one emission carries the redaction of the complete text, so a span that the
    upstream cut across chunks or units is redacted as if it had come in one. *)
Theorem governor_redacts_whole_text f plan chain b cs :
  mode plan = BufferedRedaction →
  let v := verdict_on plan chain b in
  let us := units_of f (drain_sse_data_frames (concat cs)).1 in
  (govern (governor_new f plan chain b) cs).2
  = match (pass v EmptyString us).2, v (text_of us) with
    | Some r, _ | None, Some r => [terminal_error r]
    | None, None =>
        [emission_from_payload
           (redacted_payload f (mkUnit f "[DONE]" EmptyString true (reason_of us))
              (redacted_output b (text_of us)).1.1)]
    end.
Proof.
  intros Hm. cbv zeta. pose proof (govern_buffered f plan chain b cs) as Hg. cbv zeta in Hg.
  destruct (pass _ _ _) as [pre r]. destruct Hg as [-> _]; [by rewrite Hm|].
  assert (Hh : List.filter (λ u, negb (holds_back plan u)) pre = []).
  { induction pre as [|u pre IH]; [done|]. simpl. unfold holds_back at 1. by rewrite Hm. }
  rewrite Hh. cbn [fmap list_fmap app snd]. destruct r; [done|]. unfold closing. destruct (verdict_on _ _ _ _); [done|].
  by rewrite bool_decide_true.
Qed.

(** ** The plan is strong enough *)
Definition needs_redaction (b : blocks) (kind : string) : bool := policy_requires_redaction kind b.
Definition needs_block_check (b : blocks) (kind : string) : bool :=
  negb (policy_requires_redaction kind b) && policy_requires_block_buffering kind.

Lemma scan_chain_spec chain b acc :
  scan_chain chain b acc
  = (acc.1.1 || existsb (needs_redaction b) chain, acc.1.2 || existsb (needs_block_check b) chain,
     acc.2 ++ List.filter (λ k, needs_redaction b k || needs_block_check b k) chain).
Proof.
  revert acc. induction chain as [|k chain IH]; intros [[r bl] d]; simpl.
  - by rewrite !orb_false_r, app_nil_r.
  - rewrite IH. unfold needs_redaction, needs_block_check.
    destruct (policy_requires_redaction k b), (policy_requires_block_buffering k); simpl;
      by rewrite ?orb_true_r, <- ?(assoc_L (++)).
Qed.

Lemma plan_spec chain b plan :
  plan_streaming_enforcement chain b = Ok plan →
  unenforceable_streaming_policy chain b = None
  ∧ requires_redaction plan = existsb (needs_redaction b) chain
  ∧ requires_block_check plan = existsb (needs_block_check b) chain
  ∧ mode plan = if existsb (needs_redaction b) chain then BufferedRedaction
                else if existsb (needs_block_check b) chain then BufferedPolicy else Passthrough.
Proof.
  unfold plan_streaming_enforcement. destruct (unenforceable_streaming_policy chain b); [done|].
  rewrite scan_chain_spec. simpl. intros Hp. split; [done|].
  destruct (existsb (needs_redaction b) chain), (existsb (needs_block_check b) chain); by injection Hp as <-.
Qed.

(** No selected mode is weaker than the policies require: when startup accepts
    a streaming mode for a chain, a chain with a policy that redacts is run in the
    redaction mode, one with a policy that blocks is never passed through and is
    checked, and the chain has no policy without a streaming decision. *)
Theorem accepted_mode_enforces chain b selected plan :
  validate_streaming_mode_startup chain b selected = Ok plan →
  mode plan = selected
  ∧ (∀ k, k ∈ chain → policy_requires_redaction k b = true →
       selected = BufferedRedaction ∧ requires_redaction plan = true)
  ∧ (∀ k, k ∈ chain → policy_requires_block_buffering k = true →
       selected ≠ Passthrough ∧ requires_block_check plan = true)
  ∧ unenforceable_streaming_policy chain b = None.
Proof.
  unfold validate_streaming_mode_startup. destruct (plan_streaming_enforcement chain b) as [req|e] eqn:E; [|done].
  apply plan_spec in E as (Hu&Hr&Hb&Hm). destruct (compatible selected (mode req)) eqn:Hc; [|done].
  intros [= <-]. simpl. rewrite Hm in Hc. split_and!; [done| | |done].
  - intros k Hk Hred. assert (Hex : existsb (needs_redaction b) chain = true).
    { apply existsb_exists. exists k. split; [by apply list_elem_of_In|done]. }
    rewrite Hex in Hc. rewrite Hr, Hex. by destruct selected.
  - intros k Hk Hbl. destruct (policy_requires_redaction k b) eqn:Ek.
    + assert (Hex : existsb (needs_redaction b) chain = true).
      { apply existsb_exists. exists k. split; [by apply list_elem_of_In|done]. }
      rewrite Hex in Hc. destruct selected; try done. split; [done|]. by rewrite orb_true_r.
    + assert (Hex : existsb (needs_block_check b) chain = true).
      { apply existsb_exists. exists k. split; [by apply list_elem_of_In|].
        unfold needs_block_check. by rewrite Ek. }
      rewrite Hb, Hex. split; [|done]. rewrite Hex in Hc. intros ->.
      by destruct (existsb (needs_redaction b) chain).
Qed.

(** ** Passing through *)
Definition emission_bytes (e : StreamingEmission) : chunk :=
  list_ascii_of_string match e with Frame s => s | TerminalError _ body => body end.

Lemma passthrough_run g ps :
  mode (g_plan g) = Passthrough → requires_block_check (g_plan g) = false →
  Forall (λ p, str_contains (String LF (String LF "data:")) p = false ∧ String.prefix "data:" p = false) ps →
  ∃ g', ingest_payloads g ps = (g', (λ p, Frame (sse_frame p)) <$> ps)
    ∧ g_plan g' = g_plan g ∧ termination g' = termination g ∧ held_units g' = held_units g.
Proof.
  intros Hm Hb Hps. revert g Hm Hb. induction Hps as [|p ps [H1 H2] _ IH]; intros g Hm Hb; [by exists g|].
  assert (Hstep : ∃ g1, ingest_payload g p = (g1, [Frame (sse_frame p)], false)
    ∧ g_plan g1 = g_plan g ∧ termination g1 = termination g ∧ held_units g1 = held_units g).
  { unfold ingest_payload. destruct (extract_sse_semantic_unit _ _ _) as [u|] eqn:E.
    - rewrite decide_verdict. unfold verdict_on. cbn [with_text g_plan]. rewrite Hb, Hm, bool_decide_false by done.
      cbn [orb]. cbv iota. assert (Hu : u_payload u = p).
      { unfold extract_sse_semantic_unit, unit_for, responses_unit, messages_unit in E.
        revert E. repeat (case_match; simpl); try done; intros; simplify_option_eq; repeat case_match;
          simplify_eq; done. }
      rewrite Hu. unfold emission_from_payload. rewrite H1, H2. by eexists.
    - rewrite bool_decide_true by done. by eexists. }
  destruct Hstep as (g1&Hs&Hp1&Ht1&Hh1). cbn [ingest_payloads fmap list_fmap]. rewrite Hs.
  destruct (IH g1) as (g'&->&?&?&?); [by rewrite Hp1..|]. exists g'. split_and!; [done|congruence..].
Qed.

Lemma no_eol_contains t p : no_eol p = true → str_contains (String LF t) p = false.
Proof.
  induction p as [|a p IH]; intros Hn; [done|].
  assert (Ha : negb (Ascii.eqb a LF) = true ∧ no_eol p = true).
  { unfold no_eol in *. simpl in Hn. apply andb_true_iff in Hn as [[? _]%andb_true_iff ?]. done. }
  destruct Ha as [Ha Hp]. cbn [str_contains]. rewrite IH by done. rewrite orb_false_r. cbn [String.prefix].
  destruct (ascii_dec LF a) as [<-|]; [by rewrite Ascii.eqb_refl in Ha|done].
Qed.

(** Without output policies the stream is passed through: a client that reads
    the governor's frames gets exactly the payloads the upstream sent, in order,
    for payloads of one line, whatever the chunks were. *)
Theorem passthrough_transparent f plan chain b cs :
  mode plan = Passthrough → requires_block_check plan = false →
  let ps := (drain_sse_data_frames (concat cs)).1 in
  Forall payload_ok ps → Forall (λ p, String.prefix "data:" p = false) ps →
  feed [] (emission_bytes <$> (govern (governor_new f plan chain b) cs).2) = (ps, []).
Proof.
  intros Hm Hb ps Hok Hpre. unfold govern.
  destruct (ingest_chunks_payloads (governor_new f plan chain b) cs) as [buf Hi]; [done..|].
  rewrite Hi. change (parser_buffer (governor_new f plan chain b)) with (@nil ascii).
  rewrite (feed_drain [] cs), app_nil_l by done. fold ps.
  destruct (passthrough_run (governor_new f plan chain b) ps) as (g'&Hrun&Hp&Ht&Hh); [done..| |].
  { apply Forall_forall. intros p Hp. rewrite Forall_forall in Hok, Hpre.
    destruct (Hok p Hp) as (_&Hn&_). split; [by apply no_eol_contains|by apply Hpre]. }
  rewrite Hrun. assert (Hfin : (finish_stream (with_buffer buf g')).2 = []).
  { unfold finish_stream. cbn [with_buffer termination g_plan held_units]. rewrite Ht. cbn [governor_new termination].
    rewrite decide_verdict. unfold verdict_on. rewrite Hp. cbn [governor_new g_plan].
    rewrite Hb, Hm, !bool_decide_false by done. cbn [orb]. cbv iota. cbn [flush_held with_buffer held_units snd].
    by rewrite Hh. }
  destruct (finish_stream (with_buffer buf g')) as [g2 es]. simpl in Hfin. subst es.
  rewrite app_nil_r. cbn [snd]. rewrite <- list_fmap_compose. by apply feed_encoded.
Qed.

(** ** What the governor does not enforce *)

(** Policies that are planned for but never evaluated: for a chain of any of
    these eleven kinds the plan is accepted in the buffered policy mode, yet the
    evaluator of streams has no rule for them, so no text is ever blocked,
    whatever their configuration says. *)
Theorem buffered_without_evaluator kind b text :
  kind ∈ ["citation-verifier"; "mnpi-filter"; "financial-compliance"; "healthcare-compliance";
          "legal-privilege"; "upl-filter"; "bias-monitor"; "quality-scorer"; "human-oversight";
          "response-rewriter"; "agent-firewall"]%string →
  plan_streaming_enforcement [kind] b = Ok (mkPlan BufferedPolicy SseEvent true false [kind])
  ∧ evaluate_streaming_blocking_policy [kind] b text = None.
Proof. rewrite !elem_of_cons, elem_of_nil. intros Hk. by repeat destruct Hk as [->|Hk]; try destruct Hk. Qed.

(** The health-data policy does not switch its detector on: the redaction of a
    stream is configured by the block of the personal-data policy alone, so for a
    chain of the health-data policy without that block, the text is redacted
    without the detectors of health data. *)
Theorem phi_stream_without_detector b text :
  map_get b "pii-detector" = None → action_of b "hipaa-phi-detector" "redact" ≠ "off"%string →
  plan_streaming_enforcement ["hipaa-phi-detector"%string] b
    = Ok (mkPlan BufferedRedaction CompleteResponse false true ["hipaa-phi-detector"%string])
  ∧ redacted_output b text
    = redact_spans sha256_hex RedactionConfig_default "streaming.output" text
        (detect_all text ++ detect_pci_dss text).
Proof.
  intros Hb Ha. split.
  - unfold plan_streaming_enforcement. simpl. unfold policy_requires_redaction. simpl.
    by rewrite (proj2 (String.eqb_neq _ _) Ha).
  - unfold redacted_output. rewrite Hb. unfold redact_with_metadata_and_targets_with_config, detections_of.
    cbn [from_policy_block healthcare_mode pci_mode detect_patterns RedactionConfig_default
      mbind option_bind flat_map]. by rewrite app_nil_r.
Qed.

(** The stop reason is lost in translation: a message stream that ended with
    [end_turn], redacted whole, is rebuilt with the stop reason [stop], the word
    of the other wire format, because the rebuilt message takes the reason the
    governor has already translated. *)
Theorem redacted_message_stop_reason plan chain b cs :
  mode plan = BufferedRedaction → requires_block_check plan = false →
  let us := units_of Messages (drain_sse_data_frames (concat cs)).1 in
  reason_of us = Some (chat_reason "end_turn") →
  (govern (governor_new Messages plan chain b) cs).2
  = [emission_from_payload
       (messages_text_to_sse num "msg_verdictan_buffered" (redacted_output b (text_of us)).1.1 "stop")].
Proof.
  intros Hm Hb us Hr. pose proof (govern_buffered Messages plan chain b cs) as Hg. cbv zeta in Hg. fold us in Hg.
  assert (Hv : ∀ t, verdict_on plan chain b t = None).
  { intros t. unfold verdict_on. rewrite Hb, bool_decide_false; [done|]. by rewrite Hm. }
  assert (Hpass : ∀ t l, pass (verdict_on plan chain b) t l = (l, None)).
  { intros t l. revert t. induction l as [|u l IH]; intros t; cbn [pass]; [done|]. by rewrite Hv, IH. }
  rewrite Hpass in Hg. destruct Hg as [-> _]; [by rewrite Hm|].
  assert (Hh : List.filter (λ u, negb (holds_back plan u)) us = []).
  { clear Hr. induction us as [|u l IH]; [done|]. simpl. unfold holds_back at 1. by rewrite Hm. }
  rewrite Hh. cbn [fmap list_fmap app]. unfold closing. rewrite Hv, bool_decide_true, Hr by done. done.
Qed.

Lemma string_app_empty (s : string) : (s ++ EmptyString)%string = s.
Proof. induction s as [|a s IH]; simpl; congruence. Qed.

(** The input of a tool call is not examined: a payload whose delta is not text,
    as the pieces of a tool call's arguments are, adds nothing to the text the
    policies see, so in the buffered policy mode it is emitted as it came, whatever
    it says, as long as the text before it is not blocked. *)
Theorem tool_input_unexamined g payload v :
  g_family g = Messages → mode (g_plan g) = BufferedPolicy →
  payload ≠ "[DONE]"%string → from_str payload = Some v →
  get_str v "type" = Some "content_block_delta"%string →
  pointer_str v "delta" "type" ≠ Some "text_delta"%string →
  verdict_on (g_plan g) (g_chain g) (g_blocks g) (accumulated_text g) = None →
  let '(g', es, stop) := ingest_payload g payload in
  es = [emission_from_payload payload] ∧ stop = false ∧ accumulated_text g' = accumulated_text g.
Proof.
  intros Hf Hm Hd Hv Ht Hx Hok.
  assert (Hu : extract_sse_semantic_unit from_str (g_family g) payload
               = Some (mkUnit Messages payload EmptyString false None)).
  { unfold extract_sse_semantic_unit. rewrite (proj2 (String.eqb_neq _ _) Hd), Hv, Hf. simpl. rewrite Ht.
    simpl. unfold messages_unit, delta_text. simpl. by rewrite bool_decide_false. }
  pose proof (string_app_empty (accumulated_text g)) as Happ.
  pose proof (buffered_step g payload _ ltac:(by rewrite Hm) Hu) as Hstep. cbv zeta in Hstep.
  cbn [text_delta] in Hstep. rewrite Happ, Hok in Hstep. unfold holds_back in Hstep. rewrite Hm in Hstep.
  rewrite Hstep. done.
Qed.
End streaming.

(** ** Witnesses *)
Module StreamModel.
Definition done_chunks : list chunk := [list_ascii_of_string "data: [DO"; list_ascii_of_string "NE]" ++ [LF; LF]].
Definition policy_plan : StreamingEnforcementPlan := mkPlan BufferedPolicy SseEvent true false ["safety-filter"%string].
Definition redaction_plan : StreamingEnforcementPlan :=
  mkPlan BufferedRedaction CompleteResponse false true ["pii-detector"%string].
Definition plain_plan : StreamingEnforcementPlan := mkPlan Passthrough SseEvent false false [].
Definition safety : list (string * Value Z) := [("safety-filter"%string, Obj [])].
Definition no_json (s : string) : option (Value Z) := None.
Definition all_match (p : string) : option (string → bool) := Some (λ _, true).
Definition num (z : Z) : Z := z.
Definition id_text (s : string) : string := s.
End StreamModel.
Import StreamModel.

Lemma governor_blocks_before_emission_witness :
  (govern (H := JsonModel.json) (H0 := DemoRegex.one) no_json num all_match id_text id_text []
     (governor_new (H := JsonModel.json) Messages policy_plan ["safety-filter"%string] safety) done_chunks).2
  = [terminal_error (H := JsonModel.json) "safety.triggered.critical_infrastructure"].
Proof.
  pose proof (governor_blocks_before_emission (H := JsonModel.json) (H0 := DemoRegex.one) no_json num all_match
    id_text id_text [] Messages policy_plan ["safety-filter"%string] safety done_chunks eq_refl) as W.
  cbv zeta in W. destruct (pass _ _ _) as [pre r] eqn:E.
  assert (Hp : (pre, r) = ([], Some "safety.triggered.critical_infrastructure"%string))
    by (rewrite <- E; reflexivity).
  injection Hp as -> ->. exact W.
Defined.

Lemma governor_redacts_whole_text_witness :
  (govern (H := JsonModel.json) (H0 := DemoRegex.one) no_json num all_match id_text id_text []
     (governor_new (H := JsonModel.json) ChatCompletions redaction_plan ["pii-detector"%string] []) done_chunks).2
  = [emission_from_payload EmptyString].
Proof.
  rewrite (governor_redacts_whole_text (H := JsonModel.json) (H0 := DemoRegex.one) no_json num all_match
    id_text id_text [] ChatCompletions redaction_plan ["pii-detector"%string] [] done_chunks eq_refl).
  reflexivity.
Defined.

Lemma accepted_mode_enforces_witness :
  ∃ plan, validate_streaming_mode_startup (H := JsonModel.json) ["pii-detector"%string] [] BufferedRedaction = Ok plan
    ∧ mode plan = BufferedRedaction.
Proof.
  eexists. split; [reflexivity|].
  apply (accepted_mode_enforces (H := JsonModel.json) ["pii-detector"%string] [] BufferedRedaction). reflexivity.
Defined.

Lemma passthrough_transparent_witness :
  feed [] (emission_bytes <$> (govern (H := JsonModel.json) (H0 := DemoRegex.one) no_json num all_match id_text
             id_text [] (governor_new (H := JsonModel.json) Messages plain_plan [] []) done_chunks).2) = (["[DONE]"%string], []).
Proof.
  apply (passthrough_transparent (H := JsonModel.json) (H0 := DemoRegex.one) no_json num all_match id_text
    id_text [] Messages plain_plan [] [] done_chunks); [reflexivity|reflexivity|..]; repeat constructor.
Defined.

Lemma buffered_without_evaluator_witness :
  evaluate_streaming_blocking_policy (H := JsonModel.json) all_match id_text ["agent-firewall"%string] [] "x" = None.
Proof.
  apply (buffered_without_evaluator (H := JsonModel.json) all_match id_text "agent-firewall" [] "x").
  rewrite !elem_of_cons. tauto.
Defined.

Lemma phi_stream_without_detector_witness :
  redacted_output (H := JsonModel.json) (H0 := DemoRegex.one) id_text [] [] "x"
  = redact_spans id_text RedactionConfig_default "streaming.output" "x"
      (detect_all (H := DemoRegex.one) "x" ++ detect_pci_dss (H := DemoRegex.one) "x").
Proof.
  apply (phi_stream_without_detector (H := JsonModel.json) (H0 := DemoRegex.one) id_text [] [] "x");
    [reflexivity|discriminate].
Defined.

Lemma redacted_message_stop_reason_witness :
  (govern (H := JsonModel.json) (H0 := DemoRegex.one) no_json num all_match id_text id_text []
     (governor_new (H := JsonModel.json) Messages redaction_plan ["pii-detector"%string] []) done_chunks).2
  = [emission_from_payload (messages_text_to_sse (H := JsonModel.json) num "msg_verdictan_buffered" EmptyString "stop")].
Proof.
  rewrite (redacted_message_stop_reason (H := JsonModel.json) (H0 := DemoRegex.one) no_json num all_match id_text
    id_text [] redaction_plan ["pii-detector"%string] [] done_chunks); reflexivity.
Defined.

Definition tool_delta : Value Z :=
  Obj [("delta", Obj [("partial_json", Str "rm -rf"); ("type", Str "input_json_delta")]);
       ("type", Str "content_block_delta")]%string.
Lemma tool_input_unexamined_witness :
  let g := governor_new (H := JsonModel.json) Messages policy_plan [] safety in
  let '(_, es, _) := ingest_payload (H := JsonModel.json) (H0 := DemoRegex.one) (λ _, Some tool_delta) num
                       all_match id_text id_text [] g "{}" in
  es = [emission_from_payload "{}"].
Proof.
  cbv zeta. pose proof (tool_input_unexamined (H := JsonModel.json) (H0 := DemoRegex.one) (λ _, Some tool_delta) num
    all_match id_text id_text [] (governor_new (H := JsonModel.json) Messages policy_plan [] safety) "{}" tool_delta
    eq_refl eq_refl) as W.
  destruct (ingest_payload _ _ _ _ _ _ _ _) as [[g' es] stop]. apply W;
    (reflexivity || discriminate).
Defined.
