(* ===== verification/HealthMonitor.v ===== *)
(** * HealthMonitor: the health of providers (src/src/gateway/health_monitor.rs)

    Rolling metrics per credential over the last sixty seconds, the state machine
    on their error rate, and the monitor's two maps.  A call reads the clock when
    it starts and again when it records its event; both instants are arguments.
    Instants are nanoseconds; the text of a rate is the argument [pct_text]. *)

From Stdlib Require Import ZArith Ascii String SpecFloat.
From stdpp Require Import base gmap strings list sorting.
From S2P Require Import Prelude Text Float Detection.

Local Open Scope Z_scope.

Inductive HealthState := Healthy | Degraded | Unhealthy | Unknown.
#[export] Instance HealthState_eq_dec : EqDecision HealthState.
Proof. solve_decision. Defined.

Definition WINDOW_DURATION_SECS : Z := 60.
Definition DEGRADED_ERROR_RATE_PCT : f64 := f64_of_u64 50.
Definition UNHEALTHY_ERROR_RATE_PCT : f64 := f64_of_u64 90.
Definition UNHEALTHY_SILENCE_SECS : Z := 300.
Definition RECOVERY_CONSECUTIVE_PROBES : Z := 3.
(** [probe_interval], of the environment variable. *)
Definition probe_interval (var : option string) : Z :=
  Z.max 10 (Z.min 300 (default 30 (var ≫= parse_u64))).

Record TimestampedEvent := mkEvent { at_ : Z; is_error : bool; latency_ms : Z }.
Record CredentialHealthMetrics := mkMetrics {
  credential_id : string;
  provider_id : string;
  error_count_60s : Z;
  request_count_60s : Z;
  error_rate_pct : f64;
  latency_p50_ms : option Z;
  latency_p95_ms : option Z;
  rate_limit_remaining : option Z;
  last_success_at : option Z;
  last_error_at : option Z;
  hm_state : HealthState;
  consecutive_recovery_probes : Z;
}.
Definition metrics_new (credential provider : string) : CredentialHealthMetrics :=
  mkMetrics credential provider 0 0 f64_zero None None None None None Healthy 0.
Record CredentialInternalState := mkInternal {
  events : list TimestampedEvent;
  metrics : CredentialHealthMetrics;
}.
Definition internal_new (credential provider : string) : CredentialInternalState :=
  mkInternal [] (metrics_new credential provider).

Definition percentile (sorted : list Z) (pct : nat) : option Z :=
  match sorted with
  | [] => None
  | _ => sorted !! (pct * (length sorted - 1) `div` 100)%nat
  end.
Definition redact_id (id : string) : string :=
  if (String.length id <=? 8)%nat then "***"
  else (slice id 0 4 ++ "..." ++ slice id (String.length id - 4) (String.length id))%string.

Definition cutoff (now : Z) : Z := now - from_secs WINDOW_DURATION_SECS.
(** [pop_front] while the front is before the cutoff. *)
Fixpoint expire_old_events (c : Z) (l : list TimestampedEvent) : list TimestampedEvent :=
  match l with
  | [] => []
  | e :: l' => if at_ e <? c then expire_old_events c l' else l
  end.
Definition recompute_metrics (now : Z) (es : list TimestampedEvent) (m : CredentialHealthMetrics) :
    CredentialHealthMetrics :=
  let live := List.filter (λ e, cutoff now <=? at_ e) es in
  let total := Z.of_nat (length live) in
  let errors := Z.of_nat (length (List.filter is_error live)) in
  let rate := if 0 <? total
              then f64_mul (f64_div (f64_of_u64 errors) (f64_of_u64 total)) (f64_of_u64 100)
              else f64_zero in
  let latencies := merge_sort Z.le (latency_ms <$> live) in
  mkMetrics (credential_id m) (provider_id m) errors total rate (percentile latencies 50)
    (percentile latencies 95) (rate_limit_remaining m) (last_success_at m) (last_error_at m)
    (hm_state m) (consecutive_recovery_probes m).
(** [record_event], whose clock reads [now]. *)
Definition record_event (now : Z) (err : bool) (latency : Z) (s : CredentialInternalState) :
    CredentialInternalState :=
  let es := expire_old_events (cutoff now) (events s ++ [mkEvent now err latency]) in
  let m := metrics s in
  let m := mkMetrics (credential_id m) (provider_id m) (error_count_60s m) (request_count_60s m)
             (error_rate_pct m) (latency_p50_ms m) (latency_p95_ms m) (rate_limit_remaining m)
             (if err then last_success_at m else Some now) (if err then Some now else last_error_at m)
             (hm_state m) (consecutive_recovery_probes m) in
  mkInternal es (recompute_metrics now es m).

(** ** The state machine *)
Definition silence_exceeded (now : Z) (m : CredentialHealthMetrics) : bool :=
  match last_success_at m with
  | Some t => UNHEALTHY_SILENCE_SECS <? sat_sub now t / from_secs 1
  | None => false
  end.
(** The state that the metrics call for by themselves. *)
Definition level (now : Z) (m : CredentialHealthMetrics) : option HealthState :=
  if f64_gt (error_rate_pct m) UNHEALTHY_ERROR_RATE_PCT || silence_exceeded now m then Some Unhealthy
  else if f64_gt (error_rate_pct m) DEGRADED_ERROR_RATE_PCT then Some Degraded
  else None.
Definition impaired (s : HealthState) : bool := match s with Unhealthy | Degraded => true | _ => false end.
Definition set_state (s : HealthState) (n : Z) (m : CredentialHealthMetrics) : CredentialHealthMetrics :=
  mkMetrics (credential_id m) (provider_id m) (error_count_60s m) (request_count_60s m) (error_rate_pct m)
    (latency_p50_ms m) (latency_p95_ms m) (rate_limit_remaining m) (last_success_at m) (last_error_at m) s n.

Record HealthStateChangedEvent := mkChanged {
  credential_id_redacted : string;
  ev_provider_id : string;
  previous_state : HealthState;
  new_state : HealthState;
  ev_error_rate_pct : f64;
  ev_request_count : Z;
  trigger : string;
}.
Section monitor.
(** [format!("{:.0}", rate)] and [format!("{n}")]. *)
Variable pct_text : f64 → string.
Variable count_text : Z → string.

Definition trigger_of (s : HealthState) (silent : bool) (m : CredentialHealthMetrics) : string :=
  match s with
  | Unhealthy => if silent then "no_success_5min"
                 else ("error_rate_" ++ pct_text (error_rate_pct m) ++ "pct")%string
  | Degraded => ("error_rate_" ++ pct_text (error_rate_pct m) ++ "pct")%string
  | Healthy => ("recovery_after_" ++ count_text (consecutive_recovery_probes m) ++ "_probes")%string
  | Unknown => "initial"
  end.
Definition evaluate_circuit_breaker (now : Z) (m : CredentialHealthMetrics) :
    CredentialHealthMetrics * option HealthStateChangedEvent :=
  let previous := hm_state m in
  let m' :=
    match level now m with
    | Some s => set_state s 0 m
    | None =>
        set_state (if impaired previous
                   then if RECOVERY_CONSECUTIVE_PROBES <=? consecutive_recovery_probes m
                        then Healthy else previous
                   else Healthy) (consecutive_recovery_probes m) m
    end in
  (m', if bool_decide (hm_state m' = previous) then None
       else Some (mkChanged (redact_id (credential_id m')) (provider_id m') previous (hm_state m')
                    (error_rate_pct m') (request_count_60s m')
                    (trigger_of (hm_state m') (silence_exceeded now m) m'))).

(** ** The monitor *)
Record ProviderHealthMonitor := mkMonitor {
  states : gmap string CredentialHealthMetrics;
  internal_states : gmap string CredentialInternalState;
}.
Definition credential_state (mon : ProviderHealthMonitor) (id : string) : HealthState :=
  match states mon !! id with Some m => hm_state m | None => Unknown end.
Definition is_routable (mon : ProviderHealthMonitor) (id : string) : bool :=
  negb (bool_decide (credential_state mon id = Unhealthy)).

(** One outcome: the instants of the call and of its event. *)
Record Outcome := mkOutcome {
  o_now : Z;
  o_event_now : Z;
  o_error : bool;
  o_latency : Z;
  o_remaining : option Z;
}.
(** The first half of [record_request]: the entry is cloned out of the map. *)
Definition read_internal (mon : ProviderHealthMonitor) (id provider : string) : CredentialInternalState :=
  let s := default (internal_new id provider) (internal_states mon !! id) in
  let m := metrics s in
  mkInternal (events s)
    (mkMetrics id provider (error_count_60s m) (request_count_60s m) (error_rate_pct m)
       (latency_p50_ms m) (latency_p95_ms m) (rate_limit_remaining m) (last_success_at m)
       (last_error_at m) (hm_state m) (consecutive_recovery_probes m)).
(** The work on the clone. *)
Definition update_internal (o : Outcome) (s : CredentialInternalState) :
    CredentialInternalState * option HealthStateChangedEvent :=
  let s := record_event (o_event_now o) (o_error o) (o_latency o) s in
  let m := metrics s in
  let m := mkMetrics (credential_id m) (provider_id m) (error_count_60s m) (request_count_60s m)
             (error_rate_pct m) (latency_p50_ms m) (latency_p95_ms m)
             (match o_remaining o with Some r => Some r | None => rate_limit_remaining m end)
             (last_success_at m) (last_error_at m) (hm_state m)
             (if negb (o_error o) && impaired (hm_state m)
              then wrap32 (consecutive_recovery_probes m + 1) else consecutive_recovery_probes m) in
  let '(m, ev) := evaluate_circuit_breaker (o_now o) m in
  (mkInternal (events s) m, ev).
(** The second half: both maps get the result. *)
Definition write_internal (mon : ProviderHealthMonitor) (id : string) (s : CredentialInternalState) :
    ProviderHealthMonitor :=
  mkMonitor (<[id := metrics s]> (states mon)) (<[id := s]> (internal_states mon)).
Definition record_request (mon : ProviderHealthMonitor) (id provider : string) (o : Outcome) :
    ProviderHealthMonitor * option HealthStateChangedEvent :=
  let '(s, ev) := update_internal o (read_internal mon id provider) in (write_internal mon id s, ev).
Definition record_probe (mon : ProviderHealthMonitor) (id provider : string) (now event_now : Z)
    (success : bool) (latency : Z) : ProviderHealthMonitor * option HealthStateChangedEvent :=
  record_request mon id provider (mkOutcome now event_now (negb success) latency None).

(** A sequence of calls; each names its credential and provider. *)
Definition call_step (mon : ProviderHealthMonitor) (c : string * string * Outcome) : ProviderHealthMonitor :=
  (record_request mon c.1.1 c.1.2 c.2).1.
Definition monitor_run (mon : ProviderHealthMonitor) (cs : list (string * string * Outcome)) :
    ProviderHealthMonitor := foldl call_step mon cs.
End monitor.

(** ** The reference

    A credential's history as a whole: what its metrics call for after each
    outcome, and the state that a sequence of such levels settles in. *)
Definition event_of (o : Outcome) : TimestampedEvent := mkEvent (o_event_now o) (o_error o) (o_latency o).
(** The outcomes of the last sixty seconds, as of the last one. *)
Definition recent (os : list Outcome) : list Outcome :=
  match last os with
  | Some o => List.filter (λ x, cutoff (o_event_now o) <=? o_event_now x) os
  | None => []
  end.
Definition rate_of (os : list Outcome) : f64 :=
  let total := Z.of_nat (length (recent os)) in
  if 0 <? total
  then f64_mul (f64_div (f64_of_u64 (Z.of_nat (length (List.filter o_error (recent os))))) (f64_of_u64 total))
         (f64_of_u64 100)
  else f64_zero.
Definition last_success (os : list Outcome) : option Z :=
  o_event_now <$> last (List.filter (λ o, negb (o_error o)) os).
Definition level_of (os : list Outcome) : option HealthState :=
  let silent := match last os, last_success os with
                | Some o, Some t => UNHEALTHY_SILENCE_SECS <? sat_sub (o_now o) t / from_secs 1
                | _, _ => false
                end in
  if f64_gt (rate_of os) UNHEALTHY_ERROR_RATE_PCT || silent then Some Unhealthy
  else if f64_gt (rate_of os) DEGRADED_ERROR_RATE_PCT then Some Degraded else None.
(** The level and the success of every outcome. *)
Definition trace (os : list Outcome) : list (option HealthState * bool) :=
  imap (λ i o, (level_of (take (S i) os), negb (o_error o))) os.
(** Healthy, unless a threshold was exceeded and fewer than three outcomes since
    then were successes; the trace is reversed, [n] successes follow it. *)
Fixpoint settle (rtr : list (option HealthState * bool)) (n : Z) : HealthState :=
  match rtr with
  | [] => Healthy
  | (Some s, _) :: _ => if RECOVERY_CONSECUTIVE_PROBES <=? n then Healthy else s
  | (None, ok) :: rtr => settle rtr (n + if ok : bool then 1 else 0)
  end.
Definition settled (os : list Outcome) : HealthState :=
  match os with [] => Unknown | _ => settle (reverse (trace os)) 0 end.

Lemma expire_sorted c l :
  StronglySorted (λ a b, at_ a ≤ at_ b) l → expire_old_events c l = List.filter (λ e, c <=? at_ e) l.
Proof.
  induction 1 as [|e l Hs IH He]; simpl; [done|].
  destruct (Z.ltb_spec (at_ e) c), (Z.leb_spec c (at_ e)); try lia; [done|]. f_equal.
  symmetry. clear IH Hs. induction He as [|x l Hx _ IH]; simpl; [done|].
  destruct (Z.leb_spec c (at_ x)); [|lia]. by rewrite IH.
Qed.
Lemma filter_filter_le (c c' : Z) (l : list TimestampedEvent) :
  c ≤ c' → List.filter (λ e, c' <=? at_ e) (List.filter (λ e, c <=? at_ e) l)
           = List.filter (λ e, c' <=? at_ e) l.
Proof.
  intros Hc. induction l as [|e l IH]; simpl; [done|].
  destruct (Z.leb_spec c (at_ e)); simpl; destruct (Z.leb_spec c' (at_ e)); try lia; by rewrite ?IH.
Qed.
Lemma filter_sorted_by (f : TimestampedEvent → bool) l :
  StronglySorted (λ a b, at_ a ≤ at_ b) l → StronglySorted (λ a b, at_ a ≤ at_ b) (List.filter f l).
Proof.
  induction 1 as [|e l Hs IH He]; simpl; [constructor|]. destruct (f e); [|done]. constructor; [done|].
  rewrite Forall_forall in He |- *. intros x Hx%list_elem_of_In. apply filter_In in Hx as [Hx _].
  by apply He, list_elem_of_In.
Qed.

(** The instants of a history do not run backwards. *)
Definition in_order (os : list Outcome) : Prop := StronglySorted Z.le (o_event_now <$> os).

(** What the stored entry of a credential knows of its history. *)
Record knows (os : list Outcome) (s : CredentialInternalState) : Prop := mkKnows {
  kn_events : events s = event_of <$> recent os;
  kn_total : request_count_60s (metrics s) = Z.of_nat (length (recent os));
  kn_errors : error_count_60s (metrics s) = Z.of_nat (length (List.filter o_error (recent os)));
  kn_success : last_success_at (metrics s) = last_success os;
  kn_probes : 0 ≤ consecutive_recovery_probes (metrics s) ≤ 3;
  kn_impaired : impaired (hm_state (metrics s)) = true → consecutive_recovery_probes (metrics s) < 3
    ∧ ∀ n, 0 ≤ n → settle (reverse (trace os)) n
        = if RECOVERY_CONSECUTIVE_PROBES <=? consecutive_recovery_probes (metrics s) + n
          then Healthy else hm_state (metrics s);
  kn_healthy : impaired (hm_state (metrics s)) = false →
    hm_state (metrics s) = Healthy ∧ ∀ n, 0 ≤ n → settle (reverse (trace os)) n = Healthy;
}.

Lemma recent_snoc os o :
  recent (os ++ [o]) = List.filter (λ x, cutoff (o_event_now o) <=? o_event_now x) (os ++ [o]).
Proof. unfold recent. by rewrite last_snoc. Qed.
Lemma filter_event (c : Z) os :
  event_of <$> List.filter (λ x, c <=? o_event_now x) os
  = List.filter (λ e, c <=? at_ e) (event_of <$> os).
Proof.
  induction os as [|o os IH]; [done|]. cbn [List.filter fmap list_fmap]. change (at_ (event_of o)) with (o_event_now o).
  rewrite <- IH. by destruct (c <=? o_event_now o).
Qed.
Lemma in_order_events os : in_order os → StronglySorted (λ a b, at_ a ≤ at_ b) (event_of <$> os).
Proof.
  unfold in_order. induction os as [|o os IH]; [constructor|].
  rewrite !fmap_cons. intros [Hs Ho]%StronglySorted_inv.
  constructor; [by apply IH|]. rewrite Forall_fmap in Ho. by rewrite Forall_fmap.
Qed.
Lemma in_order_snoc os o : in_order (os ++ [o]) → in_order os ∧ Forall (λ x, o_event_now x ≤ o_event_now o) os.
Proof.
  unfold in_order. induction os as [|x os IH]; [by repeat constructor|].
  rewrite <- app_comm_cons, !fmap_cons. intros [Hs Hx]%StronglySorted_inv. destruct (IH Hs) as [? ?]. rewrite fmap_app in Hx.
  apply Forall_app in Hx as [Hx [Ho _]%Forall_cons]. split; [by constructor|by constructor].
Qed.

(** The events kept are those of the window, whatever was expired before. *)
Lemma expire_recent os o :
  in_order (os ++ [o]) →
  expire_old_events (cutoff (o_event_now o)) ((event_of <$> recent os) ++ [event_of o])
  = event_of <$> recent (os ++ [o]).
Proof.
  intros Ho. destruct (in_order_snoc _ _ Ho) as [Hos Hle]. rewrite recent_snoc, filter_event, fmap_app.
  assert (Hrec : ∃ c, c ≤ cutoff (o_event_now o)
    ∧ event_of <$> recent os = List.filter (λ e, c <=? at_ e) (event_of <$> os)).
  { unfold recent. destruct (last os) as [x|] eqn:El.
    - exists (cutoff (o_event_now x)). split; [|apply filter_event].
      rewrite Forall_forall in Hle. specialize (Hle x). unfold cutoff.
      enough (o_event_now x ≤ o_event_now o) by lia. apply Hle. apply last_Some in El as [l ->].
      apply elem_of_app. right. by left.
    - apply last_None in El as ->. exists (cutoff (o_event_now o)). done. }
  destruct Hrec as (c&Hc&->). apply in_order_events in Ho. rewrite fmap_app in Ho.
  assert (Hc' : (c <=? at_ (event_of o)) = true).
  { apply Z.leb_le. unfold cutoff, from_secs, WINDOW_DURATION_SECS in Hc. simpl in *. lia. }
  apply (filter_sorted_by (λ e, c <=? at_ e)) in Ho. rewrite List.filter_app in Ho.
  cbn [List.filter fmap list_fmap] in Ho. rewrite Hc' in Ho.
  by rewrite expire_sorted, !List.filter_app, filter_filter_le.
Qed.

Lemma last_success_snoc os o :
  last_success (os ++ [o]) = if o_error o then last_success os else Some (o_event_now o).
Proof.
  unfold last_success. rewrite List.filter_app. simpl. destruct (o_error o); simpl.
  - by rewrite app_nil_r.
  - by rewrite last_snoc.
Qed.
Lemma trace_snoc os o :
  trace (os ++ [o]) = trace os ++ [(level_of (os ++ [o]), negb (o_error o))].
Proof.
  unfold trace. rewrite imap_app. f_equal.
  - apply imap_ext. intros i x Hx. apply lookup_lt_Some in Hx. by rewrite take_app_le by lia.
  - simpl. rewrite Nat.add_0_r. by rewrite take_ge by (rewrite length_app; simpl; lia).
Qed.
Lemma errors_events os :
  length (List.filter is_error (event_of <$> os)) = length (List.filter o_error os).
Proof.
  induction os as [|o os IH]; [done|]. rewrite fmap_cons. cbn [List.filter].
  change (is_error (event_of o)) with (o_error o). destruct (o_error o); simpl; by rewrite IH.
Qed.

(** The metrics after an event are those of the window of the whole history. *)
Lemma record_event_knows os s o :
  knows os s → in_order (os ++ [o]) →
  let s' := record_event (o_event_now o) (o_error o) (o_latency o) s in
  events s' = event_of <$> recent (os ++ [o])
  ∧ request_count_60s (metrics s') = Z.of_nat (length (recent (os ++ [o])))
  ∧ error_count_60s (metrics s') = Z.of_nat (length (List.filter o_error (recent (os ++ [o]))))
  ∧ error_rate_pct (metrics s') = rate_of (os ++ [o])
  ∧ last_success_at (metrics s') = last_success (os ++ [o])
  ∧ hm_state (metrics s') = hm_state (metrics s)
  ∧ consecutive_recovery_probes (metrics s') = consecutive_recovery_probes (metrics s).
Proof.
  intros Hk Ho. cbv zeta. unfold record_event. rewrite (kn_events _ _ Hk).
  change (mkEvent (o_event_now o) (o_error o) (o_latency o)) with (event_of o).
  rewrite (expire_recent _ _ Ho). cbn [events metrics]. unfold recompute_metrics.
  assert (Hlive : List.filter (λ e, cutoff (o_event_now o) <=? at_ e) (event_of <$> recent (os ++ [o]))
                  = event_of <$> recent (os ++ [o])).
  { rewrite recent_snoc, filter_event. by apply filter_filter_le. }
  rewrite Hlive, errors_events, length_fmap.
  cbn [request_count_60s error_count_60s error_rate_pct last_success_at hm_state consecutive_recovery_probes].
  split_and!; try done. rewrite last_success_snoc, (kn_success _ _ Hk). by destruct (o_error o).
Qed.

Lemma level_impaired os s : level_of os = Some s → impaired s = true.
Proof. unfold level_of. repeat case_match; by intros [= <-]. Qed.

Lemma update_knows (pct_text : f64 → string) (count_text : Z → string) os s o :
  knows os s → in_order (os ++ [o]) → knows (os ++ [o]) (update_internal pct_text count_text o s).1.
Proof.
  intros Hk Ho. destruct (record_event_knows os s o Hk Ho) as (H1&H2&H3&H4&H5&H6&H7).
  unfold update_internal. set (s1 := record_event _ _ _ s) in *. unfold evaluate_circuit_breaker.
  cbn [hm_state consecutive_recovery_probes].
  match goal with |- context [level (o_now o) ?m] =>
    assert (Hl : level (o_now o) m = level_of (os ++ [o])) end.
  { unfold level, level_of, silence_exceeded. cbn [error_rate_pct last_success_at]. rewrite H4, H5, last_snoc. done. }
  rewrite Hl, H6, H7. clear Hl. destruct Hk as [K1 K2 K3 K4 K5 K6 K7].
  set (n := consecutive_recovery_probes (metrics s)) in *. set (st := hm_state (metrics s)) in *.
  assert (Hn : (if negb (o_error o) && impaired st then wrap32 (n + 1) else n)
               = if negb (o_error o) && impaired st then n + 1 else n).
  { destruct (negb (o_error o) && impaired st); [|done]. apply wrap32_small. clearbody n. width_lia. }
  rewrite Hn. clear Hn. destruct (level_of (os ++ [o])) as [lv|] eqn:El.
  - constructor; cbn [fst events metrics set_state request_count_60s error_count_60s last_success_at
      consecutive_recovery_probes hm_state]; try done.
    + intros _. split; [lia|]. intros k Hk0. rewrite trace_snoc, El, reverse_snoc. done.
    + rewrite (level_impaired _ _ El). done.
  - assert (Hset : ∀ k, settle (reverse (trace (os ++ [o]))) k
      = settle (reverse (trace os)) (k + if negb (o_error o) then 1 else 0)).
    { intros k. rewrite trace_snoc, El, reverse_snoc. done. }
    constructor; cbn [fst events metrics set_state request_count_60s error_count_60s last_success_at
      consecutive_recovery_probes hm_state]; try done.
    + destruct (impaired st) eqn:Ei, (o_error o); simpl; try destruct (K6 eq_refl); lia.
    + destruct (impaired st) eqn:Ei; [|done]. destruct (K6 eq_refl) as [Hlt Hs].
      unfold RECOVERY_CONSECUTIVE_PROBES in *. destruct (o_error o); simpl.
      * rewrite (proj2 (Z.leb_gt 3 n)) by lia. intros _. split; [lia|]. intros k Hk0.
        rewrite Hset. simpl. rewrite Z.add_0_r. by apply Hs.
      * destruct (Z.leb_spec 3 (n + 1)); [done|]. intros _. split; [lia|]. intros k Hk0.
        rewrite Hset. simpl. rewrite Hs by lia. by replace (n + (k + 1)) with (n + 1 + k) by lia.
    + destruct (impaired st) eqn:Ei.
      * destruct (K6 eq_refl) as [Hlt Hs]. unfold RECOVERY_CONSECUTIVE_PROBES in *.
        destruct (o_error o); simpl.
        -- rewrite (proj2 (Z.leb_gt 3 n)) by lia. by rewrite Ei.
        -- destruct (Z.leb_spec 3 (n + 1)); [|by rewrite Ei]. intros _. split; [done|]. intros k Hk0.
           rewrite Hset. simpl. rewrite Hs by lia. by rewrite (proj2 (Z.leb_le 3 (n + (k + 1)))) by lia.
      * intros _. split; [done|]. intros k Hk0. rewrite Hset. apply (proj2 (K7 eq_refl)).
        destruct (negb (o_error o)); lia.
Qed.

Lemma read_knows os mon id provider :
  (match internal_states mon !! id with Some s => knows os s | None => os = [] end) →
  knows os (read_internal mon id provider).
Proof.
  unfold read_internal. destruct (internal_states mon !! id) as [s|]; simpl.
  - intros [K1 K2 K3 K4 K5 K6 K7]. by constructor.
  - intros ->. constructor; simpl; try done.
Qed.

(** The outcomes that a sequence of calls reported for one credential. *)
Definition outcomes_of (id : string) (cs : list (string * string * Outcome)) : list Outcome :=
  omap (λ c, if String.eqb c.1.1 id then Some c.2 else None) cs.
Definition monitor_knows (cs : list (string * string * Outcome)) (mon : ProviderHealthMonitor) (id : string) : Prop :=
  match internal_states mon !! id with
  | Some s => knows (outcomes_of id cs) s ∧ outcomes_of id cs ≠ [] ∧ states mon !! id = Some (metrics s)
  | None => outcomes_of id cs = [] ∧ states mon !! id = None
  end.
Definition empty_monitor : ProviderHealthMonitor := mkMonitor ∅ ∅.

Lemma outcomes_snoc id cs c :
  outcomes_of id (cs ++ [c]) = outcomes_of id cs ++ if String.eqb c.1.1 id then [c.2] else [].
Proof. unfold outcomes_of. rewrite omap_app. f_equal. simpl. by destruct (String.eqb c.1.1 id). Qed.

Lemma monitor_run_knows pct_text count_text cs id :
  in_order (outcomes_of id cs) →
  monitor_knows cs (monitor_run pct_text count_text empty_monitor cs) id.
Proof.
  induction cs as [|c cs IH] using rev_ind; intros Ho; [done|].
  unfold monitor_run. rewrite foldl_snoc. rewrite outcomes_snoc in Ho.
  unfold monitor_knows. rewrite outcomes_snoc.
  assert (Ho' : in_order (outcomes_of id cs)).
  { destruct (String.eqb c.1.1 id); [by apply in_order_snoc in Ho as [??]|by rewrite app_nil_r in Ho]. }
  specialize (IH Ho'). fold (monitor_run pct_text count_text empty_monitor cs).
  set (mon := monitor_run _ _ _ cs) in *. unfold monitor_knows in IH. unfold call_step, record_request.
  destruct (update_internal _ _ _ _) as [s ev] eqn:Eu. unfold write_internal. simpl.
  destruct (String.eqb_spec c.1.1 id) as [He|He].
  - rewrite He, !lookup_insert_eq. split; [|split; [by destruct (outcomes_of id cs)|done]].
    change s with (s, ev).1. rewrite <- Eu. apply update_knows; [|done]. rewrite He. apply read_knows.
    destruct (internal_states mon !! id); [by destruct IH|by destruct IH].
  - rewrite !lookup_insert_ne by done. by rewrite app_nil_r.
Qed.

Lemma credential_state_settled pct_text count_text cs id :
  in_order (outcomes_of id cs) →
  credential_state (monitor_run pct_text count_text empty_monitor cs) id = settled (outcomes_of id cs).
Proof.
  intros Hclock. pose proof (monitor_run_knows pct_text count_text cs id Hclock) as Hk.
  unfold monitor_knows in Hk. unfold credential_state. destruct (internal_states _ !! id) as [s|].
  - destruct Hk as ([K1 K2 K3 K4 K5 K6 K7]&Hne&->). unfold settled.
    destruct (outcomes_of id cs) as [|o os]; [done|]. destruct (impaired (hm_state (metrics s))).
    + destruct (K6 eq_refl) as [Hlt Hs]. rewrite (Hs 0), Z.add_0_r by lia.
      by rewrite (proj2 (Z.leb_gt RECOVERY_CONSECUTIVE_PROBES _)) by done.
    + destruct (K7 eq_refl) as [-> Hs]. by rewrite Hs.
  - by destruct Hk as [-> ->].
Qed.

(** The published state of a credential, after any sequence of recorded
    requests and probes whose clock does not run backwards for it, is a function
    of its own outcomes: unknown before the first, otherwise healthy unless the
    error rate of the last sixty seconds exceeded fifty (or ninety) percent, or the
    last success was over five minutes ago, at some outcome with fewer than three
    successes after it, and then the level of the latest such outcome.  The counts
    are those of the window, and what other credentials report does not matter. *)
Theorem credential_health_exact (pct_text : f64 → string) (count_text : Z → string)
    (cs : list (string * string * Outcome)) (id : string)
    (Hclock : in_order (outcomes_of id cs)) :
  credential_state (monitor_run pct_text count_text empty_monitor cs) id = settled (outcomes_of id cs)
  ∧ (outcomes_of id cs ≠ [] →
     ∃ m, states (monitor_run pct_text count_text empty_monitor cs) !! id = Some m
       ∧ request_count_60s m = Z.of_nat (length (recent (outcomes_of id cs)))
       ∧ error_count_60s m = Z.of_nat (length (List.filter o_error (recent (outcomes_of id cs))))).
Proof.
  split; [by apply credential_state_settled|]. intros Hne.
  pose proof (monitor_run_knows pct_text count_text cs id Hclock) as Hk. unfold monitor_knows in Hk.
  destruct (internal_states _ !! id) as [s|]; [|by destruct Hk]. destruct Hk as ([]&_&->). by eauto.
Qed.
(** Two errors in a row for "k", whatever another credential reports between. *)
Lemma credential_health_exact_witness :
  credential_state (monitor_run (λ _, "") (λ _, "") empty_monitor
    [("k", "p", mkOutcome 0 0 true 5 None); ("j", "p", mkOutcome 1 1 false 5 None);
     ("k", "p", mkOutcome 2 2 true 5 None)]) "k" = Unhealthy.
Proof.
  refine (eq_trans (proj1 (credential_health_exact (λ _, "") (λ _, "")
    [("k", "p", mkOutcome 0 0 true 5 None); ("j", "p", mkOutcome 1 1 false 5 None);
     ("k", "p", mkOutcome 2 2 true 5 None)] "k" _)) _).
  - repeat constructor; vm_compute; discriminate.
  - vm_compute. reflexivity.
Defined.

(** Two requests of one credential that overlap, both having cloned its entry
    before either stored its result, leave the monitor exactly as if only the one
    that stored last had happened: the outcome of the other is in no count and
    moves no state. *)
Theorem concurrent_records_lose_event (pct_text : f64 → string) (count_text : Z → string)
    (mon : ProviderHealthMonitor) (id p1 p2 : string) (o1 o2 : Outcome) :
  write_internal
    (write_internal mon id (update_internal pct_text count_text o1 (read_internal mon id p1)).1)
    id (update_internal pct_text count_text o2 (read_internal mon id p2)).1
  = (record_request pct_text count_text mon id p2 o2).1.
Proof.
  unfold record_request. destruct (update_internal _ _ o2 _) as [s ev]. unfold write_internal. simpl.
  by rewrite !insert_insert_eq.
Qed.

(** Recovery does not need consecutive successes: an outcome that fails while
    the error rate is at most fifty percent leaves the count of recovery probes as
    it is, so an unhealthy credential is healthy again after a third success that
    follows a failure. *)
Theorem recovery_not_consecutive (pct_text : f64 → string) (count_text : Z → string) (id provider : string) :
  let call i err := (id, provider, mkOutcome i i err 1 None) in
  let before := monitor_run pct_text count_text empty_monitor [call 0 true; call 1 false; call 2 false; call 3 true] in
  credential_state before id = Unhealthy
  ∧ credential_state (call_step pct_text count_text before (call 4 false)) id = Healthy.
Proof.
  intros call before. unfold before.
  assert (Ho : ∀ cs, outcomes_of id ((λ c, call c.1 c.2) <$> cs) = (λ c, mkOutcome c.1 c.1 c.2 1 None) <$> cs).
  { intros cs. induction cs as [|c cs IH]; [done|]. rewrite !fmap_cons. unfold outcomes_of in *. simpl.
    rewrite String.eqb_refl. by f_equal. }
  assert (Hrun : ∀ cs, in_order ((λ c, mkOutcome c.1 c.1 c.2 1 None) <$> cs) →
    credential_state (monitor_run pct_text count_text empty_monitor ((λ c, call c.1 c.2) <$> cs)) id
    = settled ((λ c, mkOutcome c.1 c.1 c.2 1 None) <$> cs)).
  { intros cs Hc. rewrite credential_state_settled; by rewrite Ho. }
  split.
  - refine (eq_trans (Hrun [(0, true); (1, false); (2, false); (3, true)] _) _).
    + repeat constructor; vm_compute; discriminate.
    + vm_compute. reflexivity.
  - refine (eq_trans (Hrun [(0, true); (1, false); (2, false); (3, true); (4, false)] _) _).
    + repeat constructor; vm_compute; discriminate.
    + vm_compute. reflexivity.
Qed.
