(* ===== verification/FormatTranslation.v ===== *)
(** * FormatTranslation: provider formats (src/src/gateway/format_translation.rs)

    Requests and responses between the chat-completions format and the native
    formats of providers, as functions on JSON values.  An object that the code
    builds key by key is written with its keys in the order of the map.  The
    clock, and the conversions between JSON numbers and machine numbers, are
    arguments. *)

From Stdlib Require Import ZArith Ascii String.
From stdpp Require Import base gmap strings list.
From S2P Require Import Prelude Text Float Lww Policy ToolCalls Detection Sse.

#[local] Arguments String.append : simpl nomatch.

Inductive ProviderFormat :=
| OpenAI | Anthropic | Cohere | HuggingFace | Replicate | WatsonX | GoogleGemini | AWSBedrock.
#[export] Instance ProviderFormat_eq_dec : EqDecision ProviderFormat.
Proof. solve_decision. Defined.

Definition format_from_str (s : string) : option ProviderFormat :=
  if String.eqb s "openai" then Some OpenAI
  else if String.eqb s "anthropic" then Some Anthropic
  else if String.eqb s "cohere" then Some Cohere
  else if String.eqb s "huggingface" then Some HuggingFace
  else if String.eqb s "replicate" then Some Replicate
  else if String.eqb s "watsonx" then Some WatsonX
  else if String.eqb s "google-gemini" then Some GoogleGemini
  else if String.eqb s "aws-bedrock" || String.eqb s "bedrock" then Some AWSBedrock
  else None.
Definition format_as_str (f : ProviderFormat) : string :=
  match f with
  | OpenAI => "openai"
  | Anthropic => "anthropic"
  | Cohere => "cohere"
  | HuggingFace => "huggingface"
  | Replicate => "replicate"
  | WatsonX => "watsonx"
  | GoogleGemini => "google-gemini"
  | AWSBedrock => "aws-bedrock"
  end.

(** An entry of an object. *)
#[local] Notation "k ↦ v" := (k%string, v) (at level 60, only parsing).

Section translation.
Context `{SerdeJson}.
Abbreviation value := (Value Number).
Abbreviation Translated := (Result value string).
(** [Number::as_u64], [Value::from(u64)], [Number::as_f64] and [Value::from(f64)]. *)
Variable as_u64 : Number → option Z.
Variable num : Z → Number.
Variable as_f64 : Number → option f64.
Variable of_f64 : f64 → value.

Definition has (v : value) (key : string) : bool := bool_decide (is_Some (json_get v key)).
Definition get_f64 (v : value) (key : string) : option f64 :=
  json_get v key ≫= λ x, match x with Num n => as_f64 n | _ => None end.
Definition get_bool (v : value) (key : string) : option bool := json_get v key ≫= json_as_bool.
(** A field of an object, present when its value is. *)
Definition field (key : string) (o : option value) : list (string * value) :=
  match o with Some v => [(key, v)] | None => [] end.
(** [json!] of an optional value. *)
Definition or_null (o : option value) : value := default Null o.
Definition str_or (d : string) (o : option string) : value := Str (default d o).
Definition user_message (text : string) : value :=
  Obj ["content" ↦ Str text; "role" ↦ Str "user"].

(** ** Formats *)
Definition infer_request_format (body : value) : ProviderFormat :=
  if has body "anthropic_version" then Anthropic
  else if has body "model_id" && has body "input" then WatsonX
  else if has body "contents" || has body "systemInstruction" then GoogleGemini
  else if has body "message" && has body "chat_history" then Cohere
  else if has body "inputs" then HuggingFace
  else if has body "input" then
    if has body "model" || has body "instructions" || has body "max_output_tokens"
       || has body "response_format" || has body "modalities" || has body "text"
       || has body "previous_response_id"
    then OpenAI else Replicate
  else OpenAI.
Definition route_native_format (path : string) (body : value) : ProviderFormat :=
  if String.eqb path "/v1/messages" then Anthropic
  else if String.eqb path "/v1/chat/completions" || String.eqb path "/v1/responses"
          || String.eqb path "/v1/embeddings" || String.eqb path "/v1/audio/transcriptions"
          || String.eqb path "/v1/audio/speech" then OpenAI
  else infer_request_format body.

(** ** Reading chat completions *)
Definition openai_messages (body : value) : list value := default [] (get_array body "messages").
Definition texts (parts : list value) : list string := omap (λ p, get_str p "text") parts.
Definition LF_text : string := String LF EmptyString.
Definition message_text (message : value) : string :=
  match json_get message "content" with
  | Some (Str text) => text
  | Some (Arr parts) => String.concat LF_text (texts parts)
  | _ => EmptyString
  end.
Definition has_role (role : string) (message : value) : bool :=
  bool_decide (get_str message "role" = Some role).
Definition latest_user_message (messages : list value) : string :=
  default EmptyString (message_text <$> List.find (has_role "user") (reverse messages)).
Definition system_prompt (messages : list value) : option string :=
  let system := String.concat (LF_text ++ LF_text)
    (List.filter (λ t, negb (is_empty t)) (message_text <$> List.filter (has_role "system") messages)) in
  if is_empty system then None else Some system.
Definition flattened_prompt (messages : list value) : string :=
  String.concat LF_text (omap (λ message,
    get_str message "role" ≫= λ role,
    let content := message_text message in
    if is_empty content then None else Some (role ++ ": " ++ content)%string) messages).
Definition first_choice (body : value) : option value :=
  get_array body "choices" ≫= λ cs, head cs.
Definition openai_response_content (body : value) : string :=
  default EmptyString (message_text <$> get_in (first_choice body) "message").
Definition openai_finish_reason (body : value) : string :=
  default "stop"%string (get_in (first_choice body) "finish_reason" ≫= json_as_str).
(** [build_openai_response], whose caller may set the tool calls and the usage. *)
Definition build_openai_response (model : option string) (content finish_reason : string)
    (tool_calls usage : option value) : value :=
  Obj (["choices" ↦ Arr [Obj
          ["finish_reason" ↦ Str finish_reason; "index" ↦ Num (num 0);
           "message" ↦ Obj (["content" ↦ Str content; "role" ↦ Str "assistant"]
                            ++ field "tool_calls" tool_calls)]];
        "created" ↦ Num (num 0); "id" ↦ Str "verdictan-translated";
        "model" ↦ str_or "translated-model" model; "object" ↦ Str "chat.completion"]
       ++ field "usage" usage).

(** [messages], or [input] as an array or as a text. *)
Definition messages_or_input (body : value) : list value :=
  match get_array body "messages" with
  | Some ms => ms
  | None =>
      match get_array body "input" with
      | Some ms => ms
      | None => match get_str body "input" with Some text => [user_message text] | None => [] end
      end
  end.
Definition role_of (message : value) : string := default "user"%string (get_str message "role").
(** [message.get("content").cloned().unwrap_or_else(|| json!(message_text(message)))]. *)
Definition content_of (message : value) : value := default (Str (message_text message)) (json_get message "content").
(** [max_tokens], or else [max_completion_tokens]. *)
Definition max_tokens_of (body : value) : option value :=
  match json_get body "max_tokens" with Some v => Some v | None => json_get body "max_completion_tokens" end.

(** ** The Responses format *)
Definition function_call_item (id name arguments : string) : value :=
  Obj ["arguments" ↦ Str arguments; "call_id" ↦ Str id; "id" ↦ Str id; "name" ↦ Str name;
       "type" ↦ Str "function_call"].
Definition message_item (text : string) : value :=
  Obj ["content" ↦ Arr [Obj ["text" ↦ Str text; "type" ↦ Str "output_text"]];
       "role" ↦ Str "assistant"; "type" ↦ Str "message"].
Definition responses_body (id model : string) (output : list value) (usage : value) : value :=
  Obj ["id" ↦ Str id; "model" ↦ Str model; "object" ↦ Str "response"; "output" ↦ Arr output;
       "status" ↦ Str "completed"; "usage" ↦ usage].
(** The arguments of a call as a text; an absent value is an empty object. *)
Definition arguments_text (o : option value) : string :=
  match o with
  | Some (Str s) => s
  | Some v => canonical_json_string v
  | None => "{}"
  end.
Definition call_item (tool_call : value) : Translated :=
  match json_get tool_call "function" with
  | None => Err "OpenAI tool call is missing function"%string
  | Some function =>
      Ok (function_call_item (default EmptyString (get_str tool_call "id"))
            (default EmptyString (get_str function "name"))
            (arguments_text (json_get function "arguments")))
  end.
Fixpoint call_items (tool_calls : list value) : Result (list value) string :=
  match tool_calls with
  | [] => Ok []
  | tc :: tcs =>
      match call_item tc with
      | Err e => Err e
      | Ok item => match call_items tcs with Ok items => Ok (item :: items) | Err e => Err e end
      end
  end.
Definition openai_chat_completion_to_responses_response (body : value) : Translated :=
  match first_choice body with
  | None => Err "OpenAI response is missing choices[0]"%string
  | Some choice =>
      match json_get choice "message" with
      | None => Err "OpenAI response is missing choices[0].message"%string
      | Some message =>
          let content := message_text message in
          match call_items (default [] (get_array message "tool_calls")) with
          | Err e => Err e
          | Ok calls =>
              let output := (if is_empty content then [] else [message_item content]) ++ calls in
              match output with
              | [] => Err "OpenAI response did not include assistant content or tool calls"%string
              | _ => Ok (responses_body (default "resp_unknown"%string (get_str body "id"))
                           (default "translated-model"%string (get_str body "model")) output
                           (default (Obj []) (json_get body "usage")))
              end
          end
      end
  end.

(** ** Anthropic *)

(** [url.splitn(2, ',')], its two parts. *)
Definition split_comma (s : string) : string * string :=
  match split_once "," s with Some p => p | None => (s, EmptyString) end.
Definition strip_prefix (p s : string) : option string :=
  if String.prefix p s then Some (slice s (String.length p) (String.length s)) else None.
Definition strip_suffix (p s : string) : option string :=
  let n := (String.length s - String.length p)%nat in
  if (String.length p <=? String.length s)%nat && String.eqb (slice s n (String.length s)) p
  then Some (slice s 0 n) else None.
Definition text_block (text : string) : value := Obj ["text" ↦ Str text; "type" ↦ Str "text"].
Definition image_block (url : string) : value :=
  Obj ["source" ↦
         (if String.prefix "data:" url then
            let '(header, data) := split_comma url in
            let media_type := default "image/jpeg"%string
              (strip_prefix "data:" header ≫= strip_suffix ";base64") in
            Obj ["data" ↦ Str data; "media_type" ↦ Str media_type; "type" ↦ Str "base64"]
          else Obj ["type" ↦ Str "url"; "url" ↦ Str url]);
       "type" ↦ Str "image"].
Definition content_block (item : value) : option value :=
  get_str item "type" ≫= λ typ,
  if String.eqb typ "text" then Some (text_block (default EmptyString (get_str item "text")))
  else if String.eqb typ "document" then
    json_get item "source" ≫= λ source,
    if String.eqb (default "application/pdf"%string (get_str source "media_type")) "application/pdf"
    then Some (Obj ["source" ↦ source; "type" ↦ Str "document"]) else None
  else if String.eqb typ "image_url" then
    image_block <$> (get_in (json_get item "image_url") "url" ≫= json_as_str)
  else if String.eqb typ "tool_use" || String.eqb typ "tool_result" || String.eqb typ "thinking"
  then Some item
  else None.
Definition extract_message_content (msg : value) : value :=
  match get_array msg "content" with
  | Some items =>
      let blocks := omap content_block items in
      match blocks with
      | [b] => match get_str b "text" with Some text => Str text | None => Arr blocks end
      | _ => Arr blocks
      end
  | None => default (Str EmptyString) (json_get msg "content")
  end.

(** One message of a chat: a part of the system prompt, or a message. *)
Definition anthropic_message (msg : value) : list string * list value :=
  let role := role_of msg in
  if String.eqb role "system" then
    (match get_str msg "content" with Some c => [c] | None => [] end, [])
  else if String.eqb role "user" || String.eqb role "assistant" then
    ([], [Obj ["content" ↦ extract_message_content msg; "role" ↦ Str role]])
  else if String.eqb role "tool" then
    ([], [Obj ["content" ↦ Arr [Obj
                  ["content" ↦ str_or EmptyString (get_str msg "content");
                   "tool_use_id" ↦ str_or EmptyString (get_str msg "tool_call_id");
                   "type" ↦ Str "tool_result"]];
               "role" ↦ Str "user"]])
  else ([], []).
Definition no_properties : value := Obj ["properties" ↦ Obj []; "type" ↦ Str "object"].
Definition anthropic_tool (tool : value) : option value :=
  json_get tool "function" ≫= λ func,
  get_str func "name" ≫= λ name,
  Some (Obj ["description" ↦ str_or EmptyString (get_str func "description");
             "input_schema" ↦ default no_properties (json_get func "parameters");
             "name" ↦ Str name]).
Definition anthropic_tool_choice (tc : value) : value :=
  let typed t := Obj ["type" ↦ Str t] in
  match json_as_str tc with
  | Some t =>
      if String.eqb t "auto" then typed "auto"%string
      else if String.eqb t "required" then typed "any"%string
      else if String.eqb t "none" then typed "none"%string
      else typed "auto"%string
  | None =>
      match pointer_str tc "function" "name" with
      | Some name => Obj ["name" ↦ Str name; "type" ↦ Str "tool"]
      | None => typed "auto"%string
      end
  end.
(** [tools.iter().filter_map(f)], inserted when it is not empty. *)
Definition tools_field (f : value → option value) (body : value) : option value :=
  match omap f (default [] (get_array body "tools")) with [] => None | ts => Some (Arr ts) end.
Definition known_fields : list string :=
  ["model"; "messages"; "max_tokens"; "max_completion_tokens"; "temperature"; "top_p"; "stream";
   "tools"; "tool_choice"; "n"; "stop"]%string.
Definition is_known (key : string) : bool :=
  bool_decide (key ∈ known_fields) || String.eqb key "verdictan".
Definition metadata_extra (body : value) : option value :=
  match List.filter (λ kv, negb (is_known kv.1)) (default [] (json_as_object body)) with
  | [] => None
  | kvs => Some (Obj kvs)
  end.
Definition openai_to_anthropic_request (body : value) : Translated :=
  if has body "response_format"
  then Err "Anthropic routing does not support response_format structured outputs"%string
  else
    let parts := anthropic_message <$> messages_or_input body in
    let system := concat (fst <$> parts) in
    Ok (Obj (
      ["max_tokens" ↦ Num (num (default 4096%Z (max_tokens_of body ≫= json_as_u64 as_u64)));
       "messages" ↦ Arr (concat (snd <$> parts))]
      ++ field "metadata" (metadata_extra body)
      ++ field "model" (Str <$> get_str body "model")
      ++ field "stream" (Bool <$> get_bool body "stream")
      ++ field "system" (match system with
                         | [] => None
                         | _ => Some (Str (String.concat (LF_text ++ LF_text) system))
                         end)
      ++ field "temperature" (of_f64 <$> get_f64 body "temperature")
      ++ field "tool_choice" (anthropic_tool_choice <$> json_get body "tool_choice")
      ++ field "tools" (tools_field anthropic_tool body)
      ++ field "top_p" (of_f64 <$> get_f64 body "top_p"))).

(** The text of a block of type text. *)
Definition is_text (block : value) : bool := bool_decide (get_str block "type" = Some "text"%string).
Definition anthropic_content_to_openai (content : option value) : value :=
  match content with
  | None => Str EmptyString
  | Some (Arr blocks) =>
      let text_parts := texts (List.filter is_text blocks) in
      match text_parts with
      | _ :: _ => if forallb is_text blocks then Str (String.concat EmptyString text_parts) else Arr blocks
      | [] => Arr blocks
      end
  | Some v => v
  end.
Definition openai_tool (tool : value) : option value :=
  get_str tool "name" ≫= λ name,
  Some (Obj ["function" ↦ Obj ["description" ↦ str_or EmptyString (get_str tool "description");
                               "name" ↦ Str name;
                               "parameters" ↦ default no_properties (json_get tool "input_schema")];
             "type" ↦ Str "function"]).
Definition openai_tool_choice (tc : value) : value :=
  match get_str tc "type" with
  | Some t =>
      if String.eqb t "auto" then Str "auto"
      else if String.eqb t "any" then Str "required"
      else if String.eqb t "none" then Str "none"
      else if String.eqb t "tool" then
        match get_str tc "name" with
        | Some name => Obj ["function" ↦ Obj ["name" ↦ Str name]; "type" ↦ Str "function"]
        | None => Str "auto"
        end
      else Str "auto"
  | None => Str "auto"
  end.
Definition openai_message (msg : value) : value :=
  Obj ["content" ↦ anthropic_content_to_openai (json_get msg "content"); "role" ↦ Str (role_of msg)].
Definition anthropic_to_openai_request (body : value) : Translated :=
  let system :=
    match get_str body "system" with
    | Some s => if is_empty (trim s) then [] else [Obj ["content" ↦ Str s; "role" ↦ Str "system"]]
    | None => []
    end in
  Ok (Obj (
    field "max_tokens" ((λ n, Num (num n)) <$> get_u64 as_u64 body "max_tokens")
    ++ ["messages" ↦ Arr (system ++ (openai_message <$> default [] (get_array body "messages")))]
    ++ field "model" (Str <$> get_str body "model")
    ++ field "stream" (Bool <$> get_bool body "stream")
    ++ field "temperature" (of_f64 <$> get_f64 body "temperature")
    ++ field "tool_choice" (openai_tool_choice <$> json_get body "tool_choice")
    ++ field "tools" (tools_field openai_tool body)
    ++ field "top_p" (of_f64 <$> get_f64 body "top_p"))).

Definition extract_anthropic_text_content (body : value) : string :=
  String.concat EmptyString (texts (List.filter is_text (default [] (get_array body "content")))).
Definition tool_use_call (block : value) : option value :=
  if bool_decide (get_str block "type" = Some "tool_use"%string) then
    Some (Obj ["function" ↦ Obj
                 ["arguments" ↦ Str (canonical_json_string (default (Obj []) (json_get block "input")));
                  "name" ↦ str_or EmptyString (get_str block "name")];
               "id" ↦ str_or EmptyString (get_str block "id"); "type" ↦ Str "function"])
  else None.
Definition extract_anthropic_tool_uses (body : value) : list value :=
  omap tool_use_call (default [] (get_array body "content")).
Definition map_anthropic_stop_reason (reason : string) : string :=
  if String.eqb reason "max_tokens" then "length"
  else if String.eqb reason "tool_use" then "tool_calls" else "stop".
(** The sum of two [u64] wraps in a release build. *)
Definition usage_body (input output total : Z) : value :=
  Obj ["completion_tokens" ↦ Num (num output); "prompt_tokens" ↦ Num (num input);
       "total_tokens" ↦ Num (num total)].
Definition tokens (usage : value) (key : string) : Z := default 0%Z (get_u64 as_u64 usage key).
Definition map_anthropic_usage (usage : value) : value :=
  let input := tokens usage "input_tokens" in
  let output := tokens usage "output_tokens" in
  usage_body input output (wrap64 (input + output)).
(** [anthropic_to_openai_response]; [now] is the clock, in seconds. *)
Definition anthropic_to_openai_response (now : Z) (body : value) : Translated :=
  let tool_calls := match extract_anthropic_tool_uses body with [] => None | tcs => Some (Arr tcs) end in
  Ok (Obj ["choices" ↦ Arr [Obj
             ["finish_reason" ↦ str_or "stop" (map_anthropic_stop_reason <$> get_str body "stop_reason");
              "index" ↦ Num (num 0);
              "message" ↦ Obj (["content" ↦ Str (extract_anthropic_text_content body);
                                "role" ↦ Str "assistant"] ++ field "tool_calls" tool_calls)]];
           "created" ↦ Num (num now);
           "id" ↦ Str ("chatcmpl_" ++ default "msg_unknown" (get_str body "id"));
           "model" ↦ str_or "unknown" (get_str body "model"); "object" ↦ Str "chat.completion";
           "usage" ↦ default (Obj []) (map_anthropic_usage <$> json_get body "usage")]).
Definition anthropic_reason (reason : string) : string :=
  if String.eqb reason "length" then "max_tokens"
  else if String.eqb reason "tool_calls" then "tool_use" else "end_turn".
Definition openai_to_anthropic_response (body : value) : Translated :=
  let '(content_text, finish_reason) :=
    match first_choice body with
    | Some choice =>
        (default EmptyString (pointer_str choice "message" "content"),
         anthropic_reason (default "stop"%string (get_str choice "finish_reason")))
    | None => (EmptyString, EmptyString)
    end in
  let usage :=
    match json_get body "usage" with
    | Some u => Obj ["input_tokens" ↦ Num (num (tokens u "prompt_tokens"));
                     "output_tokens" ↦ Num (num (tokens u "completion_tokens"))]
    | None => Obj ["input_tokens" ↦ Num (num 0); "output_tokens" ↦ Num (num 0)]
    end in
  Ok (Obj ["content" ↦ Arr [text_block content_text]; "id" ↦ str_or "chatcmpl_unknown" (get_str body "id");
           "model" ↦ str_or "unknown" (get_str body "model"); "role" ↦ Str "assistant";
           "stop_reason" ↦ Str finish_reason; "type" ↦ Str "message"; "usage" ↦ usage]).
Definition output_item (block : value) : option value :=
  match get_str block "type" with
  | Some t =>
      if String.eqb t "text" then Some (message_item (default EmptyString (get_str block "text")))
      else if String.eqb t "tool_use" then
        Some (function_call_item (default EmptyString (get_str block "id"))
                (default EmptyString (get_str block "name"))
                (canonical_json_string (default (Obj []) (json_get block "input"))))
      else None
  | None => None
  end.
Definition anthropic_to_openai_responses_response (body : value) : Translated :=
  Ok (responses_body (default "resp_unknown"%string (get_str body "id"))
        (default "unknown"%string (get_str body "model"))
        (omap output_item (default [] (get_array body "content")))
        (default (Obj []) (map_anthropic_usage <$> json_get body "usage"))).

(** ** Cohere *)
Definition cohere_message (message : value) : option value :=
  let role := role_of message in
  if String.eqb role "system" || String.eqb role "user" || String.eqb role "assistant" then
    Some (Obj (["content" ↦ content_of message; "role" ↦ Str role]
               ++ field "tool_calls" (if String.eqb role "assistant"
                                      then Arr <$> get_array message "tool_calls" else None)))
  else if String.eqb role "tool" then
    let document data := Arr [Obj ["document" ↦ Obj ["data" ↦ data]; "type" ↦ Str "document"]] in
    Some (Obj ["content" ↦ match json_get message "content" with
                           | Some (Arr items) => Arr items
                           | Some v => document v
                           | None => Arr []
                           end;
               "role" ↦ Str "tool"; "tool_call_id" ↦ str_or EmptyString (get_str message "tool_call_id")])
  else None.
Definition openai_to_cohere_request (body : value) : Translated :=
  let tool_choice := json_get body "tool_choice" in
  let strict :=
    match tool_choice with
    | Some (Str t) => if String.eqb t "required" then Some (Bool true) else None
    | Some _ => Some (Bool true)
    | None => None
    end in
  let copied key := field key (json_get body key) in
  Ok (Obj (
    copied "frequency_penalty"%string
    ++ field "max_tokens" (match json_get body "max_completion_tokens" with
                           | Some v => Some v
                           | None => json_get body "max_tokens"
                           end)
    ++ ["messages" ↦ Arr (omap cohere_message (messages_or_input body));
        "model" ↦ default (Str EmptyString) (json_get body "model")]
    ++ copied "presence_penalty"%string ++ copied "response_format"%string ++ copied "seed"%string
    ++ field "stop_sequences" (json_get body "stop")
    ++ ["stream" ↦ default (Bool false) (json_get body "stream")]
    ++ field "strict_tools" strict
    ++ copied "temperature"%string ++ field "tool_choice" tool_choice
    ++ copied "tools"%string ++ copied "top_p"%string)).
Definition copied_message (item : value) : value :=
  Obj (["content" ↦ content_of item; "role" ↦ Str (role_of item)]
       ++ field "tool_call_id" (json_get item "tool_call_id")
       ++ field "tool_calls" (json_get item "tool_calls")).
Definition cohere_to_openai_request (body : value) : Translated :=
  Ok (Obj ["max_tokens" ↦ or_null (json_get body "max_tokens");
           "messages" ↦ Arr (copied_message <$> default [] (get_array body "messages"));
           "model" ↦ default (Str EmptyString) (json_get body "model");
           "stream" ↦ default (Bool false) (json_get body "stream");
           "temperature" ↦ or_null (json_get body "temperature");
           "top_p" ↦ or_null (json_get body "top_p")]).
Definition cohere_tool_call (tool_call : value) : value :=
  let fn := json_get tool_call "function" in
  Obj ["function" ↦ Obj ["arguments" ↦ Str (arguments_text (get_in fn "arguments"));
                         "name" ↦ str_or EmptyString (get_in fn "name" ≫= json_as_str)];
       "id" ↦ str_or EmptyString (get_str tool_call "id");
       "type" ↦ str_or "function" (get_str tool_call "type")].
(** The third alternative, [/usage/tokens], needs a [usage], which the first takes. *)
Definition cohere_usage (body : value) : option value :=
  match json_get body "usage" with
  | Some u => Some u
  | None =>
      match get_in (json_get body "meta") "billed_units" with
      | Some u => Some (usage_body (tokens u "input_tokens") (tokens u "output_tokens")
                          (wrap64 (tokens u "input_tokens" + tokens u "output_tokens")))
      | None => None
      end
  end.
Definition cohere_to_openai_response (body : value) : Translated :=
  match json_get body "message" with
  | None => Err "cohere response is missing message"%string
  | Some message =>
      let content := match json_get message "content" with
                     | Some (Str text) => text
                     | Some (Arr items) => String.concat EmptyString (texts items)
                     | _ => EmptyString
                     end in
      let tool_calls := default [] (get_array message "tool_calls") in
      match is_empty content, tool_calls with
      | true, [] => Err "cohere response did not include assistant content or tool calls"%string
      | _, _ =>
          let finish_reason := default (match tool_calls with [] => "stop" | _ => "tool_calls" end)%string
                                 (get_str body "finish_reason") in
          Ok (build_openai_response (Some (default "cohere"%string (get_str body "model"))) content
                finish_reason
                (match tool_calls with [] => None | _ => Some (Arr (cohere_tool_call <$> tool_calls)) end)
                (cohere_usage body))
      end
  end.
Definition openai_to_cohere_response (body : value) : Translated :=
  Ok (Obj ["finish_reason" ↦ Str (openai_finish_reason body); "text" ↦ Str (openai_response_content body)]).

(** ** Hugging Face, Replicate, watsonx and Gemini *)
Definition openai_to_huggingface_request (body : value) : Translated :=
  Ok (Obj ["inputs" ↦ Str (flattened_prompt (openai_messages body));
           "options" ↦ Obj ["wait_for_model" ↦ Bool true];
           "parameters" ↦ Obj ["max_new_tokens" ↦ or_null (max_tokens_of body);
                               "temperature" ↦ or_null (json_get body "temperature");
                               "top_p" ↦ or_null (json_get body "top_p")]]).
Definition huggingface_to_openai_request (body : value) : Translated :=
  let parameter key := or_null (get_in (json_get body "parameters") key) in
  Ok (Obj ["max_tokens" ↦ parameter "max_new_tokens"%string;
           "messages" ↦ Arr [user_message (default EmptyString (get_str body "inputs"))];
           "temperature" ↦ parameter "temperature"%string; "top_p" ↦ parameter "top_p"%string]).
Definition huggingface_to_openai_response (body : value) : Translated :=
  let first := json_as_array body ≫= λ items, head items in
  let content := match get_in first "generated_text" ≫= json_as_str with
                 | Some t => t
                 | None => default EmptyString (get_str body "generated_text")
                 end in
  Ok (build_openai_response None content "stop" None None).
Definition openai_to_huggingface_response (body : value) : Translated :=
  Ok (Arr [Obj ["generated_text" ↦ Str (openai_response_content body)]]).

Definition openai_to_replicate_request (body : value) : Translated :=
  let messages := openai_messages body in
  Ok (Obj ["input" ↦ Obj ["max_new_tokens" ↦ or_null (max_tokens_of body);
                          "prompt" ↦ Str (latest_user_message messages);
                          "system_prompt" ↦ or_null (Str <$> system_prompt messages);
                          "temperature" ↦ or_null (json_get body "temperature");
                          "top_p" ↦ or_null (json_get body "top_p")]]).
Definition role_message (role text : string) : value := Obj ["content" ↦ Str text; "role" ↦ Str role].
Definition replicate_item (item : value) : option value :=
  match json_as_str item with
  | Some text => if is_empty (trim text) then None else Some (role_message "user" text)
  | None =>
      let content := message_text item in
      if is_empty (trim content) then None else Some (role_message (role_of item) content)
  end.
Definition replicate_to_openai_request (body : value) : Translated :=
  let answer messages := Ok (Obj ["messages" ↦ Arr messages]) in
  match json_get body "input" with
  | None => answer []
  | Some input =>
      match get_str input "prompt" with
      | Some prompt =>
          answer (match get_str input "system_prompt" with
                  | Some system => [role_message "system" system]
                  | None => []
                  end ++ [role_message "user" prompt])
      | None =>
          match input with
          | Str text => answer [role_message "user" text]
          | Arr items => answer (omap replicate_item items)
          | _ => answer []
          end
      end
  end.
Definition replicate_to_openai_response (body : value) : Translated :=
  let content := match json_get body "output" with
                 | Some (Str text) => text
                 | Some (Arr items) => String.concat EmptyString (omap json_as_str items)
                 | _ => EmptyString
                 end in
  Ok (build_openai_response None content "stop" None None).
Definition openai_to_replicate_response (body : value) : Translated :=
  Ok (Obj (["output" ↦ Str (openai_response_content body); "status" ↦ Str "succeeded"]
           ++ field "usage" (json_get body "usage"))).

Definition openai_to_watsonx_request (body : value) : Translated :=
  let copied key := field key (json_get body key) in
  let '(choice, option_) :=
    match json_get body "tool_choice" with
    | Some (Str t) => (None, Some (Str t))
    | Some v => (Some v, None)
    | None => (None, None)
    end in
  Ok (Obj (
    copied "frequency_penalty"%string ++ copied "max_completion_tokens"%string ++ copied "max_tokens"%string
    ++ ["messages" ↦ Arr (copied_message <$> messages_or_input body);
        "model_id" ↦ default (Str EmptyString) (json_get body "model")]
    ++ copied "presence_penalty"%string ++ copied "response_format"%string ++ copied "seed"%string
    ++ copied "stop"%string ++ copied "stream"%string ++ copied "temperature"%string
    ++ field "tool_choice" choice ++ field "tool_choice_option" option_
    ++ copied "tools"%string ++ copied "top_p"%string)).
Definition watsonx_to_openai_request (body : value) : Translated :=
  let copied key := or_null (json_get body key) in
  Ok (Obj ["max_completion_tokens" ↦ copied "max_completion_tokens"%string;
           "max_tokens" ↦ copied "max_tokens"%string;
           "messages" ↦ default (Arr []) (json_get body "messages");
           "model" ↦ match json_get body "model" with
                     | Some m => m
                     | None => default (Str EmptyString) (json_get body "model_id")
                     end;
           "response_format" ↦ copied "response_format"%string;
           "stream" ↦ default (Bool false) (json_get body "stream");
           "temperature" ↦ copied "temperature"%string; "tools" ↦ copied "tools"%string;
           "top_p" ↦ copied "top_p"%string]).
Definition watsonx_to_openai_response (body : value) : Translated :=
  match get_array body "choices" with
  | None => Err "watsonx response is missing choices"%string
  | Some [] => Err "watsonx response is missing choices[0]"%string
  | Some (choice :: _) =>
      match json_get choice "message" with
      | None => Err "watsonx response is missing choices[0].message"%string
      | Some message =>
          match is_empty (message_text message), default [] (get_array message "tool_calls") with
          | true, [] => Err "watsonx response did not include assistant content or tool calls"%string
          | _, _ =>
              let response := if has body "object" then body
                              else with_object (map_insert "object" (Str "chat.completion")) body in
              Ok (if has response "model" then response
                  else match json_get response "model_id" with
                       | Some m => with_object (map_insert "model" m) response
                       | None => response
                       end)
          end
      end
  end.
Definition openai_to_watsonx_response (body : value) : Translated :=
  Ok (Obj ["results" ↦ Arr [Obj ["generated_text" ↦ Str (openai_response_content body);
                                 "stop_reason" ↦ Str (openai_finish_reason body)]]]).

Definition gemini_content (message : value) : option value :=
  get_str message "role" ≫= λ role,
  if String.eqb role "system" then None
  else Some (Obj ["parts" ↦ Arr [Obj ["text" ↦ Str (message_text message)]];
                  "role" ↦ Str (if String.eqb role "assistant" then "model" else "user")]).
Definition openai_to_google_gemini_request (body : value) : Translated :=
  let messages := openai_messages body in
  Ok (Obj ["contents" ↦ Arr (omap gemini_content messages);
           "generationConfig" ↦ Obj ["maxOutputTokens" ↦ or_null (max_tokens_of body);
                                     "stopSequences" ↦ or_null (json_get body "stop");
                                     "temperature" ↦ or_null (json_get body "temperature");
                                     "topP" ↦ or_null (json_get body "top_p")];
           "systemInstruction" ↦
             or_null ((λ text, Obj ["parts" ↦ Arr [Obj ["text" ↦ Str text]]]) <$> system_prompt messages)]).
Definition joined_parts (v : option value) : option string :=
  (λ parts, String.concat LF_text (texts parts)) <$> (get_in v "parts" ≫= json_as_array).
Definition google_gemini_to_openai_request (body : value) : Translated :=
  let system := match joined_parts (json_get body "systemInstruction") with
                | Some text => if is_empty text then [] else [role_message "system" text]
                | None => []
                end in
  let content item := role_message (if has_role "model" item then "assistant" else "user")
                        (default EmptyString (joined_parts (Some item))) in
  let config key := or_null (get_in (json_get body "generationConfig") key) in
  Ok (Obj ["max_tokens" ↦ config "maxOutputTokens"%string;
           "messages" ↦ Arr (system ++ (content <$> default [] (get_array body "contents")));
           "stop" ↦ config "stopSequences"%string; "temperature" ↦ config "temperature"%string;
           "top_p" ↦ config "topP"%string]).
Definition gemini_reason (reason : string) : string :=
  if String.eqb reason "MAX_TOKENS" then "length"
  else if String.eqb reason "SAFETY" then "content_filter" else "stop".
Definition google_gemini_to_openai_response (body : value) : Translated :=
  let candidate := get_array body "candidates" ≫= λ cs, head cs in
  let content := default EmptyString (joined_parts (get_in candidate "content")) in
  let finish_reason := default "stop"%string (gemini_reason <$> (get_in candidate "finishReason" ≫= json_as_str)) in
  let count u key := default (Num (num 0)) (json_get u key) in
  Ok (build_openai_response None content finish_reason None
        ((λ u, Obj ["completion_tokens" ↦ count u "candidatesTokenCount"%string;
                    "prompt_tokens" ↦ count u "promptTokenCount"%string;
                    "total_tokens" ↦ count u "totalTokenCount"%string])
         <$> json_get body "usageMetadata")).
Definition openai_to_google_gemini_response (body : value) : Translated :=
  let r := openai_finish_reason body in
  Ok (Obj ["candidates" ↦ Arr [Obj
             ["content" ↦ Obj ["parts" ↦ Arr [Obj ["text" ↦ Str (openai_response_content body)]];
                               "role" ↦ Str "model"];
              "finishReason" ↦ Str (if String.eqb r "length" then "MAX_TOKENS"
                                    else if String.eqb r "content_filter" then "SAFETY" else "STOP")]]]).

(** ** Dispatch *)
Definition unsupported (what : string) (from to : ProviderFormat) : string :=
  ("unsupported " ++ what ++ " translation from '" ++ format_as_str from ++ "' to '" ++ format_as_str to ++ "'")%string.
Definition translate_request (body : value) (from to : ProviderFormat) : Translated :=
  if bool_decide (from = to) then Ok body
  else match from, to with
  | OpenAI, Anthropic => openai_to_anthropic_request body
  | OpenAI, Cohere => openai_to_cohere_request body
  | OpenAI, HuggingFace => openai_to_huggingface_request body
  | OpenAI, Replicate => openai_to_replicate_request body
  | OpenAI, WatsonX => openai_to_watsonx_request body
  | OpenAI, GoogleGemini => openai_to_google_gemini_request body
  | Anthropic, OpenAI => anthropic_to_openai_request body
  | Cohere, OpenAI => cohere_to_openai_request body
  | HuggingFace, OpenAI => huggingface_to_openai_request body
  | Replicate, OpenAI => replicate_to_openai_request body
  | WatsonX, OpenAI => watsonx_to_openai_request body
  | GoogleGemini, OpenAI => google_gemini_to_openai_request body
  | _, _ => Err (unsupported "request" from to)
  end.
Definition translate_response (now : Z) (body : value) (from to : ProviderFormat) : Translated :=
  if bool_decide (from = to) then Ok body
  else match from, to with
  | Anthropic, OpenAI => anthropic_to_openai_response now body
  | OpenAI, Anthropic => openai_to_anthropic_response body
  | Cohere, OpenAI => cohere_to_openai_response body
  | OpenAI, Cohere => openai_to_cohere_response body
  | HuggingFace, OpenAI => huggingface_to_openai_response body
  | OpenAI, HuggingFace => openai_to_huggingface_response body
  | Replicate, OpenAI => replicate_to_openai_response body
  | OpenAI, Replicate => openai_to_replicate_response body
  | WatsonX, OpenAI => watsonx_to_openai_response body
  | OpenAI, WatsonX => openai_to_watsonx_response body
  | GoogleGemini, OpenAI => google_gemini_to_openai_response body
  | OpenAI, GoogleGemini => openai_to_google_gemini_response body
  | _, _ => Err (unsupported "response" from to)
  end.
Definition translate_response_for_path (now : Z) (body : value) (from : ProviderFormat) (path : string) :
    Translated :=
  if String.eqb path "/v1/chat/completions" then translate_response now body from OpenAI
  else if String.eqb path "/v1/messages" then translate_response now body from Anthropic
  else if String.eqb path "/v1/responses" then
    match from with
    | Anthropic => anthropic_to_openai_responses_response body
    | OpenAI => openai_chat_completion_to_responses_response body
    | _ => match translate_response now body from OpenAI with
           | Ok openai => openai_chat_completion_to_responses_response openai
           | Err e => Err e
           end
    end
  else Err ("unsupported response path translation for '" ++ path ++ "'")%string.

(** ** Conversations survive the translation *)

(** A text conversation: a system prompt, and turns of the user ([false]) and of
    the assistant ([true]). *)
Definition turn_message (t : bool * string) : value :=
  role_message (if t.1 then "assistant" else "user") t.2.
Definition chat_messages (system : option string) (turns : list (bool * string)) : list value :=
  match system with Some s => [role_message "system" s] | None => [] end ++ (turn_message <$> turns).
Definition chat_body (model : string) (max : Z) (system : option string) (turns : list (bool * string)) : value :=
  Obj ["max_tokens" ↦ Num (num max); "messages" ↦ Arr (chat_messages system turns); "model" ↦ Str model].

Lemma role_message_role role text : role_of (role_message role text) = role.
Proof. done. Qed.

Lemma anthropic_turns (turns : list (bool * string)) :
  concat (fst <$> (anthropic_message <$> (turn_message <$> turns))) = []
  ∧ concat (snd <$> (anthropic_message <$> (turn_message <$> turns))) = turn_message <$> turns.
Proof.
  induction turns as [|[[] text] turns [IH1 IH2]]; [done|..]; rewrite !fmap_cons; cbn [concat];
    rewrite IH1, IH2; done.
Qed.
Lemma openai_turns (turns : list (bool * string)) : openai_message <$> (turn_message <$> turns) = turn_message <$> turns.
Proof. induction turns as [|[[] text] turns IH]; [done|..]; rewrite !fmap_cons, IH; done. Qed.
Lemma cohere_turns system turns :
  omap cohere_message (chat_messages system turns) = chat_messages system turns.
Proof.
  assert (Ht : omap cohere_message (turn_message <$> turns) = turn_message <$> turns).
  { induction turns as [|[[] text] turns IH]; [done|..]; rewrite !fmap_cons; cbn [omap list_omap]; by rewrite IH. }
  unfold chat_messages. rewrite omap_app, Ht. by destruct system.
Qed.
Lemma copied_turns system turns :
  copied_message <$> chat_messages system turns = chat_messages system turns.
Proof.
  unfold chat_messages. rewrite fmap_app. f_equal; [by destruct system|].
  induction turns as [|[[] text] turns IH]; [done|..]; by rewrite !fmap_cons, IH.
Qed.
Lemma gemini_turns (turns : list (bool * string)) :
  (λ item, role_message (if has_role "model" item then "assistant" else "user")
             (default EmptyString (joined_parts (Some item))))
    <$> omap gemini_content (turn_message <$> turns) = turn_message <$> turns.
Proof.
  induction turns as [|[a text] turns IH]; [done|]. rewrite fmap_cons.
  assert (Hc : gemini_content (turn_message (a, text))
    = Some (Obj ["parts" ↦ Arr [Obj ["text" ↦ Str text]]; "role" ↦ Str (if a then "model" else "user")]))
    by by destruct a.
  cbn [omap list_omap]. rewrite Hc, fmap_cons, IH. by destruct a.
Qed.

Lemma system_prompt_chat system (turns : list (bool * string)) :
  (∀ s, system = Some s → trim s ≠ EmptyString) → system_prompt (chat_messages system turns) = system.
Proof.
  intros Hs. unfold system_prompt, chat_messages. rewrite List.filter_app.
  assert (Ht : List.filter (has_role "system") (turn_message <$> turns) = []).
  { induction turns as [|[[] text] turns IH]; [done|..]; by rewrite fmap_cons. }
  rewrite Ht, app_nil_r. destruct system as [s|]; [|done]. specialize (Hs s eq_refl).
  cbn -[String.concat]. destruct s as [|a s]; [by destruct Hs|]. done.
Qed.

(** What comes back from Gemini of a system prompt and messages. *)
Definition gemini_back (system : option string) (messages : list value) : list value :=
  match joined_parts (Some (or_null ((λ text, Obj ["parts" ↦ Arr [Obj ["text" ↦ Str text]]]) <$> system))) with
  | Some text => if is_empty text then [] else [role_message "system" text]
  | None => []
  end ++ ((λ item, role_message (if has_role "model" item then "assistant" else "user")
                     (default EmptyString (joined_parts (Some item)))) <$> omap gemini_content messages).
Lemma gemini_chat system (turns : list (bool * string)) :
  (∀ s, system = Some s → trim s ≠ EmptyString) →
  gemini_back system (chat_messages system turns) = chat_messages system turns.
Proof.
  intros Hs. unfold gemini_back, chat_messages. rewrite omap_app, fmap_app, gemini_turns.
  destruct system as [s|]; [|done]. specialize (Hs s eq_refl). destruct s as [|a s]; [by destruct Hs|]. done.
Qed.

Section laws.
Hypothesis num_u64 : ∀ z, u64_ok z → as_u64 (num z) = Some z.

Lemma anthropic_chat model max system (turns : list (bool * string)) :
  u64_ok max →
  openai_to_anthropic_request (chat_body model max system turns)
  = Ok (Obj (["max_tokens" ↦ Num (num max); "messages" ↦ Arr (turn_message <$> turns); "model" ↦ Str model]
             ++ field "system" (Str <$> system))).
Proof.
  intros Hmax. unfold openai_to_anthropic_request.
  change (messages_or_input _) with (chat_messages system turns).
  change (max_tokens_of _ ≫= _) with (as_u64 (num max)). rewrite num_u64 by done.
  unfold chat_messages. rewrite !fmap_app, !concat_app. destruct (anthropic_turns turns) as [-> ->].
  rewrite app_nil_r. by destruct system.
Qed.
Lemma openai_chat model max system (turns : list (bool * string)) :
  u64_ok max → (∀ s, system = Some s → trim s ≠ EmptyString) →
  anthropic_to_openai_request
    (Obj (["max_tokens" ↦ Num (num max); "messages" ↦ Arr (turn_message <$> turns); "model" ↦ Str model]
          ++ field "system" (Str <$> system)))
  = Ok (chat_body model max system turns).
Proof.
  intros Hmax Hs. set (body := Obj _). unfold anthropic_to_openai_request.
  assert (get_u64 as_u64 body "max_tokens" = Some max) as -> by by apply num_u64.
  assert (get_str body "system" = system) as -> by by destruct system.
  assert (get_array body "messages" = Some (turn_message <$> turns)) as -> by done.
  change (default [] (Some ?l)) with l. rewrite openai_turns. unfold chat_body, chat_messages, body.
  destruct system as [s|]; [|done]. specialize (Hs s eq_refl).
  destruct (is_empty (trim s)) eqn:E; [by destruct (trim s)|done].
Qed.

(** C33. A text conversation survives translation to a provider and back, for the
    four formats that have a translation of requests in both directions and keep
    turns: the messages, in order with their roles and texts and the system prompt
    first, and the limit on tokens are those of the original. *)
Theorem conversation_roundtrip (f : ProviderFormat) (model : string) (max : Z) (system : option string)
    (turns : list (bool * string))
    (Hf : f ∈ [Anthropic; Cohere; WatsonX; GoogleGemini]) (Hmax : u64_ok max)
    (Hsystem : ∀ s, system = Some s → trim s ≠ EmptyString) :
  let body := chat_body model max system turns in
  ∃ native back, translate_request body OpenAI f = Ok native
    ∧ translate_request native f OpenAI = Ok back
    ∧ get_array back "messages" = Some (chat_messages system turns)
    ∧ json_get back "max_tokens" = json_get body "max_tokens".
Proof.
  intros body. repeat (apply elem_of_cons in Hf as [->|Hf]); [..|by apply elem_of_nil in Hf].
  - eexists _, _. split; [by apply anthropic_chat|]. split; [by apply openai_chat|]. done.
  - eexists _, _. do 2 (split; [reflexivity|]). split; [|reflexivity].
    transitivity (Some (copied_message <$> omap cohere_message (chat_messages system turns))); [reflexivity|].
    by rewrite cohere_turns, copied_turns.
  - eexists _, _. do 2 (split; [reflexivity|]). split; [|reflexivity].
    transitivity (Some (copied_message <$> chat_messages system turns)); [reflexivity|]. by rewrite copied_turns.
  - unfold body. eexists _, _. do 2 (split; [reflexivity|]). split; [|reflexivity].
    transitivity (Some (gemini_back (system_prompt (chat_messages system turns)) (chat_messages system turns)));
      [reflexivity|].
    rewrite system_prompt_chat by done. by rewrite gemini_chat.
Qed.
End laws.

(** ** Tools survive the translation *)
Lemma get_app (l1 l2 : list (string * value)) k :
  json_get (Obj (l1 ++ l2)) k
  = match json_get (Obj l1) k with Some v => Some v | None => json_get (Obj l2) k end.
Proof.
  induction l1 as [|[k' v] l1 IH]; [done|]. cbn [json_get List.find app fst].
  case_bool_decide; [done|]. exact IH.
Qed.
Lemma get_field k k' (o : option value) :
  json_get (Obj (field k o)) k' = if String.eqb k k' then o else None.
Proof.
  destruct o as [v|]; cbn [field]; [|by destruct (String.eqb k k')]. cbn [json_get List.find fst].
  destruct (String.eqb_spec k k') as [->|Hn]; [by rewrite bool_decide_true|by rewrite bool_decide_false].
Qed.

Lemma get_cons k' (v : value) l k :
  json_get (Obj ((k', v) :: l)) k = if String.eqb k' k then Some v else json_get (Obj l) k.
Proof.
  cbn [json_get List.find fst].
  destruct (String.eqb_spec k' k); [by rewrite bool_decide_true|by rewrite bool_decide_false].
Qed.
(** Reads a key of an object written out with its fields. *)
Ltac read_key :=
  repeat first [rewrite get_app | rewrite get_field | rewrite get_cons];
  cbn [String.eqb Ascii.eqb Bool.eqb].

Lemma anthropic_reads body native :
  openai_to_anthropic_request body = Ok native →
  json_get native "tools" = tools_field anthropic_tool body
  ∧ json_get native "tool_choice" = anthropic_tool_choice <$> json_get body "tool_choice".
Proof.
  unfold openai_to_anthropic_request. destruct (has body "response_format"); [done|].
  cbv zeta. intros [= <-]. split; read_key; [by destruct (tools_field _ _)|by destruct (_ <$> _)].
Qed.
Lemma openai_reads native back :
  anthropic_to_openai_request native = Ok back →
  json_get back "tools" = tools_field openai_tool native
  ∧ json_get back "tool_choice" = openai_tool_choice <$> json_get native "tool_choice".
Proof.
  unfold anthropic_to_openai_request. cbv zeta. intros [= <-].
  split; read_key; [by destruct (tools_field _ _)|by destruct (_ <$> _)].
Qed.

(** A function tool: its name, description and parameters. *)
Record Tool := mkTool { tool_name : string; tool_description : string; tool_parameters : value }.
Definition chat_tool (t : Tool) : value :=
  Obj ["function" ↦ Obj ["description" ↦ Str (tool_description t); "name" ↦ Str (tool_name t);
                         "parameters" ↦ tool_parameters t];
       "type" ↦ Str "function"].
(** The choices of a tool: a mode, or a function by name. *)
Definition chat_choice_value (c : string + string) : value :=
  match c with
  | inl mode => Str mode
  | inr name => Obj ["function" ↦ Obj ["name" ↦ Str name]; "type" ↦ Str "function"]
  end.
Definition choice_ok (c : string + string) : Prop :=
  match c with inl mode => mode ∈ ["auto"; "required"; "none"]%string | inr _ => True end.

Lemma tools_back (ts : list Tool) :
  omap openai_tool (omap anthropic_tool (chat_tool <$> ts)) = chat_tool <$> ts.
Proof.
  induction ts as [|t ts IH]; [done|]. rewrite fmap_cons.
  change (omap anthropic_tool (chat_tool t :: ?l))
    with (default Null (anthropic_tool (chat_tool t)) :: omap anthropic_tool l).
  change (omap openai_tool (default Null (anthropic_tool (chat_tool t)) :: ?l))
    with (chat_tool t :: omap openai_tool l). by rewrite IH.
Qed.
Lemma choice_back c : choice_ok c → openai_tool_choice (anthropic_tool_choice (chat_choice_value c)) = chat_choice_value c.
Proof.
  destruct c as [mode|name]; [|done]. simpl. intros Hm.
  repeat (apply elem_of_cons in Hm as [->|Hm]; [done|]). by apply elem_of_nil in Hm.
Qed.

(** The tools of a request survive translation to the Anthropic format and
    back: their names, descriptions and parameter schemas, in order, and the
    choice of a tool, whatever else the request holds. *)
Theorem anthropic_tools_roundtrip (body : value) (ts : list Tool) (c : option (string + string))
    (Htools : get_array body "tools" = Some (chat_tool <$> ts))
    (Hchoice : json_get body "tool_choice" = chat_choice_value <$> c)
    (Hok : ∀ x, c = Some x → choice_ok x)
    (Hformat : json_get body "response_format" = None) (Hne : ts ≠ []) :
  ∃ native back, translate_request body OpenAI Anthropic = Ok native
    ∧ translate_request native Anthropic OpenAI = Ok back
    ∧ get_array back "tools" = Some (chat_tool <$> ts)
    ∧ json_get back "tool_choice" = chat_choice_value <$> c.
Proof.
  assert (Hno : has body "response_format" = false)
    by (unfold has; rewrite Hformat; by apply bool_decide_false; intros []).
  assert (∃ native, openai_to_anthropic_request body = Ok native) as [native Hn]
    by (unfold openai_to_anthropic_request; rewrite Hno; by eexists).
  destruct (anthropic_reads _ _ Hn) as [Ht Hc].
  assert (∃ back, anthropic_to_openai_request native = Ok back) as [back Hb] by by eexists.
  destruct (openai_reads _ _ Hb) as [Ht' Hc'].
  exists native, back. split; [done|]. split; [done|]. split.
  - unfold get_array. rewrite Ht'. unfold tools_field, get_array. rewrite Ht. unfold tools_field. rewrite Htools.
    change (default [] (Some ?l)) with l. pose proof (tools_back ts) as Hback.
    destruct (omap anthropic_tool (chat_tool <$> ts)) as [|t l]; [by destruct ts|].
    change (default [] (Some (Arr ?l) ≫= json_as_array)) with l. rewrite Hback. by destruct ts.
  - rewrite Hc', Hc, Hchoice. destruct c as [c|]; [|done]. simpl. by rewrite choice_back by auto.
Qed.

(** ** Tool calls of responses *)
Section tool_calls.
Variable from_str : string → option value.

(** A block that either is no tool use, or is one with an input that is JSON
    and not a text. *)
Definition block_ok (block : value) : Prop :=
  get_str block "type" = Some "tool_use"%string →
  ∃ input, json_get block "input" = Some input ∧ json_as_str input = None.
(** The document is a message: nothing but its content may hold calls. *)
Definition plain_message (body : value) : Prop :=
  get_array body "choices" = None ∧ get_array body "messages" = None
  ∧ get_array body "output" = None ∧ get_array body "input" = None.

Lemma canonical_text v : json_as_str v = None → canonical_arguments v = canonical_json_string v.
Proof. by destruct v. Qed.

Lemma chat_calls_exact (blocks : list value) calls :
  Forall block_ok blocks →
  for_each (λ tool_call, chat_call from_str (default tool_call (json_get tool_call "function")))
    (omap tool_use_call blocks) calls
  = for_each (anthropic_block from_str) blocks calls.
Proof.
  intros Hb. revert calls. induction Hb as [|b bs Hb _ IH]; intros calls; [done|].
  cbn [omap list_omap for_each]. unfold anthropic_block at 1, tool_use_call at 1.
  case_bool_decide as Ht; cbn [negb]; [|apply IH]. destruct (Hb Ht) as (input&Hi&Hs).
  cbn [for_each]. unfold chat_call. cbn -[push_call canonical_json_string for_each].
  rewrite Hi. cbn -[push_call canonical_json_string for_each].
  rewrite (canonical_text input Hs). by destruct (push_call _ _ _).
Qed.
Definition chat_calls (blocks : list value) : Result (list CanonicalToolCall) ToolCallParseError :=
  for_each (λ tool_call, chat_call from_str (default tool_call (json_get tool_call "function")))
    (omap tool_use_call blocks) [].
Lemma responses_item_call id name arguments calls :
  responses_item from_str (function_call_item id name arguments) calls
  = push_call from_str (mkPartial name arguments true) calls.
Proof.
  transitivity (then_calls (push_call from_str (mkPartial name arguments true) calls) Ok); [reflexivity|].
  by destruct (push_call _ _ _).
Qed.
Lemma responses_calls_exact (blocks : list value) calls :
  Forall block_ok blocks →
  collect_responses_items from_str (omap output_item blocks) calls
  = for_each (anthropic_block from_str) blocks calls.
Proof.
  intros Hb. revert calls. unfold collect_responses_items.
  induction Hb as [|b bs Hb _ IH]; intros calls; [done|].
  cbn [omap list_omap for_each]. unfold anthropic_block at 1, output_item at 1.
  case_bool_decide as Ht; cbn [negb].
  - rewrite Ht. destruct (Hb Ht) as (input&Hi&Hs). cbn [String.eqb Ascii.eqb Bool.eqb for_each].
    rewrite responses_item_call, Hi. cbn [default fmap option_fmap option_map].
    rewrite (canonical_text input Hs). by destruct (push_call _ _ _).
  - destruct (get_str b "type") as [t|]; [|apply IH].
    destruct (String.eqb t "text"); [apply (IH calls)|].
    destruct (String.eqb_spec t "tool_use") as [->|]; [done|apply IH].
Qed.

(** Translating a response keeps its tool calls: the calls that the gateway
    finds in an Anthropic message are exactly those that it finds in the chat
    completion and in the Responses document that the message is translated to, in
    order, or the same error; and the text of the completion is the text of the
    message. *)
Theorem response_tool_calls_preserved (now : Z) (body chat responses : value) (blocks : list value)
    (Hcontent : get_array body "content" = Some blocks) (Hblocks : Forall block_ok blocks)
    (Hplain : plain_message body)
    (Hchat : translate_response now body Anthropic OpenAI = Ok chat)
    (Hresp : translate_response_for_path now body Anthropic "/v1/responses" = Ok responses) :
  canonical_tool_calls from_str chat = canonical_tool_calls from_str body
  ∧ canonical_tool_calls from_str responses = canonical_tool_calls from_str body
  ∧ openai_response_content chat = extract_anthropic_text_content body.
Proof.
  destruct Hplain as (H1&H2&H3&H4).
  assert (Hbody : canonical_tool_calls from_str body = for_each (anthropic_block from_str) blocks []).
  { unfold canonical_tool_calls. by rewrite H1, H2, H3, H4, Hcontent. }
  rewrite Hbody. injection Hchat as <-. injection Hresp as <-. split_and!.
  - pose (through := λ r : Result (list CanonicalToolCall) ToolCallParseError, then_calls r Ok).
    transitivity (Nat.iter 7 through (chat_calls blocks)).
    { unfold chat_calls. destruct (extract_anthropic_tool_uses body) eqn:E; unfold extract_anthropic_tool_uses in E;
        rewrite Hcontent in E; change (default [] (Some blocks)) with blocks in E; rewrite E; reflexivity. }
    unfold chat_calls. rewrite chat_calls_exact by done. by destruct (for_each (anthropic_block _) _ _).
  - transitivity (then_calls (then_calls (collect_responses_items from_str
      (omap output_item (default [] (get_array body "content"))) []) Ok) Ok); [reflexivity|].
    rewrite Hcontent. change (default [] (Some ?l)) with l. rewrite responses_calls_exact by done. by destruct (for_each _ _ _).
  - reflexivity.
Qed.

(** No tool call of a provider in the chat-completions format reaches a client
    of the messages endpoint: whatever the completion, its translation holds one
    text block and no call, although its stop reason announces a tool use when the
    completion stopped for its calls. *)
Theorem messages_client_loses_tool_calls (now : Z) (body message : value)
    (Hmessage : translate_response_for_path now body OpenAI "/v1/messages" = Ok message) :
  canonical_tool_calls from_str message = Ok []
  ∧ (openai_finish_reason body = "tool_calls"%string → is_Some (first_choice body) →
     get_str message "stop_reason" = Some "tool_use"%string).
Proof.
  change (openai_to_anthropic_response body = Ok message) in Hmessage.
  unfold openai_to_anthropic_response, openai_finish_reason in *.
  destruct (first_choice body) as [c|].
  - injection Hmessage as <-. split; [reflexivity|]. intros Hr _.
    change (Some (anthropic_reason (default "stop"%string (get_str c "finish_reason"))) = Some "tool_use"%string).
    change (get_in (Some c) "finish_reason" ≫= json_as_str) with (get_str c "finish_reason") in Hr. by rewrite Hr.
  - injection Hmessage as <-. split; [reflexivity|]. by intros _ [].
Qed.

(** The tool calls of the conversation are lost on the way to Anthropic: an
    assistant turn is translated without its calls, whatever they are, while the
    result that follows refers to the identifier of a call; the provider is sent a
    result for a use of a tool that is nowhere in the request. *)
Theorem anthropic_history_loses_tool_calls (calls : value) (model text id result : string) :
  let assistant := Obj ["content" ↦ Str text; "role" ↦ Str "assistant"; "tool_calls" ↦ calls] in
  let tool := Obj ["content" ↦ Str result; "role" ↦ Str "tool"; "tool_call_id" ↦ Str id] in
  let body := Obj ["messages" ↦ Arr [assistant; tool]; "model" ↦ Str model] in
  ∃ native, translate_request body OpenAI Anthropic = Ok native
    ∧ canonical_tool_calls from_str native = Ok []
    ∧ get_array native "messages"
      = Some [Obj ["content" ↦ Str text; "role" ↦ Str "assistant"];
              Obj ["content" ↦ Arr [Obj ["content" ↦ Str result; "tool_use_id" ↦ Str id;
                                         "type" ↦ Str "tool_result"]];
                   "role" ↦ Str "user"]].
Proof. intros assistant tool body. eexists. split; [reflexivity|]. split; reflexivity. Qed.

(** A request to Anthropic made from the [input] of a Responses request holds the
    prompt twice: as its message and, since [input] is not among the recognised
    fields, in the metadata. *)
Theorem anthropic_input_in_metadata (model text : string) :
  let body := Obj ["input" ↦ Str text; "model" ↦ Str model] in
  ∃ native, translate_request body OpenAI Anthropic = Ok native
    ∧ get_array native "messages" = Some [user_message text]
    ∧ json_get native "metadata" = Some (Obj ["input" ↦ Str text]).
Proof. intros body. eexists. split; [reflexivity|]. split; reflexivity. Qed.
End tool_calls.
End translation.

Definition demo_u64 (z : Z) : option Z := Some z.
Definition demo_of_f64 (f : f64) : Value Z := Null.
Lemma conversation_roundtrip_witness :
  ∃ native back,
    translate_request (H := JsonModel.json) demo_u64 id (λ _, None) demo_of_f64
      (chat_body (H := JsonModel.json) id "m" 10 (Some "be brief"%string) [(false, "hello"%string); (true, "hi"%string)])
      OpenAI Anthropic = Ok native
    ∧ translate_request (H := JsonModel.json) demo_u64 id (λ _, None) demo_of_f64 native Anthropic OpenAI = Ok back
    ∧ get_array (H := JsonModel.json) back "messages"
      = Some (chat_messages (H := JsonModel.json) (Some "be brief"%string) [(false, "hello"%string); (true, "hi"%string)]).
Proof.
  destruct (conversation_roundtrip (H := JsonModel.json) demo_u64 id (λ _, None) demo_of_f64 (λ z _, eq_refl)
    Anthropic "m" 10 (Some "be brief"%string) [(false, "hello"%string); (true, "hi"%string)]) as (n&b&H1&H2&H3&_).
  - left.
  - width_lia.
  - intros s [= <-]. vm_compute. discriminate.
  - exists n, b. split; [exact H1|split; [exact H2|exact H3]].
Defined.

Definition demo_tool : Tool (H := JsonModel.json) :=
  mkTool (H := JsonModel.json) "search" "find" (Obj ["type" ↦ Str "object"]).
Definition demo_tools_body : Value Z :=
  Obj ["messages" ↦ Arr []; "tool_choice" ↦ Str "required"; "tools" ↦ Arr [chat_tool (H := JsonModel.json) demo_tool]].
Lemma anthropic_tools_roundtrip_witness :
  ∃ native back,
    translate_request (H := JsonModel.json) demo_u64 id (λ _, None) demo_of_f64 demo_tools_body OpenAI Anthropic = Ok native
    ∧ translate_request (H := JsonModel.json) demo_u64 id (λ _, None) demo_of_f64 native Anthropic OpenAI = Ok back
    ∧ get_array (H := JsonModel.json) back "tools" = Some [chat_tool (H := JsonModel.json) demo_tool].
Proof.
  destruct (anthropic_tools_roundtrip (H := JsonModel.json) demo_u64 id (λ _, None) demo_of_f64
    demo_tools_body [demo_tool] (Some (inl "required"%string))) as (n&b&H1&H2&H3&_).
  - reflexivity.
  - reflexivity.
  - intros x [= <-]. right. left.
  - reflexivity.
  - discriminate.
  - exists n, b. split; [exact H1|split; [exact H2|exact H3]].
Defined.

Definition demo_block : Value Z :=
  Obj ["id" ↦ Str "t1"; "input" ↦ Obj ["q" ↦ Str "x"]; "name" ↦ Str "search"; "type" ↦ Str "tool_use"].
Definition demo_message : Value Z := Obj ["content" ↦ Arr [demo_block]; "id" ↦ Str "m1"].
Lemma response_tool_calls_preserved_witness :
  ∃ chat, translate_response (H := JsonModel.json) demo_u64 id 0 demo_message Anthropic OpenAI = Ok chat
    ∧ canonical_tool_calls (H := JsonModel.json) (λ _, Some Null) chat
      = canonical_tool_calls (H := JsonModel.json) (λ _, Some Null) demo_message.
Proof.
  eexists. split; [reflexivity|].
  refine (proj1 (response_tool_calls_preserved (H := JsonModel.json) demo_u64 id (λ _, Some Null) 0 demo_message _ _
    [demo_block] _ _ _ _ _)).
  - reflexivity.
  - constructor; [|constructor]. intros _. eexists. split; reflexivity.
  - repeat split; reflexivity.
  - reflexivity.
  - reflexivity.
Defined.
Definition demo_completion : Value Z :=
  Obj ["choices" ↦ Arr [Obj ["finish_reason" ↦ Str "tool_calls"; "message" ↦ Obj
    ["tool_calls" ↦ Arr [Obj ["function" ↦ Obj ["arguments" ↦ Str "{}"; "name" ↦ Str "search"]]]]]]].
Lemma messages_client_loses_tool_calls_witness :
  canonical_tool_calls (H := JsonModel.json) (λ _, Some Null) demo_completion
    = Ok [mkCall "search" "{}"]
  ∧ ∃ message, translate_response_for_path (H := JsonModel.json) demo_u64 id 0 demo_completion OpenAI "/v1/messages" = Ok message
    ∧ canonical_tool_calls (H := JsonModel.json) (λ _, Some Null) message = Ok [].
Proof.
  split; [vm_compute; reflexivity|]. eexists. split; [reflexivity|].
  refine (proj1 (messages_client_loses_tool_calls (H := JsonModel.json) demo_u64 id (λ _, Some Null) 0
    demo_completion _ _)). reflexivity.
Defined.
