(* ===== verification/StreamTranslation.v ===== *)
(** * StreamTranslation: translated streams (src/src/gateway/format_translation.rs)

    The stateful translator of server-sent events between the wire formats.  A
    translation takes the payload of one event and the instant of the clock, and
    returns the payloads of the events to send; [translate_payload] frames them.
    The map of tool states is a list in the order of its indices. *)

From Stdlib Require Import ZArith Ascii String.
From stdpp Require Import base gmap strings list.
From S2P Require Import Prelude Text Float Lww Policy ToolCalls Detection Sse FormatTranslation.

#[local] Arguments String.append : simpl nomatch.
#[local] Notation "k ↦ v" := (k%string, v) (at level 60, only parsing).

Record StreamToolState := mkToolState {
  ts_id : option string;
  ts_name : option string;
  start_emitted : bool;
  stop_emitted : bool;
}.
Definition tool_state_default : StreamToolState := mkToolState None None false false.

(** [BTreeMap<usize, StreamToolState>]: [get], [insert], and [entry().or_default()]
    with an update. *)
Abbreviation ToolStates := (list (Z * StreamToolState)).
Fixpoint ts_get (i : Z) (l : ToolStates) : option StreamToolState :=
  match l with [] => None | (j, s) :: l => if (j =? i)%Z then Some s else ts_get i l end.
Fixpoint ts_insert (i : Z) (s : StreamToolState) (l : ToolStates) : ToolStates :=
  match l with
  | [] => [(i, s)]
  | (j, s') :: l' =>
      if (j =? i)%Z then (i, s) :: l'
      else if (i <? j)%Z then (i, s) :: l else (j, s') :: ts_insert i s l'
  end.
Definition ts_or_default (i : Z) (l : ToolStates) : StreamToolState := default tool_state_default (ts_get i l).

Record RouteNativeSseTranslator := mkTranslator {
  tr_path : string;
  source_format : ProviderFormat;
  tr_request_id : string;
  message_started : bool;
  message_id : option string;
  tr_response_id : option string;
  tr_model : option string;
  tr_finished : bool;
  tool_states : ToolStates;
}.
Definition translator_new (path : string) (f : ProviderFormat) (request_id : string) : RouteNativeSseTranslator :=
  mkTranslator path f request_id false None None None false [].

(** Assignments to one field. *)
Definition set_started (b : bool) (t : RouteNativeSseTranslator) :=
  mkTranslator (tr_path t) (source_format t) (tr_request_id t) b (message_id t) (tr_response_id t)
    (tr_model t) (tr_finished t) (tool_states t).
Definition set_message_id (o : option string) (t : RouteNativeSseTranslator) :=
  mkTranslator (tr_path t) (source_format t) (tr_request_id t) (message_started t) o (tr_response_id t)
    (tr_model t) (tr_finished t) (tool_states t).
Definition set_response_id (o : option string) (t : RouteNativeSseTranslator) :=
  mkTranslator (tr_path t) (source_format t) (tr_request_id t) (message_started t) (message_id t) o
    (tr_model t) (tr_finished t) (tool_states t).
Definition set_model (o : option string) (t : RouteNativeSseTranslator) :=
  mkTranslator (tr_path t) (source_format t) (tr_request_id t) (message_started t) (message_id t)
    (tr_response_id t) o (tr_finished t) (tool_states t).
Definition set_finished (b : bool) (t : RouteNativeSseTranslator) :=
  mkTranslator (tr_path t) (source_format t) (tr_request_id t) (message_started t) (message_id t)
    (tr_response_id t) (tr_model t) b (tool_states t).
Definition set_tools (l : ToolStates) (t : RouteNativeSseTranslator) :=
  mkTranslator (tr_path t) (source_format t) (tr_request_id t) (message_started t) (message_id t)
    (tr_response_id t) (tr_model t) (tr_finished t) l.

Section streams.
Context `{SerdeJson}.
Abbreviation value := (Value Number).
Variable from_str : string → option value.
Variable as_u64 : Number → option Z.
Variable num : Z → Number.

Abbreviation Step := (RouteNativeSseTranslator * list string)%type.
Definition done_payload : string := "[DONE]".
(** [wrap_sse_payload], without its frame. *)
Definition passed (payload : string) : list string := if is_empty payload then [] else [payload].
Definition nat_text (i : Z) : string := index_text i.
Definition opt_str (o : option string) : value := match o with Some s => Str s | None => Null end.
Definition first_some (a b : option string) : option string := match a with Some s => Some s | None => b end.
Definition index_of (v : value) : Z := default 0%Z (get_u64 as_u64 v "index").
(** [pointer], whose only index is 0. *)
Definition token (v : value) (key : string) : option value :=
  match v with Arr l => if String.eqb key "0" then head l else None | _ => json_get v key end.
Definition pointer_text (v : value) (path : list string) : option string :=
  foldl (λ o key, o ≫= λ v, token v key) (Some v) path ≫= json_as_str.

(** A chat-completion chunk of the translator. *)
Definition chat_frame (t : RouteNativeSseTranslator) (now : Z) (model : string) (delta finish : value) : string :=
  print (Obj ["choices" ↦ Arr [Obj ["delta" ↦ delta; "finish_reason" ↦ finish; "index" ↦ Num (num 0)]];
              "created" ↦ Num (num now); "id" ↦ Str ("chatcmpl_" ++ tr_request_id t); "model" ↦ Str model;
              "object" ↦ Str "chat.completion.chunk"]).
Definition tool_delta (index : Z) (id name : option string) (arguments : string) : value :=
  Obj ["tool_calls" ↦ Arr [Obj
         ["function" ↦ Obj ["arguments" ↦ Str arguments; "name" ↦ opt_str name];
          "id" ↦ opt_str id; "index" ↦ Num (num index); "type" ↦ Str "function"]]].

(** ** Anthropic to chat completions *)
Definition anthropic_chat_event (now : Z) (t : RouteNativeSseTranslator) (v : value) (event_type : string) : Step :=
  let model := default "unknown"%string (first_some (pointer_str v "message" "model") (tr_model t)) in
  let t := if is_empty model then t else set_model (Some model) t in
  let frame delta finish := chat_frame t now model delta finish in
  if String.eqb event_type "message_start" then
    (set_message_id (pointer_str v "message" "id") (set_started true t),
     [frame (Obj ["role" ↦ Str "assistant"]) Null])
  else if String.eqb event_type "content_block_start" then
    let index := index_of v in
    let block := default (Obj []) (json_get v "content_block") in
    if negb (bool_decide (get_str block "type" = Some "tool_use"%string)) then (t, [])
    else
      let id := get_str block "id" in
      let name := get_str block "name" in
      (set_tools (ts_insert index (mkToolState id name false false) (tool_states t)) t,
       [frame (tool_delta index id name EmptyString) Null])
  else if String.eqb event_type "content_block_delta" then
    let index := index_of v in
    match pointer_str v "delta" "type" with
    | Some ty =>
        if String.eqb ty "text_delta" then
          let text := default EmptyString (pointer_str v "delta" "text") in
          (t, if is_empty text then [] else [frame (Obj ["content" ↦ Str text]) Null])
        else if String.eqb ty "input_json_delta" then
          let partial_json := default EmptyString (pointer_str v "delta" "partial_json") in
          let state := ts_or_default index (tool_states t) in
          (t, if is_empty partial_json then []
              else [frame (tool_delta index (ts_id state) (ts_name state) partial_json) Null])
        else if String.eqb ty "thinking_delta" then
          let thinking := default EmptyString (pointer_str v "delta" "thinking") in
          (t, if is_empty thinking then [] else [frame (Obj ["reasoning" ↦ Str thinking]) Null])
        else (t, [])
    | None => (t, [])
    end
  else if String.eqb event_type "message_delta" then
    (set_finished true t,
     [frame (Obj []) (str_or "stop" (map_anthropic_stop_reason <$> pointer_str v "delta" "stop_reason"))])
  else if String.eqb event_type "message_stop" then
    (t, if tr_finished t then [done_payload] else [])
  else (t, []).
(** The common start: [DONE], a payload that is not JSON or has no type. *)
Definition with_event (t : RouteNativeSseTranslator) (payload : string)
    (f : value → string → Step) : Step :=
  if String.eqb payload "[DONE]" then (t, [])
  else match from_str payload with
       | None => (t, passed payload)
       | Some v => match get_str v "type" with None => (t, passed payload) | Some ty => f v ty end
       end.
Definition translate_anthropic_to_chat (now : Z) (t : RouteNativeSseTranslator) (payload : string) : Step :=
  with_event t payload (anthropic_chat_event now t).

(** ** Anthropic to Responses *)
Definition response_of (t : RouteNativeSseTranslator) : string := default (tr_request_id t) (tr_response_id t).
Definition text_event (kind id text : string) : string :=
  print (Obj ["delta" ↦ Str text; "response_id" ↦ Str id; "type" ↦ Str kind]).
Definition item_event (id : string) (index : Z) (call name : string) : string :=
  print (Obj ["item" ↦ function_call_item call name EmptyString; "output_index" ↦ Num (num index);
              "response_id" ↦ Str id; "type" ↦ Str "response.output_item.added"]).
Definition arguments_event (id : string) (index : Z) (call delta : string) : string :=
  print (Obj ["call_id" ↦ Str call; "delta" ↦ Str delta; "output_index" ↦ Num (num index);
              "response_id" ↦ Str id; "type" ↦ Str "response.function_call_arguments.delta"]).
Definition arguments_done_event (id : string) (index : Z) (call : string) : string :=
  print (Obj ["call_id" ↦ Str call; "output_index" ↦ Num (num index); "response_id" ↦ Str id;
              "type" ↦ Str "response.function_call_arguments.done"]).
Definition completed_event (id : string) : string :=
  print (Obj ["response_id" ↦ Str id; "type" ↦ Str "response.completed"]).
Definition call_of (index : Z) (t : RouteNativeSseTranslator) : string :=
  default EmptyString (ts_get index (tool_states t) ≫= ts_id).
Definition anthropic_responses_event (t : RouteNativeSseTranslator) (v : value) (event_type : string) : Step :=
  if String.eqb event_type "message_start" then
    (set_model (pointer_str v "message" "model") (set_response_id (pointer_str v "message" "id") t), [])
  else if String.eqb event_type "content_block_start" then
    let index := index_of v in
    let block := default (Obj []) (json_get v "content_block") in
    if negb (bool_decide (get_str block "type" = Some "tool_use"%string)) then (t, [])
    else
      let id := default EmptyString (get_str block "id") in
      let name := default EmptyString (get_str block "name") in
      (set_tools (ts_insert index (mkToolState (Some id) (Some name) false false) (tool_states t)) t,
       [item_event (response_of t) index id name])
  else if String.eqb event_type "content_block_delta" then
    match pointer_str v "delta" "type" with
    | Some ty =>
        if String.eqb ty "text_delta" then
          let text := default EmptyString (pointer_str v "delta" "text") in
          (t, if is_empty text then [] else [text_event "response.output_text.delta" (response_of t) text])
        else if String.eqb ty "thinking_delta" then
          let text := default EmptyString (pointer_str v "delta" "thinking") in
          (t, if is_empty text then [] else [text_event "response.reasoning.delta" (response_of t) text])
        else if String.eqb ty "input_json_delta" then
          let index := index_of v in
          let partial_json := default EmptyString (pointer_str v "delta" "partial_json") in
          let call_id := call_of index t in
          (t, if is_empty partial_json || is_empty call_id then []
              else [arguments_event (response_of t) index call_id partial_json])
        else (t, [])
    | None => (t, [])
    end
  else if String.eqb event_type "content_block_stop" then
    let index := index_of v in
    let call_id := call_of index t in
    (t, if is_empty call_id then [] else [arguments_done_event (response_of t) index call_id])
  else if String.eqb event_type "message_stop" then (t, [completed_event (response_of t); done_payload])
  else (t, []).
Definition translate_anthropic_to_responses (t : RouteNativeSseTranslator) (payload : string) : Step :=
  with_event t payload (anthropic_responses_event t).

(** ** Cohere to chat completions and Responses *)
Definition either (event_type a b : string) : bool := String.eqb event_type a || String.eqb event_type b.
Definition cohere_text (v : value) : string :=
  default EmptyString (first_some (pointer_text v ["delta"; "message"; "content"; "text"]%string)
                                  (pointer_text v ["delta"; "message"; "content"; "0"; "text"]%string)).
Definition cohere_arguments (v : value) : string :=
  default EmptyString
    (first_some (pointer_text v ["delta"; "message"; "tool_calls"; "0"; "function"; "arguments"]%string)
                (pointer_text v ["delta"; "message"; "tool_calls"; "0"; "function"; "arguments_delta"]%string)).
Definition cohere_call_id (v : value) : option string :=
  pointer_text v ["delta"; "message"; "tool_calls"; "0"; "id"]%string.
Definition cohere_call_name (v : value) : option string :=
  pointer_text v ["delta"; "message"; "tool_calls"; "0"; "function"; "name"]%string.
Definition cohere_chat_event (now : Z) (t : RouteNativeSseTranslator) (v : value) (event_type : string) : Step :=
  let model := default "cohere"%string
    (first_some (first_some (pointer_text v ["delta"; "message"; "model"]%string) (get_str v "model")) (tr_model t)) in
  let t := if is_empty model then t else set_model (Some model) t in
  let frame delta finish := chat_frame t now model delta finish in
  if either event_type "message-start" "message_start" then
    (set_response_id (first_some (pointer_text v ["delta"; "message"; "id"]%string) (get_str v "id")) t,
     [frame (Obj ["role" ↦ Str "assistant"]) Null])
  else if either event_type "content-delta" "content_delta" then
    (t, if is_empty (cohere_text v) then [] else [frame (Obj ["content" ↦ Str (cohere_text v)]) Null])
  else if either event_type "tool-call-start" "tool_call_start" then
    let id := first_some (cohere_call_id v) (pointer_text v ["delta"; "tool_call"; "id"]%string) in
    let name := first_some (cohere_call_name v)
                  (pointer_text v ["delta"; "tool_call"; "function"; "name"]%string) in
    (set_tools (ts_insert (index_of v) (mkToolState id name false false) (tool_states t)) t,
     [frame (tool_delta (index_of v) id name EmptyString) Null])
  else if either event_type "tool-call-delta" "tool_call_delta" then
    let state := ts_or_default (index_of v) (tool_states t) in
    (t, if is_empty (cohere_arguments v) then []
        else [frame (tool_delta (index_of v) (ts_id state) (ts_name state) (cohere_arguments v)) Null])
  else if either event_type "message-end" "message_end" then
    let reason := default (match tool_states t with [] => "stop" | _ => "tool_calls" end)%string
      (first_some (pointer_str v "delta" "finish_reason") (get_str v "finish_reason")) in
    (t, [frame (Obj []) (Str reason); done_payload])
  else (t, []).
Definition translate_cohere_to_chat (now : Z) (t : RouteNativeSseTranslator) (payload : string) : Step :=
  with_event t payload (cohere_chat_event now t).

Definition cohere_responses_event (t : RouteNativeSseTranslator) (v : value) (event_type : string) : Step :=
  let id := default (tr_request_id t)
    (first_some (tr_response_id t) (pointer_text v ["delta"; "message"; "id"]%string)) in
  let t := set_response_id (Some id) t in
  if either event_type "content-delta" "content_delta" then
    (t, if is_empty (cohere_text v) then []
        else [text_event "response.output_text.delta" id (cohere_text v)])
  else if either event_type "tool-call-start" "tool_call_start" then
    let call := default EmptyString (cohere_call_id v) in
    let name := default EmptyString (cohere_call_name v) in
    (set_tools (ts_insert (index_of v) (mkToolState (Some call) (Some name) false false) (tool_states t)) t,
     [item_event id (index_of v) call name])
  else if either event_type "tool-call-delta" "tool_call_delta" then
    let call := call_of (index_of v) t in
    (t, if is_empty (cohere_arguments v) || is_empty call then []
        else [arguments_event id (index_of v) call (cohere_arguments v)])
  else if either event_type "tool-call-end" "tool_call_end" then
    let call := call_of (index_of v) t in
    (t, if is_empty call then [] else [arguments_done_event id (index_of v) call])
  else if either event_type "message-end" "message_end" then (t, [completed_event id; done_payload])
  else (t, []).
Definition translate_cohere_to_responses (t : RouteNativeSseTranslator) (payload : string) : Step :=
  with_event t payload (cohere_responses_event t).

(** ** Chat completions and Responses to messages *)
Definition map_openai_finish_reason (reason : string) : string :=
  if String.eqb reason "tool_calls" then "tool_use"
  else if String.eqb reason "length" then "max_tokens" else "end_turn".
Definition message_start_event (id : string) : value :=
  Obj ["message" ↦ Obj ["content" ↦ Arr []; "id" ↦ Str id; "role" ↦ Str "assistant"; "type" ↦ Str "message"];
       "type" ↦ Str "message_start"].
Definition block_delta_event (index : Z) (delta : value) : value :=
  Obj ["delta" ↦ delta; "index" ↦ Num (num index); "type" ↦ Str "content_block_delta"].
Definition tool_start_event (index : Z) (id name : string) : value :=
  Obj ["content_block" ↦ Obj ["id" ↦ Str id; "input" ↦ Obj []; "name" ↦ Str name; "type" ↦ Str "tool_use"];
       "index" ↦ Num (num index); "type" ↦ Str "content_block_start"].
Definition block_stop_event (index : Z) : value :=
  Obj ["index" ↦ Num (num index); "type" ↦ Str "content_block_stop"].
Definition message_delta_event (reason : string) : value :=
  Obj ["delta" ↦ Obj ["stop_reason" ↦ Str reason]; "type" ↦ Str "message_delta"].
Definition message_stop_event : value := Obj ["type" ↦ Str "message_stop"].

(** The events of a translation to messages, before they are printed. *)
Abbreviation Events := (RouteNativeSseTranslator * list value)%type.
Definition ensure_message_start (t : RouteNativeSseTranslator) : Events :=
  (set_started true t,
   [message_start_event (default ("msg_" ++ tr_request_id t)%string (message_id t))]).
Definition start_once (t : RouteNativeSseTranslator) : Events :=
  if message_started t then (t, []) else ensure_message_start t.
(** Runs a step and then another on its state, with the events of both. *)
Definition then_events (r : Events) (f : RouteNativeSseTranslator → Events) : Events :=
  let '(t, es) := r in let '(t, es') := f t in (t, es ++ es').
Fixpoint events_for {A} (f : RouteNativeSseTranslator → A → Events) (l : list A)
    (t : RouteNativeSseTranslator) : Events :=
  match l with [] => (t, []) | a :: l => then_events (f t a) (events_for f l) end.
Definition is_open (s : StreamToolState) : bool := start_emitted s && negb (stop_emitted s).
Definition close_tool (s : StreamToolState) : StreamToolState :=
  if is_open s then mkToolState (ts_id s) (ts_name s) (start_emitted s) true else s.
Definition finish_openai_messages (reason : string) (t : RouteNativeSseTranslator) : Events :=
  if tr_finished t then (t, [])
  else
    then_events (start_once (set_finished true t)) (λ t,
      (set_tools ((λ '(i, s), (i, close_tool s)) <$> tool_states t) t,
       (block_stop_event ∘ fst <$> List.filter (λ '(_, s), is_open s) (tool_states t))
       ++ [message_delta_event (map_openai_finish_reason reason); message_stop_event])).

(** The update of the state of a tool, and whether its start is to be sent. *)
Definition note_tool (id name : option string) (s : StreamToolState) : bool * StreamToolState :=
  let id := first_some (ts_id s) id in
  let name := first_some (ts_name s) name in
  let emit := negb (start_emitted s) && (bool_decide (is_Some id) || bool_decide (is_Some name)) in
  (emit, if emit then mkToolState id name true false
         else mkToolState id name (start_emitted s) (stop_emitted s)).
Definition non_empty (o : option string) : option string :=
  o ≫= λ s, if is_empty s then None else Some s.
Definition message_tool (index : Z) (t : RouteNativeSseTranslator) (tool_call : value) : Events :=
  let i := default index (get_u64 as_u64 tool_call "index") in
  let '(emit, s) := note_tool (get_str tool_call "id") (pointer_str tool_call "function" "name")
                      (ts_or_default i (tool_states t)) in
  let id := default ("toolu_" ++ tr_request_id t ++ "_" ++ nat_text i)%string (ts_id s) in
  (set_tools (ts_insert i s (tool_states t)) t,
   (if emit then [tool_start_event i id (default EmptyString (ts_name s))] else [])
   ++ match non_empty (pointer_str tool_call "function" "arguments") with
      | Some arguments =>
          [block_delta_event i (Obj ["partial_json" ↦ Str arguments; "type" ↦ Str "input_json_delta"])]
      | None => []
      end).
Definition text_delta_value (text : string) : value := Obj ["text" ↦ Str text; "type" ↦ Str "text_delta"].
Definition message_choice (t : RouteNativeSseTranslator) (choice : value) : Events :=
  let index := index_of choice in
  then_events (if bool_decide (is_Some (pointer_str choice "delta" "role")) then start_once t else (t, [])) (λ t,
  then_events
    match non_empty (pointer_str choice "delta" "content") with
    | Some text => then_events (start_once t) (λ t, (t, [block_delta_event 0 (text_delta_value text)]))
    | None => (t, [])
    end (λ t,
  then_events
    match get_in (json_get choice "delta") "tool_calls" ≫= json_as_array with
    | Some tool_calls => then_events (start_once t) (events_for (message_tool index) tool_calls)
    | None => (t, [])
    end (λ t,
  match get_str choice "finish_reason" with
  | Some reason => finish_openai_messages reason t
  | None => (t, [])
  end))).
Definition translate_openai_chat_to_messages (t : RouteNativeSseTranslator) (v : value) : Events :=
  let t := set_message_id (Some (default (default "msg_verdictan"%string (get_str v "id")) (message_id t))) t in
  let t := set_model (first_some (get_str v "model") (tr_model t)) t in
  events_for message_choice (default [] (get_array v "choices")) t.

(** A Responses event on the way to messages. *)
Definition output_index (v : value) : Z := default 0%Z (get_u64 as_u64 v "output_index").
(** The start of a message whose identifier is that of the response. *)
Definition start_with_response (v : value) (t : RouteNativeSseTranslator) : Events :=
  if message_started t then (t, [])
  else ensure_message_start (set_message_id (first_some (get_str v "response_id") (message_id t)) t).
Definition responses_delta_message (v : value) (delta : string → value) (t : RouteNativeSseTranslator) : Events :=
  let text := default EmptyString (get_str v "delta") in
  if is_empty text then (t, [])
  else then_events (start_with_response v t) (λ t, (t, [block_delta_event 0 (delta text)])).
Definition note_item (id name : string) (s : StreamToolState) : bool * StreamToolState :=
  let id := first_some (ts_id s) (Some id) in
  let name := first_some (ts_name s) (Some name) in
  (negb (start_emitted s), if start_emitted s then mkToolState id name true (stop_emitted s)
                           else mkToolState id name true false).
Definition responses_item_message (v : value) (t : RouteNativeSseTranslator) : Events :=
  let item := default (Obj []) (json_get v "item") in
  if negb (bool_decide (get_str item "type" = Some "function_call"%string)) then (t, [])
  else
    let i := output_index v in
    let call_id := default EmptyString
      ((match json_get item "call_id" with Some x => Some x | None => json_get item "id" end) ≫= json_as_str) in
    let name := default EmptyString (get_str item "name") in
    let '(emit, s) := note_item call_id name (ts_or_default i (tool_states t)) in
    then_events (start_with_response v (set_tools (ts_insert i s (tool_states t)) t)) (λ t,
      (t, if emit then [tool_start_event i call_id name] else [])).
Definition responses_done_message (v : value) (t : RouteNativeSseTranslator) : Events :=
  let i := output_index v in
  match ts_get i (tool_states t) with
  | Some s =>
      if stop_emitted s then (t, [])
      else (set_tools (ts_insert i (mkToolState (ts_id s) (ts_name s) (start_emitted s) true) (tool_states t)) t,
            [block_stop_event i])
  | None => (t, [])
  end.
Definition translate_openai_responses_to_messages (t : RouteNativeSseTranslator) (v : value) (event_type : string) : Events :=
  if String.eqb event_type "response.output_text.delta" then responses_delta_message v text_delta_value t
  else if String.eqb event_type "response.output_item.added" then responses_item_message v t
  else if String.eqb event_type "response.function_call_arguments.delta" then
    let delta := default EmptyString (get_str v "delta") in
    (t, if is_empty delta then []
        else [block_delta_event (output_index v)
                (Obj ["partial_json" ↦ Str delta; "type" ↦ Str "input_json_delta"])])
  else if String.eqb event_type "response.function_call_arguments.done" then responses_done_message v t
  else if String.eqb event_type "response.reasoning.delta" then
    responses_delta_message v (λ text, Obj ["thinking" ↦ Str text; "type" ↦ Str "thinking_delta"]) t
  else if String.eqb event_type "response.completed" then finish_openai_messages "stop" t
  else (t, []).
Definition printed (r : Events) : Step := (r.1, print <$> r.2).
Definition translate_openai_to_messages (t : RouteNativeSseTranslator) (payload : string) : Step :=
  if String.eqb payload "[DONE]" then (t, [])
  else match from_str payload with
       | None => (t, passed payload)
       | Some v =>
           if has v "error" then (t, [print v])
           else match get_str v "type" with
                | Some event_type => printed (translate_openai_responses_to_messages t v event_type)
                | None => printed (translate_openai_chat_to_messages t v)
                end
       end.

(** ** Chat completions to Responses *)
Definition then_step (r : Step) (f : RouteNativeSseTranslator → Step) : Step :=
  let '(t, ps) := r in let '(t, ps') := f t in (t, ps ++ ps').
Fixpoint steps_for {A} (f : RouteNativeSseTranslator → A → Step) (l : list A)
    (t : RouteNativeSseTranslator) : Step :=
  match l with [] => (t, []) | a :: l => then_step (f t a) (steps_for f l) end.
Definition responses_tool (id : string) (t : RouteNativeSseTranslator) (tool_call : value) : Step :=
  let i := index_of tool_call in
  let '(emit, s) := note_tool (get_str tool_call "id") (pointer_str tool_call "function" "name")
                      (ts_or_default i (tool_states t)) in
  let call := default ("call_" ++ tr_request_id t ++ "_" ++ nat_text i)%string (ts_id s) in
  (set_tools (ts_insert i s (tool_states t)) t,
   (if emit then [item_event id i call (default EmptyString (ts_name s))] else [])
   ++ match non_empty (pointer_str tool_call "function" "arguments") with
      | Some arguments => [arguments_event id i (default EmptyString (ts_id s)) arguments]
      | None => []
      end).
Definition tool_done (id : string) (e : Z * StreamToolState) : option string :=
  if is_open e.2 then arguments_done_event id e.1 <$> ts_id e.2 else None.
Definition responses_choice (id : string) (t : RouteNativeSseTranslator) (choice : value) : Step :=
  then_step
    (t, match non_empty (pointer_str choice "delta" "content") with
        | Some text => [text_event "response.output_text.delta" id text]
        | None => []
        end) (λ t,
  then_step
    (steps_for (responses_tool id)
       (default [] (get_in (json_get choice "delta") "tool_calls" ≫= json_as_array)) t) (λ t,
  match get_str choice "finish_reason" with
  | Some _ => (set_finished true t,
               omap (tool_done id) (tool_states t) ++ [completed_event id; done_payload])
  | None => (t, [])
  end)).
Definition translate_openai_chat_to_responses (t : RouteNativeSseTranslator) (payload : string) : Step :=
  if String.eqb payload "[DONE]" then (t, if tr_finished t then [done_payload] else [])
  else match from_str payload with
       | None => (t, passed payload)
       | Some v =>
           if has v "error" then (t, [print v])
           else
             let id := default (tr_request_id t) (first_some (get_str v "id") (tr_response_id t)) in
             steps_for (responses_choice id) (default [] (get_array v "choices")) (set_response_id (Some id) t)
       end.

(** ** The translator *)
Definition translate (now : Z) (t : RouteNativeSseTranslator) (payload : string) : Step :=
  let path := tr_path t in
  match source_format t with
  | Anthropic =>
      if String.eqb path "/v1/chat/completions" then translate_anthropic_to_chat now t payload
      else if String.eqb path "/v1/responses" then translate_anthropic_to_responses t payload
      else (t, passed payload)
  | Cohere =>
      if String.eqb path "/v1/chat/completions" then translate_cohere_to_chat now t payload
      else if String.eqb path "/v1/responses" then translate_cohere_to_responses t payload
      else (t, passed payload)
  | OpenAI =>
      if String.eqb path "/v1/responses" then translate_openai_chat_to_responses t payload
      else if String.eqb path "/v1/messages" then translate_openai_to_messages t payload
      else (t, passed payload)
  | _ => (t, passed payload)
  end.
(** [translate_payload]: every payload in its own frame. *)
Definition translate_payload (now : Z) (t : RouteNativeSseTranslator) (payload : string) :
    RouteNativeSseTranslator * list string :=
  let '(t, ps) := translate now t payload in (t, sse_frame <$> ps).

(** A stream of payloads, each with the instant at which it is translated. *)
Fixpoint translate_all (t : RouteNativeSseTranslator) (stream : list (Z * string)) : Step :=
  match stream with
  | [] => (t, [])
  | (now, payload) :: stream => then_step (translate now t payload) (λ t, translate_all t stream)
  end.

(** ** Translation keeps the text *)
Abbreviation Accumulator := (string → Acc string → Acc string).
Section text.
Hypothesis parse_print : ∀ v, from_str (print v) = Some v.
Hypothesis done_not_json : from_str "[DONE]" = None.

(** The text that an accumulator collects of a stream. *)
Definition stream_text (acc : Accumulator) (ps : list string) : string :=
  (foldl (λ a p, acc p a) (EmptyString, None) ps).1.

Lemma append_nil_r (s : string) : (s ++ "" = s)%string.
Proof. induction s as [|a s IH]; [done|]. simpl. by rewrite IH. Qed.

Lemma concat_cons (x : string) l : String.concat "" (x :: l) = (x ++ String.concat "" l)%string.
Proof. destruct l as [|y l]; [by rewrite append_nil_r|done]. Qed.



Lemma print_not_done v : String.eqb (print v) "[DONE]" = false.
Proof.
  destruct (String.eqb_spec (print v) "[DONE]") as [E|]; [|done].
  pose proof (parse_print v) as Hp. rewrite E, done_not_json in Hp. done.
Qed.
Lemma done_text acc : acc = accumulate_chat_completion_delta from_str ∨ acc = accumulate_responses_delta from_str
    ∨ acc = accumulate_messages_delta from_str → stream_text acc [done_payload] = EmptyString.
Proof. by intros [->|[->| ->]]. Qed.









Abbreviation responses_text := (stream_text (accumulate_responses_delta from_str)).


End text.

(** ** The route of a translator does not change *)
Definition same_route (t t' : RouteNativeSseTranslator) : Prop :=
  tr_path t' = tr_path t ∧ source_format t' = source_format t.
Lemma same_route_refl t : same_route t t.
Proof. done. Qed.
Lemma anthropic_responses_route t v ty : same_route t (anthropic_responses_event t v ty).1.
Proof. unfold anthropic_responses_event. by repeat case_match. Qed.
Lemma with_event_route t p f :
  (∀ v ty, same_route t (f v ty).1) → same_route t (with_event t p f).1.
Proof. intros Hf. unfold with_event. repeat case_match; try done. Qed.

Section preserved.
Hypothesis parse_print : ∀ v, from_str (print v) = Some v.
Hypothesis done_not_json : from_str "[DONE]" = None.



End preserved.


(** ** Tool calls of translated streams *)

(** What Anthropic streams of its content. *)
Inductive BlockEvent :=
| ToolStart (index : Z) (id name : string)
| ToolJson (index : Z) (fragment : string)
| TextDelta (index : Z) (text : string)
| BlockStop (index : Z).
Definition block_value (e : BlockEvent) : value :=
  match e with
  | ToolStart i id name => tool_start_event i id name
  | ToolJson i fragment =>
      block_delta_event i (Obj ["partial_json" ↦ Str fragment; "type" ↦ Str "input_json_delta"])
  | TextDelta i text => block_delta_event i (text_delta_value text)
  | BlockStop i => block_stop_event i
  end.
Definition event_index (e : BlockEvent) : Z :=
  match e with ToolStart i _ _ | ToolJson i _ | TextDelta i _ | BlockStop i => i end.
(** The pieces of a call follow its start, which names it. *)
Fixpoint well_formed (started : list Z) (es : list BlockEvent) : Prop :=
  match es with
  | [] => True
  | e :: es =>
      u64_ok (event_index e)
      ∧ match e with
        | ToolStart i id _ => id ≠ EmptyString ∧ well_formed (i :: started) es
        | ToolJson i _ => i ∈ started ∧ well_formed started es
        | _ => well_formed started es
        end
  end.
Definition block_stream (es : list BlockEvent) : list (Z * string) := (λ e, (0%Z, print (block_value e))) <$> es.
(** The calls that the gateway assembles of a stream of payloads. *)
Definition assembled_calls (ps : list string) : list (string * PartialToolCall) :=
  foldl (ingest_sse_payload as_u64 from_str) [] ps.

Lemma ts_get_insert i j st l :
  ts_get i (ts_insert j st l) = if (j =? i)%Z then Some st else ts_get i l.
Proof.
  induction l as [|[k s] l IH]; cbn [ts_insert ts_get]; [done|].
  destruct (Z.eqb_spec k j) as [->|Hk]; cbn [ts_get]; [by destruct (Z.eqb_spec j i)|].
  destruct (Z.ltb_spec j k); cbn [ts_get]; [done|]. rewrite IH.
  destruct (Z.eqb_spec k i), (Z.eqb_spec j i); subst; done.
Qed.

Section calls.
Hypothesis parse_print : ∀ v, from_str (print v) = Some v.
Hypothesis done_not_json : from_str "[DONE]" = None.
Hypothesis num_u64 : ∀ z, u64_ok z → as_u64 (num z) = Some z.

Lemma ingest_value v calls :
  ingest_sse_payload as_u64 from_str calls (print v)
  = ingest_anthropic_event as_u64 v (ingest_responses_event as_u64 from_str v (ingest_chat_delta as_u64 v calls)).
Proof. unfold ingest_sse_payload. by rewrite (print_not_done parse_print done_not_json), parse_print. Qed.

(** The assembled calls by their index. *)
Fixpoint at_index (i : Z) (f : PartialToolCall → PartialToolCall) (m : list (Z * PartialToolCall)) :
    list (Z * PartialToolCall) :=
  match m with
  | [] => [(i, f PartialToolCall_default)]
  | (j, p) :: m => if (j =? i)%Z then (j, f p) :: m else (j, p) :: at_index i f m
  end.
Definition keyed (prefix : string) (m : list (Z * PartialToolCall)) : list (string * PartialToolCall) :=
  (λ e, ((prefix ++ index_text e.1)%string, e.2)) <$> m.
Definition indices_ok (m : list (Z * PartialToolCall)) : Prop := Forall (λ e, u64_ok e.1) m.

Lemma append_inj (a b c : string) : (a ++ b = a ++ c)%string → b = c.
Proof. induction a as [|x a IH]; [done|]. simpl. intros [=]. auto. Qed.
Lemma upsert_keyed prefix i f m :
  u64_ok i → indices_ok m →
  upsert (prefix ++ index_text i)%string f (keyed prefix m) = keyed prefix (at_index i f m).
Proof.
  intros Hi Hm. induction Hm as [|[j p] m Hj Hm IH]; [done|]. unfold keyed in *.
  rewrite fmap_cons. cbn [upsert at_index fst snd] in *.
  destruct (String.eqb_spec (prefix ++ index_text j) (prefix ++ index_text i)) as [E|E].
  - apply append_inj, index_text_inj in E as ->; [|unfold u64_ok in *; lia..].
    rewrite Z.eqb_refl. by rewrite fmap_cons.
  - destruct (Z.eqb_spec j i) as [->|Hn]; [done|]. rewrite fmap_cons. cbn [fst snd]. by rewrite IH.
Qed.
Lemma at_index_ok i f m : u64_ok i → indices_ok m → indices_ok (at_index i f m).
Proof.
  intros Hi Hm. induction Hm as [|[j p] m Hj Hm IH]; cbn [at_index]; [by constructor|].
  destruct (j =? i)%Z; by constructor.
Qed.

(** What each event does to the calls. *)
Definition name_call (name : string) (p : PartialToolCall) : PartialToolCall :=
  mkPartial name (partial_arguments p) true.
Definition extend_call (fragment : string) (p : PartialToolCall) : PartialToolCall :=
  mkPartial (partial_name p) (partial_arguments p ++ fragment)%string true.
Definition event_calls (e : BlockEvent) (m : list (Z * PartialToolCall)) : list (Z * PartialToolCall) :=
  match e with
  | ToolStart i _ name => at_index i (name_call name) m
  | ToolJson i fragment => at_index i (extend_call fragment) m
  | _ => m
  end.
Lemma get_index_num (v : value) (k : string) i :
  u64_ok i → json_get v k = Some (Num (num i)) → get_u64 as_u64 v k = Some i.
Proof. intros Hi Hk. unfold get_u64. rewrite Hk. by apply num_u64. Qed.
Lemma ingest_block e m :
  u64_ok (event_index e) → indices_ok m →
  ingest_sse_payload as_u64 from_str (keyed "anthropic:" m) (print (block_value e))
  = keyed "anthropic:" (event_calls e m).
Proof.
  intros Hi Hm. rewrite ingest_value.
  assert (Hk : ∀ v f, get_u64 as_u64 v "index" = Some (event_index e) →
    upsert ("anthropic:" ++ match get_u64 as_u64 v "index" with Some i => index_text i | None => "0" end)%string
      f (keyed "anthropic:" m) = keyed "anthropic:" (at_index (event_index e) f m)).
  { intros v f ->. by apply upsert_keyed. }
  destruct e as [i id name|i fragment|i text|i]; [| |done|done]; (etransitivity; [|apply Hk]);
    first [reflexivity | by apply get_index_num].
Qed.

(** The translated events and the calls. *)
Definition responses_prefix : string := "responses:index:".
Lemma at_index_ext i f g m : (∀ p, f p = g p) → at_index i f m = at_index i g m.
Proof. intros Hf. induction m as [|[j p] m IH]; cbn [at_index]; rewrite ?Hf, ?IH; done. Qed.
Lemma ingest_item rid i id name m :
  u64_ok i → indices_ok m →
  ingest_sse_payload as_u64 from_str (keyed responses_prefix m) (item_event rid i id name)
  = keyed responses_prefix (at_index i (name_call name) m).
Proof.
  intros Hi Hm. unfold item_event. rewrite ingest_value.
  set (v := Obj _). assert (Hg : get_u64 as_u64 v "output_index" = Some i) by by apply get_index_num.
  transitivity (upsert (responses_call_key as_u64 v (function_call_item id name EmptyString))
    (item_added false (function_call_item id name EmptyString)) (keyed responses_prefix m)); [reflexivity|].
  unfold responses_call_key. rewrite Hg, upsert_keyed by done. f_equal. apply at_index_ext. intros p.
  transitivity (mkPartial name (partial_arguments p ++ EmptyString) true); [reflexivity|]. by rewrite append_nil_r.
Qed.
Lemma ingest_arguments rid i id fragment m :
  u64_ok i → indices_ok m →
  ingest_sse_payload as_u64 from_str (keyed responses_prefix m) (arguments_event rid i id fragment)
  = keyed responses_prefix (at_index i (extend_call fragment) m).
Proof.
  intros Hi Hm. unfold arguments_event. rewrite ingest_value.
  set (v := Obj _). assert (Hg : get_u64 as_u64 v "output_index" = Some i) by by apply get_index_num.
  transitivity (upsert (responses_call_key as_u64 v v) (extend_call fragment) (keyed responses_prefix m));
    [reflexivity|].
  unfold responses_call_key. by rewrite Hg, upsert_keyed.
Qed.
(** A call that is there already is not changed by the end of its arguments. *)
Definition complete_call (p : PartialToolCall) : PartialToolCall :=
  mkPartial (partial_name p) (partial_arguments p) true.
Definition calls_ok (started : list Z) (m : list (Z * PartialToolCall)) : Prop :=
  indices_ok m ∧ Forall (λ e, requires_json_arguments e.2 = true) m ∧ ∀ i, i ∈ started ↔ i ∈ m.*1.
Lemma at_index_complete started i m : calls_ok started m → i ∈ started → at_index i complete_call m = m.
Proof.
  intros (_&Hj&Hs) Hi%Hs. clear Hs. induction Hj as [|[j p] m Hp _ IH]; [by apply elem_of_nil in Hi|].
  cbn [at_index]. destruct (Z.eqb_spec j i) as [->|Hn].
  - unfold complete_call. destruct p. simpl in *. by subst.
  - rewrite IH; [done|]. rewrite fmap_cons in Hi. apply elem_of_cons in Hi as [->|Hi]; [by destruct Hn|done].
Qed.
Lemma ingest_done rid i id started m :
  u64_ok i → calls_ok started m → i ∈ started →
  ingest_sse_payload as_u64 from_str (keyed responses_prefix m) (arguments_done_event rid i id)
  = keyed responses_prefix m.
Proof.
  intros Hi Hm Hs. unfold arguments_done_event. rewrite ingest_value.
  set (v := Obj _). assert (Hg : get_u64 as_u64 v "output_index" = Some i) by by apply get_index_num.
  transitivity (upsert (responses_call_key as_u64 v v) complete_call (keyed responses_prefix m)); [reflexivity|].
  unfold responses_call_key. rewrite Hg, upsert_keyed; [|done|by destruct Hm]. by rewrite (at_index_complete started).
Qed.
Lemma at_index_elem i f m j : j ∈ (at_index i f m).*1 ↔ j = i ∨ j ∈ m.*1.
Proof.
  induction m as [|[k p] m IH]; cbn [at_index]; rewrite ?fmap_cons; [set_solver|].
  destruct (Z.eqb_spec k i) as [->|Hn]; rewrite ?fmap_cons, ?elem_of_cons, ?IH; naive_solver.
Qed.
Lemma at_index_json i f m :
  (∀ p, requires_json_arguments (f p) = true) → Forall (λ e, requires_json_arguments e.2 = true) m →
  Forall (λ e, requires_json_arguments e.2 = true) (at_index i f m).
Proof.
  intros Hf Hm. induction Hm as [|[j p] m Hp Hm IH]; cbn [at_index]; [by constructor; [apply Hf|]|].
  destruct (j =? i)%Z; constructor; simpl; auto.
Qed.
Lemma calls_ok_start started i name m :
  u64_ok i → calls_ok started m → calls_ok (i :: started) (at_index i (name_call name) m).
Proof.
  intros Hi (H1&H2&H3). split_and!; [by apply at_index_ok|by apply at_index_json|].
  intros j. rewrite at_index_elem, elem_of_cons, H3. done.
Qed.
Lemma calls_ok_json started i fragment m :
  u64_ok i → i ∈ started → calls_ok started m → calls_ok started (at_index i (extend_call fragment) m).
Proof.
  intros Hi Hs (H1&H2&H3). split_and!; [by apply at_index_ok|by apply at_index_json|].
  intros j. rewrite at_index_elem, <- H3. naive_solver.
Qed.

Definition states_ok (started : list Z) (t : RouteNativeSseTranslator) : Prop :=
  ∀ i, i ∈ started ↔ call_of i t ≠ EmptyString.
Definition started_after (e : BlockEvent) (started : list Z) : list Z :=
  match e with ToolStart i _ _ => i :: started | _ => started end.
Definition event_ok (started : list Z) (e : BlockEvent) : Prop :=
  u64_ok (event_index e)
  ∧ match e with ToolStart _ id _ => id ≠ EmptyString | ToolJson i _ => i ∈ started | _ => True end.
Lemma well_formed_cons started e es :
  well_formed started (e :: es) ↔ event_ok started e ∧ well_formed (started_after e started) es.
Proof. unfold event_ok. destruct e; cbn [well_formed started_after]; tauto. Qed.

Lemma calls_ok_event started e m :
  event_ok started e → calls_ok started m → calls_ok (started_after e started) (event_calls e m).
Proof.
  intros [Hi He] Hm. destruct e; [by apply calls_ok_start|by apply calls_ok_json|done|done].
Qed.
Lemma states_ok_start started t i id name :
  id ≠ EmptyString → states_ok started t →
  states_ok (i :: started) (set_tools (ts_insert i (mkToolState (Some id) (Some name) false false) (tool_states t)) t).
Proof.
  intros Hid Ht j. rewrite elem_of_cons, (Ht j). unfold call_of. cbn [tool_states set_tools].
  rewrite ts_get_insert. destruct (Z.eqb_spec i j) as [->|Hn]; [|naive_solver].
  change (default EmptyString (Some (mkToolState (Some id) (Some name) false false) ≫= ts_id)) with id. tauto.
Qed.
Lemma is_empty_false s : s ≠ EmptyString → is_empty s = false.
Proof. by destruct s. Qed.

Lemma responses_event_step started t e m :
  event_ok started e → states_ok started t → calls_ok started m →
  let '(t', ps) := translate_anthropic_to_responses t (print (block_value e)) in
  states_ok (started_after e started) t'
  ∧ foldl (ingest_sse_payload as_u64 from_str) (keyed responses_prefix m) ps
    = keyed responses_prefix (event_calls e m).
Proof.
  intros [Hi He] Ht Hm. unfold translate_anthropic_to_responses, with_event.
  rewrite (print_not_done parse_print done_not_json), parse_print.
  assert (Hidx : index_of (block_value e) = event_index e).
  { unfold index_of. rewrite (get_index_num (block_value e) "index" (event_index e)); [done|done|by destruct e]. }
  destruct e as [i id name|i fragment|i text|i]; cbn [event_index] in *.
  - change (get_str _ "type") with (Some "content_block_start"%string). unfold anthropic_responses_event.
    cbn [String.eqb Ascii.eqb Bool.eqb]. rewrite Hidx. split; [by apply states_ok_start|].
    cbn [foldl event_calls]. by apply ingest_item; destruct Hm.
  - change (get_str _ "type") with (Some "content_block_delta"%string). unfold anthropic_responses_event.
    cbn [String.eqb Ascii.eqb Bool.eqb]. change (pointer_str _ "delta" "type") with (Some "input_json_delta"%string).
    cbn [String.eqb Ascii.eqb Bool.eqb]. rewrite Hidx.
    change (default EmptyString (pointer_str _ "delta" "partial_json")) with fragment.
    rewrite (is_empty_false (call_of i t)), orb_false_r by by apply Ht. split; [done|].
    destruct fragment as [|a fragment]; cbn [is_empty foldl event_calls]; [|by apply ingest_arguments; destruct Hm].
    f_equal. rewrite <- (at_index_complete started i m) at 1 by done. apply at_index_ext. intros p.
    unfold complete_call, extend_call. by rewrite append_nil_r.
  - change (get_str _ "type") with (Some "content_block_delta"%string). unfold anthropic_responses_event.
    cbn [String.eqb Ascii.eqb Bool.eqb]. change (pointer_str _ "delta" "type") with (Some "text_delta"%string).
    cbn [String.eqb Ascii.eqb Bool.eqb]. split; [done|]. destruct (is_empty _); [done|].
    unfold text_event. cbn [foldl event_calls]. by rewrite ingest_value.
  - change (get_str _ "type") with (Some "content_block_stop"%string). unfold anthropic_responses_event.
    cbn [String.eqb Ascii.eqb Bool.eqb]. rewrite Hidx. split; [done|].
    destruct (is_empty (call_of i t)) eqn:Ec; [done|]. cbn [foldl event_calls].
    apply (ingest_done _ _ _ started); [done|done|]. apply Ht. by intros E; rewrite E in Ec.
Qed.

Definition all_calls (es : list BlockEvent) (m : list (Z * PartialToolCall)) : list (Z * PartialToolCall) :=
  foldl (λ m e, event_calls e m) m es.
Lemma source_calls started es m :
  well_formed started es → calls_ok started m →
  foldl (ingest_sse_payload as_u64 from_str) (keyed "anthropic:" m) (snd <$> block_stream es)
  = keyed "anthropic:" (all_calls es m).
Proof.
  revert started m. induction es as [|e es IH]; intros started m Hw Hm; [done|].
  apply well_formed_cons in Hw as [He Hw]. unfold block_stream. rewrite !fmap_cons. cbn [foldl snd].
  rewrite ingest_block by (destruct He, Hm; done).
  exact (IH _ _ Hw (calls_ok_event _ _ _ He Hm)).
Qed.
Lemma translated_calls started es t m :
  tr_path t = "/v1/responses"%string → source_format t = Anthropic →
  well_formed started es → states_ok started t → calls_ok started m →
  foldl (ingest_sse_payload as_u64 from_str) (keyed responses_prefix m) (translate_all t (block_stream es)).2
  = keyed responses_prefix (all_calls es m).
Proof.
  revert started t m. induction es as [|e es IH]; intros started t m Hp Hf Hw Ht Hm; [done|].
  apply well_formed_cons in Hw as [He Hw]. unfold block_stream. rewrite fmap_cons. cbn [translate_all].
  fold (block_stream es).
  assert (Htr : translate 0 t (print (block_value e)) = translate_anthropic_to_responses t (print (block_value e))).
  { unfold translate. by rewrite Hp, Hf. }
  rewrite Htr. pose proof (responses_event_step started t e m He Ht Hm) as Hstep.
  pose proof (with_event_route t (print (block_value e)) (anthropic_responses_event t)
    (anthropic_responses_route t)) as Hr.
  change (with_event t _ _) with (translate_anthropic_to_responses t (print (block_value e))) in Hr.
  destruct (translate_anthropic_to_responses t (print (block_value e))) as [t' ps]. destruct Hstep as [Ht' Hps].
  destruct Hr as [Hp' Hf']. cbn [fst] in *. unfold then_step.
  specialize (IH _ t' _ ltac:(congruence) ltac:(congruence) Hw Ht' (calls_ok_event _ _ _ He Hm)).
  destruct (translate_all t' (block_stream es)) as [t'' qs]. cbn [snd] in *. rewrite foldl_app, Hps. exact IH.
Qed.
Lemma finish_keyed prefix prefix' m : finish from_str (keyed prefix m) = finish from_str (keyed prefix' m).
Proof.
  unfold keyed. induction m as [|[i p] m IH]; [done|]. rewrite !fmap_cons. cbn [finish fst snd]. by rewrite IH.
Qed.
End calls.

(** A stream of tool calls survives translation to the Responses format: for
    any interleaving of text and of the pieces of any number of calls, each piece
    after the start of its call, the calls that the gateway assembles of the
    translated events are those that it assembles of the original ones, in order,
    with their names and arguments, or the same error. *)
Theorem responses_stream_calls_preserved (request_id : string) (es : list BlockEvent)
    (Hparse : ∀ v, from_str (print v) = Some v) (Hdone : from_str "[DONE]" = None)
    (Hnum : ∀ z, u64_ok z → as_u64 (num z) = Some z) (Hwf : well_formed [] es) :
  finish from_str
    (assembled_calls (translate_all (translator_new "/v1/responses" Anthropic request_id) (block_stream es)).2)
  = finish from_str (assembled_calls (snd <$> block_stream es)).
Proof.
  assert (Hm : calls_ok [] []) by (split_and!; [constructor|constructor|done]).
  unfold assembled_calls.
  rewrite (source_calls Hparse Hdone Hnum [] es [] Hwf Hm : foldl _ [] _ = _).
  rewrite (translated_calls Hparse Hdone Hnum [] es (translator_new "/v1/responses" Anthropic request_id) []
    eq_refl eq_refl Hwf ltac:(intros i; split; [by intros ?%elem_of_nil|done]) Hm : foldl _ [] _ = _).
  apply finish_keyed.
Qed.

(** ** Names of streamed calls *)
Fixpoint repeat_text (n : nat) (s : string) : string :=
  match n with O => EmptyString | S n => (s ++ repeat_text n s)%string end.
Lemma repeat_text_snoc n s : (repeat_text n s ++ s)%string = repeat_text (S n) s.
Proof.
  induction n as [|n IH]; [simpl; by rewrite append_nil_r|]. cbn [repeat_text] in *.
  by rewrite <- string_append_assoc, IH.
Qed.
(** The events of one call. *)
Definition one_call (i : Z) (id name : string) (fragments : list string) : list BlockEvent :=
  ToolStart i id name :: (ToolJson i <$> fragments).
Section names.
Hypothesis parse_print : ∀ v, from_str (print v) = Some v.
Hypothesis done_not_json : from_str "[DONE]" = None.
Hypothesis num_u64 : ∀ z, u64_ok z → as_u64 (num z) = Some z.

Lemma ingest_chat_frame t now model i id name arguments calls :
  u64_ok i →
  ingest_sse_payload as_u64 from_str calls
    (chat_frame t now model (tool_delta i (Some id) (Some name) arguments) Null)
  = upsert (chat_key (index_text 0) (index_text i)) (chat_fragment (Some name) (Some arguments)) calls.
Proof.
  intros Hi. unfold chat_frame. rewrite (ingest_value parse_print done_not_json).
  transitivity (upsert (chat_key
      (match as_u64 (num 0) with Some i => index_text i | None => index_text 0 end)
      (match as_u64 (num i) with Some i => index_text i | None => index_text 0 end))
    (chat_fragment (Some name) (Some arguments)) calls); [reflexivity|].
  by rewrite !num_u64 by (done || width_lia).
Qed.
Lemma chat_json_step now t i id name fragment :
  u64_ok i → fragment ≠ EmptyString → tr_path t = "/v1/chat/completions"%string → source_format t = Anthropic →
  ts_get i (tool_states t) = Some (mkToolState (Some id) (Some name) false false) →
  ∃ t' model, translate now t (print (block_value (ToolJson i fragment)))
    = (t', [chat_frame t' now model (tool_delta i (Some id) (Some name) fragment) Null])
    ∧ same_route t t' ∧ tool_states t' = tool_states t.
Proof.
  intros Hi Hne Hp Hf Hs. unfold translate. rewrite Hp, Hf. cbn [String.eqb Ascii.eqb Bool.eqb].
  unfold translate_anthropic_to_chat, with_event. rewrite (print_not_done parse_print done_not_json), parse_print.
  change (get_str _ "type") with (Some "content_block_delta"%string). unfold anthropic_chat_event.
  cbn [String.eqb Ascii.eqb Bool.eqb]. change (pointer_str _ "delta" "type") with (Some "input_json_delta"%string).
  cbn [String.eqb Ascii.eqb Bool.eqb]. set (model := default "unknown"%string _).
  set (t' := if is_empty model then t else set_model (Some model) t).
  assert (Ht' : tool_states t' = tool_states t ∧ same_route t t') by (unfold t'; by destruct (is_empty model)).
  destruct Ht' as [Ht' Hr]. change (default EmptyString (pointer_str _ "delta" "partial_json")) with fragment.
  assert (Hidx : index_of (block_value (ToolJson i fragment)) = i).
  { unfold index_of. by rewrite (get_index_num num_u64 (block_value (ToolJson i fragment)) "index" i). }
  rewrite Hidx, is_empty_false by done. unfold ts_or_default. rewrite Ht', Hs. by exists t', model.
Qed.
Lemma chat_json_run now i id name fragments t n args :
  u64_ok i → Forall (λ f, f ≠ EmptyString) fragments →
  tr_path t = "/v1/chat/completions"%string → source_format t = Anthropic →
  ts_get i (tool_states t) = Some (mkToolState (Some id) (Some name) false false) →
  foldl (ingest_sse_payload as_u64 from_str)
    [(chat_key (index_text 0) (index_text i), mkPartial (repeat_text n name) args true)]
    (translate_all t ((λ f, (now, print (block_value (ToolJson i f)))) <$> fragments)).2
  = [(chat_key (index_text 0) (index_text i),
      mkPartial (repeat_text (n + length fragments) name) (args ++ String.concat EmptyString fragments) true)].
Proof.
  intros Hi Hne. revert t n args. induction Hne as [|f fs Hf Hfs IH]; intros t n args Hp Hfm Hs.
  - simpl. by rewrite Nat.add_0_r, append_nil_r.
  - destruct (chat_json_step now t i id name f Hi Hf Hp Hfm Hs) as (t'&model&Htr&[Hp' Hf']&Hs').
    rewrite fmap_cons. cbn [translate_all]. rewrite Htr. unfold then_step.
    specialize (IH t' (S n) (args ++ f)%string ltac:(congruence) ltac:(congruence) ltac:(congruence)).
    destruct (translate_all t' _) as [t'' qs]. cbn [snd] in IH |- *. cbn [app foldl].
    rewrite (ingest_chat_frame _ _ _ _ id) by done. cbn [upsert]. rewrite String.eqb_refl.
    unfold chat_fragment, append_string. cbn [partial_name partial_arguments]. rewrite repeat_text_snoc, IH.
    rewrite concat_cons, string_append_assoc. cbn [length]. by replace (n + S (length fs)) with (S n + length fs) by lia.
Qed.
Lemma source_json_run i name fragments args :
  u64_ok i →
  foldl (ingest_sse_payload as_u64 from_str) (keyed "anthropic:" [(i, mkPartial name args true)])
    ((λ f, print (block_value (ToolJson i f))) <$> fragments)
  = keyed "anthropic:" [(i, mkPartial name (args ++ String.concat EmptyString fragments) true)].
Proof.
  intros Hi. revert args. induction fragments as [|f fs IH]; intros args; [simpl; by rewrite append_nil_r|].
  rewrite fmap_cons. cbn [foldl].
  rewrite (ingest_block parse_print done_not_json num_u64 (ToolJson i f)); [|done|by apply Forall_singleton].
  cbn [event_calls at_index]. rewrite Z.eqb_refl. unfold extend_call. cbn [partial_name partial_arguments].
  by rewrite IH, concat_cons, string_append_assoc.
Qed.
Lemma chat_start_step now t i id name :
  u64_ok i → tr_path t = "/v1/chat/completions"%string → source_format t = Anthropic →
  ∃ t' model, translate now t (print (block_value (ToolStart i id name)))
    = (t', [chat_frame t' now model (tool_delta i (Some id) (Some name) EmptyString) Null])
    ∧ same_route t t' ∧ ts_get i (tool_states t') = Some (mkToolState (Some id) (Some name) false false).
Proof.
  intros Hi Hp Hf. unfold translate. rewrite Hp, Hf. cbn [String.eqb Ascii.eqb Bool.eqb].
  unfold translate_anthropic_to_chat, with_event. rewrite (print_not_done parse_print done_not_json), parse_print.
  change (get_str _ "type") with (Some "content_block_start"%string). unfold anthropic_chat_event.
  cbn [String.eqb Ascii.eqb Bool.eqb]. set (model := default "unknown"%string _).
  set (t' := if is_empty model then t else set_model (Some model) t).
  assert (Hidx : index_of (block_value (ToolStart i id name)) = i).
  { unfold index_of. by rewrite (get_index_num num_u64 (block_value (ToolStart i id name)) "index" i). }
  assert (Hr : same_route t t') by (unfold t'; by destruct (is_empty model)). rewrite Hidx.
  exists (set_tools (ts_insert i (mkToolState (Some id) (Some name) false false) (tool_states t')) t'), model.
  split; [reflexivity|]. split; [done|]. cbn [tool_states set_tools]. by rewrite ts_get_insert, Z.eqb_refl.
Qed.
End names.

(** A tool call that Anthropic streams is given a wrong name on the way to the
    chat-completions format: every piece of its arguments carries the whole name
    again, and names of pieces are concatenated, by the gateway's own accumulator
    and so by its firewall, so that with n pieces the name is repeated n + 1
    times; the original stream is assembled to the right name. *)
Theorem chat_stream_repeats_tool_name (request_id id name : string) (i : Z) (fragments : list string)
    (Hparse : ∀ v, from_str (print v) = Some v) (Hdone : from_str "[DONE]" = None)
    (Hnum : ∀ z, u64_ok z → as_u64 (num z) = Some z) (Hi : u64_ok i)
    (Hne : Forall (λ f, f ≠ EmptyString) fragments) :
  let stream := block_stream (one_call i id name fragments) in
  let arguments := String.concat EmptyString fragments in
  (assembled_calls (snd <$> stream)).*2 = [mkPartial name arguments true]
  ∧ (assembled_calls (translate_all (translator_new "/v1/chat/completions" Anthropic request_id) stream).2).*2
    = [mkPartial (repeat_text (S (length fragments)) name) arguments true].
Proof.
  intros stream arguments. unfold stream, block_stream, one_call, assembled_calls. rewrite !fmap_cons.
  rewrite <- !list_fmap_compose. split.
  - cbn [foldl]. unfold compose. cbn [snd].
    pose proof (ingest_block Hparse Hdone Hnum (ToolStart i id name) [] Hi ltac:(constructor)) as Hb.
    change (keyed "anthropic:" []) with (@nil (string * PartialToolCall)) in Hb. rewrite Hb.
    exact (f_equal (fmap snd) (source_json_run Hparse Hdone Hnum i name fragments EmptyString Hi)).
  - set (t0 := translator_new _ _ _).
    destruct (chat_start_step Hparse Hdone Hnum 0 t0 i id name Hi eq_refl eq_refl) as (t&model&Htr&[Hp Hf]&Hs).
    cbn [translate_all]. rewrite Htr. unfold then_step.
    pose proof (chat_json_run Hparse Hdone Hnum 0 i id name fragments t 1 EmptyString Hi Hne Hp Hf Hs) as Hrun.
    change (λ f, (0%Z, print (block_value (ToolJson i f)))) with ((λ e, (0%Z, print (block_value e))) ∘ ToolJson i) in Hrun.
    destruct (translate_all t _) as [t'' qs]. cbn [snd app foldl] in Hrun |- *.
    rewrite (ingest_chat_frame Hparse Hdone Hnum _ _ _ _ id) by done. cbn [upsert].
    change (chat_fragment (Some name) (Some EmptyString) PartialToolCall_default) with (mkPartial name EmptyString true).
    cbn [repeat_text] in Hrun. rewrite append_nil_r in Hrun. rewrite Hrun. done.
Qed.
End streams.
