(* ===== verification/StreamProtocol.v ===== *)
(** * StreamProtocol: the events of a translated message

    What the translator of StreamTranslation.v sends a client of the messages
    endpoint, against an automaton that accepts the order of events of a message. *)

From Stdlib Require Import ZArith Ascii String.
From stdpp Require Import base gmap sets strings list sorting.
From S2P Require Import Prelude Text Float Lww Policy ToolAccess ToolCalls Detection Sse FormatTranslation StreamTranslation.

#[local] Notation "k ↦ v" := (k%string, v) (at level 60, only parsing).

(** What the client has seen: the start of the message, its stop reason and its end,
    and the tool blocks that were started and stopped. *)
Record Seen := mkSeen { begun : bool; reasoned : bool; ended : bool; opened : gset Z; closed : gset Z }.

Section protocol.
Context `{SerdeJson}.
Abbreviation value := (Value Number).
Variable as_u64 : Number → option Z.
Variable num : Z → Number.
Hypothesis num_u64 : ∀ z, u64_ok z → as_u64 (num z) = Some z.
Hypothesis u64_range : ∀ n z, as_u64 n = Some z → u64_ok z.

(** The automaton.  One start, before anything else.  A tool block is started once; a
    piece of its arguments comes after its start and before its stop; it is stopped
    once.  Text is a delta of block 0.  One stop reason, when no tool block is open, and
    then the end at once: nothing is accepted between the two, nor after the end. *)
Definition accept (s : Seen) (v : value) : option Seen :=
  let i := index_of as_u64 v in
  let running := begun s && negb (reasoned s) in
  let open := bool_decide (i ∈ opened s) && negb (bool_decide (i ∈ closed s)) in
  match get_str v "type" with
  | Some ty =>
      if String.eqb ty "message_start" then
        if begun s then None else Some (mkSeen true (reasoned s) (ended s) (opened s) (closed s))
      else if String.eqb ty "content_block_start" then
        if running && negb (bool_decide (i ∈ opened s))
        then Some (mkSeen (begun s) (reasoned s) (ended s) ({[i]} ∪ opened s) (closed s)) else None
      else if String.eqb ty "content_block_delta" then
        if running && (if bool_decide (pointer_str v "delta" "type" = Some "text_delta"%string) then (i =? 0)%Z else open)
        then Some s else None
      else if String.eqb ty "content_block_stop" then
        if running && open
        then Some (mkSeen (begun s) (reasoned s) (ended s) (opened s) ({[i]} ∪ closed s)) else None
      else if String.eqb ty "message_delta" then
        if running && bool_decide (opened s ⊆ closed s) && bool_decide (is_Some (pointer_str v "delta" "stop_reason"))
        then Some (mkSeen (begun s) true (ended s) (opened s) (closed s)) else None
      else if String.eqb ty "message_stop" then
        if reasoned s && negb (ended s) then Some (mkSeen (begun s) (reasoned s) true (opened s) (closed s)) else None
      else None
  | None => None
  end.
Fixpoint accept_all (s : Seen) (vs : list value) : option Seen :=
  match vs with [] => Some s | v :: vs => accept s v ≫= λ s, accept_all s vs end.
Definition nothing_seen : Seen := mkSeen false false false ∅ ∅.

(** What a chat-completions provider streams: until a choice gives a reason to finish,
    the first piece of a call carries its identifier or its name before any of its
    arguments; from then on no choice carries text or calls.  [started] are the calls
    that were announced. *)
Definition call_pieces (choice : value) : list value :=
  default [] (get_in (json_get choice "delta") "tool_calls" ≫= json_as_array).
Definition announce (index : Z) (started : gset Z) (call : value) : option (gset Z) :=
  let i := default index (get_u64 as_u64 call "index") in
  if bool_decide (i ∈ started) then Some started
  else if bool_decide (is_Some (get_str call "id")) || bool_decide (is_Some (pointer_str call "function" "name"))
  then Some ({[i]} ∪ started)
  else match non_empty (pointer_str call "function" "arguments") with Some _ => None | None => Some started end.
Fixpoint announce_all (index : Z) (started : gset Z) (calls : list value) : option (gset Z) :=
  match calls with [] => Some started | c :: calls => announce index started c ≫= λ started, announce_all index started calls end.
Definition finishes (choice : value) : bool := bool_decide (is_Some (get_str choice "finish_reason")).
Definition carries_nothing (choice : value) : bool :=
  bool_decide (non_empty (pointer_str choice "delta" "content") = None)
  && match call_pieces choice with [] => true | _ => false end.
Fixpoint well_streamed (started : gset Z) (finished : bool) (choices : list value) : bool :=
  match choices with
  | [] => true
  | c :: cs =>
      if finished then carries_nothing c && well_streamed started true cs
      else match announce_all (index_of as_u64 c) started (call_pieces c) with
           | Some started => well_streamed started (finishes c) cs
           | None => false
           end
  end.
Definition choices_of (chunk : value) : list value := default [] (get_array chunk "choices").

Lemma accept_all_app s vs ws : accept_all s (vs ++ ws) = accept_all s vs ≫= λ s, accept_all s ws.
Proof.
  revert s. induction vs as [|v vs IH]; intros s; [done|]. cbn [app accept_all].
  destruct (accept s v); [apply IH|done].
Qed.

(** The translator's state and what the client has seen agree. *)
Definition keys_sorted (l : list (Z * StreamToolState)) : Prop := StronglySorted Z.lt (l.*1).
Record agrees (s : Seen) (t : RouteNativeSseTranslator) : Prop := mkAgrees {
  ag_begun : begun s = message_started t;
  ag_opened : ∀ i, i ∈ opened s ↔ start_emitted (ts_or_default i (tool_states t)) = true;
  ag_closed : ∀ i, i ∈ closed s ↔ stop_emitted (ts_or_default i (tool_states t)) = true;
  ag_stop : ∀ i, stop_emitted (ts_or_default i (tool_states t)) = true →
                 start_emitted (ts_or_default i (tool_states t)) = true;
  ag_blank : ∀ i, start_emitted (ts_or_default i (tool_states t)) = false →
                  ts_id (ts_or_default i (tool_states t)) = None ∧ ts_name (ts_or_default i (tool_states t)) = None;
  ag_sorted : keys_sorted (tool_states t);
  ag_range : Forall (λ e, u64_ok e.1) (tool_states t);
}.
(** The events of a step are accepted, and what is known afterwards. *)
Definition accepted (P : Seen → RouteNativeSseTranslator → Prop) (s : Seen)
    (r : RouteNativeSseTranslator * list value) : Prop :=
  ∃ s', accept_all s r.2 = Some s' ∧ agrees s' r.1 ∧ P s' r.1.

Lemma accepted_then P Q s r f :
  accepted P s r → (∀ s' t', agrees s' t' → P s' t' → accepted Q s' (f t')) → accepted Q s (then_events r f).
Proof.
  destruct r as [t es]. intros (s'&He&Ha&HP) Hf. destruct (Hf s' t Ha HP) as (s''&He'&Ha'&HQ).
  unfold accepted, then_events. cbn [fst snd] in *. destruct (f t) as [t' es']. cbn [fst snd] in *.
  exists s''. rewrite accept_all_app, He. done.
Qed.
Lemma accepted_nil (P : Seen → RouteNativeSseTranslator → Prop) s t : agrees s t → P s t → accepted P s (t, []).
Proof. intros. by exists s. Qed.

(** Before the end of the message, with the calls that were announced, and after it. *)
Definition live (O : gset Z) (s : Seen) (t : RouteNativeSseTranslator) : Prop :=
  reasoned s = false ∧ ended s = false ∧ tr_finished t = false ∧ closed s = ∅ ∧ opened s = O.
Definition in_message (O : gset Z) (s : Seen) (t : RouteNativeSseTranslator) : Prop :=
  live O s t ∧ message_started t = true.
Definition over (s : Seen) (t : RouteNativeSseTranslator) : Prop :=
  reasoned s = true ∧ ended s = true ∧ tr_finished t = true ∧ message_started t = true ∧ closed s = opened s.

Lemma start_once_accepted s t : agrees s t →
  accepted (λ s' t', message_started t' = true ∧ tr_finished t' = tr_finished t ∧ tool_states t' = tool_states t
     ∧ reasoned s' = reasoned s ∧ ended s' = ended s ∧ opened s' = opened s ∧ closed s' = closed s) s (start_once t).
Proof.
  intros Ha. unfold start_once. destruct (message_started t) eqn:Es; [by apply accepted_nil|].
  exists (mkSeen true (reasoned s) (ended s) (opened s) (closed s)). split.
  - cbn [ensure_message_start snd accept_all]. unfold accept.
    change (get_str _ "type") with (Some "message_start"%string). cbn [String.eqb Ascii.eqb Bool.eqb].
    by rewrite (ag_begun _ _ Ha), Es.
  - split; [|done]. destruct Ha. by constructor.
Qed.

Lemma ts_insert_keys i st l k : k ∈ (ts_insert i st l).*1 → k = i ∨ k ∈ l.*1.
Proof.
  induction l as [|[j s] l IH]; cbn [ts_insert]; [rewrite fmap_cons; set_solver|].
  destruct (j =? i)%Z; [rewrite !fmap_cons; set_solver|]. destruct (i <? j)%Z; rewrite !fmap_cons; set_solver.
Qed.
Lemma ts_insert_sorted i st l : keys_sorted l → keys_sorted (ts_insert i st l).
Proof.
  unfold keys_sorted. induction l as [|[j s] l IH]; cbn [ts_insert]; [by repeat constructor|].
  rewrite fmap_cons. intros [Hs Hj]%StronglySorted_inv. cbn [fst] in *.
  destruct (Z.eqb_spec j i) as [->|Hn]; [rewrite fmap_cons; by constructor|].
  destruct (Z.ltb_spec i j); rewrite !fmap_cons; cbn [fst].
  - constructor; [by constructor|]. constructor; [done|]. eapply Forall_impl; [exact Hj|]. simpl. lia.
  - constructor; [by apply IH|]. apply Forall_forall. intros k [->|Hk]%ts_insert_keys; [lia|].
    rewrite Forall_forall in Hj. by apply Hj.
Qed.
Lemma ts_insert_range i st l : u64_ok i → Forall (λ e, u64_ok e.1) l → Forall (λ e, u64_ok e.1) (ts_insert i st l).
Proof.
  intros Hi Hl. induction Hl as [|[j s] l Hj Hl IH]; cbn [ts_insert]; [by constructor|].
  destruct (j =? i)%Z; [by constructor|]. destruct (i <? j)%Z; constructor; simpl; auto.
Qed.
Lemma ts_default_insert i j st l :
  ts_or_default j (ts_insert i st l) = if (i =? j)%Z then st else ts_or_default j l.
Proof. unfold ts_or_default. rewrite ts_get_insert. by destruct (i =? j)%Z. Qed.

(** What noting a piece of a call does to the flags of its tool. *)
Lemma note_tool_flags id name st :
  (start_emitted st = false → ts_id st = None ∧ ts_name st = None) →
  let '(emit, st') := note_tool id name st in
  start_emitted st' = start_emitted st || emit ∧ (emit = true → start_emitted st = false)
  ∧ stop_emitted st' = (if emit then false else stop_emitted st)
  ∧ emit = negb (start_emitted st) && (bool_decide (is_Some id) || bool_decide (is_Some name))
  ∧ (start_emitted st' = false → ts_id st' = None ∧ ts_name st' = None).
Proof.
  intros Hblank. unfold note_tool. destruct (start_emitted st) eqn:Es; cbn [negb andb orb].
  - cbn. rewrite ?Es. split_and!; done.
  - destruct (Hblank eq_refl) as [-> ->]. cbn [first_some]. destruct id, name; cbn; rewrite ?Es; split_and!; try done.
Qed.
Lemma index_read i v : u64_ok i → json_get v "index" = Some (Num (num i)) → index_of as_u64 v = i.
Proof. intros Hi Hv. unfold index_of, get_u64. rewrite Hv. cbn. by rewrite num_u64. Qed.
Lemma get_u64_range v k i : get_u64 as_u64 v k = Some i → u64_ok i.
Proof. unfold get_u64. destruct (json_get v k) as [[]|]; try done. apply u64_range. Qed.

(** The tool block of a piece, started or not. *)
Lemma tool_start_accepted O s t i emit st id name :
  agrees s t → in_message O s t → u64_ok i →
  start_emitted st = start_emitted (ts_or_default i (tool_states t)) || emit →
  (emit = true → start_emitted (ts_or_default i (tool_states t)) = false) →
  stop_emitted st = (if emit then false else stop_emitted (ts_or_default i (tool_states t))) →
  (start_emitted st = false → ts_id st = None ∧ ts_name st = None) →
  accepted (in_message (if emit : bool then {[i]} ∪ O else O)) s (set_tools (ts_insert i st (tool_states t)) t,
                         if emit : bool then [tool_start_event num i id name] else []).
Proof.
  intros Ha [(Hr & He & Hf & Hcl & HO) Hm] Hi Hst Hem Hsp Hbl. pose proof Ha as [Hb Ho Hc Hss Hblank Hsort Hrng].
  exists (if emit then mkSeen (begun s) (reasoned s) (ended s) ({[i]} ∪ opened s) (closed s) else s). split; [|split].
  - destruct emit; [|done]. cbn [snd accept_all]. unfold accept.
    change (get_str _ "type") with (Some "content_block_start"%string). cbn [String.eqb Ascii.eqb Bool.eqb].
    rewrite (index_read i) by done. rewrite Hb, Hm, Hr, bool_decide_false by (rewrite Ho, Hem; done). done.
  - assert (Hno : emit = true → stop_emitted (ts_or_default i (tool_states t)) = false).
    { intros E. specialize (Hem E). specialize (Hss i). rewrite Hem in Hss.
      by destruct (stop_emitted (ts_or_default i (tool_states t))); [destruct Hss|]. }
    constructor; cbn [fst message_started tool_states set_tools]; [by destruct emit| | | | |
      by apply ts_insert_sorted|by apply ts_insert_range].
    + intros j. rewrite ts_default_insert. destruct (Z.eqb_spec i j) as [->|Hn].
      * rewrite Hst. destruct emit; cbn [opened]; [rewrite orb_true_r; set_solver|]. by rewrite orb_false_r, Ho.
      * rewrite <- Ho. destruct emit; cbn [opened]; set_solver.
    + intros j. rewrite ts_default_insert. destruct (Z.eqb_spec i j) as [->|Hn].
      * rewrite Hsp. destruct emit; cbn [closed]; [|apply Hc]. rewrite Hc, Hno by done. done.
      * rewrite <- Hc. by destruct emit.
    + intros j. rewrite ts_default_insert. destruct (Z.eqb_spec i j) as [->|Hn]; [|apply Hss].
      rewrite Hst, Hsp. destruct emit; [done|]. rewrite orb_false_r. apply Hss.
    + intros j. rewrite ts_default_insert. destruct (Z.eqb_spec i j) as [->|Hn]; [exact Hbl|apply Hblank].
  - subst O. by destruct emit.
Qed.
Lemma text_delta_accepted O s t text :
  agrees s t → in_message O s t → accepted (in_message O) s (t, [block_delta_event num 0 (text_delta_value text)]).
Proof.
  intros Ha Hm. exists s. split; [|done]. cbn [snd accept_all]. unfold accept.
  change (get_str _ "type") with (Some "content_block_delta"%string). cbn [String.eqb Ascii.eqb Bool.eqb].
  change (pointer_str _ "delta" "type") with (Some "text_delta"%string). rewrite bool_decide_true by done.
  destruct Hm as [(Hr & _) Hm]. rewrite (index_read 0) by (done || width_lia). by rewrite (ag_begun _ _ Ha), Hm, Hr.
Qed.
Lemma arguments_accepted O s t i arguments : u64_ok i → i ∈ O →
  agrees s t → in_message O s t → accepted (in_message O) s
    (t, [block_delta_event num i (Obj ["partial_json" ↦ Str arguments; "type" ↦ Str "input_json_delta"])]).
Proof.
  intros Hi HO Ha Hm. exists s. split; [|done]. cbn [snd accept_all]. unfold accept.
  change (get_str _ "type") with (Some "content_block_delta"%string). cbn [String.eqb Ascii.eqb Bool.eqb].
  change (pointer_str _ "delta" "type") with (Some "input_json_delta"%string). rewrite bool_decide_false by done.
  destruct Hm as [(Hr & _ & _ & Hc & Ho) Hm]. rewrite (index_read i) by done.
  rewrite Hc, Ho, bool_decide_true, bool_decide_false by (done || set_solver). by rewrite (ag_begun _ _ Ha), Hm, Hr.
Qed.
(** A piece of a call starts its block exactly when it is announced. *)
Lemma message_tool_accepted O O' index s t tc : announce index O tc = Some O' →
  u64_ok index → agrees s t → in_message O s t → accepted (in_message O') s (message_tool as_u64 num index t tc).
Proof.
  intros Han Hindex Ha Hm. unfold message_tool. unfold announce in Han. set (i := default index _) in *.
  assert (Hi : u64_ok i).
  { unfold i. destruct (get_u64 as_u64 tc "index") eqn:E; [by apply get_u64_range in E|done]. }
  pose proof (note_tool_flags (get_str tc "id") (pointer_str tc "function" "name") (ts_or_default i (tool_states t))
    (ag_blank _ _ Ha i)) as Hf.
  destruct (note_tool _ _ _) as [emit st]. destruct Hf as (H1&H2&H3&H4&H5).
  pose proof (tool_start_accepted O s t i emit st (default ("toolu_" ++ tr_request_id t ++ "_" ++ nat_text i)%string (ts_id st))
    (default EmptyString (ts_name st)) Ha Hm Hi H1 H2 H3 H5) as Hacc.
  match goal with |- accepted _ _ (?t', ?e ++ ?d) =>
    change (accepted (in_message O') s (then_events (t', e) (λ t, (t, d)))) end.
  assert (HO : i ∈ O ↔ start_emitted (ts_or_default i (tool_states t)) = true).
  { destruct Hm as [(_ & _ & _ & _ & <-) _]. apply Ha. }
  eapply accepted_then; [exact Hacc|]. intros s' t' Ha' Hm'. rewrite H4 in Hm'. clear Hacc H5.
  destruct (bool_decide_reflect (i ∈ O)) as [Hin|Hin].
  - apply HO in Hin as Hst. rewrite Hst in Hm'. cbn in Hm'. simplify_eq.
    destruct (non_empty _); [by apply arguments_accepted|by apply accepted_nil].
  - rewrite (not_true_is_false _ (λ E, Hin (proj2 HO E))) in Hm'. cbn [negb andb] in Hm'. destruct (_ || _); simplify_eq.
    + destruct (non_empty _); [apply arguments_accepted; [done|set_solver|done|done]|by apply accepted_nil].
    + destruct (non_empty _); [done|]. simplify_eq. by apply accepted_nil.
Qed.
Lemma pieces_accepted O O' index calls s t : announce_all index O calls = Some O' →
  u64_ok index → agrees s t → in_message O s t → accepted (in_message O') s (events_for (message_tool as_u64 num index) calls t).
Proof.
  intros Han Hi. revert O s t Han. induction calls as [|c calls IH]; intros O s t Han Ha Hm; cbn [announce_all events_for] in *.
  - simplify_eq. by apply accepted_nil.
  - apply bind_Some in Han as (O1 & H1 & Han). eapply accepted_then; [by eapply message_tool_accepted|].
    intros s' t' Ha' Hm'. by eapply IH.
Qed.

(** *** The end of a message *)
Lemma ts_get_map (g : StreamToolState → StreamToolState) i l :
  ts_get i ((λ '(j, s), (j, g s)) <$> l) = g <$> ts_get i l.
Proof.
  induction l as [|[j s] l IH]; [done|]. rewrite fmap_cons. cbn [ts_get]. by destruct (j =? i)%Z.
Qed.
Lemma close_default i l :
  ts_or_default i ((λ '(j, s), (j, close_tool s)) <$> l) = close_tool (ts_or_default i l).
Proof. unfold ts_or_default. rewrite ts_get_map. by destruct (ts_get i l). Qed.
Lemma close_flags st :
  start_emitted (close_tool st) = start_emitted st ∧ stop_emitted (close_tool st) = stop_emitted st || start_emitted st
  ∧ ts_id (close_tool st) = ts_id st ∧ ts_name (close_tool st) = ts_name st.
Proof. unfold close_tool, is_open. destruct (start_emitted st) eqn:E, (stop_emitted st) eqn:E'; cbn; by rewrite ?E, ?E'. Qed.
Lemma ts_get_elem (l : list (Z * StreamToolState)) i st :
  keys_sorted l → (i, st) ∈ l → ts_get i l = Some st.
Proof.
  unfold keys_sorted. induction l as [|[j s] l IH]; [by intros _ ?%elem_of_nil|]. rewrite fmap_cons.
  intros [Hs Hj]%StronglySorted_inv [[= -> ->]|Hin]%elem_of_cons; cbn [ts_get]; [by rewrite Z.eqb_refl|].
  destruct (Z.eqb_spec j i) as [->|Hn]; [|by apply IH]. rewrite Forall_forall in Hj.
  assert (Hi : i ∈ l.*1) by (apply list_elem_of_fmap; by exists (i, st)). apply Hj in Hi. simpl in Hi. lia.
Qed.
Lemma ts_get_some (l : list (Z * StreamToolState)) i st : ts_get i l = Some st → (i, st) ∈ l.
Proof.
  induction l as [|[j s] l IH]; [done|]. cbn [ts_get]. destruct (Z.eqb_spec j i) as [->|Hn].
  - intros [= ->]. by left.
  - intros Hg. right. by apply IH.
Qed.
Definition open_indices (l : list (Z * StreamToolState)) : list Z :=
  fst <$> List.filter (λ '(_, s), is_open s) l.
Lemma open_indices_spec l i :
  keys_sorted l → i ∈ open_indices l ↔ is_open (ts_or_default i l) = true.
Proof.
  intros Hs. unfold open_indices. rewrite list_elem_of_fmap. split.
  - intros ([j st]&->&[Hin Ho]%list_elem_of_In%filter_In). apply list_elem_of_In in Hin.
    unfold ts_or_default. cbn [fst]. by rewrite (ts_get_elem l j st).
  - unfold ts_or_default. destruct (ts_get i l) as [st|] eqn:E; [|done]. intros Ho. exists (i, st).
    split; [done|]. apply list_elem_of_In, filter_In. split; [by apply list_elem_of_In, ts_get_some|done].
Qed.
Lemma open_indices_nodup l : keys_sorted l → NoDup (open_indices l).
Proof.
  unfold keys_sorted, open_indices. induction l as [|[j s] l IH]; [constructor|]. rewrite fmap_cons.
  intros [Hs Hj]%StronglySorted_inv. cbn [List.filter]. destruct (is_open s); [|by apply IH].
  rewrite fmap_cons. constructor; [|by apply IH]. intros ([k st]&Hjk&Hk%list_elem_of_In%filter_In)%list_elem_of_fmap.
  destruct Hk as [Hk%list_elem_of_In _]. cbn [fst] in *. subst j. rewrite Forall_forall in Hj.
  assert (Hi : k ∈ l.*1) by (apply list_elem_of_fmap; by exists (k, st)). apply Hj in Hi. simpl in Hi. lia.
Qed.
Lemma accept_stops ks s :
  begun s = true → reasoned s = false → NoDup ks → (∀ i, i ∈ ks → i ∈ opened s ∧ (i ∉ closed s) ∧ u64_ok i) →
  accept_all s (block_stop_event num <$> ks)
  = Some (mkSeen (begun s) (reasoned s) (ended s) (opened s) (list_to_set ks ∪ closed s)).
Proof.
  intros Hb Hr Hnd. revert s Hb Hr. induction Hnd as [|i ks Hi Hnd IH]; intros s Hb Hr Hs.
  - cbn. destruct s. f_equal. f_equal. set_solver.
  - rewrite fmap_cons. cbn [accept_all]. unfold accept at 1.
    change (get_str _ "type") with (Some "content_block_stop"%string). cbn [String.eqb Ascii.eqb Bool.eqb].
    destruct (Hs i) as (Ho&Hc&Hu); [by left|]. rewrite (index_read i) by done.
    rewrite bool_decide_true, bool_decide_false by done. rewrite Hb, Hr. cbn [andb negb mbind option_bind]. rewrite IH; [|done|done|].
    + cbn [begun reasoned ended opened closed list_to_set]. rewrite ?Hb, ?Hr. f_equal. f_equal. set_solver.
    + intros j Hj. destruct (Hs j) as (?&?&?); [by right|]. cbn [opened closed]. set_solver.
Qed.

Lemma accept_end reason s :
  begun s = true → reasoned s = false → ended s = false → opened s ⊆ closed s →
  accept_all s [message_delta_event reason; message_stop_event] = Some (mkSeen true true true (opened s) (closed s)).
Proof.
  destruct s as [b r e o c]. cbn [begun reasoned ended opened closed]. intros -> -> -> Hoc.
  assert (Hd : accept (mkSeen true false false o c) (message_delta_event reason) = Some (mkSeen true true false o c)).
  { unfold accept. change (get_str _ "type") with (Some "message_delta"%string).
    cbn [String.eqb Ascii.eqb Bool.eqb begun reasoned opened closed]. by rewrite (bool_decide_true (o ⊆ c)). }
  cbn [accept_all]. rewrite Hd. reflexivity.
Qed.
(** Closing the open tools closes their blocks. *)
Lemma closed_agrees s t : agrees s t → begun s = true →
  agrees (mkSeen true true true (opened s) (list_to_set (open_indices (tool_states t)) ∪ closed s))
    (set_tools ((λ '(i, st), (i, close_tool st)) <$> tool_states t) t).
Proof.
  intros [Hb Ho Hc Hss Hbl Hsort Hrng] Hbegun.
  constructor; cbn [fst message_started tool_states set_tools begun opened closed]; [congruence| | | | | |].
  - intros i. rewrite close_default. destruct (close_flags (ts_or_default i (tool_states t))) as (-> & _). apply Ho.
  - intros i. rewrite close_default. destruct (close_flags (ts_or_default i (tool_states t))) as (_ & -> & _).
    rewrite elem_of_union, elem_of_list_to_set, Hc, open_indices_spec by done. unfold is_open. specialize (Hss i).
    destruct (start_emitted (ts_or_default i (tool_states t))), (stop_emitted (ts_or_default i (tool_states t))); naive_solver.
  - intros i. rewrite close_default. destruct (close_flags (ts_or_default i (tool_states t))) as (-> & -> & _).
    rewrite orb_true_iff. intros [Hx|Hx]; [by apply Hss|done].
  - intros i. rewrite close_default. destruct (close_flags (ts_or_default i (tool_states t))) as (-> & _ & -> & ->). apply Hbl.
  - unfold keys_sorted in *. rewrite <- list_fmap_compose.
    replace (fst ∘ _ <$> tool_states t) with (tool_states t).*1; [done|]. apply list_fmap_ext. by intros ? [].
  - apply Forall_fmap. eapply Forall_impl; [exact Hrng|]. by intros [].
Qed.
Lemma finish_accepted O reason s t :
  agrees s t → live O s t → accepted over s (finish_openai_messages num reason t).
Proof.
  intros Ha (Hr & He & Hfin & Hcl & HO). unfold finish_openai_messages. rewrite Hfin.
  eapply accepted_then; [apply start_once_accepted; destruct Ha; by constructor|].
  intros s' t' Ha' (Hm & Hf' & _ & Hr' & He' & Ho' & Hcl'). pose proof Ha' as [Hb Ho Hc Hss Hbl Hsort Hrng].
  set (ks := open_indices (tool_states t')).
  assert (Hks : list_to_set ks ∪ closed s' = opened s').
  { rewrite Hcl', Hcl. apply set_eq. intros i. rewrite elem_of_union, elem_of_list_to_set, Ho. unfold ks.
    rewrite open_indices_spec by done. unfold is_open. assert (Hn : stop_emitted (ts_or_default i (tool_states t')) = false).
    { apply not_true_is_false. rewrite <- Hc, Hcl', Hcl. set_solver. }
    rewrite Hn, andb_true_r. set_solver. }
  exists (mkSeen true true true (opened s') (list_to_set ks ∪ closed s')). split; [|split].
  - cbn [snd]. rewrite accept_all_app.
    replace (block_stop_event num ∘ fst <$> List.filter _ (tool_states t')) with (block_stop_event num <$> ks)
      by (unfold ks, open_indices; by rewrite <- list_fmap_compose).
    rewrite accept_stops; [|congruence|congruence|by apply open_indices_nodup|].
    + cbn [mbind option_bind]. apply accept_end; cbn [begun reasoned ended opened closed]; [congruence..|]. by rewrite Hks.
    + intros i Hi. split; [rewrite <- Hks; set_solver|]. split; [rewrite Hcl', Hcl; set_solver|].
      unfold ks, open_indices in Hi. apply list_elem_of_fmap in Hi as ([k st]&->&[Hin%list_elem_of_In _]%list_elem_of_In%filter_In).
      rewrite Forall_forall in Hrng. by apply Hrng in Hin.
  - apply closed_agrees; [done|congruence].
  - unfold over. cbn [reasoned ended opened closed fst tr_finished message_started set_tools]. rewrite Hf'. by split_and!.
Qed.

Lemma accepted_weaken (P Q : Seen → RouteNativeSseTranslator → Prop) s r :
  (∀ s t, P s t → Q s t) → accepted P s r → accepted Q s r.
Proof. intros HPQ (s'&?&?&?). exists s'. auto. Qed.
Lemma in_message_live O s r : accepted (in_message O) s r → accepted (live O) s r.
Proof. apply accepted_weaken. by intros ? ? []. Qed.
Lemma start_in_message O s t : agrees s t → live O s t → accepted (in_message O) s (start_once t).
Proof.
  intros Ha (Hr & He & Hf & Hc & Ho). eapply accepted_weaken; [|by apply start_once_accepted].
  intros s' t' (H1&H2&_&H4&H5&H6&H7). split; [|done]. split_and!; congruence.
Qed.
Lemma choice_index_ok choice : u64_ok (index_of as_u64 choice).
Proof.
  unfold index_of. destruct (get_u64 as_u64 choice "index") eqn:E; [by apply get_u64_range in E|].
  change (u64_ok 0). width_lia.
Qed.
Lemma message_choice_accepted O O' s t choice :
  announce_all (index_of as_u64 choice) O (call_pieces choice) = Some O' → agrees s t → live O s t →
  accepted (if finishes choice then over else live O') s (message_choice as_u64 num t choice).
Proof.
  intros Han Ha Hs. unfold message_choice. eapply (accepted_then (live O)).
  { case_bool_decide; [|by apply accepted_nil]. by apply in_message_live, start_in_message. }
  intros s1 t1 Ha1 Hs1. eapply (accepted_then (live O)).
  { destruct (non_empty _) as [text|]; [|by apply accepted_nil]. apply in_message_live.
    eapply accepted_then; [by apply start_in_message|]. intros s2 t2 Ha2 Hs2. by apply text_delta_accepted. }
  intros s3 t3 Ha3 Hs3. eapply (accepted_then (live O')).
  { unfold call_pieces in Han. destruct (_ ≫= json_as_array) as [tcs|]; cbn [default from_option] in Han;
      [|cbn in Han; simplify_eq; by apply accepted_nil].
    apply in_message_live. eapply accepted_then; [by apply start_in_message|].
    intros s4 t4 Ha4 Hs4. eapply pieces_accepted; [exact Han|apply choice_index_ok|done|done]. }
  intros s5 t5 Ha5 Hs5. unfold finishes. destruct (get_str choice "finish_reason"); [by eapply finish_accepted|by apply accepted_nil].
Qed.
(** After the end, a choice that carries nothing adds nothing. *)
Lemma over_choice_accepted s t choice : carries_nothing choice = true → agrees s t → over s t →
  accepted over s (message_choice as_u64 num t choice).
Proof.
  intros [Hc Hp]%andb_true_iff Ha Ho. apply bool_decide_eq_true in Hc. destruct Ho as (Hr & He & Hf & Hm & Hcl).
  assert (Hs : start_once t = (t, [])) by (unfold start_once; by rewrite Hm).
  assert (Hd : message_choice as_u64 num t choice = (t, [])); [|rewrite Hd; by apply accepted_nil].
  unfold message_choice. rewrite Hs. replace (if bool_decide _ then (t, []) else (t, [])) with (t, @nil value) by (by destruct (bool_decide _)).
  cbn [then_events]. rewrite Hc. cbn [then_events app]. unfold call_pieces in Hp.
  assert (Ht : match get_in (json_get choice "delta") "tool_calls" ≫= json_as_array with
    | Some tool_calls => then_events (start_once t) (events_for (message_tool as_u64 num (index_of as_u64 choice)) tool_calls)
    | None => (t, []) end = (t, [])).
  { destruct (_ ≫= json_as_array) as [[|tc tcs]|]; [by rewrite Hs|done|done]. }
  rewrite Ht. cbn [then_events app]. unfold finish_openai_messages. rewrite Hf. by destruct (get_str choice "finish_reason").
Qed.

(** The state after some choices, when [O] were announced and a reason was given or not. *)
Definition phase_ok (O : gset Z) (fin : bool) (s : Seen) (t : RouteNativeSseTranslator) : Prop :=
  if fin then over s t else live O s t.
Definition rest_ok (fin : bool) (rest : list value) (s : Seen) (t : RouteNativeSseTranslator) : Prop :=
  ∃ O, phase_ok O fin s t ∧ well_streamed O fin rest = true.
Lemma choices_accepted fin cs rest s t : agrees s t → rest_ok fin (cs ++ rest) s t →
  accepted (rest_ok (fin || existsb finishes cs) rest) s (events_for (message_choice as_u64 num) cs t).
Proof.
  revert fin s t. induction cs as [|c cs IH]; intros fin s t Ha (O & Hp & Hw).
  { rewrite orb_false_r. apply accepted_nil; [done|]. by exists O. }
  cbn [events_for app well_streamed existsb] in *. destruct fin; cbn [orb].
  - apply andb_true_iff in Hw as [Hc Hw]. eapply accepted_then; [by apply over_choice_accepted|].
    intros s' t' Ha' Ho'. apply (IH true); [done|]. by exists O.
  - destruct (announce_all _ _ _) as [O'|] eqn:Han; [|done].
    eapply accepted_then; [by eapply message_choice_accepted|]. intros s' t' Ha' Hp'. apply IH; [done|].
    exists O'. split; [|done]. unfold phase_ok. by destruct (finishes c).
Qed.

(** The events for a sequence of chunks of the provider. *)
Definition chunk_events (t : RouteNativeSseTranslator) (chunks : list value) :
    RouteNativeSseTranslator * list value :=
  events_for (translate_openai_chat_to_messages as_u64 num) chunks t.
Definition all_choices (chunks : list value) : list value := concat (choices_of <$> chunks).
Lemma chunks_accepted fin s t chunks : agrees s t → rest_ok fin (all_choices chunks) s t →
  accepted (rest_ok (fin || existsb finishes (all_choices chunks)) []) s (chunk_events t chunks).
Proof.
  revert fin s t. induction chunks as [|v chunks IH]; intros fin s t Ha Hr.
  { rewrite orb_false_r. by apply accepted_nil. }
  unfold chunk_events in *. cbn [events_for all_choices concat fmap list_fmap] in *. fold (all_choices chunks) in *.
  unfold translate_openai_chat_to_messages at 1. eapply accepted_then.
  - apply (choices_accepted fin (choices_of v) (all_choices chunks)); [destruct Ha; by constructor|].
    destruct Hr as (O & Hp & Hw). exists O. split; [|done]. by destruct fin.
  - intros s' t' Ha' Hr'. rewrite existsb_app, orb_assoc. by apply IH.
Qed.
End protocol.

(** C34. What a client of the messages endpoint gets is in the order of a message, for
    every stream of a chat-completions provider that names a call before its arguments
    and carries nothing after a reason to finish: one start, before everything else;
    every tool block started once, with its arguments between its start and its stop,
    and stopped before the message ends; one stop reason, followed at once by the one
    end, and nothing after it; and the message ends exactly when the provider gave a
    reason to finish, with every tool block stopped.  Text is sent as deltas of block 0,
    which is never started ([text_delta_without_block]). *)
Theorem message_events_well_formed `{SerdeJson} (as_u64 : Number → option Z) (num : Z → Number)
    (request_id : string) (chunks : list (Value Number))
    (Hnum : ∀ z, u64_ok z → as_u64 (num z) = Some z) (Hrange : ∀ n z, as_u64 n = Some z → u64_ok z)
    (Hstream : well_streamed as_u64 ∅ false (all_choices chunks) = true) :
  let '(t, events) := chunk_events as_u64 num (translator_new "/v1/messages" OpenAI request_id) chunks in
  ∃ seen, accept_all as_u64 nothing_seen events = Some seen ∧ begun seen = message_started t
    ∧ ended seen = existsb finishes (all_choices chunks) ∧ reasoned seen = ended seen ∧ tr_finished t = ended seen
    ∧ closed seen = if ended seen then opened seen else ∅.
Proof.
  pose proof (chunks_accepted as_u64 num Hnum Hrange false nothing_seen (translator_new "/v1/messages" OpenAI request_id)
    chunks) as Hacc.
  destruct (chunk_events _ _ _ _) as [t events]. destruct Hacc as (seen&He&Ha&(O&Hp&_)).
  - constructor; cbn; [done|set_solver|set_solver|done|done|constructor|constructor].
  - exists ∅. done.
  - exists seen. split; [done|]. split; [apply Ha|]. cbn [orb] in Hp. unfold phase_ok in Hp.
    destruct (existsb finishes (all_choices chunks)).
    + destruct Hp as (Hr & He' & Hf & _ & Hc). cbn [fst] in Hf. rewrite Hr, He', Hf. done.
    + destruct Hp as (Hr & He' & Hf & Hc & _). cbn [fst] in Hf. rewrite Hr, He', Hf. done.
Qed.

(** A number type of unsigned machine words. *)
Definition demo_parse_u64 (z : Z) : option Z := if bool_decide (0 ≤ z ≤ u64_max)%Z then Some z else None.
Lemma demo_parse_ok z : u64_ok z → demo_parse_u64 z = Some z.
Proof. intros Hz. unfold demo_parse_u64. by rewrite bool_decide_true. Qed.
Lemma demo_parse_range (n z : Z) : demo_parse_u64 n = Some z → u64_ok z.
Proof. unfold demo_parse_u64. case_bool_decide; [by intros [= <-]|done]. Qed.

(** A text, then a call in two pieces, the reason, and a chunk that carries nothing. *)
Definition demo_chunks : list (Value Z) :=
  [Obj ["choices" ↦ Arr [Obj ["delta" ↦ Obj ["content" ↦ Str "hi"]]]];
   Obj ["choices" ↦ Arr [Obj ["delta" ↦ Obj ["tool_calls" ↦ Arr [Obj ["function" ↦ Obj ["name" ↦ Str "f"]; "id" ↦ Str "c";
     "index" ↦ Num 1%Z]]]]]];
   Obj ["choices" ↦ Arr [Obj ["delta" ↦ Obj ["tool_calls" ↦ Arr [Obj ["function" ↦ Obj ["arguments" ↦ Str "{}"];
     "index" ↦ Num 1%Z]]]; "finish_reason" ↦ Str "tool_calls"]]];
   Obj ["choices" ↦ Arr []]].
Lemma message_events_well_formed_witness :
  let '(t, events) := chunk_events (H := JsonModel.json) demo_parse_u64 id (translator_new "/v1/messages" OpenAI "r") demo_chunks in
  ∃ seen, accept_all (H := JsonModel.json) demo_parse_u64 nothing_seen events = Some seen ∧ ended seen = true.
Proof.
  pose proof (message_events_well_formed (H := JsonModel.json) demo_parse_u64 id "r" demo_chunks
    demo_parse_ok demo_parse_range ltac:(vm_compute; reflexivity)) as Hw.
  destruct (chunk_events _ _ _ _) as [t events] eqn:E. destruct Hw as (seen&Ha&_&He&_). exists seen.
  split; [exact Ha|]. rewrite He. vm_compute. reflexivity.
Defined.

(** A choice that comes after one with a reason to finish (a request for two answers)
    is streamed after the end of the message: its text follows [message_stop], and its
    own reason is dropped. *)
Theorem choice_after_message_stop `{SerdeJson} (as_u64 : Number → option Z) (num : Z → Number)
    (request_id text : string) (Htext : text ≠ EmptyString) :
  let chunk := Obj ["choices" ↦ Arr [Obj ["delta" ↦ Obj []; "finish_reason" ↦ Str "stop"];
                                     Obj ["delta" ↦ Obj ["content" ↦ Str text]; "finish_reason" ↦ Str "length"]]] in
  (chunk_events as_u64 num (translator_new "/v1/messages" OpenAI request_id) [chunk]).2
  = [message_start_event "msg_verdictan"; message_delta_event "end_turn"; message_stop_event;
     block_delta_event num 0 (text_delta_value text)].
Proof. intros chunk. destruct text as [|a text]; [done|]. reflexivity. Qed.
Lemma choice_after_message_stop_witness :
  (chunk_events (H := JsonModel.json) demo_parse_u64 id (translator_new "/v1/messages" OpenAI "r")
     [Obj ["choices" ↦ Arr [Obj ["delta" ↦ Obj []; "finish_reason" ↦ Str "stop"];
        Obj ["delta" ↦ Obj ["content" ↦ Str "hi"]; "finish_reason" ↦ Str "length"]]]]).2
  = [message_start_event (H := JsonModel.json) "msg_verdictan"; message_delta_event (H := JsonModel.json) "end_turn";
     message_stop_event (H := JsonModel.json);
     block_delta_event (H := JsonModel.json) id 0 (text_delta_value (H := JsonModel.json) "hi")].
Proof. apply (choice_after_message_stop (H := JsonModel.json) demo_parse_u64 id "r" "hi"). discriminate. Defined.

(** Text is streamed to a client of the messages endpoint in a block that was
    never started, and whose index a tool block takes as well: for a chunk with a
    text and a tool call, the text goes to block 0, and block 0 is then started as
    the tool use.  The messages that the gateway writes itself start their text
    block. *)
Theorem text_delta_without_block `{SerdeJson} (as_u64 : Number → option Z) (num : Z → Number)
    (request_id text id name : string) (Htext : text ≠ EmptyString) (Hzero : as_u64 (num 0%Z) = Some 0%Z) :
  let call := Obj ["function" ↦ Obj ["name" ↦ Str name]; "id" ↦ Str id; "index" ↦ Num (num 0%Z)] in
  let chunk := Obj ["choices" ↦ Arr [Obj ["delta" ↦ Obj ["content" ↦ Str text; "tool_calls" ↦ Arr [call]]]]] in
  (chunk_events as_u64 num (translator_new "/v1/messages" OpenAI request_id) [chunk]).2
  = [message_start_event "msg_verdictan"; block_delta_event num 0 (text_delta_value text);
     tool_start_event num 0 id name]
  ∧ message_payloads num request_id text "end_turn"
    = print (obj_messages_start num) :: print (obj_messages_delta num request_id text)
      :: [print (obj_messages_stop num); print (obj_message_delta "end_turn"); message_stop_text].
Proof.
  intros call chunk. destruct text as [|a text]; [done|]. split; [|reflexivity].
  transitivity [message_start_event "msg_verdictan"; block_delta_event num 0 (text_delta_value (String a text));
    tool_start_event num (default 0%Z (as_u64 (num 0%Z))) id name]; [reflexivity|]. by rewrite Hzero.
Qed.
Lemma text_delta_without_block_witness :
  (chunk_events (H := JsonModel.json) demo_parse_u64 id (translator_new "/v1/messages" OpenAI "r")
     [Obj ["choices" ↦ Arr [Obj ["delta" ↦ Obj ["content" ↦ Str "hi";
        "tool_calls" ↦ Arr [Obj ["function" ↦ Obj ["name" ↦ Str "f"]; "id" ↦ Str "c"; "index" ↦ Num 0%Z]]]]]]]).2
  = [message_start_event (H := JsonModel.json) "msg_verdictan";
     block_delta_event (H := JsonModel.json) id 0 (text_delta_value (H := JsonModel.json) "hi");
     tool_start_event (H := JsonModel.json) id 0 "c" "f"].
Proof.
  apply (proj1 (text_delta_without_block (H := JsonModel.json) demo_parse_u64 id "r" "hi" "c" "f"
    ltac:(discriminate) ltac:(reflexivity))).
Defined.

(** A call that a provider streams without an identifier gets two on the way to
    the Responses format: it is announced under an identifier made of the request
    and the index, while its arguments are sent under the empty identifier. *)
Theorem synthesised_call_id_lost `{SerdeJson} (as_u64 : Number → option Z) (num : Z → Number)
    (request_id response name arguments : string) (Hargs : arguments ≠ EmptyString) :
  let call := Obj ["function" ↦ Obj ["arguments" ↦ Str arguments; "name" ↦ Str name]] in
  (responses_tool as_u64 num response (translator_new "/v1/responses" OpenAI request_id) call).2
  = [item_event num response 0 ("call_" ++ request_id ++ "_0") name;
     arguments_event num response 0 EmptyString arguments].
Proof. intros call. destruct arguments as [|a arguments]; [done|]. reflexivity. Qed.
Lemma synthesised_call_id_lost_witness :
  (responses_tool (H := JsonModel.json) demo_parse_u64 id "resp" (translator_new "/v1/responses" OpenAI "r")
     (Obj ["function" ↦ Obj ["arguments" ↦ Str "{}"; "name" ↦ Str "f"]])).2
  = [item_event (H := JsonModel.json) id "resp" 0 "call_r_0" "f";
     arguments_event (H := JsonModel.json) id "resp" 0 EmptyString "{}"].
Proof.
  apply (synthesised_call_id_lost (H := JsonModel.json) demo_parse_u64 id "r" "resp" "f" "{}" ltac:(discriminate)).
Defined.

(** ** A parser for the concrete printer *)
Lemma pos_text_digits p : JsonModel.pos_text p = EmptyString ∨ ∃ a s, JsonModel.pos_text p = String a s ∧ (a = "0" ∨ a = "1")%char.
Proof. destruct p; cbn; eauto 10. Qed.
Definition demo_from_str (s : string) : option (Value Z) :=
  if String.eqb s "[DONE]" then None else JsonModel.dec <$> decode (JsonModel.text_pos s).
Lemma demo_parse_print v : demo_from_str (print (H := JsonModel.json) v) = Some v.
Proof.
  change (print v) with (JsonModel.text v). unfold demo_from_str, JsonModel.text.
  destruct (String.eqb_spec (JsonModel.pos_text (encode (JsonModel.enc v))) "[DONE]") as [E|_].
  - destruct (pos_text_digits (encode (JsonModel.enc v))) as [E'|(a&s&E'&[->| ->])]; by rewrite E' in E.
  - by rewrite JsonModel.text_pos_text, decode_encode, (fmap_Some_2 _ _ _ eq_refl), JsonModel.dec_enc.
Qed.
Definition demo_call : list BlockEvent := one_call 0 "c" "f" ["{}"%string].
Lemma demo_call_ok : well_formed [] demo_call.
Proof. vm_compute. repeat split; try discriminate. left. Qed.

Lemma responses_stream_calls_preserved_witness :
  finish (H := JsonModel.json) demo_from_str
    (assembled_calls (H := JsonModel.json) demo_from_str demo_parse_u64
       (translate_all (H := JsonModel.json) demo_from_str demo_parse_u64 id
          (translator_new "/v1/responses" Anthropic "r") (block_stream (H := JsonModel.json) id demo_call)).2)
  = finish (H := JsonModel.json) demo_from_str
      (assembled_calls (H := JsonModel.json) demo_from_str demo_parse_u64
         (snd <$> block_stream (H := JsonModel.json) id demo_call)).
Proof.
  exact (responses_stream_calls_preserved (H := JsonModel.json) demo_from_str demo_parse_u64 id "r" demo_call
    demo_parse_print eq_refl demo_parse_ok demo_call_ok).
Defined.
Lemma chat_stream_repeats_tool_name_witness :
  (assembled_calls (H := JsonModel.json) demo_from_str demo_parse_u64
     (translate_all (H := JsonModel.json) demo_from_str demo_parse_u64 id
        (translator_new "/v1/chat/completions" Anthropic "r") (block_stream (H := JsonModel.json) id demo_call)).2).*2
  = [mkPartial "ff" "{}" true].
Proof.
  refine (proj2 (chat_stream_repeats_tool_name (H := JsonModel.json) demo_from_str demo_parse_u64 id "r" "c" "f" 0
    ["{}"%string] demo_parse_print eq_refl demo_parse_ok _ _)).
  - width_lia.
  - apply Forall_singleton. discriminate.
Defined.


