(* ===== verification/RequestText.v ===== *)
(** * RequestText: the texts of a request body

    (src/src/gateway/content_extraction.rs, the request payloads, and
    src/src/gateway/token_estimation.rs.)

    Every policy reads a request through these functions: the text segments of a
    body with the JSON pointers where they are, the messages with a role, the
    rewriting of the segments in place (redaction), and the estimate of the prompt
    tokens.  [Value::pointer_mut] of serde_json is modelled with its parser of
    pointers; the length of a text is that of its UTF-8 bytes. *)

From Stdlib Require Import ZArith Ascii String.
From stdpp Require Import base gmap strings list.
From S2P Require Import Prelude Text Lww EventWal EventWalDisk Policy Detection Redaction.

#[local] Arguments String.append : simpl nomatch.

Inductive RequestPayloadFamily :=
| Chat | Responses | Embeddings | AudioTranscriptions | AudioSpeech | Completions | Moderations | Messages.

Record ExtractedRequestMessage := mkMessage { msg_role : string; msg_content : string }.
Record RequestTextSegment := mkSegment { pointer : string; role : string; text : string }.

Definition request_payload_family_for_path (path : string) : option RequestPayloadFamily :=
  if String.eqb path "/v1/chat/completions" then Some Chat
  else if String.eqb path "/v1/responses" then Some Responses
  else if String.eqb path "/v1/embeddings" then Some Embeddings
  else if String.eqb path "/v1/audio/transcriptions" then Some AudioTranscriptions
  else if String.eqb path "/v1/audio/speech" then Some AudioSpeech
  else if String.eqb path "/v1/completions" then Some Completions
  else if String.eqb path "/v1/moderations" then Some Moderations
  else if String.eqb path "/v1/messages" then Some Messages
  else None.

(** [usize::to_string]. *)
Definition index_to_string (i : nat) : string := pad 0 (Z.of_nat i).

Definition join_pointer (base token : string) : string :=
  if is_empty base then (String "/" token)%string else (base +:+ String "/" token)%string.

(** [push_text_segment], as what it appends. *)
Definition push_text_segment (pointer role text : string) : list RequestTextSegment :=
  if all_whitespace text then [] else [mkSegment pointer role text].

Section bodies.
Context {Number : Type}.
Abbreviation value := (Value Number).

(** What [f] gives for the first entry with a key, and for the items of an array
    in order. *)
Definition on_key {A} (key : string) (f : value → list A) : list (string * value) → list A :=
  fix go kvs :=
    match kvs with
    | [] => []
    | kv :: kvs => if bool_decide (kv.1 = key) then f kv.2 else go kvs
    end.
Definition each_item {A} (f : nat → value → list A) : nat → list value → list A :=
  fix go i items :=
    match items with
    | [] => []
    | item :: items => f i item ++ go (S i) items
    end.

(** [collect_selected_string_fields]. *)
Fixpoint collect_selected_string_fields (base_pointer role : string) (v : value) {struct v} :
    list RequestTextSegment :=
  match v with
  | Str text => push_text_segment base_pointer role text
  | Arr items =>
      each_item (λ index item, collect_selected_string_fields
        (join_pointer base_pointer (index_to_string index)) role item) 0 items
  | Obj object =>
      on_key "text" (λ x, match x with
                          | Str text => push_text_segment (join_pointer base_pointer "text") role text
                          | _ => []
                          end) object
      ++ on_key "content" (λ x, collect_selected_string_fields (join_pointer base_pointer "content") role x) object
      ++ on_key "input" (λ x, collect_selected_string_fields (join_pointer base_pointer "input") role x) object
      ++ on_key "arguments" (λ x, collect_selected_string_fields (join_pointer base_pointer "arguments") role x) object
  | _ => []
  end.

Definition get_str (v : value) (key : string) : option string := json_get v key ≫= json_as_str.
Definition get_array (v : value) (key : string) : option (list value) := json_get v key ≫= json_as_array.

(** [collect_messages_segments]. *)
Definition message_segments (require_explicit_role : bool) (index : nat) (message : value) :
    list RequestTextSegment :=
  let role :=
    match get_str message "role" with
    | Some role => Some role
    | None => if require_explicit_role then None else Some "user"%string
    end in
  match role, json_get message "content" with
  | Some role, Some content =>
      collect_selected_string_fields
        ("/messages/" +:+ index_to_string index +:+ "/content")%string role content
  | _, _ => []
  end.
Definition collect_messages_segments (body : value) (include_top_level_system require_explicit_role : bool) :
    list RequestTextSegment :=
  (if include_top_level_system
   then match get_str body "system" with Some system => push_text_segment "/system" "system" system | None => [] end
   else [])
  ++ match get_array body "messages" with
     | Some messages => each_item (message_segments require_explicit_role) 0 messages
     | None => []
     end.

Definition field_segments (body : value) (key pointer role : string) : list RequestTextSegment :=
  match json_get body key with Some v => collect_selected_string_fields pointer role v | None => [] end.

(** [collect_request_text_segments_for_path]. *)
Definition collect_for_family (family : RequestPayloadFamily) (body : value) : list RequestTextSegment :=
  match family with
  | Chat => collect_messages_segments body false true
  | Messages => collect_messages_segments body true true
  | Responses =>
      match collect_messages_segments body true true with
      | [] => field_segments body "instructions" "/instructions" "system"
              ++ field_segments body "input" "/input" "user"
      | segments => segments
      end
  | Embeddings | Moderations | AudioSpeech => field_segments body "input" "/input" "user"
  | AudioTranscriptions | Completions => field_segments body "prompt" "/prompt" "user"
  end.
Definition collect_request_text_segments_for_path (path : string) (body : value) : list RequestTextSegment :=
  match request_payload_family_for_path path with
  | Some family => collect_for_family family body
  | None => []
  end.

(** ** Messages *)

Definition newline : string := String "010"%char EmptyString.
Definition join_segment_texts (segments : list RequestTextSegment) : option string :=
  match segments with
  | [] => None
  | _ =>
      let joined := String.concat newline (text <$> segments) in
      if all_whitespace joined then None else Some joined
  end.
Definition segments_message (role : string) (segments : list RequestTextSegment) : list ExtractedRequestMessage :=
  match join_segment_texts segments with Some content => [mkMessage role content] | None => [] end.
Definition text_message (role : string) (text : option string) : list ExtractedRequestMessage :=
  match text with
  | Some text => if all_whitespace text then [] else [mkMessage role text]
  | None => []
  end.

Definition request_message (index : nat) (message : value) : list ExtractedRequestMessage :=
  match get_str message "role", json_get message "content" with
  | Some role, Some content =>
      segments_message role (collect_selected_string_fields
        ("/messages/" +:+ index_to_string index +:+ "/content")%string role content)
  | _, _ => []
  end.
(** [extract_request_messages]. *)
Definition extract_request_messages (body : value) : list ExtractedRequestMessage :=
  text_message "system" (get_str body "system")
  ++ match get_array body "messages" with
     | Some messages => each_item request_message 0 messages
     | None => []
     end.

Definition role_or_user (v : value) : string := default "user"%string (get_str v "role").
(** [extract_responses_messages]. *)
Definition extract_responses_messages (body : value) : list ExtractedRequestMessage :=
  match extract_request_messages body with
  | [] =>
      text_message "system" (get_str body "instructions")
      ++ match json_get body "input" with
         | Some (Str text) => text_message "user" (Some text)
         | Some (Arr items) =>
             each_item (λ index item, segments_message (role_or_user item)
               (collect_selected_string_fields ("/input/" +:+ index_to_string index)%string (role_or_user item) item))
               0 items
         | Some (Obj _ as input) =>
             segments_message (role_or_user input)
               (collect_selected_string_fields "/input" (role_or_user input) input)
         | _ => []
         end
  | messages => messages
  end.

(** ** Rewriting in place *)

(** The parser of pointers of serde_json: the tokens after each slash, with [~1]
    and then [~0] unescaped, and an array index without sign or leading zero. *)
Fixpoint replace_escape (digit to : ascii) (s : string) : string :=
  match s with
  | EmptyString => EmptyString
  | String a s1 =>
      match s1 with
      | String b s2 =>
          if Ascii.eqb a "~"%char && Ascii.eqb b digit then String to (replace_escape digit to s2)
          else String a (replace_escape digit to s1)
      | EmptyString => s
      end
  end.
Definition unescape (token : string) : string := replace_escape "0" "~" (replace_escape "1" "/" token).
Definition parse_index (token : string) : option nat :=
  if starts_with "+" token || starts_with "0" token && negb (String.length token =? 1) then None
  else Z.to_nat <$> parse_u64 token.
Definition pointer_tokens (p : string) : option (list string) :=
  if is_empty p then Some []
  else if starts_with "/" p then Some (unescape <$> tail (split_char "/" p)) else None.

(** The child at a token, and the value with that child replaced. *)
Definition get_token (v : value) (token : string) : option value :=
  match v with
  | Obj _ => json_get v token
  | Arr items => parse_index token ≫= λ i, items !! i
  | _ => None
  end.
Fixpoint set_first (key : string) (w : value) (kvs : list (string * value)) : list (string * value) :=
  match kvs with
  | [] => []
  | kv :: kvs => if bool_decide (kv.1 = key) then (kv.1, w) :: kvs else kv :: set_first key w kvs
  end.
Definition set_token (v : value) (token : string) (w : value) : value :=
  match v with
  | Obj kvs => Obj (set_first token w kvs)
  | Arr items => match parse_index token with Some i => Arr (<[i := w]> items) | None => v end
  | _ => v
  end.
Fixpoint get_at (v : value) (tokens : list string) : option value :=
  match tokens with
  | [] => Some v
  | token :: tokens => get_token v token ≫= λ w, get_at w tokens
  end.
Fixpoint set_at (v : value) (tokens : list string) (w : value) : value :=
  match tokens with
  | [] => w
  | token :: tokens =>
      match get_token v token with
      | Some child => set_token v token (set_at child tokens w)
      | None => v
      end
  end.
(** [Value::pointer]. *)
Definition value_pointer (v : value) (p : string) : option value := pointer_tokens p ≫= get_at v.

(** [rewrite_request_text_segments_for_path], with the closure [rewrite] and the
    state it captures: the body, whether anything was applied, and that state. *)
Section rewriting.
Context {S : Type} (rewrite : S → RequestTextSegment → S * option string).

Definition apply_replacement (body : value) (segment : RequestTextSegment) (replacement : option string) :
    option value :=
  match replacement with
  | None => None
  | Some replacement =>
      if String.eqb replacement (text segment) then None
      else match pointer_tokens (pointer segment) with
           | None => None
           | Some tokens =>
               match get_at body tokens with
               | Some (Str _) => Some (set_at body tokens (Str replacement))
               | _ => None
               end
           end
  end.
Fixpoint rewrite_segments (segments : list RequestTextSegment) (seen : list string) (body : value)
    (applied : bool) (st : S) : value * bool * S :=
  match segments with
  | [] => (body, applied, st)
  | segment :: segments =>
      if bool_decide (pointer segment ∈ seen) then rewrite_segments segments seen body applied st
      else
        let seen := pointer segment :: seen in
        let '(st, replacement) := rewrite st segment in
        match apply_replacement body segment replacement with
        | Some body => rewrite_segments segments seen body true st
        | None => rewrite_segments segments seen body applied st
        end
  end.
Definition rewrite_request_text_segments_for_path (path : string) (body : value) (st : S) : value * bool * S :=
  rewrite_segments (collect_request_text_segments_for_path path body) [] body false st.
End rewriting.

(** ** Token estimation (token_estimation.rs) *)

Definition str_len (s : string) : Z := Z.of_nat (String.length s).
Definition div_ceil4 (n : Z) : Z := ((n + 3) / 4)%Z.
Definition sum_of {A} (f : A → Z) (l : list A) : Z := foldr (λ x acc, f x + acc)%Z 0%Z l.
Definition estimate_text_tokens (text : string) : Z := div_ceil4 (str_len text).
Definition estimate_message_tokens (messages : list ExtractedRequestMessage) (message_count : Z) : Z :=
  (div_ceil4 (sum_of (λ m, str_len (msg_content m)) messages) + message_count * 4)%Z.
Definition is_number (v : value) : bool := match v with Num _ => true | _ => false end.
Definition estimate_field_tokens (field_name : string) (v : value) (path : string) : option Z :=
  match v with
  | Arr items =>
      if forallb is_number items then Some (Z.of_nat (length items) + 4)%Z
      else
        match collect_request_text_segments_for_path path (Obj [(field_name, v)]) with
        | [] => None
        | segments => Some (sum_of (λ s, estimate_text_tokens (text s) + 4)%Z segments)
        end
  | _ =>
      match collect_request_text_segments_for_path path (Obj [(field_name, v)]) with
      | [] => None
      | segments => Some (sum_of (λ s, estimate_text_tokens (text s) + 4)%Z segments)
      end
  end.

Definition chat_estimate (body : value) : option Z :=
  raw_messages ← get_array body "messages";
  Some (estimate_message_tokens (extract_request_messages body) (Z.of_nat (length raw_messages))).
Definition messages_estimate (body : value) : option Z :=
  let raw_message_count := match get_array body "messages" with Some l => Z.of_nat (length l) | None => 0%Z end in
  let system_count :=
    match get_str body "system" with Some s => if all_whitespace s then 0%Z else 1%Z | None => 0%Z end in
  if (raw_message_count =? 0)%Z && (system_count =? 0)%Z then None
  else Some (estimate_message_tokens (extract_request_messages body) (raw_message_count + system_count)).
Definition field_estimate (body : value) (key path : string) : option Z :=
  json_get body key ≫= λ v, estimate_field_tokens key v path.
Definition responses_estimate (body : value) : option Z :=
  match json_get body "messages" with
  | Some _ => chat_estimate body
  | None =>
      match extract_responses_messages body with
      | [] => field_estimate body "input" "/v1/responses"
      | messages => Some (estimate_message_tokens messages (Z.of_nat (length messages)))
      end
  end.

(** [estimate_prompt_tokens_for_path]. *)
Definition estimate_prompt_tokens_for_path (path : string) (body : value) : option Z :=
  match request_payload_family_for_path path with
  | Some Chat => chat_estimate body
  | Some Messages => messages_estimate body
  | Some Responses => responses_estimate body
  | Some Embeddings => field_estimate body "input" path
  | Some Moderations => field_estimate body "input" path
  | Some AudioSpeech => field_estimate body "input" path
  | Some AudioTranscriptions => field_estimate body "prompt" path
  | Some Completions => field_estimate body "prompt" path
  | None => None
  end.

Definition has (body : value) (key : string) : bool := bool_decide (is_Some (json_get body key)).
Definition or_else {A} (a b : option A) : option A := match a with Some _ => a | None => b end.
(** [estimate_prompt_tokens]. *)
Definition estimate_prompt_tokens (body : value) : option Z :=
  if has body "messages" then
    estimate_prompt_tokens_for_path
      (if has body "system" then "/v1/messages" else "/v1/chat/completions") body
  else if has body "prompt" then
    estimate_prompt_tokens_for_path
      (if has body "input_audio" then "/v1/audio/transcriptions" else "/v1/completions") body
  else
    match json_get body "input" with
    | None => None
    | Some input =>
        if has body "instructions" then estimate_prompt_tokens_for_path "/v1/responses" body
        else if has body "voice" || has body "response_format" then
          estimate_prompt_tokens_for_path "/v1/audio/speech" body
        else or_else (estimate_field_tokens "input" input "/v1/embeddings")
               (or_else (estimate_field_tokens "input" input "/v1/moderations")
                  (estimate_field_tokens "input" input "/v1/responses"))
    end.

(** ** Where the segments are

    A path is a list of keys and indices; a segment's pointer renders one. *)

Inductive step := Key (k : string) | Idx (i : nat).
#[export] Instance step_eq_dec : EqDecision step.
Proof. solve_decision. Defined.
Definition token_of (s : step) : string := match s with Key k => k | Idx i => index_to_string i end.
Definition at_step (v : value) (s : step) : option value :=
  match v, s with
  | Obj _, Key k => json_get v k
  | Arr items, Idx i => items !! i
  | _, _ => None
  end.
Fixpoint at_steps (v : value) (p : list step) : option value :=
  match p with [] => Some v | s :: p => at_step v s ≫= λ w, at_steps w p end.
Definition render (base : string) (p : list step) : string :=
  fold_left (λ b s, join_pointer b (token_of s)) p base.

(** The selected texts of a value with their paths. *)
Definition extend (s : step) (l : list (list step * string)) : list (list step * string) :=
  (λ x, (s :: x.1, x.2)) <$> l.
Definition text_leaf (v : value) : list (list step * string) :=
  match v with Str t => if all_whitespace t then [] else [([], t)] | _ => [] end.
Fixpoint leaves (v : value) : list (list step * string) :=
  match v with
  | Str t => if all_whitespace t then [] else [([], t)]
  | Arr items => each_item (λ i x, extend (Idx i) (leaves x)) 0 items
  | Obj kvs =>
      on_key "text" (λ x, extend (Key "text") (text_leaf x)) kvs
      ++ on_key "content" (λ x, extend (Key "content") (leaves x)) kvs
      ++ on_key "input" (λ x, extend (Key "input") (leaves x)) kvs
      ++ on_key "arguments" (λ x, extend (Key "arguments") (leaves x)) kvs
  | _ => []
  end.
Definition segment_at (base role : string) (x : list step * string) : RequestTextSegment :=
  mkSegment (render base x.1) role x.2.

Lemma on_key_get {A} key (f : value → list A) kvs :
  on_key key f kvs = match json_get (Obj kvs) key with Some v => f v | None => [] end.
Proof.
  induction kvs as [|kv kvs IH]; simpl; [done|]. rewrite IH. simpl. by destruct (bool_decide _).
Qed.
Lemma elem_of_each_item {A} (f : nat → value → list A) i items y :
  y ∈ each_item f i items ↔ ∃ j x, items !! j = Some x ∧ y ∈ f (i + j) x.
Proof.
  revert i. induction items as [|x items IH]; intros i; simpl; [set_solver|].
  rewrite elem_of_app, IH. split.
  - intros [Hy|(j & z & Hj & Hy)]; [exists 0, x; by rewrite Nat.add_0_r|].
    exists (S j), z. by rewrite Nat.add_succ_r.
  - intros ([|j] & z & Hj & Hy); simplify_eq/=; [left; by rewrite Nat.add_0_r in Hy|].
    right. exists j, z. by rewrite Nat.add_succ_r in Hy.
Qed.
Lemma fmap_each_item {A B} (g : A → B) (f : nat → value → list A) i items :
  g <$> each_item f i items = each_item (λ j x, g <$> f j x) i items.
Proof. revert i. induction items as [|x items IH]; intros i; simpl; [done|]. by rewrite fmap_app, IH. Qed.
Lemma each_item_ext {A} (f g : nat → value → list A) i items :
  Forall (λ x, ∀ j, f j x = g j x) items → each_item f i items = each_item g i items.
Proof.
  intros Hfg. revert i. induction Hfg as [|x items Hx _ IH]; intros i; simpl; [done|]. by rewrite Hx, IH.
Qed.

(** Induction over the values below a value. *)
Lemma value_ind_nested (P : value → Prop) :
  P Null → (∀ b, P (Bool b)) → (∀ n, P (Num n)) → (∀ t, P (Str t)) →
  (∀ vs, Forall P vs → P (Arr vs)) → (∀ kvs, Forall (λ kv, P kv.2) kvs → P (Obj kvs)) → ∀ v, P v.
Proof.
  intros H1 H2 H3 H4 H5 H6. fix IH 1. intros [|b|n|t|vs|kvs]; [exact H1|apply H2|apply H3|apply H4| |].
  - apply H5. induction vs as [|v vs IHv]; constructor; [apply IH|apply IHv].
  - apply H6. induction kvs as [|[k v] kvs IHk]; constructor; [apply IH|apply IHk].
Qed.
Lemma json_get_Forall (P : value → Prop) kvs key v :
  Forall (λ kv, P kv.2) kvs → json_get (Obj kvs) key = Some v → P v.
Proof.
  induction 1 as [|kv kvs Hkv _ IH]; simpl; [done|]. destruct (bool_decide _); simpl; [by intros [= <-]|exact IH].
Qed.

Lemma segment_extend base role s l :
  segment_at base role <$> extend s l = segment_at (join_pointer base (token_of s)) role <$> l.
Proof. unfold extend. rewrite <- list_fmap_compose. done. Qed.

Lemma collect_leaves base role v :
  collect_selected_string_fields base role v = segment_at base role <$> leaves v.
Proof.
  revert base. induction v as [| | |t|vs IH|kvs IH] using value_ind_nested; intros base; try done.
  - cbn. unfold push_text_segment. by destruct (all_whitespace t).
  - cbn [collect_selected_string_fields leaves]. rewrite fmap_each_item. apply each_item_ext.
    eapply Forall_impl; [exact IH|]. intros x Hx j. by rewrite segment_extend, Hx.
  - cbn [collect_selected_string_fields leaves]. rewrite !fmap_app, !on_key_get.
    assert (Hkey : ∀ k : string, match json_get (Obj kvs) k with
        | Some x => collect_selected_string_fields (join_pointer base k) role x | None => [] end
      = segment_at base role <$> match json_get (Obj kvs) k with Some x => extend (Key k) (leaves x) | None => [] end).
    { intros k. destruct (json_get (Obj kvs) k) as [x|] eqn:Hx; [|done].
      rewrite segment_extend. apply (json_get_Forall (λ v, ∀ base, collect_selected_string_fields base role v
        = segment_at base role <$> leaves v) _ _ _ IH Hx). }
    rewrite !Hkey. f_equal. destruct (json_get (Obj kvs) "text") as [x|]; [|done].
    destruct x as [| | |t| |]; try done. cbn. unfold push_text_segment. by destruct (all_whitespace t).
Qed.

Lemma elem_of_extend s l p t : (p, t) ∈ extend s l ↔ ∃ q, p = s :: q ∧ (q, t) ∈ l.
Proof.
  unfold extend. rewrite list_elem_of_fmap. split.
  - intros ([q u] & Heq & Hin). simplify_eq/=. eauto.
  - intros (q & -> & Hin). by exists (q, t).
Qed.

(** Keys of selected fields hold no slash, tilde or leading digit. *)
Definition plain_byte (a : ascii) : bool := negb (Ascii.eqb a "/") && negb (Ascii.eqb a "~").
Fixpoint plain (s : string) : bool :=
  match s with EmptyString => true | String a s => plain_byte a && plain s end.
Definition step_ok (s : step) : Prop :=
  match s with Key k => plain k = true ∧ starts_with_digit k = false | Idx i => (Z.of_nat i ≤ u64_max)%Z end.

Lemma elem_of_on_key key f kvs (x : list step * string) :
  x ∈ on_key key f kvs ↔ ∃ v, json_get (Obj kvs) key = Some v ∧ x ∈ f v.
Proof. rewrite on_key_get. destruct (json_get (Obj kvs) key) as [v|]; set_solver. Qed.

Definition keys_plain (p : list step) : Prop :=
  Forall (λ s, match s with Key k => plain k = true ∧ starts_with_digit k = false | Idx _ => True end) p.

Lemma text_leaf_at v p t : (p, t) ∈ text_leaf v → p = [] ∧ v = Str t ∧ all_whitespace t = false.
Proof.
  destruct v; simpl; try set_solver. destruct (all_whitespace text0) eqn:E; [set_solver|].
  intros [= -> ->]%list_elem_of_singleton. done.
Qed.
Lemma leaves_at v p t :
  (p, t) ∈ leaves v → at_steps v p = Some (Str t) ∧ keys_plain p ∧ all_whitespace t = false.
Proof.
  revert p. induction v as [| | |u|vs IH|kvs IH] using value_ind_nested; intros p; cbn [leaves]; try set_solver.
  - intros (-> & [= ->] & Hb)%(text_leaf_at (Str u)). split_and!; [done|constructor|done].
  - intros (j & x & Hj & (q & -> & Hq)%elem_of_extend)%elem_of_each_item. rewrite Forall_lookup in IH.
    destruct (IH _ _ Hj _ Hq) as (Hat & Hk & Hb). cbn. rewrite Hj. split_and!; [done| |done]. by constructor.
  - rewrite !elem_of_app, !elem_of_on_key.
    assert (Hkey : ∀ k : string, plain k = true → starts_with_digit k = false →
      (∃ v, json_get (Obj kvs) k = Some v ∧ (p, t) ∈ extend (Key k) (leaves v)) →
      at_steps (Obj kvs) p = Some (Str t) ∧ keys_plain p ∧ all_whitespace t = false).
    { intros k Hp Hs (x & Hx & (q & -> & Hq)%elem_of_extend).
      destruct (json_get_Forall (λ v, ∀ p, (p, t) ∈ leaves v →
        at_steps v p = Some (Str t) ∧ keys_plain p ∧ all_whitespace t = false) kvs k x IH Hx q Hq) as (Hat & Hk & Hb).
      cbn [at_steps at_step]. rewrite Hx. split_and!; [done| |done]. by constructor. }
    intros [(x & Hx & (q & -> & Hq)%elem_of_extend)|[H|[H|H]]]; [|by eapply (λ a b, Hkey _ a b H)..].
    apply text_leaf_at in Hq as (-> & -> & Hb). cbn [at_steps at_step]. rewrite Hx.
    split_and!; [done| |done]. repeat constructor.
Qed.

(** Paths are not repeated. *)
Lemma extend_paths s l : (extend s l).*1 = (λ p, s :: p) <$> l.*1.
Proof. unfold extend. by rewrite <- !list_fmap_compose. Qed.
Lemma NoDup_extend s l : NoDup l.*1 → NoDup (extend s l).*1.
Proof. intros Hnd. rewrite extend_paths. apply NoDup_fmap_2; [intros p q [= ->]|]; done. Qed.
Lemma elem_of_paths (l : list (list step * string)) p : p ∈ l.*1 ↔ ∃ t, (p, t) ∈ l.
Proof.
  rewrite list_elem_of_fmap. split; [intros ([q t] & -> & Hin); by exists t|intros [t Hin]; by exists (p, t)].
Qed.
Lemma NoDup_paths_app (l k : list (list step * string)) :
  NoDup l.*1 → NoDup k.*1 → (∀ p t u, (p, t) ∈ l → (p, u) ∈ k → False) → NoDup (l ++ k).*1.
Proof.
  intros Hl Hk Hdisj. rewrite fmap_app. apply NoDup_app. split_and!; [done| |done].
  intros p [t Ht]%elem_of_paths [u Hu]%elem_of_paths. by eapply Hdisj.
Qed.
Lemma NoDup_each_item (f : nat → value → list (list step * string)) i items :
  (∀ j x, NoDup (f j x).*1) → (∀ j x p t, (p, t) ∈ f j x → ∃ q, p = Idx j :: q) →
  NoDup (each_item f i items).*1.
Proof.
  intros Hnd Hhead. revert i. induction items as [|x items IH]; intros i; simpl; [constructor|].
  apply NoDup_paths_app; [apply Hnd|apply IH|].
  intros p t u (q & ->)%Hhead (j & y & _ & (q' & Heq)%Hhead)%elem_of_each_item. simplify_eq. lia.
Qed.
Lemma NoDup_on_key key g kvs :
  (∀ v : value, json_get (Obj kvs) key = Some v → NoDup (g v).*1) → NoDup (on_key key (λ v, extend (Key key) (g v)) kvs).*1.
Proof.
  rewrite on_key_get. destruct (json_get (Obj kvs) key) as [v|]; [|constructor].
  intros Hnd. apply NoDup_extend. by apply Hnd.
Qed.
Lemma on_key_head key g kvs p t : (p, t) ∈ on_key key (λ v : value, extend (Key key) (g v)) kvs → ∃ q, p = Key key :: q.
Proof. intros (v & _ & (q & -> & _)%elem_of_extend)%elem_of_on_key. eauto. Qed.
Lemma text_leaf_NoDup v : NoDup (text_leaf v).*1.
Proof. destruct v; simpl; try constructor. destruct (all_whitespace _); [constructor|apply NoDup_singleton]. Qed.

Lemma leaves_NoDup v : NoDup (leaves v).*1.
Proof.
  induction v as [| | |u|vs IH|kvs IH] using value_ind_nested; cbn [leaves]; try constructor.
  - apply (text_leaf_NoDup (Str u)).
  - assert (Hall : ∀ i, NoDup (each_item (λ i x, extend (Idx i) (leaves x)) i vs).*1); [|done].
    induction IH as [|x vs Hx _ IHvs]; intros i; simpl; [constructor|].
    apply NoDup_paths_app; [by apply NoDup_extend|apply IHvs|].
    intros p t w (q & -> & _)%elem_of_extend (j & y & _ & (q' & Heq & _)%elem_of_extend)%elem_of_each_item.
    simplify_eq. lia.
  - assert (Hk : ∀ k, NoDup (on_key k (λ x, extend (Key k) (leaves x)) kvs).*1).
    { intros k. apply NoDup_on_key. intros v Hv. apply (json_get_Forall (λ v, NoDup (leaves v).*1) _ _ _ IH Hv). }
    repeat apply NoDup_paths_app; try done; try (apply NoDup_on_key; intros; apply text_leaf_NoDup);
      intros p t w (q & ->)%on_key_head Hw; rewrite ?elem_of_app in Hw;
      destruct_or? Hw; by apply on_key_head in Hw as [? [=]].
Qed.

(** Indices are below the number of nodes. *)
Fixpoint value_nodes (v : value) : nat :=
  match v with
  | Arr vs => S (list_sum (map (λ x, S (value_nodes x)) vs))
  | Obj kvs => S (list_sum (map (λ kv, S (value_nodes kv.2)) kvs))
  | _ => 1
  end.
Lemma list_sum_elem {A} (f : A → nat) l i x : l !! i = Some x → i + f x ≤ list_sum (map (λ x, S (f x)) l).
Proof.
  revert i. induction l as [|y l IH]; intros [|i]; simpl; try done; [intros [= ->]; lia|].
  intros Hi. specialize (IH _ Hi). lia.
Qed.
Lemma at_step_nodes v s w : at_step v s = Some w →
  value_nodes w ≤ value_nodes v ∧ match s with Idx i => i < value_nodes v | Key _ => True end.
Proof.
  destruct v as [| | | |vs|kvs], s as [k|i]; simpl; try done.
  - intros Hi. pose proof (list_sum_elem value_nodes vs i w Hi). lia.
  - intros Hk. split; [|done]. destruct (List.find _ kvs) as [[k' w']|] eqn:Hf; simplify_eq/=.
    apply find_some in Hf as [Hin _]. apply list_elem_of_In, list_elem_of_lookup in Hin as [j Hj].
    pose proof (list_sum_elem (λ kv : string * value, value_nodes kv.2) kvs j _ Hj). simpl in *. lia.
Qed.
Lemma at_steps_ok v p w :
  at_steps v p = Some w → keys_plain p → (Z.of_nat (value_nodes v) ≤ u64_max)%Z → Forall step_ok p.
Proof.
  revert v. induction p as [|s p IH]; intros v Hat Hk Hn; [constructor|].
  simpl in Hat. destruct (at_step v s) as [x|] eqn:Hx; [|done]. simpl in Hat.
  apply at_step_nodes in Hx as [Hle Hi]. inversion Hk; subst. constructor.
  - destruct s; simpl in *; [done|lia].
  - eapply IH; [done|done|lia].
Qed.

(** ** Pointers are read back *)

Lemma digit_plain n : (0 ≤ n < 10)%Z → plain_byte (digit n) = true.
Proof.
  intros Hn. assert (Hin : (n = 0 ∨ n = 1 ∨ n = 2 ∨ n = 3 ∨ n = 4 ∨ n = 5 ∨ n = 6 ∨ n = 7 ∨ n = 8 ∨ n = 9)%Z) by lia.
  by repeat destruct Hin as [->|Hin]; [..|subst].
Qed.
Lemma digits_plain fuel n acc : plain acc = true → plain (digits fuel n acc) = true.
Proof.
  revert n acc. induction fuel as [|fuel IH]; intros n acc Hacc; [done|]. cbn [digits].
  assert (plain (String (digit (n mod 10)) acc) = true).
  { cbn [plain]. rewrite digit_plain by (apply Z.mod_pos_bound; lia). done. }
  destruct (_ =? 0)%Z; [done|]. by apply IH.
Qed.
Lemma index_plain i : plain (index_to_string i) = true.
Proof. by apply (digits_plain 20). Qed.
Lemma index_starts_digit i : starts_with_digit (index_to_string i) = true.
Proof. apply (digits_start 20). lia. Qed.

(** No leading zero but in [0]. *)
Lemma digits_no_zero fuel n acc :
  (0 < n < 10 ^ Z.of_nat fuel)%Z → starts_with "0" (digits fuel n acc) = false.
Proof.
  revert n acc. induction fuel as [|fuel IH]; intros n acc Hn; [simpl in Hn; lia|]. cbn [digits].
  pose proof (Z.div_mod n 10 ltac:(lia)). pose proof (Z.mod_pos_bound n 10 ltac:(lia)).
  destruct (Z.eqb_spec (n / 10) 0) as [E|E].
  - assert (Hd : (0 < n mod 10 < 10)%Z) by lia. revert Hd. generalize (n mod 10)%Z. intros d Hd.
    assert (Hin : (d = 1 ∨ d = 2 ∨ d = 3 ∨ d = 4 ∨ d = 5 ∨ d = 6 ∨ d = 7 ∨ d = 8 ∨ d = 9)%Z) by lia.
    by repeat destruct Hin as [->|Hin]; [..|subst].
  - apply IH. pose proof (Z.div_pos n 10 ltac:(lia) ltac:(lia)). split; [lia|].
    apply Z.div_lt_upper_bound; [lia|]. rewrite Nat2Z.inj_succ, Z.pow_succ_r in Hn by lia. lia.
Qed.
Lemma parse_index_string i : (Z.of_nat i ≤ u64_max)%Z → parse_index (index_to_string i) = Some i.
Proof.
  intros Hi. unfold parse_index, index_to_string. rewrite parse_u64_pad by (split; lia). simpl.
  rewrite Nat2Z.id. assert (starts_with "+" (pad 0 (Z.of_nat i)) = false) as ->.
  { pose proof (index_starts_digit i) as Hd. unfold index_to_string in Hd.
    destruct (pad 0 (Z.of_nat i)) as [|a s]; [done|]. simpl in *. destruct (Ascii.eqb_spec a "+"); [by subst|done]. }
  simpl. destruct (decide (i = 0)) as [->|Hz]; [done|].
  change (pad 0 (Z.of_nat i)) with (digits 20 (Z.of_nat i) EmptyString). rewrite digits_no_zero; [done|]. change (10 ^ Z.of_nat 20)%Z with 100000000000000000000%Z.
  assert (u64_max < 100000000000000000000)%Z by (unfold u64_max; lia). lia.
Qed.

Lemma replace_escape_plain d to s : plain s = true → replace_escape d to s = s.
Proof.
  induction s as [|a s IH]; [done|]. simpl. intros [Ha Hs]%andb_true_iff. destruct s as [|b s]; [done|].
  unfold plain_byte in Ha. apply andb_true_iff in Ha as [_ Ha]. apply negb_true_iff in Ha. rewrite Ha. simpl.
  f_equal. by apply IH.
Qed.
Lemma unescape_plain s : plain s = true → unescape s = s.
Proof. intros Hs. unfold unescape. rewrite (replace_escape_plain _ _ s) by done. by apply replace_escape_plain. Qed.

Lemma split_char_plain s rest :
  plain s = true → split_char "/" (s +:+ String "/" rest) = s :: split_char "/" rest.
Proof.
  induction s as [|a s IH]; [done|]. intros [Ha Hs]%andb_true_iff.
  change ((String a s) +:+ String "/" rest) with (String a (s +:+ String "/" rest)). cbn [split_char].
  unfold plain_byte in Ha. apply andb_true_iff in Ha as [Ha _]. apply negb_true_iff in Ha.
  by rewrite Ha, IH.
Qed.
Lemma split_char_last s : plain s = true → split_char "/" s = [s].
Proof.
  induction s as [|a s IH]; [done|]. intros [Ha Hs]%andb_true_iff. cbn [split_char].
  unfold plain_byte in Ha. apply andb_true_iff in Ha as [Ha _]. apply negb_true_iff in Ha. by rewrite Ha, IH.
Qed.

(** The text of a path. *)
Fixpoint path_text (p : list step) : string :=
  match p with [] => EmptyString | s :: p => String "/" (token_of s +:+ path_text p) end.
Lemma append_empty_r s : s +:+ EmptyString = s.
Proof. induction s as [|a s IH]; [done|]. simpl. by rewrite IH. Qed.
Lemma append_assoc a b c : (a +:+ b) +:+ c = a +:+ (b +:+ c).
Proof. induction a as [|x a IH]; [done|]. simpl. by rewrite IH. Qed.
Lemma render_text base p : render base p = base +:+ path_text p.
Proof.
  revert base. induction p as [|s p IH]; intros base; [by rewrite append_empty_r|].
  cbn [render fold_left]. fold (render (join_pointer base (token_of s)) p). rewrite IH.
  unfold join_pointer. destruct base as [|a base]; [done|]. cbn [is_empty].
  rewrite append_assoc. done.
Qed.
Lemma token_plain s : step_ok s → plain (token_of s) = true.
Proof. destruct s; simpl; [by intros []|intros _; apply index_plain]. Qed.
Lemma split_path_text s p : step_ok s → Forall step_ok p →
  split_char "/" (token_of s +:+ path_text p) = token_of s :: (token_of <$> p).
Proof.
  intros Hs Hp. revert s Hs. induction Hp as [|s' p Hs' _ IH]; intros s Hs.
  - cbn [path_text]. rewrite append_empty_r. apply split_char_last, token_plain, Hs.
  - cbn [path_text]. rewrite split_char_plain by (by apply token_plain). by rewrite IH.
Qed.
Lemma unescape_tokens p : Forall step_ok p → unescape <$> (token_of <$> p) = token_of <$> p.
Proof.
  induction 1 as [|s p Hs _ IH]; [done|]. cbn. rewrite unescape_plain by (by apply token_plain). f_equal. exact IH.
Qed.
Lemma pointer_tokens_render p : Forall step_ok p → pointer_tokens (render EmptyString p) = Some (token_of <$> p).
Proof.
  intros Hp. rewrite render_text. change (EmptyString +:+ path_text p) with (path_text p).
  destruct Hp as [|s p Hs Hp]; [done|]. unfold pointer_tokens. cbn [path_text is_empty starts_with Ascii.eqb].
  cbn [split_char]. rewrite split_path_text by done. cbn [tail]. f_equal. apply (unescape_tokens (s :: p)). by constructor.
Qed.
Lemma token_inj s s' : step_ok s → step_ok s' → token_of s = token_of s' → s = s'.
Proof.
  destruct s as [k|i], s' as [k'|j]; simpl.
  - by intros _ _ ->.
  - intros [_ Hk] _ ->. by rewrite index_starts_digit in Hk.
  - intros _ [_ Hk] <-. by rewrite index_starts_digit in Hk.
  - intros Hi Hj Heq. apply (f_equal parse_index) in Heq. rewrite !parse_index_string in Heq by done. by simplify_eq.
Qed.
Lemma render_inj p q : Forall step_ok p → Forall step_ok q → render EmptyString p = render EmptyString q → p = q.
Proof.
  intros Hp Hq Heq. apply (f_equal pointer_tokens) in Heq. rewrite !pointer_tokens_render in Heq by done.
  injection Heq as Heq. revert q Hq Heq. induction Hp as [|s p Hs _ IH]; intros [|s' q] Hq Heq; simplify_eq/=; [done|].
  inversion Hq; subst. f_equal; [by apply token_inj|]. by apply IH.
Qed.

(** ** Reading and writing at a path *)

Lemma at_steps_app v p q : at_steps v (p ++ q) = at_steps v p ≫= λ w, at_steps w q.
Proof. revert v. induction p as [|s p IH]; intros v; simpl; [done|]. by destruct (at_step v s); simpl. Qed.
Lemma at_step_token v s w : at_step v s = Some w → step_ok s → get_token v (token_of s) = Some w.
Proof.
  destruct v as [| | | |vs|kvs], s as [k|i]; simpl; try done. intros Hi Hok. by rewrite parse_index_string.
Qed.
Lemma at_steps_tokens v p w : at_steps v p = Some w → Forall step_ok p → get_at v (token_of <$> p) = Some w.
Proof.
  intros Hat Hp. revert v Hat. induction Hp as [|s p Hs _ IH]; intros v Hat; simpl in *; [done|].
  destruct (at_step v s) as [x|] eqn:Hx; [|done]. rewrite (at_step_token _ _ _ Hx Hs). simpl. by apply IH.
Qed.

Lemma get_set_first (k k' : string) (w : value) kvs : is_Some (json_get (Obj kvs) k) →
  json_get (Obj (set_first k w kvs)) k' = if decide (k = k') then Some w else json_get (Obj kvs) k'.
Proof.
  induction kvs as [|[j x] kvs IH]; [by intros []|]. cbn. intros Hk. destruct (bool_decide_reflect (j = k)) as [->|Hj]; cbn.
  - destruct (bool_decide_reflect (k = k')) as [->|Hne]; [by rewrite decide_True|by rewrite decide_False].
  - destruct (bool_decide_reflect (j = k')) as [->|Hne]; [by rewrite decide_False|]. by apply IH.
Qed.
Lemma at_set_token v s s' w w' x : at_step v s = Some w → step_ok s → at_step v s' = Some x →
  at_step (set_token v (token_of s) w') s' = if decide (s = s') then Some w' else Some x.
Proof.
  destruct v as [| | | |vs|kvs], s as [k|i], s' as [k'|j]; simpl; try done.
  - intros Hi Hok Hj. rewrite parse_index_string by done. simpl. destruct (decide (Idx i = Idx j)) as [Heq|Hne].
    + simplify_eq. apply list_lookup_insert_eq. by eapply lookup_lt_Some.
    + rewrite list_lookup_insert_ne by congruence. done.
  - intros Hk _ Hk'. change (json_get (Obj (set_first k w' kvs)) k' = if decide (Key k = Key k') then Some w' else Some x).
    rewrite get_set_first by (by exists w).
    destruct (decide (k = k')) as [->|Hne]; [by rewrite decide_True|]. rewrite decide_False by congruence. done.
Qed.
Lemma at_set_same v p w w' : at_steps v p = Some w → Forall step_ok p →
  at_steps (set_at v (token_of <$> p) w') p = Some w'.
Proof.
  intros Hat Hp. revert v Hat. induction Hp as [|s p Hs _ IH]; intros v Hat; simpl in *; [done|].
  destruct (at_step v s) as [x|] eqn:Hx; [|done]. rewrite (at_step_token _ _ _ Hx Hs). simpl.
  rewrite (at_set_token _ _ _ _ _ _ Hx Hs Hx), decide_True by done. simpl. by apply IH.
Qed.
Lemma at_set_other v p q t u w' : p ≠ q → at_steps v p = Some (Str t) → Forall step_ok p →
  at_steps v q = Some (Str u) → at_steps (set_at v (token_of <$> p) w') q = Some (Str u).
Proof.
  intros Hne Hat Hp. revert v q Hne Hat. induction Hp as [|s p Hs _ IH]; intros v q Hne Hat Hq.
  { injection Hat as ->. by destruct q as [|[] q]. }
  simpl in Hat. destruct (at_step v s) as [x|] eqn:Hx; [|done]. simpl in Hat. cbn [fmap list_fmap set_at].
  rewrite (at_step_token _ _ _ Hx Hs). destruct q as [|s' q]; [simpl in Hq; simplify_eq; by destruct s|].
  simpl in Hq. destruct (at_step v s') as [y|] eqn:Hy; [|done]. simpl in Hq. cbn [at_steps].
  rewrite (at_set_token _ _ _ _ _ _ Hx Hs Hy). destruct (decide (s = s')) as [->|Hss]; simpl; [|done].
  rewrite Hx in Hy. simplify_eq. apply IH; [congruence|done|done].
Qed.

(** ** The paths of the segments of a request *)

Definition located (pre : list step) (role : string) (l : list (list step * string)) :
    list (list step * (string * string)) := (λ x, (pre ++ x.1, (role, x.2))) <$> l.
Definition segment_of (x : list step * (string * string)) : RequestTextSegment :=
  mkSegment (render EmptyString x.1) x.2.1 x.2.2.
Definition field_paths (body : value) (key role : string) : list (list step * (string * string)) :=
  match json_get body key with Some v => located [Key key] role (leaves v) | None => [] end.
Definition message_paths (index : nat) (message : value) : list (list step * (string * string)) :=
  match get_str message "role", json_get message "content" with
  | Some role, Some content => located [Key "messages"; Idx index; Key "content"] role (leaves content)
  | _, _ => []
  end.
Definition system_paths (body : value) : list (list step * (string * string)) :=
  match json_get body "system" with Some v => located [Key "system"] "system" (text_leaf v) | None => [] end.
Definition messages_paths (body : value) : list (list step * (string * string)) :=
  match get_array body "messages" with Some messages => each_item message_paths 0 messages | None => [] end.
Definition family_paths (family : RequestPayloadFamily) (body : value) : list (list step * (string * string)) :=
  match family with
  | Chat => messages_paths body
  | Messages => system_paths body ++ messages_paths body
  | Responses =>
      match system_paths body ++ messages_paths body with
      | [] => field_paths body "instructions" "system" ++ field_paths body "input" "user"
      | l => l
      end
  | Embeddings | Moderations | AudioSpeech => field_paths body "input" "user"
  | AudioTranscriptions | Completions => field_paths body "prompt" "user"
  end.

Lemma render_app p q : render EmptyString (p ++ q) = render (render EmptyString p) q.
Proof. unfold render. by rewrite fold_left_app. Qed.
Lemma segments_located pre role l :
  segment_of <$> located pre role l = segment_at (render EmptyString pre) role <$> l.
Proof.
  unfold located. rewrite <- list_fmap_compose. apply list_fmap_ext. intros _ [q t] _.
  unfold segment_of, segment_at. simpl. f_equal. apply render_app.
Qed.
Lemma field_paths_segments body key role :
  segment_of <$> field_paths body key role = field_segments body key (String "/" key) role.
Proof.
  unfold field_paths, field_segments. destruct (json_get body key) as [v|]; [|done].
  by rewrite segments_located, collect_leaves.
Qed.
Lemma messages_paths_segments body :
  segment_of <$> messages_paths body = collect_messages_segments body false true.
Proof.
  unfold messages_paths, collect_messages_segments. cbn [app].
  destruct (get_array body "messages") as [l|]; [|done]. rewrite fmap_each_item. apply each_item_ext.
  apply Forall_forall. intros m _ i. unfold message_paths, message_segments.
  destruct (get_str m "role") as [r|]; [|done]. destruct (json_get m "content") as [c|]; [|done].
  rewrite segments_located, collect_leaves, render_text. cbn [path_text token_of]. by rewrite append_empty_r.
Qed.
Lemma system_paths_segments body :
  segment_of <$> (system_paths body ++ messages_paths body) = collect_messages_segments body true true.
Proof.
  rewrite fmap_app, messages_paths_segments. unfold collect_messages_segments at 2.
  unfold system_paths, get_str. f_equal. destruct (json_get body "system") as [v|]; [|done].
  rewrite segments_located. destruct v as [| | |t| |]; try done. cbn. unfold push_text_segment.
  by destruct (all_whitespace t).
Qed.
Lemma family_segments family body : collect_for_family family body = segment_of <$> family_paths family body.
Proof.
  destruct family; cbn [collect_for_family family_paths];
    rewrite ?field_paths_segments, ?messages_paths_segments, ?system_paths_segments; try done.
  rewrite <- system_paths_segments. destruct (system_paths body ++ messages_paths body) as [|x l]; [|done].
  cbn [fmap list_fmap]. by rewrite fmap_app, !field_paths_segments.
Qed.

(** Every path of a request leads to its text, and none is repeated. *)
Definition path_at (body : value) (x : list step * (string * string)) : Prop :=
  at_steps body x.1 = Some (Str x.2.2) ∧ keys_plain x.1 ∧ all_whitespace x.2.2 = false.

Lemma located_at body pre role v l :
  at_steps body pre = Some v → keys_plain pre →
  (∀ p t, (p, t) ∈ l → at_steps v p = Some (Str t) ∧ keys_plain p ∧ all_whitespace t = false) →
  Forall (path_at body) (located pre role l).
Proof.
  intros Hpre Hk Hl. apply Forall_fmap, Forall_forall. intros [p t] Hin. destruct (Hl p t Hin) as (Hat & Hp & Hb).
  split_and!; simpl; [|by apply Forall_app|done]. rewrite at_steps_app, Hpre. exact Hat.
Qed.
Lemma json_get_at (v : value) k w : json_get v k = Some w → at_steps v [Key k] = Some w.
Proof. destruct v; try done. cbn [at_steps at_step]. by intros ->. Qed.
Lemma field_paths_at body key role : plain key = true → starts_with_digit key = false →
  Forall (path_at body) (field_paths body key role).
Proof.
  intros Hp Hs. unfold field_paths. destruct (json_get body key) as [v|] eqn:Hv; [|constructor].
  apply (located_at _ _ _ v); [by apply json_get_at|by repeat constructor|apply leaves_at].
Qed.
Lemma messages_paths_at body : Forall (path_at body) (messages_paths body).
Proof.
  unfold messages_paths, get_array. destruct (json_get body "messages") as [v|] eqn:Hv; [|constructor]. simpl.
  destruct v as [| | | |vs|]; try constructor. apply Forall_forall. simpl.
  intros x (i & m & Hi & Hx)%elem_of_each_item. unfold message_paths in Hx.
  destruct (get_str m "role") as [r|]; [|set_solver]. destruct (json_get m "content") as [c|] eqn:Hc; [|set_solver].
  revert x Hx. apply Forall_forall. apply (located_at _ _ _ c); [|by repeat constructor|apply leaves_at].
  change [Key "messages"; Idx (0 + i); Key "content"] with ([Key "messages"] ++ [Idx (0 + i)] ++ [Key "content"]).
  rewrite at_steps_app, (json_get_at _ _ _ Hv). cbn [mbind option_bind app at_steps at_step].
  rewrite Nat.add_0_l, Hi. apply (json_get_at _ _ _ Hc).
Qed.
Lemma system_paths_at body : Forall (path_at body) (system_paths body).
Proof.
  unfold system_paths. destruct (json_get body "system") as [v|] eqn:Hv; [|constructor].
  apply (located_at _ _ _ v); [by apply json_get_at|by repeat constructor|].
  intros p t (-> & -> & Hb)%text_leaf_at. split_and!; [done|constructor|done].
Qed.
Lemma family_paths_at family body : Forall (path_at body) (family_paths family body).
Proof.
  assert (Hsm : Forall (path_at body) (system_paths body ++ messages_paths body))
    by (apply Forall_app; split; [apply system_paths_at|apply messages_paths_at]).
  destruct family; simpl; try apply messages_paths_at; try done; try by apply field_paths_at.
  destruct (system_paths body ++ messages_paths body); [|done]. apply Forall_app. split; by apply field_paths_at.
Qed.

Lemma located_paths pre role l : (located pre role l).*1 = (λ p, pre ++ p) <$> l.*1.
Proof. unfold located. by rewrite <- !list_fmap_compose. Qed.
Lemma NoDup_located pre role l : NoDup l.*1 → NoDup (located pre role l).*1.
Proof. intros Hl. rewrite located_paths. apply NoDup_fmap_2; [|done]. intros p q. apply app_inv_head. Qed.
Lemma located_head k pre role l p : p ∈ (located (k :: pre) role l).*1 → head p = Some k.
Proof. rewrite located_paths, list_elem_of_fmap. by intros (q & -> & _). Qed.
Lemma field_paths_NoDup body key role : NoDup (field_paths body key role).*1.
Proof. unfold field_paths. destruct (json_get body key); [apply NoDup_located, leaves_NoDup|constructor]. Qed.
Lemma message_paths_head i m p : p ∈ (message_paths i m).*1 → take 2 p = [Key "messages"; Idx i].
Proof.
  unfold message_paths. destruct (get_str m "role"); [|set_solver]. destruct (json_get m "content"); [|set_solver].
  rewrite located_paths, list_elem_of_fmap. by intros (q & -> & _).
Qed.
Lemma message_paths_NoDup i m : NoDup (message_paths i m).*1.
Proof.
  unfold message_paths. destruct (get_str m "role"); [|constructor]. destruct (json_get m "content"); [|constructor].
  apply NoDup_located, leaves_NoDup.
Qed.
Lemma items_paths_NoDup i ms : NoDup (each_item message_paths i ms).*1
  ∧ ∀ p, p ∈ (each_item message_paths i ms).*1 → ∃ j, i ≤ j ∧ take 2 p = [Key "messages"; Idx j].
Proof.
  revert i. induction ms as [|m ms IH]; intros i; cbn [each_item]; [split; [constructor|set_solver]|].
  destruct (IH (S i)) as [Hnd Hhead]. rewrite fmap_app. split.
  - apply NoDup_app. split_and!; [apply message_paths_NoDup| |done].
    intros p Hp%message_paths_head (j & Hj & Hp')%Hhead. rewrite Hp in Hp'. simplify_eq. lia.
  - intros p [Hp%message_paths_head|(j & Hj & Hp)%Hhead]%elem_of_app; [by exists i|].
    exists j. split; [lia|done].
Qed.
Lemma messages_paths_NoDup body : NoDup (system_paths body ++ messages_paths body).*1 ∧ NoDup (messages_paths body).*1.
Proof.
  assert (Hm : NoDup (messages_paths body).*1 ∧ ∀ p, p ∈ (messages_paths body).*1 → head p = Some (Key "messages")).
  { unfold messages_paths. destruct (get_array body "messages") as [ms|]; [|split; [constructor|set_solver]].
    destruct (items_paths_NoDup 0 ms) as [Hnd Hhead]. split; [done|]. intros p (j & _ & Hp)%Hhead. by destruct p; simplify_eq/=. }
  destruct Hm as [Hm Hhead]. split; [|done]. rewrite fmap_app. apply NoDup_app. unfold system_paths.
  destruct (json_get body "system") as [v|]; [|split_and!; [constructor|set_solver|done]].
  split_and!; [apply NoDup_located, text_leaf_NoDup| |done].
  intros p Hp%located_head Hp'%Hhead. congruence.
Qed.
Lemma family_paths_NoDup family body : NoDup (family_paths family body).*1.
Proof.
  destruct (messages_paths_NoDup body) as [Hsm Hm].
  destruct family; simpl; try done; try apply field_paths_NoDup.
  destruct (system_paths body ++ messages_paths body); [|done]. rewrite fmap_app. apply NoDup_app.
  split_and!; [apply field_paths_NoDup| |apply field_paths_NoDup]. intros p. unfold field_paths.
  destruct (json_get body "instructions"), (json_get body "input"); [|set_solver..].
  intros Hp%located_head Hp'%located_head. congruence.
Qed.

(** ** Rewriting reaches every segment *)
Section rewrites.
Context {S : Type} (rewrite : S → RequestTextSegment → S * option string).

(** What the closure answers for the segments in order. *)
Fixpoint answers (st : S) (segments : list RequestTextSegment) : list (option string) :=
  match segments with
  | [] => []
  | segment :: segments => (rewrite st segment).2 :: answers (rewrite st segment).1 segments
  end.

(** The value at a path after one segment. *)
Definition applied_body (body : value) (x : list step * (string * string)) (r : option string) : value :=
  default body (apply_replacement body (segment_of x) r).
Lemma applied_same body x r : path_at body x → Forall step_ok x.1 →
  at_steps (applied_body body x r) x.1 = Some (Str (default x.2.2 r)).
Proof.
  intros (Hat & _ & _) Hok. unfold applied_body, apply_replacement. destruct r as [r|]; [|done]. simpl.
  destruct (String.eqb_spec r x.2.2) as [->|_]; [done|].
  rewrite pointer_tokens_render, (at_steps_tokens _ _ _ Hat) by done. simpl. by apply (at_set_same _ _ _ _ Hat).
Qed.
Lemma applied_other body x r q u : path_at body x → Forall step_ok x.1 → x.1 ≠ q →
  at_steps body q = Some (Str u) → at_steps (applied_body body x r) q = Some (Str u).
Proof.
  intros (Hat & _ & _) Hok Hne Hq. unfold applied_body, apply_replacement. destruct r as [r|]; [|done]. simpl.
  destruct (String.eqb_spec r x.2.2) as [->|_]; [done|].
  rewrite pointer_tokens_render, (at_steps_tokens _ _ _ Hat) by done. simpl. by eapply at_set_other.
Qed.

Lemma rewrite_segments_spec xs seen body applied st :
  Forall (path_at body) xs → Forall (λ x, Forall step_ok x.1) xs → NoDup xs.*1 →
  (∀ x, x ∈ xs → pointer (segment_of x) ∉ seen) →
  let body' := (rewrite_segments rewrite (segment_of <$> xs) seen body applied st).1.1 in
  (∀ i x r, xs !! i = Some x → answers st (segment_of <$> xs) !! i = Some r →
     at_steps body' x.1 = Some (Str (default x.2.2 r)))
  ∧ (∀ q u, q ∉ xs.*1 → at_steps body q = Some (Str u) → at_steps body' q = Some (Str u)).
Proof.
  revert seen body applied st. induction xs as [|x xs IH]; intros seen body applied st Hat Hok Hnd Hseen; [done|].
  apply Forall_cons in Hat as [Hx Hat], Hok as [Hxok Hok]. apply NoDup_cons in Hnd as [Hfresh Hnd].
  cbn [fmap list_fmap rewrite_segments]. rewrite bool_decide_false by (apply Hseen; left). cbn [answers].
  destruct (rewrite st (segment_of x)) as [st' r] eqn:Hr. cbn [fst snd].
  assert (Hstep : ∀ ap, let body' := (rewrite_segments rewrite (segment_of <$> xs) (pointer (segment_of x) :: seen)
      (applied_body body x r) ap st').1.1 in
    (∀ i y r', (x :: xs) !! i = Some y → (r :: answers st' (segment_of <$> xs)) !! i = Some r' →
       at_steps body' y.1 = Some (Str (default y.2.2 r')))
    ∧ (∀ q u, q ∉ (x :: xs).*1 → at_steps body q = Some (Str u) → at_steps body' q = Some (Str u))).
  { intros ap. edestruct (IH (pointer (segment_of x) :: seen) (applied_body body x r) ap st') as [Hin Hout]; try done.
    - apply Forall_forall. intros y Hy. rewrite Forall_forall in Hat. destruct (Hat y Hy) as (Hy1 & Hy2 & Hy3).
      split_and!; [|done|done]. apply applied_other; try done. intros Heq. apply Hfresh. rewrite Heq. by apply list_elem_of_fmap_2.
    - intros y Hy. apply not_elem_of_cons. split; [|apply Hseen; by right]. cbn. intros Heq.
      apply Hfresh. apply render_inj in Heq as <-; [by apply list_elem_of_fmap_2| |done].
      rewrite Forall_forall in Hok. by apply Hok.
    - split.
      + intros [|i] y r' Hy Hr'; simplify_eq/=; [|by eapply Hin]. apply Hout; [done|]. by apply applied_same.
      + intros q u [Hq Hq']%not_elem_of_cons Hu. apply Hout; [done|]. by apply applied_other. }
  unfold applied_body in Hstep. destruct (apply_replacement body (segment_of x) r) as [b|]; simpl in Hstep; apply Hstep.
Qed.
End rewrites.

(** For a body of fewer than 2^64 nodes, after the rewriting each collected segment
    holds, at its pointer, what the closure answered for it, or its text when it
    answered nothing; no pointer is met twice; every other text is as before. *)
Lemma rewrite_reaches {S} (rewrite : S → RequestTextSegment → S * option string)
    (path : string) (body : value) (st : S) (Hsize : (Z.of_nat (value_nodes body) ≤ u64_max)%Z) :
  let segments := collect_request_text_segments_for_path path body in
  let body' := (rewrite_request_text_segments_for_path rewrite path body st).1.1 in
  NoDup (pointer <$> segments)
  ∧ (∀ i segment answer, segments !! i = Some segment → answers rewrite st segments !! i = Some answer →
       value_pointer body' (pointer segment) = Some (Str (default (text segment) answer)))
  ∧ (∀ q u, at_steps body q = Some (Str u) → render EmptyString q ∉ pointer <$> segments →
       at_steps body' q = Some (Str u)).
Proof.
  intros segments body'.
  assert (Hcase : (segments = [] ∧ body' = body) ∨ ∃ family, segments = segment_of <$> family_paths family body
    ∧ body' = (rewrite_segments rewrite (segment_of <$> family_paths family body) [] body false st).1.1).
  { unfold segments, body', rewrite_request_text_segments_for_path, collect_request_text_segments_for_path.
    destruct (request_payload_family_for_path path) as [family|]; [right; exists family|by left].
    by rewrite family_segments. }
  clearbody segments body'. destruct Hcase as [[-> ->]|(family & -> & ->)]; [by split_and!; [constructor|by intros|]|].
  set (xs := family_paths family body). pose proof (family_paths_at family body) as Hat.
  assert (Hok : Forall (λ x, Forall step_ok x.1) xs).
  { eapply Forall_impl; [exact Hat|]. intros x (Hx & Hk & _). by eapply at_steps_ok. }
  destruct (rewrite_segments_spec rewrite xs [] body false st Hat Hok (family_paths_NoDup family body)) as [Hin Hout];
    [set_solver|]. split_and!.
  - replace (pointer <$> (segment_of <$> xs)) with (render EmptyString <$> xs.*1) by (by rewrite <- !list_fmap_compose).
    apply (NoDup_fmap_2_strong); [|apply family_paths_NoDup].
    intros p q (x & -> & Hx)%list_elem_of_fmap (y & -> & Hy)%list_elem_of_fmap. rewrite Forall_forall in Hok.
    by apply render_inj; apply Hok.
  - intros i segment answer Hi Ha. rewrite list_lookup_fmap in Hi. destruct (xs !! i) as [x|] eqn:Hx; simplify_eq/=.
    assert (Hx' : Forall step_ok x.1) by (rewrite Forall_forall in Hok; apply Hok; by eapply list_elem_of_lookup_2).
    unfold value_pointer. rewrite pointer_tokens_render by done. simpl. apply at_steps_tokens; [|done]. by eapply Hin.
  - intros q u Hq Hnew. apply Hout; [|done]. intros (x & -> & Hx)%list_elem_of_fmap. apply Hnew.
    rewrite <- list_fmap_compose. by apply (list_elem_of_fmap_2 (pointer ∘ segment_of) _ x).
Qed.

(** ** Policies read what redaction rewrites *)

Definition ends_text (rest : string) : Prop := rest = EmptyString ∨ ∃ r, rest = String "010" r.
Lemma blank_prefix t rest : ends_text rest → all_whitespace t = false → all_whitespace (t +:+ rest) = false.
Proof.
  intros Hrest. unfold all_whitespace. remember (String.length t) as n eqn:Hn. revert t Hn.
  induction (lt_wf n) as [n _ IH]; intros t -> Ht. destruct t as [|a t]; [done|].
  cbn [String.append trim_start] in *. destruct (ws1 a) eqn:H1; [apply (IH (String.length t)); [simpl; lia|done|done]|].
  destruct t as [|b t]; cbn [String.append] in *.
  { destruct Hrest as [->|[r ->]]; [done|]. replace (ws2 a "010") with false by (unfold ws2; by rewrite andb_false_r).
    destruct r as [|c r]; [done|]. replace (ws3 a "010" c) with false; [done|]. unfold ws3. cbn.
    by rewrite !andb_false_r. }
  destruct (ws2 a b) eqn:H2; [apply (IH (String.length t)); [simpl; lia|done|done]|].
  destruct t as [|c t]; cbn [String.append] in *.
  { destruct Hrest as [->|[r ->]]; [done|]. replace (ws3 a b "010") with false; [done|]. unfold ws3. cbn.
    by rewrite !andb_false_r. }
  destruct (ws3 a b c) eqn:H3; [apply (IH (String.length t)); [simpl; lia|done|done]|]. done.
Qed.

Definition join_lines (l : list string) : string := String.concat newline l.
Lemma join_lines_cons t ts : join_lines (t :: ts) = t +:+ match ts with [] => EmptyString | _ => newline +:+ join_lines ts end.
Proof. destruct ts; simpl; [by rewrite append_empty_r|done]. Qed.
Lemma join_lines_app l k : l ≠ [] → k ≠ [] → join_lines (l ++ k) = join_lines l +:+ newline +:+ join_lines k.
Proof.
  intros Hl Hk. induction l as [|t l IH]; [done|]. cbn [app]. rewrite !join_lines_cons.
  destruct l as [|u l]; [destruct k; [done|]; by rewrite append_empty_r|].
  rewrite IH by done. change ((u :: l) ++ k) with (u :: (l ++ k)). cbn match. by rewrite !append_assoc.
Qed.
Lemma join_nonblank t ts : all_whitespace t = false → all_whitespace (join_lines (t :: ts)) = false.
Proof. intros Ht. rewrite join_lines_cons. apply blank_prefix; [destruct ts; [by left|right; eauto]|done]. Qed.

(** Groups of texts, one per message, joined in two ways. *)
Definition joined_group (g : list string) : list string := match g with [] => [] | _ => [join_lines g] end.
Lemma joined_groups_nil gs : concat (joined_group <$> gs) = [] ↔ concat gs = [].
Proof.
  induction gs as [|g gs IH]; [done|]. cbn. destruct g as [|t g]; [exact IH|]. done.
Qed.
Lemma joined_groups gs : join_lines (concat (joined_group <$> gs)) = join_lines (concat gs).
Proof.
  induction gs as [|g gs IH]; [done|]. rewrite fmap_cons, !concat_cons. destruct g as [|t g]; [exact IH|].
  destruct (decide (concat gs = [])) as [Hnil|Hne].
  - by rewrite (proj2 (joined_groups_nil gs) Hnil), Hnil, !app_nil_r.
  - rewrite (join_lines_app (t :: g)), <- IH by done. apply (join_lines_app [join_lines (t :: g)]); [done|].
    by rewrite joined_groups_nil.
Qed.

Lemma concat_each_item {A} (g : nat → value → list A) i ms : concat (each_item (λ i m, [g i m]) i ms) = each_item g i ms.
Proof. revert i. induction ms as [|m ms IH]; intros i; simpl; [done|]. by rewrite IH. Qed.
Lemma collect_nonblank base role v s :
  s ∈ collect_selected_string_fields base role v → all_whitespace (text s) = false.
Proof.
  rewrite collect_leaves, list_elem_of_fmap. intros ([p t] & -> & Hin). by apply leaves_at in Hin as (_ & _ & Hb).
Qed.
Lemma joined_message role base r v :
  msg_content <$> segments_message role (collect_selected_string_fields base r v)
  = joined_group (text <$> collect_selected_string_fields base r v).
Proof.
  unfold segments_message, join_segment_texts.
  pose proof (λ s, collect_nonblank base r v s) as Hnb.
  destruct (collect_selected_string_fields base r v) as [|s l]; [done|]. cbn zeta.
  fold (join_lines (text <$> s :: l)). rewrite fmap_cons, join_nonblank by (apply Hnb; left). done.
Qed.
Lemma joined_text role t : msg_content <$> text_message role t
  = joined_group (match t with Some t => if all_whitespace t then [] else [t] | None => [] end).
Proof. destruct t as [t|]; [|done]. simpl. by destruct (all_whitespace t). Qed.
Lemma joined_items (f : nat → value → list ExtractedRequestMessage) (g : nat → value → list string) i ms :
  (∀ j m, msg_content <$> f j m = joined_group (g j m)) →
  msg_content <$> each_item f i ms = concat (joined_group <$> each_item (λ j m, [g j m]) i ms).
Proof.
  intros Hfg. rewrite !fmap_each_item. transitivity (concat (each_item (λ j m, [joined_group (g j m)]) i ms)); [|done].
  rewrite concat_each_item. apply each_item_ext, Forall_forall. intros m _ j. apply Hfg.
Qed.

(** The groups of texts of a request: the system prompt, then the messages. *)
Definition text_groups (body : value) : list (list string) :=
  match get_str body "system" with Some t => if all_whitespace t then [] else [t] | None => [] end
  :: match get_array body "messages" with
     | Some ms => each_item (λ i m, [text <$> message_segments true i m]) 0 ms
     | None => []
     end.
Lemma extract_groups body : msg_content <$> extract_request_messages body = concat (joined_group <$> text_groups body).
Proof.
  unfold extract_request_messages, text_groups. rewrite fmap_app, joined_text. cbn [fmap list_fmap concat]. f_equal.
  destruct (get_array body "messages") as [ms|]; [|done]. apply joined_items. intros i m.
  unfold request_message, message_segments. destruct (get_str m "role") as [r|]; [|done].
  destruct (json_get m "content") as [c|]; [|done]. apply joined_message.
Qed.
Lemma collect_groups body : text <$> collect_messages_segments body true true = concat (text_groups body).
Proof.
  unfold collect_messages_segments, text_groups. rewrite fmap_app. cbn [concat]. f_equal.
  - destruct (get_str body "system") as [t|]; [|done]. unfold push_text_segment. by destruct (all_whitespace t).
  - destruct (get_array body "messages") as [ms|]; [|done]. by rewrite fmap_each_item, concat_each_item.
Qed.
Lemma extract_nil body : extract_request_messages body = [] ↔ collect_messages_segments body true true = [].
Proof.
  transitivity (msg_content <$> extract_request_messages body = []); [by destruct (extract_request_messages body)|].
  rewrite extract_groups, joined_groups_nil, <- collect_groups. by destruct (collect_messages_segments body true true).
Qed.
Lemma input_groups body : ∃ gs,
  msg_content <$> (match json_get body "input" with
         | Some (Str text) => text_message "user" (Some text)
         | Some (Arr items) =>
             each_item (λ index item, segments_message (role_or_user item)
               (collect_selected_string_fields ("/input/" +:+ index_to_string index)%string (role_or_user item) item))
               0 items
         | Some (Obj _ as input) =>
             segments_message (role_or_user input)
               (collect_selected_string_fields "/input" (role_or_user input) input)
         | _ => []
         end) = concat (joined_group <$> gs)
  ∧ text <$> field_segments body "input" "/input" "user" = concat gs.
Proof.
  unfold field_segments. destruct (json_get body "input") as [[| | |t|vs|kvs]|]; try by exists [].
  - exists [if all_whitespace t then [] else [t]]. cbn. unfold push_text_segment. by destruct (all_whitespace t).
  - exists (each_item (λ i m, [text <$> collect_selected_string_fields
      ("/input/" +:+ index_to_string i)%string (role_or_user m) m]) 0 vs).
    split; [apply joined_items; intros i m; apply joined_message|].
    rewrite concat_each_item. cbn [collect_selected_string_fields]. rewrite fmap_each_item.
    apply each_item_ext, Forall_forall. intros m _ i. by rewrite !collect_leaves, <- !list_fmap_compose.
  - exists [text <$> collect_selected_string_fields "/input" "user" (Obj kvs)]. split; [|cbn; by rewrite app_nil_r].
    rewrite joined_message. cbn [fmap list_fmap concat]. rewrite app_nil_r.
    by rewrite !collect_leaves, <- !list_fmap_compose.
Qed.

(** Policies read exactly the text that redaction rewrites: on the messages
    endpoint the extracted messages, joined by line feeds as the detectors join
    them, are the collected segments joined by line feeds; and so they are on the
    responses endpoint when the instructions are a text or absent. *)
Theorem policies_read_rewritten_text (body : value) :
  join_lines (msg_content <$> extract_request_messages body)
  = join_lines (text <$> collect_request_text_segments_for_path "/v1/messages" body)
  ∧ (json_get body "instructions" = Str <$> get_str body "instructions" →
     join_lines (msg_content <$> extract_responses_messages body)
     = join_lines (text <$> collect_request_text_segments_for_path "/v1/responses" body)).
Proof.
  change (collect_request_text_segments_for_path "/v1/messages" body) with (collect_messages_segments body true true).
  change (collect_request_text_segments_for_path "/v1/responses" body) with (collect_for_family Responses body).
  assert (Hm : join_lines (msg_content <$> extract_request_messages body)
    = join_lines (text <$> collect_messages_segments body true true))
    by (by rewrite extract_groups, collect_groups, joined_groups).
  split; [done|]. intros Hins. unfold extract_responses_messages, collect_for_family.
  pose proof (extract_nil body) as Hnil. destruct (extract_request_messages body) as [|m ms].
  2:{ destruct (collect_messages_segments body true true); [discriminate (proj2 Hnil eq_refl)|exact Hm]. }
  rewrite (proj1 Hnil eq_refl). clear Hm Hnil. destruct (input_groups body) as (gs & Hl & Hr).
  rewrite !fmap_app, Hl, Hr, joined_text. unfold field_segments. rewrite Hins. unfold get_str.
  destruct (json_get body "instructions" ≫= json_as_str) as [t|]; simpl.
  - unfold push_text_segment. destruct (all_whitespace t); [apply (joined_groups gs)|apply (joined_groups ([t] :: gs))].
  - apply (joined_groups gs).
Qed.

(** ** What is not read *)

(** C37. On the responses endpoint messages hide the text of the input: in a body with
    a message or a system prompt that is read, the messages handed to the policies and
    the segments handed to the redaction do not depend on the input or the
    instructions, whatever text they hold.  (The agent firewall also gets the body and
    reads the calls that are items of the input, [ToolCalls.canonical_tool_calls]; it
    is the text that is not read.) *)
Theorem messages_hide_input (body body' : value)
    (Hread : extract_request_messages body ≠ [])
    (Hmessages : json_get body' "messages" = json_get body "messages")
    (Hsystem : json_get body' "system" = json_get body "system") :
  extract_responses_messages body' = extract_responses_messages body
  ∧ collect_request_text_segments_for_path "/v1/responses" body'
    = collect_request_text_segments_for_path "/v1/responses" body.
Proof.
  assert (He : extract_request_messages body' = extract_request_messages body)
    by (unfold extract_request_messages, get_str, get_array; by rewrite Hmessages, Hsystem).
  assert (Hc : collect_messages_segments body' true true = collect_messages_segments body true true)
    by (unfold collect_messages_segments, get_str, get_array; by rewrite Hmessages, Hsystem).
  split; [unfold extract_responses_messages; rewrite He; by destruct (extract_request_messages body)|].
  change (collect_for_family Responses body' = collect_for_family Responses body). unfold collect_for_family. rewrite Hc.
  destruct (collect_messages_segments body true true) eqn:E; [|done]. by apply extract_nil in E.
Qed.

Lemma each_item_fmap {A} (g : value → list A) (f : nat → value → list A) i ms :
  (∀ j m, f j m = g m) → each_item f i ms = concat (g <$> ms).
Proof. intros Hfg. revert i. induction ms as [|m ms IH]; intros i; simpl; [done|]. by rewrite Hfg, IH. Qed.
Definition message_texts (m : value) : list string :=
  match get_str m "role", json_get m "content" with Some _, Some content => (leaves content).*2 | _, _ => [] end.
Lemma text_groups_messages body ms : get_array body "messages" = Some ms →
  text_groups body = match get_str body "system" with Some t => if all_whitespace t then [] else [t] | None => [] end
    :: (message_texts <$> ms).
Proof.
  intros Hms. unfold text_groups. rewrite Hms. f_equal.
  rewrite (each_item_fmap (λ m, [message_texts m])).
  - clear. induction ms as [|m ms IH]; [done|]. cbn. by rewrite IH.
  - intros j m. unfold message_segments, message_texts. destruct (get_str m "role"); [|done].
    destruct (json_get m "content"); [|done]. by rewrite collect_leaves, <- list_fmap_compose.
Qed.

(** A structured system prompt and a message without a role are not read: they
    change neither the messages that policies see nor the texts that redaction
    rewrites, whatever they hold. *)
Theorem structured_system_unread (body body' : value) :
  let same := msg_content <$> extract_request_messages body' = msg_content <$> extract_request_messages body
    ∧ text <$> collect_request_text_segments_for_path "/v1/messages" body'
      = text <$> collect_request_text_segments_for_path "/v1/messages" body in
  (json_get body' "messages" = json_get body "messages" →
   get_str body "system" = None → get_str body' "system" = None → same)
  ∧ (∀ before m after, get_str body' "system" = get_str body "system" → get_str m "role" = None →
     get_array body "messages" = Some (before ++ after) → get_array body' "messages" = Some (before ++ m :: after) →
     same).
Proof.
  intros same. assert (Hsame : concat (joined_group <$> text_groups body') = concat (joined_group <$> text_groups body) →
    concat (text_groups body') = concat (text_groups body) → same).
  { intros H1 H2. split; [by rewrite !extract_groups|].
    change (text <$> collect_messages_segments body' true true = text <$> collect_messages_segments body true true).
    by rewrite !collect_groups. }
  split.
  - intros Hm Hs Hs'. assert (text_groups body' = text_groups body) as Hg; [|apply Hsame; by rewrite Hg].
    unfold text_groups. rewrite Hs, Hs'. unfold get_array. by rewrite Hm.
  - intros before m after Hs Hrole Hm Hm'. assert (Hnone : message_texts m = []) by (unfold message_texts; by rewrite Hrole).
    apply Hsame; rewrite (text_groups_messages _ _ Hm), (text_groups_messages _ _ Hm'), Hs, !fmap_app, !fmap_cons, Hnone;
      cbn [concat fmap list_fmap joined_group]; rewrite ?fmap_app, ?fmap_cons, !concat_app; done.
Qed.
End bodies.

(** ** Redaction of requests (request_pipeline/responses_part1.rs and messages.rs) *)
Section redaction.
Context {Number : Type} `{Regexes} (sha256_hex : string → string) (cities : list string) (cfg : RedactionConfig).

(** The closure of the three functions. *)
Definition redacting (_ : unit) (segment : RequestTextSegment) : unit * option string :=
  let redacted := redact_text_with_config sha256_hex cities (text segment) cfg in
  (tt, if String.eqb redacted (text segment) then None else Some redacted).
Definition redact_for_path (path : string) (body : Value Number) : Value Number * bool :=
  (rewrite_request_text_segments_for_path redacting path body tt).1.
Definition redact_request_messages : Value Number → Value Number * bool := redact_for_path "/v1/chat/completions".
Definition redact_responses_input : Value Number → Value Number * bool := redact_for_path "/v1/responses".
Definition redact_messages_request_body : Value Number → Value Number * bool := redact_for_path "/v1/messages".

Lemma redacting_answers segments i segment :
  segments !! i = Some segment → answers redacting tt segments !! i = Some (redacting tt segment).2.
Proof.
  revert i. induction segments as [|s segments IH]; intros i Hi; [discriminate|].
  destruct i as [|i]; [injection Hi as ->; reflexivity|exact (IH i Hi)].
Qed.

(** C24. Redaction reaches every text it is shown, on the chat, responses and messages
    endpoints alike: in a body of fewer than 2^64 nodes every collected segment
    holds, at its pointer, the redaction of its text afterwards; no two segments
    share a pointer; and every text of the body that is not a segment is as
    before. *)
Theorem redaction_covers_request (redact : Value Number → Value Number * bool) (path : string) (body : Value Number)
    (Hredact : redact = redact_request_messages ∧ path = "/v1/chat/completions"%string
      ∨ redact = redact_responses_input ∧ path = "/v1/responses"%string
      ∨ redact = redact_messages_request_body ∧ path = "/v1/messages"%string)
    (Hsize : (Z.of_nat (value_nodes body) ≤ u64_max)%Z) :
  let segments := collect_request_text_segments_for_path path body in
  NoDup (pointer <$> segments)
  ∧ (∀ segment, segment ∈ segments →
       value_pointer (redact body).1 (pointer segment)
       = Some (Str (redact_text_with_config sha256_hex cities (text segment) cfg)))
  ∧ (∀ q u, at_steps body q = Some (Str u) → render EmptyString q ∉ pointer <$> segments →
       at_steps (redact body).1 q = Some (Str u)).
Proof.
  intros segments. destruct (rewrite_reaches redacting path body tt Hsize) as (Hnd & Hin & Hout).
  assert (Hbody : redact body = redact_for_path path body).
  { unfold redact_request_messages, redact_responses_input, redact_messages_request_body in Hredact.
    destruct Hredact as [[Hr Hp]|[[Hr Hp]|[Hr Hp]]]; by rewrite Hr, Hp. }
  rewrite Hbody. unfold redact_for_path. split_and!; [done| |done]. intros segment [i Hi]%list_elem_of_lookup.
  rewrite (Hin i segment _ Hi (redacting_answers _ _ _ Hi)). do 2 f_equal. unfold redacting. cbn [snd].
  by destruct (String.eqb_spec (redact_text_with_config sha256_hex cities (text segment) cfg) (text segment)).
Qed.
End redaction.

(** ** Instances *)
Module DemoRequest.
Abbreviation json := (Value Z).
Definition message (role content : string) : json := Obj [("role", Str role); ("content", Str content)]%string.
(** Two messages, the second with content blocks. *)
Definition blocks : json :=
  Obj [("role", Str "user"); ("content", Arr [Obj [("type", Str "text"); ("text", Str DemoRegex.text)]])]%string.
Definition body : json := Obj [("model", Str "gpt"); ("messages", Arr [message "system" "be brief"; blocks])]%string.
Definition hidden (input : string) : json :=
  Obj [("messages", Arr [message "user" "hi"]); ("input", Str input)]%string.
End DemoRequest.

Lemma redaction_covers_request_witness :
  value_pointer (redact_request_messages (H := DemoRegex.one) (λ s, s) [] RedactionConfig_default DemoRequest.body).1
    "/messages/1/content/0/text"
  = Some (Str (redact_text_with_config (H := DemoRegex.one) (λ s, s) [] DemoRegex.text RedactionConfig_default)).
Proof.
  apply (redaction_covers_request (H := DemoRegex.one) (λ s, s) [] RedactionConfig_default
    (redact_request_messages (H := DemoRegex.one) (λ s, s) [] RedactionConfig_default) "/v1/chat/completions"
    DemoRequest.body (or_introl (conj eq_refl eq_refl)) ltac:(by vm_compute)
    ) with (segment := mkSegment "/messages/1/content/0/text" "user" DemoRegex.text).
  vm_compute. right. left.
Defined.

Lemma messages_hide_input_witness :
  extract_responses_messages (DemoRequest.hidden "my 123-45-6789") = extract_responses_messages (DemoRequest.hidden "x").
Proof.
  apply (messages_hide_input (DemoRequest.hidden "x") (DemoRequest.hidden "my 123-45-6789")); [discriminate|reflexivity|reflexivity].
Defined.
