(* ===== verification/OutboundFetch.v ===== *)
(** * OutboundFetch: fetching the pages a request mentions

    (src/src/gateway/content_extraction.rs, the content extractor, and its policy in
    src/src/gateway/enforcement.rs.)

    URLs of a text are fetched when their host is listed and every address it
    resolves to is public; the addresses that were checked are those connected to.
    The bytes that concurrent fetches keep are bounded together by an atomic counter.
    [Url::parse], the regular expressions, the resolver and the HTTP client are
    arguments; the loop over the chunks of a response with its compare-and-exchange
    is a step function, so that fetches can be interleaved. *)

From Stdlib Require Import ZArith Ascii String.
From stdpp Require Import base gmap strings list sorting.
From S2P Require Import Prelude Text Lww EventWal Net Policy PolicyChain Detection Redaction Sse.

Definition MAX_URLS : nat := 8.
Definition MAX_TOTAL_TIMEOUT : Z := from_secs 10.
Definition MAX_BODY_BYTES : Z := 1048576.
Definition MAX_AGGREGATE_BYTES : Z := 4194304.

Inductive ExtractionErrorAction := ActionWarn | ActionBlock.
#[export] Instance ExtractionErrorAction_eq_dec : EqDecision ExtractionErrorAction.
Proof. solve_decision. Defined.
Record ContentExtractorConfig := mkExtractor {
  allow_hosts : list string;
  timeout_ms : Z;
  max_bytes : Z;
  fetch_urls : bool;
  action_on_error : ExtractionErrorAction;
}.
Definition ContentExtractorConfig_default : ContentExtractorConfig := mkExtractor [] 2000 65536 true ActionWarn.
Record ExtractionResult := mkExtraction {
  urls : list string; extracted_text : list string; blocked_reason : option string;
}.

(** Durations are nanoseconds. *)
Definition bounded_total_timeout (ms : Z) : Z := Z.min (Z.max ms 1 * 1000000) MAX_TOTAL_TIMEOUT.
Definition bounded_body_limit (max_bytes : Z) : Z := Z.min max_bytes MAX_BODY_BYTES.

Definition host_allowed (host : string) (cfg : ContentExtractorConfig) : bool :=
  match allow_hosts cfg with
  | [] => false
  | hosts => existsb (λ allowed, eq_ignore_ascii_case allowed host) hosts
  end.

(** ** Restricted addresses *)

Definition RESTRICTED_IPV4_RANGES : list (list Z * Z) :=
  [([0; 0; 0; 0], 8); ([10; 0; 0; 0], 8); ([100; 64; 0; 0], 10); ([127; 0; 0; 0], 8); ([169; 254; 0; 0], 16);
   ([172; 16; 0; 0], 12); ([192; 0; 0; 0], 24); ([192; 0; 2; 0], 24); ([192; 31; 196; 0], 24);
   ([192; 52; 193; 0], 24); ([192; 88; 99; 0], 24); ([192; 168; 0; 0], 16); ([192; 175; 48; 0], 24);
   ([198; 18; 0; 0], 15); ([198; 51; 100; 0], 24); ([203; 0; 113; 0], 24); ([224; 0; 0; 0], 4);
   ([240; 0; 0; 0], 4)]%Z.
Definition RESTRICTED_IPV6_RANGES : list (list Z * Z) :=
  [([0; 0; 0; 0; 0; 0; 0; 0], 96); ([0; 0; 0; 0; 0; 0xffff; 0; 0], 96); ([0; 0; 0; 0; 0xffff; 0; 0; 0], 96);
   ([0x64; 0xff9b; 0; 0; 0; 0; 0; 0], 96); ([0x64; 0xff9b; 1; 0; 0; 0; 0; 0], 48); ([0x100; 0; 0; 0; 0; 0; 0; 0], 64);
   ([0x2001; 0; 0; 0; 0; 0; 0; 0], 23); ([0x2001; 0xdb8; 0; 0; 0; 0; 0; 0], 32); ([0x2002; 0; 0; 0; 0; 0; 0; 0], 16);
   ([0x2620; 0x4f; 0x8000; 0; 0; 0; 0; 0], 48); ([0x3fff; 0; 0; 0; 0; 0; 0; 0], 20); ([0x5f00; 0; 0; 0; 0; 0; 0; 0], 16);
   ([0xfc00; 0; 0; 0; 0; 0; 0; 0], 7); ([0xfe80; 0; 0; 0; 0; 0; 0; 0], 10); ([0xfec0; 0; 0; 0; 0; 0; 0; 0], 10);
   ([0xff00; 0; 0; 0; 0; 0; 0; 0], 8)]%Z.

(** [from_be_bytes] and the fold over segments: digits in base [2 ^ width]. *)
Definition be_value (width : Z) (digits : list Z) : Z :=
  fold_left (λ value digit, Z.lor (Z.shiftl value width) digit) digits 0%Z.
(** [MAX.checked_shl(n).unwrap_or(0)] of a word of [bits] bits. *)
Definition prefix_mask (bits n : Z) : Z :=
  if (n <? bits)%Z then (Z.shiftl (2 ^ bits - 1) n mod 2 ^ bits)%Z else 0%Z.
Definition in_prefix (width bits : Z) (address network : list Z) (prefix : Z) : bool :=
  let mask := prefix_mask bits (bits - prefix) in
  (Z.land (be_value width address) mask =? Z.land (be_value width network) mask)%Z.
Definition ipv4_in_prefix : list Z → list Z → Z → bool := in_prefix 8 32.
Definition ipv6_in_prefix : list Z → list Z → Z → bool := in_prefix 16 128.

Definition ip_is_private (ip : IpAddr) : bool :=
  match ip with
  | V4 octets => existsb (λ r, ipv4_in_prefix octets r.1 r.2) RESTRICTED_IPV4_RANGES
  | V6 segments =>
      negb (ipv6_in_prefix segments [0x2000; 0; 0; 0; 0; 0; 0; 0]%Z 3)
      || existsb (λ r, ipv6_in_prefix segments r.1 r.2) RESTRICTED_IPV6_RANGES
  end.
(** [IpAddr::is_loopback]. *)
Definition is_loopback (ip : IpAddr) : bool :=
  match ip with
  | V4 octets => bool_decide (octets !! 0 = Some 127%Z)
  | V6 segments => bool_decide (segments = [0; 0; 0; 0; 0; 0; 0; 1]%Z)
  end.

(** ** Candidates and targets *)

(** The parts of a parsed URL that the code reads; [host_str] has an IPv6 address
    in brackets. *)
Record Url := mkUrl {
  scheme : string; username : string; password : option string;
  host_str : option string; port_or_known_default : option Z;
}.
Definition SocketAddr : Type := IpAddr * Z.
Record OutboundCandidate := mkCandidate { c_url : Url; c_host : string; c_port : Z; loopback_exception : bool }.
Record PinnedTarget := mkPinned { p_url : Url; p_host : string; p_addrs : list SocketAddr }.

Definition is_exact_loopback_host (url : Url) : bool :=
  match host_str url with
  | None => false
  | Some host =>
      eq_ignore_ascii_case host "localhost"
      || match parse_ip host with Some address => is_loopback address | None => false end
  end.
(** [loopback_development_enabled], of the environment variable. *)
Definition loopback_development_enabled (verdictan_env : option string) : bool :=
  let v := to_ascii_lowercase (default EmptyString verdictan_env) in
  String.eqb v "development" || String.eqb v "dev".

Section extraction.
Variable url_parse : string → option Url.

Definition parse_candidate (raw_url : string) (cfg : ContentExtractorConfig) (allow_loopback_development : bool) :
    Result OutboundCandidate string :=
  match url_parse raw_url with
  | None => Err "invalid_url"%string
  | Some url =>
      if negb (is_empty (username url)) || bool_decide (is_Some (password url)) then Err "url_userinfo_blocked"%string
      else
        let loopback_exception := allow_loopback_development && is_exact_loopback_host url in
        let accepted :=
          if String.eqb (scheme url) "https" then Ok tt
          else if String.eqb (scheme url) "http"
          then (if loopback_exception then Ok tt else Err "https_required"%string)
          else Err "unsupported_url_scheme"%string in
        match accepted with
        | Err e => Err e
        | Ok _ =>
            match host_str url with
            | None => Err "missing_host"%string
            | Some host =>
                if negb (host_allowed host cfg) then Err "host_not_allowlisted"%string
                else match port_or_known_default url with
                     | None => Err "invalid_url"%string
                     | Some port => Ok (mkCandidate url host port loopback_exception)
                     end
            end
        end
  end.

(** The resolver's answer for a host and a port. *)
Variable resolve : string → Z → Result (list SocketAddr) string.

(** [filter(|a| seen.insert(a))]: the first occurrences. *)
Fixpoint first_seen (seen addrs : list SocketAddr) : list SocketAddr :=
  match addrs with
  | [] => []
  | a :: addrs => if bool_decide (a ∈ seen) then first_seen seen addrs else a :: first_seen (a :: seen) addrs
  end.
Definition resolve_candidate (c : OutboundCandidate) : Result PinnedTarget string :=
  let resolved :=
    match parse_ip (c_host c) with
    | Some ip => Ok [(ip, c_port c)]
    | None => resolve (c_host c) (c_port c)
    end in
  match resolved with
  | Err e => Err e
  | Ok [] => Err "dns_resolution_failed"%string
  | Ok addresses =>
      if (if loopback_exception c then negb (forallb (λ a, is_loopback a.1) addresses)
          else existsb (λ a, ip_is_private a.1) addresses)
      then Err "private_address_blocked"%string
      else Ok (mkPinned (c_url c) (c_host c) (first_seen [] addresses))
  end.

(** ** Decoding what was kept *)

(** [str::from_utf8]: the length of the valid prefix, and how the text ends there. *)
Inductive Utf8End := Whole | Truncated | Invalid.
Definition advance (n : nat) (r : nat * Utf8End) : nat * Utf8End := (n + r.1, r.2).
Fixpoint utf8_scan (l : chunk) : nat * Utf8End :=
  match l with
  | [] => (0, Whole)
  | a :: l1 =>
      match seq_width (code a) with
      | 1%nat => advance 1 (utf8_scan l1)
      | 2%nat =>
          match l1 with
          | [] => (0, Truncated)
          | b :: l2 => if second_ok (code a) (code b) then advance 2 (utf8_scan l2) else (0, Invalid)
          end
      | 3%nat =>
          match l1 with
          | [] => (0, Truncated)
          | b :: l2 =>
              if negb (second_ok (code a) (code b)) then (0, Invalid)
              else match l2 with
                   | [] => (0, Truncated)
                   | c :: l3 => if cont (code c) then advance 3 (utf8_scan l3) else (0, Invalid)
                   end
          end
      | 4%nat =>
          match l1 with
          | [] => (0, Truncated)
          | b :: l2 =>
              if negb (second_ok (code a) (code b)) then (0, Invalid)
              else match l2 with
                   | [] => (0, Truncated)
                   | c :: l3 =>
                       if negb (cont (code c)) then (0, Invalid)
                       else match l3 with
                            | [] => (0, Truncated)
                            | d :: l4 => if cont (code d) then advance 4 (utf8_scan l4) else (0, Invalid)
                            end
                   end
          end
      | _ => (0, Invalid)
      end
  end.
Definition decode_utf8_prefix (l : chunk) : Result string string :=
  match utf8_scan l with
  | (_, Whole) => Ok (string_of_list_ascii l)
  | (n, Truncated) =>
      match from_utf8 (take n l) with Some text => Ok text | None => Err "invalid_utf8"%string end
  | (_, Invalid) => Err "invalid_utf8"%string
  end.

(** ** Fetching *)

(** What the client answers for a target: a failure of the request, by timeout or
    not, or a response with its status, its content encoding when readable, and the
    chunks of its body, each possibly a failure. *)
Record Response := mkResponse {
  r_status : Z; content_encoding : option string; r_chunks : list (Result chunk bool);
}.
Variable client_builds : bool.
Variable send : PinnedTarget → Result Response bool.
(** [strip_html_tags], a regular expression. *)
Variable strip_html_tags : string → string.

(** The request of [fetch_pinned_content], up to the loop over the body. *)
Definition open_response (target : PinnedTarget) : Result Response string :=
  if negb client_builds then Err "client_build_failed"%string
  else match send target with
       | Err is_timeout => Err (if is_timeout then "timeout" else "fetch_failed")%string
       | Ok response =>
           if ((300 <=? r_status response) && (r_status response <? 400))%Z then Err "redirect_blocked"%string
           else if negb ((200 <=? r_status response) && (r_status response <? 300))%Z then Err "http_status_error"%string
           else if match content_encoding response with
                   | Some v => negb (eq_ignore_ascii_case v "identity")
                   | None => false
                   end
           then Err "unsupported_content_encoding"%string
           else Ok response
       end.

(** A fetch at its loop: reading, or about to compare and exchange the counter with
    what was added to the value it last saw, or done. *)
Inductive FetchState :=
| Reading
| Reserving (current : Z) (bytes : chunk)
| Finished (r : Result string string).
Record Fetch := mkFetch { f_limit : Z; f_body : chunk; f_chunks : list (Result chunk bool); f_state : FetchState }.
Definition finish (body : chunk) : Result string string :=
  match decode_utf8_prefix body with Ok text => Ok (strip_html_tags text) | Err e => Err e end.
Definition retained (limit : Z) (body bytes : chunk) : Z :=
  Z.min (Z.of_nat (length bytes)) (limit - Z.of_nat (length body)).

(** [reserve_aggregate_bytes], its loop on the value [current]: [checked_add] with
    the limit, then [compare_exchange_weak], which may fail for no reason. *)
Inductive Reservation := Refused | Reserved | Again (observed : Z).
Definition try_reserve (current requested aggregate : Z) (spurious : bool) : Z * Reservation :=
  match checked_add64 current requested with
  | None => (aggregate, Refused)
  | Some next =>
      if (next <=? MAX_AGGREGATE_BYTES)%Z
      then (if (aggregate =? current)%Z && negb spurious then (next, Reserved) else (aggregate, Again aggregate))
      else (aggregate, Refused)
  end.
(** One atomic step of a fetch: a chunk read with the first load of the counter, or
    an attempt of the exchange. *)
Definition fetch_step (aggregate : Z) (f : Fetch) (spurious : bool) : Z * Fetch :=
  match f_state f with
  | Finished _ => (aggregate, f)
  | Reading =>
      if (Z.of_nat (length (f_body f)) <? f_limit f)%Z then
        match f_chunks f with
        | [] => (aggregate, mkFetch (f_limit f) (f_body f) [] (Finished (finish (f_body f))))
        | Err is_timeout :: rest =>
            (aggregate, mkFetch (f_limit f) (f_body f) rest
               (Finished (Err (if is_timeout then "timeout" else "body_read_failed")%string)))
        | Ok bytes :: rest => (aggregate, mkFetch (f_limit f) (f_body f) rest (Reserving aggregate bytes))
        end
      else (aggregate, mkFetch (f_limit f) (f_body f) (f_chunks f) (Finished (finish (f_body f))))
  | Reserving current bytes =>
      let n := retained (f_limit f) (f_body f) bytes in
      match try_reserve current n aggregate spurious with
      | (aggregate, Refused) =>
          (aggregate, mkFetch (f_limit f) (f_body f) (f_chunks f) (Finished (Err "aggregate_body_limit_exceeded"%string)))
      | (aggregate, Again observed) =>
          (aggregate, mkFetch (f_limit f) (f_body f) (f_chunks f) (Reserving observed bytes))
      | (aggregate, Reserved) =>
          let body := f_body f ++ take (Z.to_nat n) bytes in
          (aggregate, mkFetch (f_limit f) body (f_chunks f)
             (if (n <? Z.of_nat (length bytes))%Z then Finished (finish body) else Reading))
      end
  end.
Definition open_fetch (body_limit : Z) (target : PinnedTarget) : Fetch :=
  match open_response target with
  | Ok response => mkFetch body_limit [] (r_chunks response) Reading
  | Err e => mkFetch body_limit [] [] (Finished (Err e))
  end.

(** Steps of several fetches that share the counter, in the order of a schedule. *)
Definition system_step (s : Z * list Fetch) (who : nat * bool) : Z * list Fetch :=
  match s.2 !! who.1 with
  | Some f => let '(aggregate, f) := fetch_step s.1 f who.2 in (aggregate, <[who.1 := f]> s.2)
  | None => s
  end.

(** ** Extraction *)

(** The matches of the URL pattern, and [extract_bounded_urls]. *)
Variable find_iter : string → list string.
Definition extract_bounded_urls (text : string) : list string * bool :=
  (take MAX_URLS (find_iter text), bool_decide (MAX_URLS < length (find_iter text))).

(** The future of one URL: the target it connects to, if any, and its result. *)
Variable fetch : PinnedTarget → Result string string.
Definition fetch_url (cfg : ContentExtractorConfig) (dev : bool) (raw_url : string) :
    option PinnedTarget * Result string string :=
  match parse_candidate raw_url cfg dev with
  | Err e => (None, Err e)
  | Ok candidate =>
      match resolve_candidate candidate with
      | Err e => (None, Err e)
      | Ok target => (Some target, fetch target)
      end
  end.

(** The results as the futures complete, up to the first failure. *)
Fixpoint drain (completed : list (nat * Result string string)) (extracted : list (nat * string)) :
    list (nat * string) * option string :=
  match completed with
  | [] => (extracted, None)
  | (index, Ok text) :: completed => drain completed (extracted ++ [(index, text)])
  | (_, Err reason) :: _ => (extracted, Some reason)
  end.
Definition by_index (a b : nat * string) : bool := a.1 <=? b.1.
(** [extract_content_with]: [order] is the order in which the futures complete,
    [elapsed] that the timeout comes first. *)
Definition extract_content_with (cfg : ContentExtractorConfig) (dev : bool) (order : list nat) (elapsed : bool)
    (text : string) : ExtractionResult :=
  let '(urls, url_limit_exceeded) := extract_bounded_urls text in
  if url_limit_exceeded then mkExtraction urls [] (Some "url_limit_exceeded"%string)
  else if negb (fetch_urls cfg) || bool_decide (urls = []) then mkExtraction urls [] None
  else if elapsed then mkExtraction urls [] (Some "timeout"%string)
  else
    let completed := omap (λ i, url ← urls !! i; Some (i, (fetch_url cfg dev url).2)) order in
    let '(extracted, reason) := drain completed [] in
    mkExtraction urls (sort_by by_index extracted).*2 reason.

(** [evaluate_content_extractor]: [parsed] is the configuration when it
    deserializes. *)
Definition content_extractor_verdict (parsed : option ContentExtractorConfig) (r : ExtractionResult) : Verdict * string :=
  let cfg := default ContentExtractorConfig_default parsed in
  (if bool_decide (is_Some (blocked_reason r)) && bool_decide (action_on_error cfg = ActionBlock) then Block else Allow,
   match blocked_reason r with
   | Some reason => ("content-extractor." ++ reason)%string
   | None => "content-extractor.ok"%string
   end).
End extraction.

(** ** Prefixes are intervals *)

Lemma lor_shiftl v w d : (0 ≤ w → 0 ≤ d < 2 ^ w → Z.lor (Z.shiftl v w) d = v * 2 ^ w + d)%Z.
Proof.
  intros Hw Hd. assert (Hland : Z.land (Z.shiftl v w) d = 0%Z).
  { apply Z.bits_inj'. intros i Hi. rewrite Z.land_spec, Z.bits_0. destruct (Z.lt_ge_cases i w).
    - by rewrite Z.shiftl_spec_low.
    - rewrite <- (Z.mod_small d (2 ^ w)) by done. rewrite Z.mod_pow2_bits_high by lia. apply andb_false_r. }
  rewrite <- Z.lxor_lor, <- Z.add_nocarry_lxor by done. by rewrite Z.shiftl_mul_pow2.
Qed.
Lemma be_value_range w digits : (0 ≤ w)%Z → Forall (λ d, 0 ≤ d < 2 ^ w)%Z digits →
  (0 ≤ be_value w digits < 2 ^ (w * Z.of_nat (length digits)))%Z.
Proof.
  intros Hw Hall. unfold be_value.
  assert (Hgo : ∀ n acc, (0 ≤ acc < 2 ^ (w * Z.of_nat n))%Z →
    (0 ≤ fold_left (λ v d, Z.lor (Z.shiftl v w) d) digits acc < 2 ^ (w * Z.of_nat (n + length digits)))%Z).
  { induction Hall as [|d digits Hd _ IH]; intros n acc Hacc; simpl; [by rewrite Nat.add_0_r|].
    rewrite <- Nat.add_succ_comm. apply IH. rewrite lor_shiftl by done.
    rewrite Nat2Z.inj_succ, Z.mul_succ_r, Z.pow_add_r by lia. nia. }
  apply (Hgo 0). simpl. rewrite Z.mul_0_r. lia.
Qed.
Lemma land_prefix_mask bits n v : (0 ≤ n ≤ bits)%Z → (0 ≤ v < 2 ^ bits)%Z →
  Z.land v (prefix_mask bits n) = (v / 2 ^ n * 2 ^ n)%Z.
Proof.
  intros Hn Hv. unfold prefix_mask. destruct (Z.ltb_spec n bits) as [Hlt|Hge].
  2:{ replace n with bits by lia. rewrite Z.land_0_r, Z.div_small by done. lia. }
  rewrite <- Z.shiftr_div_pow2, <- Z.shiftl_mul_pow2 by lia. apply Z.bits_inj'. intros i Hi.
  rewrite Z.land_spec. replace (2 ^ bits - 1)%Z with (Z.ones bits) by (rewrite Z.ones_equiv; lia).
  destruct (Z.lt_ge_cases i n).
  { rewrite Z.mod_pow2_bits_low, !Z.shiftl_spec_low by lia. apply andb_false_r. }
  rewrite (Z.shiftl_spec _ n i), Z.shiftr_spec by lia. replace (i - n + n)%Z with i by lia.
  destruct (Z.lt_ge_cases i bits).
  - rewrite Z.mod_pow2_bits_low, Z.shiftl_spec, Z.ones_spec_low by lia. apply andb_true_r.
  - rewrite Z.mod_pow2_bits_high by lia. rewrite andb_false_r, <- (Z.mod_small v (2 ^ bits)) by done.
    by rewrite Z.mod_pow2_bits_high by lia.
Qed.

(** The first address of a prefix, and the number of its addresses. *)
Definition in_interval (width bits : Z) (address network : list Z) (prefix : Z) : Prop :=
  (be_value width network ≤ be_value width address < be_value width network + 2 ^ (bits - prefix))%Z.
(** A network is a multiple of the size of its prefix. *)
Definition aligned (width bits : Z) (r : list Z * Z) : bool :=
  ((0 <=? r.2) && (r.2 <=? bits) && (0 <=? be_value width r.1) && (be_value width r.1 <? 2 ^ bits)
   && (be_value width r.1 mod 2 ^ (bits - r.2) =? 0))%Z.
Lemma in_prefix_interval width bits address r : (0 ≤ be_value width address < 2 ^ bits)%Z → aligned width bits r = true →
  in_prefix width bits address r.1 r.2 = true ↔ in_interval width bits address r.1 r.2.
Proof.
  intros Ha Hr. unfold aligned in Hr. bool_to_prop. unfold in_prefix, in_interval. cbv zeta.
  assert (Hn : (0 ≤ bits - r.2 ≤ bits)%Z) by lia. rewrite Z.eqb_eq, !land_prefix_mask by lia.
  set (s := (2 ^ (bits - r.2))%Z) in *. assert (0 < s)%Z by (apply Z.pow_pos_nonneg; lia).
  pose proof (Z.div_mod (be_value width address) s ltac:(lia)).
  pose proof (Z.mod_pos_bound (be_value width address) s ltac:(lia)).
  pose proof (Z.div_mod (be_value width r.1) s ltac:(lia)).
  split; [lia|]. intros Hint. f_equal. symmetry. apply (Z.div_unique_pos _ _ _ (be_value width address - be_value width r.1)); lia.
Qed.

Definition address_ok (ip : IpAddr) : Prop :=
  match ip with
  | V4 octets => length octets = 4 ∧ Forall (λ d, 0 ≤ d < 2 ^ 8)%Z octets
  | V6 segments => length segments = 8 ∧ Forall (λ d, 0 ≤ d < 2 ^ 16)%Z segments
  end.
Lemma ranges_aligned :
  forallb (aligned 8 32) RESTRICTED_IPV4_RANGES = true ∧ forallb (aligned 16 128) RESTRICTED_IPV6_RANGES = true.
Proof. split; vm_compute; reflexivity. Qed.
Lemma existsb_ranges width bits address ranges :
  (0 ≤ be_value width address < 2 ^ bits)%Z → forallb (aligned width bits) ranges = true →
  existsb (λ r, in_prefix width bits address r.1 r.2) ranges = true
  ↔ ∃ r, r ∈ ranges ∧ in_interval width bits address r.1 r.2.
Proof.
  intros Ha Hr. rewrite existsb_exists. rewrite forallb_forall in Hr. setoid_rewrite list_elem_of_In.
  split; intros (r & Hin & Hp); exists r; (split; [done|]); by apply (in_prefix_interval _ _ _ _ Ha (Hr r Hin)).
Qed.

(** The check of addresses is exact: an IPv4 address is private exactly when it
    lies in the interval of one of the restricted prefixes, and an IPv6 address when
    it lies outside of the global unicast range 2000::/3 or in the interval of a
    restricted prefix. *)
Theorem ip_is_private_exact (ip : IpAddr) (Hip : address_ok ip) :
  ip_is_private ip = true ↔
  match ip with
  | V4 octets => ∃ r, r ∈ RESTRICTED_IPV4_RANGES ∧ in_interval 8 32 octets r.1 r.2
  | V6 segments =>
      ¬ in_interval 16 128 segments [0x2000; 0; 0; 0; 0; 0; 0; 0]%Z 3
      ∨ ∃ r, r ∈ RESTRICTED_IPV6_RANGES ∧ in_interval 16 128 segments r.1 r.2
  end.
Proof.
  destruct ranges_aligned as [H4 H6]. destruct ip as [octets|segments]; destruct Hip as [Hlen Hall].
  - pose proof (be_value_range 8 octets ltac:(lia) Hall) as Hv. rewrite Hlen in Hv. by apply existsb_ranges.
  - pose proof (be_value_range 16 segments ltac:(lia) Hall) as Hv. rewrite Hlen in Hv.
    change (16 * Z.of_nat 8)%Z with 128%Z in Hv. unfold ip_is_private. rewrite orb_true_iff.
    unfold ipv6_in_prefix. rewrite (existsb_ranges 16 128 segments _ Hv H6).
    rewrite negb_true_iff, <- not_true_iff_false.
    by rewrite (in_prefix_interval 16 128 segments ([0x2000; 0; 0; 0; 0; 0; 0; 0], 3)%Z Hv ltac:(vm_compute; reflexivity)).
Qed.

(** ** Only checked addresses are connected to *)

Lemma elem_of_first_seen seen addrs a : a ∈ first_seen seen addrs → a ∈ addrs.
Proof.
  revert seen. induction addrs as [|b addrs IH]; intros seen; simpl; [done|].
  case_bool_decide; [intros ?%IH; by right|]. intros [->|?%IH]%elem_of_cons; [by left|by right].
Qed.

(** What must hold of a target that is connected to. *)
Definition target_allowed (cfg : ContentExtractorConfig) (dev : bool) (t : PinnedTarget) : Prop :=
  username (p_url t) = EmptyString ∧ password (p_url t) = None ∧ host_str (p_url t) = Some (p_host t)
  ∧ (∃ allowed, allowed ∈ allow_hosts cfg ∧ eq_ignore_ascii_case allowed (p_host t) = true)
  ∧ p_addrs t ≠ []
  ∧ ((scheme (p_url t) = "https"%string ∧ ∀ a, a ∈ p_addrs t → ip_is_private a.1 = false)
     ∨ (dev = true ∧ is_exact_loopback_host (p_url t) = true
        ∧ scheme (p_url t) ∈ ["https"; "http"]%string ∧ ∀ a, a ∈ p_addrs t → is_loopback a.1 = true)).

Lemma parse_candidate_ok url_parse raw cfg dev c : parse_candidate url_parse raw cfg dev = Ok c →
  username (c_url c) = EmptyString ∧ password (c_url c) = None ∧ host_str (c_url c) = Some (c_host c)
  ∧ (∃ allowed, allowed ∈ allow_hosts cfg ∧ eq_ignore_ascii_case allowed (c_host c) = true)
  ∧ loopback_exception c = dev && is_exact_loopback_host (c_url c)
  ∧ (scheme (c_url c) = "https"%string ∨ scheme (c_url c) = "http"%string ∧ loopback_exception c = true).
Proof.
  unfold parse_candidate. destruct (url_parse raw) as [url|]; [|done].
  destruct (negb (is_empty (username url)) || _) eqn:Huser; [done|]. apply orb_false_iff in Huser as [Hu Hp].
  cbv zeta. set (exc := dev && is_exact_loopback_host url).
  assert (Hhost : ∀ h, negb (host_allowed h cfg) = false → ∃ allowed, allowed ∈ allow_hosts cfg
    ∧ eq_ignore_ascii_case allowed h = true).
  { intros h Hh. apply negb_false_iff in Hh. unfold host_allowed in Hh. destruct (allow_hosts cfg) as [|x xs] eqn:E; [done|].
    apply existsb_exists in Hh as (y & Hy & Heq). exists y. by rewrite list_elem_of_In. }
  destruct (String.eqb_spec (scheme url) "https") as [Hs|Hs];
    [|destruct (String.eqb_spec (scheme url) "http") as [Hs'|Hs']; [destruct exc eqn:Hexc|]]; try done;
    destruct (host_str url) as [host|] eqn:Hh; try done;
    destruct (negb (host_allowed host cfg)) eqn:Ha; try done;
    destruct (port_or_known_default url); try done;
    intros [= <-]; simpl; split_and!; eauto;
    try (apply negb_false_iff in Hu; by destruct (username url));
    try (apply bool_decide_eq_false in Hp; destruct (password url); [|done]; exfalso; apply Hp; eauto).
Qed.
Lemma resolve_candidate_ok resolve c t : resolve_candidate resolve c = Ok t →
  p_url t = c_url c ∧ p_host t = c_host c ∧ p_addrs t ≠ []
  ∧ ∀ a, a ∈ p_addrs t → if loopback_exception c then is_loopback a.1 = true else ip_is_private a.1 = false.
Proof.
  unfold resolve_candidate. cbv zeta.
  destruct (match parse_ip (c_host c) with Some _ => _ | None => _ end) as [[|a addrs]|e]; try done.
  destruct (if loopback_exception c then _ else _) eqn:Hbad; [done|]. intros [= <-]. cbn [p_url p_host p_addrs].
  split_and!; [done..|]. intros x Hx%(elem_of_first_seen [] (a :: addrs)).
  destruct (loopback_exception c).
  - apply negb_false_iff in Hbad. rewrite forallb_forall in Hbad. apply Hbad. by apply list_elem_of_In.
  - destruct (ip_is_private x.1) eqn:Hpriv; [|done]. rewrite <- Hbad. symmetry. apply existsb_exists.
    exists x. split; [by apply list_elem_of_In|done].
Qed.

(** C25. Only checked addresses are connected to: whatever the URLs of a text, the
    parser of URLs and the answers of the resolver are, a target handed to the
    fetcher has no credentials, its host is listed, and every address it may be
    connected to is public over https, or, only in development and only for a
    loopback host, a loopback address. *)
Theorem fetched_targets_allowed (url_parse : string → option Url) (resolve : string → Z → Result (list SocketAddr) string)
    (fetch : PinnedTarget → Result string string) (cfg : ContentExtractorConfig) (dev : bool) (raw : string)
    (t : PinnedTarget) (Hfetched : (fetch_url url_parse resolve fetch cfg dev raw).1 = Some t) :
  target_allowed cfg dev t.
Proof.
  unfold fetch_url in Hfetched. destruct (parse_candidate url_parse raw cfg dev) as [c|e] eqn:Hc; [|done].
  destruct (resolve_candidate resolve c) as [t'|e] eqn:Ht; simplify_eq/=.
  apply parse_candidate_ok in Hc as (Hu & Hp & Hh & Hallow & Hexc & Hs).
  apply resolve_candidate_ok in Ht as (Hurl & Hhost & Hne & Haddrs).
  unfold target_allowed. rewrite Hurl, Hhost. split_and!; try done.
  destruct (loopback_exception c) eqn:E.
  - right. symmetry in Hexc. apply andb_true_iff in Hexc as [-> Hloop]. split_and!; try done.
    destruct Hs as [->|[-> _]]; set_solver.
  - left. split; [|done]. by destruct Hs as [?|[_ ?]].
Qed.

(** ** The bytes of concurrent fetches are bounded together *)

Definition kept_bytes (fs : list Fetch) : Z := foldr (λ f acc, Z.of_nat (length (f_body f)) + acc)%Z 0%Z fs.
Definition fetches_ok (s : Z * list Fetch) : Prop :=
  s.1 = kept_bytes s.2 ∧ (s.1 ≤ MAX_AGGREGATE_BYTES)%Z
  ∧ Forall (λ f, Z.of_nat (length (f_body f)) ≤ f_limit f)%Z s.2.

Lemma kept_bytes_insert fs i f f' : fs !! i = Some f →
  kept_bytes (<[i := f']> fs) = (kept_bytes fs + Z.of_nat (length (f_body f')) - Z.of_nat (length (f_body f)))%Z.
Proof.
  revert i. induction fs as [|g fs IH]; intros [|i] Hi; simplify_eq/=; [lia|]. rewrite (IH i Hi). lia.
Qed.
Lemma kept_bytes_nonneg fs : (0 ≤ kept_bytes fs)%Z.
Proof. induction fs; simpl; lia. Qed.

(** A step keeps the body within its limit, and the counter grows as the body does. *)
Lemma fetch_step_ok strip aggregate f spurious : let '(aggregate', f') := fetch_step strip aggregate f spurious in
  (Z.of_nat (length (f_body f)) ≤ f_limit f)%Z →
  f_limit f' = f_limit f ∧ (Z.of_nat (length (f_body f')) ≤ f_limit f')%Z
  ∧ (aggregate' - aggregate = Z.of_nat (length (f_body f')) - Z.of_nat (length (f_body f)))%Z
  ∧ (aggregate' = aggregate ∨ aggregate' ≤ MAX_AGGREGATE_BYTES)%Z.
Proof.
  unfold fetch_step. destruct (f_state f) as [|current bytes|r].
  - destruct (Z.ltb_spec (Z.of_nat (length (f_body f))) (f_limit f)); [destruct (f_chunks f) as [|[c|e] rest]|];
      simpl; intros; split_and!; lia.
  - cbv zeta. set (n := retained (f_limit f) (f_body f) bytes). unfold try_reserve.
    destruct (checked_add64 current n) as [next|] eqn:Hadd; [|simpl; intros; split_and!; lia].
    unfold checked_add64 in Hadd. destruct (Z.leb_spec (current + n) u64_max); simplify_eq/=.
    destruct (Z.leb_spec (current + n) MAX_AGGREGATE_BYTES); [|simpl; intros; split_and!; lia].
    destruct (Z.eqb_spec aggregate current) as [->|]; simpl; [|intros; split_and!; lia].
    destruct spurious; simpl; [intros; split_and!; lia|]. intros Hle.
    assert (Hn : (0 ≤ n ≤ Z.of_nat (length bytes))%Z ∧ (Z.of_nat (length (f_body f)) + n ≤ f_limit f)%Z)
      by (unfold n, retained; lia).
    rewrite length_app, length_take. split_and!; [done|lia|lia|by right].
  - simpl. intros. split_and!; lia.
Qed.
Lemma system_step_ok strip s who : fetches_ok s → fetches_ok (system_step strip s who).
Proof.
  destruct s as [aggregate fs]. intros (Hagg & Hmax & Hall). unfold system_step. simpl in *.
  destruct (fs !! who.1) as [f|] eqn:Hf; [|done]. pose proof (fetch_step_ok strip aggregate f who.2) as Hstep.
  destruct (fetch_step strip aggregate f who.2) as [aggregate' f'].
  rewrite Forall_lookup in Hall. destruct (Hstep (Hall _ _ Hf)) as (Hlim & Hle & Hgrow & Hcap).
  split_and!; simpl.
  - rewrite (kept_bytes_insert fs who.1 f f' Hf). lia.
  - lia.
  - apply Forall_insert; [by apply Forall_lookup|done].
Qed.

(** Fetches are bounded together: whatever the targets answer and however the
    steps of concurrent fetches interleave, spurious failures of the exchange
    included, the counter is the number of bytes kept, at most 4 MiB in all, and no
    body is longer than the configured limit or 1 MiB. *)
Theorem aggregate_bytes_bounded (client_builds : bool) (send : PinnedTarget → Result Response bool)
    (strip : string → string) (max_bytes : Z) (targets : list PinnedTarget) (schedule : list (nat * bool))
    (Hmax : (0 ≤ max_bytes)%Z) :
  let opened := open_fetch client_builds send (bounded_body_limit max_bytes) <$> targets in
  let '(aggregate, fs) := fold_left (system_step strip) schedule (0%Z, opened) in
  aggregate = kept_bytes fs ∧ (kept_bytes fs ≤ MAX_AGGREGATE_BYTES)%Z
  ∧ (∀ f, f ∈ fs → Z.of_nat (length (f_body f)) ≤ Z.min max_bytes MAX_BODY_BYTES)%Z.
Proof.
  intros opened. assert (Hopen : ∀ t, f_body (open_fetch client_builds send (bounded_body_limit max_bytes) t) = []
    ∧ f_limit (open_fetch client_builds send (bounded_body_limit max_bytes) t) = bounded_body_limit max_bytes)
    by (intros t; unfold open_fetch; by destruct (open_response client_builds send t)).
  assert (Hinit : fetches_ok (0%Z, opened)).
  { split_and!; simpl; [|done|].
    - symmetry. unfold opened. clear opened. induction targets as [|t targets IH]; [done|]. rewrite fmap_cons.
      unfold kept_bytes in *. cbn [foldr]. rewrite IH, (proj1 (Hopen t)). done.
    - apply Forall_fmap, Forall_forall. intros t _. simpl. destruct (Hopen t) as [-> ->].
      unfold bounded_body_limit, MAX_BODY_BYTES. simpl. lia. }
  assert (Hlimits : Forall (λ f, f_limit f = bounded_body_limit max_bytes) opened)
    by (apply Forall_fmap, Forall_forall; intros t _; apply Hopen).
  revert Hinit Hlimits. generalize 0%Z opened. clear opened Hopen. intros aggregate fs.
  revert aggregate fs. induction schedule as [|who schedule IH]; intros aggregate fs Hok Hlim; simpl.
  { destruct Hok as (Hagg & Hcap & Hall). simpl in *. split_and!; [done|by rewrite <- Hagg|]. intros f Hf. rewrite Forall_forall in Hall, Hlim.
    specialize (Hall f Hf). rewrite (Hlim f Hf) in Hall. done. }
  pose proof (system_step_ok strip _ who Hok) as Hok'. destruct (system_step strip (aggregate, fs) who) as [a' fs'] eqn:Hs.
  apply IH; [done|]. unfold system_step in Hs. simpl in Hs. destruct (fs !! who.1) as [f|] eqn:Hf; [|by simplify_eq].
  pose proof (fetch_step_ok strip aggregate f who.2) as Hstep. destruct (fetch_step strip aggregate f who.2) as [x f'].
  simplify_eq. apply Forall_insert; [done|]. destruct Hok as (_ & _ & Hall). rewrite Forall_lookup in Hall, Hlim.
  destruct (Hstep (Hall _ _ Hf)) as (-> & _). by eapply Hlim.
Qed.

(** ** The order of completion does not matter *)

Definition indexed (texts : list string) (order : list nat) : list (nat * string) :=
  omap (λ i, (λ t, (i, t)) <$> texts !! i) order.
Lemma indexed_seq texts pre :
  indexed (pre ++ texts) (seq (length pre) (length texts)) = zip (seq (length pre) (length texts)) texts.
Proof.
  revert pre. induction texts as [|t texts IH]; intros pre; [done|]. cbn [length seq]. unfold indexed.
  cbn [omap list_omap]. rewrite list_lookup_middle by done. simpl. f_equal.
  specialize (IH (pre ++ [t])). rewrite <- app_assoc, length_app, Nat.add_1_r in IH. exact IH.
Qed.
Definition index_le (a b : nat * string) : Prop := a.1 ≤ b.1.
Lemma zip_sorted k texts : StronglySorted index_le (zip (seq k (length texts)) texts).
Proof.
  revert k. induction texts as [|t texts IH]; intros k; simpl; [constructor|]. constructor; [apply IH|].
  apply Forall_forall. intros [i u] Hin%elem_of_zip_l. apply elem_of_seq in Hin. unfold index_le. simpl. lia.
Qed.
Lemma sort_indexed texts order : order ≡ₚ seq 0 (length texts) → (sort_by by_index (indexed texts order)).*2 = texts.
Proof.
  intros Hperm. assert (sort_by by_index (indexed texts order) = zip (seq 0 (length texts)) texts) as ->.
  2:{ rewrite snd_zip; [done|]. by rewrite length_seq. }
  pose proof (indexed_seq texts []) as Hseq. cbn [app length] in Hseq.
  assert (Hp : sort_by by_index (indexed texts order) ≡ₚ zip (seq 0 (length texts)) texts)
    by (rewrite sort_by_perm, <- Hseq; unfold indexed; by rewrite Hperm).
  apply (StronglySorted_unique_strong index_le); [|apply sort_by_sorted|apply zip_sorted|done].
  - intros [i t] [j u] Ht%(elem_of_Permutation_proper _ _ _ Hp) Hu ? ?.
    unfold index_le in *. simpl in *. assert (i = j) as -> by lia. rewrite <- Hseq in Ht, Hu.
    unfold indexed in Ht, Hu. apply list_elem_of_omap in Ht as (a & _ & Ha), Hu as (b & _ & Hb).
    destruct (texts !! a) as [x|] eqn:Hx, (texts !! b) as [y|] eqn:Hy; simplify_eq/=. congruence.
  - intros a b. unfold by_index, index_le. apply Nat.leb_le.
  - intros a b. unfold by_index, index_le. rewrite Nat.leb_gt. lia.
  - intros a b c. unfold index_le. lia.
Qed.

Lemma omap_fmap_ext {A B C} (f : A → option C) (h : A → option B) (g : B → C) (l : list A) :
  (∀ x, f x = g <$> h x) → omap f l = g <$> omap h l.
Proof.
  intros Hfh. induction l as [|x l IH]; [done|]. cbn. rewrite Hfh. destruct (h x); cbn; [by f_equal|exact IH].
Qed.
Lemma Forall_choice {A B} (P : A → B → Prop) (l : list A) : Forall (λ x, ∃ y, P x y) l → ∃ k, Forall2 P l k.
Proof.
  induction 1 as [|x l [y Hy] _ [k IH]]; [by exists []|]. exists (y :: k). by constructor.
Qed.
Lemma drain_ok l acc : drain ((λ p : nat * string, (p.1, Ok p.2)) <$> l) acc = (acc ++ l, None).
Proof.
  revert acc. induction l as [|[i t] l IH]; intros acc; simpl; [by rewrite app_nil_r|]. by rewrite IH, <- app_assoc.
Qed.
Lemma drain_none l acc : (drain l acc).2 = None → Forall (λ p, ∃ t, p.2 = Ok t) l.
Proof.
  revert acc. induction l as [|[i [t|e]] l IH]; intros acc; simpl; [constructor| |done].
  intros Hd. constructor; [by exists t|]. by eapply IH.
Qed.

(** What is extracted does not depend on the order in which fetches complete: of
    a text with at most eight URLs, when no fetch fails the extracted texts are
    those of the URLs in the order of the text; and nothing is reported as blocked
    only when no fetch fails. *)
Theorem extraction_in_order (url_parse : string → option Url) (resolve : string → Z → Result (list SocketAddr) string)
    (find_iter : string → list string) (fetch : PinnedTarget → Result string string)
    (cfg : ContentExtractorConfig) (dev : bool) (order : list nat) (text : string)
    (Hfew : length (find_iter text) ≤ MAX_URLS) (Hfetch : fetch_urls cfg = true)
    (Horder : order ≡ₚ seq 0 (length (find_iter text))) :
  let r := extract_content_with url_parse resolve find_iter fetch cfg dev order false text in
  let succeeds url t := (fetch_url url_parse resolve fetch cfg dev url).2 = Ok t in
  (∀ texts, Forall2 succeeds (find_iter text) texts → r = mkExtraction (find_iter text) texts None)
  ∧ (blocked_reason r = None → ∃ texts, Forall2 succeeds (find_iter text) texts).
Proof.
  intros r succeeds. set (us := find_iter text) in *.
  set (completed := omap (λ i, url ← us !! i; Some (i, (fetch_url url_parse resolve fetch cfg dev url).2)) order).
  assert (Hr : r = if bool_decide (us = []) then mkExtraction us [] None
    else let '(extracted, reason) := drain completed [] in mkExtraction us (sort_by by_index extracted).*2 reason).
  { unfold r, extract_content_with, extract_bounded_urls. fold us. rewrite take_ge by done.
    rewrite bool_decide_false by lia. rewrite Hfetch. simpl. by destruct (bool_decide (us = [])). }
  split.
  - intros texts Hall. rewrite Hr. case_bool_decide as Hnil; [rewrite Hnil in Hall; inversion Hall; by rewrite Hnil|].
    assert (completed = (λ p : nat * string, (p.1, Ok p.2)) <$> indexed texts order) as ->.
    { apply omap_fmap_ext. intros i. destruct (us !! i) as [u|] eqn:Hu; simpl.
      - destruct (Forall2_lookup_l _ _ _ _ _ Hall Hu) as (t & Ht & Hs). rewrite Ht. simpl. by rewrite Hs.
      - rewrite (proj2 (lookup_ge_None texts i)); [done|]. apply lookup_ge_None in Hu. by rewrite <- (Forall2_length _ _ _ Hall). }
    rewrite drain_ok. cbn [app]. f_equal. apply sort_indexed. by rewrite <- (Forall2_length _ _ _ Hall).
  - rewrite Hr. case_bool_decide as Hnil; [intros _; exists []; by rewrite Hnil|].
    destruct (drain completed []) as [extracted reason] eqn:Hd. simpl. intros ->.
    assert (Hok : Forall (λ p, ∃ t, p.2 = Ok t) completed) by (apply (drain_none completed []); by rewrite Hd).
    apply Forall_choice, Forall_lookup. intros i u Hu. rewrite Forall_forall in Hok.
    apply (Hok (i, (fetch_url url_parse resolve fetch cfg dev u).2)). apply list_elem_of_omap. exists i.
    rewrite Hu. split; [|done]. rewrite Horder. apply elem_of_seq. apply lookup_lt_Some in Hu. lia.
Qed.

(** ** A cut inside a character *)

Lemma utf8_scan_take n l : utf8_ok l = true → ∃ m e, utf8_scan (take n l) = (m, e) ∧ e ≠ Invalid
  ∧ utf8_ok (take m l) = true ∧ m ≤ n `min` length l < m + 4 ∧ (e = Whole → m = n `min` length l).
Proof.
  revert n. induction l as [l IH] using (induction_ltof1 _ (@length ascii)); unfold ltof in IH. intros n Hok.
  destruct l as [|a l]; [exists 0, Whole; rewrite take_nil; simpl; split_and!; [done..|lia|lia|lia]|].
  destruct n as [|n]; [exists 0, Whole; simpl; split_and!; [done..|lia|lia|done]|].
  cbn [take utf8_scan] in *. cbn [utf8_ok] in Hok.
  assert (Hcut : ∃ m e, (0, Truncated) = (m, e) ∧ e ≠ Invalid ∧ utf8_ok (take m (a :: l)) = true
    ∧ (S n `min` length (a :: l) < 4 → m ≤ S n `min` length (a :: l) < m + 4) ∧ (e = Whole → m = S n `min` length (a :: l)))
    by (exists 0, Truncated; split_and!; [done..|lia|done]).
  assert (Hgo : ∀ w k (rest : list ascii), S n = w + k → length (a :: l) = w + length rest → 0 < w →
    (∀ m, utf8_ok (take m rest) = true → utf8_ok (take (w + m) (a :: l)) = true) → utf8_ok rest = true →
    ∃ m e, advance w (utf8_scan (take k rest)) = (m, e) ∧ e ≠ Invalid ∧ utf8_ok (take m (a :: l)) = true
    ∧ m ≤ S n `min` length (a :: l) < m + 4 ∧ (e = Whole → m = S n `min` length (a :: l))).
  { intros w k rest Hw Hlen Hpos Hext Hrest. destruct (IH rest ltac:(simpl in *; lia) k Hrest) as (m & e & -> & He & Hm & Hb & Hwh).
    exists (w + m), e. rewrite Hlen. split_and!; [done|done|by apply Hext|lia|lia|]. intros Hwhole. specialize (Hwh Hwhole). lia. }
  destruct (seq_width (code a)) as [|[|[|[|[|?]]]]] eqn:Hw; try done.
  - apply (Hgo 1 n l); [lia|done|lia| |done]. intros m Hm. simpl. by rewrite Hw.
  - destruct l as [|b l]; [done|]. apply andb_true_iff in Hok as [Hb Hok]. destruct n as [|n].
    { destruct Hcut as (m & e & ? & ? & ? & Hbound & ?). exists m, e. split_and!; try done; apply Hbound; simpl; lia. }
    cbn [take]. rewrite Hb. apply (Hgo 2 n l); [lia|done|lia| |done]. intros m Hm. simpl. by rewrite Hw, Hb.
  - destruct l as [|b [|c l]]; [done|done|]. apply andb_true_iff in Hok as [[Hb Hc]%andb_true_iff Hok].
    destruct n as [|[|n]]; cbn [take]; rewrite ?Hb; cbn [negb];
      [destruct Hcut as (m & e & ? & ? & ? & Hbound & ?); exists m, e; split_and!; try done; apply Hbound; simpl; lia..|].
    rewrite Hc. apply (Hgo 3 n l); [lia|done|lia| |done]. intros m Hm. simpl. by rewrite Hw, Hb, Hc.
  - destruct l as [|b [|c [|d l]]]; [done|done|done|].
    apply andb_true_iff in Hok as [[[Hb Hc]%andb_true_iff Hd]%andb_true_iff Hok].
    destruct n as [|[|[|n]]]; cbn [take]; rewrite ?Hb; cbn [negb]; rewrite ?Hc; cbn [negb];
      [destruct Hcut as (m & e & ? & ? & ? & Hbound & ?); exists m, e; split_and!; try done; apply Hbound; simpl; lia..|].
    rewrite Hd. apply (Hgo 4 n l); [lia|done|lia| |done]. intros m Hm. simpl. by rewrite Hw, Hb, Hc, Hd.
Qed.

(** A page cut at the byte limit is decoded: of a valid UTF-8 page the first [n]
    bytes decode, to a prefix of the page that ends at most three bytes earlier. *)
Theorem cut_page_decodes (page : chunk) (n : nat) (Hpage : utf8_ok page = true) :
  ∃ m, decode_utf8_prefix (take n page) = Ok (string_of_list_ascii (take m page))
    ∧ m ≤ n `min` length page < m + 4.
Proof.
  destruct (utf8_scan_take n page Hpage) as (m & e & Hscan & He & Hm & Hb & Hw).
  exists m. split; [|done]. unfold decode_utf8_prefix. rewrite Hscan. destruct e; [|unfold from_utf8|done].
  - rewrite (Hw eq_refl). do 2 f_equal. destruct (Nat.le_ge_cases n (length page)).
    + by rewrite Nat.min_l.
    + rewrite Nat.min_r by done. by rewrite !take_ge.
  - rewrite take_take, Nat.min_l by lia. by rewrite Hm.
Qed.

(** ** What the policy does with it *)

(** A configuration that does not deserialize fails open: whatever was refused,
    the extractor allows the request, as the default action is to warn. *)
Theorem unreadable_extractor_allows (r : ExtractionResult) : (content_extractor_verdict None r).1 = Allow.
Proof. unfold content_extractor_verdict. simpl. by rewrite andb_false_r. Qed.

(** An IPv6 loopback host is not one: the host of a URL has an IPv6 address in
    brackets, which is not an address to the parser, so the exception for
    development never applies to it. *)
Theorem ipv6_loopback_not_exempt (address : string) (url : Url) (Hhost : host_str url = Some (String "[" address)) :
  is_exact_loopback_host url = false.
Proof. unfold is_exact_loopback_host. rewrite Hhost. reflexivity. Qed.

(** ** Instances *)
Module DemoFetch.
Definition cfg : ContentExtractorConfig := mkExtractor ["docs.example"]%string 2000 65536 true ActionBlock.
Definition url : Url := mkUrl "https" EmptyString None (Some "docs.example"%string) (Some 443%Z).
Definition parse (_ : string) : option Url := Some url.
Definition public : SocketAddr := (V4 [93; 184; 216; 34]%Z, 443%Z).
Definition resolve (_ : string) (_ : Z) : Result (list SocketAddr) string := Ok [public; public].
Definition fetch (_ : PinnedTarget) : Result string string := Ok "page"%string.
Definition found (_ : string) : list string := ["https://docs.example/a"; "https://docs.example/b"]%string.
Definition target : PinnedTarget := mkPinned url "docs.example" [public].
Definition send (_ : PinnedTarget) : Result Response bool := Ok (mkResponse 200 None [Ok (replicate 5 "a"%char)]).
Definition euro : chunk := ["226"; "130"; "172"; "a"]%char.
End DemoFetch.

Lemma ip_is_private_exact_witness :
  ip_is_private (V4 [10; 1; 2; 3]%Z) = true
  ∧ ∃ r, r ∈ RESTRICTED_IPV4_RANGES ∧ in_interval 8 32 [10; 1; 2; 3]%Z r.1 r.2.
Proof.
  split; [reflexivity|]. apply (ip_is_private_exact (V4 [10; 1; 2; 3]%Z)); [|reflexivity].
  split; [reflexivity|]. repeat constructor; vm_compute; discriminate.
Defined.
Lemma fetched_targets_allowed_witness : target_allowed DemoFetch.cfg false DemoFetch.target.
Proof.
  apply (fetched_targets_allowed DemoFetch.parse DemoFetch.resolve DemoFetch.fetch DemoFetch.cfg false "x").
  vm_compute. reflexivity.
Defined.
Lemma aggregate_bytes_bounded_witness :
  let '(aggregate, fs) := fold_left (system_step (λ s, s)) [(0, false); (1, false); (0, true); (1, false); (0, false); (0, false)]
    (0%Z, open_fetch true DemoFetch.send (bounded_body_limit 3) <$> [DemoFetch.target; DemoFetch.target]) in
  aggregate = kept_bytes fs ∧ (kept_bytes fs ≤ MAX_AGGREGATE_BYTES)%Z
  ∧ (∀ f, f ∈ fs → Z.of_nat (length (f_body f)) ≤ Z.min 3 MAX_BODY_BYTES)%Z.
Proof. apply (aggregate_bytes_bounded true DemoFetch.send (λ s, s) 3). lia. Defined.
Lemma extraction_in_order_witness :
  extract_content_with DemoFetch.parse DemoFetch.resolve DemoFetch.found DemoFetch.fetch DemoFetch.cfg false [1; 0] false "x"
  = mkExtraction (DemoFetch.found "x") ["page"; "page"]%string None.
Proof.
  apply (extraction_in_order DemoFetch.parse DemoFetch.resolve DemoFetch.found DemoFetch.fetch DemoFetch.cfg false [1; 0] "x").
  - vm_compute. lia.
  - reflexivity.
  - apply Permutation_swap.
  - repeat constructor.
Defined.
Lemma cut_page_decodes_witness :
  decode_utf8_prefix (take 2 DemoFetch.euro) = Ok EmptyString
  ∧ ∃ m, decode_utf8_prefix (take 2 DemoFetch.euro) = Ok (string_of_list_ascii (take m DemoFetch.euro)) ∧ m ≤ 2 < m + 4.
Proof. split; [reflexivity|]. apply (cut_page_decodes DemoFetch.euro 2). reflexivity. Defined.
Lemma ipv6_loopback_not_exempt_witness :
  is_exact_loopback_host (mkUrl "http" EmptyString None (Some "[::1]"%string) (Some 80%Z)) = false.
Proof. apply (ipv6_loopback_not_exempt "::1]"). reflexivity. Defined.
