(* ===== verification/UsageAuthorization.v ===== *)
(** * UsageAuthorization: the policy gate of usage authorizations

    (src/src/gateway/usage_authorization.rs, the policy cache of
    usage_authorization_pipeline.rs, and the evaluate gate and the evaluation of
    routing candidates of request_pipeline/messages.rs.)

    The control plane answers an evaluate call with a document that allows or
    denies a request; the gateway caches documents by the version and the digest
    of their policy, finds them again by the context of the request, and lets a
    request pass only on a fresh document that allows it.  The cache is an
    explicit state; its two mutexes make two critical sections of every lookup and
    insertion.  Instants are an argument; [chrono], [uuid], [url], the derived
    deserialisers and the first key of a [HashMap] are the interface [UaLib].
    Logging and the headers that echo the request are left out. *)

From Stdlib Require Import ZArith Ascii String.
From stdpp Require Import base gmap strings list.
From S2P Require Import Prelude Text Lww Policy ToolCalls.

#[local] Arguments String.append : simpl nomatch.

(** ** The wire contract *)

Inductive UsageAuthorizationRequestFamily :=
  Chat | Completions | Responses | Messages | Embeddings | Audio | Moderation | Websocket.
#[export] Instance family_eq_dec : EqDecision UsageAuthorizationRequestFamily.
Proof. solve_decision. Defined.

Definition family_str (f : UsageAuthorizationRequestFamily) : string :=
  match f with
  | Chat => "chat" | Completions => "completions" | Responses => "responses"
  | Messages => "messages" | Embeddings => "embeddings" | Audio => "audio"
  | Moderation => "moderation" | Websocket => "websocket"
  end.
Definition family_of (s : string) : option UsageAuthorizationRequestFamily :=
  list_find (λ f, family_str f = s)
    [Chat; Completions; Responses; Messages; Embeddings; Audio; Moderation; Websocket] ≫= λ p, Some p.2.
Lemma family_of_str f : family_of (family_str f) = Some f.
Proof. by destruct f. Qed.
#[export] Instance family_countable : Countable UsageAuthorizationRequestFamily :=
  inj_countable family_str family_of family_of_str.

Inductive UsageAuthorizationState := Authorized | Dispatched | StateCompleted | StateReleased.

Record UsageAuthorizationUsage := mkUsage {
  input_tokens : Z;
  max_output_tokens : Z;
  request_units : Z;
  pricing_snapshot_id : option string;
  asserted_estimate_usd : option string;
}.

Record UsageAuthorizationAccessLimits := mkLimits {
  requests_per_minute : option Z;
  tokens_per_minute : option Z;
  max_context_tokens : option Z;
}.

Inductive UsageAuthorizationAccessDecision :=
| Unrestricted
| Restricted (allowed : bool) (matched_policy_ids : list string)
    (denial_reason : option string) (limits : UsageAuthorizationAccessLimits).

Record UsageAuthorizationBudgetEntry := mkBudget {
  b_kind : string; source_kind : string; source_policy_id : string;
  scope_type : string; scope_id : option string; currency : string;
  b_limit : string; spent : string; outstanding_reservations : string; remaining : string;
  timezone : string; week_starts_on : string; month_anchor_day : Z;
  starts_at : string; ends_at : string;
}.

Record UsageAuthorizationDocumentBinding := mkDocumentBinding {
  d_organization_id : string; d_gateway_id : string; d_subject_token_id : string;
  d_project_id : option string; d_configuration_id : option string; d_agent_id : option string;
  d_provider : string; d_model : string;
  d_request_family : UsageAuthorizationRequestFamily; d_usage_category : string;
}.

Record UsageAuthorizationDocument := mkDocument {
  schema_version : string;
  policy_version : string;
  policy_sha256 : string;
  document_sha256 : string;
  issued_at : string;
  expires_at : string;
  d_binding : UsageAuthorizationDocumentBinding;
  access : UsageAuthorizationAccessDecision;
  budgets : list UsageAuthorizationBudgetEntry;
}.

Record UsageAuthorizationEvaluateRequest := mkEvaluate {
  e_subject_token_id : string;
  e_project_id : option string; e_configuration_id : option string; e_agent_id : option string;
  e_provider : string; e_model : string;
  e_request_family : UsageAuthorizationRequestFamily;
  e_usage : UsageAuthorizationUsage;
}.

(** [is_allowed] and [denial_reason]. *)
Definition is_allowed (d : UsageAuthorizationDocument) : bool :=
  match access d with
  | Unrestricted => true
  | Restricted allowed _ _ _ => allowed
  end.
Definition denial_reason_of (d : UsageAuthorizationDocument) : option string :=
  match access d with
  | Restricted false _ denial_reason _ => denial_reason
  | _ => None
  end.

(** ** Errors of the control plane *)

Inductive UsageAuthorizationErrorCode :=
| AccessDenied | AuthorizationNotFound | BudgetExceeded | CompletionConflict
| IdempotencyKeyForbidden | IdempotencyKeyRequired | PolicyDrift | RateLimitExceeded
| Other (code : string).

Definition known_codes : list (string * UsageAuthorizationErrorCode) :=
  [("usage_authorization.access_denied", AccessDenied);
   ("usage_authorization.authorization_not_found", AuthorizationNotFound);
   ("usage_authorization.budget_exceeded", BudgetExceeded);
   ("usage_authorization.completion_conflict", CompletionConflict);
   ("usage_authorization.idempotency_key_forbidden", IdempotencyKeyForbidden);
   ("usage_authorization.idempotency_key_required", IdempotencyKeyRequired);
   ("usage_authorization.policy_drift", PolicyDrift);
   ("usage_authorization.rate_limit_exceeded", RateLimitExceeded)]%string.
(** [from_wire] and [as_str]. *)
Definition from_wire (code : string) : UsageAuthorizationErrorCode :=
  match list_find (λ p, p.1 = trim code) known_codes with
  | Some (_, (_, c)) => c
  | None => Other (trim code)
  end.
Definition code_str (c : UsageAuthorizationErrorCode) : string :=
  match c with
  | AccessDenied => "usage_authorization.access_denied"
  | AuthorizationNotFound => "usage_authorization.authorization_not_found"
  | BudgetExceeded => "usage_authorization.budget_exceeded"
  | CompletionConflict => "usage_authorization.completion_conflict"
  | IdempotencyKeyForbidden => "usage_authorization.idempotency_key_forbidden"
  | IdempotencyKeyRequired => "usage_authorization.idempotency_key_required"
  | PolicyDrift => "usage_authorization.policy_drift"
  | RateLimitExceeded => "usage_authorization.rate_limit_exceeded"
  | Other code => code
  end.

Inductive UsageAuthorizationError :=
| InvalidEndpoint (text : string)
| Transport (text : string)
| InvalidResponse (text : string)
| Rejected (status : Z) (code : UsageAuthorizationErrorCode) (message : string).

Definition error_code (e : UsageAuthorizationError) : option UsageAuthorizationErrorCode :=
  match e with Rejected _ code _ => Some code | _ => None end.

(** What a request to the control plane comes to: a failure of the transport,
    which may be a timeout or a refused connection, or a status and a body. *)
Inductive Answer :=
| Failed (timeout_or_connect : bool) (text : string)
| Answered (status : Z) (body : string).

Definition is_success (status : Z) : bool := ((200 <=? status) && (status <=? 299))%Z.

(** ** The policy cache *)

Record UsageAuthorizationPolicyCacheKey := mkCacheKey {
  k_organization_id : string; k_gateway_id : string; k_subject_token_id : string;
  k_project_id : option string; k_configuration_id : option string; k_agent_id : option string;
  k_provider : string; k_model : string; k_request_family : UsageAuthorizationRequestFamily;
}.
#[export] Instance cache_key_eq_dec : EqDecision UsageAuthorizationPolicyCacheKey.
Proof. solve_decision. Defined.
#[export] Instance cache_key_countable : Countable UsageAuthorizationPolicyCacheKey :=
  inj_countable'
    (λ k, ((k_organization_id k, k_gateway_id k, k_subject_token_id k),
           (k_project_id k, k_configuration_id k, k_agent_id k),
           (k_provider k, k_model k, k_request_family k)))
    (λ '((a, b, c), (d, e, f), (g, h, i)), mkCacheKey a b c d e f g h i)
    ltac:(by intros []).

(** [UsageAuthorizationPolicyDigestKey]: the version and the digest. *)
Definition UsageAuthorizationPolicyDigestKey : Type := string * string.
Definition digest_of (d : UsageAuthorizationDocument) : UsageAuthorizationPolicyDigestKey :=
  (policy_version d, policy_sha256 d).

Record CachedPolicyDocument := mkCached {
  cached_document : UsageAuthorizationDocument;
  cached_expires_at : Z;
}.

Record UsageAuthorizationPolicyCache := mkCache {
  by_digest : gmap UsageAuthorizationPolicyDigestKey CachedPolicyDocument;
  tip_by_context : gmap UsageAuthorizationPolicyCacheKey UsageAuthorizationPolicyDigestKey;
  capacity : nat;
}.
Definition cache_new (capacity : nat) : UsageAuthorizationPolicyCache := mkCache ∅ ∅ (capacity `max` 1).

(** Code outside the repository: the dates of [chrono] (as an instant), the
    canonical form of [uuid], the [url] library, the deserialiser of documents, and
    the first key that a [HashMap] yields. *)
Class UaLib := {
  parse_rfc3339 : string → option Z;
  parse_uuid : string → option string;
  Url : Type;
  url_parse : string → Result Url string;
  url_join : Url → string → Result Url string;
  document_of : string → Result UsageAuthorizationDocument string;
  first_key : gmap UsageAuthorizationPolicyDigestKey CachedPolicyDocument →
              option UsageAuthorizationPolicyDigestKey;
  first_key_some : ∀ m k, first_key m = Some k → is_Some (m !! k);
  first_key_none : ∀ m, first_key m = None → m = ∅;
}.

Section gate.
Context `{SerdeJson} `{UaLib}.
Abbreviation value := (Value Number).
Variable from_str : string → option value.

(** [policy_version] and [policy_sha256] are not blank. *)
Definition has_identity (d : UsageAuthorizationDocument) : bool :=
  negb (is_empty (trim (policy_version d)) || is_empty (trim (policy_sha256 d))).
Definition is_fresh (d : UsageAuthorizationDocument) (now : Z) : bool :=
  has_identity d
  && match parse_rfc3339 (expires_at d) with
     | Some expires => (now <? expires)%Z
     | None => false
     end.

Definition POLICY_UNAVAILABLE : string := "usage_authorization_policy_unavailable".
Definition POLICY_STALE : string := "usage_authorization_policy_stale".
(** [require_fresh_usage_authorization_document]. *)
Definition require_fresh (d : UsageAuthorizationDocument) (now : Z) : Result unit string :=
  if negb (has_identity d) then Err POLICY_UNAVAILABLE
  else if negb (is_fresh d now) then Err POLICY_STALE
  else Ok tt.

(** The two critical sections of a lookup: the tip of the context, then the
    document of the digest, which an expired document leaves. *)
Definition tip (key : UsageAuthorizationPolicyCacheKey) (c : UsageAuthorizationPolicyCache) :
    option UsageAuthorizationPolicyDigestKey := tip_by_context c !! key.
Definition get_by_digest (key : UsageAuthorizationPolicyDigestKey) (now : Z)
    (c : UsageAuthorizationPolicyCache) :
    UsageAuthorizationPolicyCache * option UsageAuthorizationDocument :=
  match by_digest c !! key with
  | Some entry =>
      if (now <? cached_expires_at entry)%Z && is_fresh (cached_document entry) now
      then (c, Some (cached_document entry))
      else (mkCache (delete key (by_digest c)) (tip_by_context c) (capacity c), None)
  | None => (c, None)
  end.
Definition get (key : UsageAuthorizationPolicyCacheKey) (now : Z) (c : UsageAuthorizationPolicyCache) :
    UsageAuthorizationPolicyCache * option UsageAuthorizationDocument :=
  match tip key c with
  | Some digest => get_by_digest digest now c
  | None => (c, None)
  end.

(** The two critical sections of an insertion: the document under its digest,
    with an eviction when the cache is full, then the tip of the context. *)
Definition insert_entry (d : UsageAuthorizationDocument) (now : Z) (c : UsageAuthorizationPolicyCache) :
    UsageAuthorizationPolicyCache :=
  let digest := digest_of d in
  let expires := default now (parse_rfc3339 (expires_at d)) in
  let entries := by_digest c in
  let entries :=
    if bool_decide (capacity c ≤ size entries) && negb (bool_decide (is_Some (entries !! digest)))
    then
      let live := filter (λ '(_, e), (now < cached_expires_at e)%Z) entries in
      if bool_decide (capacity c ≤ size live) then
        match first_key live with
        | Some evict => delete evict live
        | None => live
        end
      else live
    else entries in
  mkCache (<[digest := mkCached d expires]> entries) (tip_by_context c) (capacity c).
Definition insert_tip (context : UsageAuthorizationPolicyCacheKey)
    (digest : UsageAuthorizationPolicyDigestKey) (c : UsageAuthorizationPolicyCache) :
    UsageAuthorizationPolicyCache :=
  mkCache (by_digest c) (<[context := digest]> (tip_by_context c)) (capacity c).
Definition cache_insert (context : UsageAuthorizationPolicyCacheKey) (d : UsageAuthorizationDocument)
    (now : Z) (c : UsageAuthorizationPolicyCache) : UsageAuthorizationPolicyCache :=
  if negb (has_identity d) then c
  else insert_tip context (digest_of d) (insert_entry d now c).

(** ** Calls of the control plane *)

(** [rejected_error]. *)
Definition rejected_error (status : Z) (body : string) : UsageAuthorizationError :=
  let error := get_in (from_str body) "error" in
  let code := default "usage_authorization.unknown_error"%string (get_in error "code" ≫= json_as_str) in
  let message := default body (get_in error "message" ≫= json_as_str) in
  Rejected status (from_wire code) message.

Definition slash : ascii := "/".
(** [trim_start_matches('/')] and [trim_end_matches('/')]. *)
Fixpoint trim_start_slashes (s : string) : string :=
  match s with
  | String a s' => if Ascii.eqb a slash then trim_start_slashes s' else s
  | EmptyString => EmptyString
  end.
Fixpoint trim_end_slashes (s : string) : string :=
  match s with
  | EmptyString => EmptyString
  | String a s' =>
      let rest := trim_end_slashes s' in
      if is_empty rest && Ascii.eqb a slash then EmptyString else String a rest
  end.
(** [usage_authorization_url]. *)
Definition usage_authorization_url (api_base_url path : string) : Result Url UsageAuthorizationError :=
  let base := trim api_base_url in
  if is_empty base then Err (InvalidEndpoint "api_base_url must not be empty")
  else
    match url_parse (trim_end_slashes base ++ "/") with
    | Err error => Err (InvalidEndpoint ("invalid api_base_url: " ++ error))
    | Ok base =>
        match url_join base (trim_start_slashes path) with
        | Err error => Err (InvalidEndpoint ("invalid control-plane path: " ++ error))
        | Ok url => Ok url
        end
    end.

Definition EVALUATE_PATH : string := "v1/gateway/usage-authorizations/evaluate".
(** [evaluate_usage_authorization]: the requests sent, and the result. *)
Definition evaluate_usage_authorization (ask : Url → UsageAuthorizationEvaluateRequest → Answer)
    (api_base_url : string) (request : UsageAuthorizationEvaluateRequest) :
    list UsageAuthorizationEvaluateRequest * Result UsageAuthorizationDocument UsageAuthorizationError :=
  match usage_authorization_url api_base_url EVALUATE_PATH with
  | Err error => ([], Err error)
  | Ok url =>
      ([request],
       match ask url request with
       | Failed _ error => Err (Transport ("evaluate request failed: " ++ error))
       | Answered status body =>
           if negb (is_success status) then Err (rejected_error status body)
           else match document_of body with
                | Err error => Err (InvalidResponse ("evaluate response invalid: " ++ error))
                | Ok d => Ok d
                end
       end)
  end.

(** ** The evaluate gate *)

(** [normalize_binding_uuid]. *)
Definition normalize_binding_uuid (v : option string) : option string :=
  match trim <$> v with
  | Some raw => if is_empty raw then None else parse_uuid raw
  | None => None
  end.

Record RequestFinopsContext := mkFinops { org_id : option string; key_id : option string }.

(** The sink of events, of which the gate uses the machine client, which may
    fail to be built, and the URL of the control plane. *)
Record EventSink := mkSink { machine_client : bool; base_url : string }.

(** What the gate reads of [ActiveGatewayStateView]. *)
Record StateView := mkView {
  connected_mode : bool;
  event_sink : option EventSink;
  request_finops : option RequestFinopsContext;
  view_gateway_id : option string;
  view_configuration_id : option string;
  current_agent_id : option string;
}.

(** [UsagePricingContext], with the cost already in its canonical text. *)
Record UsagePricing := mkPricing {
  up_provider : string; up_model : string; canonical_estimate : string;
}.

(** Who asks: the machine client is there, the organisation is named and the
    token has a UUID. *)
Definition resolved_subject (st : StateView) : option (EventSink * string * string) :=
  if negb (connected_mode st) then None
  else
    sink ← event_sink st;
    if negb (machine_client sink) then None
    else
      finops ← request_finops st;
      org ← trim <$> org_id finops;
      if is_empty org then None
      else
        subject ← normalize_binding_uuid (key_id finops);
        Some (sink, org, subject).

(** The key of the cache and the evaluate request of a provider and a model. *)
Definition context_of (st : StateView) (org subject : string) (family : UsageAuthorizationRequestFamily)
    (prompt completion : Z) (p : UsagePricing) :
    option (UsageAuthorizationPolicyCacheKey * UsageAuthorizationEvaluateRequest) :=
  if is_empty (trim (up_provider p)) || is_empty (trim (up_model p)) then None
  else
    let project := normalize_binding_uuid None in
    let configuration := normalize_binding_uuid (view_configuration_id st) in
    let agent := normalize_binding_uuid (current_agent_id st) in
    Some
      (mkCacheKey org (default EmptyString (view_gateway_id st)) subject project configuration agent
         (up_provider p) (up_model p) family,
       mkEvaluate subject project configuration agent (up_provider p) (up_model p) family
         (mkUsage prompt completion 1 None (Some (canonical_estimate p)))).

(** [build_request_error_response]: the status and the error of the body. *)
Record ErrorResponse := mkResponse {
  er_status : Z; er_message : string; er_type : string; er_code : string;
}.
Definition policy_unavailable (code : string) : ErrorResponse :=
  mkResponse 503 "Usage-authorization policy is temporarily unavailable" "service_unavailable" code.
Definition denied_response (d : UsageAuthorizationDocument) : ErrorResponse :=
  mkResponse 403
    (default "Request denied by usage-authorization policy"%string (denial_reason_of d))
    "access_denied" "usage_authorization_denied".

Abbreviation asker := (Url → UsageAuthorizationEvaluateRequest → Answer).

(** The document of a context: the cached one, or the one that the control plane
    answers, which is then cached. *)
Definition document_for (ask : asker) (sink : EventSink) (key : UsageAuthorizationPolicyCacheKey)
    (request : UsageAuthorizationEvaluateRequest) (now : Z) (c : UsageAuthorizationPolicyCache) :
    UsageAuthorizationPolicyCache * list UsageAuthorizationEvaluateRequest
    * Result UsageAuthorizationDocument UsageAuthorizationError :=
  match get key now c with
  | (c, Some d) => (c, [], Ok d)
  | (c, None) =>
      match evaluate_usage_authorization ask (base_url sink) request with
      | (sent, Ok d) => (cache_insert key d now c, sent, Ok d)
      | (sent, Err error) => (c, sent, Err error)
      end
  end.

(** What the gate makes of a document. *)
Definition judge (d : UsageAuthorizationDocument) (now : Z) :
    Result (option UsageAuthorizationDocument) ErrorResponse :=
  match require_fresh d now with
  | Err code =>
      Err (policy_unavailable (if String.eqb code POLICY_STALE then POLICY_STALE else POLICY_UNAVAILABLE))
  | Ok _ => if negb (is_allowed d) then Err (denied_response d) else Ok (Some d)
  end.

(** [enforce_usage_authorization_evaluate_gate]: the cache, the requests sent and
    the result; [None] when the gate does not apply. *)
Definition enforce_gate (usage_pricing : StateView → string → Z → Z → UsagePricing) (ask : asker)
    (st : StateView) (family : UsageAuthorizationRequestFamily) (requested_model : string)
    (prompt completion now : Z) (c : UsageAuthorizationPolicyCache) :
    UsageAuthorizationPolicyCache * list UsageAuthorizationEvaluateRequest
    * Result (option UsageAuthorizationDocument) ErrorResponse :=
  match resolved_subject st with
  | None => (c, [], Ok None)
  | Some (sink, org, subject) =>
      match context_of st org subject family prompt completion
              (usage_pricing st requested_model prompt completion) with
      | None => (c, [], Ok None)
      | Some (key, request) =>
          match document_for ask sink key request now c with
          | (c, sent, Err _) => (c, sent, Err (policy_unavailable "usage_authorization_policy_unavailable"))
          | (c, sent, Ok d) => (c, sent, judge d now)
          end
      end
  end.

(** ** The candidates of automatic routing *)

(** [compute_ua_denied_target_ids]: one round of the loop, and the loop.  A target
    is an identifier with what is resolved of it for the requested model. *)
Definition denied_step (ask : asker) (st : StateView) (sink : EventSink) (org subject : string)
    (family : UsageAuthorizationRequestFamily) (prompt completion now : Z)
    (acc : UsageAuthorizationPolicyCache * gset string) (target : string * UsagePricing) :
    UsageAuthorizationPolicyCache * gset string :=
  let '(c, denied) := acc in
  match context_of st org subject family prompt completion target.2 with
  | None => (c, denied)
  | Some (key, request) =>
      match document_for ask sink key request now c with
      | (c, _, Err _) => (c, denied)
      | (c, _, Ok d) =>
          match require_fresh d now with
          | Err _ => (c, denied)
          | Ok _ => (c, if negb (is_allowed d) then {[target.1]} ∪ denied else denied)
          end
      end
  end.
Definition compute_ua_denied_target_ids (ask : asker) (st : StateView)
    (family : UsageAuthorizationRequestFamily) (targets : option (list (string * UsagePricing)))
    (prompt completion now : Z) (c : UsageAuthorizationPolicyCache) :
    UsageAuthorizationPolicyCache * gset string :=
  match resolved_subject st with
  | None => (c, ∅)
  | Some (sink, org, subject) =>
      match targets with
      | None => (c, ∅)
      | Some targets =>
          fold_left (denied_step ask st sink org subject family prompt completion now) targets (c, ∅)
      end
  end.

(** ** The cache *)

(** The critical sections of lookups and insertions, which the mutexes order but
    threads interleave. *)
Inductive CacheSection :=
| EntrySection (d : UsageAuthorizationDocument) (now : Z)
| TipSection (context : UsageAuthorizationPolicyCacheKey) (digest : UsageAuthorizationPolicyDigestKey)
| ReadSection (digest : UsageAuthorizationPolicyDigestKey) (now : Z).
Definition cache_section (c : UsageAuthorizationPolicyCache) (s : CacheSection) :
    UsageAuthorizationPolicyCache :=
  match s with
  | EntrySection d now => if negb (has_identity d) then c else insert_entry d now c
  | TipSection context digest => insert_tip context digest c
  | ReadSection digest now => (get_by_digest digest now c).1
  end.

(** A cached document is under its own digest, with its own expiry, and [P] holds
    of it; the entries are within the capacity. *)
Definition cache_ok (P : UsageAuthorizationDocument → Prop) (c : UsageAuthorizationPolicyCache) : Prop :=
  1 ≤ capacity c ∧ size (by_digest c) ≤ capacity c
  ∧ map_Forall (λ k e, digest_of (cached_document e) = k ∧ has_identity (cached_document e) = true
      ∧ (∀ t, parse_rfc3339 (expires_at (cached_document e)) = Some t → cached_expires_at e = t)
      ∧ P (cached_document e)) (by_digest c).

Lemma cache_ok_weaken P Q c : (∀ d, P d → Q d) → cache_ok P c → cache_ok Q c.
Proof.
  intros HPQ (H1 & H2 & H3). split_and!; [done..|].
  eapply map_Forall_impl; [done|]. naive_solver.
Qed.

Lemma cache_new_ok P n : cache_ok P (cache_new n).
Proof. split_and!; simpl; [lia|rewrite map_size_empty; lia|apply map_Forall_empty]. Qed.

Lemma room_size (c : UsageAuthorizationPolicyCache) m :
  1 ≤ capacity c → size m ≤ capacity c →
  size (if bool_decide (capacity c ≤ size m)
        then match first_key m with Some evict => delete evict m | None => m end
        else m) < capacity c.
Proof.
  intros Hcap Hm. case_bool_decide; [|lia].
  destruct (first_key m) as [k|] eqn:Hk.
  - apply first_key_some in Hk. rewrite map_size_delete_Some by done. lia.
  - apply first_key_none in Hk as ->. rewrite map_size_empty. lia.
Qed.

Lemma size_insert_le {A} (m : gmap UsageAuthorizationPolicyDigestKey A) k a n :
  size m < n → size (<[k := a]> m) ≤ n.
Proof. intros. rewrite map_size_insert. case_match; unfold id; lia. Qed.

Lemma insert_entry_size d now c :
  1 ≤ capacity c → size (by_digest c) ≤ capacity c →
  size (by_digest (insert_entry d now c)) ≤ capacity c.
Proof.
  intros Hcap Hsize. unfold insert_entry. cbn [by_digest].
  destruct (bool_decide (is_Some (by_digest c !! digest_of d))) eqn:Hin.
  - rewrite andb_false_r. bool_to_prop. by rewrite map_size_insert_Some.
  - rewrite andb_true_r. bool_to_prop. case_bool_decide.
    + pose proof (room_size c (filter (λ '(_, e), (now < cached_expires_at e)%Z) (by_digest c)) Hcap) as Hroom.
      assert (size (filter (λ '(_, e), (now < cached_expires_at e)%Z) (by_digest c)) ≤ capacity c)
        as Hf by (etrans; [apply map_subseteq_size, map_filter_subseteq|done]).
      by apply size_insert_le, Hroom.
    + apply size_insert_le. lia.
Qed.

Lemma insert_entry_subset d now c :
  ∃ m, m ⊆ by_digest c
    ∧ by_digest (insert_entry d now c)
      = <[digest_of d := mkCached d (default now (parse_rfc3339 (expires_at d)))]> m.
Proof.
  eexists. split; [|reflexivity]. cbn zeta.
  destruct (bool_decide (capacity c ≤ size (by_digest c)) && _); [|done].
  pose proof (map_filter_subseteq (λ '(_, e), (now < cached_expires_at e)%Z) (by_digest c)) as Hf.
  case_bool_decide; [|done]. destruct (first_key _); [|done].
  etrans; [apply delete_subseteq|done].
Qed.

Lemma insert_entry_ok P d now c :
  has_identity d = true → P d → cache_ok P c → cache_ok P (insert_entry d now c).
Proof.
  intros Hid HP (H1 & H2 & H3). split_and!; [done|exact (insert_entry_size d now c H1 H2)|].
  destruct (insert_entry_subset d now c) as (m & Hm & ->).
  apply map_Forall_insert_2.
  - split_and!; [done..| |done]. simpl. by intros t ->.
  - intros k e Hk. apply H3. by eapply lookup_weaken.
Qed.

Lemma get_by_digest_ok P k now c : cache_ok P c → cache_ok P (get_by_digest k now c).1.
Proof.
  intros Hc. unfold get_by_digest. destruct (by_digest c !! k) as [e|] eqn:Hk; [|done].
  destruct (_ && _); [done|]. destruct Hc as (H1 & H2 & H3). split_and!; simpl; [done| |].
  - rewrite map_size_delete_Some by done. lia.
  - by apply map_Forall_delete.
Qed.

Lemma get_by_digest_fresh P k now c d :
  cache_ok P c → (get_by_digest k now c).2 = Some d →
  digest_of d = k ∧ is_fresh d now = true ∧ P d.
Proof.
  intros (_ & _ & H3). unfold get_by_digest. destruct (by_digest c !! k) as [e|] eqn:Hk; [|done].
  destruct (_ && _) eqn:Hfresh; [|done]. intros [= <-]. bool_to_prop.
  destruct (H3 _ _ Hk) as (? & ? & _ & ?). done.
Qed.

Lemma get_keeps_ok P key now c : cache_ok P c → cache_ok P (get key now c).1.
Proof. unfold get. destruct (tip key c); [apply get_by_digest_ok|done]. Qed.

Lemma cache_insert_ok P key d now c : P d → cache_ok P c → cache_ok P (cache_insert key d now c).
Proof.
  intros HP Hc. unfold cache_insert. destruct (has_identity d) eqn:Hid; simpl; [|done].
  by apply (insert_entry_ok P d now c).
Qed.

(** Every run of critical sections keeps the cache in order, with documents that
    an entry section of the run has stored. *)
Lemma sections_ok n ss :
  cache_ok (λ d, ∃ t, EntrySection d t ∈ ss) (fold_left cache_section ss (cache_new n)).
Proof.
  induction ss as [|s ss IH] using rev_ind; [apply cache_new_ok|].
  rewrite fold_left_app. simpl.
  eapply (cache_ok_weaken _ (λ d, ∃ t, EntrySection d t ∈ ss ++ [s])) in IH;
    [|intros d [t ?]; exists t; apply elem_of_app; by left].
  destruct s as [d now|context digest|digest now]; simpl; [|done|by apply get_by_digest_ok].
  destruct (has_identity d) eqn:Hid; simpl; [|done]. apply insert_entry_ok; [done| |done].
  exists now. apply elem_of_app. right. by apply list_elem_of_singleton.
Qed.

Lemma sections_capacity ss c : capacity (fold_left cache_section ss c) = capacity c.
Proof.
  revert c. induction ss as [|s ss IH]; intros c; simpl; [done|]. rewrite IH.
  destruct s; simpl; [by destruct (negb _)|done|].
  unfold get_by_digest. repeat case_match; done.
Qed.

Lemma lookup_inserted key d now now' c :
  has_identity d = true →
  (get key now' (cache_insert key d now c)).2 = if is_fresh d now' then Some d else None.
Proof.
  intros Hid. unfold cache_insert, get, tip, get_by_digest. rewrite Hid. cbn [negb insert_tip tip_by_context].
  rewrite lookup_insert_eq. destruct (insert_entry_subset d now c) as (m & _ & Hm).
  cbn [insert_tip by_digest]. rewrite Hm, lookup_insert_eq. cbn [cached_document cached_expires_at].
  unfold is_fresh. rewrite Hid. simpl. destruct (parse_rfc3339 (expires_at d)); simpl; [|by rewrite andb_false_r].
  by destruct (_ <? _)%Z.
Qed.

(** The policy cache is bounded, does not slide and serves what was stored: in
    every interleaving of the critical sections of lookups and insertions it holds
    at most its capacity of documents, a lookup at [now] answers only with a
    document that was stored, under its own version and digest, and that expires
    after [now]; and a document just inserted for a context is served to it
    exactly until it expires. *)
Theorem policy_cache_sound (n : nat) (ss : list CacheSection) :
  let c := fold_left cache_section ss (cache_new n) in
  size (by_digest c) ≤ n `max` 1
  ∧ (∀ digest now d, (get_by_digest digest now c).2 = Some d →
       digest_of d = digest ∧ is_fresh d now = true ∧ ∃ t, EntrySection d t ∈ ss)
  ∧ (∀ key d now now', has_identity d = true →
       (get key now' (cache_insert key d now c)).2 = if is_fresh d now' then Some d else None).
Proof.
  intros c. pose proof (sections_ok n ss) as Hc. split_and!.
  - destruct Hc as (_ & Hsize & _). etrans; [exact Hsize|]. by rewrite sections_capacity.
  - intros digest now d. by apply (get_by_digest_fresh _ digest now c d Hc).
  - intros. by apply lookup_inserted.
Qed.

Lemma tips_dom d now keys c :
  has_identity d = true →
  dom (tip_by_context (fold_left (λ c k, cache_insert k d now c) keys c))
  = dom (tip_by_context c) ∪ list_to_set keys.
Proof.
  intros Hid. revert c. induction keys as [|k keys IH]; intros c; simpl; [set_solver|].
  rewrite IH. unfold cache_insert. rewrite Hid. cbn [negb insert_tip insert_entry tip_by_context].
  rewrite dom_insert_L. set_solver.
Qed.

(** The cache is called bounded, but only its documents are: it keeps the digest of
    every context ever seen, one per context, and nothing removes them. *)
Theorem context_tips_unbounded (n : nat) (d : UsageAuthorizationDocument) (now : Z)
    (keys : list UsageAuthorizationPolicyCacheKey)
    (Hid : has_identity d = true) (Hkeys : NoDup keys) :
  size (tip_by_context (fold_left (λ c k, cache_insert k d now c) keys (cache_new n))) = length keys.
Proof.
  rewrite <- size_dom, tips_dom by done. simpl. rewrite dom_empty_L, (left_id_L ∅ (∪)).
  by apply size_list_to_set.
Qed.

(** ** Histories of the gate *)

Variable usage_pricing : StateView → string → Z → Z → UsagePricing.

(** A look at the policy of one context: what [document_for] is called with. *)
Record Visit := mkVisit {
  v_ask : asker; v_sink : EventSink; v_key : UsageAuthorizationPolicyCacheKey;
  v_request : UsageAuthorizationEvaluateRequest; v_now : Z;
}.
Definition visit (v : Visit) (c : UsageAuthorizationPolicyCache) :=
  document_for (v_ask v) (v_sink v) (v_key v) (v_request v) (v_now v) c.
(** The document that the control plane answers, when it is asked. *)
Definition answer (v : Visit) : option UsageAuthorizationDocument :=
  match (evaluate_usage_authorization (v_ask v) (base_url (v_sink v)) (v_request v)).2 with
  | Ok d => Some d
  | Err _ => None
  end.

(** A request that passes the gate, or whose routing candidates are evaluated. *)
Inductive Operation :=
| GateOp (ask : asker) (st : StateView) (family : UsageAuthorizationRequestFamily)
    (requested_model : string) (prompt completion now : Z)
| CandidatesOp (ask : asker) (st : StateView) (family : UsageAuthorizationRequestFamily)
    (targets : option (list (string * UsagePricing))) (prompt completion now : Z).
Definition operate (c : UsageAuthorizationPolicyCache) (o : Operation) : UsageAuthorizationPolicyCache :=
  match o with
  | GateOp ask st family model prompt completion now =>
      (enforce_gate usage_pricing ask st family model prompt completion now c).1.1
  | CandidatesOp ask st family targets prompt completion now =>
      (compute_ua_denied_target_ids ask st family targets prompt completion now c).1
  end.

(** The visits of an operation, in order. *)
Definition visit_of (ask : asker) (st : StateView) (family : UsageAuthorizationRequestFamily)
    (prompt completion now : Z) (p : UsagePricing) : option Visit :=
  '(sink, org, subject) ← resolved_subject st;
  '(key, request) ← context_of st org subject family prompt completion p;
  Some (mkVisit ask sink key request now).
Definition gate_visit (ask : asker) (st : StateView) (family : UsageAuthorizationRequestFamily)
    (requested_model : string) (prompt completion now : Z) : option Visit :=
  visit_of ask st family prompt completion now (usage_pricing st requested_model prompt completion).
Definition visits (o : Operation) : list Visit :=
  match o with
  | GateOp ask st family model prompt completion now =>
      option_list (gate_visit ask st family model prompt completion now)
  | CandidatesOp ask st family targets prompt completion now =>
      omap (λ t, visit_of ask st family prompt completion now t.2) (default [] targets)
  end.

Lemma gate_by_visit ask st family model prompt completion now c :
  enforce_gate usage_pricing ask st family model prompt completion now c
  = match gate_visit ask st family model prompt completion now with
    | None => (c, [], Ok None)
    | Some v =>
        match visit v c with
        | (c, sent, Err _) => (c, sent, Err (policy_unavailable POLICY_UNAVAILABLE))
        | (c, sent, Ok d) => (c, sent, judge d now)
        end
    end.
Proof.
  unfold enforce_gate, gate_visit, visit_of, visit.
  destruct (resolved_subject st) as [[[sink org] subject]|]; [|done]. simpl.
  by destruct (context_of _ _ _ _ _ _ _) as [[key request]|].
Qed.

Lemma candidates_by_visits ask st family targets prompt completion now c :
  (compute_ua_denied_target_ids ask st family targets prompt completion now c).1
  = fold_left (λ c v, (visit v c).1.1) (visits (CandidatesOp ask st family targets prompt completion now)) c.
Proof.
  unfold compute_ua_denied_target_ids, visits, visit_of.
  destruct (resolved_subject st) as [[[sink org] subject]|]; simpl.
  2: { by induction (default [] targets) as [|t ts IH]. }
  destruct targets as [ts|]; simpl; [|done]. generalize (∅ : gset string) as denied.
  revert c. induction ts as [|t ts IH]; intros c denied; simpl; [done|].
  destruct (context_of _ _ _ _ _ _ _) as [[key request]|]; simpl; [|apply IH].
  change (visit _ c) with (document_for ask sink key request now c).
  destruct (document_for ask sink key request now c) as [[c' sent] [d|e]]; simpl; [|apply IH].
  destruct (require_fresh d now); apply IH.
Qed.

Lemma operate_visits c o : operate c o = fold_left (λ c v, (visit v c).1.1) (visits o) c.
Proof.
  destruct o as [ask st family model prompt completion now|]; [|apply candidates_by_visits].
  simpl. rewrite gate_by_visit. destruct (gate_visit _ _ _ _ _ _ _) as [v|]; simpl; [|done].
  by destruct (visit v c) as [[c' sent] [d|e]].
Qed.

(** What a cache may hold after a history of visits: answered documents, and for a
    context the digest of a document answered for it. *)
Definition history_ok (vs : list Visit) (c : UsageAuthorizationPolicyCache) : Prop :=
  cache_ok (λ d, ∃ v, v ∈ vs ∧ answer v = Some d) c
  ∧ ∀ key digest, tip key c = Some digest →
      ∃ v d, v ∈ vs ∧ v_key v = key ∧ answer v = Some d ∧ digest_of d = digest.

Lemma history_ok_weaken vs ws c : (∀ v, v ∈ vs → v ∈ ws) → history_ok vs c → history_ok ws c.
Proof.
  intros Hsub [Hc Ht]. split.
  - eapply cache_ok_weaken; [|done]. naive_solver.
  - intros key digest Hk. destruct (Ht key digest Hk) as (v & d & ? & ?). eauto.
Qed.

Lemma get_tips key now c : tip_by_context (get key now c).1 = tip_by_context c.
Proof. unfold get, get_by_digest. repeat case_match; done. Qed.

Lemma visit_result v c d :
  (visit v c).2 = Ok d →
  (get (v_key v) (v_now v) c).2 = Some d ∨ answer v = Some d.
Proof.
  unfold visit, document_for, answer. destruct (get _ _ _) as [c' [d'|]]; simpl; [naive_solver|].
  destruct (evaluate_usage_authorization _ _ _) as [sent [d'|e]]; simpl; naive_solver.
Qed.

Lemma visit_ok vs v c : history_ok vs c → history_ok (vs ++ [v]) (visit v c).1.1.
Proof.
  intros Hh. eapply (history_ok_weaken _ (vs ++ [v])) in Hh; [|set_solver].
  unfold visit, document_for. destruct Hh as [Hc Ht].
  pose proof (get_keeps_ok _ (v_key v) (v_now v) c Hc) as Hget.
  pose proof (get_tips (v_key v) (v_now v) c) as Htips.
  destruct (get (v_key v) (v_now v) c) as [c' [d|]] eqn:Hg; simpl in *.
  { split; [done|]. unfold tip. by rewrite Htips. }
  destruct (evaluate_usage_authorization _ _ _) as [sent [d|e]] eqn:He; simpl.
  2: { split; [done|]. unfold tip. by rewrite Htips. }
  assert (answer v = Some d) as Ha by (unfold answer; by rewrite He).
  split; [apply cache_insert_ok; [|done]; exists v; set_solver|].
  unfold cache_insert. destruct (has_identity d); simpl; [|unfold tip; by rewrite Htips].
  intros key digest. unfold tip. cbn [insert_tip tip_by_context].
  intros [[<- <-]|[_ Hk]]%lookup_insert_Some; [exists v, d; set_solver|].
  apply Ht. unfold tip. by rewrite <- Htips.
Qed.

Lemma visits_ok vs ws c :
  history_ok vs c → history_ok (vs ++ ws) (fold_left (λ c v, (visit v c).1.1) ws c).
Proof.
  revert vs c. induction ws as [|w ws IH]; intros vs c Hh; simpl; [by rewrite app_nil_r|].
  rewrite cons_middle, app_assoc. by apply IH, visit_ok.
Qed.

Lemma operations_ok n os : history_ok (os ≫= visits) (fold_left operate os (cache_new n)).
Proof.
  induction os as [|o os IH] using rev_ind.
  { split; [apply cache_new_ok|]. by intros key digest. }
  rewrite fold_left_app, bind_app. simpl. rewrite app_nil_r, operate_visits. by apply visits_ok.
Qed.

(** No two contexts are answered with one policy digest. *)
Definition digests_by_context (vs : list Visit) : Prop :=
  ∀ v w d e, v ∈ vs → w ∈ vs → answer v = Some d → answer w = Some e →
    digest_of d = digest_of e → v_key v = v_key w.

Lemma visit_sound vs v c d :
  history_ok vs c → (visit v c).2 = Ok d →
  ∃ w, w ∈ vs ++ [v] ∧ answer w = Some d
    ∧ (digests_by_context (vs ++ [v]) → v_key w = v_key v).
Proof.
  intros [Hc Ht] [Hg|Ha]%visit_result; [|exists v; set_solver].
  unfold get in Hg. destruct (tip (v_key v) c) as [digest|] eqn:Htip; [|done].
  destruct (get_by_digest_fresh _ _ _ _ _ Hc Hg) as (Hd & _ & w & Hw & Hans).
  destruct (Ht _ _ Htip) as (u & e & Hu & Hkey & Hue & He).
  exists w. split_and!; [set_solver|done|]. intros Hone. rewrite <- Hkey.
  apply (Hone w u d e); [set_solver..|done|done|congruence].
Qed.

Lemma judge_ok d now r : judge d now = Ok r → r = Some d ∧ is_fresh d now = true ∧ is_allowed d = true.
Proof.
  unfold judge, require_fresh. destruct (has_identity d); simpl; [|done].
  destruct (is_fresh d now); simpl; [|done]. by destruct (is_allowed d); intros [= <-].
Qed.

(** C15. The gate fails closed: after any history of gates and evaluations of
    candidates, a request to which the gate applies passes only with a document
    that is fresh, that allows it, and that the control plane has answered in this
    history; and when different contexts are never answered with one policy
    digest, it was answered for the context of this very request.  In particular a
    request passes without a document only when the gate does not apply to it. *)
Theorem gate_fails_closed (n : nat) (os : list Operation) (ask : asker) (st : StateView)
    (family : UsageAuthorizationRequestFamily) (model : string) (prompt completion now : Z)
    (r : option UsageAuthorizationDocument)
    (Hpass : (enforce_gate usage_pricing ask st family model prompt completion now
                (fold_left operate os (cache_new n))).2 = Ok r) :
  match gate_visit ask st family model prompt completion now with
  | None => r = None
  | Some v =>
      ∃ d w, r = Some d ∧ is_fresh d now = true ∧ is_allowed d = true
        ∧ w ∈ (os ≫= visits) ++ [v] ∧ answer w = Some d
        ∧ (digests_by_context ((os ≫= visits) ++ [v]) → v_key w = v_key v)
  end.
Proof.
  rewrite gate_by_visit in Hpass. pose proof (operations_ok n os) as Hh.
  destruct (gate_visit ask st family model prompt completion now) as [v|]; [|by injection Hpass].
  destruct (visit v (fold_left operate os (cache_new n))) as [[c sent] [d|e]] eqn:Hv; [|done].
  apply judge_ok in Hpass as (-> & Hfresh & Hallowed).
  destruct (visit_sound (os ≫= visits) v (fold_left operate os (cache_new n)) d) as (w & ? & ? & ?);
    [done|by rewrite Hv|]. by exists d, w.
Qed.

(** ** Documents of other contexts *)

Lemma visit_miss v c d :
  tip (v_key v) c = None → answer v = Some d →
  ∃ sent, visit v c = (cache_insert (v_key v) d (v_now v) c, sent, Ok d).
Proof.
  intros Htip. unfold answer, visit, document_for, get. rewrite Htip.
  destruct (evaluate_usage_authorization _ _ _) as [sent [d'|e]]; intros [= ->]. by exists sent.
Qed.

Lemma visit_hit v c d :
  (get (v_key v) (v_now v) c).2 = Some d → ∃ c', visit v c = (c', [], Ok d) ∧ c' = (get (v_key v) (v_now v) c).1.
Proof.
  unfold visit, document_for. destruct (get _ _ _) as [c' [d'|]]; intros [= ->]. by exists c'.
Qed.

Lemma get_hit key digest now e c :
  tip key c = Some digest → by_digest c !! digest = Some e →
  (now <? cached_expires_at e)%Z = true → is_fresh (cached_document e) now = true →
  get key now c = (c, Some (cached_document e)).
Proof. intros Ht He H1 H2. unfold get, get_by_digest. by rewrite Ht, He, H1, H2. Qed.

Lemma fresh_identity d now : is_fresh d now = true → has_identity d = true.
Proof. unfold is_fresh. by intros [? _]%andb_true_iff. Qed.

Lemma require_fresh_ok d now : is_fresh d now = true → require_fresh d now = Ok tt.
Proof. intros Hf. unfold require_fresh. by rewrite (fresh_identity _ _ Hf), Hf. Qed.

(** The entry of an inserted document, and when it is served. *)
Definition entry_for (d : UsageAuthorizationDocument) (now : Z) : CachedPolicyDocument :=
  mkCached d (default now (parse_rfc3339 (expires_at d))).
Lemma entry_for_live d now now' : is_fresh d now' = true → (now' <? cached_expires_at (entry_for d now))%Z = true.
Proof. unfold is_fresh, entry_for. simpl. destruct (parse_rfc3339 _); by intros [_ ?]%andb_true_iff. Qed.

Lemma inserted_entry key d now c :
  has_identity d = true → by_digest (cache_insert key d now c) !! digest_of d = Some (entry_for d now).
Proof.
  intros Hid. unfold cache_insert. rewrite Hid. cbn [negb insert_tip by_digest].
  destruct (insert_entry_subset d now c) as (m & _ & ->). apply lookup_insert_eq.
Qed.

Lemma inserted_tip key d now c key' :
  has_identity d = true →
  tip key' (cache_insert key d now c) = if decide (key = key') then Some (digest_of d) else tip key' c.
Proof.
  intros Hid. unfold cache_insert, tip. rewrite Hid. cbn [negb insert_tip tip_by_context].
  case_decide; [subst; apply lookup_insert_eq|]. by rewrite lookup_insert_ne.
Qed.

(** The gate of a request to which it applies, by the document of its context. *)
Lemma gate_of_visit ask st family model prompt completion now c v c' sent d :
  gate_visit ask st family model prompt completion now = Some v → visit v c = (c', sent, Ok d) →
  is_fresh d now = true →
  enforce_gate usage_pricing ask st family model prompt completion now c
  = (c', sent, if is_allowed d then Ok (Some d) else Err (denied_response d)).
Proof.
  intros Hv Hd Hf. rewrite gate_by_visit, Hv, Hd. unfold judge. rewrite (require_fresh_ok _ _ Hf).
  by destruct (is_allowed d).
Qed.

Lemma visit_of_now ask st family prompt completion now p v :
  visit_of ask st family prompt completion now p = Some v → v_now v = now.
Proof.
  unfold visit_of. destruct (resolved_subject st) as [[[sink org] subject]|]; [|done]. simpl.
  destruct (context_of _ _ _ _ _ _ _) as [[key request]|]; [|done]. by intros [= <-].
Qed.

(** C39. A denied request passes with the document of another one: when the control
    plane answers two contexts under one policy version and digest, denying the
    first and allowing the second, then after both have been evaluated the gate
    lets the first through on the document of the second, without asking, for as
    long as that document is fresh. *)
Theorem policy_cache_crosses_contexts (n : nat) (ask ask' ask'' : asker) (st st' : StateView)
    (family family' : UsageAuthorizationRequestFamily) (model model' : string)
    (prompt completion prompt' completion' t t' t'' : Z) (v v' v'' : Visit)
    (d d' : UsageAuthorizationDocument)
    (Hv : gate_visit ask st family model prompt completion t = Some v)
    (Hv' : gate_visit ask' st' family' model' prompt' completion' t' = Some v')
    (Hv'' : gate_visit ask'' st family model prompt completion t'' = Some v'')
    (Hother : v_key v ≠ v_key v') (Hsame : v_key v'' = v_key v)
    (Hd : answer v = Some d) (Hd' : answer v' = Some d') (Hdigest : digest_of d = digest_of d')
    (Hfresh : is_fresh d t = true) (Hfresh' : is_fresh d' t' = true) (Hlater : is_fresh d' t'' = true)
    (Hdenied : is_allowed d = false) (Hallowed : is_allowed d' = true) :
  let first := enforce_gate usage_pricing ask st family model prompt completion t (cache_new n) in
  let second := enforce_gate usage_pricing ask' st' family' model' prompt' completion' t' first.1.1 in
  let third := enforce_gate usage_pricing ask'' st family model prompt completion t'' second.1.1 in
  first.2 = Err (denied_response d) ∧ second.2 = Ok (Some d')
  ∧ third.2 = Ok (Some d') ∧ third.1.2 = [].
Proof.
  pose proof (fresh_identity _ _ Hfresh) as Hid. pose proof (fresh_identity _ _ Hfresh') as Hid'.
  pose proof (visit_of_now _ _ _ _ _ _ _ _ Hv'') as Hnow.
  destruct (visit_miss v (cache_new n) d) as [sent Hmiss]; [done..|]. cbv zeta.
  rewrite (gate_of_visit _ _ _ _ _ _ _ _ _ _ _ _ Hv Hmiss Hfresh), Hdenied. cbn [fst snd].
  set (c := cache_insert (v_key v) d (v_now v) (cache_new n)).
  destruct (visit_miss v' c d') as [sent' Hmiss']; [by unfold c; rewrite inserted_tip, decide_False|done|].
  rewrite (gate_of_visit _ _ _ _ _ _ _ _ _ _ _ _ Hv' Hmiss' Hfresh'), Hallowed. cbn [fst snd].
  set (c' := cache_insert (v_key v') d' (v_now v') c).
  assert (get (v_key v'') (v_now v'') c' = (c', Some d')) as Hget.
  { apply (get_hit _ (digest_of d) _ (entry_for d' (v_now v')) c').
    - unfold c'. rewrite inserted_tip, Hsame, decide_False by done. unfold c.
      by rewrite inserted_tip, decide_True.
    - rewrite Hdigest. by apply inserted_entry.
    - rewrite Hnow. by apply entry_for_live.
    - by rewrite Hnow. }
  destruct (visit_hit v'' c' d') as (c'' & Hhit & _); [by rewrite Hget|].
  by rewrite (gate_of_visit _ _ _ _ _ _ _ _ _ _ _ _ Hv'' Hhit Hlater), Hallowed.
Qed.

(** ** Routing candidates *)

Definition after_document (c : UsageAuthorizationPolicyCache) (denied : gset string) (id : string)
    (d : UsageAuthorizationDocument) : UsageAuthorizationPolicyCache * gset string :=
  (c, if is_allowed d then denied else {[id]} ∪ denied).

Lemma denied_step_visit ask st sink org subject family prompt completion now c denied t v c' sent d :
  resolved_subject st = Some (sink, org, subject) →
  visit_of ask st family prompt completion now t.2 = Some v → visit v c = (c', sent, Ok d) →
  is_fresh d now = true →
  denied_step ask st sink org subject family prompt completion now (c, denied) t = after_document c' denied t.1 d.
Proof.
  intros Hr. unfold visit_of, denied_step. rewrite Hr. simpl.
  destruct (context_of _ _ _ _ _ _ _) as [[key request]|]; [|done]. intros [= <-].
  unfold visit. simpl. intros -> Hf. rewrite (require_fresh_ok _ _ Hf). unfold after_document.
  by destruct (is_allowed d).
Qed.

(** The identifiers of the targets whose documents deny. *)
Definition denials (ts : list (string * UsagePricing)) (ds : list UsageAuthorizationDocument) : gset string :=
  list_to_set (omap (λ td, if is_allowed td.2 then None else Some td.1.1) (zip ts ds)).

(** The target has the context of the visit, and is answered with the document. *)
Definition answered (ask : asker) (st : StateView) (family : UsageAuthorizationRequestFamily)
    (prompt completion now : Z) (t : string * UsagePricing)
    (vd : UsageAuthorizationPolicyCacheKey * UsageAuthorizationDocument) : Prop :=
  ∃ v, visit_of ask st family prompt completion now t.2 = Some v ∧ v_key v = vd.1 ∧ answer v = Some vd.2.

Section candidates.
Context (st : StateView) (sink : EventSink) (org subject : string)
  (family : UsageAuthorizationRequestFamily) (prompt completion : Z)
  (Hresolved : resolved_subject st = Some (sink, org, subject)).

(** A pass over contexts that are not cached: every one is asked for, and the
    digest that they share keeps the last answer. *)
Lemma first_pass ask now digest ts kds c denied :
  Forall2 (answered ask st family prompt completion now) ts kds → NoDup kds.*1 →
  Forall (λ kd, digest_of kd.2 = digest ∧ is_fresh kd.2 now = true) kds →
  (∀ key, key ∈ kds.*1 → tip key c = None) →
  let '(c', denied') := fold_left (denied_step ask st sink org subject family prompt completion now) ts (c, denied) in
  denied' = denials ts kds.*2 ∪ denied
  ∧ (∀ key, tip key c' = if decide (key ∈ kds.*1) then Some digest else tip key c)
  ∧ by_digest c' !! digest
    = match last kds with Some kd => Some (entry_for kd.2 now) | None => by_digest c !! digest end.
Proof.
  intros Hall. revert c denied.
  induction Hall as [|t [key d] ts kds (v & Hv & Hkey & Ha) Hall IH];
     intros c denied Hnd Hds Hcold; cbn [fold_left].
  { split_and!; [set_solver|done|done]. }
  simpl in Hkey, Ha. subst key.
  apply Forall_cons in Hds as [[Hdig Hf] Hds]. apply NoDup_cons in Hnd as [Hnew Hnd].
  simpl in Hdig, Hf, Hnew. pose proof (fresh_identity _ _ Hf) as Hid.
  destruct (visit_miss v c d) as [sent Hm]; [apply Hcold; set_solver|done|].
  rewrite (denied_step_visit _ _ _ _ _ _ _ _ _ _ _ _ _ _ _ _ Hresolved Hv Hm Hf).
  specialize (IH (cache_insert (v_key v) d (v_now v) c) (after_document c denied t.1 d).2 Hnd Hds).
  assert (∀ key, key ∈ kds.*1 → tip key (cache_insert (v_key v) d (v_now v) c) = None) as Hcold'.
  { intros key Hk. rewrite inserted_tip, decide_False by (done || set_solver). apply Hcold. set_solver. }
  specialize (IH Hcold'). unfold after_document in *. simpl in IH. destruct (fold_left _ ts _) as [c' denied'].
  destruct IH as (-> & Htips & Hlast). split_and!.
  - unfold denials. simpl. destruct (is_allowed d); simpl; set_solver.
  - intros key. rewrite Htips, inserted_tip by done. simpl.
    repeat case_decide; rewrite ?Hdig; try done; exfalso; set_solver.
  - rewrite Hlast, last_cons. destruct (last kds); [done|].
    rewrite <- Hdig, (visit_of_now _ _ _ _ _ _ _ _ Hv). by apply inserted_entry.
Qed.

(** A pass over contexts of one cached digest: its document decides all. *)
Lemma second_pass ask now now' digest d ts c denied :
  Forall (λ t, ∃ v, visit_of ask st family prompt completion now' t.2 = Some v ∧ tip (v_key v) c = Some digest) ts →
  by_digest c !! digest = Some (entry_for d now) → is_fresh d now' = true →
  (fold_left (denied_step ask st sink org subject family prompt completion now') ts (c, denied)).2
  = if is_allowed d then denied else list_to_set ts.*1 ∪ denied.
Proof.
  intros Hall He Hf. revert denied. induction Hall as [|t ts (v & Hv & Ht) Hall IH]; intros denied; cbn [fold_left].
  { destruct (is_allowed d); set_solver. }
  destruct (visit_hit v c d) as (c' & Hhit & Hc').
  { rewrite (get_hit _ digest _ (entry_for d now) c); [done|done|done| |];
      rewrite (visit_of_now _ _ _ _ _ _ _ _ Hv); [by apply entry_for_live|done]. }
  assert (c' = c) as ->.
  { rewrite Hc', (get_hit _ digest _ (entry_for d now) c); [done|done|done| |];
      rewrite (visit_of_now _ _ _ _ _ _ _ _ Hv); [by apply entry_for_live|done]. }
  rewrite (denied_step_visit _ _ _ _ _ _ _ _ _ _ _ _ _ _ _ _ Hresolved Hv Hhit Hf).
  unfold after_document. rewrite IH. destruct (is_allowed d); set_solver.
Qed.
End candidates.

Lemma visit_of_other ask ask' st family prompt completion now now' p v :
  visit_of ask st family prompt completion now p = Some v →
  ∃ v', visit_of ask' st family prompt completion now' p = Some v' ∧ v_key v' = v_key v.
Proof.
  unfold visit_of. destruct (resolved_subject st) as [[[sink org] subject]|]; [|done]. simpl.
  destruct (context_of _ _ _ _ _ _ _) as [[key request]|]; [|done]. intros [= <-]. eauto.
Qed.

(** Automatic routing forgets denials: when the control plane answers the
    candidates of a request, of different contexts, under one policy version and
    digest, the first evaluation excludes exactly the denied ones; the next one,
    while the documents are fresh, excludes all candidates or none, as the
    document of the last candidate says, whatever the control plane would
    answer. *)
Theorem routing_forgets_denials (n : nat) (ask ask' : asker) (st : StateView)
    (family : UsageAuthorizationRequestFamily) (prompt completion now now' : Z)
    (ts : list (string * UsagePricing))
    (kds : list (UsageAuthorizationPolicyCacheKey * UsageAuthorizationDocument))
    (digest : UsageAuthorizationPolicyDigestKey) (key : UsageAuthorizationPolicyCacheKey)
    (d : UsageAuthorizationDocument)
    (Hsubject : is_Some (resolved_subject st))
    (Hanswers : Forall2 (answered ask st family prompt completion now) ts kds)
    (Hcontexts : NoDup kds.*1)
    (Hdigest : Forall (λ kd, digest_of kd.2 = digest ∧ is_fresh kd.2 now = true) kds)
    (Hlast : last kds = Some (key, d)) (Hlater : is_fresh d now' = true) :
  let first := compute_ua_denied_target_ids ask st family (Some ts) prompt completion now (cache_new n) in
  let second := compute_ua_denied_target_ids ask' st family (Some ts) prompt completion now' first.1 in
  first.2 = denials ts kds.*2
  ∧ second.2 = if is_allowed d then ∅ else list_to_set ts.*1.
Proof.
  destruct Hsubject as [[[sink org] subject] Hr]. unfold compute_ua_denied_target_ids. rewrite Hr. cbv zeta.
  pose proof (first_pass st sink org subject family prompt completion Hr ask now digest ts kds (cache_new n) ∅
    Hanswers Hcontexts Hdigest) as Hfirst.
  specialize (Hfirst ltac:(done)). destruct (fold_left _ ts (cache_new n, ∅)) as [c denied].
  destruct Hfirst as (-> & Htips & He). rewrite Hlast in He. cbn [fst snd]. split; [set_solver|].
  rewrite (second_pass st sink org subject family prompt completion Hr ask' now now' digest d ts c ∅);
    [destruct (is_allowed d); set_solver| |done|done].
  apply Forall_forall. intros t Ht. apply list_elem_of_lookup in Ht as [i Hi].
  destruct (Forall2_lookup_l _ _ _ _ _ Hanswers Hi) as ([k e] & Hk & v & Hv & Hkey & _).
  destruct (visit_of_other ask ask' _ _ _ _ now now' _ _ Hv) as (v' & Hv' & Hsame).
  exists v'. split; [done|]. rewrite Htips, decide_True; [done|].
  rewrite Hsame, Hkey. apply list_elem_of_fmap. exists (k, e). split; [done|].
  by apply list_elem_of_lookup_2 in Hk.
Qed.
End gate.

(** ** A concrete control plane *)

Module UaModel.

Definition doc (allowed : bool) : UsageAuthorizationDocument :=
  mkDocument "usage-authorization/v1" "policy-7" "digest-7" "document" "0" "100"
    (mkDocumentBinding "org" "gw" "subject" None None None "openai" "model" Chat "llm")
    (Restricted allowed ["p1"%string] None (mkLimits None None None)) [].

#[export] Instance lib : UaLib.
Proof.
  refine {|
    parse_rfc3339 := parse_u64;
    parse_uuid := λ s, if String.length s =? 36 then Some (to_ascii_lowercase s) else None;
    Url := string;
    url_parse := λ s, Ok s;
    url_join := λ base path, Ok (base ++ path)%string;
    document_of := λ body, if String.eqb body "allow" then Ok (doc true)
                           else if String.eqb body "deny" then Ok (doc false) else Err "no document"%string;
    first_key := λ m, head (map_to_list m).*1;
  |}.
  - intros m k Hk. apply head_Some_elem_of, list_elem_of_fmap in Hk as ([k' e] & -> & He).
    apply elem_of_map_to_list in He. by exists e.
  - intros m Hk. apply head_None, fmap_nil_inv, map_to_list_empty_iff in Hk. done.
Defined.

Definition from_str : string → option (Value Z) := λ _, None.
Definition pricing : StateView → string → Z → Z → UsagePricing :=
  λ _ model _ _, mkPricing "openai" model "0".
Definition ask : string → UsageAuthorizationEvaluateRequest → Answer :=
  λ _ request, Answered 200 (if String.eqb (e_model request) "expensive" then "deny" else "allow").
Definition down : string → UsageAuthorizationEvaluateRequest → Answer := λ _ _, Failed true "down".
Definition state : StateView :=
  mkView true (Some (mkSink true "https://api")) 
    (Some (mkFinops (Some "org"%string) (Some "6F9619FF-8B86-D011-B42D-00C04FC964FF"%string)))
    (Some "gw"%string) None None.
Definition key (model : string) : UsageAuthorizationPolicyCacheKey :=
  mkCacheKey "org" "gw" "6f9619ff-8b86-d011-b42d-00c04fc964ff" None None None "openai" model Chat.
Definition request (model : string) : UsageAuthorizationEvaluateRequest :=
  mkEvaluate "6f9619ff-8b86-d011-b42d-00c04fc964ff" None None None "openai" model Chat
    (mkUsage 10 20 1 None (Some "0"%string)).
Definition seen (ask : string → UsageAuthorizationEvaluateRequest → Answer) (model : string) (now : Z) : Visit (H0 := lib) :=
  mkVisit (H0 := lib) ask (mkSink true "https://api") (key model) (request model) now.

End UaModel.

Section witnesses.
Import UaModel.

Abbreviation gate ask model now :=
  (enforce_gate (H := JsonModel.json) (H0 := lib) from_str pricing ask state Chat model 10 20 now).
Abbreviation gate_op ask model now := (GateOp (H0 := lib) ask state Chat model 10 20 now).
Abbreviation candidates ask models now :=
  (compute_ua_denied_target_ids (H := JsonModel.json) (H0 := lib) from_str ask state Chat
     (Some ((λ m, (m, mkPricing "openai" m "0")) <$> models)) 10 20 now).

Lemma gate_fails_closed_witness :
  (gate down "cheap" 9 (fold_left (operate (H := JsonModel.json) (H0 := lib) from_str pricing) [gate_op ask "cheap" 1] (cache_new 4))).2
    = Ok (Some (doc true))
  ∧ ∃ w, w ∈ [seen ask "cheap" 1; seen down "cheap" 9] ∧ answer (H := JsonModel.json) (H0 := lib) from_str w = Some (doc true).
Proof.
  split; [vm_compute; reflexivity|].
  destruct (gate_fails_closed (H := JsonModel.json) (H0 := lib) from_str pricing 4 [gate_op ask "cheap" 1]
    down state Chat "cheap" 10 20 9 (Some (doc true))) as (d & w & Hr & _ & _ & Hw & Ha & _).
  - vm_compute. reflexivity.
  - exists w. injection Hr as <-. split; [exact Hw|exact Ha].
Defined.

Lemma policy_cache_crosses_contexts_witness :
  (gate down "expensive" 30 (gate ask "cheap" 20 (gate ask "expensive" 10 (cache_new 4)).1.1).1.1).2
  = Ok (Some (doc true)).
Proof.
  destruct (policy_cache_crosses_contexts (H := JsonModel.json) (H0 := lib) from_str pricing 4
    ask ask down state state Chat Chat "expensive" "cheap" 10 20 10 20 10 20 30
    (seen ask "expensive" 10) (seen ask "cheap" 20) (seen down "expensive" 30) (doc false) (doc true))
    as (_ & _ & Hthird & _);
    [reflexivity|reflexivity|reflexivity|vm_compute; discriminate|reflexivity..|exact Hthird].
Defined.

Lemma routing_forgets_denials_witness :
  (candidates ask ["expensive"; "cheap"]%string 10 (cache_new 4)).2 = {["expensive"%string]}
  ∧ (candidates ask ["expensive"; "cheap"]%string 20
       (candidates ask ["expensive"; "cheap"]%string 10 (cache_new 4)).1).2 = ∅.
Proof.
  destruct (routing_forgets_denials (H := JsonModel.json) (H0 := lib) from_str pricing 4 ask ask state Chat 10 20 10 20
    ((λ m, (m, mkPricing "openai" m "0")) <$> ["expensive"; "cheap"]%string)
    [(key "expensive", doc false); (key "cheap", doc true)] (digest_of (doc true)) (key "cheap") (doc true))
    as [H1 H2]; try reflexivity.
  - eexists. reflexivity.
  - repeat constructor; eexists; (split; [reflexivity|split; reflexivity]).
  - apply (bool_decide_unpack _). vm_compute. reflexivity.
  - repeat constructor.
  - split; [|exact H2]. rewrite H1. vm_compute. reflexivity.
Defined.
End witnesses.
