(* ===== verification/UsageLifecycle.v ===== *)
(** * UsageLifecycle: the financial lifecycle of a usage authorization

    (src/src/retry.rs, the client calls of usage_authorization.rs, and the
    preparation and the settlement of request_pipeline/messages.rs.)

    Before a request is dispatched the gateway creates an authorization with the
    control plane and announces one upstream attempt; when the response is there it
    settles the authorization with the usage, or releases it.  Every call out of the
    gateway is an [Effect] of the functions, in order; the answers of the control
    plane, the fresh identifiers, the choice of the pinned target and the price of
    the request are arguments.  Waiting between attempts, metrics and logging are
    left out. *)

From Stdlib Require Import ZArith Ascii String SpecFloat.
From stdpp Require Import base gmap strings list.
From S2P Require Import Prelude Text Float Lww Policy RequestText ToolCalls UsageAuthorization.

#[local] Arguments String.append : simpl nomatch.

(** ** Bounded retries (retry.rs) *)

Inductive RetryClassification := Transient | Permanent.
#[export] Instance RetryClassification_eq_dec : EqDecision RetryClassification.
Proof. solve_decision. Defined.

Definition classify_status (status : Z) : RetryClassification :=
  if bool_decide (status ∈ [429; 500; 502; 503; 504]%Z) then Transient else Permanent.

Section retry.
Context {T E : Type} (max_retries : Z) (classify : E → RetryClassification) (execute : nat → Result T E).

(** [with_retry_classified], where [execute n] is the result of the [n]-th
    execution: the result with the number of executions.  The counter is a [u32]. *)
Fixpoint retry_loop (fuel : nat) (attempt : Z) (n : nat) : option (Result T E * nat) :=
  match fuel with
  | O => None
  | S fuel =>
      match execute n with
      | Ok v => Some (Ok v, S n)
      | Err e =>
          let attempt := wrap32 (attempt + 1) in
          if bool_decide (classify e = Permanent) then Some (Err e, S n)
          else if (max_retries <? attempt)%Z then Some (Err e, S n)
          else retry_loop fuel attempt (S n)
      end
  end.
Definition with_retry_classified : option (Result T E * nat) := retry_loop (S (Z.to_nat max_retries)) 0 0.
End retry.

(** [with_retry]: every failure is transient. *)
Definition with_retry {T E} (max_retries : Z) (execute : nat → Result T E) : option (Result T E * nat) :=
  with_retry_classified max_retries (λ _, Transient) execute.

(** ** The client calls *)

Inductive UsageAuthorizationDeliveryKind := Upstream | SemanticCache.
Inductive UsageAuthorizationProviderIdempotency := Supported | Unsupported.

Record UsageAuthorizationBinding := mkBinding {
  subject_token_id : string;
  project_id : option string; configuration_id : option string; agent_id : option string;
  provider : string; model : string; request_family : UsageAuthorizationRequestFamily;
}.
Record UsageAuthorizationCreateRequest := mkCreate {
  c_request_id : string; delivery_kind : UsageAuthorizationDeliveryKind;
  c_binding : UsageAuthorizationBinding; c_usage : UsageAuthorizationUsage;
  accepted_policy_version : string; accepted_policy_sha256 : string;
}.
Record UsageAuthorizationRecord := mkRecord {
  gateway_usage_authorization_id : string; r_state : UsageAuthorizationState; r_usage_at : string;
  r_pricing_snapshot_id : string; authoritative_estimate_usd : string; unit_prices : gmap string string;
  r_document : UsageAuthorizationDocument;
}.
Record UsageAuthorizationDispatchRequest := mkDispatch {
  attempt_id : string; provider_idempotency : UsageAuthorizationProviderIdempotency;
  provider_idempotency_key : option string;
}.
Record UsageAuthorizationDispatchResponse := mkDispatched {
  dr_id : string; dr_state : UsageAuthorizationState; dr_attempt_id : string;
}.
Inductive UsageAuthorizationCompleteRequest :=
| Completed (input_tokens output_tokens : Z) (cached_input_tokens : option Z)
    (pricing_snapshot_id : option string)
| Released (reason : string).
Record UsageAuthorizationCompletion := mkCompletion {
  cm_id : string; cm_state : UsageAuthorizationState; spend_id : option string;
  cm_input_tokens : Z; cm_output_tokens : Z; cm_cached_input_tokens : Z;
  actual_cost_usd : string; cm_pricing_snapshot_id : option string;
  release_reason : option string; cm_usage_at : string;
}.

(** [usage_authorization_retry_policy]: two retries. *)
Definition MAX_RETRIES : nat := 2.
Definition USAGE_AUTHORIZATION_PATH : string := "v1/gateway/usage-authorizations".

Section lifecycle.
Context `{SerdeJson} `{UaLib}.
Abbreviation value := (Value Number).
Variable from_str : string → option value.
Variable record_of : string → Result UsageAuthorizationRecord string.
Variable dispatched_of : string → Result UsageAuthorizationDispatchResponse string.
Variable completion_of : string → Result UsageAuthorizationCompletion string.

Section attempts.
Context {T : Type} (op : string) (parse : string → Result T string) (answers : nat → Answer).

(** The loop [for attempt in 0..=max_retries] of [create_usage_authorization] and
    of [complete_usage_authorization]: [todo] attempts are left.  The requests sent
    are counted. *)
Fixpoint attempt_loop (todo attempt : nat) (last_error : option UsageAuthorizationError) :
    nat * Result T UsageAuthorizationError :=
  match todo with
  | O => (attempt, Err (default (Transport (op ++ " exhausted retries")) last_error))
  | S todo =>
      match answers attempt with
      | Failed timeout_or_connect text =>
          let error := Transport (op ++ " request failed: " ++ text) in
          if timeout_or_connect && (attempt <? MAX_RETRIES) then attempt_loop todo (S attempt) (Some error)
          else (S attempt, Err error)
      | Answered status body =>
          if is_success status then
            (S attempt,
             match parse body with
             | Ok v => Ok v
             | Err text => Err (InvalidResponse (op ++ " response invalid: " ++ text))
             end)
          else
            let error := rejected_error from_str status body in
            if bool_decide (classify_status status = Transient) && (attempt <? MAX_RETRIES)
            then attempt_loop todo (S attempt) (Some error)
            else (S attempt, Err error)
      end
  end.
Definition with_attempts : nat * Result T UsageAuthorizationError := attempt_loop (S MAX_RETRIES) 0 None.
End attempts.

(** [create_usage_authorization], [dispatch_usage_authorization] and
    [complete_usage_authorization], with the number of requests sent. *)
Definition create_usage_authorization (answers : Url → nat → Answer) (api_base_url : string) :
    nat * Result UsageAuthorizationRecord UsageAuthorizationError :=
  match usage_authorization_url api_base_url USAGE_AUTHORIZATION_PATH with
  | Err error => (O, Err error)
  | Ok url => with_attempts "authorize" record_of (answers url)
  end.
Definition dispatch_usage_authorization (answer : Url → Answer) (api_base_url id : string) :
    nat * Result UsageAuthorizationDispatchResponse UsageAuthorizationError :=
  match usage_authorization_url api_base_url (USAGE_AUTHORIZATION_PATH ++ "/" ++ id ++ "/dispatch") with
  | Err error => (O, Err error)
  | Ok url =>
      (1,
       match answer url with
       | Failed _ text => Err (Transport ("dispatch request failed: " ++ text))
       | Answered status body =>
           if negb (is_success status) then Err (rejected_error from_str status body)
           else match dispatched_of body with
                | Ok v => Ok v
                | Err text => Err (InvalidResponse ("dispatch response invalid: " ++ text))
                end
       end)
  end.
Definition complete_usage_authorization (answers : Url → nat → Answer) (api_base_url id : string) :
    nat * Result UsageAuthorizationCompletion UsageAuthorizationError :=
  match usage_authorization_url api_base_url (USAGE_AUTHORIZATION_PATH ++ "/" ++ id ++ "/complete") with
  | Err error => (O, Err error)
  | Ok url => with_attempts "complete" completion_of (answers url)
  end.

(** ** Preparation *)

(** What the lifecycle reads and writes of [ActiveGatewayStateView]. *)
Record FinancialView := mkFinancial {
  view : StateView;
  shadow_routing : bool;
  provider_registry : bool;
  ua_eval_document : option UsageAuthorizationDocument;
  ua_pinned_target_id : option string;
  ua_authorization_id : option string;
  ua_dispatch_acquired : bool;
}.
(** [ua_financial_path_active]. *)
Definition ua_financial_path_active (st : FinancialView) : bool :=
  connected_mode (view st) && bool_decide (is_Some (ua_eval_document st)) && negb (shadow_routing st).

Record UaAgentUsageTokens := mkTokens {
  prompt_tokens : Z; completion_tokens : Z; cached_input_tokens : Z;
}.

(** The calls that leave the gateway: the create and dispatch calls, the durable
    completion event, and the usage of an agent. *)
Inductive Effect :=
| CreateCall (request : UsageAuthorizationCreateRequest)
| DispatchCall (id : string) (request : UsageAuthorizationDispatchRequest)
| SettleCall (request_id id : string) (body : UsageAuthorizationCompleteRequest)
| IncrementCall (agent org provider model : string) (input cached completion : Z) (request_id : string).

Definition unavailable (message code : string) : ErrorResponse := mkResponse 503 message "service_unavailable" code.
Definition document_unavailable : ErrorResponse :=
  unavailable "Usage-authorization policy document is unavailable" "usage_authorization_policy_unavailable".
Definition no_eligible_provider : ErrorResponse :=
  mkResponse 403 "no auto-routing providers are permitted by usage-authorization policy" "access_denied"
    "no_eligible_provider".
Definition identity_unavailable : ErrorResponse :=
  unavailable "Connected token admission identity is unavailable" "token_admission_identity_unavailable".
Definition client_unavailable : ErrorResponse :=
  unavailable "Connected admission client is unavailable" "token_admission_client_unavailable".
Definition dispatch_indeterminate : ErrorResponse :=
  mkResponse 409 "Usage-authorization dispatch is indeterminate" "conflict" "gateway_dispatch_outcome_indeterminate".
(** What a failed creation answers. *)
Definition create_failed (e : UsageAuthorizationError) : ErrorResponse :=
  match error_code e with
  | Some BudgetExceeded =>
      mkResponse 402 "Usage-authorization budget exhausted" "payment_required" "usage_authorization_budget_exceeded"
  | Some RateLimitExceeded =>
      unavailable "Usage-authorization admission limit exceeded" "usage_authorization_rate_limited"
  | _ => unavailable "Usage authorization failed" "usage_authorization_create_failed"
  end.

(** The request of a prepared authorization, once everything is resolved. *)
Definition create_request (st : StateView) (request_id subject : string)
    (family : UsageAuthorizationRequestFamily) (prompt completion : Z) (p : UsagePricing)
    (d : UsageAuthorizationDocument) : UsageAuthorizationCreateRequest :=
  mkCreate request_id Upstream
    (mkBinding subject (normalize_binding_uuid None) (normalize_binding_uuid (view_configuration_id st))
       (normalize_binding_uuid (current_agent_id st)) (up_provider p) (up_model p) family)
    (mkUsage prompt completion 1 None (Some (canonical_estimate p)))
    (policy_version d) (policy_sha256 d).

(** The checks of [prepare_ua_financial_lifecycle] before its first call, on the
    state with the pinned target: the URL of the control plane and the request. *)
Definition prepare_request (pricing : UsagePricing) (st : FinancialView) (byok : bool) (request_id : string)
    (family : UsageAuthorizationRequestFamily) (prompt completion : Z) (d : UsageAuthorizationDocument) :
    Result (string * UsageAuthorizationCreateRequest) ErrorResponse :=
  if negb (provider_registry st) then
    Err (unavailable "Provider registry is unavailable" "provider_registry_unavailable")
  else if negb byok then
    Err (unavailable "Connected token admission is unavailable" "token_admission_unavailable")
  else
    match request_finops (view st) with
    | None => Err identity_unavailable
    | Some finops =>
        match normalize_binding_uuid (key_id finops) with
        | None => Err identity_unavailable
        | Some subject =>
            match event_sink (view st) with
            | None => Err client_unavailable
            | Some sink =>
                if negb (machine_client sink) then Err client_unavailable
                else Ok (base_url sink,
                         create_request (view st) request_id subject family prompt completion pricing d)
            end
        end
    end.

Definition with_pin (st : FinancialView) (target : string) : FinancialView :=
  mkFinancial (view st) (shadow_routing st) (provider_registry st) (ua_eval_document st) (Some target)
    (ua_authorization_id st) (ua_dispatch_acquired st).
Definition with_authorization (st : FinancialView) (id : string) : FinancialView :=
  mkFinancial (view st) (shadow_routing st) (provider_registry st) (ua_eval_document st)
    (ua_pinned_target_id st) (Some id) true.

(** [prepare_ua_financial_lifecycle]: the state, the calls made and the result. *)
Definition prepare_ua_financial_lifecycle (pricing : UsagePricing)
    (pinned : Result (option string) ErrorResponse) (create : Url → nat → Answer) (dispatch : Url → Answer)
    (attempt : string) (byok : bool) (request_id : string) (family : UsageAuthorizationRequestFamily)
    (prompt completion : Z) (st : FinancialView) :
    FinancialView * list Effect * Result unit ErrorResponse :=
  match ua_eval_document st, pinned with
  | None, _ => (st, [], Err document_unavailable)
  | Some _, Err response => (st, [], Err response)
  | Some _, Ok None => (st, [], Err no_eligible_provider)
  | Some d, Ok (Some target) =>
      let st := with_pin st target in
      match prepare_request pricing st byok request_id family prompt completion d with
      | Err response => (st, [], Err response)
      | Ok (url, request) =>
          match create_usage_authorization create url with
          | (sent, Err error) => (st, replicate sent (CreateCall request), Err (create_failed error))
          | (sent, Ok record) =>
              let id := gateway_usage_authorization_id record in
              let announce := mkDispatch attempt Unsupported None in
              let '(sent', result) := dispatch_usage_authorization dispatch url id in
              let effects := replicate sent (CreateCall request) ++ replicate sent' (DispatchCall id announce) in
              match result with
              | Err _ => (st, effects, Err dispatch_indeterminate)
              | Ok _ => (with_authorization st id, effects, Ok tt)
              end
          end
      end
  end.

(** ** The usage of a response (request_pipeline/responses_part3.rs) *)

Variable as_u64 : Number → option Z.
Variable as_f64 : Number → option f64.

Record SpendUsage := mkSpend {
  su_prompt_tokens : Z; su_completion_tokens : Z; su_total_tokens : Z; su_cached_input_tokens : Z;
  prompt_cost : option f64; completion_cost : option f64; total_cost : option f64;
}.

(** [value.get(key).and_then(as_u64)], and the first of two. *)
Definition u64_at (v : value) (key : string) : option Z := json_get v key ≫= json_as_u64 as_u64.
Definition f64_at (v : value) (key : string) : option f64 :=
  json_get v key ≫= λ x, match x with Num n => as_f64 n | _ => None end.
Definition or_else {A} (a b : option A) : option A := match a with Some _ => a | None => b end.

(** [extract_spend_usage]. *)
Definition extract_spend_usage (body : string) : option SpendUsage :=
  v ← from_str body;
  u ← json_get v "usage";
  match u with
  | Obj _ =>
      let prompt := default 0%Z (or_else (u64_at u "prompt_tokens") (u64_at u "input_tokens")) in
      let completion := default 0%Z (or_else (u64_at u "completion_tokens") (u64_at u "output_tokens")) in
      let total := default (sat_add64 prompt completion) (u64_at u "total_tokens") in
      let cached :=
        default 0%Z
          (or_else (json_get u "prompt_tokens_details" ≫= λ d, u64_at d "cached_tokens")
            (or_else (json_get u "input_tokens_details" ≫= λ d, u64_at d "cached_tokens")
              (or_else (u64_at u "cache_read_input_tokens") (u64_at u "cached_input_tokens")))) in
      let prompt_cost := or_else (f64_at u "prompt_cost") (f64_at u "input_cost") in
      let completion_cost := or_else (f64_at u "completion_cost") (f64_at u "output_cost") in
      let total_cost := or_else (f64_at u "total_cost") (f64_at u "cost") in
      if (prompt =? 0)%Z && (completion =? 0)%Z && (total =? 0)%Z
         && negb (bool_decide (is_Some prompt_cost)) && negb (bool_decide (is_Some completion_cost))
         && negb (bool_decide (is_Some total_cost))
      then None
      else Some (mkSpend prompt completion total cached prompt_cost completion_cost total_cost)
  | _ => None
  end.

Definition mkEstimate (prompt completion : Z) : SpendUsage :=
  mkSpend prompt completion (sat_add64 prompt completion) 0 None None None.
(** [estimate_prompt_only_spend_usage]. *)
Definition estimate_prompt_only_spend_usage (request_body : value) : option SpendUsage :=
  prompt ← estimate_prompt_tokens request_body;
  if (prompt =? 0)%Z then None else Some (mkEstimate prompt 0).
(** [resolve_buffered_post_dispatch_usage], the usage of it. *)
Definition resolve_buffered_post_dispatch_usage (request_body : value) (response_body : string) :
    option SpendUsage :=
  or_else (extract_spend_usage response_body) (estimate_prompt_only_spend_usage request_body).
(** [div_ceil(4)] and [estimate_streaming_spend_usage]. *)
Definition div_ceil4 (n : Z) : Z := ((n + 3) / 4)%Z.
Definition estimate_streaming_spend_usage (request_body : string) (output_text : option string)
    (output_chars : Z) : option SpendUsage :=
  let prompt := default 0%Z (from_str request_body ≫= estimate_prompt_tokens) in
  let completion :=
    match output_text with
    | Some text => div_ceil4 (Z.of_nat (String.length text))
    | None => div_ceil4 output_chars
    end in
  if (prompt =? 0)%Z && (completion =? 0)%Z then None else Some (mkEstimate prompt completion).

(** ** Settlement *)

Definition tokens_of (u : SpendUsage) : UaAgentUsageTokens :=
  mkTokens (su_prompt_tokens u) (su_completion_tokens u) (su_cached_input_tokens u).
(** [usage_authorization_completion_body]. *)
Definition usage_authorization_completion_body (usage : option UaAgentUsageTokens) (release_reason : string) :
    UsageAuthorizationCompleteRequest :=
  match usage with
  | Some u => Completed (prompt_tokens u) (completion_tokens u) (Some (cached_input_tokens u)) None
  | None => Released release_reason
  end.

(** [str::split(['.', '/', ':']).next()]. *)
Fixpoint model_prefix (s : string) : string :=
  match s with
  | EmptyString => EmptyString
  | String a s => if bool_decide (a ∈ ["."; "/"; ":"]%char) then EmptyString else String a (model_prefix s)
  end.
(** [infer_provider_from_model]. *)
Definition infer_provider_from_model (model : string) : option string :=
  let normalized := to_ascii_lowercase (trim model) in
  let prefix := model_prefix normalized in
  if bool_decide (prefix ∈ ["openai"; "anthropic"; "cohere"; "amazon"; "deepseek"; "groq"]%string) then Some prefix
  else if bool_decide (prefix ∈ ["mistral"; "mistralai"]%string) then Some "mistral"%string
  else if bool_decide (prefix ∈ ["meta"; "meta-llama"]%string) then Some "meta"%string
  else if String.eqb prefix "gemini" then Some "google"%string
  else if String.prefix "gpt-" normalized || String.prefix "o1" normalized || String.prefix "o3" normalized
  then Some "openai"%string
  else if String.prefix "claude" normalized then Some "anthropic"%string
  else if String.prefix "deepseek" normalized then Some "deepseek"%string
  else None.

Definition non_blank (v : option string) : option string :=
  match trim <$> v with
  | Some s => if is_empty s then None else Some s
  | None => None
  end.
(** [ua_org_id_from_finops]. *)
Definition ua_org_id_from_finops (finops : option RequestFinopsContext) : option string :=
  finops ≫= λ f, non_blank (org_id f).
(** [maybe_increment_ua_agent_usage]. *)
Definition maybe_increment_ua_agent_usage (agent org : option string) (request_body : string)
    (usage : option UaAgentUsageTokens) (request_id : string) : list Effect :=
  match non_blank agent, non_blank org with
  | Some agent, Some org =>
      let model := default EmptyString (from_str request_body ≫= λ v, json_get v "model" ≫= json_as_str) in
      let provider := default EmptyString (infer_provider_from_model model) in
      let count f := match usage with Some u => f u | None => 0%Z end in
      [IncrementCall agent org provider model (count prompt_tokens) (count cached_input_tokens)
         (count completion_tokens) request_id]
  | _, _ => []
  end.

(** The durable completion event, and the usage of the agent when the event was
    persisted and delivered. *)
Definition settle (closeout : Result unit string) (request_id id : string)
    (body : UsageAuthorizationCompleteRequest) (increment : list Effect) : list Effect :=
  SettleCall request_id id body :: match closeout with Ok _ => increment | Err _ => [] end.

(** [format!("upstream_http_{}", status)]. *)
Definition upstream_http (status : Z) : string := "upstream_http_" ++ index_text status.

(** [finalize_ua_financial_lifecycle] with its inner function, for a buffered
    response. *)
Definition finalize_ua_financial_lifecycle (closeout : Result unit string) (st : FinancialView)
    (request_body : value) (status : Z) (response_body request_id : string) : list Effect :=
  match ua_authorization_id st, event_sink (view st) with
  | Some id, Some sink =>
      if negb (machine_client sink) then []
      else
        let usage :=
          if is_success status
          then tokens_of <$> resolve_buffered_post_dispatch_usage request_body response_body
          else None in
        let increment :=
          if ua_dispatch_acquired st && is_success status
          then maybe_increment_ua_agent_usage (current_agent_id (view st))
                 (ua_org_id_from_finops (request_finops (view st))) (canonical_json_string request_body)
                 usage request_id
          else [] in
        if is_success status
        then settle closeout request_id id
               (usage_authorization_completion_body usage "provider_usage_unavailable") increment
        else if ua_dispatch_acquired st
        then settle closeout request_id id
               (usage_authorization_completion_body None (upstream_http status)) increment
        else []
  | _, _ => []
  end.

(** [finalize_ua_streaming_financial_lifecycle], called with the authorization, the
    sink, the agent and the organisation of the state. *)
Definition finalize_ua_streaming_financial_lifecycle (closeout : Result unit string) (st : FinancialView)
    (request_body : string) (output_text : option string) (output_chars : Z)
    (released_upstream_error : bool) (request_id : string) : list Effect :=
  match ua_authorization_id st, event_sink (view st) with
  | Some id, Some sink =>
      if negb (machine_client sink) then []
      else
        let usage :=
          if released_upstream_error then None
          else tokens_of <$> estimate_streaming_spend_usage request_body output_text output_chars in
        let increment :=
          if ua_dispatch_acquired st && negb released_upstream_error
          then maybe_increment_ua_agent_usage (current_agent_id (view st))
                 (ua_org_id_from_finops (request_finops (view st))) request_body usage request_id
          else [] in
        if negb released_upstream_error
        then settle closeout request_id id
               (usage_authorization_completion_body usage "provider_usage_unavailable") increment
        else if ua_dispatch_acquired st
        then settle closeout request_id id
               (usage_authorization_completion_body None "upstream_transport_failure") increment
        else []
  | _, _ => []
  end.


(** ** Attempts are bounded *)

(** What an answer comes to when no attempt follows it, and whether one may. *)
Definition outcome_of {T} (op : string) (parse : string → Result T string) (a : Answer) :
    Result T UsageAuthorizationError :=
  match a with
  | Failed _ text => Err (Transport (op ++ " request failed: " ++ text))
  | Answered status body =>
      if is_success status then
        match parse body with
        | Ok v => Ok v
        | Err text => Err (InvalidResponse (op ++ " response invalid: " ++ text))
        end
      else Err (rejected_error from_str status body)
  end.
Definition may_retry (a : Answer) : bool :=
  match a with
  | Failed timeout_or_connect _ => timeout_or_connect
  | Answered status _ => negb (is_success status) && bool_decide (classify_status status = Transient)
  end.

(** One round of the loop. *)
Lemma attempt_loop_step {T} op (parse : string → Result T string) answers todo attempt last :
  ∃ error, attempt_loop op parse answers (S todo) attempt last
    = if may_retry (answers attempt) && (attempt <? MAX_RETRIES)
      then attempt_loop op parse answers todo (S attempt) (Some error)
      else (S attempt, outcome_of op parse (answers attempt)).
Proof.
  cbn [attempt_loop]. destruct (answers attempt) as [retry text|status body]; cbn [may_retry outcome_of].
  - by exists (Transport (op ++ " request failed: " ++ text)).
  - exists (rejected_error from_str status body). by destruct (is_success status).
Qed.

Lemma attempt_loop_spec {T} op (parse : string → Result T string) answers todo attempt last :
  todo + attempt = S MAX_RETRIES → 0 < todo →
  ∃ n, attempt ≤ n ≤ MAX_RETRIES
    ∧ attempt_loop op parse answers todo attempt last = (S n, outcome_of op parse (answers n))
    ∧ (∀ i, attempt ≤ i < n → may_retry (answers i) = true)
    ∧ (n = MAX_RETRIES ∨ may_retry (answers n) = false).
Proof.
  revert attempt last. induction todo as [|todo IH]; intros attempt last Hsum Hpos; [lia|].
  destruct (attempt_loop_step op parse answers todo attempt last) as [error ->].
  destruct (may_retry (answers attempt)) eqn:Hretry; simpl.
  2: { exists attempt. split_and!; [lia|lia|done|intros; lia|by right]. }
  destruct (Nat.ltb_spec attempt MAX_RETRIES).
  - destruct (IH (S attempt) (Some error)) as (n & Hn & Heq & Hall & Hend); [lia|lia|].
    exists n. split_and!; [lia|lia|done| |done]. intros i Hi.
    destruct (decide (i = attempt)) as [->|]; [done|]. apply Hall. lia.
  - exists attempt. split_and!; [lia|lia|done|intros; lia|left; lia].
Qed.

Lemma attempts_bounded_aux {T} (op : string) (parse : string → Result T string) (answers : nat → Answer) :
  ∃ n, n ≤ 2 ∧ with_attempts op parse answers = (S n, outcome_of op parse (answers n)).
Proof.
  destruct (attempt_loop_spec op parse answers (S MAX_RETRIES) 0 None) as (n & Hn & Heq & _); [done|lia|].
  exists n. unfold MAX_RETRIES in *. split; [lia|done].
Qed.

(** C29. The calls of the control plane that are repeated return after at most three
    requests: the result is what the last answer comes to, every earlier answer was
    a timeout, a refused connection or a transient status, and the last one was not
    or was the third. *)
Theorem attempts_bounded {T} (op : string) (parse : string → Result T string) (answers : nat → Answer) :
  ∃ n, n ≤ 2
    ∧ with_attempts op parse answers = (S n, outcome_of op parse (answers n))
    ∧ (∀ i, i < n → may_retry (answers i) = true)
    ∧ (n = 2 ∨ may_retry (answers n) = false).
Proof.
  destruct (attempt_loop_spec op parse answers (S MAX_RETRIES) 0 None) as (n & Hn & Heq & Hall & Hend); [done|lia|].
  exists n. unfold MAX_RETRIES in *. split_and!; [lia|done| |done]. intros i Hi. apply Hall. lia.
Qed.

(** ** One settlement per authorization *)

Definition settlements (es : list Effect) : list (string * UsageAuthorizationCompleteRequest) :=
  omap (λ e, match e with SettleCall _ id body => Some (id, body) | _ => None end) es.

Lemma settlements_increment agent org body usage request_id :
  settlements (maybe_increment_ua_agent_usage agent org body usage request_id) = [].
Proof. unfold maybe_increment_ua_agent_usage. by repeat case_match. Qed.

Lemma settlements_settle closeout request_id id body increment :
  settlements increment = [] → settlements (settle closeout request_id id body increment) = [(id, body)].
Proof. intros Hi. unfold settle. destruct closeout; simpl; [by rewrite Hi|done]. Qed.

Lemma settlements_calls k request announce id j :
  settlements (replicate k (CreateCall request) ++ replicate j (DispatchCall id announce)) = [].
Proof.
  unfold settlements. rewrite omap_app.
  by induction k; simpl; [induction j|].
Qed.

(** A state whose authorization is dispatched and whose control plane can be
    reached. *)
Definition dispatched_with (id : string) (st : FinancialView) : Prop :=
  ua_authorization_id st = Some id ∧ ua_dispatch_acquired st = true
  ∧ ∃ sink, event_sink (view st) = Some sink ∧ machine_client sink = true.

Lemma buffered_settles id st closeout request_body status response_body request_id :
  dispatched_with id st →
  settlements (finalize_ua_financial_lifecycle closeout st request_body status response_body request_id)
  = [(id, if is_success status
          then usage_authorization_completion_body
                 (tokens_of <$> resolve_buffered_post_dispatch_usage request_body response_body)
                 "provider_usage_unavailable"
          else Released (upstream_http status))].
Proof.
  intros (Hid & Hacq & sink & Hsink & Hclient). unfold finalize_ua_financial_lifecycle.
  rewrite Hid, Hsink, Hclient, Hacq. simpl.
  destruct (is_success status); apply settlements_settle; [apply settlements_increment|done].
Qed.


Lemma unauthorized_unsettled st :
  ua_authorization_id st = None →
  (∀ closeout request_body status response_body request_id,
     finalize_ua_financial_lifecycle closeout st request_body status response_body request_id = [])
  ∧ (∀ closeout request_body text chars released request_id,
     finalize_ua_streaming_financial_lifecycle closeout st request_body text chars released request_id = []).
Proof.
  intros Hid. split; intros; unfold finalize_ua_financial_lifecycle, finalize_ua_streaming_financial_lifecycle;
    by rewrite Hid.
Qed.

Section prepare.
Context (pricing : UsagePricing) (pinned : Result (option string) ErrorResponse)
  (create : Url → nat → Answer) (dispatch : Url → Answer) (attempt : string) (byok : bool)
  (request_id : string) (family : UsageAuthorizationRequestFamily) (prompt completion : Z).

Abbreviation prepare st :=
  (prepare_ua_financial_lifecycle pricing pinned create dispatch attempt byok request_id family
     prompt completion st).


Lemma create_sent url sent r :
  create_usage_authorization create url = (sent, Ok r) → 1 ≤ sent ≤ 3.
Proof.
  unfold create_usage_authorization. destruct (usage_authorization_url _ _) as [u|e]; [|done].
  destruct (attempts_bounded_aux "authorize" record_of (create u)) as (n & Hn & ->).
  intros [= <- _]. lia.
Qed.





(** An authorization whose dispatch fails is never released: when the control
    plane has created the authorization and the announcement of the attempt fails,
    the request is answered with a conflict, the identifier of the authorization is
    dropped, and neither the preparation nor any later settlement of the request
    sends a completion; the reserved amount stays held. *)
Theorem dispatch_failure_leaks_authorization (st : FinancialView) (d : UsageAuthorizationDocument)
    (target url : string) (request : UsageAuthorizationCreateRequest) (sent : nat)
    (record : UsageAuthorizationRecord)
    (Hd : ua_eval_document st = Some d) (Hfirst : ua_authorization_id st = None)
    (Hpin : pinned = Ok (Some target))
    (Hrequest : prepare_request pricing (with_pin st target) byok request_id family prompt completion d
                = Ok (url, request))
    (Hcreate : create_usage_authorization create url = (sent, Ok record))
    (Hdispatch : is_ok (dispatch_usage_authorization dispatch url (gateway_usage_authorization_id record)).2 = false) :
  let '(st', es, r) := prepare st in
  CreateCall request ∈ es ∧ r = Err dispatch_indeterminate ∧ settlements es = []
  ∧ (∀ closeout request_body status response_body,
       finalize_ua_financial_lifecycle closeout st' request_body status response_body request_id = [])
  ∧ (∀ closeout request_body text chars released,
       finalize_ua_streaming_financial_lifecycle closeout st' request_body text chars released request_id = []).
Proof.
  unfold prepare_ua_financial_lifecycle. rewrite Hd, Hpin. cbv zeta. rewrite Hrequest, Hcreate.
  destruct (dispatch_usage_authorization _ _ _) as [sent' [r|e]]; [done|].
  destruct (unauthorized_unsettled (with_pin st target) Hfirst) as [? ?].
  split_and!; [|done|apply settlements_calls|eauto..].
  apply create_sent in Hcreate. apply elem_of_app. left. apply elem_of_replicate. split; [done|lia].
Qed.

(** A refusal for lack of budget is repeated and renamed: when the control plane
    rejects every creation with status 429 and the code of an exceeded budget, which
    no repetition changes, the gateway asks three times and answers 402, although
    the stable answer to a budget or rate ceiling is documented as 429. *)
Theorem budget_refusal_repeated (st : FinancialView) (d : UsageAuthorizationDocument)
    (target url : string) (request : UsageAuthorizationCreateRequest) (body : string)
    (Hd : ua_eval_document st = Some d) (Hpin : pinned = Ok (Some target))
    (Hrequest : prepare_request pricing (with_pin st target) byok request_id family prompt completion d
                = Ok (url, request))
    (Hurl : is_ok (usage_authorization_url url USAGE_AUTHORIZATION_PATH) = true)
    (Hanswers : ∀ u n, create u n = Answered 429 body)
    (Hcode : error_code (rejected_error from_str 429 body) = Some BudgetExceeded) :
  let '(_, es, r) := prepare st in
  es = replicate 3 (CreateCall request)
  ∧ ∃ response, r = Err response ∧ er_status response = 402%Z.
Proof.
  unfold prepare_ua_financial_lifecycle. rewrite Hd, Hpin. cbv zeta. rewrite Hrequest.
  unfold create_usage_authorization. destruct (usage_authorization_url _ _) as [u|]; [|done].
  unfold with_attempts, MAX_RETRIES. cbn [attempt_loop]. rewrite !Hanswers.
  cbn [is_success]. simpl. split; [done|]. eexists. split; [done|]. unfold create_failed. by rewrite Hcode.
Qed.
End prepare.

(** An estimate is settled as the usage of the provider: for a successful
    response that reports no usage, the completion carries the tokens estimated of
    the prompt and none for the output, and does not release the authorization,
    although the completion is documented to report only counts that the provider
    returned. *)
Theorem estimate_settled_as_usage (id request_id response_body : string) (st : FinancialView)
    (closeout : Result unit string) (request_body : value) (status prompt : Z)
    (Hst : dispatched_with id st) (Hstatus : is_success status = true)
    (Husage : extract_spend_usage response_body = None)
    (Hprompt : estimate_prompt_tokens request_body = Some prompt) (Hpos : (0 < prompt)%Z) :
  settlements (finalize_ua_financial_lifecycle closeout st request_body status response_body request_id)
  = [(id, Completed prompt 0 (Some 0%Z) None)].
Proof.
  rewrite (buffered_settles id) by done. rewrite Hstatus. unfold resolve_buffered_post_dispatch_usage.
  rewrite Husage. simpl. unfold estimate_prompt_only_spend_usage. rewrite Hprompt. simpl.
  by destruct (Z.eqb_spec prompt 0); [lia|].
Qed.
End lifecycle.

(** ** Retries terminate *)

Lemma retry_loop_spec {T E} max classify (execute : nat → Result T E) fuel n :
  (0 ≤ max < u32_max)%Z → (Z.of_nat n ≤ max)%Z → fuel + n = S (Z.to_nat max) →
  (∀ i, i < n → ∃ e, execute i = Err e ∧ classify e = Transient) →
  ∃ m, (Z.of_nat m ≤ max)%Z ∧ retry_loop max classify execute fuel (Z.of_nat n) n = Some (execute m, S m)
    ∧ (∀ i, i < m → ∃ e, execute i = Err e ∧ classify e = Transient)
    ∧ (∀ e, execute m = Err e → classify e = Permanent ∨ Z.of_nat m = max).
Proof.
  intros Hmax. revert n. induction fuel as [|fuel IH]; intros n Hn Hfuel Hpast; [lia|].
  cbn [retry_loop]. destruct (execute n) as [v|e] eqn:He.
  { exists n. rewrite He. by split_and!. }
  rewrite wrap32_small by width_lia. case_bool_decide as Hc.
  { exists n. rewrite He. split_and!; [done..|]. intros e' [= <-]. by left. }
  destruct (Z.ltb_spec max (Z.of_nat n + 1)).
  { exists n. rewrite He. split_and!; [done..|]. right. lia. }
  replace (Z.of_nat n + 1)%Z with (Z.of_nat (S n)) by lia. apply IH; [lia|lia|].
  intros i Hi. destruct (decide (i = n)) as [->|]; [|apply Hpast; lia].
  exists e. split; [done|]. by destruct (classify e).
Qed.

(** Retrying terminates: with a limit below the range of the counter, an
    operation is executed at most once more than the limit and its last result is
    returned; all executions before it failed transiently, and when it failed too
    the failure is permanent or the limit is reached. *)
Theorem retry_bounded {T E} (max_retries : Z) (classify : E → RetryClassification)
    (execute : nat → Result T E) (Hmax : (0 ≤ max_retries < u32_max)%Z) :
  ∃ n, (Z.of_nat n ≤ max_retries)%Z
    ∧ with_retry_classified max_retries classify execute = Some (execute n, S n)
    ∧ (∀ i, i < n → ∃ e, execute i = Err e ∧ classify e = Transient)
    ∧ (∀ e, execute n = Err e → classify e = Permanent ∨ Z.of_nat n = max_retries).
Proof. apply (retry_loop_spec max_retries classify execute _ 0); [done|lia|lia|lia]. Qed.

Definition flaky (n : nat) : Result unit Z := if n <? 2 then Err 503%Z else Ok tt.
Lemma retry_bounded_witness :
  with_retry_classified 3 classify_status flaky = Some (Ok tt, 3)
  ∧ ∃ n, (Z.of_nat n ≤ 3)%Z ∧ with_retry_classified 3 classify_status flaky = Some (flaky n, S n).
Proof.
  split; [reflexivity|].
  destruct (retry_bounded 3 classify_status flaky) as (n & Hn & Heq & _); [width_lia|].
  exists n. split; [exact Hn|exact Heq].
Defined.

(** ** A concrete control plane *)

Module LifecycleModel.
Import UaModel.

Definition created : UsageAuthorizationRecord :=
  mkRecord "auth-1" Authorized "0" "price-1" "0.02" ∅ (doc true).
Definition record_of (body : string) : Result UsageAuthorizationRecord string :=
  if String.eqb body "created" then Ok created else Err "no record"%string.
Definition dispatched_of (body : string) : Result UsageAuthorizationDispatchResponse string :=
  if String.eqb body "dispatched" then Ok (mkDispatched "auth-1" Dispatched "attempt-1") else Err "no dispatch"%string.
Definition from_str (body : string) : option (Value Z) :=
  if String.eqb body "broke"
  then Some (Obj [("error"%string, Obj [("code"%string, Str "usage_authorization.budget_exceeded")])]) else None.
Definition price : UsagePricing := mkPricing "openai" "cheap" "0.02".
Definition fresh : FinancialView := mkFinancial state false true (Some (doc true)) None None false.
(** A request of one message of four bytes, of one token and four for the message. *)
Definition asked : Value Z :=
  Obj [("messages", Arr [Obj [("role", Str "user"); ("content", Str "abcd")]])]%string.
Definition create : string → nat → Answer := λ _ n, if n <? 1 then Answered 503 "busy" else Answered 201 "created".
Definition dispatch : string → Answer := λ _, Answered 200 "dispatched".
Definition lost : string → Answer := λ _, Failed true "connection reset".
Definition refused : string → nat → Answer := λ _ _, Answered 429 "broke".
Definition request : UsageAuthorizationCreateRequest :=
  create_request (H0 := lib) state "req-1" "6f9619ff-8b86-d011-b42d-00c04fc964ff" Chat 10 20 price (doc true).

End LifecycleModel.

Section witnesses.
Import UaModel LifecycleModel.

Abbreviation prepared create dispatch :=
  (prepare_ua_financial_lifecycle (H := JsonModel.json) (H0 := lib) LifecycleModel.from_str record_of dispatched_of
     price (Ok (Some "target"%string)) create dispatch "attempt-1" true "req-1" Chat 10 20 fresh).


Lemma dispatch_failure_leaks_authorization_witness :
  let '(_, es, r) := prepared LifecycleModel.create lost in
  CreateCall LifecycleModel.request ∈ es ∧ r = Err dispatch_indeterminate ∧ settlements es = [].
Proof.
  pose proof (dispatch_failure_leaks_authorization (H := JsonModel.json) (H0 := lib) LifecycleModel.from_str record_of
    dispatched_of (λ _, None) (λ _, None) price (Ok (Some "target"%string)) LifecycleModel.create lost
    "attempt-1" true "req-1" Chat 10 20 fresh (doc true) "target" "https://api" LifecycleModel.request 2 created
    eq_refl eq_refl eq_refl eq_refl eq_refl eq_refl) as Hleak.
  destruct (prepared LifecycleModel.create lost) as [[st es] r].
  destruct Hleak as (H1 & H2 & H3 & _). split; [exact H1|split; [exact H2|exact H3]].
Defined.

Lemma budget_refusal_repeated_witness :
  let '(_, es, r) := prepared refused dispatch in
  es = replicate 3 (CreateCall LifecycleModel.request) ∧ ∃ response, r = Err response ∧ er_status response = 402%Z.
Proof.
  exact (budget_refusal_repeated (H := JsonModel.json) (H0 := lib) LifecycleModel.from_str record_of dispatched_of
    price (Ok (Some "target"%string)) refused dispatch "attempt-1" true "req-1" Chat 10 20 fresh (doc true)
    "target" "https://api" LifecycleModel.request "broke" eq_refl eq_refl eq_refl eq_refl (λ _ _, eq_refl) eq_refl).
Defined.

Lemma estimate_settled_as_usage_witness :
  settlements (finalize_ua_financial_lifecycle (H := JsonModel.json) LifecycleModel.from_str
    (λ _, None) (λ _, None) (Ok tt) (with_authorization fresh "auth-1") asked 200 "text" "req-1")
  = [("auth-1"%string, Completed 5 0 (Some 0%Z) None)].
Proof.
  apply (estimate_settled_as_usage (H := JsonModel.json) LifecycleModel.from_str (λ _, None) (λ _, None)
    "auth-1" "req-1" "text" (with_authorization fresh "auth-1") (Ok tt) asked 200 5).
  - split; [reflexivity|split; [reflexivity|eexists; split; reflexivity]].
  - reflexivity.
  - reflexivity.
  - reflexivity.
  - lia.
Defined.
End witnesses.
