(* ===== verification/FloatInt.v ===== *)
(** * FloatInt: binary64 computes exactly on integers below 2^53

    Weights, counters and token counts are [f64] in the routing code.  On integers
    of magnitude below 2^53 the additions, subtractions and comparisons of [Float]
    are those of [Z]; this file proves it of the Standard Library's [spec_float],
    so that theorems about such code can be stated on integers. *)

From Stdlib Require Import ZArith SpecFloat Lia.
From stdpp Require Import base numbers.
From S2P Require Import Prelude Float.

Local Open Scope Z_scope.

(** The number of binary digits, and the integer as a double: its mantissa
    shifted to 53 digits. *)
Definition digits (m : positive) : Z := Zpos (digits2_pos m).
Definition shifted (m : positive) (k : Z) : positive := Z.to_pos (Zpos m * 2 ^ k).
Definition f64_int (z : Z) : f64 :=
  match z with
  | Z0 => S754_zero false
  | Zpos m => S754_finite false (shifted m (53 - digits m)) (digits m - 53)
  | Zneg m => S754_finite true (shifted m (53 - digits m)) (digits m - 53)
  end.
Definition exact_int (z : Z) : Prop := Z.abs z < 2 ^ 53.

Lemma digits_spec m : 2 ^ (digits m - 1) ≤ Zpos m < 2 ^ digits m.
Proof.
  unfold digits. induction m as [m IH|m IH|]; cbn [digits2_pos]; [| |done];
    rewrite Pos2Z.inj_succ; replace (Z.succ (Zpos (digits2_pos m)) - 1) with (Zpos (digits2_pos m)) by lia;
    rewrite Z.pow_succ_r by lia;
    replace (2 ^ Zpos (digits2_pos m)) with (2 * 2 ^ (Zpos (digits2_pos m) - 1)) in *
      by (rewrite <- Z.pow_succ_r by lia; f_equal; lia); lia.
Qed.

Lemma digits_unique m d : 2 ^ (d - 1) ≤ Zpos m < 2 ^ d → digits m = d.
Proof.
  intros [H1 H2]. destruct (digits_spec m) as [H3 H4].
  assert (d - 1 < digits m) by (apply (Z.pow_lt_mono_r_iff 2); [lia|unfold digits; lia|lia]).
  assert (digits m - 1 < d); [|lia].
  assert (0 < d).
  { destruct (Z.lt_ge_cases 0 d); [done|]. pose proof (Z.pow_le_mono_r 2 d 0 ltac:(lia) ltac:(lia)).
    simpl in *. lia. }
  apply (Z.pow_lt_mono_r_iff 2); lia.
Qed.

Lemma shifted_Z m k : 0 ≤ k → Zpos (shifted m k) = Zpos m * 2 ^ k.
Proof. intros Hk. unfold shifted. rewrite Z2Pos.id; [done|]. pose proof (Z.pow_pos_nonneg 2 k). lia. Qed.

Lemma digits_scaled p m k : 0 ≤ k → Zpos p = Zpos m * 2 ^ k → digits p = digits m + k.
Proof.
  intros Hk Hp. apply digits_unique. rewrite Hp. destruct (digits_spec m) as [H1 H2].
  assert (1 ≤ digits m) by (unfold digits; lia). pose proof (Z.pow_pos_nonneg 2 k ltac:(lia) Hk).
  replace (digits m + k - 1) with (digits m - 1 + k) by lia.
  rewrite !Z.pow_add_r by lia. nia.
Qed.

Lemma exact_digits m : Zpos m < 2 ^ 53 → 1 ≤ digits m ≤ 53.
Proof.
  intros Hm. split; [unfold digits; lia|]. destruct (digits_spec m) as [H _].
  assert (digits m - 1 < 53); [|lia]. apply (Z.pow_lt_mono_r_iff 2); lia.
Qed.

(** ** Rounding an integer, however it is scaled *)

Lemma iter_xO m p : Zpos (Pos.iter xO m p) = Zpos m * 2 ^ Zpos p.
Proof.
  induction p as [|p IH] using Pos.peano_ind; [simpl; lia|].
  rewrite Pos.iter_succ, Pos2Z.inj_xO, IH, Pos2Z.inj_succ, Z.pow_succ_r by lia. lia.
Qed.

Lemma iter_pos_iter {A} (f : A → A) p x : SpecFloat.iter_pos f p x = Pos.iter f x p.
Proof.
  revert x. induction p as [p IH|p IH|]; intros x; simpl; [| |done].
  - rewrite !IH, <- !Pos.iter_swap. done.
  - by rewrite !IH.
Qed.

(** Dropping zero digits is exact. *)
Lemma shr_exact m p : 
  SpecFloat.iter_pos shr_1 p (Build_shr_record (Zpos m * 2 ^ Zpos p) false false) = Build_shr_record (Zpos m) false false.
Proof.
  rewrite iter_pos_iter. induction p as [|p IH] using Pos.peano_ind.
  - replace (Zpos m * 2 ^ 1) with (Zpos m~0) by lia. done.
  - rewrite Pos.iter_succ_r. rewrite Pos2Z.inj_succ, Z.pow_succ_r by lia.
    replace (Zpos m * (2 * 2 ^ Zpos p)) with (Zpos (Pos.iter xO m p)~0) by (rewrite Pos2Z.inj_xO, iter_xO; lia).
    cbn [shr_1 orb]. by rewrite iter_xO.
Qed.

Lemma shl_align_Z m k k' :
  k ≤ k' → Zpos (shl_align m (- k) (- k')).1 = Zpos m * 2 ^ (k' - k).
Proof.
  intros Hk. unfold shl_align. destruct (- k' - - k) as [|p|p] eqn:Hp; simpl; [|lia|].
  - replace (k' - k) with 0 by lia. lia.
  - rewrite iter_xO. do 2 f_equal. lia.
Qed.

Lemma fexp_small d : 1 ≤ d ≤ 53 → fexp 53 1024 d = d - 53.
Proof. intros Hd. unfold fexp, emin. lia. Qed.

Lemma round_aux_exact s m k :
  1 ≤ digits m ≤ 53 → 53 - digits m ≤ k →
  binary_round_aux 53 1024 s (Zpos m * 2 ^ k) (- k) loc_Exact
  = S754_finite s (shifted m (53 - digits m)) (digits m - 53).
Proof.
  intros Hd Hk. unfold binary_round_aux, shr_fexp.
  assert (∃ p, Zpos p = Zpos m * 2 ^ k) as [p Hp] by (exists (shifted m k); apply shifted_Z; lia).
  rewrite <- Hp. cbn [Zdigits2]. change (Zpos (digits2_pos p)) with (digits p).
  rewrite (digits_scaled p m k) by (lia || done). replace (digits m + k + - k) with (digits m) by lia.
  rewrite fexp_small by done. set (q := shifted m (53 - digits m)).
  assert (Hq : Zpos q = Zpos m * 2 ^ (53 - digits m)) by (apply shifted_Z; lia).
  assert (shr (shr_record_of_loc (Zpos p) loc_Exact) (- k) (digits m - 53 - - k)
    = (Build_shr_record (Zpos q) false false, digits m - 53)) as ->.
  { unfold shr. destruct (digits m - 53 - - k) as [|n|n] eqn:Hn; [| |lia].
    - simpl. f_equal; [|lia]. f_equal. rewrite Hp, Hq. do 2 f_equal. lia.
    - cbn [shr_record_of_loc]. rewrite Hp. replace k with (53 - digits m + Zpos n) at 1 by lia.
      rewrite Z.pow_add_r, Z.mul_assoc, <- Hq, shr_exact by lia. f_equal. lia. }
  cbn [shr_m loc_of_shr_record round_nearest_even Zdigits2]. change (Zpos (digits2_pos q)) with (digits q).
  rewrite (digits_scaled q m (53 - digits m)) by (lia || done).
  replace (fexp _ _ _ - (digits m - 53)) with 0.
  - cbn [shr shr_record_of_loc shr_m]. destruct (Z.leb_spec (digits m - 53) (1024 - 53)); [done|lia].
  - replace (digits m + (53 - digits m) + (digits m - 53)) with (digits m) by lia. rewrite fexp_small by done. lia.
Qed.

Lemma round_exact s p m k :
  1 ≤ digits m ≤ 53 → 0 ≤ k → Zpos p = Zpos m * 2 ^ k →
  binary_round 53 1024 s p (- k) = S754_finite s (shifted m (53 - digits m)) (digits m - 53).
Proof.
  intros Hd Hk Hp. unfold binary_round. change (Zpos (digits2_pos p)) with (digits p).
  rewrite (digits_scaled p m k) by done. replace (digits m + k + - k) with (digits m) by lia.
  rewrite fexp_small by done.
  destruct (shl_align p (- k) (digits m - 53)) as [q e] eqn:Hq.
  destruct (Z.le_gt_cases k (53 - digits m)).
  - assert (Zpos q = Zpos m * 2 ^ (53 - digits m)) as Heq.
    { replace q with (shl_align p (- k) (- (53 - digits m))).1
        by (replace (- (53 - digits m)) with (digits m - 53) by lia; by rewrite Hq).
      rewrite shl_align_Z, Hp, <- Z.mul_assoc, <- Z.pow_add_r by lia. do 2 f_equal. lia. }
    assert (e = - (53 - digits m)) as ->.
    { unfold shl_align in Hq. destruct (digits m - 53 - - k) as [|n|n] eqn:Hn; injection Hq; lia. }
    rewrite Heq. apply round_aux_exact; lia.
  - assert (q = p ∧ e = - k) as [-> ->].
    { unfold shl_align in Hq. destruct (digits m - 53 - - k) as [|n|n] eqn:Hn; [| |lia]; by injection Hq. }
    rewrite Hp. apply round_aux_exact; lia.
Qed.

(** An exact integer, scaled by any power of two, rounds to itself. *)
Lemma normalize_exact z k :
  exact_int z → 0 ≤ k → binary_normalize 53 1024 (z * 2 ^ k) (- k) false = f64_int z.
Proof.
  unfold exact_int. intros Hz Hk. pose proof (Z.pow_pos_nonneg 2 k ltac:(lia) Hk).
  destruct z as [|m|m]; [done| |]; simpl in Hz.
  - assert (∃ p, Zpos p = Zpos m * 2 ^ k) as [p Hp] by (exists (shifted m k); by apply shifted_Z).
    rewrite <- Hp. simpl. apply (round_exact false p m k); [by apply exact_digits|done|done].
  - assert (∃ p, Zpos p = Zpos m * 2 ^ k) as [p Hp] by (exists (shifted m k); by apply shifted_Z).
    replace (Zneg m * 2 ^ k) with (Zneg p) by lia. simpl.
    apply (round_exact true p m k); [by apply exact_digits|done|done].
Qed.

Lemma f64_of_u64_int z : exact_int z → f64_of_u64 z = f64_int z.
Proof. intros Hz. unfold f64_of_u64. rewrite <- (normalize_exact z 0) by done. f_equal. lia. Qed.

(** ** Arithmetic *)

Lemma int_form z :
  z ≠ 0 → exact_int z →
  ∃ s M n, f64_int z = S754_finite s M (- n) ∧ 0 ≤ n ∧ cond_Zopp s (Zpos M) = z * 2 ^ n.
Proof.
  unfold exact_int. intros Hnz Hz. destruct z as [|m|m]; [done| |]; simpl in Hz;
    destruct (exact_digits m Hz); eexists _, (shifted m (53 - digits m)), (53 - digits m);
    (split; [simpl; f_equal; lia|split; [lia|]]); cbn [cond_Zopp]; rewrite shifted_Z by lia; lia.
Qed.

Lemma aligned_form s M n k z :
  0 ≤ n ≤ k → cond_Zopp s (Zpos M) = z * 2 ^ n →
  cond_Zopp s (Zpos (shl_align M (- n) (- k)).1) = z * 2 ^ k.
Proof.
  intros Hn HM. rewrite shl_align_Z by lia. replace k with (n + (k - n)) at 2 by lia.
  rewrite Z.pow_add_r, Z.mul_assoc, <- HM by lia. destruct s; simpl; lia.
Qed.

Lemma f64_add_int a b :
  exact_int a → exact_int b → exact_int (a + b) → f64_add (f64_int a) (f64_int b) = f64_int (a + b).
Proof.
  intros Ha Hb Hab. destruct (decide (a = 0)) as [->|Ha0]; [by destruct b|].
  destruct (decide (b = 0)) as [->|Hb0]; [rewrite Z.add_0_r; by destruct a|].
  destruct (int_form a Ha0 Ha) as (s & M & n & -> & Hn & HM).
  destruct (int_form b Hb0 Hb) as (t & N & k & -> & Hk & HN).
  unfold f64_add. cbn [SFadd]. replace (Z.min (- n) (- k)) with (- Z.max n k) by lia.
  rewrite (aligned_form s M n (Z.max n k) a), (aligned_form t N k (Z.max n k) b) by (lia || done).
  rewrite <- Z.mul_add_distr_r. apply normalize_exact; [done|lia].
Qed.

Lemma f64_sub_int a b :
  exact_int a → exact_int b → exact_int (a - b) → f64_sub (f64_int a) (f64_int b) = f64_int (a - b).
Proof.
  intros Ha Hb Hab. destruct (decide (a = 0)) as [->|Ha0]; [by destruct b|].
  destruct (decide (b = 0)) as [->|Hb0]; [rewrite Z.sub_0_r; by destruct a|].
  destruct (int_form a Ha0 Ha) as (s & M & n & -> & Hn & HM).
  destruct (int_form b Hb0 Hb) as (t & N & k & -> & Hk & HN).
  unfold f64_sub. cbn [SFsub]. replace (Z.min (- n) (- k)) with (- Z.max n k) by lia.
  rewrite (aligned_form s M n (Z.max n k) a), (aligned_form t N k (Z.max n k) b) by (lia || done).
  rewrite <- Z.mul_sub_distr_r. apply normalize_exact; [done|lia].
Qed.

(** Positive doubles compare as integers: by the exponent, then by the mantissa. *)
Lemma compare_shifted m m' :
  Zpos m < 2 ^ 53 → Zpos m' < 2 ^ 53 →
  match digits m - 53 ?= digits m' - 53 with
  | Lt => Lt
  | Gt => Gt
  | Eq => Pos.compare_cont Eq (shifted m (53 - digits m)) (shifted m' (53 - digits m'))
  end = (Zpos m ?= Zpos m').
Proof.
  intros Hm Hm'. pose proof (exact_digits m Hm). pose proof (exact_digits m' Hm').
  destruct (digits_spec m) as [Hlo Hhi], (digits_spec m') as [Hlo' Hhi'].
  destruct (Z.compare_spec (digits m - 53) (digits m' - 53)) as [Heq|Hlt|Hgt].
  - transitivity (Zpos (shifted m (53 - digits m)) ?= Zpos (shifted m' (53 - digits m'))); [done|].
    rewrite !shifted_Z by lia. replace (digits m') with (digits m) by lia.
    symmetry. apply Zmult_compare_compat_r. apply Z.lt_gt, Z.pow_pos_nonneg; lia.
  - symmetry. apply Z.compare_lt_iff. apply (Z.lt_le_trans _ (2 ^ digits m)); [done|].
    transitivity (2 ^ (digits m' - 1)); [apply Z.pow_le_mono_r; lia|done].
  - symmetry. apply Z.compare_gt_iff. apply (Z.lt_le_trans _ (2 ^ digits m')); [done|].
    transitivity (2 ^ (digits m - 1)); [apply Z.pow_le_mono_r; lia|done].
Qed.

Lemma f64_compare_int a b :
  exact_int a → exact_int b → SFcompare (f64_int a) (f64_int b) = Some (a ?= b).
Proof.
  unfold exact_int. intros Ha Hb. destruct a as [|m|m], b as [|m'|m']; try done; cbn [f64_int SFcompare]; f_equal.
  - by apply compare_shifted.
  - transitivity (CompOpp (Zpos m ?= Zpos m')); [|done]. rewrite <- compare_shifted by done.
    by destruct (digits m - 53 ?= digits m' - 53).
Qed.
