(* ===== verification/ProviderSelection.v ===== *)
(** * ProviderSelection: the order in which providers are tried

    (src/src/gateway/provider_metrics.rs, with the targets and the routing
    configuration of providers.rs.)

    The metrics of a gateway (samples of latency and throughput, token usage, open
    connections, health, the counters of round robin) and the selection of
    providers for a request: eligibility, health, a strategy, the warm-up lane, the
    configured order, the service levels and the truncation without fallbacks.  The
    readings of the clock and the pseudo-random numbers derived from them are
    arguments, as is the order in which a [HashMap] is iterated.  Indices range over
    the targets, so the indexing of the source is in range. *)

From Stdlib Require Import ZArith Ascii String SpecFloat.
From stdpp Require Import base gmap strings list sorting.
From S2P Require Import Prelude Text Float FloatInt Detection Redaction.

(** ** Targets and routing *)

Record ProviderPricing := mkPricing {
  input_price_per_million : f64;
  output_price_per_million : f64;
}.
Record ProviderModelEntry := mkModel {
  model_id : string; aliases : list string; enabled : bool; supported_features : list string;
}.
Record DataPolicy := mkDataPolicy {
  zero_data_retention : bool; training_opt_out : bool; retention_days : option Z;
  in_memory_only : bool; sanitized : bool; accepts_tokenized_input : bool;
  dp_allow_internet_egress : bool; dp_local_only_processing : bool;
}.
(** The fields of a target that routing reads; of its secrets only that they are
    there, of its residency policy the regions. *)
Record ProviderTarget := mkTarget {
  id : string;
  provider : string;
  model : string;
  description : option string;
  api_key : string;
  secret_key_ref : bool;
  oauth2 : bool;
  max_context_tokens : option Z;
  data_policy : option DataPolicy;
  pricing : option ProviderPricing;
  models : list ProviderModelEntry;
  zdr : bool;
  region : option string;
  quantizations : option (list string);
  weight : option f64;
  data_residency : option (list string);
}.

Inductive RoutingStrategy :=
| Ordered | LowestLatency | HighestThroughput | RoundRobin | WeightedRoundRobin | LeastConnections
| Random | Semantic | SimpleShuffle | LeastBusy | UsageBased | TaskAware.

Inductive Percentile := P50 | P90 | P99.
Record PerformanceCutoff := mkCutoff { value : f64; percentile : Percentile }.
Record MaxPrice := mkMaxPrice { mp_prompt : option f64; mp_completion : option f64; mp_request : option f64 }.

(** The fields of [RoutingConfig] that the selection and the filters read. *)
Record RoutingConfig := mkRouting {
  strategy : RoutingStrategy;
  exploration_ratio : f64;
  order : option (list string);
  allow_fallbacks : bool;
  only : option (list string);
  ignore : option (list string);
  max_price : option MaxPrice;
  preferred_max_latency : option PerformanceCutoff;
  preferred_min_throughput : option PerformanceCutoff;
  require_region : option string;
  require_quantizations : option (list string);
  semantic_embedding_provider : option string;
  semantic_similarity_threshold : f64;
  enable_pre_call_checks : bool;
  warmup_ratio : f64;
}.

(** ** Metrics *)

Record ProviderSample := mkSample { timestamp : Z; ttft_ms : Z; throughput_tps : f64 }.
Record UsageSample := mkUsageSample { u_timestamp : Z; total_tokens : Z }.
Record ProviderMetrics := mkMetrics {
  inner : gmap string (list ProviderSample);
  window : Z;
  min_sample_count : Z;
  rr_counter : Z;
  active_conns : gmap string Z;
  wrr_state : gmap string f64;
  health : gmap string bool;
  usage : gmap string (list UsageSample);
}.
Definition metrics_new (window_seconds min_sample_count : Z) : ProviderMetrics :=
  mkMetrics ∅ (from_secs window_seconds) min_sample_count 0 ∅ ∅ ∅ ∅.

Definition set_inner (m : ProviderMetrics) (x : gmap string (list ProviderSample)) : ProviderMetrics :=
  mkMetrics x (window m) (min_sample_count m) (rr_counter m) (active_conns m) (wrr_state m) (health m) (usage m).
Definition set_rr (m : ProviderMetrics) (x : Z) : ProviderMetrics :=
  mkMetrics (inner m) (window m) (min_sample_count m) x (active_conns m) (wrr_state m) (health m) (usage m).
Definition set_active (m : ProviderMetrics) (x : gmap string Z) : ProviderMetrics :=
  mkMetrics (inner m) (window m) (min_sample_count m) (rr_counter m) x (wrr_state m) (health m) (usage m).
Definition set_wrr (m : ProviderMetrics) (x : gmap string f64) : ProviderMetrics :=
  mkMetrics (inner m) (window m) (min_sample_count m) (rr_counter m) (active_conns m) x (health m) (usage m).
Definition set_health (m : ProviderMetrics) (x : gmap string bool) : ProviderMetrics :=
  mkMetrics (inner m) (window m) (min_sample_count m) (rr_counter m) (active_conns m) (wrr_state m) x (usage m).
Definition set_usage (m : ProviderMetrics) (x : gmap string (list UsageSample)) : ProviderMetrics :=
  mkMetrics (inner m) (window m) (min_sample_count m) (rr_counter m) (active_conns m) (wrr_state m) (health m) x.

(** The loop that pops expired samples off the front. *)
Fixpoint evict {A} (stamp : A → Z) (cutoff : Z) (samples : list A) : list A :=
  match samples with
  | s :: rest => if (stamp s <? cutoff)%Z then evict stamp cutoff rest else samples
  | [] => []
  end.

(** [Duration::as_secs_f64] and [as_millis] of a duration in nanoseconds. *)
Definition f64_billion : f64 := f64_of_u64 1000000000.
Definition as_secs_f64 (d : Z) : f64 :=
  f64_add (f64_of_u64 (d / 1000000000)) (f64_div (f64_of_u64 (d mod 1000000000)) f64_billion).
Definition as_millis (d : Z) : Z := wrap64 (d / 1000000).

(** [record] and [record_usage]; [now] stamps the sample, [later] is the reading
    for the cut-off. *)
Definition record (m : ProviderMetrics) (provider_id : string) (ttft tokens total_duration now later : Z) :
    ProviderMetrics :=
  let tps := if f64_gt (as_secs_f64 total_duration) f64_zero
             then f64_div (f64_of_u64 tokens) (as_secs_f64 total_duration) else f64_zero in
  let samples := default [] (inner m !! provider_id) ++ [mkSample now (as_millis ttft) tps] in
  set_inner m (<[provider_id := evict timestamp (later - window m) samples]> (inner m)).
Definition record_usage (m : ProviderMetrics) (provider_id : string) (tokens now later : Z) : ProviderMetrics :=
  let samples := default [] (usage m !! provider_id) ++ [mkUsageSample later tokens] in
  set_usage m (<[provider_id := evict u_timestamp (now - window m) samples]> (usage m)).

Definition increment_active (m : ProviderMetrics) (provider_id : string) : ProviderMetrics :=
  set_active m (<[provider_id := wrap64 (default 0%Z (active_conns m !! provider_id) + 1)]> (active_conns m)).
Definition decrement_active (m : ProviderMetrics) (provider_id : string) : ProviderMetrics :=
  set_active m (<[provider_id := sat_sub (default 0%Z (active_conns m !! provider_id)) 1]> (active_conns m)).
Definition record_health (m : ProviderMetrics) (provider_id : string) (healthy : bool) : ProviderMetrics :=
  set_health m (<[provider_id := healthy]> (health m)).
Definition is_healthy (m : ProviderMetrics) (provider_id : string) : option bool := health m !! provider_id.
Definition sample_count (m : ProviderMetrics) (provider_id : string) : Z :=
  Z.of_nat (length (default [] (inner m !! provider_id))).

(** [partial_cmp(..).unwrap_or(Equal)] does not give [Greater]. *)
Definition f64_not_greater (a b : f64) : bool := negb (f64_gt a b).

Definition percentile_pct (p : Percentile) : Z := match p with P50 => 50 | P90 => 90 | P99 => 99 end.
Definition percentile_index (n pct : Z) : nat := Z.to_nat (Z.min (n * pct / 100) (n - 1)).
Definition percentile_ttft_at (samples : list ProviderSample) (pct : Z) : f64 :=
  let values := sort_by Z.leb (ttft_ms <$> samples) in
  match values !! percentile_index (Z.of_nat (length values)) pct with
  | Some v => f64_of_u64 v
  | None => f64_zero
  end.
Definition percentile_throughput_at (samples : list ProviderSample) (pct : Z) : f64 :=
  let values := sort_by f64_not_greater (throughput_tps <$> samples) in
  default f64_zero (values !! percentile_index (Z.of_nat (length values)) pct).
Definition percentile_ttft (m : ProviderMetrics) (provider_id : string) (p : Percentile) : option f64 :=
  samples ← inner m !! provider_id;
  if (Z.of_nat (length samples) <? min_sample_count m)%Z then None
  else Some (percentile_ttft_at samples (percentile_pct p)).
Definition percentile_throughput (m : ProviderMetrics) (provider_id : string) (p : Percentile) : option f64 :=
  samples ← inner m !! provider_id;
  if (Z.of_nat (length samples) <? min_sample_count m)%Z then None
  else Some (percentile_throughput_at samples (percentile_pct p)).

Section selection.
(** The order in which a [HashMap] yields its entries. *)
Variable hash_iter : ∀ {A}, gmap string A → list (string * A).

(** [ranked_by_usage], [ranked_by_ttft] and [ranked_by_throughput]. *)
Definition usage_total (cutoff : Z) (samples : list UsageSample) : Z :=
  wrap64 (foldr Z.add 0%Z (total_tokens <$> List.filter (λ s, (cutoff <=? u_timestamp s)%Z) samples)).
Definition ranked_by_usage (m : ProviderMetrics) (now : Z) : list (string * Z) :=
  sort_by (λ a b, (a.2 <=? b.2)%Z)
    ((λ e, (e.1, usage_total (now - window m) e.2)) <$> hash_iter (usage m)).
Definition enough_samples (m : ProviderMetrics) (e : string * list ProviderSample) : bool :=
  (min_sample_count m <=? Z.of_nat (length e.2))%Z.
Definition ranked_by_ttft (m : ProviderMetrics) : list (string * f64) :=
  sort_by (λ a b, f64_not_greater a.2 b.2)
    ((λ e, (e.1, percentile_ttft_at e.2 50)) <$> List.filter (enough_samples m) (hash_iter (inner m))).
Definition ranked_by_throughput (m : ProviderMetrics) : list (string * f64) :=
  sort_by (λ a b, f64_not_greater b.2 a.2)
    ((λ e, (e.1, percentile_throughput_at e.2 50)) <$> List.filter (enough_samples m) (hash_iter (inner m))).

(** ** Strategies *)

Definition id_of (targets : list ProviderTarget) (i : nat) : string :=
  match targets !! i with Some t => id t | None => EmptyString end.
Definition weight_of (targets : list ProviderTarget) (i : nat) : f64 :=
  default (f64_of_u64 1) (targets !! i ≫= weight).
Definition position (f : ProviderTarget → bool) (targets : list ProviderTarget) : option nat :=
  fst <$> list_find f targets.

(** [eligible_provider_indices]. *)
Definition eligible_provider_indices (targets : list ProviderTarget) (routing : RoutingConfig) : list nat :=
  let all := seq 0 (length targets) in
  match only routing, ignore routing with
  | Some ids, _ => List.filter (λ i, bool_decide (id_of targets i ∈ ids)) all
  | None, Some ids => List.filter (λ i, negb (bool_decide (id_of targets i ∈ ids))) all
  | None, None => all
  end.

(** [sort_indices_by_health]: unhealthy targets go last. *)
Definition health_key (m : ProviderMetrics) (provider_id : string) : Z :=
  match is_healthy m provider_id with Some false => 1 | _ => 0 end.
Definition sort_indices_by_health (targets : list ProviderTarget) (m : ProviderMetrics) (l : list nat) : list nat :=
  sort_by (λ i j, (health_key m (id_of targets i) <=? health_key m (id_of targets j))%Z) l.

(** [order_eligible_by_ranked_ids]. *)
Fixpoint place_ranked (targets : list ProviderTarget) (eligible : list nat) (ids : list string)
    (ordered : list nat) : list nat :=
  match ids with
  | [] => ordered
  | provider_id :: ids =>
      place_ranked targets eligible ids
        match position (λ t, String.eqb (id t) provider_id) targets with
        | Some i => if bool_decide (i ∈ eligible) && negb (bool_decide (i ∈ ordered)) then ordered ++ [i] else ordered
        | None => ordered
        end
  end.
Fixpoint place_rest (l ordered : list nat) : list nat :=
  match l with
  | [] => ordered
  | i :: l => place_rest l (if bool_decide (i ∈ ordered) then ordered else ordered ++ [i])
  end.
Definition order_eligible_by_ranked_ids {T} (targets : list ProviderTarget) (eligible : list nat)
    (ranked : list (string * T)) : list nat :=
  match ranked with
  | [] => eligible
  | _ => place_rest eligible (place_ranked targets eligible ranked.*1 [])
  end.

(** [fisher_yates_shuffle] with its thread-local xorshift state; [clock] seeds it
    when the state is zero. *)
Definition xorshift (seed : Z) : Z :=
  let seed := Z.lxor seed (wrap64 (Z.shiftl seed 13)) in
  let seed := Z.lxor seed (Z.shiftr seed 7) in
  Z.lxor seed (wrap64 (Z.shiftl seed 17)).
Definition swap (l : list nat) (i j : nat) : list nat :=
  match l !! i, l !! j with
  | Some a, Some b => <[j := a]> (<[i := b]> l)
  | _, _ => l
  end.
Fixpoint shuffle_from (i : nat) (seed : Z) (l : list nat) : Z * list nat :=
  match i with
  | O => (seed, l)
  | S i' =>
      let seed := xorshift seed in
      shuffle_from i' seed (swap l i (Z.to_nat (seed mod Z.of_nat (S i))))
  end.
Definition fisher_yates_shuffle (stored clock : Z) (l : list nat) : Z * list nat :=
  let seed := if (stored =? 0)%Z then wrap64 (clock + 5871781006564002453) else stored in
  shuffle_from (pred (length l)) seed l.

(** [round_robin_order]. *)
Definition rotate (start : nat) (l : list nat) : list nat := drop start l ++ take start l.
Definition round_robin_order (m : ProviderMetrics) (eligible : list nat) : ProviderMetrics * list nat :=
  (set_rr m (wrap64 (rr_counter m + 1)),
   rotate (Z.to_nat (rr_counter m mod Z.of_nat (length eligible))) eligible).

(** [weighted_round_robin_order]: every weight is added, the last of the largest is
    chosen ([max_by] keeps the later of equals) and pays the total. *)
Definition wrr_at (targets : list ProviderTarget) (state : gmap string f64) (i : nat) : f64 :=
  default f64_zero (state !! id_of targets i).
Definition wrr_add (targets : list ProviderTarget) (state : gmap string f64) (i : nat) : gmap string f64 :=
  <[id_of targets i := f64_add (wrr_at targets state i) (weight_of targets i)]> state.
Definition wrr_later (targets : list ProviderTarget) (state : gmap string f64) (best : option nat) (i : nat) :
    option nat :=
  match best with
  | Some b => if f64_gt (wrr_at targets state b) (wrr_at targets state i) then Some b else Some i
  | None => Some i
  end.
Definition promote_selected_index (selected : option nat) (eligible : list nat) : list nat :=
  match selected with
  | Some s => s :: List.filter (λ i, negb (i =? s)) eligible
  | None => eligible
  end.
Definition wrr_step (targets : list ProviderTarget) (eligible : list nat) (state : gmap string f64) :
    gmap string f64 * option nat :=
  let total := fold_left (λ acc i, f64_add acc (weight_of targets i)) eligible f64_zero in
  let state := fold_left (wrr_add targets) eligible state in
  let best := fold_left (wrr_later targets state) eligible None in
  match best with
  | Some i => (<[id_of targets i := f64_sub (wrr_at targets state i) total]> state, best)
  | None => (state, None)
  end.
Definition weighted_round_robin_order (targets : list ProviderTarget) (m : ProviderMetrics) (eligible : list nat) :
    ProviderMetrics * list nat :=
  let '(state, best) := wrr_step targets eligible (wrr_state m) in
  (set_wrr m state, promote_selected_index best eligible).

Definition active_of (m : ProviderMetrics) (provider_id : string) : Z := default 0%Z (active_conns m !! provider_id).
Definition least_busy_order (targets : list ProviderTarget) (m : ProviderMetrics) (eligible : list nat) : list nat :=
  sort_by (λ i j, (active_of m (id_of targets i) <=? active_of m (id_of targets j))%Z) eligible.

(** What a selection draws: three random numbers, the clock that seeds a shuffle,
    and the clock of the usage window. *)
Record Draws := mkDraws { explore : f64; warm : f64; pick : f64; seed_clock : Z; usage_now : Z }.

(** [order_by_strategy]; the second component is the state of the shuffle. *)
Definition order_by_strategy (targets : list ProviderTarget) (routing : RoutingConfig) (draws : Draws)
    (m : ProviderMetrics) (seed : Z) (eligible : list nat) : ProviderMetrics * Z * list nat :=
  let shuffled := fisher_yates_shuffle seed (seed_clock draws) eligible in
  match strategy routing with
  | Ordered | Semantic | TaskAware => (m, seed, eligible)
  | LowestLatency =>
      if f64_lt (explore draws) (exploration_ratio routing) then (m, shuffled.1, shuffled.2)
      else (m, seed, order_eligible_by_ranked_ids targets eligible (ranked_by_ttft m))
  | HighestThroughput =>
      if f64_lt (explore draws) (exploration_ratio routing) then (m, shuffled.1, shuffled.2)
      else (m, seed, order_eligible_by_ranked_ids targets eligible (ranked_by_throughput m))
  | RoundRobin => let '(m, l) := round_robin_order m eligible in (m, seed, l)
  | WeightedRoundRobin => let '(m, l) := weighted_round_robin_order targets m eligible in (m, seed, l)
  | LeastConnections | LeastBusy => (m, seed, least_busy_order targets m eligible)
  | Random | SimpleShuffle => (m, shuffled.1, shuffled.2)
  | UsageBased =>
      (m, seed, order_eligible_by_ranked_ids targets eligible (ranked_by_usage m (usage_now draws)))
  end.

(** ** Adjustments of the order *)

Definition ranks_by_samples (s : RoutingStrategy) : bool :=
  match s with LowestLatency | HighestThroughput => true | _ => false end.
(** [apply_warmup_lane]. *)
Definition apply_warmup_lane (targets : list ProviderTarget) (routing : RoutingConfig) (draws : Draws)
    (m : ProviderMetrics) (ordered : list nat) : list nat :=
  if negb (ranks_by_samples (strategy routing)) || SFleb (warmup_ratio routing) f64_zero then ordered
  else
    let under := List.filter (λ i, (sample_count m (id_of targets i) <? min_sample_count m)%Z) ordered in
    match under with
    | [] => ordered
    | _ =>
        if f64_ge (warm draws) (warmup_ratio routing) then ordered
        else
          let n := Z.of_nat (length under) in
          let at_ := Z.to_nat (f64_as_u64 (f64_mul (pick draws) (f64_of_u64 n)) mod n) in
          match under !! at_ with
          | Some promoted => promoted :: List.filter (λ i, negb (i =? promoted)) ordered
          | None => ordered
          end
    end.

(** [apply_order_override]. *)
Fixpoint take_named (targets : list ProviderTarget) (ids : list string) (remaining : list nat) : list nat :=
  match ids with
  | [] => remaining
  | provider_id :: ids =>
      match list_find (λ i, id_of targets i = provider_id) remaining with
      | Some (p, i) => i :: take_named targets ids (delete p remaining)
      | None => take_named targets ids remaining
      end
  end.
Definition apply_order_override (targets : list ProviderTarget) (routing : RoutingConfig) (ordered : list nat) :
    list nat :=
  match order routing with Some ids => take_named targets ids ordered | None => ordered end.

(** [deprioritize_by_sla] and [apply_sla_preferences]. *)
Definition sla_ok (targets : list ProviderTarget) (m : ProviderMetrics)
    (max_latency min_throughput : option PerformanceCutoff) (i : nat) : bool :=
  match max_latency with
  | Some c => match percentile_ttft m (id_of targets i) (percentile c) with
              | Some latency => negb (f64_gt latency (value c))
              | None => true
              end
  | None => true
  end
  && match min_throughput with
     | Some c => match percentile_throughput m (id_of targets i) (percentile c) with
                 | Some tput => negb (f64_lt tput (value c))
                 | None => true
                 end
     | None => true
     end.
Definition deprioritize_by_sla (targets : list ProviderTarget) (ordered : list nat) (m : ProviderMetrics)
    (max_latency min_throughput : option PerformanceCutoff) : list nat :=
  List.filter (sla_ok targets m max_latency min_throughput) ordered
  ++ List.filter (λ i, negb (sla_ok targets m max_latency min_throughput i)) ordered.
Definition apply_sla_preferences (targets : list ProviderTarget) (routing : RoutingConfig) (m : ProviderMetrics)
    (ordered : list nat) : list nat :=
  match preferred_max_latency routing, preferred_min_throughput routing with
  | None, None => ordered
  | max_latency, min_throughput => deprioritize_by_sla targets ordered m max_latency min_throughput
  end.
Definition apply_fallback_truncation (routing : RoutingConfig) (ordered : list nat) : list nat :=
  if negb (allow_fallbacks routing) && negb (bool_decide (ordered = [])) then take 1 ordered else ordered.

(** [select_providers]: the metrics and the shuffle state after it, and the order. *)
Definition select_providers (targets : list ProviderTarget) (routing : RoutingConfig) (draws : Draws)
    (m : ProviderMetrics) (seed : Z) : ProviderMetrics * Z * list nat :=
  let eligible := eligible_provider_indices targets routing in
  match eligible with
  | [] => (m, seed, [])
  | _ =>
      let eligible := sort_indices_by_health targets m eligible in
      let '(m', seed, ordered) := order_by_strategy targets routing draws m seed eligible in
      let ordered := apply_warmup_lane targets routing draws m' ordered in
      let ordered := apply_order_override targets routing ordered in
      let ordered := apply_sla_preferences targets routing m' ordered in
      (m', seed, apply_fallback_truncation routing ordered)
  end.

(** ** Every order is a permutation *)

Lemma filter_split_perm {A} (f : A → bool) l : List.filter f l ++ List.filter (λ x, negb (f x)) l ≡ₚ l.
Proof.
  induction l as [|x l IH]; simpl; [done|]. destruct (f x); simpl; [by rewrite IH|].
  by rewrite <- Permutation_middle, IH.
Qed.

Lemma promote_perm s l : s ∈ l → NoDup l → s :: List.filter (λ i, negb (i =? s)) l ≡ₚ l.
Proof.
  intros Hs Hnd. apply NoDup_Permutation; [|done|].
  - apply NoDup_cons. split.
    + rewrite list_elem_of_In, filter_In, Nat.eqb_refl. naive_solver.
    + apply NoDup_ListNoDup, List.NoDup_filter, NoDup_ListNoDup, Hnd.
  - intros i. rewrite elem_of_cons, !list_elem_of_In, filter_In, <- list_elem_of_In.
    destruct (Nat.eqb_spec i s); naive_solver.
Qed.

Lemma swap_perm l i j : swap l i j ≡ₚ l.
Proof.
  unfold swap. destruct (l !! i) as [a|] eqn:Hi; [|done]. destruct (l !! j) as [b|] eqn:Hj; [|done].
  by apply Permutation_insert_swap.
Qed.

Lemma shuffle_perm i seed l : (shuffle_from i seed l).2 ≡ₚ l.
Proof.
  revert seed l. induction i as [|i IH]; intros seed l; [done|]. cbn [shuffle_from]. by rewrite IH, swap_perm.
Qed.

Lemma rotate_perm n l : rotate n l ≡ₚ l.
Proof. unfold rotate. rewrite Permutation_app_comm. by rewrite take_drop. Qed.

Lemma take_named_perm targets ids l : take_named targets ids l ≡ₚ l.
Proof.
  revert l. induction ids as [|x ids IH]; intros l; simpl; [done|].
  destruct (list_find _ l) as [[p i]|] eqn:Hf; [|apply IH].
  apply list_find_Some in Hf as (Hp & _ & _). by rewrite IH, <- delete_Permutation.
Qed.

(** The ranked indices are eligible ones, without repetition, and the rest follows. *)
Lemma place_ranked_sub targets eligible ids ordered :
  NoDup ordered → ordered ⊆ eligible →
  NoDup (place_ranked targets eligible ids ordered) ∧ place_ranked targets eligible ids ordered ⊆ eligible.
Proof.
  revert ordered. induction ids as [|x ids IH]; intros ordered Hnd Hsub; simpl; [done|].
  destruct (position _ targets) as [i|]; [|by apply IH].
  destruct (bool_decide (i ∈ eligible)) eqn:He; simpl; [|by apply IH].
  destruct (bool_decide (i ∈ ordered)) eqn:Ho; simpl; [by apply IH|]. bool_to_prop.
  apply IH; [|set_solver]. apply NoDup_app. split_and!; [done|set_solver|apply NoDup_singleton].
Qed.
Lemma place_rest_spec l ordered :
  NoDup ordered → NoDup (place_rest l ordered) ∧ ∀ i, i ∈ place_rest l ordered ↔ i ∈ ordered ∨ i ∈ l.
Proof.
  revert ordered. induction l as [|x l IH]; intros ordered Hnd; simpl; [split; [done|set_solver]|].
  case_bool_decide as Hx.
  - destruct (IH ordered Hnd) as [? Hel]. split; [done|]. intros i. rewrite Hel. set_solver.
  - destruct (IH (ordered ++ [x])) as [? Hel].
    { apply NoDup_app. split_and!; [done|set_solver|apply NoDup_singleton]. }
    split; [done|]. intros i. rewrite Hel. set_solver.
Qed.
Lemma ranked_perm {T} targets eligible (ranked : list (string * T)) :
  NoDup eligible → order_eligible_by_ranked_ids targets eligible ranked ≡ₚ eligible.
Proof.
  intros Hnd. destruct ranked as [|r ranked]; [done|]. unfold order_eligible_by_ranked_ids.
  destruct (place_ranked_sub targets eligible (r :: ranked).*1 []) as [Hnd' Hsub]; [constructor|set_solver|].
  destruct (place_rest_spec eligible (place_ranked targets eligible (r :: ranked).*1 []) Hnd') as [Hnd'' Hel].
  apply NoDup_Permutation; [done|done|]. set_solver.
Qed.

Lemma wrr_best_in targets state eligible best i :
  fold_left (wrr_later targets state) eligible best = Some i → best = Some i ∨ i ∈ eligible.
Proof.
  revert best. induction eligible as [|j eligible IH]; intros best; simpl; [by left|].
  intros [H|H]%IH; [|set_solver]. unfold wrr_later in H. repeat case_match; set_solver.
Qed.
Lemma wrr_step_in targets eligible state i : (wrr_step targets eligible state).2 = Some i → i ∈ eligible.
Proof.
  unfold wrr_step. cbv zeta. destruct (fold_left (wrr_later _ _) _ None) as [j|] eqn:Hb; simpl; [|done].
  intros [= ->]. apply wrr_best_in in Hb as [?|?]; done.
Qed.

Lemma order_by_strategy_perm targets routing draws m seed eligible :
  NoDup eligible → (order_by_strategy targets routing draws m seed eligible).2 ≡ₚ eligible.
Proof.
  intros Hnd. unfold order_by_strategy.
  assert (Hs : (fisher_yates_shuffle seed (seed_clock draws) eligible).2 ≡ₚ eligible) by apply shuffle_perm.
  destruct (strategy routing); simpl; try done;
    try (destruct (f64_lt _ _); simpl); try done; try by apply ranked_perm.
  - apply rotate_perm.
  - unfold weighted_round_robin_order. pose proof (wrr_step_in targets eligible (wrr_state m)) as Hin.
    destruct (wrr_step targets eligible (wrr_state m)) as [state [i|]]; simpl in *; [|done].
    apply promote_perm; [by apply Hin|done].
  - apply sort_by_perm.
  - apply sort_by_perm.
Qed.

Lemma warmup_perm targets routing draws m l : NoDup l → apply_warmup_lane targets routing draws m l ≡ₚ l.
Proof.
  intros Hnd. unfold apply_warmup_lane. destruct (_ || _); [done|].
  destruct (List.filter _ l) as [|u us] eqn:Hu; [done|]. destruct (f64_ge _ _); [done|].
  destruct ((u :: us) !! _) as [i|] eqn:Hi; [|done]. apply promote_perm; [|done].
  apply list_elem_of_lookup_2 in Hi. rewrite <- Hu, list_elem_of_In, filter_In, <- list_elem_of_In in Hi. tauto.
Qed.
Lemma sla_perm targets routing m l : apply_sla_preferences targets routing m l ≡ₚ l.
Proof. unfold apply_sla_preferences. repeat case_match; try done; apply filter_split_perm. Qed.
Lemma override_perm targets routing l : apply_order_override targets routing l ≡ₚ l.
Proof. unfold apply_order_override. case_match; [apply take_named_perm|done]. Qed.

Lemma eligible_NoDup targets routing : NoDup (eligible_provider_indices targets routing).
Proof.
  unfold eligible_provider_indices.
  repeat case_match; try apply NoDup_ListNoDup, List.NoDup_filter, NoDup_ListNoDup; apply NoDup_seq.
Qed.

Lemma selection_perm (targets : list ProviderTarget) (routing : RoutingConfig) (draws : Draws)
    (m : ProviderMetrics) (seed : Z) :
  ∃ full, full ≡ₚ eligible_provider_indices targets routing
    ∧ (select_providers targets routing draws m seed).2 = if allow_fallbacks routing then full else take 1 full.
Proof.
  unfold select_providers. pose proof (eligible_NoDup targets routing) as Hnd.
  destruct (eligible_provider_indices targets routing) as [|e es]; [by exists []; case_match|].
  set (sorted := sort_indices_by_health targets m (e :: es)).
  assert (Hsorted : sorted ≡ₚ e :: es) by apply sort_by_perm. rewrite <- Hsorted in Hnd.
  pose proof (order_by_strategy_perm targets routing draws m seed sorted Hnd) as Hord.
  destruct (order_by_strategy targets routing draws m seed sorted) as [[m' seed'] ordered]. simpl in Hord.
  eexists (apply_sla_preferences targets routing m' (apply_order_override targets routing
    (apply_warmup_lane targets routing draws m' ordered))). split.
  - rewrite sla_perm, override_perm, warmup_perm; [by rewrite Hord|by rewrite Hord].
  - simpl. unfold apply_fallback_truncation. destruct (allow_fallbacks routing); simpl; [done|].
    case_bool_decide as Hnil; simpl; [by rewrite Hnil|done].
Qed.

(** Selection neither loses nor invents providers: for every strategy, whatever
    the metrics, the random numbers and the iteration order of hash maps, the order
    is the first of, or without that limit all of, a permutation of the eligible
    targets, those that the lists [only] and [ignore] admit. *)
Theorem selection_is_permutation (targets : list ProviderTarget) (routing : RoutingConfig) (draws : Draws)
    (m : ProviderMetrics) (seed : Z) :
  ∃ full, full ≡ₚ eligible_provider_indices targets routing
    ∧ (select_providers targets routing draws m seed).2 = if allow_fallbacks routing then full else take 1 full.
Proof. apply selection_perm. Qed.

(** ** Smooth weighted round robin is fair *)

Definition zsum (f : nat → Z) (l : list nat) : Z := foldr (λ i acc, (f i + acc)%Z) 0%Z l.

Lemma zsum_ext f g l : (∀ i, i ∈ l → f i = g i) → zsum f l = zsum g l.
Proof. induction l as [|i l IH]; intros Hfg; simpl; [done|]. rewrite Hfg, IH by set_solver. done. Qed.
Lemma zsum_add f g l : zsum (λ i, (f i + g i)%Z) l = (zsum f l + zsum g l)%Z.
Proof. induction l as [|i l IH]; simpl; lia. Qed.
Lemma zsum_scale c f l : zsum (λ i, (c * f i)%Z) l = (c * zsum f l)%Z.
Proof. induction l as [|i l IH]; simpl; lia. Qed.
Lemma zsum_le f g l : (∀ i, i ∈ l → (f i ≤ g i)%Z) → (zsum f l ≤ zsum g l)%Z.
Proof.
  induction l as [|i l IH]; intros Hfg; simpl; [done|].
  specialize (Hfg i ltac:(set_solver)) as Hi. specialize (IH ltac:(set_solver)). lia.
Qed.
Lemma zsum_const c l : zsum (λ _, c) l = (Z.of_nat (length l) * c)%Z.
Proof. induction l as [|i l IH]; simpl; lia. Qed.
Lemma zsum_elem f l i : i ∈ l → (∀ j, j ∈ l → (0 ≤ f j)%Z) → (f i ≤ zsum f l)%Z.
Proof.
  induction l as [|j l IH]; intros Hi Hpos; [set_solver|]. simpl.
  assert (0 ≤ zsum f l)%Z by (rewrite <- (Z.mul_0_r (Z.of_nat (length l))), <- zsum_const; apply zsum_le; set_solver).
  apply elem_of_cons in Hi as [->|Hi]; [lia|].
  specialize (IH Hi ltac:(set_solver)). specialize (Hpos j ltac:(set_solver)). lia.
Qed.
Lemma zsum_bump j c l : NoDup l → j ∈ l → zsum (λ i, if decide (i = j) then c else 0%Z) l = c.
Proof.
  induction l as [|i l IH]; intros Hnd Hj; [set_solver|]. apply NoDup_cons in Hnd as [Hni Hnd]. simpl.
  case_decide as Hij; [subst|rewrite IH by set_solver; lia].
  rewrite (zsum_ext _ (λ _, 0%Z)); [rewrite zsum_const; lia|].
  intros k Hk. case_decide; [set_solver|done].
Qed.
(** Sums that agree with pointwise bounds are pointwise equal. *)
Lemma zsum_tight f g l : (∀ i, i ∈ l → (f i ≤ g i)%Z) → zsum f l = zsum g l → ∀ i, i ∈ l → f i = g i.
Proof.
  intros Hle Heq i Hi.
  assert (g i - f i ≤ zsum (λ j, g j + - f j) l)%Z as H1 by (apply (zsum_elem (λ j, (g j + - f j)%Z)); [done|]; intros j Hj; specialize (Hle j Hj); lia).
  rewrite zsum_add in H1. assert (zsum (λ j, - f j)%Z l = (- zsum f l)%Z) as H2.
  { rewrite (zsum_ext _ (λ j, (-1 * f j)%Z)) by (intros; lia). rewrite zsum_scale. lia. }
  specialize (Hle i Hi). lia.
Qed.

Section fair.
Context (targets : list ProviderTarget) (eligible : list nat) (w : nat → Z).
Let W : Z := zsum w eligible.
Let k : Z := Z.of_nat (length eligible).
Context (Hids : NoDup (id_of targets <$> eligible)) (Hsome : eligible ≠ [])
  (Hweights : ∀ i, i ∈ eligible → weight_of targets i = f64_int (w i) ∧ (1 ≤ w i)%Z)
  (Hexact : (k * W < 2 ^ 53)%Z).

Local Lemma eligible_nodup : NoDup eligible.
Proof. by eapply NoDup_fmap_1. Qed.
Local Lemma id_inj i j : i ∈ eligible → j ∈ eligible → id_of targets i = id_of targets j → i = j.
Proof.
  intros Hi Hj Hij. apply list_elem_of_lookup in Hi as [a Ha], Hj as [b Hb].
  assert (a = b) as ->; [|congruence].
  eapply (NoDup_lookup _ _ _ (id_of targets i) Hids); rewrite list_lookup_fmap; [by rewrite Ha|by rewrite Hb, Hij].
Qed.
Local Lemma W_pos : (1 ≤ k ∧ k ≤ W)%Z.
Proof.
  split; [destruct eligible; [done|simpl in *; lia]|].
  unfold k, W. rewrite <- (Z.mul_1_r (Z.of_nat _)), <- zsum_const. apply zsum_le. intros i Hi. by apply Hweights.
Qed.
Local Lemma w_le i : i ∈ eligible → (1 ≤ w i ≤ W)%Z.
Proof.
  intros Hi. split; [by apply Hweights|]. apply zsum_elem; [done|]. intros j Hj. destruct (Hweights j Hj). lia.
Qed.

Lemma wrr_total l a :
  l ⊆ eligible → NoDup l → (0 ≤ a)%Z → (a + zsum w l < 2 ^ 53)%Z →
  fold_left (λ acc i, f64_add acc (weight_of targets i)) l (f64_int a) = f64_int (a + zsum w l).
Proof.
  revert a. induction l as [|i l IH]; intros a Hsub Hnd Ha Hlt; simpl; [by rewrite Z.add_0_r|].
  destruct (Hweights i ltac:(set_solver)) as [-> Hwi]. simpl in Hlt.
  assert (0 ≤ zsum w l)%Z.
  { rewrite <- (Z.mul_0_r (Z.of_nat (length l))), <- zsum_const. apply zsum_le. intros j Hj.
    destruct (Hweights j ltac:(set_solver)). lia. }
  rewrite f64_add_int by (unfold exact_int; lia). apply NoDup_cons in Hnd as [_ Hnd].
  rewrite IH; [f_equal; lia|set_solver|done|lia|lia].
Qed.

(** The state holds the integers [s] of the eligible targets. *)
Definition holds (state : gmap string f64) (s : nat → Z) : Prop :=
  ∀ i, i ∈ eligible → wrr_at targets state i = f64_int (s i).

Lemma wrr_add_holds l state s :
  l ⊆ eligible → NoDup l → (∀ i, i ∈ l → (Z.abs (s i) < 2 ^ 53 ∧ Z.abs (s i + w i) < 2 ^ 53)%Z) →
  holds state s →
  holds (fold_left (wrr_add targets) l state) (λ i, if decide (i ∈ l) then (s i + w i)%Z else s i).
Proof.
  revert state s. induction l as [|j l IH]; intros state s Hsub Hnd Hb Hs; simpl; [done|].
  apply NoDup_cons in Hnd as [Hj Hnd]. assert (Hje : j ∈ eligible) by set_solver.
  set (s' := λ i, if decide (i = j) then (s i + w i)%Z else s i).
  assert (holds (wrr_add targets state j) s') as Hs'.
  { intros i Hi. unfold wrr_at, wrr_add, s'. destruct (decide (i = j)) as [->|Hij].
    - rewrite lookup_insert_eq. simpl. destruct (Hweights j Hi) as [-> ?]. rewrite Hs by done.
      destruct (Hb j ltac:(set_solver)), (w_le j Hi), W_pos. apply f64_add_int; unfold exact_int; nia.
    - rewrite lookup_insert_ne; [by apply Hs|]. intros He. by apply Hij, id_inj. }
  intros i Hi. specialize (IH (wrr_add targets state j) s' ltac:(set_solver) Hnd).
  rewrite IH; [|intros x Hx|done|done].
  - unfold s'. f_equal. repeat case_decide; subst; set_solver.
  - unfold s'. case_decide; [set_solver|]. apply Hb. set_solver.
Qed.

(** The chosen index has a largest value. *)
Lemma wrr_best_max state v l b :
  l ⊆ eligible → b ∈ eligible → (∀ i, i ∈ eligible → (Z.abs (v i) < 2 ^ 53)%Z) → holds state v →
  ∃ j, fold_left (wrr_later targets state) l (Some b) = Some j
    ∧ (v b ≤ v j)%Z ∧ ∀ i, i ∈ l → (v i ≤ v j)%Z.
Proof.
  revert b. induction l as [|i l IH]; intros b Hsub Hb Hbound Hv; simpl; [by exists b; set_solver|].
  assert (Hi : i ∈ eligible) by set_solver.
  assert (f64_gt (wrr_at targets state b) (wrr_at targets state i) = (v i <? v b)%Z) as ->.
  { unfold f64_gt, SFltb. rewrite !Hv, f64_compare_int by (done || by apply Hbound). done. }
  destruct (Z.ltb_spec (v i) (v b)).
  - destruct (IH b) as (j & Hj & Hbj & Hmax); [set_solver|done..|]. exists j. split_and!; [done..|].
    intros x [->|Hx]%elem_of_cons; [lia|by apply Hmax].
  - destruct (IH i) as (j & Hj & Hij & Hmax); [set_solver|done..|]. exists j. split_and!; [done|lia|].
    intros x [->|Hx]%elem_of_cons; [lia|by apply Hmax].
Qed.

Lemma wrr_best_spec state v :
  (∀ i, i ∈ eligible → (Z.abs (v i) < 2 ^ 53)%Z) → holds state v →
  ∃ j, fold_left (wrr_later targets state) eligible None = Some j ∧ j ∈ eligible
    ∧ ∀ i, i ∈ eligible → (v i ≤ v j)%Z.
Proof.
  intros Hbound Hv. assert (∃ b rest, eligible = b :: rest) as (b & rest & Hel) by (destruct eligible; [done|eauto]).
  destruct (wrr_best_max state v rest b) as (j & Hj & Hbj & Hmax);
    [rewrite Hel; intros x Hx; by right|rewrite Hel; by left|done|done|].
  assert (fold_left (wrr_later targets state) eligible None = Some j) as Hbest by (by rewrite Hel).
  exists j. split_and!; [done|by destruct (wrr_best_in _ _ _ _ _ Hbest)|].
  intros i Hi. rewrite Hel in Hi. apply elem_of_cons in Hi as [->|Hi]; [done|by apply Hmax].
Qed.

(** What is owed: above minus the total, and nothing in the sum. *)
Definition balanced (s : nat → Z) : Prop := zsum s eligible = 0%Z ∧ ∀ i, i ∈ eligible → (- W < s i)%Z.

Lemma balanced_upper s i : balanced s → i ∈ eligible → (s i ≤ (k - 1) * (W - 1))%Z.
Proof.
  intros [Hsum Hlow] Hi.
  assert (s i + (W - 1) ≤ zsum (λ j, s j + (W - 1)) eligible)%Z as Hle.
  { apply (zsum_elem (λ j, (s j + (W - 1))%Z)); [done|]. intros j Hj. specialize (Hlow j Hj). lia. }
  rewrite zsum_add, zsum_const, Hsum in Hle. fold k in Hle. lia.
Qed.

Definition paid (s : nat → Z) (j i : nat) : Z := (s i + w i - if decide (i = j) then W else 0)%Z.

Lemma wrr_step_spec state s :
  holds state s → balanced s →
  ∃ j, (wrr_step targets eligible state).2 = Some j ∧ j ∈ eligible
    ∧ holds (wrr_step targets eligible state).1 (paid s j) ∧ balanced (paid s j).
Proof.
  intros Hs Hbal. pose proof W_pos as HW. pose proof eligible_nodup as Hnd.
  assert (Hrange : ∀ i, i ∈ eligible → (- W < s i ∧ s i + w i ≤ k * W ∧ 1 ≤ w i ≤ W)%Z).
  { intros i Hi. pose proof (balanced_upper s i Hbal Hi). destruct Hbal as [_ Hlow].
    specialize (Hlow i Hi). pose proof (w_le i Hi). split_and!; [lia|nia|lia|lia]. }
  assert (Hadd := wrr_add_holds eligible state s ltac:(done) Hnd
    ltac:(intros i Hi; destruct (Hrange i Hi); nia) Hs).
  set (v := λ i, (s i + w i)%Z).
  assert (holds (fold_left (wrr_add targets) eligible state) v) as Hv.
  { intros i Hi. rewrite Hadd by done. by rewrite decide_True. }
  destruct (wrr_best_spec (fold_left (wrr_add targets) eligible state) v) as (j & Hbest & Hj & Hmax);
    [intros i Hi; destruct (Hrange i Hi); unfold v; nia|done|].
  assert (Hsum : zsum v eligible = W) by (unfold v; rewrite zsum_add; destruct Hbal as [-> _]; done).
  assert (Hpos : (0 < v j)%Z).
  { assert (zsum v eligible ≤ k * v j)%Z by (unfold k; rewrite <- zsum_const; by apply zsum_le). nia. }
  exists j. unfold wrr_step. cbv zeta. rewrite Hbest. cbn [fst snd]. split_and!; [done|done| |split].
  - intros i Hi. unfold paid. destruct (decide (i = j)) as [->|Hij].
    + unfold wrr_at at 1. rewrite lookup_insert_eq. simpl. rewrite Hv by done.
      change f64_zero with (f64_int 0). rewrite (wrr_total eligible 0) by (done || nia). fold W. simpl.
      destruct (Hrange j Hi). apply f64_sub_int; unfold exact_int; unfold v in *; nia.
    + unfold wrr_at. rewrite lookup_insert_ne by (intros He; by apply Hij, id_inj).
      fold (wrr_at targets (fold_left (wrr_add targets) eligible state) i). rewrite Hv by done. f_equal. unfold v. lia.
  - unfold paid. rewrite (zsum_ext _ (λ i, (v i + -1 * if decide (i = j) then W else 0)%Z)) by (intros; unfold v; lia).
    rewrite zsum_add, zsum_scale, zsum_bump by done. lia.
  - intros i Hi. unfold paid. destruct (Hrange i Hi). case_decide; subst; unfold v in *; lia.
Qed.

(** The first choices of [n] orders in a row. *)
Fixpoint first_choices (n : nat) (m : ProviderMetrics) : list nat :=
  match n with
  | O => []
  | S n =>
      let '(m, l) := weighted_round_robin_order targets m eligible in
      option_list (head l) ++ first_choices n m
  end.
Definition times (i : nat) (l : list nat) : Z := Z.of_nat (count_occ Nat.eq_dec l i).

Lemma first_choices_balance n m s :
  holds (wrr_state m) s → balanced s →
  balanced (λ i, (s i + Z.of_nat n * w i - W * times i (first_choices n m))%Z)
  ∧ length (first_choices n m) = n ∧ first_choices n m ⊆ eligible.
Proof.
  revert m s. induction n as [|n IH]; intros m s Hs Hbal.
  { split_and!; [|done|set_solver]. destruct Hbal as [Hsum Hlow]. split.
    - rewrite <- Hsum. apply zsum_ext. intros i Hi. unfold times. simpl. lia.
    - intros i Hi. specialize (Hlow i Hi). unfold times. simpl. lia. }
  destruct (wrr_step_spec _ s Hs Hbal) as (j & Hj & Hjel & Hs' & Hbal').
  cbn [first_choices]. unfold weighted_round_robin_order.
  destruct (wrr_step targets eligible (wrr_state m)) as [state best]. simpl in Hj, Hs'. subst best. simpl.
  destruct (IH (set_wrr m state) (paid s j) Hs' Hbal') as ([Hsum Hlow] & Hlen & Hsub).
  assert (Hone : ∀ i, (s i + Z.of_nat (S n) * w i - W * times i (j :: first_choices n (set_wrr m state))
    = paid s j i + Z.of_nat n * w i - W * times i (first_choices n (set_wrr m state)))%Z).
  { intros i. unfold paid, times. simpl. destruct (Nat.eq_dec j i), (decide (i = j)); subst; lia. }
  split_and!; [split|lia|set_solver].
  - rewrite <- Hsum. apply zsum_ext. intros i _. apply Hone.
  - intros i Hi. rewrite Hone. by apply Hlow.
Qed.

Lemma times_total l : l ⊆ eligible → zsum (λ i, times i l) eligible = Z.of_nat (length l).
Proof.
  induction l as [|j l IH]; intros Hsub; [unfold times; simpl; rewrite zsum_const; lia|].
  rewrite (zsum_ext _ (λ i, ((if decide (i = j) then 1 else 0) + times i l)%Z)).
  - rewrite zsum_add, zsum_bump, IH by (apply eligible_nodup || set_solver). simpl. lia.
  - intros i _. unfold times. simpl. destruct (Nat.eq_dec j i), (decide (i = j)); subst; lia.
Qed.
End fair.

(** C28. Weighted round robin is fair: with integer weights small enough to be exact
    in binary64, of a total [W], every [q * W] selections in a row from a fresh
    state choose each eligible target exactly [q] times its weight, and after any
    number [n] of selections none has been chosen more than its share [n * w / W]
    by one or more. *)
Theorem weighted_round_robin_fair (targets : list ProviderTarget) (eligible : list nat) (w : nat → Z)
    (m : ProviderMetrics) (n q i : nat)
    (Hids : NoDup (id_of targets <$> eligible)) (Hsome : eligible ≠ [])
    (Hweights : ∀ i, i ∈ eligible → weight_of targets i = f64_int (w i) ∧ (1 ≤ w i)%Z)
    (Hexact : (Z.of_nat (length eligible) * zsum w eligible < 2 ^ 53)%Z)
    (Hfresh : wrr_state m = ∅) (Hi : i ∈ eligible) :
  let W := zsum w eligible in
  (W * times i (first_choices targets eligible n m) < Z.of_nat n * w i + W)%Z
  ∧ (Z.of_nat n = Z.of_nat q * W → times i (first_choices targets eligible n m) = Z.of_nat q * w i)%Z.
Proof.
  pose proof (first_choices_balance targets eligible w Hids Hsome Hweights Hexact n m (λ _, 0%Z)) as Hbal.
  destruct Hbal as ([_ Hlow] & Hlen & Hsub).
  { intros j Hj. unfold wrr_at. by rewrite Hfresh, lookup_empty. }
  { split; [rewrite zsum_const; lia|]. intros j Hj. destruct (W_pos targets eligible w Hids Hsome Hweights Hexact). lia. }
  intros W. split; [specialize (Hlow i Hi); fold W in Hlow; lia|]. intros Hn.
  pose proof (W_pos targets eligible w Hids Hsome Hweights Hexact) as HW. fold W in HW.
  apply (zsum_tight (λ i, times i (first_choices targets eligible n m)) (λ i, Z.of_nat q * w i)%Z eligible);
    [|rewrite (times_total targets eligible w Hids Hsome Hweights Hexact), zsum_scale by done; fold W; lia|done].
  intros j Hj. specialize (Hlow j Hj). fold W in Hlow. simpl in Hlow. rewrite Hn in Hlow. nia.
Qed.

(** ** Health and the rankings *)

Lemma place_ranked_head targets eligible ids i rest :
  head (place_ranked targets eligible ids (i :: rest)) = Some i.
Proof.
  revert rest. induction ids as [|x ids IH]; intros rest; simpl; [done|].
  destruct (position _ targets) as [j|]; [|by apply IH]. destruct (_ && _); simpl; by apply IH.
Qed.
Lemma place_rest_head l ordered i : head ordered = Some i → head (place_rest l ordered) = Some i.
Proof.
  revert ordered. induction l as [|x l IH]; intros ordered Hh; simpl; [done|].
  apply IH. case_bool_decide; [done|]. by destruct ordered.
Qed.
Lemma ranked_head {T} targets eligible (best : string * T) ranked i :
  position (λ t, String.eqb (id t) best.1) targets = Some i → i ∈ eligible →
  head (order_eligible_by_ranked_ids targets eligible (best :: ranked)) = Some i.
Proof.
  intros Hpos Hel. unfold order_eligible_by_ranked_ids. apply place_rest_head. simpl. rewrite Hpos.
  rewrite bool_decide_true by done. simpl. apply place_ranked_head.
Qed.

(** Health is forgotten when latency ranks: the eligible targets are sorted with
    the unhealthy ones last, but the ranking by latency reorders them by the ids it
    lists, so an eligible target known to be unhealthy is tried first whenever it has
    the best median, although a healthy one is eligible too. *)
Theorem unhealthy_fastest_first (targets : list ProviderTarget) (routing : RoutingConfig) (draws : Draws)
    (m : ProviderMetrics) (seed : Z) (best : string * f64) (ranked : list (string * f64)) (i j : nat)
    (Hstrategy : strategy routing = LowestLatency)
    (Hexplore : f64_lt (explore draws) (exploration_ratio routing) = false)
    (Hwarm : SFleb (warmup_ratio routing) f64_zero = true)
    (Hplain : order routing = None ∧ preferred_max_latency routing = None
      ∧ preferred_min_throughput routing = None)
    (Hranked : ranked_by_ttft m = best :: ranked)
    (Hbest : position (λ t, String.eqb (id t) best.1) targets = Some i)
    (Heligible : i ∈ eligible_provider_indices targets routing ∧ j ∈ eligible_provider_indices targets routing)
    (Hhealth : is_healthy m (id_of targets i) = Some false ∧ is_healthy m (id_of targets j) = Some true) :
  head (select_providers targets routing draws m seed).2 = Some i.
Proof.
  destruct Hplain as (Hord & Hlat & Htput), Heligible as [Hi _]. unfold select_providers.
  destruct (eligible_provider_indices targets routing) as [|e es] eqn:Hel; [set_solver|].
  unfold order_by_strategy. rewrite Hstrategy, Hexplore, Hranked. cbn [fst snd].
  assert (i ∈ sort_indices_by_health targets m (e :: es)) as Hin.
  { eapply elem_of_Permutation_proper; [apply sort_by_perm|done]. }
  pose proof (ranked_head targets _ best ranked i Hbest Hin) as Hhead.
  unfold apply_warmup_lane, apply_order_override, apply_sla_preferences, apply_fallback_truncation.
  rewrite Hwarm, orb_true_r, Hord, Hlat, Htput.
  destruct (order_eligible_by_ranked_ids _ _ _) as [|x l]; [done|]. by destruct (negb _ && _).
Qed.
End selection.

(** ** Instances *)

Module Demo.
Definition target (name : string) (w : Z) : ProviderTarget :=
  mkTarget name "openai" "gpt" None "key" false false None None None [] false None None (Some (f64_int w)) None.
Definition targets : list ProviderTarget := [target "a" 2; target "b" 1].
Definition routing (s : RoutingStrategy) : RoutingConfig :=
  mkRouting s f64_zero None true None None None None None None None None f64_zero false f64_zero.
Definition draws : Draws := mkDraws f64_zero f64_zero f64_zero 0 0.
Definition fresh : ProviderMetrics := metrics_new 60 1.
(** The unhealthy [a] answers in one millisecond, the healthy [b] in two. *)
Definition measured : ProviderMetrics :=
  let m := record fresh "a" 1000000 10 1000000000 5 5 in
  let m := record m "b" 2000000 10 1000000000 6 6 in
  record_health (record_health m "a" false) "b" true.
Definition iter {A} (m : gmap string A) : list (string * A) := map_to_list m.
Definition ranking : list (string * f64) := ranked_by_ttft (@iter) measured.
End Demo.

Lemma weighted_round_robin_fair_witness :
  times 0 (first_choices Demo.targets [0; 1] 6 Demo.fresh) = 4%Z
  ∧ first_choices Demo.targets [0; 1] 6 Demo.fresh = [0; 1; 0; 0; 1; 0].
Proof.
  split; [|vm_compute; reflexivity].
  apply (weighted_round_robin_fair Demo.targets [0; 1] (λ i, if i =? 0 then 2%Z else 1%Z) Demo.fresh 6 2 0).
  - apply (bool_decide_unpack _). vm_compute. exact I.
  - discriminate.
  - intros i [->|[->|[]%not_elem_of_nil]%elem_of_cons]%elem_of_cons; split; try reflexivity; vm_compute; discriminate.
  - reflexivity.
  - reflexivity.
  - apply elem_of_cons. by left.
  - reflexivity.
Defined.

Lemma unhealthy_fastest_first_witness :
  head (select_providers (@Demo.iter) Demo.targets (Demo.routing LowestLatency) Demo.draws Demo.measured 0).2 = Some 0.
Proof.
  apply (unhealthy_fastest_first (@Demo.iter) Demo.targets (Demo.routing LowestLatency) Demo.draws Demo.measured 0
    (default ("", f64_zero) (head Demo.ranking))%string (tail Demo.ranking) 0 1); try reflexivity.
  - split_and!; reflexivity.
  - split; apply (bool_decide_unpack _); vm_compute; exact I.
  - split; reflexivity.
Defined.
