(* ===== verification/ProviderRouting.v ===== *)
(** * ProviderRouting: which providers may serve a request

    (src/src/gateway/auto_provider.rs and provider_endpoint_selection.rs, the filters
    of providers.rs, and the routing of request_pipeline/responses_part1.rs, part2.rs
    and part4.rs.)

    From the order of [ProviderSelection] the pipeline keeps the targets that the
    request's pin, the data-routing policy, the cost, region, quantization and
    context-window filters, the model group and the automatic scoring allow, or
    refuses the request.  Targets are named by their index; the embeddings of the
    semantic strategy are the answer of a provider and an argument.  Logging is left
    out. *)

From Stdlib Require Import ZArith Ascii String SpecFloat.
From stdpp Require Import base gmap strings list sorting.
From S2P Require Import Prelude Text Float FloatInt Lww EventWal Policy PolicyChain Detection Redaction RequestText ProviderSelection.

#[local] Arguments String.append : simpl nomatch.

(** ** Numbers *)

(** The literals 0.5, 0.01, 1e-9, 1.0, 2.0 and 1e6. *)
Definition f64_half : f64 := S754_finite false 4503599627370496 (-53).
Definition f64_hundredth : f64 := S754_finite false 5764607523034235 (-59).
Definition f64_epsilon : f64 := S754_finite false 4835703278458517 (-82).
Definition f64_one : f64 := S754_finite false 4503599627370496 (-52).
Definition f64_two : f64 := S754_finite false 4503599627370496 (-51).
Definition f64_million : f64 := S754_finite false 8589934592000000 (-33).
Definition f64_infinity : f64 := S754_infinity false.
Definition f64_neg_infinity : f64 := S754_infinity true.
(** [f64::min], [f64::sqrt] and [f64::clamp(-1.0, 1.0)]. *)
Definition f64_min (a b : f64) : f64 :=
  match a with
  | S754_nan => b
  | _ => match b with S754_nan => a | _ => if SFltb b a then b else a end
  end.
Definition f64_sqrt : f64 → f64 := SFsqrt 53 1024.
Definition f64_clamp1 (a : f64) : f64 :=
  if f64_lt a (SFopp f64_one) then SFopp f64_one else if f64_gt a f64_one then f64_one else a.
Definition f64_sum (l : list f64) : f64 := fold_left f64_add l f64_zero.

Section routing.
Context {Number : Type} (as_u64 : Number → option Z) (as_f64 : Number → option f64).
Abbreviation json := (Value Number).

Definition num_f64 (v : json) : option f64 := match v with Num n => as_f64 n | _ => None end.
Definition get_f64 (v : json) (key : string) : option f64 := json_get v key ≫= num_f64.
Definition get_bool (v : json) (key : string) (dflt : bool) : bool := default dflt (json_get v key ≫= json_as_bool).

(** ** Automatic routing (auto_provider.rs) *)

Record AutoRoutingConfig := mkAutoRouting {
  cost_weight : f64; latency_weight : f64; max_price_per_1m_tokens : option f64;
}.
Definition AutoRoutingConfig_default : AutoRoutingConfig := mkAutoRouting f64_half f64_half None.
Record AutoProviderConfig := mkAuto {
  auto_enabled : bool; auto_name : string; auto_description : option string; auto_routing : AutoRoutingConfig;
}.
Definition AutoProviderConfig_default : AutoProviderConfig :=
  mkAuto true "auto" (Some "Cheapest and fastest available provider, chosen automatically"%string)
    AutoRoutingConfig_default.

Definition CONSUMED_AUTO_FIELDS : list string := ["enabled"; "name"; "description"; "routing"]%string.
Definition CONSUMED_AUTO_ROUTING_FIELDS : list string :=
  ["cost_weight"; "latency_weight"; "max_price_per_1m_tokens"]%string.
Definition REMOVED_AUTO_ROUTING_FIELDS : list string :=
  ["fallback_enabled"; "allow_fallbacks"; "max_fallback_attempts"; "unhealthy_threshold";
   "unhealthy_window_seconds"; "measurement_window_seconds"; "min_sample_count"; "health_check"; "health";
   "ab_test"; "ab_testing"; "a_b"; "variants"; "sticky_by"; "traffic_split"; "canary"; "canary_percent";
   "shadow"; "shadow_enabled"; "shadow_routing"; "traffic_mirror"; "rate_limit"; "rate_limits";
   "provider_rate_limit"; "rpm"; "tpm"; "max_parallel_requests"]%string.

(** [reject_unknown_keys]. *)
Definition reject_unknown_keys (object : list (string * json)) (allowed : list string) (path : string) :
    Result unit string :=
  match list_find (λ key, key ∉ allowed) object.*1 with
  | Some (_, key) =>
      Err (path +:+ "." +:+ key +:+ ": unknown or unread field — allowed keys: "
           +:+ String.concat ", " allowed)%string
  | None => Ok tt
  end.

Definition parse_auto_routing (r : json) : Result AutoRoutingConfig string :=
  match r with
  | Obj routing_object =>
      match list_find (λ field, field ∈ routing_object.*1) REMOVED_AUTO_ROUTING_FIELDS with
      | Some (_, field) =>
          Err ("auto.routing." +:+ field +:+ " has been removed; it had no runtime effect")%string
      | None =>
          match reject_unknown_keys routing_object CONSUMED_AUTO_ROUTING_FIELDS "auto.routing" with
          | Err e => Err e
          | Ok _ =>
              let cost_weight := default f64_half (get_f64 r "cost_weight") in
              let latency_weight := default f64_half (get_f64 r "latency_weight") in
              let total := f64_add cost_weight latency_weight in
              let '(cost_weight, latency_weight) :=
                if f64_gt (SFabs (f64_sub total f64_one)) f64_hundredth
                then (if f64_gt total f64_zero then (f64_div cost_weight total, f64_div latency_weight total)
                      else (f64_half, f64_half))
                else (cost_weight, latency_weight) in
              Ok (mkAutoRouting cost_weight latency_weight (get_f64 r "max_price_per_1m_tokens"))
          end
      end
  | _ => Err "auto.routing: must be an object"%string
  end.
(** [parse_auto]. *)
Definition parse_auto (root : json) : Result AutoProviderConfig string :=
  match json_get root "auto" with
  | Some (Obj section_object as section) =>
      match reject_unknown_keys section_object CONSUMED_AUTO_FIELDS "auto" with
      | Err e => Err e
      | Ok _ =>
          let routing :=
            match json_get section "routing" with
            | Some r => parse_auto_routing r
            | None => Ok AutoRoutingConfig_default
            end in
          match routing with
          | Err e => Err e
          | Ok routing =>
              Ok (mkAuto (get_bool section "enabled" true) (default "auto"%string (get_str section "name"))
                    (get_str section "description") routing)
          end
      end
  | _ => Ok AutoProviderConfig_default
  end.

(** The average price, and whether the ceiling excludes it. *)
Definition target_cost (t : ProviderTarget) : option f64 :=
  (λ p, f64_div (f64_add (input_price_per_million p) (output_price_per_million p)) f64_two) <$> pricing t.
Definition over_ceiling (routing : AutoRoutingConfig) (t : ProviderTarget) : bool :=
  match max_price_per_1m_tokens routing with
  | None => false
  | Some max_price => match target_cost t with Some c => f64_gt c max_price | None => true end
  end.
Definition target_latency (m : ProviderMetrics) (t : ProviderTarget) : f64 :=
  default f64_zero (percentile_ttft m (id t) P50).

(** A candidate: its index, its target, cost and latency; scores normalise both. *)
Record Candidate := mkCand { cand_index : nat; cand_target : ProviderTarget; cand_cost : f64; cand_latency : f64 }.
Definition candidate_of (m : ProviderMetrics) (x : nat * ProviderTarget) : Candidate :=
  mkCand x.1 x.2 (default f64_zero (target_cost x.2)) (target_latency m x.2).
Definition spread (values : list f64) : f64 * f64 :=
  let low := fold_left f64_min values f64_infinity in
  let high := fold_left f64_max values f64_neg_infinity in
  (low, f64_add (f64_sub high low) f64_epsilon).
Definition score_of (routing : AutoRoutingConfig) (cost latency : f64 * f64) (c : Candidate) : f64 :=
  f64_add (f64_mul (cost_weight routing) (f64_div (f64_sub (cand_cost c) cost.1) cost.2))
    (f64_mul (latency_weight routing) (f64_div (f64_sub (cand_latency c) latency.1) latency.2)).
(** By score, then by id; scores that do not compare count as equal. *)
Definition score_le (a b : f64 * Candidate) : bool :=
  match SFcompare a.1 b.1 with
  | Some Lt => true
  | Some Gt => false
  | _ => String.leb (id (cand_target a.2)) (id (cand_target b.2))
  end.
Definition rank (routing : AutoRoutingConfig) (candidates : list Candidate) : list (f64 * Candidate) :=
  let cost := spread (cand_cost <$> candidates) in
  let latency := spread (cand_latency <$> candidates) in
  sort_by score_le ((λ c, (score_of routing cost latency c, c)) <$> candidates).

Definition enumerate (targets : list ProviderTarget) : list (nat * ProviderTarget) :=
  zip (seq 0 (length targets)) targets.
Definition is_denied (denied : option (gset string)) (t : ProviderTarget) : bool :=
  match denied with Some denied => bool_decide (id t ∈ denied) | None => false end.
(** [score_targets_with_denied], as the indices of the targets. *)
Definition score_targets_with_denied (targets : list ProviderTarget) (routing : AutoRoutingConfig)
    (m : ProviderMetrics) (denied : option (gset string)) : list nat :=
  let candidates := candidate_of m <$>
    List.filter (λ x, negb (is_denied denied x.2) && negb (over_ceiling routing x.2)) (enumerate targets) in
  match candidates with [] => [] | _ => (λ x, cand_index x.2) <$> rank routing candidates end.

(** ** The provider pool *)

Record ProviderPoolConstraints := mkConstraints {
  publication_region : option string; require_zdr : bool; required_capabilities : list string;
  denied_target_ids : option (gset string);
}.
Record CandidateScoreEvidence := mkScoreEvidence {
  target_id : string; ev_provider : string; ev_model : string; score : option f64; cost : option f64;
  latency : option f64; exclusion_reason : option string;
}.
Record SelectionEvidence := mkEvidence {
  decision_id : string; ev_request_id : string; selected_target_id : string; selected_provider : string;
  selected_model : string; composite_score : f64; decision_basis : string; candidates : list CandidateScoreEvidence;
  alternate_provider_fallback : bool; pinned : bool;
}.

(** [provider_matches_region] and [provider_matches_privacy]. *)
Definition provider_matches_region (t : ProviderTarget) (publication_region : string) : bool :=
  match data_residency t with
  | Some regions => existsb (λ region, eq_ignore_ascii_case region publication_region) regions
  | None => match region t with Some region => eq_ignore_ascii_case region publication_region | None => false end
  end.
Definition provider_matches_privacy (t : ProviderTarget) (require_zdr : bool) : bool := negb require_zdr || zdr t.
Definition target_has_credential (t : ProviderTarget) : bool :=
  negb (all_whitespace (api_key t)) || secret_key_ref t || oauth2 t.
Definition target_meets_capabilities (t : ProviderTarget) (required : list string) : bool :=
  match required, models t with
  | [], _ => true
  | _, [] => false
  | _, entries =>
      existsb (λ entry, enabled entry
        && forallb (λ need, existsb (λ have, eq_ignore_ascii_case have need) (supported_features entry)) required)
        entries
  end.
Definition exclusion_reason_for_target (t : ProviderTarget) (routing : AutoRoutingConfig)
    (constraints : ProviderPoolConstraints) : option string :=
  if is_denied (denied_target_ids constraints) t then Some "denied_by_policy"%string
  else if negb (target_has_credential t) then Some "credential_unavailable"%string
  else if match publication_region constraints with Some region => negb (provider_matches_region t region) | None => false end
  then Some "region_privacy_constraint"%string
  else if negb (provider_matches_privacy t (require_zdr constraints)) then Some "region_privacy_constraint"%string
  else if negb (target_meets_capabilities t (required_capabilities constraints)) then Some "capability_unsatisfied"%string
  else if over_ceiling routing t then Some "budget_ceiling"%string
  else None.

Definition excluded_evidence (t : ProviderTarget) (reason : string) : CandidateScoreEvidence :=
  mkScoreEvidence (id t) (provider t) (model t) None None None (Some reason).
Definition decision_of (request_id : string) : string := ("vdt_decision_" +:+ request_id)%string.
Definition empty_selection_evidence (request_id : string) (cs : list CandidateScoreEvidence) : SelectionEvidence :=
  mkEvidence (decision_of request_id) request_id EmptyString EmptyString EmptyString f64_zero "scorecard" cs false false.
(** The scoring of [select_provider_pool], which repeats that of
    [score_targets_with_denied] over vectors of costs and latencies that the ranking
    reads by position; [None] is an index out of range. *)
Definition pool_costs (eligible : list ProviderTarget) : list f64 :=
  (λ t, default f64_zero
     ((λ p, f64_div (f64_add (input_price_per_million p) (output_price_per_million p)) f64_two) <$> pricing t)) <$> eligible.
Definition pool_latencies (m : ProviderMetrics) (eligible : list ProviderTarget) : list f64 :=
  (λ t, default f64_zero (percentile_ttft m (id t) P50)) <$> eligible.
Definition pool_scores (routing : AutoRoutingConfig) (costs latencies : list f64) (n : nat) : option (list (f64 * nat)) :=
  let min_cost := fold_left f64_min costs f64_infinity in
  let max_cost := fold_left f64_max costs f64_neg_infinity in
  let min_latency := fold_left f64_min latencies f64_infinity in
  let max_latency := fold_left f64_max latencies f64_neg_infinity in
  let cost_range := f64_add (f64_sub max_cost min_cost) f64_epsilon in
  let latency_range := f64_add (f64_sub max_latency min_latency) f64_epsilon in
  mapM (λ idx,
    costs !! idx ≫= λ cost, latencies !! idx ≫= λ latency,
    Some (f64_add (f64_mul (cost_weight routing) (f64_div (f64_sub cost min_cost) cost_range))
            (f64_mul (latency_weight routing) (f64_div (f64_sub latency min_latency) latency_range)), idx)) (seq 0 n).
Definition pool_le (eligible : list ProviderTarget) (a b : f64 * nat) : bool :=
  match SFcompare a.1 b.1 with
  | Some Lt => true
  | Some Gt => false
  | Some Eq | None => String.leb (id_of eligible a.2) (id_of eligible b.2)
  end.
Definition pool_row (eligible : list ProviderTarget) (costs latencies : list f64) (x : f64 * nat) :
    option CandidateScoreEvidence :=
  eligible !! x.2 ≫= λ t, costs !! x.2 ≫= λ cost, latencies !! x.2 ≫= λ latency,
  Some (mkScoreEvidence (id t) (provider t) (model t) (Some x.1) (Some cost) (Some latency) None).
(** [select_provider_pool]: the index of the pinned target with the evidence. *)
Definition select_provider_pool (targets : list ProviderTarget) (routing : AutoRoutingConfig) (m : ProviderMetrics)
    (constraints : ProviderPoolConstraints) (request_id : string) :
    option (Result (nat * SelectionEvidence) SelectionEvidence) :=
  let reason t := exclusion_reason_for_target t routing constraints in
  let considered := omap (λ t, excluded_evidence t <$> reason t) targets in
  let indexed := List.filter (λ x, bool_decide (reason x.2 = None)) (enumerate targets) in
  let eligible := indexed.*2 in
  match eligible with
  | [] => Some (Err (empty_selection_evidence request_id considered))
  | _ =>
      let costs := pool_costs eligible in
      let latencies := pool_latencies m eligible in
      pool_scores routing costs latencies (length eligible) ≫= λ scores,
      let ranked := sort_by (pool_le eligible) scores in
      mapM (pool_row eligible costs latencies) ranked ≫= λ rows,
      head ranked ≫= λ best, indexed !! best.2 ≫= λ selected,
      Some (Ok (selected.1,
        mkEvidence (decision_of request_id) request_id (id selected.2) (provider selected.2) (model selected.2) best.1
          "scorecard" (considered ++ rows) false true))
  end.

(** ** Data-routing policy (providers.rs) *)

Inductive NoCompliantProviderAction := NoneBlock | NoneWarn.
Record DataRoutingPolicy := mkDataRouting {
  require_zero_data_retention : bool; require_no_training : bool; max_retention_days : option Z;
  on_no_compliant_provider : NoCompliantProviderAction; log_provider_selection : bool;
  require_in_memory_only : bool; sanitize_before_provider : bool; tokenize_sensitive_fields : bool;
  allow_internet_egress : bool; local_only_processing : bool;
}.

(** [parse_data_routing_policy]; the retention limit is truncated by [as u32]. *)
Definition parse_data_routing_policy (config : option json) : option DataRoutingPolicy :=
  match config with
  | Some (Obj _ as cfg) =>
      let require_zero_data_retention := get_bool cfg "require_zero_data_retention" false in
      let require_no_training := get_bool cfg "require_no_training" false in
      let require_in_memory_only := get_bool cfg "require_in_memory_only" false in
      let sanitize_before_provider := get_bool cfg "sanitize_before_provider" false in
      let tokenize_sensitive_fields := get_bool cfg "tokenize_sensitive_fields" false in
      let allow_internet_egress := get_bool cfg "allow_internet_egress" true in
      let local_only_processing := get_bool cfg "local_only_processing" false in
      if negb require_zero_data_retention && negb require_no_training
         && negb (bool_decide (is_Some (json_get cfg "max_retention_days"))) && negb require_in_memory_only
         && negb sanitize_before_provider && negb tokenize_sensitive_fields && allow_internet_egress
         && negb local_only_processing
      then None
      else
        Some (mkDataRouting require_zero_data_retention require_no_training
          (wrap32 <$> (json_get cfg "max_retention_days" ≫= json_as_u64 as_u64))
          (match get_str cfg "on_no_compliant_provider" with
           | Some action => if String.eqb action "warn" then NoneWarn else NoneBlock
           | None => NoneBlock
           end)
          (get_bool cfg "log_provider_selection" true)
          require_in_memory_only sanitize_before_provider tokenize_sensitive_fields allow_internet_egress
          local_only_processing)
  | _ => None
  end.

(** [filter_providers_by_data_policy]: why a target is excluded. *)
Definition data_policy_reason (policy : DataRoutingPolicy) (t : ProviderTarget) : option string :=
  match data_policy t with
  | None => Some "no data_policy declared"%string
  | Some dp =>
      if require_zero_data_retention policy && negb (zero_data_retention dp)
      then Some "zero_data_retention required but provider declares false"%string
      else if require_no_training policy && negb (training_opt_out dp)
      then Some "training_opt_out required but provider declares false"%string
      else
        let retention :=
          match max_retention_days policy with
          | None => None
          | Some max_days =>
              match retention_days dp with
              | None => Some "max_retention_days set but provider does not declare retention_days"%string
              | Some days =>
                  if (max_days <? days)%Z
                  then Some ("retention_days " +:+ pad 0 days +:+ " exceeds max_retention_days " +:+ pad 0 max_days)%string
                  else None
              end
          end in
        match retention with
        | Some reason => Some reason
        | None =>
            if require_in_memory_only policy && negb (in_memory_only dp)
            then Some "require_in_memory_only: provider does not declare in_memory_only: true"%string
            else if sanitize_before_provider policy && negb (sanitized dp)
            then Some "sanitize_before_provider: provider does not declare sanitized: true"%string
            else if tokenize_sensitive_fields policy && negb (accepts_tokenized_input dp)
            then Some "tokenize_sensitive_fields: provider does not declare accepts_tokenized_input: true"%string
            else if negb (allow_internet_egress policy) && dp_allow_internet_egress dp
            then Some "allow_internet_egress: false in policy but provider allows internet egress"%string
            else if local_only_processing policy && negb (dp_local_only_processing dp)
            then Some "local_only_processing: provider does not declare local_only_processing: true"%string
            else None
        end
  end.
Definition filter_providers_by_data_policy (policy : DataRoutingPolicy) (targets : list ProviderTarget) :
    list nat * list (string * string) :=
  ((List.filter (λ x, bool_decide (data_policy_reason policy x.2 = None)) (enumerate targets)).*1,
   omap (λ t, (λ reason, (id t, reason)) <$> data_policy_reason policy t) targets).

(** ** Filters (providers.rs) *)

Record RequestCost := mkCost { rc_prompt : f64; rc_completion : f64; rc_request : f64; rc_cached_input : f64 }.
Definition estimate_request_cost (t : ProviderTarget) (prompt_tokens max_completion_tokens : option Z) :
    option RequestCost :=
  p ← pricing t;
  let prompt := f64_div (f64_mul (f64_of_u64 (default 0%Z prompt_tokens)) (input_price_per_million p)) f64_million in
  let completion :=
    f64_div (f64_mul (f64_of_u64 (default 0%Z max_completion_tokens)) (output_price_per_million p)) f64_million in
  Some (mkCost prompt completion (f64_add prompt completion) f64_zero).
Definition exceeds (ceiling : option f64) (c : f64) : bool :=
  match ceiling with Some ceiling => f64_gt c ceiling | None => false end.

Definition on_target (targets : list ProviderTarget) (f : ProviderTarget → bool) (i : nat) : bool :=
  match targets !! i with Some t => f t | None => false end.
Definition within_price (max_price : MaxPrice) (prompt_tokens max_completion_tokens : option Z) (t : ProviderTarget) : bool :=
  match estimate_request_cost t prompt_tokens max_completion_tokens with
  | None => false
  | Some c =>
      negb (exceeds (mp_prompt max_price) (rc_prompt c)) && negb (exceeds (mp_completion max_price) (rc_completion c))
      && negb (exceeds (mp_request max_price) (rc_request c))
  end.
Definition filter_by_cost (targets : list ProviderTarget) (ordered : list nat) (max_price : MaxPrice)
    (prompt_tokens max_completion_tokens : option Z) : list nat :=
  List.filter (on_target targets (within_price max_price prompt_tokens max_completion_tokens)) ordered.
Definition filter_by_remaining_budget (targets : list ProviderTarget) (ordered : list nat) (remaining_budget : f64)
    (prompt_tokens max_completion_tokens : option Z) : list nat :=
  List.filter (on_target targets (λ t,
    match estimate_request_cost t prompt_tokens max_completion_tokens with
    | Some c => SFleb (rc_request c) remaining_budget
    | None => false
    end)) ordered.
Definition filter_by_region (targets : list ProviderTarget) (ordered : list nat) (require_region : string) : list nat :=
  List.filter (on_target targets (λ t, provider_matches_region t require_region)) ordered.
Definition any_target_declares_data_residency (targets : list ProviderTarget) (ordered : list nat) : bool :=
  existsb (on_target targets (λ t, bool_decide (is_Some (data_residency t)))) ordered.
Definition has_quantization (required : list string) (t : ProviderTarget) : bool :=
  match quantizations t with
  | Some quants => existsb (λ r, bool_decide (r ∈ quants)) required
  | None => false
  end.
Definition filter_by_quantization (targets : list ProviderTarget) (ordered : list nat) (required : list string) : list nat :=
  List.filter (on_target targets (has_quantization required)) ordered.

(** ** The registry and the view of the gateway *)

Record ModelGroup := mkGroup {
  group_name : string; group_targets : list string; group_aliases : list string; fallback_group : option string;
}.
Record ProviderRegistry := mkRegistry { targets : list ProviderTarget; routing_of : RoutingConfig; model_groups : list ModelGroup }.
(** The fields of the state that routing reads; the metrics come with what a
    selection draws and leaves behind. *)
Record RoutingState := mkRoutingState {
  auto_provider : AutoProviderConfig;
  provider_metrics : ProviderMetrics;
  policy_chain : list string;
  data_routing_block : option json;
  ua_pinned_target_id : option string;
  ua_denied_target_ids : gset string;
  cache_embedding_provider : option string;
}.
Record ProviderRequestPins := mkPins { pin_provider : option string; pin_model : option string }.
Inductive ProviderOrderSelectionError := UnknownProviderPin (pin : string) | NoCompliantProvider.
Inductive ProviderOrderFilterError :=
| CostBudgetExceeded | NoMatchingRegion (region : string) | DataResidencyExcludedAllCandidates (region : string)
| NoMatchingQuantization | NoContextWindowCapacity (estimated_tokens : Z) | ModelGroupChainEmpty (group : string)
| AutoRoutingNoEligibleProvider | UsageAuthorizationDeniedAllCandidates.

(** [get(name).and_then(to_str).map(trim).filter(non-empty)] of two headers, which
    [header_get] reads as text. *)
Definition extract_provider_request_pins (header_get : string → option string) : ProviderRequestPins :=
  let pin name := header_get name ≫= λ v, if is_empty (trim v) then None else Some (trim v) in
  mkPins (pin "x-verdictan-provider"%string) (pin "x-verdictan-model"%string).

Definition resolve_model_group (registry : ProviderRegistry) (model_name : string) : option ModelGroup :=
  List.find (λ g, String.eqb (group_name g) model_name || bool_decide (model_name ∈ group_aliases g)) (model_groups registry).
Definition resolve_provider_pin (registry : ProviderRegistry) (pin : string) : list nat :=
  (List.filter (λ x, String.eqb (id x.2) pin || String.eqb (provider x.2) pin) (enumerate (targets registry))).*1.

Definition data_routing_policy_for_state (st : RoutingState) : option DataRoutingPolicy :=
  if bool_decide ("data-routing-policy"%string ∈ policy_chain st) then parse_data_routing_policy (data_routing_block st)
  else None.
Definition apply_provider_pin_selection (registry : ProviderRegistry) (pin : option string) :
    Result (option (list nat)) ProviderOrderSelectionError :=
  match pin with
  | None => Ok None
  | Some pin =>
      match resolve_provider_pin registry pin with
      | [] => Err (UnknownProviderPin pin)
      | pinned => Ok (Some pinned)
      end
  end.
Definition apply_data_routing_policy_selection (registry : ProviderRegistry) (ordered : list nat)
    (data_routing : option DataRoutingPolicy) : Result (list nat) ProviderOrderSelectionError :=
  match data_routing with
  | None => Ok ordered
  | Some policy =>
      match (filter_providers_by_data_policy policy (targets registry)).1 with
      | [] => match on_no_compliant_provider policy with NoneBlock => Err NoCompliantProvider | NoneWarn => Ok ordered end
      | allowed => Ok (List.filter (λ i, bool_decide (i ∈ allowed)) ordered)
      end
  end.
(** [resolve_initial_provider_order], on the order that [select_providers] gave. *)
Definition resolve_initial_provider_order (registry : ProviderRegistry) (st : RoutingState) (selected : list nat)
    (pins : ProviderRequestPins) : Result (list nat) ProviderOrderSelectionError :=
  match apply_provider_pin_selection registry (pin_provider pins) with
  | Err e => Err e
  | Ok pinned =>
      match apply_data_routing_policy_selection registry (default selected pinned) (data_routing_policy_for_state st) with
      | Err e => Err e
      | Ok ordered =>
          match ua_pinned_target_id st ≫= λ v, if is_empty (trim v) then None else Some (trim v) with
          | None => Ok ordered
          | Some pinned_id =>
              match List.filter (on_target (targets registry) (λ t, String.eqb (id t) pinned_id)) ordered with
              | [] => Err NoCompliantProvider
              | pinned => Ok pinned
              end
          end
      end
  end.

(** ** Semantic routing (responses_part4.rs) *)

Definition cosine_similarity (a b : list f64) : f64 :=
  if negb (length a =? length b) || (length a =? 0) then f64_zero
  else
    let dot := f64_sum (zip_with f64_mul a b) in
    let mag_a := f64_sqrt (f64_sum ((λ x, f64_mul x x) <$> a)) in
    let mag_b := f64_sqrt (f64_sum ((λ x, f64_mul x x) <$> b)) in
    if SFeqb mag_a f64_zero || SFeqb mag_b f64_zero then f64_zero
    else f64_clamp1 (f64_div dot (f64_mul mag_a mag_b)).
Definition contents_joined (items : list json) : string :=
  String.concat newline (omap (λ item, get_str item "content") items).
Definition nonblank (s : string) : option string := if all_whitespace s then None else Some s.
Definition semantic_cache_text_from_body (body : json) : option string :=
  or_else (get_array body "messages" ≫= λ messages, nonblank (contents_joined messages))
    (or_else (match json_get body "input" with
              | Some (Str text) => nonblank text
              | Some (Arr items) => nonblank (contents_joined items)
              | _ => None
              end)
       (get_str body "prompt")).
(** [embed] is what the embedding provider answers for the texts, if it answers. *)
Variable embed : string → list string → option (list (list f64)).
Definition described (registry : ProviderRegistry) (ordered : list nat) : list (nat * string) :=
  omap (λ i, (λ d, (i, d)) <$> (targets registry !! i ≫= description)) ordered.
Definition apply_semantic_routing (body : json) (registry : ProviderRegistry) (st : RoutingState) (ordered : list nat) :
    list nat :=
  match strategy (routing_of registry) with
  | Semantic =>
      match or_else (semantic_embedding_provider (routing_of registry)) (cache_embedding_provider st),
            semantic_cache_text_from_body body with
      | Some provider_id, Some query_text =>
          let ds := described registry ordered in
          match ds with
          | [] => ordered
          | _ =>
              match embed provider_id (query_text :: ds.*2) with
              | Some (query :: embeddings) =>
                  if length embeddings =? length ds then
                    let scored := List.filter (λ x, f64_ge x.2 (semantic_similarity_threshold (routing_of registry)))
                                    (zip ds.*1 (cosine_similarity query <$> embeddings)) in
                    match scored with
                    | [] => ordered
                    | _ => place_rest ordered (sort_by (λ a b, f64_not_greater b.2 a.2) scored).*1
                    end
                  else ordered
              | _ => ordered
              end
          end
      | _, _ => ordered
      end
  | _ => ordered
  end.

(** ** The filters of the pipeline (responses_part2.rs) *)

(** [extract_requested_max_tokens]: the first of three keys that is present. *)
Definition extract_requested_max_tokens (body : json) : option Z :=
  v ← or_else (json_get body "max_tokens")
        (or_else (json_get body "max_completion_tokens") (json_get body "max_output_tokens"));
  n ← json_as_u64 as_u64 v;
  if (n <=? u32_max)%Z then Some n else None.

Definition or_refuse (filtered : list nat) (e : ProviderOrderFilterError) : Result (list nat) ProviderOrderFilterError :=
  match filtered with [] => Err e | _ => Ok filtered end.

Definition apply_cost_filter_to_provider_order (registry : ProviderRegistry) (ordered : list nat) (body : json) :
    Result (list nat) ProviderOrderFilterError :=
  match max_price (routing_of registry) with
  | None => Ok ordered
  | Some max_price =>
      or_refuse (filter_by_cost (targets registry) ordered max_price None (extract_requested_max_tokens body))
        CostBudgetExceeded
  end.
Definition apply_region_filter_to_provider_order (registry : ProviderRegistry) (ordered : list nat) :
    Result (list nat) ProviderOrderFilterError :=
  match require_region (routing_of registry) with
  | None => Ok ordered
  | Some region =>
      or_refuse (filter_by_region (targets registry) ordered region)
        (if any_target_declares_data_residency (targets registry) ordered
         then DataResidencyExcludedAllCandidates region else NoMatchingRegion region)
  end.
Definition apply_quantization_filter_to_provider_order (registry : ProviderRegistry) (ordered : list nat) :
    Result (list nat) ProviderOrderFilterError :=
  match require_quantizations (routing_of registry) with
  | None => Ok ordered
  | Some required => or_refuse (filter_by_quantization (targets registry) ordered required) NoMatchingQuantization
  end.
Definition fits_context (estimated_tokens : Z) (t : ProviderTarget) : bool :=
  match max_context_tokens t with Some max => negb (max <? estimated_tokens)%Z | None => true end.
Definition apply_pre_call_context_window_filter (registry : ProviderRegistry) (ordered : list nat) (body : json) :
    Result (list nat) ProviderOrderFilterError :=
  if negb (enable_pre_call_checks (routing_of registry)) then Ok ordered
  else match estimate_prompt_tokens body with
       | None => Ok ordered
       | Some estimated_tokens =>
           let filtered := List.filter (on_target (targets registry) (fits_context estimated_tokens)) ordered in
           if bool_decide (filtered = []) && negb (bool_decide (ordered = []))
           then Err (NoContextWindowCapacity estimated_tokens) else Ok filtered
       end.

(** The chain of a model group: its targets in order, then those of its fallback
    group, until a group repeats; [None] is out of fuel. *)
Fixpoint add_group (registry : ProviderRegistry) (ordered : list nat) (ids : list string) (chain : list nat) : list nat :=
  match ids with
  | [] => chain
  | target_id :: ids =>
      add_group registry ordered ids
        match position (λ t, String.eqb (id t) target_id) (targets registry) with
        | Some i => if bool_decide (i ∈ ordered) && negb (bool_decide (i ∈ chain)) then chain ++ [i] else chain
        | None => chain
        end
  end.
Definition next_group (registry : ProviderRegistry) (g : ModelGroup) : option ModelGroup :=
  name ← fallback_group g; List.find (λ candidate, String.eqb (group_name candidate) name) (model_groups registry).
Fixpoint group_chain (registry : ProviderRegistry) (ordered : list nat) (fuel : nat) (current : option ModelGroup)
    (visited : list string) (chain : list nat) : option (list nat) :=
  match current with
  | None => Some chain
  | Some g =>
      if bool_decide (group_name g ∈ visited) then Some chain
      else match fuel with
           | O => None
           | S fuel =>
               group_chain registry ordered fuel (next_group registry g) (group_name g :: visited)
                 (add_group registry ordered (group_targets g) chain)
           end
  end.
Definition chain_of (registry : ProviderRegistry) (ordered : list nat) (g : ModelGroup) : option (list nat) :=
  group_chain registry ordered (length (model_groups registry)) (Some g) [] [].
Definition apply_model_group_provider_ordering (registry : ProviderRegistry) (ordered : list nat) (body : json) :
    option (Result (list nat) ProviderOrderFilterError) :=
  match get_str body "model" with
  | None => Some (Ok ordered)
  | Some model_name =>
      match resolve_model_group registry model_name with
      | None => Some (Ok ordered)
      | Some group =>
          chain ← chain_of registry ordered group;
          Some (if bool_decide (chain = []) && negb (bool_decide (ordered = []))
                then Err (ModelGroupChainEmpty (group_name group)) else Ok chain)
      end
  end.

Definition auto_scored_provider_order (st : RoutingState) (registry : ProviderRegistry) (ordered : list nat)
    (denied : option (gset string)) : list nat :=
  List.filter (λ i, bool_decide (i ∈ ordered))
    (score_targets_with_denied (targets registry) (auto_routing (auto_provider st)) (provider_metrics st) denied).
Definition apply_auto_provider_ordering (st : RoutingState) (registry : ProviderRegistry) (ordered : list nat)
    (body : json) : Result (list nat) ProviderOrderFilterError :=
  if negb (auto_enabled (auto_provider st)) then Ok ordered
  else match get_str body "model" with
       | None => Ok ordered
       | Some model_name =>
           if negb (String.eqb model_name (auto_name (auto_provider st))) then Ok ordered
           else
             match auto_scored_provider_order st registry ordered (Some (ua_denied_target_ids st)) with
             | [] =>
                 if bool_decide (ordered = []) then Ok []
                 else if negb (bool_decide (ua_denied_target_ids st = ∅))
                         && negb (bool_decide (auto_scored_provider_order st registry ordered None = []))
                 then Err UsageAuthorizationDeniedAllCandidates
                 else Err AutoRoutingNoEligibleProvider
             | auto_ordered => Ok auto_ordered
             end
       end.

(** [resolve_prefiltered_provider_order]. *)
Definition resolve_prefiltered_provider_order (registry : ProviderRegistry) (st : RoutingState) (ordered : list nat)
    (body : json) : option (Result (list nat) ProviderOrderFilterError) :=
  let ordered := apply_semantic_routing body registry st ordered in
  match apply_cost_filter_to_provider_order registry ordered body with
  | Err e => Some (Err e)
  | Ok ordered =>
      match apply_region_filter_to_provider_order registry ordered with
      | Err e => Some (Err e)
      | Ok ordered =>
          match apply_quantization_filter_to_provider_order registry ordered with
          | Err e => Some (Err e)
          | Ok ordered =>
              match apply_pre_call_context_window_filter registry ordered body with
              | Err e => Some (Err e)
              | Ok ordered =>
                  match apply_model_group_provider_ordering registry ordered body with
                  | None => None
                  | Some (Err e) => Some (Err e)
                  | Some (Ok ordered) => Some (apply_auto_provider_ordering st registry ordered body)
                  end
              end
          end
      end
  end.

(** ** Lists of targets *)

Lemma elem_of_enumerate (ts : list ProviderTarget) i t : (i, t) ∈ enumerate ts ↔ ts !! i = Some t.
Proof.
  unfold enumerate. assert (Hgo : ∀ k, (i, t) ∈ zip (seq k (length ts)) ts ↔ k ≤ i ∧ ts !! (i - k) = Some t).
  { clear. induction ts as [|u ts IH]; intros k; simpl; [split; [by intros ?%not_elem_of_nil|intros [_ H]; by destruct (i - k)]|].
    rewrite elem_of_cons, IH. split.
    - intros [[= -> ->]|[Hle Hu]]; [by rewrite Nat.sub_diag|]. split; [lia|].
      by replace (i - k) with (S (i - S k)) by lia.
    - intros [Hle Hu]. destruct (decide (i = k)) as [->|]; [rewrite Nat.sub_diag in Hu; left; by simplify_eq/=|].
      right. split; [lia|]. by replace (i - k) with (S (i - S k)) in Hu by lia. }
  rewrite Hgo, Nat.sub_0_r. naive_solver lia.
Qed.
Lemma elem_of_filter_bool {A} (f : A → bool) l x : x ∈ List.filter f l ↔ x ∈ l ∧ f x = true.
Proof. by rewrite !list_elem_of_In, filter_In. Qed.
Lemma elem_of_enumerate_filter f ts i :
  i ∈ (List.filter f (enumerate ts)).*1 ↔ ∃ t, ts !! i = Some t ∧ f (i, t) = true.
Proof.
  rewrite list_elem_of_fmap. split.
  - intros ([j t] & -> & [Hin Hf]%elem_of_filter_bool). exists t. by rewrite <- elem_of_enumerate.
  - intros (t & Hi & Hf). exists (i, t). by rewrite elem_of_filter_bool, elem_of_enumerate.
Qed.
Lemma on_target_true ts f i : on_target ts f i = true ↔ ∃ t, ts !! i = Some t ∧ f t = true.
Proof. unfold on_target. destruct (ts !! i) as [t|]; naive_solver. Qed.

(** ** The chain of a model group *)

(** [g'] follows [g] through fallback groups. *)
Definition follows (registry : ProviderRegistry) : relation ModelGroup := λ g g', next_group registry g = Some g'.
Definition served_by (registry : ProviderRegistry) (g : ModelGroup) (t : ProviderTarget) : Prop :=
  ∃ g', rtc (follows registry) g g' ∧ id t ∈ group_targets g'.

Lemma find_group_in {P} (gs : list ModelGroup) g : List.find P gs = Some g → g ∈ gs.
Proof. intros [Hin _]%find_some. by apply list_elem_of_In. Qed.
Lemma group_chain_total registry ordered fuel current visited chain :
  (∀ g, current = Some g → g ∈ model_groups registry) → NoDup visited →
  visited ⊆ group_name <$> model_groups registry → length (model_groups registry) ≤ fuel + length visited →
  is_Some (group_chain registry ordered fuel current visited chain).
Proof.
  revert current visited chain. induction fuel as [|fuel IH]; intros current visited chain Hcur Hnd Hsub Hlen;
    (destruct current as [g|]; simpl; [|eauto]); (case_bool_decide as Hv; [eauto|]).
  - assert (Hin : group_name g :: visited ⊆ group_name <$> model_groups registry).
    { intros n [->|Hn]%elem_of_cons; [apply list_elem_of_fmap_2; by apply Hcur|by apply Hsub]. }
    apply NoDup_submseteq, submseteq_length in Hin; [|by constructor]. rewrite length_fmap in Hin. simpl in Hin. lia.
  - apply IH; [|by constructor| |simpl; lia].
    + intros g' Hg'. unfold next_group in Hg'. destruct (fallback_group g) as [n|]; [|done]. by eapply find_group_in.
    + intros n [->|Hn]%elem_of_cons; [apply list_elem_of_fmap_2; by apply Hcur|by apply Hsub].
Qed.
Lemma add_group_spec registry ordered ids chain i :
  i ∈ add_group registry ordered ids chain →
  i ∈ chain ∨ i ∈ ordered ∧ ∃ t, targets registry !! i = Some t ∧ id t ∈ ids.
Proof.
  revert chain. induction ids as [|x ids IH]; intros chain; simpl; [by left|]. intros [Hi|[Hi (t & Ht & Hid)]]%IH.
  2:{ right. split; [done|]. exists t. split; [done|by right]. }
  unfold position in Hi. destruct (list_find _ (targets registry)) as [[j t]|] eqn:Hf; simpl in Hi; [|by left].
  destruct (bool_decide (j ∈ ordered)) eqn:Ho; simpl in Hi; [|by left].
  destruct (bool_decide (j ∈ chain)); simpl in Hi; [by left|]. apply elem_of_app in Hi as [Hi| ->%list_elem_of_singleton]; [by left|].
  right. apply list_find_Some in Hf as (Ht & Heq & _). bool_to_prop. split; [done|]. exists t.
  split; [done|]. apply Is_true_eq_true, String.eqb_eq in Heq as ->. left.
Qed.
Lemma group_chain_spec registry ordered g fuel current visited chain l :
  group_chain registry ordered fuel current visited chain = Some l →
  (∀ g', current = Some g' → rtc (follows registry) g g') →
  (∀ i, i ∈ chain → i ∈ ordered ∧ ∃ t, targets registry !! i = Some t ∧ served_by registry g t) →
  ∀ i, i ∈ l → i ∈ ordered ∧ ∃ t, targets registry !! i = Some t ∧ served_by registry g t.
Proof.
  revert current visited chain. induction fuel as [|fuel IH]; intros current visited chain Hl Hcur Hchain;
    (destruct current as [g'|]; simpl in Hl; [|by simplify_eq]); (case_bool_decide; [by simplify_eq|]); [done|].
  specialize (Hcur g' eq_refl). eapply IH; [exact Hl| |].
  - intros g'' Hg''. eapply rtc_r; [exact Hcur|done].
  - intros i [Hi|[Ho (t & Ht & Hid)]]%add_group_spec; [by apply Hchain|]. split; [done|]. exists t. split; [done|].
    by exists g'.
Qed.
Lemma chain_of_spec registry ordered g : g ∈ model_groups registry →
  ∃ l, chain_of registry ordered g = Some l
    ∧ ∀ i, i ∈ l → i ∈ ordered ∧ ∃ t, targets registry !! i = Some t ∧ served_by registry g t.
Proof.
  intros Hg. destruct (group_chain_total registry ordered (length (model_groups registry)) (Some g) [] []) as [l Hl];
    [by intros ? [= <-]|constructor|by intros ? ?%not_elem_of_nil|simpl; lia|].
  exists l. split; [done|]. eapply (group_chain_spec registry ordered g _ _ _ _ _ Hl); [by intros ? [= <-]|by intros ? ?%not_elem_of_nil].
Qed.

(** ** Every stage keeps permitted targets only *)

(** A stage that succeeds keeps targets of its input with a property, and some of
    them if there are any. *)
Definition keeps {E} (P : nat → Prop) (input : list nat) (r : Result (list nat) E) : Prop :=
  ∀ l, r = Ok l → (l = [] → input = []) ∧ ∀ i, i ∈ l → i ∈ input ∧ P i.

Lemma keeps_all {E} (P : nat → Prop) input : (∀ i, i ∈ input → P i) → @keeps E P input (Ok input).
Proof. intros HP l [= <-]. split; [done|]. intros i Hi. split; [done|by apply HP]. Qed.
Lemma keeps_filter (f : nat → bool) (P : nat → Prop) input e :
  (∀ i, f i = true → P i) → keeps P input (or_refuse (List.filter f input) e).
Proof.
  intros Hf l. destruct (List.filter f input) as [|x xs] eqn:E; [done|]. simpl. intros [= <-]. split; [done|].
  intros i Hi. rewrite <- E, elem_of_filter_bool in Hi. destruct Hi. eauto.
Qed.
Lemma elem_of_place_rest l ordered i : i ∈ place_rest l ordered ↔ i ∈ ordered ∨ i ∈ l.
Proof.
  revert ordered. induction l as [|x l IH]; intros ordered; simpl; [set_solver|]. rewrite IH.
  case_bool_decide; set_solver.
Qed.
Lemma semantic_same body registry st ordered i : i ∈ apply_semantic_routing body registry st ordered ↔ i ∈ ordered.
Proof.
  unfold apply_semantic_routing. destruct (strategy (routing_of registry)); try done.
  destruct (or_else _ _) as [pid|]; [|done]. destruct (semantic_cache_text_from_body body) as [q|]; [|done]. cbv zeta.
  destruct (described registry ordered) as [|d ds] eqn:Hd; [done|]. rewrite <- Hd.
  destruct (embed pid _) as [[|e es]|]; [done| |done]. destruct (length es =? _); [|done].
  destruct (List.filter _ _) as [|x xs] eqn:Hx; [done|]. rewrite elem_of_place_rest. split; [|by right].
  intros [Hi|Hi]; [|done]. apply list_elem_of_fmap in Hi as ([j s] & -> & Hin). simpl.
  eapply elem_of_Permutation_proper in Hin; [|symmetry; apply sort_by_perm]. rewrite <- Hx, elem_of_filter_bool in Hin.
  destruct Hin as [Hin%elem_of_zip_l _]. apply list_elem_of_fmap in Hin as ([k t] & -> & Hin). simpl.
  unfold described in Hin. apply list_elem_of_omap in Hin as (a & Ha & Heq).
  destruct (targets registry !! a ≫= description); simplify_eq/=. done.
Qed.

(** What the filters demand of a target. *)
Definition filters_admit (registry : ProviderRegistry) (st : RoutingState) (body : json) (t : ProviderTarget) : Prop :=
  let routing := routing_of registry in
  (∀ mp, max_price routing = Some mp → within_price mp None (extract_requested_max_tokens body) t = true)
  ∧ (∀ r, require_region routing = Some r → provider_matches_region t r = true)
  ∧ (∀ q, require_quantizations routing = Some q → has_quantization q t = true)
  ∧ (∀ n, enable_pre_call_checks routing = true → estimate_prompt_tokens body = Some n → fits_context n t = true)
  ∧ (∀ name g, get_str body "model" = Some name → resolve_model_group registry name = Some g → served_by registry g t)
  ∧ (auto_enabled (auto_provider st) = true → get_str body "model" = Some (auto_name (auto_provider st)) →
     id t ∉ ua_denied_target_ids st ∧ over_ceiling (auto_routing (auto_provider st)) t = false).

Definition holds_at (registry : ProviderRegistry) (P : ProviderTarget → Prop) (i : nat) : Prop :=
  ∀ t, targets registry !! i = Some t → P t.

Lemma on_target_holds registry f i : on_target (targets registry) f i = true → holds_at registry (λ t, f t = true) i.
Proof. intros (t & Ht & Hf)%on_target_true u Hu. by simplify_eq. Qed.

Lemma cost_keeps registry ordered body :
  keeps (holds_at registry (λ t, ∀ mp, max_price (routing_of registry) = Some mp →
    within_price mp None (extract_requested_max_tokens body) t = true)) ordered
    (apply_cost_filter_to_provider_order registry ordered body).
Proof.
  unfold apply_cost_filter_to_provider_order. destruct (max_price (routing_of registry)) as [mp|]; [|by apply keeps_all].
  apply keeps_filter. intros i Hi%on_target_holds t Ht ? [= <-]. by apply Hi.
Qed.
Lemma region_keeps registry ordered :
  keeps (holds_at registry (λ t, ∀ r, require_region (routing_of registry) = Some r →
    provider_matches_region t r = true)) ordered (apply_region_filter_to_provider_order registry ordered).
Proof.
  unfold apply_region_filter_to_provider_order. destruct (require_region (routing_of registry)) as [r|]; [|by apply keeps_all].
  apply keeps_filter. intros i Hi%on_target_holds t Ht ? [= <-]. by apply Hi.
Qed.
Lemma quantization_keeps registry ordered :
  keeps (holds_at registry (λ t, ∀ q, require_quantizations (routing_of registry) = Some q →
    has_quantization q t = true)) ordered (apply_quantization_filter_to_provider_order registry ordered).
Proof.
  unfold apply_quantization_filter_to_provider_order.
  destruct (require_quantizations (routing_of registry)) as [q|]; [|by apply keeps_all].
  apply keeps_filter. intros i Hi%on_target_holds t Ht ? [= <-]. by apply Hi.
Qed.
Lemma context_keeps registry ordered body :
  keeps (holds_at registry (λ t, ∀ n, enable_pre_call_checks (routing_of registry) = true →
    estimate_prompt_tokens body = Some n → fits_context n t = true)) ordered
    (apply_pre_call_context_window_filter registry ordered body).
Proof.
  unfold apply_pre_call_context_window_filter. destruct (enable_pre_call_checks (routing_of registry)); [|by apply keeps_all].
  cbn [negb]. destruct (estimate_prompt_tokens body) as [n|]; [|by apply keeps_all]. cbv zeta.
  destruct (bool_decide_reflect (List.filter (on_target (targets registry) (fits_context n)) ordered = [])) as [Hnil|Hne];
    cbn [andb]; intros l.
  - destruct (bool_decide_reflect (ordered = [])) as [->|]; [|done]. intros [= <-]. split; [done|set_solver].
  - intros [= <-]. split; [done|]. intros i [Hi Hf%on_target_holds]%elem_of_filter_bool. split; [done|].
    intros t Ht ? _ [= <-]. by apply Hf.
Qed.
Lemma group_keeps registry ordered body : ∃ r, apply_model_group_provider_ordering registry ordered body = Some r
  ∧ keeps (holds_at registry (λ t, ∀ name g, get_str body "model" = Some name →
      resolve_model_group registry name = Some g → served_by registry g t)) ordered r.
Proof.
  unfold apply_model_group_provider_ordering. destruct (get_str body "model") as [name|].
  2:{ eexists. split; [done|]. by apply keeps_all. }
  destruct (resolve_model_group registry name) as [g|] eqn:Hg.
  2:{ eexists. split; [done|]. apply keeps_all. intros i _ t _ ? ? [= <-]. congruence. }
  destruct (chain_of_spec registry ordered g (find_group_in _ _ Hg)) as (chain & -> & Hchain).
  eexists. split; [done|]. intros l. destruct (bool_decide_reflect (chain = [])) as [->|Hne]; cbn [andb].
  - destruct (bool_decide_reflect (ordered = [])) as [->|]; [|done]. intros [= <-]. split; [done|set_solver].
  - intros [= <-]. split; [done|]. intros i Hi. destruct (Hchain i Hi) as [Ho (t & Ht & Hs)]. split; [done|].
    intros u Hu ? ? [= <-] Hg'. simplify_eq. done.
Qed.

Lemma rank_perm routing cs : (rank routing cs).*2 ≡ₚ cs.
Proof.
  unfold rank. rewrite (sort_by_perm score_le). rewrite <- list_fmap_compose. simpl. by rewrite list_fmap_id.
Qed.
Lemma scored_admitted ts routing m denied i : i ∈ score_targets_with_denied ts routing m denied ↔
  ∃ t, ts !! i = Some t ∧ is_denied denied t = false ∧ over_ceiling routing t = false.
Proof.
  set (eligible := List.filter (λ x, negb (is_denied denied x.2) && negb (over_ceiling routing x.2)) (enumerate ts)).
  assert (Hperm : score_targets_with_denied ts routing m denied ≡ₚ eligible.*1).
  { unfold score_targets_with_denied. fold eligible. cbv zeta. transitivity (cand_index <$> (candidate_of m <$> eligible)).
    - destruct (candidate_of m <$> eligible) as [|c cs] eqn:E; [done|]. rewrite <- E.
      rewrite <- (rank_perm routing (candidate_of m <$> eligible)) at 2. by rewrite <- list_fmap_compose.
    - by rewrite <- list_fmap_compose. }
  rewrite Hperm. unfold eligible. rewrite elem_of_enumerate_filter. simpl. setoid_rewrite andb_true_iff.
  setoid_rewrite negb_true_iff. done.
Qed.
Lemma auto_keeps st registry ordered body :
  keeps (holds_at registry (λ t, auto_enabled (auto_provider st) = true →
    get_str body "model" = Some (auto_name (auto_provider st)) →
    id t ∉ ua_denied_target_ids st ∧ over_ceiling (auto_routing (auto_provider st)) t = false)) ordered
    (apply_auto_provider_ordering st registry ordered body).
Proof.
  unfold apply_auto_provider_ordering. destruct (auto_enabled (auto_provider st)); [|by apply keeps_all]. cbn [negb].
  destruct (get_str body "model") as [name|]; [|by apply keeps_all].
  destruct (String.eqb_spec name (auto_name (auto_provider st))) as [->|Hne]; cbn [negb].
  2:{ apply keeps_all. intros i _ t _ _ [= ?]. done. }
  intros l. destruct (auto_scored_provider_order st registry ordered (Some _)) as [|x xs] eqn:Hs.
  - destruct (bool_decide_reflect (ordered = [])) as [->|]; [|by destruct (_ && _)]. intros [= <-]. split; [done|set_solver].
  - intros [= <-]. split; [done|]. intros i Hi. rewrite <- Hs in Hi. unfold auto_scored_provider_order in Hi.
    apply elem_of_filter_bool in Hi as [(t & Ht & Hd & Hc)%scored_admitted Ho]. bool_to_prop. split; [done|].
    intros u Hu _ _. simplify_eq. simpl in Hd. bool_to_prop. done.
Qed.

(** ** The routes of a request *)

(** What the pin or the configured providers, the data policy and the authorisation
    pin demand of a target. *)
Definition listed (routing : RoutingConfig) (t : ProviderTarget) : Prop :=
  match only routing, ignore routing with
  | Some ids, _ => id t ∈ ids
  | None, Some ids => id t ∉ ids
  | None, None => True
  end.
Definition routed (registry : ProviderRegistry) (st : RoutingState) (pins : ProviderRequestPins) (t : ProviderTarget) : Prop :=
  match pin_provider pins with Some pin => id t = pin ∨ provider t = pin | None => listed (routing_of registry) t end
  ∧ (∀ policy, data_routing_policy_for_state st = Some policy →
     data_policy_reason policy t = None
     ∨ on_no_compliant_provider policy = NoneWarn ∧ ∀ u, u ∈ targets registry → is_Some (data_policy_reason policy u))
  ∧ (∀ v, ua_pinned_target_id st = Some v → is_empty (trim v) = false → id t = trim v).

Lemma eligible_listed ts routing i : i ∈ eligible_provider_indices ts routing → ∃ t, ts !! i = Some t ∧ listed routing t.
Proof.
  assert (Hat : ∀ j, j ∈ seq 0 (length ts) → ∃ t, ts !! j = Some t ∧ id_of ts j = id t).
  { intros j [_ Hj]%elem_of_seq. apply lookup_lt_is_Some in Hj as [t Ht]. exists t. unfold id_of. by rewrite Ht. }
  unfold eligible_provider_indices, listed. destruct (only routing) as [ids|]; [|destruct (ignore routing) as [ids|]];
    [intros [(t & Ht & ->)%Hat Hin]%elem_of_filter_bool..|intros (t & Ht & _)%Hat; eauto];
    bool_to_prop; eauto.
Qed.
Lemma selection_listed hash_iter ts routing draws m seed i :
  i ∈ (select_providers hash_iter ts routing draws m seed).2 → ∃ t, ts !! i = Some t ∧ listed routing t.
Proof.
  destruct (selection_perm hash_iter ts routing draws m seed) as (full & Hp & ->). intros Hi.
  apply eligible_listed. rewrite <- Hp. destruct (allow_fallbacks routing); [done|]. by eapply elem_of_take in Hi as (? & Hi & _); eapply list_elem_of_lookup_2.
Qed.
Lemma pinned_routed registry pin i : i ∈ resolve_provider_pin registry pin →
  ∃ t, targets registry !! i = Some t ∧ (id t = pin ∨ provider t = pin).
Proof.
  intros (t & Ht & Hm)%elem_of_enumerate_filter. exists t. split; [done|]. simpl in Hm.
  apply orb_true_iff in Hm as [?%String.eqb_eq|?%String.eqb_eq]; auto.
Qed.
Lemma data_policy_keeps registry data_routing ordered l :
  apply_data_routing_policy_selection registry ordered data_routing = Ok l →
  ∀ i, i ∈ l → i ∈ ordered ∧ holds_at registry (λ t, ∀ policy, data_routing = Some policy →
    data_policy_reason policy t = None
    ∨ on_no_compliant_provider policy = NoneWarn ∧ ∀ u, u ∈ targets registry → is_Some (data_policy_reason policy u)) i.
Proof.
  unfold apply_data_routing_policy_selection. destruct data_routing as [policy|]; [|by intros [= <-]].
  destruct (filter_providers_by_data_policy policy (targets registry)).1 as [|a allowed] eqn:Ha.
  - destruct (on_no_compliant_provider policy) eqn:Hw; [done|]. intros [= <-] i Hi. split; [done|].
    intros t Ht ? [= <-]. right. split; [done|]. intros u [j Hj]%list_elem_of_lookup.
    destruct (data_policy_reason policy u) eqn:Hu; [eauto|]. exfalso.
    assert (Hin : j ∈ (filter_providers_by_data_policy policy (targets registry)).1).
    { apply elem_of_enumerate_filter. exists u. split; [done|]. by apply bool_decide_eq_true. }
    rewrite Ha in Hin. by apply not_elem_of_nil in Hin.
  - intros [= <-] i [Hi Hin]%elem_of_filter_bool. split; [done|]. bool_to_prop. rewrite <- Ha in Hin.
    apply elem_of_enumerate_filter in Hin as (t & Ht & Hr). bool_to_prop. intros u Hu ? [= <-]. simplify_eq. by left.
Qed.
Lemma initial_routed hash_iter registry st draws m seed pins ordered :
  resolve_initial_provider_order registry st
    (select_providers hash_iter (targets registry) (routing_of registry) draws m seed).2 pins = Ok ordered →
  ∀ i, i ∈ ordered → ∃ t, targets registry !! i = Some t ∧ routed registry st pins t.
Proof.
  unfold resolve_initial_provider_order, apply_provider_pin_selection, routed.
  set (selected := (select_providers _ _ _ _ _ _).2).
  assert (Hstart : ∀ start i,
    match pin_provider pins with
    | None => start = selected | Some pin => start = resolve_provider_pin registry pin end → i ∈ start →
    ∃ t, targets registry !! i = Some t ∧
      match pin_provider pins with Some pin => id t = pin ∨ provider t = pin | None => listed (routing_of registry) t end).
  { intros start i. destruct (pin_provider pins) as [pin|]; intros -> Hi; [by apply pinned_routed|by eapply selection_listed]. }
  destruct (match pin_provider pins with None => Ok None | _ => _ end) as [pinned|e] eqn:Hpin; [|done].
  destruct (apply_data_routing_policy_selection _ _ _) as [mid|e] eqn:Hdata; [|done].
  assert (Hmid : ∀ i, i ∈ mid → ∃ t, targets registry !! i = Some t ∧
    match pin_provider pins with Some pin => id t = pin ∨ provider t = pin | None => listed (routing_of registry) t end
    ∧ ∀ policy, data_routing_policy_for_state st = Some policy → data_policy_reason policy t = None
     ∨ on_no_compliant_provider policy = NoneWarn ∧ ∀ u, u ∈ targets registry → is_Some (data_policy_reason policy u)).
  { intros i Hi. destruct (data_policy_keeps _ _ _ _ Hdata i Hi) as [Hs Hd].
    destruct (Hstart (default selected pinned) i) as (t & Ht & Hp); [|done|by eauto].
    destruct (pin_provider pins) as [pin|]; [|by simplify_eq/=].
    destruct (resolve_provider_pin registry pin); by simplify_eq/=. }
  destruct (ua_pinned_target_id st) as [v|]; simpl; [destruct (is_empty (trim v)) eqn:Hv; simpl|].
  2:{ destruct (List.filter _ mid) as [|x xs] eqn:Hf; [done|]. intros [= <-] i Hi. rewrite <- Hf in Hi.
      apply elem_of_filter_bool in Hi as [(t & Ht & Hp & Hd)%Hmid (u & Hu & Hid)%on_target_true]. simplify_eq.
      apply String.eqb_eq in Hid. exists t. split_and!; [done..|]. by intros ? [= <-] _. }
  all: intros [= <-] i (t & Ht & Hp & Hd)%Hmid; exists t; split_and!; [done..|]; intros ? [=]; simplify_eq; by rewrite Hv.
Qed.

Lemma keeps_error {E} (P : nat → Prop) input (e : E) : keeps P input (Err e).
Proof. done. Qed.
Lemma keeps_apply {E} (P : nat → Prop) input (r : Result (list nat) E) l : keeps P input r → r = Ok l →
  (l = [] → input = []) ∧ (∀ i, i ∈ l → i ∈ input) ∧ ∀ i, i ∈ l → P i.
Proof. intros Hk Hl. destruct (Hk l Hl) as [Hn Hin]. split_and!; [done| |]; intros i Hi; by apply Hin. Qed.
Lemma prefiltered_keeps registry st ordered body : ∃ r,
  resolve_prefiltered_provider_order registry st ordered body = Some r
  ∧ keeps (holds_at registry (filters_admit registry st body)) ordered r.
Proof.
  unfold resolve_prefiltered_provider_order. cbv zeta.
  pose proof (semantic_same body registry st ordered) as Hsame.
  set (o0 := apply_semantic_routing body registry st ordered) in *.
  destruct (apply_cost_filter_to_provider_order registry o0 body) as [o1|] eqn:E1; [|eauto using keeps_error].
  destruct (apply_region_filter_to_provider_order registry o1) as [o2|] eqn:E2; [|eauto using keeps_error].
  destruct (apply_quantization_filter_to_provider_order registry o2) as [o3|] eqn:E3; [|eauto using keeps_error].
  destruct (apply_pre_call_context_window_filter registry o3 body) as [o4|] eqn:E4; [|eauto using keeps_error].
  destruct (group_keeps registry o4 body) as (r & -> & K5). destruct r as [o5|] eqn:E5; [|eauto using keeps_error].
  eexists. split; [done|]. intros l Hl.
  destruct (keeps_apply _ _ _ _ (auto_keeps st registry o5 body) Hl) as (N6 & S6 & P6).
  destruct (keeps_apply _ _ _ _ K5 eq_refl) as (N5 & S5 & P5).
  destruct (keeps_apply _ _ _ _ (context_keeps registry o3 body) E4) as (N4 & S4 & P4).
  destruct (keeps_apply _ _ _ _ (quantization_keeps registry o2) E3) as (N3 & S3 & P3).
  destruct (keeps_apply _ _ _ _ (region_keeps registry o1) E2) as (N2 & S2 & P2).
  destruct (keeps_apply _ _ _ _ (cost_keeps registry o0 body) E1) as (N1 & S1 & P1).
  split.
  - intros Hnil. destruct ordered as [|x xs]; [done|]. assert (Hx : x ∈ o0) by (apply Hsame; left).
    rewrite N1 in Hx by auto 10. by apply not_elem_of_nil in Hx.
  - intros i Hi. split; [apply Hsame; auto 10|]. intros t Ht. unfold filters_admit. cbv zeta.
    split_and!; [apply (P1 i)|apply (P2 i)|apply (P3 i)|apply (P4 i)|apply (P5 i)|apply (P6 i)]; auto 10.
Qed.

(** C17. Routing fails closed: whatever the strategy draws, an order that the initial
    selection accepts is always resolved (the chain of model groups ends), and if
    it is resolved to a list then that list is empty only when the order was,
    and holds only targets of the registry that match the request's pin (or, without
    one, the configured [only] and [ignore] lists), that comply with the data-routing
    policy (unless it only warns and no target complies), that are the target a usage
    authorisation pins, and that every filter admits: price, region, quantization,
    context window, model group and, for the automatic model, the denied targets and
    the price ceiling. *)
Theorem routing_fails_closed (hash_iter : ∀ A, gmap string A → list (string * A)) (registry : ProviderRegistry)
    (st : RoutingState) (draws : Draws) (m : ProviderMetrics) (seed : Z) (pins : ProviderRequestPins) (body : json)
    (ordered : list nat) :
  resolve_initial_provider_order registry st
    (select_providers hash_iter (targets registry) (routing_of registry) draws m seed).2 pins = Ok ordered →
  ∃ r, resolve_prefiltered_provider_order registry st ordered body = Some r
    ∧ ∀ l, r = Ok l → (l = [] → ordered = [])
      ∧ ∀ i, i ∈ l → ∃ t, targets registry !! i = Some t ∧ routed registry st pins t ∧ filters_admit registry st body t.
Proof.
  intros Hinit. destruct (prefiltered_keeps registry st ordered body) as (r & Hr & Hk). exists r. split; [done|].
  intros l Hl. destruct (Hk l Hl) as [Hn Hin]. split; [done|]. intros i Hi. destruct (Hin i Hi) as [Ho Ha].
  destruct (initial_routed hash_iter registry st draws m seed pins ordered Hinit i Ho) as (t & Ht & Hrt). eauto.
Qed.

(** ** The pool and the scores agree *)

(** What the constraints of a request and the price ceiling demand of a target of the
    pool, whatever the order of the checks. *)
Definition admissible (routing : AutoRoutingConfig) (constraints : ProviderPoolConstraints) (t : ProviderTarget) : Prop :=
  (∀ denied, denied_target_ids constraints = Some denied → id t ∉ denied)
  ∧ (all_whitespace (api_key t) = false ∨ secret_key_ref t = true ∨ oauth2 t = true)
  ∧ (∀ region, publication_region constraints = Some region → provider_matches_region t region = true)
  ∧ (require_zdr constraints = true → zdr t = true)
  ∧ (required_capabilities constraints = [] ∨ ∃ entry, entry ∈ models t ∧ enabled entry = true
       ∧ ∀ need, need ∈ required_capabilities constraints →
           ∃ have, have ∈ supported_features entry ∧ eq_ignore_ascii_case have need = true)
  ∧ (∀ ceiling, max_price_per_1m_tokens routing = Some ceiling → ∃ price, pricing t = Some price
       ∧ f64_gt (f64_div (f64_add (input_price_per_million price) (output_price_per_million price)) f64_two) ceiling = false).

Lemma credential_exact t :
  target_has_credential t = true ↔ all_whitespace (api_key t) = false ∨ secret_key_ref t = true ∨ oauth2 t = true.
Proof. unfold target_has_credential. rewrite !orb_true_iff, negb_true_iff. tauto. Qed.
Lemma capabilities_exact t required : target_meets_capabilities t required = true ↔
  required = [] ∨ ∃ entry, entry ∈ models t ∧ enabled entry = true
    ∧ ∀ need, need ∈ required → ∃ have, have ∈ supported_features entry ∧ eq_ignore_ascii_case have need = true.
Proof.
  unfold target_meets_capabilities. destruct required as [|n required]; [split; [by left|done]|].
  set (rs := n :: required). transitivity (existsb (λ entry, enabled entry
    && forallb (λ need, existsb (λ have, eq_ignore_ascii_case have need) (supported_features entry)) rs) (models t) = true).
  { by destruct (models t). }
  rewrite existsb_exists. setoid_rewrite <- list_elem_of_In. setoid_rewrite andb_true_iff. setoid_rewrite forallb_forall.
  setoid_rewrite existsb_exists. setoid_rewrite <- list_elem_of_In. split; [by right|by intros [?|?]].
Qed.
Lemma ceiling_exact routing t : over_ceiling routing t = false ↔
  ∀ ceiling, max_price_per_1m_tokens routing = Some ceiling → ∃ price, pricing t = Some price
    ∧ f64_gt (f64_div (f64_add (input_price_per_million price) (output_price_per_million price)) f64_two) ceiling = false.
Proof.
  unfold over_ceiling, target_cost. destruct (max_price_per_1m_tokens routing) as [c|]; [|naive_solver].
  destruct (pricing t) as [p|]; simpl; naive_solver.
Qed.
Lemma unique_id (ts : list ProviderTarget) t u : NoDup (id <$> ts) → t ∈ ts → u ∈ ts → id t = id u → t = u.
Proof.
  intros Hnd [i Hi]%list_elem_of_lookup [j Hj]%list_elem_of_lookup Hid.
  assert (i = j) as ->; [|by simplify_eq]. eapply (NoDup_lookup _ i j (id t) Hnd); rewrite list_lookup_fmap;
    [by rewrite Hi|rewrite Hj; simpl; by rewrite Hid].
Qed.
Lemma exclusion_checks t routing constraints :
  let off_region := match publication_region constraints with
    | Some region => negb (provider_matches_region t region) | None => false end in
  exclusion_reason_for_target t routing constraints = None ↔
    is_denied (denied_target_ids constraints) t = false ∧ target_has_credential t = true ∧ off_region = false
    ∧ provider_matches_privacy t (require_zdr constraints) = true
    ∧ target_meets_capabilities t (required_capabilities constraints) = true ∧ over_ceiling routing t = false.
Proof.
  intros off_region. unfold exclusion_reason_for_target. fold off_region.
  destruct (is_denied _ t); [by split; [|intros (? & _)]|]. destruct (target_has_credential t); cbn [negb];
    [|by split; [|intros (_ & ? & _)]].
  destruct off_region; [by split; [|intros (_ & _ & ? & _)]|].
  destruct (provider_matches_privacy t _); cbn [negb]; [|by split; [|intros (_ & _ & _ & ? & _)]].
  destruct (target_meets_capabilities t _); cbn [negb]; [|by split; [|intros (_ & _ & _ & _ & ? & _)]].
  destruct (over_ceiling routing t); [by split; [|intros (_ & _ & _ & _ & _ & ?)]|]. by split.
Qed.
Lemma exclusion_exact t routing constraints :
  exclusion_reason_for_target t routing constraints = None ↔ admissible routing constraints t.
Proof.
  rewrite exclusion_checks. unfold admissible. rewrite <- credential_exact, <- capabilities_exact, <- ceiling_exact.
  assert (Hd : is_denied (denied_target_ids constraints) t = false
    ↔ ∀ denied, denied_target_ids constraints = Some denied → id t ∉ denied).
  { unfold is_denied. destruct (denied_target_ids constraints); [|done]. rewrite bool_decide_eq_false.
    split; [by intros ? ? [= <-]|by intros H; apply H]. }
  assert (Hr : match publication_region constraints with
      | Some region => negb (provider_matches_region t region) | None => false end = false
    ↔ ∀ region, publication_region constraints = Some region → provider_matches_region t region = true).
  { destruct (publication_region constraints) as [r|]; [|done]. rewrite negb_false_iff.
    split; [by intros ? ? [= <-]|by intros H; apply H]. }
  assert (Hp : provider_matches_privacy t (require_zdr constraints) = true ↔ (require_zdr constraints = true → zdr t = true)).
  { unfold provider_matches_privacy. destruct (require_zdr constraints), (zdr t); cbn; tauto. }
  by rewrite Hd, Hr, Hp.
Qed.
(** The targets of the pool are those the automatic scoring keeps when the others are denied. *)
Lemma pool_eligible ts routing constraints (denied : gset string) :
  (∀ t, t ∈ ts → id t ∈ denied ↔ ¬ admissible routing constraints t) →
  List.filter (λ x, bool_decide (exclusion_reason_for_target x.2 routing constraints = None)) (enumerate ts)
  = List.filter (λ x, negb (is_denied (Some denied) x.2) && negb (over_ceiling routing x.2)) (enumerate ts).
Proof.
  intros Hd. apply filter_ext_in. intros [i t] Hin%list_elem_of_In%elem_of_enumerate%list_elem_of_lookup_2. simpl.
  specialize (Hd t Hin). rewrite <- exclusion_exact in Hd.
  apply eq_true_iff_eq. rewrite andb_true_iff, !negb_true_iff, bool_decide_eq_true, bool_decide_eq_false, Hd.
  split; [|by intros [?%dec_stable _]]. intros Hn. split; [tauto|].
  apply exclusion_exact in Hn as (_ & _ & _ & _ & _ & Hc). by apply ceiling_exact.
Qed.

(** Sorting by position and sorting the candidates themselves give the same order. *)
Lemma insert_by_fmap {A B} (le : A → A → bool) (le' : B → B → bool) (f : A → B) x l :
  (∀ y, y ∈ l → le x y = le' (f x) (f y)) → f <$> insert_by le x l = insert_by le' (f x) (f <$> l).
Proof.
  induction l as [|y l IH]; intros Hl; [done|]. csimpl. rewrite <- Hl by left. destruct (le x y); [done|].
  csimpl. rewrite IH; [done|]. intros z Hz. apply Hl. by right.
Qed.
Lemma sort_by_fmap {A B} (le : A → A → bool) (le' : B → B → bool) (f : A → B) l :
  (∀ x y, x ∈ l → y ∈ l → le x y = le' (f x) (f y)) → f <$> sort_by le l = sort_by le' (f <$> l).
Proof.
  induction l as [|x l IH]; intros Hl; [done|]. cbn [sort_by foldr fmap list_fmap]. fold (sort_by le l) (sort_by le' (f <$> l)).
  rewrite <- IH by (intros ? ? ? ?; apply Hl; by right). apply insert_by_fmap. intros y Hy. apply Hl; [by left|].
  right. by rewrite (sort_by_perm le l) in Hy.
Qed.
(** The position of a candidate stands for the candidate. *)
Definition at_position (cs : list Candidate) (d : Candidate) (x : f64 * nat) : f64 * Candidate := (x.1, nth x.2 cs d).
Lemma pool_costs_eq m l : pool_costs l.*2 = cand_cost <$> (candidate_of m <$> l).
Proof. unfold pool_costs. rewrite <- !list_fmap_compose. by apply list_fmap_ext. Qed.
Lemma pool_latencies_eq m l : pool_latencies m l.*2 = cand_latency <$> (candidate_of m <$> l).
Proof. unfold pool_latencies. rewrite <- !list_fmap_compose. by apply list_fmap_ext. Qed.
Lemma pool_scores_eq routing cs d :
  ∃ scores, pool_scores routing (cand_cost <$> cs) (cand_latency <$> cs) (length cs) = Some scores
    ∧ scores.*2 = seq 0 (length cs)
    ∧ at_position cs d <$> scores
      = (λ c, (score_of routing (spread (cand_cost <$> cs)) (spread (cand_latency <$> cs)) c, c)) <$> cs.
Proof.
  set (score i := score_of routing (spread (cand_cost <$> cs)) (spread (cand_latency <$> cs)) (nth i cs d)).
  exists ((λ i, (score i, i)) <$> seq 0 (length cs)). split_and!.
  - apply mapM_Some, Forall2_fmap_r, Forall_Forall2_diag, Forall_forall. intros i [_ Hi]%elem_of_seq.
    destruct (lookup_lt_is_Some_2 cs i Hi) as [c Hc]. rewrite !list_lookup_fmap, Hc. cbn.
    unfold score. by rewrite (nth_lookup_Some _ _ _ _ Hc).
  - rewrite <- list_fmap_compose. by rewrite list_fmap_id.
  - rewrite <- list_fmap_compose. apply list_eq. intros i. rewrite !list_lookup_fmap.
    destruct (cs !! i) as [c|] eqn:Hc; cbn.
    + rewrite lookup_seq_lt by (by eapply lookup_lt_Some). unfold score, at_position. cbn. by rewrite (nth_lookup_Some _ _ _ _ Hc).
    + rewrite lookup_seq_ge; [done|]. by apply lookup_ge_None.
Qed.

Lemma pool_ranked m routing indexed d : let cs := candidate_of m <$> indexed in
  ∃ scores, pool_scores routing (pool_costs indexed.*2) (pool_latencies m indexed.*2) (length indexed.*2) = Some scores
    ∧ at_position cs d <$> sort_by (pool_le indexed.*2) scores = rank routing cs
    ∧ ∀ x, x ∈ sort_by (pool_le indexed.*2) scores → x.2 < length cs.
Proof.
  intros cs. rewrite (pool_costs_eq m), (pool_latencies_eq m). fold cs.
  replace (length indexed.*2) with (length cs) by (unfold cs; by rewrite !length_fmap).
  destruct (pool_scores_eq routing cs d) as (scores & Hs & Hpos & Hat). exists scores. split; [done|].
  assert (Hin : ∀ x, x ∈ scores → x.2 < length cs).
  { intros x Hx. apply (list_elem_of_fmap_2 snd) in Hx. rewrite Hpos in Hx. apply elem_of_seq in Hx. lia. }
  assert (Hid : ∀ x, x ∈ scores → id_of indexed.*2 x.2 = id (cand_target (nth x.2 cs d))).
  { intros x Hx. destruct (lookup_lt_is_Some_2 cs x.2 (Hin x Hx)) as [c Hc]. rewrite (nth_lookup_Some _ _ _ _ Hc).
    unfold cs in Hc. rewrite list_lookup_fmap in Hc. unfold id_of. rewrite list_lookup_fmap.
    destruct (indexed !! x.2); by simplify_eq/=. }
  split; [|intros x Hx; apply Hin; by rewrite sort_by_perm in Hx].
  unfold rank. cbv zeta. rewrite <- Hat. apply sort_by_fmap. intros x y Hx Hy. unfold pool_le, score_le, at_position. cbn [fst snd].
  rewrite !Hid by done. by destruct (SFcompare x.1 y.1) as [[]|].
Qed.
(** The row of the evidence of a scored candidate. *)
Definition scored_evidence (x : f64 * Candidate) : CandidateScoreEvidence :=
  let t := cand_target x.2 in
  mkScoreEvidence (id t) (provider t) (model t) (Some x.1) (Some (cand_cost x.2)) (Some (cand_latency x.2)) None.
Lemma pool_rows m indexed d l : let cs := candidate_of m <$> indexed in
  (∀ x, x ∈ l → x.2 < length cs) →
  mapM (pool_row indexed.*2 (pool_costs indexed.*2) (pool_latencies m indexed.*2)) l
  = Some (scored_evidence <$> (at_position cs d <$> l)).
Proof.
  intros cs Hl. rewrite (pool_costs_eq m), (pool_latencies_eq m). fold cs. rewrite <- list_fmap_compose.
  apply mapM_Some, Forall2_fmap_r, Forall_Forall2_diag, Forall_forall. intros x Hx.
  destruct (lookup_lt_is_Some_2 cs x.2 (Hl x Hx)) as [c Hc]. unfold pool_row. rewrite !list_lookup_fmap, Hc.
  unfold compose, at_position. rewrite (nth_lookup_Some _ _ _ _ Hc).
  unfold cs in Hc. rewrite list_lookup_fmap in Hc. destruct (indexed !! x.2); simplify_eq/=. done.
Qed.
(** What the pool selects, by the ranking of the automatic scoring. *)
Lemma select_provider_pool_rank ts routing m constraints request_id :
  let reason t := exclusion_reason_for_target t routing constraints in
  let considered := omap (λ t, excluded_evidence t <$> reason t) ts in
  let indexed := List.filter (λ x, bool_decide (reason x.2 = None)) (enumerate ts) in
  select_provider_pool ts routing m constraints request_id = Some
    match rank routing (candidate_of m <$> indexed) with
    | [] => Err (empty_selection_evidence request_id considered)
    | (best :: _) as ranked =>
        let t := cand_target best.2 in
        Ok (cand_index best.2, mkEvidence (decision_of request_id) request_id (id t) (provider t) (model t) best.1
          "scorecard" (considered ++ (scored_evidence <$> ranked)) false true)
    end.
Proof.
  cbv zeta. unfold select_provider_pool. cbv zeta. set (considered := omap _ ts).
  set (indexed := List.filter _ (enumerate ts)). clearbody considered indexed.
  remember (rank routing (candidate_of m <$> indexed)) as ranking eqn:Hr.
  destruct indexed as [|x0 xs] eqn:Hi; [by rewrite Hr|]. cbn [fmap list_fmap]. fold (xs.*2). rewrite <- Hi in *.
  change (x0.2 :: xs.*2) with ((x0 :: xs).*2). rewrite <- Hi in *. set (d := candidate_of m x0).
  destruct (pool_ranked m routing indexed d) as (scores & -> & Hrank & Hpos). cbn [mbind option_bind].
  rewrite (pool_rows m indexed d) by done. rewrite Hr, <- Hrank. cbn [mbind option_bind].
  destruct (sort_by (pool_le indexed.*2) scores) as [|best rest] eqn:Hs.
  - exfalso. pose proof (rank_perm routing (candidate_of m <$> indexed)) as Hp. rewrite <- Hrank in Hp.
    apply Permutation_nil in Hp. by rewrite Hi in Hp.
  - cbn [head mbind option_bind fmap list_fmap]. assert (Hb := Hpos best ltac:(left)).
    rewrite length_fmap in Hb. destruct (lookup_lt_is_Some_2 indexed best.2 Hb) as [x Hx]. rewrite Hx. cbn [mbind option_bind].
    assert (Hc : nth best.2 (candidate_of m <$> indexed) d = candidate_of m x).
    { apply nth_lookup_Some. by rewrite list_lookup_fmap, Hx. }
    assert (Ha : at_position (candidate_of m <$> indexed) d best = (best.1, candidate_of m x)) by (unfold at_position; by rewrite Hc).
    by rewrite Ha.
Qed.
Lemma evidence_ids m routing ts reason :
  (target_id <$> omap (λ t, excluded_evidence t <$> reason t) ts)
    ++ (target_id <$> (scored_evidence <$> rank routing (candidate_of m <$>
         List.filter (λ x, bool_decide (reason x.2 = None)) (enumerate ts)))) ≡ₚ id <$> ts.
Proof.
  transitivity ((target_id <$> omap (λ t, excluded_evidence t <$> reason t) ts)
    ++ (id <$> (List.filter (λ x, bool_decide (reason x.2 = None)) (enumerate ts)).*2)).
  - f_equiv. rewrite <- list_fmap_compose.
    change (target_id ∘ scored_evidence) with ((λ c, id (cand_target c)) ∘ (snd : f64 * Candidate → _)).
    rewrite list_fmap_compose, rank_perm, <- !list_fmap_compose. done.
  - unfold enumerate. generalize 0 as k. induction ts as [|t ts IH]; intros k; [done|]. simpl.
    destruct (reason t) as [r|]; simpl; [by rewrite IH|]. rewrite <- Permutation_middle. simpl. by rewrite IH.
Qed.

(** ** The head of a ranking *)

Definition is_number (x : f64) : bool := match x with S754_nan => false | _ => true end.
(** Numbers are ordered by their class, their exponent and their mantissa. *)
Definition f64_key (x : f64) : Z * Z * Z :=
  match x with
  | S754_zero _ | S754_nan => (0, 0, 0)
  | S754_infinity s => (if s then -2 else 2, 0, 0)
  | S754_finite s m e => if s then (-1, -e, Z.neg m) else (1, e, Z.pos m)
  end%Z.
Definition key_below (a b : Z * Z * Z) : Prop :=
  (a.1.1 < b.1.1 ∨ (a.1.1 = b.1.1 ∧ (a.1.2 < b.1.2 ∨ (a.1.2 = b.1.2 ∧ a.2 < b.2))))%Z.
Lemma f64_lt_key a b : is_number a = true → is_number b = true → f64_lt a b = true ↔ key_below (f64_key a) (f64_key b).
Proof.
  assert (Hm : ∀ m m', PosDef.Pos.compare_cont Eq m m' = (Z.pos m ?= Z.pos m')%Z) by done.
  unfold f64_lt, SFltb, key_below. destruct a as [|[]| |[] m e], b as [|[]| |[] m' e']; try done; intros _ _;
    cbn [SFcompare f64_key fst snd]; rewrite ?Hm; try (split; [done|lia]); try (split; [intros _; lia|done]).
  all: destruct (Z.compare_spec e e'); try destruct (Z.compare_spec (Z.pos m) (Z.pos m')); cbn [CompOpp];
    split; intros; try done; lia.
Qed.
Lemma sort_head_least {A} (le : A → A → bool) (key : A → f64) l h rest :
  (∀ x y, x ∈ l → y ∈ l → if le x y then f64_lt (key y) (key x) = false else f64_lt (key x) (key y) = false) →
  (∀ x, x ∈ l → is_number (key x) = true) → sort_by le l = h :: rest → ∀ x, x ∈ l → f64_lt (key x) (key h) = false.
Proof.
  intros Hle Hnum. revert h rest. induction l as [|y l IH]; [done|]. intros h rest.
  cbn [sort_by foldr]. fold (sort_by le l). intros Hs x Hx.
  assert (Hrefl : ∀ z, is_number (key z) = true → f64_lt (key z) (key z) = false).
  { intros z Hz. apply not_true_is_false. rewrite f64_lt_key by done. unfold key_below. lia. }
  destruct (sort_by le l) as [|k ks] eqn:Hl.
  { assert (l = []) as -> by (apply Permutation_nil; by rewrite <- (sort_by_perm le l), Hl).
    injection Hs as <- <-. apply list_elem_of_singleton in Hx as ->. apply Hrefl, Hnum. left. }
  assert (Hk : k ∈ l) by (rewrite <- (sort_by_perm le l), Hl; left).
  assert (IH' : ∀ z, z ∈ l → f64_lt (key z) (key k) = false).
  { apply (IH ltac:(intros ? ? ? ?; apply Hle; by right) ltac:(intros ? ?; apply Hnum; by right) k ks eq_refl). }
  specialize (Hle y k ltac:(left) ltac:(by right)). cbn [insert_by] in Hs.
  assert (Hny := Hnum y ltac:(left)). assert (Hnk := Hnum k ltac:(by right)). assert (Hnx := Hnum x Hx).
  destruct (le y k); injection Hs as <- _; apply elem_of_cons in Hx as [->|Hx]; auto.
  specialize (IH' x Hx). apply not_true_iff_false in Hle, IH'. apply not_true_is_false.
  rewrite f64_lt_key in * by done. unfold key_below in *. lia.
Qed.
Lemma SFcompare_gt a b : SFcompare a b = Some Gt ↔ f64_lt b a = true.
Proof.
  assert (Hm : ∀ m m', PosDef.Pos.compare_cont Eq m m' = (Z.pos m ?= Z.pos m')%Z) by done.
  unfold f64_lt, SFltb. destruct a as [|[]| |[] m e], b as [|[]| |[] m' e']; try done; cbn [SFcompare]; rewrite ?Hm;
    rewrite (Z.compare_antisym e e'), ?(Z.compare_antisym (Z.pos m) (Z.pos m'));
    destruct (e ?= e')%Z; try destruct (Z.pos m ?= Z.pos m')%Z; done.
Qed.
Lemma rank_head_least routing cs best rest : rank routing cs = best :: rest →
  (∀ x, x ∈ best :: rest → is_number x.1 = true) → ∀ x, x ∈ best :: rest → f64_lt x.1 best.1 = false.
Proof.
  unfold rank. cbv zeta. set (scored := _ <$> cs). intros Hr Hnum x Hx. assert (Hp := sort_by_perm score_le scored).
  rewrite Hr in Hp. rewrite Hp in Hx. assert (Hn : ∀ y, y ∈ scored → is_number y.1 = true) by (intros y Hy; apply Hnum; by rewrite Hp).
  refine (sort_head_least score_le fst scored best rest _ Hn Hr x Hx). intros y z _ _.
  assert (Hgt := SFcompare_gt y.1 z.1). assert (Hlt : f64_lt y.1 z.1 = match SFcompare y.1 z.1 with Some Lt => true | _ => false end) by done.
  unfold score_le. destruct (SFcompare y.1 z.1) as [[]|]; try destruct (String.leb _ _); try done;
    apply not_true_is_false; rewrite <- Hgt; done.
Qed.

Lemma pool_row_exclusion ts routing constraints m row :
  NoDup (id <$> ts) → let reason t := exclusion_reason_for_target t routing constraints in
  row ∈ omap (λ t, excluded_evidence t <$> reason t) ts ++ (scored_evidence <$> rank routing (candidate_of m <$>
         List.filter (λ x, bool_decide (reason x.2 = None)) (enumerate ts))) →
  ∀ t, t ∈ ts → id t = target_id row → exclusion_reason row = reason t.
Proof.
  intros Hnd reason [(u & Hu & Hr)%list_elem_of_omap|Hr]%elem_of_app t Ht Hid.
  - destruct (reason u) as [r|] eqn:Hru; simplify_eq/=. by rewrite (unique_id ts t u).
  - apply list_elem_of_fmap in Hr as (x & -> & Hx). cbn in *. apply (list_elem_of_fmap_2 snd) in Hx. rewrite rank_perm in Hx.
    apply list_elem_of_fmap in Hx as ([i u] & Hc & [Hin Hd]%elem_of_filter_bool). rewrite Hc in Hid. cbn in Hid.
    apply elem_of_enumerate, list_elem_of_lookup_2 in Hin. bool_to_prop. cbn in Hd. by rewrite (unique_id ts t u).
Qed.

(** C27. The provider pool and the automatic scoring, which are written separately,
    agree.  With distinct target ids, deny the automatic scoring every target that the
    request's denials, credentials, region, retention, capabilities or price ceiling
    rule out: then the pool returns (no index of it is out of range), pins the target
    that [score_targets_with_denied] puts first, and refuses exactly when that ranks
    nothing; its evidence names every target once, gives no reason of exclusion for
    exactly the admissible ones, and, when no score is NaN, no score is below the
    pinned one. *)
Theorem pool_selection_agrees (ts : list ProviderTarget) (routing : AutoRoutingConfig) (m : ProviderMetrics)
    (constraints : ProviderPoolConstraints) (request_id : string) (denied : gset string) :
  NoDup (id <$> ts) → (∀ t, t ∈ ts → id t ∈ denied ↔ ¬ admissible routing constraints t) →
  let ranked := score_targets_with_denied ts routing m (Some denied) in
  ∃ r, select_provider_pool ts routing m constraints request_id = Some r ∧
  match r with Ok (i, _) => head ranked = Some i | Err _ => ranked = [] end ∧
  let ev := match r with Ok (_, ev) => ev | Err ev => ev end in
  target_id <$> candidates ev ≡ₚ id <$> ts
  ∧ (∀ row t, row ∈ candidates ev → t ∈ ts → id t = target_id row →
       exclusion_reason row = None ↔ admissible routing constraints t)
  ∧ ((∀ row s, row ∈ candidates ev → score row = Some s → is_number s = true) → pinned ev = true →
     ∀ row s, row ∈ candidates ev → score row = Some s → f64_lt s (composite_score ev) = false).
Proof.
  intros Hnd Hd. cbv zeta. rewrite select_provider_pool_rank. cbv zeta. eexists. split; [done|].
  unfold score_targets_with_denied. rewrite <- (pool_eligible _ _ _ _ Hd).
  pose proof (evidence_ids m routing ts (λ t, exclusion_reason_for_target t routing constraints)) as Hev. cbv beta in Hev.
  pose proof (pool_row_exclusion ts routing constraints m) as Hrow. cbv zeta beta in Hrow.
  set (cs := candidate_of m <$> _) in *. pose proof (rank_perm routing cs) as Hp. pose proof (rank_head_least routing cs) as Hleast.
  destruct (rank routing cs) as [|best rest].
  - simpl in Hp. apply Permutation_nil in Hp. rewrite Hp. simpl in *. split; [done|]. rewrite app_nil_r in *. split; [done|].
    split; [|done]. intros row t Hr Ht Hid. by rewrite (Hrow row Hnd Hr t Ht Hid), exclusion_exact.
  - destruct cs as [|c cs']; [by symmetry in Hp; apply Permutation_nil in Hp|]. split; [done|].
    cbn [candidates composite_score]. split; [by rewrite fmap_app|]. split.
    { intros row t Hr Ht Hid. by rewrite (Hrow row Hnd Hr t Ht Hid), exclusion_exact. }
    intros Hnum _ row s Hr Hs. specialize (Hleast best rest eq_refl).
    assert (Hin : ∀ x, x ∈ best :: rest → is_number x.1 = true).
    { intros x Hx. apply (Hnum (scored_evidence x)); [|done]. apply elem_of_app. right. by apply list_elem_of_fmap_2. }
    apply elem_of_app in Hr as [(u & _ & Hr)%list_elem_of_omap|(x & -> & Hx)%list_elem_of_fmap].
    + apply fmap_Some in Hr as (z & _ & ->). done.
    + injection Hs as <-. by apply Hleast.
Qed.

(** ** Price ceilings without an estimate *)

(** A zero of either sign, or not a number. *)
Definition negligible (x : f64) : Prop := match x with S754_zero _ | S754_nan => True | _ => False end.
Lemma no_tokens_cost price : negligible (f64_div (f64_mul (f64_of_u64 0) price) f64_million).
Proof. by destruct price as [[]|[]| |[]]. Qed.
Lemma negligible_add x y : negligible x → negligible y → negligible (f64_add x y).
Proof. by destruct x as [[]|[]| |[]], y as [[]|[]| |[]]. Qed.
Lemma negligible_within x ceiling :
  negligible x → (∀ c, ceiling = Some c → f64_ge c f64_zero = true) → exceeds ceiling x = false.
Proof.
  intros Hx Hc. destruct ceiling as [c|]; [|done]. specialize (Hc c eq_refl). simpl.
  destruct x as [[]|[]| |[]]; try done; by destruct c as [[]|[]| |[]].
Qed.

(** The price ceilings let every priced target through when there is no token
    estimate: the pipeline passes no prompt tokens, so for a request that states no
    usable token limit, no ceiling of zero or more excludes a target that declares
    a price, whatever the price is. *)
Theorem unestimated_request_within_price (body : json) (max_price : MaxPrice) (t : ProviderTarget) (p : ProviderPricing) :
  extract_requested_max_tokens body = None → pricing t = Some p →
  (∀ c, mp_prompt max_price = Some c → f64_ge c f64_zero = true) →
  (∀ c, mp_completion max_price = Some c → f64_ge c f64_zero = true) →
  (∀ c, mp_request max_price = Some c → f64_ge c f64_zero = true) →
  within_price max_price None (extract_requested_max_tokens body) t = true.
Proof.
  intros -> Hp H1 H2 H3. unfold within_price, estimate_request_cost. rewrite Hp.
  cbn [mbind option_bind default from_option rc_prompt rc_completion rc_request].
  rewrite !negligible_within; auto using no_tokens_cost, negligible_add.
Qed.

End routing.

Module DemoRouting.
Definition compliant : DataPolicy := mkDataPolicy true true (Some 0%Z) true true true false true.
Definition priced (input output : Z) : option ProviderPricing := Some (mkPricing (f64_of_u64 input) (f64_of_u64 output)).
Definition target (name region : string) (dp : option DataPolicy) (price : option ProviderPricing) : ProviderTarget :=
  mkTarget name "openai" "gpt" None "key" false false None dp price [] false (Some region) None None None.
(** Two targets that may serve, a cheaper one elsewhere, one that trains on prompts,
    and one without a price. *)
Definition a : ProviderTarget := target "a" "EU" (Some compliant) (priced 10 20).
Definition b : ProviderTarget := target "b" "eu" (Some compliant) (priced 4 8).
Definition far : ProviderTarget := target "far" "us" (Some compliant) (priced 1 1).
Definition trains : ProviderTarget := target "trains" "eu" None (priced 1 1).
Definition free : ProviderTarget := target "free" "eu" (Some compliant) None.
Definition routing : RoutingConfig :=
  mkRouting Ordered f64_zero None true None None (Some (mkMaxPrice None (Some f64_one) None)) None None (Some "eu"%string)
    None None f64_zero true f64_zero.
Definition registry : ProviderRegistry := mkRegistry [a; b; far; trains; free] routing [].
Definition num (n : Z) : option Z := if (0 <=? n)%Z then Some n else None.
Definition st : RoutingState (Number := Z) :=
  mkRoutingState AutoProviderConfig_default (metrics_new 60 1) ["data-routing-policy"%string]
    (Some (Obj [("require_no_training", Bool true)]%string)) None ∅ None.
Definition pins : ProviderRequestPins := mkPins None None.
Definition body : Value Z := Obj [("model", Str "auto"); ("max_tokens", Num 100%Z)]%string.
Definition iter {A} (m : gmap string A) : list (string * A) := map_to_list m.
Definition draws : Draws := mkDraws f64_zero f64_zero f64_zero 0 0.
Definition no_embedding : string → list string → option (list (list f64)) := λ _ _, None.
Definition constraints : ProviderPoolConstraints := mkConstraints (Some "eu"%string) false [] None.
Definition by_price : AutoRoutingConfig := AutoRoutingConfig_default.
End DemoRouting.

Lemma routing_fails_closed_witness :
  resolve_prefiltered_provider_order DemoRouting.num DemoRouting.no_embedding DemoRouting.registry DemoRouting.st
    [0; 1; 2; 4] DemoRouting.body = Some (Ok [1; 0])
  ∧ ∃ t, targets DemoRouting.registry !! 1 = Some t ∧ routed DemoRouting.num DemoRouting.registry DemoRouting.st DemoRouting.pins t
      ∧ filters_admit DemoRouting.num DemoRouting.registry DemoRouting.st DemoRouting.body t.
Proof.
  assert (Hr : resolve_prefiltered_provider_order DemoRouting.num DemoRouting.no_embedding DemoRouting.registry
    DemoRouting.st [0; 1; 2; 4] DemoRouting.body = Some (Ok [1; 0])) by (vm_compute; reflexivity).
  split; [exact Hr|].
  destruct (routing_fails_closed DemoRouting.num DemoRouting.no_embedding (@DemoRouting.iter) DemoRouting.registry
    DemoRouting.st DemoRouting.draws (metrics_new 60 1) 0 DemoRouting.pins DemoRouting.body [0; 1; 2; 4]) as (r & Hr' & Hl).
  - vm_compute. reflexivity.
  - rewrite Hr in Hr'. injection Hr' as <-. apply (Hl _ eq_refl). left.
Defined.

Lemma demo_admissible t : t ∈ targets DemoRouting.registry →
  id t ∈ ({["far"%string]} : gset string) ↔ ¬ admissible DemoRouting.by_price DemoRouting.constraints t.
Proof.
  intros Ht. rewrite <- exclusion_exact.
  assert (Hall : Forall (λ t, bool_decide (id t ∈ ({["far"%string]} : gset string))
    = negb (bool_decide (exclusion_reason_for_target t DemoRouting.by_price DemoRouting.constraints = None)))
    (targets DemoRouting.registry)) by (repeat constructor).
  rewrite Forall_forall in Hall. specialize (Hall t Ht). repeat case_bool_decide; naive_solver.
Qed.
Lemma pool_selection_agrees_witness :
  head (score_targets_with_denied (targets DemoRouting.registry) DemoRouting.by_price (metrics_new 60 1)
    (Some {["far"%string]})) = Some 4.
Proof.
  destruct (pool_selection_agrees (targets DemoRouting.registry) DemoRouting.by_price (metrics_new 60 1)
    DemoRouting.constraints "r" {["far"%string]} ltac:(apply (bool_decide_unpack _); vm_compute; exact I) demo_admissible)
    as (r & Hr & H & _).
  vm_compute in Hr. injection Hr as <-. exact H.
Defined.

Lemma unestimated_request_within_price_witness :
  within_price (mkMaxPrice (Some f64_zero) (Some f64_zero) (Some f64_zero)) None
    (extract_requested_max_tokens DemoRouting.num (Obj [])) DemoRouting.a = true.
Proof.
  apply (unestimated_request_within_price DemoRouting.num (Obj []) _ DemoRouting.a (mkPricing (f64_of_u64 10) (f64_of_u64 20)));
    [reflexivity|reflexivity|intros c [= <-]; reflexivity..].
Defined.
