(* ===== verification/ToolGuard.v ===== *)
(** * ToolGuard: tool budgets, validation, security and risk
    (src/src/gateway/tool_budget.rs, tool_validation.rs, tool_security.rs,
    tool_risk_policy.rs, detection/entities.rs and their policies in enforcement.rs)

    What is checked of the tools of a request, and of one tool action right before
    it is dispatched: its name, arguments, actor and server.  The schema compiler,
    SHA-256 and the answers of HTTP services are arguments; objects are in key order,
    as [serde_json] keeps them. *)

From Stdlib Require Import ZArith Ascii String.
From stdpp Require Import base gmap strings list sorting.
From S2P Require Import Prelude Text Net Lww EventWal Policy PolicyChain ToolCalls Detection Redaction RequestText.

#[local] Arguments String.append : simpl nomatch.

(** ** Configurations and decisions *)

Record ToolBudgetLimit := mkLimit { tb_max_tokens : option Z; max_calls : option Z }.
(** [ToolBudgetConfig], its only field. *)
Definition ToolBudgetConfig : Type := gmap string ToolBudgetLimit.
Record ToolBudgetDecision := mkBudgetDecision { budget_flagged : bool; exceeded_tools : list string }.

Record SemanticValidationConfig := mkSemantic {
  sem_enabled : bool; sem_endpoint : option string; sem_model : option string; sem_secret_key_env : option string;
  sem_timeout_ms : Z;
}.
Definition default_timeout_ms : Z := 3000.

Inductive AnalysisMode := Local | External.
Record ToolSecurityConfig := mkSecurity {
  analysis_mode : AnalysisMode; firewall_endpoint : option string; secret_key_env : option string; fail_closed : bool;
  blocked_entity_types : list string; blocked_patterns : list string;
}.
Definition default_fail_closed : bool := true.
Definition ToolSecurityConfig_default : ToolSecurityConfig := mkSecurity Local None None default_fail_closed [] [].
Record ToolSecurityDecision := mkSecurityDecision {
  sec_flagged : bool; sec_reason : option string; matched_entities : list string; provider_verdict : option string;
}.
Record ToolValidationDecision := mkValidation {
  requested_tools : list string; undeclared_tools : list string; invalid_schemas : list string; valid : bool;
  semantic_validated : bool; semantic_reason : option string;
}.

(** What a request to a service sends, and how it ends: the client could not be
    built, the request failed, the answer was not JSON, or it was. *)
Record Post (Number : Type) := mkPost { post_url : string; post_body : Value Number; bearer : option string; post_timeout : Z }.
Arguments mkPost {_}.
Arguments post_url {_}.
Arguments post_body {_}.
Arguments bearer {_}.
Arguments post_timeout {_}.
Inductive Answer (Number : Type) :=
| ClientFailed (error : string) | SendFailed (error : string) | NotJson (error : string) | Answered (payload : Value Number).
Arguments ClientFailed {_}.
Arguments SendFailed {_}.
Arguments NotJson {_}.
Arguments Answered {_}.

(** ** Risk (tool_risk_policy.rs) *)

Inductive ToolRiskLevel := Safe | Moderate | Destructive | Critical.
#[export] Instance ToolRiskLevel_eq_dec : EqDecision ToolRiskLevel.
Proof. solve_decision. Defined.
Inductive ToolActionType :=
| FilesystemDelete | FilesystemWrite | FilesystemExecute | NotificationSend | ToolExecute | NetworkEgress.
Record ToolRiskRule := mkRule {
  rule_pattern : string; action_type : ToolActionType; rule_risk : ToolRiskLevel; rule_approval : bool;
}.
Record DestructiveActionPolicy := mkActionPolicy { policy_enabled : bool; risk_rules : list ToolRiskRule }.
Record ToolRiskClassification := mkClassification {
  cl_action : string; resource_kind : string; resource_locator : string; risk_level : ToolRiskLevel;
  requires_approval : bool; policy_match_reason : string;
}.
Definition default_risk_rules : list ToolRiskRule :=
  [mkRule "git reset" FilesystemWrite Critical true;
   mkRule "git push --force" FilesystemWrite Critical true;
   mkRule "git push -f" FilesystemWrite Critical true;
   mkRule "git commit" FilesystemWrite Destructive true;
   mkRule "git push" NetworkEgress Destructive true;
   mkRule "rm -rf" FilesystemDelete Critical true;
   mkRule "rm -r" FilesystemDelete Critical true;
   mkRule "chmod +x" FilesystemExecute Destructive true;
   mkRule "sudo " FilesystemExecute Critical true;
   mkRule "notify.send" NotificationSend Moderate false;
   mkRule "notification.send" NotificationSend Moderate false;
   mkRule "curl http://" NetworkEgress Critical true;
   mkRule "wget " NetworkEgress Destructive true;
   mkRule "write_file" FilesystemWrite Moderate false;
   mkRule "create_file" FilesystemWrite Moderate false]%string.
Definition DestructiveActionPolicy_default : DestructiveActionPolicy := mkActionPolicy false default_risk_rules.

Definition infer_resource_kind (resource : string) : string :=
  let r := to_ascii_lowercase resource in
  if String.prefix "http://" r || String.prefix "https://" r then "url"%string
  else if String.prefix "/" r || str_contains "\" r then "filesystem_path"%string
  else if is_empty r then "unspecified"%string
  else "tool_argument"%string.
Definition rule_matches (haystack : string) (rule : ToolRiskRule) : bool :=
  let needle := to_ascii_lowercase (rule_pattern rule) in
  negb (is_empty needle) && str_contains needle haystack.
Definition classify_tool_action (policy : DestructiveActionPolicy) (action resource : string) : ToolRiskClassification :=
  let kind := infer_resource_kind resource in
  if negb (policy_enabled policy) then mkClassification action kind resource Safe false "policy_disabled"
  else
    let haystack := to_ascii_lowercase (action +:+ " " +:+ resource)%string in
    match List.find (rule_matches haystack) (risk_rules policy) with
    | Some rule =>
        mkClassification action kind resource (rule_risk rule) (rule_approval rule)
          ("matched_rule:" +:+ rule_pattern rule)%string
    | None => mkClassification action kind resource Safe false "no_rule_matched"
    end.

(** ** Entities (detection/entities.rs) *)

Record EntityFinding := mkFinding {
  ef_type : string; ef_category : string; ef_confidence : string; ef_start : nat; ef_end : nat;
}.
Definition DEFAULT_BLOCKED_ENTITY_TYPES : list string :=
  ["account_number"; "aws_access_key"; "cvv"; "health_plan_beneficiary"; "jwt"; "mrn"; "pan"; "private_key"; "ssn"]%string.
Definition confidence_str (c : Confidence) : string :=
  match c with High => "high" | Medium => "medium" | Low => "low" end%string.
Definition map_detections (ds : list Detection) : list EntityFinding :=
  (λ d, mkFinding (marker_key (kind d)) (as_kind_str (kind d)) (confidence_str (confidence d)) (d_start d) (d_end d)) <$> ds.
Definition aws_access_key_re : string := "\bAKIA[0-9A-Z]{16}\b".
Definition jwt_re : string := "\beyJ[a-zA-Z0-9_-]{8,}\.[a-zA-Z0-9._-]{4,}\.[a-zA-Z0-9._-]{4,}\b".
Definition private_key_re : string := "-----BEGIN(?: RSA| EC| OPENSSH)? PRIVATE KEY-----".
(** [dedupe_findings]: the first of every type and span, in the order of spans. *)
Definition finding_key (f : EntityFinding) : string * nat * nat := (ef_type f, ef_start f, ef_end f).
Fixpoint first_findings (seen : list (string * nat * nat)) (l : list EntityFinding) : list EntityFinding :=
  match l with
  | [] => []
  | f :: l => if bool_decide (finding_key f ∈ seen) then first_findings seen l else f :: first_findings (finding_key f :: seen) l
  end.
Definition finding_le (a b : EntityFinding) : bool :=
  (ef_start a <? ef_start b)
  || (ef_start a =? ef_start b)
     && ((ef_end a <? ef_end b) || (ef_end a =? ef_end b) && String.leb (ef_type a) (ef_type b)).
Definition dedupe_findings (findings : list EntityFinding) : list EntityFinding :=
  sort_by finding_le (first_findings [] findings).

Section entities.
Context `{Regexes} (cities : list string).
Definition detect_named_pattern (text entity_type category confidence re : string) : list EntityFinding :=
  (λ m, mkFinding entity_type category confidence m.1 m.2) <$> find_iter re text.
Definition detect_entities (text : string) : list EntityFinding :=
  dedupe_findings
    (map_detections (detect_all text) ++ map_detections (detect_hipaa_18_like cities text)
     ++ map_detections (detect_pci_dss text)
     ++ detect_named_pattern text "aws_access_key" "credential" "high" aws_access_key_re
     ++ detect_named_pattern text "jwt" "credential" "high" jwt_re
     ++ detect_named_pattern text "private_key" "credential" "high" private_key_re).
Definition blocked_set (blocked_entity_types : list string) : list string :=
  match blocked_entity_types with
  | [] => DEFAULT_BLOCKED_ENTITY_TYPES
  | _ => List.filter (λ v, negb (is_empty v)) ((λ v, to_ascii_lowercase (trim v)) <$> blocked_entity_types)
  end.
Definition blocked_findings (text : string) (blocked_entity_types : list string) : list EntityFinding :=
  List.filter (λ f, bool_decide (ef_type f ∈ blocked_set blocked_entity_types)) (detect_entities text).
End entities.

Section guard.
Context `{SerdeJson} `{Regexes} (cities : list string) (sha256_hex : string → string) (as_u64 : Number → option Z).
Abbreviation value := (Value Number).
(** The compiler of schemas: a validator, unless the schema is not one; the JSON
    parser; the environment; and the number a [u64] prints as. *)
Context (compile : value → option (value → bool)) (from_str : string → option value) (env : string → option string)
  (from_u64 : Z → Number).
(** What a service answers. *)
Context (send : Post Number → Answer Number).

(** ** Budgets (tool_budget.rs) *)

Definition requested_tool (tool : value) : option string :=
  or_else (get_in (json_get tool "function") "name" ≫= json_as_str) (get_str tool "name").
Definition extract_requested_tools (request_json : option value) : list string :=
  omap requested_tool (default [] (request_json ≫= λ r, get_array r "tools")).
Definition evaluate_budget (config : ToolBudgetConfig) (request_json : option value) : ToolBudgetDecision :=
  let max_tokens := default 0%Z (request_json ≫= λ r, json_get r "max_tokens" ≫= json_as_u64 as_u64) in
  let exceeded := List.filter (λ tool,
    match config !! tool ≫= tb_max_tokens with Some limit => (limit <? max_tokens)%Z | None => false end)
    (extract_requested_tools request_json) in
  mkBudgetDecision (negb (bool_decide (exceeded = []))) exceeded.
Definition evaluate_action_budget (config : ToolBudgetConfig) (tool_name : string) (remaining : Z) : ToolBudgetDecision :=
  match config !! tool_name ≫= max_calls with
  | None => mkBudgetDecision false []
  | Some max_calls =>
      let exhausted := (remaining =? 0)%Z || (max_calls <? remaining)%Z in
      mkBudgetDecision exhausted (if exhausted then [tool_name] else [])
  end.

(** ** Digests (tool_validation.rs) *)

Definition SECRET_KEY_FRAGMENTS : list string :=
  ["password"; "secret"; "token"; "api_key"; "apikey"; "authorization"; "credential"; "access_key"; "private_key";
   "secret_key"]%string.
Definition dash_to_underscore (s : string) : string :=
  string_of_list_ascii ((λ a, if Ascii.eqb a "-"%char then "_"%char else a) <$> list_ascii_of_string s).
Definition key_looks_secret (key : string) : bool :=
  let normalized := dash_to_underscore (to_ascii_lowercase (trim key)) in
  existsb (λ fragment, str_contains fragment normalized) SECRET_KEY_FRAGMENTS.
Definition SECRET_PREFIXES : list string :=
  ["Bearer "; "bearer "; "sk-"; "sk_live_"; "sk_test_"; "ghp_"; "gho_"; "glpat-"; "xoxb-"; "xoxp-"; "AKIA"]%string.
Definition string_looks_secret (v : string) : bool := existsb (λ p, String.prefix p (trim v)) SECRET_PREFIXES.
Definition REDACTED : value := Str "[REDACTED]".
Definition entry_le (a b : string * value) : bool := String.leb a.1 b.1.
(** The keys of a map are distinct, so that sorting the entries sorts the keys. *)
Fixpoint canonicalize_arguments_for_digest (v : value) : value :=
  match v with
  | Obj kvs =>
      Obj (sort_by entry_le (map (λ kv,
        (kv.1, if key_looks_secret kv.1 then REDACTED else canonicalize_arguments_for_digest kv.2)) kvs))
  | Arr items => Arr (map canonicalize_arguments_for_digest items)
  | Str text => if string_looks_secret text then REDACTED else v
  | other => other
  end.
(** The bytes that are hashed, and the digest. *)
Definition digest_text (arguments : value) : string :=
  default "null"%string (json_to_string (canonicalize_arguments_for_digest arguments)).
Definition canonical_argument_digest (arguments : value) : string := sha256_prefixed sha256_hex (digest_text arguments).

(** ** Validation (tool_validation.rs) *)

(** The schemas are in key order, which decides nothing but the order of reports. *)
Record ToolValidationConfig := mkToolValidation {
  declared_tools : list string; schemas : list (string * value); allow_undeclared : bool;
  semantic_validation : SemanticValidationConfig;
}.
Definition ToolValidationConfig_default : ToolValidationConfig :=
  mkToolValidation [] [] false (mkSemantic false None None None 0).
Record ToolActionContext := mkAction {
  tool_name : string; arguments : value; authenticated_actor : string; target_server : string; remaining_action_budget : Z;
}.
Record ToolActionPreDispatchDecision := mkPreDispatch {
  pd_allowed : bool; pd_reason : option string; argument_digest : string; pd_tool_name : string; pd_actor : string;
  pd_server : string; pd_remaining : Z; validation : ToolValidationDecision; security : ToolSecurityDecision;
  pd_budget : ToolBudgetDecision; evidence : value;
}.
Definition strs (l : list string) : value := Arr (Str <$> l).
Definition opt_str (o : option string) : value := match o with Some s => Str s | None => Null end.
(** An API key of the environment, when it is set and not blank. *)
Definition env_key (name : option string) : option string :=
  (name ≫= env) ≫= λ key, if all_whitespace key then None else Some (trim key).

Definition semantic_payload (config : ToolValidationConfig) (request_json : option value) : value :=
  let tools := default (Arr []) (request_json ≫= λ r, json_get r "tools") in
  Obj [("messages",
          Arr [Obj [("content", Str (canonical_json_string
                       (Obj [("declared_tools", strs (declared_tools config)); ("request_tools", tools);
                             ("schemas", Obj (schemas config))])));
                    ("role", Str "user")]]);
       ("model", Str (default "judge"%string (sem_model (semantic_validation config))));
       ("response_format",
          Obj [("json_schema",
                  Obj [("name", Str "tool_semantic_validation");
                       ("schema",
                          Obj [("additionalProperties", Bool false);
                               ("properties", Obj [("reason", Obj [("type", Str "string")]);
                                                   ("valid", Obj [("type", Str "boolean")])]);
                               ("required", Arr [Str "valid"]); ("type", Str "object")])]);
               ("type", Str "json_schema")])]%string.
Definition valid_flag (v : value) : option (bool * option string) :=
  (λ ok, (ok, get_str v "reason")) <$> (json_get v "valid" ≫= json_as_bool).
Definition validate_tools_semantically (config : ToolValidationConfig) (request_json : option value) :
    Result unit string :=
  let sem := semantic_validation config in
  match sem_endpoint sem ≫= λ e, if all_whitespace e then None else Some e with
  | None => Err "semantic validation requires endpoint"%string
  | Some endpoint =>
      match send (mkPost endpoint (semantic_payload config request_json) (env_key (sem_secret_key_env sem))
                    (Z.max (sem_timeout_ms sem) 1)) with
      | ClientFailed e => Err ("semantic validation client build failed: " +:+ e)%string
      | SendFailed e => Err ("semantic validation request failed: " +:+ e)%string
      | NotJson e => Err ("semantic validation returned invalid JSON: " +:+ e)%string
      | Answered payload =>
          match or_else (valid_flag payload)
                  (((value_pointer payload "/choices/0/message/content" ≫= json_as_str) ≫= from_str) ≫= valid_flag) with
          | None => Err "semantic validation response missing valid flag"%string
          | Some (true, _) => Ok tt
          | Some (false, reason) => Err (default "semantic tool validation failed"%string reason)
          end
      end
  end.
Definition undeclared (config : ToolValidationConfig) (requested : list string) : list string :=
  List.filter (λ name, negb (bool_decide (declared_tools config = [])) && negb (bool_decide (name ∈ declared_tools config)))
    requested.
(** The semantic check, once the others passed. *)
Definition with_semantics (config : ToolValidationConfig) (requested undeclared invalid : list string) (ok : bool)
    (request_json : option value) : ToolValidationDecision :=
  if ok && sem_enabled (semantic_validation config) then
    match validate_tools_semantically config request_json with
    | Ok _ => mkValidation requested undeclared invalid true true None
    | Err error => mkValidation requested undeclared invalid false true (Some error)
    end
  else mkValidation requested undeclared invalid ok false None.
Definition validate_tools (config : ToolValidationConfig) (request_json : option value) : ToolValidationDecision :=
  let requested := extract_requested_tools request_json in
  let undeclared := undeclared config requested in
  let invalid := omap (λ kv, match compile kv.2 with Some _ => None | None => Some kv.1 end) (schemas config) in
  with_semantics config requested undeclared invalid
    (bool_decide (invalid = []) && (allow_undeclared config || bool_decide (undeclared = []))) request_json.
Definition schema_rejects (config : ToolValidationConfig) (name : string) (arguments : value) : bool :=
  match map_get (schemas config) name with
  | None => false
  | Some schema => match compile schema with Some validates => negb (validates arguments) | None => true end
  end.
Definition validate_tool_action (config : ToolValidationConfig) (ctx : ToolActionContext) : ToolValidationDecision :=
  let name := trim (tool_name ctx) in
  let requested := if is_empty name then [] else [name] in
  let undeclared := undeclared config requested in
  let invalid := if schema_rejects config name (arguments ctx) then [name] else [] in
  let ok := bool_decide (invalid = []) && (allow_undeclared config || bool_decide (undeclared = [])) && negb (is_empty name) in
  with_semantics config requested undeclared invalid ok
    (Some (Obj [("arguments", arguments ctx); ("tools", Arr [Obj [("name", Str name)]])]%string)).

(** ** Security (tool_security.rs) *)

Definition LOCAL_PATTERNS : list string :=
  ["../"; "..\"; "drop table"; "rm -rf"; "169.254.169.254"; "file://"; "curl http://localhost"]%string.
Definition VERDICTS_FLAGGED : list string :=
  ["deny"; "block"; "blocked"; "reject"; "rejected"; "flagged"; "review"]%string.
Definition map_external_verdict (payload : value) : bool * option string :=
  match or_else (json_get payload "verdict") (json_get payload "action") ≫= json_as_str with
  | Some v => let verdict := to_ascii_lowercase (trim v) in (bool_decide (verdict ∈ VERDICTS_FLAGGED), Some verdict)
  | None => (default false (json_get payload "flagged" ≫= json_as_bool), None)
  end.
Definition entity_value (f : EntityFinding) : value :=
  Obj [("category", Str (ef_category f)); ("confidence", Str (ef_confidence f));
       ("end", Num (from_u64 (Z.of_nat (ef_end f)))); ("entity_type", Str (ef_type f));
       ("start", Num (from_u64 (Z.of_nat (ef_start f))))]%string.
Definition firewall_failed (config : ToolSecurityConfig) (reason : string) : ToolSecurityDecision :=
  mkSecurityDecision (fail_closed config) (Some reason) [] (Some (if fail_closed config then "deny" else "allow")%string).
Definition firewall_request (config : ToolSecurityConfig) (endpoint : string) (request_json : option value)
    (request_text_raw : string) : Post Number :=
  mkPost endpoint
    (Obj [("entities", Arr (entity_value <$> detect_entities cities request_text_raw));
          ("request", default Null request_json)]%string)
    (env_key (secret_key_env config)) 3000.
Definition analyze_with_external_firewall (config : ToolSecurityConfig) (endpoint : string) (request_json : option value)
    (request_text_raw : string) : ToolSecurityDecision :=
  match send (firewall_request config endpoint request_json request_text_raw) with
  | ClientFailed e => firewall_failed config ("external_firewall_client_error:" +:+ e)%string
  | SendFailed e => firewall_failed config ("external_firewall_request_failed:" +:+ e)%string
  | NotJson e => firewall_failed config ("external_firewall_invalid_response:" +:+ e)%string
  | Answered payload =>
      let '(flagged, verdict) := map_external_verdict payload in
      mkSecurityDecision flagged
        (or_else (get_str payload "reason") (Some ("external_firewall_checked:" +:+ endpoint)%string))
        (omap json_as_str (default [] (get_array payload "matched_entities"))) verdict
  end.
Definition normalized_pattern (pattern : string) : string := to_ascii_lowercase (trim pattern).
Definition pattern_matches (request_text pattern : string) : bool :=
  negb (is_empty (normalized_pattern pattern)) && str_contains (normalized_pattern pattern) request_text.
Definition analyze_text (config : ToolSecurityConfig) (request_json : option value) (request_text_raw : string) :
    ToolSecurityDecision :=
  let request_text := to_ascii_lowercase request_text_raw in
  match analysis_mode config, firewall_endpoint config with
  | External, Some endpoint => analyze_with_external_firewall config endpoint request_json request_text_raw
  | _, _ =>
      match List.find (pattern_matches request_text) (blocked_patterns config) with
      | Some pattern =>
          mkSecurityDecision true (Some ("matched_blocked_pattern:" +:+ normalized_pattern pattern)%string) [] None
      | None =>
          match List.find (λ pattern, str_contains pattern request_text) LOCAL_PATTERNS with
          | Some pattern => mkSecurityDecision true (Some ("matched_pattern:" +:+ pattern)%string) [] None
          | None =>
              match ef_type <$> blocked_findings cities request_text_raw (blocked_entity_types config) with
              | [] => mkSecurityDecision false None [] None
              | (entity_type :: _) as matched =>
                  mkSecurityDecision true (Some ("detected_entity:" +:+ entity_type)%string) matched None
              end
          end
      end
  end.
Definition analyze_request (config : ToolSecurityConfig) (request_json : option value) : ToolSecurityDecision :=
  analyze_text config request_json (match request_json with Some v => canonical_json_string v | None => EmptyString end).
Definition action_json (tool_name : string) (arguments : value) (actor server : string) : value :=
  Obj [("arguments", arguments); ("authenticated_actor", Str actor); ("target_server", Str server);
       ("tool_name", Str tool_name)]%string.
Definition analyze_tool_action (config : ToolSecurityConfig) (tool_name : string) (arguments : value)
    (actor server : string) : ToolSecurityDecision :=
  if all_whitespace actor then mkSecurityDecision true (Some "missing_authenticated_actor"%string) [] None
  else if all_whitespace server then mkSecurityDecision true (Some "missing_target_server"%string) [] None
  else
    let v := action_json tool_name arguments actor server in
    analyze_text config (Some v) (canonical_json_string v).

(** ** Before a dispatch (tool_validation.rs) *)

Definition validation_reason (v : ToolValidationDecision) (ctx : ToolActionContext) : string :=
  match semantic_reason v with
  | Some reason => reason
  | None =>
      if negb (bool_decide (undeclared_tools v = []))
      then ("undeclared_tools:" +:+ String.concat "," (undeclared_tools v))%string
      else if negb (bool_decide (invalid_schemas v = []))
      then ("invalid_arguments:" +:+ String.concat "," (invalid_schemas v))%string
      else if all_whitespace (tool_name ctx) then "missing_tool_name"%string
      else "tool_validation_failed"%string
  end.
Definition denial_reason (ctx : ToolActionContext) (v : ToolValidationDecision) (s : ToolSecurityDecision)
    (b : ToolBudgetDecision) : option string :=
  if negb (valid v) then Some (validation_reason v ctx)
  else if sec_flagged s then Some (default "tool_security_flagged"%string (sec_reason s))
  else if budget_flagged b then Some ("action_budget_exhausted:" +:+ String.concat "," (exceeded_tools b))%string
  else None.
Definition evidence_of (ctx : ToolActionContext) (digest : string) (reason : option string) (v : ToolValidationDecision)
    (s : ToolSecurityDecision) (b : ToolBudgetDecision) : value :=
  Obj [("argument_digest", Str digest); ("authenticated_actor", Str (authenticated_actor ctx));
       ("budget", Obj [("exceeded_tools", strs (exceeded_tools b)); ("flagged", Bool (budget_flagged b))]);
       ("decision", Str (match reason with None => "allow" | Some _ => "deny" end)); ("reason", opt_str reason);
       ("remaining_action_budget", Num (from_u64 (remaining_action_budget ctx)));
       ("security", Obj [("flagged", Bool (sec_flagged s)); ("matched_entities", strs (matched_entities s));
                         ("provider_verdict", opt_str (provider_verdict s)); ("reason", opt_str (sec_reason s))]);
       ("stage", Str "tool_action_pre_dispatch"); ("target_server", Str (target_server ctx));
       ("tool_name", Str (tool_name ctx));
       ("validation", Obj [("invalid_schemas", strs (invalid_schemas v)); ("requested_tools", strs (requested_tools v));
                           ("semantic_reason", opt_str (semantic_reason v));
                           ("semantic_validated", Bool (semantic_validated v));
                           ("undeclared_tools", strs (undeclared_tools v)); ("valid", Bool (valid v))])]%string.
Definition evaluate_tool_action_before_dispatch (validation_config : ToolValidationConfig)
    (security_config : ToolSecurityConfig) (budget_config : ToolBudgetConfig) (ctx : ToolActionContext) :
    ToolActionPreDispatchDecision :=
  let digest := canonical_argument_digest (arguments ctx) in
  let v := validate_tool_action validation_config ctx in
  let s := analyze_tool_action security_config (tool_name ctx) (arguments ctx) (authenticated_actor ctx) (target_server ctx) in
  let b := evaluate_action_budget budget_config (tool_name ctx) (remaining_action_budget ctx) in
  let reason := denial_reason ctx v s b in
  mkPreDispatch (match reason with None => true | Some _ => false end) reason digest (tool_name ctx)
    (authenticated_actor ctx) (target_server ctx) (remaining_action_budget ctx) v s b
    (evidence_of ctx digest reason v s b).

(** ** The policies of a chain (enforcement.rs) *)

(** [parsed] is the configuration when it deserializes. *)
Definition evaluate_tool_validation (parsed : option ToolValidationConfig) (request_json : option value)
    (stage : ExecutionStage) : PolicyResult Number :=
  let d := validate_tools (default ToolValidationConfig_default parsed) request_json in
  mkPolicyResult "tool-validation" (stage_str stage) (if valid d then Allow else Block)
    (if valid d then "tool-validation.ok" else "tool-validation.invalid")%string
    (Some (Obj [("invalid_schemas", strs (invalid_schemas d)); ("requested_tools", strs (requested_tools d));
                ("semantic_reason", opt_str (semantic_reason d)); ("semantic_validated", Bool (semantic_validated d));
                ("undeclared_tools", strs (undeclared_tools d))]%string)) None.
Definition evaluate_tool_security (parsed : option ToolSecurityConfig) (request_json : option value) : PolicyResult Number :=
  let d := analyze_request (default ToolSecurityConfig_default parsed) request_json in
  mkPolicyResult "tool-security" "input" (if sec_flagged d then Block else Allow)
    (match sec_reason d with Some reason => "tool-security." +:+ reason | None => "tool-security.ok" end)%string
    (Some (Obj [("flagged", Bool (sec_flagged d)); ("reason", opt_str (sec_reason d))]%string)) None.
Definition evaluate_tool_budget (parsed : option ToolBudgetConfig) (request_json : option value) : PolicyResult Number :=
  let d := evaluate_budget (default ∅ parsed) request_json in
  mkPolicyResult "tool-budget" "input" (if budget_flagged d then Block else Allow)
    (if budget_flagged d then "tool-budget.exceeded" else "tool-budget.ok")%string
    (Some (Obj [("exceeded_tools", strs (exceeded_tools d))]%string)) None.

(** ** What a digest tells apart *)

Fixpoint all2 {A B} (R : A → B → Prop) (l : list A) (k : list B) : Prop :=
  match l, k with
  | [], [] => True
  | a :: l, b :: k => R a b ∧ all2 R l k
  | _, _ => False
  end.
(** A text that is hidden, or is what hidden texts become. *)
Definition hidden (s : string) : bool := string_looks_secret s || String.eqb s "[REDACTED]".
(** Two arguments are publicly the same: equal up to the order of entries, hidden
    texts, and the values of keys that look secret. *)
Fixpoint same_public (v w : value) : Prop :=
  match v, w with
  | Obj kvs, Obj kws =>
      ∃ kws', kws' ≡ₚ kws
        ∧ all2 (λ a b, a.1 = b.1 ∧ if key_looks_secret a.1 then True else same_public a.2 b.2) kvs kws'
  | Arr vs, Arr ws => all2 same_public vs ws
  | Str s, Str t => s = t ∨ hidden s = true ∧ hidden t = true
  | Null, Null => True
  | Bool b, Bool c => b = c
  | Num m, Num n => m = n
  | _, _ => False
  end.
(** Maps do not repeat keys. *)
Fixpoint distinct_keys (v : value) : Prop :=
  match v with
  | Obj kvs => NoDup kvs.*1 ∧ fold_right (λ kv P, distinct_keys kv.2 ∧ P) True kvs
  | Arr vs => fold_right (λ v P, distinct_keys v ∧ P) True vs
  | _ => True
  end.
Definition canonical_entry (kv : string * value) : string * value :=
  (kv.1, if key_looks_secret kv.1 then REDACTED else canonicalize_arguments_for_digest kv.2).

Lemma canonical_obj kvs : canonicalize_arguments_for_digest (Obj kvs) = Obj (sort_by entry_le (canonical_entry <$> kvs)).
Proof. reflexivity. Qed.
Lemma hidden_exact s t :
  canonicalize_arguments_for_digest (Str s) = canonicalize_arguments_for_digest (Str t)
  ↔ s = t ∨ hidden s = true ∧ hidden t = true.
Proof.
  unfold hidden. simpl. unfold REDACTED. destruct (string_looks_secret s) eqn:Hs, (string_looks_secret t) eqn:Ht; simpl;
    rewrite ?String.eqb_eq; split; try (by auto); try (by intros [= ->]; auto); try (intros [->|[]]; congruence).
Qed.
Definition key_before (a b : string * value) : Prop := String.le a.1 b.1.
Lemma key_sorted (kvs : list (string * value)) : StronglySorted key_before (sort_by entry_le kvs).
Proof.
  apply sort_by_sorted; unfold entry_le, key_before, String.le; [by intros a b ->| |].
  - intros a b Hab. destruct (String.leb_total a.1 b.1) as [E|E]; [congruence|by rewrite E].
  - intros a b c Hab Hbc. by trans b.1.
Qed.
Lemma key_sort_perm (kvs kws : list (string * value)) :
  NoDup kvs.*1 → kvs ≡ₚ kws → sort_by entry_le kvs = sort_by entry_le kws.
Proof.
  intros Hnd Hp. apply (StronglySorted_unique_strong key_before); [|apply key_sorted|apply key_sorted|by rewrite !sort_by_perm].
  intros a b Ha Hb Hab Hba. rewrite sort_by_perm in Ha, Hb. rewrite <- Hp in Hb.
  assert (Hkey : a.1 = b.1) by (by apply (anti_symm String.le)).
  apply list_elem_of_lookup in Ha as [i Hi], Hb as [j Hj].
  assert (i = j) as ->; [|congruence]. eapply (NoDup_lookup kvs.*1 i j a.1 Hnd); rewrite list_lookup_fmap;
    [by rewrite Hi|rewrite Hj; simpl; by rewrite Hkey].
Qed.
Lemma canonical_keys kvs : (canonical_entry <$> kvs).*1 = kvs.*1.
Proof. rewrite <- list_fmap_compose. done. Qed.

Lemma cons_eq {A} (x y : A) l k : x :: l = y :: k ↔ x = y ∧ l = k.
Proof. split; [by intros [= -> ->]|by intros [-> ->]]. Qed.
Lemma canonical_entry_eq a b : canonical_entry a = canonical_entry b ↔
  a.1 = b.1 ∧ if key_looks_secret a.1 then True
              else canonicalize_arguments_for_digest a.2 = canonicalize_arguments_for_digest b.2.
Proof.
  unfold canonical_entry. destruct a as [k v], b as [k' w]. cbn [fst snd]. split.
  - intros [= -> Heq]. split; [done|]. by destruct (key_looks_secret k').
  - intros [-> Heq]. destruct (key_looks_secret k'); [done|by rewrite Heq].
Qed.

Lemma canonical_obj_exact kvs kws : NoDup kvs.*1 →
  Forall (λ kv, ∀ w, distinct_keys w → canonicalize_arguments_for_digest kv.2 = canonicalize_arguments_for_digest w ↔ same_public kv.2 w) kvs →
  Forall (λ kv, distinct_keys kv.2) kws →
  canonicalize_arguments_for_digest (Obj kvs) = canonicalize_arguments_for_digest (Obj kws) ↔ same_public (Obj kvs) (Obj kws).
Proof.
  intros Hnd IH Hdk. rewrite !canonical_obj. cbn [same_public].
  assert (Hentries : ∀ kws', kws' ≡ₚ kws → canonical_entry <$> kvs = canonical_entry <$> kws' ↔
    all2 (λ a b, a.1 = b.1 ∧ if key_looks_secret a.1 then True else same_public a.2 b.2) kvs kws').
  { intros kws' Hp. rewrite <- Hp in Hdk. clear Hnd Hp. revert kws' Hdk.
    induction IH as [|[k v] kvs Hkv _ IHk]; intros [|[k' w] kws'] Hdk; cbn [fmap list_fmap all2]; [done..|].
    apply Forall_cons in Hdk as [Hw Hdk]. cbn [snd] in *. rewrite cons_eq, (IHk _ Hdk), canonical_entry_eq. cbn [fst snd].
    destruct (key_looks_secret k); [done|]. by rewrite (Hkv w Hw). }
  split.
  - intros [= Heq]. assert (Hp : canonical_entry <$> kvs ≡ₚ canonical_entry <$> kws)
      by (by rewrite <- (sort_by_perm entry_le), Heq, sort_by_perm).
    apply Permutation_map_inv in Hp as (kws' & Hmap & Hp'). exists kws'. split; [by symmetry|].
    apply Hentries; [by symmetry|]. done.
  - intros (kws' & Hp & Hall). apply Hentries in Hall; [|done]. f_equal. apply key_sort_perm; [by rewrite canonical_keys|].
    by rewrite Hall, Hp.
Qed.
Lemma fold_distinct {A} (f : A → value) l :
  fold_right (λ x P, distinct_keys (f x) ∧ P) True l ↔ Forall (λ x, distinct_keys (f x)) l.
Proof. induction l as [|x l IH]; simpl; [done|]. by rewrite IH, Forall_cons. Qed.
Lemma canonical_exact v w : distinct_keys v → distinct_keys w →
  canonicalize_arguments_for_digest v = canonicalize_arguments_for_digest w ↔ same_public v w.
Proof.
  revert w. induction v as [|b|n|s|vs IH|kvs IH] using value_ind_nested; intros w Hv Hw.
  1-4: destruct w; try (simpl; unfold REDACTED; by repeat case_match); try apply hidden_exact; simpl; (split; [by intros [=]|by intros ->]).
  - destruct w as [| | |t|ws|kws]; try (simpl; unfold REDACTED; by repeat case_match).
    simpl in Hv, Hw. rewrite (fold_distinct (λ v, v)) in Hv, Hw. simpl.
    assert (Hall : map canonicalize_arguments_for_digest vs = map canonicalize_arguments_for_digest ws ↔ all2 same_public vs ws).
    { clear -IH Hv Hw. revert ws Hw. induction IH as [|v vs Hx _ IHv]; intros [|w ws] Hw; simpl; [done..|].
      apply Forall_cons in Hv as [Hv1 Hv], Hw as [Hw1 Hw]. by rewrite cons_eq, (IHv Hv ws Hw), (Hx w Hv1 Hw1). }
    rewrite <- Hall. split; [by intros [=]|by intros ->].
  - destruct w as [| | |t|ws|kws]; try (simpl; unfold REDACTED; by repeat case_match).
    simpl in Hv, Hw. rewrite (fold_distinct snd) in Hv, Hw. destruct Hv as [Hnd Hv], Hw as [_ Hw].
    apply canonical_obj_exact; [done| |done]. rewrite Forall_forall in IH, Hv |- *. intros kv Hkv w' Hw'. auto.
Qed.

(** C20. The digest of a tool action tells apart exactly what is public: the bytes it
    hashes are equal for two arguments (whose maps do not repeat keys) if and only if
    the arguments agree up to the order of entries, the texts that look like
    credentials and the values of keys that look secret, at every depth; then the
    digests are equal too. *)
Theorem digest_exact (v w : value) (Hv : distinct_keys v) (Hw : distinct_keys w) :
  (digest_text v = digest_text w ↔ same_public v w)
  ∧ (same_public v w → canonical_argument_digest v = canonical_argument_digest w).
Proof.
  assert (Hiff : digest_text v = digest_text w ↔ same_public v w).
  { rewrite <- canonical_exact by done. unfold digest_text. split; [|by intros ->]. intros Heq.
    apply json_to_string_inj. destruct (json_to_string_total (canonicalize_arguments_for_digest v)) as [s Hs],
      (json_to_string_total (canonicalize_arguments_for_digest w)) as [t Ht]. rewrite Hs, Ht in *. simpl in Heq. by subst. }
  split; [done|]. intros Hsame. unfold canonical_argument_digest. by rewrite (proj2 Hiff Hsame).
Qed.

(** Ordinary limits are no part of the digest: [max_tokens] counts as a secret
    because of the letters of "token" in it, so that actions with different limits
    have the same digest. *)
Theorem token_limits_undigested (m n : Number) :
  canonical_argument_digest (Obj [("max_tokens"%string, Num m)]) = canonical_argument_digest (Obj [("max_tokens"%string, Num n)]).
Proof. reflexivity. Qed.

(** ** When an action is allowed *)

Lemma find_none {A} (f : A → bool) l : List.find f l = None ↔ ∀ x, x ∈ l → f x = false.
Proof.
  split.
  - intros Hf x Hx. by apply (find_none f l Hf), list_elem_of_In.
  - intros Hall. destruct (List.find f l) eqn:E; [|done]. apply find_some in E as [Hin Hf].
    rewrite Hall in Hf by (by apply list_elem_of_In). done.
Qed.
(** What a local analysis must not find, and what the firewall must not say. *)
Definition locally_clean (config : ToolSecurityConfig) (raw : string) : Prop :=
  (∀ p, p ∈ blocked_patterns config → pattern_matches (to_ascii_lowercase raw) p = false)
  ∧ (∀ p, p ∈ LOCAL_PATTERNS → str_contains p (to_ascii_lowercase raw) = false)
  ∧ (∀ f, f ∈ detect_entities cities raw → ef_type f ∉ blocked_set (blocked_entity_types config)).
Definition firewall_clears (config : ToolSecurityConfig) (a : Answer Number) : Prop :=
  match a with Answered payload => (map_external_verdict payload).1 = false | _ => fail_closed config = false end.
Definition analysis_clean (config : ToolSecurityConfig) (v : value) : Prop :=
  let raw := canonical_json_string v in
  match analysis_mode config, firewall_endpoint config with
  | External, Some endpoint => firewall_clears config (send (firewall_request config endpoint (Some v) raw))
  | _, _ => locally_clean config raw
  end.

Lemma blocked_none config raw :
  ef_type <$> blocked_findings cities raw (blocked_entity_types config) = []
  ↔ ∀ f, f ∈ detect_entities cities raw → ef_type f ∉ blocked_set (blocked_entity_types config).
Proof.
  unfold blocked_findings. generalize (blocked_set (blocked_entity_types config)) as blocked.
  intros blocked. induction (detect_entities cities raw) as [|f l IH]; [split; [by intros _ f ?%not_elem_of_nil|done]|].
  cbn [List.filter]. case_bool_decide as Hf; cbn [fmap list_fmap].
  - split; [done|]. intros Hall. by destruct (Hall f (list_elem_of_here f l)).
  - rewrite IH. split; [|by intros Hall g Hg; apply Hall; right]. intros Hall g [->|Hg]%elem_of_cons; auto.
Qed.
Lemma local_analysis config v raw : analysis_mode config = Local ∨ firewall_endpoint config = None →
  sec_flagged (analyze_text config (Some v) raw) = false ↔ locally_clean config raw.
Proof.
  intros Hlocal. unfold analyze_text, locally_clean. cbv zeta. rewrite <- !find_none, <- blocked_none.
  destruct (analysis_mode config), (firewall_endpoint config); try (by destruct Hlocal);
    (destruct (List.find (pattern_matches _) _); [by split; [|intros (? & _)]|];
     destruct (List.find _ LOCAL_PATTERNS); [by split; [|intros (_ & ? & _)]|];
     destruct (ef_type <$> _); by split; [|intros (_ & _ & ?)]).
Qed.
Lemma analysis_exact config v : sec_flagged (analyze_text config (Some v) (canonical_json_string v)) = false ↔ analysis_clean config v.
Proof.
  unfold analysis_clean. cbv zeta. destruct (analysis_mode config) eqn:Hm, (firewall_endpoint config) as [endpoint|] eqn:Hf;
    try (by apply local_analysis; auto).
  unfold analyze_text. rewrite Hm, Hf. unfold analyze_with_external_firewall.
  destruct (send _) as [e|e|e|payload]; try done. cbn [firewall_clears]. by destruct (map_external_verdict payload) as [flagged verdict].
Qed.

(** The request that the judge of one action is shown. *)
Definition judged (ctx : ToolActionContext) : value :=
  Obj [("arguments", arguments ctx); ("tools", Arr [Obj [("name", Str (trim (tool_name ctx)))]])]%string.

Lemma undeclared_none config name :
  undeclared config [name] = [] ↔ declared_tools config = [] ∨ name ∈ declared_tools config.
Proof.
  unfold undeclared. cbn [List.filter].
  destruct (bool_decide_reflect (declared_tools config = [])) as [?|?], (bool_decide_reflect (name ∈ declared_tools config)); simpl;
    split; auto; [done|]. by intros [?|?].
Qed.
Lemma schema_admits config name args :
  schema_rejects config name args = false
  ↔ ∀ schema, map_get (schemas config) name = Some schema → ∃ validates, compile schema = Some validates ∧ validates args = true.
Proof.
  unfold schema_rejects. destruct (map_get (schemas config) name) as [schema|]; [|done]. split.
  - intros Hr ? [= <-]. destruct (compile schema) as [f|]; [|done]. exists f. by apply negb_false_iff in Hr.
  - intros Hall. destruct (Hall schema eq_refl) as (f & -> & ->). done.
Qed.
Lemma validation_exact config ctx :
  valid (validate_tool_action config ctx) = true
  ↔ is_empty (trim (tool_name ctx)) = false
    ∧ (allow_undeclared config = true ∨ declared_tools config = [] ∨ trim (tool_name ctx) ∈ declared_tools config)
    ∧ (∀ schema, map_get (schemas config) (trim (tool_name ctx)) = Some schema →
         ∃ validates, compile schema = Some validates ∧ validates (arguments ctx) = true)
    ∧ (sem_enabled (semantic_validation config) = true →
         validate_tools_semantically config (Some (judged ctx)) = Ok tt).
Proof.
  unfold validate_tool_action, judged. cbv zeta. set (name := trim (tool_name ctx)).
  rewrite <- undeclared_none, <- schema_admits. destruct (is_empty name); cbn [negb].
  { rewrite andb_false_r. unfold with_semantics. cbn. split; [done|by intros [? _]]. }
  unfold with_semantics. rewrite andb_true_r. destruct (schema_rejects config name (arguments ctx)).
  { rewrite bool_decide_false by done. cbn. split; [done|by intros (_ & _ & ? & _)]. }
  rewrite (bool_decide_true ([] = [])) by done. cbn [andb].
  destruct (allow_undeclared config), (bool_decide_reflect (undeclared config [name] = [])); cbn [orb andb];
    destruct (sem_enabled (semantic_validation config)); cbn [valid];
    try (destruct (validate_tools_semantically config _) as [[]|error]; cbn [valid]);
    (split; [intros ?; try done; split_and!; by auto|intros (_ & Hu & _ & Hs); try specialize (Hs eq_refl); try done; by destruct Hu]).
Qed.
Lemma budget_exact config name remaining :
  budget_flagged (evaluate_action_budget config name remaining) = false
  ↔ ∀ n, config !! name ≫= max_calls = Some n → remaining ≠ 0%Z ∧ (remaining ≤ n)%Z.
Proof.
  unfold evaluate_action_budget. destruct (config !! name ≫= max_calls) as [n|]; cbn; [|done].
  rewrite orb_false_iff, Z.eqb_neq, Z.ltb_ge. split; [by intros ? ? [= <-]|auto].
Qed.

(** C19. A tool action is dispatched exactly when every check passes: it has a name,
    which is declared (or nothing is, or undeclared tools are allowed), its arguments
    satisfy the schema of the tool, the semantic judge agrees where it is asked,
    there are an actor and a server, the analysis finds nothing (or the firewall
    clears it), and a budget of calls is neither spent nor inconsistent. *)
Theorem action_allowed_exact (vc : ToolValidationConfig) (sc : ToolSecurityConfig) (bc : ToolBudgetConfig)
    (ctx : ToolActionContext) :
  pd_allowed (evaluate_tool_action_before_dispatch vc sc bc ctx) = true
  ↔ (is_empty (trim (tool_name ctx)) = false
     ∧ (allow_undeclared vc = true ∨ declared_tools vc = [] ∨ trim (tool_name ctx) ∈ declared_tools vc)
     ∧ (∀ schema, map_get (schemas vc) (trim (tool_name ctx)) = Some schema →
          ∃ validates, compile schema = Some validates ∧ validates (arguments ctx) = true)
     ∧ (sem_enabled (semantic_validation vc) = true → validate_tools_semantically vc (Some (judged ctx)) = Ok tt))
    ∧ (all_whitespace (authenticated_actor ctx) = false ∧ all_whitespace (target_server ctx) = false
       ∧ analysis_clean sc (action_json (tool_name ctx) (arguments ctx) (authenticated_actor ctx) (target_server ctx)))
    ∧ (∀ n, bc !! tool_name ctx ≫= max_calls = Some n →
         remaining_action_budget ctx ≠ 0%Z ∧ (remaining_action_budget ctx ≤ n)%Z).
Proof.
  rewrite <- validation_exact, <- analysis_exact, <- budget_exact.
  unfold evaluate_tool_action_before_dispatch, denial_reason, analyze_tool_action. cbv zeta. cbn [pd_allowed].
  destruct (valid (validate_tool_action vc ctx)); cbn [negb]; [|by split; [|intros [? _]]].
  destruct (all_whitespace (authenticated_actor ctx)); cbn [sec_flagged]; [by split; [|intros (_ & [? _] & _)]|].
  destruct (all_whitespace (target_server ctx)); cbn [sec_flagged]; [by split; [|intros (_ & (_ & ? & _) & _)]|].
  destruct (sec_flagged _); [by split; [|intros (_ & (_ & _ & ?) & _)]|].
  destruct (budget_flagged _); [by split; [|intros (_ & _ & ?)]|]. done.
Qed.

(** ** What gets through *)

(** An error page of the external firewall clears an action even when it must
    fail closed: the status of the answer is not looked at, and an answer in JSON
    that has no verdict, action or flag counts as unflagged. *)
Theorem firewall_error_clears (config : ToolSecurityConfig) (endpoint raw : string) (v payload : value)
    (Hmode : analysis_mode config = External) (Hendpoint : firewall_endpoint config = Some endpoint)
    (Hanswer : send (firewall_request config endpoint (Some v) raw) = Answered payload)
    (Hverdict : json_get payload "verdict" = None) (Haction : json_get payload "action" = None)
    (Hflagged : json_get payload "flagged" = None) :
  sec_flagged (analyze_text config (Some v) raw) = false.
Proof.
  unfold analyze_text. rewrite Hmode, Hendpoint. unfold analyze_with_external_firewall. rewrite Hanswer.
  unfold map_external_verdict. by rewrite Hverdict, Haction, Hflagged.
Qed.

(** The semantic judge of one action never sees its arguments: they are put into
    the request it judges, of which only the tools are sent, so that its answer is
    the same for all arguments. *)
Theorem judge_blind_to_arguments (vc : ToolValidationConfig) (ctx ctx' : ToolActionContext)
    (Hname : tool_name ctx' = tool_name ctx) :
  validate_tools_semantically vc (Some (judged ctx')) = validate_tools_semantically vc (Some (judged ctx)).
Proof. unfold judged. rewrite Hname. reflexivity. Qed.

(** Configurations that do not deserialize are no checks: the policies on tool
    declarations and on tool budgets then allow every request. *)
Theorem unreadable_tool_policies_allow (request_json : option value) (stage : ExecutionStage) :
  pr_verdict (evaluate_tool_validation None request_json stage) = Allow
  ∧ pr_verdict (evaluate_tool_budget None request_json) = Allow.
Proof.
  assert (Hu : ∀ l, undeclared ToolValidationConfig_default l = []) by (intros l; induction l; [done|assumption]).
  split.
  - unfold evaluate_tool_validation, validate_tools. cbn [default from_option]. rewrite Hu. reflexivity.
  - unfold evaluate_tool_budget, evaluate_budget. cbv zeta.
    rewrite (filter_ext _ (λ _, false)) by (intros tool; reflexivity).
    by induction (extract_requested_tools request_json).
Qed.
End guard.

(** Under the default rules approval is required exactly of the destructive and
    the critical actions, as the table of risk levels says, and a disabled policy
    requires none. *)
Theorem approval_follows_risk (policy_on : bool) (action resource : string) :
  let c := classify_tool_action (mkActionPolicy policy_on default_risk_rules) action resource in
  requires_approval c = bool_decide (risk_level c = Destructive ∨ risk_level c = Critical)
  ∧ (requires_approval c = true → policy_on = true).
Proof.
  cbv zeta. unfold classify_tool_action. cbn [policy_enabled risk_rules]. destruct policy_on; cbn [negb]; [|done].
  destruct (List.find _ default_risk_rules) as [rule|] eqn:Hf; [|done]. apply find_some in Hf as [Hin _]. split; [|done].
  cbn [requires_approval risk_level]. unfold default_risk_rules in Hin. cbn [In] in Hin.
  by destruct_or? Hin; subst rule.
Qed.

Module DemoGuard.
#[local] Existing Instance JsonModel.json.
(** The same call with other credentials, in another order. *)
Definition call (key : string) : Value Z :=
  Obj [("path", Str "a.txt"); ("auth", Arr [Str key; Obj [("api-key", Num 1%Z)]])]%string.
Definition reordered (key : string) : Value Z :=
  Obj [("auth", Arr [Str key; Obj [("api-key", Null)]]); ("path", Str "a.txt")]%string.
Definition strict : ToolSecurityConfig := mkSecurity External (Some "https://fw"%string) None true [] [].
Definition overloaded : Value Z := Obj [("error", Str "overloaded")]%string.
Definition send (_ : Post Z) : Answer Z := Answered overloaded.
Definition action (args : Value Z) : ToolActionContext := mkAction "read" args "me" "files" 1.
End DemoGuard.

Lemma digest_exact_witness :
  canonical_argument_digest (H := JsonModel.json) (λ s, s) (DemoGuard.call "sk-1")
  = canonical_argument_digest (H := JsonModel.json) (λ s, s) (DemoGuard.reordered "ghp_2").
Proof.
  apply (digest_exact (H := JsonModel.json) (λ s, s) (DemoGuard.call "sk-1") (DemoGuard.reordered "ghp_2")).
  1-2: cbn; split_and!; try apply (bool_decide_unpack _); vm_compute; exact I.
  exists [("path", Str "a.txt"); ("auth", Arr [Str "ghp_2"; Obj [("api-key", Null)]])]%string. split; [constructor|].
  vm_compute. split_and!; auto. exists [("api-key"%string, Null)]. auto.
Defined.

Lemma firewall_error_clears_witness :
  sec_flagged (analyze_text (H := JsonModel.json) (H0 := DemoRegex.one) [] (λ _, None) (λ z, z) DemoGuard.send
    DemoGuard.strict (Some Null) "null") = false.
Proof.
  apply (firewall_error_clears (H := JsonModel.json) (H0 := DemoRegex.one) [] (λ _, None) (λ z, z) DemoGuard.send
    DemoGuard.strict "https://fw" "null" Null DemoGuard.overloaded); reflexivity.
Defined.

Lemma judge_blind_to_arguments_witness :
  validate_tools_semantically (H := JsonModel.json) (λ _, None) (λ _, None) DemoGuard.send ToolValidationConfig_default
    (Some (judged (DemoGuard.action Null)))
  = validate_tools_semantically (H := JsonModel.json) (λ _, None) (λ _, None) DemoGuard.send ToolValidationConfig_default
      (Some (judged (DemoGuard.action (DemoGuard.call "rm -rf /")))).
Proof. apply (judge_blind_to_arguments (H := JsonModel.json)). reflexivity. Defined.
