(* ===== verification/McpBridge.v ===== *)
(** * McpBridge: the bridge to tool servers
    (src/src/gateway/runtimes/network/mcp.rs, and [build_mcp_session_meta] of
    request_pipeline/responses_part1.rs)

    A request for a tool is normalised, judged by [ToolGuard] for the actor of its
    session, annotated with the decision, judged again right before it is sent, and
    sent under the limit of concurrent calls of its endpoint; the answer is bound to
    the decision.  The HTTP client, the deserialiser of the configuration, the syntax
    of headers and the localised texts of errors are arguments. *)

From Stdlib Require Import ZArith Ascii String.
From stdpp Require Import base gmap strings list.
From S2P Require Import Prelude Text Net Lww EventWal Policy PolicyChain ToolCalls Detection Redaction Sse RequestText OutboundFetch UsageAuthorization ToolGuard.

#[local] Arguments String.append : simpl nomatch.

(** [CliError::user] and [CliError::network]. *)
Inductive CliError := UserError (message : string) | NetworkError (message : string).

(** ** Configuration *)

Definition DEFAULT_MCP_BRIDGE_TIMEOUT_MS : Z := 5000.
Definition DEFAULT_CONTAINMENT_TIMEOUT_MS : Z := 30000.
Definition DEFAULT_MAX_CONCURRENT_CALLS : Z := 5.
Definition DEFAULT_NETWORK_POLICY : string := "egress_restricted".
Definition default_protocol_version : string := "2026-03-26".
Record McpContainmentConfig := mkContainment { network_policy : string; timeout_ms : Z; max_concurrent_calls : Z }.
Definition McpContainmentConfig_default : McpContainmentConfig :=
  mkContainment DEFAULT_NETWORK_POLICY DEFAULT_CONTAINMENT_TIMEOUT_MS DEFAULT_MAX_CONCURRENT_CALLS.
Record McpSessionMeta := mkSessionMeta {
  meta_session_id : option string; conversation_id : option string; agent_id : option string;
  session_actor : option string; session_server : option string; session_budget : option Z;
}.
(** The fields of [GatewaySessionContext] that a bridge reads. *)
Record GatewaySessionContext := mkGatewaySession {
  gs_session_id : string; gs_agent_id : option string; gs_conversation_id : option string;
}.
Definition build_mcp_session_meta (session : option GatewaySessionContext) : option McpSessionMeta :=
  (λ s, mkSessionMeta (Some (gs_session_id s)) (gs_conversation_id s) (gs_agent_id s)
          (or_else (gs_agent_id s) (Some ("mcp:session:" +:+ gs_session_id s)%string)) (Some "mcp:published"%string) None)
  <$> session.

(** ** Containment *)

(** The part of a text before the first [c], and after the last one. *)
Definition before_first (c : ascii) (s : string) : string := default EmptyString (head (split_char c s)).
Definition after_last (c : ascii) (s : string) : string := default EmptyString (last (split_char c s)).
Definition parses_loopback (host : string) : bool :=
  match parse_ip host with Some address => is_loopback address | None => false end.
Definition host_is_loopback (remainder : string) : bool :=
  if is_empty remainder then false
  else
    let host := after_last "@" (before_first "/" remainder) in
    match host with
    | String "["%char v => parses_loopback (before_first "]" v)
    | _ => let host := before_first ":" host in eq_ignore_ascii_case host "localhost" || parses_loopback host
    end.
Definition stripped (p s : string) : string := default EmptyString (strip_prefix p s).
Definition is_loopback_http_url (endpoint : string) : bool := host_is_loopback (stripped "http://" endpoint).
Definition is_loopback_https_url (endpoint : string) : bool := host_is_loopback (stripped "https://" endpoint).
Definition enforce_network_containment (containment : McpContainmentConfig) (endpoint : string) : Result unit CliError :=
  let policy := to_ascii_lowercase (trim (network_policy containment)) in
  if String.eqb policy "unrestricted" then Ok tt
  else if String.eqb policy "egress_restricted" then
    if String.prefix "https://" endpoint || is_loopback_http_url endpoint then Ok tt
    else Err (UserError "mcp bridge blocked tool call: network_policy=egress_restricted requires https:// or loopback http://")
  else if String.eqb policy "isolated" then
    if is_loopback_http_url endpoint || is_loopback_https_url endpoint then Ok tt
    else Err (UserError "mcp bridge blocked tool call: network_policy=isolated requires loopback endpoint")
  else Err (UserError ("mcp bridge containment.network_policy must be one of: unrestricted, egress_restricted, isolated (got "
                       +:+ policy +:+ ")")%string).

(** ** Limits of concurrent calls and counters *)

(** The permits that are left of every limiter, and the counters of actions. *)
Record McpState := mkMcp { limiters : gmap string Z; completed : Z; failed : Z }.
Definition limiter_name (limiter_key : string) (max : Z) : string := (limiter_key +:+ ":" +:+ index_text (Z.max max 1))%string.
Definition available (st : McpState) (limiter_key : string) (max : Z) : Z :=
  default (Z.max max 1) (limiters st !! limiter_name limiter_key max).
(** [try_acquire_concurrency]: the name of the limiter stands for the permit. *)
Definition try_acquire_concurrency (st : McpState) (limiter_key : string) (max_concurrent_calls : Z) :
    McpState * Result string CliError :=
  let name := limiter_name limiter_key max_concurrent_calls in
  let left := available st limiter_key max_concurrent_calls in
  if (left =? 0)%Z then
    (mkMcp (<[name := left]> (limiters st)) (completed st) (failed st),
     Err (UserError ("mcp bridge blocked tool call: concurrency_limit max_concurrent_calls="
                     +:+ index_text max_concurrent_calls)%string))
  else (mkMcp (<[name := (left - 1)%Z]> (limiters st)) (completed st) (failed st), Ok name).
(** A permit that is dropped. *)
Definition release (st : McpState) (permit : string) : McpState :=
  mkMcp (alter (λ left, (left + 1)%Z) permit (limiters st)) (completed st) (failed st).
Definition release_opt (st : McpState) (permit : option string) : McpState :=
  match permit with Some permit => release st permit | None => st end.
Definition record_completed (st : McpState) : McpState := mkMcp (limiters st) (wrap64 (completed st + 1)) (failed st).
Definition record_failed (st : McpState) : McpState := mkMcp (limiters st) (completed st) (wrap64 (failed st + 1)).

Section bridge.
Context `{SerdeJson} `{Regexes} (cities : list string) (sha256_hex : string → string) (as_u64 : Number → option Z).
Abbreviation value := (Value Number).
Context (compile : value → option (value → bool)) (from_str : string → Result value string) (env : string → option string)
  (from_u64 : Z → Number) (send : Post Number → Answer Number).
(** How an error reads, and the names and values that headers may have. *)
Context (shown : CliError → string) (header_name header_value : string → Result string string).

Record McpBridgeConfig := mkBridge {
  protocol_version : string; bridge_session_id : option string; tool_validation : option ToolValidationConfig;
  tool_security : option ToolSecurityConfig; tool_budget : option ToolBudgetConfig; containment : McpContainmentConfig;
}.
Definition McpBridgeConfig_default : McpBridgeConfig :=
  mkBridge default_protocol_version None None None None McpContainmentConfig_default.
Context (bridge_from_value : value → Result McpBridgeConfig string).
Definition parse_bridge_config (config : value) : Result McpBridgeConfig CliError :=
  match json_get config "mcp" with
  | None => Ok McpBridgeConfig_default
  | Some v =>
      match bridge_from_value v with
      | Ok bridge => Ok bridge
      | Err error => Err (UserError ("invalid mcp bridge config: " +:+ error)%string)
      end
  end.

(** A text field, trimmed, when it is not blank. *)
Definition trimmed (v : option string) : option string := v ≫= λ s, if is_empty (trim s) then None else Some (trim s).
Definition validate_config (config : value) : Result unit CliError :=
  if bool_decide (is_Some (trimmed (get_str config "adapter_command"))) || bool_decide (is_Some (trimmed (get_str config "base_url")))
  then Ok tt
  else Err (UserError "mcp runtime requires base_url for the native HTTP bridge or adapter_command for an explicit adapter-backed bridge").
Definition validate_endpoint (endpoint : string) : Result unit CliError :=
  if String.prefix "http://" endpoint || String.prefix "https://" endpoint then Ok tt
  else Err (UserError "mcp runtime requires a base_url starting with http:// or https://").
Definition bridge_endpoint (config : value) : Result string CliError :=
  match trimmed (get_str config "base_url") with
  | None => Err (UserError "mcp runtime requires base_url for the native HTTP bridge")
  | Some base_url =>
      match validate_endpoint base_url with
      | Err e => Err e
      | Ok _ =>
          let path := default "/mcp"%string (trimmed (get_str config "path_template")) in
          let normalized := if String.prefix "/" path then path else ("/" +:+ path)%string in
          Ok (trim_end_slashes base_url +:+ normalized)%string
      end
  end.
Definition bridge_timeout (config : value) (bridge : McpBridgeConfig) : Z :=
  let containment_cap := Z.max (timeout_ms (containment bridge)) 1 in
  let requested := Z.max (default DEFAULT_MCP_BRIDGE_TIMEOUT_MS (json_get config "timeout_ms" ≫= json_as_u64 as_u64)) 1 in
  Z.min requested containment_cap.
(** [{name:?}] of a header name is [quoted name]. *)
Context (quoted : string → string).
Fixpoint headers_of (kvs : list (string * value)) : Result (list (string * string)) CliError :=
  match kvs with
  | [] => Ok []
  | (name, v) :: kvs =>
      match header_name name with
      | Err error => Err (UserError ("invalid mcp header name " +:+ quoted name +:+ ": " +:+ error)%string)
      | Ok n =>
          match json_as_str v with
          | None => Err (UserError ("invalid mcp header value for " +:+ quoted name +:+ ": expected string")%string)
          | Some text =>
              match header_value text with
              | Err error => Err (UserError ("invalid mcp header value for " +:+ quoted name +:+ ": " +:+ error)%string)
              | Ok x => match headers_of kvs with Err e => Err e | Ok rest => Ok ((n, x) :: rest) end
              end
          end
      end
  end.
Definition configured_headers (config : value) : Result (list (string * string)) CliError :=
  headers_of (default [] (json_get config "headers" ≫= json_as_object)).

(** ** Requests *)

Definition extract_tool_name (input : value) : option string :=
  or_else (get_str input "tool_name")
    (or_else (get_str input "name")
       (or_else (value_pointer input "/tool/name" ≫= json_as_str) (value_pointer input "/function/name" ≫= json_as_str))).
Definition is_text (v : option value) (s : string) : bool :=
  match v ≫= json_as_str with Some t => String.eqb t s | None => false end.
Definition normalize_mcp_request (input : value) : Result value CliError :=
  if is_text (json_get input "jsonrpc") "2.0" then Ok input
  else match extract_tool_name input with
       | None => Err (UserError "mcp runtime expects a JSON-RPC request or a tool_name/tool.name field")
       | Some name =>
           let args := default (Obj []) (or_else (json_get input "arguments") (json_get input "input")) in
           Ok (Obj [("id", default (Str "verdictan-mcp") (json_get input "id")); ("jsonrpc", Str "2.0");
                    ("method", Str "tools/call");
                    ("params", Obj [("arguments", args); ("name", Str name)])]%string)
       end.
Definition is_tool_call (request : value) : bool := is_text (json_get request "method") "tools/call".

Definition resolve_tool_action_context (bridge : McpBridgeConfig) (request : value) (session : option McpSessionMeta) :
    Result ToolActionContext CliError :=
  match trimmed (value_pointer request "/params/name" ≫= json_as_str) with
  | None => Err (UserError "mcp tools/call requests require params.name")
  | Some name =>
      let args := default (Obj []) (value_pointer request "/params/arguments") in
      let meta := value_pointer request "/params/_meta" in
      let claimed_actor := meta ≫= λ m,
        or_else (json_get m "verdictan_authenticated_actor") (json_get m "verdictan_agent_id") ≫= json_as_str in
      let actor := default "mcp:unbound"%string
        (or_else (session ≫= session_actor)
           (or_else (session ≫= agent_id) (or_else claimed_actor (bridge_session_id bridge)))) in
      let server := default "mcp:bridge"%string
        (or_else (session ≫= session_server) (meta ≫= λ m, get_str m "verdictan_target_server")) in
      let remaining := default u64_max
        (or_else (session ≫= session_budget)
           (or_else (meta ≫= λ m, json_get m "verdictan_remaining_action_budget" ≫= json_as_u64 as_u64)
              (tool_budget bridge ≫= λ b, b !! name ≫= max_calls))) in
      Ok (mkAction name args actor server remaining)
  end.
Definition decide_action (bridge : McpBridgeConfig) (ctx : ToolActionContext) : ToolActionPreDispatchDecision :=
  evaluate_tool_action_before_dispatch cities sha256_hex compile (λ s, match from_str s with Ok v => Some v | Err _ => None end)
    env from_u64 send (default ToolValidationConfig_default (tool_validation bridge))
    (default ToolSecurityConfig_default (tool_security bridge)) (default ∅ (tool_budget bridge)) ctx.
Definition govern_tool_call_before_dispatch (bridge : McpBridgeConfig) (request : value) (session : option McpSessionMeta) :
    Result (option ToolActionPreDispatchDecision) CliError :=
  if negb (is_tool_call request) then Ok None
  else match resolve_tool_action_context bridge request session with
       | Err e => Err e
       | Ok ctx =>
           let decision := decide_action bridge ctx in
           if pd_allowed decision then Ok (Some decision)
           else Err (UserError ("mcp bridge blocked tool call: " +:+ default "tool_action_denied"%string (pd_reason decision))%string)
       end.

(** [annotate_request], on the entries of [_meta]. *)
Definition insert_opt (key : string) (v : option value) (kvs : list (string * value)) : list (string * value) :=
  match v with Some v => map_insert key v kvs | None => kvs end.
Definition annotate_session (bridge : McpBridgeConfig) (s : McpSessionMeta) (kvs : list (string * value)) : list (string * value) :=
  let kvs := insert_opt "verdictan_session_id" (Str <$> or_else (meta_session_id s) (bridge_session_id bridge)) kvs in
  let kvs := insert_opt "verdictan_conversation_id" (Str <$> conversation_id s) kvs in
  let kvs := insert_opt "verdictan_agent_id" (Str <$> agent_id s) kvs in
  let kvs :=
    match session_actor s, agent_id s with
    | Some actor, _ => map_insert "verdictan_authenticated_actor" (Str actor) kvs
    | None, Some aid =>
        match map_get kvs "verdictan_authenticated_actor" with
        | Some _ => kvs
        | None => map_insert "verdictan_authenticated_actor" (Str aid) kvs
        end
    | None, None => kvs
    end in
  let kvs := insert_opt "verdictan_target_server" (Str <$> session_server s) kvs in
  insert_opt "verdictan_remaining_action_budget" ((λ n, Num (from_u64 n)) <$> session_budget s) kvs.
Definition annotate_decision (d : ToolActionPreDispatchDecision) (kvs : list (string * value)) : list (string * value) :=
  let kvs := map_insert "verdictan_argument_digest" (Str (argument_digest d)) kvs in
  let kvs := map_insert "verdictan_authenticated_actor" (Str (pd_actor d)) kvs in
  let kvs := map_insert "verdictan_target_server" (Str (pd_server d)) kvs in
  map_insert "verdictan_pre_dispatch_decision" (Str "allow") kvs.
Definition annotate_meta (bridge : McpBridgeConfig) (session : option McpSessionMeta)
    (decision : option ToolActionPreDispatchDecision) (kvs : list (string * value)) : list (string * value) :=
  let kvs := map_insert "verdictan_protocol_version" (Str (protocol_version bridge)) kvs in
  let kvs :=
    match session with
    | Some s => annotate_session bridge s kvs
    | None => insert_opt "verdictan_session_id" (Str <$> bridge_session_id bridge) kvs
    end in
  match decision with Some d => annotate_decision d kvs | None => kvs end.
Definition annotate_request (request : value) (bridge : McpBridgeConfig) (session : option McpSessionMeta)
    (decision : option ToolActionPreDispatchDecision) : value :=
  let annotated top params meta :=
    Obj (map_insert "params" (Obj (map_insert "_meta" (Obj (annotate_meta bridge session decision meta)) params)) top) in
  match request, json_get request "params" with
  | Obj top, Some (Obj params) =>
      match map_get params "_meta" with
      | None => annotated top params []
      | Some (Obj meta) => annotated top params meta
      | Some _ => request
      end
  | _, _ => request
  end.
Definition build_request_with_session (config input : value) (session : option McpSessionMeta) : Result value CliError :=
  match parse_bridge_config config with
  | Err e => Err e
  | Ok bridge =>
      match normalize_mcp_request input with
      | Err e => Err e
      | Ok request =>
          match govern_tool_call_before_dispatch bridge request session with
          | Err e => Err e
          | Ok decision => Ok (annotate_request request bridge session decision)
          end
      end
  end.
Definition build_request (config input : value) : Result value CliError := build_request_with_session config input None.

(** ** Calls *)

(** [Value::to_string] of a status, and what the client yields. *)
Context (status_text : Z → string).
Inductive Outcome :=
| BuildFailed (error : string) | TimedOut | RequestFailed (error : string) | BodyFailed (error : string)
| Replied (status : Z) (body : string).
Definition is_success (status : Z) : bool := ((200 <=? status) && (status <? 300))%Z.
Definition bridge_response (o : Outcome) : Result value CliError :=
  match o with
  | BuildFailed e => Err (NetworkError ("failed to build mcp bridge client: " +:+ e)%string)
  | TimedOut => Err (NetworkError "mcp bridge request timed out")
  | RequestFailed e => Err (NetworkError ("mcp bridge request failed: " +:+ e)%string)
  | BodyFailed e => Err (NetworkError ("failed to read mcp bridge response body: " +:+ e)%string)
  | Replied status body =>
      match from_str body with
      | Err e => Err (NetworkError ("mcp bridge returned non-JSON response (status=" +:+ status_text status +:+ "): " +:+ e)%string)
      | Ok parsed =>
          if negb (is_success status) && negb (bool_decide (is_Some (json_get parsed "jsonrpc")))
          then Err (NetworkError ("mcp bridge returned HTTP " +:+ status_text status +:+ ": " +:+ body)%string)
          else Ok parsed
      end
  end.

Definition action_binding_value (d : ToolActionPreDispatchDecision) (outcome : string) (completed failed : Z) : value :=
  Obj [("argument_digest", Str (argument_digest d)); ("authenticated_actor", Str (pd_actor d));
       ("decision", Str (if pd_allowed d then "allow" else "deny")); ("evidence", evidence d); ("outcome", Str outcome);
       ("reason", opt_str (pd_reason d)); ("remaining_action_budget", Num (from_u64 (pd_remaining d)));
       ("target_server", Str (pd_server d)); ("tool_name", Str (pd_tool_name d));
       ("tools_completed", Num (from_u64 completed)); ("tools_failed", Num (from_u64 failed))]%string.
Definition bind_action_to_response (st : McpState) (response : value) (d : ToolActionPreDispatchDecision) (outcome : string) : value :=
  with_object (map_insert "verdictan_mcp_action" (action_binding_value d outcome (completed st) (failed st))) response.

(** A call in flight: where and what it sends, its decision and its permit. *)
Record Call := mkMcpCall {
  call_endpoint : string; call_request : value; call_headers : list (string * string); call_timeout : Z;
  call_decision : option ToolActionPreDispatchDecision; call_permit : option string;
}.
(** [execute_network_call] up to the request, and from the outcome on; the permit is
    dropped when it returns. *)
Definition start_call (st : McpState) (config request : value) : McpState * Result Call CliError :=
  match parse_bridge_config config with
  | Err e => (st, Err e)
  | Ok bridge =>
      match bridge_endpoint config with
      | Err e => (st, Err e)
      | Ok endpoint =>
          match enforce_network_containment (containment bridge) endpoint with
          | Err e => (st, Err e)
          | Ok _ =>
              match govern_tool_call_before_dispatch bridge request None with
              | Err e => (st, Err e)
              | Ok decision =>
                  let '(st, permit) :=
                    if is_tool_call request then
                      let '(st, r) := try_acquire_concurrency st endpoint (max_concurrent_calls (containment bridge)) in
                      (st, match r with Ok permit => Ok (Some permit) | Err e => Err e end)
                    else (st, Ok None) in
                  match permit with
                  | Err e => (st, Err e)
                  | Ok permit =>
                      match configured_headers config with
                      | Err e => (release_opt st permit, Err e)
                      | Ok headers => (st, Ok (mkMcpCall endpoint request headers (bridge_timeout config bridge) decision permit))
                      end
                  end
              end
          end
      end
  end.
Definition failure_note (st : McpState) (e : CliError) (d : ToolActionPreDispatchDecision) : string :=
  (shown e +:+ " [mcp_action actor=" +:+ pd_actor d +:+ " server=" +:+ pd_server d +:+ " digest=" +:+ argument_digest d
   +:+ " decision=allow outcome=failed completed=" +:+ index_text (completed st) +:+ " failed=" +:+ index_text (failed st)
   +:+ "]")%string.
Definition finish_call (st : McpState) (call : Call) (o : Outcome) : McpState * Result value CliError :=
  let '(st, r) :=
    match bridge_response o, call_decision call with
    | Ok parsed, Some d =>
        if bool_decide (is_Some (json_get parsed "error"))
        then let st := record_failed st in (st, Ok (bind_action_to_response st parsed d "failed"))
        else let st := record_completed st in (st, Ok (bind_action_to_response st parsed d "completed"))
    | Ok parsed, None => (st, Ok parsed)
    | Err e, Some d => let st := record_failed st in (st, Err (NetworkError (failure_note st e d)))
    | Err e, None => (st, Err e)
    end in
  (release_opt st (call_permit call), r).

(** ** Answers *)

Definition piece_text (item : value) : option string :=
  match item with
  | Str text => Some text
  | _ => or_else (get_str item "text") (get_str item "content")
  end.
Definition extract_mcp_result_text (result : value) : string :=
  let structured :=
    match json_get result "structuredContent" with
    | None | Some Null => EmptyString
    | Some v => canonical_json_string v
    end in
  match get_str result "text" with
  | Some text => text
  | None =>
      match omap piece_text (default [] (get_array result "content")) with
      | [] => structured
      | pieces => String.concat newline pieces
      end
  end.
Definition mcp_id_fragment (id : value) : string :=
  let text := match id with Str s => s | _ => canonical_json_string id end in
  string_of_list_ascii (List.filter (λ a, negb (Ascii.eqb a "034"%char)) (list_ascii_of_string text)).
Definition with_binding (response translated : value) : value :=
  match json_get response "verdictan_mcp_action" with
  | Some binding => with_object (map_insert "verdictan_mcp_action" binding) translated
  | None => translated
  end.
Definition translate_response (response : value) : value :=
  if negb (is_text (json_get response "jsonrpc") "2.0") then response
  else
    with_binding response
      match json_get response "error" with
      | Some error =>
          Obj [("error", Obj [("code", default (Str "mcp_error") (json_get error "code"));
                              ("message", Str (default "MCP upstream error" (get_str error "message")));
                              ("type", Str "mcp_error")]);
               ("mcp", response)]%string
      | None =>
          let result := default Null (json_get response "result") in
          let content := extract_mcp_result_text result in
          let id := match json_get response "id" with Some id => mcp_id_fragment id | None => "unknown"%string end in
          Obj [("choices",
                  Arr [Obj [("finish_reason", Str "stop"); ("index", Num (from_u64 0));
                            ("message", Obj [("content", if is_empty content then Null else Str content);
                                             ("role", Str "assistant")])]]);
               ("id", Str ("chatcmpl-mcp-" +:+ id)); ("mcp", result); ("object", Str "chat.completion")]%string
      end.

(** ** Splitting texts *)

Fixpoint lacks (c : ascii) (s : string) : bool :=
  match s with String a s => negb (Ascii.eqb a c) && lacks c s | EmptyString => true end.
Lemma split_char_cons c s : ∃ x xs, split_char c s = x :: xs.
Proof.
  induction s as [|a s (x & xs & IH)]; simpl; [eauto|]. destruct (Ascii.eqb a c); [eauto|]. rewrite IH. eauto.
Qed.
Lemma split_char_lacks c s : lacks c s = true → split_char c s = [s].
Proof.
  induction s as [|a s IH]; simpl; [done|]. intros [Ha Hs]%andb_true_iff. apply negb_true_iff in Ha. by rewrite Ha, IH.
Qed.
Lemma before_first_app c s t : lacks c s = true → before_first c (s +:+ String c t) = s.
Proof.
  unfold before_first. induction s as [|a s IH]; simpl; [by rewrite Ascii.eqb_refl|].
  intros [Ha Hs]%andb_true_iff. apply negb_true_iff in Ha. rewrite Ha. specialize (IH Hs).
  destruct (split_char_cons c (s +:+ String c t)) as (x & xs & E). rewrite E in IH |- *. simpl in *. by rewrite IH.
Qed.
Lemma after_last_app c s t : lacks c t = true → after_last c (s +:+ String c t) = t.
Proof.
  intros Ht. unfold after_last.
  assert (Hl : last (split_char c (s +:+ String c t)) = Some t ∧ ∃ x y xs, split_char c (s +:+ String c t) = x :: y :: xs).
  { induction s as [|a s (IH & x & y & xs & E)]; simpl.
    - rewrite Ascii.eqb_refl, split_char_lacks by done. eauto.
    - rewrite E in IH |- *. destruct (Ascii.eqb a c); eauto. }
  by rewrite (proj1 Hl).
Qed.

Lemma lacks_app c s t : lacks c (s +:+ t) = lacks c s && lacks c t.
Proof. induction s as [|a s IH]; simpl; [done|]. by rewrite IH, andb_assoc. Qed.

(** The loopback check can be misled: whatever the host of an endpoint, a query
    that ends in an at sign and [localhost] makes it pass as a loopback address under
    the [isolated] and [egress_restricted] policies, although the host of a URL ends
    at its question mark. *)
Theorem loopback_check_misled (host path : string) (Hhost : lacks "/" host = true) (policy : string)
    (Hpolicy : policy = "isolated"%string ∨ policy = "egress_restricted"%string) (t c : Z) :
  enforce_network_containment (mkContainment policy t c) ("http://" +:+ host +:+ "?@localhost/" +:+ path)%string = Ok tt.
Proof.
  assert (Hl : is_loopback_http_url ("http://" +:+ host +:+ "?@localhost/" +:+ path)%string = true).
  { unfold is_loopback_http_url. change (stripped "http://" _) with (host +:+ "?@localhost/" +:+ path)%string.
    unfold host_is_loopback. destruct (is_empty _) eqn:He; [by destruct host|].
    change (host +:+ "?@localhost/" +:+ path)%string with (host +:+ "?@localhost" +:+ String "/" path)%string.
    rewrite string_append_assoc, before_first_app by (by rewrite lacks_app, Hhost).
    change (host +:+ "?@localhost")%string with (host +:+ "?" +:+ String "@" "localhost")%string.
    rewrite string_append_assoc, after_last_app by done. reflexivity. }
  unfold enforce_network_containment. cbv zeta. rewrite Hl. destruct Hpolicy as [->| ->]; reflexivity.
Qed.

(** ** Calls that interleave *)

(** The calls of the bridge in flight, and the permits of published calls, which
    share the limiters ([acquire_tool_concurrency_permit]). *)
Record System := mkSystem { sys : McpState; in_flight : list Call; published : list string }.
Inductive Event :=
| Start (config request : value) | Finish (i : nat) (o : Outcome)
| Publish (limiter_key : string) (max : Z) | Published (i : nat).
Definition system_step (s : System) (e : Event) : System :=
  match e with
  | Start config request =>
      let '(st, r) := start_call (sys s) config request in
      mkSystem st (match r with Ok call => call :: in_flight s | Err _ => in_flight s end) (published s)
  | Finish i o =>
      match in_flight s !! i with
      | None => s
      | Some call => mkSystem (finish_call (sys s) call o).1 (delete i (in_flight s)) (published s)
      end
  | Publish key max =>
      let '(st, r) := try_acquire_concurrency (sys s) key max in
      mkSystem st (in_flight s) (match r with Ok permit => permit :: published s | Err _ => published s end)
  | Published i =>
      match published s !! i with
      | None => s
      | Some permit => mkSystem (release (sys s) permit) (in_flight s) (delete i (published s))
      end
  end.
Definition idle : System := mkSystem (mkMcp ∅ 0 0) [] [].
Definition held (s : System) : list string := omap call_permit (in_flight s) ++ published s.
Definition holders (l : list string) (name : string) : Z := Z.of_nat (length (filter (λ p, p = name) l)).

(** Every permit is one of a limiter, and is left or held. *)
Definition accounted (limiters : gmap string Z) (l : list string) : Prop :=
  (∀ key max, default (Z.max max 1) (limiters !! limiter_name key max) + holders l (limiter_name key max) = Z.max max 1)%Z
  ∧ (∀ p, p ∈ l → is_Some (limiters !! p)) ∧ (∀ p n, limiters !! p = Some n → 0 ≤ n)%Z.

Lemma lacks_no_colon s : no_colon s = lacks ":" s.
Proof. induction s as [|a s IH]; simpl; [done|]. by rewrite IH. Qed.
Lemma limiter_name_max key max key' max' : limiter_name key max = limiter_name key' max' → Z.max max 1 = Z.max max' 1.
Proof.
  intros Heq. apply (f_equal (after_last ":")) in Heq. unfold limiter_name in Heq.
  change (":" +:+ ?t) with (String ":" t) in Heq.
  rewrite !after_last_app in Heq by (rewrite <- lacks_no_colon; apply index_text_no_colon).
  apply index_text_inj in Heq; lia.
Qed.
Lemma holders_cons p l name : holders (p :: l) name = ((if bool_decide (p = name) then 1 else 0) + holders l name)%Z.
Proof. unfold holders. rewrite filter_cons. case_decide; case_bool_decide; cbn [length]; congruence || lia. Qed.
#[local] Instance holders_proper : Proper ((≡ₚ) ==> (=) ==> (=)) holders.
Proof. intros l k Hp ? ? ->. unfold holders. by rewrite Hp. Qed.
#[local] Instance accounted_proper limiters : Proper ((≡ₚ) ==> iff) (accounted limiters).
Proof. intros l k Hp. unfold accounted. by setoid_rewrite Hp. Qed.

Lemma acquire_accounted st key max l : accounted (limiters st) l →
  let '(st', r) := try_acquire_concurrency st key max in
  accounted (limiters st') (match r with Ok p => p :: l | Err _ => l end)
  ∧ (∀ p, r = Ok p → p = limiter_name key max) ∧ completed st' = completed st ∧ failed st' = failed st.
Proof.
  intros (Hsum & Hin & Hpos). unfold try_acquire_concurrency, available. cbv zeta.
  pose proof (Hsum key max) as Hk. set (left := default _ _) in *.
  assert (0 ≤ left)%Z by (unfold left; destruct (limiters st !! _) eqn:E; cbn; [by eapply Hpos|lia]). destruct (Z.eqb_spec left 0); (split_and!; [|naive_solver|done..]).
  - split_and!; cbn [limiters]; [|intros p Hp; destruct (decide (p = limiter_name key max)) as [->|]; simplify_map_eq; eauto
      |intros p k [[<- <-]|[_ Hp]]%lookup_insert_Some; [lia|by eapply Hpos]].
    intros key' max'. destruct (decide (limiter_name key' max' = limiter_name key max)) as [E|E]; [|rewrite lookup_insert_ne by done; auto].
    rewrite E, lookup_insert_eq. cbn. rewrite (limiter_name_max _ _ _ _ E). done.
  - split_and!; cbn [limiters].
    + intros key' max'. rewrite holders_cons. destruct (decide (limiter_name key max = limiter_name key' max')) as [E|E].
      * rewrite bool_decide_true, <- E, lookup_insert_eq by done. cbn. rewrite <- (limiter_name_max _ _ _ _ E). lia.
      * rewrite bool_decide_false, lookup_insert_ne by done. apply Hsum.
    + intros p [->|Hp]%elem_of_cons; [by rewrite lookup_insert_eq|].
      destruct (decide (p = limiter_name key max)) as [->|]; simplify_map_eq; eauto.
    + intros p k [[<- <-]|[_ Hp]]%lookup_insert_Some; [lia|by eapply Hpos].
Qed.
Lemma release_accounted st p l : accounted (limiters st) (p :: l) → accounted (limiters (release st p)) l.
Proof.
  intros (Hsum & Hin & Hpos). split_and!; cbn [limiters release].
  - intros key max. specialize (Hsum key max). rewrite holders_cons in Hsum.
    destruct (decide (p = limiter_name key max)) as [->|E].
    + rewrite bool_decide_true in Hsum by done. rewrite lookup_alter_eq.
      destruct (Hin (limiter_name key max)) as [n Hn]; [by left|]. rewrite Hn in *. cbn in *. lia.
    + rewrite bool_decide_false in Hsum by done. by rewrite lookup_alter_ne.
  - intros q Hq. destruct (Hin q) as [n Hl]; [by right|]. destruct (decide (p = q)) as [->|].
    + rewrite lookup_alter_eq, Hl. eauto.
    + rewrite lookup_alter_ne by done. eauto.
  - intros q n Hq. apply lookup_alter_Some in Hq as [(<- & m & Hm & ->)|[_ Hq]]; [specialize (Hpos _ _ Hm); lia|by eapply Hpos].
Qed.

(** What a call started with [config] was checked for: the bridge and the endpoint
    are the ones [config] describes, not any others. *)
Definition checked (config : value) (call : Call) : Prop :=
  ∃ bridge, parse_bridge_config config = Ok bridge ∧ bridge_endpoint config = Ok (call_endpoint call)
    ∧ enforce_network_containment (containment bridge) (call_endpoint call) = Ok tt
    ∧ configured_headers config = Ok (call_headers call) ∧ call_timeout call = bridge_timeout config bridge
    ∧ (is_tool_call (call_request call) = true → ∃ ctx,
         resolve_tool_action_context bridge (call_request call) None = Ok ctx
         ∧ call_decision call = Some (decide_action bridge ctx) ∧ pd_allowed (decide_action bridge ctx) = true
         ∧ call_permit call = Some (limiter_name (call_endpoint call) (max_concurrent_calls (containment bridge)))).

Lemma govern_ok bridge request session d : govern_tool_call_before_dispatch bridge request session = Ok d →
  is_tool_call request = true → ∃ ctx, resolve_tool_action_context bridge request session = Ok ctx
    ∧ d = Some (decide_action bridge ctx) ∧ pd_allowed (decide_action bridge ctx) = true.
Proof.
  unfold govern_tool_call_before_dispatch. intros Hg Ht. rewrite Ht in Hg. cbn [negb] in Hg.
  destruct (resolve_tool_action_context bridge request session) as [ctx|err]; [|done]. exists ctx.
  destruct (pd_allowed (decide_action bridge ctx)) eqn:Ha; [|done]. split_and!; [done| |done]. by injection Hg as <-.
Qed.
Lemma start_call_ok st config request l : accounted (limiters st) l →
  let '(st', r) := start_call st config request in
  match r with
  | Ok call => accounted (limiters st') (option_list (call_permit call) ++ l) ∧ call_request call = request ∧ checked config call
  | Err _ => accounted (limiters st') l
  end.
Proof.
  intros Hacc. unfold start_call. destruct (parse_bridge_config config) as [bridge|?] eqn:Hb; [|done].
  destruct (bridge_endpoint config) as [endpoint|?] eqn:He; [|done].
  destruct (enforce_network_containment (containment bridge) endpoint) as [[]|?] eqn:Hc; [|done].
  destruct (govern_tool_call_before_dispatch bridge request None) as [d|?] eqn:Hg; [|done].
  destruct (is_tool_call request) eqn:Ht.
  - pose proof (acquire_accounted st endpoint (max_concurrent_calls (containment bridge)) l Hacc) as Ha.
    destruct (try_acquire_concurrency st endpoint _) as [st' [p|?]]; [|by apply Ha]. destruct Ha as (Ha & Hp & _).
    destruct (configured_headers config) as [headers|?] eqn:Hh; [|by apply release_accounted]. split; [done|]. split; [done|].
    exists bridge. do 5 (split; [done|]). intros _. destruct (govern_ok _ _ _ _ Hg Ht) as (ctx & Hctx & -> & Hallow).
    exists ctx. split_and!; [done..|]. cbn. by rewrite (Hp p eq_refl).
  - destruct (configured_headers config) as [headers|?] eqn:Hh; [|done]. split; [done|]. split; [done|].
    exists bridge. do 5 (split; [done|]). cbn. by rewrite Ht.
Qed.
Lemma finish_limiters st call o : limiters (finish_call st call o).1 = limiters (release_opt st (call_permit call)).
Proof.
  unfold finish_call. destruct (bridge_response o), (call_decision call), (call_permit call); cbn; try done;
    by destruct (bool_decide _).
Qed.
(** The call is the one an event of the history started. *)
Definition started_by (events : list Event) (call : Call) : Prop :=
  ∃ config, Start config (call_request call) ∈ events ∧ checked config call.
Definition system_ok (events : list Event) (s : System) : Prop :=
  accounted (limiters (sys s)) (held s) ∧ Forall (started_by events) (in_flight s).
Lemma bridge_step_ok events s e : e ∈ events → system_ok events s → system_ok events (system_step s e).
Proof.
  intros He [Hacc Hchk]. destruct e as [config request|i o|key max|i]; unfold system_step.
  - pose proof (start_call_ok (sys s) config request (held s) Hacc) as Hs.
    destruct (start_call (sys s) config request) as [st [call|?]]; [|done]. destruct Hs as (Ha & <- & Hc).
    split; [|constructor; [by exists config|done]].
    unfold held in *. cbn [in_flight published sys omap list_omap]. by destruct (call_permit call).
  - destruct (in_flight s !! i) as [call|] eqn:Hi; [|done]. split; cbn [in_flight published sys].
    2:{ by apply Forall_delete. }
    rewrite finish_limiters. unfold held in *. cbn [in_flight published].
    rewrite (delete_Permutation _ _ _ Hi) in Hacc. cbn [omap list_omap] in Hacc.
    destruct (call_permit call) as [p|]; [|done]. by apply release_accounted.
  - pose proof (acquire_accounted (sys s) key max (held s) Hacc) as Ha.
    destruct (try_acquire_concurrency (sys s) key max) as [st [p|?]]; destruct Ha as (Ha & _ & _); (split; [|done]); [|done].
    unfold held in *. cbn [in_flight published sys]. by rewrite <- Permutation_middle.
  - destruct (published s !! i) as [p|] eqn:Hi; [|done]. split; [|done]. unfold held in *. cbn [in_flight published sys].
    rewrite (delete_Permutation _ _ _ Hi), <- Permutation_middle in Hacc. by apply release_accounted.
Qed.

(** C18. Bridged calls are bounded and governed: however calls start and end, and
    however published calls take permits of the same limiters, no limiter has more
    holders than its limit (at least one) and no permit is lost; and every call in
    flight was started by a request of the history, with the endpoint, the headers
    and the timeout of the configuration of that request, whose own containment
    admits the endpoint; if it is a tool call, it was allowed by the decision that
    configuration gives and holds a permit of the endpoint's limiter, with the limit
    of that configuration. *)
Theorem bridge_calls_bounded (events : list Event) (key : string) (max : Z) :
  let s := fold_left system_step events idle in
  (available (sys s) key max + holders (held s) (limiter_name key max) = Z.max max 1
   ∧ holders (held s) (limiter_name key max) ≤ Z.max max 1)%Z
  ∧ ∀ call, call ∈ in_flight s → started_by events call.
Proof.
  intros s. assert (Hok : system_ok events s).
  { unfold s. assert (Hgo : ∀ es s0, es ⊆ events → system_ok events s0 → system_ok events (fold_left system_step es s0)).
    { clear s. induction es as [|e es IH]; intros s0 Hes H0'; [done|]. cbn [fold_left].
      apply IH; [set_solver|]. apply bridge_step_ok; [set_solver|done]. }
    apply Hgo; [done|]. split; [|constructor]. split_and!; [|by intros ? ?%not_elem_of_nil|by intros p n Hp; discriminate Hp].
    intros k m. cbn. by rewrite lookup_empty, Z.add_0_r. }
  destruct Hok as [(Hsum & _ & Hpos) Hchk]. split; [|by rewrite <- Forall_forall]. split; [apply Hsum|].
  specialize (Hsum key max). destruct (limiters (sys s) !! limiter_name key max) as [n|] eqn:Hn; cbn in Hsum; [|lia].
  specialize (Hpos _ _ Hn). lia.
Qed.

(** ** The second evaluation *)

Lemma map_get_insert (key k : string) (v : value) kvs :
  map_get (map_insert key v kvs) k = if String.eqb key k then Some v else map_get kvs k.
Proof.
  unfold map_get, json_get. induction kvs as [|[k' v'] kvs IH]; cbn [map_insert List.find fst].
  - destruct (String.eqb_spec key k); case_bool_decide; done.
  - destruct (String.eqb_spec k' key) as [->|Hne]; cbn [List.find fst].
    + destruct (String.eqb_spec key k); case_bool_decide; done.
    + destruct (String.ltb key k'); cbn [List.find fst].
      * destruct (String.eqb_spec key k); case_bool_decide; done.
      * case_bool_decide as Hk; [|exact IH]. subst k'. destruct (String.eqb_spec key k); [congruence|done].
Qed.
Lemma json_get_insert (key k : string) (v : value) kvs :
  json_get (Obj (map_insert key v kvs)) k = if String.eqb key k then Some v else json_get (Obj kvs) k.
Proof. apply map_get_insert. Qed.
Definition pointer_params (request : value) (key : string) : option value :=
  json_get request "params" ≫= λ params, get_token params key.
Lemma params_pointer kvs key path :
  pointer_tokens path = Some ["params"; key]%string → value_pointer (Obj kvs) path = pointer_params (Obj kvs) key.
Proof.
  intros Hp. unfold value_pointer, pointer_params. rewrite Hp. cbn [mbind option_bind get_at get_token].
  destruct (json_get (Obj kvs) "params") as [params|]; [|done]. cbn. by destruct (get_token params key).
Qed.
(** What resolving a tool call reads of its parameters. *)
Lemma resolve_params bridge kvs params session : json_get (Obj kvs) "params" = Some (Obj params) →
  resolve_tool_action_context bridge (Obj kvs) session =
    match trimmed (map_get params "name" ≫= json_as_str) with
    | None => Err (UserError "mcp tools/call requests require params.name")
    | Some name =>
        let meta := map_get params "_meta" in
        Ok (mkAction name (default (Obj []) (map_get params "arguments"))
          (default "mcp:unbound"%string
             (or_else (session ≫= session_actor) (or_else (session ≫= agent_id)
                (or_else (meta ≫= λ m, or_else (json_get m "verdictan_authenticated_actor") (json_get m "verdictan_agent_id") ≫= json_as_str)
                   (bridge_session_id bridge)))))
          (default "mcp:bridge"%string
             (or_else (session ≫= session_server) (meta ≫= λ m, get_str m "verdictan_target_server")))
          (default u64_max
             (or_else (session ≫= session_budget)
                (or_else (meta ≫= λ m, json_get m "verdictan_remaining_action_budget" ≫= json_as_u64 as_u64)
                   (tool_budget bridge ≫= λ b, b !! name ≫= max_calls)))))
    end.
Proof.
  intros Hparams. unfold resolve_tool_action_context.
  rewrite (params_pointer kvs "name" "/params/name") by reflexivity.
  rewrite (params_pointer kvs "arguments" "/params/arguments") by reflexivity.
  rewrite (params_pointer kvs "_meta" "/params/_meta") by reflexivity.
  unfold pointer_params. rewrite Hparams. cbn [mbind option_bind get_token]. reflexivity.
Qed.
Ltac read_meta :=
  repeat (rewrite json_get_insert;
          match goal with
          | |- context [String.eqb ?a ?b] => let r := eval vm_compute in (String.eqb a b) in change (String.eqb a b) with r
          end; cbv iota).
Lemma insert_opt_get key k v kvs :
  json_get (Obj (insert_opt key v kvs)) k = if String.eqb key k then or_else v (json_get (Obj kvs) k) else json_get (Obj kvs) k.
Proof.
  destruct v as [v|]; cbn [insert_opt or_else]; [apply json_get_insert|]. by destruct (String.eqb key k).
Qed.
Lemma session_budget_get bridge s kvs :
  json_get (Obj (annotate_session bridge s kvs)) "verdictan_remaining_action_budget"
  = or_else ((λ n, Num (from_u64 n)) <$> session_budget s) (json_get (Obj kvs) "verdictan_remaining_action_budget").
Proof.
  unfold annotate_session. cbv zeta. rewrite insert_opt_get, insert_opt_get.
  change (String.eqb "verdictan_remaining_action_budget" _) with true. cbv iota. f_equal.
  change (String.eqb "verdictan_target_server" _) with false. cbv iota.
  assert (Hactor : ∀ kvs' : list (string * value), json_get (Obj
    match session_actor s, agent_id s with
    | Some actor, _ => map_insert "verdictan_authenticated_actor" (Str actor) kvs'
    | None, Some aid =>
        match map_get kvs' "verdictan_authenticated_actor" with
        | Some _ => kvs'
        | None => map_insert "verdictan_authenticated_actor" (Str aid) kvs'
        end
    | None, None => kvs'
    end) "verdictan_remaining_action_budget" = json_get (Obj kvs') "verdictan_remaining_action_budget").
  { intros kvs'. destruct (session_actor s), (agent_id s); try destruct (map_get kvs' _); by rewrite ?json_get_insert. }
  rewrite Hactor, !insert_opt_get. reflexivity.
Qed.
Lemma annotated_meta_get bridge session d kvs :
  let meta := Obj (annotate_meta bridge session (Some d) kvs) in
  json_get meta "verdictan_authenticated_actor" = Some (Str (pd_actor d))
  ∧ json_get meta "verdictan_target_server" = Some (Str (pd_server d))
  ∧ json_get meta "verdictan_argument_digest" = Some (Str (argument_digest d))
  ∧ json_get meta "verdictan_remaining_action_budget"
    = or_else ((λ n, Num (from_u64 n)) <$> (session ≫= session_budget)) (json_get (Obj kvs) "verdictan_remaining_action_budget").
Proof.
  unfold annotate_meta, annotate_decision. cbv zeta. split_and!; read_meta; try reflexivity.
  destruct session as [s|]; [rewrite session_budget_get|rewrite insert_opt_get]; cbn [mbind option_bind]; [f_equal|]; by read_meta.
Qed.

Definition meta_entries (params : list (string * value)) : list (string * value) :=
  match map_get params "_meta" with Some (Obj m) => m | _ => [] end.
Lemma annotate_object bridge session d kvs params :
  json_get (Obj kvs) "params" = Some (Obj params) →
  (∀ m, map_get params "_meta" = Some m → is_Some (json_as_object m)) →
  annotate_request (Obj kvs) bridge session (Some d)
  = Obj (map_insert "params" (Obj (map_insert "_meta" (Obj (annotate_meta bridge session (Some d) (meta_entries params))) params)) kvs).
Proof.
  intros Hparams Hmeta. unfold annotate_request, meta_entries. rewrite Hparams.
  destruct (map_get params "_meta") as [m|]; [|done]. destruct (Hmeta m eq_refl) as [o Ho]. by destruct m.
Qed.

(** The evaluation right before a tool call is sent agrees with the first one:
    when a tool call with parameters, and metadata that is an object or absent, was
    allowed for its session, then the annotated request carries the digest of that
    decision, and judged again, without the session, gets the very same decision. *)
Theorem second_evaluation_agrees (Hnum : ∀ n, u64_ok n → as_u64 (from_u64 n) = Some n)
    (bridge : McpBridgeConfig) (kvs params : list (string * value)) (session : option McpSessionMeta)
    (d : ToolActionPreDispatchDecision) (Hbudget : ∀ n, session ≫= session_budget = Some n → u64_ok n)
    (Hparams : json_get (Obj kvs) "params" = Some (Obj params))
    (Hmeta : ∀ m, map_get params "_meta" = Some m → is_Some (json_as_object m))
    (Hgovern : govern_tool_call_before_dispatch bridge (Obj kvs) session = Ok (Some d)) :
  let request := annotate_request (Obj kvs) bridge session (Some d) in
  govern_tool_call_before_dispatch bridge request None = Ok (Some d)
  ∧ (value_pointer request "/params/_meta" ≫= λ m, json_get m "verdictan_argument_digest") = Some (Str (argument_digest d)).
Proof.
  assert (Ht : is_tool_call (Obj kvs) = true).
  { unfold govern_tool_call_before_dispatch in Hgovern. by destruct (is_tool_call (Obj kvs)). }
  destruct (govern_ok _ _ _ _ Hgovern Ht) as (ctx & Hctx & [= ->] & Hallow).
  set (d := decide_action bridge ctx) in *.
  set (meta0 := meta_entries params).
  set (params' := map_insert "_meta" (Obj (annotate_meta bridge session (Some d) meta0)) params).
  pose proof (annotate_object bridge session d kvs params Hparams Hmeta) as Hreq. fold meta0 params' in Hreq.
  cbv zeta. rewrite Hreq. set (kvs' := map_insert "params" (Obj params') kvs).
  assert (Hp' : json_get (Obj kvs') "params" = Some (Obj params')) by (unfold kvs'; by rewrite json_get_insert).
  assert (Hm' : map_get params' "_meta" = Some (Obj (annotate_meta bridge session (Some d) meta0)))
    by (unfold params'; by rewrite map_get_insert).
  destruct (annotated_meta_get bridge session d meta0) as (Ha & Hs & Hdig & Hb). split.
  2:{ rewrite (params_pointer kvs' "_meta" "/params/_meta") by reflexivity. unfold pointer_params. rewrite Hp'.
      cbn [mbind option_bind get_token]. fold (map_get params' "_meta"). by rewrite Hm'. }
  assert (Hctx' : resolve_tool_action_context bridge (Obj kvs') None = Ok ctx).
  { rewrite (resolve_params bridge kvs params session Hparams) in Hctx.
    rewrite (resolve_params bridge kvs' params' None Hp'), Hm'. unfold params'. rewrite !map_get_insert. cbv zeta.
    change (String.eqb "_meta" "name") with false. change (String.eqb "_meta" "arguments") with false. cbv iota.
    destruct (trimmed _) as [name|]; [|done]. cbv zeta in Hctx. injection Hctx as Hctx.
    cbn [mbind option_bind or_else]. unfold get_str at 1. rewrite Ha, Hs, Hb. cbn [or_else mbind option_bind json_as_str].
    change (pd_actor d) with (authenticated_actor ctx). change (pd_server d) with (target_server ctx).
    rewrite <- Hctx. cbn [authenticated_actor target_server]. do 2 f_equal.
    assert (Hold : (map_get params "_meta" ≫= λ m, json_get m "verdictan_remaining_action_budget" ≫= json_as_u64 as_u64)
      = json_get (Obj meta0) "verdictan_remaining_action_budget" ≫= json_as_u64 as_u64)
      by (unfold meta0, meta_entries; destruct (map_get params "_meta") as [[]|]; reflexivity).
    rewrite Hold. destruct (session ≫= session_budget) as [n|]; [|reflexivity].
    cbn [fmap option_fmap option_map or_else mbind option_bind json_as_u64]. by rewrite Hnum by auto. }
  unfold govern_tool_call_before_dispatch.
  assert (Ht' : is_tool_call (Obj kvs') = true) by (unfold is_tool_call, kvs' in *; by rewrite json_get_insert).
  rewrite Ht', Hctx'. cbn [negb]. fold d. by rewrite Hallow.
Qed.

(** ** What the bridge does not hold *)

(** Metadata that is not an object sheds the actor: a tool call whose [_meta] is,
    say, a text leaves unannotated, and the evaluation before it is sent attributes
    it to the configured session or to nobody, whoever the session authenticated. *)
Theorem opaque_metadata_sheds_actor (bridge : McpBridgeConfig) (kvs params : list (string * value)) (m : value)
    (session : option McpSessionMeta) (d : option ToolActionPreDispatchDecision) (ctx : ToolActionContext)
    (Hparams : json_get (Obj kvs) "params" = Some (Obj params)) (Hm : map_get params "_meta" = Some m)
    (Hopaque : json_as_object m = None)
    (Hctx : resolve_tool_action_context bridge (annotate_request (Obj kvs) bridge session d) None = Ok ctx) :
  annotate_request (Obj kvs) bridge session d = Obj kvs
  ∧ authenticated_actor ctx = default "mcp:unbound"%string (bridge_session_id bridge).
Proof.
  assert (Hsame : annotate_request (Obj kvs) bridge session d = Obj kvs).
  { unfold annotate_request. rewrite Hparams, Hm. by destruct m. }
  split; [done|]. rewrite Hsame, (resolve_params bridge kvs params None Hparams), Hm in Hctx.
  destruct (trimmed _) as [name|]; [|done]. injection Hctx as <-. by destruct m.
Qed.

(** A budget of calls is never spent: the sessions that the gateway builds carry
    no remaining budget, so a tool call without metadata is judged with all of
    its configured calls left, however many were made before; only a budget of zero
    calls denies. *)
Theorem call_budget_never_spent (gateway_session : option GatewaySessionContext) (bridge : McpBridgeConfig)
    (kvs params : list (string * value)) (ctx : ToolActionContext) (limits : ToolBudgetConfig) (n : Z)
    (Hparams : json_get (Obj kvs) "params" = Some (Obj params)) (Hmeta : map_get params "_meta" = None)
    (Hctx : resolve_tool_action_context bridge (Obj kvs) (build_mcp_session_meta gateway_session) = Ok ctx)
    (Hlimits : tool_budget bridge = Some limits) (Hcalls : limits !! tool_name ctx ≫= max_calls = Some n) :
  remaining_action_budget ctx = n
  ∧ budget_flagged (evaluate_action_budget limits (tool_name ctx) (remaining_action_budget ctx)) = bool_decide (n = 0%Z).
Proof.
  assert (Hr : remaining_action_budget ctx = n).
  { rewrite (resolve_params bridge kvs params _ Hparams), Hmeta in Hctx.
    destruct (trimmed _) as [name|]; [|done]. injection Hctx as <-. cbn [remaining_action_budget tool_name] in *.
    rewrite Hlimits. cbn [mbind option_bind] in *. destruct gateway_session; cbn [or_else build_mcp_session_meta fmap option_fmap option_map session_budget];
      by rewrite Hcalls. }
  split; [done|]. unfold evaluate_action_budget. rewrite Hr, Hcalls. cbn [budget_flagged]. rewrite Z.ltb_irrefl, orb_false_r.
  destruct (Z.eqb_spec n 0); case_bool_decide; done.
Qed.
End bridge.

Module DemoBridge.
#[local] Existing Instance JsonModel.json.
#[local] Existing Instance DemoRegex.one.
Definition as_u64 (z : Z) : option Z := if bool_decide (u64_ok z) then Some z else None.
Definition limits : ToolBudgetConfig := {["read"%string := mkLimit None (Some 3%Z)]}.
Definition bridge : McpBridgeConfig :=
  mkBridge default_protocol_version None None None (Some limits) McpContainmentConfig_default.
Definition params : list (string * Value Z) := [("arguments", Obj [("path", Str "a.txt")]); ("name", Str "read")]%string.
Definition call (params : list (string * Value Z)) : list (string * Value Z) :=
  [("id", Num 1%Z); ("jsonrpc", Str "2.0"); ("method", Str "tools/call"); ("params", Obj params)]%string.
Definition opaque_params : list (string * Value Z) := ("_meta", Str "x")%string :: params.
Definition session : option McpSessionMeta := build_mcp_session_meta (Some (mkGatewaySession "s1" (Some "alice"%string) None)).
Definition ctx (actor server : string) : ToolActionContext := mkAction "read" (Obj [("path", Str "a.txt")]%string) actor server 3.
Definition decide (c : ToolActionContext) : ToolActionPreDispatchDecision :=
  decide_action [] (λ s, s) (λ _, None) (λ _, Err EmptyString) (λ _, None) (λ z, z) (λ _, SendFailed EmptyString) bridge c.
End DemoBridge.

Lemma loopback_check_misled_witness :
  enforce_network_containment (mkContainment "isolated" 1 1) "http://evil.example?@localhost/mcp" = Ok tt.
Proof. apply (loopback_check_misled "evil.example" "mcp" eq_refl "isolated" (or_introl eq_refl) 1 1). Defined.

Lemma second_evaluation_agrees_witness :
  govern_tool_call_before_dispatch (H := JsonModel.json) (H0 := DemoRegex.one) [] (λ s, s) DemoBridge.as_u64 (λ _, None)
    (λ _, Err EmptyString) (λ _, None) (λ z, z) (λ _, SendFailed EmptyString) DemoBridge.bridge
    (annotate_request (H := JsonModel.json) (λ z, z) (Obj (DemoBridge.call DemoBridge.params)) DemoBridge.bridge DemoBridge.session
       (Some (DemoBridge.decide (DemoBridge.ctx "alice" "mcp:published")))) None
  = Ok (Some (DemoBridge.decide (DemoBridge.ctx "alice" "mcp:published"))).
Proof.
  apply (second_evaluation_agrees (H := JsonModel.json) (H0 := DemoRegex.one) [] (λ s, s) DemoBridge.as_u64 (λ _, None)
    (λ _, Err EmptyString) (λ _, None) (λ z, z) (λ _, SendFailed EmptyString)) with (params := DemoBridge.params).
  - intros n Hn. unfold DemoBridge.as_u64. by rewrite bool_decide_true.
  - intros n [=].
  - reflexivity.
  - intros m [=].
  - vm_compute. reflexivity.
Defined.

Lemma opaque_metadata_sheds_actor_witness :
  authenticated_actor (DemoBridge.ctx "mcp:unbound" "mcp:bridge") = "mcp:unbound"%string.
Proof.
  apply (opaque_metadata_sheds_actor (H := JsonModel.json) DemoBridge.as_u64 (λ z, z) DemoBridge.bridge
    (DemoBridge.call DemoBridge.opaque_params) DemoBridge.opaque_params (Str "x") DemoBridge.session None
    (DemoBridge.ctx "mcp:unbound" "mcp:bridge")); reflexivity.
Defined.

Lemma call_budget_never_spent_witness :
  budget_flagged (evaluate_action_budget DemoBridge.limits "read" 3) = bool_decide (3%Z = 0%Z).
Proof.
  apply (call_budget_never_spent (H := JsonModel.json) DemoBridge.as_u64
    (Some (mkGatewaySession "s1" (Some "alice"%string) None)) DemoBridge.bridge
    (DemoBridge.call DemoBridge.params) DemoBridge.params (DemoBridge.ctx "alice" "mcp:published")); reflexivity.
Defined.
