(* ===== verification/AuditText.v ===== *)
(** * AuditText: what of a text reaches the audit trail
    (src/src/mcp/audit.rs, the sanitiser)

    Secrets are replaced by a marker before a text is cut to length and sealed.  The
    passes run one after the other over the whole text; each is a loop of the code,
    with fuel that is the length of the text, and [None] is a panic. *)

From Stdlib Require Import ZArith Ascii String.
From stdpp Require Import base strings list.
From S2P Require Import Prelude Text Detection.

#[local] Arguments String.append : simpl nomatch.

Definition MARK : string := "[REDACTED]".
Definition DQUOTE : ascii := "034".

(** Bytes and pieces of a text. *)
Definition byte_at (s : string) (i : nat) : ascii := default "000"%char (String.get i s).
Definition from (s : string) (i : nat) : string := slice s i (String.length s).
(** [replace_range]; [None] when the range leaves the text. *)
Definition replace_range (s : string) (a b : nat) (by_ : string) : option string :=
  if (a <=? b) && (b <=? String.length s) then Some (slice s 0 a +:+ by_ +:+ from s b)%string else None.

(** A White_Space character starts here. *)
Definition ws_here (s : string) : bool :=
  match s with
  | EmptyString => false
  | String a s1 =>
      ws1 a
      || match s1 with
         | EmptyString => false
         | String b s2 => ws2 a b || match s2 with EmptyString => false | String c _ => ws3 a b c end
         end
  end.
Definition head_in (l : list ascii) (s : string) : bool :=
  match s with EmptyString => false | String a _ => existsb (Ascii.eqb a) l end.
(** [find] of a character by a predicate on what starts with it. *)
Fixpoint find_here (f : string → bool) (s : string) : option nat :=
  if f s then Some 0%nat else match s with EmptyString => None | String _ s => S <$> find_here f s end.
(** The end of a secret: white space, a quote, a comma or a brace. *)
Definition token_end (s : string) : nat :=
  default (String.length s) (find_here (λ s, ws_here s || head_in [DQUOTE; ","; "}"]%char s) s).

(** The loop over ["Bearer "] and ["bearer "]. *)
Fixpoint redact_bearer (fuel : nat) (prefix result : string) : string :=
  match fuel with
  | O => result
  | S fuel =>
      match String.index 0 prefix result with
      | None => result
      | Some start =>
          let value_start := (start + String.length prefix)%nat in
          let value_end := (value_start + token_end (from result value_start))%nat in
          redact_bearer fuel prefix (slice result 0 start +:+ MARK +:+ from result value_end)
      end
  end.
(** The loop over the prefixes of API keys, which stops at a prefix with nothing behind it. *)
Fixpoint redact_key_prefix (fuel : nat) (prefix result : string) : string :=
  match fuel with
  | O => result
  | S fuel =>
      match String.index 0 prefix result with
      | None => result
      | Some start =>
          let value_end := (start + token_end (from result start))%nat in
          if (start + String.length prefix <? value_end)%nat
          then redact_key_prefix fuel prefix (slice result 0 start +:+ MARK +:+ from result value_end)
          else result
      end
  end.
Definition KEY_PREFIXES : list string :=
  ["sk-"; "sk_live_"; "sk_test_"; "ghp_"; "gho_"; "glpat-"; "xoxb-"; "xoxp-"; "AKIA"]%string.

(** [redact_email_addresses]. *)
Definition local_char (a : ascii) : bool := is_alnum a || existsb (Ascii.eqb a) ["."; "+"; "-"; "_"]%char.
Definition domain_char (a : ascii) : bool := is_alnum a || existsb (Ascii.eqb a) ["."; "-"]%char.
Fixpoint scan_back (s : string) (last start : nat) : nat :=
  match start with
  | O => O
  | S p => if (last <? start)%nat && local_char (byte_at s p) then scan_back s last p else start
  end.
(** How many bytes of a domain follow, and whether one of them is a dot. *)
Fixpoint scan_domain (s : string) : nat * bool :=
  match s with
  | EmptyString => (0%nat, false)
  | String a s =>
      if domain_char a then let '(n, dot) := scan_domain s in (S n, Ascii.eqb a "." || dot) else (0%nat, false)
  end.
Definition email_step (s : string) (acc : string * nat) (i : nat) : string * nat :=
  let '(out, last) := acc in
  if negb (Ascii.eqb (byte_at s i) "@") then acc
  else
    let start := scan_back s last i in
    let '(n, has_dot) := scan_domain (from s (i + 1)) in
    if (start <? i)%nat && (0 <? n)%nat && has_dot
    then ((out +:+ slice s last start +:+ MARK)%string, (i + 1 + n)%nat) else acc.
Definition redact_email_addresses (s : string) : string :=
  let '(out, last) := fold_left (email_step s) (seq 0 (String.length s)) (EmptyString, 0%nat) in
  (out +:+ from s last)%string.

(** [is_uuid_at] and [redact_path_uuids]. *)
Definition is_hexdigit (a : ascii) : bool :=
  is_digit a || bool_decide (65 ≤ nat_of_ascii a ≤ 70 ∨ 97 ≤ nat_of_ascii a ≤ 102).
Definition is_uuid_at (s : string) (start : nat) : bool :=
  (start + 36 <=? String.length s)%nat
  && forallb (λ offset,
       let b := byte_at s (start + offset) in
       if existsb (Nat.eqb offset) [8; 13; 18; 23]%nat then Ascii.eqb b "-" else is_hexdigit b) (seq 0 36).
Fixpoint redact_spans (here : string → nat → bool) (width : nat) (s : string) (fuel i last : nat) : string :=
  match fuel with
  | O => from s last
  | S fuel =>
      if (i + width <=? String.length s)%nat
      then if here s i
           then (slice s last i +:+ MARK +:+ redact_spans here width s fuel (i + width) (i + width))%string
           else redact_spans here width s fuel (i + 1) last
      else from s last
  end.
Definition uuid_here (s : string) (i : nat) : bool :=
  ((i =? 0)%nat || negb (is_alnum (byte_at s (i - 1))))
  && ((String.length s <=? i + 36)%nat || negb (is_alnum (byte_at s (i + 36)))) && is_uuid_at s i.
Definition redact_path_uuids (s : string) : string := redact_spans uuid_here 36 s (String.length s) 0 0.
(** [is_cc_at] and [redact_credit_card_patterns]. *)
Definition is_cc_at (s : string) (start : nat) (sep : ascii) : bool :=
  (start + 19 <=? String.length s)%nat
  && forallb (λ group,
       let base := (start + group * 5)%nat in
       forallb (λ d, is_digit (byte_at s (base + d))) (seq 0 4)
       && (negb (group <? 3)%nat || Ascii.eqb (byte_at s (base + 4)) sep)) (seq 0 4).
Definition cc_here (s : string) (i : nat) : bool := is_cc_at s i "-" || is_cc_at s i " ".
Definition redact_credit_card_patterns (s : string) : string := redact_spans cc_here 19 s (String.length s) 0 0.

(** [redact_sensitive_key_values]. *)
Definition SENSITIVE_KEY_NAMES : list string := ["password"; "secret"; "token"; "key"; "credential"]%string.
(** The bytes of a string literal after its quote: a backslash skips two, even past the end. *)
Fixpoint literal_length (s : string) : nat :=
  match s with
  | EmptyString => 0
  | String a s1 =>
      if Ascii.eqb a "\" then match s1 with String _ s2 => (2 + literal_length s2)%nat | EmptyString => 2 end
      else if Ascii.eqb a DQUOTE then 1 else S (literal_length s1)
  end.
(** [find] of the first character that is not white space, 0 when there is none:
    white space is skipped character by character, also where it takes several bytes. *)
Definition ws_offset (s : string) : nat :=
  if all_whitespace s then 0%nat else (String.length s - String.length (trim_start s))%nat.
Definition quoted (s : string) : string := (String DQUOTE s +:+ String DQUOTE EmptyString)%string.
Fixpoint redact_key (fuel : nat) (pattern result : string) (search_from : nat) : option string :=
  match fuel with
  | O => Some result
  | S fuel =>
      match String.index 0 pattern (from result search_from) with
      | None => Some result
      | Some rel =>
          let after_key := (search_from + rel + String.length pattern)%nat in
          match find_here (head_in [":"]%char) (from result after_key) with
          | None => redact_key fuel pattern result after_key
          | Some pos =>
              if negb (all_whitespace (slice result after_key (after_key + pos)))
              then redact_key fuel pattern result after_key
              else
                let after_colon := (after_key + pos + 1)%nat in
                let value_start := (after_colon + ws_offset (from result after_colon))%nat in
                if (String.length result <=? value_start)%nat then Some result
                else if head_in [DQUOTE] (from result value_start)
                then let end_ := (value_start + 1 + literal_length (from result (value_start + 1)))%nat in
                     replace_range result value_start end_ (quoted MARK) ≫= λ result,
                       redact_key fuel pattern result (value_start + String.length (quoted MARK))
                else let value_end := (value_start + default (String.length (from result value_start))
                           (find_here (λ s, head_in [","; "}"; "]"]%char s || ws_here s) (from result value_start)))%nat in
                     replace_range result value_start value_end MARK ≫= λ result,
                       redact_key fuel pattern result (value_start + String.length MARK)
          end
      end
  end.
Definition redact_sensitive_key_values (s : string) : option string :=
  fold_left (λ acc name, acc ≫= λ s, redact_key (S (String.length s)) (quoted name) s 0) SENSITIVE_KEY_NAMES (Some s).

(** [sanitize_for_audit]. *)
Definition sanitize_for_audit (text : string) : option string :=
  let bearer := fold_left (λ s prefix, redact_bearer (S (String.length s)) prefix s) ["Bearer "; "bearer "]%string text in
  let keys := fold_left (λ s prefix, redact_key_prefix (S (String.length s)) prefix s) KEY_PREFIXES bearer in
  redact_sensitive_key_values (redact_credit_card_patterns (redact_path_uuids (redact_email_addresses keys))).

(** [truncate] at a character boundary, [summarize_json] of a serialised value, [sealed_summary]. *)
Definition is_boundary (s : string) (i : nat) : bool :=
  (String.length s <=? i)%nat || negb (bool_decide (128 ≤ nat_of_ascii (byte_at s i) < 192)).
Fixpoint boundary_before (s : string) (e : nat) : nat :=
  match e with
  | O => O
  | S p => if is_boundary s e then e else boundary_before s p
  end.
Definition truncate (s : string) (max : nat) : string :=
  if (String.length s <=? max)%nat then s else slice s 0 (boundary_before s max).
Definition summarize_json (s : string) : string :=
  if (256 <? String.length s)%nat then (truncate s 256 +:+ "...")%string else s.
Definition SEALED_SUMMARY_MAX_BYTES : nat := 512.
Definition sealed_summary (text : string) : option string :=
  (λ s, truncate s SEALED_SUMMARY_MAX_BYTES) <$> sanitize_for_audit text.

(** ** Cutting a text *)

Lemma text_app_assoc (a b c : string) : (a +:+ b +:+ c = (a +:+ b) +:+ c)%string.
Proof. induction a; simpl; congruence. Qed.
Lemma text_app_empty (a : string) : (a +:+ EmptyString = a)%string.
Proof. induction a; simpl; congruence. Qed.
Lemma text_length_app (a b : string) : String.length (a +:+ b) = (String.length a + String.length b)%nat.
Proof. induction a; simpl; lia. Qed.
Lemma substring_cut (s : string) a m n :
  String.substring a (m + n) s = (String.substring a m s +:+ String.substring (a + m) n s)%string.
Proof.
  revert a m; induction s as [|c s IH]; intros [|a] m; simpl; [by destruct m| by destruct m| |apply IH].
  destruct m as [|m]; [by destruct n|]. simpl. by rewrite IH.
Qed.
Lemma substring_whole (s : string) n : (String.length s <= n)%nat → String.substring 0 n s = s.
Proof. revert n; induction s as [|c s IH]; intros [|n] Hn; simpl in *; f_equal; try lia; eauto with lia. Qed.
Lemma substring_clip (s : string) a n m :
  (String.length s <= a + n)%nat → (String.length s <= a + m)%nat → String.substring a n s = String.substring a m s.
Proof.
  revert a n m; induction s as [|c s IH]; intros [|a] [|n] [|m] Hn Hm; simpl in *; try done; try lia; try (f_equal; apply IH; lia); apply IH; lia.
Qed.
Lemma from_cut s a b : (a <= b)%nat → from s a = (slice s a b +:+ from s b)%string.
Proof.
  intros Hab. unfold from, slice. rewrite (substring_clip s a _ ((b - a) + String.length s)) by lia.
  rewrite substring_cut. replace (a + (b - a))%nat with b by lia. f_equal. apply substring_clip; lia.
Qed.
Lemma from_0 s : from s 0 = s.
Proof. unfold from, slice. rewrite Nat.sub_0_r. by apply substring_whole. Qed.
Lemma text_cut s a b : (a <= b)%nat → s = (slice s 0 a +:+ slice s a b +:+ from s b)%string.
Proof. intros Hab. rewrite <- (from_cut s a b Hab), <- (from_cut s 0 a) by lia. symmetry. apply from_0. Qed.

(** [String.index] finds the first occurrence. *)
Lemma index_none p s : String.index 0 p s = None → str_contains p s = false.
Proof.
  induction s as [|c s IH]; intros Hi; simpl in *; [by destruct p|].
  destruct (String.prefix p (String c s)) eqn:Hp; simpl in Hp; rewrite Hp in *; [done|].
  destruct (String.index 0 p s); [done|]. rewrite (IH eq_refl). by rewrite orb_false_r.
Qed.
Lemma prefix_spec p s : String.prefix p s = true → ∃ t, s = (p +:+ t)%string.
Proof.
  revert s; induction p as [|c p IH]; intros s Hp; [by exists s|]. destruct s as [|d s]; [done|]. simpl in Hp.
  destruct (ascii_dec c d) as [->|]; [|done]. destruct (IH s Hp) as [t ->]. by exists t.
Qed.
Lemma prefix_app p t : String.prefix p (p +:+ t) = true.
Proof. induction p as [|c p IH]; [by destruct t|]. simpl. by destruct (ascii_dec c c). Qed.
Lemma index_some p s i : String.index 0 p s = Some i → ∃ a t, s = (a +:+ p +:+ t)%string ∧ i = String.length a.
Proof.
  revert i; induction s as [|c s IH]; intros i Hi; simpl in Hi.
  - destruct p; [|done]. simplify_eq. by exists EmptyString, EmptyString.
  - destruct (String.prefix p (String c s)) eqn:Hp; simpl in Hp; rewrite Hp in Hi; simplify_eq.
    + destruct (prefix_spec p (String c s) Hp) as [t Ht]. by exists EmptyString, t.
    + destruct (String.index 0 p s) as [j|] eqn:Hj; [|done]. simplify_eq. destruct (IH j eq_refl) as (a & t & -> & ->).
      by exists (String c a), t.
Qed.
Lemma slice_app_left (a b : string) : slice (a +:+ b) 0 (String.length a) = a.
Proof. unfold slice. rewrite Nat.sub_0_r. induction a; simpl; [by destruct b|congruence]. Qed.
Lemma from_app (a b : string) n : from (a +:+ b) (String.length a + n) = from b n.
Proof.
  unfold from, slice. induction a as [|c a IH]; [done|]. simpl in *. rewrite <- IH. done.
Qed.

(** ** Redacting keeps a text out

    [redacted s t]: [t] is [s] with some of its pieces replaced by marks. *)
Inductive redacted : string → string → Prop :=
| redacted_nil : redacted EmptyString EmptyString
| redacted_keep c s t : redacted s t → redacted (String c s) (String c t)
| redacted_cut x m s t : m = MARK ∨ m = quoted MARK → redacted s t → redacted (x +:+ s) (m +:+ t).
(** [p] and [u] agree as far as both go. *)
Fixpoint clash (p u : string) : bool :=
  match p, u with String a p, String b u => Ascii.eqb a b && clash p u | _, _ => true end.
Fixpoint apart (p m : string) : bool :=
  match m with EmptyString => true | String _ m' => negb (clash p m) && apart p m' end.
(** A text that does not start inside a mark. *)
Definition opens (p : string) : bool := apart p MARK && apart p (quoted MARK).
Definition bracketless (p : string) : bool :=
  forallb (λ a, negb (Ascii.eqb a "[") && negb (Ascii.eqb a DQUOTE)) (list_ascii_of_string p).

Lemma redacted_refl s : redacted s s.
Proof. induction s; by constructor. Qed.
Lemma redacted_app a s t : redacted s t → redacted (a +:+ s) (a +:+ t).
Proof. intros Hr. induction a; [done|]. by constructor. Qed.
Lemma redacted_prefix p s t : bracketless p = true → redacted s t → String.prefix p t = true → String.prefix p s = true.
Proof.
  intros Hb Hr. revert p Hb. induction Hr as [|c s t Hr IH|x m s t Hm Hr IH]; intros p Hb Hp; [done| |].
  - destruct p as [|a p]; [done|]. simpl in *. destruct (ascii_dec a c) as [->|]; [|done].
    apply andb_true_iff in Hb as [_ Hb]. by apply IH.
  - destruct p as [|a p]; [by destruct (x +:+ s)|]. simpl in Hb. apply andb_true_iff in Hb as [Hb _].
    destruct Hm as [->| ->]; cbn in Hp; destruct (ascii_dec _ _) as [->|]; done.
Qed.
Lemma clash_prefix p u t : clash p u = false → String.prefix p (u +:+ t) = false.
Proof.
  revert u; induction p as [|a p IH]; intros [|b u] Hc; try done. cbn in Hc |- *.
  destruct (ascii_dec a b) as [->|]; [|done]. rewrite Ascii.eqb_refl in Hc. by apply IH.
Qed.
Lemma contains_skip p m t : apart p m = true → str_contains p (m +:+ t) = str_contains p t.
Proof.
  induction m as [|c m IH]; intros Hm; [done|]. cbn [apart] in Hm. apply andb_true_iff in Hm as [Hc Hm].
  apply negb_true_iff in Hc. assert (Hp := clash_prefix p (String c m) t Hc).
  cbn [String.append str_contains] in *. by rewrite (IH Hm), Hp.
Qed.
Lemma contains_app p a s : str_contains p s = true → str_contains p (a +:+ s) = true.
Proof. intros Hs. induction a as [|c a IH]; [done|]. cbn [String.append str_contains]. rewrite IH. apply orb_true_r. Qed.
Lemma opens_apart p m : opens p = true → m = MARK ∨ m = quoted MARK → apart p m = true.
Proof. intros [? ?]%andb_true_iff. by intros [->| ->]. Qed.
Lemma redacted_contains p s t :
  opens p = true → bracketless p = true → redacted s t → str_contains p t = true → str_contains p s = true.
Proof.
  intros Ho Hb Hr. induction Hr as [|c s t Hr IH|x m s t Hm Hr IH]; [done| |].
  - cbn [str_contains]. rewrite !orb_true_iff. intros [Hp|Ht]; [left|by right; apply IH].
    apply (redacted_prefix p (String c s) (String c t)); [done|by constructor|done].
  - rewrite (contains_skip p m t (opens_apart p m Ho Hm)). intros Ht. by apply contains_app, IH.
Qed.

(** ** The loops *)

(** How often a text occurs; a step of the loop over bearer tokens removes one. *)
Fixpoint occurrences (p s : string) : nat :=
  match s with
  | EmptyString => 0
  | String _ s' => ((if String.prefix p s then 1 else 0) + occurrences p s')%nat
  end.
Lemma occurrences_length p s : (occurrences p s <= String.length s)%nat.
Proof. induction s as [|c s IH]; [done|]. cbn [occurrences String.length]. destruct (String.prefix _ _); lia. Qed.
Lemma occurrences_app p a s : (occurrences p s <= occurrences p (a +:+ s))%nat.
Proof. induction a as [|c a IH]; [done|]. cbn [String.append occurrences]. destruct (String.prefix _ _); lia. Qed.
Lemma occurrences_skip p m t : apart p m = true → occurrences p (m +:+ t) = occurrences p t.
Proof.
  induction m as [|c m IH]; intros Hm; [done|]. cbn [apart] in Hm. apply andb_true_iff in Hm as [Hc Hm].
  apply negb_true_iff in Hc. assert (Hp := clash_prefix p (String c m) t Hc).
  cbn [String.append occurrences] in *. by rewrite (IH Hm), Hp.
Qed.
Lemma occurrences_redact p a y c :
  opens p = true → bracketless p = true →
  (occurrences p (a +:+ MARK +:+ c) < occurrences p (a +:+ (p +:+ y) +:+ c))%nat.
Proof.
  intros Ho Hb. induction a as [|b a IH].
  - cbn [String.append]. rewrite (occurrences_skip p MARK c) by (apply opens_apart; auto).
    assert (Hp : String.prefix p ((p +:+ y) +:+ c) = true) by (rewrite <- text_app_assoc; apply prefix_app).
    assert (Hle := occurrences_app p (p +:+ y) c). destruct p as [|h p]; [done|].
    assert (Hle' := occurrences_app (String h p) (p +:+ y) c).
    change ((String h p +:+ y) +:+ c)%string with (String h ((p +:+ y) +:+ c)) in *.
    cbn [occurrences]. rewrite Hp. lia.
  - cbn [String.append occurrences].
    destruct (String.prefix p (String b (a +:+ MARK +:+ c))) eqn:Hp; [|lia].
    rewrite (redacted_prefix p (String b (a +:+ (p +:+ y) +:+ c)) (String b (a +:+ MARK +:+ c)) Hb); [lia| |done].
    constructor. apply redacted_app. apply redacted_cut; [by left|apply redacted_refl].
Qed.
(** What a loop cuts starts with an occurrence. *)
Lemma occurrence_cut p s start e :
  String.index 0 p s = Some start → (start + String.length p <= e)%nat →
  ∃ y, s = (slice s 0 start +:+ (p +:+ y) +:+ from s e)%string.
Proof.
  intros Hi He. destruct (index_some p s start Hi) as (a & t & -> & ->).
  assert (∃ n, e = (String.length a + (String.length p + n))%nat) as [n ->] by (exists (e - String.length a - String.length p)%nat; lia).
  rewrite slice_app_left, !from_app. exists (slice t 0 n). rewrite <- text_app_assoc, <- (from_cut t 0) by lia. by rewrite from_0.
Qed.
Lemma redact_bearer_out p fuel s :
  opens p = true → bracketless p = true → (occurrences p s < fuel)%nat → str_contains p (redact_bearer fuel p s) = false.
Proof.
  intros Ho Hb. revert s; induction fuel as [|fuel IH]; intros s Hf; [lia|]. cbn [redact_bearer].
  destruct (String.index 0 p s) as [start|] eqn:Hi; [|by apply index_none]. apply IH.
  destruct (occurrence_cut p s start (start + String.length p + token_end (from s (start + String.length p))) Hi) as [y Hy]; [lia|].
  revert Hf. rewrite Hy at 1.
  pose proof (occurrences_redact p (slice s 0 start) y
    (from s (start + String.length p + token_end (from s (start + String.length p)))) Ho Hb). lia.
Qed.
(** The loop over a key prefix ends without one, or at one with nothing behind it. *)
Definition bare_at (p s : string) : Prop :=
  ∃ start, String.index 0 p s = Some start ∧ (token_end (from s start) <= String.length p)%nat.
Lemma redact_key_prefix_out p fuel s :
  opens p = true → bracketless p = true → (occurrences p s < fuel)%nat →
  str_contains p (redact_key_prefix fuel p s) = false ∨ bare_at p (redact_key_prefix fuel p s).
Proof.
  intros Ho Hb. revert s; induction fuel as [|fuel IH]; intros s Hf; [lia|]. cbn [redact_key_prefix].
  destruct (String.index 0 p s) as [start|] eqn:Hi; [|left; by apply index_none].
  destruct (Nat.ltb_spec (start + String.length p) (start + token_end (from s start))) as [Hlt|Hge].
  - apply IH. destruct (occurrence_cut p s start (start + token_end (from s start)) Hi) as [y Hy]; [lia|].
    revert Hf. rewrite Hy at 1.
    pose proof (occurrences_redact p (slice s 0 start) y (from s (start + token_end (from s start))) Ho Hb). lia.
  - right. exists start. split; [done|lia].
Qed.

(** ** The passes

    A property of texts that marks do not break holds after every pass. *)
Lemma redacted_splice a x m s t : m = MARK ∨ m = quoted MARK → redacted s t → redacted (a +:+ x +:+ s) (a +:+ m +:+ t).
Proof. intros Hm Hr. apply redacted_app. by apply redacted_cut. Qed.
Lemma redacted_range s a b m :
  m = MARK ∨ m = quoted MARK → (a <= b)%nat → redacted s (slice s 0 a +:+ m +:+ from s b).
Proof. intros Hm Hab. rewrite (text_cut s a b Hab) at 1. apply redacted_splice; [done|apply redacted_refl]. Qed.
Lemma redact_spans_redacted here width s fuel i last :
  (last <= i)%nat → redacted (from s last) (redact_spans here width s fuel i last).
Proof.
  revert i last; induction fuel as [|fuel IH]; intros i last Hl; [apply redacted_refl|]. cbn [redact_spans].
  destruct (_ <=? _)%nat; [|apply redacted_refl]. destruct (here s i); [|apply IH; lia].
  rewrite (from_cut s last i Hl), (from_cut s i (i + width)) by lia. apply redacted_splice; [by left|]. by apply IH.
Qed.
Lemma scan_back_le s last i : (scan_back s last i <= i)%nat ∧ (last <= i → last <= scan_back s last i)%nat.
Proof.
  induction i as [|p IH]; [simpl; lia|]. cbn [scan_back]. destruct (Nat.ltb_spec last (S p)); simpl; [|lia].
  destruct (local_char _); lia.
Qed.
Lemma email_redacted s is_ out last :
  (∀ t, redacted (from s last) t → redacted s (out +:+ t)) →
  let '(out, last) := fold_left (email_step s) is_ (out, last) in
  ∀ t, redacted (from s last) t → redacted s (out +:+ t).
Proof.
  revert out last; induction is_ as [|i is_ IH]; intros out last Hinv; [done|]. cbn [fold_left email_step].
  destruct (negb _); [by apply IH|]. destruct (scan_domain _) as [n dot].
  destruct (_ && _ && _) eqn:Hc; [|by apply IH]. apply IH. intros t Ht. rewrite <- !text_app_assoc. apply Hinv.
  apply andb_true_iff in Hc as [[Hc _]%andb_true_iff _]. apply Nat.ltb_lt in Hc.
  destruct (scan_back_le s last i) as [Hb Hlast]. destruct (le_lt_dec last i) as [Hle|Hgt].
  - rewrite (from_cut s last (scan_back s last i)), (from_cut s (scan_back s last i) (i + 1 + n)) by lia.
    apply redacted_splice; [by left|done].
  - exfalso. revert Hc. destruct i as [|i]; [simpl; lia|]. cbn [scan_back].
    destruct (Nat.ltb_spec last (S i)); simpl; lia.
Qed.

Section passes.
Context (I : string → Prop) (marks_keep : ∀ s t, redacted s t → I s → I t).

Lemma range_keeps s a b m : m = MARK ∨ m = quoted MARK → (a <= b)%nat → I s → I (slice s 0 a +:+ m +:+ from s b).
Proof. intros Hm Hab. apply marks_keep. by apply redacted_range. Qed.
Lemma redact_bearer_keeps q fuel s : I s → I (redact_bearer fuel q s).
Proof.
  revert s; induction fuel as [|fuel IH]; intros s Hs; [done|]. cbn [redact_bearer].
  destruct (String.index 0 q s) as [start|]; [|done]. apply IH, range_keeps; [by left|lia|done].
Qed.
Lemma redact_key_prefix_keeps q fuel s : I s → I (redact_key_prefix fuel q s).
Proof.
  revert s; induction fuel as [|fuel IH]; intros s Hs; [done|]. cbn [redact_key_prefix].
  destruct (String.index 0 q s) as [start|]; [|done]. destruct (_ <? _)%nat; [|done].
  apply IH, range_keeps; [by left|lia|done].
Qed.
Lemma email_keeps s : I s → I (redact_email_addresses s).
Proof.
  apply marks_keep. unfold redact_email_addresses.
  assert (He := email_redacted s (seq 0 (String.length s)) EmptyString 0). destruct (fold_left _ _ _) as [out last].
  apply He; [|apply redacted_refl]. intros t. by rewrite from_0.
Qed.
Lemma spans_keep here width n s : I s → I (redact_spans here width s n 0 0).
Proof.
  apply marks_keep. assert (Hr := redact_spans_redacted here width s n 0 0). rewrite from_0 in Hr. by apply Hr.
Qed.
Lemma replace_keeps s a b m u : m = MARK ∨ m = quoted MARK → replace_range s a b m = Some u → I s → I u.
Proof.
  intros Hm. unfold replace_range. destruct (a <=? b)%nat eqn:Hab; [|done]. apply Nat.leb_le in Hab.
  destruct (_ <=? _)%nat; [|done]. cbn [andb]. intros Hu. injection Hu as <-. by apply range_keeps.
Qed.
Lemma redact_key_keeps q fuel s k t : I s → redact_key fuel q s k = Some t → I t.
Proof.
  revert s k; induction fuel as [|fuel IH]; intros s k Hs Hk; cbn [redact_key] in Hk; [congruence|].
  repeat (case_match; simplify_eq; try (by eapply IH); try done);
    apply bind_Some in Hk as (u & Hu & Hk); refine (IH u _ _ Hk); refine (replace_keeps _ _ _ _ _ _ Hu Hs); auto.
Qed.
Lemma prefixes_keep ps s : I s → I (fold_left (λ s prefix, redact_key_prefix (S (String.length s)) prefix s) ps s).
Proof. revert s; induction ps as [|q ps IH]; intros s Hs; [done|]. cbn [fold_left]. by apply IH, redact_key_prefix_keeps. Qed.
(** The passes before the last one. *)
Definition without_tokens (text : string) : string :=
  fold_left (λ s prefix, redact_bearer (S (String.length s)) prefix s) ["Bearer "; "bearer "]%string text.
Definition without_patterns (text : string) : string :=
  redact_credit_card_patterns (redact_path_uuids (redact_email_addresses
    (fold_left (λ s prefix, redact_key_prefix (S (String.length s)) prefix s) KEY_PREFIXES text))).
Lemma patterns_keep s : I s → I (without_patterns s).
Proof. intros Hs. by apply spans_keep, spans_keep, email_keeps, prefixes_keep. Qed.
Lemma keys_keep names s t :
  I s → fold_left (λ acc name, acc ≫= λ s, redact_key (S (String.length s)) (quoted name) s 0) names (Some s) = Some t → I t.
Proof.
  revert s; induction names as [|q names IH]; intros s Hs Ht; [simpl in Ht; congruence|]. cbn [fold_left mbind option_bind] in Ht.
  destruct (redact_key (S (String.length s)) (quoted q) s 0) as [u|] eqn:Hu.
  - apply (IH u); [by eapply redact_key_keeps|done].
  - exfalso. clear -Ht. induction names; [done|]. by apply IHnames.
Qed.
End passes.

Lemma sanitize_passes text : sanitize_for_audit text = redact_sensitive_key_values (without_patterns (without_tokens text)).
Proof. unfold sanitize_for_audit, without_patterns, without_tokens. reflexivity. Qed.
Lemma out_kept p s t : opens p = true → bracketless p = true → redacted s t → str_contains p s = false → str_contains p t = false.
Proof.
  intros Ho Hb Hr Hs. destruct (str_contains p t) eqn:Ht; [|done]. by rewrite (redacted_contains p s t Ho Hb Hr Ht) in Hs.
Qed.

(** A text that does not end with a backslash. *)
Definition open_escape (s : string) : bool := ends_with "\" s.
Lemma redacted_empty s : redacted s EmptyString → s = EmptyString.
Proof. inversion 1 as [| |x m s0 t Hm]; [done|]. destruct Hm as [->| ->]; subst; done. Qed.
Lemma ends_with_cons c a s : s ≠ EmptyString → ends_with c (String a s) = ends_with c s.
Proof. by destruct s. Qed.
Lemma ends_with_suffix c x s : s ≠ EmptyString → ends_with c (x +:+ s) = ends_with c s.
Proof.
  intros Hs. induction x as [|a x IH]; [done|]. cbn [String.append]. rewrite ends_with_cons; [done|].
  by destruct x, s.
Qed.
Lemma open_escape_kept s t : redacted s t → open_escape s = false → open_escape t = false.
Proof.
  unfold open_escape. induction 1 as [|c s t Hr IH|x m s t Hm Hr IH]; [done| |].
  - destruct t as [|b t]; [by rewrite (redacted_empty s Hr)|]. rewrite (ends_with_cons _ c (String b t)) by done.
    intros Hs. apply IH. by destruct s.
  - destruct t as [|b t]; [by destruct Hm as [->| ->]|]. rewrite (ends_with_suffix _ m) by done.
    intros Hs. apply IH. destruct s as [|a s]; [done|]. by rewrite ends_with_suffix in Hs by done.
Qed.
Lemma tokens_open_escape text : open_escape text = false → open_escape (without_tokens text) = false.
Proof.
  intros Ht. unfold without_tokens. cbn [fold_left].
  by do 2 apply (redact_bearer_keeps (λ s, open_escape s = false) open_escape_kept).
Qed.
(** The last pass stays inside the text. *)
Lemma literal_length_le s : open_escape s = false → (literal_length s <= String.length s)%nat.
Proof.
  unfold open_escape. remember (String.length s) as n eqn:Hn. revert s Hn. induction n as [n IH] using lt_wf_ind. intros s -> Hs.
  destruct s as [|a [|b s]]; [done| |].
  - simpl in *. rewrite Hs. by destruct (Ascii.eqb a DQUOTE).
  - rewrite ends_with_cons in Hs by done. cbn [literal_length String.length].
    destruct (Ascii.eqb a "\").
    + assert (Hl : (literal_length s <= String.length s)%nat); [|lia].
      destruct s as [|c s]; [done|]. apply (IH (String.length (String c s))); [simpl; lia|done|done].
    + destruct (Ascii.eqb a DQUOTE); [lia|].
      assert (Hl := IH (String.length (String b s)) ltac:(simpl; lia) (String b s) eq_refl Hs).
      cbn [literal_length String.length] in Hl. lia.
Qed.
Lemma from_open_escape s k : open_escape s = false → open_escape (from s k) = false.
Proof.
  unfold open_escape. intros Hs. destruct (from s k) as [|a t] eqn:Ht; [done|].
  assert (Hc := from_cut s 0 k ltac:(lia)). rewrite from_0, Ht in Hc. rewrite Hc in Hs.
  by rewrite ends_with_suffix in Hs by done.
Qed.
Lemma from_length s k : String.length (from s k) = (String.length s - k)%nat.
Proof.
  unfold from, slice. revert k; induction s as [|c s IH]; intros [|k]; simpl; [done..| |apply IH].
  f_equal. specialize (IH 0%nat). by rewrite Nat.sub_0_r in IH.
Qed.
Lemma find_here_le f s n : find_here f s = Some n → (n <= String.length s)%nat.
Proof.
  revert n; induction s as [|c s IH]; intros n; cbn [find_here]; destruct (f _); intros Hn; simplify_eq; [lia..|].
  apply fmap_Some in Hn as (m & Hm & ->). specialize (IH m Hm). simpl. lia.
Qed.
Lemma redact_key_total q fuel s k : open_escape s = false → is_Some (redact_key fuel q s k).
Proof.
  revert s k; induction fuel as [|fuel IH]; intros s k Hs; cbn [redact_key]; [by eexists|].
  destruct (String.index 0 q (from s k)) as [rel|]; [|by eexists].
  destruct (find_here _ _) as [pos|]; [|by apply IH]. destruct (negb _); [by apply IH|].
  set (vs := (k + rel + String.length q + pos + 1 + _)%nat).
  destruct (Nat.leb_spec (String.length s) vs) as [|Hvs]; [by eexists|].
  assert (Hrep : ∀ e m j, m = MARK ∨ m = quoted MARK → (vs <= e <= String.length s)%nat →
    is_Some (replace_range s vs e m ≫= λ u, redact_key fuel q u j)).
  { intros e m j Hm He. unfold replace_range. destruct (Nat.leb_spec vs e); [|lia].
    destruct (Nat.leb_spec e (String.length s)); [|lia]. cbn [andb mbind option_bind]. apply IH.
    refine (range_keeps (λ s, open_escape s = false) open_escape_kept _ _ _ _ _ _ _); [done|lia|done]. }
  destruct (head_in [DQUOTE] _); apply Hrep; auto.
  - pose proof (literal_length_le (from s (vs + 1)) (from_open_escape _ _ Hs)). rewrite from_length in *. lia.
  - destruct (find_here _ (from s vs)) as [n|] eqn:Hn; cbn [from_option id]; [apply find_here_le in Hn|]; rewrite from_length in *; lia.
Qed.

(** More fuel than bytes left changes nothing. *)
Lemma replace_range_length s a b m u : replace_range s a b m = Some u → (b <= String.length s)%nat →
  (String.length u - (a + String.length m) = String.length s - b)%nat.
Proof.
  unfold replace_range. destruct (Nat.leb_spec a b); [|done]. destruct (Nat.leb_spec b (String.length s)); [|done].
  cbn [andb]. intros Hu Hb. injection Hu as <-. rewrite !text_length_app, from_length.
  assert (String.length (slice s 0 a) = a); [|lia]. assert (Hc := from_cut s 0 a ltac:(lia)). rewrite from_0 in Hc.
  apply (f_equal String.length) in Hc. rewrite text_length_app, from_length in Hc. lia.
Qed.
Lemma redact_key_fuel q n1 n2 s k :
  q ≠ EmptyString → (String.length s - k < n1)%nat → (String.length s - k < n2)%nat →
  redact_key n1 q s k = redact_key n2 q s k.
Proof.
  intros Hq. assert (Hlq : (0 < String.length q)%nat) by (destruct q; simpl; [done|lia]).
  revert n2 s k; induction n1 as [|n1 IH]; intros [|n2] s k H1 H2; [lia..|]. cbn [redact_key].
  destruct (String.index 0 q (from s k)) as [rel|] eqn:Hi; [|done].
  assert (Hk : (k + rel + String.length q <= String.length s)%nat).
  { destruct (index_some q _ rel Hi) as (a & t & Hf & ->). apply (f_equal String.length) in Hf.
    rewrite from_length, !text_length_app in Hf. lia. }
  destruct (find_here _ _) as [pos|]; [|apply IH; lia]. destruct (negb _); [apply IH; lia|].
  set (vs := (k + rel + String.length q + pos + 1 + _)%nat). assert (Hvs : (k < vs)%nat) by lia.
  assert (Hstep : ∀ e m, (replace_range s vs e m ≫= λ u, redact_key n1 q u (vs + String.length m))
                         = (replace_range s vs e m ≫= λ u, redact_key n2 q u (vs + String.length m))).
  { intros e m. destruct (replace_range s vs e m) as [u|] eqn:Hu; [|done].
    assert (Hr : (vs <= e <= String.length s)%nat).
    { revert Hu. unfold replace_range. destruct (Nat.leb_spec vs e); [|done]. destruct (Nat.leb_spec e (String.length s)); [lia|done]. }
    apply replace_range_length in Hu; [|lia]. cbn [mbind option_bind]. apply IH; lia. }
  destruct (_ <=? _)%nat; [done|]. destruct (head_in _ _); apply Hstep.
Qed.
Lemma keys_total names s :
  open_escape s = false →
  is_Some (fold_left (λ acc name, acc ≫= λ s, redact_key (S (String.length s)) (quoted name) s 0) names (Some s)).
Proof.
  revert s; induction names as [|q names IH]; intros s Hs; [by eexists|].
  cbn [fold_left mbind option_bind]. destruct (redact_key_total (quoted q) (S (String.length s)) s 0 Hs) as [u Hu].
  rewrite Hu. apply IH. by eapply (redact_key_keeps (λ s, open_escape s = false) open_escape_kept).
Qed.
Lemma redact_bearer_out_all p s : opens p = true → bracketless p = true → str_contains p (redact_bearer (S (String.length s)) p s) = false.
Proof. intros Ho Hb. apply redact_bearer_out; [done..|]. pose proof (occurrences_length p s). lia. Qed.
Lemma tokens_out text :
  str_contains "Bearer " (without_tokens text) = false ∧ str_contains "bearer " (without_tokens text) = false.
Proof.
  unfold without_tokens. cbn [fold_left]. generalize (redact_bearer_out_all "Bearer " text eq_refl eq_refl).
  generalize (redact_bearer (S (String.length text)) "Bearer " text) as s1. intros s1 H1. split.
  - by apply (redact_bearer_keeps (λ s, str_contains "Bearer " s = false) (λ s t, out_kept "Bearer " s t eq_refl eq_refl)).
  - by apply redact_bearer_out_all.
Qed.
Lemma later_passes_out p s t :
  opens p = true → bracketless p = true → str_contains p s = false →
  redact_sensitive_key_values (without_patterns s) = Some t → str_contains p t = false.
Proof.
  intros Ho Hb Hp. apply (keys_keep (λ s, str_contains p s = false) (λ s t, out_kept p s t Ho Hb)).
  by apply (patterns_keep (λ s, str_contains p s = false) (λ s t, out_kept p s t Ho Hb)).
Qed.

(** ** What a bearer token is

    A token is made of visible characters, none of which ends it; what follows it is
    empty or starts with white space, a quote, a comma or a brace. *)
Definition token_char (a : ascii) : bool :=
  bool_decide (33 ≤ nat_of_ascii a ≤ 126) && negb (existsb (Ascii.eqb a) [DQUOTE; ","; "}"]%char).
Definition token (s : string) : bool := forallb token_char (list_ascii_of_string s).
Definition delimited (s : string) : bool := ws_here s || head_in [DQUOTE; ","; "}"]%char s.
(** A text with tokens behind [p]: its head, then each token with what follows it. *)
Fixpoint with_tokens (p head : string) (segs : list (string * string)) : string :=
  match segs with
  | [] => head
  | (tok, rest) :: segs => (head +:+ p +:+ tok +:+ with_tokens p rest segs)%string
  end.
Fixpoint with_marks (head : string) (segs : list (string * string)) : string :=
  match segs with [] => head | (_, rest) :: segs => (head +:+ MARK +:+ with_marks rest segs)%string end.
Fixpoint segments (p : string) (segs : list (string * string)) : bool :=
  match segs with
  | [] => true
  | (tok, rest) :: segs =>
      token tok && negb (str_contains p rest)
      && (delimited rest || (is_empty rest && match segs with [] => true | _ => false end)) && segments p segs
  end.
Definition free_of (c : ascii) (s : string) : bool := forallb (λ a, negb (Ascii.eqb a c)) (list_ascii_of_string s).

Lemma delimited_app s t : delimited s = true → delimited (s +:+ t) = true.
Proof.
  unfold delimited. destruct s as [|a [|b [|c s]]]; simpl; [done|..]; rewrite ?orb_true_iff; try tauto.
Qed.
Lemma token_char_open a s : token_char a = true → delimited (String a s) = false.
Proof.
  unfold token_char, delimited. intros [Ha Hd]%andb_true_iff. apply bool_decide_eq_true in Ha.
  apply negb_true_iff in Hd. cbn [head_in]. rewrite Hd, orb_false_r.
  unfold nat_of_ascii in Ha. cbn [ws_here]. unfold ws1, ws2, ws3. cbv zeta.
  assert (Hne : ∀ k, (k = 32 ∨ k = 194 ∨ k = 225 ∨ k = 226 ∨ k = 227)%N → (N_of_ascii a =? k)%N = false).
  { intros k Hk. apply N.eqb_neq. lia. }
  rewrite !Hne by tauto. replace (N_of_ascii a <=? 13)%N with false by (symmetry; apply N.leb_gt; lia).
  rewrite andb_false_r. by destruct s as [|b [|c s]].
Qed.
Lemma token_end_token tok s : token tok = true → is_empty s = true ∨ delimited s = true →
  token_end (tok +:+ s) = String.length tok.
Proof.
  intros Ht Hs. unfold token_end. induction tok as [|a tok IH].
  - destruct s as [|c s]; [done|]. destruct Hs as [|Hs]; [done|]. cbn [String.append find_here].
    unfold delimited in Hs. by rewrite Hs.
  - apply andb_true_iff in Ht as [Ha Ht]. specialize (IH Ht). cbn [String.append find_here].
    assert (Ho := token_char_open a (tok +:+ s) Ha). unfold delimited in Ho. rewrite Ho.
    destruct (find_here _ (tok +:+ s)) as [n|]; simpl in IH |- *; by rewrite IH.
Qed.
Lemma prefix_stop q u c t : free_of c q = true → String.prefix q (u +:+ String c t) = true → String.prefix q u = true.
Proof.
  revert u; induction q as [|a q IH]; intros u Hq Hp; [by destruct u|]. apply andb_true_iff in Hq as [Ha Hq].
  destruct u as [|b u]; simpl in *.
  - destruct (ascii_dec a c) as [->|]; [|done]. by rewrite Ascii.eqb_refl in Ha.
  - destruct (ascii_dec a b); [|done]. by apply IH.
Qed.
Lemma contains_stop q u c t :
  q ≠ EmptyString → free_of c q = true → str_contains q (u +:+ String c t) = str_contains q u || str_contains q (String c t).
Proof.
  intros Hne Hq. induction u as [|b u IH]; [by destruct q|]. cbn [String.append str_contains] in *. rewrite IH, orb_assoc. f_equal.
  f_equal. apply Bool.eq_true_iff_eq. split; [apply (prefix_stop q (String b u)); done|].
  intros [v Hv]%prefix_spec. change (String b (u +:+ String c t)) with (String b u +:+ String c t)%string.
  rewrite Hv, <- text_app_assoc. apply prefix_app.
Qed.
(** The first occurrence of a text whose first character does not come back. *)
Lemma index_first c q head t : free_of c q = true → str_contains (String c q) head = false →
  String.index 0 (String c q) (head +:+ String c q +:+ t) = Some (String.length head).
Proof.
  intros Hq. induction head as [|b head IH]; intros Hh.
  - cbn [String.append String.index]. change (String c (q +:+ t)) with (String c q +:+ t)%string. by rewrite prefix_app.
  - cbn [str_contains] in Hh. apply orb_false_iff in Hh as [Hp Hh]. specialize (IH Hh).
    change (String c q +:+ t)%string with (String c (q +:+ t)) in *.
    assert (Hn : String.prefix (String c q) (String b head +:+ String c (q +:+ t)) = false).
    { apply not_true_is_false. intros E. apply (λ H, eq_true_false_abs _ H Hp). clear Hp. revert E.
      cbn [String.append String.prefix]. destruct (ascii_dec c b); [|done]. intros E. by apply (prefix_stop q head c (q +:+ t)). }
    cbn [String.append String.index] in *. by rewrite Hn, IH.
Qed.

(** The loop over a prefix replaces exactly the tokens behind it. *)
Definition scannable (p : string) : bool :=
  match p with EmptyString => false | String c q => free_of c q && free_of "[" p && apart p MARK end.
Lemma with_tokens_head p a head segs : with_tokens p (a +:+ head) segs = (a +:+ with_tokens p head segs)%string.
Proof. destruct segs as [|[tok rest] segs]; cbn [with_tokens]; [done|]. by rewrite <- text_app_assoc. Qed.
Lemma with_marks_head a head segs : with_marks (a +:+ head) segs = (a +:+ with_marks head segs)%string.
Proof. destruct segs as [|[tok rest] segs]; cbn [with_marks]; [done|]. by rewrite <- text_app_assoc. Qed.
Lemma scannable_spec p : scannable p = true →
  free_of "[" p = true ∧ apart p MARK = true ∧ ∃ c q, p = String c q ∧ free_of c q = true.
Proof. destruct p as [|c q]; [done|]. intros [[? ?]%andb_true_iff ?]%andb_true_iff. eauto 6. Qed.
Lemma from_app_whole (a b : string) : from (a +:+ b) (String.length a) = b.
Proof. rewrite <- (Nat.add_0_r (String.length a)), from_app. apply from_0. Qed.
Lemma redact_bearer_step p fuel head tok rest :
  scannable p = true → str_contains p head = false → token tok = true → is_empty rest = true ∨ delimited rest = true →
  redact_bearer (S fuel) p (head +:+ p +:+ tok +:+ rest) = redact_bearer fuel p (head +:+ MARK +:+ rest).
Proof.
  intros (_ & _ & c & q & Hpq & Hc)%scannable_spec Hh Ht Hr.
  assert (Hi : String.index 0 p (head +:+ p +:+ tok +:+ rest) = Some (String.length head)).
  { subst p. by apply index_first. }
  cbn [redact_bearer]. rewrite Hi, slice_app_left. cbv zeta.
  rewrite from_app, from_app_whole, token_end_token by done.
  rewrite <- Nat.add_assoc, from_app, from_app, from_app_whole. done.
Qed.
Lemma contains_marked p head rest : scannable p = true → str_contains p head = false → str_contains p rest = false →
  str_contains p (head +:+ MARK +:+ rest) = false.
Proof.
  intros (Hb & Ha & c & q & Hpq & _)%scannable_spec Hh Hr.
  change (MARK +:+ rest)%string with (String "[" ("REDACTED]" +:+ rest)).
  rewrite contains_stop, Hh by (done || by subst p). 
  change (String "[" ("REDACTED]" +:+ rest)) with (MARK +:+ rest)%string. by rewrite contains_skip, Hr.
Qed.
Lemma contains_self p a t : p ≠ EmptyString → str_contains p (a +:+ p +:+ t) = true.
Proof.
  intros Hp. apply contains_app. assert (Hx := prefix_app p t). destruct p as [|c q]; [done|].
  cbn [String.append str_contains] in *. by rewrite Hx.
Qed.
Lemma redact_bearer_exact p fuel head segs :
  scannable p = true → str_contains p head = false → segments p segs = true → (length segs < fuel)%nat →
  redact_bearer fuel p (with_tokens p head segs) = with_marks head segs.
Proof.
  intros Hp. revert head fuel; induction segs as [|[tok rest] segs IH]; intros head [|fuel] Hh Hs Hf; try (simpl in Hf; lia).
  - cbn [redact_bearer with_tokens with_marks]. destruct (String.index 0 p head) as [i|] eqn:Hi; [|done].
    destruct (index_some p head i Hi) as (a & t & -> & _). rewrite contains_self in Hh; [done|]. by destruct p.
  - cbn [segments] in Hs. rewrite !andb_true_iff, negb_true_iff in Hs. destruct Hs as [[[Ht Hr] Hd] Hs].
    cbn [with_tokens with_marks]. rewrite redact_bearer_step; [|done|done|done|].
    + rewrite text_app_assoc, <- with_tokens_head, <- (text_app_assoc head), IH;
        [by rewrite text_app_assoc, with_marks_head, <- text_app_assoc|by apply contains_marked|done|simpl in Hf; lia].
    + apply orb_true_iff in Hd as [Hd|[He Hl]%andb_true_iff].
      * right. replace rest with (rest +:+ EmptyString)%string by apply text_app_empty. rewrite with_tokens_head. by apply delimited_app.
      * left. destruct segs; [done|by destruct p0].
Qed.
Lemma with_tokens_length p head segs : p ≠ EmptyString → (length segs <= String.length (with_tokens p head segs))%nat.
Proof.
  intros Hp. revert head; induction segs as [|[tok rest] segs IH]; intros head; cbn [with_tokens length]; [lia|].
  rewrite !text_length_app. specialize (IH rest). destruct p; [done|]. cbn [String.length]. lia.
Qed.
(** Two texts that differ in nothing but the tokens behind [p], even in their length. *)
Definition same_but_tokens (p s s' : string) : Prop :=
  ∃ head segs segs', s = with_tokens p head segs ∧ s' = with_tokens p head segs' ∧ map snd segs = map snd segs'
    ∧ str_contains p head = false ∧ segments p segs = true ∧ segments p segs' = true.
Lemma with_marks_rests head segs segs' : map snd segs = map snd segs' → with_marks head segs = with_marks head segs'.
Proof.
  revert head segs'; induction segs as [|[tok rest] segs IH]; intros head [|[tok' rest'] segs'] Hm; simplify_eq/=; [done|].
  by erewrite IH.
Qed.
Lemma redact_bearer_same p s s' : scannable p = true → same_but_tokens p s s' →
  redact_bearer (S (String.length s)) p s = redact_bearer (S (String.length s')) p s'.
Proof.
  intros Hp (head & segs & segs' & -> & -> & Hm & Hh & Hs & Hs'). assert (p ≠ EmptyString) by (by destruct p).
  rewrite !redact_bearer_exact; [by apply with_marks_rests|done..| |done|done|done|]; apply Nat.lt_succ_r; by apply with_tokens_length.
Qed.
(** The text the loop over a prefix starts from. *)
Definition seen_by_loop (p text : string) : string :=
  if String.eqb p "Bearer " then text else redact_bearer (S (String.length text)) "Bearer " text.
Lemma without_tokens_same p s s' : p ∈ ["Bearer "; "bearer "]%string →
  same_but_tokens p (seen_by_loop p s) (seen_by_loop p s') → without_tokens s = without_tokens s'.
Proof.
  unfold without_tokens. cbn [fold_left]. intros [->|[->|[]%not_elem_of_nil]%elem_of_cons]%elem_of_cons Hs; cbn [seen_by_loop String.eqb] in Hs.
  - by rewrite (redact_bearer_same "Bearer " s s' eq_refl Hs).
  - exact (redact_bearer_same "bearer " _ _ eq_refl Hs).
Qed.

(** C26. Bearer tokens do not reach the audit trail.  A text whose tokens are visible
    characters behind the word [Bearer] (or [bearer], in what the loop over the first
    word leaves) and one space, each followed by white space, a quote, a comma, a brace
    or the end, is sanitised to the same text whatever the tokens are and however long:
    the result says nothing about them.  The sanitiser does not panic when the text does
    not end inside an escape, and neither word is left in what it returns. *)
Theorem sanitize_hides_tokens p s s' :
  p ∈ ["Bearer "; "bearer "]%string → same_but_tokens p (seen_by_loop p s) (seen_by_loop p s') → open_escape s = false →
  ∃ t, sanitize_for_audit s = Some t ∧ sanitize_for_audit s' = Some t
    ∧ str_contains "Bearer " t = false ∧ str_contains "bearer " t = false.
Proof.
  intros Hp Hsame He. rewrite !sanitize_passes, <- (without_tokens_same p s s' Hp Hsame).
  assert (Hw := patterns_keep (λ s, open_escape s = false) open_escape_kept _ (tokens_open_escape s He)).
  destruct (keys_total SENSITIVE_KEY_NAMES _ Hw) as [t Ht].
  exists t. split; [exact Ht|]. split; [exact Ht|]. destruct (tokens_out s) as [H1 H2].
  split; eapply later_passes_out; [reflexivity|reflexivity|exact H1|exact Ht|reflexivity|reflexivity|exact H2|exact Ht].
Qed.
Lemma sanitize_hides_tokens_witness :
  let s := "auth: Bearer abc, then Bearer d.e-f again"%string in let s' := "auth: Bearer hunter2, then Bearer x again"%string in
  ∃ t, sanitize_for_audit s = Some t ∧ sanitize_for_audit s' = Some t
    ∧ str_contains "Bearer " t = false ∧ str_contains "bearer " t = false.
Proof.
  apply (sanitize_hides_tokens "Bearer "); [left| |reflexivity].
  exists "auth: "%string, [("abc", ", then "); ("d.e-f", " again")]%string, [("hunter2", ", then "); ("x", " again")]%string.
  split_and!; reflexivity.
Defined.
(** A second space after the word ends the token before it starts, and so does the
    word itself when it is written twice: the token is kept. *)
Theorem spaced_token_is_kept :
  sanitize_for_audit "Authorization: Bearer  hunter2" = Some "Authorization: [REDACTED] hunter2"%string
  ∧ sanitize_for_audit "Authorization: Bearer Bearer hunter2" = Some "Authorization: [REDACTED] hunter2"%string
  ∧ sanitize_for_audit "Authorization: Bearer hunter2" = Some "Authorization: [REDACTED]"%string.
Proof. vm_compute. done. Qed.

(** For every prefix of API keys the loop ends with a text that does not hold the
    prefix, or one whose first occurrence of it has nothing behind it. *)
Theorem key_prefix_exact p s :
  p ∈ KEY_PREFIXES →
  let t := redact_key_prefix (S (String.length s)) p s in str_contains p t = false ∨ bare_at p t.
Proof.
  intros Hp. assert (Hall : Forall (λ p, opens p = true ∧ bracketless p = true) KEY_PREFIXES).
  { unfold KEY_PREFIXES. repeat constructor. }
  rewrite Forall_forall in Hall. destruct (Hall p Hp) as [Ho Hb]. apply redact_key_prefix_out; [done|done|].
  pose proof (occurrences_length p s). lia.
Qed.
Lemma key_prefix_exact_witness :
  let t := redact_key_prefix 20 "sk-" "a sk-b sk-c sk-d xy" in str_contains "sk-" t = false ∨ bare_at "sk-" t.
Proof. apply (key_prefix_exact "sk-" "a sk-b sk-c sk-d xy"). unfold KEY_PREFIXES. left. Defined.
(** The loop over the prefixes of keys stops at the first prefix with nothing behind
    it: every key of that kind after it is kept, although the same key alone is removed. *)
Theorem bare_prefix_hides_nothing :
  sanitize_for_audit "sk- and sk-live-secret" = Some "sk- and sk-live-secret"%string
  ∧ sanitize_for_audit "and sk-live-secret" = Some "and [REDACTED]"%string.
Proof. vm_compute. done. Qed.
(** A literal cut inside an escape makes the last pass leave the text: a panic. *)
Theorem open_escape_panics : sanitize_for_audit (quoted "key" +:+ ":" +:+ String DQUOTE "ab\") = None.
Proof. vm_compute. done. Qed.

(** A summary is at most as long as its bound, starts the text it is cut from, and
    ends at a boundary of characters. *)
Theorem truncate_bounded s max :
  (String.length (truncate s max) <= max)%nat ∧ String.prefix (truncate s max) s = true
  ∧ (is_boundary s (String.length (truncate s max)) = true ∨ truncate s max = EmptyString).
Proof.
  assert (Hb : ∀ e, (boundary_before s e <= e)%nat ∧ (is_boundary s (boundary_before s e) = true ∨ boundary_before s e = 0%nat)).
  { induction e as [|p [IH1 IH2]]; [simpl; auto|]. cbn [boundary_before]. destruct (is_boundary s (S p)) eqn:E; [auto|].
    split; [lia|done]. }
  assert (Hlen : ∀ n, (n <= String.length s)%nat → String.length (slice s 0 n) = n).
  { intros n Hn. pose proof (from_length s n) as Hf. assert (Hc := from_cut s 0 n ltac:(lia)). rewrite from_0 in Hc.
    apply (f_equal String.length) in Hc. rewrite text_length_app in Hc. lia. }
  unfold truncate. destruct (Nat.leb_spec (String.length s) max) as [Hle|Hgt].
  - split; [done|]. split; [rewrite <- (text_app_empty s) at 2; apply prefix_app|]. left. unfold is_boundary.
    by rewrite Nat.leb_refl.
  - destruct (Hb max) as [H1 H2]. rewrite Hlen by lia. split; [done|]. split.
    + assert (Hc := from_cut s 0 (boundary_before s max) ltac:(lia)). rewrite from_0 in Hc. rewrite Hc at 3. apply prefix_app.
    + destruct H2 as [?|H2]; [by left|right]. rewrite H2. by destruct s.
Qed.
