(* ===== verification/SealedOutbox.v ===== *)
(** * SealedOutbox: the durable record of tool effects
    (src/src/mcp/audit.rs)

    Before the effect of a tool call runs, a record of it is durable; after it, its
    sealed payload; and the record is completed when the control plane acknowledges
    it.  Records are lines of a write-ahead log with a checkpoint of the current ones.
    Every operation yields the writes it makes to the two files, so that a crash is a
    prefix of them; renamed files change at once, an appended line may be torn.  I/O that
    fails without a crash is [append_faulty].  One worker serialises the operations, and
    another owner of the files is [second_owner_hides_record].  The serialisers, CRC-32, SHA-256, the sealing
    cipher and the answers of the control plane are arguments. *)

From Stdlib Require Import ZArith Ascii String.
From stdpp Require Import base gmap strings list.
From S2P Require Import Prelude Text Detection AuditText.

#[local] Arguments String.append : simpl nomatch.

(** ** Records *)

Inductive EntryState := Prepared | Dispatched | Completed | Indeterminate.
#[export] Instance EntryState_eq_dec : EqDecision EntryState.
Proof. solve_decision. Defined.
Definition entry_state_str (s : EntryState) : string :=
  match s with
  | Prepared => "prepared" | Dispatched => "dispatched" | Completed => "completed" | Indeterminate => "indeterminate"
  end.
Record OutboxEntry := mkEntry {
  schema : string; record_id : string; execution_idempotency_key : string; intent_id : string;
  region_registry_id : string; append_identity : string; event_kind : string; recipient_generation : Z;
  subject_pseudonym : string; state : EntryState; recipient_public_key_base64url : string; aad_base64url : string;
  expires_at : string; encapsulated_key_base64url : option string; ciphertext_base64url : option string;
  payload_sha256 : option string; created_at : string; checksum : Z;
}.
Definition set_checksum (e : OutboxEntry) (c : Z) : OutboxEntry :=
  mkEntry (schema e) (record_id e) (execution_idempotency_key e) (intent_id e) (region_registry_id e) (append_identity e)
    (event_kind e) (recipient_generation e) (subject_pseudonym e) (state e) (recipient_public_key_base64url e)
    (aad_base64url e) (expires_at e) (encapsulated_key_base64url e) (ciphertext_base64url e) (payload_sha256 e)
    (created_at e) c.
Definition set_state (e : OutboxEntry) (s : EntryState) : OutboxEntry :=
  mkEntry (schema e) (record_id e) (execution_idempotency_key e) (intent_id e) (region_registry_id e) (append_identity e)
    (event_kind e) (recipient_generation e) (subject_pseudonym e) s (recipient_public_key_base64url e)
    (aad_base64url e) (expires_at e) (encapsulated_key_base64url e) (ciphertext_base64url e) (payload_sha256 e)
    (created_at e) (checksum e).
Definition set_sealed (e : OutboxEntry) (encapped ciphertext sha : string) : OutboxEntry :=
  mkEntry (schema e) (record_id e) (execution_idempotency_key e) (intent_id e) (region_registry_id e) (append_identity e)
    (event_kind e) (recipient_generation e) (subject_pseudonym e) (state e) (recipient_public_key_base64url e)
    (aad_base64url e) (expires_at e) (Some encapped) (Some ciphertext) (Some sha) (created_at e) (checksum e).
Definition is_completed (e : OutboxEntry) : bool := bool_decide (state e = Completed).

(** [OutboxState]: the current record of every id, and the ids in order. *)
Record OutboxState := mkOutbox {
  current : gmap string OutboxEntry; order : list string; wal_bytes : Z; wal_records : Z;
}.
Definition OutboxState_default : OutboxState := mkOutbox ∅ [] 0 0.
Definition apply (st : OutboxState) (e : OutboxEntry) : OutboxState :=
  mkOutbox (<[record_id e := e]> (current st))
    (match current st !! record_id e with Some _ => order st | None => order st ++ [record_id e] end)
    (wal_bytes st) (wal_records st).
Definition entries (st : OutboxState) : list OutboxEntry := omap (λ id, current st !! id) (order st).
Definition pending (st : OutboxState) : list OutboxEntry := List.filter (λ e, negb (is_completed e)) (entries st).
Definition MAX_WAL_BYTES : Z := 64 * 1024 * 1024.
Definition should_compact (st : OutboxState) : bool :=
  let tombstones := Z.of_nat (length (List.filter is_completed (map_to_list (current st)).*2)) in
  (MAX_WAL_BYTES <=? wal_bytes st)%Z
  || (0 <? tombstones)%Z && (Z.max (Z.of_nat (size (current st))) 1 <=? 2 * tombstones)%Z.

Record OutboxCheckpoint := mkCheckpoint {
  cp_schema : string; cp_wal_bytes : Z; cp_wal_records : Z; cp_wal_prefix_sha256 : string;
  cp_entries : list OutboxEntry; cp_checksum : Z;
}.
Definition zero_checkpoint (c : OutboxCheckpoint) : OutboxCheckpoint :=
  mkCheckpoint (cp_schema c) (cp_wal_bytes c) (cp_wal_records c) (cp_wal_prefix_sha256 c) (cp_entries c) 0.
Definition OUTBOX_ENTRY_SCHEMA : string := "verdictan-mcp-sealed-outbox/v1".
Definition OUTBOX_CHECKPOINT_SCHEMA : string := "verdictan-mcp-sealed-outbox-checkpoint/v1".

Definition LF : ascii := "010".
Fixpoint one_line (s : string) : bool :=
  match s with String a s => negb (Ascii.eqb a LF) && one_line s | EmptyString => true end.

(** The serialisers: what they print is read back, and a record is one line. *)
Class OutboxCodec := {
  entry_json : OutboxEntry → string;
  parse_entry : string → option OutboxEntry;
  parse_entry_json : ∀ e, parse_entry (entry_json e) = Some e;
  entry_json_line : ∀ e, one_line (entry_json e) = true ∧ entry_json e ≠ EmptyString;
  checkpoint_json : OutboxCheckpoint → string;
  parse_checkpoint : string → option OutboxCheckpoint;
  parse_checkpoint_json : ∀ c, parse_checkpoint (checkpoint_json c) = Some c;
  crc32 : string → Z;
  sha256_hex : string → string;
}.

Section outbox.
Context `{OutboxCodec}.

Definition compute_checksum (e : OutboxEntry) : Z := crc32 (entry_json (set_checksum e 0)).
Definition verify_checksum (e : OutboxEntry) : bool := (compute_checksum e =? checksum e)%Z.
Definition checkpoint_checksum (c : OutboxCheckpoint) : Z := crc32 (checkpoint_json (zero_checkpoint c)).
Definition verify_checkpoint (c : OutboxCheckpoint) : bool := (checkpoint_checksum c =? cp_checksum c)%Z.

(** ** The two files *)

Record Disk := mkDisk { wal : string; checkpoint : option string }.
Inductive DiskWrite := PutWal (s : string) | AppendWal (s : string) | PutCheckpoint (s : string).
Definition do_write (d : Disk) (w : DiskWrite) : Disk :=
  match w with
  | PutWal s => mkDisk s (checkpoint d)
  | AppendWal s => mkDisk (wal d +:+ s) (checkpoint d)
  | PutCheckpoint s => mkDisk (wal d) (Some s)
  end.
Definition do_writes (d : Disk) (ws : list DiskWrite) : Disk := fold_left do_write ws d.
Definition byte_length (s : string) : Z := Z.of_nat (String.length s).
Definition entry_line (e : OutboxEntry) : string := entry_json e +:+ String LF EmptyString.
Definition wal_text (es : list OutboxEntry) : string := foldr (λ e s, entry_line e +:+ s) EmptyString es.

(** [wal_prefix_sha256]; [None] when the log is shorter than what is read of it. *)
Definition wal_prefix_sha256 (wal : string) (through : Z) : option string :=
  let n := Z.to_nat (Z.min through 4096) in
  if (n <=? String.length wal) then Some (sha256_hex (slice wal 0 n)) else None.

(** [read_checkpoint], on the text of the log. *)
Definition insert_all (es : list OutboxEntry) : gmap string OutboxEntry :=
  fold_left (λ m e, <[record_id e := e]> m) es ∅.
Definition read_checkpoint (wal : string) (text : option string) : Result (option OutboxState) string :=
  match text with
  | None => Ok None
  | Some text =>
      match parse_checkpoint text with
      | None => Err "sealed MCP outbox checkpoint is corrupt and requires operator repair"%string
      | Some c =>
          if negb (String.eqb (cp_schema c) OUTBOX_CHECKPOINT_SCHEMA) || negb (verify_checkpoint c)
          then Err "sealed MCP outbox checkpoint failed schema/checksum validation"%string
          else if (byte_length wal <? cp_wal_bytes c)%Z then Ok None
          else match wal_prefix_sha256 wal (cp_wal_bytes c) with
               | None => Err "failed to read sealed MCP WAL prefix"%string
               | Some sha =>
                   if negb (String.eqb (cp_wal_prefix_sha256 c) sha) then Ok None
                   else if negb (forallb verify_checksum (cp_entries c))
                   then Err "sealed MCP outbox checkpoint contains an invalid record checksum"%string
                   else Ok (Some (mkOutbox (insert_all (cp_entries c)) (record_id <$> cp_entries c) (cp_wal_bytes c)
                                    (cp_wal_records c)))
               end
      end
  end.
Fixpoint fold_lines (lines : list string) (st : OutboxState) (folded : Z) : Result (OutboxState * Z) string :=
  match lines with
  | [] => Ok (st, folded)
  | line :: lines =>
      match parse_entry line with
      | None => Err "sealed MCP WAL contains a corrupt record; unresolved effects require operator repair"%string
      | Some e =>
          if negb (verify_checksum e)
          then Err "sealed MCP WAL record checksum mismatch; unresolved effects require operator repair"%string
          else fold_lines lines (apply st e) (sat_add64 folded 1)
      end
  end.
Definition fold_wal_tail (wal : string) (offset : Z) (st : OutboxState) : Result (OutboxState * Z) string :=
  let tail := slice wal (Z.to_nat offset) (String.length wal) in
  if is_empty tail then Ok (st, 0%Z)
  else if negb (ends_with LF tail)
  then Err "sealed MCP WAL has a partial trailing record; unresolved effects require operator repair"%string
  else fold_lines (List.filter (λ line, negb (is_empty line)) (split_char LF tail)) st 0.
Definition load_state (d : Disk) : Result OutboxState string :=
  match read_checkpoint (wal d) (checkpoint d) with
  | Err e => Err e
  | Ok st =>
      let st := default OutboxState_default st in
      match fold_wal_tail (wal d) (wal_bytes st) st with
      | Err e => Err e
      | Ok (st', folded) =>
          Ok (mkOutbox (current st') (order st') (byte_length (wal d)) (sat_add64 (wal_records st') folded))
      end
  end.

(** [persist_checkpoint] of a log that holds what the state says. *)
Definition checkpoint_of (wal : string) (st : OutboxState) : OutboxCheckpoint :=
  let c := mkCheckpoint OUTBOX_CHECKPOINT_SCHEMA (wal_bytes st) (wal_records st)
             (default EmptyString (wal_prefix_sha256 wal (wal_bytes st))) (entries st) 0 in
  mkCheckpoint (cp_schema c) (cp_wal_bytes c) (cp_wal_records c) (cp_wal_prefix_sha256 c) (cp_entries c)
    (checkpoint_checksum c).
Definition persist_checkpoint (wal : string) (st : OutboxState) : DiskWrite := PutCheckpoint (checkpoint_json (checkpoint_of wal st)).
Definition load_state_for_durability (d : Disk) : list DiskWrite * Result OutboxState string :=
  match load_state d with
  | Err e => ([], Err e)
  | Ok st => ([persist_checkpoint (wal d) st], Ok st)
  end.
(** [compact]: the log of the records that are not completed. *)
Definition compact (st : OutboxState) : list DiskWrite * OutboxState :=
  let text := wal_text (pending st) in
  let kept := filter (λ kv, is_completed kv.2 = false) (current st) in
  let st' := mkOutbox kept (List.filter (λ id, bool_decide (is_Some (kept !! id))) (order st)) (byte_length text)
               (Z.of_nat (size kept)) in
  ([PutWal text; persist_checkpoint text st'], st').
Definition append (d : Disk) (st : OutboxState) (entry : OutboxEntry) : list DiskWrite * OutboxState * Result unit string :=
  let entry := set_checksum entry (compute_checksum entry) in
  let line := entry_line entry in
  let '(w1, st1) := if (MAX_WAL_BYTES <? byte_length (wal d) + byte_length line)%Z then compact st else ([], st) in
  let wal1 := wal (do_writes d w1) in
  if (MAX_WAL_BYTES <? byte_length wal1 + byte_length line)%Z
  then (w1, st1, Err "sealed MCP outbox WAL remains at bounded capacity after compaction; refusing to dispatch"%string)
  else
    let wal2 := (wal1 +:+ line)%string in
    let st2 := apply (mkOutbox (current st1) (order st1) (byte_length wal2) (sat_add64 (wal_records st1) 1)) entry in
    let '(w3, st3) := if should_compact st2 then compact st2 else ([], st2) in
    (w1 ++ [AppendWal line; persist_checkpoint wal2 st2] ++ w3, st3, Ok tt).

(** The same operations when an I/O fails without a crash.  A compaction fails before
    its log is installed, after that (its mode or its directory), or at its checkpoint,
    when the memory has already dropped the completed records.  An append fails in its
    first compaction; at the line, of which some bytes may be written (all of them when
    only the sync fails), and the memory is not changed; or at the checkpoint, when it
    is.  A failed last compaction is only logged. *)
Inductive CompactionFault := NotInstalled | NotSynced | NotCheckpointed.
Inductive AppendFault :=
| FirstCompaction (f : CompactionFault) | LineWrite (written : nat) | CheckpointWrite | LastCompaction (f : CompactionFault).
Definition IO_FAILED : string := "failed to write sealed MCP outbox".
Definition compact_faulty (st : OutboxState) (f : CompactionFault) : list DiskWrite * OutboxState :=
  match f with
  | NotInstalled => ([], st)
  | NotSynced => ([PutWal (wal_text (pending st))], st)
  | NotCheckpointed => ([PutWal (wal_text (pending st))], (compact st).2)
  end.
Definition append_faulty (d : Disk) (st : OutboxState) (entry : OutboxEntry) (fault : AppendFault) :
    list DiskWrite * OutboxState * Result unit string :=
  let entry := set_checksum entry (compute_checksum entry) in
  let line := entry_line entry in
  let full := (MAX_WAL_BYTES <? byte_length (wal d) + byte_length line)%Z in
  match fault, full with
  | FirstCompaction f, true => let '(w, st) := compact_faulty st f in (w, st, Err IO_FAILED)
  | _, _ =>
      let '(w1, st1) := if full then compact st else ([], st) in
      let wal1 := wal (do_writes d w1) in
      if (MAX_WAL_BYTES <? byte_length wal1 + byte_length line)%Z
      then (w1, st1, Err "sealed MCP outbox WAL remains at bounded capacity after compaction; refusing to dispatch"%string)
      else
        let wal2 := (wal1 +:+ line)%string in
        let st2 := apply (mkOutbox (current st1) (order st1) (byte_length wal2) (sat_add64 (wal_records st1) 1)) entry in
        match fault with
        | LineWrite written => (w1 ++ [AppendWal (slice line 0 written)], st1, Err IO_FAILED)
        | CheckpointWrite => (w1 ++ [AppendWal line], st2, Err IO_FAILED)
        | FirstCompaction _ =>
            let '(w3, st3) := if should_compact st2 then compact st2 else ([], st2) in
            (w1 ++ [AppendWal line; persist_checkpoint wal2 st2] ++ w3, st3, Ok tt)
        | LastCompaction f =>
            let '(w3, st3) := if should_compact st2 then compact_faulty st2 f else ([], st2) in
            (w1 ++ [AppendWal line; persist_checkpoint wal2 st2] ++ w3, st3, Ok tt)
        end
  end.
End outbox.

(** ** Texts of lines *)

Lemma substring_skip (a b : string) n : String.substring (String.length a) n (a +:+ b) = String.substring 0 n b.
Proof. by induction a. Qed.
Lemma slice_suffix (a b : string) : slice (a +:+ b) (String.length a) (String.length (a +:+ b)) = b.
Proof. unfold slice. rewrite substring_skip, substring_whole; [done|]. rewrite text_length_app. lia. Qed.
Lemma slice_prefix (a b : string) n : (n <= String.length a)%nat → slice (a +:+ b) 0 n = slice a 0 n.
Proof.
  unfold slice. rewrite Nat.sub_0_r. revert n; induction a as [|c a IH]; intros n Hn; simpl in *.
  - assert (n = 0%nat) as -> by lia. by destruct b.
  - destruct n; [done|]. f_equal. apply IH. lia.
Qed.
Lemma ends_with_one_line (s : string) : one_line s = true → ends_with LF s = false.
Proof.
  induction s as [|a s IH]; [done|]. simpl. rewrite andb_true_iff, negb_true_iff. intros [Ha Hs].
  rewrite (IH Hs). by destruct s.
Qed.
Lemma one_line_app (a b : string) : one_line (a +:+ b) = one_line a && one_line b.
Proof. induction a; simpl; [done|]. by rewrite IHa, andb_assoc. Qed.
Lemma split_char_line (s t : string) : one_line s = true → split_char LF (s +:+ String LF t) = s :: split_char LF t.
Proof.
  induction s as [|a s IH]; [by cbn|]. simpl. rewrite andb_true_iff, negb_true_iff. intros [Ha Hs].
  by rewrite Ha, (IH Hs).
Qed.

(** ** The list of the current records

    A state represents a list of records with distinct ids; [apply] is [upsert]. *)

Definition upsert (l : list OutboxEntry) (e : OutboxEntry) : list OutboxEntry :=
  if bool_decide (record_id e ∈ record_id <$> l)
  then (λ x, if bool_decide (record_id x = record_id e) then e else x) <$> l
  else l ++ [e].
Definition by_id (l : list OutboxEntry) : gmap string OutboxEntry := list_to_map ((λ e, (record_id e, e)) <$> l).
Definition represents (st : OutboxState) (l : list OutboxEntry) : Prop :=
  current st = by_id l ∧ order st = record_id <$> l ∧ NoDup (record_id <$> l).

Definition not_completed (l : list OutboxEntry) : list OutboxEntry := List.filter (λ e, negb (is_completed e)) l.

Lemma by_id_keys l : ((λ e, (record_id e, e)) <$> l).*1 = record_id <$> l.
Proof. by rewrite <- list_fmap_compose. Qed.
Lemma by_id_lookup l id e : NoDup (record_id <$> l) → by_id l !! id = Some e ↔ e ∈ l ∧ record_id e = id.
Proof.
  intros Hnd. unfold by_id. rewrite <- elem_of_list_to_map by by rewrite by_id_keys.
  rewrite list_elem_of_fmap. split; [intros (x & ? & ?)|intros [? <-]]; by simplify_eq || eauto.
Qed.
Lemma by_id_none l id : by_id l !! id = None ↔ id ∉ record_id <$> l.
Proof. unfold by_id. by rewrite <- not_elem_of_list_to_map, by_id_keys. Qed.
Lemma nodup_ids_same (l : list OutboxEntry) x y :
  NoDup (record_id <$> l) → x ∈ l → y ∈ l → record_id x = record_id y → x = y.
Proof.
  intros Hnd Hx Hy Heq. enough (Some x = Some y) by congruence.
  transitivity (by_id l !! record_id y); [symmetry|]; by apply by_id_lookup.
Qed.
Lemma omap_by_id l k : NoDup (record_id <$> l) → k ⊆ l → omap (λ id, by_id l !! id) (record_id <$> k) = k.
Proof.
  intros Hnd. induction k as [|e k IH]; intros Hk; [done|]. csimpl.
  assert (by_id l !! record_id e = Some e) as -> by (apply by_id_lookup; [done|split; [apply Hk; left|done]]).
  by rewrite IH by (intros x Hx; apply Hk; by right).
Qed.
Lemma represents_entries st l : represents st l → entries st = l.
Proof. intros (Hc & Ho & Hnd). unfold entries. rewrite Hc, Ho. by apply omap_by_id. Qed.
Lemma represents_pending st l : represents st l → pending st = not_completed l.
Proof. intros Hr. unfold pending. by rewrite (represents_entries _ _ Hr). Qed.

Lemma upsert_ids l e :
  record_id <$> upsert l e = if bool_decide (record_id e ∈ record_id <$> l) then record_id <$> l
                             else (record_id <$> l) ++ [record_id e].
Proof.
  unfold upsert. case_bool_decide; [|by rewrite fmap_app]. rewrite <- list_fmap_compose.
  apply list_fmap_ext. intros i x _. simpl. by case_bool_decide.
Qed.
Lemma upsert_nodup l e : NoDup (record_id <$> l) → NoDup (record_id <$> upsert l e).
Proof.
  intros Hnd. rewrite upsert_ids. case_bool_decide as Hin; [done|]. apply NoDup_app. repeat split; [done| |apply NoDup_singleton].
  intros x Hx Hx'. apply list_elem_of_singleton in Hx'. by subst.
Qed.
Lemma upsert_elem l e x : x ∈ upsert l e ↔ x = e ∨ x ∈ l ∧ record_id x ≠ record_id e.
Proof.
  unfold upsert. case_bool_decide as Hin.
  - rewrite list_elem_of_fmap. split.
    + intros (y & -> & Hy). case_bool_decide; eauto.
    + intros [->|[Hx Hne]].
      * apply list_elem_of_fmap in Hin as (y & Hy & Hl). exists y. by rewrite bool_decide_eq_true_2.
      * exists x. by rewrite bool_decide_eq_false_2.
  - rewrite elem_of_app, list_elem_of_singleton. split; [intros [Hx| ->]; [right|by left]|intros [->|[? _]]; by eauto].
    split; [done|]. intros Heq. apply Hin. rewrite <- Heq. by apply list_elem_of_fmap_2.
Qed.
Lemma represents_apply st l e : represents st l → represents (apply st e) (upsert l e).
Proof.
  intros (Hc & Ho & Hnd). assert (Hnd' := upsert_nodup l e Hnd). repeat split; [| |done]; simpl; rewrite Hc.
  - apply map_eq. intros id. apply option_eq. intros x. rewrite by_id_lookup by done. rewrite upsert_elem.
    rewrite lookup_insert_Some, by_id_lookup by done. split; [intros [[<- <-]|(? & ? & <-)]; by eauto|].
    intros [[->|[Hx Hne]] <-]; eauto.
  - rewrite Ho, upsert_ids. destruct (by_id l !! record_id e) as [x|] eqn:E.
    + rewrite bool_decide_eq_true_2; [done|]. apply by_id_lookup in E as [Hx <-]; [|done]. by apply list_elem_of_fmap_2.
    + rewrite bool_decide_eq_false_2; [done|]. by apply by_id_none.
Qed.
Lemma represents_default : represents OutboxState_default [].
Proof. repeat split. constructor. Qed.

Lemma fold_upsert_represents st l es :
  represents st l → represents (fold_left apply es st) (fold_left upsert es l).
Proof. revert st l; induction es as [|e es IH]; intros st l Hr; [done|]. simpl. by apply IH, represents_apply. Qed.
Lemma fold_upsert_nodup l k : NoDup (record_id <$> (k ++ l)) → fold_left upsert l k = k ++ l.
Proof.
  revert k; induction l as [|e l IH]; intros k Hnd; simpl; [by rewrite app_nil_r|].
  assert (upsert k e = k ++ [e]) as ->.
  { unfold upsert. rewrite bool_decide_eq_false_2; [done|]. rewrite fmap_app in Hnd.
    apply NoDup_app in Hnd as (_ & Hnd & _). intros Hin. apply (Hnd _ Hin). csimpl. by left. }
  rewrite IH; rewrite <- app_assoc; done.
Qed.
Lemma fold_upsert_subset es l x : x ∈ fold_left upsert es l → x ∈ l ∨ x ∈ es.
Proof.
  revert l; induction es as [|e es IH]; intros l; simpl; [by left|]. intros Hx. destruct (IH _ Hx) as [Hu|?].
  - apply upsert_elem in Hu as [->|[? _]]; [right; left|by left].
  - right. by right.
Qed.
Lemma insert_all_by_id l : NoDup (record_id <$> l) → insert_all l = by_id l.
Proof.
  intros Hnd. unfold insert_all.
  assert (Hgen : ∀ k st, represents st k → NoDup (record_id <$> (k ++ l)) →
    fold_left (λ m e, <[record_id e := e]> m) l (current st) = by_id (k ++ l)).
  { clear Hnd. induction l as [|e l IH]; intros k st Hr Hnd; simpl; [rewrite app_nil_r; apply Hr|].
    assert (Hu : upsert k e = k ++ [e]).
    { rewrite <- (fold_upsert_nodup [e] k); [done|]. revert Hnd. rewrite !fmap_app, !NoDup_app. csimpl.
      intros (? & Hd & He). apply NoDup_cons in He as [_ _]. repeat split; [done| |apply NoDup_singleton].
      intros x Hx Hx'. apply list_elem_of_singleton in Hx' as ->. apply (Hd _ Hx). by left. }
    assert (Hr' := represents_apply _ _ e Hr). rewrite Hu in Hr'.
    specialize (IH (k ++ [e]) (apply st e) Hr'). rewrite <- !app_assoc in IH. by apply IH. }
  apply (Hgen [] OutboxState_default represents_default Hnd).
Qed.

(** Compaction keeps the records that are not completed, in their order. *)
Lemma filter_ids_nodup (f : OutboxEntry → bool) l : NoDup (record_id <$> l) → NoDup (record_id <$> List.filter f l).
Proof.
  induction l as [|e l IH]; [done|]. simpl. intros Hnd. apply NoDup_cons in Hnd as [Hni Hnd].
  destruct (f e); [|by apply IH]. csimpl. apply NoDup_cons. split; [|by apply IH].
  intros Hin. apply Hni. apply list_elem_of_fmap in Hin as (x & -> & Hx). apply list_elem_of_fmap_2.
  apply list_elem_of_In, List.filter_In in Hx as [Hx _]. by apply list_elem_of_In.
Qed.
Lemma filter_elem (f : OutboxEntry → bool) l x : x ∈ List.filter f l ↔ x ∈ l ∧ f x = true.
Proof. by rewrite !list_elem_of_In, List.filter_In. Qed.
Lemma kept_by_id l :
  NoDup (record_id <$> l) →
  filter (λ kv, is_completed kv.2 = false) (by_id l) = by_id (List.filter (λ e, negb (is_completed e)) l).
Proof.
  intros Hnd. apply map_eq. intros id. apply option_eq. intros x.
  rewrite map_lookup_filter_Some, by_id_lookup, by_id_lookup, filter_elem by auto using filter_ids_nodup. simpl.
  rewrite negb_true_iff. tauto.
Qed.
Lemma order_kept (f : OutboxEntry → bool) l k :
  NoDup (record_id <$> l) → k ⊆ l →
  List.filter (λ id, bool_decide (is_Some (by_id (List.filter f l) !! id))) (record_id <$> k) = record_id <$> List.filter f k.
Proof.
  intros Hnd. induction k as [|e k IH]; intros Hk; [done|]. csimpl. rewrite IH by (intros x ?; apply Hk; by right).
  assert (He : e ∈ l) by (apply Hk; left). destruct (f e) eqn:Hf.
  - rewrite bool_decide_eq_true_2; [done|]. exists e. apply by_id_lookup; [by apply filter_ids_nodup|].
    split; [by apply filter_elem|done].
  - rewrite bool_decide_eq_false_2; [done|]. intros [x Hx]. apply by_id_lookup in Hx as [Hx Hid]; [|by apply filter_ids_nodup].
    apply filter_elem in Hx as [Hx Hfx]. assert (x = e) by by eapply nodup_ids_same. congruence.
Qed.

(** What compaction writes is shorter than the log, or is the log. *)
Definition weight (f : OutboxEntry → nat) (l : list OutboxEntry) : nat := foldr (λ e n, (f e + n)%nat) 0%nat l.
Lemma weight_app f l k : weight f (l ++ k) = (weight f l + weight f k)%nat.
Proof. induction l; simpl; lia. Qed.
Lemma weight_replace f (l : list OutboxEntry) e :
  NoDup (record_id <$> l) →
  (weight f ((λ x, if bool_decide (record_id x = record_id e) then e else x) <$> l) <= weight f l + f e)%nat
  ∧ (record_id e ∉ record_id <$> l → (λ x, if bool_decide (record_id x = record_id e) then e else x) <$> l = l).
Proof.
  induction l as [|x l IH]; [split; [simpl; lia|done]|]. csimpl. intros Hnd. apply NoDup_cons in Hnd as [Hni Hnd].
  destruct (IH Hnd) as [Hle Hsame]. split.
  - case_bool_decide as Heq; [|lia]. rewrite Hsame by (by rewrite <- Heq). lia.
  - intros Hni'. rewrite bool_decide_eq_false_2, Hsame; [done| |]; set_solver.
Qed.
Lemma upsert_weight f l e :
  (∀ x, (0 < f x)%nat) → NoDup (record_id <$> l) →
  upsert l e = l ++ [e] ∨ (weight f (upsert l e) < weight f l + f e)%nat.
Proof.
  intros Hf Hnd. unfold upsert. case_bool_decide as Hin; [right|by left].
  induction l as [|x l IH]; [by apply not_elem_of_nil in Hin|]; csimpl in *. apply NoDup_cons in Hnd as [Hni Hnd].
  destruct (weight_replace f l e Hnd) as [Hle Hsame].
  case_bool_decide as Heq; [rewrite Hsame by (by rewrite <- Heq); pose proof (Hf x); lia|].
  apply elem_of_cons in Hin as [?|Hin]; [congruence|]. specialize (IH Hnd Hin). lia.
Qed.
Lemma fold_upsert_weight f es :
  (∀ x, (0 < f x)%nat) → fold_left upsert es [] = es ∨ (weight f (fold_left upsert es []) < weight f es)%nat.
Proof.
  intros Hf. assert (Hn : ∀ es, NoDup (record_id <$> fold_left upsert es [])).
  { intros es'. apply (fold_upsert_represents OutboxState_default [] es' represents_default). }
  induction es as [|e es IH] using rev_ind; [by left|]. rewrite fold_left_app, weight_app. simpl.
  destruct (upsert_weight f _ e Hf (Hn es)) as [Hu|Hu].
  - rewrite Hu, weight_app. simpl. destruct IH as [->|?]; [by left|right; lia].
  - right. destruct IH as [E|?]; [rewrite E in Hu |- *|]; lia.
Qed.
Lemma filter_weight g f l : (∀ x, (0 < f x)%nat) → List.filter g l = l ∨ (weight f (List.filter g l) < weight f l)%nat.
Proof.
  intros Hf. induction l as [|e l IH]; [by left|]. simpl. pose proof (Hf e).
  destruct (g e); simpl; destruct IH as [IH|IH]; rewrite ?IH; auto; right; lia.
Qed.

Section durability.
Context `{OutboxCodec}.

Definition line_length (e : OutboxEntry) : nat := String.length (entry_line e).
Definition sealed (e : OutboxEntry) : Prop := verify_checksum e = true.

Lemma line_length_pos e : (0 < line_length e)%nat.
Proof. unfold line_length, entry_line. rewrite text_length_app. simpl. lia. Qed.
Lemma wal_text_app es fs : wal_text (es ++ fs) = (wal_text es +:+ wal_text fs)%string.
Proof. induction es; [done|]. simpl. rewrite IHes. apply text_app_assoc. Qed.
Lemma wal_text_length es : String.length (wal_text es) = weight line_length es.
Proof. induction es; [done|]. simpl. by rewrite text_length_app, IHes. Qed.
Lemma wal_text_lines es :
  List.filter (λ line, negb (is_empty line)) (split_char LF (wal_text es)) = entry_json <$> es.
Proof.
  induction es as [|e es IH]; [done|]. csimpl. destruct (entry_json_line e) as [H1 H2]. unfold entry_line.
  rewrite <- text_app_assoc. simpl. rewrite split_char_line by done. simpl. rewrite IH. by destruct (entry_json e).
Qed.
Lemma wal_text_ends es : is_empty (wal_text es) = false → ends_with LF (wal_text es) = true.
Proof.
  induction es as [|e es IH] using rev_ind; [done|]. intros _. rewrite wal_text_app. simpl. rewrite text_app_empty.
  unfold entry_line. rewrite !ends_with_suffix; [done|done|]. by destruct (entry_json e).
Qed.
Lemma sealed_checksum e : sealed (set_checksum e (compute_checksum e)).
Proof. unfold sealed, verify_checksum. apply Z.eqb_refl. Qed.

(** What loading folds. *)
Lemma fold_lines_sealed es st n :
  Forall sealed es → ∃ m, fold_lines (entry_json <$> es) st n = Ok (fold_left apply es st, m).
Proof.
  intros Hs. revert st n. induction Hs as [|e es He Hs IH]; intros st n; [by eexists|]. csimpl.
  rewrite parse_entry_json. rewrite He. apply IH.
Qed.
Lemma fold_wal_tail_sealed (pre : string) es st :
  Forall sealed es →
  ∃ m, fold_wal_tail (pre +:+ wal_text es) (byte_length pre) st = Ok (fold_left apply es st, m).
Proof.
  intros Hs. unfold fold_wal_tail, byte_length. rewrite Nat2Z.id, slice_suffix.
  destruct (is_empty (wal_text es)) eqn:Hne.
  - destruct es as [|e es]; [by eexists|]. simpl in Hne. unfold entry_line in Hne.
    destruct (entry_json_line e) as [_ Hj]. by destruct (entry_json e).
  - rewrite (wal_text_ends es Hne). cbn [negb]. rewrite wal_text_lines. by apply fold_lines_sealed.
Qed.

(** A checkpoint that the log has outgrown, or that is longer than the log. *)
Definition checkpointed (d : Disk) (es l : list OutboxEntry) : Prop :=
  ∃ st, checkpoint d = Some (checkpoint_json (checkpoint_of (wal_text es) st)) ∧ represents st l
        ∧ wal_bytes st = byte_length (wal_text es).
Lemma read_current_checkpoint d es l (s : string) :
  wal d = (wal_text es +:+ s)%string → checkpointed d es l → Forall sealed l →
  ∃ st, read_checkpoint (wal d) (checkpoint d) = Ok (Some st) ∧ represents st l ∧ wal_bytes st = byte_length (wal_text es).
Proof.
  intros Hw (st & Hc & Hr & Hb) Hs. rewrite Hc, Hw. unfold read_checkpoint.
  rewrite parse_checkpoint_json. unfold verify_checkpoint, checkpoint_checksum.
  cbn [checkpoint_of cp_schema cp_checksum cp_wal_bytes cp_wal_records cp_wal_prefix_sha256 cp_entries zero_checkpoint].
  rewrite String.eqb_refl, Z.eqb_refl. cbn [negb orb]. rewrite Hb. unfold byte_length. rewrite text_length_app.
  destruct (Z.ltb_spec (Z.of_nat (String.length (wal_text es) + String.length (s)))
              (Z.of_nat (String.length (wal_text es)))); [lia|].
  unfold wal_prefix_sha256. set (n := Z.to_nat (Z.min _ 4096)).
  assert (Hn : (n <= String.length (wal_text es))%nat) by lia.
  destruct (Nat.leb_spec n (String.length (wal_text es))); [|lia].
  destruct (Nat.leb_spec n (String.length (wal_text es +:+ s))); [|rewrite text_length_app in *; lia].
  rewrite slice_prefix by done. cbn [from_option id]. rewrite String.eqb_refl. cbn [negb].
  rewrite (represents_entries _ _ Hr). assert (forallb verify_checksum l = true) as ->.
  { apply forallb_forall. intros x Hx. rewrite Forall_forall in Hs. apply Hs. by apply list_elem_of_In. }
  eexists. split; [done|]. destruct Hr as (_ & _ & Hnd). repeat split; [|done]. by apply insert_all_by_id.
Qed.
Lemma load_current d es l fs :
  wal d = wal_text (es ++ fs) → checkpointed d es l → Forall sealed l → Forall sealed fs →
  ∃ st, load_state d = Ok st ∧ represents st (fold_left upsert fs l) ∧ wal_bytes st = byte_length (wal d).
Proof.
  rewrite wal_text_app. intros Hw Hc Hl Hfs. destruct (read_current_checkpoint d es l _ Hw Hc Hl) as (st & Hrd & Hr & Hb).
  unfold load_state. rewrite Hrd. cbn [from_option id]. rewrite Hb, Hw.
  destruct (fold_wal_tail_sealed (wal_text es) fs st Hfs) as (m & ->).
  eexists. split; [done|]. split; [|done]. by apply (fold_upsert_represents st l fs).
Qed.
Lemma load_stale d es l fs :
  wal d = wal_text fs → checkpointed d es l → (String.length (wal_text fs) < String.length (wal_text es))%nat →
  Forall sealed fs →
  ∃ st, load_state d = Ok st ∧ represents st (fold_left upsert fs []) ∧ wal_bytes st = byte_length (wal d).
Proof.
  intros Hw (st & Hc & Hr & Hb) Hlt Hfs. unfold load_state. rewrite Hc, Hw. unfold read_checkpoint.
  rewrite parse_checkpoint_json. unfold verify_checkpoint, checkpoint_checksum.
  cbn [checkpoint_of cp_schema cp_checksum cp_wal_bytes cp_wal_records cp_wal_prefix_sha256 cp_entries zero_checkpoint].
  rewrite String.eqb_refl, Z.eqb_refl. cbn [negb orb]. rewrite Hb. unfold byte_length at 1 2.
  destruct (Z.ltb_spec (Z.of_nat (String.length (wal_text fs))) (Z.of_nat (String.length (wal_text es)))); [|lia].
  cbn [from_option id]. destruct (fold_wal_tail_sealed EmptyString fs OutboxState_default Hfs) as (m & Hm).
  change (EmptyString +:+ wal_text fs)%string with (wal_text fs) in Hm.
  change (wal_bytes OutboxState_default) with (byte_length EmptyString). rewrite Hm.
  eexists. split; [done|]. split; [|done]. apply (fold_upsert_represents _ [] fs represents_default).
Qed.

(** ** Crashes

    The log holds the lines of records that fold to the state, and the checkpoint is
    that of the state. *)
Definition durable (d : Disk) (st : OutboxState) : Prop :=
  ∃ es l, wal d = wal_text es ∧ Forall sealed es ∧ l = fold_left upsert es [] ∧ represents st l
          ∧ wal_bytes st = byte_length (wal d)
          ∧ checkpoint d = Some (checkpoint_json (checkpoint_of (wal d) st)).
(** A crash leaves a prefix of the writes, the last of them perhaps torn if it appends. *)
Inductive crashed : Disk → list DiskWrite → Disk → Prop :=
| crash_here d ws : crashed d ws d
| crash_torn d s1 s2 ws :
    s1 ≠ EmptyString → s2 ≠ EmptyString → crashed d (AppendWal (s1 +:+ s2) :: ws) (do_write d (AppendWal s1))
| crash_later d w ws d' : crashed (do_write d w) ws d' → crashed d (w :: ws) d'.
(** A restart loads the records [l] that are not completed and is durable again. *)
Definition restarts (d : Disk) (l : list OutboxEntry) : Prop :=
  ∃ ws st, load_state_for_durability d = (ws, Ok st) ∧ durable (do_writes d ws) st ∧ pending st = l.
Definition operator_repair : string :=
  "sealed MCP WAL has a partial trailing record; unresolved effects require operator repair".

Lemma fold_upsert_sealed es : Forall sealed es → Forall sealed (fold_left upsert es []).
Proof.
  rewrite !Forall_forall. intros Hs x Hx. apply fold_upsert_subset in Hx as [Hx|Hx]; [by apply not_elem_of_nil in Hx|by apply Hs].
Qed.
Lemma not_completed_sealed l : Forall sealed l → Forall sealed (not_completed l).
Proof. rewrite !Forall_forall. intros Hs x Hx. by apply Hs, (filter_elem (λ e, negb (is_completed e)) l x). Qed.
Lemma load_restarts d st es :
  wal d = wal_text es → Forall sealed es → load_state d = Ok st → represents st (fold_left upsert es []) →
  wal_bytes st = byte_length (wal d) → restarts d (pending st).
Proof.
  intros Hw Hs Hl Hr Hb. unfold restarts, load_state_for_durability. rewrite Hl. eexists _, st. repeat split.
  by exists es, (fold_left upsert es []).
Qed.
Lemma durable_checkpointed d st es :
  wal d = wal_text es → represents st (fold_left upsert es []) → wal_bytes st = byte_length (wal d) →
  checkpoint d = Some (checkpoint_json (checkpoint_of (wal d) st)) → checkpointed d es (fold_left upsert es []).
Proof. intros Hw Hr Hb Hc. exists st. by rewrite <- Hw. Qed.
(** A log that has grown by sealed lines since its checkpoint. *)
Lemma grown_restarts d es fs :
  wal d = wal_text (es ++ fs) → Forall sealed (es ++ fs) → checkpointed d es (fold_left upsert es []) →
  restarts d (not_completed (fold_left upsert (es ++ fs) [])).
Proof.
  intros Hw Hs Hc. pose proof Hs as [Hes Hfs]%Forall_app.
  destruct (load_current d es _ fs Hw Hc (fold_upsert_sealed es Hes) Hfs) as (st & Hl & Hr & Hb).
  rewrite <- fold_left_app in Hr. rewrite <- (represents_pending _ _ Hr). by eapply load_restarts.
Qed.
Lemma durable_restarts d st : durable d st → restarts d (pending st).
Proof.
  intros (es & l & Hw & Hs & -> & Hr & Hb & Hc). rewrite (represents_pending _ _ Hr).
  assert (G := grown_restarts d es []). rewrite app_nil_r in G. apply G; [done..|]. by eapply durable_checkpointed.
Qed.
Lemma crashed_app d ws1 ws2 d' :
  crashed d (ws1 ++ ws2) d' → crashed d ws1 d' ∨ crashed (do_writes d ws1) ws2 d'.
Proof.
  revert d; induction ws1 as [|w ws1 IH]; intros d Hc; [by right|]. simpl in Hc. inversion Hc; subst.
  - left. constructor.
  - left. by constructor.
  - destruct (IH _ H4); [left; by constructor|by right].
Qed.

(** Compaction, interrupted anywhere, keeps the records that are not completed. *)
Lemma compact_represents st l : represents st l → represents (compact st).2 (not_completed l).
Proof.
  intros Hr. pose proof Hr as (Hc & Ho & Hnd). unfold compact, not_completed. cbn [snd]. repeat split; cbn [current order].
  - rewrite Hc. by apply kept_by_id.
  - rewrite Hc, Ho, kept_by_id by done. by apply order_kept.
  - by apply filter_ids_nodup.
Qed.
Lemma not_completed_idem l : not_completed (not_completed l) = not_completed l.
Proof. unfold not_completed. induction l as [|e l IH]; [done|]. simpl. destruct (is_completed e) eqn:E; simpl; rewrite ?E; simpl; congruence. Qed.
Lemma compact_pending d st : durable d st → pending (compact st).2 = pending st.
Proof.
  intros (es & l & _ & _ & _ & Hr & _). rewrite (represents_pending _ _ (compact_represents _ _ Hr)), (represents_pending _ _ Hr).
  apply not_completed_idem.
Qed.
Lemma compact_durable d st : durable d st → durable (do_writes d (compact st).1) (compact st).2.
Proof.
  intros (es & l & Hw & Hs & Hl & Hr & Hb & Hc). assert (Hr' := compact_represents _ _ Hr).
  exists (pending st), (not_completed l). assert (Hp := represents_pending _ _ Hr).
  rewrite Hp.
  repeat split; try apply Hr'; try done.
  - unfold compact. cbn. by rewrite Hp.
  - apply not_completed_sealed. subst l. by apply fold_upsert_sealed.
  - symmetry. apply (fold_upsert_nodup _ []). apply Hr'.
Qed.
Lemma compaction_shrinks es :
  not_completed (fold_left upsert es []) = es
  ∨ (weight line_length (not_completed (fold_left upsert es [])) < weight line_length es)%nat.
Proof.
  destruct (filter_weight (λ e, negb (is_completed e)) line_length (fold_left upsert es []) line_length_pos) as [E|Hlt];
    fold (not_completed (fold_left upsert es [])) in *;
    destruct (fold_upsert_weight line_length es line_length_pos) as [E'|?]; rewrite ?E in *; [by left|by right|..]; right; [|lia].
  by rewrite E' in Hlt |- *.
Qed.
Lemma compact_crash d st d' : durable d st → crashed d (compact st).1 d' → restarts d' (pending st).
Proof.
  intros Hd Hcr. assert (Hfull := compact_durable d st Hd). assert (Hpend := compact_pending d st Hd).
  inversion Hcr as [| |? ? ? ? Hcr1]; subst; [by apply durable_restarts|].
  inversion Hcr1 as [| |? ? ? ? Hcr2]; subst.
  - pose proof Hd as (es & l & Hw & Hs & -> & Hr & Hb & Hc). assert (Hp := represents_pending _ _ Hr).
    assert (Hlen := compaction_shrinks es). rewrite <- Hp in Hlen.
    destruct Hlen as [E|Hlt].
    + replace (do_write d _) with d; [by apply durable_restarts|]. rewrite E, <- Hw. by destruct d.
    + assert (Hsp : Forall sealed (pending st)).
      { rewrite Hp. by apply not_completed_sealed, fold_upsert_sealed. }
      destruct (load_stale (do_write d (PutWal (wal_text (pending st)))) es (fold_left upsert es []) (pending st))
        as (st' & Hl & Hr' & Hb'); [done| |by rewrite !wal_text_length|done|].
      { destruct (durable_checkpointed d st es Hw Hr Hb Hc) as (st0 & ? & ? & ?). by exists st0. }
      assert (Hnd : NoDup (record_id <$> pending st)) by (rewrite Hp; apply filter_ids_nodup, Hr).
      rewrite (fold_upsert_nodup _ []) in Hr' by done. assert (G := load_restarts (do_write d (PutWal (wal_text (pending st)))) st' (pending st) eq_refl Hsp Hl).
      rewrite (fold_upsert_nodup _ []) in G by done. specialize (G Hr' Hb'). revert G.
      rewrite (represents_pending _ _ Hr'). rewrite Hp.
      cbn [app]. by rewrite not_completed_idem.
  - rewrite <- Hpend. inversion Hcr2; subst. by apply durable_restarts.
Qed.

(** A torn line is refused, and no record is guessed from it. *)
Lemma proper_prefix_one_line (j s1 s2 : string) :
  one_line j = true → (s1 +:+ s2)%string = (j +:+ String LF EmptyString)%string → s2 ≠ EmptyString → one_line s1 = true.
Proof.
  revert s1; induction j as [|a j IH]; intros [|b s1] Hj Heq Hs; [done| |done|]; simpl in *; simplify_eq.
  - by destruct s1.
  - apply andb_true_iff in Hj as [-> Hj]. by apply (IH s1).
Qed.
Lemma torn_refused d st e (s1 s2 : string) :
  durable d st → entry_line e = (s1 +:+ s2)%string → s1 ≠ EmptyString → s2 ≠ EmptyString →
  load_state_for_durability (do_write d (AppendWal s1)) = ([], Err operator_repair).
Proof.
  intros (es & l & Hw & Hs & -> & Hr & Hb & Hc) Hline H1 H2.
  assert (Hone : one_line s1 = true).
  { apply (proper_prefix_one_line (entry_json e) s1 s2); [apply entry_json_line|done|done]. }
  destruct (read_current_checkpoint (do_write d (AppendWal s1)) es (fold_left upsert es []) s1) as (st' & Hrd & _ & Hb').
  - simpl. by rewrite Hw.
  - destruct (durable_checkpointed d st es Hw Hr Hb Hc) as (st0 & ? & ? & ?). by exists st0.
  - by apply fold_upsert_sealed.
  - unfold load_state_for_durability, load_state. rewrite Hrd. cbn [from_option id]. rewrite Hb'.
    unfold fold_wal_tail, byte_length. cbn [do_write wal]. rewrite Hw, Nat2Z.id, slice_suffix.
    rewrite (ends_with_one_line s1 Hone). by destruct s1.
Qed.

(** One line and its checkpoint. *)
Definition extended (d : Disk) (st : OutboxState) (e : OutboxEntry) : list DiskWrite * OutboxState :=
  let wal2 := (wal d +:+ entry_line e)%string in
  let st2 := apply (mkOutbox (current st) (order st) (byte_length wal2) (sat_add64 (wal_records st) 1)) e in
  ([AppendWal (entry_line e); persist_checkpoint wal2 st2], st2).
Lemma extended_represents d st l e : represents st l → represents (extended d st e).2 (upsert l e).
Proof. intros Hr. unfold extended. cbn [snd]. apply represents_apply. by destruct Hr as (? & ? & ?). Qed.
Lemma extended_lines d e es :
  wal d = wal_text es → wal (do_write d (AppendWal (entry_line e))) = wal_text (es ++ [e]).
Proof. intros Hw. rewrite wal_text_app. simpl. by rewrite Hw, text_app_empty. Qed.
Lemma extended_durable d st e :
  durable d st → sealed e → durable (do_writes d (extended d st e).1) (extended d st e).2.
Proof.
  intros (es & l & Hw & Hs & -> & Hr & Hb & Hc) He. exists (es ++ [e]), (upsert (fold_left upsert es []) e).
  split; [by rewrite <- (extended_lines d e es Hw)|]. split; [apply Forall_app; auto|].
  split; [by rewrite fold_left_app|]. split; [by apply extended_represents|done].
Qed.
Lemma extended_crash d st e d' :
  durable d st → sealed e → crashed d (extended d st e).1 d' →
  restarts d' (pending st) ∨ restarts d' (pending (extended d st e).2)
  ∨ load_state_for_durability d' = ([], Err operator_repair).
Proof.
  intros Hd He Hcr. assert (Hfull := extended_durable d st e Hd He).
  inversion Hcr as [|? s1 s2 ? H1 H2 Hline|? ? ? ? Hcr1]; subst; [left; by apply durable_restarts|right; right; by eapply torn_refused|].
  right; left. inversion Hcr1 as [| |? ? ? ? Hcr2]; subst.
  - pose proof Hd as (es & l & Hw & Hs & -> & Hr & Hb & Hc).
    rewrite (represents_pending _ _ (extended_represents d st _ e Hr)).
    replace (upsert (fold_left upsert es []) e) with (fold_left upsert (es ++ [e]) []) by by rewrite fold_left_app.
    apply grown_restarts; [by apply extended_lines|apply Forall_app; auto|].
    destruct (durable_checkpointed d st es Hw Hr Hb Hc) as (st0 & ? & ? & ?). by exists st0.
  - inversion Hcr2; subst. by apply durable_restarts.
Qed.

(** ** The whole of an append *)

Definition first_compaction (d : Disk) (st : OutboxState) (e : OutboxEntry) : list DiskWrite * OutboxState :=
  if (MAX_WAL_BYTES <? byte_length (wal d) + byte_length (entry_line e))%Z then compact st else ([], st).
Definition last_compaction (st : OutboxState) : list DiskWrite * OutboxState :=
  if should_compact st then compact st else ([], st).
Definition seal (e : OutboxEntry) : OutboxEntry := set_checksum e (compute_checksum e).
Lemma append_phases d st e :
  let p1 := first_compaction d st (seal e) in
  let d1 := do_writes d p1.1 in
  append d st e =
  if (MAX_WAL_BYTES <? byte_length (wal d1) + byte_length (entry_line (seal e)))%Z
  then (p1.1, p1.2, Err "sealed MCP outbox WAL remains at bounded capacity after compaction; refusing to dispatch"%string)
  else let p2 := extended d1 p1.2 (seal e) in
       let p3 := last_compaction p2.2 in
       (p1.1 ++ p2.1 ++ p3.1, p3.2, Ok tt).
Proof.
  unfold append, extended, first_compaction, last_compaction, seal. cbv zeta.
  destruct (if (MAX_WAL_BYTES <? _)%Z then compact st else ([], st)) as [w1 st1]. cbn [fst snd].
  destruct (MAX_WAL_BYTES <? _)%Z; [done|]. by destruct (if should_compact _ then _ else _) as [w3 st3].
Qed.
Lemma maybe_compact_keeps (b : bool) d st :
  durable d st →
  let p := if b then compact st else ([], st) in
  durable (do_writes d p.1) p.2 ∧ pending p.2 = pending st ∧ (∀ d', crashed d p.1 d' → restarts d' (pending st)).
Proof.
  intros Hd. destruct b; cbn [fst snd].
  - split; [by apply compact_durable|]. split; [by eapply compact_pending|]. intros d'. by apply compact_crash.
  - split; [done|]. split; [done|]. intros d' Hc. inversion Hc; subst. by apply durable_restarts.
Qed.
Lemma append_durable d st e : durable d st → durable (do_writes d (append d st e).1.1) (append d st e).1.2.
Proof.
  intros Hd. rewrite append_phases. cbv zeta.
  destruct (maybe_compact_keeps (MAX_WAL_BYTES <? byte_length (wal d) + byte_length (entry_line (seal e)))%Z d st Hd) as (Hd1 & _ & _).
  fold (first_compaction d st (seal e)) in Hd1.
  destruct (_ <? _)%Z; cbn [fst snd]; [done|]. unfold do_writes. rewrite !fold_left_app.
  eapply maybe_compact_keeps, extended_durable; [done|apply sealed_checksum].
Qed.

Lemma append_crash_restarts d st e d' :
  durable d st → crashed d (append d st e).1.1 d' →
  restarts d' (pending st) ∨ restarts d' (pending (append d st e).1.2)
  ∨ load_state_for_durability d' = ([], Err operator_repair).
Proof.
  intros Hd. rewrite append_phases. cbv zeta.
  destruct (maybe_compact_keeps (MAX_WAL_BYTES <? byte_length (wal d) + byte_length (entry_line (seal e)))%Z d st Hd) as (Hd1 & Hp1 & Hc1).
  fold (first_compaction d st (seal e)) in Hd1, Hp1, Hc1.
  set (d1 := do_writes d _) in *. set (st1 := (first_compaction d st (seal e)).2) in *.
  destruct (MAX_WAL_BYTES <? _)%Z; cbn [fst snd]; [intros Hcr; left; by apply Hc1|].
  assert (Hd2 := extended_durable d1 st1 (seal e) Hd1 (sealed_checksum e)).
  destruct (maybe_compact_keeps (should_compact (extended d1 st1 (seal e)).2) _ _ Hd2) as (Hd3 & Hp3 & Hc3).
  fold (last_compaction (extended d1 st1 (seal e)).2) in Hd3, Hp3, Hc3. rewrite Hp3.
  intros [Hcr|[Hcr|Hcr]%crashed_app]%crashed_app.
  - left. by apply Hc1.
  - rewrite <- Hp1. by apply extended_crash; [|apply sealed_checksum|].
  - right; left. by apply Hc3.
Qed.

(** C21. A crash during an append, at any point of its writes, loses no record: after a
    restart the records that are not completed are those before the append or those
    after it, and the files are consistent again; or the appended line is torn, and the
    restart stops for an operator instead of guessing. *)
Theorem append_crash_safe d st e d' :
  durable d st → crashed d (append d st e).1.1 d' →
  restarts d' (pending st) ∨ restarts d' (pending (append d st e).1.2)
  ∨ load_state_for_durability d' = ([], Err operator_repair).
Proof. apply append_crash_restarts. Qed.

(** An append whose I/O fails leaves files that a crash could have left. *)
Lemma crashed_prefix d ws ws' : crashed d (ws ++ ws') (do_writes d ws).
Proof. revert d; induction ws as [|w ws IH]; intros d; [apply crash_here|]. apply crash_later, IH. Qed.
Lemma crashed_line d ws line n ws' : crashed d (ws ++ AppendWal line :: ws') (do_writes d (ws ++ [AppendWal (slice line 0 n)])).
Proof.
  revert d; induction ws as [|w ws IH]; intros d; [|apply crash_later, IH]. cbn [app do_writes fold_left].
  assert (Hl := from_cut line 0 n ltac:(lia)). rewrite from_0 in Hl.
  destruct (slice line 0 n) as [|c s1] eqn:H1; [|destruct (from line n) as [|c2 s2] eqn:H2].
  - replace (do_write d (AppendWal EmptyString)) with d; [apply crash_here|]. destruct d. cbn. by rewrite text_app_empty.
  - rewrite text_app_empty in Hl. rewrite Hl. apply crash_later, crash_here.
  - rewrite Hl at 1. by apply crash_torn.
Qed.
Lemma compact_faulty_prefix st f : ∃ rest, (compact st).1 = (compact_faulty st f).1 ++ rest.
Proof. destruct f; by eexists. Qed.
Lemma crashed_whole d ws : crashed d ws (do_writes d ws).
Proof. rewrite <- (app_nil_r ws) at 1. apply crashed_prefix. Qed.
Lemma append_faulty_crashed d st e fault :
  crashed d (append d st e).1.1 (do_writes d (append_faulty d st e fault).1.1).
Proof.
  unfold append, append_faulty. cbv zeta. fold (seal e). set (full := (MAX_WAL_BYTES <? byte_length (wal d) + _)%Z). clearbody full.
  destruct fault as [f|n| |f].
  - destruct full.
    + destruct (compact_faulty_prefix st f) as [rest Hr]. destruct (compact st) as [w1 st1], (compact_faulty st f) as [wf stf].
      cbn [fst] in Hr. subst w1. destruct (_ <? _)%Z; [apply crashed_prefix|].
      destruct (if should_compact _ then _ else _) as [w3 st3]. cbn [fst]. rewrite <- app_assoc. apply crashed_prefix.
    + destruct (_ <? _)%Z; [apply crashed_whole|]. destruct (if should_compact _ then _ else _). apply crashed_whole.
  - destruct (if full then compact st else ([], st)) as [w1 st1]. destruct (_ <? _)%Z; [apply crashed_whole|].
    destruct (if should_compact _ then _ else _) as [w3 st3]. apply crashed_line.
  - destruct (if full then compact st else ([], st)) as [w1 st1]. destruct (_ <? _)%Z; [apply crashed_whole|].
    destruct (if should_compact _ then _ else _) as [w3 st3]. cbn [fst app].
    change (AppendWal ?l :: ?x :: w3) with ([AppendWal l] ++ x :: w3). rewrite app_assoc. apply crashed_prefix.
  - destruct (if full then compact st else ([], st)) as [w1 st1]. destruct (_ <? _)%Z; [apply crashed_whole|].
    set (st2 := apply _ _). destruct (should_compact st2); [|apply crashed_whole].
    destruct (compact_faulty_prefix st2 f) as [rest Hr]. destruct (compact st2) as [w3 st3], (compact_faulty st2 f) as [wf stf].
    cbn [fst] in *. subst w3. rewrite !app_assoc. apply crashed_prefix.
Qed.

(** An append whose I/O fails loses no record either: whatever step fails, and however
    much of the line was written, a restart finds the records before the append or
    those after it, or stops for an operator; and an append that failed before its last
    compaction is reported. *)
Theorem append_fault_safe d st e fault :
  durable d st →
  let r := append_faulty d st e fault in
  let d' := do_writes d r.1.1 in
  (restarts d' (pending st) ∨ restarts d' (pending (append d st e).1.2)
   ∨ load_state_for_durability d' = ([], Err operator_repair))
  ∧ match fault with LineWrite _ | CheckpointWrite => ∃ err, r.2 = Err err | _ => True end.
Proof.
  intros Hd r d'. split; [by apply append_crash_restarts; [|apply append_faulty_crashed]|].
  unfold r, append_faulty. cbv zeta. destruct fault as [f|n| |f]; [done| | |done];
    destruct (if (_ <? _)%Z then compact st else ([], st)) as [w1 st1]; destruct (MAX_WAL_BYTES <? byte_length _ + _)%Z; by eexists.
Qed.

(** ** Another owner of the files *)

(** An append without a compaction: the line and the checkpoint. *)
Definition plain_append (d : Disk) (st : OutboxState) (e : OutboxEntry) : Prop :=
  (append d st e).2 = Ok tt ∧ length (append d st e).1.1 = 2%nat.
Lemma plain_append_extended d st e : plain_append d st e → (append d st e).1.1 = (extended d st (seal e)).1.
Proof.
  unfold plain_append. rewrite append_phases. cbv zeta. unfold first_compaction, last_compaction, compact.
  destruct (MAX_WAL_BYTES <? byte_length (wal d) + _)%Z; cbn [fst snd]; destruct (MAX_WAL_BYTES <? _)%Z;
    intros [Hok Hlen]; try done; cbn [fst snd app do_writes fold_left] in *; destruct (should_compact _); cbn in Hlen |- *; done.
Qed.
(** The lock is taken for one operation, and the worker keeps its memory of the records
    between operations: when another owner appends a record in between, the worker's
    next append writes a checkpoint of its own memory that covers the other's line, and
    no restart reads that record again. *)
Theorem second_owner_hides_record d st other e :
  durable d st → record_id other ≠ record_id e → current st !! record_id other = None →
  let d1 := do_writes d (append d st other).1.1 in
  let d2 := do_writes d1 (append d1 st e).1.1 in
  plain_append d st other → plain_append d1 st e →
  ∃ st', load_state d2 = Ok st' ∧ current st' !! record_id other = None ∧ current st' !! record_id e = Some (seal e).
Proof.
  intros (es & l & Hw & Hs & -> & Hr & Hb & Hc) Hne Hnone d1 d2 H1 H2.
  assert (Hd1 : wal d1 = wal_text (es ++ [seal other])).
  { unfold d1. rewrite (plain_append_extended _ _ _ H1). cbn. by rewrite <- (extended_lines d (seal other) es Hw). }
  assert (Hd2 : wal d2 = wal_text ((es ++ [seal other]) ++ [seal e])
    ∧ checkpoint d2 = Some (checkpoint_json (checkpoint_of (wal d2) (extended d1 st (seal e)).2))
    ∧ wal_bytes (extended d1 st (seal e)).2 = byte_length (wal d2)).
  { unfold d2. rewrite (plain_append_extended _ _ _ H2). cbn [extended fst snd do_writes fold_left].
    rewrite <- (extended_lines d1 (seal e) _ Hd1). done. }
  destruct Hd2 as (Hw2 & Hc2 & Hb2). pose proof (extended_represents d1 st _ (seal e) Hr) as Hr2.
  destruct (load_current d2 ((es ++ [seal other]) ++ [seal e]) (upsert (fold_left upsert es []) (seal e)) [])
    as (st' & Hl & Hr' & _).
  - by rewrite app_nil_r.
  - exists (extended d1 st (seal e)).2. rewrite <- Hw2. done.
  - apply Forall_forall. intros x [->|[Hx _]]%upsert_elem; [apply sealed_checksum|].
    assert (Hf := fold_upsert_sealed es Hs). rewrite Forall_forall in Hf. by apply Hf.
  - constructor.
  - exists st'. split; [done|]. cbn [fold_left] in Hr'.
    assert (current st' = <[record_id e := seal e]> (current st)) as ->.
    { destruct Hr' as [-> _], Hr2 as [<- _]. done. }
    by rewrite lookup_insert_ne, lookup_insert_eq.
Qed.


(** An accepted record replaces the one of its id, or ends it when it is completed, whether
    or not the log was compacted on the way; a refused one changes nothing. *)
Lemma append_outcome d st e :
  durable d st →
  match (append d st e).2 with
  | Ok _ => ∀ x, x ∈ pending (append d st e).1.2
                 ↔ x = seal e ∧ state e ≠ Completed ∨ x ∈ pending st ∧ record_id x ≠ record_id e
  | Err _ => pending (append d st e).1.2 = pending st
  end.
Proof.
  intros Hd. rewrite append_phases. cbv zeta.
  destruct (maybe_compact_keeps (MAX_WAL_BYTES <? byte_length (wal d) + byte_length (entry_line (seal e)))%Z d st Hd) as (Hd1 & Hp1 & _).
  fold (first_compaction d st (seal e)) in Hd1, Hp1.
  set (d1 := do_writes d _) in *. set (st1 := (first_compaction d st (seal e)).2) in *.
  destruct (MAX_WAL_BYTES <? _)%Z; cbn [fst snd]; [done|]. intros x.
  assert (Hd2 := extended_durable d1 st1 (seal e) Hd1 (sealed_checksum e)).
  destruct (maybe_compact_keeps (should_compact (extended d1 st1 (seal e)).2) _ _ Hd2) as (_ & Hp3 & _).
  fold (last_compaction (extended d1 st1 (seal e)).2) in Hp3. rewrite Hp3, <- Hp1.
  destruct Hd1 as (es & l & _ & _ & _ & Hr & _).
  rewrite (represents_pending _ _ Hr), (represents_pending _ _ (extended_represents d1 st1 l (seal e) Hr)).
  unfold not_completed. rewrite !filter_elem, upsert_elem, !negb_true_iff. unfold is_completed.
  rewrite !bool_decide_eq_false. split.
  - intros [[->|[Hx Hne]] Hc]; [left|right]; by repeat split.
  - intros [[-> Hc]|[[Hx Hne] Hc]]; split; [by left|done|by right|done].
Qed.
End durability.

(** ** A concrete codec

    A record is printed as the binary digits of its number. *)
Module DemoOutbox.
Fixpoint bits (p : positive) : string :=
  match p with xH => "1" | xO p => String "0" (bits p) | xI p => String "1" (bits p) end%string.
Fixpoint read_bits (s : string) : option positive :=
  match s with
  | EmptyString => None
  | String "1" EmptyString => Some xH
  | String "0" s => xO <$> read_bits s
  | String "1" s => xI <$> read_bits s
  | _ => None
  end.
Lemma read_bits_bits p : read_bits (bits p) = Some p.
Proof. induction p as [p IH|p IH|]; [| |done]; simpl; rewrite IH; destruct (bits p) eqn:E; try done; by destruct p. Qed.
Lemma bits_line p : one_line (bits p) = true ∧ bits p ≠ EmptyString.
Proof. induction p as [p [IH _]|p [IH _]|]; simpl; rewrite ?IH; done. Qed.

Definition state_number (s : EntryState) : nat := match s with Prepared => 0 | Dispatched => 1 | Completed => 2 | Indeterminate => 3 end.
Definition number_state (n : nat) : EntryState := match n with 0 => Prepared | 1 => Dispatched | 2 => Completed | _ => Indeterminate end.
Definition fields (e : OutboxEntry) : list positive :=
  [encode (schema e); encode (record_id e); encode (execution_idempotency_key e); encode (intent_id e);
   encode (region_registry_id e); encode (append_identity e); encode (event_kind e); encode (recipient_generation e);
   encode (subject_pseudonym e); encode (state_number (state e)); encode (recipient_public_key_base64url e);
   encode (aad_base64url e); encode (expires_at e); encode (encapsulated_key_base64url e); encode (ciphertext_base64url e);
   encode (payload_sha256 e); encode (created_at e); encode (checksum e)].
Definition of_fields (l : list positive) : option OutboxEntry :=
  match l with
  | [a1; a2; a3; a4; a5; a6; a7; a8; a9; a10; a11; a12; a13; a14; a15; a16; a17; a18] =>
      b1 ← decode a1; b2 ← decode a2; b3 ← decode a3; b4 ← decode a4; b5 ← decode a5; b6 ← decode a6; b7 ← decode a7;
      b8 ← decode a8; b9 ← decode a9; b10 ← decode a10; b11 ← decode a11; b12 ← decode a12; b13 ← decode a13;
      b14 ← decode a14; b15 ← decode a15; b16 ← decode a16; b17 ← decode a17; b18 ← decode a18;
      Some (mkEntry b1 b2 b3 b4 b5 b6 b7 b8 b9 (number_state b10) b11 b12 b13 b14 b15 b16 b17 b18)
  | _ => None
  end.
Lemma of_fields_fields e : of_fields (fields e) = Some e.
Proof. unfold of_fields, fields. rewrite !decode_encode. simpl. by destruct e as [?????????[]]. Qed.
Definition checkpoint_fields (c : OutboxCheckpoint) : list positive :=
  [encode (cp_schema c); encode (cp_wal_bytes c); encode (cp_wal_records c); encode (cp_wal_prefix_sha256 c);
   encode (fields <$> cp_entries c); encode (cp_checksum c)].
Definition of_checkpoint_fields (l : list positive) : option OutboxCheckpoint :=
  match l with
  | [a1; a2; a3; a4; a5; a6] =>
      b1 ← decode a1; b2 ← decode a2; b3 ← decode a3; b4 ← decode a4; b5 ← decode a5; b6 ← decode a6;
      es ← mapM of_fields b5; Some (mkCheckpoint b1 b2 b3 b4 es b6)
  | _ => None
  end.
Lemma of_checkpoint_fields_fields c : of_checkpoint_fields (checkpoint_fields c) = Some c.
Proof.
  unfold of_checkpoint_fields, checkpoint_fields. rewrite !decode_encode. simpl.
  assert (mapM of_fields (fields <$> cp_entries c) = Some (cp_entries c)) as ->; [|by destruct c].
  induction (cp_entries c) as [|e es IH]; [done|]. rewrite fmap_cons. cbn [mapM].
  rewrite of_fields_fields. cbn [mbind option_bind]. by rewrite IH.
Qed.
#[refine] Instance demo_codec : OutboxCodec := {
  entry_json e := bits (encode (fields e));
  parse_entry s := read_bits s ≫= λ p, decode p ≫= of_fields;
  checkpoint_json c := bits (encode (checkpoint_fields c));
  parse_checkpoint s := read_bits s ≫= λ p, decode p ≫= of_checkpoint_fields;
  crc32 s := Z.of_nat (String.length s);
  sha256_hex s := slice s 0 8;
}.
Proof.
  - intros e. rewrite read_bits_bits. simpl. rewrite decode_encode. simpl. apply of_fields_fields.
  - intros e. apply bits_line.
  - intros c. rewrite read_bits_bits. simpl. rewrite decode_encode. simpl. apply of_checkpoint_fields_fields.
Defined.
Definition entry : OutboxEntry :=
  mkEntry OUTBOX_ENTRY_SCHEMA "r1" "k1" "i1" "g1" "a1" "mcp.tool_call" 1 "p" Dispatched "pk" "aad" "t" None None None "t" 0.
Definition fresh_state : OutboxState := OutboxState_default.
Definition fresh_disk : Disk := mkDisk EmptyString (Some (checkpoint_json (checkpoint_of EmptyString fresh_state))).
Lemma fresh_durable : durable fresh_disk fresh_state.
Proof. exists [], []. repeat split; try done; constructor. Qed.
End DemoOutbox.
#[local] Existing Instance DemoOutbox.demo_codec.

Lemma crashed_take n d ws : crashed d ws (do_writes d (take n ws)).
Proof. revert d ws; induction n as [|n IH]; intros d [|w ws]; try apply crash_here. apply crash_later, IH. Qed.

(** A crash after the line and before its checkpoint. *)
Lemma append_crash_safe_witness :
  let d := DemoOutbox.fresh_disk in
  let r := append d DemoOutbox.fresh_state DemoOutbox.entry in
  let d' := do_writes d (take 1 r.1.1) in
  restarts d' (pending DemoOutbox.fresh_state) ∨ restarts d' (pending r.1.2)
  ∨ load_state_for_durability d' = ([], Err operator_repair).
Proof. intros d r d'. apply (append_crash_safe d _ DemoOutbox.entry); [apply DemoOutbox.fresh_durable|apply crashed_take]. Defined.
Definition demo_other : OutboxEntry :=
  mkEntry OUTBOX_ENTRY_SCHEMA "r2" "k2" "i2" "g1" "a2" "mcp.tool_call" 1 "p" Dispatched "pk" "aad" "t" None None None "t" 0.
Lemma second_owner_hides_record_witness :
  let d := DemoOutbox.fresh_disk in
  let st := DemoOutbox.fresh_state in
  let d1 := do_writes d (append d st demo_other).1.1 in
  ∃ st', load_state (do_writes d1 (append d1 st DemoOutbox.entry).1.1) = Ok st' ∧ current st' !! "r2"%string = None.
Proof.
  intros d st d1.
  destruct (second_owner_hides_record d st demo_other DemoOutbox.entry DemoOutbox.fresh_durable) as (st' & Hl & Hn & _);
    [discriminate|reflexivity|split; vm_compute; reflexivity|split; vm_compute; reflexivity|].
  exists st'. split; [exact Hl|exact Hn].
Defined.
Lemma append_fault_safe_witness :
  let d := DemoOutbox.fresh_disk in
  let r := append_faulty d DemoOutbox.fresh_state DemoOutbox.entry (LineWrite 5) in
  ∃ err, r.2 = Err err.
Proof.
  intros d r. exact (proj2 (append_fault_safe d _ DemoOutbox.entry (LineWrite 5) DemoOutbox.fresh_durable)).
Defined.
