(* ===== verification/SealedCalls.v ===== *)
(** * SealedCalls: the life of a recorded tool call
    (src/src/mcp/audit.rs, the durability worker and the phases of a call)

    A call is recorded as prepared and dispatched before its effect, sealed after it,
    and completed when the control plane acknowledges it; what is left is recovered
    before the next call is served.  The worker owns the records; a world is the files,
    the worker's memory of them and what contends for them at each command.  The
    answers of the control plane and the cipher are arguments. *)

From Stdlib Require Import ZArith Ascii String.
From stdpp Require Import base gmap strings list pretty.
From S2P Require Import Prelude Text Detection AuditText SealedOutbox.

#[local] Arguments String.append : simpl nomatch.

(** ** The durability worker *)

(** What a command meets: a full queue, a lock held while the files are opened, or while
    a record is appended.  The worker is the only one that writes the files: another
    owner of the lock is seen only as a refusal.  What its writes would do is
    [SealedOutbox.second_owner_hides_record]; I/O that fails without a crash is
    [SealedOutbox.append_faulty]. *)
Record Contention := mkContention { queue_full : bool; open_locked : bool; append_locked : bool }.
Definition uncontended : Contention := mkContention false false false.
Record World := mkWorld { disk : Disk; store : option OutboxState; turns : list Contention }.
Definition M (A : Type) : Type := World → World * Result A string.
Definition ret {A} (a : A) : M A := λ w, (w, Ok a).
Definition fails {A} (e : string) : M A := λ w, (w, Err e).
Definition bind {A B} (m : M A) (f : A → M B) : M B :=
  λ w, match m w with (w, Ok a) => f a w | (w, Err e) => (w, Err e) end.
Declare Scope call_scope.
Delimit Scope call_scope with call.
Notation "'let!' x ':=' m 'in' k" := (bind m (λ x, k)) (at level 200, x name, right associativity) : call_scope.
Notation "m '>>' k" := (bind m (λ _, k)) (at level 60, right associativity) : call_scope.
#[local] Open Scope call_scope.

Definition turn : M Contention :=
  λ w, match turns w with
       | [] => (w, Ok uncontended)
       | c :: cs => (mkWorld (disk w) (store w) cs, Ok c)
       end.
Definition LOCKED : string := "sealed MCP outbox is locked by another owner; refusing to dispatch".
Definition QUEUE_FULL : string := "sealed MCP durability queue is full; refusing effect dispatch".

Section worker.
Context `{OutboxCodec}.

(** The worker opens the files at its first command. *)
Definition opened (c : Contention) : M OutboxState :=
  λ w, match store w with
       | Some st => (w, Ok st)
       | None =>
           if open_locked c then (w, Err LOCKED)
           else match load_state_for_durability (disk w) with
                | (ws, Ok st) => (mkWorld (do_writes (disk w) ws) (Some st) (turns w), Ok st)
                | (ws, Err e) => (mkWorld (do_writes (disk w) ws) None (turns w), Err e)
                end
       end.
Definition command {A} (run : Contention → OutboxState → M A) : M A :=
  let! c := turn in
  if queue_full c then fails QUEUE_FULL else let! st := opened c in run c st.
Definition durable_append (entry : OutboxEntry) : M unit :=
  command (λ c st w,
    if append_locked c then (w, Err LOCKED)
    else let '(ws, st', r) := append (disk w) st entry in (mkWorld (do_writes (disk w) ws) (Some st') (turns w), r)).
Definition durable_current (id : string) : M (option OutboxEntry) := command (λ _ st, ret (current st !! id)).
Definition durable_snapshot : M (list OutboxEntry) := command (λ _ st, ret (entries st)).
(** [read_outbox_records] opens and locks the files itself. *)
Definition read_outbox_records : M (list OutboxEntry) :=
  let! c := turn in
  λ w, if open_locked c then (w, Err LOCKED)
       else match load_state (disk w) with Ok st => (w, Ok (entries st)) | Err e => (w, Err e) end.

(** ** Calls *)

Definition is_state (s : EntryState) (e : OutboxEntry) : bool := bool_decide (state e = s).
Definition recoverable (e : OutboxEntry) : bool := is_state Dispatched e || is_state Indeterminate e.
Definition require_state (id : string) (expected : EntryState) : M OutboxEntry :=
  let! e := durable_current id in
  match e with
  | None => fails "sealed MCP outbox record vanished"
  | Some e =>
      if negb (is_state expected e)
      then fails ("sealed MCP outbox record is in state '" +:+ entry_state_str (state e) +:+ "', expected '"
                  +:+ entry_state_str expected +:+ "'")
      else ret e
  end.

Record CreateIntentResponse := mkIntent {
  i_intent_id : string; i_region_registry_id : string; i_append_identity : string; i_event_kind : string;
  i_recipient_generation : Z; i_kem : string; i_kdf : string; i_aead : string;
  i_recipient_public_key_base64url : string; i_aad_base64url : string; i_expires_at : string;
}.
Record SealedPayload := mkPayload {
  p_request_id : option string; p_session_id : string; p_tool_name : string; p_input_summary : string;
  p_output_summary : string; p_success : bool; p_duration_ms : Z; p_error_code : option string;
}.
Record SealedToolCallHandle := mkHandle {
  h_record_id : string; h_execution_idempotency_key : string; h_intent_id : string; h_append_identity : string;
  h_event_kind : string; h_recipient_generation : Z; h_recipient_public_key : string; h_aad : string;
  h_request_id : option string; h_session_id : string; h_tool_name : string; h_input_summary : string;
}.
Inductive SealedCompletion := CallCompleted | CallIndeterminate.
Record AckBody := mkAck {
  a_append_identity : string; a_recipient_generation : Z; a_event_kind : string;
  a_encapsulated_key : string; a_ciphertext : string; a_payload_sha256 : string;
}.
Record UnresolvedEffect := mkUnresolved {
  u_record_id : string; u_execution_idempotency_key : string; u_intent_id : string; u_state : EntryState;
  u_missing_ciphertext : bool;
}.
Record RecoveryReport := mkReport { completed : Z; unresolved : list UnresolvedEffect }.
End worker.

(** The environment and the libraries: the configured key, UUIDs in their canonical form, base64, hex, HPKE, serde
    and HMAC. *)
Class SealLib := {
  uuid_parse : string → option string;
  b64url : string → string;
  b64_decode : string → option string;
  payload_json : SealedPayload → string;
  hpke_seal : string → string → string → Result (string * string) string;
  env_key : option string;
  b64_standard_decode : string → option string;
  hex_decode : string → option string;
  hmac_hex : string → string → string;
}.

Definition EVENT_KIND_MCP_TOOL_CALL : string := "mcp.tool_call".
Definition EXPECTED_KEM : string := "DHKEM(X25519,HKDF-SHA256)".
Definition EXPECTED_KDF : string := "HKDF-SHA256".
Definition EXPECTED_AEAD : string := "ChaCha20Poly1305".
Definition RECIPIENT_PUBLIC_KEY_LEN : nat := 32.
Definition MIN_CIPHERTEXT_LEN : nat := 16.
Definition MAX_CIPHERTEXT_LEN : Z := 1048592.
Definition SUBJECT_PSEUDONYM_DOMAIN : string := "verdictan:cli-mcp-subject-pseudonym:v1:".

Section calls.
Context `{OutboxCodec} `{SealLib}.

Definition decode_key_material (raw : string) : option string :=
  List.find (λ decoded, String.length decoded =? 32)
    (omap id [b64_standard_decode raw; b64_decode raw; hex_decode raw]).
Definition load_pseudonymization_key : Result string string :=
  match env_key with
  | None => Err "VERDICTAN_ERASURE_PSEUDONYMIZATION_KEY is required for sealed MCP audit; connected MCP execution fails closed without it"%string
  | Some raw =>
      match decode_key_material (trim raw) with
      | None => Err "VERDICTAN_ERASURE_PSEUDONYMIZATION_KEY must decode (base64, base64url, or hex) to exactly 32 bytes"%string
      | Some key => Ok key
      end
  end.
Definition subject_pseudonym_of (key subject_ref : string) : string :=
  ("hmac-sha256:" +:+ hmac_hex key (SUBJECT_PSEUDONYM_DOMAIN +:+ subject_ref))%string.
Definition b64url_decode (field value : string) : Result string string :=
  match b64_decode value with
  | None => Err (field +:+ " is not valid unpadded base64url")%string
  | Some decoded =>
      if negb (String.eqb (b64url decoded) value) then Err (field +:+ " is not canonical unpadded base64url")%string
      else Ok decoded
  end.
Definition is_valid_32_hex_lower (s : string) : bool :=
  (String.length s =? 32) && all_chars (λ a, is_digit a || bool_decide (97 ≤ nat_of_ascii a ≤ 102)) s.
(** [control_plane_request_id]; [fresh] is the id it makes up. *)
Definition control_plane_request_id (fresh request_id : string) : string :=
  let trimmed := trim request_id in
  if is_empty trimmed then fresh
  else if is_valid_32_hex_lower trimmed then trimmed
  else match uuid_parse trimmed with
       | Some parsed => filter_chars (λ a, negb (Ascii.eqb a "-")) parsed
       | None => slice (sha256_hex trimmed) 0 32
       end.
Definition lift {A} (r : Result A string) : M A := λ w, (w, r).
Definition require (ok : bool) (e : string) : M unit := if ok then ret tt else fails e.
Definition present {A} (a : option A) (e : string) : M A := match a with Some a => ret a | None => fails e end.

(** What [prepare_sealed_tool_call] draws: three UUIDs, an id and the time. *)
Record Fresh := mkFresh { f_append_identity : string; f_record_id : string; f_key : string; f_request : string; f_now : string }.
(** [prepare_sealed_tool_call]; [create] is the answer of the control plane, decoded, for an
    append identity, and a panic is an error. *)
Definition prepare_sealed_tool_call (create : string → Result CreateIntentResponse string) (f : Fresh)
    (subject_ref : string) (request_id : option string) (session_id tool_name input_summary : string)
  : M SealedToolCallHandle :=
  let! key := lift load_pseudonymization_key in
  let! intent := lift (create (f_append_identity f)) in
  require (String.eqb (i_kem intent) EXPECTED_KEM && String.eqb (i_kdf intent) EXPECTED_KDF && String.eqb (i_aead intent) EXPECTED_AEAD)
    "Trail intent advertised an unexpected HPKE ciphersuite; refusing to dispatch" >>
  require (String.eqb (i_event_kind intent) EVENT_KIND_MCP_TOOL_CALL) "Trail intent event_kind mismatch; refusing to dispatch" >>
  require (String.eqb (i_append_identity intent) (f_append_identity f)) "Trail intent append_identity mismatch; refusing to dispatch" >>
  let! intent_id := present (uuid_parse (i_intent_id intent)) "Trail intent id was not a canonical UUID" in
  let! region := present (uuid_parse (i_region_registry_id intent)) "Trail intent region registry id was not a canonical UUID" in
  require (negb (i_recipient_generation intent =? 0)%Z) "Trail intent recipient_generation must be positive" >>
  let! public_key := lift (b64url_decode "recipient_public_key_base64url" (i_recipient_public_key_base64url intent)) in
  require (String.length public_key =? RECIPIENT_PUBLIC_KEY_LEN) "Trail intent recipient public key was not 32 bytes" >>
  let! aad := lift (b64url_decode "aad_base64url" (i_aad_base64url intent)) in
  let prepared :=
    mkEntry OUTBOX_ENTRY_SCHEMA (f_record_id f) (f_key f) intent_id region (f_append_identity f)
      EVENT_KIND_MCP_TOOL_CALL (i_recipient_generation intent) (subject_pseudonym_of key subject_ref) Prepared
      (i_recipient_public_key_base64url intent) (i_aad_base64url intent) (i_expires_at intent) None None None (f_now f) 0 in
  durable_append prepared >>
  durable_append (set_state prepared Dispatched) >>
  let! summary := present (sealed_summary input_summary) "panic" in
  ret (mkHandle (f_record_id f) (f_key f) intent_id (f_append_identity f) EVENT_KIND_MCP_TOOL_CALL
         (i_recipient_generation intent) public_key aad
         (request_id ≫= λ id, uuid_parse (control_plane_request_id (f_request f) id)) session_id tool_name summary).

(** [complete_sealed_tool_call]: seal, make the ciphertext durable, acknowledge, settle. *)
Definition seal_payload (h : SealedToolCallHandle) (output_summary : string) (success : bool) (duration_ms : Z)
    (error_code : option string) : M (string * string * string) :=
  let! output := present (sealed_summary output_summary) "panic" in
  let plaintext := payload_json (mkPayload (h_request_id h) (h_session_id h) (h_tool_name h) (h_input_summary h) output
                                   success duration_ms error_code) in
  let! sealed := lift (hpke_seal (h_recipient_public_key h) (h_aad h) plaintext) in
  require ((MIN_CIPHERTEXT_LEN <=? String.length sealed.2) && (Z.of_nat (String.length sealed.2) <=? MAX_CIPHERTEXT_LEN)%Z)
    "sealed MCP ciphertext length is out of bounds" >>
  ret (b64url sealed.1, b64url sealed.2, sha256_hex plaintext).
Definition persist_ciphertext (h : SealedToolCallHandle) (encapped ciphertext sha : string) : M unit :=
  let! entry := require_state (h_record_id h) Dispatched in
  durable_append (set_checksum (set_sealed (set_state entry Dispatched) encapped ciphertext sha) 0).
Definition ack_path (intent_id : string) : string := ("/v1/trail/intents/" +:+ intent_id +:+ "/acknowledge")%string.
Definition settle (h : SealedToolCallHandle) (acknowledged : Result unit string) : M SealedCompletion :=
  let! entry := require_state (h_record_id h) Dispatched in
  let next := match acknowledged with Ok _ => (Completed, CallCompleted) | Err _ => (Indeterminate, CallIndeterminate) end in
  durable_append (set_checksum (set_state entry next.1) 0) >> ret next.2.
Definition complete_sealed_tool_call (acknowledge : string → AckBody → Result unit string) (h : SealedToolCallHandle)
    (output_summary : string) (success : bool) (duration_ms : Z) (error_code : option string) : M SealedCompletion :=
  let! s := seal_payload h output_summary success duration_ms error_code in
  persist_ciphertext h s.1.1 s.1.2 s.2 >>
  settle h (acknowledge (ack_path (h_intent_id h))
              (mkAck (h_append_identity h) (h_recipient_generation h) (h_event_kind h) s.1.1 s.1.2 s.2)).

(** [recover_sealed_outbox]: one record, then all of them. *)
Definition unresolved_of (e : OutboxEntry) (missing : bool) : UnresolvedEffect :=
  mkUnresolved (record_id e) (execution_idempotency_key e) (intent_id e) (state e) missing.
Definition recover_entry (acknowledge : string → AckBody → Result unit string) (report : RecoveryReport) (e : OutboxEntry)
  : M RecoveryReport :=
  match encapsulated_key_base64url e, ciphertext_base64url e, payload_sha256 e with
  | Some encapped, Some ciphertext, Some sha =>
      let acknowledged := acknowledge (ack_path (intent_id e))
        (mkAck (append_identity e) (recipient_generation e) (event_kind e) encapped ciphertext sha) in
      let! cur := durable_current (record_id e) in
      match cur with
      | None => ret report
      | Some next =>
          if negb (recoverable next) then ret report
          else match acknowledged with
               | Ok _ => durable_append (set_checksum (set_state next Completed) 0)
                         >> ret (mkReport (completed report + 1) (unresolved report))
               | Err _ =>
                   (if negb (is_state Indeterminate next)
                    then durable_append (set_checksum (set_state next Indeterminate) 0) else ret tt)
                   >> ret (mkReport (completed report)
                             (unresolved report ++ [unresolved_of (set_state next Indeterminate) false]))
               end
      end
  | _, _, _ => ret (mkReport (completed report) (unresolved report ++ [unresolved_of e true]))
  end.
Fixpoint recover_all (acknowledge : string → AckBody → Result unit string) (report : RecoveryReport) (es : list OutboxEntry)
  : M RecoveryReport :=
  match es with
  | [] => ret report
  | e :: es => let! report := recover_entry acknowledge report e in recover_all acknowledge report es
  end.
Definition recover_sealed_outbox (acknowledge : string → AckBody → Result unit string) : M RecoveryReport :=
  let! snapshot := durable_snapshot in
  recover_all acknowledge (mkReport 0 []) (List.filter recoverable snapshot).
Definition pending_recoverable_effects : M nat :=
  let! records := read_outbox_records in ret (length (List.filter recoverable records)).
Definition ensure_recovered_before_serving (acknowledge : string → AckBody → Result unit string) : M RecoveryReport :=
  let! pending := pending_recoverable_effects in
  if (pending =? 0) then ret (mkReport 0 [])
  else let! report := recover_sealed_outbox acknowledge in
       match unresolved report with
       | [] => ret report
       | effects =>
           fails (pretty (N.of_nat (length effects))
                  +:+ " sealed MCP effects remain unresolved after recovery before serving calls; execution ids: "
                  +:+ String.concat "," (u_execution_idempotency_key <$> effects))
       end.
End calls.

(** ** What the files hold

    [records w l]: the records that are not completed are [l], in the worker's memory and
    after a restart. *)
Section records.
Context `{OutboxCodec}.

Definition records (w : World) (l : list OutboxEntry) : Prop :=
  match store w with
  | Some st => durable (disk w) st ∧ pending st = l
  | None => restarts (disk w) l
  end.
Lemma records_restarts w l : records w l → restarts (disk w) l.
Proof. unfold records. destruct (store w); [|done]. intros [Hd <-]. by apply durable_restarts. Qed.
Lemma durable_pending_elem d st e :
  durable d st → e ∈ pending st ↔ current st !! record_id e = Some e ∧ state e ≠ Completed.
Proof.
  intros (es & l & _ & _ & _ & Hr & _). rewrite (represents_pending _ _ Hr). destruct Hr as (Hc & _ & Hnd).
  unfold not_completed. rewrite filter_elem, Hc, by_id_lookup by done. rewrite negb_true_iff. unfold is_completed.
  rewrite bool_decide_eq_false. tauto.
Qed.
Lemma durable_current_id d st id e : durable d st → current st !! id = Some e → record_id e = id.
Proof. intros (es & l & _ & _ & _ & (-> & _ & Hnd) & _). intros He. by apply by_id_lookup in He as [_ ?]. Qed.
Lemma durable_entries_elem d st e : durable d st → e ∈ entries st ↔ current st !! record_id e = Some e.
Proof.
  intros (es & l & _ & _ & _ & Hr & _). rewrite (represents_entries _ _ Hr). destruct Hr as (-> & _ & Hnd).
  rewrite by_id_lookup by done. tauto.
Qed.
Lemma records_unique w l x y : records w l → x ∈ l → y ∈ l → record_id x = record_id y → x = y.
Proof.
  intros Hr. assert (∃ d st, durable d st ∧ pending st = l) as (d & st & Hd & <-).
  { apply records_restarts in Hr as (ws & st & _ & Hd & Hp). eauto. }
  rewrite !(durable_pending_elem _ _ _ Hd). intros [Hx _] [Hy _] Heq. rewrite Heq in Hx. congruence.
Qed.

Lemma turn_records w l : records w l → ∃ w' c, turn w = (w', Ok c) ∧ records w' l.
Proof. intros Hr. unfold turn. destruct (turns w); [by exists w, uncontended|]. by eexists _, _. Qed.
Lemma opened_records c w l :
  records w l →
  (∃ e, opened c w = (w, Err e)) ∨
  ∃ w' st, opened c w = (w', Ok st) ∧ store w' = Some st ∧ durable (disk w') st ∧ pending st = l.
Proof.
  unfold records, opened. destruct (store w) as [st|] eqn:Hs; [intros [? ?]; right; by exists w, st|].
  intros (ws & st & Hl & Hd & Hp). destruct (open_locked c); [left; by eexists|]. right. rewrite Hl. by eexists _, st.
Qed.
(** A command is refused and changes nothing, or runs on the records. *)
Lemma command_records {A} (run : Contention → OutboxState → M A) w l :
  records w l →
  (∃ w' e, command run w = (w', Err e) ∧ records w' l) ∨
  ∃ w' c st, command run w = run c st w' ∧ store w' = Some st ∧ durable (disk w') st ∧ pending st = l.
Proof.
  intros Hr. unfold command, bind. destruct (turn_records w l Hr) as (w1 & c & -> & Hr1).
  destruct (queue_full c); [left; by eexists _, _|].
  destruct (opened_records c w1 l Hr1) as [[e ->]|(w2 & st & -> & Hs & Hd & Hp)]; [left; by eexists _, _|].
  right. by exists w2, c, st.
Qed.
(** [l'] is [l] with the record of [e]'s id replaced by [e], or removed when it is completed. *)
Definition updated (l : list OutboxEntry) (e : OutboxEntry) (l' : list OutboxEntry) : Prop :=
  ∀ x, x ∈ l' ↔ x = seal e ∧ state e ≠ Completed ∨ x ∈ l ∧ record_id x ≠ record_id e.
Lemma durable_append_records e w l :
  records w l →
  ∃ w' r, durable_append e w = (w', r) ∧
    match r with Ok _ => ∃ l', records w' l' ∧ updated l e l' | Err _ => records w' l end.
Proof.
  intros Hr. unfold durable_append.
  destruct (command_records (λ c st w, if append_locked c then (w, Err LOCKED)
    else let '(ws, st', r) := append (disk w) st e in (mkWorld (do_writes (disk w) ws) (Some st') (turns w), r)) w l Hr)
    as [(w' & err & -> & Hr')|(w1 & c & st & -> & Hs & Hd & <-)]; [by eexists _, _|].
  destruct (append_locked c); [eexists _, _; split; [done|]; unfold records; by rewrite Hs|].
  assert (Hu := append_outcome (disk w1) st e Hd). assert (Hd' := append_durable (disk w1) st e Hd).
  destruct (append (disk w1) st e) as [[ws st'] r]. cbn [fst snd] in *. eexists _, r. split; [done|].
  destruct r; [eexists; split; [by split|done]|by split].
Qed.
Lemma durable_current_records id w l :
  records w l →
  ∃ w' r, durable_current id w = (w', r) ∧ records w' l ∧
    match r with
    | Ok cur => (∀ e, e ∈ l → record_id e = id → cur = Some e)
                ∧ ∀ e, cur = Some e → record_id e = id ∧ (e ∈ l ∨ state e = Completed)
    | Err _ => True
    end.
Proof.
  intros Hr. unfold durable_current.
  destruct (command_records (λ _ st, ret (current st !! id)) w l Hr) as [(w' & err & -> & Hr')|(w1 & c & st & -> & Hs & Hd & <-)];
    [by eexists _, _|].
  eexists w1, _. split; [done|]. split; [unfold records; by rewrite Hs|]. split.
  - intros e He <-. by apply (durable_pending_elem _ _ _ Hd) in He as [? _].
  - intros e He. assert (Hid := durable_current_id _ _ _ _ Hd He). split; [done|].
    destruct (decide (state e = Completed)); [by right|left]. rewrite (durable_pending_elem _ _ _ Hd). by rewrite Hid.
Qed.
Lemma durable_snapshot_records w l :
  records w l →
  ∃ w' r, durable_snapshot w = (w', r) ∧ records w' l ∧
    match r with Ok es => ∀ e, e ∈ l ↔ e ∈ es ∧ state e ≠ Completed | Err _ => True end.
Proof.
  intros Hr. unfold durable_snapshot.
  destruct (command_records (λ _ st, ret (entries st)) w l Hr) as [(w' & err & -> & Hr')|(w1 & c & st & -> & Hs & Hd & <-)];
    [by eexists _, _|].
  eexists w1, _. split; [done|]. split; [unfold records; by rewrite Hs|]. intros e.
  by rewrite (durable_pending_elem _ _ _ Hd), (durable_entries_elem _ _ _ Hd).
Qed.
Lemma require_state_records id s w l :
  records w l →
  ∃ w' r, require_state id s w = (w', r) ∧ records w' l ∧
    match r with Ok e => record_id e = id ∧ state e = s ∧ (e ∈ l ∨ s = Completed) | Err _ => True end.
Proof.
  intros Hr. unfold require_state, bind. destruct (durable_current_records id w l Hr) as (w' & [cur|e] & -> & Hr' & Hc);
    [|by eexists _, _]. destruct cur as [e|]; [|by eexists _, _]. destruct Hc as [_ Hc].
  destruct (Hc e eq_refl) as [Hid Hl]. destruct (is_state s e) eqn:Hs; cbn [negb]; [|by eexists _, _].
  eexists _, _. split; [done|]. split; [done|]. unfold is_state in Hs. apply bool_decide_eq_true in Hs.
  split; [done|]. split; [done|]. destruct Hl; [by left|right; congruence].
Qed.
Lemma read_records w l :
  records w l →
  ∃ w' r, read_outbox_records w = (w', r) ∧ records w' l ∧
    match r with Ok es => ∀ e, e ∈ l ↔ e ∈ es ∧ state e ≠ Completed | Err _ => True end.
Proof.
  intros Hr. unfold read_outbox_records, bind. destruct (turn_records w l Hr) as (w1 & c & -> & Hr1).
  destruct (open_locked c); [by eexists _, _|].
  destruct (records_restarts _ _ Hr1) as (ws & st & Hl & Hd & <-). unfold load_state_for_durability in Hl.
  destruct (load_state (disk w1)) as [st'|e]; simplify_eq. eexists _, _. split; [done|]. split; [done|].
  intros e. by rewrite (durable_pending_elem _ _ _ Hd), (durable_entries_elem _ _ _ Hd).
Qed.
End records.

(** ** Reasoning about commands

    [runs l m Q E]: from the records [l], [m] ends with a value and records in [Q], or fails
    with records in [E]. *)
Section logic.
Context `{OutboxCodec}.

Definition runs {A} (l : list OutboxEntry) (m : M A) (Q : A → list OutboxEntry → Prop) (E : list OutboxEntry → Prop) : Prop :=
  ∀ w, records w l →
  match m w with
  | (w', Ok a) => ∃ l', records w' l' ∧ Q a l'
  | (w', Err _) => ∃ l', records w' l' ∧ E l'
  end.
Lemma runs_bind {A B} l (m : M A) (f : A → M B) Q Q' (E : list OutboxEntry → Prop) :
  runs l m Q E → (∀ a l', Q a l' → runs l' (f a) Q' E) → runs l (bind m f) Q' E.
Proof.
  intros Hm Hf w Hw. unfold bind. specialize (Hm w Hw). destruct (m w) as [w' [a|e]]; [|done].
  destruct Hm as (l' & Hw' & HQ). by apply (Hf a l' HQ w').
Qed.
Lemma runs_ret {A} l (a : A) (Q : A → list OutboxEntry → Prop) E : Q a l → runs l (ret a) Q E.
Proof. intros HQ w Hw. by exists l. Qed.
Lemma runs_fails {A} l e (Q : A → list OutboxEntry → Prop) (E : list OutboxEntry → Prop) : E l → runs l (fails e) Q E.
Proof. intros HE w Hw. by exists l. Qed.
Lemma runs_lift {A} l (r : Result A string) (Q : A → list OutboxEntry → Prop) (E : list OutboxEntry → Prop) :
  (∀ a, r = Ok a → Q a l) → E l → runs l (lift r) Q E.
Proof. intros HQ HE w Hw. unfold lift. destruct r; exists l; auto. Qed.
Lemma runs_require l b e (Q : unit → list OutboxEntry → Prop) (E : list OutboxEntry → Prop) :
  (b = true → Q tt l) → E l → runs l (require b e) Q E.
Proof. intros HQ HE. unfold require. destruct b; [apply runs_ret; auto|by apply runs_fails]. Qed.
Lemma runs_present {A} l (a : option A) e (Q : A → list OutboxEntry → Prop) (E : list OutboxEntry → Prop) :
  (∀ x, a = Some x → Q x l) → E l → runs l (present a e) Q E.
Proof. intros HQ HE. unfold present. destruct a; [apply runs_ret; auto|by apply runs_fails]. Qed.
Lemma runs_append l e (Q : unit → list OutboxEntry → Prop) (E : list OutboxEntry → Prop) :
  (∀ l', updated l e l' → Q tt l') → E l → runs l (durable_append e) Q E.
Proof.
  intros HQ HE w Hw. destruct (durable_append_records e w l Hw) as (w' & r & -> & Hr).
  destruct r as [[]|]; [|by exists l]. destruct Hr as (l' & Hr & Hu). exists l'. auto.
Qed.
Lemma runs_append_then {A} l e (k : M A) Q (E : list OutboxEntry → Prop) :
  (∀ l', updated l e l' → runs l' k Q E) → E l → runs l (bind (durable_append e) (λ _, k)) Q E.
Proof. intros Hk HE. apply (runs_bind _ _ _ (λ _ l', updated l e l')); [by apply runs_append|]. intros _ l'. apply Hk. Qed.
Lemma runs_current l id (Q : option OutboxEntry → list OutboxEntry → Prop) (E : list OutboxEntry → Prop) :
  (∀ cur, (∀ e, e ∈ l → record_id e = id → cur = Some e) →
          (∀ e, cur = Some e → record_id e = id ∧ (e ∈ l ∨ state e = Completed)) → Q cur l) →
  E l → runs l (durable_current id) Q E.
Proof.
  intros HQ HE w Hw. destruct (durable_current_records id w l Hw) as (w' & [cur|] & -> & Hr & Hc); exists l; [|auto].
  destruct Hc. auto.
Qed.
Lemma runs_require_state l id s (Q : OutboxEntry → list OutboxEntry → Prop) (E : list OutboxEntry → Prop) :
  s ≠ Completed → (∀ e, e ∈ l → record_id e = id → state e = s → Q e l) → E l → runs l (require_state id s) Q E.
Proof.
  intros Hs HQ HE w Hw. destruct (require_state_records id s w l Hw) as (w' & [e|] & -> & Hr & Hc); exists l; [|auto].
  destruct Hc as (? & ? & [?|?]); [auto|done].
Qed.
Lemma runs_snapshot l (Q : list OutboxEntry → list OutboxEntry → Prop) (E : list OutboxEntry → Prop) :
  (∀ es, (∀ e, e ∈ l ↔ e ∈ es ∧ state e ≠ Completed) → Q es l) → E l → runs l durable_snapshot Q E.
Proof.
  intros HQ HE w Hw. destruct (durable_snapshot_records w l Hw) as (w' & [es|] & -> & Hr & Hc); exists l; auto.
Qed.
Lemma runs_read l (Q : list OutboxEntry → list OutboxEntry → Prop) (E : list OutboxEntry → Prop) :
  (∀ es, (∀ e, e ∈ l ↔ e ∈ es ∧ state e ≠ Completed) → Q es l) → E l → runs l read_outbox_records Q E.
Proof.
  intros HQ HE w Hw. destruct (read_records w l Hw) as (w' & [es|] & -> & Hr & Hc); exists l; auto.
Qed.
Lemma runs_mono {A} l (m : M A) (Q Q' : A → list OutboxEntry → Prop) (E E' : list OutboxEntry → Prop) :
  runs l m Q E → (∀ a l', Q a l' → Q' a l') → (∀ l', E l' → E' l') → runs l m Q' E'.
Proof.
  intros Hm HQ HE w Hw. specialize (Hm w Hw). destruct (m w) as [w' [a|e]]; destruct Hm as (l' & ? & ?); exists l'; auto.
Qed.

(** Updates of the records. *)
Lemma updated_other l e l' x : updated l e l' → x ∈ l → record_id x ≠ record_id e → x ∈ l'.
Proof. intros Hu Hx Hne. apply Hu. by right. Qed.
Lemma updated_self l e l' : updated l e l' → state e ≠ Completed → seal e ∈ l'.
Proof. intros Hu Hs. apply Hu. by left. Qed.
Lemma updated_from l e l' x : updated l e l' → x ∈ l' → x = seal e ∧ state e ≠ Completed ∨ x ∈ l ∧ record_id x ≠ record_id e.
Proof. intros Hu. apply Hu. Qed.
End logic.

(** ** Calls and recoveries *)

Section protocol.
Context `{OutboxCodec} `{SealLib}.

(** What a call that may run its effect has made durable. *)
Definition dispatched (l : list OutboxEntry) (h : SealedToolCallHandle) (l' : list OutboxEntry) : Prop :=
  ∃ e, record_id e = h_record_id h ∧ state e = Dispatched ∧ execution_idempotency_key e = h_execution_idempotency_key h
       ∧ intent_id e = h_intent_id h ∧ ciphertext_base64url e = None
       ∧ ∀ x, x ∈ l' ↔ x = e ∨ x ∈ l ∧ record_id x ≠ record_id e.
Lemma updated_twice l e l1 e' l2 :
  updated l e l1 → updated l1 e' l2 → record_id e = record_id e' → state e' ≠ Completed →
  ∀ x, x ∈ l2 ↔ x = seal e' ∨ x ∈ l ∧ record_id x ≠ record_id e'.
Proof.
  intros H1 H2 Hid Hs x. rewrite (H2 x), (H1 x), Hid. split.
  - intros [[-> _]|[[[-> _]|[? ?]] ?]]; [by left| |by right]. exfalso. simpl in *. congruence.
  - intros [->|[? ?]]; [by left|right]. split; [by right|done].
Qed.
Lemma prepare_runs create f subject_ref request_id session_id tool_name input_summary l :
  runs l (prepare_sealed_tool_call create f subject_ref request_id session_id tool_name input_summary)
    (dispatched l) (λ _, True).
Proof.
  unfold prepare_sealed_tool_call.
  eapply runs_bind with (Q := λ _ l1, l1 = l); [by apply runs_lift|intros key ? ->].
  eapply runs_bind with (Q := λ _ l1, l1 = l); [by apply runs_lift|intros intent ? ->].
  do 3 (eapply runs_bind with (Q := λ _ l1, l1 = l); [by apply runs_require|intros _ ? ->]).
  eapply runs_bind with (Q := λ _ l1, l1 = l); [by apply runs_present|intros iid ? ->].
  eapply runs_bind with (Q := λ _ l1, l1 = l); [by apply runs_present|intros region ? ->].
  eapply runs_bind with (Q := λ _ l1, l1 = l); [by apply runs_require|intros _ ? ->].
  eapply runs_bind with (Q := λ _ l1, l1 = l); [by apply runs_lift|intros pk ? ->].
  eapply runs_bind with (Q := λ _ l1, l1 = l); [by apply runs_require|intros _ ? ->].
  eapply runs_bind with (Q := λ _ l1, l1 = l); [by apply runs_lift|intros aad ? ->]. cbv zeta.
  set (p := mkEntry _ _ _ _ _ _ _ _ _ _ _ _ _ _ _ _ _ _).
  apply runs_append_then; [intros l1 H1|done]. apply runs_append_then; [intros l2 H2|done].
  eapply runs_bind with (Q := λ _ l3, l3 = l2); [by apply runs_present|intros summary ? ->].
  apply runs_ret. exists (seal (set_state p Dispatched)). repeat (split; [done|]).
  by apply (updated_twice l p l1 (set_state p Dispatched)).
Qed.

(** C22. A call may run its effect only after its record is durable: when the preparation
    succeeds, a restart at that point finds the record of the call, dispatched, without a
    ciphertext and under the key the effect runs with, beside every record there was. *)
Theorem prepare_is_write_ahead create f subject_ref request_id session_id tool_name input_summary w l w' h :
  records w l →
  prepare_sealed_tool_call create f subject_ref request_id session_id tool_name input_summary w = (w', Ok h) →
  ∃ l' e, restarts (disk w') l' ∧ record_id e = h_record_id h ∧ state e = Dispatched
          ∧ execution_idempotency_key e = h_execution_idempotency_key h ∧ ciphertext_base64url e = None
          ∧ ∀ x, x ∈ l' ↔ x = e ∨ x ∈ l ∧ record_id x ≠ record_id e.
Proof.
  intros Hr Hp. assert (Hruns := prepare_runs create f subject_ref request_id session_id tool_name input_summary l w Hr).
  rewrite Hp in Hruns. destruct Hruns as (l' & Hr' & e & ? & ? & ? & ? & ? & ?). exists l', e.
  split; [by apply records_restarts|done].
Qed.

(** What the end of a call leaves. *)
Definition others_kept (l : list OutboxEntry) (h : SealedToolCallHandle) (l' : list OutboxEntry) : Prop :=
  ∀ x, x ∈ l → record_id x ≠ h_record_id h → x ∈ l'.
Definition record_kept (l : list OutboxEntry) (h : SealedToolCallHandle) (l' : list OutboxEntry) : Prop :=
  ∀ x, x ∈ l → record_id x = h_record_id h → ∃ y, y ∈ l' ∧ record_id y = h_record_id h.
Definition ended (l : list OutboxEntry) (h : SealedToolCallHandle) (acknowledge : string → AckBody → Result unit string)
    (c : SealedCompletion) (l' : list OutboxEntry) : Prop :=
  others_kept l h l' ∧
  ∃ body, match c with
          | CallCompleted => acknowledge (ack_path (h_intent_id h)) body = Ok tt ∧ ∀ x, x ∈ l' → record_id x ≠ h_record_id h
          | CallIndeterminate =>
              (∃ err, acknowledge (ack_path (h_intent_id h)) body = Err err)
              ∧ ∃ y, y ∈ l' ∧ record_id y = h_record_id h ∧ state y = Indeterminate
                     ∧ ciphertext_base64url y = Some (a_ciphertext body)
          end.
Lemma complete_runs acknowledge h output success duration code l :
  runs l (complete_sealed_tool_call acknowledge h output success duration code)
    (ended l h acknowledge) (λ l', others_kept l h l' ∧ record_kept l h l').
Proof.
  assert (Hrefl : others_kept l h l ∧ record_kept l h l) by (split; intros x ? ?; eauto).
  unfold complete_sealed_tool_call.
  eapply runs_bind with (Q := λ _ l1, l1 = l).
  { unfold seal_payload. eapply runs_bind with (Q := λ _ l1, l1 = l); [by apply runs_present|intros ? ? ->].
    eapply runs_bind with (Q := λ _ l1, l1 = l); [by apply runs_lift|intros ? ? ->].
    eapply runs_bind with (Q := λ _ l1, l1 = l); [by apply runs_require|intros ? ? ->]. by apply runs_ret. }
  intros [[encapped ct] sha] ? ->. cbn [fst snd].
  eapply runs_bind with (Q := λ _ l1, ∃ e, record_id e = h_record_id h ∧ state e = Dispatched
    ∧ ciphertext_base64url e = Some ct ∧ updated l e l1).
  { unfold persist_ciphertext. eapply runs_bind with (Q := λ e l1, l1 = l ∧ record_id e = h_record_id h ∧ state e = Dispatched).
    - apply runs_require_state; [done| |done]. by intros e He Hid Hs.
    - intros e ? (-> & Hid & Hs). apply runs_append; [|done]. intros l1 Hu.
      by exists (set_checksum (set_sealed (set_state e Dispatched) encapped ct sha) 0). }
  intros _ l1 (e & Hid & Hs & Hct & Hu).
  assert (He : seal e ∈ l1) by (apply (updated_self l e l1); [done|by rewrite Hs]).
  assert (Hl1 : others_kept l h l1 ∧ record_kept l h l1).
  { split; [intros x Hx Hne; apply (updated_other l e l1 x Hu Hx); congruence|]. intros x _ _. by exists (seal e). }
  set (body := mkAck _ _ _ _ _ _). unfold settle.
  eapply runs_bind with (Q := λ e1 l2, l2 = l1 ∧ e1 = seal e).
  { apply runs_require_state; [done| |done]. intros e1 He1 Hid1 _. split; [done|].
    destruct (updated_from l e l1 e1 Hu He1) as [[-> _]|[_ Hne]]; [done|congruence]. }
  intros e1 ? [-> ->]. apply runs_append_then; [|done]. intros l2 Hu2. apply runs_ret.
  assert (Hother : others_kept l h l2).
  { intros x Hx Hne. refine (updated_other l1 _ l2 x Hu2 (proj1 Hl1 x Hx Hne) _). simpl. congruence. }
  destruct (acknowledge (ack_path (h_intent_id h)) body) as [[]|err] eqn:Hack; cbn [fst snd] in *; split; try done; exists body.
  - split; [done|]. intros x Hx. destruct (updated_from _ _ _ _ Hu2 Hx) as [[_ Hc]|[_ Hne]]; [done|]. simpl in Hne. congruence.
  - split; [by exists err|]. eexists. split; [by apply (updated_self _ _ _ Hu2)|]. done.
Qed.

(** The end of a call forgets its record only when the control plane acknowledged
    it: an answer that is an error leaves the record, indeterminate and with the sealed
    payload that was sent; a failure of the outbox leaves the record as it stood; and the
    records of other calls are kept in every case. *)
Theorem complete_forgets_only_acknowledged acknowledge h output success duration code w l :
  records w l →
  match complete_sealed_tool_call acknowledge h output success duration code w with
  | (w', Ok c) => ∃ l', records w' l' ∧ ended l h acknowledge c l'
  | (w', Err _) => ∃ l', records w' l' ∧ others_kept l h l' ∧ record_kept l h l'
  end.
Proof. intros Hr. by apply (complete_runs acknowledge h output success duration code l w). Qed.

(** A record through a recovery: the same effect, in its state or indeterminate. *)
Definition evolved (e x : OutboxEntry) : Prop :=
  record_id x = record_id e ∧ intent_id x = intent_id e ∧ append_identity x = append_identity e
  ∧ recipient_generation x = recipient_generation e ∧ event_kind x = event_kind e
  ∧ encapsulated_key_base64url x = encapsulated_key_base64url e ∧ ciphertext_base64url x = ciphertext_base64url e
  ∧ payload_sha256 x = payload_sha256 e ∧ (state x = state e ∨ state x = Indeterminate).
Definition acknowledged_by (acknowledge : string → AckBody → Result unit string) (e : OutboxEntry) : Prop :=
  ∃ encapped ct sha, encapsulated_key_base64url e = Some encapped ∧ ciphertext_base64url e = Some ct
    ∧ payload_sha256 e = Some sha
    ∧ acknowledge (ack_path (intent_id e))
        (mkAck (append_identity e) (recipient_generation e) (event_kind e) encapped ct sha) = Ok tt.
Definition unique_ids (l : list OutboxEntry) : Prop := ∀ x y, x ∈ l → y ∈ l → record_id x = record_id y → x = y.
(** The records [l] a recovery of [l0] has reached. *)
Definition tracked (acknowledge : string → AckBody → Result unit string) (l0 l : list OutboxEntry) : Prop :=
  (∀ e, e ∈ l0 → (∃ x, x ∈ l ∧ evolved e x) ∨ acknowledged_by acknowledge e)
  ∧ (∀ x, x ∈ l → ∃ e, e ∈ l0 ∧ evolved e x)
  ∧ (∀ e, e ∈ l0 → recoverable e = false → e ∈ l).
Lemma evolved_refl e : evolved e e.
Proof. unfold evolved. tauto. Qed.
Lemma tracked_refl ack l : tracked ack l l.
Proof. split; [intros e He; left; exists e; eauto using evolved_refl|]. split; [intros x Hx; exists x; eauto using evolved_refl|done]. Qed.
Lemma evolved_state e x s : evolved e x → s = Indeterminate ∨ s = state e → evolved e (seal (set_checksum (set_state x s) 0)).
Proof. unfold evolved. simpl. intros (? & ? & ? & ? & ? & ? & ? & ? & ?) [->| ->]; tauto. Qed.
Lemma tracked_origin ack l0 l e x :
  unique_ids l0 → tracked ack l0 l → e ∈ l0 → x ∈ l → record_id x = record_id e → evolved e x.
Proof.
  intros Hu (_ & Hb & _) He Hx Hid. destruct (Hb x Hx) as (o & Ho & Hev). assert (o = e) as ->; [|done].
  apply Hu; [done|done|]. destruct Hev as (Hro & _). congruence.
Qed.
Lemma tracked_step ack l0 l e x s l' :
  unique_ids l0 → tracked ack l0 l → e ∈ l0 → recoverable e = true → x ∈ l → record_id x = record_id e →
  s = Indeterminate ∨ s = Completed ∧ acknowledged_by ack e →
  updated l (set_checksum (set_state x s) 0) l' → tracked ack l0 l'.
Proof.
  intros Hu Ht He Hrec Hx Hid Hs Hupd. assert (Hev := tracked_origin ack l0 l e x Hu Ht He Hx Hid).
  destruct Ht as (Hf & Hb & Hk). split; [|split].
  - intros o Ho. destruct (decide (record_id o = record_id e)) as [Heq|Hne].
    + assert (o = e) as -> by by apply Hu. destruct Hs as [->|[-> Hack]]; [left|by right].
      eexists. split; [apply (updated_self _ _ _ Hupd); done|]. apply evolved_state; auto.
    + destruct (Hf o Ho) as [(y & Hy & Hoy)|?]; [left|by right]. exists y. split; [|done].
      apply (updated_other _ _ _ y Hupd Hy). simpl. destruct Hoy as (Hyo & _). congruence.
  - intros y Hy. destruct (updated_from _ _ _ _ Hupd Hy) as [[-> Hc]|[Hy' _]]; [|by apply Hb].
    exists e. split; [done|]. destruct Hs as [->|[-> _]]; [|done]. apply evolved_state; auto.
  - intros o Ho Hnr. apply (updated_other _ _ _ o Hupd); [by apply Hk|]. simpl. intros Heq.
    assert (o = e) as -> by (apply Hu; congruence). congruence.
Qed.
Lemma recover_entry_runs ack report l0 l e :
  unique_ids l0 → tracked ack l0 l → e ∈ l0 → recoverable e = true →
  runs l (recover_entry ack report e) (λ _ l', tracked ack l0 l') (tracked ack l0).
Proof.
  intros Hu Ht He Hrec. unfold recover_entry.
  destruct (encapsulated_key_base64url e) as [encapped|] eqn:E1; [|by apply runs_ret].
  destruct (ciphertext_base64url e) as [ct|] eqn:E2; [|by apply runs_ret].
  destruct (payload_sha256 e) as [sha|] eqn:E3; [|by apply runs_ret]. cbv zeta.
  eapply runs_bind with (Q := λ cur l1, l1 = l ∧ ∀ x, cur = Some x → record_id x = record_id e ∧ (x ∈ l ∨ state x = Completed)).
  { by apply runs_current. }
  intros [x|] ? [-> Hcur]; [|by apply runs_ret]. destruct (Hcur x eq_refl) as [Hid Hx].
  destruct (recoverable x) eqn:Hrx; cbn [negb]; [|by apply runs_ret].
  assert (Hxl : x ∈ l).
  { destruct Hx as [?|Hc]; [done|]. unfold recoverable, is_state in Hrx. by rewrite Hc in Hrx. }
  destruct (ack _ _) as [[]|err] eqn:Hack.
  - apply runs_append_then; [|done]. intros l' Hupd. apply runs_ret.
    eapply (tracked_step ack l0 l e x Completed); try done. right. split; [done|]. by exists encapped, ct, sha.
  - destruct (is_state Indeterminate x); cbn [negb].
    + eapply runs_bind with (Q := λ _ l1, l1 = l); [by apply runs_ret|]. intros _ ? ->. by apply runs_ret.
    + apply runs_append_then; [|done]. intros l' Hupd. apply runs_ret.
      eapply (tracked_step ack l0 l e x Indeterminate); try done. by left.
Qed.
Lemma recover_all_runs ack es report l0 l :
  unique_ids l0 → tracked ack l0 l → (∀ e, e ∈ es → e ∈ l0 ∧ recoverable e = true) →
  runs l (recover_all ack report es) (λ _ l', tracked ack l0 l') (tracked ack l0).
Proof.
  intros Hu. revert report l; induction es as [|e es IH]; intros report l Ht Hes; [by apply runs_ret|]. cbn [recover_all].
  eapply runs_bind; [apply recover_entry_runs; try done; apply Hes; left|].
  intros report' l' Ht'. apply IH; [done|]. intros x Hx. apply Hes. by right.
Qed.
Lemma recoverable_snapshot (l es : list OutboxEntry) e :
  (∀ e, e ∈ l ↔ e ∈ es ∧ state e ≠ Completed) → e ∈ List.filter recoverable es ↔ e ∈ l ∧ recoverable e = true.
Proof.
  intros Hes. rewrite filter_elem, Hes. unfold recoverable, is_state. split; [|tauto]. intros [? Hr]. repeat split; try done.
  intros Hc. by rewrite Hc in Hr.
Qed.

(** C23. A recovery forgets a record only when the control plane acknowledged the sealed
    payload of that record; every other one is still there, the same effect with the same
    payload, in its state or indeterminate; and a record that was prepared and never
    dispatched is left as it is. *)
Theorem recovery_forgets_only_acknowledged acknowledge w l w' r :
  records w l → recover_sealed_outbox acknowledge w = (w', r) → ∃ l', records w' l' ∧ tracked acknowledge l l'.
Proof.
  intros Hr Hrec.
  assert (Hruns : runs l (recover_sealed_outbox acknowledge) (λ _, tracked acknowledge l) (tracked acknowledge l)).
  { unfold recover_sealed_outbox.
    eapply runs_bind with (Q := λ es l1, l1 = l ∧ ∀ e, e ∈ l ↔ e ∈ es ∧ state e ≠ Completed).
    { apply runs_snapshot; [by intros es Hes|apply tracked_refl]. }
    intros es ? [-> Hes]. apply recover_all_runs; [|apply tracked_refl|].
    - intros x y. by apply (records_unique w).
    - intros e He. by apply (recoverable_snapshot l es). }
  specialize (Hruns w Hr). rewrite Hrec in Hruns. by destruct r.
Qed.

(** The report of a recovery. *)
Lemma recover_entry_report ack report l e :
  runs l (recover_entry ack report e)
    (λ report' _, ∃ more, unresolved report' = unresolved report ++ more
                          ∧ (ciphertext_base64url e = None → more ≠ [])) (λ _, True).
Proof.
  unfold recover_entry.
  destruct (encapsulated_key_base64url e) as [encapped|], (ciphertext_base64url e) as [ct|], (payload_sha256 e) as [sha|];
    try (apply runs_ret; eexists; split; [done|]; done). cbv zeta.
  apply (runs_bind _ _ _ (λ _ _, True)); [by apply runs_current|]. intros [x|] l1 _; [|apply runs_ret; exists []; by rewrite app_nil_r].
  destruct (negb (recoverable x)); [apply runs_ret; exists []; by rewrite app_nil_r|]. destruct (ack _ _) as [[]|err].
  - apply runs_append_then; [|done]. intros l' _. apply runs_ret. exists []. by rewrite app_nil_r.
  - apply (runs_bind _ _ _ (λ _ _, True)).
    + destruct (negb _); [by apply runs_append|by apply runs_ret].
    + intros _ l' _. apply runs_ret. by eexists.
Qed.
Lemma recover_all_report ack es report l :
  runs l (recover_all ack report es)
    (λ report' _, ∃ more, unresolved report' = unresolved report ++ more
                          ∧ ((∃ e, e ∈ es ∧ ciphertext_base64url e = None) → more ≠ [])) (λ _, True).
Proof.
  revert report l; induction es as [|e es IH]; intros report l; cbn [recover_all].
  - apply runs_ret. exists []. rewrite app_nil_r. split; [done|]. intros (e & He & _). by apply not_elem_of_nil in He.
  - eapply runs_bind; [apply recover_entry_report|]. intros report' l' (m1 & H1 & Hm1).
    eapply runs_mono; [apply IH| |done]. intros report'' _ (m2 & H2 & Hm2). exists (m1 ++ m2).
    rewrite H2, H1, app_assoc. split; [done|]. intros (x & [->|Hx]%elem_of_cons & Hn) Happ; apply app_nil in Happ as [? ?].
    + by apply Hm1.
    + apply Hm2; eauto.
Qed.
Lemma filter_nonempty (l : list OutboxEntry) e : e ∈ List.filter recoverable l → (length (List.filter recoverable l) =? 0) = false.
Proof. destruct (List.filter recoverable l); [by intros ?%not_elem_of_nil|done]. Qed.

(** As long as an effect is recorded and its payload is not sealed, no call is
    served, whatever the control plane answers: an effect of unknown outcome is never
    followed by another one.  The record of a call that is still running is such a
    record, so that a call in flight turns every other call away. *)
Theorem unsealed_effect_blocks_calls acknowledge w l e :
  records w l → e ∈ l → recoverable e = true → ciphertext_base64url e = None →
  ∃ w' err, ensure_recovered_before_serving acknowledge w = (w', Err err).
Proof.
  intros Hr He Hrec Hct.
  assert (Hruns : runs l (ensure_recovered_before_serving acknowledge) (λ _ _, False) (λ _, True)).
  { unfold ensure_recovered_before_serving, pending_recoverable_effects.
    apply (runs_bind _ _ _ (λ n l1, l1 = l ∧ (n =? 0) = false)).
    - apply (runs_bind _ _ _ (λ es l1, l1 = l ∧ e ∈ List.filter recoverable es)).
      + apply runs_read; [|done]. intros es Hes. split; [done|]. by apply (recoverable_snapshot l).
      + intros es ? [-> Hin]. apply runs_ret. split; [done|]. by eapply filter_nonempty.
    - intros n ? [-> ->]. apply (runs_bind _ _ _ (λ report _, unresolved report ≠ [])).
      + unfold recover_sealed_outbox. apply (runs_bind _ _ _ (λ es _, e ∈ List.filter recoverable es)).
        * apply runs_snapshot; [|done]. intros es Hes. by apply (recoverable_snapshot l).
        * intros es l1 Hin. eapply runs_mono; [apply recover_all_report| |done].
          intros report l2 (more & -> & Hm). simpl. apply Hm. by exists e.
      + intros report l1 Hne. destruct (unresolved report); [done|]. by apply runs_fails. }
  specialize (Hruns w Hr). destruct (ensure_recovered_before_serving acknowledge w) as [w' [rep|err]]; [|by eexists _, _].
  by destruct Hruns as (? & _ & ?).
Qed.

(** What a recovery without a rest leaves: none of the ids it went through. *)
Definition gone (id : string) (l : list OutboxEntry) : Prop := ∀ x, x ∈ l → record_id x ≠ id.
Lemma gone_updated id l e l' : gone id l → (∃ x, x ∈ l ∧ record_id x = record_id e) → updated l e l' → gone id l'.
Proof.
  intros Hg (x & Hx & Hid) Hu y Hy. destruct (updated_from _ _ _ _ Hu Hy) as [[-> _]|[Hy' _]]; [|by apply Hg].
  simpl. rewrite <- Hid. by apply Hg.
Qed.
Lemma recover_entry_gone ack report l0 l e :
  unique_ids l0 → tracked ack l0 l → e ∈ l0 → recoverable e = true →
  runs l (recover_entry ack report e)
    (λ report' l', (unresolved report' = [] → gone (record_id e) l') ∧ ∀ id, gone id l → gone id l') (λ _, True).
Proof.
  intros Hu Ht He Hrec. unfold recover_entry.
  destruct (encapsulated_key_base64url e) as [encapped|], (ciphertext_base64url e) as [ct|], (payload_sha256 e) as [sha|];
    try (apply runs_ret; split; [simpl; intros [_ ?]%app_nil; done|done]). cbv zeta.
  eapply runs_bind with (Q := λ cur l1, l1 = l ∧ (∀ x, x ∈ l → record_id x = record_id e → cur = Some x)
    ∧ ∀ x, cur = Some x → record_id x = record_id e ∧ (x ∈ l ∨ state x = Completed)); [by apply runs_current|].
  intros [x|] ? (-> & Hcur1 & Hcur2).
  2: { apply runs_ret. split; [|done]. intros _ y Hy Hid. by specialize (Hcur1 y Hy Hid). }
  destruct (Hcur2 x eq_refl) as [Hid Hx].
  destruct (recoverable x) eqn:Hrx; cbn [negb].
  2: { apply runs_ret. split; [|done]. intros _ y Hy Hidy. specialize (Hcur1 y Hy Hidy). simplify_eq.
       assert (Hev := tracked_origin ack l0 l e y Hu Ht He Hy Hidy). destruct Hev as (_ & _ & _ & _ & _ & _ & _ & _ & Hst).
       unfold recoverable, is_state in *. destruct Hst as [Hst|Hst]; rewrite Hst in Hrx; [congruence|done]. }
  assert (Hxl : x ∈ l).
  { destruct Hx as [?|Hc]; [done|]. unfold recoverable, is_state in Hrx. by rewrite Hc in Hrx. }
  destruct (ack _ _) as [[]|err].
  - apply runs_append_then; [|done]. intros l' Hupd. apply runs_ret. split.
    + intros _ y Hy. destruct (updated_from _ _ _ _ Hupd Hy) as [[_ Hc]|[_ Hne]]; [done|]. simpl in Hne. congruence.
    + intros id Hg. eapply gone_updated; [done| |done]. by exists x.
  - apply (runs_bind _ _ _ (λ _ l', ∀ id, gone id l → gone id l')).
    + destruct (negb _); [apply runs_append; [|done]|by apply runs_ret]. intros l' Hupd id Hg.
      eapply gone_updated; [done| |done]. by exists x.
    + intros _ l' Hg. apply runs_ret. split; [simpl; intros [_ ?]%app_nil; done|done].
Qed.
Lemma records_fun w l1 l2 : records w l1 → records w l2 → l1 = l2.
Proof.
  unfold records. destruct (store w); [by intros [_ <-] [_ <-]|].
  intros (ws1 & st1 & H1 & _ & <-) (ws2 & st2 & H2 & _ & <-). rewrite H1 in H2. by simplify_eq.
Qed.
Lemma runs_and {A} l (m : M A) Q1 Q2 E1 E2 :
  runs l m Q1 E1 → runs l m Q2 E2 → runs l m (λ a l', Q1 a l' ∧ Q2 a l') (λ l', E1 l' ∧ E2 l').
Proof.
  intros H1 H2 w Hw. specialize (H1 w Hw). specialize (H2 w Hw).
  destruct (m w) as [w' [a|e]]; destruct H1 as (l1 & Hr1 & ?), H2 as (l2 & Hr2 & ?);
    rewrite (records_fun w' l2 l1 Hr2 Hr1) in *; by exists l1.
Qed.
Lemma recover_all_gone ack es report l0 l :
  unique_ids l0 → tracked ack l0 l → (∀ e, e ∈ es → e ∈ l0 ∧ recoverable e = true) →
  runs l (recover_all ack report es)
    (λ report' l', (unresolved report' = [] → ∀ e, e ∈ es → gone (record_id e) l') ∧ ∀ id, gone id l → gone id l') (λ _, True).
Proof.
  intros Hu. revert report l; induction es as [|e es IH]; intros report l Ht Hes; cbn [recover_all].
  - apply runs_ret. split; [|done]. intros _ e He. by apply not_elem_of_nil in He.
  - destruct (Hes e ltac:(left)) as [He Hre].
    assert (Hstep := runs_and _ _ _ _ _ _ (recover_entry_runs ack report l0 l e Hu Ht He Hre)
                       (recover_entry_gone ack report l0 l e Hu Ht He Hre)).
    eapply runs_bind; [eapply runs_mono; [exact Hstep|intros a l' HQ; exact HQ|done]|].
    intros report1 l1 (Ht1 & Hg1 & Hm1).
    assert (Hes' : ∀ x, x ∈ es → x ∈ l0 ∧ recoverable x = true) by (intros x Hx; apply Hes; by right).
    assert (Hrest := runs_and _ _ _ _ _ _ (IH report1 l1 Ht1 Hes') (recover_all_report ack es report1 l1)).
    eapply runs_mono; [exact Hrest| |done]. intros report2 l2 ((Hg2 & Hm2) & more & Heq & _).
    split; [|auto]. intros Hnil. rewrite Hnil in Heq. symmetry in Heq. apply app_nil in Heq as [Hn1 _].
    intros x [->|Hx]%elem_of_cons; [by apply Hm2, Hg1|by apply Hg2].
Qed.
Lemma settle_gone h ack l : gone (h_record_id h) l → runs l (settle h ack) (λ _ _, False) (λ _, True).
Proof.
  intros Hg. unfold settle. apply (runs_bind _ _ _ (λ _ _, False)); [|done].
  apply runs_require_state; [done| |done]. intros e He Hid _. by apply (Hg e).
Qed.

(** C38. The end of a call loses against a recovery: when another call recovers the
    outbox, with nothing unresolved, between the sealing of this call's payload and its
    settlement, the settlement fails although this call's acknowledgement succeeded, and
    the client is told that the outcome of the effect is unknown. *)
Theorem settlement_loses_to_recovery acknowledge h w l e w1 report :
  records w l → e ∈ l → record_id e = h_record_id h → recoverable e = true →
  recover_sealed_outbox acknowledge w = (w1, Ok report) → unresolved report = [] →
  ∃ w2 err, settle h (Ok tt) w1 = (w2, Err err).
Proof.
  intros Hr He Hid Hre Hrec Hun.
  assert (Hruns : runs l (recover_sealed_outbox acknowledge)
    (λ report l', unresolved report = [] → gone (record_id e) l') (λ _, True)).
  { unfold recover_sealed_outbox.
    apply (runs_bind _ _ _ (λ es l1, l1 = l ∧ ∀ e, e ∈ l ↔ e ∈ es ∧ state e ≠ Completed)); [by apply runs_snapshot|].
    intros es ? [-> Hes]. eapply runs_mono; [apply (recover_all_gone acknowledge _ _ l)| |done].
    - intros x y. by apply (records_unique w).
    - apply tracked_refl.
    - intros x Hx. by apply (recoverable_snapshot l es).
    - intros rep l' [Hg _] Hnil. apply Hg; [done|]. by apply (recoverable_snapshot l es). }
  specialize (Hruns w Hr). rewrite Hrec in Hruns. destruct Hruns as (l' & Hr' & Hg). specialize (Hg Hun).
  rewrite Hid in Hg. assert (Hs := settle_gone h (Ok tt) l' Hg w1 Hr').
  destruct (settle h (Ok tt) w1) as [w2 [c|err]]; [by destruct Hs as (? & _ & ?)|by eexists _, _].
Qed.
End protocol.

(** ** Concrete calls *)
Module DemoCalls.
Import DemoOutbox.
#[local] Existing Instance demo_codec.
Definition tag (s : string) : string := s.
#[local] Instance demo_lib : SealLib := {|
  uuid_parse := Some;
  b64url := tag;
  b64_decode := Some;
  payload_json p := (p_tool_name p +:+ ":" +:+ p_input_summary p +:+ ":" +:+ p_output_summary p)%string;
  hpke_seal key aad text := Ok ("encapsulated"%string, (aad +:+ text +:+ "................")%string);
  env_key := Some "0123456789abcdef0123456789abcdef"%string;
  b64_standard_decode _ := None;
  hex_decode _ := None;
  hmac_hex key text := text;
|}.
Definition intent (append_identity : string) : Result CreateIntentResponse string :=
  Ok (mkIntent "intent-1" "region-1" append_identity EVENT_KIND_MCP_TOOL_CALL 1 EXPECTED_KEM EXPECTED_KDF EXPECTED_AEAD
        "0123456789abcdef0123456789abcdef" "aad" "tomorrow").
Definition fresh : Fresh := mkFresh "append-1" "record-1" "key-1" "request-1" "now".
Definition world0 : World := mkWorld fresh_disk (Some fresh_state) [].
Definition prepared : World * Result SealedToolCallHandle string :=
  prepare_sealed_tool_call intent fresh "session" None "session" "tool" "input" world0.
Lemma world0_records : records world0 [].
Proof. split; [apply fresh_durable|done]. Qed.
Definition handle (id : string) : SealedToolCallHandle :=
  mkHandle id "key-1" "intent-1" "append-1" EVENT_KIND_MCP_TOOL_CALL 1 "0123456789abcdef0123456789abcdef" "aad" None
    "session" "tool" "input".
Lemma prepared_handle :
  prepare_sealed_tool_call intent fresh "session" None "session" "tool" "input" world0 = (prepared.1, Ok (handle "record-1")).
Proof. vm_compute. reflexivity. Qed.
(** Worlds with one record: in flight, and sealed. *)
Definition held (w : World) : list OutboxEntry := match store w with Some st => pending st | None => [] end.
Definition in_flight : World := (durable_append entry world0).1.
Definition sealed_entry : OutboxEntry := set_sealed entry "encapsulated" "ciphertext" "sha".
Definition sealed_world : World := (durable_append sealed_entry world0).1.
Lemma appended_records e : records (durable_append e world0).1 (held (durable_append e world0).1).
Proof.
  assert (Hd := append_durable fresh_disk fresh_state e fresh_durable).
  unfold durable_append, command, bind. cbn [turn turns world0 queue_full uncontended opened store append_locked disk].
  destruct (append fresh_disk fresh_state e) as [[ws st'] r]. by split.
Qed.
Definition in_flight_entry : OutboxEntry := seal entry.
Lemma in_flight_held : held in_flight = [in_flight_entry].
Proof. vm_compute. reflexivity. Qed.
Lemma sealed_held : held sealed_world = [seal sealed_entry].
Proof. vm_compute. reflexivity. Qed.
Definition all_acknowledged (path : string) (body : AckBody) : Result unit string := Ok tt.
Definition recovered : World * Result RecoveryReport string := recover_sealed_outbox all_acknowledged sealed_world.
Lemma recovered_all : recover_sealed_outbox all_acknowledged sealed_world = (recovered.1, Ok (mkReport 1 [])).
Proof. vm_compute. reflexivity. Qed.
End DemoCalls.
Import DemoOutbox DemoCalls.
#[local] Existing Instance demo_codec.
#[local] Existing Instance demo_lib.

Lemma prepare_is_write_ahead_witness :
  ∃ l' e, restarts (disk prepared.1) l' ∧ record_id e = "record-1"%string ∧ state e = Dispatched
          ∧ execution_idempotency_key e = "key-1"%string ∧ ciphertext_base64url e = None
          ∧ ∀ x, x ∈ l' ↔ x = e ∨ x ∈ [] ∧ record_id x ≠ record_id e.
Proof.
  apply (prepare_is_write_ahead intent fresh "session" None "session" "tool" "input" world0 [] prepared.1 (handle "record-1"));
    [apply world0_records|apply prepared_handle].
Defined.
Lemma complete_forgets_only_acknowledged_witness :
  match complete_sealed_tool_call all_acknowledged (handle "r1") "output" true 5 None in_flight with
  | (w', Ok c) => ∃ l', records w' l' ∧ ended (held in_flight) (handle "r1") all_acknowledged c l'
  | (w', Err _) => ∃ l', records w' l' ∧ others_kept (held in_flight) (handle "r1") l' ∧ record_kept (held in_flight) (handle "r1") l'
  end.
Proof. apply complete_forgets_only_acknowledged, appended_records. Defined.
Lemma recovery_forgets_only_acknowledged_witness :
  ∃ l', records recovered.1 l' ∧ tracked all_acknowledged (held sealed_world) l'.
Proof.
  apply (recovery_forgets_only_acknowledged all_acknowledged sealed_world (held sealed_world) recovered.1 (Ok (mkReport 1 [])));
    [apply appended_records|apply recovered_all].
Defined.
Lemma unsealed_effect_blocks_calls_witness :
  ∃ w' err, ensure_recovered_before_serving all_acknowledged in_flight = (w', Err err).
Proof.
  apply (unsealed_effect_blocks_calls all_acknowledged in_flight (held in_flight) in_flight_entry);
    [apply appended_records|rewrite in_flight_held; left|reflexivity|reflexivity].
Defined.
Lemma settlement_loses_to_recovery_witness :
  ∃ w2 err, settle (handle "r1") (Ok tt) recovered.1 = (w2, Err err).
Proof.
  apply (settlement_loses_to_recovery all_acknowledged (handle "r1") sealed_world (held sealed_world) (seal sealed_entry)
    recovered.1 (mkReport 1 []));
    [apply appended_records|rewrite sealed_held; left|reflexivity|reflexivity|apply recovered_all|reflexivity].
Defined.
